(* ===== verification/_CoqProject ===== *)
-Q . S2P
Prelude.v
APInt.v
Bits.v
RNG.v
KTest.v
Expr.v
Semantics.v
ConstantOps.v
ExprCreate.v
CreateSound.v
OpsSound.v
SliceSound.v
ReadSound.v
ExprWeight.v
Visitor.v
Searcher.v
BasicSearchers.v
MetaSearchers.v
CGSWorld.v
CGSSearcher.v
CGSContract.v
CGSExecutor.v
CGSTargets.v
CGSRun.v
FindReads.v
Solver.v
Constraints.v
Evaluator.v
PTree.v
PTreeShape.v
RandomPath.v
SolverRange.v
IncompleteSolver.v
ValueRange.v
CachingSolver.v
MapOfSets.v
ImmutableTree.v
Memory.v
MemorySound.v
MemoryObjects.v
MemoryManager.v
AddressSpace.v
CopyOnWrite.v
SymbolicObjects.v
InitialValues.v
FastCexSolver.v
FastCexSound.v
TimingSolver.v
SeedInfo.v
ExecutorState.v
Resolution.v
Fork.v
ExecutorMemory.v
Resolutions.v
ForkSound.v
MemoryAccess.v
MemoryOperation.v
HostMemory.v
FiniteSolver.v
CexCachingSolver.v
IndependentSolver.v
IndependentInitial.v
ValidatingSolver.v
ConstantDivision.v
STPBuilder.v
STPSound.v
STPSolver.v
Samples.v
ExprProperties.v
ConstraintProperties.v
CounterexampleProperties.v
TreeProperties.v
ProcessTreeProperties.v
ExecutorProperties.v
MemoryProperties.v
SolverProperties.v
SearcherProperties.v
CGSProperties.v
MemoryOperationProperties.v
STPProperties.v
