(* ===== verification/Prelude.v ===== *)
(** * A verification of concrete-constraint guided symbolic execution

    The repository is a fork of KLEE (src/klee).  KLEE runs a program on
    symbolic inputs: execution states are scheduled by a _searcher_, values are
    _expressions_, and branches and memory checks put _queries_ to a stack of
    _solvers_.  The fork adds a searcher, CGS, that prefers the states that may
    take the side of a concrete branch no state has taken, and the handlers in
    the executor that tell it about branches and stores.  This development
    models those parts and proves what makes them correct.

    ** How the code is modelled

    A C++ function is a Rocq function of the same name; a member function takes
    the object, and state is passed along.  A call that may go wrong returns an
    [outcome] (this file): a result, a failed [assert], undefined behaviour
    (a null pointer, [back()] of an empty vector, [erase(end())], an iterator
    outside its container), or [OutOfFuel] where the code loops.  The theorems
    on operations say that they return a result, not only what holds when they
    do; the two that start from a run that returned are completed by others:
    [uncovered_side_exact] is about code without loops, and that the runs of
    [targets_invariant] go on is what [search_loop_safe] says.  Integers are
    [Z], wrapped with [u32], [u64] and [to_signed] where the code's type wraps.  Pointers to states, arrays and
    instructions are [positive].

    What the code takes from elsewhere is an argument, described by a class:
    [APIntOps] with the laws [APIntLaws] for llvm::APInt, [LLVMInfo] for the
    questions put to LLVM, [Oracle] for random numbers, the clock and the
    statistics, [ArrayHeap] for the arrays that exist, [SolverImpl] with
    [SoundSolver] for a core solver, [ArrayCache] with its laws for the arrays
    an object state asks for, [TargetContext] and [LongDouble] for the machine
    that is executed, [Clock] for the time a query takes, [STP] with [STPLaws]
    for the terms of the library STP and [STPQueries] with [STPQueriesLaws] for
    its answers, [Processes] for what becomes of a child process, [WideShifts] for
    a shift that C++ leaves undefined.  Each class has a concrete instance on
    which the theorems are instantiated by evaluation.

    ** The parts

    - Bits.v: include/klee/ADT/Bits.h.
    - Expressions.  APInt.v: the interface of llvm::APInt.  Expr.v: the class
      hierarchy of Expr.h, arrays and update lists, widths, the hashes and
      [Expr::compare].  Semantics.v: the value of an expression in an
      environment, and well-formedness.  ConstantOps.v: the methods of
      ConstantExpr.  ExprCreate.v: the create functions of Expr.cpp, which fold
      and rewrite, [rebuild], [UpdateList::extend] and [createTempRead].
      CreateSound.v, OpsSound.v, SliceSound.v, ReadSound.v: their soundness.
      FindReads.v, SymbolicObjects.v: [findReads] and [findSymbolicObjects] of
      ExprUtil.cpp.
    - Walks over expressions.  ExprWeight.v: the measure that bounds them.
      Visitor.v: ExprVisitor, a record of the methods a subclass overrides and
      the walk over it.  Constraints.v: the constraint manager and its visitors.
      Evaluator.v: ExprEvaluator and Assignment.
    - Searchers.  Searcher.v: the interface of Searcher.h as the class
      [Searcher], and its contract [SearcherLaws].  BasicSearchers.v: depth
      first, breadth first, random.  MetaSearchers.v: batching, iterative
      deepening, interleaving, over any searcher with the contract.
    - CGS.  CGSWorld.v: the record [World], the fields of Executor,
      ExecutionState and CGSSearcher the search reads and writes.
      CGSSearcher.v: CGSSearcher of Searcher.cpp.  CGSExecutor.v: the handlers
      of br, switch and store in [Executor::executeInstruction].
      CGSContract.v: [update] keeps the contract of a searcher.  CGSTargets.v:
      the lists of branches over runs of executor and searcher, the uncovered
      side, the caches of stored values, stale announcements.
      CGSRun.v: the main loop of [Executor::run] as a step relation, with what
      each round leaves for the next.
    - Solvers.  Solver.v: Query, the facade of Solver.cpp, the contract
      [SoundSolver] and [TotalSolver].  SolverRange.v: [Solver::getRange].
      IncompleteSolver.v, CachingSolver.v, IndependentSolver.v (with the factors
      of a query), ValidatingSolver.v: the solvers of lib/Solver of those names; each is proved against the interface of the solver under it
      and is itself an instance of that interface, so that they stack.
    - Counterexamples.  MapOfSets.v: the tree of sets of include/klee/ADT.
      InitialValues.v: [computeInitialValues], its contract
      [SoundInitialSolver], and AssignmentValidatingSolver.  CexCachingSolver.v:
      the cache of counterexamples over that contract.  IndependentInitial.v:
      counterexamples of the factors of a query.  FiniteSolver.v: a solver by
      exhaustion, which has the contracts, and a solver that always answers, by
      classical choice, for the theorems about everything above the solvers.
    - The fast counterexample solver, FastCexSolver.cpp.  ValueRange.v: ranges of
      words and their operations.  FastCexSolver.v: ExprRangeEvaluator.h, the
      ranges of possible and exact values of arrays ([CexObjectData]), their
      propagation from constraints to reads, and the answers.  FastCexSound.v: of
      which expressions ranges are computed ([ranged]) and right ([precise]), which
      propagation cannot fail ([pushes], [certain]), and that the answers are right.
    - The core solver STP.  ConstantDivision.v: the constants for products and
      quotients by constants, and that they are right.  STPBuilder.v: the
      translation of expressions to STP's terms, with the tables of the builder.
      STPSound.v: the laws of the terms, the bit vector functions of the builder,
      which expressions are translated ([canonical], [fits]) and that all of them
      are, by induction on expressions and updates.  STPSolver.v: queries to STP, in
      the process and in a child; the laws of answers, and the contract.
    - Memory.  Memory.v: include/klee/ADT/BitArray.h, the classes MemoryObject
      and ObjectState of Memory.h, the bounds checks, and the reads and writes of
      Memory.cpp at every width, with the symbolic fallbacks.
      MemorySound.v: they read and write the bytes of an abstract memory.
      MemoryObjects.v: the constructors and the concrete initialisations.
      ImmutableTree.v: the balanced trees of include/klee/ADT.  AddressSpace.v:
      binding, finding and writable copies over such trees, and spaces that share
      states; CopyOnWrite.v: several spaces over one store of objects, with forks.
      TimingSolver.v: the facade the executor puts queries to.  Resolution.v:
      the search of an address space for a pointer; Resolutions.v: what it finds.
      HostMemory.v: the flush of concrete objects before an external call.
      MemoryManager.v: allocation (MemoryManager.cpp), with the region of
      deterministic allocation; the system's allocator, [mmap] and LLVM's
      [alignTo] and [isPowerOf2_64] are the class [SystemAllocator].
    - The process tree.  PTree.v: the nodes of PTree.cpp on a heap, with the
      tags by which up to three random path searchers mark their states, and
      RandomPathSearcher of Searcher.cpp.  PTreeShape.v: the shape of the tree
      and what attaching, removing and compressing do to it.  RandomPath.v: the
      tags are the states a searcher holds.
    - Forking.  RNG.v: the Mersenne twister of lib/Support.  KTest.v: test files
      (lib/Basic).  SeedInfo.v: tests that guide the run.  ExecutorState.v: the
      class ExecutionState and the fields of Executor that forking changes.
      Fork.v: [fork], [addConstraint] and the end of states.  ForkSound.v: the
      invariant of the executor, and what every operation does to the set of runs
      its states stand for.
    - The memory operations of the executor.  ExecutorMemory.v: loads, stores,
      allocation and deallocation of Executor.cpp, and the concretization of
      values.  MemoryAccess.v: one access.  MemoryOperation.v: the fast path, and
      the loop that forks a state for each object.
    - Samples.v: the concrete inputs.  ExprProperties.v, ConstraintProperties.v,
      SolverProperties.v, CounterexampleProperties.v, TreeProperties.v,
      MemoryProperties.v, SearcherProperties.v, CGSProperties.v,
      ExecutorProperties.v, ProcessTreeProperties.v, MemoryOperationProperties.v,
      STPProperties.v and the end of
      Bits.v: the theorems, each followed by or collected with a run it applies
      to.

    ** What the theorems show

    Expressions: every constructor returns on well-formed operands and builds
    an expression of the right width with the value of the operator, whatever
    it folds ([BinaryExpr_create_sound], [rebuild_sound], [CastExpr_create_sound]
    and so on), but for divisions by the literal zero, which llvm::APInt does not
    define; reads see the writes before them ([read_after_write]); [compare]
    is a total order that agrees with equality.  The theorems on constructors
    are for the default of the option -const-array-opt, off.

    Searchers: the wrapping searchers keep the contract of the searcher they
    wrap; each basic searcher is described exactly.

    CGS: [CGS_update_contract] says that an update after a step of the selected
    state is defined and loses or duplicates no state; [targets_invariant] is
    the invariant of the target, waiting and covered branches over every run;
    [uncovered_side_exact] and [store_verdict_exact] say that what is recorded of
    a branch is the side that was not taken and that stored values are judged by
    it, but for the first value of a branch without an entry in the caches, which is
    taken for new unjudged; [search_loop_safe] puts the contract and the handlers together: over any
    rounds of the main loop a state can be selected, its handler returns and the
    update that reports it returns; [store_prepares_update] gives the detail for
    stores.

    Solvers: each layer answers soundly over a sound solver and answers whenever
    the layer below does; [solver_chain_refines] stacks them the way the code
    does.  Independence is proved from the evaluation of expressions: constraints
    on other array elements can be satisfied separately.

    The core solver: what the builder returns has the value of the expression,
    whatever it knows from before, so that a conjunction has a solution in STP
    exactly if it has one ([stp_translation_exact]); it asks that no symbolic array
    has the name of another with digits appended, as the number that makes names
    unique is appended ([names_apart], [names_collide]; [x_1] to [x_9] are such names,
    [x_1] and [x_11] are not), and leaves out the inputs on which the translation is known
    to differ: division by zero, arithmetic shifts beyond the width, constant
    amounts of more than 32 bits.  Products and quotients by constants are exact
    for every constant and operand ([constant_division_exact]).  On queries whose
    constraints make each other meaningful in their order the solver keeps the
    contract of counterexamples that the layers above are proved against
    ([stp_solver_sound]).

    The fast counterexample solver: the bounds of disjunctions and conjunctions
    are exact, and the range of an expression contains its values if the right
    sides of concatenations are bytes ([value_ranges_exact]); whatever it answers
    is right, and it fails on no query with a counterexample
    ([fast_cex_solver_sound]).  The queries are those whose form it can propagate
    ([propagable]): the indices of the reads that are propagated have right ranges
    and are inside the array where they are known, no empty range reaches a
    concatenation, and nothing is propagated into a sign extension.  What it does
    with others is shown by runs: it may answer wrongly ([wide_index_unsound]), fail
    an assertion ([empty_range_asserts]) or leave the language
    ([outside_read_undefined], [signed_word_undefined]); on a query without a
    counterexample an assertion may fail too ([valid_query_asserts]).

    Constraints: [addConstraint] and [simplifyExpr] return and keep the set of
    solutions ([constraint_manager_exact], [simplifyExpr_sound]).  An assignment
    of every byte evaluates every expression to its value, a partial one keeps
    the value ([assignment_evaluate_exact], [partial_evaluation_sound]).

    Counterexamples: the map of sets is the map of its insertions
    ([map_of_sets_exact]); the cache over it answers as the solver would, from
    any history ([cex_caching_refines]); factors are put together to a
    counterexample of the whole ([independent_initial_exact]); both validating
    solvers let only counterexamples pass ([assignment_validation_exact],
    [validating_initial_sound]).  Queries that are evaluated under concrete
    values ask that the path guards divisions and reads outside an array
    ([div_safe], [in_bounds], together [guarded]), and that constants under
    [NotOptimizedExpr] are folded ([clean]): the executor builds such queries,
    and [unoptimized_true_not_satisfied] shows what happens to others.

    Memory: an object state is a memory of bytes: whatever mix of concrete and
    symbolic bytes, caches and flushes it holds, a write changes the bytes it
    covers and a read returns them ([object_state_refines]); the checks of a
    pointer against an object hold exactly of the addresses inside it, on the
    64-bit machine ([bounds_checks_exact]); the balanced tree is the ordered map
    of its insertions and stays balanced ([immutable_tree_refines]).  Address
    spaces that share objects behave like address spaces with memories of their
    own, whatever the order of writes and forks ([copy_on_write_refines]), and
    no object is written that two of them see ([copy_on_write_owned]).  A
    symbolic pointer is resolved to every object it can point into, and to one
    if there is one ([resolve_exact], [resolveOne_exact]); this asks that
    objects do not overlap and lie inside the address range ([layout_ok]) and
    that the queries asked on the way do not divide by zero on the run that is
    followed ([asked]).  Before an external call the memory of the host is the
    memory of the state for concrete objects, and is left for symbolic ones
    ([flush_to_store_exact], [symbolic_object_not_flushed]).

    The executor: a state stands for the runs that satisfy its path condition.
    A fork gives each run of the state to exactly one side, and ends the runs the
    limits drop ([fork_exact]); over any history of forks, constraints and ends
    the runs are divided among the states ([paths_partition]), if the solver always
    answers and no limit drops a side ([forking]).  A load or a store
    through a symbolic pointer goes on with exactly the runs in which the access
    is inside an object that allows it, and reads or writes these bytes there
    ([memory_operation_exact]), under settings that concretize nothing
    ([exact_memory]).  Objects that are allocated deterministically
    stay apart with their red zones ([deterministic_allocation_safe]), for sizes
    that fit their type; [huge_allocation_overlaps] shows another.  These
    theorems, and the ideal solver of FiniteSolver.v, use classical logic: whether a
    run has a property is not decided.

    The process tree is the set of the states that exist, and each random path
    searcher walks to a state it holds ([process_tree_refines]).  A test that is
    written is read back ([ktest_roundtrip]).

    These theorems describe defects: [stale_announcement_undefined],
    [unsigned_compared_signed], [batching_budget_truncated],
    [cache_entry_never_refined], [unoptimized_true_not_satisfied],
    [cex_experimental_fails], [facade_reads_unwritten],
    [huge_allocation_overlaps], [symbolic_object_not_flushed],
    [names_collide], [runAndGetCex_unanswered], [wide_index_unsound],
    [valid_query_asserts], [empty_range_asserts], [outside_read_undefined],
    [signed_word_undefined] and [written_value_not_fixed].

    ** Fuel and bounds

    The create functions of sums and differences, and those of concatenations
    and extractions, call each other; their fuel is the size of the operands,
    which each call shrinks.  [findReads] walks a worklist; its fuel is the size
    of the expression, of which each node is pushed once.  The closure and the
    factors of a query loop until nothing changes; their fuel is one more than
    the number of constraints or factors, of which each round uses one up.  A
    binary search in [getRange] has 64 rounds, one per bit of the bounds.  The
    loop that splits a multiplier has 65, as each round ends one region of ones
    of a word; the words of a wide constant are as many as its bits at most.  The
    loops that bound bitwise operators visit 64 bits, and the one that looks for the
    highest bit clears one of 64 bits in each round.  Every
    theorem on these functions shows that the fuel is enough.  The visitors and
    the constraint manager rewrite what they have just rebuilt; there the
    theorems say that some amount of fuel gives the result and any more gives
    the same ([eventually]), which is termination of the code.  The independence
    theorems ask that arrays be indexed with at most 32 bits, as the code's
    element sets are sets of unsigned; [getRange] asks for at most 64 bits, as
    the code asserts.  Two sums at the end of their type are not wrapped:
    [BitArray_length] adds 31 to a size as a number, where BitArray.h adds in
    unsigned, so that the code's array is too short for objects of [2^32 - 31] bytes
    and more; and [read_string] takes room for a string and its end as a number,
    where KTest.cpp wraps for a string of [2^32 - 1] bytes.

    ** What is not modelled

    Reference counting and the caching of hashes are invisible in the model; so
    is that tables of the STP builder compare update nodes by address.
    Weighted random search, merging, implied values, the instructions but for those the fork adds to, and the metadata
    loaded at the start are left.  Z3 and metaSMT, LLVM passes, printers, the
    runtime and the tools are calls into other systems or input and output, and
    stay out.

    This file holds what the others share: [outcome] and its notations, widths
    and wrap-around, lexicographic comparison, and tactics. *)
From stdpp Require Import base list numbers strings gmap.
From Stdlib Require Import ZArith Lia String Ascii.

Declare Scope klee_scope.
Delimit Scope klee_scope with klee.
Open Scope klee_scope.
Local Open Scope Z_scope.

(** ** Outcomes *)

(** The result of running a C++ routine: it returns a value, a failed
    [assert] aborts the process, the routine leaves what the language defines
    (a null pointer is followed, an iterator is not inside its container), or
    the bounded interpretation of a non-structural recursion runs out of
    fuel. *)
Inductive outcome (A : Type) : Type :=
| Done (a : A)
| AssertFail
| Undefined
| OutOfFuel.
Arguments Done {A} a.
Arguments AssertFail {A}.
Arguments Undefined {A}.
Arguments OutOfFuel {A}.

#[export] Instance outcome_ret : MRet outcome := fun A a => Done a.
#[export] Instance outcome_bind : MBind outcome := fun A B f m =>
  match m with
  | Done a => f a
  | AssertFail => AssertFail
  | Undefined => Undefined
  | OutOfFuel => OutOfFuel
  end.
#[export] Instance outcome_fmap : FMap outcome := fun A B f m =>
  match m with
  | Done a => Done (f a)
  | AssertFail => AssertFail
  | Undefined => Undefined
  | OutOfFuel => OutOfFuel
  end.

Notation "'Assert' b ;; k" := (if (b : bool) then k else AssertFail)
  (at level 100, b at level 99, k at level 200, right associativity) : klee_scope.

(** Following a pointer or an iterator that may be invalid. *)
Definition deref {A} (o : option A) : outcome A :=
  match o with Some a => Done a | None => Undefined end.

Lemma bind_Done {A B} (f : A -> outcome B) (m : outcome A) (b : B) :
  (m ≫= f) = Done b <-> exists a, m = Done a /\ f a = Done b.
Proof. destruct m; cbn; naive_solver. Qed.

(** A computation step that does not unfold what comes after it. *)
Lemma bind_ret {A B} (f : A -> outcome B) (a : A) : (Done a ≫= f) = f a.
Proof. done. Qed.

Lemma bind_assoc {A B C} (m : outcome A) (f : A -> outcome B) (g : B -> outcome C) :
  ((m ≫= f) ≫= g) = (m ≫= fun x => f x ≫= g).
Proof. by destruct m. Qed.

Lemma mapM_Done {A B} (f : A -> outcome B) (Q : A -> B -> Prop) l :
  Forall (fun x => exists y, f x = Done y /\ Q x y) l -> exists ys, mapM f l = Done ys /\ Forall2 Q l ys.
Proof.
  induction 1 as [|x l (y & E & H) _ (ys & Es & Hs)]; [by exists []|].
  exists (y :: ys). cbn. rewrite E. cbn. rewrite Es. auto.
Qed.

(** ** Enough fuel *)

(** From some fuel on, the result is [a]. *)
Definition eventually {A} (f : nat -> outcome A) (a : A) : Prop :=
  exists n, forall m, (n <= m)%nat -> f m = Done a.

Lemma eventually_Done {A} (a : A) : eventually (fun _ => Done a) a.
Proof. by exists O. Qed.

Lemma eventually_bind {A B} (f : nat -> outcome A) (g : nat -> A -> outcome B) a b :
  eventually f a -> eventually (fun m => g m a) b -> eventually (fun m => f m ≫= g m) b.
Proof.
  intros [n Hn] [n' Hn']. exists (n `max` n')%nat. intros m Hm.
  rewrite Hn by lia. apply Hn'. lia.
Qed.

Lemma eventually_succ {A} (f g : nat -> outcome A) a :
  (forall m, f (S m) = g m) -> eventually g a -> eventually f a.
Proof.
  intros E [n Hn]. exists (S n). intros [|m] Hm; [lia|]. rewrite E. apply Hn. lia.
Qed.

Lemma eventually_ext {A} (f g : nat -> outcome A) a :
  (forall m, f m = g m) -> eventually g a -> eventually f a.
Proof. intros E [n Hn]. exists n. intros m Hm. rewrite E. auto. Qed.

Lemma eventually_now {A} (f : nat -> outcome A) a : (forall m, f m = Done a) -> eventually f a.
Proof. intros H. by exists O. Qed.

(** From some fuel on, the function does not depend on it. *)
Definition settles {A B} (f : nat -> A -> B) : Prop :=
  exists n, forall m, (n <= m)%nat -> forall x, f m x = f n x.

Lemma settles_now {A B} (f : A -> B) : settles (fun _ => f).
Proof. by exists O. Qed.

Lemma settles_ext {A B} (f g : nat -> A -> B) : (forall m x, f m x = g m x) -> settles g -> settles f.
Proof. intros E [n Hn]. exists n. intros m Hm x. rewrite !E. auto. Qed.

Lemma eventually_settles {A B C} (f : nat -> outcome A) a (g : A -> B -> outcome C) :
  eventually f a -> settles (fun m x => f m ≫= fun a => g a x).
Proof. intros [n Hn]. exists n. intros m Hm x. by rewrite !Hn by lia. Qed.

(** One fuel for the members of a list. *)
Lemma settles_list {A B C} (f : C -> nat -> A -> B) (l : list C) : (forall c, c ∈ l -> settles (f c)) ->
  exists n, forall m, (n <= m)%nat -> forall c, c ∈ l -> forall x, f c m x = f c n x.
Proof.
  induction l as [|c l IH]; intros H; [exists O; intros m _ c Hc; by apply elem_of_nil in Hc|].
  destruct (H c ltac:(by left)) as [n Hn], IH as [n' Hn']; [intros c' Hc'; apply H; by right|]. exists (n `max` n')%nat.
  intros m Hm c' [-> |Hc']%elem_of_cons x; [rewrite (Hn m), (Hn (n `max` n')%nat) by lia; done|].
  rewrite (Hn' m), (Hn' (n `max` n')%nat) by (done || lia). done.
Qed.

(** ** Machine integers *)

(** [unsigned] and [uint64_t] arithmetic wraps. *)
Definition u32 (z : Z) : Z := z mod 2 ^ 32.
Definition u64 (z : Z) : Z := z mod 2 ^ 64.

Lemma u32_range z : 0 <= u32 z < 2 ^ 32.
Proof. apply Z.mod_pos_bound; lia. Qed.

Lemma u64_range z : 0 <= u64 z < 2 ^ 64.
Proof. apply Z.mod_pos_bound; lia. Qed.

Lemma pow2_pos w : 0 <= w -> 0 < 2 ^ w.
Proof. intros; apply Z.pow_pos_nonneg; lia. Qed.

Lemma pow2_ge2 w : 0 < w -> 2 <= 2 ^ w.
Proof. intros. change 2 with (2 ^ 1) at 1. apply Z.pow_le_mono_r; lia. Qed.

Lemma pow2_half w : 0 < w -> 2 ^ w = 2 * 2 ^ (w - 1).
Proof. intros. rewrite <- Z.pow_succ_r by lia. f_equal; lia. Qed.

Lemma pow2_mono a b : 0 <= a <= b -> 2 ^ a <= 2 ^ b.
Proof. intros. apply Z.pow_le_mono_r; lia. Qed.

Lemma mod_pow2_range x w : 0 <= w -> 0 <= x mod 2 ^ w < 2 ^ w.
Proof. intros. apply Z.mod_pos_bound, pow2_pos; lia. Qed.

(** Reducing modulo a larger power of two first changes nothing. *)
Lemma mod_mod_pow2 x a b : 0 <= a <= b -> (x mod 2 ^ b) mod 2 ^ a = x mod 2 ^ a.
Proof.
  intros. symmetry. apply Znumtheory.Zmod_div_mod; try (apply pow2_pos; lia).
  exists (2 ^ (b - a)). rewrite <- Z.pow_add_r by lia. f_equal; lia.
Qed.

(** Bitwise operations keep the width. *)
Lemma bitop_range (f : Z -> Z -> Z) (g : bool -> bool -> bool) w x y :
  (forall a b n, Z.testbit (f a b) n = g (Z.testbit a n) (Z.testbit b n)) ->
  g false false = false -> 0 <= w -> 0 <= x < 2 ^ w -> 0 <= y < 2 ^ w -> 0 <= f x y < 2 ^ w.
Proof.
  intros Hf Hg Hw Hx Hy. enough (f x y = f x y mod 2 ^ w) as -> by by apply mod_pow2_range.
  apply Z.bits_inj'. intros n Hn. destruct (Z.lt_ge_cases n w).
  - by rewrite Z.mod_pow2_bits_low by lia.
  - rewrite Z.mod_pow2_bits_high by lia.
    rewrite Hf, <- (Z.mod_small x (2 ^ w)), <- (Z.mod_small y (2 ^ w)) by done.
    by rewrite !Z.mod_pow2_bits_high by lia.
Qed.

(** Congruence modulo [m] decides equality of the residues. *)
Lemma mod_eq_of_diff x y m : 0 < m -> (m | x - y) -> x mod m = y mod m.
Proof.
  intros Hm [k Hk]. replace x with (y + k * m) by lia.
  apply Z_mod_plus_full.
Qed.

Lemma mod_inj x y m : 0 <= x < m -> 0 <= y < m -> x mod m = y mod m -> x = y.
Proof. intros. rewrite <- (Z.mod_small x m), <- (Z.mod_small y m) by lia. done. Qed.

(** The value a comparison of two C++ objects returns: -1, 0 or 1. *)
Definition int_of_comparison (c : comparison) : Z :=
  match c with Lt => -1 | Eq => 0 | Gt => 1 end.

(** Comparisons that fall through to the next criterion when equal. *)
Definition compare_then (c d : comparison) : comparison :=
  match c with Eq => d | _ => c end.

Lemma compare_then_Eq c d : compare_then c d = Eq <-> c = Eq /\ d = Eq.
Proof. destruct c; cbn; naive_solver. Qed.

Lemma compare_then_opp c d :
  CompOpp (compare_then c d) = compare_then (CompOpp c) (CompOpp d).
Proof. by destruct c. Qed.

(** How three comparisons of [x y], [y z] and [x z] must fit together for the
    order to be transitive; closed under lexicographic composition. *)
Definition trans3 (xy yz xz : comparison) : Prop :=
  (xy = Lt -> yz = Lt -> xz = Lt) /\ (xy = Eq -> xz = yz) /\ (yz = Eq -> xz = xy).

Lemma trans3_then c1 c2 c3 d1 d2 d3 :
  trans3 c1 c2 c3 -> (c1 = Eq -> c2 = Eq -> trans3 d1 d2 d3) ->
  trans3 (compare_then c1 d1) (compare_then c2 d2) (compare_then c3 d3).
Proof. unfold trans3. destruct c1, c2, c3; cbn; naive_solver. Qed.

Lemma Z_compare_trans3 x y z : trans3 (x ?= y) (y ?= z) (x ?= z).
Proof.
  unfold trans3. repeat split; rewrite ?Z.compare_lt_iff, ?Z.compare_eq_iff;
    [lia | by intros -> | by intros ->].
Qed.

Lemma Pos_compare_trans3 x y z : trans3 (Pos.compare x y) (Pos.compare y z) (Pos.compare x z).
Proof.
  unfold trans3. repeat split; rewrite ?Pos.compare_lt_iff, ?Pos.compare_eq_iff;
    [lia | by intros -> | by intros ->].
Qed.

Lemma N_compare_trans3 x y z : trans3 (N.compare x y) (N.compare y z) (N.compare x z).
Proof.
  unfold trans3. repeat split; rewrite ?N.compare_lt_iff, ?N.compare_eq_iff;
    [lia | by intros -> | by intros ->].
Qed.

(** [std::string] comparison is lexicographic. *)
Lemma string_compare_cons a s b t :
  String.compare (String a s) (String b t) =
  compare_then (N.compare (Ascii.N_of_ascii a) (Ascii.N_of_ascii b)) (String.compare s t).
Proof. cbn. unfold Ascii.compare. by destruct (N.compare _ _). Qed.

Lemma string_compare_refl s : String.compare s s = Eq.
Proof. induction s; [done|]. rewrite string_compare_cons, N.compare_refl. done. Qed.

Lemma string_compare_trans3 s t u :
  trans3 (String.compare s t) (String.compare t u) (String.compare s u).
Proof.
  revert t u; induction s as [|a s IH]; intros [|b t] [|c u]; try by (unfold trans3; cbn; naive_solver).
  rewrite !string_compare_cons. apply trans3_then; [apply N_compare_trans3|auto].
Qed.

(** ** Tactics *)

Ltac destruct_exs :=
  repeat match goal with H : exists _, _ |- _ => destruct H end.

(** ** Hint databases *)

(** [apint]: the documented equations of the constants' operations;
    [expr_wf]: well-formedness of built expressions. *)
Create Rewrite HintDb apint.
Create HintDb expr_wf.

(** Follows a run that returned back to the cases it went through. *)
Ltac run_inv :=
  repeat match goal with
    | H : (_ ≫= _) = Done _ |- _ => apply bind_Done in H as (? & ? & H)
    | H : Done _ = Done _ |- _ => injection H as H
    | H : (_, _) = (_, _) |- _ => injection H as H
    | H : AssertFail = Done _ |- _ => discriminate H
    | H : Undefined = Done _ |- _ => discriminate H
    | x : (_ * _)%type |- _ => destruct x; cbn [fst snd] in *
    | H : match ?o with _ => _ end = Done _ |- _ => destruct o eqn:?
    end; subst.
