(* ===== verification/APInt.v ===== *)
(** The arbitrary-precision integers constants are made of.

    [llvm::APInt] is LLVM code, not code of this repository: its operations
    are the fields of the class [APIntOps], an argument of every definition
    that uses them, and [APIntLaws] states the documented behaviour the
    repository relies on.  An APInt is a bit width and an unsigned value. *)
From stdpp Require Import base numbers.
From Stdlib Require Import ZArith Lia.
From S2P Require Import Prelude.
Local Open Scope Z_scope.

Record APInt : Type := MkAPInt { getBitWidth : Z; uval : Z }.

#[export] Instance APInt_eq_dec : EqDecision APInt.
Proof. solve_decision. Defined.

(** Two's complement reading of [v] at width [w]. *)
Definition to_signed (w v : Z) : Z := if v <? 2 ^ (w - 1) then v else v - 2 ^ w.

Definition sval (a : APInt) : Z := to_signed (getBitWidth a) (uval a).

Definition wf_apint (a : APInt) : Prop :=
  0 < getBitWidth a /\ 0 <= uval a < 2 ^ getBitWidth a.

(** The operations of [llvm::APInt] the repository calls.  [ap_hash] is
    [llvm::hash_value]. *)
Class APIntOps : Type := {
  ap_of_u64 : Z -> Z -> APInt;
  ap_zext : APInt -> Z -> APInt;
  ap_zextOrTrunc : APInt -> Z -> APInt;
  ap_sextOrTrunc : APInt -> Z -> APInt;
  ap_add : APInt -> APInt -> APInt;
  ap_sub : APInt -> APInt -> APInt;
  ap_mul : APInt -> APInt -> APInt;
  ap_neg : APInt -> APInt;
  ap_udiv : APInt -> APInt -> APInt;
  ap_sdiv : APInt -> APInt -> APInt;
  ap_urem : APInt -> APInt -> APInt;
  ap_srem : APInt -> APInt -> APInt;
  ap_and : APInt -> APInt -> APInt;
  ap_or : APInt -> APInt -> APInt;
  ap_xor : APInt -> APInt -> APInt;
  ap_not : APInt -> APInt;
  ap_shl : APInt -> APInt -> APInt;
  ap_lshr : APInt -> APInt -> APInt;
  ap_ashr : APInt -> APInt -> APInt;
  ap_shl_u : APInt -> Z -> APInt;
  ap_ashr_u : APInt -> Z -> APInt;
  ap_eq : APInt -> APInt -> bool;
  ap_ult : APInt -> APInt -> bool;
  ap_ule : APInt -> APInt -> bool;
  ap_ugt : APInt -> APInt -> bool;
  ap_uge : APInt -> APInt -> bool;
  ap_slt : APInt -> APInt -> bool;
  ap_sle : APInt -> APInt -> bool;
  ap_sgt : APInt -> APInt -> bool;
  ap_sge : APInt -> APInt -> bool;
  ap_isMinValue : APInt -> bool;
  ap_isAllOnesValue : APInt -> bool;
  ap_getBoolValue : APInt -> bool;
  ap_getZExtValue : APInt -> Z;
  ap_getLimitedValue : APInt -> Z -> Z;
  ap_hash : APInt -> Z
}.

(** Bit widths in the equations below: the width of the first operand. *)
Local Notation bw := getBitWidth (only parsing).

(** Documented behaviour: arithmetic is modulo [2 ^ width], binary operations
    take operands of one width, shifts by the width or more shift every bit
    out, divisors are not zero. *)
Class APIntLaws {ops : APIntOps} : Prop := {
  ap_of_u64_spec w v :
    0 < w -> 0 <= v < 2 ^ 64 -> ap_of_u64 w v = MkAPInt w (v mod 2 ^ w);
  ap_zext_spec a w : bw a < w -> ap_zext a w = MkAPInt w (uval a);
  ap_zextOrTrunc_spec a w : 0 < w -> ap_zextOrTrunc a w = MkAPInt w (uval a mod 2 ^ w);
  ap_sextOrTrunc_spec a w : 0 < w -> ap_sextOrTrunc a w = MkAPInt w (sval a mod 2 ^ w);
  ap_add_spec a b : bw a = bw b ->
    ap_add a b = MkAPInt (bw a) ((uval a + uval b) mod 2 ^ bw a);
  ap_sub_spec a b : bw a = bw b ->
    ap_sub a b = MkAPInt (bw a) ((uval a - uval b) mod 2 ^ bw a);
  ap_mul_spec a b : bw a = bw b ->
    ap_mul a b = MkAPInt (bw a) ((uval a * uval b) mod 2 ^ bw a);
  ap_neg_spec a : ap_neg a = MkAPInt (bw a) ((- uval a) mod 2 ^ bw a);
  ap_udiv_spec a b : bw a = bw b -> uval b <> 0 ->
    ap_udiv a b = MkAPInt (bw a) (uval a / uval b);
  ap_sdiv_spec a b : bw a = bw b -> uval b <> 0 ->
    ap_sdiv a b = MkAPInt (bw a) (Z.quot (sval a) (sval b) mod 2 ^ bw a);
  ap_urem_spec a b : bw a = bw b -> uval b <> 0 ->
    ap_urem a b = MkAPInt (bw a) (uval a mod uval b);
  ap_srem_spec a b : bw a = bw b -> uval b <> 0 ->
    ap_srem a b = MkAPInt (bw a) (Z.rem (sval a) (sval b) mod 2 ^ bw a);
  ap_and_spec a b : bw a = bw b -> ap_and a b = MkAPInt (bw a) (Z.land (uval a) (uval b));
  ap_or_spec a b : bw a = bw b -> ap_or a b = MkAPInt (bw a) (Z.lor (uval a) (uval b));
  ap_xor_spec a b : bw a = bw b -> ap_xor a b = MkAPInt (bw a) (Z.lxor (uval a) (uval b));
  ap_not_spec a : ap_not a = MkAPInt (bw a) (Z.lnot (uval a) mod 2 ^ bw a);
  ap_shl_spec a b : ap_shl a b =
    MkAPInt (bw a) (if uval b <? bw a then Z.shiftl (uval a) (uval b) mod 2 ^ bw a else 0);
  ap_lshr_spec a b : ap_lshr a b = MkAPInt (bw a) (Z.shiftr (uval a) (uval b));
  ap_ashr_spec a b : ap_ashr a b =
    MkAPInt (bw a) (Z.shiftr (sval a) (uval b) mod 2 ^ bw a);
  ap_shl_u_spec a n : 0 <= n <= bw a ->
    ap_shl_u a n = MkAPInt (bw a) (Z.shiftl (uval a) n mod 2 ^ bw a);
  ap_ashr_u_spec a n : 0 <= n <= bw a ->
    ap_ashr_u a n = MkAPInt (bw a) (Z.shiftr (sval a) n mod 2 ^ bw a);
  ap_eq_spec a b : bw a = bw b -> ap_eq a b = (uval a =? uval b);
  ap_ult_spec a b : bw a = bw b -> ap_ult a b = (uval a <? uval b);
  ap_ule_spec a b : bw a = bw b -> ap_ule a b = (uval a <=? uval b);
  ap_ugt_spec a b : bw a = bw b -> ap_ugt a b = (uval b <? uval a);
  ap_uge_spec a b : bw a = bw b -> ap_uge a b = (uval b <=? uval a);
  ap_slt_spec a b : bw a = bw b -> ap_slt a b = (sval a <? sval b);
  ap_sle_spec a b : bw a = bw b -> ap_sle a b = (sval a <=? sval b);
  ap_sgt_spec a b : bw a = bw b -> ap_sgt a b = (sval b <? sval a);
  ap_sge_spec a b : bw a = bw b -> ap_sge a b = (sval b <=? sval a);
  ap_isMinValue_spec a : ap_isMinValue a = (uval a =? 0);
  ap_isAllOnesValue_spec a : ap_isAllOnesValue a = (uval a =? 2 ^ bw a - 1);
  ap_getBoolValue_spec a : ap_getBoolValue a = negb (uval a =? 0);
  ap_getZExtValue_spec a : uval a < 2 ^ 64 -> ap_getZExtValue a = uval a;
  ap_getLimitedValue_spec a l : ap_getLimitedValue a l = Z.min (uval a) l
}.

(** The reference instance, on which concrete inputs are evaluated. *)
#[export] Instance z_apint : APIntOps := {|
  ap_of_u64 w v := MkAPInt w (v mod 2 ^ w);
  ap_zext a w := MkAPInt w (uval a);
  ap_zextOrTrunc a w := MkAPInt w (uval a mod 2 ^ w);
  ap_sextOrTrunc a w := MkAPInt w (sval a mod 2 ^ w);
  ap_add a b := MkAPInt (bw a) ((uval a + uval b) mod 2 ^ bw a);
  ap_sub a b := MkAPInt (bw a) ((uval a - uval b) mod 2 ^ bw a);
  ap_mul a b := MkAPInt (bw a) ((uval a * uval b) mod 2 ^ bw a);
  ap_neg a := MkAPInt (bw a) ((- uval a) mod 2 ^ bw a);
  ap_udiv a b := MkAPInt (bw a) (uval a / uval b);
  ap_sdiv a b := MkAPInt (bw a) (Z.quot (sval a) (sval b) mod 2 ^ bw a);
  ap_urem a b := MkAPInt (bw a) (uval a mod uval b);
  ap_srem a b := MkAPInt (bw a) (Z.rem (sval a) (sval b) mod 2 ^ bw a);
  ap_and a b := MkAPInt (bw a) (Z.land (uval a) (uval b));
  ap_or a b := MkAPInt (bw a) (Z.lor (uval a) (uval b));
  ap_xor a b := MkAPInt (bw a) (Z.lxor (uval a) (uval b));
  ap_not a := MkAPInt (bw a) (Z.lnot (uval a) mod 2 ^ bw a);
  ap_shl a b :=
    MkAPInt (bw a) (if uval b <? bw a then Z.shiftl (uval a) (uval b) mod 2 ^ bw a else 0);
  ap_lshr a b := MkAPInt (bw a) (Z.shiftr (uval a) (uval b));
  ap_ashr a b := MkAPInt (bw a) (Z.shiftr (sval a) (uval b) mod 2 ^ bw a);
  ap_shl_u a n := MkAPInt (bw a) (Z.shiftl (uval a) n mod 2 ^ bw a);
  ap_ashr_u a n := MkAPInt (bw a) (Z.shiftr (sval a) n mod 2 ^ bw a);
  ap_eq a b := uval a =? uval b;
  ap_ult a b := uval a <? uval b;
  ap_ule a b := uval a <=? uval b;
  ap_ugt a b := uval b <? uval a;
  ap_uge a b := uval b <=? uval a;
  ap_slt a b := sval a <? sval b;
  ap_sle a b := sval a <=? sval b;
  ap_sgt a b := sval b <? sval a;
  ap_sge a b := sval b <=? sval a;
  ap_isMinValue a := uval a =? 0;
  ap_isAllOnesValue a := uval a =? 2 ^ bw a - 1;
  ap_getBoolValue a := negb (uval a =? 0);
  ap_getZExtValue a := uval a;
  ap_getLimitedValue a l := Z.min (uval a) l;
  ap_hash a := uval a
|}.

#[export] Instance z_apint_laws : APIntLaws.
Proof. split; intros; reflexivity. Qed.

(** ** Facts about the two readings of a value *)

Lemma to_signed_mod w v : 0 < w -> to_signed w v mod 2 ^ w = v mod 2 ^ w.
Proof.
  intros. unfold to_signed. case_match; [done|].
  apply mod_eq_of_diff; [apply pow2_pos; lia|]. exists (-1). lia.
Qed.

Lemma to_signed_range w v : 0 < w -> 0 <= v < 2 ^ w ->
  - 2 ^ (w - 1) <= to_signed w v < 2 ^ (w - 1).
Proof.
  intros. pose proof (pow2_half w ltac:(done)). unfold to_signed. case_match; lia.
Qed.

Lemma to_signed_inj w x y : 0 < w -> 0 <= x < 2 ^ w -> 0 <= y < 2 ^ w ->
  to_signed w x = to_signed w y -> x = y.
Proof.
  intros. apply (mod_inj _ _ (2 ^ w)); [assumption..|].
  rewrite <- (to_signed_mod w x), <- (to_signed_mod w y) by done. by f_equal.
Qed.

Lemma to_signed_eq0 w x : 0 < w -> 0 <= x < 2 ^ w -> to_signed w x = 0 <-> x = 0.
Proof.
  intros. pose proof (pow2_pos (w - 1)). unfold to_signed. split; case_match; lia.
Qed.

#[export] Hint Rewrite @ap_add_spec @ap_sub_spec @ap_mul_spec @ap_and_spec @ap_or_spec
  @ap_xor_spec @ap_eq_spec @ap_ult_spec @ap_ule_spec @ap_ugt_spec @ap_uge_spec
  @ap_slt_spec @ap_sle_spec @ap_sgt_spec @ap_sge_spec @ap_neg_spec @ap_not_spec
  @ap_shl_spec @ap_lshr_spec @ap_ashr_spec @ap_isMinValue_spec @ap_isAllOnesValue_spec
  @ap_getBoolValue_spec @ap_getLimitedValue_spec @ap_zextOrTrunc_spec @ap_sextOrTrunc_spec
  @ap_zext_spec @ap_shl_u_spec @ap_ashr_u_spec using (eauto; lia) : apint.
