(* ===== verification/Bits.v ===== *)
(** The bit tricks of Bits.h, on 32- and 64-bit words. *)
From stdpp Require Import base numbers list list_numbers.
From Stdlib Require Import ZArith Lia.
From S2P Require Import Prelude.
Local Open Scope Z_scope.

(** ** Operations *)

Definition bits32_maxValueOfNBits (N : Z) : outcome Z :=
  Assert N <=? 32 ;;
  if N =? 0 then Done 0 else Done (Z.shiftr (2 ^ 32 - 1) (32 - N)).

Definition bits32_truncateToNBits (x N : Z) : outcome Z :=
  Assert (0 <? N) && (N <=? 32) ;; Done (Z.land x (Z.shiftr (2 ^ 32 - 1) (32 - N))).

Definition bits32_withoutRightmostBit (x : Z) : Z := Z.land x (u32 (x - 1)).

Definition bits32_isolateRightmostBit (x : Z) : Z := Z.land x (u32 (- x)).

Definition bits32_isPowerOfTwo (x : Z) : bool :=
  if x =? 0 then false else Z.land x (u32 (x - 1)) =? 0.

Definition bits32_indexOfSingleBit (x : Z) : outcome Z :=
  Assert bits32_withoutRightmostBit x =? 0 ;;
  let add m n res := if Z.land x m =? 0 then res else res + n in
  let res := add 0xAAAAAAAA 1 (add 0xCCCCCCCC 2 (add 0xF0F0F0F0 4
               (add 0xFF00FF00 8 (add 0xFFFF0000 16 0)))) in
  Assert res <? 32 ;; Assert Z.shiftl 1 res =? x ;; Done res.

Definition bits32_indexOfRightmostBit (x : Z) : outcome Z :=
  bits32_indexOfSingleBit (bits32_isolateRightmostBit x).

Definition bits64_maxValueOfNBits (N : Z) : outcome Z :=
  Assert N <=? 64 ;;
  if N =? 0 then Done 0 else Done (Z.shiftr (2 ^ 64 - 1) (64 - N)).

Definition bits64_truncateToNBits (x N : Z) : outcome Z :=
  Assert (0 <? N) && (N <=? 64) ;; Done (Z.land x (Z.shiftr (2 ^ 64 - 1) (64 - N))).

Definition bits64_withoutRightmostBit (x : Z) : Z := Z.land x (u64 (x - 1)).

Definition bits64_isolateRightmostBit (x : Z) : Z := Z.land x (u64 (- x)).

Definition bits64_isPowerOfTwo (x : Z) : bool :=
  if x =? 0 then false else Z.land x (u64 (x - 1)) =? 0.

Definition bits64_indexOfSingleBit (x : Z) : outcome Z :=
  Assert Z.land x (u64 (x - 1)) =? 0 ;;
  res ← bits32_indexOfSingleBit (u32 (Z.lor x (Z.shiftr x 32)));
  let res := if Z.land x (Z.shiftl 0xFFFFFFFF 32) =? 0 then res else res + 32 in
  Assert res <? 64 ;; Assert u64 (Z.shiftl 1 res) =? x ;; Done res.

Definition bits64_indexOfRightmostBit (x : Z) : outcome Z :=
  bits64_indexOfSingleBit (bits64_isolateRightmostBit x).

(** ** Facts *)

Lemma shiftr_ones W N : 0 <= N <= W -> Z.shiftr (2 ^ W - 1) (W - N) = Z.ones N.
Proof.
  intros. replace (2 ^ W - 1) with (Z.ones W) by (rewrite Z.ones_equiv; lia).
  rewrite Z.shiftr_div_pow2, Z.ones_div_pow2 by lia. f_equal. lia.
Qed.

Lemma bits64_truncateToNBits_spec x N : 0 < N <= 64 ->
  bits64_truncateToNBits x N = Done (x mod 2 ^ N).
Proof.
  intros. unfold bits64_truncateToNBits.
  rewrite (proj2 (Z.ltb_lt 0 N)), (proj2 (Z.leb_le N 64)) by lia. cbn [andb].
  by rewrite shiftr_ones, Z.land_ones by lia.
Qed.

Lemma bits64_maxValueOfNBits_spec N : 0 <= N <= 64 ->
  bits64_maxValueOfNBits N = Done (2 ^ N - 1).
Proof.
  intros. unfold bits64_maxValueOfNBits. rewrite (proj2 (Z.leb_le N 64)) by lia.
  destruct (Z.eqb_spec N 0) as [->|]; [done|].
  by rewrite shiftr_ones, Z.ones_equiv by lia.
Qed.

Lemma land_pred_pow2 k : 0 <= k -> Z.land (2 ^ k) (2 ^ k - 1) = 0.
Proof.
  intros. replace (2 ^ k - 1) with (Z.ones k) by (rewrite Z.ones_equiv; lia).
  rewrite Z.land_ones by lia. apply Z_mod_same_full.
Qed.

(** A positive number that shares no bit with its predecessor is a power of two. *)
Lemma land_pred_zero x : 0 < x -> Z.land x (x - 1) = 0 -> x = 2 ^ Z.log2 x.
Proof.
  intros Hx H. pose proof (Z.log2_spec x Hx) as [Hlo Hhi].
  destruct (Z.eq_dec x (2 ^ Z.log2 x)) as [|Hne]; [done|exfalso].
  pose proof (Z.log2_nonneg x). pose proof (pow2_pos (Z.log2 x) ltac:(done)).
  assert (Z.testbit (Z.land x (x - 1)) (Z.log2 x) = true) as Hb.
  { rewrite Z.land_spec, Z.bit_log2 by done.
    replace (Z.log2 x) with (Z.log2 (x - 1)); [rewrite Z.bit_log2; [done|lia]|].
    apply Z.log2_unique; lia. }
  by rewrite H, Z.testbit_0_l in Hb.
Qed.

Lemma bits64_single_bit x : 0 <= x < 2 ^ 64 ->
  Z.land x (u64 (x - 1)) = 0 <-> x = 0 \/ exists k, 0 <= k < 64 /\ x = 2 ^ k.
Proof.
  intros Hx. destruct (Z.eq_dec x 0) as [->|Hne]; [naive_solver|].
  unfold u64. rewrite Z.mod_small by lia. split.
  - intros H%land_pred_zero; [|lia]. right. exists (Z.log2 x).
    pose proof (Z.log2_nonneg x). split; [|done]. split; [done|]. apply Z.log2_lt_pow2; lia.
  - intros [?|(k & ? & ->)]; [lia|]. apply land_pred_pow2; lia.
Qed.

(** The words with a single bit, enumerated. *)
Lemma small_exponent (f : Z -> bool) n :
  forallb f (seqZ 0 n) = true -> forall k, 0 <= k < n -> f k = true.
Proof.
  rewrite forallb_forall. intros H k Hk. apply H, list_elem_of_In, elem_of_seqZ. lia.
Qed.

Lemma indexOfSingleBit_pow2 k : 0 <= k < 64 -> bits64_indexOfSingleBit (2 ^ k) = Done k.
Proof.
  intros Hk.
  pose proof (small_exponent
    (fun k => match bits64_indexOfSingleBit (2 ^ k) with Done j => j =? k | _ => false end) 64
    ltac:(by vm_compute) k Hk) as H.
  cbv beta in H. destruct (bits64_indexOfSingleBit (2 ^ k)); try done.
  by apply Z.eqb_eq in H as ->.
Qed.

Lemma indexOfSingleBit_Done x k : 0 <= x < 2 ^ 64 ->
  bits64_indexOfSingleBit x = Done k <-> 0 <= k < 64 /\ x = 2 ^ k.
Proof.
  intros Hx. split; [|intros [? ->]; by apply indexOfSingleBit_pow2].
  intros H. destruct (Z.eqb_spec (Z.land x (u64 (x - 1))) 0) as [Hz|Hz].
  - apply bits64_single_bit in Hz as [->|(j & ? & ->)]; [by vm_compute in H| |done].
    rewrite indexOfSingleBit_pow2 in H by done. by simplify_eq.
  - unfold bits64_indexOfSingleBit in H. by rewrite (proj2 (Z.eqb_neq _ _) Hz) in H.
Qed.

(** The only failure is that of the assertion. *)
Lemma indexOfSingleBit_fail x o : bits64_indexOfSingleBit x = o ->
  match o with Undefined | OutOfFuel => False | _ => True end.
Proof.
  intros <-. unfold bits64_indexOfSingleBit.
  destruct (Z.land x (u64 (x - 1)) =? 0); [|done].
  assert (forall y, match bits32_indexOfSingleBit y with
                    | Undefined | OutOfFuel => False | _ => True end) as H32.
  { intros y. unfold bits32_indexOfSingleBit. cbv zeta. by repeat case_match. }
  specialize (H32 (u32 (Z.lor x (Z.shiftr x 32)))).
  destruct (bits32_indexOfSingleBit _); [|done..]. unfold mbind, outcome_bind. cbv zeta.
  by repeat case_match.
Qed.

(** ** Properties *)

(** Finding the index of a single set bit succeeds exactly on the powers of two
    of the word and returns the exponent; every other word fails an assertion. *)
Theorem bits64_indexOfSingleBit_correct x :
  0 <= x < 2 ^ 64 ->
  match bits64_indexOfSingleBit x with
  | Done k => 0 <= k < 64 /\ x = 2 ^ k
  | AssertFail => bits64_isPowerOfTwo x = false
  | _ => False
  end.
Proof.
  intros Hx. destruct (bits64_indexOfSingleBit x) as [k| | |] eqn:H.
  - by apply indexOfSingleBit_Done.
  - unfold bits64_isPowerOfTwo. destruct (Z.eqb_spec x 0); [done|].
    apply Z.eqb_neq. intros Hz%bits64_single_bit; [|done].
    destruct Hz as [?|(k & ? & ->)]; [done|]. by rewrite indexOfSingleBit_pow2 in H.
  - by apply indexOfSingleBit_fail in H.
  - by apply indexOfSingleBit_fail in H.
Qed.

Lemma bits64_indexOfSingleBit_correct_witness :
  match bits64_indexOfSingleBit (2 ^ 40) with
  | Done k => 0 <= k < 64 /\ 2 ^ 40 = 2 ^ k
  | AssertFail => bits64_isPowerOfTwo (2 ^ 40) = false
  | _ => False
  end.
Proof. apply (bits64_indexOfSingleBit_correct (2 ^ 40)). lia. Defined.
