(* ===== verification/RNG.v ===== *)
(** Random numbers (include/klee/ADT/RNG.h, lib/Support/RNG.cpp): the Mersenne
    Twister of the original authors, 624 words of 32 bits. *)
From stdpp Require Import base numbers list.
From Stdlib Require Import ZArith Lia.
From S2P Require Import Prelude.
Local Open Scope Z_scope.

Record RNG : Type := MkRNG { mt : list Z; mti : Z }.

Module RNG.

Definition N : Z := 624.
Definition M : Z := 397.
Definition MATRIX_A : Z := 0x9908b0df.
Definition UPPER_MASK : Z := 0x80000000.
Definition LOWER_MASK : Z := 0x7fffffff.

(** [mt[i]], and its assignment: an index outside the array is undefined. *)
Definition get (i : Z) (m : list Z) : outcome Z :=
  if (0 <=? i) && (i <? N) then deref (m !! Z.to_nat i) else Undefined.
Definition set (i v : Z) (m : list Z) : outcome (list Z) :=
  if (0 <=? i) && (i <? N) then Done (<[Z.to_nat i := v]> m) else Undefined.

(** The loop of [seed]; [n] rounds are left. *)
Fixpoint seed_loop (n : nat) (mti : Z) (m : list Z) : outcome (list Z) :=
  match n with
  | O => Done m
  | S n =>
      p ← get (mti - 1) m;
      m ← set mti (Z.land (u64 (1812433253 * Z.lxor p (Z.shiftr p 30) + mti)) 0xffffffff) m;
      seed_loop n (mti + 1) m
  end.

(** The words that are not set yet have any values. *)
Definition seed (s : Z) (old : list Z) : outcome RNG :=
  m ← set 0 (Z.land s 0xffffffff) old;
  m ← seed_loop (Z.to_nat (N - 1)) 1 m;
  Done (MkRNG m N).

Definition mag01 (x : Z) : outcome Z := deref ([0; MATRIX_A] !! Z.to_nat x).

(** One word of the next generation: [mt[kk]] from the word after it, at [next], and
    the word at [far]. *)
Definition twist (kk next far : Z) (m : list Z) : outcome (list Z) :=
  a ← get kk m;
  b ← get next m;
  let y := Z.lor (Z.land a UPPER_MASK) (Z.land b LOWER_MASK) in
  c ← get far m;
  g ← mag01 (Z.land y 1);
  set kk (Z.lxor (Z.lxor c (Z.shiftr y 1)) g) m.

(** [for (; kk < end; kk++)] with the word at [kk + d]. *)
Fixpoint twist_loop (n : nat) (kk d : Z) (m : list Z) : outcome (list Z) :=
  match n with
  | O => Done m
  | S n => m ← twist kk (kk + 1) (kk + d) m; twist_loop n (kk + 1) d m
  end.

Definition generate (m : list Z) : outcome (list Z) :=
  m ← twist_loop (Z.to_nat (N - M)) 0 M m;
  m ← twist_loop (Z.to_nat (M - 1)) (N - M) (M - N) m;
  twist (N - 1) 0 (M - 1) m.

Definition temper (y : Z) : Z :=
  let y := Z.lxor y (Z.shiftr y 11) in
  let y := Z.lxor y (Z.land (u32 (Z.shiftl y 7)) 0x9d2c5680) in
  let y := Z.lxor y (Z.land (u32 (Z.shiftl y 15)) 0xefc60000) in
  Z.lxor y (Z.shiftr y 18).

Definition getInt32 (r : RNG) : outcome (Z * RNG) :=
  r ← (if N <=? mti r then m ← generate (mt r); Done (MkRNG m 0) else Done r);
  y ← get (mti r) (mt r);
  Done (temper y, MkRNG (mt r) (mti r + 1)).

Definition getInt31 (r : RNG) : outcome (Z * RNG) :=
  '(v, r) ← getInt32 r; Done (Z.shiftr v 1, r).

(** The parity of a number. *)
Definition getBool (r : RNG) : outcome (bool * RNG) :=
  '(bits, r) ← getInt32 r;
  let bits := Z.lxor bits (Z.shiftr bits 16) in
  let bits := Z.lxor bits (Z.shiftr bits 8) in
  let bits := Z.lxor bits (Z.shiftr bits 4) in
  let bits := Z.lxor bits (Z.shiftr bits 2) in
  let bits := Z.lxor bits (Z.shiftr bits 1) in
  Done (negb (Z.land bits 1 =? 0), r).

End RNG.

(** ** No index leaves the array, and numbers have 32 bits *)

Record rng_ok (r : RNG) : Prop := MkRngOk {
  ro_length : length (mt r) = Z.to_nat RNG.N;
  ro_words : Forall (fun x => 0 <= x < 2 ^ 32) (mt r);
  ro_index : 0 <= mti r <= RNG.N
}.

Definition words_ok (m : list Z) : Prop := length m = Z.to_nat RNG.N /\ Forall (fun x => 0 <= x < 2 ^ 32) m.

(** The operations on words give words. *)
Lemma lxor_word a b : 0 <= a < 2 ^ 32 -> 0 <= b < 2 ^ 32 -> 0 <= Z.lxor a b < 2 ^ 32.
Proof. apply (bitop_range _ xorb); [apply Z.lxor_spec|done|lia]. Qed.

Lemma lor_word a b : 0 <= a < 2 ^ 32 -> 0 <= b < 2 ^ 32 -> 0 <= Z.lor a b < 2 ^ 32.
Proof. apply (bitop_range _ orb); [apply Z.lor_spec|done|lia]. Qed.

Lemma land_word a b : 0 <= a < 2 ^ 32 -> 0 <= b < 2 ^ 32 -> 0 <= Z.land a b < 2 ^ 32.
Proof. apply (bitop_range _ andb); [apply Z.land_spec|done|lia]. Qed.

Lemma land_mask a : 0 <= Z.land a 0xffffffff < 2 ^ 32.
Proof. change 0xffffffff with (Z.ones 32). rewrite Z.land_ones by lia. by apply mod_pow2_range. Qed.

Lemma shiftr_word a n : 0 <= n -> 0 <= a < 2 ^ 32 -> 0 <= Z.shiftr a n < 2 ^ 32.
Proof.
  intros Hn Ha. rewrite Z.shiftr_div_pow2 by done. pose proof (pow2_pos n Hn). split; [apply Z.div_pos; lia|].
  apply Z.le_lt_trans with a; [|lia]. apply Z.div_le_upper_bound; nia.
Qed.

(** Splits the bound of a word built from others. *)
Ltac word_bound := repeat first [assumption | apply lxor_word | apply lor_word | apply land_mask | apply land_word | apply u32_range
  | apply shiftr_word; [lia|] | (split; [discriminate|reflexivity])].

Lemma get_ok i m : words_ok m -> 0 <= i < RNG.N -> exists v, RNG.get i m = Done v /\ 0 <= v < 2 ^ 32.
Proof.
  intros [Hl Hw] Hi. unfold RNG.get. rewrite (proj2 (Z.leb_le _ _)), (proj2 (Z.ltb_lt _ _)) by lia. cbn [andb].
  destruct (lookup_lt_is_Some_2 m (Z.to_nat i)) as [v Hv]; [lia|]. rewrite Hv. exists v. split; [done|].
  rewrite Forall_forall in Hw. apply Hw. by eapply list_elem_of_lookup_2.
Qed.

Lemma set_ok i v m : words_ok m -> 0 <= i < RNG.N -> 0 <= v < 2 ^ 32 -> exists m', RNG.set i v m = Done m' /\ words_ok m'.
Proof.
  intros [Hl Hw] Hi Hv. unfold RNG.set. rewrite (proj2 (Z.leb_le _ _)), (proj2 (Z.ltb_lt _ _)) by lia. cbn [andb]. eexists. split; [done|].
  split; [by rewrite length_insert|by apply Forall_insert].
Qed.

Lemma twist_ok kk next far m : words_ok m -> 0 <= kk < RNG.N -> 0 <= next < RNG.N -> 0 <= far < RNG.N ->
  exists m', RNG.twist kk next far m = Done m' /\ words_ok m'.
Proof.
  intros Hm Hk Hn Hf. unfold RNG.twist. destruct (get_ok kk m Hm Hk) as (a & -> & Ha). cbn [mbind outcome_bind].
  destruct (get_ok next m Hm Hn) as (b & -> & Hb), (get_ok far m Hm Hf) as (c & -> & Hc). cbn [mbind outcome_bind].
  set (y := Z.lor (Z.land a RNG.UPPER_MASK) (Z.land b RNG.LOWER_MASK)). assert (0 <= y < 2 ^ 32) as Hy by (unfold y; word_bound).
  assert (exists g, RNG.mag01 (Z.land y 1) = Done g /\ 0 <= g < 2 ^ 32) as (g & -> & Hg).
  { change 1 with (Z.ones 1). rewrite Z.land_ones by lia. change (2 ^ 1) with 2. unfold RNG.mag01. pose proof (Z.mod_pos_bound y 2 ltac:(lia)).
    assert (y mod 2 = 0 \/ y mod 2 = 1) as [-> | ->] by lia; eexists; (split; [done|]); unfold RNG.MATRIX_A; lia. }
  cbn [mbind outcome_bind]. apply set_ok; [done|done|word_bound].
Qed.

Lemma twist_loop_ok n kk d m : words_ok m -> 0 <= kk -> kk + Z.of_nat n < RNG.N -> 0 <= kk + d -> kk + Z.of_nat n + d <= RNG.N ->
  exists m', RNG.twist_loop n kk d m = Done m' /\ words_ok m'.
Proof.
  revert kk m. induction n as [|n IH]; intros kk m Hm H1 H2 H3 H4; [by exists m|]. cbn [RNG.twist_loop].
  destruct (twist_ok kk (kk + 1) (kk + d) m Hm) as (m' & -> & Hm'); [lia..|]. cbn [mbind outcome_bind]. apply IH; [done|lia..].
Qed.

Lemma generate_ok m : words_ok m -> exists m', RNG.generate m = Done m' /\ words_ok m'.
Proof.
  intros Hm. unfold RNG.generate.
  destruct (twist_loop_ok (Z.to_nat (RNG.N - RNG.M)) 0 RNG.M m Hm) as (m1 & -> & H1); [done..|]. cbn [mbind outcome_bind].
  destruct (twist_loop_ok (Z.to_nat (RNG.M - 1)) (RNG.N - RNG.M) (RNG.M - RNG.N) m1 H1) as (m2 & -> & H2); [done..|]. cbn [mbind outcome_bind].
  apply twist_ok; [done|unfold RNG.N, RNG.M; lia..].
Qed.

Lemma getInt32_ok r : rng_ok r -> exists v r', RNG.getInt32 r = Done (v, r') /\ 0 <= v < 2 ^ 32 /\ rng_ok r'.
Proof.
  intros [Hl Hw Hi]. unfold RNG.getInt32.
  assert (exists r1, (if RNG.N <=? mti r then m ← RNG.generate (mt r); Done (MkRNG m 0) else Done r) = Done r1 /\ words_ok (mt r1) /\ 0 <= mti r1 < RNG.N) as (r1 & -> & H1 & Hi1).
  { destruct (Z.leb_spec RNG.N (mti r)); [|exists r; split_and!; [done|by split|lia|lia]].
    destruct (generate_ok (mt r) ltac:(by split)) as (m & -> & Hm). cbn. eexists. split; [done|]. split; [done|cbn; unfold RNG.N; lia]. }
  cbn [mbind outcome_bind]. destruct (get_ok (mti r1) (mt r1) H1 Hi1) as (y & -> & Hy). cbn [mbind outcome_bind].
  eexists _, _. split; [done|]. split.
  - unfold RNG.temper. word_bound.
  - destruct H1. split; cbn; [done|done|lia].
Qed.

Lemma seed_ok s old : words_ok old -> exists r, RNG.seed s old = Done r /\ rng_ok r.
Proof.
  intros Ho. unfold RNG.seed. destruct (set_ok 0 (Z.land s 0xffffffff) old Ho) as (m & -> & Hm); [done|word_bound|]. cbn [mbind outcome_bind].
  assert (forall n i m, words_ok m -> 0 < i -> i + Z.of_nat n <= RNG.N -> exists m', RNG.seed_loop n i m = Done m' /\ words_ok m') as Hloop.
  { clear. induction n as [|n IH]; intros i m Hm Hi Hn; [by exists m|]. cbn [RNG.seed_loop].
    destruct (get_ok (i - 1) m Hm) as (p & -> & _); [lia|]. cbn [mbind outcome_bind].
    destruct (set_ok i (Z.land (u64 (1812433253 * Z.lxor p (Z.shiftr p 30) + i)) 0xffffffff) m Hm) as (m1 & -> & H1); [lia|word_bound|].
    cbn [mbind outcome_bind]. apply IH; [done|lia..]. }
  destruct (Hloop (Z.to_nat (RNG.N - 1)) 1 m Hm) as (m' & -> & [? ?]); [lia|unfold RNG.N; lia|]. eexists. split; [done|]. by split.
Qed.

Lemma getBool_ok r : rng_ok r -> exists b r', RNG.getBool r = Done (b, r') /\ rng_ok r'.
Proof. intros Hr. unfold RNG.getBool. destruct (getInt32_ok r Hr) as (v & r' & -> & _ & Hr'). cbn [mbind outcome_bind]. by eexists _, r'. Qed.
