(* ===== verification/KTest.v ===== *)
(** Test files (include/klee/ADT/KTest.h, lib/Basic/KTest.cpp): writing a test and
    reading it back.

    A file is a list of bytes; opening it and allocating memory succeed.  A C string
    is the list of its characters before the terminating zero. *)
From stdpp Require Import base numbers sets list.
From Stdlib Require Import ZArith Lia.
From S2P Require Import Prelude.
Local Open Scope Z_scope.

Abbreviation bytes := (list Z).

Record KTestObject : Type := MkObject { name : bytes; o_bytes : bytes }.

Record KTest : Type := MkKTest {
  version : Z;
  args : list bytes;
  symArgvs : Z;
  symArgvLen : Z;
  k_objects : list KTestObject
}.

Module KTest.

Definition KTEST_VERSION : Z := 3.
Definition KTEST_MAGIC : bytes := [75; 84; 69; 83; 84].
Definition BOUT_MAGIC : bytes := [66; 79; 85; 84; 10].

(** ** Streams *)

(** [fwrite(data, size, 1, f) == 1]: false for no bytes. *)
Definition fwrite1 (data : bytes) (f : bytes) : option bytes :=
  match data with [] => None | _ => Some (f ++ data) end.

(** [fread(.., size, 1, f) == 1]: false for no bytes and when the file is too short. *)
Definition fread1 (size : Z) (f : bytes) : option (bytes * bytes) :=
  if (0 <? size) && (size <=? Z.of_nat (length f)) then Some (take (Z.to_nat size) f, drop (Z.to_nat size) f) else None.

Definition uint32_bytes (value : Z) : bytes :=
  [Z.shiftr value 24 mod 2 ^ 8; Z.shiftr value 16 mod 2 ^ 8; Z.shiftr value 8 mod 2 ^ 8; value mod 2 ^ 8].

Definition write_uint32 (value : Z) (f : bytes) : option bytes := fwrite1 (uint32_bytes value) f.

Definition read_uint32 (f : bytes) : option (Z * bytes) :=
  '(data, f) ← fread1 4 f;
  match data with
  | [a; b; c; d] => Some (u32 (Z.shiftl (Z.shiftl (Z.shiftl a 8 + b) 8 + c) 8 + d), f)
  | _ => None
  end.

Definition write_string (value : bytes) (f : bytes) : option bytes :=
  f ← write_uint32 (u32 (Z.of_nat (length value))) f;
  fwrite1 value f.

(** What was read up to its first zero. *)
Fixpoint c_string (s : bytes) : bytes :=
  match s with
  | [] => []
  | c :: s => if c =? 0 then [] else c :: c_string s
  end.

Definition read_string (f : bytes) : option (bytes * bytes) :=
  '(len, f) ← read_uint32 f;
  '(s, f) ← fread1 len f;
  Some (c_string s, f).

(** ** Writing *)

Fixpoint write_each {A} (w : A -> bytes -> option bytes) (l : list A) (f : bytes) : option bytes :=
  match l with
  | [] => Some f
  | x :: l => f ← w x f; write_each w l f
  end.

Definition write_object (o : KTestObject) (f : bytes) : option bytes :=
  f ← write_string (name o) f;
  f ← write_uint32 (u32 (Z.of_nat (length (o_bytes o)))) f;
  fwrite1 (o_bytes o) f.

Definition kTest_toFile (bo : KTest) : option bytes :=
  f ← fwrite1 KTEST_MAGIC [];
  f ← write_uint32 KTEST_VERSION f;
  f ← write_uint32 (u32 (Z.of_nat (length (args bo)))) f;
  f ← write_each write_string (args bo) f;
  f ← write_uint32 (symArgvs bo) f;
  f ← write_uint32 (symArgvLen bo) f;
  f ← write_uint32 (u32 (Z.of_nat (length (k_objects bo)))) f;
  write_each write_object (k_objects bo) f.

(** ** Reading *)

Fixpoint read_each {A} (r : bytes -> option (A * bytes)) (n : nat) (f : bytes) : option (list A * bytes) :=
  match n with
  | O => Some ([], f)
  | S n => '(x, f) ← r f; '(l, f) ← read_each r n f; Some (x :: l, f)
  end.

Definition read_object (f : bytes) : option (KTestObject * bytes) :=
  '(n, f) ← read_string f;
  '(numBytes, f) ← read_uint32 f;
  '(b, f) ← fread1 numBytes f;
  Some (MkObject n b, f).

Definition kTest_checkHeader (f : bytes) : option bytes :=
  '(header, f) ← fread1 5 f;
  if bool_decide (header = KTEST_MAGIC) || bool_decide (header = BOUT_MAGIC) then Some f else None.

Definition kTest_isKTestFile (f : bytes) : bool := bool_decide (is_Some (kTest_checkHeader f)).

Definition read_sym (version : Z) (f : bytes) : option ((Z * Z) * bytes) :=
  if 2 <=? version then '(a, f) ← read_uint32 f; '(b, f) ← read_uint32 f; Some ((a, b), f) else Some ((0, 0), f).

(** What follows the header; with the rest of the file, which is not looked at. *)
Definition kTest_body (f : bytes) : option (KTest * bytes) :=
  '(version, f) ← read_uint32 f;
  if KTEST_VERSION <? version then None
  else
    '(numArgs, f) ← read_uint32 f;
    '(args, f) ← read_each read_string (Z.to_nat numArgs) f;
    '(sym, f) ← read_sym version f;
    '(numObjects, f) ← read_uint32 f;
    '(objects, f) ← read_each read_object (Z.to_nat numObjects) f;
    Some (MkKTest version args sym.1 sym.2 objects, f).

Definition kTest_fromFile (f : bytes) : option KTest :=
  f ← kTest_checkHeader f; fst <$> kTest_body f.

Definition kTest_numBytes (bo : KTest) : Z := foldl (fun res o => u32 (res + Z.of_nat (length (o_bytes o)))) 0 (k_objects bo).

End KTest.

(** ** What is written is read back *)

Import KTest.

(** A parser reads one format: of what was written, whatever follows, and of no
    proper beginning of it. *)
Record reads {A} (r : bytes -> option (A * bytes)) (x : A) (data : bytes) : Prop := MkReads {
  rd_all rest : r (data ++ rest) = Some (x, rest);
  rd_short f : f `prefix_of` data -> f <> data -> r f = None
}.

Lemma prefix_length (f data : bytes) : f `prefix_of` data -> f <> data -> (length f < length data)%nat.
Proof.
  intros [k ->] Hne. rewrite length_app. destruct k; [rewrite app_nil_r in Hne; done|cbn; lia].
Qed.

Lemma fread1_reads data : data <> [] -> reads (fread1 (Z.of_nat (length data))) data data.
Proof.
  intros Hne. assert (0 < Z.of_nat (length data)) by (destruct data; [done|cbn; lia]). unfold fread1. split.
  - intros rest. rewrite (proj2 (Z.ltb_lt _ _)), (proj2 (Z.leb_le _ _)) by (rewrite ?length_app; lia). cbn [andb]. rewrite Nat2Z.id.
    by rewrite take_app_length, drop_app_length.
  - intros f Hf Hn. pose proof (prefix_length f data Hf Hn). rewrite (proj2 (Z.leb_gt _ _)) by lia. by rewrite andb_false_r.
Qed.

(** One format after the other. *)
Lemma reads_bind {A B} (r : bytes -> option (A * bytes)) (g : A -> bytes -> option (B * bytes)) x y d1 d2 :
  reads r x d1 -> reads (g x) y d2 -> reads (fun f => '(x, f) ← r f; g x f) y (d1 ++ d2).
Proof.
  intros [A1 S1] [A2 S2]. split.
  - intros rest. rewrite <- app_assoc, A1. cbn. apply A2.
  - intros f Hf Hn. destruct (decide (d1 `prefix_of` f)) as [[k ->]|Hd].
    + rewrite A1. cbn. apply S2; [by apply prefix_app_inv in Hf|congruence].
    + rewrite S1; [done| |intros ->; by apply Hd]. destruct (prefix_weak_total f d1 (d1 ++ d2)) as [H|H]; [done|by apply prefix_app_r|done|done].
Qed.

Lemma reads_map {A B} (r : bytes -> option (A * bytes)) (g : A -> B) x d : reads r x d -> reads (fun f => '(x, f) ← r f; Some (g x, f)) (g x) d.
Proof.
  intros [A1 S1]. split.
  - intros rest. by rewrite A1.
  - intros f Hf Hn. by rewrite S1.
Qed.

Lemma uint32_reads v : 0 <= v < 2 ^ 32 -> reads read_uint32 v (uint32_bytes v).
Proof.
  intros Hv. pose proof (fread1_reads (uint32_bytes v) ltac:(done)) as [A1 S1]. change (Z.of_nat (length (uint32_bytes v))) with 4 in *. split.
  - intros rest. unfold read_uint32. rewrite A1. cbn [mbind option_bind uint32_bytes]. do 2 f_equal.
    rewrite !Z.shiftl_mul_pow2, !Z.shiftr_div_pow2 by lia. change (2 ^ 8) with 256. change (2 ^ 24) with (256 * 256 * 256). change (2 ^ 16) with (256 * 256).
    unfold u32. rewrite <- !Z.div_div by lia. rewrite Z.mod_small; Z.to_euclidean_division_equations; lia.
  - intros f Hf Hn. unfold read_uint32. by rewrite S1.
Qed.

Lemma c_string_ok s : 0 ∉ s -> c_string s = s.
Proof.
  induction s as [|c s IH]; intros H; [done|]. rewrite not_elem_of_cons in H. destruct H as [Hc H]. cbn.
  rewrite (proj2 (Z.eqb_neq c 0)) by done. by rewrite IH.
Qed.

Lemma string_reads s : s <> [] -> 0 ∉ s -> Z.of_nat (length s) < 2 ^ 32 -> reads read_string s (uint32_bytes (Z.of_nat (length s)) ++ s).
Proof.
  intros Hs Hz Hl. apply (reads_bind read_uint32 (fun len f => '(s, f) ← fread1 len f; Some (c_string s, f)) (Z.of_nat (length s))); [by apply uint32_reads; lia|].
  pose proof (reads_map (fread1 (Z.of_nat (length s))) c_string s s (fread1_reads s Hs)) as H. by rewrite (c_string_ok s Hz) in H.
Qed.

Lemma each_reads {A} (r : bytes -> option (A * bytes)) (enc : A -> bytes) l : (forall x, x ∈ l -> reads r x (enc x)) ->
  reads (read_each r (length l)) l (concat (enc <$> l)).
Proof.
  induction l as [|x l IH]; intros H.
  - split; [done|]. intros f Hf Hn. exfalso. by apply Hn, prefix_nil_inv.
  - cbn. apply (reads_bind r (fun x f => '(l, f) ← read_each r (length l) f; Some (x :: l, f)) x); [apply H; by left|].
    apply (reads_map (read_each r (length l)) (cons x)). apply IH. intros y Hy. apply H. by right.
Qed.

Definition string_bytes (s : bytes) : bytes := uint32_bytes (Z.of_nat (length s)) ++ s.
Definition test_object_bytes (o : KTestObject) : bytes := string_bytes (name o) ++ string_bytes (o_bytes o).

Definition string_ok (s : bytes) : Prop := s <> [] /\ 0 ∉ s /\ Z.of_nat (length s) < 2 ^ 32.
Definition object_ok (o : KTestObject) : Prop := string_ok (name o) /\ o_bytes o <> [] /\ Z.of_nat (length (o_bytes o)) < 2 ^ 32.

Lemma object_reads o : object_ok o -> reads read_object o (test_object_bytes o).
Proof.
  intros [(Hn & Hz & Hl) [Hb Hb']]. destruct o as [n b]. unfold read_object, test_object_bytes, string_bytes. cbn [name o_bytes] in *.
  apply (reads_bind read_string (fun n f => '(numBytes, f) ← read_uint32 f; '(b, f) ← fread1 numBytes f; Some (MkObject n b, f)) n); [by apply string_reads|].
  apply (reads_bind read_uint32 (fun numBytes f => '(b, f) ← fread1 numBytes f; Some (MkObject n b, f)) (Z.of_nat (length b))); [apply uint32_reads; lia|].
  by apply (reads_map (fread1 (Z.of_nat (length b))) (MkObject n)), fread1_reads.
Qed.

(** The counts and sizes of a test fit into 32 bits; the strings are C strings. *)
Record ktest_ok (t : KTest) : Prop := MkKtestOk {
  ko_args : Z.of_nat (length (args t)) < 2 ^ 32;
  ko_strings : Forall (fun s => 0 ∉ s /\ Z.of_nat (length s) < 2 ^ 32) (args t);
  ko_objects : Z.of_nat (length (k_objects t)) < 2 ^ 32;
  ko_sizes : Forall (fun o => (0 ∉ name o /\ Z.of_nat (length (name o)) < 2 ^ 32) /\ Z.of_nat (length (o_bytes o)) < 2 ^ 32) (k_objects t);
  ko_sym : 0 <= symArgvs t < 2 ^ 32 /\ 0 <= symArgvLen t < 2 ^ 32
}.

(** Nothing in the test is empty. *)
Definition filled (t : KTest) : bool :=
  forallb (fun s => negb (bool_decide (s = []))) (args t) &&
  forallb (fun o => negb (bool_decide (name o = []) || bool_decide (o_bytes o = []))) (k_objects t).

Definition file_bytes (t : KTest) : bytes :=
  KTEST_MAGIC ++ uint32_bytes KTEST_VERSION ++ uint32_bytes (Z.of_nat (length (args t))) ++ concat (string_bytes <$> args t) ++
  (uint32_bytes (symArgvs t) ++ uint32_bytes (symArgvLen t)) ++ uint32_bytes (Z.of_nat (length (k_objects t))) ++ concat (test_object_bytes <$> k_objects t).

Lemma write_uint32_ok v f : write_uint32 v f = Some (f ++ uint32_bytes v).
Proof. done. Qed.

Lemma write_string_ok s f : Z.of_nat (length s) < 2 ^ 32 -> write_string s f = if bool_decide (s = []) then None else Some (f ++ string_bytes s).
Proof.
  intros Hl. unfold write_string. unfold u32. rewrite Z.mod_small by lia. rewrite write_uint32_ok. cbn [mbind option_bind].
  destruct s as [|c s]; [done|]. rewrite bool_decide_eq_false_2 by done. unfold fwrite1, string_bytes. by rewrite app_assoc.
Qed.

Lemma write_object_ok o f : Z.of_nat (length (name o)) < 2 ^ 32 -> Z.of_nat (length (o_bytes o)) < 2 ^ 32 ->
  write_object o f = if bool_decide (name o = []) || bool_decide (o_bytes o = []) then None else Some (f ++ test_object_bytes o).
Proof.
  intros Hn Hb. unfold write_object. rewrite write_string_ok by done. destruct (bool_decide (name o = [])); [done|]. cbn [mbind option_bind orb].
  unfold u32. rewrite Z.mod_small by lia. rewrite write_uint32_ok. cbn [mbind option_bind]. unfold test_object_bytes, string_bytes.
  destruct (o_bytes o) as [|c s]; [done|]. rewrite bool_decide_eq_false_2 by done. unfold fwrite1. by rewrite !app_assoc.
Qed.

Lemma write_each_ok {A} (w : A -> bytes -> option bytes) (enc : A -> bytes) (bad : A -> bool) l f :
  (forall x f, x ∈ l -> w x f = if bad x then None else Some (f ++ enc x)) ->
  write_each w l f = if forallb (fun x => negb (bad x)) l then Some (f ++ concat (enc <$> l)) else None.
Proof.
  revert f. induction l as [|x l IH]; intros f H; cbn; [by rewrite app_nil_r|]. rewrite H by (by left). destruct (bad x); [done|]. cbn.
  rewrite IH by (intros y g Hy; apply H; by right). by rewrite app_assoc.
Qed.

Lemma toFile_ok t : ktest_ok t -> kTest_toFile t = if filled t then Some (file_bytes t) else None.
Proof.
  intros [Ha Hs Ho Hz [Hv Hw]]. unfold kTest_toFile. cbn [fwrite1 KTEST_MAGIC mbind option_bind]. rewrite write_uint32_ok. cbn [mbind option_bind].
  rewrite write_uint32_ok. cbn [mbind option_bind]. unfold u32. rewrite !Z.mod_small by lia.
  rewrite Forall_forall in Hs. rewrite Forall_forall in Hz.
  rewrite (write_each_ok write_string string_bytes (fun s => bool_decide (s = []))) by (intros s f Hin; by apply write_string_ok, Hs).
  unfold filled. destruct (forallb _ (args t)); [|done]. cbn [mbind option_bind andb]. rewrite !write_uint32_ok. cbn [mbind option_bind]. rewrite !write_uint32_ok. cbn [mbind option_bind].
  rewrite write_uint32_ok. cbn [mbind option_bind].
  rewrite (write_each_ok write_object test_object_bytes (fun o => bool_decide (name o = []) || bool_decide (o_bytes o = []))) by (intros o f Hin; by apply write_object_ok; apply Hz).
  destruct (forallb _ (k_objects t)); [|done]. unfold file_bytes. cbn [app]. rewrite <- !app_assoc. done.
Qed.

Lemma header_ok f : kTest_checkHeader (KTEST_MAGIC ++ f) = Some f.
Proof. unfold kTest_checkHeader, fread1. rewrite length_app. cbn [length KTEST_MAGIC]. by rewrite (proj2 (Z.leb_le _ _)) by lia. Qed.

(** The file after its header. *)
Definition body_bytes (t : KTest) : bytes :=
  uint32_bytes KTEST_VERSION ++ uint32_bytes (Z.of_nat (length (args t))) ++ concat (string_bytes <$> args t) ++
  (uint32_bytes (symArgvs t) ++ uint32_bytes (symArgvLen t)) ++ uint32_bytes (Z.of_nat (length (k_objects t))) ++ concat (test_object_bytes <$> k_objects t).

Lemma filled_ok t : ktest_ok t -> filled t = true -> Forall string_ok (args t) /\ Forall object_ok (k_objects t).
Proof.
  intros [_ Hs _ Hz _]. unfold filled. rewrite andb_true_iff, !forallb_forall. setoid_rewrite negb_true_iff. intros [H1 H2].
  rewrite !Forall_forall in *. split; intros x Hx.
  - specialize (H1 x (proj1 (list_elem_of_In _ _) Hx)). apply bool_decide_eq_false in H1. destruct (Hs x Hx). by repeat split.
  - specialize (H2 x (proj1 (list_elem_of_In _ _) Hx)). apply orb_false_iff in H2 as [E1%bool_decide_eq_false E2%bool_decide_eq_false].
    destruct (Hz x Hx) as [[? ?] ?]. by repeat split.
Qed.

Lemma body_reads t : ktest_ok t -> filled t = true ->
  reads kTest_body (MkKTest KTEST_VERSION (args t) (symArgvs t) (symArgvLen t) (k_objects t)) (body_bytes t).
Proof.
  intros Ht Hf. destruct (filled_ok t Ht Hf) as [Hargs Hobj]. destruct Ht as [Ha _ Ho _ [Hv Hw]]. rewrite Forall_forall in Hargs. rewrite Forall_forall in Hobj.
  unfold kTest_body, body_bytes. eapply reads_bind; [by apply uint32_reads|]. change (KTEST_VERSION <? KTEST_VERSION) with false. cbn iota.
  eapply reads_bind; [apply uint32_reads; lia|]. rewrite Nat2Z.id.
  eapply reads_bind; [apply each_reads; intros s Hs; destruct (Hargs s Hs) as (? & ? & ?); by apply string_reads|].
  eapply (reads_bind (read_sym KTEST_VERSION) _ (symArgvs t, symArgvLen t)).
  { unfold read_sym. change (2 <=? KTEST_VERSION) with true. cbn iota. eapply reads_bind; [by apply uint32_reads|].
    by apply (reads_map read_uint32 (pair (symArgvs t))), uint32_reads. }
  eapply reads_bind; [apply uint32_reads; lia|]. rewrite Nat2Z.id.
  apply (reads_map (read_each read_object (length (k_objects t))) (MkKTest KTEST_VERSION (args t) (symArgvs t) (symArgvLen t))).
  apply each_reads. intros o Hin. by apply object_reads, Hobj.
Qed.

(** C30. A test that is written is read back, with the current version, whatever
    follows it in the file; a file that was cut off anywhere is refused.  Writing
    fails exactly when an argument, a name or the bytes of an object are empty: then
    [fwrite] of no bytes counts as an error.  Counts and sizes fit 32 bits, and strings
    hold no zero ([ktest_ok]). *)
Theorem ktest_roundtrip t : ktest_ok t ->
  kTest_toFile t = (if filled t then Some (file_bytes t) else None) /\
  (filled t = true -> forall rest, kTest_fromFile (file_bytes t ++ rest) = Some (MkKTest KTEST_VERSION (args t) (symArgvs t) (symArgvLen t) (k_objects t))) /\
  (filled t = true -> forall f, f `prefix_of` file_bytes t -> f <> file_bytes t -> kTest_fromFile f = None).
Proof.
  intros Ht. split; [by apply toFile_ok|]. destruct Ht as [Ha Hs Ho Hz [Hv Hw]]. rewrite Forall_forall in Hs. rewrite Forall_forall in Hz.
  set (t' := MkKTest KTEST_VERSION (args t) (symArgvs t) (symArgvLen t) (k_objects t)). split; intros Hf.
  - destruct (body_reads t ltac:(by split; [done|by apply Forall_forall|done|by apply Forall_forall|done]) Hf) as [A _]. intros rest.
    unfold kTest_fromFile, file_bytes. rewrite <- app_assoc, header_ok. cbn [mbind option_bind]. fold (body_bytes t). by rewrite A.
  - destruct (body_reads t ltac:(by split; [done|by apply Forall_forall|done|by apply Forall_forall|done]) Hf) as [_ S]. intros f Hp Hn.
    unfold kTest_fromFile. destruct (decide (KTEST_MAGIC `prefix_of` f)) as [[k ->]|Hd].
    + rewrite header_ok. cbn [mbind option_bind]. rewrite S; [done|by apply prefix_app_inv in Hp|]. intros ->. by apply Hn.
    + unfold kTest_checkHeader, fread1. destruct (Z.leb_spec 5 (Z.of_nat (length f))); [|done]. exfalso. apply Hd.
      destruct (prefix_weak_total f KTEST_MAGIC (file_bytes t)) as [H'|H']; [done|by apply prefix_app_r| |done].
      destruct H' as [k E]. pose proof (f_equal length E) as El. rewrite length_app in El. cbn in El. destruct k; [by rewrite app_nil_r in E; rewrite E|cbn in El; lia].
Qed.

(** A test with one argument and two objects. *)
Definition sample_test : KTest := MkKTest 3 [[97; 46; 98; 99]] 0 0 [MkObject [120] [1; 2; 3; 4]; MkObject [121] [255]].

Lemma ktest_roundtrip_witness : exists f, kTest_toFile sample_test = Some f /\ kTest_fromFile f = Some sample_test /\
  kTest_fromFile (take 20 f) = None /\ kTest_toFile (MkKTest 3 [] 0 0 [MkObject [120] []]) = None.
Proof.
  assert (ktest_ok sample_test) as Ht.
  { split; [cbn; lia|cbn; rewrite ?Forall_cons; split_and!; try done; set_solver|cbn; lia|cbn; rewrite ?Forall_cons; split_and!; try done; set_solver|cbn; lia]. }
  destruct (ktest_roundtrip sample_test Ht) as (E & R & S). exists (file_bytes sample_test). split_and!.
  - exact E.
  - pose proof (R eq_refl []) as R0. by rewrite app_nil_r in R0.
  - apply (S eq_refl); [exists (drop 20 (file_bytes sample_test)); by rewrite take_drop|by vm_compute].
  - assert (ktest_ok (MkKTest 3 [] 0 0 [MkObject [120] []])) as H0 by (split; cbn; try lia; repeat constructor; cbn; try lia; intros [? | []%elem_of_nil]%elem_of_cons; done).
    by rewrite (proj1 (ktest_roundtrip _ H0)).
Defined.
