(* ===== verification/Expr.v ===== *)
(** Symbolic expressions: the class hierarchy of Expr.h, their widths, hashes
    and the total order [Expr::compare] that [ref] equality is made of. *)
From stdpp Require Import base list numbers strings.
From Stdlib Require Import ZArith Lia String Ascii.
From S2P Require Import Prelude APInt.
Local Open Scope Z_scope.

(** ** Data *)

(** [Expr::Width] constants. *)
Definition Bool : Z := 1.
Definition Int8 : Z := 8.
Definition Int16 : Z := 16.
Definition Int32 : Z := 32.
Definition Int64 : Z := 64.
Definition Fl80 : Z := 80.
Definition Int128 : Z := 128.
Definition Int256 : Z := 256.
Definition Int512 : Z := 512.

Definition MAGIC_HASH_CONSTANT : Z := 39.

(** The binary kinds, [BinaryKindFirst] to [BinaryKindLast]. *)
Inductive BinaryKind : Type :=
| Add | Sub | Mul | UDiv | SDiv | URem | SRem
| And | Or | Xor | Shl | LShr | AShr
| EqK | Ne | Ult | Ule | Ugt | Uge | Slt | Sle | Sgt | Sge.

(** [CastKindFirst] to [CastKindLast]. *)
Inductive CastKind : Type := ZExt | SExt.

#[export] Instance BinaryKind_eq_dec : EqDecision BinaryKind.
Proof. solve_decision. Defined.
#[export] Instance CastKind_eq_dec : EqDecision CastKind.
Proof. solve_decision. Defined.

(** An array object.  Its fields never change after construction, so a pointer
    to one is a [positive] and [ArrayHeap] says what it points to. *)
Record Array : Type := MkArray {
  arr_name : string;
  arr_size : Z;
  arr_domain : Z;
  arr_range : Z;
  constantValues : list APInt
}.

Class ArrayHeap : Type := { array_at : positive -> Array }.

Definition isSymbolicArray (a : Array) : bool :=
  match constantValues a with [] => true | _ => false end.

Definition isConstantArray (a : Array) : bool := negb (isSymbolicArray a).

(** One constructor per leaf class; [BinaryExpr] and [CastExpr] carry the kind
    their subclasses fix.  [UpdateNode] is a null-terminated list, most recent
    write first. *)
Inductive Expr : Type :=
| ConstantExpr (value : APInt)
| NotOptimizedExpr (src : Expr)
| ReadExpr (root : positive) (head : UpdateNode) (index : Expr)
| SelectExpr (cond trueExpr falseExpr : Expr)
| ConcatExpr (left right : Expr)
| ExtractExpr (expr : Expr) (offset width : Z)
| NotExpr (expr : Expr)
| CastExpr (k : CastKind) (src : Expr) (width : Z)
| BinaryExpr (k : BinaryKind) (left right : Expr)
with UpdateNode : Type :=
| UNull
| UNode (next : UpdateNode) (index value : Expr).

Scheme Expr_mut := Induction for Expr Sort Prop
  with UpdateNode_mut := Induction for UpdateNode Sort Prop.
Combined Scheme Expr_UpdateNode_ind from Expr_mut, UpdateNode_mut.

(** [UpdateList]: an array pointer and the head of its updates. *)
Record UpdateList : Type := MkUpdateList { ul_root : positive; ul_head : UpdateNode }.

Definition isCmpKind (k : BinaryKind) : bool :=
  match k with
  | EqK | Ne | Ult | Ule | Ugt | Uge | Slt | Sle | Sgt | Sge => true
  | _ => false
  end.

(** The values of [enum Kind]. *)
Definition BinaryKind_num (k : BinaryKind) : Z :=
  match k with
  | Add => 10 | Sub => 11 | Mul => 12 | UDiv => 13 | SDiv => 14 | URem => 15 | SRem => 16
  | And => 17 | Or => 18 | Xor => 19 | Shl => 20 | LShr => 21 | AShr => 22
  | EqK => 23 | Ne => 24 | Ult => 25 | Ule => 26 | Ugt => 27 | Uge => 28
  | Slt => 29 | Sle => 30 | Sgt => 31 | Sge => 32
  end.

Definition getKind (e : Expr) : Z :=
  match e with
  | ConstantExpr _ => 0
  | NotOptimizedExpr _ => 1
  | ReadExpr _ _ _ => 3
  | SelectExpr _ _ _ => 4
  | ConcatExpr _ _ => 5
  | ExtractExpr _ _ _ => 6
  | CastExpr ZExt _ _ => 7
  | CastExpr SExt _ _ => 8
  | NotExpr _ => 9
  | BinaryExpr k _ _ => BinaryKind_num k
  end.

(** [getNumKids] and [getKid]. *)
Definition kids (e : Expr) : list Expr :=
  match e with
  | ConstantExpr _ => []
  | NotOptimizedExpr s => [s]
  | ReadExpr _ _ i => [i]
  | SelectExpr c t f => [c; t; f]
  | ConcatExpr l r => [l; r]
  | ExtractExpr e _ _ => [e]
  | NotExpr e => [e]
  | CastExpr _ s _ => [s]
  | BinaryExpr _ l r => [l; r]
  end.

(** [UpdateNode::getSize], 0 for the null node. *)
Fixpoint un_size (u : UpdateNode) : Z :=
  match u with UNull => 0 | UNode n _ _ => un_size n + 1 end.

Section Expr.
Context {AP : APIntOps} {AH : ArrayHeap}.

(** ** Widths *)

Fixpoint getWidth (e : Expr) : Z :=
  match e with
  | ConstantExpr v => getBitWidth v
  | NotOptimizedExpr s => getWidth s
  | ReadExpr r _ _ => arr_range (array_at r)
  | SelectExpr _ t _ => getWidth t
  | ConcatExpr l r => getWidth l + getWidth r
  | ExtractExpr _ _ w => w
  | NotExpr e => getWidth e
  | CastExpr _ _ w => w
  | BinaryExpr k l _ => if isCmpKind k then Bool else getWidth l
  end.

(** ** Hashes *)

(** A [char] of a name promoted to [unsigned]: [char] is signed. *)
Definition char_to_unsigned (c : ascii) : Z :=
  let n := Z.of_N (N_of_ascii c) in u32 (if n <? 128 then n else n - 256).

Fixpoint name_hash (res : Z) (s : string) : Z :=
  match s with
  | EmptyString => res
  | String c s' => name_hash (u32 (u32 (res * MAGIC_HASH_CONSTANT) + char_to_unsigned c)) s'
  end.

(** [Array::computeHash] *)
Definition Array_computeHash (a : Array) : Z :=
  u32 (u32 (name_hash 0 (arr_name a) * MAGIC_HASH_CONSTANT) + arr_size a).

(** [ConstantExpr::computeHash] *)
Definition ConstantExpr_computeHash (v : APInt) : Z :=
  let w := getBitWidth v in
  u32 (Z.lxor (if w <=? 64 then ap_getLimitedValue v (2 ^ 64 - 1) else ap_hash v)
              (u32 (w * MAGIC_HASH_CONSTANT))).

(** The loop over the kids of [Expr::computeHash]. *)
Definition mix_kid (res h : Z) : Z :=
  Z.lxor (u32 (Z.shiftl res 1)) (u32 (h * MAGIC_HASH_CONSTANT)).

Fixpoint hash (e : Expr) : Z :=
  match e with
  | ConstantExpr v => ConstantExpr_computeHash v
  | CastExpr _ s w =>
      Z.lxor (u32 (w * MAGIC_HASH_CONSTANT)) (u32 (hash s * MAGIC_HASH_CONSTANT))
  | ExtractExpr e' off w =>
      Z.lxor (Z.lxor (u32 (off * MAGIC_HASH_CONSTANT)) (u32 (w * MAGIC_HASH_CONSTANT)))
             (u32 (hash e' * MAGIC_HASH_CONSTANT))
  | ReadExpr r u i =>
      Z.lxor (u32 (hash i * MAGIC_HASH_CONSTANT))
             (let res := name_hash 0 (arr_name (array_at r)) in
              match u with UNull => res | _ => Z.lxor res (un_hash u) end)
  | NotExpr e' => u32 (u32 (hash e' * MAGIC_HASH_CONSTANT) * 9)
  | NotOptimizedExpr s => mix_kid (u32 (1 * MAGIC_HASH_CONSTANT)) (hash s)
  | SelectExpr c t f =>
      mix_kid (mix_kid (mix_kid (u32 (4 * MAGIC_HASH_CONSTANT)) (hash c)) (hash t)) (hash f)
  | ConcatExpr l r => mix_kid (mix_kid (u32 (5 * MAGIC_HASH_CONSTANT)) (hash l)) (hash r)
  | BinaryExpr k l r =>
      mix_kid (mix_kid (u32 (BinaryKind_num k * MAGIC_HASH_CONSTANT)) (hash l)) (hash r)
  end
with un_hash (u : UpdateNode) : Z :=
  match u with
  | UNull => 0
  | UNode UNull i v => Z.lxor (hash i) (hash v)
  | UNode n i v => Z.lxor (Z.lxor (hash i) (hash v)) (un_hash n)
  end.

(** [UpdateList::hash] *)
Definition UpdateList_hash (ul : UpdateList) : Z :=
  let res := name_hash 0 (arr_name (array_at (ul_root ul))) in
  match ul_head ul with UNull => res | u => Z.lxor res (un_hash u) end.

(** ** Comparison *)

(** [ConstantExpr::compareContents] *)
Definition ConstantExpr_compareContents (a b : APInt) : comparison :=
  match Z.compare (getBitWidth a) (getBitWidth b) with
  | Eq => if ap_eq a b then Eq else if ap_ult a b then Lt else Gt
  | c => c
  end.

(** The part of [UpdateList::compare] before its loop: names, then the array
    pointers themselves, then the number of updates. *)
Definition UpdateList_compareHeads (ra : positive) (ua : UpdateNode)
    (rb : positive) (ub : UpdateNode) : comparison :=
  compare_then (String.compare (arr_name (array_at ra)) (arr_name (array_at rb)))
    (compare_then (Pos.compare ra rb) (Z.compare (un_size ua) (un_size ub))).

(** [Expr::compare]: kinds, hashes, attributes, then the kids in order.  The
    pointer tests and the set of pairs already found equal only short-cut a
    recursion whose result is then [Eq]. *)
Fixpoint compare (a b : Expr) {struct a} : comparison :=
  compare_then (Z.compare (getKind a) (getKind b))
  (compare_then (Z.compare (hash a) (hash b))
  match a, b with
  | ConstantExpr v, ConstantExpr v' => ConstantExpr_compareContents v v'
  | NotOptimizedExpr s, NotOptimizedExpr s' => compare s s'
  | ReadExpr r u i, ReadExpr r' u' i' =>
      compare_then (UpdateList_compareHeads r u r' u')
        (compare_then (un_compare u u') (compare i i'))
  | SelectExpr c t f, SelectExpr c' t' f' =>
      compare_then (compare c c') (compare_then (compare t t') (compare f f'))
  | ConcatExpr l r, ConcatExpr l' r' =>
      compare_then (Z.compare (getWidth a) (getWidth b))
        (compare_then (compare l l') (compare r r'))
  | ExtractExpr e o w, ExtractExpr e' o' w' =>
      compare_then (Z.compare o o') (compare_then (Z.compare w w') (compare e e'))
  | NotExpr e, NotExpr e' => compare e e'
  | CastExpr _ s w, CastExpr _ s' w' => compare_then (Z.compare w w') (compare s s')
  | BinaryExpr _ l r, BinaryExpr _ l' r' => compare_then (compare l l') (compare r r')
  | _, _ => Eq
  end)
with un_compare (u u' : UpdateNode) {struct u} : comparison :=
  match u, u' with
  | UNode n i v, UNode n' i' v' =>
      compare_then (compare_then (compare i i') (compare v v')) (un_compare n n')
  | _, _ => Eq
  end.

(** [ref::operator==] *)
Definition expr_eqb (a b : Expr) : bool :=
  match compare a b with Eq => true | _ => false end.

(** ** The order *)

Lemma BinaryKind_num_inj k k' : BinaryKind_num k = BinaryKind_num k' -> k = k'.
Proof. by destruct k, k'. Qed.

Lemma un_compare_refl_of (u : UpdateNode) :
  (forall n i v, u = UNode n i v -> compare i i = Eq /\ compare v v = Eq /\ un_compare n n = Eq) ->
  un_compare u u = Eq.
Proof. destruct u; cbn; [done|]. intros H. destruct (H _ _ _ eq_refl) as (-> & -> & ->). done. Qed.

Context {APL : APIntLaws}.

Lemma ConstantExpr_compareContents_Eq a b :
  ConstantExpr_compareContents a b = Eq <-> a = b.
Proof.
  destruct a as [w v], b as [w' v']; unfold ConstantExpr_compareContents; cbn.
  destruct (Z.compare_spec w w') as [->| |]; [|naive_solver lia..].
  autorewrite with apint; cbn. destruct (Z.eqb_spec v v') as [->|]; [done|].
  destruct (v <? v'); naive_solver.
Qed.

Lemma ConstantExpr_compareContents_antisym a b :
  ConstantExpr_compareContents b a = CompOpp (ConstantExpr_compareContents a b).
Proof.
  destruct a as [w v], b as [w' v']; unfold ConstantExpr_compareContents; cbn.
  rewrite (Z.compare_antisym w). destruct (Z.compare_spec w w') as [->| |]; [|done..].
  autorewrite with apint; cbn. rewrite (Z.eqb_sym v').
  destruct (Z.eqb_spec v v'), (Z.ltb_spec v v'), (Z.ltb_spec v' v); done || lia.
Qed.

Lemma ConstantExpr_compareContents_trans3 a b c :
  trans3 (ConstantExpr_compareContents a b) (ConstantExpr_compareContents b c)
    (ConstantExpr_compareContents a c).
Proof.
  assert (forall x y, ConstantExpr_compareContents x y =
    compare_then (getBitWidth x ?= getBitWidth y) (uval x ?= uval y)) as E.
  { intros [w v] [w' v']; unfold ConstantExpr_compareContents; cbn.
    destruct (Z.compare_spec w w') as [->| |]; [|done..].
    autorewrite with apint; cbn.
    destruct (Z.compare_spec v v'), (Z.eqb_spec v v'), (Z.ltb_spec v v'); done || lia. }
  rewrite !E. apply trans3_then; [|intros _ _]; apply Z_compare_trans3.
Qed.

Lemma compare_refl_mut :
  (forall a, compare a a = Eq) /\ (forall u, un_compare u u = Eq).
Proof.
  apply Expr_UpdateNode_ind; intros; cbn;
    rewrite ?Z.compare_refl; cbn; unfold UpdateList_compareHeads;
    rewrite ?Z.compare_refl, ?Pos.compare_refl; cbn;
    repeat match goal with H : _ = Eq |- _ => rewrite H; clear H; cbn end; try done.
  - by apply ConstantExpr_compareContents_Eq.
  - by rewrite string_compare_refl.
Qed.

Lemma compare_refl a : compare a a = Eq.
Proof. apply compare_refl_mut. Qed.

(** Expressions of one kind are built by one constructor. *)
Lemma getKind_inv a b : getKind a = getKind b ->
  match a with
  | ConstantExpr _ => exists v, b = ConstantExpr v
  | NotOptimizedExpr _ => exists s, b = NotOptimizedExpr s
  | ReadExpr _ _ _ => exists r u i, b = ReadExpr r u i
  | SelectExpr _ _ _ => exists c t f, b = SelectExpr c t f
  | ConcatExpr _ _ => exists l r, b = ConcatExpr l r
  | ExtractExpr _ _ _ => exists e o w, b = ExtractExpr e o w
  | NotExpr _ => exists e, b = NotExpr e
  | CastExpr k _ _ => exists s w, b = CastExpr k s w
  | BinaryExpr k _ _ => exists l r, b = BinaryExpr k l r
  end.
Proof.
  destruct a as [| | | | | | |[]|[]], b as [| | | | | | |[]|[]]; intros H;
    first [discriminate H | eauto].
Qed.

(** Turn a chain of comparisons that came out equal into equations. *)
Ltac split_Eq :=
  unfold UpdateList_compareHeads in *;
  rewrite ?compare_then_Eq, ?Z.compare_eq_iff, ?Pos.compare_eq_iff in *; destruct_and?.

(** The last criterion of [compare]: attributes and kids of two expressions of
    the same kind. *)
Definition compare_parts (a b : Expr) : comparison :=
  match a, b with
  | ConstantExpr v, ConstantExpr v' => ConstantExpr_compareContents v v'
  | NotOptimizedExpr s, NotOptimizedExpr s' => compare s s'
  | ReadExpr r u i, ReadExpr r' u' i' =>
      compare_then (UpdateList_compareHeads r u r' u')
        (compare_then (un_compare u u') (compare i i'))
  | SelectExpr c t f, SelectExpr c' t' f' =>
      compare_then (compare c c') (compare_then (compare t t') (compare f f'))
  | ConcatExpr l r, ConcatExpr l' r' =>
      compare_then (Z.compare (getWidth a) (getWidth b))
        (compare_then (compare l l') (compare r r'))
  | ExtractExpr e o w, ExtractExpr e' o' w' =>
      compare_then (Z.compare o o') (compare_then (Z.compare w w') (compare e e'))
  | NotExpr e, NotExpr e' => compare e e'
  | CastExpr _ s w, CastExpr _ s' w' => compare_then (Z.compare w w') (compare s s')
  | BinaryExpr _ l r, BinaryExpr _ l' r' => compare_then (compare l l') (compare r r')
  | _, _ => Eq
  end.

Lemma compare_unfold a b : compare a b =
  compare_then (Z.compare (getKind a) (getKind b))
    (compare_then (Z.compare (hash a) (hash b)) (compare_parts a b)).
Proof. by destruct a. Qed.

Lemma un_size_nonneg u : 0 <= un_size u.
Proof. induction u; cbn; lia. Qed.

Lemma compare_Eq_mut :
  (forall a b, compare a b = Eq -> a = b) /\
  (forall u u', un_size u = un_size u' -> un_compare u u' = Eq -> u = u').
Proof.
  apply Expr_UpdateNode_ind.
  1-9: intros; match goal with H : compare _ _ = Eq |- _ =>
    rewrite compare_unfold, !compare_then_Eq, Z.compare_eq_iff in H;
    destruct H as (Hk & _ & H); apply getKind_inv in Hk; destruct_exs; subst;
    cbn [compare_parts] in H; split_Eq; f_equal; eauto end.
  - by apply ConstantExpr_compareContents_Eq.
  - intros [|u' ? ?]; cbn; [done|]. pose proof (un_size_nonneg u'); lia.
  - intros n IHn i IHi v IHv [|u' ? ?]; cbn; intros; pose proof (un_size_nonneg n); [lia|].
    split_Eq. f_equal; eauto with lia.
Qed.

(** [ref] equality decides structural equality. *)
Lemma compare_Eq a b : compare a b = Eq <-> a = b.
Proof. split; [apply compare_Eq_mut | intros ->; apply compare_refl]. Qed.

Lemma expr_eqb_eq a b : expr_eqb a b = true <-> a = b.
Proof. unfold expr_eqb. rewrite <- compare_Eq. by destruct (compare a b). Qed.

Lemma expr_eqb_reflect a b : reflect (a = b) (expr_eqb a b).
Proof. apply iff_reflect. by rewrite expr_eqb_eq. Qed.

Lemma compare_antisym_mut :
  (forall a b, compare b a = CompOpp (compare a b)) /\
  (forall u u', un_compare u' u = CompOpp (un_compare u u')).
Proof.
  apply Expr_UpdateNode_ind; intros;
    match goal with
    | |- compare ?b _ = _ => destruct b
    | |- un_compare ?u _ = _ => destruct u
    end; cbn [compare un_compare]; rewrite ?compare_then_opp; unfold UpdateList_compareHeads;
    rewrite ?compare_then_opp, <- ?Z.compare_antisym, <- ?Pos.compare_antisym,
      <- ?String.compare_antisym, <- ?ConstantExpr_compareContents_antisym; try done.
  all: repeat match goal with
    | H : forall b, compare b ?a = _ |- context [compare ?x ?a] => rewrite (H x)
    | H : forall b, un_compare b ?a = _ |- context [un_compare ?x ?a] => rewrite (H x)
    end; done.
Qed.

Lemma compare_antisym a b : compare b a = CompOpp (compare a b).
Proof. apply compare_antisym_mut. Qed.

Lemma UpdateList_compareHeads_trans3 r u r' u' r'' u'' :
  trans3 (UpdateList_compareHeads r u r' u') (UpdateList_compareHeads r' u' r'' u'')
    (UpdateList_compareHeads r u r'' u'').
Proof.
  unfold UpdateList_compareHeads.
  repeat (apply trans3_then; [|intros _ _]);
    auto using Z_compare_trans3, Pos_compare_trans3, string_compare_trans3.
Qed.

Lemma UpdateList_compareHeads_size r u r' u' :
  UpdateList_compareHeads r u r' u' = Eq -> un_size u = un_size u'.
Proof. intros. by split_Eq. Qed.

Lemma compare_trans3_mut :
  (forall a b c, trans3 (compare a b) (compare b c) (compare a c)) /\
  (forall u u' u'', un_size u = un_size u' -> un_size u' = un_size u'' ->
     trans3 (un_compare u u') (un_compare u' u'') (un_compare u u'')).
Proof.
  apply Expr_UpdateNode_ind.
  1-9: intros; rewrite !compare_unfold; apply trans3_then; [apply Z_compare_trans3|];
    rewrite !Z.compare_eq_iff; intros Hk Hk';
    apply trans3_then; [apply Z_compare_trans3|]; intros _ _;
    apply (eq_trans Hk) in Hk'; apply getKind_inv in Hk, Hk';
    destruct_exs; subst; cbn [compare_parts];
    repeat first [apply ConstantExpr_compareContents_trans3 | apply UpdateList_compareHeads_trans3
      | apply Z_compare_trans3 | by eauto using UpdateList_compareHeads_size
      | apply trans3_then; [|intros ? ?]].
  - by intros [] []; cbn; [|pose proof (un_size_nonneg next); intros; lia..].
  - intros n IHn i IHi v IHv [|u' ? ?] [|u'' ? ?]; pose proof (un_size_nonneg n); cbn; intros;
      [lia..| |]; pose proof (un_size_nonneg u'); [lia|].
    repeat (apply trans3_then; [|intros ? ?]); eauto with lia.
Qed.

Lemma compare_lt_trans a b c : compare a b = Lt -> compare b c = Lt -> compare a c = Lt.
Proof. apply compare_trans3_mut. Qed.

End Expr.
