(* ===== verification/Semantics.v ===== *)
(** What expressions mean.

    [eval] gives an expression its unsigned value under an environment that
    fixes the initial contents of the arrays, and [wf] is the typing the class
    constructors and [UpdateList::extend] ask for.  They are the specification
    the constructors of Expr.cpp are proved against. *)
From stdpp Require Import base list numbers strings.
From Stdlib Require Import ZArith Lia.
From S2P Require Import Prelude APInt Expr.
Local Open Scope Z_scope.

(** The initial contents of each array, by index. *)
Abbreviation env := (positive -> Z -> Z).

(** The value of an operator on operands of width [w].  The executor checks
    divisors before it divides; the value given to a division by zero is the
    one that makes the constructors exact at width 1. *)
Definition eval_binary (k : BinaryKind) (w x y : Z) : Z :=
  let s := to_signed w in
  match k with
  | Add => (x + y) mod 2 ^ w
  | Sub => (x - y) mod 2 ^ w
  | Mul => (x * y) mod 2 ^ w
  | UDiv => if y =? 0 then x else x / y
  | SDiv => if y =? 0 then x else Z.quot (s x) (s y) mod 2 ^ w
  | URem => if y =? 0 then 0 else x mod y
  | SRem => if y =? 0 then 0 else Z.rem (s x) (s y) mod 2 ^ w
  | And => Z.land x y
  | Or => Z.lor x y
  | Xor => Z.lxor x y
  | Shl => if y <? w then Z.shiftl x y mod 2 ^ w else 0
  | LShr => Z.shiftr x y
  | AShr => Z.shiftr (s x) y mod 2 ^ w
  | EqK => Z.b2z (x =? y)
  | Ne => Z.b2z (negb (x =? y))
  | Ult => Z.b2z (x <? y)
  | Ule => Z.b2z (x <=? y)
  | Ugt => Z.b2z (y <? x)
  | Uge => Z.b2z (y <=? x)
  | Slt => Z.b2z (s x <? s y)
  | Sle => Z.b2z (s x <=? s y)
  | Sgt => Z.b2z (s y <? s x)
  | Sge => Z.b2z (s y <=? s x)
  end.

Definition eval_cast (k : CastKind) (from to x : Z) : Z :=
  match k with
  | ZExt => x mod 2 ^ to
  | SExt => to_signed from x mod 2 ^ to
  end.

Section Semantics.
Context {AH : ArrayHeap}.

(** An array before any update: the environment's contents of a symbolic
    array, the fixed contents of a constant one (0 beyond its end, as for an
    [Assignment]). *)
Definition initial_value (ρ : env) (r : positive) (i : Z) : Z :=
  let a := array_at r in
  if isConstantArray a then
    match (if i <? arr_size a then constantValues a !! Z.to_nat i else None) with
    | Some v => uval v
    | None => 0
    end
  else ρ r i mod 2 ^ arr_range a.

Fixpoint eval (ρ : env) (e : Expr) : Z :=
  match e with
  | ConstantExpr v => uval v
  | NotOptimizedExpr s => eval ρ s
  | ReadExpr r u i => eval_read ρ r u (eval ρ i)
  | SelectExpr c t f => if eval ρ c =? 0 then eval ρ f else eval ρ t
  | ConcatExpr l r => eval ρ l * 2 ^ getWidth r + eval ρ r
  | ExtractExpr e off w => (eval ρ e / 2 ^ off) mod 2 ^ w
  | NotExpr e => Z.lnot (eval ρ e) mod 2 ^ getWidth e
  | CastExpr k s w => eval_cast k (getWidth s) w (eval ρ s)
  | BinaryExpr k l r => eval_binary k (getWidth l) (eval ρ l) (eval ρ r)
  end
with eval_read (ρ : env) (r : positive) (u : UpdateNode) (i : Z) : Z :=
  match u with
  | UNull => initial_value ρ r i
  | UNode n ix v => if eval ρ ix =? i then eval ρ v else eval_read ρ r n i
  end.

Definition wf_array (a : Array) : Prop :=
  0 < arr_domain a <= 64 /\ 0 < arr_range a /\ 0 <= arr_size a < 2 ^ 32 /\
  (isConstantArray a = true -> Z.of_nat (length (constantValues a)) = arr_size a) /\
  Forall (fun v => wf_apint v /\ getBitWidth v = arr_range a) (constantValues a).

Fixpoint wf (e : Expr) : Prop :=
  match e with
  | ConstantExpr v => wf_apint v
  | NotOptimizedExpr s => wf s
  | ReadExpr r u i =>
      wf_array (array_at r) /\ wf_updates r u /\ wf i /\ getWidth i = arr_domain (array_at r)
  | SelectExpr c t f => wf c /\ wf t /\ wf f /\ getWidth c = Bool /\ getWidth t = getWidth f
  | ConcatExpr l r => wf l /\ wf r
  | ExtractExpr e off w => wf e /\ 0 <= off /\ 0 < w /\ off + w <= getWidth e
  | NotExpr e => wf e
  | CastExpr _ s w => wf s /\ getWidth s <= w
  | BinaryExpr _ l r => wf l /\ wf r /\ getWidth l = getWidth r
  end
with wf_updates (r : positive) (u : UpdateNode) : Prop :=
  match u with
  | UNull => True
  | UNode n i v =>
      wf_updates r n /\ wf i /\ wf v /\
      getWidth i = arr_domain (array_at r) /\ getWidth v = arr_range (array_at r)
  end.

(** ** Values stay in range *)

Lemma b2z_range b : 0 <= Z.b2z b < 2 ^ 1.
Proof. destruct b; cbn; lia. Qed.

Lemma eval_binary_range k w x y :
  0 < w -> 0 <= x < 2 ^ w -> 0 <= y < 2 ^ w ->
  0 <= eval_binary k w x y < 2 ^ (if isCmpKind k then Bool else w).
Proof.
  intros Hw Hx Hy. destruct k; cbn [eval_binary isCmpKind]; try apply b2z_range;
    try (apply mod_pow2_range; lia).
  - destruct (Z.eqb_spec y 0); [lia|].
    split; [apply Z.div_pos; lia|]. apply Z.le_lt_trans with x; [|lia].
    apply Z.div_le_upper_bound; nia.
  - case_match; [lia|]. apply mod_pow2_range; lia.
  - destruct (Z.eqb_spec y 0); [lia|]. pose proof (Z.mod_pos_bound x y). lia.
  - case_match; [lia|]. apply mod_pow2_range; lia.
  - apply (bitop_range _ andb); auto using Z.land_spec with lia.
  - apply (bitop_range _ orb); auto using Z.lor_spec with lia.
  - apply (bitop_range _ xorb); auto using Z.lxor_spec with lia.
  - case_match; [apply mod_pow2_range|]; lia.
  - rewrite Z.shiftr_div_pow2 by lia. pose proof (pow2_pos y).
    split; [apply Z.div_pos; lia|]. apply Z.le_lt_trans with x; [|lia].
    apply Z.div_le_upper_bound; nia.
Qed.

Lemma concat_range a b x y : 0 <= a -> 0 <= b -> 0 <= x < 2 ^ a -> 0 <= y < 2 ^ b ->
  0 <= x * 2 ^ b + y < 2 ^ (a + b).
Proof. intros. rewrite Z.pow_add_r by lia. nia. Qed.

Lemma initial_value_range ρ r i :
  wf_array (array_at r) -> 0 <= initial_value ρ r i < 2 ^ arr_range (array_at r).
Proof.
  intros (_ & Hr & _ & _ & Hc). unfold initial_value.
  destruct (isConstantArray _); [|apply mod_pow2_range; lia].
  destruct (if _ <? _ then _ else _) eqn:E; [|pose proof (pow2_pos (arr_range (array_at r))); lia].
  case_match; [|done]. rewrite Forall_lookup in Hc. destruct (Hc _ _ E) as [[_ ?] <-]. done.
Qed.

Lemma wf_range_mut :
  (forall e, wf e -> 0 < getWidth e /\ forall ρ, 0 <= eval ρ e < 2 ^ getWidth e) /\
  (forall u r, wf_array (array_at r) -> wf_updates r u ->
     forall ρ i, 0 <= eval_read ρ r u i < 2 ^ arr_range (array_at r)).
Proof.
  apply Expr_UpdateNode_ind; cbn [wf wf_updates eval eval_read getWidth]; unfold wf_apint; intros;
    destruct_and?; repeat match goal with H : ?P -> _ , H' : ?P |- _ => specialize (H H') end;
    destruct_and?.
  - auto.
  - auto.
  - split; [unfold wf_array in *; lia|]. intros; auto.
  - split; [done|]. intros. case_match; [|auto].
    match goal with H : getWidth trueExpr = _ |- _ => rewrite H end. auto.
  - split; [lia|]. intros. apply concat_range; auto with lia.
  - split; [lia|]. intros. apply mod_pow2_range. lia.
  - split; [lia|]. intros. apply mod_pow2_range. lia.
  - split; [lia|]. intros. destruct k; apply mod_pow2_range; lia.
  - split; [unfold Bool; case_match; lia|]. intros. apply eval_binary_range; [lia|auto|].
    match goal with H : getWidth left = _ |- _ => rewrite H end. auto.
  - by apply initial_value_range.
  - case_match; [|auto]. match goal with H : getWidth value = _ |- _ => rewrite <- H end. auto.
Qed.

Lemma wf_width e : wf e -> 0 < getWidth e.
Proof. intros. by apply wf_range_mut. Qed.

Lemma eval_range e ρ : wf e -> 0 <= eval ρ e < 2 ^ getWidth e.
Proof. intros. by apply wf_range_mut. Qed.

End Semantics.

#[export] Hint Resolve wf_width : expr_wf.
