(* ===== verification/ConstantOps.v ===== *)
(** Operations on constants: the methods of [ConstantExpr] that fold. *)
From stdpp Require Import base list numbers.
From Stdlib Require Import ZArith Lia.
From S2P Require Import Prelude APInt Bits Expr Semantics.
Local Open Scope Z_scope.

Section ConstantOps.
Context {AP : APIntOps}.

(** ** Definitions *)

(** [ConstantExpr::alloc(uint64_t, Width)] *)
Definition ConstantExpr_alloc (v w : Z) : APInt := ap_of_u64 w v.

(** [ConstantExpr::create]: the constant must fit its width. *)
Definition ConstantExpr_create (v w : Z) : outcome APInt :=
  if w <=? 64 then
    t ← bits64_truncateToNBits v w;
    Assert v =? t ;; Done (ConstantExpr_alloc v w)
  else Done (ConstantExpr_alloc v w).

Definition ConstantExpr_isZero (a : APInt) : bool := ap_isMinValue a.
Definition ConstantExpr_isOne (a : APInt) : bool := ap_getLimitedValue a (2 ^ 64 - 1) =? 1.
Definition ConstantExpr_isTrue (a : APInt) : bool :=
  (getBitWidth a =? Bool) && ap_getBoolValue a.
Definition ConstantExpr_isFalse (a : APInt) : bool :=
  (getBitWidth a =? Bool) && negb (ap_getBoolValue a).
Definition ConstantExpr_isAllOnes (a : APInt) : bool := ap_isAllOnesValue a.

(** [ConstantExpr::getZExtValue] *)
Definition ConstantExpr_getZExtValue (a : APInt) (bits : Z) : outcome Z :=
  Assert getBitWidth a <=? bits ;; Done (ap_getZExtValue a).

Definition ConstantExpr_Concat (a rhs : APInt) : APInt :=
  let W := getBitWidth a + getBitWidth rhs in
  let tmp := ap_zext a W in
  let tmp := ap_shl_u tmp (getBitWidth rhs) in
  ap_or tmp (ap_zext rhs W).

Definition ConstantExpr_Extract (a : APInt) (offset w : Z) : APInt :=
  ap_zextOrTrunc (ap_ashr_u a offset) w.

Definition ConstantExpr_ZExt (a : APInt) (w : Z) : APInt := ap_zextOrTrunc a w.
Definition ConstantExpr_SExt (a : APInt) (w : Z) : APInt := ap_sextOrTrunc a w.

Definition ConstantExpr_Add (a rhs : APInt) : APInt := ap_add a rhs.
Definition ConstantExpr_Neg (a : APInt) : APInt := ap_neg a.
Definition ConstantExpr_Sub (a rhs : APInt) : APInt := ap_sub a rhs.
Definition ConstantExpr_Mul (a rhs : APInt) : APInt := ap_mul a rhs.
Definition ConstantExpr_UDiv (a rhs : APInt) : APInt := ap_udiv a rhs.
Definition ConstantExpr_SDiv (a rhs : APInt) : APInt := ap_sdiv a rhs.
Definition ConstantExpr_URem (a rhs : APInt) : APInt := ap_urem a rhs.
Definition ConstantExpr_SRem (a rhs : APInt) : APInt := ap_srem a rhs.
Definition ConstantExpr_And (a rhs : APInt) : APInt := ap_and a rhs.
Definition ConstantExpr_Or (a rhs : APInt) : APInt := ap_or a rhs.
Definition ConstantExpr_Xor (a rhs : APInt) : APInt := ap_xor a rhs.
Definition ConstantExpr_Shl (a rhs : APInt) : APInt := ap_shl a rhs.
Definition ConstantExpr_LShr (a rhs : APInt) : APInt := ap_lshr a rhs.
Definition ConstantExpr_AShr (a rhs : APInt) : APInt := ap_ashr a rhs.
Definition ConstantExpr_Not (a : APInt) : APInt := ap_not a.

Definition alloc_bool (b : bool) : APInt := ConstantExpr_alloc (Z.b2z b) Bool.

Definition ConstantExpr_Eq (a rhs : APInt) : APInt := alloc_bool (ap_eq a rhs).
Definition ConstantExpr_Ne (a rhs : APInt) : APInt := alloc_bool (negb (ap_eq a rhs)).
Definition ConstantExpr_Ult (a rhs : APInt) : APInt := alloc_bool (ap_ult a rhs).
Definition ConstantExpr_Ule (a rhs : APInt) : APInt := alloc_bool (ap_ule a rhs).
Definition ConstantExpr_Ugt (a rhs : APInt) : APInt := alloc_bool (ap_ugt a rhs).
Definition ConstantExpr_Uge (a rhs : APInt) : APInt := alloc_bool (ap_uge a rhs).
Definition ConstantExpr_Slt (a rhs : APInt) : APInt := alloc_bool (ap_slt a rhs).
Definition ConstantExpr_Sle (a rhs : APInt) : APInt := alloc_bool (ap_sle a rhs).
Definition ConstantExpr_Sgt (a rhs : APInt) : APInt := alloc_bool (ap_sgt a rhs).
Definition ConstantExpr_Sge (a rhs : APInt) : APInt := alloc_bool (ap_sge a rhs).

(** The method the [create] macros call for each binary kind. *)
Definition ConstantExpr_op (k : BinaryKind) : APInt -> APInt -> APInt :=
  match k with
  | Add => ConstantExpr_Add | Sub => ConstantExpr_Sub | Mul => ConstantExpr_Mul
  | UDiv => ConstantExpr_UDiv | SDiv => ConstantExpr_SDiv
  | URem => ConstantExpr_URem | SRem => ConstantExpr_SRem
  | And => ConstantExpr_And | Or => ConstantExpr_Or | Xor => ConstantExpr_Xor
  | Shl => ConstantExpr_Shl | LShr => ConstantExpr_LShr | AShr => ConstantExpr_AShr
  | EqK => ConstantExpr_Eq | Ne => ConstantExpr_Ne
  | Ult => ConstantExpr_Ult | Ule => ConstantExpr_Ule
  | Ugt => ConstantExpr_Ugt | Uge => ConstantExpr_Uge
  | Slt => ConstantExpr_Slt | Sle => ConstantExpr_Sle
  | Sgt => ConstantExpr_Sgt | Sge => ConstantExpr_Sge
  end.

(** ** Folding computes the operator *)

(** [a] is the [w]-bit constant of value [v]. *)
Definition const_is (a : APInt) (w v : Z) : Prop :=
  wf_apint a /\ getBitWidth a = w /\ uval a = v.

Definition isDivKind (k : BinaryKind) : bool :=
  match k with UDiv | SDiv | URem | SRem => true | _ => false end.

Context {APL : APIntLaws}.

Lemma const_is_intro w v : 0 < w -> 0 <= v < 2 ^ w -> const_is (MkAPInt w v) w v.
Proof. done. Qed.

Lemma ConstantExpr_alloc_spec v w : 0 < w -> 0 <= v < 2 ^ w -> v < 2 ^ 64 ->
  ConstantExpr_alloc v w = MkAPInt w v.
Proof.
  intros. unfold ConstantExpr_alloc. rewrite ap_of_u64_spec by lia. by rewrite Z.mod_small.
Qed.

Lemma ConstantExpr_create_spec v w : 0 < w -> 0 <= v < 2 ^ w -> v < 2 ^ 64 ->
  ConstantExpr_create v w = Done (MkAPInt w v).
Proof.
  intros. unfold ConstantExpr_create. rewrite ConstantExpr_alloc_spec by done.
  destruct (Z.leb_spec w 64); [|done].
  rewrite bits64_truncateToNBits_spec, Z.mod_small by lia. cbn. by rewrite Z.eqb_refl.
Qed.

Lemma ConstantExpr_create_0 w : 0 < w -> ConstantExpr_create 0 w = Done (MkAPInt w 0).
Proof. intros. pose proof (pow2_pos w). apply ConstantExpr_create_spec; lia. Qed.

Lemma alloc_bool_spec b : alloc_bool b = MkAPInt 1 (Z.b2z b).
Proof.
  unfold alloc_bool. pose proof (b2z_range b). cbn in *.
  apply ConstantExpr_alloc_spec; unfold Bool; lia.
Qed.

Ltac unfold_const_op :=
  unfold ConstantExpr_Add, ConstantExpr_Sub, ConstantExpr_Mul, ConstantExpr_UDiv,
    ConstantExpr_SDiv, ConstantExpr_URem, ConstantExpr_SRem, ConstantExpr_And,
    ConstantExpr_Or, ConstantExpr_Xor, ConstantExpr_Shl, ConstantExpr_LShr, ConstantExpr_AShr,
    ConstantExpr_Eq, ConstantExpr_Ne, ConstantExpr_Ult, ConstantExpr_Ule, ConstantExpr_Ugt,
    ConstantExpr_Uge, ConstantExpr_Slt, ConstantExpr_Sle, ConstantExpr_Sgt, ConstantExpr_Sge.

Lemma ConstantExpr_op_sound k a b :
  wf_apint a -> wf_apint b -> getBitWidth a = getBitWidth b ->
  (isDivKind k = true -> uval b <> 0) ->
  const_is (ConstantExpr_op k a b) (if isCmpKind k then Bool else getBitWidth a)
    (eval_binary k (getBitWidth a) (uval a) (uval b)).
Proof.
  intros [Hw Ha] [_ Hb] E Hdiv. rewrite <- E in Hb.
  pose proof (eval_binary_range k (getBitWidth a) (uval a) (uval b) Hw Ha Hb) as Hr.
  enough (ConstantExpr_op k a b = MkAPInt (if isCmpKind k then Bool else getBitWidth a)
    (eval_binary k (getBitWidth a) (uval a) (uval b))) as ->.
  { apply const_is_intro; [unfold Bool; case_match; lia | done]. }
  clear Hr. destruct k; cbn [ConstantExpr_op isCmpKind isDivKind eval_binary] in *;
    try (specialize (Hdiv eq_refl); rewrite (proj2 (Z.eqb_neq _ _) Hdiv)).
  all: unfold_const_op; rewrite ?alloc_bool_spec; autorewrite with apint;
    rewrite ?ap_udiv_spec, ?ap_sdiv_spec, ?ap_urem_spec, ?ap_srem_spec by auto;
    unfold sval; rewrite <- ?E; done.
Qed.

(** ** Slices of bits *)

Lemma concat_lor x y n : 0 <= n -> 0 <= y < 2 ^ n -> Z.lor (x * 2 ^ n) y = x * 2 ^ n + y.
Proof.
  intros Hn Hy. symmetry. rewrite <- Z.shiftl_mul_pow2 by done.
  apply Z.add_nocarry_lor. apply Z.bits_inj'; intros i Hi; rewrite Z.land_spec, Z.testbit_0_l.
  destruct (Z.lt_ge_cases i n); [by rewrite Z.shiftl_spec_low by lia|].
  rewrite <- (Z.mod_small y (2 ^ n)), Z.mod_pow2_bits_high by lia. apply andb_false_r.
Qed.

Lemma ConstantExpr_Concat_sound a b : wf_apint a -> wf_apint b ->
  const_is (ConstantExpr_Concat a b) (getBitWidth a + getBitWidth b)
    (uval a * 2 ^ getBitWidth b + uval b).
Proof.
  intros [Hwa Ha] [Hwb Hb]. unfold ConstantExpr_Concat.
  rewrite !ap_zext_spec by lia. rewrite ap_shl_u_spec by (cbn; lia). cbn.
  rewrite ap_or_spec by done. cbn.
  assert (0 <= uval a * 2 ^ getBitWidth b + uval b < 2 ^ (getBitWidth a + getBitWidth b))
    by (apply concat_range; lia).
  rewrite Z.shiftl_mul_pow2 by lia. rewrite Z.mod_small by nia.
  rewrite concat_lor by lia. apply const_is_intro; [lia|done].
Qed.

(** The arithmetic shift brings in sign bits only above the extracted slice. *)
Lemma ConstantExpr_Extract_sound a off w :
  wf_apint a -> 0 <= off -> 0 < w -> off + w <= getBitWidth a ->
  const_is (ConstantExpr_Extract a off w) w ((uval a / 2 ^ off) mod 2 ^ w).
Proof.
  intros [Hw Ha] Ho Hw' Hle. unfold ConstantExpr_Extract.
  rewrite ap_ashr_u_spec, ap_zextOrTrunc_spec by lia. cbn.
  enough ((Z.shiftr (sval a) off mod 2 ^ getBitWidth a) mod 2 ^ w = (uval a / 2 ^ off) mod 2 ^ w)
    as -> by (apply const_is_intro; [lia | apply mod_pow2_range; lia]).
  rewrite mod_mod_pow2 by lia. rewrite Z.shiftr_div_pow2 by lia.
  unfold sval, to_signed. case_match; [done|].
  apply mod_eq_of_diff; [apply pow2_pos; lia|].
  replace (2 ^ getBitWidth a) with (2 ^ (getBitWidth a - off) * 2 ^ off)
    by (rewrite <- Z.pow_add_r by lia; f_equal; lia).
  replace (uval a - 2 ^ (getBitWidth a - off) * 2 ^ off)
    with (uval a + - 2 ^ (getBitWidth a - off) * 2 ^ off) by lia.
  rewrite Z.div_add by (pose proof (pow2_pos off); lia).
  exists (- 2 ^ (getBitWidth a - off - w)).
  rewrite Z.mul_opp_l, <- Z.pow_add_r by lia. rewrite Z.sub_add. lia.
Qed.

Lemma ConstantExpr_ZExt_sound a w : 0 < w ->
  const_is (ConstantExpr_ZExt a w) w (uval a mod 2 ^ w).
Proof.
  intros. unfold ConstantExpr_ZExt. rewrite ap_zextOrTrunc_spec by done.
  apply const_is_intro; [done | apply mod_pow2_range; lia].
Qed.

Lemma ConstantExpr_SExt_sound a w : 0 < w ->
  const_is (ConstantExpr_SExt a w) w (to_signed (getBitWidth a) (uval a) mod 2 ^ w).
Proof.
  intros. unfold ConstantExpr_SExt. rewrite ap_sextOrTrunc_spec by done.
  apply const_is_intro; [done | apply mod_pow2_range; lia].
Qed.

Lemma ConstantExpr_Not_sound a : wf_apint a ->
  const_is (ConstantExpr_Not a) (getBitWidth a) (Z.lnot (uval a) mod 2 ^ getBitWidth a).
Proof.
  intros [? _]. unfold ConstantExpr_Not. rewrite ap_not_spec.
  apply const_is_intro; [done | apply mod_pow2_range; lia].
Qed.

(** ** Predicates *)

Lemma isZero_spec a : ConstantExpr_isZero a = (uval a =? 0).
Proof. apply ap_isMinValue_spec. Qed.

Lemma isOne_spec a : ConstantExpr_isOne a = (uval a =? 1).
Proof.
  unfold ConstantExpr_isOne. rewrite ap_getLimitedValue_spec.
  destruct (Z.min_spec (uval a) (2 ^ 64 - 1)) as [[? ->]|[? ->]]; [done|].
  symmetry. apply Z.eqb_neq. lia.
Qed.

Lemma isTrue_spec a : getBitWidth a = Bool -> ConstantExpr_isTrue a = negb (uval a =? 0).
Proof.
  intros H. unfold ConstantExpr_isTrue. rewrite ap_getBoolValue_spec, H. done.
Qed.

Lemma isFalse_spec a : getBitWidth a = Bool -> ConstantExpr_isFalse a = (uval a =? 0).
Proof.
  intros H. unfold ConstantExpr_isFalse. rewrite ap_getBoolValue_spec, H. apply negb_involutive.
Qed.

Lemma isAllOnes_spec a : ConstantExpr_isAllOnes a = (uval a =? 2 ^ getBitWidth a - 1).
Proof. apply ap_isAllOnesValue_spec. Qed.

End ConstantOps.
