(* ===== verification/ExprCreate.v ===== *)
(** The [create] functions of Expr.cpp: folding, canonicalizing constructors.

    A C++ method [FooExpr::create] is [FooExpr_create], the static helper
    [FooExpr_create] is [FooExpr_create_], and a failed [assert] is the outcome
    [AssertFail].  [AddExpr]/[SubExpr] and [ConcatExpr]/[ExtractExpr] call each
    other on terms they have just built: they run on fuel computed from the
    sizes of their operands. *)
From stdpp Require Import base list numbers strings.
From Stdlib Require Import ZArith Lia.
From S2P Require Import Prelude APInt Bits Expr Semantics ConstantOps.
Local Open Scope Z_scope.

(** The command-line option [-const-array-opt] (off by default). *)
Class ExprOptions : Type := { ConstArrayOpt : bool }.

(** The number of nodes of an expression, the measure the fuel is taken from. *)
Fixpoint expr_size (e : Expr) : nat :=
  match e with
  | ConstantExpr _ => 1
  | NotOptimizedExpr s => S (expr_size s)
  | ReadExpr _ u i => S (un_weight u + expr_size i)
  | SelectExpr c t f => S (expr_size c + expr_size t + expr_size f)
  | ConcatExpr l r => S (expr_size l + expr_size r)
  | ExtractExpr e _ _ => S (expr_size e)
  | NotExpr e => S (expr_size e)
  | CastExpr _ s _ => S (expr_size s)
  | BinaryExpr _ l r => S (expr_size l + expr_size r)
  end%nat
with un_weight (u : UpdateNode) : nat :=
  match u with
  | UNull => 0
  | UNode n i v => S (un_weight n + expr_size i + expr_size v)
  end%nat.

Section Create.
Context {AP : APIntOps} {AH : ArrayHeap} {OP : ExprOptions}.

(** ** The macros *)

(** [BCREATE_R] and [CMPCREATE_T]: fold two constants, or specialise on one. *)
Definition BCREATE_R (op : APInt -> APInt -> APInt)
    (partialL : Expr -> APInt -> outcome Expr) (partialR : APInt -> Expr -> outcome Expr)
    (create : Expr -> Expr -> outcome Expr) (l r : Expr) : outcome Expr :=
  Assert getWidth l =? getWidth r ;;
  match l with
  | ConstantExpr cl =>
      match r with
      | ConstantExpr cr => Done (ConstantExpr (op cl cr))
      | _ => partialR cl r
      end
  | _ =>
      match r with
      | ConstantExpr cr => partialL l cr
      | _ => create l r
      end
  end.

(** [BCREATE] and [CMPCREATE]: only two constants are special. *)
Definition BCREATE (op : APInt -> APInt -> APInt) (create : Expr -> Expr -> outcome Expr)
    (l r : Expr) : outcome Expr :=
  Assert getWidth l =? getWidth r ;;
  match l, r with
  | ConstantExpr cl, ConstantExpr cr => Done (ConstantExpr (op cl cr))
  | _, _ => create l r
  end.

(** ** And, Or *)

Definition AndExpr_createPartial (l : Expr) (cr : APInt) : outcome Expr :=
  if ConstantExpr_isAllOnes cr then Done l
  else if ConstantExpr_isZero cr then Done (ConstantExpr cr)
  else Done (BinaryExpr And l (ConstantExpr cr)).

Definition AndExpr_createPartialR (cl : APInt) (r : Expr) : outcome Expr :=
  AndExpr_createPartial r cl.

Definition AndExpr_create_ (l r : Expr) : outcome Expr := Done (BinaryExpr And l r).

Definition AndExpr_create : Expr -> Expr -> outcome Expr :=
  BCREATE_R ConstantExpr_And AndExpr_createPartial AndExpr_createPartialR AndExpr_create_.

Definition OrExpr_createPartial (l : Expr) (cr : APInt) : outcome Expr :=
  if ConstantExpr_isAllOnes cr then Done (ConstantExpr cr)
  else if ConstantExpr_isZero cr then Done l
  else Done (BinaryExpr Or l (ConstantExpr cr)).

Definition OrExpr_createPartialR (cl : APInt) (r : Expr) : outcome Expr :=
  OrExpr_createPartial r cl.

Definition OrExpr_create_ (l r : Expr) : outcome Expr := Done (BinaryExpr Or l r).

Definition OrExpr_create : Expr -> Expr -> outcome Expr :=
  BCREATE_R ConstantExpr_Or OrExpr_createPartial OrExpr_createPartialR OrExpr_create_.

(** ** Eq *)

Definition EqExpr_create_ (l r : Expr) : outcome Expr :=
  if expr_eqb l r then Done (ConstantExpr (ConstantExpr_alloc 1 Bool))
  else Done (BinaryExpr EqK l r).

(** The loop of [TryConstArrayOpt] over the values of the array; [mayBe i] is
    [EqExpr::create(rd->index, ConstantExpr::alloc(i, ...))]. *)
Fixpoint TryConstArrayOpt_loop (mayBe : Z -> outcome Expr) (cl : APInt) (rd : Expr)
    (values : list APInt) (i numMatches : Z) (res : Expr) : outcome Expr :=
  match values with
  | [] => Done res
  | v :: values' =>
      if expr_eqb (ConstantExpr cl) (ConstantExpr v) then
        let numMatches := numMatches + 1 in
        if 100 <? numMatches then EqExpr_create_ (ConstantExpr cl) rd
        else
          m ← mayBe i;
          res ← OrExpr_create res m;
          TryConstArrayOpt_loop mayBe cl rd values' (i + 1) numMatches res
      else TryConstArrayOpt_loop mayBe cl rd values' (i + 1) numMatches res
  end.

Definition TryConstArrayOpt (mayBe : Z -> outcome Expr) (cl : APInt)
    (root : positive) (head : UpdateNode) (index : Expr) : outcome Expr :=
  let rd := ReadExpr root head index in
  if isSymbolicArray (array_at root) || negb (un_size head =? 0)
  then EqExpr_create_ (ConstantExpr cl) rd
  else TryConstArrayOpt_loop mayBe cl rd (constantValues (array_at root)) 0 0
         (ConstantExpr (ConstantExpr_alloc 0 Bool)).

(** [EqExpr::create(e, c)] for a constant [c], given [EqExpr_createPartialR]. *)
Definition EqExpr_create_const (partialR : APInt -> Expr -> outcome Expr)
    (e : Expr) (c : APInt) : outcome Expr :=
  Assert getWidth e =? getBitWidth c ;;
  match e with
  | ConstantExpr v => Done (ConstantExpr (ConstantExpr_Eq v c))
  | _ => partialR c e
  end.

(** [Expr::createIsZero(e)], given [EqExpr_createPartialR]. *)
Definition createIsZero_with (partialR : APInt -> Expr -> outcome Expr) (e : Expr) : outcome Expr :=
  z ← ConstantExpr_create 0 (getWidth e); EqExpr_create_const partialR e z.

(** The recursive calls are on parts of [r], and the calls of [SubExpr::create]
    are on two constants, which it folds. *)
Fixpoint EqExpr_createPartialR (cl : APInt) (r : Expr) {struct r} : outcome Expr :=
  let width := getBitWidth cl in
  if width =? Bool then
    if ConstantExpr_isTrue cl then Done r
    else
      match r with
      | BinaryExpr EqK (ConstantExpr CE) rr =>
          if (getBitWidth CE =? Bool) && ConstantExpr_isFalse CE then Done rr
          else EqExpr_create_ (ConstantExpr cl) r
      | BinaryExpr Or rl rr =>
          a ← createIsZero_with EqExpr_createPartialR rl;
          b ← createIsZero_with EqExpr_createPartialR rr;
          AndExpr_create a b
      | _ => EqExpr_create_ (ConstantExpr cl) r
      end
  else
    match r with
    | CastExpr SExt src _ =>
        let trunc := ConstantExpr_ZExt cl (getWidth src) in
        if expr_eqb (ConstantExpr cl) (ConstantExpr (ConstantExpr_SExt trunc width))
        then EqExpr_create_const EqExpr_createPartialR src trunc
        else z ← ConstantExpr_create 0 Bool; Done (ConstantExpr z)
    | CastExpr ZExt src _ =>
        let trunc := ConstantExpr_ZExt cl (getWidth src) in
        if expr_eqb (ConstantExpr cl) (ConstantExpr (ConstantExpr_ZExt trunc width))
        then EqExpr_create_const EqExpr_createPartialR src trunc
        else z ← ConstantExpr_create 0 Bool; Done (ConstantExpr z)
    | BinaryExpr Add (ConstantExpr c1) b =>
        Assert getBitWidth cl =? getBitWidth c1 ;;
        EqExpr_createPartialR (ConstantExpr_Sub cl c1) b
    | BinaryExpr Sub (ConstantExpr c1) b =>
        Assert getBitWidth c1 =? getBitWidth cl ;;
        EqExpr_createPartialR (ConstantExpr_Sub c1 cl) b
    | ReadExpr root head index =>
        if ConstArrayOpt
        then TryConstArrayOpt
               (fun i => EqExpr_create_const EqExpr_createPartialR index
                           (ConstantExpr_alloc i (getWidth index)))
               cl root head index
        else EqExpr_create_ (ConstantExpr cl) r
    | _ => EqExpr_create_ (ConstantExpr cl) r
    end.

Definition EqExpr_createPartial (l : Expr) (cr : APInt) : outcome Expr :=
  EqExpr_createPartialR cr l.

Definition EqExpr_create : Expr -> Expr -> outcome Expr :=
  BCREATE_R ConstantExpr_Eq EqExpr_createPartial EqExpr_createPartialR EqExpr_create_.

(** [Expr::createIsZero], [Expr::createImplies] *)
Definition createIsZero (e : Expr) : outcome Expr :=
  z ← ConstantExpr_create 0 (getWidth e); EqExpr_create e (ConstantExpr z).

Definition createImplies (hyp conc : Expr) : outcome Expr :=
  n ← createIsZero hyp; OrExpr_create n conc.

Definition NeExpr_create (l r : Expr) : outcome Expr :=
  z ← ConstantExpr_create 0 Bool;
  e ← EqExpr_create l r;
  EqExpr_create (ConstantExpr z) e.

(** ** Xor *)

Definition XorExpr_createPartialR (cl : APInt) (r : Expr) : outcome Expr :=
  if ConstantExpr_isZero cl then Done r
  else if getBitWidth cl =? Bool then
    z ← ConstantExpr_create 0 Bool; EqExpr_createPartial r z
  else Done (BinaryExpr Xor (ConstantExpr cl) r).

Definition XorExpr_createPartial (l : Expr) (cr : APInt) : outcome Expr :=
  XorExpr_createPartialR cr l.

Definition XorExpr_create_ (l r : Expr) : outcome Expr := Done (BinaryExpr Xor l r).

Definition XorExpr_create : Expr -> Expr -> outcome Expr :=
  BCREATE_R ConstantExpr_Xor XorExpr_createPartial XorExpr_createPartialR XorExpr_create_.

(** ** Add, Sub *)

(** The test [e->getKind() == k && isa<ConstantExpr>(e->getKid(0))], with the
    constant and the other kid. *)
Definition const_left (k : BinaryKind) (e : Expr) : option (APInt * Expr) :=
  match e with
  | BinaryExpr k' (ConstantExpr c) a => if decide (k = k') then Some (c, a) else None
  | _ => None
  end.

(** [add] and [sub] stand for the recursive calls of [AddExpr::create] and
    [SubExpr::create]. *)
Definition AddExpr_createPartialR (add sub : Expr -> Expr -> outcome Expr)
    (cl : APInt) (r : Expr) : outcome Expr :=
  if getBitWidth cl =? Bool then XorExpr_createPartialR cl r
  else if ConstantExpr_isZero cl then Done r
  else
    match const_left Add r, const_left Sub r with
    | Some (k, c), _ => (* A + (B+c) == (A+B) + c *)
        s ← add (ConstantExpr cl) (ConstantExpr k); add s c
    | None, Some (k, c) => (* A + (B-c) == (A+B) - c *)
        s ← add (ConstantExpr cl) (ConstantExpr k); sub s c
    | None, None => Done (BinaryExpr Add (ConstantExpr cl) r)
    end.

Definition AddExpr_createPartial (add sub : Expr -> Expr -> outcome Expr)
    (l : Expr) (cr : APInt) : outcome Expr :=
  AddExpr_createPartialR add sub cr l.

Definition AddExpr_create_ (add sub : Expr -> Expr -> outcome Expr)
    (l r : Expr) : outcome Expr :=
  if getWidth l =? Bool then XorExpr_create_ l r
  else
    match const_left Add l, const_left Sub l, const_left Add r, const_left Sub r with
    | Some (k, a), _, _, _ => (* (k+a)+b = k+(a+b) *)
        s ← add a r; add (ConstantExpr k) s
    | None, Some (k, a), _, _ => (* (k-a)+b = k+(b-a) *)
        s ← sub r a; add (ConstantExpr k) s
    | None, None, Some (k, b), _ => (* a + (k+b) = k+(a+b) *)
        s ← add l b; add (ConstantExpr k) s
    | None, None, None, Some (k, b) => (* a + (k-b) = k+(a-b) *)
        s ← sub l b; add (ConstantExpr k) s
    | None, None, None, None => Done (BinaryExpr Add l r)
    end.

Definition SubExpr_createPartialR (add sub : Expr -> Expr -> outcome Expr)
    (cl : APInt) (r : Expr) : outcome Expr :=
  if getBitWidth cl =? Bool then XorExpr_createPartialR cl r
  else
    match const_left Add r, const_left Sub r with
    | Some (k, c), _ => (* A - (B+c) == (A-B) - c *)
        s ← sub (ConstantExpr cl) (ConstantExpr k); sub s c
    | None, Some (k, c) => (* A - (B-c) == (A-B) + c *)
        s ← sub (ConstantExpr cl) (ConstantExpr k); add s c
    | None, None => Done (BinaryExpr Sub (ConstantExpr cl) r)
    end.

(** l - c => l + (-c) *)
Definition SubExpr_createPartial (add sub : Expr -> Expr -> outcome Expr)
    (l : Expr) (cr : APInt) : outcome Expr :=
  AddExpr_createPartial add sub l
    (ConstantExpr_Sub (ConstantExpr_alloc 0 (getBitWidth cr)) cr).

Definition SubExpr_create_ (add sub : Expr -> Expr -> outcome Expr)
    (l r : Expr) : outcome Expr :=
  if getWidth l =? Bool then XorExpr_create_ l r
  else if expr_eqb l r then Done (ConstantExpr (ConstantExpr_alloc 0 (getWidth l)))
  else
    match const_left Add l, const_left Sub l, const_left Add r, const_left Sub r with
    | Some (k, a), _, _, _ => (* (k+a)-b = k+(a-b) *)
        s ← sub a r; add (ConstantExpr k) s
    | None, Some (k, a), _, _ => (* (k-a)-b = k-(a+b) *)
        s ← add a r; sub (ConstantExpr k) s
    | None, None, Some (k, b), _ => (* a - (k+b) = (a-b) - k *)
        s ← sub l b; sub s (ConstantExpr k)
    | None, None, None, Some (k, b) => (* a - (k-b) = (a+b) - k *)
        s ← add l b; sub s (ConstantExpr k)
    | None, None, None, None => Done (BinaryExpr Sub l r)
    end.

Fixpoint AddExpr_create_f (n : nat) (l r : Expr) {struct n} : outcome Expr :=
  match n with
  | O => OutOfFuel
  | S n =>
      let add := AddExpr_create_f n in
      let sub := SubExpr_create_f n in
      BCREATE_R ConstantExpr_Add (AddExpr_createPartial add sub)
        (AddExpr_createPartialR add sub) (AddExpr_create_ add sub) l r
  end
with SubExpr_create_f (n : nat) (l r : Expr) {struct n} : outcome Expr :=
  match n with
  | O => OutOfFuel
  | S n =>
      let add := AddExpr_create_f n in
      let sub := SubExpr_create_f n in
      BCREATE_R ConstantExpr_Sub (SubExpr_createPartial add sub)
        (SubExpr_createPartialR add sub) (SubExpr_create_ add sub) l r
  end.

Definition AddSub_fuel (l r : Expr) : nat := (expr_size l + expr_size r + 1)%nat.

Definition AddExpr_create (l r : Expr) : outcome Expr := AddExpr_create_f (AddSub_fuel l r) l r.
Definition SubExpr_create (l r : Expr) : outcome Expr := SubExpr_create_f (AddSub_fuel l r) l r.

(** ** Mul *)

Definition MulExpr_createPartialR (cl : APInt) (r : Expr) : outcome Expr :=
  if getBitWidth cl =? Bool then AndExpr_createPartialR cl r
  else if ConstantExpr_isOne cl then Done r
  else if ConstantExpr_isZero cl then Done (ConstantExpr cl)
  else Done (BinaryExpr Mul (ConstantExpr cl) r).

Definition MulExpr_createPartial (l : Expr) (cr : APInt) : outcome Expr :=
  MulExpr_createPartialR cr l.

Definition MulExpr_create_ (l r : Expr) : outcome Expr :=
  if getWidth l =? Bool then Done (BinaryExpr And l r) else Done (BinaryExpr Mul l r).

Definition MulExpr_create : Expr -> Expr -> outcome Expr :=
  BCREATE_R ConstantExpr_Mul MulExpr_createPartial MulExpr_createPartialR MulExpr_create_.

(** ** Division and shifts *)

Definition UDivExpr_create_ (l r : Expr) : outcome Expr :=
  if getWidth l =? Bool then Done l else Done (BinaryExpr UDiv l r).

Definition SDivExpr_create_ (l r : Expr) : outcome Expr :=
  if getWidth l =? Bool then Done l else Done (BinaryExpr SDiv l r).

Definition URemExpr_create_ (l r : Expr) : outcome Expr :=
  if getWidth l =? Bool then z ← ConstantExpr_create 0 Bool; Done (ConstantExpr z)
  else Done (BinaryExpr URem l r).

Definition SRemExpr_create_ (l r : Expr) : outcome Expr :=
  if getWidth l =? Bool then z ← ConstantExpr_create 0 Bool; Done (ConstantExpr z)
  else Done (BinaryExpr SRem l r).

Definition ShlExpr_create_ (l r : Expr) : outcome Expr :=
  if getWidth l =? Bool then n ← createIsZero r; AndExpr_create l n
  else Done (BinaryExpr Shl l r).

Definition LShrExpr_create_ (l r : Expr) : outcome Expr :=
  if getWidth l =? Bool then n ← createIsZero r; AndExpr_create l n
  else Done (BinaryExpr LShr l r).

Definition AShrExpr_create_ (l r : Expr) : outcome Expr :=
  if getWidth l =? Bool then Done l else Done (BinaryExpr AShr l r).

Definition UDivExpr_create := BCREATE ConstantExpr_UDiv UDivExpr_create_.
Definition SDivExpr_create := BCREATE ConstantExpr_SDiv SDivExpr_create_.
Definition URemExpr_create := BCREATE ConstantExpr_URem URemExpr_create_.
Definition SRemExpr_create := BCREATE ConstantExpr_SRem SRemExpr_create_.
Definition ShlExpr_create := BCREATE ConstantExpr_Shl ShlExpr_create_.
Definition LShrExpr_create := BCREATE ConstantExpr_LShr LShrExpr_create_.
Definition AShrExpr_create := BCREATE ConstantExpr_AShr AShrExpr_create_.

(** ** Comparisons *)

Definition UltExpr_create_ (l r : Expr) : outcome Expr :=
  if getWidth l =? Bool then n ← createIsZero l; AndExpr_create n r
  else Done (BinaryExpr Ult l r).

Definition UleExpr_create_ (l r : Expr) : outcome Expr :=
  if getWidth l =? Bool then n ← createIsZero l; OrExpr_create n r
  else Done (BinaryExpr Ule l r).

Definition SltExpr_create_ (l r : Expr) : outcome Expr :=
  if getWidth l =? Bool then n ← createIsZero r; AndExpr_create l n
  else Done (BinaryExpr Slt l r).

Definition SleExpr_create_ (l r : Expr) : outcome Expr :=
  if getWidth l =? Bool then n ← createIsZero r; OrExpr_create l n
  else Done (BinaryExpr Sle l r).

Definition UltExpr_create := BCREATE ConstantExpr_Ult UltExpr_create_.
Definition UleExpr_create := BCREATE ConstantExpr_Ule UleExpr_create_.
Definition SltExpr_create := BCREATE ConstantExpr_Slt SltExpr_create_.
Definition SleExpr_create := BCREATE ConstantExpr_Sle SleExpr_create_.

Definition UgtExpr_create (l r : Expr) : outcome Expr := UltExpr_create r l.
Definition UgeExpr_create (l r : Expr) : outcome Expr := UleExpr_create r l.
Definition SgtExpr_create (l r : Expr) : outcome Expr := SltExpr_create r l.
Definition SgeExpr_create (l r : Expr) : outcome Expr := SleExpr_create r l.

(** ** NotOptimized, Not, Select *)

Definition NotOptimizedExpr_create (src : Expr) : outcome Expr := Done (NotOptimizedExpr src).

Definition NotExpr_create (e : Expr) : outcome Expr :=
  match e with
  | ConstantExpr v => Done (ConstantExpr (ConstantExpr_Not v))
  | _ => Done (NotExpr e)
  end.

Definition SelectExpr_create (c t f : Expr) : outcome Expr :=
  let kt := getWidth t in
  Assert getWidth c =? Bool ;; Assert kt =? getWidth f ;;
  match c with
  | ConstantExpr CE => Done (if ConstantExpr_isTrue CE then t else f)
  | _ =>
      if expr_eqb t f then Done t
      else if kt =? Bool then
        match t with
        | ConstantExpr CE =>
            if ConstantExpr_isTrue CE then OrExpr_create c f
            else n ← createIsZero c; AndExpr_create n f
        | _ =>
            match f with
            | ConstantExpr CE =>
                if ConstantExpr_isTrue CE then n ← createIsZero c; OrExpr_create n t
                else AndExpr_create c t
            | _ => Done (SelectExpr c t f)
            end
        end
      else Done (SelectExpr c t f)
  end.

(** ** Concat, Extract, casts *)

Fixpoint ConcatExpr_create_f (n : nat) (l r : Expr) {struct n} : outcome Expr :=
  match n with
  | O => OutOfFuel
  | S n =>
      match l, r with
      | ConstantExpr lCE, ConstantExpr rCE => Done (ConstantExpr (ConstantExpr_Concat lCE rCE))
      | ExtractExpr le lo lw, ExtractExpr re ro rw =>
          if expr_eqb le re && (ro + rw =? lo)
          then ExtractExpr_create_f n le ro (getWidth l + getWidth r)
          else Done (ConcatExpr l r)
      | _, _ => Done (ConcatExpr l r)
      end
  end
with ExtractExpr_create_f (n : nat) (expr : Expr) (off w : Z) {struct n} : outcome Expr :=
  match n with
  | O => OutOfFuel
  | S n =>
      let kw := getWidth expr in
      Assert (0 <? w) && (off + w <=? kw) ;;
      if w =? kw then Done expr
      else
        match expr with
        | ConstantExpr CE => Done (ConstantExpr (ConstantExpr_Extract CE off w))
        | ConcatExpr kid0 kid1 =>
            let rw := getWidth kid1 in
            if rw <=? off then ExtractExpr_create_f n kid0 (off - rw) w
            else if off + w <=? rw then ExtractExpr_create_f n kid1 off w
            else
              a ← ExtractExpr_create_f n kid0 0 (w - rw + off);
              b ← ExtractExpr_create_f n kid1 off (rw - off);
              ConcatExpr_create_f n a b
        | _ => Done (ExtractExpr expr off w)
        end
  end.

Definition ConcatExpr_create (l r : Expr) : outcome Expr :=
  ConcatExpr_create_f (2 * (expr_size l + expr_size r) + 2) l r.

Definition ExtractExpr_create (e : Expr) (off w : Z) : outcome Expr :=
  ExtractExpr_create_f (2 * expr_size e + 1) e off w.

(** [ConcatExpr::createN]: the chain is unbalanced to the right. *)
Fixpoint ConcatExpr_createN (kids : list Expr) : outcome Expr :=
  match kids with
  | [] => AssertFail
  | [e] => Done e
  | e :: kids' => r ← ConcatExpr_createN kids'; ConcatExpr_create e r
  end.

Definition ConcatExpr_create4 (kid1 kid2 kid3 kid4 : Expr) : outcome Expr :=
  a ← ConcatExpr_create kid3 kid4;
  b ← ConcatExpr_create kid2 a;
  ConcatExpr_create kid1 b.

Definition ConcatExpr_create8 (kid1 kid2 kid3 kid4 kid5 kid6 kid7 kid8 : Expr) : outcome Expr :=
  a ← ConcatExpr_create4 kid5 kid6 kid7 kid8;
  b ← ConcatExpr_create kid4 a;
  c ← ConcatExpr_create kid3 b;
  d ← ConcatExpr_create kid2 c;
  ConcatExpr_create kid1 d.

Definition ZExtExpr_create (e : Expr) (w : Z) : outcome Expr :=
  let kBits := getWidth e in
  if w =? kBits then Done e
  else if w <? kBits then ExtractExpr_create e 0 w
  else
    match e with
    | ConstantExpr CE => Done (ConstantExpr (ConstantExpr_ZExt CE w))
    | _ => Done (CastExpr ZExt e w)
    end.

Definition SExtExpr_create (e : Expr) (w : Z) : outcome Expr :=
  let kBits := getWidth e in
  if w =? kBits then Done e
  else if w <? kBits then ExtractExpr_create e 0 w
  else
    match e with
    | ConstantExpr CE => Done (ConstantExpr (ConstantExpr_SExt CE w))
    | _ => Done (CastExpr SExt e w)
    end.

(** ** Read *)

(** The walk over the update list, most recent write first: the value of a
    write certainly at [index], or where the walk stopped and whether it
    stopped at a write that may or may not be at [index]. *)
Fixpoint ReadExpr_rollback (index : Expr) (un : UpdateNode) : outcome (Expr + UpdateNode * bool) :=
  match un with
  | UNull => Done (inr (UNull, false))
  | UNode next i v =>
      cond ← EqExpr_create index i;
      match cond with
      | ConstantExpr CE =>
          if ConstantExpr_isTrue CE then Done (inl v) else ReadExpr_rollback index next
      | _ => Done (inr (un, true))
      end
  end.

Definition ReadExpr_create (ul : UpdateList) (index : Expr) : outcome Expr :=
  let root := ul_root ul in
  res ← ReadExpr_rollback index (ul_head ul);
  match res with
  | inl v => Done v
  | inr (un, updateListHasSymbolicWrites) =>
      match index with
      | ConstantExpr CE =>
          Assert getBitWidth CE <=? 64 ;;
          concreteIndex ← ConstantExpr_getZExtValue CE 64;
          if concreteIndex <? arr_size (array_at root) then
            match (if isConstantArray (array_at root) && negb updateListHasSymbolicWrites
                   then constantValues (array_at root) !! Z.to_nat concreteIndex else None) with
            | Some v => Done (ConstantExpr v)
            | None => Done (ReadExpr root un index)
            end
          else Done (ReadExpr root (ul_head ul) index)
      | _ => Done (ReadExpr root (ul_head ul) index)
      end
  end.

(** [UpdateList::extend] *)
Definition UpdateList_extend (ul : UpdateList) (index value : Expr) : outcome UpdateList :=
  Assert arr_domain (array_at (ul_root ul)) =? getWidth index ;;
  Assert arr_range (array_at (ul_root ul)) =? getWidth value ;;
  Done (MkUpdateList (ul_root ul) (UNode (ul_head ul) index value)).

(** [Expr::createTempRead] *)
Definition createTempRead (array : positive) (w : Z) : outcome Expr :=
  let rd i := ReadExpr_create (MkUpdateList array UNull)
                (ConstantExpr (ConstantExpr_alloc i Int32)) in
  if w =? Bool then e ← rd 0; ZExtExpr_create e Bool
  else if w =? Int8 then rd 0
  else if w =? Int16 then a ← rd 1; b ← rd 0; ConcatExpr_create a b
  else if w =? Int32 then
    a ← rd 3; b ← rd 2; c ← rd 1; d ← rd 0; ConcatExpr_create4 a b c d
  else if w =? Int64 then
    a ← rd 7; b ← rd 6; c ← rd 5; d ← rd 4; e ← rd 3; f ← rd 2; g ← rd 1; h ← rd 0;
    ConcatExpr_create8 a b c d e f g h
  else AssertFail.

(** ** Dispatch *)

(** [create] of the subclass with the given kind. *)
Definition BinaryExpr_create (k : BinaryKind) : Expr -> Expr -> outcome Expr :=
  match k with
  | Add => AddExpr_create | Sub => SubExpr_create | Mul => MulExpr_create
  | UDiv => UDivExpr_create | SDiv => SDivExpr_create
  | URem => URemExpr_create | SRem => SRemExpr_create
  | And => AndExpr_create | Or => OrExpr_create | Xor => XorExpr_create
  | Shl => ShlExpr_create | LShr => LShrExpr_create | AShr => AShrExpr_create
  | EqK => EqExpr_create | Ne => NeExpr_create
  | Ult => UltExpr_create | Ule => UleExpr_create
  | Ugt => UgtExpr_create | Uge => UgeExpr_create
  | Slt => SltExpr_create | Sle => SleExpr_create
  | Sgt => SgtExpr_create | Sge => SgeExpr_create
  end.

Definition CastExpr_create (k : CastKind) : Expr -> Z -> outcome Expr :=
  match k with ZExt => ZExtExpr_create | SExt => SExtExpr_create end.

(** [rebuild]: the same expression over new kids. *)
Definition rebuild (e : Expr) (ks : list Expr) : outcome Expr :=
  match e, ks with
  | NotOptimizedExpr _, [s] => NotOptimizedExpr_create s
  | ReadExpr r u _, [i] => ReadExpr_create (MkUpdateList r u) i
  | SelectExpr _ _ _, [c; t; f] => SelectExpr_create c t f
  | ConcatExpr _ _, [l; r] => ConcatExpr_create l r
  | ExtractExpr _ off w, [e'] => ExtractExpr_create e' off w
  | NotExpr _, [e'] => NotExpr_create e'
  | CastExpr k _ w, [s] => CastExpr_create k s w
  | BinaryExpr k _ _, [l; r] => BinaryExpr_create k l r
  | _, _ => AssertFail
  end.

End Create.
