(* ===== verification/CreateSound.v ===== *)
(** The constructors of Expr.cpp are sound: they return, never fail an
    assertion on well-typed operands, and the expression they return has the
    width and, in every environment, the value of the operator they build. *)
From stdpp Require Import base list numbers strings.
From Stdlib Require Import ZArith Lia.
From S2P Require Import Prelude APInt Bits Expr Semantics ConstantOps ExprCreate.
Local Open Scope Z_scope.

Section Builds.
Context {AP : APIntOps} {APL : APIntLaws} {AH : ArrayHeap} {OP : ExprOptions}.

(** ** What a constructor promises *)

(** [o] returns a well-formed [w]-bit expression of value [f ρ]. *)
Definition builds (o : outcome Expr) (w : Z) (f : env -> Z) : Prop :=
  exists e, o = Done e /\ wf e /\ getWidth e = w /\ forall ρ, eval ρ e = f ρ.

(** [o] returns [BinaryExpr k l r], up to the value. *)
Definition builds_binary (k : BinaryKind) (l r : Expr) (o : outcome Expr) : Prop :=
  builds o (if isCmpKind k then Bool else getWidth l)
    (fun ρ => eval_binary k (getWidth l) (eval ρ l) (eval ρ r)).

Lemma builds_Done e w f :
  wf e -> getWidth e = w -> (forall ρ, eval ρ e = f ρ) -> builds (Done e) w f.
Proof. intros. by exists e. Qed.

Lemma builds_bind m k w f w' f' :
  builds m w f ->
  (forall e, wf e -> getWidth e = w -> (forall ρ, eval ρ e = f ρ) -> builds (k e) w' f') ->
  builds (m ≫= k) w' f'.
Proof. intros (e & -> & ? & ? & ?) Hk. by apply Hk. Qed.

Lemma builds_ext o w f g : builds o w f -> (forall ρ, f ρ = g ρ) -> builds o w g.
Proof. intros (e & ? & ? & ? & He) Hfg. exists e. repeat split; auto. intros. by rewrite He. Qed.

Lemma builds_width o w w' f : builds o w f -> w = w' -> builds o w' f.
Proof. by intros ? <-. Qed.

Lemma builds_const a w v :
  const_is a w v -> builds (Done (ConstantExpr a)) w (fun _ => v).
Proof. intros (? & ? & ?). by apply builds_Done. Qed.

(** Constant 0 of a given width. *)
Lemma bind_create_0 {A} w (k : APInt -> outcome A) :
  0 < w -> (ConstantExpr_create 0 w ≫= k) = k (MkAPInt w 0).
Proof. intros. by rewrite ConstantExpr_create_0. Qed.

Lemma wf_const w v : 0 < w -> 0 <= v < 2 ^ w -> wf (ConstantExpr (MkAPInt w v)).
Proof. done. Qed.

Lemma wf_zero w : 0 < w -> wf (ConstantExpr (MkAPInt w 0)).
Proof. intros. apply wf_const; [done|]. pose proof (pow2_pos w). lia. Qed.

Lemma alloc_0 w : 0 < w -> ConstantExpr_alloc 0 w = MkAPInt w 0.
Proof. intros. pose proof (pow2_pos w). apply ConstantExpr_alloc_spec; lia. Qed.

Lemma alloc_1_Bool : ConstantExpr_alloc 1 Bool = MkAPInt 1 1.
Proof. apply ConstantExpr_alloc_spec; unfold Bool; lia. Qed.

(** Booleans have two values. *)
Lemma bool_value e ρ : wf e -> getWidth e = Bool -> eval ρ e = 0 \/ eval ρ e = 1.
Proof. intros He Hw. pose proof (eval_range e ρ He). rewrite Hw in *. unfold Bool in *. lia. Qed.

End Builds.

(** Reasoning by cases on the values of boolean operands. *)
Ltac bool_cases ρ :=
  repeat match goal with
    | Hw : getWidth ?e = Bool, He : wf ?e |- context [eval ρ ?e] =>
        destruct (bool_value e ρ He Hw) as [-> | ->]
    end; try done.

Section Sound.
Context {AP : APIntOps} {APL : APIntLaws} {AH : ArrayHeap} {OP : ExprOptions}.

Lemma builds_binary_alloc k l r :
  wf l -> wf r -> getWidth l = getWidth r -> builds_binary k l r (Done (BinaryExpr k l r)).
Proof. intros. by apply builds_Done. Qed.

(** Two constants fold, to a divisor other than zero. *)
Lemma builds_binary_fold k a b :
  (isDivKind k = true -> uval b <> 0) ->
  wf_apint a -> wf_apint b -> getBitWidth a = getBitWidth b ->
  builds_binary k (ConstantExpr a) (ConstantExpr b) (Done (ConstantExpr (ConstantExpr_op k a b))).
Proof. intros. unfold builds_binary. cbn. apply builds_const. by apply ConstantExpr_op_sound. Qed.

(** ** The macros *)

Lemma BCREATE_R_ok k pL pR cr l r :
  isDivKind k = false -> wf l -> wf r -> getWidth l = getWidth r ->
  (forall c, l = ConstantExpr c -> builds_binary k l r (pR c r)) ->
  (forall c, r = ConstantExpr c -> builds_binary k l r (pL l c)) ->
  builds_binary k l r (cr l r) ->
  builds_binary k l r (BCREATE_R (ConstantExpr_op k) pL pR cr l r).
Proof.
  intros Hk Hl Hr E HR HL Hc. unfold BCREATE_R. rewrite (proj2 (Z.eqb_eq _ _) E).
  destruct l; [|destruct r; auto..]. destruct r; auto.
  apply builds_binary_fold; auto. by rewrite Hk.
Qed.

Lemma BCREATE_ok k cr l r :
  isDivKind k = false -> wf l -> wf r -> getWidth l = getWidth r ->
  builds_binary k l r (cr l r) ->
  builds_binary k l r (BCREATE (ConstantExpr_op k) cr l r).
Proof.
  intros Hk Hl Hr E Hc. unfold BCREATE. rewrite (proj2 (Z.eqb_eq _ _) E).
  destruct l; auto. destruct r; auto.
  apply builds_binary_fold; auto. by rewrite Hk.
Qed.

(** ** And, Or *)

Lemma land_all_ones x w : 0 <= w -> 0 <= x < 2 ^ w -> Z.land x (2 ^ w - 1) = x.
Proof.
  intros. replace (2 ^ w - 1) with (Z.ones w) by (rewrite Z.ones_equiv; lia).
  rewrite Z.land_ones by done. by apply Z.mod_small.
Qed.

Lemma lor_all_ones x w : 0 < w -> 0 <= x < 2 ^ w -> Z.lor x (2 ^ w - 1) = 2 ^ w - 1.
Proof.
  intros. replace (2 ^ w - 1) with (Z.ones w) by (rewrite Z.ones_equiv; lia).
  apply Z.lor_ones_low; [lia|]. destruct (Z.eq_dec x 0) as [->|]; [|apply Z.log2_lt_pow2; lia].
  cbn. lia.
Qed.

Lemma AndExpr_createPartial_ok l c : wf l -> wf_apint c -> getWidth l = getBitWidth c ->
  builds_binary And l (ConstantExpr c) (AndExpr_createPartial l c).
Proof.
  intros Hl Hc E. unfold AndExpr_createPartial. rewrite isAllOnes_spec, isZero_spec.
  destruct (Z.eqb_spec (uval c) (2 ^ getBitWidth c - 1)) as [H1|H1].
  { apply builds_Done; [done..|]. intros ρ. cbn. rewrite H1, <- E.
    pose proof (wf_width l Hl). by rewrite land_all_ones by auto using eval_range with lia. }
  destruct (Z.eqb_spec (uval c) 0) as [H0|H0]; [|by apply builds_binary_alloc].
  apply builds_Done; [done..|]. intros ρ. cbn. by rewrite H0, Z.land_0_r.
Qed.

Lemma OrExpr_createPartial_ok l c : wf l -> wf_apint c -> getWidth l = getBitWidth c ->
  builds_binary Or l (ConstantExpr c) (OrExpr_createPartial l c).
Proof.
  intros Hl Hc E. unfold OrExpr_createPartial. rewrite isAllOnes_spec, isZero_spec.
  destruct (Z.eqb_spec (uval c) (2 ^ getBitWidth c - 1)) as [H1|H1].
  { apply builds_Done; [done..|]. intros ρ. cbn. rewrite H1, <- E.
    pose proof (wf_width l Hl). by rewrite lor_all_ones by auto using eval_range with lia. }
  destruct (Z.eqb_spec (uval c) 0) as [H0|H0]; [|by apply builds_binary_alloc].
  apply builds_Done; [done..|]. intros ρ. cbn. by rewrite H0, Z.lor_0_r.
Qed.

(** Swapping the operands of a commutative operator. *)
Lemma builds_binary_comm k l r o :
  (forall w x y, eval_binary k w x y = eval_binary k w y x) -> getWidth l = getWidth r ->
  builds_binary k r l o -> builds_binary k l r o.
Proof.
  intros Hc E H. unfold builds_binary in *. rewrite E. eapply builds_ext; [done|].
  intros ρ. cbn. apply Hc.
Qed.

Lemma AndExpr_create_ok l r : wf l -> wf r -> getWidth l = getWidth r ->
  builds_binary And l r (AndExpr_create l r).
Proof.
  intros Hl Hr E. apply (BCREATE_R_ok And); auto.
  - intros c ->. apply builds_binary_comm; [intros; apply Z.land_comm|done|].
    by apply AndExpr_createPartial_ok.
  - intros c ->. by apply AndExpr_createPartial_ok.
  - by apply builds_binary_alloc.
Qed.

Lemma OrExpr_create_ok l r : wf l -> wf r -> getWidth l = getWidth r ->
  builds_binary Or l r (OrExpr_create l r).
Proof.
  intros Hl Hr E. apply (BCREATE_R_ok Or); auto.
  - intros c ->. apply builds_binary_comm; [intros; apply Z.lor_comm|done|].
    by apply OrExpr_createPartial_ok.
  - intros c ->. by apply OrExpr_createPartial_ok.
  - by apply builds_binary_alloc.
Qed.

(** ** Eq *)

Lemma EqExpr_create__ok l r : wf l -> wf r -> getWidth l = getWidth r ->
  builds_binary EqK l r (EqExpr_create_ l r).
Proof.
  intros. unfold EqExpr_create_. destruct (expr_eqb_reflect l r) as [->|].
  - rewrite alloc_1_Bool. apply builds_Done; [by apply wf_const|done|].
    intros ρ. cbn. by rewrite Z.eqb_refl.
  - by apply builds_binary_alloc.
Qed.

(** A constant equals a sign extension iff it is the sign extension of its own
    truncation, and that truncation equals the source. *)
Lemma sext_eq from to c x : 0 < from <= to -> 0 <= c < 2 ^ to -> 0 <= x < 2 ^ from ->
  c = to_signed from x mod 2 ^ to <->
  c = to_signed from (c mod 2 ^ from) mod 2 ^ to /\ x = c mod 2 ^ from.
Proof.
  intros Hw Hc Hx. split; [|by intros [? ->]]. intros E.
  enough (x = c mod 2 ^ from) as <- by done.
  rewrite E, mod_mod_pow2, to_signed_mod by lia. symmetry. by apply Z.mod_small.
Qed.

Lemma zext_eq from to c x : 0 < from <= to -> 0 <= c < 2 ^ to -> 0 <= x < 2 ^ from ->
  c = x mod 2 ^ to <-> c = (c mod 2 ^ from) mod 2 ^ to /\ x = c mod 2 ^ from.
Proof.
  intros Hw Hc Hx. split; [|by intros [? ->]]. intros E.
  enough (x = c mod 2 ^ from) as <- by done.
  rewrite E, mod_mod_pow2 by lia. symmetry. by apply Z.mod_small.
Qed.

Lemma eq_add w a c x : 0 < w -> 0 <= c < 2 ^ w -> 0 <= x < 2 ^ w ->
  c = (a + x) mod 2 ^ w <-> (c - a) mod 2 ^ w = x.
Proof.
  intros Hw Hc Hx. pose proof (pow2_pos w). split.
  - intros ->. rewrite Zminus_mod_idemp_l. replace (a + x - a) with x by lia. by apply Z.mod_small.
  - intros <-. rewrite Zplus_mod_idemp_r. replace (a + (c - a)) with c by lia.
    symmetry. by apply Z.mod_small.
Qed.

Lemma eq_sub w a c x : 0 < w -> 0 <= c < 2 ^ w -> 0 <= x < 2 ^ w ->
  c = (a - x) mod 2 ^ w <-> (a - c) mod 2 ^ w = x.
Proof.
  intros Hw Hc Hx. pose proof (pow2_pos w). split.
  - intros ->. rewrite Zminus_mod_idemp_r. replace (a - (a - x)) with x by lia. by apply Z.mod_small.
  - intros <-. rewrite Zminus_mod_idemp_r. replace (a - (a - c)) with c by lia.
    symmetry. by apply Z.mod_small.
Qed.

Lemma b2z_eqb_iff a b c d : (a = b <-> c = d) -> Z.b2z (a =? b) = Z.b2z (c =? d).
Proof. intros. f_equal. destruct (Z.eqb_spec a b), (Z.eqb_spec c d); naive_solver. Qed.

Lemma const_eqb a b : expr_eqb (ConstantExpr a) (ConstantExpr b) = bool_decide (a = b).
Proof.
  destruct (expr_eqb_reflect (ConstantExpr a) (ConstantExpr b));
    case_bool_decide; congruence.
Qed.

Lemma APInt_eq_iff a b : getBitWidth a = getBitWidth b -> a = b <-> uval a = uval b.
Proof. destruct a, b; cbn. naive_solver. Qed.

(** What [EqExpr_createPartialR cl r] promises. *)
Definition eq_partial_ok (r : Expr) : Prop :=
  forall cl, wf r -> wf_apint cl -> getBitWidth cl = getWidth r ->
    builds (EqExpr_createPartialR cl r) Bool (fun ρ => Z.b2z (uval cl =? eval ρ r)).

Lemma EqExpr_create_const_ok e c : eq_partial_ok e ->
  wf e -> wf_apint c -> getWidth e = getBitWidth c ->
  builds (EqExpr_create_const EqExpr_createPartialR e c) Bool
    (fun ρ => Z.b2z (uval c =? eval ρ e)).
Proof.
  intros IH He Hc E. unfold EqExpr_create_const. rewrite (proj2 (Z.eqb_eq _ _) E).
  destruct e; try (by apply IH).
  eapply builds_ext; [apply (builds_binary_fold EqK value c); auto|].
  intros ρ. cbn. by rewrite Z.eqb_sym.
Qed.

Lemma createIsZero_with_ok e : eq_partial_ok e -> wf e ->
  builds (createIsZero_with EqExpr_createPartialR e) Bool (fun ρ => Z.b2z (eval ρ e =? 0)).
Proof.
  intros IH He. pose proof (wf_width e He). unfold createIsZero_with.
  rewrite bind_create_0 by done.
  eapply builds_ext; [apply EqExpr_create_const_ok; auto; by apply wf_zero|].
  intros ρ. cbn. by rewrite Z.eqb_sym.
Qed.

Lemma eq_create__partial cl r : wf r -> wf_apint cl -> getBitWidth cl = getWidth r ->
  builds (EqExpr_create_ (ConstantExpr cl) r) Bool (fun ρ => Z.b2z (uval cl =? eval ρ r)).
Proof. intros. by apply (EqExpr_create__ok (ConstantExpr cl)). Qed.

(** [0 == r] for a boolean [r]. *)
Lemma eq_partial_false_ok cl r : uval cl = 0 -> wf r -> wf_apint cl ->
  getBitWidth cl = Bool -> getWidth r = Bool ->
  match r with BinaryExpr Or a b => eq_partial_ok a /\ eq_partial_ok b | _ => True end ->
  builds (EqExpr_createPartialR cl r) Bool (fun ρ => Z.b2z (uval cl =? eval ρ r)).
Proof.
  intros H0 Hr Hc Hwc Hwr IH.
  pose proof (eq_create__partial cl r Hr Hc ltac:(congruence)) as Hd.
  assert (ConstantExpr_isTrue cl = false) as HT by (by rewrite isTrue_spec, H0).
  destruct r as [| | | | | | | |[] l r]; cbn [EqExpr_createPartialR]; rewrite Hwc, HT; cbn; auto.
  - destruct IH as [IHl IHr]. destruct Hr as (Hl & Hr & E). cbn in Hwr.
    eapply builds_bind; [by apply createIsZero_with_ok|]. intros a Ha Hwa Ea.
    eapply builds_bind; [by apply createIsZero_with_ok|]. intros b Hb Hwb Eb.
    pose proof (AndExpr_create_ok a b Ha Hb ltac:(congruence)) as HA.
    unfold builds_binary in HA. rewrite Hwa in HA. eapply builds_ext; [apply HA|].
    intros ρ. cbn. rewrite Ea, Eb, H0.
    pose proof (bool_value l ρ Hl Hwr). pose proof (bool_value r ρ Hr ltac:(congruence)).
    by destruct_or?; repeat match goal with H : eval ρ _ = _ |- _ => rewrite H; clear H end.
  - destruct l; auto. destruct (_ && _) eqn:HF; auto. apply andb_true_iff in HF as [HF1 HF2].
    apply Z.eqb_eq in HF1. destruct Hr as (Hl & Hr & E). cbn in E.
    rewrite isFalse_spec in HF2 by done. apply Z.eqb_eq in HF2.
    apply builds_Done; [done|congruence|]. intros ρ. cbn. rewrite H0, HF2.
    by destruct (bool_value r ρ Hr ltac:(congruence)) as [->| ->].
Qed.

(** [1 == r] for a boolean [r]. *)
Lemma eq_partial_true_ok cl r : uval cl <> 0 -> wf r -> wf_apint cl ->
  getBitWidth cl = Bool -> getWidth r = Bool ->
  builds (EqExpr_createPartialR cl r) Bool (fun ρ => Z.b2z (uval cl =? eval ρ r)).
Proof.
  intros H1 Hr [_ Hc] Hwc Hwr.
  assert (ConstantExpr_isTrue cl = true) as HT
    by (rewrite isTrue_spec by done; by apply Z.eqb_neq in H1 as ->).
  assert (EqExpr_createPartialR cl r = Done r) as ->
    by (destruct r; cbn [EqExpr_createPartialR]; by rewrite Hwc, HT).
  rewrite Hwc in Hc. apply builds_Done; [done..|]. intros ρ.
  assert (uval cl = 1) as -> by (unfold Bool in *; lia).
  by destruct (bool_value r ρ Hr Hwr) as [->| ->].
Qed.

(** [c == cast(src)] for a wider [c]. *)
Lemma eq_partial_cast_ok k src w cl : eq_partial_ok src ->
  wf (CastExpr k src w) -> wf_apint cl -> getBitWidth cl = w -> w <> Bool ->
  builds (EqExpr_createPartialR cl (CastExpr k src w)) Bool
    (fun ρ => Z.b2z (uval cl =? eval ρ (CastExpr k src w))).
Proof.
  intros IH [Hs Hle] Hc Hw Hb. pose proof (wf_width src Hs) as Hsw.
  destruct Hc as [_ Hc]. rewrite Hw in Hc. cbn [EqExpr_createPartialR].
  assert (forall u, const_is u w (eval_cast k (getWidth src) w (uval cl mod 2 ^ getWidth src)) ->
    builds (if expr_eqb (ConstantExpr cl) (ConstantExpr u)
            then EqExpr_create_const EqExpr_createPartialR src (ConstantExpr_ZExt cl (getWidth src))
            else z ← ConstantExpr_create 0 Bool; Done (ConstantExpr z)) Bool
      (fun ρ => Z.b2z (uval cl =? eval ρ (CastExpr k src w)))) as Hmain.
  { intros u (Hu1 & Hu2 & Hu3). rewrite const_eqb.
    destruct (ConstantExpr_ZExt_sound cl (getWidth src) Hsw) as (Ht1 & Ht2 & Ht3).
    assert (forall ρ, uval cl = eval ρ (CastExpr k src w) <->
              cl = u /\ uval cl mod 2 ^ getWidth src = eval ρ src) as Hiff.
    { intros ρ. pose proof (eval_range src ρ Hs).
      rewrite (APInt_eq_iff cl u) by congruence. rewrite Hu3. destruct k; cbn;
        [rewrite (zext_eq (getWidth src)) by lia | rewrite (sext_eq (getWidth src)) by lia];
        naive_solver. }
    case_bool_decide as Hcu.
    - eapply builds_ext; [by apply EqExpr_create_const_ok|]. intros ρ. cbv beta. rewrite Ht3.
      apply b2z_eqb_iff. rewrite Hiff. naive_solver.
    - rewrite bind_create_0 by done. apply builds_Done; [by apply wf_zero|done|].
      intros ρ. rewrite (proj2 (Z.eqb_neq _ _)); [done|]. rewrite Hiff. naive_solver. }
  rewrite Hw, (proj2 (Z.eqb_neq _ _) Hb).
  destruct (ConstantExpr_ZExt_sound cl (getWidth src) Hsw) as (Ht1 & Ht2 & Ht3).
  destruct k; apply Hmain; cbn; rewrite <- Ht3.
  - apply ConstantExpr_ZExt_sound. lia.
  - rewrite <- Ht2 at 2. apply ConstantExpr_SExt_sound. lia.
Qed.

(** [c == c1 + b] and [c == c1 - b]. *)
Lemma eq_partial_addsub_ok k c1 b cl : k = Add \/ k = Sub -> eq_partial_ok b ->
  wf (BinaryExpr k (ConstantExpr c1) b) -> wf_apint cl ->
  getBitWidth cl = getBitWidth c1 -> getBitWidth cl <> Bool ->
  builds (EqExpr_createPartialR cl (BinaryExpr k (ConstantExpr c1) b)) Bool
    (fun ρ => Z.b2z (uval cl =? eval ρ (BinaryExpr k (ConstantExpr c1) b))).
Proof.
  intros Hk IH (Hc1 & Hb & E) Hcl Hw Hnb. cbn in E, Hc1.
  apply Z.eqb_neq in Hnb. destruct Hk as [-> | ->]; cbn [EqExpr_createPartialR];
    rewrite Hnb, Hw, Z.eqb_refl.
  - destruct (ConstantExpr_op_sound Sub cl c1 Hcl Hc1 Hw ltac:(done)) as (Hs1 & Hs2 & Hs3).
    eapply builds_ext; [apply IH; [done|done|cbn in *; congruence]|].
    intros ρ. cbv beta. cbn in Hs3. rewrite Hs3. cbn. rewrite Hw in *. apply b2z_eqb_iff.
    destruct Hcl as [? Hcl]. rewrite eq_add; [done|lia|by rewrite <- Hw|].
    rewrite E. by apply eval_range.
  - destruct (ConstantExpr_op_sound Sub c1 cl Hc1 Hcl (eq_sym Hw) ltac:(done)) as (Hs1 & Hs2 & Hs3).
    eapply builds_ext; [apply IH; [done|done|cbn in *; congruence]|].
    intros ρ. cbv beta. cbn in Hs3. rewrite Hs3. cbn. apply b2z_eqb_iff.
    destruct Hcl as [? Hcl]. rewrite eq_sub; [done|lia|by rewrite <- Hw|].
    rewrite E. by apply eval_range.
Qed.

Lemma EqExpr_createPartialR_ok r : ConstArrayOpt = false -> eq_partial_ok r.
Proof.
  intros Hopt. revert r. apply (Expr_mut eq_partial_ok (fun _ => True)); try done.
  all: intros; intros cl Hr Hc E; pose proof (eq_create__partial cl _ Hr Hc E) as Hd;
    destruct (Z.eq_dec (getBitWidth cl) Bool) as [Hb|Hb];
    [destruct (Z.eq_dec (uval cl) 0);
     [apply eq_partial_false_ok; auto; try congruence; destruct k; auto
     |apply eq_partial_true_ok; auto; congruence]|].
  8: { apply eq_partial_cast_ok; auto; cbn in E; congruence. }
  all: apply Z.eqb_neq in Hb as Hb'; cbn [EqExpr_createPartialR]; rewrite Hb', ?Hopt; auto.
  destruct left as [c1| | | | | | | |]; try (by destruct k).
  destruct k; auto; [pose proof (eq_partial_addsub_ok Add c1 right cl) as HA
    |pose proof (eq_partial_addsub_ok Sub c1 right cl) as HA];
    cbn [EqExpr_createPartialR] in HA; rewrite Hb' in HA; apply HA; auto.
Qed.

Lemma EqExpr_create_ok l r : ConstArrayOpt = false ->
  wf l -> wf r -> getWidth l = getWidth r -> builds_binary EqK l r (EqExpr_create l r).
Proof.
  intros Hopt Hl Hr E. apply (BCREATE_R_ok EqK); auto.
  - intros c ->. by apply EqExpr_createPartialR_ok.
  - intros c ->. apply builds_binary_comm; [intros; cbn; by rewrite Z.eqb_sym|done|].
    by apply EqExpr_createPartialR_ok.
  - by apply EqExpr_create__ok.
Qed.

Context (default_opt : ConstArrayOpt = false).

Lemma createIsZero_ok e : wf e ->
  builds (createIsZero e) Bool (fun ρ => Z.b2z (eval ρ e =? 0)).
Proof.
  intros He. pose proof (wf_width e He). unfold createIsZero. rewrite bind_create_0 by done.
  apply (EqExpr_create_ok e (ConstantExpr (MkAPInt (getWidth e) 0))); auto. by apply wf_zero.
Qed.

Lemma NeExpr_create_ok l r : wf l -> wf r -> getWidth l = getWidth r ->
  builds_binary Ne l r (NeExpr_create l r).
Proof.
  intros Hl Hr E. unfold NeExpr_create. rewrite bind_create_0 by done.
  eapply builds_bind; [by apply EqExpr_create_ok|]. intros e He Hwe Ee. cbn in Hwe.
  eapply builds_ext; [apply (EqExpr_create_ok (ConstantExpr (MkAPInt Bool 0))); auto; by apply wf_zero|].
  intros ρ. cbn. rewrite Ee. cbn. by destruct (_ =? _).
Qed.

(** ** Xor *)

Lemma XorExpr_createPartialR_ok c r : wf_apint c -> wf r -> getBitWidth c = getWidth r ->
  builds_binary Xor (ConstantExpr c) r (XorExpr_createPartialR c r).
Proof.
  intros Hc Hr E. unfold XorExpr_createPartialR. rewrite isZero_spec.
  destruct (Z.eqb_spec (uval c) 0) as [H0|H0].
  { apply builds_Done; [done..|]. intros ρ. cbn. by rewrite H0. }
  destruct (Z.eqb_spec (getBitWidth c) Bool) as [Hb|Hb]; [|by apply builds_binary_alloc].
  rewrite bind_create_0 by done. unfold builds_binary. cbn. rewrite Hb in *.
  eapply builds_ext; [apply EqExpr_createPartialR_ok; auto; by apply wf_zero|].
  intros ρ. cbn. destruct Hc as [_ Hc]. rewrite Hb in Hc.
  assert (uval c = 1) as -> by (unfold Bool in *; lia). symmetry in E. bool_cases ρ.
Qed.

Lemma XorExpr_create_ok l r : wf l -> wf r -> getWidth l = getWidth r ->
  builds_binary Xor l r (XorExpr_create l r).
Proof.
  intros Hl Hr E. apply (BCREATE_R_ok Xor); auto.
  - intros c ->. by apply XorExpr_createPartialR_ok.
  - intros c ->. apply builds_binary_comm; [intros; apply Z.lxor_comm|done|].
    by apply XorExpr_createPartialR_ok.
  - by apply builds_binary_alloc.
Qed.

(** ** Add, Sub *)

(** At width 1 addition and subtraction are exclusive or. *)
Lemma bool_addsub_xor k x y : k = Add \/ k = Sub -> (x = 0 \/ x = 1) -> (y = 0 \/ y = 1) ->
  eval_binary k Bool x y = Z.lxor x y.
Proof. by intros [->| ->] [->| ->] [->| ->]. Qed.

Lemma builds_xor_addsub k l r o : k = Add \/ k = Sub ->
  wf l -> wf r -> getWidth l = Bool -> getWidth r = Bool ->
  builds_binary Xor l r o -> builds_binary k l r o.
Proof.
  intros Hk Hl Hr Hwl Hwr H. unfold builds_binary in *.
  replace (isCmpKind k) with false by (by destruct Hk as [->| ->]).
  eapply builds_ext; [apply H|]. intros ρ. cbn. rewrite Hwl. symmetry.
  apply bool_addsub_xor; auto using bool_value.
Qed.

(** The fuel a call needs: one constant operand is consumed on the other. *)
Definition addsub_need (l r : Expr) : nat :=
  match l, r with
  | ConstantExpr _, _ => expr_size r + 1
  | _, ConstantExpr _ => expr_size l + 1
  | _, _ => expr_size l + expr_size r + 1
  end%nat.

(** [o] builds [k l r] and adds at most one node. *)
Definition builds_small (k : BinaryKind) (l r : Expr) (o : outcome Expr) : Prop :=
  exists e, o = Done e /\ wf e /\ getWidth e = getWidth l /\
    (forall ρ, eval ρ e = eval_binary k (getWidth l) (eval ρ l) (eval ρ r)) /\
    (expr_size e <= expr_size l + expr_size r + 1)%nat.

(** What the recursive calls with fuel [n] promise. *)
Definition addsub_ok (n : nat) (k : BinaryKind) (f : Expr -> Expr -> outcome Expr) : Prop :=
  (forall l r, wf l -> wf r -> getWidth l = getWidth r -> getWidth l <> Bool ->
     (addsub_need l r <= n)%nat -> builds_small k l r (f l r)) /\
  (forall a b, getBitWidth a = getBitWidth b -> (1 <= n)%nat ->
     f (ConstantExpr a) (ConstantExpr b) = Done (ConstantExpr (ConstantExpr_op k a b))).

Lemma expr_size_pos e : (1 <= expr_size e)%nat.
Proof. destruct e; cbn; lia. Qed.

Lemma addsub_need_le l r : (addsub_need l r <= expr_size l + expr_size r + 1)%nat.
Proof. pose proof (expr_size_pos l). pose proof (expr_size_pos r). destruct l, r; cbn in *; lia. Qed.

Lemma addsub_need_const_l c e : addsub_need (ConstantExpr c) e = (expr_size e + 1)%nat.
Proof. done. Qed.

Lemma addsub_need_const_r e c : (addsub_need e (ConstantExpr c) <= expr_size e + 1)%nat.
Proof. pose proof (expr_size_pos e). destruct e; cbn in *; lia. Qed.

Lemma const_left_Some k e c a : const_left k e = Some (c, a) -> e = BinaryExpr k (ConstantExpr c) a.
Proof. destruct e as [| | | | | | | |k' [] ?]; cbn; try done. case_decide; naive_solver. Qed.

Lemma small_bind k l r o kont k' l' r' :
  builds_small k l r o ->
  (forall e, wf e -> getWidth e = getWidth l ->
     (forall ρ, eval ρ e = eval_binary k (getWidth l) (eval ρ l) (eval ρ r)) ->
     (expr_size e <= expr_size l + expr_size r + 1)%nat -> builds_small k' l' r' (kont e)) ->
  builds_small k' l' r' (o ≫= kont).
Proof. intros (e & -> & ? & ? & ? & ?) Hk. by apply Hk. Qed.

Lemma small_ext k l r k' l' r' o :
  builds_small k l r o -> getWidth l = getWidth l' ->
  (forall ρ, eval_binary k (getWidth l') (eval ρ l) (eval ρ r) =
             eval_binary k' (getWidth l') (eval ρ l') (eval ρ r')) ->
  (expr_size l + expr_size r <= expr_size l' + expr_size r')%nat ->
  builds_small k' l' r' o.
Proof.
  intros (e & ? & ? & ? & He & ?) Hw Hev Hs. exists e. repeat split; auto; [congruence| |lia].
  intros ρ. by rewrite He, Hw.
Qed.

Lemma small_Done k l r e : wf e -> getWidth e = getWidth l ->
  (forall ρ, eval ρ e = eval_binary k (getWidth l) (eval ρ l) (eval ρ r)) ->
  (expr_size e <= expr_size l + expr_size r + 1)%nat -> builds_small k l r (Done e).
Proof. intros. by exists e. Qed.

(** Sums and differences under several reductions modulo [2 ^ w]. *)
Ltac mod_linear :=
  rewrite ?Zplus_mod_idemp_l, ?Zplus_mod_idemp_r, ?Zminus_mod_idemp_l, ?Zminus_mod_idemp_r;
  f_equal; lia.

Section Step.
Context (n : nat) (add sub : Expr -> Expr -> outcome Expr).
Context (Hadd : addsub_ok n Add add) (Hsub : addsub_ok n Sub sub).

Ltac inv_const_left :=
  repeat match goal with H : const_left _ _ = Some _ |- _ => apply const_left_Some in H; subst end.

Lemma AddExpr_createPartialR_small cl r : wf_apint cl -> wf r ->
  getBitWidth cl = getWidth r -> getWidth r <> Bool -> (expr_size r <= n)%nat ->
  builds_small Add (ConstantExpr cl) r (AddExpr_createPartialR add sub cl r).
Proof.
  intros Hc Hr E Hb Hn. unfold AddExpr_createPartialR.
  rewrite (proj2 (Z.eqb_neq (getBitWidth cl) Bool)), isZero_spec by congruence.
  destruct (Z.eqb_spec (uval cl) 0) as [H0|H0].
  { apply small_Done; [done..| |lia]. intros ρ. cbn. rewrite H0, E, Z.add_0_l.
    symmetry. by apply Z.mod_small, eval_range. }
  destruct (const_left Add r) as [[k c]|] eqn:EA; [|destruct (const_left Sub r) as [[k c]|] eqn:ES].
  - inv_const_left. destruct Hr as (Hk & Hr & Ek). cbn in *.
    rewrite (proj2 Hadd) by lia || done. cbn.
    destruct (ConstantExpr_op_sound Add cl k Hc Hk E ltac:(done)) as (Hs1 & Hs2 & Hs3). cbn in *.
    eapply small_ext; [apply (proj1 Hadd); cbn; auto; try congruence; lia|cbn; congruence| |cbn; lia].
    intros ρ. cbn. rewrite Hs3, E. mod_linear.
  - inv_const_left. destruct Hr as (Hk & Hr & Ek). cbn in *.
    rewrite (proj2 Hadd) by lia || done. cbn.
    destruct (ConstantExpr_op_sound Add cl k Hc Hk E ltac:(done)) as (Hs1 & Hs2 & Hs3). cbn in *.
    eapply small_ext; [apply (proj1 Hsub); cbn; auto; try congruence; lia|cbn; congruence| |cbn; lia].
    intros ρ. cbn. rewrite Hs3, E. mod_linear.
  - apply small_Done; cbn; auto. lia.
Qed.

Lemma SubExpr_createPartialR_small cl r : wf_apint cl -> wf r ->
  getBitWidth cl = getWidth r -> getWidth r <> Bool -> (expr_size r <= n)%nat ->
  builds_small Sub (ConstantExpr cl) r (SubExpr_createPartialR add sub cl r).
Proof.
  intros Hc Hr E Hb Hn. unfold SubExpr_createPartialR.
  rewrite (proj2 (Z.eqb_neq (getBitWidth cl) Bool)) by congruence.
  destruct (const_left Add r) as [[k c]|] eqn:EA; [|destruct (const_left Sub r) as [[k c]|] eqn:ES].
  - inv_const_left. destruct Hr as (Hk & Hr & Ek). cbn in *.
    rewrite (proj2 Hsub) by lia || done. cbn.
    destruct (ConstantExpr_op_sound Sub cl k Hc Hk E ltac:(done)) as (Hs1 & Hs2 & Hs3). cbn in *.
    eapply small_ext; [apply (proj1 Hsub); cbn; auto; try congruence; lia|cbn; congruence| |cbn; lia].
    intros ρ. cbn. rewrite Hs3, E. mod_linear.
  - inv_const_left. destruct Hr as (Hk & Hr & Ek). cbn in *.
    rewrite (proj2 Hsub) by lia || done. cbn.
    destruct (ConstantExpr_op_sound Sub cl k Hc Hk E ltac:(done)) as (Hs1 & Hs2 & Hs3). cbn in *.
    eapply small_ext; [apply (proj1 Hadd); cbn; auto; try congruence; lia|cbn; congruence| |cbn; lia].
    intros ρ. cbn. rewrite Hs3, E. mod_linear.
  - apply small_Done; cbn; auto. lia.
Qed.

Lemma AddExpr_createPartial_small l cr : wf l -> wf_apint cr ->
  getWidth l = getBitWidth cr -> getWidth l <> Bool -> (expr_size l <= n)%nat ->
  builds_small Add l (ConstantExpr cr) (AddExpr_createPartial add sub l cr).
Proof.
  intros Hl Hc E Hb Hn.
  eapply small_ext; [apply AddExpr_createPartialR_small; auto|done| |cbn; lia].
  intros ρ. cbn. f_equal. lia.
Qed.

Lemma SubExpr_createPartial_small l cr : wf l -> wf_apint cr ->
  getWidth l = getBitWidth cr -> getWidth l <> Bool -> (expr_size l <= n)%nat ->
  builds_small Sub l (ConstantExpr cr) (SubExpr_createPartial add sub l cr).
Proof.
  intros Hl Hc E Hb Hn. unfold SubExpr_createPartial.
  assert (0 < getBitWidth cr) as Hpos by apply Hc. rewrite alloc_0 by done.
  destruct (ConstantExpr_op_sound Sub (MkAPInt (getBitWidth cr) 0) cr
    (wf_zero _ Hpos) Hc ltac:(done) ltac:(done)) as (Hs1 & Hs2 & Hs3). cbn in *.
  eapply small_ext; [apply AddExpr_createPartial_small; auto; congruence|done| |cbn; lia].
  intros ρ. cbn. rewrite Hs3, E. mod_linear.
Qed.

(** One step [s ← f x y; g ..] of the reassociations. *)
Ltac reassoc Hf := eapply small_bind; [apply (proj1 Hf); auto; try congruence|].
Ltac need :=
  rewrite ?addsub_need_const_l; cbn in *;
  first [lia | etrans; [apply addsub_need_const_r|lia] | etrans; [apply addsub_need_le|lia]].
Ltac finish Hf :=
  eapply small_ext; [apply (proj1 Hf); cbn; auto; try congruence; try need|cbn; congruence| |cbn; lia].

Lemma AddExpr_create__small l r : wf l -> wf r ->
  getWidth l = getWidth r -> getWidth l <> Bool -> (expr_size l + expr_size r <= n)%nat ->
  builds_small Add l r (AddExpr_create_ add sub l r).
Proof.
  intros Hl Hr E Hb Hn. unfold AddExpr_create_.
  rewrite (proj2 (Z.eqb_neq (getWidth l) Bool)) by done.
  destruct (const_left Add l) as [[k c]|] eqn:?; [|destruct (const_left Sub l) as [[k c]|] eqn:?;
    [|destruct (const_left Add r) as [[k c]|] eqn:?; [|destruct (const_left Sub r) as [[k c]|] eqn:?]]];
    inv_const_left.
  - destruct Hl as (Hk & Hl & Ek). cbn in *. reassoc Hadd; [need|].
    intros s Hs Hws Es Hz. finish Hadd. intros ρ. cbn. rewrite Es. cbn. rewrite <- !Ek. mod_linear.
  - destruct Hl as (Hk & Hl & Ek). cbn in *. reassoc Hsub; [need|].
    intros s Hs Hws Es Hz. finish Hadd. intros ρ. cbn. rewrite Es. cbn. rewrite <- !E. mod_linear.
  - destruct Hr as (Hk & Hr & Ek). cbn in *. reassoc Hadd; [need|].
    intros s Hs Hws Es Hz. finish Hadd. intros ρ. cbn. rewrite Es. cbn. rewrite <- ?E. mod_linear.
  - destruct Hr as (Hk & Hr & Ek). cbn in *. reassoc Hsub; [need|].
    intros s Hs Hws Es Hz. finish Hadd. intros ρ. cbn. rewrite Es. cbn. rewrite <- ?E. mod_linear.
  - apply small_Done; cbn; auto. lia.
Qed.

Lemma SubExpr_create__small l r : wf l -> wf r ->
  getWidth l = getWidth r -> getWidth l <> Bool -> (expr_size l + expr_size r <= n)%nat ->
  builds_small Sub l r (SubExpr_create_ add sub l r).
Proof.
  intros Hl Hr E Hb Hn. unfold SubExpr_create_.
  rewrite (proj2 (Z.eqb_neq (getWidth l) Bool)) by done.
  destruct (expr_eqb_reflect l r) as [<-|_].
  { pose proof (wf_width l Hl). rewrite alloc_0 by done.
    apply small_Done; cbn; [by apply wf_zero|done| |lia]. intros ρ. by rewrite Z.sub_diag. }
  destruct (const_left Add l) as [[k c]|] eqn:?; [|destruct (const_left Sub l) as [[k c]|] eqn:?;
    [|destruct (const_left Add r) as [[k c]|] eqn:?; [|destruct (const_left Sub r) as [[k c]|] eqn:?]]];
    inv_const_left.
  - destruct Hl as (Hk & Hl & Ek). cbn in *. reassoc Hsub; [need|].
    intros s Hs Hws Es Hz. finish Hadd. intros ρ. cbn. rewrite Es. cbn. rewrite <- !Ek. mod_linear.
  - destruct Hl as (Hk & Hl & Ek). cbn in *. reassoc Hadd; [need|].
    intros s Hs Hws Es Hz. finish Hsub. intros ρ. cbn. rewrite Es. cbn. rewrite <- !Ek. mod_linear.
  - destruct Hr as (Hk & Hr & Ek). cbn in *. reassoc Hsub; [need|].
    intros s Hs Hws Es Hz. finish Hsub. intros ρ. cbn. rewrite Es. cbn. rewrite <- ?E. mod_linear.
  - destruct Hr as (Hk & Hr & Ek). cbn in *. reassoc Hadd; [need|].
    intros s Hs Hws Es Hz. finish Hsub. intros ρ. cbn. rewrite Es. cbn. rewrite <- ?E. mod_linear.
  - apply small_Done; cbn; auto. lia.
Qed.

End Step.

Lemma addsub_fold_small k a b : k = Add \/ k = Sub -> wf_apint a -> wf_apint b ->
  getBitWidth a = getBitWidth b ->
  builds_small k (ConstantExpr a) (ConstantExpr b) (Done (ConstantExpr (ConstantExpr_op k a b))).
Proof.
  intros Hk Ha Hb E.
  destruct (ConstantExpr_op_sound k a b Ha Hb E) as (? & Hw & ?); [by destruct Hk as [->| ->]|].
  apply small_Done; cbn; auto. rewrite Hw. by destruct Hk as [->| ->].
Qed.

Lemma addsub_f_ok n : addsub_ok n Add (AddExpr_create_f n) /\ addsub_ok n Sub (SubExpr_create_f n).
Proof.
  induction n as [|n [IHa IHs]].
  { split; (split; [intros l r ? ? ? ? H; exfalso; destruct l, r; cbn in H; lia|lia]). }
  assert (forall l r, (addsub_need l r <= S n)%nat ->
    match l, r with
    | ConstantExpr _, _ => (expr_size r <= n)%nat
    | _, ConstantExpr _ => (expr_size l <= n)%nat
    | _, _ => (expr_size l + expr_size r <= n)%nat
    end) as Hneed by (intros [] []; cbn; lia).
  split; (split; [intros l r Hl Hr E Hb Hn; specialize (Hneed _ _ Hn)
                 |intros a b E _; cbn; unfold BCREATE_R; cbn; by rewrite E, Z.eqb_refl]);
    cbn [AddExpr_create_f SubExpr_create_f]; unfold BCREATE_R; rewrite (proj2 (Z.eqb_eq _ _) E).
  - destruct l; [destruct r|destruct r..];
      first [by apply (addsub_fold_small Add); auto
            |apply AddExpr_createPartialR_small with n; auto; congruence
            |apply AddExpr_createPartial_small with n; auto; congruence
            |apply AddExpr_create__small with n; auto].
  - destruct l; [destruct r|destruct r..];
      first [by apply (addsub_fold_small Sub); auto
            |apply SubExpr_createPartialR_small with n; auto; congruence
            |apply SubExpr_createPartial_small with n; auto; congruence
            |apply SubExpr_create__small with n; auto].
Qed.

Lemma small_builds k l r o : isCmpKind k = false -> builds_small k l r o -> builds_binary k l r o.
Proof. intros Hk (e & ? & ? & ? & ? & _). unfold builds_binary. rewrite Hk. by exists e. Qed.

(** At width 1 the calls go to the constructors of exclusive or. *)
Lemma addsub_bool_ok k pL pR cr l r : k = Add \/ k = Sub ->
  wf l -> wf r -> getWidth l = Bool -> getWidth r = Bool ->
  (forall c, l = ConstantExpr c -> builds_binary Xor l r (pR c r)) ->
  (forall c, r = ConstantExpr c -> builds_binary Xor l r (pL l c)) ->
  cr l r = XorExpr_create_ l r ->
  builds_binary k l r (BCREATE_R (ConstantExpr_op k) pL pR cr l r).
Proof.
  intros Hk Hl Hr Hwl Hwr HR HL Hc. apply BCREATE_R_ok; auto; try congruence.
  - by destruct Hk as [->| ->].
  - intros c Ec. apply builds_xor_addsub; auto.
  - intros c Ec. apply builds_xor_addsub; auto.
  - rewrite Hc. apply builds_xor_addsub; auto. apply builds_binary_alloc; congruence.
Qed.

Lemma Xor_partial_l l c : wf l -> wf_apint c -> getWidth l = getBitWidth c ->
  builds_binary Xor l (ConstantExpr c) (XorExpr_createPartialR c l).
Proof.
  intros. apply builds_binary_comm; [intros; apply Z.lxor_comm|done|].
  by apply XorExpr_createPartialR_ok.
Qed.

Lemma AddExpr_create_ok l r : wf l -> wf r -> getWidth l = getWidth r ->
  builds_binary Add l r (AddExpr_create l r).
Proof.
  intros Hl Hr E. unfold AddExpr_create. destruct (Z.eq_dec (getWidth l) Bool) as [Hb|Hb].
  - replace (AddSub_fuel l r) with (S (expr_size l + expr_size r))
      by (unfold AddSub_fuel; lia). cbn [AddExpr_create_f].
    apply (addsub_bool_ok Add); auto; [congruence| | |].
    + intros c ->. cbn in Hb. unfold AddExpr_createPartialR. rewrite Hb.
      by apply XorExpr_createPartialR_ok.
    + intros c ->. cbn in E. unfold AddExpr_createPartial, AddExpr_createPartialR.
      rewrite <- E, Hb. by apply Xor_partial_l.
    + unfold AddExpr_create_. by rewrite Hb.
  - apply small_builds; [done|]. apply (proj1 (addsub_f_ok _)); auto.
    etrans; [apply addsub_need_le|unfold AddSub_fuel; lia].
Qed.

(** Negating a bit leaves it: [l - c] is [l + c] at width 1. *)
Lemma SubExpr_createPartial_bool add sub l c : wf_apint c -> getBitWidth c = Bool ->
  SubExpr_createPartial add sub l c = XorExpr_createPartialR c l.
Proof.
  intros Hc Hb. unfold SubExpr_createPartial. rewrite alloc_0 by apply Hc.
  destruct (ConstantExpr_op_sound Sub (MkAPInt (getBitWidth c) 0) c
    (wf_zero _ (proj1 Hc)) Hc ltac:(done) ltac:(done)) as (Hs1 & Hs2 & Hs3). cbn in *.
  assert (ConstantExpr_Sub (MkAPInt (getBitWidth c) 0) c = c) as ->.
  { apply APInt_eq_iff; [done|]. rewrite Hs3. destruct Hc as [_ Hc]. rewrite Hb in *.
    assert (uval c = 0 \/ uval c = 1) as [->| ->] by (unfold Bool in *; lia); done. }
  unfold AddExpr_createPartial, AddExpr_createPartialR. by rewrite Hb.
Qed.

Lemma SubExpr_create_ok l r : wf l -> wf r -> getWidth l = getWidth r ->
  builds_binary Sub l r (SubExpr_create l r).
Proof.
  intros Hl Hr E. unfold SubExpr_create. destruct (Z.eq_dec (getWidth l) Bool) as [Hb|Hb].
  - replace (AddSub_fuel l r) with (S (expr_size l + expr_size r))
      by (unfold AddSub_fuel; lia). cbn [SubExpr_create_f].
    apply (addsub_bool_ok Sub); auto; [congruence| | |].
    + intros c ->. cbn in Hb. unfold SubExpr_createPartialR. rewrite Hb.
      by apply XorExpr_createPartialR_ok.
    + intros c ->. cbn in E. rewrite SubExpr_createPartial_bool by (auto; congruence).
      by apply Xor_partial_l.
    + unfold SubExpr_create_. by rewrite Hb.
  - apply small_builds; [done|]. apply (proj2 (addsub_f_ok _)); auto.
    etrans; [apply addsub_need_le|unfold AddSub_fuel; lia].
Qed.

End Sound.
