(* ===== verification/OpsSound.v ===== *)
(** Soundness of the remaining constructors of Expr.cpp: multiplication,
    division, shifts, comparisons, negation and selection, and the theorem on
    every [BinaryExpr]. *)
From stdpp Require Import base list numbers strings.
From Stdlib Require Import ZArith Lia.
From S2P Require Import Prelude APInt Bits Expr Semantics ConstantOps ExprCreate CreateSound.
Local Open Scope Z_scope.

Section Ops.
Context {AP : APIntOps} {APL : APIntLaws} {AH : ArrayHeap} {OP : ExprOptions}.
Context (default_opt : ConstArrayOpt = false).

(** ** Mul *)

(** At width 1 multiplication is conjunction. *)
Lemma bool_mul_and x y : (x = 0 \/ x = 1) -> (y = 0 \/ y = 1) ->
  eval_binary Mul Bool x y = Z.land x y.
Proof. by intros [->| ->] [->| ->]. Qed.

Lemma builds_and_mul l r o : wf l -> wf r -> getWidth l = Bool -> getWidth r = Bool ->
  builds_binary And l r o -> builds_binary Mul l r o.
Proof.
  intros Hl Hr Hwl Hwr H. unfold builds_binary in *.
  eapply builds_ext; [apply H|]. intros ρ. cbn. rewrite Hwl. symmetry.
  apply bool_mul_and; auto using bool_value.
Qed.

Lemma MulExpr_createPartialR_ok c r : wf_apint c -> wf r -> getBitWidth c = getWidth r ->
  builds_binary Mul (ConstantExpr c) r (MulExpr_createPartialR c r).
Proof.
  intros Hc Hr E. unfold MulExpr_createPartialR. rewrite isOne_spec, isZero_spec.
  destruct (Z.eqb_spec (getBitWidth c) Bool) as [Hb|Hb].
  { apply builds_and_mul; auto; [congruence|].
    apply builds_binary_comm; [intros; apply Z.land_comm|done|]. by apply AndExpr_createPartial_ok. }
  destruct (Z.eqb_spec (uval c) 1) as [H1|H1].
  { apply builds_Done; auto. intros ρ. cbn. rewrite H1, Z.mul_1_l, E. symmetry.
    by apply Z.mod_small, eval_range. }
  destruct (Z.eqb_spec (uval c) 0) as [H0|H0]; [|by apply builds_binary_alloc].
  apply builds_Done; auto. intros ρ. cbn. by rewrite H0.
Qed.

Lemma MulExpr_create_ok l r : wf l -> wf r -> getWidth l = getWidth r ->
  builds_binary Mul l r (MulExpr_create l r).
Proof.
  intros Hl Hr E. apply (BCREATE_R_ok Mul); auto.
  - intros c ->. by apply MulExpr_createPartialR_ok.
  - intros c ->. apply builds_binary_comm; [intros; cbn; f_equal; lia|done|].
    by apply MulExpr_createPartialR_ok.
  - unfold MulExpr_create_. destruct (Z.eqb_spec (getWidth l) Bool) as [Hb|].
    + apply builds_and_mul; auto; [congruence|]. by apply builds_binary_alloc.
    + by apply builds_binary_alloc.
Qed.

(** ** Shifts and comparisons *)

(** A boolean operation on two booleans, with the first one negated. *)
Lemma builds_not_and a b : wf a -> wf b -> getWidth a = Bool -> getWidth b = Bool ->
  builds (n ← createIsZero a; AndExpr_create n b) Bool
    (fun ρ => Z.land (Z.b2z (eval ρ a =? 0)) (eval ρ b)).
Proof.
  intros Ha Hb Hwa Hwb. eapply builds_bind; [by apply createIsZero_ok|]. intros e He Hwe Ee.
  pose proof (AndExpr_create_ok e b He Hb ltac:(congruence)) as H. unfold builds_binary in H.
  rewrite Hwe in H. eapply builds_ext; [apply H|]. intros ρ. cbn. by rewrite Ee.
Qed.

Lemma builds_not_or a b : wf a -> wf b -> getWidth a = Bool -> getWidth b = Bool ->
  builds (n ← createIsZero a; OrExpr_create n b) Bool
    (fun ρ => Z.lor (Z.b2z (eval ρ a =? 0)) (eval ρ b)).
Proof.
  intros Ha Hb Hwa Hwb. eapply builds_bind; [by apply createIsZero_ok|]. intros e He Hwe Ee.
  pose proof (OrExpr_create_ok e b He Hb ltac:(congruence)) as H. unfold builds_binary in H.
  rewrite Hwe in H. eapply builds_ext; [apply H|]. intros ρ. cbn. by rewrite Ee.
Qed.

Lemma builds_and_not a b : wf a -> wf b -> getWidth a = Bool -> getWidth b = Bool ->
  builds (n ← createIsZero b; AndExpr_create a n) Bool
    (fun ρ => Z.land (eval ρ a) (Z.b2z (eval ρ b =? 0))).
Proof.
  intros Ha Hb Hwa Hwb. eapply builds_bind; [by apply createIsZero_ok|]. intros e He Hwe Ee.
  pose proof (AndExpr_create_ok a e Ha He ltac:(congruence)) as H. unfold builds_binary in H.
  rewrite Hwa in H. eapply builds_ext; [apply H|]. intros ρ. cbn. by rewrite Ee.
Qed.

Lemma builds_or_not a b : wf a -> wf b -> getWidth a = Bool -> getWidth b = Bool ->
  builds (n ← createIsZero b; OrExpr_create a n) Bool
    (fun ρ => Z.lor (eval ρ a) (Z.b2z (eval ρ b =? 0))).
Proof.
  intros Ha Hb Hwa Hwb. eapply builds_bind; [by apply createIsZero_ok|]. intros e He Hwe Ee.
  pose proof (OrExpr_create_ok a e Ha He ltac:(congruence)) as H. unfold builds_binary in H.
  rewrite Hwa in H. eapply builds_ext; [apply H|]. intros ρ. cbn. by rewrite Ee.
Qed.

(** [k] is one of the constructors that is special only on booleans. *)
Lemma bool_special_ok k f l r :
  isDivKind k = false -> wf l -> wf r -> getWidth l = getWidth r ->
  (getWidth l = Bool -> builds (f l r) Bool (fun ρ => eval_binary k Bool (eval ρ l) (eval ρ r))) ->
  (getWidth l <> Bool -> f l r = Done (BinaryExpr k l r)) ->
  builds_binary k l r (BCREATE (ConstantExpr_op k) f l r).
Proof.
  intros Hk Hl Hr E Hbool Hwide. apply BCREATE_ok; auto.
  destruct (Z.eq_dec (getWidth l) Bool) as [Hb|Hb].
  - unfold builds_binary. rewrite Hb. replace (if isCmpKind k then Bool else Bool) with Bool
      by (by destruct (isCmpKind k)). by apply Hbool.
  - rewrite Hwide by done. by apply builds_binary_alloc.
Qed.

Tactic Notation "bool_special" constr(k) reference(def) uconstr(lem) :=
  intros Hl Hr E; apply (bool_special_ok k); auto; unfold def; intros Hb;
  [rewrite Hb; rewrite Hb in E; symmetry in E;
   eapply builds_ext; [by apply lem|]; intros ρ; bool_cases ρ
  |by rewrite (proj2 (Z.eqb_neq _ _) Hb)].

Lemma ShlExpr_create_ok l r : wf l -> wf r -> getWidth l = getWidth r ->
  builds_binary Shl l r (ShlExpr_create l r).
Proof. bool_special Shl ShlExpr_create_ builds_and_not. Qed.

Lemma LShrExpr_create_ok l r : wf l -> wf r -> getWidth l = getWidth r ->
  builds_binary LShr l r (LShrExpr_create l r).
Proof. bool_special LShr LShrExpr_create_ builds_and_not. Qed.

Lemma UltExpr_create_ok l r : wf l -> wf r -> getWidth l = getWidth r ->
  builds_binary Ult l r (UltExpr_create l r).
Proof. bool_special Ult UltExpr_create_ builds_not_and. Qed.

Lemma UleExpr_create_ok l r : wf l -> wf r -> getWidth l = getWidth r ->
  builds_binary Ule l r (UleExpr_create l r).
Proof. bool_special Ule UleExpr_create_ builds_not_or. Qed.

Lemma SltExpr_create_ok l r : wf l -> wf r -> getWidth l = getWidth r ->
  builds_binary Slt l r (SltExpr_create l r).
Proof. bool_special Slt SltExpr_create_ builds_and_not. Qed.

Lemma SleExpr_create_ok l r : wf l -> wf r -> getWidth l = getWidth r ->
  builds_binary Sle l r (SleExpr_create l r).
Proof. bool_special Sle SleExpr_create_ builds_or_not. Qed.

Lemma AShrExpr_create_ok l r : wf l -> wf r -> getWidth l = getWidth r ->
  builds_binary AShr l r (AShrExpr_create l r).
Proof.
  intros Hl Hr E. apply (bool_special_ok AShr); auto; unfold AShrExpr_create_; intros Hb.
  - rewrite Hb. apply builds_Done; auto. intros ρ.
    assert (getWidth r = Bool) by congruence. bool_cases ρ.
  - by rewrite (proj2 (Z.eqb_neq _ _) Hb).
Qed.

(** ** Division *)

(** A division by the constant zero, which LLVM's integers do not define. *)
Definition div_by_zero (k : BinaryKind) (r : Expr) : bool :=
  isDivKind k && match r with ConstantExpr c => uval c =? 0 | _ => false end.

Lemma div_create_ok k f l r : isCmpKind k = false ->
  wf l -> wf r -> getWidth l = getWidth r -> div_by_zero k r = false ->
  (getWidth l = Bool -> builds_binary k l r (f l r)) ->
  (getWidth l <> Bool -> f l r = Done (BinaryExpr k l r)) ->
  builds_binary k l r (BCREATE (ConstantExpr_op k) f l r).
Proof.
  intros Hk Hl Hr E Hd Hbool Hwide. unfold BCREATE. rewrite (proj2 (Z.eqb_eq _ _) E).
  assert (builds_binary k l r (f l r)) as Hf.
  { destruct (Z.eq_dec (getWidth l) Bool) as [Hb|Hb]; [by apply Hbool|].
    rewrite Hwide by done. by apply builds_binary_alloc. }
  destruct l; auto. destruct r; auto. apply builds_binary_fold; auto.
  intros Hdk. unfold div_by_zero in Hd. rewrite Hdk in Hd. by apply Z.eqb_neq in Hd.
Qed.

Ltac div_bool :=
  intros Hl Hr E Hd; apply div_create_ok; auto; intros Hb;
  [rewrite Hb, ?bind_create_0 by done; rewrite Hb in E; symmetry in E;
   apply builds_Done;
   [first [done | by apply wf_zero] | by rewrite ?Hb | cbn; rewrite ?Hb; intros ρ; bool_cases ρ]
  |by rewrite (proj2 (Z.eqb_neq _ _) Hb)].

Lemma UDivExpr_create_ok l r : wf l -> wf r -> getWidth l = getWidth r ->
  div_by_zero UDiv r = false -> builds_binary UDiv l r (UDivExpr_create l r).
Proof. unfold UDivExpr_create, UDivExpr_create_. div_bool. Qed.

Lemma SDivExpr_create_ok l r : wf l -> wf r -> getWidth l = getWidth r ->
  div_by_zero SDiv r = false -> builds_binary SDiv l r (SDivExpr_create l r).
Proof. unfold SDivExpr_create, SDivExpr_create_. div_bool. Qed.

Lemma URemExpr_create_ok l r : wf l -> wf r -> getWidth l = getWidth r ->
  div_by_zero URem r = false -> builds_binary URem l r (URemExpr_create l r).
Proof. unfold URemExpr_create, URemExpr_create_. div_bool. Qed.

Lemma SRemExpr_create_ok l r : wf l -> wf r -> getWidth l = getWidth r ->
  div_by_zero SRem r = false -> builds_binary SRem l r (SRemExpr_create l r).
Proof. unfold SRemExpr_create, SRemExpr_create_. div_bool. Qed.

(** ** Every binary kind *)

(** The mirrored comparisons. *)
Lemma builds_binary_swap k k' l r o :
  isCmpKind k = isCmpKind k' -> (forall w x y, eval_binary k w x y = eval_binary k' w y x) ->
  getWidth l = getWidth r -> builds_binary k' r l o -> builds_binary k l r o.
Proof.
  intros Hk He E H. unfold builds_binary in *. rewrite Hk, E. eapply builds_ext; [apply H|].
  intros ρ. cbn. by rewrite He.
Qed.

Lemma BinaryExpr_create_ok k l r : wf l -> wf r -> getWidth l = getWidth r ->
  div_by_zero k r = false -> builds_binary k l r (BinaryExpr_create k l r).
Proof.
  intros Hl Hr E Hd.
  destruct k; cbn [BinaryExpr_create];
    auto using UDivExpr_create_ok, SDivExpr_create_ok, URemExpr_create_ok, SRemExpr_create_ok,
      AddExpr_create_ok, SubExpr_create_ok, MulExpr_create_ok, AndExpr_create_ok,
      OrExpr_create_ok, XorExpr_create_ok, ShlExpr_create_ok, LShrExpr_create_ok,
      AShrExpr_create_ok, EqExpr_create_ok, NeExpr_create_ok, UltExpr_create_ok,
      UleExpr_create_ok, SltExpr_create_ok, SleExpr_create_ok.
  - apply (builds_binary_swap Ugt Ult); auto. by apply UltExpr_create_ok.
  - apply (builds_binary_swap Uge Ule); auto. by apply UleExpr_create_ok.
  - apply (builds_binary_swap Sgt Slt); auto. by apply SltExpr_create_ok.
  - apply (builds_binary_swap Sge Sle); auto. by apply SleExpr_create_ok.
Qed.

(** ** Not, Select, Implies *)

Lemma NotExpr_create_ok e : wf e ->
  builds (NotExpr_create e) (getWidth e) (fun ρ => Z.lnot (eval ρ e) mod 2 ^ getWidth e).
Proof.
  intros He. destruct e; try (by apply builds_Done). cbn. apply (builds_const (ConstantExpr_Not value)).
  by apply ConstantExpr_Not_sound.
Qed.

Lemma createImplies_ok hyp conc : wf hyp -> wf conc -> getWidth hyp = Bool -> getWidth conc = Bool ->
  builds (createImplies hyp conc) Bool
    (fun ρ => if eval ρ hyp =? 0 then 1 else eval ρ conc).
Proof.
  intros. eapply builds_ext; [by apply builds_not_or|]. intros ρ. bool_cases ρ.
Qed.

Lemma builds_bool_binary k l r : isDivKind k = false -> isCmpKind k = false ->
  wf l -> wf r -> getWidth l = Bool -> getWidth r = Bool ->
  builds (BinaryExpr_create k l r) Bool (fun ρ => eval_binary k Bool (eval ρ l) (eval ρ r)).
Proof.
  intros Hk Hc Hl Hr Hwl Hwr. pose proof (BinaryExpr_create_ok k l r) as H.
  unfold builds_binary, div_by_zero in H. rewrite Hc, Hwl, Hk in H. by apply H.
Qed.

Lemma SelectExpr_create_ok c t f : wf c -> wf t -> wf f ->
  getWidth c = Bool -> getWidth t = getWidth f ->
  builds (SelectExpr_create c t f) (getWidth t) (fun ρ => eval ρ (SelectExpr c t f)).
Proof.
  intros Hc Ht Hf Hwc E. unfold SelectExpr_create. rewrite Hwc, Z.eqb_refl, E, Z.eqb_refl.
  destruct c as [v| | | | | | | |] eqn:Ec.
  { cbn in Hwc. rewrite isTrue_spec by done. cbn.
    destruct (uval v =? 0); cbn; by apply builds_Done. }
  all: rewrite <- Ec in *; clear Ec.
  all: destruct (expr_eqb_reflect t f) as [<-|_];
    [apply builds_Done; auto; intros ρ; cbn; by case_match|].
  all: destruct (Z.eqb_spec (getWidth f) Bool) as [Hb|]; [|by apply builds_Done].
  all: rewrite Hb in *.
  all: assert (builds (Done (SelectExpr c t f)) Bool (fun ρ => eval ρ (SelectExpr c t f)))
    by (apply builds_Done; cbn; auto; repeat split; auto; congruence).
  all: destruct t as [v| | | | | | | |] eqn:Et; rewrite <- ?Et in *.
  all: try (rewrite isTrue_spec by (subst; done); subst t; cbn in E; cbn [eval];
    destruct Ht as [_ Ht]; rewrite E in Ht;
    destruct (Z.eqb_spec (uval v) 0) as [Hv|Hv]; cbn;
    [eapply builds_ext; [by apply builds_not_and|]; intros ρ; cbn; rewrite Hv; bool_cases ρ
    |eapply builds_ext; [by apply (builds_bool_binary Or)|]; intros ρ; cbn;
     replace (uval v) with 1 by (unfold Bool in *; lia); bool_cases ρ]).
  all: clear Et; destruct f as [v| | | | | | | |] eqn:Ef; auto; rewrite <- ?Ef in *.
  all: cbn in Hb; rewrite isTrue_spec by (subst; done); subst f; cbn [eval];
    destruct Hf as [_ Hf]; cbn in Hb; rewrite Hb in Hf;
    destruct (Z.eqb_spec (uval v) 0) as [Hv|Hv]; cbn;
    [eapply builds_ext; [by apply (builds_bool_binary And)|]; intros ρ; cbn; rewrite Hv; bool_cases ρ
    |eapply builds_ext; [by apply builds_not_or|]; intros ρ; cbn;
     replace (uval v) with 1 by (unfold Bool in *; lia); bool_cases ρ].
Qed.

End Ops.
