(* ===== verification/SliceSound.v ===== *)
(** Soundness of concatenation, extraction and the extensions.

    [ConcatExpr::create] merges adjacent extractions of one expression and
    [ExtractExpr::create] reaches through concatenations; each calls the other
    on expressions it has just built. *)
From stdpp Require Import base list numbers strings.
From Stdlib Require Import ZArith Lia.
From S2P Require Import Prelude APInt Bits Expr Semantics ConstantOps ExprCreate CreateSound.
Local Open Scope Z_scope.

(** ** Slices of numbers *)

Lemma pow2_split a b c : 0 <= a -> 0 <= b -> c = a + b -> 2 ^ c = 2 ^ a * 2 ^ b.
Proof. intros ? ? ->. by rewrite Z.pow_add_r. Qed.

(** The bits of [x] from [n] on, cut in two. *)
Lemma slice_split x n a b : 0 <= n -> 0 <= a -> 0 <= b ->
  (x / 2 ^ n) mod 2 ^ (a + b) =
  ((x / 2 ^ (n + b)) mod 2 ^ a) * 2 ^ b + (x / 2 ^ n) mod 2 ^ b.
Proof.
  intros. pose proof (pow2_pos b). pose proof (pow2_pos a). pose proof (pow2_pos n).
  rewrite (pow2_split b a (a + b)), (pow2_split n b (n + b)) by lia.
  rewrite Z.rem_mul_r, Z.div_div by lia. lia.
Qed.

(** A slice of a concatenation that lies in the upper part. *)
Lemma slice_high x y rw off w : 0 <= rw <= off -> 0 <= y < 2 ^ rw ->
  ((x * 2 ^ rw + y) / 2 ^ off) mod 2 ^ w = (x / 2 ^ (off - rw)) mod 2 ^ w.
Proof.
  intros ? Hy. pose proof (pow2_pos rw). pose proof (pow2_pos (off - rw)).
  rewrite (pow2_split rw (off - rw) off), <- Z.div_div by lia.
  rewrite Z.div_add_l, (Z.div_small y), Z.add_0_r by lia. done.
Qed.

(** A slice that lies in the lower part. *)
Lemma slice_low x y rw off w : 0 <= off -> 0 <= w -> off + w <= rw ->
  ((x * 2 ^ rw + y) / 2 ^ off) mod 2 ^ w = (y / 2 ^ off) mod 2 ^ w.
Proof.
  intros. pose proof (pow2_pos off). pose proof (pow2_pos w).
  rewrite (pow2_split (rw - off) off rw), Z.mul_assoc by lia.
  rewrite Z.div_add_l, (pow2_split (rw - off - w) w (rw - off)), Z.mul_assoc by lia.
  by rewrite Z.add_comm, Z_mod_plus_full.
Qed.

(** A slice that straddles the boundary. *)
Lemma slice_straddle x y rw off w : 0 <= off < rw -> rw < off + w -> 0 <= y < 2 ^ rw ->
  ((x * 2 ^ rw + y) / 2 ^ off) mod 2 ^ w =
  ((x / 2 ^ 0) mod 2 ^ (w - rw + off)) * 2 ^ (rw - off) + (y / 2 ^ off) mod 2 ^ (rw - off).
Proof.
  intros. replace w with ((w - rw + off) + (rw - off)) at 1 by lia.
  rewrite slice_split by lia. replace (off + (rw - off)) with rw by lia.
  f_equal; [f_equal|].
  - rewrite slice_high by lia. by rewrite Z.sub_diag.
  - apply slice_low; lia.
Qed.

Section Slices.
Context {AP : APIntOps} {APL : APIntLaws} {AH : ArrayHeap} {OP : ExprOptions}.

(** [o] builds the slice [off, off+w) of [e]; an extraction it returns is of an
    expression no larger than [e]. *)
Definition builds_slice (e : Expr) (off w : Z) (o : outcome Expr) : Prop :=
  exists e', o = Done e' /\ wf e' /\ getWidth e' = w /\
    (forall ρ, eval ρ e' = (eval ρ e / 2 ^ off) mod 2 ^ w) /\
    (forall x xo xw, e' = ExtractExpr x xo xw -> (expr_size x <= expr_size e)%nat).

Definition extract_ok (n : nat) (f : Expr -> Z -> Z -> outcome Expr) : Prop :=
  forall e off w, wf e -> 0 <= off -> 0 < w -> off + w <= getWidth e ->
    (2 * expr_size e <= n)%nat -> builds_slice e off w (f e off w).

(** [o] builds the concatenation; an extraction it returns merges two. *)
Definition builds_concat (l r : Expr) (o : outcome Expr) : Prop :=
  exists e', o = Done e' /\ wf e' /\ getWidth e' = getWidth l + getWidth r /\
    (forall ρ, eval ρ e' = eval ρ l * 2 ^ getWidth r + eval ρ r) /\
    (forall x xo xw, e' = ExtractExpr x xo xw ->
       exists le lo lw, l = ExtractExpr le lo lw /\ (expr_size x <= expr_size le)%nat).

Definition concat_ok (n : nat) (f : Expr -> Expr -> outcome Expr) : Prop :=
  forall l r, wf l -> wf r -> (1 <= n)%nat ->
    (forall le lo lw, l = ExtractExpr le lo lw -> (2 * expr_size le + 1 <= n)%nat) ->
    builds_concat l r (f l r).

Lemma builds_slice_Done e off w e' : wf e' -> getWidth e' = w ->
  (forall ρ, eval ρ e' = (eval ρ e / 2 ^ off) mod 2 ^ w) ->
  (forall x xo xw, e' = ExtractExpr x xo xw -> (expr_size x <= expr_size e)%nat) ->
  builds_slice e off w (Done e').
Proof. intros. by exists e'. Qed.

Lemma builds_slice_weaken e off w e0 off0 o : (expr_size e0 <= expr_size e)%nat ->
  (forall ρ, (eval ρ e0 / 2 ^ off0) mod 2 ^ w = (eval ρ e / 2 ^ off) mod 2 ^ w) ->
  builds_slice e0 off0 w o -> builds_slice e off w o.
Proof.
  intros Hs Hv (e' & ? & ? & ? & Hev & Hx). exists e'. repeat split; auto.
  - intros ρ. by rewrite Hev.
  - intros x xo xw Ex. specialize (Hx x xo xw Ex). lia.
Qed.

Lemma builds_concat_alloc l r : wf l -> wf r -> builds_concat l r (Done (ConcatExpr l r)).
Proof. intros. by exists (ConcatExpr l r). Qed.

(** The defining equations. *)
Lemma ConcatExpr_create_S n l r : ConcatExpr_create_f (S n) l r =
  match l, r with
  | ConstantExpr lCE, ConstantExpr rCE => Done (ConstantExpr (ConstantExpr_Concat lCE rCE))
  | ExtractExpr le lo lw, ExtractExpr re ro rw =>
      if expr_eqb le re && (ro + rw =? lo)
      then ExtractExpr_create_f n le ro (getWidth l + getWidth r) else Done (ConcatExpr l r)
  | _, _ => Done (ConcatExpr l r)
  end.
Proof. done. Qed.

Lemma ExtractExpr_create_S n e off w : ExtractExpr_create_f (S n) e off w =
  Assert (0 <? w) && (off + w <=? getWidth e) ;;
  if w =? getWidth e then Done e
  else
    match e with
    | ConstantExpr CE => Done (ConstantExpr (ConstantExpr_Extract CE off w))
    | ConcatExpr kid0 kid1 =>
        let rw := getWidth kid1 in
        if rw <=? off then ExtractExpr_create_f n kid0 (off - rw) w
        else if off + w <=? rw then ExtractExpr_create_f n kid1 off w
        else
          a ← ExtractExpr_create_f n kid0 0 (w - rw + off);
          b ← ExtractExpr_create_f n kid1 off (rw - off);
          ConcatExpr_create_f n a b
    | _ => Done (ExtractExpr e off w)
    end.
Proof. done. Qed.

Lemma ConcatExpr_create_step n : extract_ok n (ExtractExpr_create_f n) ->
  concat_ok (S n) (ConcatExpr_create_f (S n)).
Proof.
  intros IH l r Hl Hr _ Hn. rewrite ConcatExpr_create_S.
  pose proof (builds_concat_alloc l r Hl Hr) as Hd.
  destruct l as [a| | | | |le lo lw| | |]; auto; destruct r as [b| | | | |re ro rw| | |]; auto.
  - destruct (ConstantExpr_Concat_sound a b Hl Hr) as (Hw & Ew & Ev).
    by exists (ConstantExpr (ConstantExpr_Concat a b)).
  - destruct (expr_eqb_reflect le re) as [<-|]; cbn; auto.
    destruct (Z.eqb_spec (ro + rw) lo) as [<-|]; auto.
    specialize (Hn _ _ _ eq_refl). cbn [wf] in Hl, Hr. destruct_and?.
    cbn [getWidth]. destruct (IH le ro (lw + rw)) as (e' & -> & ? & Hw & Hev & Hx); auto; [lia..|].
    exists e'. repeat split; auto.
    + intros ρ. rewrite Hev. cbn. by apply slice_split; lia.
    + intros x xo xw Ex. exists le, (ro + rw), lw. eauto.
Qed.

Lemma ExtractExpr_create_step n :
  extract_ok n (ExtractExpr_create_f n) -> concat_ok n (ConcatExpr_create_f n) ->
  extract_ok (S n) (ExtractExpr_create_f (S n)).
Proof.
  intros IHe IHc e off w He Ho Hw Hle Hn. rewrite ExtractExpr_create_S.
  rewrite (proj2 (Z.ltb_lt 0 w) Hw), (proj2 (Z.leb_le _ _) Hle). cbn [andb].
  pose proof (eval_range e) as Hrange.
  destruct (Z.eqb_spec w (getWidth e)) as [Hall|Hall].
  { assert (off = 0) as -> by lia. apply builds_slice_Done; auto.
    - intros ρ. rewrite Z.div_1_r, Hall. symmetry. by apply Z.mod_small, Hrange.
    - intros x xo xw ->. cbn. lia. }
  assert (builds_slice e off w (Done (ExtractExpr e off w))) as Hd.
  { apply builds_slice_Done; cbn; auto. intros x xo xw Ex. simplify_eq. lia. }
  destruct e as [a| | | |l r| | | |]; auto.
  { destruct (ConstantExpr_Extract_sound a off w) as (? & ? & ?); auto.
    by apply builds_slice_Done. }
  clear Hd. destruct He as [Hl Hr]. cbn in Hle, Hn, Hall.
  pose proof (wf_width r Hr). pose proof (fun ρ => eval_range r ρ Hr) as Hrr.
  destruct (Z.leb_spec (getWidth r) off).
  { apply (builds_slice_weaken _ _ _ l (off - getWidth r)); [cbn; lia| |apply IHe; auto; lia].
    intros ρ. cbn. by rewrite slice_high by (auto; lia). }
  destruct (Z.leb_spec (off + w) (getWidth r)).
  { apply (builds_slice_weaken _ _ _ r off); [cbn; lia| |apply IHe; auto; lia].
    intros ρ. cbn. by rewrite slice_low by lia. }
  destruct (IHe l 0 (w - getWidth r + off)) as (a & -> & Ha & Hwa & Eva & Hxa); auto; [lia..|].
  destruct (IHe r off (getWidth r - off)) as (b & -> & Hb & Hwb & Evb & Hxb); auto; [lia..|].
  cbn [mbind outcome_bind].
  destruct (IHc a b Ha Hb) as (e' & -> & He' & Hwe & Eve & Hxe); [lia| |].
  { intros le lo lw Ea. specialize (Hxa _ _ _ Ea). lia. }
  apply builds_slice_Done; auto; [lia| |].
  - intros ρ. rewrite Eve, Eva, Evb, Hwb. cbn. by rewrite <- slice_straddle by (auto; lia).
  - intros x xo xw Ex. destruct (Hxe _ _ _ Ex) as (le & lo & lw & Ea & Hs).
    specialize (Hxa _ _ _ Ea). cbn. lia.
Qed.

Lemma slices_ok n :
  extract_ok n (ExtractExpr_create_f n) /\ concat_ok n (ConcatExpr_create_f n).
Proof.
  induction n as [|n [IHe IHc]].
  - split; [intros e ? ? ? ? ? ? H; pose proof (expr_size_pos e); lia|intros l r; lia].
  - auto using ExtractExpr_create_step, ConcatExpr_create_step.
Qed.

Lemma ExtractExpr_create_ok e off w : wf e -> 0 <= off -> 0 < w -> off + w <= getWidth e ->
  builds (ExtractExpr_create e off w) w (fun ρ => (eval ρ e / 2 ^ off) mod 2 ^ w).
Proof.
  intros. destruct (proj1 (slices_ok (2 * expr_size e + 1)) e off w)
    as (e' & ? & ? & ? & ? & _); auto; [lia|]. by exists e'.
Qed.

Lemma ConcatExpr_create_ok l r : wf l -> wf r ->
  builds (ConcatExpr_create l r) (getWidth l + getWidth r)
    (fun ρ => eval ρ l * 2 ^ getWidth r + eval ρ r).
Proof.
  intros. destruct (proj2 (slices_ok (2 * (expr_size l + expr_size r) + 2)) l r)
    as (e' & ? & ? & ? & ? & _); auto; [lia| |by exists e'].
  intros le lo lw ->. cbn. lia.
Qed.

(** ** Chains *)

Definition concat_width (es : list Expr) : Z := foldr (fun e w => getWidth e + w) 0 es.

Fixpoint concat_value (ρ : env) (es : list Expr) : Z :=
  match es with
  | [] => 0
  | e :: es' => eval ρ e * 2 ^ concat_width es' + concat_value ρ es'
  end.

Lemma ConcatExpr_createN_ok es : es <> [] -> Forall wf es ->
  builds (ConcatExpr_createN es) (concat_width es) (fun ρ => concat_value ρ es).
Proof.
  intros Hne Hes. induction Hes as [|e es He Hes IH]; [done|].
  destruct es as [|e' es].
  { apply builds_Done; cbn; auto; [lia|]. intros ρ. rewrite Z.pow_0_r. lia. }
  cbn [ConcatExpr_createN]. eapply builds_bind; [by apply IH|]. intros r Hr Hwr Er.
  pose proof (ConcatExpr_create_ok e r He Hr) as H. rewrite Hwr in H.
  eapply builds_ext; [apply H|]. intros ρ. cbn beta. by rewrite Er.
Qed.

Lemma ConcatExpr_create4_N a b c d :
  ConcatExpr_create4 a b c d = ConcatExpr_createN [a; b; c; d].
Proof. cbn [ConcatExpr_createN]. by rewrite !bind_assoc. Qed.

Lemma ConcatExpr_create8_N a b c d e f g h :
  ConcatExpr_create8 a b c d e f g h = ConcatExpr_createN [a; b; c; d; e; f; g; h].
Proof. cbn [ConcatExpr_createN]. rewrite !bind_assoc. unfold ConcatExpr_create8.
  rewrite ConcatExpr_create4_N. cbn [ConcatExpr_createN]. by rewrite !bind_assoc. Qed.

(** ** Extensions *)

Lemma CastExpr_create_ok k e w : wf e -> 0 < w ->
  builds (CastExpr_create k e w) w
    (fun ρ => if w <? getWidth e then eval ρ e mod 2 ^ w
              else eval_cast k (getWidth e) w (eval ρ e)).
Proof.
  intros He Hw. pose proof (fun ρ => eval_range e ρ He) as Hr. pose proof (wf_width e He).
  assert (getWidth e < w ->
    builds (match e with
            | ConstantExpr CE => Done (ConstantExpr (match k with
                | ZExt => ConstantExpr_ZExt CE w | SExt => ConstantExpr_SExt CE w end))
            | _ => Done (CastExpr k e w) end) w
      (fun ρ => eval_cast k (getWidth e) w (eval ρ e))) as Hwide.
  { intros. destruct e as [v| | | | | | | |]; try (apply builds_Done; cbn in *; auto with lia; done).
    destruct k; [destruct (ConstantExpr_ZExt_sound v w Hw)
      |destruct (ConstantExpr_SExt_sound v w Hw)]; destruct_and?; apply builds_Done; auto. }
  assert (w = getWidth e -> builds (Done e) w (fun ρ => eval_cast k (getWidth e) w (eval ρ e)))
    as Hsame.
  { intros ->. apply builds_Done; auto. intros ρ. destruct k; cbn.
    - symmetry. by apply Z.mod_small.
    - rewrite to_signed_mod by lia. symmetry. by apply Z.mod_small. }
  destruct k; cbn [CastExpr_create]; unfold ZExtExpr_create, SExtExpr_create;
    (destruct (Z.eqb_spec w (getWidth e)) as [->|];
     [rewrite Z.ltb_irrefl; by apply Hsame|];
     destruct (Z.ltb_spec w (getWidth e));
     [eapply builds_ext; [apply ExtractExpr_create_ok; auto; lia|]; intros ρ; cbn;
      by rewrite Z.div_1_r
     |specialize (Hwide ltac:(lia)); destruct e; apply Hwide]).
Qed.

End Slices.
