(* ===== verification/ReadSound.v ===== *)
(** Soundness of reads, and of [rebuild] on any expression. *)
From stdpp Require Import base list numbers strings.
From Stdlib Require Import ZArith Lia.
From S2P Require Import Prelude APInt Bits Expr Semantics ConstantOps ExprCreate CreateSound OpsSound SliceSound.
Local Open Scope Z_scope.

Section Reads.
Context {AP : APIntOps} {APL : APIntLaws} {AH : ArrayHeap} {OP : ExprOptions}.
Context (default_opt : ConstArrayOpt = false).

(** ** Reads *)

(** The walk over the updates skips writes that are certainly elsewhere. *)
Definition rollback_ok (root : positive) (index : Expr) (u : UpdateNode)
    (o : outcome (Expr + UpdateNode * bool)) : Prop :=
  match o with
  | Done (inl v) =>
      wf v /\ getWidth v = arr_range (array_at root) /\
      forall ρ, eval ρ v = eval_read ρ root u (eval ρ index)
  | Done (inr (un, symbolic)) =>
      wf_updates root un /\ (symbolic = false -> un = UNull) /\
      forall ρ, eval_read ρ root un (eval ρ index) = eval_read ρ root u (eval ρ index)
  | _ => False
  end.

Lemma ReadExpr_rollback_ok root index u :
  wf index -> getWidth index = arr_domain (array_at root) -> wf_updates root u ->
  rollback_ok root index u (ReadExpr_rollback index u).
Proof.
  intros Hi Hw. induction u as [|next IH i v] using (UpdateNode_ind); intros Hu; [by cbn|].
  cbn [ReadExpr_rollback]. destruct Hu as (Hn & Hwi & Hwv & Ei & Ev).
  destruct (EqExpr_create_ok index i default_opt Hi Hwi ltac:(congruence)) as (c & -> & Hc & Hwc & Ec).
  cbn [mbind outcome_bind]. cbn in Hwc, Ec.
  destruct c as [a| | | | | | | |]; try (by repeat split).
  cbn in Hwc. rewrite isTrue_spec by done. cbn in Ec.
  destruct (Z.eqb_spec (uval a) 0) as [H0|H0]; cbn [negb].
  - specialize (IH Hn). unfold rollback_ok in *.
    assert (forall ρ, (eval ρ i =? eval ρ index) = false) as Hne.
    { intros ρ. specialize (Ec ρ). rewrite H0, Z.eqb_sym in Ec. by destruct (_ =? _). }
    destruct (ReadExpr_rollback index next) as [[x|[un s]]| | |]; try done.
    + destruct IH as (? & ? & IH). repeat split; auto. intros ρ. cbn. by rewrite Hne.
    + destruct IH as (? & ? & IH). repeat split; auto. intros ρ. cbn. by rewrite Hne.
  - cbn. repeat split; auto. intros ρ. specialize (Ec ρ). rewrite Z.eqb_sym in Ec.
    by destruct (_ =? _).
Qed.

(** Past the writes, the contents of a constant array are known. *)
Lemma initial_value_constant ρ r i v : isConstantArray (array_at r) = true ->
  0 <= i < arr_size (array_at r) -> constantValues (array_at r) !! Z.to_nat i = Some v ->
  initial_value ρ r i = uval v.
Proof. intros Hc [_ H] E. unfold initial_value. by rewrite Hc, (proj2 (Z.ltb_lt _ _) H), E. Qed.

Lemma ReadExpr_create_ok root head index :
  wf (ReadExpr root head index) ->
  builds (ReadExpr_create (MkUpdateList root head) index) (arr_range (array_at root))
    (fun ρ => eval ρ (ReadExpr root head index)).
Proof.
  intros Hwf. pose proof Hwf as (Ha & Hu & Hi & Hw).
  unfold ReadExpr_create. cbn [ul_root ul_head].
  pose proof (ReadExpr_rollback_ok root index head Hi Hw Hu) as Hr. unfold rollback_ok in Hr.
  destruct (ReadExpr_rollback index head) as [[v|[un s]]| | |]; try done.
  { destruct Hr as (? & ? & ?). by apply builds_Done. }
  destruct Hr as (Hun & Hs & Er). cbn [mbind outcome_bind].
  assert (builds (Done (ReadExpr root head index)) (arr_range (array_at root))
    (fun ρ => eval ρ (ReadExpr root head index))) as Hd by (by apply builds_Done).
  destruct index as [a| | | | | | | |]; auto. clear Hd.
  cbn in Hw. pose proof Ha as (Hdom & Hrange & Hsize & Hlen & Hvals).
  unfold ConstantExpr_getZExtValue. rewrite (proj2 (Z.leb_le (getBitWidth a) 64)) by lia.
  cbn [mbind outcome_bind]. pose proof Hi as [_ Hv].
  assert (uval a < 2 ^ 64) as H64.
  { pose proof (pow2_mono (getBitWidth a) 64). lia. }
  rewrite ap_getZExtValue_spec by done. destruct (Z.ltb_spec (uval a) (arr_size (array_at root))).
  2: { by apply builds_Done. }
  assert (builds (Done (ReadExpr root un (ConstantExpr a))) (arr_range (array_at root))
    (fun ρ => eval ρ (ReadExpr root head (ConstantExpr a)))) as Hd.
  { by apply builds_Done. }
  destruct (isConstantArray _ && _) eqn:Ec; auto.
  destruct (constantValues (array_at root) !! Z.to_nat (uval a)) as [v|] eqn:Ev; auto.
  apply andb_true_iff in Ec as [Ea Es]. apply negb_true_iff in Es. specialize (Hs Es). subst un.
  rewrite Forall_lookup in Hvals. destruct (Hvals _ _ Ev) as [? ?].
  apply builds_Done; auto. intros ρ. cbn [eval]. rewrite <- Er. cbn.
  by rewrite (initial_value_constant ρ root (uval a) v) by (auto; lia).
Qed.

(** ** Writes *)

Lemma UpdateList_extend_ok ul index value :
  wf_updates (ul_root ul) (ul_head ul) -> wf index -> wf value ->
  getWidth index = arr_domain (array_at (ul_root ul)) ->
  getWidth value = arr_range (array_at (ul_root ul)) ->
  exists ul', UpdateList_extend ul index value = Done ul' /\ ul_root ul' = ul_root ul /\
    wf_updates (ul_root ul') (ul_head ul') /\
    forall ρ i, eval_read ρ (ul_root ul') (ul_head ul') i =
      if i =? eval ρ index then eval ρ value else eval_read ρ (ul_root ul) (ul_head ul) i.
Proof.
  intros. unfold UpdateList_extend. rewrite !(proj2 (Z.eqb_eq _ _)) by done.
  eexists; repeat split; eauto. intros ρ i. cbn. by rewrite Z.eqb_sym.
Qed.

(** ** Rebuild *)

(** The expression with its kids replaced, nothing folded. *)
Definition with_kids (e : Expr) (ks : list Expr) : Expr :=
  match e, ks with
  | NotOptimizedExpr _, [s] => NotOptimizedExpr s
  | ReadExpr r u _, [i] => ReadExpr r u i
  | SelectExpr _ _ _, [c; t; f] => SelectExpr c t f
  | ConcatExpr _ _, [l; r] => ConcatExpr l r
  | ExtractExpr _ off w, [e'] => ExtractExpr e' off w
  | NotExpr _, [e'] => NotExpr e'
  | CastExpr k _ w, [s] => CastExpr k s w
  | BinaryExpr k _ _, [l; r] => BinaryExpr k l r
  | _, _ => e
  end.

(** The kids do not make it a division by the constant zero. *)
Definition divisor_ok (e : Expr) (ks : list Expr) : bool :=
  match e, ks with
  | BinaryExpr k _ _, [_; r] => negb (div_by_zero k r)
  | _, _ => true
  end.

Definition same_sort (e e' : Expr) : Prop := wf e' /\ getWidth e' = getWidth e.

Ltac inv_Forall2 :=
  repeat match goal with
    | H : Forall2 _ (_ :: _) _ |- _ => apply Forall2_cons_inv_l in H as (? & ? & [? ?] & ? & ->)
    | H : Forall2 _ [] _ |- _ => apply Forall2_nil_inv_l in H as ->
    end.

Lemma rebuild_ok e ks : wf e -> kids e <> [] -> Forall2 same_sort (kids e) ks ->
  divisor_ok e ks = true ->
  builds (rebuild e ks) (getWidth e) (fun ρ => eval ρ (with_kids e ks)).
Proof.
  intros He Hk Hks Hd. destruct e; cbn [kids] in *; inv_Forall2; cbn in He; destruct_and?;
    cbn [rebuild with_kids divisor_ok] in *; [done|..].
  - by apply builds_Done.
  - apply ReadExpr_create_ok. do 3 (split; [done|]). congruence.
  - eapply builds_width; [apply SelectExpr_create_ok; congruence|cbn; congruence].
  - eapply builds_width; [by apply ConcatExpr_create_ok|cbn; congruence].
  - apply ExtractExpr_create_ok; auto; lia.
  - eapply builds_width; [by apply NotExpr_create_ok|done].
  - pose proof (wf_width e ltac:(done)). cbn [getWidth]. eapply builds_ext; [apply CastExpr_create_ok; auto; lia|].
    intros ρ. cbn. by rewrite (proj2 (Z.ltb_ge _ _)) by lia.
  - apply negb_true_iff in Hd.
    eapply builds_width; [apply (BinaryExpr_create_ok default_opt k); auto; congruence|].
    cbn. case_match; congruence.
Qed.

End Reads.
