(* ===== verification/ExprWeight.v ===== *)
(** The constructors of Expr.cpp build nothing heavier than they are asked for.

    A weight counts the nodes of an expression with multiplicities for which
    every rewriting of the [create] functions is a descent, and may charge the
    divisions something of their own.  Counting nodes bounds the rewriting a
    visitor can do; charging the divisions by zero of an environment shows that
    no constructor introduces one. *)
From stdpp Require Import base list numbers strings.
From Stdlib Require Import ZArith Lia.
From S2P Require Import Prelude APInt Expr Semantics ConstantOps ExprCreate OpsSound ReadSound.
Local Open Scope Z_scope.

Definition isConst (e : Expr) : bool := match e with ConstantExpr _ => true | _ => false end.

(** An [Or] becomes two tests and an [And] when it is compared with zero, a
    [Select] on a constant branch an [Or], an ordering of bits a test and a
    connective. *)
Definition kind_weight (k : BinaryKind) : nat :=
  match k with
  | Or => 3
  | Ne | Ult | Ugt | Slt | Sgt | Shl | LShr => 2
  | Ule | Uge | Sle | Sge => 4
  | _ => 1
  end.

Section Weight.
Context (leaf : nat) (extra : BinaryKind -> Expr -> nat).

Fixpoint weight (e : Expr) : nat :=
  match e with
  | ConstantExpr _ => 0
  | NotOptimizedExpr s => leaf + weight s
  | ReadExpr _ u i => leaf + updates_weight u + weight i
  | SelectExpr c t f => 5 * leaf + weight c + weight t + weight f
  | ConcatExpr l r => leaf + weight l + weight r
  | ExtractExpr e _ _ => Nat.max leaf (weight e)
  | NotExpr e => leaf + weight e
  | CastExpr _ s _ => leaf + weight s
  | BinaryExpr k l r => kind_weight k * leaf + extra k r + weight l + weight r
  end%nat
with updates_weight (u : UpdateNode) : nat :=
  match u with
  | UNull => 0
  | UNode n i v => updates_weight n + weight i + weight v
  end%nat.

(** What a constructor returns, if it returns, weighs at most [b]. *)
Definition bounded (o : outcome Expr) (b : nat) : Prop :=
  match o with Done e => (weight e <= b)%nat | _ => True end.

Lemma bounded_bind m k b b' : bounded m b ->
  (forall x, (weight x <= b)%nat -> bounded (k x) b') -> bounded (m ≫= k) b'.
Proof. destruct m; cbn; auto. Qed.

Lemma bounded_le o b b' : bounded o b -> (b <= b')%nat -> bounded o b'.
Proof. destruct o; cbn; auto; lia. Qed.

Lemma bounded_const {A} (m : outcome A) (f : A -> APInt) b :
  bounded (x ← m; Done (ConstantExpr (f x))) b.
Proof. destruct m; cbn; auto; lia. Qed.

Lemma weight_nonconst e : isConst e = false -> (leaf <= weight e)%nat.
Proof. destruct e; cbn [isConst weight]; try done; try destruct k; cbn [kind_weight]; lia. Qed.

Context {AP : APIntOps} {AH : ArrayHeap} {OP : ExprOptions}.
Context (extra_division : forall k r, isDivKind k = false -> extra k r = 0%nat).
Context (default_opt : ConstArrayOpt = false).

Ltac step :=
  match goal with
  | |- context [if ?b then _ else _] => destruct b
  | |- bounded (match ?x with _ => _ end) _ => destruct x
  end.
Ltac weigh := cbn [bounded weight kind_weight mult Nat.mul];
  rewrite ?extra_division by done; cbn [bounded weight]; try done; try lia.

(** ** Connectives and equations *)

Definition bounded_binary (create : Expr -> Expr -> outcome Expr) (c : nat) : Prop :=
  forall l r, bounded (create l r) (c * leaf + weight l + weight r).

Lemma BCREATE_R_bounded op pL pR cr c :
  (forall l k, bounded (pL l k) (c * leaf + weight l)) ->
  (forall k r, bounded (pR k r) (c * leaf + weight r)) ->
  bounded_binary cr c -> bounded_binary (BCREATE_R op pL pR cr) c.
Proof.
  intros HL HR Hc l r. unfold BCREATE_R. step; [|done].
  destruct l; try (destruct r; first [apply Hc | eapply bounded_le; [apply HL|cbn; lia]]).
  destruct r; first [weigh; fail | eapply bounded_le; [apply HR|cbn; lia]].
Qed.

Lemma BCREATE_bounded op cr c : bounded_binary cr c -> bounded_binary (BCREATE op cr) c.
Proof.
  intros Hc l r. unfold BCREATE. step; [|done].
  destruct l; try apply Hc. destruct r; first [apply Hc | weigh].
Qed.

Lemma AndExpr_partial_bounded l k : bounded (AndExpr_createPartial l k) (1 * leaf + weight l).
Proof. unfold AndExpr_createPartial. repeat step; weigh. Qed.

Lemma AndExpr_bounded : bounded_binary AndExpr_create 1.
Proof.
  apply BCREATE_R_bounded; intros; try apply AndExpr_partial_bounded. intros ? ?.
  unfold AndExpr_create_. weigh.
Qed.

Lemma OrExpr_partial_bounded l k : bounded (OrExpr_createPartial l k) (3 * leaf + weight l).
Proof. unfold OrExpr_createPartial. repeat step; weigh. Qed.

Lemma OrExpr_bounded : bounded_binary OrExpr_create 3.
Proof.
  apply BCREATE_R_bounded; intros; try apply OrExpr_partial_bounded.
  intros ? ?. unfold OrExpr_create_. weigh.
Qed.

Lemma EqExpr_create__bounded l r : bounded (EqExpr_create_ l r) (1 * leaf + weight l + weight r).
Proof. unfold EqExpr_create_. step; weigh. Qed.

Lemma EqExpr_const_bounded (partialR : APInt -> Expr -> outcome Expr) e b :
  (forall k, bounded (partialR k e) b) -> forall k, bounded (EqExpr_create_const partialR e k) b.
Proof. intros H k. unfold EqExpr_create_const. step; [|done]. destruct e; weigh; apply H. Qed.

Lemma isZero_with_bounded (partialR : APInt -> Expr -> outcome Expr) e b :
  (forall k, bounded (partialR k e) b) -> bounded (createIsZero_with partialR e) b.
Proof.
  intros H. unfold createIsZero_with. destruct (ConstantExpr_create _ _); try done.
  by apply EqExpr_const_bounded.
Qed.

Lemma EqExpr_partial_bounded r : forall k, bounded (EqExpr_createPartialR k r) (1 * leaf + weight r).
Proof.
  induction r using Expr_ind; intros c; cbn [EqExpr_createPartialR]; rewrite ?default_opt;
    (step; [step; [cbn; lia|]|]);
    try (eapply bounded_le; [apply EqExpr_create__bounded|cbn; lia]).
  - step; step; try apply bounded_const;
      (eapply bounded_le; [apply EqExpr_const_bounded, IHr|cbn; lia]).
  - destruct k; try (eapply bounded_le; [apply EqExpr_create__bounded|cbn; lia]).
    + eapply bounded_bind; [apply isZero_with_bounded, IHr1|]. intros a Ha.
      eapply bounded_bind; [apply isZero_with_bounded, IHr2|]. intros b Hb.
      eapply bounded_le; [apply AndExpr_bounded|weigh].
    + destruct r1; try (eapply bounded_le; [apply EqExpr_create__bounded|cbn; lia]).
      step; [weigh|]. eapply bounded_le; [apply EqExpr_create__bounded|cbn; lia].
  - destruct k; try (eapply bounded_le; [apply EqExpr_create__bounded|cbn; lia]);
      (destruct r1; try (eapply bounded_le; [apply EqExpr_create__bounded|cbn; lia]);
       step; [|done]; eapply bounded_le; [apply IHr2|weigh]).
Qed.

Lemma EqExpr_bounded : bounded_binary EqExpr_create 1.
Proof.
  apply BCREATE_R_bounded; intros; try apply EqExpr_partial_bounded.
  intros ? ?. apply EqExpr_create__bounded.
Qed.

Lemma isZero_bounded e : bounded (createIsZero e) (1 * leaf + weight e).
Proof.
  unfold createIsZero. destruct (ConstantExpr_create _ _); try done.
  eapply bounded_le; [apply EqExpr_bounded|cbn; lia].
Qed.

Lemma NeExpr_bounded : bounded_binary NeExpr_create 2.
Proof.
  intros l r. unfold NeExpr_create. destruct (ConstantExpr_create _ _); try done.
  eapply bounded_bind; [apply EqExpr_bounded|]. intros x Hx.
  eapply bounded_le; [apply EqExpr_bounded|cbn; lia].
Qed.

(** ** Arithmetic *)

Lemma XorExpr_partial_bounded r k : bounded (XorExpr_createPartialR k r) (1 * leaf + weight r).
Proof.
  unfold XorExpr_createPartialR. repeat step; weigh.
  destruct (ConstantExpr_create _ _); try done. apply EqExpr_partial_bounded.
Qed.

Lemma XorExpr_bounded : bounded_binary XorExpr_create 1.
Proof.
  apply BCREATE_R_bounded; intros; try apply XorExpr_partial_bounded.
  intros ? ?. unfold XorExpr_create_. weigh.
Qed.

Lemma const_left_weight k e c a : const_left k e = Some (c, a) ->
  isDivKind k = false -> (weight e = kind_weight k * leaf + weight a)%nat.
Proof.
  intros H Hk. destruct e; try discriminate H. cbn in H.
  destruct e1; try discriminate H. case_decide; simplify_eq. cbn.
  rewrite extra_division by done. lia.
Qed.

Lemma AddExpr_partial_bounded add sub k r : bounded_binary add 1 -> bounded_binary sub 1 ->
  bounded (AddExpr_createPartialR add sub k r) (1 * leaf + weight r).
Proof.
  intros Ha Hs. unfold AddExpr_createPartialR.
  step; [apply XorExpr_partial_bounded|]. step; [cbn; lia|].
  destruct (const_left Add r) as [[c a]|] eqn:E1; [|destruct (const_left Sub r) as [[c a]|] eqn:E2].
  - apply const_left_weight in E1; [|done]. eapply bounded_bind; [apply Ha|]. intros x Hx.
    eapply bounded_le; [apply Ha|]. cbn in *. lia.
  - apply const_left_weight in E2; [|done]. eapply bounded_bind; [apply Ha|]. intros x Hx.
    eapply bounded_le; [apply Hs|]. cbn in *. lia.
  - weigh.
Qed.

(** The four shapes in which a constant is moved out of a sum. *)
Ltac move_constant :=
  match goal with
  | E : const_left _ _ = Some _ |- _ => apply const_left_weight in E; [|done]
  end;
  eapply bounded_bind; [eauto|]; intros ? ?; eapply bounded_le; [eauto|]; cbn in *; lia.

Lemma AddExpr_create__bounded add sub : bounded_binary add 1 -> bounded_binary sub 1 ->
  bounded_binary (AddExpr_create_ add sub) 1.
Proof.
  unfold bounded_binary. intros Ha Hs l r. unfold AddExpr_create_. step; [unfold XorExpr_create_; weigh|].
  destruct (const_left Add l) as [[? ?]|] eqn:?; [move_constant|].
  destruct (const_left Sub l) as [[? ?]|] eqn:?; [move_constant|].
  destruct (const_left Add r) as [[? ?]|] eqn:?; [move_constant|].
  destruct (const_left Sub r) as [[? ?]|] eqn:?; [move_constant|]. weigh.
Qed.

Lemma SubExpr_partial_bounded add sub k r : bounded_binary add 1 -> bounded_binary sub 1 ->
  bounded (SubExpr_createPartialR add sub k r) (1 * leaf + weight r).
Proof.
  unfold bounded_binary. intros Ha Hs. unfold SubExpr_createPartialR.
  step; [apply XorExpr_partial_bounded|].
  destruct (const_left Add r) as [[? ?]|] eqn:?; [move_constant|].
  destruct (const_left Sub r) as [[? ?]|] eqn:?; [move_constant|]. weigh.
Qed.

Lemma SubExpr_create__bounded add sub : bounded_binary add 1 -> bounded_binary sub 1 ->
  bounded_binary (SubExpr_create_ add sub) 1.
Proof.
  unfold bounded_binary. intros Ha Hs l r. unfold SubExpr_create_.
  step; [unfold XorExpr_create_; weigh|]. step; [weigh|].
  destruct (const_left Add l) as [[? ?]|] eqn:?; [move_constant|].
  destruct (const_left Sub l) as [[? ?]|] eqn:?; [move_constant|].
  destruct (const_left Add r) as [[? ?]|] eqn:?; [move_constant|].
  destruct (const_left Sub r) as [[? ?]|] eqn:?; [move_constant|]. weigh.
Qed.

Lemma addsub_f_bounded n :
  bounded_binary (AddExpr_create_f n) 1 /\ bounded_binary (SubExpr_create_f n) 1.
Proof.
  induction n as [|n [Ha Hs]]; [done|]. split; apply BCREATE_R_bounded; intros.
  1-2: by apply AddExpr_partial_bounded.
  - by apply AddExpr_create__bounded.
  - by apply AddExpr_partial_bounded.
  - by apply SubExpr_partial_bounded.
  - by apply SubExpr_create__bounded.
Qed.

Lemma MulExpr_partial_bounded k r : bounded (MulExpr_createPartialR k r) (1 * leaf + weight r).
Proof. unfold MulExpr_createPartialR. step; [apply AndExpr_partial_bounded|]. repeat step; weigh. Qed.

Lemma MulExpr_bounded : bounded_binary MulExpr_create 1.
Proof.
  apply BCREATE_R_bounded; intros; try apply MulExpr_partial_bounded.
  intros ? ?. unfold MulExpr_create_. step; weigh.
Qed.

(** Divisions keep their divisor, or fold. *)
Lemma division_bounded k l r : isDivKind k = true ->
  bounded (BinaryExpr_create k l r) (weight (BinaryExpr k l r)).
Proof.
  intros Hk. destruct k; try discriminate Hk; cbn [BinaryExpr_create];
    unfold UDivExpr_create, SDivExpr_create, URemExpr_create, SRemExpr_create, BCREATE,
      UDivExpr_create_, SDivExpr_create_, URemExpr_create_, SRemExpr_create_;
    (step; [|done]); destruct l, r; cbn [getWidth]; repeat step; try apply bounded_const; cbn; lia.
Qed.

Lemma test_left_bounded (op : Expr -> Expr -> outcome Expr) c l r : bounded_binary op c ->
  bounded (n ← createIsZero l; op n r) (S c * leaf + weight l + weight r).
Proof.
  intros H. eapply bounded_bind; [apply isZero_bounded|]. intros n Hn.
  eapply bounded_le; [apply H|]. cbn. lia.
Qed.

Lemma test_right_bounded (op : Expr -> Expr -> outcome Expr) c l r : bounded_binary op c ->
  bounded (n ← createIsZero r; op l n) (S c * leaf + weight l + weight r).
Proof.
  intros H. eapply bounded_bind; [apply isZero_bounded|]. intros n Hn.
  eapply bounded_le; [apply H|]. cbn. lia.
Qed.

Lemma bounded_swap f c : bounded_binary f c -> bounded_binary (fun l r => f r l) c.
Proof. intros H l r. eapply bounded_le; [apply H|lia]. Qed.

Ltac bits_or_alloc :=
  apply BCREATE_bounded; intros ? ?;
  unfold ShlExpr_create_, LShrExpr_create_, AShrExpr_create_, UltExpr_create_, UleExpr_create_,
    SltExpr_create_, SleExpr_create_;
  step; [first [apply test_left_bounded; auto using AndExpr_bounded, OrExpr_bounded; fail
               | apply test_right_bounded; auto using AndExpr_bounded, OrExpr_bounded; fail
               | weigh] | weigh].

Lemma BinaryExpr_create_bounded k l r :
  bounded (BinaryExpr_create k l r) (weight (BinaryExpr k l r)).
Proof.
  destruct (isDivKind k) eqn:Hd; [by apply division_bounded|]. cbn [weight].
  rewrite extra_division, Nat.add_0_r by done. revert l r. change (bounded_binary (BinaryExpr_create k) (kind_weight k)).
  assert (bounded_binary UltExpr_create 2) by bits_or_alloc.
  assert (bounded_binary SltExpr_create 2) by bits_or_alloc.
  assert (bounded_binary UleExpr_create 4) by bits_or_alloc.
  assert (bounded_binary SleExpr_create 4) by bits_or_alloc.
  destruct k; try discriminate Hd; cbn [BinaryExpr_create kind_weight]; try done;
    auto using AndExpr_bounded, OrExpr_bounded, EqExpr_bounded, NeExpr_bounded, XorExpr_bounded,
      MulExpr_bounded; try bits_or_alloc; try (by apply bounded_swap); intros l r; apply addsub_f_bounded.
Qed.

(** ** Selections, slices, reads *)

Lemma SelectExpr_bounded c t f :
  bounded (SelectExpr_create c t f) (5 * leaf + weight c + weight t + weight f).
Proof.
  assert (forall a b, bounded (AndExpr_create a b) (2 * leaf + weight a + weight b)) as HA
    by (intros; eapply bounded_le; [apply AndExpr_bounded|lia]).
  pose proof OrExpr_bounded as HO. pose proof AndExpr_bounded as HA'.
  unfold SelectExpr_create. do 2 (step; [|done]).
  assert (isConst c = false -> bounded
    (if expr_eqb t f then Done t
     else if getWidth t =? Bool then
       match t with
       | ConstantExpr CE => if ConstantExpr_isTrue CE then OrExpr_create c f
           else n ← createIsZero c; AndExpr_create n f
       | _ => match f with
           | ConstantExpr CE => if ConstantExpr_isTrue CE
               then n ← createIsZero c; OrExpr_create n t else AndExpr_create c t
           | _ => Done (SelectExpr c t f)
           end
       end
     else Done (SelectExpr c t f)) (5 * leaf + weight c + weight t + weight f)) as Hn.
  { intros _. step; [cbn; lia|]. step; [|weigh].
    pose proof (test_left_bounded AndExpr_create 1 c f HA').
    pose proof (test_left_bounded OrExpr_create 3 c t HO).
    destruct t as [v| | | | | | | |].
    { cbn [weight] in *. step; (eapply bounded_le; [first [eassumption | apply HO]|cbn; lia]). }
    all: destruct f as [v| | | | | | | |]; try (cbn; lia); cbn [weight] in *;
      step; (eapply bounded_le; [first [eassumption | apply HA]|cbn; lia]). }
  destruct c; try (by apply Hn). step; cbn; lia.
Qed.

Lemma alloc_extract_bounded e off w : isConst e = false ->
  bounded (Done (ExtractExpr e off w)) (weight e).
Proof. intros H. cbn. apply weight_nonconst in H. lia. Qed.

Lemma slices_f_bounded n :
  (forall l r, bounded (ConcatExpr_create_f n l r) (1 * leaf + weight l + weight r)) /\
  (forall e off w, bounded (ExtractExpr_create_f n e off w) (weight e)).
Proof.
  induction n as [|n [Hc He]]; [done|]. split.
  - intros l r. cbn [ConcatExpr_create_f].
    destruct l; try (cbn; lia); destruct r; try (cbn; lia).
    step; [|cbn; lia]. eapply bounded_le; [apply He|cbn; lia].
  - intros e off w. cbn [ExtractExpr_create_f]. step; [|done]. step; [cbn; lia|].
    destruct e; try (by apply alloc_extract_bounded); [cbn; lia|].
    step; [eapply bounded_le; [apply He|cbn; lia]|]. step; [eapply bounded_le; [apply He|cbn; lia]|].
    eapply bounded_bind; [apply He|]. intros a Ha. eapply bounded_bind; [apply He|]. intros b Hb.
    eapply bounded_le; [apply Hc|cbn; lia].
Qed.

Lemma ExtractExpr_bounded e off w : bounded (ExtractExpr_create e off w) (weight e).
Proof. apply slices_f_bounded. Qed.

Lemma CastExpr_bounded k e w : bounded (CastExpr_create k e w) (leaf + weight e).
Proof.
  destruct k; cbn; unfold ZExtExpr_create, SExtExpr_create; (step; [cbn; lia|]);
    (step; [eapply bounded_le; [apply ExtractExpr_bounded|lia]|]); destruct e; cbn; lia.
Qed.

Lemma ReadExpr_rollback_bounded i u :
  match ReadExpr_rollback i u with
  | Done (inl v) => (weight v <= updates_weight u)%nat
  | Done (inr (un, _)) => (updates_weight un <= updates_weight u)%nat
  | _ => True
  end.
Proof.
  induction u as [|next IH ix v] using UpdateNode_ind; [cbn; lia|]. cbn [ReadExpr_rollback].
  destruct (EqExpr_create i ix) as [c| | |]; try done. cbn [mbind outcome_bind updates_weight].
  destruct c; try done. step; [lia|]. destruct (ReadExpr_rollback i next) as [[?|[? ?]]| | |]; try done; lia.
Qed.

Lemma ReadExpr_bounded r u i :
  bounded (ReadExpr_create (MkUpdateList r u) i) (leaf + updates_weight u + weight i).
Proof.
  unfold ReadExpr_create. cbn [ul_root ul_head]. pose proof (ReadExpr_rollback_bounded i u) as H.
  destruct (ReadExpr_rollback i u) as [[v|[un s]]| | |]; try done; cbn [mbind outcome_bind]; [cbn; lia|].
  destruct i; try (cbn; lia). step; [|done]. destruct (ConstantExpr_getZExtValue _ _); try done.
  cbn [mbind outcome_bind]. step; [|cbn; lia]. step; [step; cbn; lia|cbn; lia].
Qed.

(** ** Rebuild *)

(** Rebuilding over new kids weighs no more than putting the kids in place. *)
Lemma rebuild_bounded e ks :
  bounded (rebuild e ks) (weight (with_kids e ks)).
Proof.
  destruct e; cbn [rebuild with_kids]; try done;
    repeat (match goal with |- bounded (match ?l with _ => _ end) _ => destruct l end; try done).
  - cbn. lia.
  - apply ReadExpr_bounded.
  - apply SelectExpr_bounded.
  - eapply bounded_le; [apply slices_f_bounded|cbn; lia].
  - eapply bounded_le; [apply ExtractExpr_bounded|cbn; lia].
  - unfold NotExpr_create. case_match; cbn; lia.
  - apply CastExpr_bounded.
  - apply BinaryExpr_create_bounded.
Qed.

(** Kids that became lighter make the rebuilt expression lighter. *)
Definition lighter (e e' : Expr) : Prop := e' = e \/ (weight e' < weight e)%nat.

Lemma lighter_le e e' : lighter e e' -> (weight e' <= weight e)%nat.
Proof. intros [->|?]; lia. Qed.

Lemma lighter_trans a b c : lighter a b -> lighter b c -> lighter a c.
Proof. unfold lighter. intros [->|?] [->|?]; auto; right; lia. Qed.

End Weight.

Arguments bounded {leaf extra}.

(** ** The two uses *)

(** The number of nodes, for termination. *)
Definition nodes : Expr -> nat := weight 1 (fun _ _ => O).

(** The divisions whose divisor is zero in an environment. *)
Section Divisions.
Context {AH : ArrayHeap}.

Definition zero_divisor (ρ : env) (k : BinaryKind) (r : Expr) : nat :=
  if isDivKind k && (eval ρ r =? 0) then 1 else 0.

Definition zero_divisions (ρ : env) : Expr -> nat := weight 0 (zero_divisor ρ).

(** No division by zero happens when the expression is evaluated. *)
Definition div_safe (ρ : env) (e : Expr) : Prop := zero_divisions ρ e = O.

Definition div_safe_updates (ρ : env) (u : UpdateNode) : Prop :=
  updates_weight 0 (zero_divisor ρ) u = O.

Lemma div_safe_node ρ n i v : div_safe_updates ρ (UNode n i v) ->
  div_safe_updates ρ n /\ div_safe ρ i /\ div_safe ρ v.
Proof.
  unfold div_safe_updates, div_safe, zero_divisions.
  change (updates_weight 0 (zero_divisor ρ) (UNode n i v)) with
    (updates_weight 0 (zero_divisor ρ) n + weight 0 (zero_divisor ρ) i + weight 0 (zero_divisor ρ) v)%nat. lia.
Qed.

Lemma div_safe_read ρ r u i : div_safe ρ (ReadExpr r u i) -> div_safe_updates ρ u /\ div_safe ρ i.
Proof.
  unfold div_safe_updates, div_safe, zero_divisions.
  change (weight 0 (zero_divisor ρ) (ReadExpr r u i)) with
    (updates_weight 0 (zero_divisor ρ) u + weight 0 (zero_divisor ρ) i)%nat. lia.
Qed.
End Divisions.

Section Rebuilt.
Context {AP : APIntOps} {APL : APIntLaws} {AH : ArrayHeap} {OP : ExprOptions}.
Context (default_opt : ConstArrayOpt = false).

Ltac inv_kids :=
  repeat match goal with
    | H : Forall2 _ (_ :: _) _ |- _ => apply Forall2_cons_inv_l in H as (? & ? & ? & ? & ->)
    | H : Forall2 _ [] _ |- _ => apply Forall2_nil_inv_l in H as ->
    end.

(** Equal kids make equal expressions. *)
Lemma eval_with_kids ρ e ks :
  Forall2 (fun k k' => getWidth k' = getWidth k /\ eval ρ k' = eval ρ k) (kids e) ks ->
  eval ρ (with_kids e ks) = eval ρ e.
Proof.
  intros H. destruct e; cbn [kids] in H; inv_kids; destruct_and?; cbn [with_kids eval];
    repeat match goal with H : _ = _ |- _ => rewrite ?H; clear H end; done.
Qed.

Lemma rebuild_nodes e ks e' :
  Forall2 (lighter 1 (fun _ _ => O)) (kids e) ks -> ks <> kids e -> rebuild e ks = Done e' ->
  (nodes e' < nodes e)%nat.
Proof.
  intros H Hne Hr.
  destruct e as [|s|r u i|c t f|l r|e off w|e|k s w|k l r]; cbn [kids] in *; inv_kids; [done|..].
  5: { change (ExtractExpr_create x off w = Done e') in Hr. pose proof (ExtractExpr_bounded 1 (fun _ _ => O) x off w) as B. rewrite Hr in B.
       cbn in B. unfold nodes. cbn.
       match goal with H : lighter _ _ _ _ |- _ => destruct H as [->|?]; [done|lia] end. }
  all: match type of Hr with rebuild ?e ?ks = _ =>
    pose proof (rebuild_bounded 1 (fun _ _ => O) (fun _ _ _ => eq_refl) default_opt e ks) as B end;
    rewrite Hr in B; cbn [bounded with_kids weight] in B; unfold nodes; cbn [weight];
    repeat match goal with H : lighter _ _ _ _ |- _ => destruct H as [->|?] end; try done; lia.
Qed.

Lemma zero_divisor_other ρ k r : isDivKind k = false -> zero_divisor ρ k r = O.
Proof. unfold zero_divisor. by intros ->. Qed.

Lemma div_safe_kids ρ e k : div_safe ρ e -> k ∈ kids e -> div_safe ρ k.
Proof.
  unfold div_safe, zero_divisions. intros H Hk. destruct e; cbn [kids weight] in *;
    rewrite ?elem_of_cons, ?elem_of_nil in Hk; destruct_or?; subst; try done; lia.
Qed.

Lemma div_safe_divisor ρ k l r : div_safe ρ (BinaryExpr k l r) -> isDivKind k = true -> eval ρ r <> 0.
Proof.
  unfold div_safe, zero_divisions. cbn. unfold zero_divisor. intros H Hk E.
  rewrite Hk, (proj2 (Z.eqb_eq _ _) E) in H. cbn in H. lia.
Qed.

(** Rebuilding introduces no division by zero. *)
Lemma rebuild_div_safe ρ e ks e' : div_safe ρ e ->
  Forall2 (fun k k' => div_safe ρ k' /\ eval ρ k' = eval ρ k) (kids e) ks ->
  rebuild e ks = Done e' -> div_safe ρ e'.
Proof.
  intros He H Hr. pose proof (rebuild_bounded 0 (zero_divisor ρ) (zero_divisor_other ρ) default_opt e ks) as B.
  rewrite Hr in B. unfold div_safe, zero_divisions in *. cbn [bounded] in B.
  enough (weight 0 (zero_divisor ρ) (with_kids e ks) = O) by lia.
  destruct e; cbn [kids] in H; inv_kids; destruct_and?; cbn [with_kids weight] in *; try lia.
  unfold zero_divisor in *. repeat match goal with H : eval _ _ = eval _ _ |- _ => rewrite H; clear H end. lia.
Qed.

Lemma div_safe_divisor_ok ρ e ks : div_safe ρ e ->
  Forall2 (fun k k' => eval ρ k' = eval ρ k) (kids e) ks -> divisor_ok e ks = true.
Proof.
  intros He H. destruct e as [| | | | | | | |k l r]; try done. cbn [kids] in H. inv_kids.
  cbn [divisor_ok]. unfold div_by_zero. destruct (isDivKind k) eqn:Hk; [|done].
  pose proof (div_safe_divisor _ _ _ _ He Hk) as Hd. case_match; try done.
  cbn in *. apply negb_true_iff, Z.eqb_neq. congruence.
Qed.

End Rebuilt.
