(* ===== verification/Visitor.v ===== *)
(** Visitors (ExprVisitor.cpp): a walk over an expression that remembers what it
    made of every subexpression, rebuilds what changed, and calls the methods a
    subclass overrides.  The walk of a recursive visitor goes on in what it has
    rebuilt, so it runs on fuel, and the theorem on walks shows that some fuel is
    enough. *)
From stdpp Require Import base list numbers strings well_founded.
From Stdlib Require Import ZArith Lia.
From S2P Require Import Prelude APInt Expr Semantics ConstantOps ExprCreate ReadSound ExprWeight.
Local Open Scope Z_scope.

(** The command-line option [-use-visitor-hash] (on by default). *)
Class VisitorOptions : Type := { UseVisitorHash : bool }.

(** [ExprVisitor::Action] *)
Inductive Action : Type :=
| SkipChildren
| DoChildren
| ChangeTo (argument : Expr).

(** [ExprVisitor::visited], a hash map from expressions: found and inserted by
    [ref] equality, an entry that is there is kept. *)
Definition visited_ty : Type := list (Expr * Expr).

Section Visited.
Context {AP : APIntOps} {AH : ArrayHeap}.

Fixpoint ExprMap_find (e : Expr) (s : visited_ty) : option Expr :=
  match s with
  | [] => None
  | (e', r) :: s' => if expr_eqb e e' then Some r else ExprMap_find e s'
  end.

Definition ExprMap_insert (e r : Expr) (s : visited_ty) : visited_ty :=
  match ExprMap_find e s with Some _ => s | None => s ++ [(e, r)] end.
End Visited.

(** A visit may go wrong and changes [visited]. *)
Definition VM (A : Type) : Type := visited_ty -> outcome (A * visited_ty).
#[export] Instance VM_ret : MRet VM := fun A a s => Done (a, s).
#[export] Instance VM_bind : MBind VM := fun A B f m s => '(a, s') ← m s; f a s'.

Definition lift {A} (o : outcome A) : VM A := fun s => a ← o; Done (a, s).

(** What a subclass overrides.  [visitKind] is the method of the expression's
    kind, [visitRead], [visitUDiv] and so on; it may call [visit]. *)
Record Visitor : Type := MkVisitor {
  recursive : bool;
  visitExpr : Expr -> outcome Action;
  visitKind : (Expr -> VM Expr) -> Expr -> VM Action;
  visitExprPost : Expr -> Action
}.

(** The methods of the base class. *)
Definition default_visitExpr (e : Expr) : outcome Action := Done DoChildren.
Definition default_visitKind (visit : Expr -> VM Expr) (e : Expr) : VM Action := mret DoChildren.
Definition default_visitExprPost (e : Expr) : Action := SkipChildren.

Section Visit.
Context {AP : APIntOps} {AH : ArrayHeap} {OP : ExprOptions} {VO : VisitorOptions}.
Context (V : Visitor).

Definition apply_post (e : Expr) : Expr :=
  if isConst e then e
  else match visitExprPost V e with ChangeTo a => a | _ => e end.

(** The [DoChildren] case of [visitActual]. *)
Definition visitChildren (visit : Expr -> VM Expr) (e : Expr) : VM Expr :=
  ks ← mapM visit (kids e);
  e' ← (if existsb (fun p => negb (expr_eqb p.1 p.2)) (zip ks (kids e))
        then e' ← lift (rebuild e ks); if recursive V then visit e' else mret e'
        else mret e);
  mret (apply_post e').

Definition visitActual (visit : Expr -> VM Expr) (e : Expr) : VM Expr :=
  match e with
  | ConstantExpr _ => mret e
  | _ =>
      res ← lift (visitExpr V e);
      match res with
      | SkipChildren => mret e
      | ChangeTo a => mret a
      | DoChildren =>
          res ← visitKind V visit e;
          match res with
          | SkipChildren => mret e
          | ChangeTo a => mret a
          | DoChildren => visitChildren visit e
          end
      end
  end.

Fixpoint visit (fuel : nat) (e : Expr) : VM Expr := fun s =>
  match fuel with
  | O => OutOfFuel
  | S fuel =>
      if negb UseVisitorHash || isConst e then visitActual (visit fuel) e s
      else
        match ExprMap_find e s with
        | Some r => Done (r, s)
        | None =>
            '(res, s') ← visitActual (visit fuel) e s;
            Done (res, ExprMap_insert e res s')
        end
  end.
End Visit.

(** A visit by a visitor that is not recursive goes into the expression only:
    its size bounds the walk ([visit_fuel]). *)
Definition visit_expr {AP : APIntOps} {AH : ArrayHeap} {OP : ExprOptions} {VO : VisitorOptions}
    (V : Visitor) (e : Expr) : VM Expr := visit V (S (expr_size e)) e.

(** ** Walks *)

(** A kid, or something with fewer nodes, comes later in the walk. *)
Definition walk_lt (a b : Expr) : Prop :=
  (nodes a < nodes b \/ (nodes a <= nodes b /\ expr_size a < expr_size b))%nat.

Lemma walk_lt_wf : well_founded walk_lt.
Proof.
  assert (forall n m e, nodes e = n -> expr_size e = m -> Acc walk_lt e) as H; [|intros e; by eapply H].
  intros n. induction (lt_wf n) as [n _ IHn]. intros m. induction (lt_wf m) as [m _ IHm].
  intros e En Em. constructor. intros a [Ha|[Ha1 Ha2]].
  - eapply IHn; [|done..]. lia.
  - destruct (Nat.eq_dec (nodes a) n) as [E|E]; [by eapply IHm; [|done..]; lia|].
    eapply IHn; [|done..]. lia.
Qed.

Lemma kids_walk_lt e k : k ∈ kids e -> walk_lt k e.
Proof.
  intros Hk. right. unfold nodes. destruct e; cbn [kids weight expr_size] in *;
    rewrite ?elem_of_cons, ?elem_of_nil in Hk; destruct_or?; subst; try done; lia.
Qed.

Section Walk.
Context {AP : APIntOps} {APL : APIntLaws} {AH : ArrayHeap} {OP : ExprOptions} {VO : VisitorOptions}.

(** A visitor whose methods take an expression in [P] to one related to it by
    [G]; the kids of those in [D] are visited, and [G0] relates one to what
    [visitExprPost] is given. *)
Definition action_ok (G : Expr -> Expr -> Prop) (D : Expr -> Prop) (e : Expr) (a : Action) : Prop :=
  match a with SkipChildren => G e e | ChangeTo x => G e x | DoChildren => D e end.

Definition visited_ok (G : Expr -> Expr -> Prop) (s : visited_ty) : Prop :=
  Forall (fun p => G p.1 p.2) s.

Definition visits (P : Expr -> Prop) (G : Expr -> Expr -> Prop)
    (vis : nat -> Expr -> VM Expr) (k : Expr) : Prop :=
  P k -> forall s, visited_ok G s ->
  exists r s', eventually (fun m => vis m k s) (r, s') /\ G k r /\ visited_ok G s'.

Record visitor_ok (V : Visitor) (P D : Expr -> Prop) (G G0 : Expr -> Expr -> Prop) : Prop := {
  vo_const v : P (ConstantExpr v) -> G (ConstantExpr v) (ConstantExpr v);
  vo_expr e : P e -> isConst e = false ->
    exists a, visitExpr V e = Done a /\ action_ok G (fun _ => True) e a;
  vo_kind e vis s : P e -> isConst e = false -> visitExpr V e = Done DoChildren ->
    (forall k, walk_lt k e -> visits P G vis k) -> visited_ok G s ->
    exists a s', eventually (fun m => visitKind V (vis m) e s) (a, s') /\ action_ok G D e a /\ visited_ok G s';
  vo_kids e k : P e -> k ∈ kids e -> P k;
  vo_same e : P e -> D e -> isConst e = false -> Forall2 G (kids e) (kids e) -> G0 e e;
  vo_rebuild e ks : P e -> D e -> Forall2 G (kids e) ks -> ks <> kids e ->
    exists e', rebuild e ks = Done e' /\
      if recursive V then P e' /\ walk_lt e' e /\ forall r, G e' r -> G0 e r else G0 e e';
  vo_post e x : P e -> D e -> G0 e x -> G e (apply_post V x)
}.

Lemma ExprMap_find_ok G s e r : visited_ok G s -> ExprMap_find e s = Some r -> G e r.
Proof.
  induction 1 as [|[e' r'] s Hh Ht IH]; [done|]. cbn.
  destruct (expr_eqb_reflect e e') as [->|]; [|done]. intros [= <-]. done.
Qed.

Lemma ExprMap_insert_ok G s e r : visited_ok G s -> G e r -> visited_ok G (ExprMap_insert e r s).
Proof.
  intros Hs He. unfold ExprMap_insert. case_match; [done|].
  apply Forall_app. split; [done|]. by repeat constructor.
Qed.

Lemma changed_spec ks ls : length ks = length ls ->
  existsb (fun p => negb (expr_eqb p.1 p.2)) (zip ks ls) = false <-> ks = ls.
Proof.
  revert ls. induction ks as [|k ks IH]; intros [|l ls] H; try done. cbn.
  rewrite orb_false_iff, negb_false_iff, expr_eqb_eq, IH by (cbn in H; lia). naive_solver.
Qed.

Lemma mapM_visits P G vis l : Forall P l -> Forall (visits P G vis) l -> forall s, visited_ok G s ->
  exists ks s', eventually (fun m => mapM (vis m) l s) (ks, s') /\ Forall2 G l ks /\ visited_ok G s'.
Proof.
  induction l as [|k l IH]; intros HP HV s Hs.
  - exists [], s. split; [apply eventually_Done|]. auto.
  - apply Forall_cons in HP as [Hk HP], HV as [Hv HV].
    destruct (Hv Hk s Hs) as (r & s1 & E1 & Hr & Hs1).
    destruct (IH HP HV s1 Hs1) as (ks & s2 & E2 & Hks & Hs2).
    exists (r :: ks), s2. split; [|auto]. cbn [mapM].
    eapply (eventually_bind _ (fun m '(a, s') => (x ← mapM (vis m) l; mret (a :: x)) s')); [done|].
    cbn. by eapply eventually_bind; [done|apply eventually_Done].
Qed.

Lemma visitChildren_ok V P D G G0 vis e s : visitor_ok V P D G G0 -> P e -> D e -> isConst e = false ->
  (forall k, walk_lt k e -> visits P G vis k) -> visited_ok G s ->
  exists r s', eventually (fun m => visitChildren V (vis m) e s) (r, s') /\ G e r /\ visited_ok G s'.
Proof.
  intros HV He HD Hc Hvis Hs. unfold visitChildren.
  destruct (mapM_visits P G vis (kids e)) with (s := s) as (ks & s1 & E1 & Hks & Hs1); auto.
  { apply Forall_forall. intros k. by apply (vo_kids _ _ _ _ _ HV). }
  { apply Forall_forall. intros k Hk. by apply Hvis, kids_walk_lt. }
  assert (exists x s2, eventually (fun m =>
      (if existsb (fun p => negb (expr_eqb p.1 p.2)) (zip ks (kids e))
       then e' ← lift (rebuild e ks); if recursive V then vis m e' else mret e'
       else mret e) s1) (x, s2) /\ G0 e x /\ visited_ok G s2) as (x & s2 & E2 & Hx & Hs2).
  { pose proof (Forall2_length _ _ _ Hks) as Hl.
    pose proof (changed_spec ks (kids e) (eq_sym Hl)) as Hch. destruct (existsb _ _) eqn:Hx.
    2: { exists e, s1. split_and!; [apply eventually_Done| |done]. apply (vo_same _ _ _ _ _ HV); auto.
         replace (kids e) with ks at 2; [done|]. by apply Hch. }
    assert (ks <> kids e) as Hne by (intros ?%Hch; done).
    destruct (vo_rebuild _ _ _ _ _ HV e ks He HD Hks Hne) as (e' & Er & Hr).
    unfold lift. rewrite Er. cbn [mbind VM_bind outcome_bind]. destruct (recursive V).
    - destruct Hr as (He' & Hlt & HG). destruct (Hvis e' Hlt He' s1 Hs1) as (r & s2 & E2 & Hr & Hs2).
      exists r, s2. auto.
    - exists e', s1. split_and!; [apply eventually_Done|done..]. }
  exists (apply_post V x), s2. split_and!; [|by apply (vo_post _ _ _ _ _ HV)|done].
  eapply (eventually_bind _ (fun m '(a, s') => _)); [exact E1|]. cbn beta iota.
  eapply (eventually_bind _ (fun m '(a, s') => Done (apply_post V a, s'))); [exact E2|apply eventually_Done].
Qed.

(** [visitActual] on what is not a constant, once [visitExpr] has answered. *)
Definition dispatch (V : Visitor) (vis : Expr -> VM Expr) (e : Expr) (a : Action) : VM Expr := fun s =>
  match a with
  | SkipChildren => Done (e, s)
  | ChangeTo x => Done (x, s)
  | DoChildren => '(res, s1) ← visitKind V vis e s;
      match res with
      | SkipChildren => Done (e, s1)
      | ChangeTo x => Done (x, s1)
      | DoChildren => visitChildren V vis e s1
      end
  end.

Lemma visitActual_dispatch V vis e s a : isConst e = false -> visitExpr V e = Done a ->
  visitActual V vis e s = dispatch V vis e a s.
Proof.
  intros Hc Ea. transitivity ((res ← lift (visitExpr V e);
    match res with
    | SkipChildren => mret e
    | ChangeTo a => mret a
    | DoChildren =>
        res ← visitKind V vis e;
        match res with
        | SkipChildren => mret e
        | ChangeTo a => mret a
        | DoChildren => visitChildren V vis e
        end
    end) s); [by destruct e|].
  unfold mbind, VM_bind, lift, dispatch. rewrite Ea. destruct a; try done. cbn [mbind outcome_bind].
  by destruct (visitKind V _ _ s) as [[[] ?]| | |].
Qed.

Lemma visitActual_ok V P D G G0 vis e s : visitor_ok V P D G G0 -> P e ->
  (forall k, walk_lt k e -> visits P G vis k) -> visited_ok G s ->
  exists r s', eventually (fun m => visitActual V (vis m) e s) (r, s') /\ G e r /\ visited_ok G s'.
Proof.
  intros HV He Hvis Hs. destruct (isConst e) eqn:Hc.
  { destruct e; try discriminate Hc. eexists _, s. split; [apply eventually_Done|]. split; [|done].
    by apply (vo_const _ _ _ _ _ HV). }
  destruct (vo_expr _ _ _ _ _ HV e He Hc) as (a & Ea & Ha).
  assert (exists r s', eventually (fun m => dispatch V (vis m) e a s) (r, s') /\ G e r /\
    visited_ok G s') as (r & s' & E & Hr & Hs').
  2: { exists r, s'. split_and!; [|done..]. eapply eventually_ext; [|exact E].
       intros m. by apply visitActual_dispatch. }
  destruct a as [| |x]; [eexists _, s; split_and!; [apply eventually_Done|done..]| |
    eexists _, s; split_and!; [apply eventually_Done|done..]].
  destruct (vo_kind _ _ _ _ _ HV e vis s He Hc Ea Hvis Hs) as (b & s1 & Eb & Hb & Hs1).
  assert (exists r s', eventually (fun m => match b with
      | SkipChildren => Done (e, s1)
      | ChangeTo x => Done (x, s1)
      | DoChildren => visitChildren V (vis m) e s1
      end) (r, s') /\ G e r /\ visited_ok G s') as (r & s' & E' & Hr & Hs').
  { destruct b as [| |x]; [eexists _, s1; split_and!; [apply eventually_Done|done..]| |
      eexists _, s1; split_and!; [apply eventually_Done|done..]].
    by eapply visitChildren_ok. }
  exists r, s'. split_and!; [|done..]. unfold dispatch.
  by eapply (eventually_bind _ (fun m '(res, s1) => _)); [exact Eb|].
Qed.

(** A visitor whose methods keep the relation returns, with a related result. *)
Lemma visit_ok V P D G G0 e s : visitor_ok V P D G G0 -> P e -> visited_ok G s ->
  exists r s', eventually (fun m => visit V m e s) (r, s') /\ G e r /\ visited_ok G s'.
Proof.
  intros HV. revert s. induction e as [e IH] using (well_founded_induction walk_lt_wf). intros s He Hs.
  destruct (visitActual_ok V P D G G0 (visit V) e s) as (r & s' & E & Hr & Hs'); auto.
  { intros k Hk HP t Ht. by apply IH. }
  destruct (negb UseVisitorHash || isConst e) eqn:Hh.
  { exists r, s'. split_and!; [|done..]. eapply eventually_succ; [|exact E]. intros m. cbn [visit]. by rewrite Hh. }
  destruct (ExprMap_find e s) as [x|] eqn:Hf.
  { exists x, s. split_and!; [|by eapply (ExprMap_find_ok G s)|done]. eapply eventually_succ; [|apply eventually_Done].
    intros m. cbn [visit]. by rewrite Hh, Hf. }
  exists r, (ExprMap_insert e r s'). split_and!; [|done|by apply ExprMap_insert_ok].
  eapply (eventually_succ _ (fun m => '(res, s') ← visitActual V (visit V m) e s;
    Done (res, ExprMap_insert e res s'))); [intros m; cbn [visit]; by rewrite Hh, Hf|].
  eapply (eventually_bind _ (fun m '(res, s') => _)); [exact E|apply eventually_Done].
Qed.

End Walk.

(** ** The fuel of visitors that are not recursive *)

(** The methods of the visitor visit only what is inside the expression. *)
Definition local_kind (V : Visitor) : Prop := forall vis vis' e,
  (forall k, (expr_size k < expr_size e)%nat -> forall s, vis k s = vis' k s) ->
  forall s, visitKind V vis e s = visitKind V vis' e s.

Section Fuel.
Context {AP : APIntOps} {AH : ArrayHeap} {OP : ExprOptions} {VO : VisitorOptions}.

Lemma VM_bind_ext {A B} (m m' : VM A) (f f' : A -> VM B) s :
  (forall s, m s = m' s) -> (forall a s, f a s = f' a s) -> (m ≫= f) s = (m' ≫= f') s.
Proof. intros Hm Hf. unfold mbind, VM_bind. rewrite Hm. destruct (m' s) as [[a s']| | |]; cbn; auto. Qed.

Lemma mapM_ext (vis vis' : Expr -> VM Expr) (l : list Expr) : (forall k, k ∈ l -> forall s, vis k s = vis' k s) ->
  forall s, (mapM vis l : VM (list Expr)) s = (mapM vis' l : VM (list Expr)) s.
Proof.
  induction l as [|k l IH]; intros H s; [done|]. cbn [mapM]. apply VM_bind_ext.
  - intros t. apply H. by left.
  - intros a t. apply VM_bind_ext; [|done]. apply IH. intros x Hx. apply H. by right.
Qed.

Lemma kids_size e k : k ∈ kids e -> (expr_size k < expr_size e)%nat.
Proof.
  intros Hk. destruct e; cbn [kids expr_size] in *;
    rewrite ?elem_of_cons, ?elem_of_nil in Hk; destruct_or?; subst; try done; lia.
Qed.

Lemma visitActual_ext V vis vis' e s : recursive V = false -> local_kind V ->
  (forall k, (expr_size k < expr_size e)%nat -> forall s, vis k s = vis' k s) ->
  visitActual V vis e s = visitActual V vis' e s.
Proof.
  intros Hr Hl Hv.
  assert (forall s, visitChildren V vis e s = visitChildren V vis' e s) as Hc.
  { intros t. unfold visitChildren. rewrite Hr. apply VM_bind_ext; [|done].
    apply mapM_ext. intros k Hk. apply Hv. by apply kids_size. }
  destruct e; try done; unfold visitActual; apply VM_bind_ext; try done; intros [] t; try done;
    (apply VM_bind_ext; [by apply Hl|intros [] t'; [done|apply Hc|done]]).
Qed.

(** One more than the size of the expression is fuel enough. *)
Lemma visit_fuel V e m s : recursive V = false -> local_kind V -> (expr_size e < m)%nat ->
  visit V m e s = visit_expr V e s.
Proof.
  intros Hr Hl. revert m s. induction e as [e IH] using (well_founded_induction (well_founded_ltof _ expr_size)).
  intros [|m] s Hm; [lia|]. unfold visit_expr in *. cbn [visit].
  assert (visitActual V (visit V m) e s = visitActual V (visit V (expr_size e)) e s) as ->; [|done].
  apply visitActual_ext; [done..|]. intros k Hk t.
  rewrite (IH k Hk m), (IH k Hk (expr_size e)) by lia. done.
Qed.

(** What is reached with enough fuel is reached with that much. *)
Lemma visit_enough V e s r : recursive V = false -> local_kind V ->
  eventually (fun m => visit V m e s) r -> visit_expr V e s = Done r.
Proof.
  intros Hr Hl [n Hn]. rewrite <- (visit_fuel V e (S (expr_size e) `max` n)) by first [done | lia]. apply Hn. lia.
Qed.

End Fuel.

(** ** Visitors that keep values *)

Section Preserving.
Context {AP : APIntOps} {APL : APIntLaws} {AH : ArrayHeap} {OP : ExprOptions}.
Context (default_opt : ConstArrayOpt = false).

(** The environments a visitor is right about, and one of them in which the
    expression divides nothing by zero. *)
Context (E : env -> Prop) (ρ0 : env) (Hρ0 : E ρ0).

Definition visitable (e : Expr) : Prop := wf e /\ div_safe ρ0 e.

Record preserves (e r : Expr) : Prop := MkPreserves {
  pv_sort : same_sort e r;
  pv_eval : forall ρ, E ρ -> eval ρ r = eval ρ e;
  pv_safe : div_safe ρ0 r
}.

Lemma preserves_refl e : visitable e -> preserves e e.
Proof. intros [? ?]. by split. Qed.

Lemma preserves_trans a b c : preserves a b -> preserves b c -> preserves a c.
Proof.
  intros [[_ W1] E1 S1] [[W2 W2'] E2 S2]. split; [split; [done|congruence]| |done].
  intros ρ H. by rewrite E2, E1.
Qed.

Lemma preserves_visitable a b : preserves a b -> visitable b.
Proof. by intros [[? _] _ ?]. Qed.

Lemma kids_wf e k : wf e -> k ∈ kids e -> wf k.
Proof.
  intros H Hk. destruct e; cbn in H, Hk; rewrite ?elem_of_cons, ?elem_of_nil in Hk;
    destruct_and?; destruct_or?; subst; done.
Qed.

Lemma visitable_kids e k : visitable e -> k ∈ kids e -> visitable k.
Proof. intros [He Hs] Hk. split; [by eapply kids_wf|by eapply div_safe_kids]. Qed.

Lemma preserves_const e v : visitable e -> wf_apint v -> getBitWidth v = getWidth e ->
  (forall ρ, E ρ -> eval ρ e = uval v) -> preserves e (ConstantExpr v).
Proof. intros [He Hs] Hv Hw Hev. split; [by split| |done]. intros ρ H. symmetry. by apply Hev. Qed.

(** Rebuilding over kids of the same values keeps the value. *)
Lemma preserves_rebuild e ks : visitable e -> Forall2 preserves (kids e) ks -> kids e <> [] ->
  exists e', rebuild e ks = Done e' /\ preserves e e'.
Proof.
  intros [He Hs] Hks Hne.
  assert (Forall2 same_sort (kids e) ks) as H1 by (eapply Forall2_impl; [exact Hks|by intros ? ? []]).
  assert (forall ρ, E ρ -> Forall2 (fun k k' => getWidth k' = getWidth k /\ eval ρ k' = eval ρ k) (kids e) ks) as H2.
  { intros ρ Hρ. eapply Forall2_impl; [exact Hks|]. intros ? ? [[? ?] ? ?]. auto. }
  assert (divisor_ok e ks = true) as H3.
  { apply (div_safe_divisor_ok ρ0); [done|]. eapply Forall2_impl; [by apply (H2 ρ0)|]. by intros ? ? []. }
  destruct (rebuild_ok default_opt e ks He Hne H1 H3) as (e' & Er & Hwf & Hw & Hev).
  exists e'. split; [done|]. split; [done| |].
  - intros ρ Hρ. rewrite Hev. apply eval_with_kids. auto.
  - eapply rebuild_div_safe; [done|exact Hs| |done]. eapply Forall2_impl; [exact Hks|].
    intros ? ? [? Ev ?]. auto.
Qed.

End Preserving.
