(* ===== verification/Searcher.v ===== *)
(** Searchers: the interface the executor schedules states through
    (lib/Core/Searcher.h) and the searchers of lib/Core/Searcher.cpp that keep
    their states in containers or wrap other searchers.

    An [ExecutionState*] is a [positive].  What a call reads from outside the
    searcher (random numbers, the clock, the instruction counter) comes from an
    [Oracle].  [SearcherLaws] is the contract: a searcher holds a set of states,
    [update] adds and removes exactly the states it is told to, and
    [selectState] returns one of them. *)
From stdpp Require Import base list numbers gmap sorting.
From Stdlib Require Import ZArith Lia.
From S2P Require Import Prelude.
Local Open Scope Z_scope.

(** ** Containers *)

(** [c.erase(std::find(c.begin(), c.end(), x))], [None] when [x] is absent. *)
Fixpoint vec_erase (x : positive) (l : list positive) : option (list positive) :=
  match l with
  | [] => None
  | y :: l' => if decide (x = y) then Some l' else (y ::.) <$> vec_erase x l'
  end.

(** The states of [l] that are not in [removed]. *)
Definition without (removed l : list positive) : list positive :=
  filter (fun x => x ∉ removed) l.

Lemma vec_erase_None x l : vec_erase x l = None <-> x ∉ l.
Proof.
  induction l as [|y l IH]; cbn; [set_solver|].
  case_decide as Hxy; [set_solver|]. rewrite fmap_None, IH. set_solver.
Qed.

Lemma vec_erase_elem x l : x ∈ l -> exists l', vec_erase x l = Some l'.
Proof.
  intros Hx. destruct (vec_erase x l) eqn:E; eauto. by apply vec_erase_None in E.
Qed.

Lemma vec_erase_perm x l l' : vec_erase x l = Some l' -> l ≡ₚ x :: l'.
Proof.
  revert l'; induction l as [|y l IH]; cbn; [done|]. intros l'. case_decide as Hxy.
  { intros ?; simplify_eq. done. }
  rewrite fmap_Some. intros (l2 & E & ->). rewrite (IH _ E). apply Permutation_swap.
Qed.

Lemma without_id r l : (forall x, x ∈ l -> x ∉ r) -> without r l = l.
Proof.
  unfold without. induction l as [|y l IH]; intros H; [done|].
  rewrite filter_cons_True by set_solver. f_equal. apply IH. set_solver.
Qed.

(** Without duplicates, erasing keeps the order and drops [x] only. *)
Lemma vec_erase_without x l : NoDup l -> x ∈ l -> vec_erase x l = Some (without [x] l).
Proof.
  induction 1 as [|y l Hy Hl IH]; [set_solver|]. intros Hx. cbn. unfold without. cbn.
  case_decide as Hxy.
  - subst y. rewrite decide_False by set_solver. f_equal. symmetry.
    apply without_id. set_solver.
  - rewrite decide_True by set_solver. rewrite IH by set_solver. done.
Qed.

Lemma without_nil l : without [] l = l.
Proof. apply without_id. set_solver. Qed.

Lemma without_cons x r l : without r (without [x] l) = without (x :: r) l.
Proof.
  unfold without. rewrite list_filter_filter. apply list_filter_iff. set_solver.
Qed.

Lemma without_app r l k : without r (l ++ k) = without r l ++ without r k.
Proof. apply filter_app. Qed.

Lemma without_NoDup r l : NoDup l -> NoDup (without r l).
Proof. apply NoDup_filter. Qed.

Lemma elem_of_without x r l : x ∈ without r l <-> x ∉ r /\ x ∈ l.
Proof. unfold without. by rewrite list_elem_of_filter. Qed.

Lemma without_perm r r' l l' : r ≡ₚ r' -> l ≡ₚ l' -> without r l ≡ₚ without r' l'.
Proof.
  intros Hr Hl. unfold without. rewrite (list_filter_iff _ (fun x => x ∉ r')).
  - by rewrite Hl.
  - intros x. by rewrite Hr.
Qed.

#[export] Instance without_Proper : Proper ((≡ₚ) ==> (≡ₚ) ==> (≡ₚ)) without.
Proof. intros r r' Hr l l' Hl. by apply without_perm. Qed.

Lemma without_perm_erase x r l l' :
  NoDup l -> vec_erase x l = Some l' -> without r l' ≡ₚ without (x :: r) l.
Proof.
  intros Hl E. assert (x ∈ l) as Hx.
  { destruct (decide (x ∈ l)); [done|]. by apply vec_erase_None in n; congruence. }
  rewrite vec_erase_without in E by done. simplify_eq. by rewrite without_cons.
Qed.

(** ** The interface *)

(** What a call reads from outside: the random numbers [theRNG.getInt32()]
    returns, the successive readings of the wall clock in microseconds, and
    the statistic [stats::instructions]. *)
Record Oracle : Type := MkOracle {
  o_int32 : Z;
  o_time : nat -> Z;
  o_instructions : Z
}.

(** The readings after the first [k] ones, for the calls made later on. *)
Definition later (k : nat) (o : Oracle) : Oracle :=
  MkOracle (o_int32 o) (fun i => o_time o (k + i)) (o_instructions o).

Class Searcher (S : Type) : Type := {
  selectState : Oracle -> S -> outcome (positive * S);
  update : Oracle -> option positive -> list positive -> list positive -> S -> outcome S;
  empty : S -> bool
}.

(** The contract.  [contents] are the states a searcher holds, [inv] its
    representation invariant, and [ready s c] says that [s] accepts [c] as the
    state that has just been run. *)
Class SearcherSpec (S : Type) : Type := {
  contents : S -> list positive;
  inv : S -> Prop;
  ready : S -> positive -> Prop
}.

(** An update the executor may ask for: new states are new, removed states are
    held or new, and the current state is one the searcher accepts. *)
Definition valid_update {S} `{SearcherSpec S} (current : option positive)
    (added removed : list positive) (s : S) : Prop :=
  NoDup (contents s ++ added) /\ NoDup removed /\ removed ⊆ contents s ++ added /\
  forall c, current = Some c -> ready s c.

Class SearcherLaws (S : Type) `{Searcher S, SearcherSpec S} : Prop := {
  ready_held (s : S) c : inv s -> ready s c -> c ∈ contents s;
  select_ok o (s : S) : inv s -> contents s <> [] ->
    exists c s', selectState o s = Done (c, s') /\ inv s' /\ ready s' c /\
      c ∈ contents s /\ contents s' ≡ₚ contents s;
  update_ok o current added removed (s : S) :
    inv s -> valid_update current added removed s ->
    exists s', update o current added removed s = Done s' /\ inv s' /\
      contents s' ≡ₚ without removed (contents s ++ added);
  empty_ok (s : S) : inv s -> empty s = bool_decide (contents s = [])
}.
