(* ===== verification/BasicSearchers.v ===== *)
(** The searchers that keep states in one container: depth first, breadth
    first and random state. *)
From stdpp Require Import base list numbers gmap.
From Stdlib Require Import ZArith Lia.
From S2P Require Import Prelude Searcher.
Local Open Scope Z_scope.

(** The removal loop shared by the searchers: [first_try] is the shortcut a
    searcher takes before it looks for the state. *)
Fixpoint remove_states (first_try : positive -> list positive -> outcome (option (list positive)))
    (removed states : list positive) : outcome (list positive) :=
  match removed with
  | [] => Done states
  | x :: removed' =>
      t ← first_try x states;
      match t with
      | Some states' => remove_states first_try removed' states'
      | None =>
          match vec_erase x states with
          | Some states' => remove_states first_try removed' states'
          | None => AssertFail (* invalid state removed *)
          end
      end
  end.

(** A shortcut that, when taken, removes the state it is given. *)
Definition shortcut_ok (first_try : positive -> list positive -> outcome (option (list positive))) :=
  forall x l, NoDup l -> x ∈ l ->
    first_try x l = Done None \/ first_try x l = Done (Some (without [x] l)).

Lemma remove_states_ok first_try removed states :
  shortcut_ok first_try -> NoDup states -> NoDup removed -> removed ⊆ states ->
  remove_states first_try removed states = Done (without removed states).
Proof.
  intros Htry. revert states. induction removed as [|x removed IH]; intros states Hs Hr Hsub.
  { cbn. by rewrite without_nil. }
  apply NoDup_cons in Hr as [Hx Hr]. cbn [remove_states].
  assert (remove_states first_try removed (without [x] states) =
          Done (without (x :: removed) states)) as Hrest.
  { rewrite IH; [by rewrite without_cons|by apply without_NoDup|done|].
    intros y Hy. apply elem_of_without. set_solver. }
  destruct (Htry x states Hs ltac:(set_solver)) as [-> | ->]; cbn [mbind outcome_bind]; [|done].
  by rewrite vec_erase_without by set_solver.
Qed.

(** ** DFSSearcher *)

Module DFSSearcher.

Record t : Type := Mk { states : list positive }.

Definition selectState (o : Oracle) (s : t) : outcome (positive * t) :=
  c ← deref (last (states s)); Done (c, s).

(** [if (state == states.back()) states.pop_back();] *)
Definition pop_back (x : positive) (l : list positive) : outcome (option (list positive)) :=
  b ← deref (last l);
  Done (if decide (x = b) then Some (removelast l) else None).

Definition update (o : Oracle) (current : option positive) (added removed : list positive)
    (s : t) : outcome t :=
  l ← remove_states pop_back removed (states s ++ added); Done (Mk l).

Definition empty (s : t) : bool := bool_decide (states s = []).

Lemma pop_back_ok : shortcut_ok pop_back.
Proof.
  intros x l Hl Hx. destruct l as [|b l] using rev_ind; [set_solver|]. clear IHl.
  unfold pop_back. rewrite last_snoc. cbn. case_decide as E; [right|by left].
  subst b. rewrite removelast_last. do 2 f_equal. rewrite without_app.
  apply NoDup_app in Hl as (_ & Hd & _). rewrite without_id by set_solver.
  unfold without. rewrite filter_cons_False by set_solver. cbn. by rewrite app_nil_r.
Qed.

Lemma dfs_update_exact o current added removed s :
  NoDup (states s ++ added) -> NoDup removed -> removed ⊆ states s ++ added ->
  update o current added removed s = Done (Mk (without removed (states s ++ added))).
Proof. intros. unfold update. by rewrite (remove_states_ok _ _ _ pop_back_ok). Qed.

End DFSSearcher.

#[export] Instance DFS_ops : Searcher DFSSearcher.t := {
  selectState := DFSSearcher.selectState;
  update := DFSSearcher.update;
  empty := DFSSearcher.empty
}.

#[export] Instance DFS_spec : SearcherSpec DFSSearcher.t := {
  contents := DFSSearcher.states;
  inv s := NoDup (DFSSearcher.states s);
  ready s c := c ∈ DFSSearcher.states s
}.

Lemma last_elem {A} (l : list A) : l <> [] -> exists x, last l = Some x /\ x ∈ l.
Proof.
  intros Hl. destruct l as [|x l] using rev_ind; [done|]. exists x. rewrite last_snoc. set_solver.
Qed.

#[export] Instance DFS_laws : SearcherLaws DFSSearcher.t.
Proof.
  split.
  - done.
  - intros o s Hs Hne. destruct (last_elem _ Hne) as (c & Hc & Hin). exists c, s.
    cbn. unfold DFSSearcher.selectState. cbn in Hc. by rewrite Hc.
  - intros o cur added removed s _ (H1 & H2 & H3 & _). cbn in *.
    rewrite DFSSearcher.dfs_update_exact by done. eexists; split; [done|]. cbn.
    split; [by apply without_NoDup|done].
  - done.
Qed.

(** ** BFSSearcher *)

Module BFSSearcher.

Record t : Type := Mk { states : list positive }.

Definition selectState (o : Oracle) (s : t) : outcome (positive * t) :=
  c ← deref (head (states s)); Done (c, s).

(** [if (state == states.front()) states.pop_front();] *)
Definition pop_front (x : positive) (l : list positive) : outcome (option (list positive)) :=
  b ← deref (head l);
  Done (if decide (x = b) then Some (tail l) else None).

(** The current state goes to the back when the execution forked. *)
Definition requeue (current : option positive) (added removed : list positive)
    (l : list positive) : outcome (list positive) :=
  match current with
  | Some c =>
      if negb (bool_decide (added = [])) && bool_decide (c ∉ removed) then
        match vec_erase c l with
        | Some l' => Done (l' ++ [c])
        | None => AssertFail
        end
      else Done l
  | None => Done l
  end.

Definition update (o : Oracle) (current : option positive) (added removed : list positive)
    (s : t) : outcome t :=
  l ← requeue current added removed (states s);
  l ← remove_states pop_front removed (l ++ added);
  Done (Mk l).

Definition empty (s : t) : bool := bool_decide (states s = []).

Lemma pop_front_ok : shortcut_ok pop_front.
Proof.
  intros x [|b l] Hl Hx; [set_solver|]. unfold pop_front. cbn [head tail deref mbind outcome_bind].
  case_decide as E; [right|by left]. subst b. do 2 f_equal.
  apply NoDup_cons in Hl as [Hl _]. unfold without. rewrite filter_cons_False by set_solver.
  symmetry. apply without_id. set_solver.
Qed.

(** The queue after the current state has been moved. *)
Definition requeued (current : option positive) (added removed l : list positive) : list positive :=
  match current with
  | Some c => if negb (bool_decide (added = [])) && bool_decide (c ∉ removed)
              then without [c] l ++ [c] else l
  | None => l
  end.

Lemma requeue_ok current added removed l :
  NoDup l -> (forall c, current = Some c -> c ∈ l) ->
  requeue current added removed l = Done (requeued current added removed l).
Proof.
  intros Hl Hc. unfold requeue, requeued. destruct current as [c|]; [|done].
  case_match; [|done]. by rewrite vec_erase_without by auto.
Qed.

Lemma requeued_perm current added removed l :
  NoDup l -> (forall c, current = Some c -> c ∈ l) -> requeued current added removed l ≡ₚ l.
Proof.
  intros Hl Hc. unfold requeued. destruct current as [c|]; [|done]. case_match; [|done].
  rewrite (vec_erase_perm c l (without [c] l)) at 2 by (apply vec_erase_without; auto).
  by rewrite (comm (++)).
Qed.

Lemma bfs_update_exact o current added removed s :
  NoDup (states s ++ added) -> NoDup removed -> removed ⊆ states s ++ added ->
  (forall c, current = Some c -> c ∈ states s) ->
  update o current added removed s =
    Done (Mk (without removed (requeued current added removed (states s) ++ added))).
Proof.
  intros Hn Hr Hs Hc. unfold update. pose proof Hn as (Hl & _ & _)%NoDup_app.
  rewrite requeue_ok by done. cbn [mbind outcome_bind].
  pose proof (requeued_perm current added removed (states s) Hl Hc) as Hp.
  rewrite (remove_states_ok _ _ _ pop_front_ok); [done|by rewrite Hp|done|].
  intros x Hx. rewrite Hp. by apply Hs.
Qed.

End BFSSearcher.

#[export] Instance BFS_ops : Searcher BFSSearcher.t := {
  selectState := BFSSearcher.selectState;
  update := BFSSearcher.update;
  empty := BFSSearcher.empty
}.

#[export] Instance BFS_spec : SearcherSpec BFSSearcher.t := {
  contents := BFSSearcher.states;
  inv s := NoDup (BFSSearcher.states s);
  ready s c := c ∈ BFSSearcher.states s
}.

#[export] Instance BFS_laws : SearcherLaws BFSSearcher.t.
Proof.
  split.
  - done.
  - intros o [l] Hs Hne. cbn in *. destruct l as [|c l]; [done|]. exists c, (BFSSearcher.Mk (c :: l)).
    cbn. set_solver.
  - intros o cur added removed s Hi (H1 & H2 & H3 & H4). cbn in *.
    rewrite BFSSearcher.bfs_update_exact by done. eexists; split; [done|]. cbn.
    rewrite BFSSearcher.requeued_perm by done.
    split; [|done]. by apply without_NoDup.
  - done.
Qed.

(** ** RandomSearcher *)

Module RandomSearcher.

Record t : Type := Mk { states : list positive }.

(** [states[theRNG.getInt32() % states.size()]] *)
Definition selectState (o : Oracle) (s : t) : outcome (positive * t) :=
  let n := Z.of_nat (length (states s)) in
  if n =? 0 then Undefined
  else c ← deref (states s !! Z.to_nat (u32 (o_int32 o) mod n)); Done (c, s).

Definition no_shortcut (x : positive) (l : list positive) : outcome (option (list positive)) :=
  Done None.

Definition update (o : Oracle) (current : option positive) (added removed : list positive)
    (s : t) : outcome t :=
  l ← remove_states no_shortcut removed (states s ++ added); Done (Mk l).

Definition empty (s : t) : bool := bool_decide (states s = []).

Lemma no_shortcut_ok : shortcut_ok no_shortcut.
Proof. by left. Qed.

Lemma random_update_exact o current added removed s :
  NoDup (states s ++ added) -> NoDup removed -> removed ⊆ states s ++ added ->
  update o current added removed s = Done (Mk (without removed (states s ++ added))).
Proof. intros. unfold update. by rewrite (remove_states_ok _ _ _ no_shortcut_ok). Qed.

End RandomSearcher.

#[export] Instance Random_ops : Searcher RandomSearcher.t := {
  selectState := RandomSearcher.selectState;
  update := RandomSearcher.update;
  empty := RandomSearcher.empty
}.

#[export] Instance Random_spec : SearcherSpec RandomSearcher.t := {
  contents := RandomSearcher.states;
  inv s := NoDup (RandomSearcher.states s);
  ready s c := c ∈ RandomSearcher.states s
}.

#[export] Instance Random_laws : SearcherLaws RandomSearcher.t.
Proof.
  split.
  - done.
  - intros o s Hs Hne. cbn in *. unfold RandomSearcher.selectState.
    destruct (Z.eqb_spec (Z.of_nat (length (RandomSearcher.states s))) 0) as [E|E].
    { destruct (RandomSearcher.states s); [done|cbn in E; lia]. }
    set (i := Z.to_nat _).
    destruct (lookup_lt_is_Some_2 (RandomSearcher.states s) i) as [c Hc].
    { subst i. pose proof (Z.mod_pos_bound (u32 (o_int32 o))
        (Z.of_nat (length (RandomSearcher.states s)))). lia. }
    rewrite Hc. exists c, s. cbn. apply list_elem_of_lookup_2 in Hc. done.
  - intros o cur added removed s _ (H1 & H2 & H3 & _). cbn in *.
    rewrite RandomSearcher.random_update_exact by done. eexists; split; [done|]. cbn.
    split; [by apply without_NoDup|done].
  - done.
Qed.
