(* ===== verification/MetaSearchers.v ===== *)
(** The searchers that wrap other searchers: batching, iterative deepening on
    time, and interleaving. *)
From stdpp Require Import base list numbers gmap.
From Stdlib Require Import ZArith Lia.
From S2P Require Import Prelude Searcher.
Local Open Scope Z_scope.

(** A searcher that accepts any state it holds as the one just run. *)
Class AnyReady (S : Type) `{SearcherSpec S} : Prop :=
  any_ready (s : S) c : inv s -> c ∈ contents s -> ready s c.

(** ** BatchingSearcher *)

Module BatchingSearcher.

(** Times are in microseconds. *)
Record t (S : Type) : Type := Mk {
  baseSearcher : S;
  timeBudget : Z;
  instructionBudget : Z;
  lastState : option positive;
  lastStartTime : Z;
  lastStartInstructions : Z
}.
Arguments Mk {S}.
Arguments baseSearcher {S}.
Arguments timeBudget {S}.
Arguments instructionBudget {S}.
Arguments lastState {S}.
Arguments lastStartTime {S}.
Arguments lastStartInstructions {S}.

Section Batching.
Context {S : Type} {ops : Searcher S}.
(** [t *= 1.1], which goes through floating point. *)
Context (scale_budget : Z -> Z).

(** Whether to leave the last state, with the number of clock readings the
    test takes. *)
Definition expired (o : Oracle) (s : t S) : bool * nat :=
  match lastState s with
  | None => (true, 0%nat)
  | Some _ =>
      let time_test :=
        if 0 <? timeBudget s
        then (timeBudget s <? o_time o 0 - lastStartTime s, 1%nat) else (false, 0%nat) in
      if time_test.1 then time_test
      else ((0 <? instructionBudget s) &&
              (instructionBudget s <? u64 (o_instructions o - lastStartInstructions s)),
            time_test.2)
  end.

Definition selectState (o : Oracle) (s : t S) : outcome (positive * t S) :=
  let '(leave, k) := expired o s in
  match leave, lastState s with
  | false, Some c => Done (c, s)
  | false, None => Undefined
  | true, last =>
      let '(budget, k) :=
        match last with
        | Some _ =>
            let delta := o_time o k - lastStartTime s in
            (if scale_budget (timeBudget s) <? delta then delta else timeBudget s, (k + 1)%nat)
        | None => (timeBudget s, k)
        end in
      r ← Searcher.selectState (later k o) (baseSearcher s);
      let '(c, base) := r in
      Done (c, Mk base budget (instructionBudget s) (Some c)
                 (o_time o k) (u32 (o_instructions o)))
  end.

Definition update (o : Oracle) (current : option positive) (added removed : list positive)
    (s : t S) : outcome (t S) :=
  let last := match lastState s with
              | Some c => if bool_decide (c ∈ removed) then None else Some c
              | None => None
              end in
  base ← Searcher.update o current added removed (baseSearcher s);
  Done (Mk base (timeBudget s) (instructionBudget s) last
          (lastStartTime s) (lastStartInstructions s)).

Definition empty (s : t S) : bool := Searcher.empty (baseSearcher s).

Definition ops_of : Searcher (t S) :=
  {| Searcher.selectState := selectState; Searcher.update := update; Searcher.empty := empty |}.

Context {spec : SearcherSpec S}.

Definition spec_of : SearcherSpec (t S) := {|
  contents s := contents (baseSearcher s);
  inv s := inv (baseSearcher s) /\ forall c, lastState s = Some c -> c ∈ contents (baseSearcher s);
  ready s c := c ∈ contents (baseSearcher s)
|}.

Context {laws : SearcherLaws S} {any : AnyReady S}.

(** The memoized state is never one that has been removed. *)
Lemma update_last added removed (s : t S) (base : S) :
  contents base ≡ₚ without removed (contents (baseSearcher s) ++ added) ->
  (forall c, lastState s = Some c -> c ∈ contents (baseSearcher s)) ->
  forall c, match lastState s with
            | Some c => if bool_decide (c ∈ removed) then None else Some c
            | None => None end = Some c -> c ∈ contents base.
Proof.
  intros Hp Hl c. destruct (lastState s) as [d|]; [|done]. case_bool_decide; [done|].
  intros ?; simplify_eq. rewrite Hp. apply elem_of_without. split; [done|]. set_solver.
Qed.

Lemma batching_laws_of : @SearcherLaws (t S) ops_of spec_of.
Proof.
  split.
  - done.
  - intros o s [Hi Hl] Hne. cbn in Hne |- *. unfold selectState.
    destruct (expired o s) as [leave k] eqn:Ex. destruct leave.
    + destruct (match lastState s with Some _ => _ | None => _ end) as [b k'].
      destruct (select_ok (later k' o) (baseSearcher s) Hi Hne) as (c & base & E & Hb & _ & Hc & Hp).
      rewrite E. cbn. eexists _, _. split; [done|]. cbn. rewrite Hp. repeat split; auto.
      intros d Hd. simplify_eq. by rewrite Hp.
    + destruct (lastState s) as [c|] eqn:El.
      * exists c, s. cbn. rewrite El. auto 10 using Permutation_refl.
      * unfold expired in Ex. by rewrite El in Ex.
  - intros o cur added removed s [Hi Hl] (H1 & H2 & H3 & H4). cbn in H1, H2, H3, H4 |- *.
    destruct (update_ok o cur added removed (baseSearcher s) Hi) as (base & E & Hb & Hp).
    { split_and!; auto. }
    unfold update. rewrite E. cbn. eexists; split; [done|]. cbn. split; [|done].
    split; [done|]. by eapply update_last.
  - intros s [Hi _]. cbn. by apply empty_ok.
Qed.

Lemma batching_any_of : @AnyReady (t S) spec_of.
Proof. by intros s c _ H. Qed.

End Batching.
End BatchingSearcher.

(** ** IterativeDeepeningTimeSearcher *)

Module IterativeDeepeningTimeSearcher.

Record t (S : Type) : Type := Mk {
  baseSearcher : S;
  startTime : Z;
  time : Z;
  pausedStates : gset positive
}.
Arguments Mk {S}.
Arguments baseSearcher {S}.
Arguments startTime {S}.
Arguments time {S}.
Arguments pausedStates {S}.

Section Deepening.
Context {S : Type} {ops : Searcher S}.

Definition selectState (o : Oracle) (s : t S) : outcome (positive * t S) :=
  r ← Searcher.selectState o (baseSearcher s);
  let '(c, base) := r in
  Done (c, Mk base (o_time o 0) (time s) (pausedStates s)).

(** The loop over the removed states: paused ones are unknown to the
    underlying searcher. *)
Fixpoint filter_paused (removed : list positive) (paused : gset positive) (alt : list positive)
    : gset positive * list positive :=
  match removed with
  | [] => (paused, alt)
  | x :: removed' =>
      if decide (x ∈ paused) then filter_paused removed' (paused ∖ {[x]}) (without [x] alt)
      else filter_paused removed' paused alt
  end.

Definition update (o : Oracle) (current : option positive) (added removed : list positive)
    (s : t S) : outcome (t S) :=
  let elapsed := o_time o 0 - startTime s in
  let '(paused, alt) := filter_paused removed (pausedStates s) removed in
  base ← Searcher.update (later 1 o) current added alt (baseSearcher s);
  bp ← match current with
       | Some c =>
           if bool_decide (c ∉ removed) && (time s <? elapsed)
           then base ← Searcher.update (later 1 o) None [] [c] base;
                Done (base, {[c]} ∪ paused)
           else Done (base, paused)
       | None => Done (base, paused)
       end;
  let '(base, paused) := (bp : S * gset positive) in
  if Searcher.empty base
  then base ← Searcher.update (later 1 o) None (elements paused) [] base;
       Done (Mk base (startTime s) (2 * time s) ∅)
  else Done (Mk base (startTime s) (time s) paused).

Definition empty (s : t S) : bool :=
  Searcher.empty (baseSearcher s) && bool_decide (pausedStates s = ∅).

Definition ops_of : Searcher (t S) :=
  {| Searcher.selectState := selectState; Searcher.update := update; Searcher.empty := empty |}.

Context {spec : SearcherSpec S}.

Definition all_states (s : t S) : list positive :=
  contents (baseSearcher s) ++ elements (pausedStates s).

(** A state is paused or known to the underlying searcher, not both, and the
    underlying searcher runs out of states only when none is left. *)
Definition spec_of : SearcherSpec (t S) := {|
  contents := all_states;
  inv s := inv (baseSearcher s) /\ NoDup (all_states s) /\
    (contents (baseSearcher s) = [] -> pausedStates s = ∅);
  ready s c := ready (baseSearcher s) c
|}.

Lemma filter_paused_spec removed paused alt :
  filter_paused removed paused alt =
    (paused ∖ list_to_set removed, without (filter (fun x => x ∈ paused) removed) alt).
Proof.
  revert paused alt. induction removed as [|x removed IH]; intros paused alt.
  { cbn. rewrite without_nil. f_equal. set_solver. }
  cbn [filter_paused]. case_decide as Hx.
  - rewrite filter_cons_True by done. rewrite IH. f_equal; [set_solver|].
    rewrite without_cons. unfold without. apply list_filter_iff. intros y.
    rewrite !elem_of_cons, !list_elem_of_filter. rewrite elem_of_difference, elem_of_singleton.
    destruct (decide (y = x)); naive_solver.
  - rewrite filter_cons_False by done. rewrite IH. f_equal. set_solver.
Qed.

(** Removing from the underlying searcher and from the paused states is
    removing from both together. *)
Lemma without_split removed base added (paused : gset positive) :
  NoDup (base ++ elements paused ++ added) ->
  without (without (filter (fun x => x ∈ paused) removed) removed) (base ++ added)
    ++ elements (paused ∖ list_to_set removed)
  ≡ₚ without removed ((base ++ elements paused) ++ added).
Proof.
  intros Hn. apply NoDup_app in Hn as (Hb & Hbp & (Hp & Hpa & Ha)%NoDup_app).
  apply NoDup_Permutation.
  - apply NoDup_app. split; [|split].
    + apply without_NoDup, NoDup_app. set_solver.
    + intros x Hx%elem_of_without. set_solver.
    + apply NoDup_elements.
  - apply without_NoDup, NoDup_app. split_and!; [apply NoDup_app; set_solver|set_solver|done].
  - intros x. rewrite elem_of_app, !elem_of_without, !elem_of_app, !elem_of_elements.
    rewrite list_elem_of_filter. set_solver.
Qed.

Context {laws : SearcherLaws S}.

(** The tail of [update]: refill the underlying searcher when it is empty. *)
Lemma refill_ok o base paused st tm :
  inv base -> NoDup (contents base ++ elements paused) ->
  exists s', (if Searcher.empty base
              then base ← Searcher.update o None (elements paused) [] base;
                   Done (Mk base st (2 * tm) ∅)
              else Done (Mk base st tm paused)) = Done s' /\
    @inv _ spec_of s' /\ all_states s' ≡ₚ contents base ++ elements paused.
Proof.
  intros Hi Hn. rewrite empty_ok by done. case_bool_decide as He.
  - destruct (update_ok o None (elements paused) [] base Hi) as (b & E & Hb & Hp).
    { split_and!; [done|constructor|set_solver|done]. }
    rewrite E. cbn. eexists; split; [done|]. unfold all_states; cbn.
    rewrite without_nil in Hp. rewrite elements_empty, app_nil_r.
    split; [|done]. split_and!; [done| |done]. by rewrite Hp.
  - eexists; split; [done|]. cbn. unfold all_states; cbn. naive_solver.
Qed.

(** Pausing the current state moves it out of the underlying searcher. *)
Lemma pause_perm c b1 b2 (paused : gset positive) :
  NoDup (b1 ++ elements paused) -> c ∈ b1 -> b2 ≡ₚ without [c] b1 ->
  b2 ++ elements ({[c]} ∪ paused) ≡ₚ b1 ++ elements paused.
Proof.
  intros (Hnb & Hd & _)%NoDup_app Hc Hp. rewrite Hp.
  rewrite elements_union_singleton by (rewrite <- elem_of_elements; auto).
  rewrite (vec_erase_perm c b1 (without [c] b1)) at 2 by (by apply vec_erase_without).
  by rewrite <- Permutation_middle.
Qed.

Lemma deepening_update_of o cur added removed (s : t S) :
  @inv _ spec_of s -> @valid_update _ spec_of cur added removed s ->
  exists s', update o cur added removed s = Done s' /\ @inv _ spec_of s' /\
    all_states s' ≡ₚ without removed (all_states s ++ added).
Proof.
  intros (Hi & Hn & He) (H1 & H2 & H3 & H4).
  cbn [contents spec_of ready] in *. unfold update.
  rewrite filter_paused_spec. set (alt := without _ removed). unfold all_states in *.
  assert (NoDup (contents (baseSearcher s) ++ elements (pausedStates s) ++ added)) as Hn'
    by (by rewrite app_assoc).
  assert (NoDup (contents (baseSearcher s) ++ added)) as Hnb.
  { apply NoDup_app in Hn' as (? & ? & (? & ? & ?)%NoDup_app). apply NoDup_app. set_solver. }
  destruct (update_ok (later 1 o) cur added alt (baseSearcher s) Hi) as (b1 & E1 & Hb1 & Hp1).
  { split_and!; auto; [by apply without_NoDup|].
    intros x [Hx Hr]%elem_of_without. specialize (H3 x Hr).
    rewrite !elem_of_app, elem_of_elements in H3. rewrite list_elem_of_filter in Hx.
    set_solver. }
  rewrite E1. cbn [mbind outcome_bind].
  pose proof (without_split removed _ added _ Hn') as Hsplit. fold alt in Hsplit.
  rewrite <- Hp1 in Hsplit. set (paused := pausedStates s ∖ list_to_set removed) in *.
  assert (NoDup (contents b1 ++ elements paused)) as Hn1
    by (rewrite Hsplit; by apply without_NoDup).
  pose proof (refill_ok (later 1 o) b1 paused (startTime s) (time s) Hb1 Hn1) as (s1 & R1 & I1 & Hs1).
  rewrite Hsplit in Hs1. destruct cur as [c|]; [|by exists s1].
  destruct (bool_decide (c ∉ removed) && _) eqn:Ec; [|by exists s1].
  apply andb_true_iff in Ec as [Hc _]. apply bool_decide_eq_true in Hc.
  assert (c ∈ contents b1) as Hcb.
  { rewrite Hp1. apply elem_of_without. pose proof (ready_held _ _ Hi (H4 c eq_refl)).
    split; [|set_solver]. intros [_ ?]%elem_of_without. done. }
  destruct (update_ok (later 1 o) None [] [c] b1 Hb1) as (b2 & E2 & Hb2 & Hp2).
  { apply NoDup_app in Hn1 as (? & _).
    split_and!; [by rewrite app_nil_r|apply NoDup_singleton|set_solver|done]. }
  rewrite E2. cbn [mbind outcome_bind]. rewrite app_nil_r in Hp2.
  pose proof (pause_perm c _ _ paused Hn1 Hcb Hp2) as Hp.
  destruct (refill_ok (later 1 o) b2 ({[c]} ∪ paused) (startTime s) (time s) Hb2)
    as (s2 & R2 & I2 & Hs2); [by rewrite Hp|].
  exists s2. rewrite Hs2, Hp, Hsplit. done.
Qed.

Lemma deepening_laws_of : @SearcherLaws (t S) ops_of spec_of.
Proof.
  split.
  - intros s c (Hi & _) Hr. cbn in *. unfold all_states.
    pose proof (ready_held _ _ Hi Hr). set_solver.
  - intros o s (Hi & Hn & He) Hne. cbn in Hne |- *. unfold selectState.
    destruct (select_ok o (baseSearcher s) Hi) as (c & base & E & Hb & Hr & Hc & Hp).
    { intros E. unfold all_states in Hne. rewrite E, (He E), elements_empty in Hne. done. }
    rewrite E. cbn. eexists _, _. split; [done|]. unfold all_states in *; cbn.
    split_and!; auto; [by rewrite Hp| |set_solver|by rewrite Hp].
    intros E'. apply He. rewrite E' in Hp. by apply Permutation_nil_l in Hp.
  - apply deepening_update_of.
  - intros s (Hi & _). cbn. unfold empty, all_states. rewrite empty_ok by done.
    rewrite <- bool_decide_and. apply bool_decide_ext.
    by rewrite app_nil, elements_empty_iff, leibniz_equiv_iff.
Qed.

End Deepening.
End IterativeDeepeningTimeSearcher.

(** ** InterleavedSearcher *)

Module InterleavedSearcher.

Record t (S : Type) : Type := Mk { searchers : list S; index : Z }.
Arguments Mk {S}.
Arguments searchers {S}.
Arguments index {S}.

Section Interleaved.
Context {S : Type} {ops : Searcher S}.

(** [searchers[--index]], then back to the end of the list below index 0. *)
Definition selectState (o : Oracle) (s : t S) : outcome (positive * t S) :=
  let i := u32 (index s - 1) in
  x ← deref (searchers s !! Z.to_nat i);
  r ← Searcher.selectState o x;
  let '(c, x') := (r : positive * S) in
  Done (c, Mk (<[Z.to_nat i := x']> (searchers s))
             (if i =? 0 then Z.of_nat (length (searchers s)) else i)).

Fixpoint update_all (o : Oracle) (current : option positive) (added removed : list positive)
    (l : list S) : outcome (list S) :=
  match l with
  | [] => Done []
  | x :: l' =>
      x' ← Searcher.update o current added removed x;
      l'' ← update_all o current added removed l';
      Done (x' :: l'')
  end.

Definition update (o : Oracle) (current : option positive) (added removed : list positive)
    (s : t S) : outcome (t S) :=
  l ← update_all o current added removed (searchers s); Done (Mk l (index s)).

(** [searchers[0]->empty()]; there is at least one searcher. *)
Definition empty (s : t S) : bool :=
  match searchers s with x :: _ => Searcher.empty x | [] => true end.

Definition ops_of : Searcher (t S) :=
  {| Searcher.selectState := selectState; Searcher.update := update; Searcher.empty := empty |}.

Context {spec : SearcherSpec S}.

Definition held (s : t S) : list positive :=
  match searchers s with x :: _ => contents x | [] => [] end.

(** All the searchers hold the same states. *)
Definition spec_of : SearcherSpec (t S) := {|
  contents := held;
  inv s := searchers s <> [] /\ Z.of_nat (length (searchers s)) < 2 ^ 32 /\
    1 <= index s <= Z.of_nat (length (searchers s)) /\
    Forall (fun x => inv x /\ contents x ≡ₚ held s) (searchers s);
  ready s c := c ∈ held s
|}.

Context {laws : SearcherLaws S} {any : AnyReady S}.

Lemma update_all_ok o current added removed held0 (l : list S) :
  NoDup (held0 ++ added) -> NoDup removed -> removed ⊆ held0 ++ added ->
  (forall c, current = Some c -> c ∈ held0) ->
  Forall (fun x => inv x /\ contents x ≡ₚ held0) l ->
  exists l', update_all o current added removed l = Done l' /\ length l' = length l /\
    Forall (fun x => inv x /\ contents x ≡ₚ without removed (held0 ++ added)) l'.
Proof.
  intros Hn Hr Hs Hc. induction 1 as [|x l [Hi Hp] Hl IH]; [by exists []|].
  destruct (update_ok o current added removed x Hi) as (x' & E & Hi' & Hp').
  { split_and!; [by rewrite Hp|done|by rewrite Hp|].
    intros c Ec. apply any_ready; [done|]. rewrite Hp. auto. }
  destruct IH as (l' & E' & Hlen & Hl'). cbn. rewrite E. cbn. rewrite E'. cbn.
  eexists; split; [done|]. cbn. rewrite Hlen. split; [done|]. constructor; [|done].
  split; [done|]. by rewrite Hp', Hp.
Qed.

Lemma interleaved_update_of o cur added removed (s : t S) :
  @inv _ spec_of s -> @valid_update _ spec_of cur added removed s ->
  exists s', update o cur added removed s = Done s' /\ @inv _ spec_of s' /\
    held s' ≡ₚ without removed (held s ++ added).
Proof.
  intros (Hne & Hlen & Hix & Hall) (H1 & H2 & H3 & H4). cbn in H1, H2, H3, H4. unfold update.
  destruct (update_all_ok o cur added removed (held s) (searchers s)) as (l & E & Hl & Hf); auto.
  rewrite E. cbn. eexists; split; [done|].
  assert (exists x l0, l = x :: l0) as (x & l0 & ->).
  { destruct l; [|eauto]. by destruct (searchers s). }
  apply Forall_cons in Hf as Hx. destruct Hx as [[Hix' Hpx] _].
  assert (held {| searchers := x :: l0; index := index s |} ≡ₚ without removed (held s ++ added))
    as Hheld by done.
  split; [|done]. cbn [spec_of inv searchers index]. rewrite Hl. split_and!; auto; [lia..|].
  eapply Forall_impl; [apply Hf|]. intros y [? Hy]. split; [done|]. by rewrite Hy, Hheld.
Qed.

Lemma interleaved_select_of o (s : t S) :
  @inv _ spec_of s -> held s <> [] ->
  exists c s', selectState o s = Done (c, s') /\ @inv _ spec_of s' /\ c ∈ held s' /\
    c ∈ held s /\ held s' ≡ₚ held s.
Proof.
  intros (Hne & Hlen & Hix & Hall) Hh. unfold selectState.
  assert (u32 (index s - 1) = index s - 1) as -> by (apply Z.mod_small; lia).
  set (i := Z.to_nat (index s - 1)).
  destruct (lookup_lt_is_Some_2 (searchers s) i) as [x Hx]; [subst i; lia|].
  rewrite Hx. cbn. rewrite Forall_lookup in Hall. destruct (Hall _ _ Hx) as [Hi Hp].
  destruct (select_ok o x Hi) as (c & x' & E & Hi' & _ & Hc & Hp').
  { intros Ex. apply Hh. rewrite Ex in Hp. by apply Permutation_nil_l in Hp. }
  rewrite E. cbn. eexists _, _. split; [done|].
  set (l := <[i:=x']> (searchers s)).
  assert (held (Mk l (if index s - 1 =? 0 then Z.of_nat (length (searchers s)) else index s - 1))
          ≡ₚ held s) as Hheld.
  { subst l. unfold held at 1. cbn. unfold held. destruct (searchers s) as [|y l0]; [done|].
    destruct i; cbn in *; [|done]. simplify_eq. done. }
  split; [|rewrite Hheld; split; [|split; [|done]]; by rewrite <- Hp].
  cbn [spec_of inv searchers index]. assert (length l = length (searchers s)) as Hll
    by (subst l; by rewrite length_insert).
  rewrite Hll. split_and!; auto.
  - intros ->. by destruct (searchers s).
  - destruct (Z.eqb_spec (index s - 1) 0); lia.
  - destruct (Z.eqb_spec (index s - 1) 0); lia.
  - rewrite Forall_lookup. intros j y Hj. subst l. apply list_lookup_insert_Some in Hj.
    rewrite Hheld. destruct Hj as [(_ & <- & _)|[_ Hj]]; [|by apply (Hall j)].
    split; [done|]. by rewrite Hp'.
Qed.

Lemma interleaved_laws_of : @SearcherLaws (t S) ops_of spec_of.
Proof.
  split.
  - done.
  - apply interleaved_select_of.
  - apply interleaved_update_of.
  - intros s (Hne & _ & _ & Hall). cbn. unfold empty, held.
    destruct (searchers s) as [|x l]; [done|]. apply Forall_cons in Hall as [[? _] _].
    by apply empty_ok.
Qed.

Lemma interleaved_any_of : @AnyReady (t S) spec_of.
Proof. by intros s c _ H. Qed.

End Interleaved.
End InterleavedSearcher.
