(* ===== verification/CGSWorld.v ===== *)
(** Concrete-branch guided search: the state [CGSSearcher] (Searcher.cpp) and
    the handlers of Executor.cpp share, and the searcher.

    [World] joins the fields of [Executor] the searcher holds references to,
    the heap of execution states and the searcher's own containers.  An
    [unordered_set] is iterated in the order of [elements]; nothing below
    depends on which order that is.  An LLVM instruction, basic block or
    function is a [positive], and what the code asks LLVM about them is the
    class [LLVMInfo].  [erase(find(..))] of an absent element and the use of a
    null pointer are [Undefined]. *)
From stdpp Require Import base list numbers gmap strings.
From Stdlib Require Import ZArith Lia.
From S2P Require Import Prelude APInt Searcher.
Local Open Scope Z_scope.

(** ** Data *)

(** [ExecutionState::branchInfo] *)
Record branchInfo : Type := MkBranchInfo { reachStoreID : Z; targetBranchID : Z }.

#[export] Instance branchInfo_eq_dec : EqDecision branchInfo.
Proof. solve_decision. Defined.

(** The part of [ExecutionState] the search looks at. *)
Record ExecutionState : Type := MkState {
  pc : positive;
  prevPC : positive;
  coveredNew : bool;
  reachStore : bool;
  reachBranch : bool;
  branchInfos : list branchInfo;
  storeValues : gmap Z Z
}.

(** [llvm::CmpInst::Predicate], the integer comparisons. *)
Inductive Pred : Type :=
| ICMP_EQ | ICMP_NE | ICMP_UGT | ICMP_UGE | ICMP_ULT | ICMP_ULE
| ICMP_SGT | ICMP_SGE | ICMP_SLT | ICMP_SLE
| OtherPred (n : Z).

(** [Executor::BDDep]: what is known about a branch; [type] is 0 for a br and 1
    for a switch. *)
Record BDDep : Type := MkBDDep {
  type : Z;
  stores : gset Z;
  pred : Pred;
  arith_op : string;
  arith_var : Z;
  unCoveredPred : Pred;
  var : Z;
  constant : Z;
  unCoveredValues : gset Z
}.

(** The executor's side, then the searcher's own containers. *)
Record World : Type := MkWorld {
  heap : gmap positive ExecutionState;
  TB : list Z;
  FCB : list Z;
  PCB : list Z;
  targetBranchNum : Z;
  updateTargetBranch : bool;
  newFullyCoveredBranch : bool;
  newPartlyCoveredBranch : bool;
  newBranchNumFromStore : Z;
  invalidStoreValues : gmap Z (gset Z);
  funcStores : gmap positive (gset positive);
  storetTobranches : gmap Z (gset Z);
  BDDeps : gmap Z BDDep;
  BI2ID : gmap (option positive) Z;
  invalidBranches : gset Z;
  reachBranchCount : gmap Z Z;
  states : list positive;
  branch_states : list positive;
  validStoreValues : gmap Z (gset Z)
}.

Definition set_heap (v : gmap positive ExecutionState) (w : World) : World :=
  MkWorld v (TB w) (FCB w) (PCB w) (targetBranchNum w) (updateTargetBranch w) (newFullyCoveredBranch w) (newPartlyCoveredBranch w) (newBranchNumFromStore w) (invalidStoreValues w) (funcStores w) (storetTobranches w) (BDDeps w) (BI2ID w) (invalidBranches w) (reachBranchCount w) (states w) (branch_states w) (validStoreValues w).
Definition set_TB (v : list Z) (w : World) : World :=
  MkWorld (heap w) v (FCB w) (PCB w) (targetBranchNum w) (updateTargetBranch w) (newFullyCoveredBranch w) (newPartlyCoveredBranch w) (newBranchNumFromStore w) (invalidStoreValues w) (funcStores w) (storetTobranches w) (BDDeps w) (BI2ID w) (invalidBranches w) (reachBranchCount w) (states w) (branch_states w) (validStoreValues w).
Definition set_FCB (v : list Z) (w : World) : World :=
  MkWorld (heap w) (TB w) v (PCB w) (targetBranchNum w) (updateTargetBranch w) (newFullyCoveredBranch w) (newPartlyCoveredBranch w) (newBranchNumFromStore w) (invalidStoreValues w) (funcStores w) (storetTobranches w) (BDDeps w) (BI2ID w) (invalidBranches w) (reachBranchCount w) (states w) (branch_states w) (validStoreValues w).
Definition set_PCB (v : list Z) (w : World) : World :=
  MkWorld (heap w) (TB w) (FCB w) v (targetBranchNum w) (updateTargetBranch w) (newFullyCoveredBranch w) (newPartlyCoveredBranch w) (newBranchNumFromStore w) (invalidStoreValues w) (funcStores w) (storetTobranches w) (BDDeps w) (BI2ID w) (invalidBranches w) (reachBranchCount w) (states w) (branch_states w) (validStoreValues w).
Definition set_targetBranchNum (v : Z) (w : World) : World :=
  MkWorld (heap w) (TB w) (FCB w) (PCB w) v (updateTargetBranch w) (newFullyCoveredBranch w) (newPartlyCoveredBranch w) (newBranchNumFromStore w) (invalidStoreValues w) (funcStores w) (storetTobranches w) (BDDeps w) (BI2ID w) (invalidBranches w) (reachBranchCount w) (states w) (branch_states w) (validStoreValues w).
Definition set_updateTargetBranch (v : bool) (w : World) : World :=
  MkWorld (heap w) (TB w) (FCB w) (PCB w) (targetBranchNum w) v (newFullyCoveredBranch w) (newPartlyCoveredBranch w) (newBranchNumFromStore w) (invalidStoreValues w) (funcStores w) (storetTobranches w) (BDDeps w) (BI2ID w) (invalidBranches w) (reachBranchCount w) (states w) (branch_states w) (validStoreValues w).
Definition set_newFullyCoveredBranch (v : bool) (w : World) : World :=
  MkWorld (heap w) (TB w) (FCB w) (PCB w) (targetBranchNum w) (updateTargetBranch w) v (newPartlyCoveredBranch w) (newBranchNumFromStore w) (invalidStoreValues w) (funcStores w) (storetTobranches w) (BDDeps w) (BI2ID w) (invalidBranches w) (reachBranchCount w) (states w) (branch_states w) (validStoreValues w).
Definition set_newPartlyCoveredBranch (v : bool) (w : World) : World :=
  MkWorld (heap w) (TB w) (FCB w) (PCB w) (targetBranchNum w) (updateTargetBranch w) (newFullyCoveredBranch w) v (newBranchNumFromStore w) (invalidStoreValues w) (funcStores w) (storetTobranches w) (BDDeps w) (BI2ID w) (invalidBranches w) (reachBranchCount w) (states w) (branch_states w) (validStoreValues w).
Definition set_newBranchNumFromStore (v : Z) (w : World) : World :=
  MkWorld (heap w) (TB w) (FCB w) (PCB w) (targetBranchNum w) (updateTargetBranch w) (newFullyCoveredBranch w) (newPartlyCoveredBranch w) v (invalidStoreValues w) (funcStores w) (storetTobranches w) (BDDeps w) (BI2ID w) (invalidBranches w) (reachBranchCount w) (states w) (branch_states w) (validStoreValues w).
Definition set_invalidStoreValues (v : gmap Z (gset Z)) (w : World) : World :=
  MkWorld (heap w) (TB w) (FCB w) (PCB w) (targetBranchNum w) (updateTargetBranch w) (newFullyCoveredBranch w) (newPartlyCoveredBranch w) (newBranchNumFromStore w) v (funcStores w) (storetTobranches w) (BDDeps w) (BI2ID w) (invalidBranches w) (reachBranchCount w) (states w) (branch_states w) (validStoreValues w).
Definition set_funcStores (v : gmap positive (gset positive)) (w : World) : World :=
  MkWorld (heap w) (TB w) (FCB w) (PCB w) (targetBranchNum w) (updateTargetBranch w) (newFullyCoveredBranch w) (newPartlyCoveredBranch w) (newBranchNumFromStore w) (invalidStoreValues w) v (storetTobranches w) (BDDeps w) (BI2ID w) (invalidBranches w) (reachBranchCount w) (states w) (branch_states w) (validStoreValues w).
Definition set_storetTobranches (v : gmap Z (gset Z)) (w : World) : World :=
  MkWorld (heap w) (TB w) (FCB w) (PCB w) (targetBranchNum w) (updateTargetBranch w) (newFullyCoveredBranch w) (newPartlyCoveredBranch w) (newBranchNumFromStore w) (invalidStoreValues w) (funcStores w) v (BDDeps w) (BI2ID w) (invalidBranches w) (reachBranchCount w) (states w) (branch_states w) (validStoreValues w).
Definition set_BDDeps (v : gmap Z BDDep) (w : World) : World :=
  MkWorld (heap w) (TB w) (FCB w) (PCB w) (targetBranchNum w) (updateTargetBranch w) (newFullyCoveredBranch w) (newPartlyCoveredBranch w) (newBranchNumFromStore w) (invalidStoreValues w) (funcStores w) (storetTobranches w) v (BI2ID w) (invalidBranches w) (reachBranchCount w) (states w) (branch_states w) (validStoreValues w).
Definition set_BI2ID (v : gmap (option positive) Z) (w : World) : World :=
  MkWorld (heap w) (TB w) (FCB w) (PCB w) (targetBranchNum w) (updateTargetBranch w) (newFullyCoveredBranch w) (newPartlyCoveredBranch w) (newBranchNumFromStore w) (invalidStoreValues w) (funcStores w) (storetTobranches w) (BDDeps w) v (invalidBranches w) (reachBranchCount w) (states w) (branch_states w) (validStoreValues w).
Definition set_invalidBranches (v : gset Z) (w : World) : World :=
  MkWorld (heap w) (TB w) (FCB w) (PCB w) (targetBranchNum w) (updateTargetBranch w) (newFullyCoveredBranch w) (newPartlyCoveredBranch w) (newBranchNumFromStore w) (invalidStoreValues w) (funcStores w) (storetTobranches w) (BDDeps w) (BI2ID w) v (reachBranchCount w) (states w) (branch_states w) (validStoreValues w).
Definition set_reachBranchCount (v : gmap Z Z) (w : World) : World :=
  MkWorld (heap w) (TB w) (FCB w) (PCB w) (targetBranchNum w) (updateTargetBranch w) (newFullyCoveredBranch w) (newPartlyCoveredBranch w) (newBranchNumFromStore w) (invalidStoreValues w) (funcStores w) (storetTobranches w) (BDDeps w) (BI2ID w) (invalidBranches w) v (states w) (branch_states w) (validStoreValues w).
Definition set_states (v : list positive) (w : World) : World :=
  MkWorld (heap w) (TB w) (FCB w) (PCB w) (targetBranchNum w) (updateTargetBranch w) (newFullyCoveredBranch w) (newPartlyCoveredBranch w) (newBranchNumFromStore w) (invalidStoreValues w) (funcStores w) (storetTobranches w) (BDDeps w) (BI2ID w) (invalidBranches w) (reachBranchCount w) v (branch_states w) (validStoreValues w).
Definition set_branch_states (v : list positive) (w : World) : World :=
  MkWorld (heap w) (TB w) (FCB w) (PCB w) (targetBranchNum w) (updateTargetBranch w) (newFullyCoveredBranch w) (newPartlyCoveredBranch w) (newBranchNumFromStore w) (invalidStoreValues w) (funcStores w) (storetTobranches w) (BDDeps w) (BI2ID w) (invalidBranches w) (reachBranchCount w) (states w) v (validStoreValues w).
Definition set_validStoreValues (v : gmap Z (gset Z)) (w : World) : World :=
  MkWorld (heap w) (TB w) (FCB w) (PCB w) (targetBranchNum w) (updateTargetBranch w) (newFullyCoveredBranch w) (newPartlyCoveredBranch w) (newBranchNumFromStore w) (invalidStoreValues w) (funcStores w) (storetTobranches w) (BDDeps w) (BI2ID w) (invalidBranches w) (reachBranchCount w) (states w) (branch_states w) v.

(** The questions put to LLVM. *)
Class LLVMInfo : Type := {
  inst_block : positive -> positive;
  block_function : positive -> positive;
  isBranchInst : positive -> bool
}.

(** The tables filled when the module is loaded. *)
Class CGSTables : Type := {
  ID2BI : gmap Z positive;
  ID2SI : gmap Z positive;
  SI2ID : gmap positive Z;
  storesWithSameVar : gmap Z (gset Z)
}.

(** Updates of one execution state. *)
Definition set_flags (store branch : bool) (e : ExecutionState) : ExecutionState :=
  MkState (pc e) (prevPC e) (coveredNew e) store branch (branchInfos e) (storeValues e).
Definition set_branchInfos (l : list branchInfo) (e : ExecutionState) : ExecutionState :=
  MkState (pc e) (prevPC e) (coveredNew e) (reachStore e) (reachBranch e) l (storeValues e).
Definition set_storeValues (m : gmap Z Z) (e : ExecutionState) : ExecutionState :=
  MkState (pc e) (prevPC e) (coveredNew e) (reachStore e) (reachBranch e) (branchInfos e) m.

(** [x] pushed to [e->branchInfos]. *)
Definition push_info (x : branchInfo) (e : ExecutionState) : ExecutionState :=
  set_branchInfos (branchInfos e ++ [x]) e.

(** The object behind a pointer, and a store to it. *)
Definition get (s : positive) (w : World) : outcome ExecutionState := deref (heap w !! s).
Definition put (s : positive) (e : ExecutionState) (w : World) : World :=
  set_heap (<[s := e]> (heap w)) w.

(** The element behind [map[key]] where values are sets. *)
Definition at_set {K A} `{Countable K, Countable A} (m : gmap K (gset A)) (k : K) : gset A :=
  default ∅ (m !! k).

(** Erasing the first element that satisfies [p]: [None] when there is none. *)
Fixpoint erase_first {A} (p : A -> bool) (l : list A) : option (list A) :=
  match l with
  | [] => None
  | x :: l' => if p x then Some l' else (x ::.) <$> erase_first p l'
  end.
