(* ===== verification/CGSSearcher.v ===== *)
(** [CGSSearcher] of Searcher.cpp: states that may reach an uncovered side of a
    concrete branch are kept in [branch_states] and run first. *)
From stdpp Require Import base list numbers gmap strings.
From Stdlib Require Import ZArith Lia.
From S2P Require Import Prelude APInt Searcher CGSWorld.
Local Open Scope Z_scope.

Section CGS.
Context {LI : LLVMInfo} {CT : CGSTables}.

(** ** selectState, empty *)

Definition CGS_selectState (w : World) : outcome positive :=
  if negb (bool_decide (branch_states w = []))
  then deref (head (branch_states w)) else deref (head (states w)).

Definition CGS_empty (w : World) : bool :=
  bool_decide (states w = []) && bool_decide (branch_states w = []).

(** ** isNewStoreValue *)

(** The comparison of a stored value with the constant of the branch.  The
    code compares two [signed] for every predicate. *)
Definition pred_holds (p : Pred) (value constant : Z) : bool :=
  match p with
  | ICMP_EQ => value =? constant
  | ICMP_NE => negb (value =? constant)
  | ICMP_SGT | ICMP_UGT => constant <? value
  | ICMP_SLT | ICMP_ULT => value <? constant
  | ICMP_SGE | ICMP_UGE => constant <=? value
  | ICMP_SLE | ICMP_ULE => value <=? constant
  | OtherPred _ => false
  end.

(** The arithmetic between the variable and the comparison. *)
Definition arith_value (d : BDDep) (value : Z) : Z :=
  let v := if decide (arith_op d = "and"%string) then Z.land value (arith_var d) else value in
  if decide (arith_op d = "or"%string) then Z.lor v (arith_var d) else v.

(** The value the caches are asked for, and whether it may cover the branch,
    with the value that goes in the caches. *)
Definition judge (d : BDDep) (value : Z) : bool * Z :=
  if negb (type d =? 0) then (bool_decide (value ∈ unCoveredValues d), value)
  else let v := arith_value d value in (pred_holds (unCoveredPred d) v (constant d), v).

Definition isNewStoreValue (s : positive) (bid sid : Z) (w : World) : outcome (bool * World) :=
  e ← get s w;
  let raw := default 0 (storeValues e !! sid) in
  let value := to_signed 32 raw in
  let w := put s (set_storeValues (<[sid := raw]> (storeValues e)) e) w in
  match invalidStoreValues w !! bid with
  | None =>
      Done (true, set_invalidStoreValues (<[bid := {[value]}]> (invalidStoreValues w)) w)
  | Some invalid =>
      r ← (if decide (value ∈ invalid) then Done (false, value)
           else if decide (value ∈ at_set (validStoreValues w) bid) then Done (true, value)
           else d ← deref (BDDeps w !! bid); Done (judge d value));
      let '(find_new, value) := (r : bool * Z) in
      if find_new
      then Done (true, set_validStoreValues
             (<[bid := {[value]} ∪ at_set (validStoreValues w) bid]> (validStoreValues w)) w)
      else Done (false, set_invalidStoreValues
             (<[bid := {[value]} ∪ invalid]> (invalidStoreValues w)) w)
  end.

(** ** handlePartlyCoveredBranch *)

(** Moving a state from [states] to the back of [branch_states]. *)
Definition promote (s : positive) (w : World) : World :=
  match vec_erase s (states w) with
  | Some l => set_branch_states (branch_states w ++ [s]) (set_states l w)
  | None => w
  end.

(** The first loop: the current state gets one [branchInfo] per store. *)
Fixpoint target_current (current : option positive) (bid : Z) (sids : list Z) (w : World)
    : outcome World :=
  match sids with
  | [] => Done w
  | sid :: sids' =>
      c ← deref current;
      e ← get c w;
      w ← (if decide (is_Some (storeValues e !! sid))
           then r ← isNewStoreValue c bid sid w; Done (r : bool * World).2
           else Done w);
      e ← get c w;
      target_current current bid sids' (put c (push_info (MkBranchInfo sid bid) e) w)
  end.

(** The loop over [states] for one store: the states it keeps there, and the
    world after the others have gone to [branch_states]. *)
Fixpoint claim_states (current : option positive) (bid sid : Z) (l : list positive) (w : World)
    : outcome (list positive * World) :=
  match l with
  | [] => Done ([], w)
  | s :: l' =>
      if decide (Some s = current)
      then r ← claim_states current bid sid l' w; Done (s :: r.1, r.2)
      else
        e ← get s w;
        r ← (if decide (is_Some (storeValues e !! sid))
             then isNewStoreValue s bid sid w else Done (false, w));
        let '(new, w) := (r : bool * World) in
        if new then
          e ← get s w;
          let e := push_info (MkBranchInfo sid bid) (set_flags false false e) in
          claim_states current bid sid l' (set_branch_states (branch_states w ++ [s]) (put s e w))
        else r ← claim_states current bid sid l' w; Done (s :: r.1, r.2)
  end.

Fixpoint claim_all (current : option positive) (bid : Z) (sids : list Z) (w : World)
    : outcome World :=
  match sids with
  | [] => Done w
  | sid :: sids' =>
      r ← claim_states current bid sid (states w) w;
      claim_all current bid sids' (set_states (r : list positive * World).1 r.2)
  end.

Definition handlePartlyCoveredBranch (current : option positive) (bid : Z) (w : World)
    : outcome World :=
  d ← deref (BDDeps w !! bid);
  let sids := elements (stores d) in
  w ← target_current current bid sids w;
  let w := match current with Some c => promote c w | None => w end in
  claim_all current bid sids w.

(** ** handleFullyCoveredBranch *)

(** The first loop: the branch leaves the stores it depends on; a store no
    branch depends on any more leaves its function. *)
Fixpoint release_stores (bid : Z) (F : positive) (sids : list Z) (w : World) (remove_sv : list Z)
    : World * list Z :=
  match sids with
  | [] => (w, remove_sv)
  | sid :: sids' =>
      let left := at_set (storetTobranches w) sid ∖ {[bid]} in
      let w := set_storetTobranches (<[sid := left]> (storetTobranches w)) w in
      if decide (left = ∅) then
        let fs := at_set (funcStores w) F in
        let fs := match ID2SI !! sid with Some SI => fs ∖ {[SI]} | None => fs end in
        release_stores bid F sids' (set_funcStores (<[F := fs]> (funcStores w)) w) (remove_sv ++ [sid])
      else release_stores bid F sids' w remove_sv
  end.

Definition drop_values (sids : list Z) (m : gmap Z Z) : gmap Z Z :=
  foldr (fun sid m => delete sid m) m sids.

Definition drop_target (bid : Z) (l : list branchInfo) : list branchInfo :=
  default l (erase_first (fun b => targetBranchID b =? bid) l).

(** The loop over [branch_states]: the states it keeps there, the states that
    go back, and the world. *)
Fixpoint release_states (current : positive) (bid : Z) (remove_sv : list Z) (l : list positive)
    (w : World) : outcome (list positive * World) :=
  match l with
  | [] => Done ([], w)
  | s :: l' =>
      e ← get s w;
      let e := set_storeValues (drop_values remove_sv (storeValues e)) e in
      let e := set_branchInfos (drop_target bid (branchInfos e)) e in
      let w := put s e w in
      if negb (bool_decide (s = current)) && bool_decide (branchInfos e = [])
      then release_states current bid remove_sv l' (set_states (states w ++ [s]) w)
      else r ← release_states current bid remove_sv l' w; Done (s :: r.1, r.2)
  end.

Definition handleFullyCoveredBranch (current : positive) (bid : Z) (w : World) : outcome World :=
  I ← deref (ID2BI !! bid);
  let F := block_function (inst_block I) in
  d ← deref (BDDeps w !! bid);
  let '(w, remove_sv) := release_stores bid F (elements (stores d)) w [] in
  r ← release_states current bid remove_sv (branch_states w) w;
  Done (set_branch_states (r : list positive * World).1 r.2).

(** ** update *)

(** Breadth first: a state that forked goes to the back of its container. *)
Definition requeue (c : positive) (added : list positive) (w : World) : outcome World :=
  if bool_decide (added = []) then Done w
  else if bool_decide (branch_states w = [])
  then l ← deref (vec_erase c (states w)); Done (set_states (l ++ [c]) w)
  else l ← deref (vec_erase c (branch_states w)); Done (set_branch_states (l ++ [c]) w).

(** A state with no target branch left goes back to [states]: to its front
    after it covered the branch, to its back otherwise. *)
Definition demote (front : bool) (c : positive) (w : World) : World :=
  match vec_erase c (branch_states w) with
  | Some l => set_states (if front then c :: states w else states w ++ [c]) (set_branch_states l w)
  | None => w
  end.

Definition on_reach_branch (c : positive) (w : World) : outcome World :=
  e ← get c w;
  if negb (reachBranch e) then Done w
  else
    w ← (if newFullyCoveredBranch w then
           bid ← deref (last (FCB w));
           w ← handleFullyCoveredBranch c bid w;
           e ← get c w;
           let w := if bool_decide (branchInfos e = []) then demote true c w else w in
           Done (set_newFullyCoveredBranch false w)
         else
           let BI := if isBranchInst (prevPC e) then Some (prevPC e) else None in
           let past := default 0 (BI2ID w !! BI) in
           let w := set_BI2ID (<[BI := past]> (BI2ID w)) w in
           let e := set_branchInfos (drop_target past (branchInfos e)) e in
           let w := put c e w in
           Done (if bool_decide (branchInfos e = []) then demote false c w else w));
    e ← get c w;
    Done (put c (set_flags (reachStore e) false e) w).

(** The loop over the pairs the last store added. *)
Fixpoint keep_new (c : positive) (l : list branchInfo) (w : World)
    : outcome (list branchInfo * World) :=
  match l with
  | [] => Done ([], w)
  | b :: l' =>
      r ← isNewStoreValue c (targetBranchID b) (reachStoreID b) w;
      let '(new, w) := (r : bool * World) in
      if new then r ← keep_new c l' (promote c w); Done (b :: r.1, r.2)
      else keep_new c l' w
  end.

(** [begin() + (size() - newBranchNumFromStore)] is outside of the container
    when more pairs are announced than there are. *)
Definition on_reach_store (c : positive) (w : World) : outcome World :=
  e ← get c w;
  if negb (reachStore e) then Done w
  else
    let size := Z.of_nat (length (branchInfos e)) in
    if newBranchNumFromStore w <=? size then
      let k := Z.to_nat (size - newBranchNumFromStore w) in
      r ← keep_new c (drop k (branchInfos e)) w;
      let w := (r : list branchInfo * World).2 in
      e' ← get c w;
      let e' := set_flags false (reachBranch e') (set_branchInfos (take k (branchInfos e) ++ r.1) e') in
      Done (set_newBranchNumFromStore 0 (put c e' w))
    else Undefined.

Definition on_new_target (c : positive) (w : World) : outcome World :=
  match last (TB w) with
  | Some bid =>
      if newPartlyCoveredBranch w
      then w ← handlePartlyCoveredBranch (Some c) bid w;
           Done (set_newPartlyCoveredBranch false w)
      else Done w
  | None => Done w
  end.

(** The states of [branch_states] forget their targets; those that did not
    cover anything new go back to [states]. *)
Fixpoint forget_targets (l : list positive) (w : World) : outcome (list positive * World) :=
  match l with
  | [] => Done ([], w)
  | s :: l' =>
      e ← get s w;
      let w := put s (set_branchInfos [] e) w in
      if coveredNew e then r ← forget_targets l' w; Done (s :: r.1, r.2)
      else forget_targets l' (set_states (states w ++ [s]) w)
  end.

(** [while (n < targetBranchNum)], [k] rounds before the bound. *)
Fixpoint retarget (k : nat) (current : option positive) (w : World) : outcome World :=
  match k with
  | O => Done w
  | S k =>
      match last (PCB w) with
      | None => Done w
      | Some bid =>
          let w := set_TB (TB w ++ [bid]) (set_PCB (removelast (PCB w)) w) in
          w ← handlePartlyCoveredBranch current bid w;
          retarget k current w
      end
  end.

Definition refresh_targets (current : option positive) (w : World) : outcome World :=
  if updateTargetBranch w then
    r ← forget_targets (branch_states w) w;
    let w := set_TB [] (set_branch_states (r : list positive * World).1 r.2) in
    w ← retarget (Z.to_nat (targetBranchNum w)) current w;
    Done (set_updateTargetBranch false w)
  else Done w.

(** Whether a state starts in a block with a store some branch waits for. *)
Definition runs_store (w : World) (func_stores : gset positive) (e : ExecutionState) : bool :=
  existsb (fun SI =>
    negb (bool_decide (at_set (storetTobranches w) (default 0 (SI2ID !! SI)) = ∅)) &&
    (inst_block SI =? inst_block (pc e))%positive) (elements func_stores).

Fixpoint add_states (func_stores : gset positive) (added : list positive) (w : World)
    : outcome World :=
  match added with
  | [] => Done w
  | s :: added' =>
      e ← get s w;
      add_states func_stores added'
        (if negb (bool_decide (branchInfos e = [])) || runs_store w func_stores e
         then set_branch_states (branch_states w ++ [s]) w
         else set_states (states w ++ [s]) w)
  end.

Definition add_all (current : option positive) (added : list positive) (w : World) : outcome World :=
  match current with
  | None => Done (set_states (states w ++ added) w)
  | Some c =>
      e ← get c w;
      let F := block_function (inst_block (pc e)) in
      add_states (at_set (funcStores w) F) added w
  end.

Fixpoint remove_all (removed : list positive) (w : World) : World :=
  match removed with
  | [] => w
  | s :: removed' =>
      remove_all removed'
        match vec_erase s (branch_states w) with
        | Some l => set_branch_states l w
        | None => match vec_erase s (states w) with
                  | Some l => set_states l w
                  | None => w
                  end
        end
  end.

Definition CGS_update (current : option positive) (added removed : list positive) (w : World)
    : outcome World :=
  w ← match current with
      | Some c =>
          if bool_decide (c ∉ removed) then
            w ← requeue c added w;
            w ← on_reach_branch c w;
            w ← on_reach_store c w;
            on_new_target c w
          else Done w
      | None => Done w
      end;
  w ← refresh_targets current w;
  w ← add_all current added w;
  Done (remove_all removed w).

End CGS.
