(* ===== verification/CGSContract.v ===== *)
(** [CGSSearcher] keeps the contract of a searcher: [update] is defined, and
    the two containers together hold exactly the states they should. *)
From stdpp Require Import base list numbers gmap strings.
From Stdlib Require Import ZArith Lia.
From S2P Require Import Prelude APInt Searcher CGSWorld CGSSearcher.
Local Open Scope Z_scope.

Section Contract.
Context {LI : LLVMInfo} {CT : CGSTables}.

(** ** What the handlers rely on *)

Definition held (w : World) : list positive := states w ++ branch_states w.

Definition known (w : World) (bid : Z) : Prop := is_Some (BDDeps w !! bid).

(** The branches execution states wait for are known. *)
Definition infos_known (w : World) : Prop :=
  forall s e, heap w !! s = Some e -> Forall (fun b => known w (targetBranchID b)) (branchInfos e).

Record world_ok (w : World) : Prop := MkWorldOk {
  ok_nodup : NoDup (held w);
  ok_heap : forall s, s ∈ held w -> is_Some (heap w !! s);
  ok_infos : infos_known w;
  ok_targets : forall bid, bid ∈ TB w ++ PCB w -> known w bid;
  ok_covered : newFullyCoveredBranch w = true ->
    exists bid, last (FCB w) = Some bid /\ known w bid /\ is_Some (ID2BI !! bid)
}.

(** What no part of [update] touches, whatever it does with the containers. *)
Record frame (w w' : World) : Prop := MkFrame {
  fr_dom : dom (heap w') = dom (heap w);
  fr_deps : BDDeps w' = BDDeps w;
  fr_fcb : FCB w' = FCB w;
  fr_full : newFullyCoveredBranch w' = true -> newFullyCoveredBranch w = true;
  fr_targets : forall bid, bid ∈ TB w' ++ PCB w' -> bid ∈ TB w ++ PCB w;
  fr_infos : infos_known w -> infos_known w';
  fr_store : forall s e', heap w' !! s = Some e' -> reachStore e' = true ->
    exists e, heap w !! s = Some e /\ reachStore e = true
}.

#[export] Instance frame_refl : Reflexive frame.
Proof. split; eauto. Qed.

#[export] Instance frame_trans : Transitive frame.
Proof.
  intros w1 w2 w3 [A1 A2 A3 A4 A5 A6 A7] [B1 B2 B3 B4 B5 B6 B7].
  split; try congruence; try naive_solver.
Qed.

Definition same_lists (w w' : World) : Prop :=
  states w' = states w /\ branch_states w' = branch_states w.

(** A handler that may also move states between the containers. *)
Definition moves (w w' : World) : Prop := frame w w' /\ held w' ≡ₚ held w.

#[export] Instance moves_refl : Reflexive moves.
Proof. by split. Qed.

#[export] Instance moves_trans : Transitive moves.
Proof. intros w1 w2 w3 [? H1] [? H2]. split; [by etrans|]. by rewrite H2. Qed.

Lemma frame_known w w' bid : frame w w' -> known w' bid <-> known w bid.
Proof. intros F. unfold known. by rewrite (fr_deps _ _ F). Qed.

Lemma frame_heap w w' s : frame w w' -> is_Some (heap w' !! s) <-> is_Some (heap w !! s).
Proof. intros F. by rewrite <- !elem_of_dom, (fr_dom _ _ F). Qed.

Lemma moves_ok w w' : world_ok w -> moves w w' -> world_ok w'.
Proof.
  intros [O1 O2 O3 O4 O5] [F Hp]. split.
  - by rewrite Hp.
  - intros s. rewrite Hp, frame_heap by done. apply O2.
  - by apply (fr_infos _ _ F).
  - intros bid Hb. rewrite frame_known by done. by apply O4, (fr_targets _ _ F).
  - intros Hf. apply (fr_full _ _ F), O5 in Hf as (bid & ? & ? & ?).
    exists bid. rewrite (fr_fcb _ _ F), frame_known by done. auto.
Qed.

(** Changes outside of the heap and the executor's lists. *)
Lemma frame_same w w' :
  heap w' = heap w -> BDDeps w' = BDDeps w -> FCB w' = FCB w -> TB w' = TB w -> PCB w' = PCB w ->
  (newFullyCoveredBranch w' = true -> newFullyCoveredBranch w = true) -> frame w w'.
Proof.
  intros H1 H2 H3 H4 H5 H6. split; rewrite ?H1, ?H4, ?H5; eauto.
  intros Hi s e. rewrite H1. intros He. specialize (Hi s e He). unfold known in *. by rewrite H2.
Qed.

(** A store to one execution state. *)
Lemma frame_put s e e' w :
  heap w !! s = Some e -> (reachStore e' = true -> reachStore e = true) ->
  (infos_known w -> Forall (fun b => known w (targetBranchID b)) (branchInfos e')) ->
  frame w (put s e' w).
Proof.
  intros He Hst Hin. split; try done.
  - cbn. rewrite dom_insert_L. apply elem_of_dom_2 in He. set_solver.
  - intros Hi s' e0. cbn. rewrite lookup_insert_Some. intros [[<- <-]|[? H]]; [auto|by apply (Hi s')].
  - intros s' e0. cbn. rewrite lookup_insert_Some. intros [[<- <-]|[? H]]; eauto.
Qed.

Lemma frame_put_eq s e e' w :
  heap w !! s = Some e -> reachStore e' = reachStore e -> branchInfos e' = branchInfos e ->
  frame w (put s e' w).
Proof.
  intros He Hst Hin. apply (frame_put s e); [done|congruence|]. intros Hi. rewrite Hin.
  by apply (Hi s).
Qed.

(** ** isNewStoreValue *)

(** The flags and the targets of [s] stay. *)
Definition same_entry (s : positive) (w w' : World) : Prop :=
  forall e, heap w !! s = Some e -> exists e', heap w' !! s = Some e' /\
    branchInfos e' = branchInfos e /\ reachStore e' = reachStore e /\ reachBranch e' = reachBranch e.

Lemma isNewStoreValue_ok s bid sid w :
  is_Some (heap w !! s) -> known w bid ->
  exists b w', isNewStoreValue s bid sid w = Done (b, w') /\ frame w w' /\ same_lists w w' /\
    same_entry s w w'.
Proof.
  intros [e He] [d Hd]. unfold isNewStoreValue, get. rewrite He. cbn [deref mbind outcome_bind].
  set (v := to_signed 32 _). set (e' := set_storeValues _ e). set (w1 := put s e' w).
  assert (frame w w1) as F1 by (by apply (frame_put_eq s e)).
  assert (same_entry s w w1) as Hs.
  { intros e0 He0. simplify_eq. exists e'. split; [|done]. subst w1. cbn. by rewrite lookup_insert_eq. }
  assert (forall w2 (b : bool), heap w2 = heap w1 -> frame w1 w2 -> same_lists w1 w2 ->
    exists b' w', Done (b, w2) = Done (b', w') /\ frame w w' /\ same_lists w w' /\ same_entry s w w')
    as Hend.
  { intros w2 b Hh F2 [? ?]. exists b, w2. unfold same_entry.
    split_and!; [done|by etrans|done|by rewrite Hh]. }
  destruct (invalidStoreValues w1 !! bid) as [inv|]; [|apply Hend; [done|by apply frame_same|done]].
  assert (exists fv, (if decide (v ∈ inv) then Done (false, v)
    else if decide (v ∈ at_set (validStoreValues w1) bid) then Done (true, v)
    else d ← deref (BDDeps w1 !! bid); Done (judge d v)) = Done fv) as ([b u] & ->).
  { repeat case_decide; eauto. cbn. rewrite Hd. cbn. eauto. }
  cbn [mbind outcome_bind]. destruct b; (apply Hend; [done|by apply frame_same|done]).
Qed.

(** ** handlePartlyCoveredBranch *)

Lemma push_info_infos w e sid bid :
  known w bid -> Forall (fun b => known w (targetBranchID b)) (branchInfos e) ->
  Forall (fun b => known w (targetBranchID b)) (branchInfos (push_info (MkBranchInfo sid bid) e)).
Proof. intros. cbn. apply Forall_app. auto. Qed.

Lemma target_current_ok c bid sids w :
  is_Some (heap w !! c) -> known w bid ->
  exists w', target_current (Some c) bid sids w = Done w' /\ frame w w' /\ same_lists w w'.
Proof.
  revert w. induction sids as [|sid sids IH]; intros w [e He] Hk; [by exists w|].
  cbn [target_current deref mbind outcome_bind]. unfold get. rewrite He. cbn [deref mbind outcome_bind].
  assert (exists w1, (if decide (is_Some (storeValues e !! sid))
    then r ← isNewStoreValue c bid sid w; Done r.2 else Done w) = Done w1 /\
    frame w w1 /\ same_lists w w1) as (w1 & -> & F1 & L1).
  { case_decide; [|by exists w].
    destruct (isNewStoreValue_ok c bid sid w) as (b & w1 & -> & ? & ? & _); eauto. }
  cbn [mbind outcome_bind].
  destruct (proj2 (frame_heap w w1 c F1) ltac:(eauto)) as [e1 He1]. rewrite He1.
  cbn [deref mbind outcome_bind].
  assert (known w1 bid) as Hk1 by (by apply (frame_known w w1)).
  assert (frame w1 (put c (push_info (MkBranchInfo sid bid) e1) w1)) as F2.
  { apply (frame_put c e1); [done|done|]. intros Hi. apply push_info_infos; [done|by apply (Hi c)]. }
  destruct (IH (put c (push_info (MkBranchInfo sid bid) e1) w1)) as (w' & -> & F3 & L3).
  { apply (frame_heap _ _ _ F2). eauto. }
  { done. }
  exists w'. split; [done|]. split; [by do 2 (etrans; [done|])|].
  destruct L1, L3. split; cbn in *; congruence.
Qed.

Lemma promote_moves c w : moves w (promote c w).
Proof.
  unfold promote. destruct (vec_erase c (states w)) as [l|] eqn:E; [|done].
  split; [by apply frame_same|]. unfold held. cbn.
  rewrite (vec_erase_perm _ _ _ E). rewrite (comm (++) (branch_states w)). cbn.
  by rewrite Permutation_middle.
Qed.

(** The loop over [states] moves each state to one of the two containers. *)
Lemma claim_states_ok current bid sid l w :
  (forall s, s ∈ l -> is_Some (heap w !! s)) -> known w bid ->
  exists kept w', claim_states current bid sid l w = Done (kept, w') /\ frame w w' /\
    states w' = states w /\ kept ++ branch_states w' ≡ₚ l ++ branch_states w.
Proof.
  revert w. induction l as [|s l IH]; intros w Hl Hk; [by exists [], w|].
  assert (forall w1, frame w w1 -> same_lists w w1 ->
    exists kept w', (r ← claim_states current bid sid l w1; Done (s :: r.1, r.2)) = Done (kept, w') /\
      frame w w' /\ states w' = states w /\ kept ++ branch_states w' ≡ₚ s :: l ++ branch_states w)
    as Hkeep.
  { intros w1 F1 [L1 L2].
    destruct (IH w1) as (kept & w' & -> & F & Hs & Hp).
    { intros s' Hs'. rewrite frame_heap by done. set_solver. }
    { by apply (frame_known w w1). }
    cbn. eexists _, _. split; [done|]. split; [by etrans|]. split; [congruence|].
    cbn. by rewrite Hp, L2. }
  cbn [claim_states]. case_decide; [by apply Hkeep|].
  destruct (Hl s ltac:(set_solver)) as [e He]. unfold get. rewrite He. cbn [deref mbind outcome_bind].
  assert (exists b w1, (if decide (is_Some (storeValues e !! sid))
    then isNewStoreValue s bid sid w else Done (false, w)) = Done (b, w1) /\
    frame w w1 /\ same_lists w w1) as (b & w1 & -> & F1 & L1).
  { case_decide; [|by exists false, w].
    destruct (isNewStoreValue_ok s bid sid w) as (b & w1 & -> & ? & ? & _); eauto. }
  cbn [mbind outcome_bind]. destruct b; [|by apply Hkeep].
  destruct (proj2 (frame_heap w w1 s F1) ltac:(eauto)) as [e1 He1]. unfold get. rewrite He1.
  cbn [deref mbind outcome_bind]. set (e2 := push_info _ _).
  assert (known w1 bid) as Hk1 by (by apply (frame_known w w1)).
  assert (frame w1 (put s e2 w1)) as F2.
  { apply (frame_put s e1); [done|done|]. intros Hi. apply push_info_infos; [done|exact (Hi s e1 He1)]. }
  set (w2 := set_branch_states _ (put s e2 w1)).
  assert (frame w1 w2) as F3 by (etrans; [apply F2|by apply frame_same]).
  destruct (IH w2) as (kept & w' & -> & F & Hs & Hp).
  { intros s' Hs'. rewrite (frame_heap w1 w2), (frame_heap w w1) by done. set_solver. }
  { by apply (frame_known w1 w2). }
  exists kept, w'. split; [done|]. split; [by do 2 (etrans; [done|])|].
  destruct L1 as [L1 L2]. subst w2. cbn in Hs, Hp. split; [congruence|].
  rewrite Hp, L2. rewrite (assoc (++)), (comm (++) _ [s]). done.
Qed.

Lemma claim_all_ok current bid sids w :
  (forall s, s ∈ held w -> is_Some (heap w !! s)) -> known w bid ->
  exists w', claim_all current bid sids w = Done w' /\ moves w w'.
Proof.
  revert w. induction sids as [|sid sids IH]; intros w Hh Hk; [by exists w|]. cbn [claim_all].
  destruct (claim_states_ok current bid sid (states w) w) as (kept & w1 & -> & F & Hs & Hp).
  { intros s Hs. apply Hh. unfold held. set_solver. }
  { done. }
  cbn [mbind outcome_bind fst snd]. set (w2 := set_states kept w1).
  assert (moves w w2) as M.
  { split; [etrans; [done|by apply frame_same]|]. unfold held. subst w2. cbn. done. }
  destruct (IH w2) as (w' & -> & M').
  { destruct M as [F2 Hp2]. intros s. rewrite Hp2, (frame_heap w w2) by done. apply Hh. }
  { by apply (frame_known w w2), Hk; destruct M. }
  exists w'. split; [done|]. by etrans.
Qed.

Lemma handlePartlyCoveredBranch_ok c bid w :
  world_ok w -> is_Some (heap w !! c) -> known w bid ->
  exists w', handlePartlyCoveredBranch (Some c) bid w = Done w' /\ moves w w'.
Proof.
  intros Hok Hc Hk. pose proof Hk as [d Hd]. unfold handlePartlyCoveredBranch. rewrite Hd. cbn [deref mbind outcome_bind].
  destruct (target_current_ok c bid (elements (stores d)) w Hc) as (w1 & -> & F1 & [L1 L2]); [done|].
  cbn [mbind outcome_bind].
  assert (moves w w1) as M1 by (split; [done|unfold held; by rewrite L1, L2]).
  pose proof (promote_moves c w1) as M2. assert (moves w (promote c w1)) as M by by etrans.
  destruct (claim_all_ok (Some c) bid (elements (stores d)) (promote c w1)) as (w' & -> & M').
  - apply (moves_ok _ _ Hok M).
  - by apply (frame_known w _ _ (proj1 M)).
  - exists w'. split; [done|]. by etrans.
Qed.

(** ** handleFullyCoveredBranch *)

Lemma release_stores_ok bid F sids w sv :
  exists w' sv', release_stores bid F sids w sv = (w', sv') /\ frame w w' /\ same_lists w w' /\
    heap w' = heap w.
Proof.
  revert w sv. induction sids as [|sid sids IH]; intros w sv; [by exists w, sv|].
  cbn [release_stores]. set (left := _ ∖ {[bid]}). case_decide;
    (match goal with |- context [release_stores _ _ sids ?w1 ?sv1] =>
    destruct (IH w1 sv1) as (w' & sv' & -> & F' & [L1 L2] & Hh) end;
    exists w', sv'; split; [done|]; split;
    [etrans; [|done]; by apply frame_same|done]).
Qed.

Lemma erase_first_subset {A} (p : A -> bool) l l' : erase_first p l = Some l' -> l' ⊆ l.
Proof.
  revert l'; induction l as [|x l IH]; cbn; [done|]. intros l'. case_match.
  - intros ?; simplify_eq. set_solver.
  - rewrite fmap_Some. intros (k & E & ->). specialize (IH _ E). set_solver.
Qed.

Lemma drop_target_subset bid l : drop_target bid l ⊆ l.
Proof.
  unfold drop_target. destruct (erase_first _ l) eqn:E; [|done]. by apply erase_first_subset in E.
Qed.

Lemma Forall_subset {A} (P : A -> Prop) l l' : l' ⊆ l -> Forall P l -> Forall P l'.
Proof. rewrite !Forall_forall. set_solver. Qed.

Lemma release_states_ok c bid sv l w :
  (forall s, s ∈ l -> is_Some (heap w !! s)) ->
  exists kept w', release_states c bid sv l w = Done (kept, w') /\ frame w w' /\
    branch_states w' = branch_states w /\ kept ++ states w' ≡ₚ l ++ states w.
Proof.
  revert w. induction l as [|s l IH]; intros w Hl; [by exists [], w|].
  destruct (Hl s ltac:(set_solver)) as [e He]. cbn [release_states]. unfold get. rewrite He.
  cbn [deref mbind outcome_bind]. set (e1 := set_branchInfos _ _).
  assert (frame w (put s e1 w)) as F1.
  { apply (frame_put s e); [done|done|]. intros Hi.
    eapply Forall_subset; [apply drop_target_subset|]. exact (Hi s e He). }
  assert (forall w1, frame w w1 -> forall s', s' ∈ l -> is_Some (heap w1 !! s')) as Hl'.
  { intros w1 F s' Hs'. rewrite frame_heap by done. set_solver. }
  destruct (_ && _).
  - set (w2 := set_states _ (put s e1 w)).
    assert (frame w w2) as F2 by (etrans; [apply F1|by apply frame_same]).
    destruct (IH w2 (Hl' _ F2)) as (kept & w' & -> & F & Hb & Hp).
    exists kept, w'. split; [done|]. split; [by etrans|]. split; [done|].
    rewrite Hp. subst w2. cbn. by rewrite (assoc (++)), (comm (++) _ [s]).
  - destruct (IH _ (Hl' _ F1)) as (kept & w' & -> & F & Hb & Hp).
    exists (s :: kept), w'. split; [done|]. split; [by etrans|]. split; [done|].
    cbn. by rewrite Hp.
Qed.

Lemma handleFullyCoveredBranch_ok c bid w :
  world_ok w -> known w bid -> is_Some (ID2BI !! bid) ->
  exists w', handleFullyCoveredBranch c bid w = Done w' /\ moves w w'.
Proof.
  intros Hok [d Hd] [I HI]. unfold handleFullyCoveredBranch. rewrite HI, Hd.
  cbn [deref mbind outcome_bind].
  destruct (release_stores_ok bid (block_function (inst_block I)) (elements (stores d)) w [])
    as (w1 & sv & -> & F1 & [L1 L2] & Hh).
  destruct (release_states_ok c bid sv (branch_states w1) w1) as (kept & w2 & -> & F2 & Hb & Hp).
  { intros s Hs. rewrite Hh. apply (ok_heap _ Hok). unfold held. rewrite <- L2. set_solver. }
  cbn [mbind outcome_bind fst snd]. eexists; split; [done|]. split.
  - do 2 (etrans; [done|]). by apply frame_same.
  - unfold held. cbn. rewrite (comm (++)), Hp, L1, L2. by rewrite (comm (++)).
Qed.

(** ** The parts of update *)

Lemma requeue_moves c added w :
  NoDup (held w) -> CGS_selectState w = Done c ->
  exists w', requeue c added w = Done w' /\ moves w w' /\ heap w' = heap w /\
    newBranchNumFromStore w' = newBranchNumFromStore w.
Proof.
  intros Hn Hsel. unfold requeue. case_bool_decide as Ha; [by exists w|].
  assert (forall l, c ∈ l -> exists l', vec_erase c l = Some l' /\ l' ++ [c] ≡ₚ l) as Her.
  { intros l Hc. destruct (vec_erase_elem c l Hc) as [l' E]. exists l'. split; [done|].
    rewrite (vec_erase_perm _ _ _ E). by rewrite (comm (++)). }
  unfold CGS_selectState in Hsel. case_bool_decide as Hb; cbn [negb] in Hsel.
  - destruct (states w) as [|x l] eqn:El; [done|]. cbn in Hsel. simplify_eq.
    destruct (Her (c :: l)) as (l' & E & Hp); [set_solver|]. rewrite E. cbn.
    eexists; split; [done|]. split_and!; [|done..]. split; [by apply frame_same|].
    unfold held. cbn. by rewrite Hp, El.
  - destruct (branch_states w) as [|x l] eqn:El; [done|]. cbn in Hsel. simplify_eq.
    destruct (Her (c :: l)) as (l' & E & Hp); [set_solver|]. rewrite E. cbn.
    eexists; split; [done|]. split_and!; [|done..]. split; [by apply frame_same|].
    unfold held. cbn. by rewrite Hp, El.
Qed.

Lemma demote_moves b c w : moves w (demote b c w).
Proof.
  unfold demote. destruct (vec_erase c (branch_states w)) as [l|] eqn:E; [|done].
  split; [by apply frame_same|]. unfold held. cbn. rewrite (vec_erase_perm _ _ _ E).
  destruct b; [apply Permutation_middle|]. by rewrite <- (assoc (++)).
Qed.

Lemma moves_get w w' c : moves w w' -> is_Some (heap w !! c) -> exists e, heap w' !! c = Some e.
Proof. intros [F _]. by rewrite <- (frame_heap w w'). Qed.

Lemma on_reach_branch_ok c w :
  world_ok w -> is_Some (heap w !! c) ->
  exists w', on_reach_branch c w = Done w' /\ moves w w' /\
    ((exists e, heap w !! c = Some e /\ reachBranch e = false) -> w' = w).
Proof.
  intros Hok [e He]. unfold on_reach_branch. unfold get. rewrite He.
  cbn [deref mbind outcome_bind]. destruct (reachBranch e) eqn:Er; cbn [negb].
  2: { exists w. split; [done|]. split; [done|auto]. }
  match goal with |- context [mbind _ ?o] => assert (exists w1, o = Done w1 /\ moves w w1) as
    (w1 & -> & M1) end.
  { destruct (newFullyCoveredBranch w) eqn:Hf.
    - destruct (ok_covered _ Hok Hf) as (bid & -> & Hk & HI). cbn [deref mbind outcome_bind].
      destruct (handleFullyCoveredBranch_ok c bid w Hok Hk HI) as (w1 & -> & M1).
      cbn [mbind outcome_bind]. destruct (moves_get _ _ c M1) as [e1 He1]; [eauto|].
      rewrite He1. cbn [deref mbind outcome_bind]. eexists; split; [done|].
      etrans; [apply M1|].
      case_match; [etrans; [apply (demote_moves true c)|]|]; (split; [by apply frame_same|done]).
    - eexists; split; [done|]. set (e1 := set_branchInfos _ e). set (w1 := set_BI2ID _ w).
      assert (moves w (put c e1 w1)) as M1.
      { split; [|done]. etrans; [by apply (frame_same w w1)|].
        apply (frame_put c e); [done|done|]. intros Hi.
        eapply Forall_subset; [apply drop_target_subset|]. exact (Hi c e He). }
      case_match; [etrans; [apply M1|apply demote_moves]|done]. }
  cbn [mbind outcome_bind]. destruct (moves_get _ _ c M1) as [e1 He1]; [eauto|].
  rewrite He1. cbn [deref mbind outcome_bind]. eexists; split; [done|].
  split; [|intros (e' & ? & ?); congruence].
  etrans; [apply M1|]. split; [|done]. by apply (frame_put_eq c e1).
Qed.

Lemma keep_new_ok c l w :
  is_Some (heap w !! c) -> Forall (fun b => known w (targetBranchID b)) l ->
  exists l' w', keep_new c l w = Done (l', w') /\ moves w w' /\ l' ⊆ l.
Proof.
  revert w. induction l as [|b l IH]; intros w Hc Hl; [by exists [], w|].
  apply Forall_cons in Hl as [Hb Hl]. cbn [keep_new].
  destruct (isNewStoreValue_ok c (targetBranchID b) (reachStoreID b) w Hc Hb)
    as (new & w1 & -> & F1 & [L1 L2] & _). cbn [mbind outcome_bind].
  assert (moves w w1) as M1 by (split; [done|unfold held; by rewrite L1, L2]).
  assert (forall w2, moves w w2 -> exists l' w', keep_new c l w2 = Done (l', w') /\ moves w2 w' /\ l' ⊆ l)
    as IH'.
  { intros w2 [F2 _]. apply IH; [by apply (frame_heap w w2)|].
    eapply Forall_impl; [apply Hl|]. intros x. by apply frame_known. }
  destruct new.
  - pose proof (promote_moves c w1) as M2. assert (moves w (promote c w1)) as M3 by by etrans.
    destruct (IH' _ M3) as (l' & w' & -> & M & Hs). cbn. eexists _, _. split; [done|].
    split; [by etrans|set_solver].
  - destruct (IH' _ M1) as (l' & w' & -> & M & Hs). exists l', w'. split; [done|].
    split; [by etrans|set_solver].
Qed.

(** The pairs the last store announced are there. *)
Definition store_ready (c : positive) (w : World) : Prop :=
  forall e, heap w !! c = Some e -> reachStore e = true ->
    newBranchNumFromStore w <= Z.of_nat (length (branchInfos e)).

Lemma on_reach_store_ok c w :
  world_ok w -> is_Some (heap w !! c) -> store_ready c w ->
  exists w', on_reach_store c w = Done w' /\ moves w w'.
Proof.
  intros Hok [e He] Hr. unfold on_reach_store. unfold get. rewrite He.
  cbn [deref mbind outcome_bind]. destruct (reachStore e) eqn:Es; [|by exists w]. cbn [negb].
  rewrite (proj2 (Z.leb_le _ _) (Hr e He Es)). set (k := Z.to_nat _).
  pose proof (ok_infos _ Hok c e He) as Hin.
  destruct (keep_new_ok c (drop k (branchInfos e)) w) as (l' & w1 & -> & M1 & Hl); [eauto| |].
  { eapply Forall_subset; [|apply Hin]. apply subseteq_drop. }
  cbn [mbind outcome_bind fst snd]. destruct (moves_get _ _ c M1) as [e1 He1]; [eauto|].
  rewrite He1. cbn [deref mbind outcome_bind]. eexists; split; [done|].
  etrans; [apply M1|]. split; [|done]. set (e2 := set_flags _ _ _).
  apply (frame_trans w1 (put c e2 w1)); [|by apply frame_same].
  apply (frame_put c e1); [done|done|]. intros _.
  eapply Forall_impl; [|intros x Hx; apply (frame_known w w1); [apply M1|exact Hx]].
  eapply Forall_subset; [|apply Hin]. cbn. intros x [Hx|Hx]%elem_of_app.
  - by apply subseteq_take in Hx.
  - apply Hl in Hx. by apply subseteq_drop in Hx.
Qed.

Lemma on_new_target_ok c w :
  world_ok w -> is_Some (heap w !! c) ->
  exists w', on_new_target c w = Done w' /\ moves w w'.
Proof.
  intros Hok Hc. unfold on_new_target. destruct (last (TB w)) as [bid|] eqn:El; [|by exists w].
  destruct (newPartlyCoveredBranch w); [|by exists w].
  destruct (handlePartlyCoveredBranch_ok c bid w Hok Hc) as (w1 & -> & M1).
  { apply (ok_targets _ Hok). apply last_Some_elem_of in El. set_solver. }
  cbn. eexists; split; [done|]. etrans; [apply M1|]. split; [by apply frame_same|done].
Qed.

Lemma forget_targets_ok l w :
  (forall s, s ∈ l -> is_Some (heap w !! s)) ->
  exists kept w', forget_targets l w = Done (kept, w') /\ frame w w' /\
    branch_states w' = branch_states w /\ kept ++ states w' ≡ₚ l ++ states w.
Proof.
  revert w. induction l as [|s l IH]; intros w Hl; [by exists [], w|].
  destruct (Hl s ltac:(set_solver)) as [e He]. cbn [forget_targets]. unfold get. rewrite He.
  cbn [deref mbind outcome_bind]. set (e1 := set_branchInfos _ _).
  assert (frame w (put s e1 w)) as F1 by (apply (frame_put s e); [done|done|constructor]).
  assert (forall w1, frame w w1 -> forall s', s' ∈ l -> is_Some (heap w1 !! s')) as Hl'.
  { intros w1 F s' Hs'. rewrite frame_heap by done. set_solver. }
  destruct (coveredNew e).
  - destruct (IH _ (Hl' _ F1)) as (kept & w' & -> & F & Hb & Hp).
    exists (s :: kept), w'. split; [done|]. split; [by etrans|]. split; [done|].
    cbn. by rewrite Hp.
  - set (w2 := set_states _ (put s e1 w)).
    assert (frame w w2) as F2 by (etrans; [apply F1|by apply frame_same]).
    destruct (IH w2 (Hl' _ F2)) as (kept & w' & -> & F & Hb & Hp).
    exists kept, w'. split; [done|]. split; [by etrans|]. split; [done|].
    rewrite Hp. subst w2. cbn. by rewrite (assoc (++)), (comm (++) _ [s]).
Qed.

(** Changes of the target lists only. *)
Lemma frame_lists w w' :
  heap w' = heap w -> BDDeps w' = BDDeps w -> FCB w' = FCB w ->
  newFullyCoveredBranch w' = newFullyCoveredBranch w ->
  (forall bid, bid ∈ TB w' ++ PCB w' -> bid ∈ TB w ++ PCB w) -> frame w w'.
Proof.
  intros H1 H2 H3 H4 H5. split; rewrite ?H1, ?H4; eauto.
  intros Hi s e. rewrite H1. intros He. specialize (Hi s e He). unfold known in *. by rewrite H2.
Qed.

Lemma retarget_ok k c w :
  world_ok w -> is_Some (heap w !! c) ->
  exists w', retarget k (Some c) w = Done w' /\ moves w w'.
Proof.
  revert w. induction k as [|k IH]; intros w Hok Hc; [by exists w|]. cbn [retarget].
  destruct (last (PCB w)) as [bid|] eqn:El; [|by exists w].
  set (w1 := set_TB _ _).
  assert (PCB w = removelast (PCB w) ++ [bid]) as HP.
  { destruct (PCB w) as [|b l _] using rev_ind; [done|].
    rewrite last_snoc in El. simplify_eq. by rewrite removelast_last. }
  assert (moves w w1) as M1.
  { split; [|done]. apply frame_lists; try done. intros b. subst w1. cbn.
    rewrite HP at 2. set_solver. }
  assert (world_ok w1) as Hok1 by (by eapply moves_ok).
  destruct (handlePartlyCoveredBranch_ok c bid w1 Hok1) as (w2 & -> & M2); [done| |].
  { apply (ok_targets _ Hok1). subst w1. cbn. set_solver. }
  cbn [mbind outcome_bind].
  destruct (IH w2) as (w' & -> & M3); [by eapply moves_ok|by apply (moves_get w1)|].
  exists w'. split; [done|]. by do 2 (etrans; [done|]).
Qed.

Lemma refresh_targets_ok current w :
  world_ok w -> (forall c, current = Some c -> is_Some (heap w !! c)) ->
  (current = None -> updateTargetBranch w = false) ->
  exists w', refresh_targets current w = Done w' /\ moves w w'.
Proof.
  intros Hok Hc Hn. unfold refresh_targets. destruct (updateTargetBranch w); [|by exists w].
  destruct current as [c|]; [|by specialize (Hn eq_refl)].
  destruct (forget_targets_ok (branch_states w) w) as (kept & w1 & -> & F1 & Hb & Hp).
  { intros s Hs. apply (ok_heap _ Hok). unfold held. set_solver. }
  cbn [mbind outcome_bind fst snd]. set (w2 := set_TB [] _).
  assert (moves w w2) as M2.
  { split.
    - etrans; [apply F1|]. apply frame_lists; try done. intros b. subst w2. cbn. set_solver.
    - unfold held. subst w2. cbn. rewrite (comm (++)), Hp. by rewrite (comm (++)). }
  destruct (retarget_ok (Z.to_nat (targetBranchNum w2)) c w2) as (w3 & -> & M3).
  { by eapply moves_ok. }
  { apply (moves_get w); auto. }
  cbn. eexists; split; [done|]. do 2 (etrans; [done|]). split; [by apply frame_same|done].
Qed.

(** ** Added and removed states *)

Lemma add_states_ok fs added w :
  (forall s, s ∈ added -> is_Some (heap w !! s)) ->
  exists w', add_states fs added w = Done w' /\ frame w w' /\ held w' ≡ₚ held w ++ added.
Proof.
  revert w. induction added as [|s added IH]; intros w Hs.
  { exists w. split; [done|]. split; [done|]. by rewrite app_nil_r. }
  destruct (Hs s ltac:(set_solver)) as [e He]. cbn [add_states]. unfold get. rewrite He.
  cbn [deref mbind outcome_bind].
  match goal with |- context [add_states fs added ?w0] => set (w1 := w0) end.
  assert (frame w w1 /\ held w1 ≡ₚ held w ++ [s] /\ heap w1 = heap w) as (F1 & Hp1 & Hh1).
  { subst w1. destruct (_ || _); (split; [by apply frame_same|split; [|done]]); unfold held; cbn.
    - by rewrite (assoc (++)).
    - rewrite <- !(assoc (++)). by rewrite (comm (++) [s]). }
  destruct (IH w1) as (w' & -> & F & Hp). { intros s' Hs'. rewrite Hh1. set_solver. }
  exists w'. split; [done|]. split; [by etrans|]. by rewrite Hp, Hp1, <- (assoc (++)).
Qed.

Lemma add_all_ok current added w :
  (forall c, current = Some c -> is_Some (heap w !! c)) ->
  (forall s, s ∈ added -> is_Some (heap w !! s)) ->
  exists w', add_all current added w = Done w' /\ frame w w' /\ held w' ≡ₚ held w ++ added.
Proof.
  intros Hc Hs. unfold add_all. destruct current as [c|].
  - destruct (Hc c eq_refl) as [e He]. unfold get. rewrite He. by apply add_states_ok.
  - eexists; split; [done|]. split; [by apply frame_same|]. unfold held. cbn.
    rewrite <- !(assoc (++)). by rewrite (comm (++) added).
Qed.

Lemma remove_all_held removed w :
  NoDup (held w) -> frame w (remove_all removed w) /\
  held (remove_all removed w) ≡ₚ without removed (held w).
Proof.
  revert w. induction removed as [|s removed IH]; intros w Hn.
  { split; [done|]. by rewrite without_nil. }
  cbn [remove_all]. match goal with |- context [remove_all removed ?w0] => set (w1 := w0) end.
  assert (frame w w1 /\ held w1 ≡ₚ without [s] (held w)) as [F1 Hp1].
  { subst w1. unfold held in *. pose proof Hn as (H1 & H2 & H3)%NoDup_app.
    rewrite without_app. destruct (vec_erase s (branch_states w)) as [l|] eqn:Eb.
    - split; [by apply frame_same|]. cbn. pose proof (vec_erase_perm _ _ _ Eb) as Hp.
      assert (s ∉ states w) by (intros Hx; apply (H2 s Hx); rewrite Hp; set_solver).
      rewrite (without_id [s] (states w)) by set_solver.
      f_equiv. rewrite <- (without_nil l). by apply without_perm_erase.
    - apply vec_erase_None in Eb. rewrite (without_id [s] (branch_states w)) by set_solver.
      destruct (vec_erase s (states w)) as [l|] eqn:Es.
      + split; [by apply frame_same|]. cbn. f_equiv. rewrite <- (without_nil l).
        by apply without_perm_erase.
      + apply vec_erase_None in Es. rewrite (without_id [s] (states w)) by set_solver. done. }
  destruct (IH w1) as [F Hp]. { rewrite Hp1. by apply without_NoDup. }
  split; [by etrans|]. by rewrite Hp, Hp1, without_cons.
Qed.

(** ** update *)

(** What the executor guarantees about the state it has just run: it is the
    one [selectState] returned, it stopped at a store or at a branch but not at
    both, and the pairs its store announced are there.  The targets are
    refreshed only after a step. *)
Definition update_ready (current : option positive) (w : World) : Prop :=
  match current with
  | None => updateTargetBranch w = false
  | Some c => CGS_selectState w = Done c /\ store_ready c w /\
      forall e, heap w !! c = Some e -> reachStore e = true -> reachBranch e = false
  end.

Lemma CGS_select_held w c : CGS_selectState w = Done c -> c ∈ held w.
Proof.
  unfold CGS_selectState, held. case_bool_decide; cbn.
  - destruct (states w); cbn; [done|]. intros ?; simplify_eq. set_solver.
  - destruct (branch_states w); cbn; [done|]. intros ?; simplify_eq. set_solver.
Qed.

(** The part of [update] about the state that ran. *)
Lemma current_ok c added w :
  world_ok w -> update_ready (Some c) w ->
  exists w', (w ← requeue c added w; w ← on_reach_branch c w; w ← on_reach_store c w;
              on_new_target c w) = Done w' /\ moves w w'.
Proof.
  intros Hok (Hsel & Hst & Hfl). pose proof (CGS_select_held _ _ Hsel) as Hin.
  destruct (ok_heap _ Hok c Hin) as [e He].
  destruct (requeue_moves c added w (ok_nodup _ Hok) Hsel) as (w1 & -> & M1 & Hh1 & Hn1).
  cbn [mbind outcome_bind]. assert (world_ok w1) as Hok1 by (by eapply moves_ok).
  assert (heap w1 !! c = Some e) as He1 by (by rewrite Hh1).
  destruct (on_reach_branch_ok c w1 Hok1) as (w2 & -> & M2 & Hsame); [eauto|].
  cbn [mbind outcome_bind]. assert (world_ok w2) as Hok2 by (by eapply moves_ok).
  assert (is_Some (heap w2 !! c)) as Hc2 by (apply (moves_get w1); eauto).
  destruct (on_reach_store_ok c w2 Hok2 Hc2) as (w3 & -> & M3).
  { intros e2 He2 Hr2. destruct (reachBranch e) eqn:Er.
    - destruct (fr_store _ _ (proj1 M2) c e2 He2 Hr2) as (e' & He' & Hr'). simplify_eq.
      specialize (Hfl e He Hr'). congruence.
    - rewrite Hsame in * by eauto. rewrite Hn1. simplify_eq. by apply Hst. }
  cbn [mbind outcome_bind]. assert (world_ok w3) as Hok3 by (by eapply moves_ok).
  destruct (on_new_target_ok c w3 Hok3) as (w4 & -> & M4); [by apply (moves_get w2)|].
  exists w4. split; [done|]. by do 3 (etrans; [done|]).
Qed.

Lemma CGS_update_ok current added removed w :
  world_ok w -> update_ready current w -> NoDup (held w ++ added) ->
  (forall s, s ∈ added -> is_Some (heap w !! s)) ->
  exists w', CGS_update current added removed w = Done w' /\ world_ok w' /\
    held w' ≡ₚ without removed (held w ++ added).
Proof.
  intros Hok Hr Hn Ha. unfold CGS_update.
  assert (forall c, current = Some c -> is_Some (heap w !! c)) as Hc.
  { intros c ->. apply (ok_heap _ Hok), CGS_select_held, Hr. }
  match goal with |- context [mbind _ ?o] =>
    assert (exists w1, o = Done w1 /\ moves w w1 /\
      (current = None -> updateTargetBranch w1 = false)) as (w1 & -> & M1 & Hu1) end.
  { destruct current as [c|]; [|by exists w]. case_bool_decide; [|by exists w].
    destruct (current_ok c added w Hok Hr) as (w1 & -> & M1). by exists w1. }
  cbn [mbind outcome_bind].
  destruct (refresh_targets_ok current w1) as (w2 & -> & M2); auto.
  { by eapply moves_ok. }
  { intros c Ec. apply (moves_get w); auto. }
  cbn [mbind outcome_bind]. assert (moves w w2) as M by by etrans.
  destruct (add_all_ok current added w2) as (w3 & -> & F3 & Hp3).
  { intros c Ec. apply (moves_get w); auto. }
  { intros s Hs. apply (moves_get w); auto. }
  cbn [mbind outcome_bind]. rewrite (proj2 M) in Hp3.
  destruct (remove_all_held removed w3) as [F4 Hp4]; [by rewrite Hp3|].
  eexists; split; [done|]. split; [|by rewrite Hp4, Hp3].
  assert (frame w (remove_all removed w3)) as F by (do 2 (etrans; [|done]); apply M).
  assert (world_ok w2) as Hok2 by (by eapply moves_ok).
  split.
  - rewrite Hp4, Hp3. by apply without_NoDup.
  - intros s. rewrite Hp4, Hp3, elem_of_without, elem_of_app, (frame_heap w) by done.
    intros [_ [Hs|Hs]]; [by apply (ok_heap _ Hok)|auto].
  - by apply (fr_infos _ _ F), Hok.
  - intros bid Hb. rewrite (frame_known w) by done. by apply (ok_targets _ Hok), (fr_targets _ _ F).
  - intros Hf. destruct (ok_covered _ Hok (fr_full _ _ F Hf)) as (bid & ? & ? & ?).
    exists bid. rewrite (fr_fcb _ _ F), (frame_known w) by done. auto.
Qed.

End Contract.
