(* ===== verification/CGSExecutor.v ===== *)
(** The handlers of Executor.cpp that feed [CGSSearcher]: what happens to the
    target branches when an execution state runs a br, a switch or a store.

    What a handler reads from LLVM, from the statistics and from the evaluation
    of operands is in its arguments: [BrEvent], [SwitchEvent], [StoreEvent]. *)
From stdpp Require Import base list numbers gmap strings.
From Stdlib Require Import ZArith Lia.
From S2P Require Import Prelude APInt Searcher CGSWorld CGSSearcher.
Local Open Scope Z_scope.

(** The command-line options [-target-branch-num] and [-target-branch-reach-max]. *)
Class CGSOptions : Type := { TargetBranchNum : Z; maxReachBranchCount : Z }.

Section Handlers.
Context {LI : LLVMInfo} {CT : CGSTables} {CO : CGSOptions}.

(** ** The uncovered side of a branch *)

(** [icmp pred V, C], with the values [c1] of [V] and [c2] of [C]. *)
Definition uncovered_var_const (p : Pred) (c1 c2 : Z) : option Pred :=
  match p with
  | ICMP_EQ => Some (if c1 =? c2 then ICMP_NE else ICMP_EQ)
  | ICMP_NE => Some (if negb (c1 =? c2) then ICMP_EQ else ICMP_NE)
  | ICMP_UGT => Some (if c2 <? c1 then ICMP_ULE else ICMP_UGT)
  | ICMP_ULT => Some (if c1 <? c2 then ICMP_UGE else ICMP_ULT)
  | ICMP_UGE => Some (if c2 <=? c1 then ICMP_ULT else ICMP_UGE)
  | ICMP_ULE => Some (if c1 <=? c2 then ICMP_UGT else ICMP_ULE)
  | ICMP_SGT => Some (if c2 <? c1 then ICMP_SLE else ICMP_SGT)
  | ICMP_SLT => Some (if c1 <? c2 then ICMP_SGE else ICMP_SLT)
  | ICMP_SGE => Some (if c2 <=? c1 then ICMP_SLT else ICMP_SGE)
  | ICMP_SLE => Some (if c1 <=? c2 then ICMP_SGT else ICMP_SLE)
  | OtherPred _ => None
  end.

(** [icmp pred C, V]: the predicate is turned round as well. *)
Definition uncovered_const_var (p : Pred) (c1 c2 : Z) : option (Pred * Pred) :=
  match p with
  | ICMP_EQ => Some (if c2 =? c1 then ICMP_NE else ICMP_EQ, ICMP_EQ)
  | ICMP_NE => Some (if negb (c2 =? c1) then ICMP_EQ else ICMP_NE, ICMP_NE)
  | ICMP_UGT => Some (if c2 <? c1 then ICMP_UGE else ICMP_ULT, ICMP_ULT)
  | ICMP_ULT => Some (if c1 <? c2 then ICMP_ULE else ICMP_UGT, ICMP_UGT)
  | ICMP_UGE => Some (if c2 <=? c1 then ICMP_UGT else ICMP_ULE, ICMP_ULE)
  | ICMP_ULE => Some (if c1 <=? c2 then ICMP_ULT else ICMP_UGE, ICMP_UGE)
  | ICMP_SGT => Some (if c2 <? c1 then ICMP_SGE else ICMP_SLT, ICMP_SLT)
  | ICMP_SLT => Some (if c1 <? c2 then ICMP_SLE else ICMP_SGT, ICMP_SGT)
  | ICMP_SGE => Some (if c2 <=? c1 then ICMP_SGT else ICMP_SLE, ICMP_SLE)
  | ICMP_SLE => Some (if c1 <=? c2 then ICMP_SLT else ICMP_SGE, ICMP_SGE)
  | OtherPred _ => None
  end.

(** Which operand of the comparison is a [ConstantInt] decides the variable
    and the constant; two constants or two variables fail an assertion. *)
Definition record_condition (const1 const2 : bool) (c1 c2 : Z) (d : BDDep) : outcome BDDep :=
  match const1, const2 with
  | false, true =>
      Done (MkBDDep (type d) (stores d) (pred d) (arith_op d) (arith_var d)
              (default (unCoveredPred d) (uncovered_var_const (pred d) c1 c2))
              c1 c2 (unCoveredValues d))
  | true, false =>
      let '(u, p) := default (unCoveredPred d, pred d) (uncovered_const_var (pred d) c1 c2) in
      Done (MkBDDep (type d) (stores d) p (arith_op d) (arith_var d) u c2 c1 (unCoveredValues d))
  | _, _ => AssertFail
  end.

Definition record_arith (found : option (string * Z)) (d : BDDep) : BDDep :=
  match found with
  | Some (op, v) => MkBDDep (type d) (stores d) (pred d) op v (unCoveredPred d)
                      (var d) (constant d) (unCoveredValues d)
  | None => d
  end.

Definition record_values (vs : gset Z) (d : BDDep) : BDDep :=
  MkBDDep (type d) (stores d) (pred d) (arith_op d) (arith_var d) (unCoveredPred d)
    (var d) (constant d) vs.

(** ** Reaching a target *)

Definition count_reach (bid : Z) (w : World) : World :=
  let n := u32 (default 0 (reachBranchCount w !! bid) + 1) in
  let w := set_reachBranchCount (<[bid := n]> (reachBranchCount w)) w in
  if maxReachBranchCount <? n then set_invalidBranches ({[bid]} ∪ invalidBranches w) w else w.

(** The state waits for this branch. *)
Definition reach_target (c : positive) (bid : Z) (w : World) : outcome World :=
  e ← get c w;
  Done (if existsb (fun b => targetBranchID b =? bid) (branchInfos e)
        then count_reach bid (put c (set_flags (reachStore e) true e) w) else w).

(** A branch is counted the first time, and given up after too many times:
    [false] when the handler stops here. *)
Definition first_reach (bid : Z) (w : World) : bool * World :=
  match reachBranchCount w !! bid with
  | None => (true, set_reachBranchCount (<[bid := 1]> (reachBranchCount w)) w)
  | Some n =>
      let n := u32 (n + 1) in
      let w := set_reachBranchCount (<[bid := n]> (reachBranchCount w)) w in
      if maxReachBranchCount <? n
      then (false, set_invalidBranches ({[bid]} ∪ invalidBranches w) w) else (true, w)
  end.

(** Step 1: a new partly covered branch is a target when there is room. *)
Definition add_target (bid : Z) (w : World) : World :=
  if Z.of_nat (length (TB w)) <? TargetBranchNum
  then set_newPartlyCoveredBranch true (set_TB (TB w ++ [bid]) w)
  else set_PCB (PCB w ++ [bid]) w.

Definition erase_bid (bid : Z) (l : list Z) : option (list Z) := erase_first (Z.eqb bid) l.

(** Step 3: a fully covered branch leaves the targets, and the most recent
    waiting branch takes its place. *)
Definition cover_target (bid : Z) (w : World) : World :=
  if bool_decide (bid ∈ FCB w) then w
  else
    let w := set_FCB (FCB w ++ [bid]) w in
    let w :=
      match erase_bid bid (TB w) with
      | Some l =>
          let w := set_TB l w in
          match last (PCB w) with
          | Some b => set_newPartlyCoveredBranch true
                        (set_TB (TB w ++ [b]) (set_PCB (removelast (PCB w)) w))
          | None => w
          end
      | None =>
          match erase_bid bid (PCB w) with
          | Some l => set_PCB l w
          | None => w
          end
      end in
    set_newFullyCoveredBranch true w.

(** ** Branch instructions *)

(** A br with a concrete condition: the two operands of its comparison, where
    they are concrete, which of them is a [ConstantInt], the and/or found on
    the way to the comparison, and [stats::fullBranches]. *)
Record BrEvent : Type := MkBrEvent {
  br_inst : positive;
  br_values : option (Z * Z);
  br_const : bool * bool;
  br_arith : option (string * Z);
  br_full : bool
}.

(** The new partly covered branch; [None] when the handler stops. *)
Definition new_partly_covered (ev : BrEvent) (bid : Z) (d : BDDep) (w : World) : outcome World :=
  let '(go, w) := first_reach bid w in
  if negb go then Done w
  else
    match br_values ev with
    | None => Done (set_invalidBranches ({[bid]} ∪ invalidBranches w) w)
    | Some (v1, v2) =>
        d ← record_condition (br_const ev).1 (br_const ev).2
              (to_signed 32 (u32 v1)) (to_signed 32 (u32 v2)) d;
        let d := record_arith (br_arith ev) d in
        Done (add_target bid (set_BDDeps (<[bid := d]> (BDDeps w)) w))
    end.

Definition on_concrete_br (c : positive) (ev : BrEvent) (w : World) : outcome World :=
  match BI2ID w !! Some (br_inst ev) with
  | None => Done w
  | Some bid =>
      w ← reach_target c bid w;
      if negb (br_full ev) then
        if bool_decide (bid ∈ invalidBranches w) || bool_decide (bid ∈ TB w)
           || bool_decide (bid ∈ PCB w) then Done w
        else
          d ← deref (BDDeps w !! bid);
          if bool_decide (stores d = ∅) then Done w else new_partly_covered ev bid d w
      else Done (cover_target bid w)
  end.

(** A br with a symbolic condition is no concrete branch. *)
Definition on_symbolic_br (i : positive) (w : World) : World :=
  set_BI2ID (delete (Some i) (BI2ID w)) w.

(** A switch on the concrete value [sw_value]. *)
Record SwitchEvent : Type := MkSwitchEvent { sw_inst : positive; sw_value : Z }.

Definition on_switch (c : positive) (ev : SwitchEvent) (w : World) : outcome World :=
  match BI2ID w !! Some (sw_inst ev) with
  | None => Done w
  | Some bid =>
      w ← reach_target c bid w;
      d ← deref (BDDeps w !! bid);
      let d := record_values (unCoveredValues d ∖ {[to_signed 32 (u32 (sw_value ev))]}) d in
      let w := set_BDDeps (<[bid := d]> (BDDeps w)) w in
      if negb (bool_decide (unCoveredValues d = ∅)) then
        if bool_decide (bid ∈ invalidBranches w) || bool_decide (bid ∈ TB w)
           || bool_decide (bid ∈ PCB w) || bool_decide (stores d = ∅) then Done w
        else
          let '(go, w) := first_reach bid w in
          Done (if go then add_target bid w else w)
      else Done (cover_target bid w)
  end.

(** ** Stores *)

(** A store; [st_value] is the value where it is a constant and not a pointer. *)
Record StoreEvent : Type := MkStoreEvent { st_inst : positive; st_value : option Z }.

(** Among the stored values, the first one of a store to the same variable
    with another value is forgotten, with the pair it announced. *)
Definition drop_overwritten (sid value : Z) (e : ExecutionState) : ExecutionState :=
  match storesWithSameVar !! sid with
  | None => e
  | Some related =>
      match list_find (fun p => p.1 ∈ related /\ p.2 <> value) (map_to_list (storeValues e)) with
      | Some (_, (other, _)) =>
          set_branchInfos (default (branchInfos e)
              (erase_first (fun b => reachStoreID b =? other) (branchInfos e)))
            (set_storeValues (delete other (storeValues e)) e)
      | None => e
      end
  end.

(** The loop over the target branches; [invalidStoreValues[bid]] creates the
    entry it reads. *)
Fixpoint announce (c : positive) (sid value : Z) (bids : list Z) (w : World) : outcome World :=
  match bids with
  | [] => Done w
  | bid :: bids' =>
      let inv := at_set (invalidStoreValues w) bid in
      let w := set_invalidStoreValues (<[bid := inv]> (invalidStoreValues w)) w in
      if decide (to_signed 32 value ∈ inv) then announce c sid value bids' w
      else
        d ← deref (BDDeps w !! bid);
        if decide (sid ∈ stores d) then
          e ← get c w;
          let e := push_info (MkBranchInfo sid bid) (set_flags true false e) in
          let w := set_newBranchNumFromStore (u32 (newBranchNumFromStore w + 1)) (put c e w) in
          announce c sid value bids' w
        else announce c sid value bids' w
  end.

Definition on_store (c : positive) (ev : StoreEvent) (w : World) : outcome World :=
  let sid := default 0 (SI2ID !! st_inst ev) in
  match st_value ev with
  | Some v =>
      if sid =? 0 then Done w
      else
        let value := u32 v in
        e ← get c w;
        let e := drop_overwritten sid value e in
        let e := set_storeValues (<[sid := value]> (storeValues e)) e in
        announce c sid value (TB w) (put c e w)
  | None => Done w
  end.

End Handlers.
