(* ===== verification/CGSTargets.v ===== *)
(** The lists of target, waiting and fully covered branches over runs of the
    executor and the searcher.

    What the search promises: the theorems on [CGSSearcher] and on the
    handlers that feed it. *)
From stdpp Require Import base list numbers gmap strings.
From Stdlib Require Import ZArith Lia.
From S2P Require Import Prelude APInt Searcher CGSWorld CGSSearcher CGSContract CGSExecutor.
Local Open Scope Z_scope.

(** Reads off how a run that returned went. *)
Ltac inv_done :=
  repeat match goal with
    | H : (_ ≫= _) = Done _ |- _ => apply bind_Done in H as (? & ? & H)
    | H : Done _ = Done _ |- _ => injection H as H
    | H : (_, _) = (_, _) |- _ => injection H as H
    | H : AssertFail = Done _ |- _ => discriminate H
    | H : Undefined = Done _ |- _ => discriminate H
    | H : deref _ = Done _ |- _ => unfold deref in H
    | H : get _ _ = Done _ |- _ => unfold get in H
    | H : context [let '(_, _) := ?x in _] |- _ => destruct x eqn:?
    | H : (if ?b then _ else _) = Done _ |- _ => destruct b eqn:?
    | H : match ?o with Some _ => _ | None => _ end = Done _ |- _ => destruct o eqn:?
    | x : _ * _ |- _ => destruct x; cbn [fst snd] in *
    end; subst.

Section Targets.
Context {LI : LLVMInfo} {CT : CGSTables} {CO : CGSOptions}.

(** ** What the searcher leaves alone *)

(** The lists, the number of targets and the branches. *)
Record keeps (w w' : World) : Prop := MkKeeps {
  kp_TB : TB w' = TB w;
  kp_PCB : PCB w' = PCB w;
  kp_FCB : FCB w' = FCB w;
  kp_num : targetBranchNum w' = targetBranchNum w;
  kp_deps : BDDeps w' = BDDeps w
}.

#[local] Instance keeps_refl : Reflexive keeps.
Proof. by split. Qed.

#[local] Instance keeps_trans : Transitive keeps.
Proof. intros ??? [] []. split; congruence. Qed.

Lemma isNewStoreValue_keeps s bid sid w b w' :
  isNewStoreValue s bid sid w = Done (b, w') -> keeps w w'.
Proof. unfold isNewStoreValue. intros H. inv_done; by split. Qed.

Lemma promote_keeps c w : keeps w (promote c w).
Proof. unfold promote. case_match; by split. Qed.

Lemma demote_keeps b c w : keeps w (demote b c w).
Proof. unfold demote. case_match; by split. Qed.

Lemma target_current_keeps cur bid sids w w' :
  target_current cur bid sids w = Done w' -> keeps w w'.
Proof.
  revert w. induction sids as [|sid sids IH]; cbn [target_current]; intros w H; inv_done; [done|..];
    match goal with H : target_current _ _ _ _ = _ |- _ => apply IH in H end;
    try match goal with H : isNewStoreValue _ _ _ _ = _ |- _ => apply isNewStoreValue_keeps in H end;
    repeat match goal with K : keeps _ _ |- _ => destruct K end; split; cbn in *; congruence.
Qed.

Lemma claim_states_keeps cur bid sid l w k w' :
  claim_states cur bid sid l w = Done (k, w') -> keeps w w'.
Proof.
  revert w k. induction l as [|s l IH]; cbn [claim_states]; intros w k H; inv_done; [done|..];
    repeat match goal with
      | H : claim_states _ _ _ _ _ = _ |- _ => apply IH in H
      | H : isNewStoreValue _ _ _ _ = _ |- _ => apply isNewStoreValue_keeps in H
      | K : keeps _ _ |- _ => destruct K end; split; cbn in *; congruence.
Qed.

Lemma claim_all_keeps cur bid sids w w' : claim_all cur bid sids w = Done w' -> keeps w w'.
Proof.
  revert w. induction sids as [|sid sids IH]; cbn [claim_all]; intros w H; inv_done; [done|].
  apply IH in H. match goal with H : claim_states _ _ _ _ _ = _ |- _ => apply claim_states_keeps in H end.
  repeat match goal with K : keeps _ _ |- _ => destruct K end; split; cbn in *; congruence.
Qed.

Lemma handlePartly_keeps cur bid w w' :
  handlePartlyCoveredBranch cur bid w = Done w' -> keeps w w'.
Proof.
  unfold handlePartlyCoveredBranch. intros H. inv_done.
  all: apply claim_all_keeps in H.
  all: match goal with H : target_current _ _ _ _ = _ |- _ => apply target_current_keeps in H end.
  all: etrans; [eassumption|]; etrans; [|eassumption]; destruct cur; [apply promote_keeps|done].
Qed.

(** Chains the [keeps] facts of a run. *)
Ltac keep_all :=
  repeat match goal with K : keeps _ _ |- _ => destruct K end; split; cbn in *; congruence.

Lemma release_stores_keeps bid F sids w sv w' sv' :
  release_stores bid F sids w sv = (w', sv') -> keeps w w'.
Proof.
  revert w sv. induction sids as [|sid sids IH]; cbn [release_stores]; intros w sv H.
  { by simplify_eq. }
  destruct (decide _); apply IH in H; keep_all.
Qed.

Lemma release_states_keeps c bid sv l w k w' :
  release_states c bid sv l w = Done (k, w') -> keeps w w'.
Proof.
  revert w k. induction l as [|s l IH]; cbn [release_states]; intros w k H; inv_done; [done|..];
    repeat match goal with H : release_states _ _ _ _ _ = _ |- _ => apply IH in H end; keep_all.
Qed.

Lemma handleFully_keeps c bid w w' : handleFullyCoveredBranch c bid w = Done w' -> keeps w w'.
Proof.
  unfold handleFullyCoveredBranch. intros H. inv_done.
  match goal with H : release_stores _ _ _ _ _ = _ |- _ => apply release_stores_keeps in H end.
  match goal with H : release_states _ _ _ _ _ = _ |- _ => apply release_states_keeps in H end.
  keep_all.
Qed.

Lemma requeue_keeps c added w w' : requeue c added w = Done w' -> keeps w w'.
Proof. unfold requeue. intros H. inv_done; keep_all. Qed.

Lemma demote_if_keeps (b f : bool) c w : keeps w (if b then demote f c w else w).
Proof. destruct b; [apply demote_keeps|done]. Qed.

Lemma on_reach_branch_keeps c w w' : on_reach_branch c w = Done w' -> keeps w w'.
Proof.
  unfold on_reach_branch. intros H. inv_done; try done.
  - match goal with H : handleFullyCoveredBranch _ _ _ = _ |- _ => apply handleFully_keeps in H end.
    match goal with |- context [if ?b then demote ?f ?c ?w1 else ?w1] =>
      pose proof (demote_if_keeps b f c w1) end.
    keep_all.
  - match goal with |- context [if ?b then demote ?f ?c ?w1 else ?w1] =>
      pose proof (demote_if_keeps b f c w1) end.
    keep_all.
Qed.

Lemma keep_new_keeps c l w k w' : keep_new c l w = Done (k, w') -> keeps w w'.
Proof.
  revert w k. induction l as [|b l IH]; cbn [keep_new]; intros w k H; inv_done; [done|..];
    repeat match goal with
      | H : keep_new _ _ _ = _ |- _ => apply IH in H
      | H : isNewStoreValue _ _ _ _ = _ |- _ => apply isNewStoreValue_keeps in H end.
  - etrans; [eassumption|]. etrans; [apply promote_keeps|eassumption].
  - by etrans.
Qed.

Lemma on_reach_store_keeps c w w' : on_reach_store c w = Done w' -> keeps w w'.
Proof.
  unfold on_reach_store. intros H. inv_done; try done.
  match goal with H : keep_new _ _ _ = _ |- _ => apply keep_new_keeps in H end. keep_all.
Qed.

Lemma on_new_target_keeps c w w' : on_new_target c w = Done w' -> keeps w w'.
Proof.
  unfold on_new_target. intros H. inv_done; try done.
  match goal with H : handlePartlyCoveredBranch _ _ _ = _ |- _ => apply handlePartly_keeps in H end.
  keep_all.
Qed.

Lemma forget_targets_keeps l w k w' : forget_targets l w = Done (k, w') -> keeps w w'.
Proof.
  revert w k. induction l as [|s l IH]; cbn [forget_targets]; intros w k H; inv_done; [done|..];
    repeat match goal with H : forget_targets _ _ = _ |- _ => apply IH in H end; keep_all.
Qed.

Lemma add_states_keeps fs added w w' : add_states fs added w = Done w' -> keeps w w'.
Proof.
  revert w. induction added as [|s added IH]; cbn [add_states]; intros w H; inv_done; [done|].
  apply IH in H. etrans; [|eassumption]. case_match; by split.
Qed.

Lemma add_all_keeps cur added w w' : add_all cur added w = Done w' -> keeps w w'.
Proof. unfold add_all. intros H. inv_done; [by eapply add_states_keeps|by split]. Qed.

Lemma remove_all_keeps removed w : keeps w (remove_all removed w).
Proof.
  revert w. induction removed as [|s removed IH]; intros w; [done|]. cbn [remove_all].
  etrans; [|apply IH]. repeat case_match; by split.
Qed.

(** ** The lists of branches *)

(** Targets and waiting branches are distinct, there are at most
    [TargetBranchNum] targets, and a fully covered branch is neither; a covered
    switch has no uncovered value. *)
Record targets_ok (w : World) : Prop := MkTargetsOk {
  tg_nodup : NoDup (TB w ++ PCB w);
  tg_bound : Z.of_nat (length (TB w)) <= TargetBranchNum;
  tg_num : targetBranchNum w = TargetBranchNum;
  tg_covered : forall bid, bid ∈ FCB w -> bid ∉ TB w ++ PCB w;
  tg_switch : forall bid d, bid ∈ FCB w -> BDDeps w !! bid = Some d -> type d <> 0 ->
    unCoveredValues d = ∅
}.

Lemma keeps_targets w w' : keeps w w' -> targets_ok w -> targets_ok w'.
Proof.
  intros [K1 K2 K3 K4 K5] [T1 T2 T3 T4 T5].
  split; rewrite ?K1, ?K2, ?K3, ?K4, ?K5; auto.
Qed.

Lemma last_split {A} (l : list A) x : last l = Some x -> l = removelast l ++ [x].
Proof.
  intros H. destruct l as [|y l _] using rev_ind; [done|].
  rewrite last_snoc in H. simplify_eq. by rewrite removelast_last.
Qed.

Lemma retarget_targets k cur w w' :
  retarget k cur w = Done w' ->
  NoDup (TB w ++ PCB w) -> Z.of_nat (length (TB w)) + Z.of_nat k <= TargetBranchNum ->
  targetBranchNum w = TargetBranchNum ->
  NoDup (TB w' ++ PCB w') /\ Z.of_nat (length (TB w')) <= TargetBranchNum /\
  targetBranchNum w' = TargetBranchNum /\ FCB w' = FCB w /\ BDDeps w' = BDDeps w /\
  TB w' ++ PCB w' ⊆ TB w ++ PCB w.
Proof.
  revert w. induction k as [|k IH]; cbn [retarget]; intros w H Hn Hb Hnum.
  { inv_done. split_and!; auto. lia. }
  inv_done; [|split_and!; auto; lia].
  match goal with H : last (PCB w) = Some _ |- _ => apply last_split in H as HP end.
  match goal with H : handlePartlyCoveredBranch _ _ _ = _ |- _ => apply handlePartly_keeps in H end.
  match goal with K : keeps _ _ |- _ => destruct K as [K1 K2 K3 K4 K5]; cbn in * end.
  assert (TB w ++ PCB w ≡ₚ (TB w ++ [z]) ++ removelast (PCB w)) as Hp.
  { rewrite HP at 1. rewrite <- (assoc (++)). f_equiv. apply (comm (++)). }
  apply IH in H as (R1 & R2 & R3 & R4 & R5 & R6).
  - split_and!; try congruence. rewrite K1, K2, <- Hp in R6. done.
  - by rewrite K1, K2, <- Hp.
  - rewrite K1, length_app. cbn. lia.
  - congruence.
Qed.

Lemma refresh_targets_keeps_ok cur w w' :
  refresh_targets cur w = Done w' -> targets_ok w -> targets_ok w'.
Proof.
  unfold refresh_targets. intros H Hok. inv_done; [|done].
  match goal with H : forget_targets _ _ = _ |- _ => apply forget_targets_keeps in H as K end.
  pose proof (keeps_targets _ _ K Hok) as [T1 T2 T3 T4 T5].
  match goal with H : retarget _ _ _ = _ |- _ => apply retarget_targets in H as (R1 & R2 & R3 & R4 & R5 & R6) end;
    cbn in *.
  - split; cbn; auto; rewrite R4, ?R5; auto. intros bid Hb Hin. apply (T4 bid Hb). apply R6 in Hin. set_solver.
  - by apply NoDup_app in T1 as (_ & _ & ?).
  - rewrite T3. pose proof (Z.le_trans _ _ _ (Nat2Z.is_nonneg _) T2). lia.
  - done.
Qed.

Lemma CGS_update_targets cur added removed w w' :
  CGS_update cur added removed w = Done w' -> targets_ok w -> targets_ok w'.
Proof.
  unfold CGS_update. intros H Hok.
  apply bind_Done in H as (w1 & H1 & H). apply bind_Done in H as (w2 & H2 & H).
  apply bind_Done in H as (w3 & H3 & H). injection H as <-.
  assert (keeps w w1) as K1.
  { destruct cur as [c|]; [|by simplify_eq]. destruct (bool_decide _); [|by simplify_eq].
    apply bind_Done in H1 as (v1 & E1%requeue_keeps & H1).
    apply bind_Done in H1 as (v2 & E2%on_reach_branch_keeps & H1).
    apply bind_Done in H1 as (v3 & E3%on_reach_store_keeps & E4%on_new_target_keeps).
    by do 3 (etrans; [eassumption|]). }
  apply (keeps_targets w3); [apply remove_all_keeps|].
  apply (keeps_targets w2); [by eapply add_all_keeps|].
  eapply refresh_targets_keeps_ok; [done|]. by eapply keeps_targets.
Qed.

(** ** The handlers *)

Lemma put_keeps c e w : keeps w (put c e w).
Proof. by split. Qed.

Lemma reach_target_keeps c bid w w' : reach_target c bid w = Done w' -> keeps w w'.
Proof.
  unfold reach_target, count_reach. intros H. inv_done. cbv zeta.
  destruct (existsb _ _); [|done]. destruct (_ <? _); by split.
Qed.

Lemma first_reach_keeps bid w b w' : first_reach bid w = (b, w') -> keeps w w'.
Proof.
  unfold first_reach. cbv zeta. intros H. repeat case_match; simplify_eq; by split.
Qed.

Lemma erase_bid_perm bid l l' : erase_bid bid l = Some l' -> l ≡ₚ bid :: l'.
Proof.
  revert l'. unfold erase_bid. induction l as [|x l IH]; cbn; [done|]. intros l'.
  destruct (Z.eqb_spec bid x) as [->|]; [intros ?; by simplify_eq|].
  rewrite fmap_Some. intros (k & E & ->). rewrite (IH _ E). apply Permutation_swap.
Qed.

Lemma erase_bid_None bid l : erase_bid bid l = None -> bid ∉ l.
Proof.
  unfold erase_bid. induction l as [|x l IH]; cbn; [set_solver|].
  destruct (Z.eqb_spec bid x); [done|]. rewrite fmap_None. intros ?%IH. set_solver.
Qed.

Lemma add_target_ok bid w :
  targets_ok w -> bid ∉ TB w -> bid ∉ PCB w -> bid ∉ FCB w -> targets_ok (add_target bid w).
Proof.
  intros [T1 T2 T3 T4 T5] Ht Hp Hf. unfold add_target.
  destruct (Z.ltb_spec (Z.of_nat (length (TB w))) TargetBranchNum); split; cbn; auto.
  - apply (NoDup_Permutation_proper _ (bid :: TB w ++ PCB w)).
    + rewrite <- (assoc (++)). apply Permutation_sym, Permutation_middle.
    + apply NoDup_cons. set_solver.
  - rewrite length_app. cbn. lia.
  - intros b Hb. specialize (T4 b Hb). set_solver.
  - apply (NoDup_Permutation_proper _ (bid :: TB w ++ PCB w)).
    + rewrite (assoc (++)). apply (Permutation_app_comm _ [bid]).
    + apply NoDup_cons. set_solver.
  - intros b Hb. specialize (T4 b Hb). set_solver.
Qed.

#[local] Arguments erase_bid : simpl never.

(** The lists after a branch has been covered. *)
Lemma cover_lists bid w :
  NoDup (TB w ++ PCB w) -> Z.of_nat (length (TB w)) <= TargetBranchNum -> bid ∉ FCB w ->
  let w' := cover_target bid w in
  NoDup (TB w' ++ PCB w') /\ Z.of_nat (length (TB w')) <= TargetBranchNum /\
  TB w' ++ PCB w' ⊆ TB w ++ PCB w /\ bid ∉ TB w' ++ PCB w' /\
  FCB w' = FCB w ++ [bid] /\ BDDeps w' = BDDeps w /\ targetBranchNum w' = targetBranchNum w.
Proof.
  intros Hn Hb Hf. unfold cover_target. rewrite bool_decide_false by done. cbn.
  destruct (erase_bid bid (TB w)) as [l|] eqn:Et.
  - apply erase_bid_perm in Et.
    assert (NoDup (bid :: l ++ PCB w)) as Hn' by (by rewrite Et in Hn).
    apply NoDup_cons in Hn' as [Hnb Hnl].
    assert (length (TB w) = S (length l)) as Hl by (by rewrite Et).
    cbn. destruct (last (PCB w)) as [b|] eqn:El; cbn.
    + apply last_split in El as HP. 
      assert ((l ++ [b]) ++ removelast (PCB w) ≡ₚ l ++ PCB w) as Hp.
      { rewrite HP at 2. rewrite <- (assoc (++)). f_equiv. apply (comm (++)). }
            rewrite Hp, length_app. cbn. split_and!; auto; [lia|]. intros x Hx. rewrite Et. set_solver.
    + split_and!; auto; [lia|]. intros x Hx. rewrite Et. set_solver.
  - apply erase_bid_None in Et. destruct (erase_bid bid (PCB w)) as [l|] eqn:Ep; cbn.
    + apply erase_bid_perm in Ep. rewrite Ep in Hn. rewrite <- Permutation_middle in Hn.
      apply NoDup_cons in Hn as [? ?]. split_and!; auto. intros x Hx. rewrite Ep. set_solver.
    + apply erase_bid_None in Ep. split_and!; auto. set_solver.
Qed.

Lemma cover_target_ok bid w :
  targets_ok w ->
  (forall d, BDDeps w !! bid = Some d -> type d <> 0 -> unCoveredValues d = ∅) ->
  targets_ok (cover_target bid w).
Proof.
  intros Hok Hsw. destruct (decide (bid ∈ FCB w)) as [Hf|Hf].
  { unfold cover_target. by rewrite bool_decide_true by done. }
  destruct Hok as [T1 T2 T3 T4 T5].
  destruct (cover_lists bid w T1 T2 Hf) as (R1 & R2 & R3 & R4 & R5 & R6 & R7).
  split; auto; try congruence; rewrite R5.
  - intros b [Hb| ->%list_elem_of_singleton]%elem_of_app; [|done].
    intros Hin%R3. by apply (T4 b).
  - rewrite R6. intros b d [Hb| ->%list_elem_of_singleton]%elem_of_app; eauto.
Qed.

Lemma set_deps_ok bid d w :
  targets_ok w -> (bid ∈ FCB w -> type d <> 0 -> unCoveredValues d = ∅) ->
  targets_ok (set_BDDeps (<[bid := d]> (BDDeps w)) w).
Proof.
  intros [T1 T2 T3 T4 T5] Hd. split; cbn; auto.
  intros b d' Hb. rewrite lookup_insert_Some. intros [[<- <-]|[? ?]]; eauto.
Qed.

Lemma new_partly_covered_ok ev bid d w w' :
  targets_ok w -> bid ∉ TB w -> bid ∉ PCB w -> bid ∉ FCB w ->
  new_partly_covered ev bid d w = Done w' -> targets_ok w'.
Proof.
  intros Hok Ht Hp Hf H. unfold new_partly_covered in H.
  destruct (first_reach bid w) as [go w1] eqn:Ef. apply first_reach_keeps in Ef as K.
  pose proof (keeps_targets _ _ K Hok) as Hok1. destruct K as [K1 K2 K3 K4 K5].
  destruct go; cbn [negb] in H; [|by simplify_eq].
  destruct (br_values ev) as [[v1 v2]|]; [|simplify_eq; by eapply keeps_targets; [|apply Hok1]].
  apply bind_Done in H as (d' & _ & H). simplify_eq.
  apply add_target_ok; cbn; rewrite ?K1, ?K2, ?K3; auto. apply set_deps_ok; [done|].
  by rewrite K3.
Qed.

(** What the events of branch instructions have to do with the past: a branch
    once found fully covered stays so, and a br or a switch keeps its kind. *)
Definition br_coherent (ev : BrEvent) (w : World) : Prop :=
  forall bid, BI2ID w !! Some (br_inst ev) = Some bid ->
    (bid ∈ FCB w -> br_full ev = true) /\ forall d, BDDeps w !! bid = Some d -> type d = 0.

Definition switch_coherent (ev : SwitchEvent) (w : World) : Prop :=
  forall bid d, BI2ID w !! Some (sw_inst ev) = Some bid -> BDDeps w !! bid = Some d -> type d <> 0.

Lemma on_concrete_br_ok c ev w w' :
  targets_ok w -> br_coherent ev w -> on_concrete_br c ev w = Done w' -> targets_ok w'.
Proof.
  intros Hok Hco H. unfold on_concrete_br in H.
  destruct (BI2ID w !! Some (br_inst ev)) as [bid|] eqn:Eb; [|by simplify_eq].
  destruct (Hco bid Eb) as [Hfull Hty].
  apply bind_Done in H as (w1 & K%reach_target_keeps & H).
  pose proof (keeps_targets _ _ K Hok) as Hok1. destruct K as [K1 K2 K3 K4 K5].
  destruct (br_full ev); cbn [negb] in H.
  - simplify_eq. apply cover_target_ok; [done|]. rewrite K5. intros d Hd. by rewrite (Hty d Hd).
  - destruct (_ || _) eqn:Ec in H; [by simplify_eq|].
    apply orb_false_iff in Ec as [Ec Hp%bool_decide_eq_false].
    apply orb_false_iff in Ec as [_ Ht%bool_decide_eq_false].
    apply bind_Done in H as (d & _ & H). destruct (bool_decide _); [by simplify_eq|].
    eapply new_partly_covered_ok; [apply Hok1|done|done| |done]. rewrite K3.
    intros Hf. by specialize (Hfull Hf).
Qed.

Lemma on_switch_ok c ev w w' :
  targets_ok w -> switch_coherent ev w -> on_switch c ev w = Done w' -> targets_ok w'.
Proof.
  intros Hok Hco H. unfold on_switch in H.
  destruct (BI2ID w !! Some (sw_inst ev)) as [bid|] eqn:Eb; [|by simplify_eq].
  apply bind_Done in H as (w1 & K%reach_target_keeps & H).
  pose proof (keeps_targets _ _ K Hok) as Hok1. destruct K as [K1 K2 K3 K4 K5].
  apply bind_Done in H as (d & Hd & H). unfold deref in Hd.
  destruct (BDDeps w1 !! bid) as [d0|] eqn:Ed; [|done]. simplify_eq.
  rewrite K5 in Ed. pose proof (Hco bid d Eb Ed) as Hty.
  set (d1 := record_values _ d) in H. set (w2 := set_BDDeps _ w1) in H.
  assert (bid ∈ FCB w1 -> unCoveredValues d1 = ∅) as Hsw.
  { intros Hf. rewrite <- K5 in Ed. pose proof (tg_switch _ Hok1 bid d Hf Ed Hty) as Hu.
    subst d1. cbn. rewrite Hu. set_solver. }
  assert (targets_ok w2) as Hok2 by (apply set_deps_ok; auto).
  case_bool_decide as Hun; cbn [negb] in H.
  - simplify_eq. apply cover_target_ok; [done|]. intros d' Hd' _. subst w2. cbn in Hd'.
    rewrite lookup_insert_eq in Hd'. by simplify_eq.
  - destruct (_ || _) eqn:Ec in H; [by simplify_eq|].
    apply orb_false_iff in Ec as [Ec _].
    apply orb_false_iff in Ec as [Ec Hp%bool_decide_eq_false].
    apply orb_false_iff in Ec as [_ Ht%bool_decide_eq_false].
    destruct (first_reach bid w2) as [go w3] eqn:Ef. apply first_reach_keeps in Ef as K.
    pose proof (keeps_targets _ _ K Hok2) as Hok3. destruct K as [J1 J2 J3 J4 J5].
    simplify_eq. destruct go; [|done]. apply add_target_ok; rewrite ?J1, ?J2, ?J3; auto.
Qed.

Lemma announce_keeps c sid v bids w w' : announce c sid v bids w = Done w' -> keeps w w'.
Proof.
  revert w. induction bids as [|bid bids IH]; cbn [announce]; intros w H; inv_done; [done|..];
    apply IH in H; keep_all.
Qed.

Lemma on_store_keeps c ev w w' : on_store c ev w = Done w' -> keeps w w'.
Proof.
  unfold on_store. intros H. inv_done; try done. apply announce_keeps in H. keep_all.
Qed.

(** ** Runs *)

(** The steps of the main loop that touch the lists. *)
Inductive cgs_step : World -> World -> Prop :=
| step_br c ev w w' : br_coherent ev w -> on_concrete_br c ev w = Done w' -> cgs_step w w'
| step_symbolic i w : cgs_step w (on_symbolic_br i w)
| step_switch c ev w w' : switch_coherent ev w -> on_switch c ev w = Done w' -> cgs_step w w'
| step_store c ev w w' : on_store c ev w = Done w' -> cgs_step w w'
| step_update cur added removed w w' :
    CGS_update cur added removed w = Done w' -> cgs_step w w'.

Lemma cgs_step_ok w w' : cgs_step w w' -> targets_ok w -> targets_ok w'.
Proof.
  destruct 1; intros Hok.
  - by eapply on_concrete_br_ok.
  - eapply keeps_targets; [|done]. by split.
  - by eapply on_switch_ok.
  - eapply keeps_targets; [|done]. by eapply on_store_keeps.
  - by eapply CGS_update_targets.
Qed.

End Targets.

Section Facts.
Context {LI : LLVMInfo} {CT : CGSTables} {CO : CGSOptions}.

(** ** The uncovered side *)

Definition pred_known (p : Pred) : bool := match p with OtherPred _ => false | _ => true end.

Lemma uncovered_var_const_spec p c1 c2 u v :
  uncovered_var_const p c1 c2 = Some u ->
  pred_holds u v c2 = negb (Bool.eqb (pred_holds p v c2) (pred_holds p c1 c2)).
Proof.
  destruct p; cbn; intros ?; simplify_eq; cbn;
    repeat match goal with
      | |- context [?a =? ?b] => destruct (Z.eqb_spec a b)
      | |- context [?a <? ?b] => destruct (Z.ltb_spec a b)
      | |- context [?a <=? ?b] => destruct (Z.leb_spec a b)
      end; cbn; try done; lia.
Qed.

Lemma uncovered_const_var_spec p c1 c2 u q v :
  uncovered_const_var p c1 c2 = Some (u, q) ->
  pred_holds q v c1 = pred_holds p c1 v /\
  pred_holds u v c1 = negb (Bool.eqb (pred_holds q v c1) (pred_holds q c2 c1)).
Proof.
  destruct p; cbn; intros ?; simplify_eq; cbn;
    repeat match goal with
      | |- context [?a =? ?b] => destruct (Z.eqb_spec a b)
      | |- context [?a <? ?b] => destruct (Z.ltb_spec a b)
      | |- context [?a <=? ?b] => destruct (Z.leb_spec a b)
      end; cbn; try done; lia.
Qed.

(** ** The caches of isNewStoreValue *)

Lemma arith_value_idem d v : arith_value d (arith_value d v) = arith_value d v.
Proof.
  unfold arith_value. destruct (decide (arith_op d = "and"%string)) as [Ea|Ea],
    (decide (arith_op d = "or"%string)) as [Eo|Eo]; [by rewrite Ea in Eo|..|done].
  - by rewrite <- Z.land_assoc, Z.land_diag.
  - by rewrite <- Z.lor_assoc, Z.lor_diag.
Qed.

Lemma judge_idem d v : (judge d (judge d v).2).1 = (judge d v).1.
Proof. unfold judge. destruct (type d =? 0); cbn; [|done]. by rewrite arith_value_idem. Qed.

(** The cached values of branch [bid] are what the branch condition [d] says. *)
Definition cache_ok (bid : Z) (d : BDDep) (w : World) : Prop :=
  (forall v, v ∈ at_set (invalidStoreValues w) bid -> (judge d v).1 = false) /\
  (forall v, v ∈ at_set (validStoreValues w) bid -> (judge d v).1 = true).

Lemma at_set_insert {K A} `{Countable K, Countable A} (m : gmap K (gset A)) k s :
  at_set (<[k := s]> m) k = s.
Proof. unfold at_set. by rewrite lookup_insert_eq. Qed.

(** A branch without an entry: the value is taken for new, and kept as one that is
    not. *)
Lemma isNewStoreValue_first s bid sid w e d :
  heap w !! s = Some e -> invalidStoreValues w !! bid = None -> cache_ok bid d w ->
  let v := to_signed 32 (default 0 (storeValues e !! sid)) in
  exists w', isNewStoreValue s bid sid w = Done (true, w') /\
    invalidStoreValues w' !! bid = Some {[v]} /\ (cache_ok bid d w' <-> (judge d v).1 = false).
Proof.
  intros He Hi [_ C2] v. unfold isNewStoreValue, get. rewrite He.
  cbn [deref mbind outcome_bind]. fold v. cbn. rewrite Hi. eexists. split; [done|]. split; [apply lookup_insert_eq|].
  unfold cache_ok. cbn. rewrite at_set_insert. split.
  - intros [C1 _]. apply C1. set_solver.
  - intros Hv. split; [|done]. intros u ->%elem_of_singleton. done.
Qed.

Lemma isNewStoreValue_verdict s bid sid w e d :
  heap w !! s = Some e -> BDDeps w !! bid = Some d -> is_Some (invalidStoreValues w !! bid) ->
  cache_ok bid d w ->
  exists w', isNewStoreValue s bid sid w =
      Done ((judge d (to_signed 32 (default 0 (storeValues e !! sid)))).1, w') /\
    cache_ok bid d w'.
Proof.
  intros He Hd [iv Hi] [C1 C2]. unfold isNewStoreValue, get. rewrite He.
  cbn [deref mbind outcome_bind]. set (v := to_signed 32 _).
  unfold at_set in C1. rewrite Hi in C1. cbn in C1. set (w1 := put s _ w).
  change (invalidStoreValues w1) with (invalidStoreValues w).
  change (validStoreValues w1) with (validStoreValues w).
  change (BDDeps w1) with (BDDeps w). rewrite Hi, Hd. case_decide as Hv1.
  { cbn. rewrite (C1 v Hv1). eexists; split; [done|]. split; cbn; [|done].
    rewrite at_set_insert. intros u Hu. apply C1. set_solver. }
  case_decide as Hv2.
  { cbn. rewrite (C2 v Hv2). eexists; split; [done|]. split; cbn; [by unfold at_set; rewrite Hi|].
    rewrite at_set_insert. intros u Hu. apply C2. set_solver. }
  cbn. pose proof (judge_idem d v) as Hid.
  destruct (judge d v) as [b u] eqn:Ej. cbn in Hid. destruct b; cbn.
  - eexists; split; [done|]. split; cbn; [by unfold at_set; rewrite Hi|].
    rewrite at_set_insert. intros x [->%elem_of_singleton|Hx]%elem_of_union; auto.
  - eexists; split; [done|]. split; cbn; [|done].
    rewrite at_set_insert. intros x [->%elem_of_singleton|Hx]%elem_of_union; auto.
Qed.

(** ** Stores announce what update looks at *)

(** The counter is at most the number of pairs of the state that runs, and the
    state stops at a store or at a branch, not at both. *)
Definition announced (c : positive) (w : World) : Prop :=
  exists e, heap w !! c = Some e /\
    0 <= newBranchNumFromStore w <= Z.of_nat (length (branchInfos e)) /\
    (reachStore e = true -> reachBranch e = false).

Lemma announce_ok c sid v bids w :
  announced c w -> (forall bid, bid ∈ bids -> known w bid) ->
  exists w', announce c sid v bids w = Done w' /\ announced c w'.
Proof.
  revert w. induction bids as [|bid bids IH]; intros w Ha Hk; [by exists w|].
  cbn [announce]. set (w1 := set_invalidStoreValues _ w).
  assert (announced c w1) as Ha1 by done.
  assert (forall b, b ∈ bids -> known w1 b) as Hk1 by (intros; apply Hk; set_solver).
  case_decide; [by apply IH|].
  destruct (Hk bid ltac:(set_solver)) as [d Hd]. cbn [BDDeps set_invalidStoreValues] in *.
  change (BDDeps w1) with (BDDeps w). rewrite Hd. cbn [deref mbind outcome_bind].
  case_decide; [|by apply IH].
  destruct Ha1 as (e & He & Hn & Hf). unfold get. rewrite He. cbn [deref mbind outcome_bind].
  apply IH; [|done]. eexists. cbn. rewrite lookup_insert_eq. split; [done|]. cbn.
  rewrite length_app. cbn in *. split; [|done].
  pose proof (Z.mod_le (newBranchNumFromStore w + 1) (2 ^ 32)).
  pose proof (u32_range (newBranchNumFromStore w + 1)). unfold u32 in *. lia.
Qed.

Lemma drop_overwritten_flags sid v e :
  reachStore (drop_overwritten sid v e) = reachStore e /\
  reachBranch (drop_overwritten sid v e) = reachBranch e.
Proof. unfold drop_overwritten. by repeat case_match. Qed.

Lemma on_store_announces c ev w e :
  heap w !! c = Some e -> (reachStore e = true -> reachBranch e = false) ->
  newBranchNumFromStore w = 0 -> (forall bid, bid ∈ TB w -> known w bid) ->
  exists w', on_store c ev w = Done w' /\ announced c w'.
Proof.
  intros He Hf Hn Hk. unfold on_store. assert (announced c w) as Ha by (exists e; split_and!; auto; lia).
  destruct (st_value ev) as [v|]; [|by exists w]. case_match; [by exists w|].
  unfold get. rewrite He. cbn [deref mbind outcome_bind]. apply announce_ok; [|done].
  eexists. cbn. rewrite lookup_insert_eq. split; [done|]. cbn.
  destruct (drop_overwritten_flags (default 0 (SI2ID !! st_inst ev)) (u32 v) e) as [-> ->].
  split; [lia|done].
Qed.

(** ** When update is undefined *)

(** The counter is only reset for a state that goes on. *)
Lemma removed_keeps_counter c added removed w w' :
  c ∈ removed -> updateTargetBranch w = false ->
  CGS_update (Some c) added removed w = Done w' ->
  newBranchNumFromStore w' = newBranchNumFromStore w.
Proof.
  intros Hc Hu. unfold CGS_update. rewrite bool_decide_false by (by intros []).
  cbn [mbind outcome_bind]. unfold refresh_targets. rewrite Hu. cbn [mbind outcome_bind].
  intros H. apply bind_Done in H as (w1 & H1 & H). injection H as <-.
  assert (newBranchNumFromStore w1 = newBranchNumFromStore w) as <-.
  { unfold add_all in H1. apply bind_Done in H1 as (e & _ & H1). revert H1.
    generalize (at_set (funcStores w) (block_function (inst_block (pc e)))). intros fs. clear.
    revert w. induction added as [|s added IH]; cbn [add_states]; intros w H; inv_done; [done|].
    apply IH in H. rewrite H. by case_match. }
  clear. revert w1. induction removed as [|s removed IH]; intros w1; [done|]. cbn [remove_all].
  rewrite IH. by repeat case_match.
Qed.

Lemma stale_counter_undefined s e removed w :
  heap w !! s = Some e -> reachBranch e = false -> reachStore e = true -> s ∉ removed ->
  Z.of_nat (length (branchInfos e)) < newBranchNumFromStore w ->
  CGS_update (Some s) [] removed w = Undefined.
Proof.
  intros He Hb Hs Hr Hn. unfold CGS_update. rewrite bool_decide_true by done.
  unfold requeue, on_reach_branch, on_reach_store, get.
  rewrite (bool_decide_true (@nil positive = [])) by done. cbn [mbind outcome_bind].
  rewrite He. cbn [deref mbind outcome_bind]. rewrite Hb. cbn [negb mbind outcome_bind].
  rewrite He. cbn [deref mbind outcome_bind]. rewrite Hs. cbn [negb].
  by rewrite (proj2 (Z.leb_gt _ _) Hn).
Qed.

Lemma requeue_elsewhere c added removed w :
  c ∉ branch_states w -> branch_states w <> [] -> added <> [] -> c ∉ removed ->
  CGS_update (Some c) added removed w = Undefined.
Proof.
  intros Hc Hb Ha Hr. unfold CGS_update. rewrite bool_decide_true by done.
  unfold requeue. rewrite !bool_decide_false by done.
  apply vec_erase_None in Hc. by rewrite Hc.
Qed.

End Facts.
