(* ===== verification/CGSRun.v ===== *)
(** The main loop around [CGSSearcher]: the executor selects a state, runs one
    instruction of it with its handler, and updates the searcher.  What one
    round leaves is what the next one needs. *)
From stdpp Require Import base list numbers gmap strings.
From Stdlib Require Import ZArith Lia.
From S2P Require Import Prelude APInt Searcher CGSWorld CGSSearcher CGSContract.
From S2P Require Import CGSExecutor CGSTargets.
Local Open Scope Z_scope.

Section Run.
Context {LI : LLVMInfo} {CT : CGSTables} {CO : CGSOptions}.

(** ** A round *)

(** The handler that runs: that of a br on a concrete or a symbolic condition,
    of a switch on a concrete value, of a store, or none. *)
Inductive Event : Type :=
| EvBr (ev : BrEvent)
| EvSymbolicBr (i : positive)
| EvSwitch (ev : SwitchEvent)
| EvStore (ev : StoreEvent)
| EvOther.

Definition run_event (c : positive) (ev : Event) (w : World) : outcome World :=
  match ev with
  | EvBr ev => on_concrete_br c ev w
  | EvSymbolicBr i => Done (on_symbolic_br i w)
  | EvSwitch ev => on_switch c ev w
  | EvStore ev => on_store c ev w
  | EvOther => Done w
  end.

(** What stays when [ExecutionState] is copied or steps. *)
Definition same_search (e e' : ExecutionState) : Prop :=
  branchInfos e' = branchInfos e /\ storeValues e' = storeValues e /\
  reachStore e' = reachStore e /\ reachBranch e' = reachBranch e.

(** [stepInstruction] and the forks of [executeInstruction]: the state moves,
    and the new states are copies of it. *)
Record executes (c : positive) (added : list positive) (w w1 : World) : Prop := MkExecutes {
  ex_heap : exists h, w1 = set_heap h w;
  ex_others : forall s, s <> c -> s ∉ added -> heap w1 !! s = heap w !! s;
  ex_copies : forall s e, s = c \/ s ∈ added -> heap w !! c = Some e ->
    exists e', heap w1 !! s = Some e' /\ same_search e e'
}.

(** The event is that of the instruction the state has just run; the comparison
    of a br has one constant operand, as those the metadata lists. *)
Definition event_ok (c : positive) (ev : Event) (w : World) : Prop :=
  match ev with
  | EvBr ev =>
      isBranchInst (br_inst ev) = true /\ br_const ev <> (true, true) /\ br_const ev <> (false, false) /\
      forall e, heap w !! c = Some e -> prevPC e = br_inst ev
  | EvSwitch ev => forall e, heap w !! c = Some e -> isBranchInst (prevPC e) = false
  | _ => True
  end.

(** ** What the executor's side does to the shared state *)

Definition tables_ok (w : World) : Prop :=
  forall i bid, BI2ID w !! Some i = Some bid -> known w bid /\ is_Some (ID2BI !! bid).

Definition covered_ok (w : World) : Prop :=
  exists bid, last (FCB w) = Some bid /\ known w bid /\ is_Some (ID2BI !! bid).

(** The part of a handler that only changes the lists and the metadata. *)
Record books (w w' : World) : Prop := MkBooks {
  bk_heap : heap w' = heap w;
  bk_lists : same_lists w w';
  bk_BI : BI2ID w' = BI2ID w;
  bk_num : newBranchNumFromStore w' = newBranchNumFromStore w;
  bk_known : forall bid, known w bid -> known w' bid;
  bk_targets : forall bid, bid ∈ TB w' ++ PCB w' -> bid ∈ TB w ++ PCB w \/ known w' bid;
  bk_covered : newFullyCoveredBranch w' = true ->
    (newFullyCoveredBranch w = true /\ FCB w' = FCB w) \/ covered_ok w'
}.

#[local] Instance books_refl : Reflexive books.
Proof. split; unfold same_lists; auto. Qed.

#[local] Instance books_trans : Transitive books.
Proof.
  intros w1 w2 w3 [A1 [A2 A2'] A3 A4 A5 A6 A7] [B1 [B2 B2'] B3 B4 B5 B6 B7].
  split; unfold same_lists; try congruence; auto.
  - split; congruence.
  - intros bid [H|H]%B6; [|auto]. apply A6 in H as [?|?]; auto.
  - intros [[H E]|H]%B7; [|auto]. apply A7 in H as [[? E']|(bid & ? & ? & ?)].
    + left. split; congruence.
    + right. exists bid. rewrite E. auto.
Qed.

Lemma books_infos w w' : books w w' -> infos_known w -> infos_known w'.
Proof.
  intros B Hi s e. rewrite (bk_heap _ _ B). intros He.
  eapply Forall_impl; [by apply (Hi s)|]. intros b. apply (bk_known _ _ B).
Qed.

Lemma books_ok w w' : books w w' -> world_ok w -> world_ok w'.
Proof.
  intros B [O1 O2 O3 O4 O5]. destruct (bk_lists _ _ B) as [L1 L2].
  split; unfold held in *; rewrite ?L1, ?L2, ?(bk_heap _ _ B); auto.
  - by eapply books_infos.
  - intros bid [H|H]%(bk_targets _ _ B); [|done]. by apply (bk_known _ _ B), O4.
  - intros [[H E]|H]%(bk_covered _ _ B); [|done]. rewrite E. apply O5 in H as (bid & ? & ? & ?).
    exists bid. split_and!; auto. by apply (bk_known _ _ B).
Qed.

Lemma books_tables w w' : books w w' -> tables_ok w -> tables_ok w'.
Proof.
  intros B Ht i bid. rewrite (bk_BI _ _ B). intros H. apply Ht in H as [? ?].
  split; [|done]. by apply (bk_known _ _ B).
Qed.

(** Nothing but counters. *)
Ltac books_same := split; unfold same_lists; cbn; auto.

Lemma first_reach_books bid w go w' : first_reach bid w = (go, w') -> books w w'.
Proof. unfold first_reach. intros H. repeat case_match; simplify_eq; books_same. Qed.

Lemma set_dep_books bid d w : books w (set_BDDeps (<[bid := d]> (BDDeps w)) w).
Proof.
  books_same. unfold known. cbn. intros b [d' Hd]. destruct (decide (bid = b)) as [->|].
  - rewrite lookup_insert_eq. eauto.
  - rewrite lookup_insert_ne by done. eauto.
Qed.

Lemma add_target_books bid w : known w bid -> books w (add_target bid w).
Proof.
  intros Hk. unfold add_target. case_match; books_same; intros b Hb; set_unfold; naive_solver.
Qed.

Lemma erase_bid_subset bid l l' : erase_bid bid l = Some l' -> l' ⊆ l.
Proof. intros H%erase_bid_perm. rewrite H. set_solver. Qed.

Lemma removelast_subset {A} (l : list A) : removelast l ⊆ l.
Proof.
  destruct l as [|x l _] using rev_ind; [done|]. rewrite removelast_last. set_solver.
Qed.

Lemma last_in {A} (l : list A) x : last l = Some x -> x ∈ l.
Proof. intros ->%last_split. set_solver. Qed.

Lemma cover_target_books bid w : known w bid -> is_Some (ID2BI !! bid) -> books w (cover_target bid w).
Proof.
  intros Hk Hi. unfold cover_target. case_bool_decide as Hf; [done|].
  set (w1 := set_FCB _ w). set (w2 := match erase_bid _ _ with Some _ => _ | None => _ end).
  assert (heap w2 = heap w /\ same_lists w w2 /\ BI2ID w2 = BI2ID w /\
    newBranchNumFromStore w2 = newBranchNumFromStore w /\ BDDeps w2 = BDDeps w /\
    FCB w2 = FCB w ++ [bid] /\ TB w2 ++ PCB w2 ⊆ TB w ++ PCB w) as (H1 & H2 & H3 & H4 & H5 & H6 & H7).
  { subst w2 w1. cbn. unfold same_lists. repeat case_match; cbn; split_and!; try done;
      intros x; rewrite ?elem_of_app, ?list_elem_of_singleton;
      repeat match goal with
        | H : erase_first _ _ = Some _ |- _ => apply (erase_bid_subset bid) in H
        | H : last _ = Some _ |- _ => pose proof (last_in _ _ H); clear H
        end; pose proof (removelast_subset (PCB w)); set_solver. }
  change (books w (set_newFullyCoveredBranch true w2)).
  assert (forall b, known (set_newFullyCoveredBranch true w2) b <-> known w b) as Hkn.
  { intros b. unfold known. cbn [BDDeps set_newFullyCoveredBranch]. by rewrite H5. }
  split; cbn [heap BI2ID newBranchNumFromStore TB PCB FCB set_newFullyCoveredBranch]; auto.
  - intros b. apply Hkn.
  - intros _. right. exists bid. cbn [FCB set_newFullyCoveredBranch]. rewrite H6, last_snoc, Hkn. done.
Qed.

(** The part of a handler that changes the state that runs. *)
Record same_but (c : positive) (w w' : World) : Prop := MkSameBut {
  sb_others : forall s, s <> c -> heap w' !! s = heap w !! s;
  sb_lists : same_lists w w';
  sb_BI : BI2ID w' = BI2ID w;
  sb_deps : BDDeps w' = BDDeps w;
  sb_TB : TB w' = TB w;
  sb_PCB : PCB w' = PCB w;
  sb_FCB : FCB w' = FCB w;
  sb_full : newFullyCoveredBranch w' = newFullyCoveredBranch w
}.

#[local] Instance same_but_refl c : Reflexive (same_but c).
Proof. split; unfold same_lists; auto. Qed.

#[local] Instance same_but_trans c : Transitive (same_but c).
Proof.
  intros w1 w2 w3 [A1 [A2 A2'] A3 A4 A5 A6 A7 A8] [B1 [B2 B2'] B3 B4 B5 B6 B7 B8].
  split; unfold same_lists; try congruence; [|split; congruence].
  intros s Hs. by rewrite B1, A1.
Qed.

Lemma same_but_put c e w : same_but c w (put c e w).
Proof. split; try done. intros s Hs. cbn. by rewrite lookup_insert_ne. Qed.

(** The entry of [c], with its targets known. *)
Definition entry (c : positive) (w : World) (P : ExecutionState -> Prop) : Prop :=
  exists e, heap w !! c = Some e /\ Forall (fun b => known w (targetBranchID b)) (branchInfos e) /\ P e.

Lemma same_but_ok c w w' P : world_ok w -> same_but c w w' -> entry c w' P -> world_ok w'.
Proof.
  intros [O1 O2 O3 O4 O5] [B1 [B2 B2'] B3 B4 B5 B6 B7 B8] (e & He & Hi & _).
  assert (forall bid, known w' bid <-> known w bid) as Hk by (intros; unfold known; by rewrite B4).
  split; unfold held in *; rewrite ?B2, ?B2', ?B5, ?B6, ?B7, ?B8; auto.
  - intros s Hs. destruct (decide (s = c)) as [->|]; [eauto|]. rewrite B1 by done. auto.
  - intros s e' He'. destruct (decide (s = c)) as [->|]; [by simplify_eq|].
    rewrite B1 in He' by done. eapply Forall_impl; [by apply (O3 s)|]. intros b. apply Hk.
  - intros bid Hb. by apply Hk, O4.
  - intros Hf. destruct (O5 Hf) as (bid & ? & ? & ?). exists bid. by rewrite Hk.
Qed.

(** ** The handlers return, and leave what update needs *)

(** The state [c] and the counter of announced pairs after the handler. *)
Definition stopped (c : positive) (w : World) (e : ExecutionState) : Prop :=
  (reachStore e = true -> reachBranch e = false) /\
  (if reachStore e then newBranchNumFromStore w <= Z.of_nat (length (branchInfos e))
   else newBranchNumFromStore w = 0) /\
  (reachBranch e = true -> isBranchInst (prevPC e) = true -> is_Some (BI2ID w !! Some (prevPC e))).

Record handled (c : positive) (w w' : World) : Prop := MkHandled {
  hd_ok : world_ok w';
  hd_lists : same_lists w w';
  hd_others : forall s, s <> c -> heap w' !! s = heap w !! s;
  hd_tables : tables_ok w';
  hd_stopped : entry c w' (stopped c w')
}.

(** Before the handler: the flags are down and nothing is announced. *)
Definition poised (c : positive) (w : World) : Prop :=
  world_ok w /\ tables_ok w /\ newBranchNumFromStore w = 0 /\
  entry c w (fun e => reachStore e = false /\ reachBranch e = false).

Lemma handled_by c w w1 w2 :
  world_ok w -> tables_ok w -> same_but c w w1 -> entry c w1 (stopped c w1) -> books w1 w2 ->
  handled c w w2.
Proof.
  intros Hok Ht B He K. destruct (bk_lists _ _ K) as [L1 L2]. destruct (sb_lists _ _ _ B) as [L3 L4].
  assert (world_ok w1) as Hok1 by (by eapply same_but_ok).
  assert (tables_ok w1) as Ht1.
  { intros i bid. rewrite (sb_BI _ _ _ B). intros [H ?]%Ht. split; [|done].
    unfold known. by rewrite (sb_deps _ _ _ B). }
  split.
  - by eapply books_ok.
  - split; congruence.
  - intros s Hs. by rewrite (bk_heap _ _ K), (sb_others _ _ _ B).
  - by eapply books_tables.
  - destruct He as (e & He & Hi & H1 & H2 & H3). exists e. rewrite (bk_heap _ _ K).
    split; [done|]. split; [eapply Forall_impl; [done|]; intros b; apply (bk_known _ _ K)|].
    unfold stopped. by rewrite (bk_num _ _ K), (bk_BI _ _ K).
Qed.

(** Nothing to announce. *)
Lemma poised_stopped c w : poised c w -> entry c w (stopped c w).
Proof.
  intros (_ & _ & Hn & e & He & Hi & Hs & Hb). exists e. split; [done|]. split; [done|].
  unfold stopped. by rewrite Hs, Hb.
Qed.

Lemma poised_handled c w w' : poised c w -> books w w' -> handled c w w'.
Proof.
  intros Hp K. pose proof Hp as (Hok & Ht & _). eapply handled_by; [done..| |done].
  by apply poised_stopped.
Qed.

Lemma reach_target_ok c bid i w :
  poised c w -> BI2ID w !! Some i = Some bid ->
  (forall e, heap w !! c = Some e -> isBranchInst (prevPC e) = true -> prevPC e = i) ->
  exists w1, reach_target c bid w = Done w1 /\ same_but c w w1 /\ entry c w1 (stopped c w1).
Proof.
  intros Hp Hb Hpc. pose proof Hp as (Hok & Ht & Hn & e & He & Hi & Hs & Hr).
  unfold reach_target, get. rewrite He. cbn [deref mbind outcome_bind].
  destruct (existsb _ _); [|exists w; split; [done|split; [done|by apply poised_stopped]]].
  eexists; split; [done|]. set (w1 := put _ _ _).
  assert (same_but c w1 (count_reach bid w1)) as Bc by (unfold count_reach; case_match; by split).
  assert (heap (count_reach bid w1) = heap w1 /\ newBranchNumFromStore (count_reach bid w1) = 0)
    as [Hh Hn'] by (unfold count_reach; case_match; done).
  split; [etrans; [apply same_but_put|done]|].
  eexists. rewrite Hh. split; [apply lookup_insert_eq|]. cbn.
  split.
  - eapply Forall_impl; [done|]. intros b. unfold known. by rewrite (sb_deps _ _ _ Bc).
  - unfold stopped. cbn. rewrite Hs, Hn', (sb_BI _ _ _ Bc). split_and!; [done|done|].
    intros _ Hbr. rewrite (Hpc e He Hbr). cbn. eauto.
Qed.

Lemma new_partly_covered_books ev bid d w :
  known w bid -> br_const ev <> (true, true) -> br_const ev <> (false, false) ->
  exists w', new_partly_covered ev bid d w = Done w' /\ books w w'.
Proof.
  intros Hk Hc1 Hc2. unfold new_partly_covered.
  destruct (first_reach bid w) as [go w1] eqn:Ef. apply first_reach_books in Ef.
  destruct go; cbn [negb]; [|eauto]. destruct (br_values ev) as [[v1 v2]|].
  2: { eexists; split; [done|]. etrans; [done|]. books_same. }
  assert (exists d', record_condition (br_const ev).1 (br_const ev).2
            (to_signed 32 (u32 v1)) (to_signed 32 (u32 v2)) d = Done d') as (d' & ->).
  { destruct (br_const ev) as [[] []]; try done; cbn; [|eauto].
    destruct (default _ _); eauto. }
  cbn [mbind outcome_bind]. eexists; split; [done|]. etrans; [done|].
  etrans; [apply (set_dep_books bid)|]. apply add_target_books.
  unfold known. cbn. rewrite lookup_insert_eq. eauto.
Qed.

Lemma on_concrete_br_handled c ev w :
  poised c w -> event_ok c (EvBr ev) w ->
  exists w', on_concrete_br c ev w = Done w' /\ handled c w w'.
Proof.
  intros Hp (Hbr & Hc1 & Hc2 & Hpc). pose proof Hp as (Hok & Ht & _). unfold on_concrete_br.
  destruct (BI2ID w !! Some (br_inst ev)) as [bid|] eqn:Eb; [|eauto using poised_handled, books_refl].
  destruct (reach_target_ok c bid (br_inst ev) w Hp Eb) as (w1 & -> & B & He); [by eauto|].
  cbn [mbind outcome_bind]. destruct (Ht _ _ Eb) as [Hk Hid].
  assert (known w1 bid) as Hk1 by (unfold known; by rewrite (sb_deps _ _ _ B)).
  assert (forall w2, books w1 w2 -> handled c w w2) as Hend by (intros; by eapply handled_by).
  destruct (br_full ev); cbn [negb]; [eauto using cover_target_books|].
  destruct (_ || _); [eauto using books_refl|].
  destruct Hk1 as [d Hd]. rewrite Hd. cbn [deref mbind outcome_bind].
  case_bool_decide; [eauto using books_refl|].
  destruct (new_partly_covered_books ev bid d w1) as (w2 & E & K); [by exists d|done..|]. eauto.
Qed.

Lemma on_switch_handled c ev w :
  poised c w -> event_ok c (EvSwitch ev) w ->
  exists w', on_switch c ev w = Done w' /\ handled c w w'.
Proof.
  intros Hp Hpc. pose proof Hp as (Hok & Ht & _). unfold on_switch. cbn in Hpc.
  destruct (BI2ID w !! Some (sw_inst ev)) as [bid|] eqn:Eb; [|eauto using poised_handled, books_refl].
  destruct (reach_target_ok c bid (sw_inst ev) w Hp Eb) as (w1 & -> & B & He).
  { intros e E H. by rewrite Hpc in H. }
  cbn [mbind outcome_bind]. destruct (Ht _ _ Eb) as [Hk Hid].
  assert (known w1 bid) as [d Hd] by (unfold known; by rewrite (sb_deps _ _ _ B)).
  rewrite Hd. cbn [deref mbind outcome_bind]. set (d1 := record_values _ d).
  set (w2 := set_BDDeps _ w1). pose proof (set_dep_books bid d1 w1) as K2. fold w2 in K2.
  assert (known w2 bid) as Hk2 by (by apply (bk_known _ _ K2); exists d).
  assert (forall w3, books w2 w3 -> handled c w w3) as Hend
    by (intros w3 K3; eapply handled_by; [done..|by etrans]).
  destruct (bool_decide _); cbn [negb]; [eauto using cover_target_books|].
  destruct (_ || _); [eauto using books_refl|].
  destruct (first_reach bid w2) as [go w3] eqn:Ef. apply first_reach_books in Ef.
  eexists; split; [done|]. apply Hend. etrans; [done|]. destruct go; [|done].
  apply add_target_books. by apply (bk_known _ _ Ef).
Qed.

(** While a store announces pairs, the counter is at most their number. *)
Definition storing (w : World) (e : ExecutionState) : Prop :=
  reachBranch e = false /\ 0 <= newBranchNumFromStore w /\
  (if reachStore e then newBranchNumFromStore w <= Z.of_nat (length (branchInfos e))
   else newBranchNumFromStore w = 0).

Lemma announce_handled c sid v bids w :
  entry c w (storing w) -> (forall bid, bid ∈ bids -> known w bid) ->
  exists w', announce c sid v bids w = Done w' /\ same_but c w w' /\ entry c w' (storing w').
Proof.
  revert w. induction bids as [|bid bids IH]; intros w He Hk; [by exists w|].
  cbn [announce]. set (w1 := set_invalidStoreValues _ w).
  assert (same_but c w w1) as B1 by by split.
  assert (forall b, b ∈ bids -> known w1 b) as Hk1 by (intros; apply Hk; set_solver).
  assert (exists w', announce c sid v bids w1 = Done w' /\ same_but c w w' /\ entry c w' (storing w'))
    as Hskip.
  { destruct (IH w1 He Hk1) as (w' & -> & B & ?). exists w'. split; [done|]. by split; [etrans|]. }
  case_decide; [done|]. destruct (Hk bid ltac:(set_solver)) as [d Hd].
  change (BDDeps w1) with (BDDeps w). rewrite Hd. cbn [deref mbind outcome_bind].
  case_decide; [|done]. clear Hskip. destruct He as (e & He & Hi & Hb & Hn & Hlen).
  unfold get. change (heap w1) with (heap w). rewrite He. cbn [deref mbind outcome_bind].
  set (e' := push_info _ _). set (w2 := set_newBranchNumFromStore _ _).
  assert (same_but c w1 w2) as B2 by (etrans; [apply (same_but_put c e')|]; by split).
  destruct (IH w2) as (w' & -> & B & Hw').
  - exists e'. split; [apply lookup_insert_eq|]. split.
    + apply Forall_app. split; [done|]. constructor; [|done]. by exists d.
    + unfold storing. cbn. rewrite length_app. cbn.
      pose proof (u32_range (newBranchNumFromStore w + 1)).
      pose proof (Z.mod_le (newBranchNumFromStore w + 1) (2 ^ 32)). unfold u32 in *.
      split_and!; [done|lia|]. destruct (reachStore e); lia.
  - done.
  - exists w'. split; [done|]. split; [|done]. by do 2 (etrans; [done|]).
Qed.

Lemma drop_overwritten_infos sid v e : branchInfos (drop_overwritten sid v e) ⊆ branchInfos e.
Proof.
  unfold drop_overwritten. repeat case_match; try done. cbn.
  destruct (erase_first _ _) as [l|] eqn:E; [|done]. by eapply erase_first_subset.
Qed.

Lemma on_store_handled c ev w :
  poised c w -> exists w', on_store c ev w = Done w' /\ handled c w w'.
Proof.
  intros Hp. pose proof Hp as (Hok & Ht & Hn & e & He & Hi & Hs & Hb). unfold on_store.
  destruct (st_value ev) as [v|]; [|eauto using poised_handled, books_refl].
  set (sid := default 0 _). destruct (sid =? 0); [eauto using poised_handled, books_refl|].
  unfold get. rewrite He. cbn [deref mbind outcome_bind]. set (e' := set_storeValues _ _).
  destruct (drop_overwritten_flags sid (u32 v) e) as [F1 F2].
  pose proof (drop_overwritten_infos sid (u32 v) e) as Hsub.
  destruct (announce_handled c sid (u32 v) (TB w) (put c e' w)) as (w' & -> & B & (e2 & He2 & Hi2 & Hb2 & Hn2 & Hl2)).
  - exists e'. split; [apply lookup_insert_eq|]. split.
    + cbn. rewrite Forall_forall in Hi |- *. intros b Hin. by apply Hi, Hsub.
    + unfold storing. cbn. rewrite F1, F2, Hs, Hb, Hn. done.
  - intros bid Hin. apply (ok_targets _ Hok). set_solver.
  - exists w'. split; [done|]. eapply handled_by; [done|done| | |reflexivity].
    + etrans; [apply (same_but_put c e')|done].
    + exists e2. split; [done|]. split; [done|]. unfold stopped. rewrite Hb2. by split_and!.
Qed.

Lemma run_event_handled c ev w :
  poised c w -> event_ok c ev w -> exists w', run_event c ev w = Done w' /\ handled c w w'.
Proof.
  intros Hp He. destruct ev as [ev|i|ev|ev|]; cbn [run_event].
  - by apply on_concrete_br_handled.
  - exists (on_symbolic_br i w). split; [done|]. pose proof Hp as (Hok & Ht & Hn & Hc).
    unfold on_symbolic_br. split; try done.
    + destruct Hok. by split.
    + intros j bid. cbn. rewrite lookup_delete_Some. intros [_ H]. exact (Ht j bid H).
    + destruct Hc as (e & He1 & Hi & Hs & Hb). exists e. split; [done|]. split; [done|].
      unfold stopped. by rewrite Hs, Hb.
  - by apply on_switch_handled.
  - by apply on_store_handled.
  - eauto using poised_handled, books_refl.
Qed.

(** ** What update leaves of the flags *)

(** Flags are only taken down, the counter only reset, and no branch instruction
    gets another id. *)
Record calm (w w' : World) : Prop := MkCalm {
  cm_deps : BDDeps w' = BDDeps w;
  cm_BI : forall i bid, BI2ID w' !! Some i = Some bid -> BI2ID w !! Some i = Some bid;
  cm_num : newBranchNumFromStore w' = newBranchNumFromStore w \/ newBranchNumFromStore w' = 0;
  cm_flags : forall s e', heap w' !! s = Some e' -> exists e, heap w !! s = Some e /\
    (reachStore e' = true -> reachStore e = true) /\ (reachBranch e' = true -> reachBranch e = true)
}.

#[local] Instance calm_refl : Reflexive calm.
Proof. split; eauto. Qed.

#[local] Instance calm_trans : Transitive calm.
Proof.
  intros w1 w2 w3 [A0 A1 A2 A3] [B0 B1 B2 B3]. split; [congruence|auto|destruct A2, B2; [left|right..]; congruence|].
  intros s e3 (e2 & (e1 & ? & ? & ?)%A3 & ? & ?)%B3. exists e1. auto.
Qed.

Lemma calm_same w w' :
  heap w' = heap w -> BI2ID w' = BI2ID w -> newBranchNumFromStore w' = newBranchNumFromStore w ->
  BDDeps w' = BDDeps w -> calm w w'.
Proof. intros H1 H2 H3 H4. split; rewrite ?H1, ?H2; eauto. Qed.

Lemma calm_put s e e' w w' : heap w !! s = Some e ->
  (reachStore e' = true -> reachStore e = true) -> (reachBranch e' = true -> reachBranch e = true) ->
  calm (put s e' w) w' -> calm w w'.
Proof.
  intros He H1 H2. apply calm_trans. split; [done|done|by left|]. intros s' e2. cbn.
  rewrite lookup_insert_Some. intros [[<- <-]|[? ?]]; eauto.
Qed.

Lemma isNewStoreValue_calm s bid sid w b w' : isNewStoreValue s bid sid w = Done (b, w') -> calm w w'.
Proof.
  unfold isNewStoreValue. intros H. inv_done; (eapply calm_put; [eassumption| | |by apply calm_same]); done.
Qed.

(** Changes of the containers and the lists. *)
Lemma calm_step w w1 w' : calm w1 w' ->
  heap w1 = heap w -> BI2ID w1 = BI2ID w -> newBranchNumFromStore w1 = newBranchNumFromStore w ->
  BDDeps w1 = BDDeps w -> calm w w'.
Proof. intros H ????. etrans; [|done]. by apply calm_same. Qed.

(** Follows a chain of calls and stores. *)
Ltac calm_forward :=
  repeat match goal with
    | H : isNewStoreValue _ _ _ _ = Done _ |- _ => apply isNewStoreValue_calm in H
    | H : calm (put ?s ?e' ?w) ?w', E : heap ?w !! ?s = Some ?e |- _ =>
        apply (calm_put s e e' w w' E) in H; [|done|done]
    | H : calm (set_branch_states _ ?w) _ |- _ => apply (calm_step w) in H; [|done..]
    | H : calm (set_states _ ?w) _ |- _ => apply (calm_step w) in H; [|done..]
    | H : calm (set_funcStores _ ?w) _ |- _ => apply (calm_step w) in H; [|done..]
    | H : calm (set_storetTobranches _ ?w) _ |- _ => apply (calm_step w) in H; [|done..]
    | H : calm (set_TB _ ?w) _ |- _ => apply (calm_step w) in H; [|done..]
    | H : calm (set_PCB _ ?w) _ |- _ => apply (calm_step w) in H; [|done..]
    end.

Ltac calm_run :=
  calm_forward;
  solve [ reflexivity | eassumption | by apply calm_same
        | repeat (first [eassumption|by apply calm_same|eapply calm_trans; [eassumption|]]) ].

Lemma promote_calm c w : calm w (promote c w).
Proof. unfold promote. case_match; by apply calm_same. Qed.

Lemma demote_calm b c w : calm w (demote b c w).
Proof. unfold demote. case_match; by apply calm_same. Qed.

Lemma target_current_calm cur bid sids w w' : target_current cur bid sids w = Done w' -> calm w w'.
Proof.
  revert w. induction sids as [|sid sids IH]; cbn [target_current]; intros w H; inv_done; [done|..];
    match goal with H : target_current _ _ _ _ = _ |- _ => apply IH in H end; calm_run.
Qed.

Lemma claim_states_calm cur bid sid l w k w' :
  claim_states cur bid sid l w = Done (k, w') -> calm w w'.
Proof.
  revert w k. induction l as [|s l IH]; cbn [claim_states]; intros w k H; inv_done; [done|..];
    match goal with H : claim_states _ _ _ _ _ = _ |- _ => apply IH in H end; calm_run.
Qed.

Lemma claim_all_calm cur bid sids w w' : claim_all cur bid sids w = Done w' -> calm w w'.
Proof.
  revert w. induction sids as [|sid sids IH]; cbn [claim_all]; intros w H; inv_done; [done|].
  apply IH in H. match goal with H : claim_states _ _ _ _ _ = _ |- _ => apply claim_states_calm in H end.
  calm_run.
Qed.

Lemma handlePartly_calm cur bid w w' : handlePartlyCoveredBranch cur bid w = Done w' -> calm w w'.
Proof.
  unfold handlePartlyCoveredBranch. intros H. inv_done; apply claim_all_calm in H;
    match goal with H : target_current _ _ _ _ = _ |- _ => apply target_current_calm in H end;
    (etrans; [eassumption|]); (etrans; [|eassumption]); (destruct cur; [apply promote_calm|done]).
Qed.

Lemma release_stores_calm bid F sids w sv w' sv' :
  release_stores bid F sids w sv = (w', sv') -> calm w w'.
Proof.
  revert w sv. induction sids as [|sid sids IH]; cbn [release_stores]; intros w sv H.
  { by simplify_eq. }
  destruct (decide _); apply IH in H; calm_run.
Qed.

Lemma release_states_calm c bid sv l w k w' :
  release_states c bid sv l w = Done (k, w') -> calm w w'.
Proof.
  revert w k. induction l as [|s l IH]; cbn [release_states]; intros w k H; inv_done; [done|..];
    match goal with H : release_states _ _ _ _ _ = _ |- _ => apply IH in H end; calm_run.
Qed.

Lemma handleFully_calm c bid w w' : handleFullyCoveredBranch c bid w = Done w' -> calm w w'.
Proof.
  unfold handleFullyCoveredBranch. intros H. inv_done.
  match goal with H : release_stores _ _ _ _ _ = _ |- _ => apply release_stores_calm in H end.
  match goal with H : release_states _ _ _ _ _ = _ |- _ => apply release_states_calm in H end.
  etrans; [eassumption|]. etrans; [eassumption|]. by apply calm_same.
Qed.

Lemma requeue_calm c added w w' : requeue c added w = Done w' -> calm w w'.
Proof. unfold requeue. intros H. inv_done; by apply calm_same. Qed.

Lemma demote_if_calm (b f : bool) c w : calm w (if b then demote f c w else w).
Proof. destruct b; [apply demote_calm|done]. Qed.

Lemma keep_new_calm c l w k w' : keep_new c l w = Done (k, w') -> calm w w'.
Proof.
  revert w k. induction l as [|b l IH]; cbn [keep_new]; intros w k H; inv_done; [done|..];
    match goal with H : keep_new _ _ _ = _ |- _ => apply IH in H end; [|calm_run].
  calm_forward. etrans; [eassumption|]. etrans; [apply promote_calm|eassumption].
Qed.

Lemma on_new_target_calm c w w' : on_new_target c w = Done w' -> calm w w'.
Proof.
  unfold on_new_target. intros H. inv_done; try done.
  match goal with H : handlePartlyCoveredBranch _ _ _ = _ |- _ => apply handlePartly_calm in H end.
  etrans; [eassumption|]. by apply calm_same.
Qed.

Lemma forget_targets_calm l w k w' : forget_targets l w = Done (k, w') -> calm w w'.
Proof.
  revert w k. induction l as [|s l IH]; cbn [forget_targets]; intros w k H; inv_done; [done|..];
    match goal with H : forget_targets _ _ = _ |- _ => apply IH in H end; calm_run.
Qed.

Lemma retarget_calm k cur w w' : retarget k cur w = Done w' -> calm w w'.
Proof.
  revert w. induction k as [|k IH]; cbn [retarget]; intros w H; inv_done; [done| |done].
  match goal with H : handlePartlyCoveredBranch _ _ _ = _ |- _ => apply handlePartly_calm in H end.
  apply IH in H. calm_run.
Qed.

Lemma refresh_targets_calm cur w w' : refresh_targets cur w = Done w' -> calm w w'.
Proof.
  unfold refresh_targets. intros H. inv_done; [|done].
  match goal with H : forget_targets _ _ = _ |- _ => apply forget_targets_calm in H end.
  match goal with H : retarget _ _ _ = _ |- _ => apply retarget_calm in H end.
  calm_forward. etrans; [eassumption|]. etrans; [eassumption|]. by apply calm_same.
Qed.

Lemma add_states_calm fs added w w' : add_states fs added w = Done w' -> calm w w'.
Proof.
  revert w. induction added as [|s added IH]; cbn [add_states]; intros w H; inv_done; [done|].
  apply IH in H. etrans; [|eassumption]. case_match; by apply calm_same.
Qed.

Lemma add_all_calm cur added w w' : add_all cur added w = Done w' -> calm w w'.
Proof. unfold add_all. intros H. inv_done; [by eapply add_states_calm|by apply calm_same]. Qed.

Lemma remove_all_calm removed w : calm w (remove_all removed w).
Proof.
  revert w. induction removed as [|s removed IH]; intros w; [done|]. cbn [remove_all].
  etrans; [|apply IH]. repeat case_match; by apply calm_same.
Qed.

(** The flag [P] of [c] is down. *)
Definition flag_down (P : ExecutionState -> bool) (c : positive) (w : World) : Prop :=
  forall e, heap w !! c = Some e -> P e = false.

Lemma calm_store_down c w w' : calm w w' -> flag_down reachStore c w -> flag_down reachStore c w'.
Proof.
  intros K H e He. destruct (cm_flags _ _ K c e He) as (e0 & He0 & H1 & _).
  destruct (reachStore e); [|done]. rewrite <- (H e0 He0). symmetry. auto.
Qed.

Lemma calm_branch_down c w w' : calm w w' -> flag_down reachBranch c w -> flag_down reachBranch c w'.
Proof.
  intros K H e He. destruct (cm_flags _ _ K c e He) as (e0 & He0 & _ & H1).
  destruct (reachBranch e); [|done]. rewrite <- (H e0 He0). symmetry. auto.
Qed.

Lemma put_down P c e w : P e = false -> flag_down P c (put c e w).
Proof. intros H e'. cbn. rewrite lookup_insert_eq. intros. by simplify_eq. Qed.

Lemma get_Done s w e : get s w = Done e -> heap w !! s = Some e.
Proof. unfold get, deref. by case_match; intros ?; simplify_eq. Qed.

(** Writing back the id of a branch that has one. *)
Lemma keep_BI_calm i bid w : BI2ID w !! Some i = Some bid ->
  calm w (set_BI2ID (<[Some i := bid]> (BI2ID w)) w).
Proof.
  intros Hb. split; cbn; [done| |by left|eauto]. intros j b. rewrite lookup_insert_Some.
  intros [[[= <-] <-]|[_ ?]]; done.
Qed.

Lemma no_BI_calm bid w : calm w (set_BI2ID (<[None := bid]> (BI2ID w)) w).
Proof. split; cbn; [done| |by left|eauto]. intros j b. by rewrite lookup_insert_ne. Qed.

Lemma on_reach_branch_calm c w w' :
  (forall e, heap w !! c = Some e -> reachBranch e = true -> isBranchInst (prevPC e) = true ->
    is_Some (BI2ID w !! Some (prevPC e))) ->
  on_reach_branch c w = Done w' ->
  calm w w' /\ flag_down reachBranch c w' /\ (flag_down reachBranch c w -> w' = w).
Proof.
  intros Hbi H. unfold on_reach_branch in H. apply bind_Done in H as (e & He%get_Done & H).
  destruct (reachBranch e) eqn:Er; cbn [negb] in H.
  2: { injection H as <-. split; [done|]. split; [|done]. intros e1 He1. by simplify_eq. }
  apply bind_Done in H as (w1 & H1 & H). apply bind_Done in H as (e1 & He1%get_Done & H).
  injection H as <-. assert (calm w w1) as K.
  { destruct (newFullyCoveredBranch w).
    - apply bind_Done in H1 as (bid & _ & H1). apply bind_Done in H1 as (w2 & Hf%handleFully_calm & H1).
      apply bind_Done in H1 as (e2 & _ & H1). injection H1 as <-.
      etrans; [done|]. etrans; [apply demote_if_calm|]. by apply calm_same.
    - injection H1 as <-. etrans; [|apply demote_if_calm].
      set (w2 := set_BI2ID _ w). assert (calm w w2) as K2.
      { subst w2. destruct (isBranchInst (prevPC e)) eqn:Ei; [|apply no_BI_calm].
        destruct (Hbi e He Er Ei) as [b Hb]. rewrite Hb. by apply keep_BI_calm. }
      etrans; [exact K2|]. eapply (calm_put c e); [exact He| | |reflexivity]; done. }
  split; [|split; [by apply put_down|]].
  - etrans; [exact K|]. eapply (calm_put c e1); [exact He1| | |reflexivity]; done.
  - intros Hd. by rewrite (Hd e He) in Er.
Qed.

Lemma reset_calm w : calm w (set_newBranchNumFromStore 0 w).
Proof. split; [done|done|by right|eauto]. Qed.

Lemma on_reach_store_calm c w w' :
  on_reach_store c w = Done w' -> calm w w' /\ flag_down reachStore c w' /\
    (flag_down reachStore c w \/ newBranchNumFromStore w' = 0).
Proof.
  intros H. unfold on_reach_store in H. apply bind_Done in H as (e & He%get_Done & H).
  destruct (reachStore e) eqn:Es; cbn [negb] in H.
  2: { injection H as <-. assert (flag_down reachStore c w) by (intros e1 He1; by simplify_eq).
       by split; [|auto]. }
  destruct (_ <=? _); [|done]. apply bind_Done in H as ([k w1] & K%keep_new_calm & H).
  apply bind_Done in H as (e1 & He1%get_Done & H). injection H as <-.
  split; [|split; [by apply put_down|by right]].
  etrans; [exact K|]. etrans; [|apply reset_calm].
  eapply (calm_put c e1); [exact He1| | |reflexivity]; done.
Qed.

(** After an update with [c], whose flags are as the handler left them. *)
Lemma CGS_update_calm c added removed w w' :
  c ∉ removed -> entry c w (stopped c w) -> CGS_update (Some c) added removed w = Done w' ->
  calm w w' /\ flag_down reachBranch c w' /\ flag_down reachStore c w' /\ newBranchNumFromStore w' = 0.
Proof.
  intros Hr (e & He & _ & Hsb & Hn & Hbi) H. unfold CGS_update in H. rewrite bool_decide_true in H by done.
  apply bind_Done in H as (w4 & H & H5). apply bind_Done in H as (w1 & H1 & H).
  apply bind_Done in H as (w2 & H2 & H). apply bind_Done in H as (w3 & H3 & H4).
  apply bind_Done in H5 as (w5 & H5 & H6). apply bind_Done in H6 as (w6 & H6 & H7). injection H7 as <-.
  assert (heap w1 = heap w /\ BI2ID w1 = BI2ID w /\ newBranchNumFromStore w1 = newBranchNumFromStore w)
    as (Q1 & Q2 & Q3) by (clear -H1; unfold requeue in H1; inv_done; done).
  apply on_reach_branch_calm in H2 as (K2 & D2 & S2).
  2: { intros e1. rewrite Q1, Q2. intros ?; simplify_eq. auto. }
  apply on_reach_store_calm in H3 as (K3 & D3 & N3).
  assert (calm w3 (remove_all removed w6)) as K.
  { etrans; [by eapply on_new_target_calm|]. etrans; [by eapply refresh_targets_calm|].
    etrans; [by eapply add_all_calm|]. apply remove_all_calm. }
  assert (calm w w3) as K0 by (etrans; [by eapply requeue_calm|by etrans]).
  split; [by etrans|]. split; [exact (calm_branch_down _ _ _ K (calm_branch_down _ _ _ K3 D2))|].
  split; [exact (calm_store_down _ _ _ K D3)|].
  assert (newBranchNumFromStore w3 = 0) as E3.
  { destruct (reachStore e) eqn:Es.
    - destruct N3 as [N3|]; [|done]. exfalso.
      assert (w2 = w1) as -> by (apply S2; intros e1; rewrite Q1; intros ?; simplify_eq; auto).
      specialize (N3 e). rewrite Q1 in N3. specialize (N3 He). congruence.
    - destruct (cm_num _ _ K0); congruence. }
  destruct (cm_num _ _ K); congruence.
Qed.

(** ** The loop *)

(** Between two rounds: the lists are right, nothing is announced, and no held
    state has a flag up. *)
Record good (w : World) : Prop := MkGood {
  gd_ok : world_ok w;
  gd_tables : tables_ok w;
  gd_num : newBranchNumFromStore w = 0;
  gd_flags : forall s e, s ∈ held w -> heap w !! s = Some e ->
    reachStore e = false /\ reachBranch e = false
}.

(** What the executor asks of the searcher after a step. *)
Definition fair_update (added removed : list positive) (w : World) : Prop :=
  NoDup (held w ++ added) /\ removed ⊆ held w ++ added.

(** A round: [c] is selected, runs, and is reported.  A state that is removed
    must not just have announced pairs. *)
Record round (w : World) (c : positive) (ev : Event) (added removed : list positive)
    (w1 w2 w3 : World) : Prop := MkRound {
  rd_select : CGS_selectState w = Done c;
  rd_execute : executes c added w w1;
  rd_event : event_ok c ev w1;
  rd_handle : run_event c ev w1 = Done w2;
  rd_fair : fair_update added removed w;
  rd_removed : c ∈ removed -> newBranchNumFromStore w2 = 0;
  rd_update : CGS_update (Some c) added removed w2 = Done w3
}.

(** The steps of the loop: rounds, states dropped to save memory, and the timer
    that asks for new targets. *)
Inductive loop_step : World -> World -> Prop :=
| loop_round w c ev added removed w1 w2 w3 :
    round w c ev added removed w1 w2 w3 -> loop_step w w3
| loop_drop removed w w' :
    updateTargetBranch w = false -> CGS_update None [] removed w = Done w' -> loop_step w w'
| loop_timer w : loop_step w (set_updateTargetBranch true w).

Lemma executes_poised c added w w1 :
  good w -> CGS_selectState w = Done c -> executes c added w w1 -> NoDup (held w ++ added) ->
  poised c w1 /\ same_lists w w1 /\ (forall s, s ∈ added -> is_Some (heap w1 !! s)) /\
  forall s e, s ∈ held w ++ added -> heap w1 !! s = Some e -> reachStore e = false /\ reachBranch e = false.
Proof.
  intros [Hok Ht Hn Hf] Hsel [[h ->] Hoth Hcp] Hnd. cbn in Hoth, Hcp |- *.
  pose proof (CGS_select_held _ _ Hsel) as Hc. destruct (ok_heap _ Hok c Hc) as [e0 He0].
  destruct (Hf c e0 Hc He0) as [F1 F2].
  assert (forall s e, s = c \/ s ∈ added -> h !! s = Some e ->
    branchInfos e = branchInfos e0 /\ reachStore e = false /\ reachBranch e = false) as Hcopy.
  { intros s e Hs He. destruct (Hcp s e0 Hs He0) as (e' & He' & Hi & _ & H3 & H4).
    rewrite He in He'. simplify_eq. by rewrite H3, H4. }
  assert (forall s, s ∈ held w -> s <> c -> h !! s = heap w !! s) as Hheld.
  { intros s Hs Hne. apply Hoth; [done|]. apply NoDup_app in Hnd as (_ & Hd & _). by apply Hd. }
  assert (world_ok (set_heap h w)) as Hok1.
  { destruct Hok as [O1 O2 O3 O4 O5]. split; auto.
    - intros s Hs. change (held (set_heap h w)) with (held w) in Hs.
      destruct (decide (s = c)) as [->|]; [|cbn; rewrite Hheld; auto].
      destruct (Hcp c e0 (or_introl eq_refl) He0) as (e' & ? & _). eauto.
    - intros s e He. cbn in He. change (known (set_heap h w)) with (known w).
      destruct (decide (s = c \/ s ∈ added)) as [Hs|Hs].
      + destruct (Hcopy s e Hs He) as [-> _]. by apply (O3 c).
      + rewrite Hoth in He by naive_solver. by apply (O3 s). }
  split; [|split; [by split|split]].
  - split; [done|]. split; [done|]. split; [done|].
    destruct (Hcp c e0 (or_introl eq_refl) He0) as (e' & He' & _).
    exists e'. split; [done|]. split; [by apply (ok_infos _ Hok1 c)|].
    by apply (Hcopy c e'); [left|].
  - intros s Hs. destruct (Hcp s e0 (or_intror Hs) He0) as (e' & ? & _). eauto.
  - intros s e [Hs|Hs]%elem_of_app He; [|by apply (Hcopy s); [right|]].
    destruct (decide (s = c)) as [->|]; [by apply (Hcopy c); [left|]|].
    rewrite Hheld in He by done. by apply (Hf s).
Qed.

Lemma CGS_update_calm_removed c added removed w w' :
  c ∈ removed -> CGS_update (Some c) added removed w = Done w' -> calm w w'.
Proof.
  intros Hr H. unfold CGS_update in H. rewrite bool_decide_false in H by (by intros []).
  cbn [mbind outcome_bind] in H.
  apply bind_Done in H as (w1 & H1 & H). apply bind_Done in H as (w2 & H2 & H). injection H as <-.
  etrans; [by eapply refresh_targets_calm|]. etrans; [by eapply add_all_calm|]. apply remove_all_calm.
Qed.

(** What update leaves when it keeps the contract and is calm. *)
Lemma good_after w2 w3 l :
  world_ok w3 -> held w3 ≡ₚ l -> tables_ok w2 -> calm w2 w3 ->
  newBranchNumFromStore w3 = 0 ->
  (forall s, s ∈ l -> (flag_down reachStore s w2 /\ flag_down reachBranch s w2) \/
                      (flag_down reachStore s w3 /\ flag_down reachBranch s w3)) ->
  good w3.
Proof.
  intros Hok Hp Ht K Hn Hf. split; [done| |done|].
  - intros i bid Hb. apply (cm_BI _ _ K), Ht in Hb as [? ?]. split; [|done].
    unfold known in *. by rewrite (cm_deps _ _ K).
  - intros s e Hs He. rewrite Hp in Hs. destruct (Hf s Hs) as [[F1 F2]|[F1 F2]]; [|auto].
    split; [by apply (calm_store_down _ _ _ K F1)|by apply (calm_branch_down _ _ _ K F2)].
Qed.

(** In a round, the handler and the update return, and the next round can
    start. *)
Lemma round_goes_on w c ev added removed w1 :
  good w -> CGS_selectState w = Done c -> executes c added w w1 -> event_ok c ev w1 ->
  fair_update added removed w ->
  exists w2, run_event c ev w1 = Done w2 /\
    ((c ∈ removed -> newBranchNumFromStore w2 = 0) ->
     exists w3, CGS_update (Some c) added removed w2 = Done w3 /\ good w3 /\
       held w3 ≡ₚ without removed (held w ++ added)).
Proof.
  intros Hg Hsel Hex Hev [Hnd Hsub].
  destruct (executes_poised c added w w1 Hg Hsel Hex Hnd) as (Hp & [L1 L2] & Ha & Hfl).
  destruct (run_event_handled c ev w1 Hp Hev) as (w2 & E & [Hok2 [L3 L4] Hoth Ht2 He2]).
  exists w2. split; [done|]. intros Hrem.
  assert (held w2 = held w) as Hh by (unfold held; congruence).
  assert (CGS_selectState w2 = Done c) as Hsel2.
  { unfold CGS_selectState. by rewrite L3, L4, L1, L2. }
  pose proof He2 as (e & He & _ & Hs1 & Hs2 & Hs3).
  destruct (CGS_update_ok (Some c) added removed w2) as (w3 & E3 & Hok3 & Hp3).
  - done.
  - split; [done|]. split; intros e' He'; rewrite He in He'; injection He' as <-; [|done].
    intros Hst. by rewrite Hst in Hs2.
  - by rewrite Hh.
  - intros s Hs. destruct (decide (s = c)) as [->|]; [eauto|]. rewrite Hoth by done. auto.
  - exists w3. rewrite Hh in Hp3. split; [done|]. split; [|done].
    assert (forall s, s <> c -> s ∈ held w ++ added ->
      flag_down reachStore s w2 /\ flag_down reachBranch s w2) as Hdown.
    { intros s Hne Hs. split; intros e' He'; rewrite Hoth in He' by done; by apply (Hfl s). }
    destruct (decide (c ∈ removed)) as [Hr|Hr].
    + pose proof (CGS_update_calm_removed _ _ _ _ _ Hr E3) as K.
      eapply good_after; [done..| |].
      * destruct (cm_num _ _ K) as [->|]; auto.
      * intros s [Hsr Hs]%elem_of_without. left. apply Hdown; [congruence|done].
    + destruct (CGS_update_calm c added removed w2 w3 Hr He2 E3) as (K & D1 & D2 & N).
      eapply good_after; [done..|]. intros s [_ Hs]%elem_of_without.
      destruct (decide (s = c)) as [->|]; auto.
Qed.

Lemma drop_ok removed w :
  good w -> updateTargetBranch w = false ->
  exists w', CGS_update None [] removed w = Done w' /\ good w' /\ held w' ≡ₚ without removed (held w).
Proof.
  intros [Hok Ht Hn Hf] Hu.
  destruct (CGS_update_ok None [] removed w Hok) as (w' & E & Hok' & Hp); [done| |set_solver|].
  { rewrite app_nil_r. apply Hok. }
  rewrite app_nil_r in Hp. exists w'. split; [done|]. split; [|done].
  unfold CGS_update in E. cbn [mbind outcome_bind] in E.
  apply bind_Done in E as (w1 & H1%refresh_targets_calm & E).
  apply bind_Done in E as (w2 & H2%add_all_calm & E). injection E as E.
  assert (calm w w') as K by (subst w'; do 2 (etrans; [done|]); apply remove_all_calm).
  eapply good_after; [done..| |].
  - destruct (cm_num _ _ K); congruence.
  - intros s [_ Hs]%elem_of_without. left. split; intros e He; by apply (Hf s).
Qed.

Lemma loop_step_good w w' : loop_step w w' -> good w -> good w'.
Proof.
  destruct 1 as [w c ev added removed w1 w2 w3 R|removed w w' Hu E|w]; intros Hg.
  - destruct R. destruct (round_goes_on w c ev added removed w1) as (w2' & E2 & Hnext); auto.
    assert (w2' = w2) as -> by congruence. destruct Hnext as (w3' & E3 & Hg' & _); [done|].
    by assert (w3' = w3) as <- by congruence.
  - destruct (drop_ok removed w Hg Hu) as (w2 & E2 & Hg2 & _).
    by assert (w2 = w') as <- by congruence.
  - destruct Hg as [[] Ht Hn Hf]. by split.
Qed.

Lemma loop_good w w' : rtc loop_step w w' -> good w -> good w'.
Proof. induction 1; eauto using loop_step_good. Qed.

End Run.
