(* ===== verification/FindReads.v ===== *)
(** [findReads] of ExprUtil.cpp: the reads an expression contains, by a
    worklist over an expression DAG. *)
From stdpp Require Import base list numbers gmap.
From Stdlib Require Import ZArith Lia.
From S2P Require Import Prelude APInt Expr Semantics ExprCreate.
Local Open Scope Z_scope.

(** [ref<Expr>]s are equal when the expressions are. *)
Fixpoint Expr_eq_dec_ (a b : Expr) {struct a} : {a = b} + {a <> b}
with UpdateNode_eq_dec_ (u v : UpdateNode) {struct u} : {u = v} + {u <> v}.
Proof.
  - decide equality; try apply Z.eq_dec; try apply APInt_eq_dec; try apply Pos.eq_dec;
      decide equality.
  - decide equality.
Defined.
#[export] Instance Expr_eq_dec : EqDecision Expr := Expr_eq_dec_.
#[export] Instance UpdateNode_eq_dec : EqDecision UpdateNode := UpdateNode_eq_dec_.

Definition isConstantExpr (e : Expr) : bool :=
  match e with ConstantExpr _ => true | _ => false end.

(** ** The worklist *)

(** [if (!isa<ConstantExpr>(e) && visited.insert(e).second) stack.push_back(e);]
    on the pair of [visited] and [stack]. *)
Definition visit_push (st : list Expr * list Expr) (e : Expr) : list Expr * list Expr :=
  if isConstantExpr e then st
  else if decide (e ∈ st.1) then st else (e :: st.1, e :: st.2).

(** The indices and values written by an update list, most recent first. *)
Fixpoint un_exprs (u : UpdateNode) : list Expr :=
  match u with
  | UNull => []
  | UNode next index value => index :: value :: un_exprs next
  end.

(** The state of the loop. *)
Record Finder : Type := MkFinder {
  visited : list Expr;
  stack : list Expr;
  updates : list UpdateNode;
  results : list Expr
}.

Definition find_step (visitUpdates : bool) (top : Expr) (f : Finder) : Finder :=
  match top with
  | ReadExpr _ head index =>
      let st := visit_push (visited f, stack f) index in
      if visitUpdates then
        if decide (head ∈ updates f)
        then MkFinder st.1 st.2 (updates f) (results f ++ [top])
        else let st := fold_left visit_push (un_exprs head) st in
             MkFinder st.1 st.2 (head :: updates f) (results f ++ [top])
      else MkFinder st.1 st.2 (updates f) (results f ++ [top])
  | ConstantExpr _ => f
  | _ => let st := fold_left visit_push (kids top) (visited f, stack f) in
         MkFinder st.1 st.2 (updates f) (results f)
  end.

Fixpoint find_loop (visitUpdates : bool) (n : nat) (f : Finder) : outcome (list Expr) :=
  match stack f with
  | [] => Done (results f)
  | top :: rest =>
      match n with
      | O => OutOfFuel
      | S n => find_loop visitUpdates n
                 (find_step visitUpdates top (MkFinder (visited f) rest (updates f) (results f)))
      end
  end.

(** Every expression is pushed once: as many rounds as the expression has nodes. *)
Definition findReads (e : Expr) (visitUpdates : bool) : outcome (list Expr) :=
  find_loop visitUpdates (expr_size e)
    (if isConstantExpr e then MkFinder [] [] [] [] else MkFinder [e] [e] [] []).

(** ** What there is to find *)

(** The expressions inside an expression, update lists included. *)
Fixpoint subs (e : Expr) : list Expr :=
  e :: match e with
       | ConstantExpr _ => []
       | NotOptimizedExpr s => subs s
       | ReadExpr _ u i => un_subs u ++ subs i
       | SelectExpr c t f => subs c ++ subs t ++ subs f
       | ConcatExpr l r => subs l ++ subs r
       | ExtractExpr e _ _ => subs e
       | NotExpr e => subs e
       | CastExpr _ s _ => subs s
       | BinaryExpr _ l r => subs l ++ subs r
       end
with un_subs (u : UpdateNode) : list Expr :=
  match u with
  | UNull => []
  | UNode n i v => un_subs n ++ subs i ++ subs v
  end.

Definition isReadExpr (e : Expr) : bool := match e with ReadExpr _ _ _ => true | _ => false end.

(** What the loop goes to from an expression. *)
Definition next_exprs (e : Expr) : list Expr :=
  match e with ReadExpr _ u i => i :: un_exprs u | _ => kids e end.

Lemma subs_self e : e ∈ subs e.
Proof. destruct e; cbn; set_solver. Qed.

Lemma subs_length_mut :
  (forall e, length (subs e) <= expr_size e)%nat /\ (forall u, length (un_subs u) <= un_weight u)%nat.
Proof.
  apply Expr_UpdateNode_ind; intros; cbn [subs un_subs expr_size un_weight length];
    rewrite ?length_app; cbn; lia.
Qed.

Lemma un_exprs_subs u x : x ∈ un_exprs u -> x ∈ un_subs u.
Proof.
  induction u as [|n IH i v] using UpdateNode_ind; cbn; [done|].
  pose proof (subs_self i). pose proof (subs_self v). set_solver.
Qed.

Lemma subs_trans_mut :
  (forall e x y, x ∈ subs e -> y ∈ subs x -> y ∈ subs e) /\
  (forall u x y, x ∈ un_subs u -> y ∈ subs x -> y ∈ un_subs u).
Proof.
  apply Expr_UpdateNode_ind; cbn [subs un_subs]; intros;
    repeat match goal with
      | H : _ ∈ _ :: _ |- _ => apply elem_of_cons in H as [->|H]
      | H : _ ∈ _ ++ _ |- _ => apply elem_of_app in H as [H|H]
      | H : _ ∈ [] |- _ => apply elem_of_nil in H; done
      end; try done; rewrite ?elem_of_cons, ?elem_of_app; eauto 6.
Qed.

Lemma next_exprs_subs e x : x ∈ next_exprs e -> x ∈ subs e.
Proof.
  destruct e; cbn; intros Hx; rewrite ?elem_of_cons, ?elem_of_nil in Hx; try done;
    destruct_or?; subst; rewrite ?elem_of_cons, ?elem_of_app; auto using subs_self, un_exprs_subs.
Qed.

(** A set closed under [next_exprs] holds everything inside its members. *)
Definition closed (V : list Expr) : Prop :=
  forall x y, x ∈ V -> y ∈ next_exprs x -> isConstantExpr y = false -> y ∈ V.

Lemma closed_subs_mut V : closed V ->
  (forall e, (isConstantExpr e = false -> e ∈ V) ->
     forall x, x ∈ subs e -> isConstantExpr x = false -> x ∈ V) /\
  (forall u, (forall y, y ∈ un_exprs u -> isConstantExpr y = false -> y ∈ V) ->
     forall x, x ∈ un_subs u -> isConstantExpr x = false -> x ∈ V).
Proof.
  intros HV. apply Expr_UpdateNode_ind.
  all: intros; match goal with H : _ ∈ subs ?e |- _ => cbn [subs] in H | H : _ ∈ un_subs ?u |- _ => cbn [un_subs] in H end.
  all: repeat match goal with
      | H : _ ∈ _ :: _ |- _ => apply elem_of_cons in H as [->|H]
      | H : _ ∈ _ ++ _ |- _ => apply elem_of_app in H as [H|H]
      | H : _ ∈ [] |- _ => apply elem_of_nil in H; done
      end; auto.
  all: match goal with
    | IH : (_ -> forall x, x ∈ subs ?k -> _) , H : ?x ∈ subs ?k |- _ =>
        apply IH; auto; intros; first [eapply HV; [by auto|cbn; set_solver|done] | auto with set_solver]
    | IH : (_ -> forall x, x ∈ un_subs ?k -> _) , H : ?x ∈ un_subs ?k |- _ =>
        apply IH; auto; intros; first [eapply HV; [by auto|cbn; set_solver|done] | auto with set_solver]
    end.
Qed.

(** ** The loop *)

(** The expressions pushed from a list, and the pairs they give. *)
Lemma visit_push_spec l st : NoDup st.1 ->
  exists new, fold_left visit_push l st = (new ++ st.1, new ++ st.2) /\ NoDup (new ++ st.1) /\
    (forall x, x ∈ new -> x ∈ l /\ isConstantExpr x = false) /\
    (forall x, x ∈ l -> isConstantExpr x = false -> x ∈ new ++ st.1).
Proof.
  revert st. induction l as [|e l IH]; intros [V s] HV.
  { exists []. cbn. split_and!; try done; set_solver. }
  cbn [fold_left]. unfold visit_push at 2. destruct (isConstantExpr e) eqn:Ec.
  { destruct (IH (V, s) HV) as (new & -> & ? & H1 & ?). exists new. split_and!; auto.
    - intros x Hx. destruct (H1 x Hx). split; [by right|done].
    - intros x [->|Hx]%elem_of_cons; [congruence|auto]. }
  cbn [fst snd]. destruct (decide (e ∈ V)) as [Hin|Hin].
  { destruct (IH (V, s) HV) as (new & -> & ? & H1 & ?). exists new. split_and!; auto.
    - intros x Hx. destruct (H1 x Hx). split; [by right|done].
    - intros x [->|Hx]%elem_of_cons; [set_solver|auto]. }
  destruct (IH (e :: V, e :: s)) as (new & -> & Hn & H1 & H2).
  { cbn. by apply NoDup_cons. }
  cbn in *. exists (new ++ [e]). rewrite <- !(assoc (++)). cbn. split_and!; auto.
  - intros x [Hx| ->%list_elem_of_singleton]%elem_of_app; [|split; [by left|done]].
    destruct (H1 x Hx). split; [by right|done].
  - intros x [->|Hx]%elem_of_cons Hc; [set_solver|]. specialize (H2 x Hx Hc). set_solver.
Qed.

(** [x] has been dealt with. *)
Definition settled (f : Finder) (x : Expr) : Prop :=
  (forall y, y ∈ next_exprs x -> isConstantExpr y = false -> y ∈ visited f) /\
  (isReadExpr x = true -> x ∈ results f).

Record finder_ok (e : Expr) (f : Finder) : Prop := MkFinderOk {
  fo_nodup : NoDup (visited f);
  fo_inside : forall x, x ∈ visited f -> x ∈ subs e /\ isConstantExpr x = false;
  fo_stack : forall x, x ∈ stack f -> x ∈ visited f;
  fo_done : forall x, x ∈ visited f -> x ∈ stack f \/ settled f x;
  fo_updates : forall u y, u ∈ updates f -> y ∈ un_exprs u -> isConstantExpr y = false -> y ∈ visited f;
  fo_results : forall x, x ∈ results f -> x ∈ visited f /\ isReadExpr x = true
}.

(** A step that pushes [new] and records [ups] and [res] settles [top]. *)
Lemma finder_extend e f top rest (new : list Expr) ups res :
  stack f = top :: rest -> finder_ok e f -> NoDup (new ++ visited f) ->
  (forall x, x ∈ new -> x ∈ next_exprs top /\ isConstantExpr x = false) ->
  (forall x, x ∈ next_exprs top -> isConstantExpr x = false -> x ∈ new ++ visited f) ->
  (forall u y, u ∈ ups -> y ∈ un_exprs u -> isConstantExpr y = false -> y ∈ new ++ visited f) ->
  (forall x, x ∈ res <-> x ∈ results f \/ (x = top /\ isReadExpr top = true)) ->
  finder_ok e (MkFinder (new ++ visited f) (new ++ rest) ups res) /\
  (length (new ++ rest) + length (visited f) + 1 = length (stack f) + length (new ++ visited f))%nat.
Proof.
  intros Es [F1 F2 F3 F4 F5 F6] Hn H1 H2 H4 H5. rewrite Es in *.
  assert (top ∈ visited f) as Htop by set_solver. destruct (F2 top Htop) as [Hsub Hnc].
  split; [|rewrite !length_app; cbn; lia]. split; cbn.
  - done.
  - intros x [Hx|Hx]%elem_of_app; [|auto]. destruct (H1 x Hx) as [Hl Hc]. split; [|done].
    eapply (proj1 subs_trans_mut); [apply Hsub|]. by apply next_exprs_subs.
  - set_solver.
  - intros x [Hx|Hx]%elem_of_app; [set_solver|]. destruct (F4 x Hx) as [[->|Hst]%elem_of_cons|[S1 S2]].
    + right. split; cbn; [auto|]. intros. apply H5. auto.
    + set_solver.
    + right. split; cbn; [|intros; apply H5; auto]. intros y Hy Hc. apply elem_of_app. auto.
  - done.
  - intros x Hx. apply H5 in Hx as [Hr|[-> Hr]]; [|set_solver]. destruct (F6 x Hr). set_solver.
Qed.

Lemma find_step_ok e top rest f :
  stack f = top :: rest -> finder_ok e f ->
  let f' := find_step true top (MkFinder (visited f) rest (updates f) (results f)) in
  finder_ok e f' /\
  (length (stack f') + length (visited f) + 1 = length (stack f) + length (visited f'))%nat.
Proof.
  intros Es Hf. pose proof Hf as [F1 F2 F3 F4 F5 F6].
  assert (isConstantExpr top = false) as Hnc by (apply F2, F3; rewrite Es; set_solver).
  destruct top as [v|s|r u i|c t g|l0 r0|e0 o0 w0|e0|k0 s0 w0|k0 l0 r0]; try done;
    cbn [find_step visited stack updates results].
  (* the expressions other than reads push their kids *)
  all: try (match goal with |- context [fold_left visit_push (kids ?x) ?st] =>
      destruct (visit_push_spec (kids x) st F1) as (new & -> & Hn & H1 & H2) end;
    cbn [fst snd] in *; eapply finder_extend; [exact Es|done|done|exact H1|exact H2|..];
    [intros u y Hu Hy Hc; apply elem_of_app; right; eauto|intros x; cbn; naive_solver]).
  (* a read *)
  destruct (visit_push_spec [i] (visited f, rest) F1) as (n1 & E1 & Hn1 & H1 & H2).
  cbn [fold_left fst snd] in *. rewrite E1. cbn [fst snd].
  assert (forall x, x ∈ results f ++ [ReadExpr r u i] <->
    x ∈ results f \/ (x = ReadExpr r u i /\ isReadExpr (ReadExpr r u i) = true)) as Hres
    by set_solver.
  destruct (decide (u ∈ updates f)) as [Hu|Hu].
  - eapply finder_extend; [exact Es|done|done| | |..]; cbn; [..|exact Hres].
    + intros x Hx. destruct (H1 x Hx). set_solver.
    + intros x [->|Hx]%elem_of_cons Hc; [apply H2; set_solver|]. apply elem_of_app. right. eauto.
    + intros u' y Hu' Hy Hc. apply elem_of_app. right. eauto.
  - destruct (visit_push_spec (un_exprs u) (n1 ++ visited f, n1 ++ rest) Hn1)
      as (n2 & E2 & Hn2 & H3 & H4). cbn [fst snd] in *. rewrite E2. cbn [fst snd].
    rewrite !(assoc (++)) in *. eapply finder_extend; [exact Es|done|done| | |..]; cbn; [..|exact Hres].
    + intros x [Hx|Hx]%elem_of_app; [destruct (H3 x Hx)|destruct (H1 x Hx)]; set_solver.
    + intros x [->|Hx]%elem_of_cons Hc; [|auto].
      specialize (H2 i ltac:(set_solver) Hc). set_solver.
    + intros u' y [->|Hu']%elem_of_cons Hy Hc; [auto|]. apply elem_of_app. right. eauto.
Qed.

Lemma find_loop_ok e n f :
  finder_ok e f -> (length (subs e) + length (stack f) <= n + length (visited f))%nat ->
  exists f', find_loop true n f = Done (results f') /\ finder_ok e f' /\ stack f' = [] /\
    visited f ⊆ visited f'.
Proof.
  revert f. induction n as [|n IH]; intros f Hf Hn.
  - assert (length (visited f) <= length (subs e))%nat as Hv.
    { apply submseteq_length, NoDup_submseteq; [apply Hf|]. intros x Hx. by apply (fo_inside _ _ Hf). }
    cbn [find_loop]. destruct (stack f) eqn:Es; [|cbn in Hn; lia]. by exists f.
  - cbn [find_loop]. destruct (stack f) as [|top rest] eqn:Es; [by exists f|].
    destruct (find_step_ok e top rest f Es Hf) as [Hf' Hlen].
    destruct (IH _ Hf') as (f' & -> & ? & ? & Hsub). { rewrite Es in Hlen. cbn in *. lia. }
    exists f'. split_and!; auto. etrans; [|apply Hsub]. clear.
    assert (forall l (st : list Expr * list Expr), st.1 ⊆ (fold_left visit_push l st).1) as Hp.
    { intros l. induction l as [|x l IH]; intros st; [done|]. cbn. etrans; [|apply IH].
      unfold visit_push. repeat case_match; cbn; set_solver. }
    destruct top; cbn [find_step visited]; try apply (Hp _ (visited f, rest)); [set_solver|].
    case_decide; cbn [visited]; [apply (Hp [top] (visited f, rest))|].
    etrans; [apply (Hp [top] (visited f, rest))|apply Hp].
Qed.

Lemma findReads_spec e :
  exists rs, findReads e true = Done rs /\
    forall x, x ∈ rs <-> x ∈ subs e /\ isReadExpr x = true.
Proof.
  unfold findReads. destruct (isConstantExpr e) eqn:Ec.
  { exists []. destruct e; try done. cbn. split; [done|]. intros x. split; [set_solver|].
    intros [->%list_elem_of_singleton Hr]. done. }
  assert (finder_ok e (MkFinder [e] [e] [] [])) as H0.
  { split; cbn; try set_solver.
    - apply NoDup_singleton.
    - intros x ->%list_elem_of_singleton. split; [apply subs_self|done]. }
  destruct (find_loop_ok e (expr_size e) _ H0) as (f & -> & Hf & Hs & Hv).
  { cbn. pose proof (proj1 subs_length_mut e). lia. }
  exists (results f). split; [done|]. cbn in Hv. intros x. split.
  - intros Hx. destruct (fo_results _ _ Hf x Hx) as [Hin Hr]. split; [|done].
    by apply (fo_inside _ _ Hf).
  - intros [Hx Hr].
    assert (closed (visited f)) as Hcl.
    { intros a b Ha Hb Hc. destruct (fo_done _ _ Hf a Ha) as [Hst|[S _]]; [|auto].
      rewrite Hs in Hst. set_solver. }
    assert (x ∈ visited f) as Hxv.
    { apply (proj1 (closed_subs_mut _ Hcl) e); [|done|by destruct x]. intros _. set_solver. }
    destruct (fo_done _ _ Hf x Hxv) as [Hst|[_ S]]; [|auto]. rewrite Hs in Hst. set_solver.
Qed.

(** Inside a well-formed expression everything is. *)
Lemma wf_subs_mut {AH : ArrayHeap} :
  (forall e, wf e -> forall x, x ∈ subs e -> wf x) /\
  (forall u r, wf_updates r u -> forall x, x ∈ un_subs u -> wf x).
Proof.
  apply Expr_UpdateNode_ind; cbn [subs un_subs wf wf_updates]; intros; destruct_and?;
    repeat match goal with
      | H : _ ∈ _ :: _ |- _ => apply elem_of_cons in H as [->|H]
      | H : _ ∈ _ ++ _ |- _ => apply elem_of_app in H as [H|H]
      | H : _ ∈ [] |- _ => apply elem_of_nil in H; done
      end; cbn; eauto.
Qed.
