(* ===== verification/Solver.v ===== *)
(** Queries, the contract of a solver, and the [Solver] facade
    (Solver.cpp, SolverImpl.cpp).

    A solver implementation is a state with the operations of [SolverImpl]; an
    operation that may fail (a timeout, say) returns [None] when it does.
    [SoundSolver] is the documentation of SolverImpl.h as laws. *)
From stdpp Require Import base list numbers.
From Stdlib Require Import ZArith Lia.
From S2P Require Import Prelude APInt Bits Expr Semantics ConstantOps ExprCreate CreateSound OpsSound.
Local Open Scope Z_scope.

Record Query : Type := MkQuery { constraints : list Expr; q_expr : Expr }.

Definition withExpr (e : Expr) (q : Query) : Query := MkQuery (constraints q) e.

Inductive Validity : Type := VTrue | VFalse | VUnknown.

#[export] Instance Validity_eq_dec : EqDecision Validity.
Proof. solve_decision. Defined.

Section Queries.
Context {AP : APIntOps} {AH : ArrayHeap} {OP : ExprOptions}.

Definition withFalse (q : Query) : Query :=
  withExpr (ConstantExpr (ConstantExpr_alloc 0 Bool)) q.

Definition negateExpr (q : Query) : outcome Query :=
  e ← createIsZero (q_expr q); Done (withExpr e q).

(** ** What a query means *)

Definition sat (ρ : env) (cs : list Expr) : Prop := forall c, c ∈ cs -> eval ρ c <> 0.

Definition valid (q : Query) : Prop :=
  forall ρ, sat ρ (constraints q) -> eval ρ (q_expr q) <> 0.

(** The constraints imply that the expression is false. *)
Definition valid_not (q : Query) : Prop :=
  forall ρ, sat ρ (constraints q) -> eval ρ (q_expr q) = 0.

Definition boolean (e : Expr) : Prop := wf e /\ getWidth e = Bool.

(** The queries of an execution: boolean constraints that can be satisfied,
    as those of a path can. *)
Record wf_query (q : Query) : Prop := MkWfQuery {
  wq_constraints : Forall boolean (constraints q);
  wq_expr : wf (q_expr q);
  wq_sat : exists ρ, sat ρ (constraints q)
}.

Definition bool_query (q : Query) : Prop := wf_query q /\ getWidth (q_expr q) = Bool.

(** The meaning of a validity. *)
Definition validity_is (v : Validity) (q : Query) : Prop :=
  match v with
  | VTrue => valid q
  | VFalse => valid_not q
  | VUnknown => ~ valid q /\ ~ valid_not q
  end.

End Queries.

(** ** The contract *)

Class SolverImpl (S : Type) : Type := {
  computeValidity : Query -> S -> outcome (option Validity * S);
  computeTruth : Query -> S -> outcome (option bool * S);
  computeValue : Query -> S -> outcome (option APInt * S)
}.

Class SoundSolver (S : Type) `{SolverImpl S} {AH : ArrayHeap} : Type := {
  s_inv : S -> Prop;
  validity_ok q s : s_inv s -> bool_query q ->
    exists r s', computeValidity q s = Done (r, s') /\ s_inv s' /\
      forall v, r = Some v -> validity_is v q;
  truth_ok q s : s_inv s -> bool_query q ->
    exists r s', computeTruth q s = Done (r, s') /\ s_inv s' /\
      forall b, r = Some b -> (b = true <-> valid q);
  value_ok q s : s_inv s -> wf_query q ->
    exists r s', computeValue q s = Done (r, s') /\ s_inv s' /\
      forall a, r = Some a -> wf_apint a /\ getBitWidth a = getWidth (q_expr q) /\
        exists ρ, sat ρ (constraints q) /\ eval ρ (q_expr q) = uval a
}.

(** The same contract as one statement about the states that satisfy [I]. *)
Definition sound_answers {S : Type} `{SolverImpl S} {AH : ArrayHeap} (I : S -> Prop) : Prop :=
  forall q s, I s ->
    (bool_query q ->
       (exists r s', computeValidity q s = Done (r, s') /\ I s' /\
          forall v, r = Some v -> validity_is v q) /\
       (exists r s', computeTruth q s = Done (r, s') /\ I s' /\
          forall b, r = Some b -> (b = true <-> valid q))) /\
    (wf_query q ->
       exists r s', computeValue q s = Done (r, s') /\ I s' /\
         forall a, r = Some a -> wf_apint a /\ getBitWidth a = getWidth (q_expr q) /\
           exists ρ, sat ρ (constraints q) /\ eval ρ (q_expr q) = uval a).

Lemma SoundSolver_answers {S : Type} {ops : SolverImpl S} {AH : ArrayHeap} {sol : SoundSolver S} : sound_answers s_inv.
Proof.
  intros q s Hs. split; [intros Hq; split|intros Hq]; [by apply validity_ok|by apply truth_ok|by apply value_ok].
Qed.

(** A solver that always answers what it returns from. *)
Class TotalSolver (S : Type) `{SolverImpl S} : Prop := {
  total_validity q s r s' : computeValidity q s = Done (r, s') -> r <> None;
  total_truth q s r s' : computeTruth q s = Done (r, s') -> r <> None;
  total_value q s r s' : computeValue q s = Done (r, s') -> r <> None
}.

(** Closes a goal where an operation that always answers did not; [unfail]
    passes the missing answer on to where it comes from. *)
Ltac unfail :=
  repeat match goal with H : _ <$> _ = None |- _ => apply fmap_None in H; subst end.

Ltac total_solver :=
  unfail;
  try done;
  match goal with
  | H : computeValidity _ _ = Done _ |- _ => exact (total_validity _ _ _ _ H eq_refl)
  | H : computeTruth _ _ = Done _ |- _ => exact (total_truth _ _ _ _ H eq_refl)
  | H : computeValue _ _ = Done _ |- _ => exact (total_value _ _ _ _ H eq_refl)
  end.

(** ** The facade *)

Section Facade.
Context {AP : APIntOps} {AH : ArrayHeap} {OP : ExprOptions}.
Context {S : Type} {ops : SolverImpl S}.

(** The default [SolverImpl::computeValidity], on top of [computeTruth]. *)
Definition default_computeValidity (truth : Query -> S -> outcome (option bool * S))
    (q : Query) (s : S) : outcome (option Validity * S) :=
  r ← truth q s;
  match r with
  | (None, s) => Done (None, s)
  | (Some true, s) => Done (Some VTrue, s)
  | (Some false, s) =>
      nq ← negateExpr q;
      r ← truth nq s;
      match r with
      | (None, s) => Done (None, s)
      | (Some isFalse, s) => Done (Some (if (isFalse : bool) then VFalse else VUnknown), s)
      end
  end.

Definition evaluate (q : Query) (s : S) : outcome (option Validity * S) :=
  Assert getWidth (q_expr q) =? Bool ;;
  match q_expr q with
  | ConstantExpr CE => Done (Some (if ConstantExpr_isTrue CE then VTrue else VFalse), s)
  | _ => computeValidity q s
  end.

Definition mustBeTrue (q : Query) (s : S) : outcome (option bool * S) :=
  Assert getWidth (q_expr q) =? Bool ;;
  match q_expr q with
  | ConstantExpr CE => Done (Some (ConstantExpr_isTrue CE), s)
  | _ => computeTruth q s
  end.

Definition mustBeFalse (q : Query) (s : S) : outcome (option bool * S) :=
  nq ← negateExpr q; mustBeTrue nq s.

Definition mayBeTrue (q : Query) (s : S) : outcome (option bool * S) :=
  r ← mustBeFalse q s; Done (negb <$> (r : option bool * S).1, r.2).

Definition mayBeFalse (q : Query) (s : S) : outcome (option bool * S) :=
  r ← mustBeTrue q s; Done (negb <$> (r : option bool * S).1, r.2).

Definition getValue (q : Query) (s : S) : outcome (option APInt * S) :=
  match q_expr q with
  | ConstantExpr CE => Done (Some CE, s)
  | _ => computeValue q s
  end.

(** The facade answers whenever the solver does. *)
Lemma facade_total q s : TotalSolver S ->
  (forall s', evaluate q s <> Done (None, s')) /\ (forall s', mustBeTrue q s <> Done (None, s')) /\
  (forall s', mustBeFalse q s <> Done (None, s')) /\ (forall s', mayBeTrue q s <> Done (None, s')) /\
  (forall s', mayBeFalse q s <> Done (None, s')) /\ (forall s', getValue q s <> Done (None, s')).
Proof.
  intros Ht.
  assert (forall q s s', mustBeTrue q s <> Done (None, s')) as Hm.
  { intros q' s1 s2 H. unfold mustBeTrue in H. run_inv; total_solver. }
  split_and!; [|done|..]; intros s' H;
    unfold evaluate, mayBeTrue, mayBeFalse, mustBeFalse, getValue in H; run_inv;
    unfail; first [exact (Hm _ _ _ H)|exact (Hm _ _ _ H0)|total_solver].
Qed.

End Facade.

(** ** The facade is sound *)

Section Sound.
Context {AP : APIntOps} {APL : APIntLaws} {AH : ArrayHeap} {OP : ExprOptions}.
Context (default_opt : ConstArrayOpt = false).

Lemma negateExpr_ok q : bool_query q ->
  exists nq, negateExpr q = Done nq /\ bool_query nq /\ constraints nq = constraints q /\
    (valid nq <-> valid_not q) /\ (valid_not nq <-> valid q).
Proof.
  intros [[Hc He Hs] Hw]. unfold negateExpr.
  destruct (createIsZero_ok default_opt (q_expr q) He) as (e & -> & We & Ww & Ev).
  eexists; split; [done|]. split; [by split|]. split; [done|].
  assert (forall ρ, eval ρ e = 0 <-> eval ρ (q_expr q) <> 0) as Hz.
  { intros ρ. rewrite Ev. destruct (Z.eqb_spec (eval ρ (q_expr q)) 0); cbn; lia. }
  assert (forall ρ, eval ρ e <> 0 <-> eval ρ (q_expr q) = 0) as Hnz.
  { intros ρ. rewrite Hz. destruct (Z.eq_dec (eval ρ (q_expr q)) 0); naive_solver. }
  split; unfold valid, valid_not; cbn; split; intros H ρ Hρ; specialize (H ρ Hρ); naive_solver.
Qed.

(** With satisfiable constraints, not both. *)
Lemma valid_excl q : wf_query q -> valid q -> valid_not q -> False.
Proof. intros [_ _ [ρ Hρ]] H1 H2. by apply (H1 ρ), H2. Qed.

Lemma const_truth q CE : bool_query q -> q_expr q = ConstantExpr CE ->
  if ConstantExpr_isTrue CE then valid q else valid_not q.
Proof.
  intros [[_ He _] Hw] E. rewrite E in *. cbn in Hw. rewrite isTrue_spec by done.
  unfold valid, valid_not. rewrite E. cbn.
  destruct (Z.eqb_spec (uval CE) 0); cbn; auto.
Qed.

Context {S : Type} {ops : SolverImpl S} {sol : SoundSolver S}.

Lemma mustBeTrue_ok q s : s_inv s -> bool_query q ->
  exists r s', mustBeTrue q s = Done (r, s') /\ s_inv s' /\
    forall b, r = Some b -> (b = true <-> valid q).
Proof.
  intros Hs Hq. unfold mustBeTrue. pose proof Hq as [Hwf ->]. rewrite Z.eqb_refl.
  destruct (q_expr q) as [CE| | | | | | | |] eqn:E; try (by apply truth_ok).
  eexists _, s. split; [done|]. split; [done|]. intros b Hb. simplify_eq.
  pose proof (const_truth q CE Hq E) as Ht. destruct (ConstantExpr_isTrue CE); [done|].
  split; [done|]. intros Hv. exfalso. by eapply valid_excl.
Qed.

Lemma mustBeFalse_ok q s : s_inv s -> bool_query q ->
  exists r s', mustBeFalse q s = Done (r, s') /\ s_inv s' /\
    forall b, r = Some b -> (b = true <-> valid_not q).
Proof.
  intros Hs Hq. unfold mustBeFalse.
  destruct (negateExpr_ok q Hq) as (nq & -> & Hnq & _ & Hn & _). cbn [mbind outcome_bind].
  destruct (mustBeTrue_ok nq s Hs Hnq) as (r & s' & E & Hs' & Hr). exists r, s'.
  split; [done|]. split; [done|]. intros b Hb. by rewrite (Hr b Hb).
Qed.

Lemma mayBeTrue_ok q s : s_inv s -> bool_query q ->
  exists r s', mayBeTrue q s = Done (r, s') /\ s_inv s' /\
    forall b, r = Some b -> (b = false <-> valid_not q).
Proof.
  intros Hs Hq. unfold mayBeTrue. destruct (mustBeFalse_ok q s Hs Hq) as (r & s' & -> & Hs' & Hr).
  cbn. eexists _, s'. split; [done|]. split; [done|]. intros b. destruct r as [b'|]; cbn; [|done].
  intros ?; simplify_eq. rewrite <- (Hr b' eq_refl). by destruct b'.
Qed.

Lemma mayBeFalse_ok q s : s_inv s -> bool_query q ->
  exists r s', mayBeFalse q s = Done (r, s') /\ s_inv s' /\
    forall b, r = Some b -> (b = false <-> valid q).
Proof.
  intros Hs Hq. unfold mayBeFalse. destruct (mustBeTrue_ok q s Hs Hq) as (r & s' & -> & Hs' & Hr).
  cbn. eexists _, s'. split; [done|]. split; [done|]. intros b. destruct r as [b'|]; cbn; [|done].
  intros ?; simplify_eq. rewrite <- (Hr b' eq_refl). by destruct b'.
Qed.

Lemma evaluate_ok q s : s_inv s -> bool_query q ->
  exists r s', evaluate q s = Done (r, s') /\ s_inv s' /\
    forall v, r = Some v -> validity_is v q.
Proof.
  intros Hs Hq. unfold evaluate. pose proof Hq as [Hwf ->]. rewrite Z.eqb_refl.
  destruct (q_expr q) as [CE| | | | | | | |] eqn:E; try (by apply validity_ok).
  eexists _, s. split; [done|]. split; [done|]. intros v Hv. simplify_eq.
  pose proof (const_truth q CE Hq E). by destruct (ConstantExpr_isTrue CE).
Qed.

Lemma getValue_ok q s : s_inv s -> wf_query q ->
  exists r s', getValue q s = Done (r, s') /\ s_inv s' /\
    forall a, r = Some a -> wf_apint a /\ getBitWidth a = getWidth (q_expr q) /\
      exists ρ, sat ρ (constraints q) /\ eval ρ (q_expr q) = uval a.
Proof.
  intros Hs Hq. unfold getValue. pose proof Hq as [_ He [ρ Hρ]].
  destruct (q_expr q) as [CE| | | | | | | |] eqn:E; try (rewrite <- E; by apply value_ok).
  eexists _, s. split; [done|]. split; [done|]. intros a Ha. simplify_eq.
  split; [done|]. split; [done|]. exists ρ. done.
Qed.

(** The default validity always answers when the truth does. *)
Lemma default_computeValidity_total q s r s' :
  (forall q s r s', computeTruth q s = Done (r, s') -> r <> None) ->
  default_computeValidity computeTruth q s = Done (r, s') -> r <> None.
Proof.
  intros Ht H ->. unfold default_computeValidity in H. run_inv; first [done|by eapply Ht].
Qed.

(** The default validity is as good as the truth it asks for. *)
Lemma default_computeValidity_ok q s : s_inv s -> bool_query q ->
  exists r s', default_computeValidity computeTruth q s = Done (r, s') /\ s_inv s' /\
    forall v, r = Some v -> validity_is v q.
Proof.
  intros Hs Hq. unfold default_computeValidity.
  destruct (truth_ok q s Hs Hq) as (r & s1 & -> & Hs1 & Hr). cbn [mbind outcome_bind].
  destruct r as [[|]|].
  - eexists _, _. split; [done|]. split; [done|]. intros v Hv. simplify_eq. by apply (Hr true).
  - destruct (negateExpr_ok q Hq) as (nq & -> & Hnq & _ & Hn & _). cbn [mbind outcome_bind].
    destruct (truth_ok nq s1 Hs1 Hnq) as (r & s2 & -> & Hs2 & Hr2). cbn [mbind outcome_bind].
    assert (~ valid q) as Hnv by (intros Hv; by apply (Hr false eq_refl) in Hv).
    destruct r as [b|]; eexists _, _; (split; [done|split; [done|]]); intros v Hv; simplify_eq.
    specialize (Hr2 b eq_refl). rewrite Hn in Hr2. destruct b; cbn; [by apply Hr2|].
    split; [done|]. intros Hv. by apply Hr2 in Hv.
  - eexists _, _. by split.
Qed.

End Sound.
