(* ===== verification/Constraints.v ===== *)
(** The constraint manager (Constraints.cpp): path constraints are rewritten
    with the equalities among them as they are added, and expressions are
    simplified under them. *)
From stdpp Require Import base list numbers strings sets.
From Stdlib Require Import ZArith Lia.
From S2P Require Import Prelude APInt Expr Semantics ConstantOps ExprCreate CreateSound OpsSound ReadSound.
From S2P Require Import ExprWeight Visitor Solver.
Local Open Scope Z_scope.

(** The command-line option [-rewrite-equalities] (on by default). *)
Class ConstraintOptions : Type := { RewriteEqualities : bool }.

(** [ConstraintSet]: a vector of boolean expressions. *)
Definition ConstraintSet : Type := list Expr.

Section Manager.
Context {AP : APIntOps} {AH : ArrayHeap} {OP : ExprOptions} {VO : VisitorOptions}.
Context {CO : ConstraintOptions}.

(** [ExprReplaceVisitor]: replaces one expression, before and after its kids
    are visited. *)
Definition ExprReplaceVisitor (src dst : Expr) : Visitor :=
  let replace e := if expr_eqb e src then ChangeTo dst else DoChildren in
  MkVisitor false (fun e => Done (replace e)) default_visitKind replace.

(** [ExprReplaceVisitor2]: replaces the keys of a map, and visits again what it
    has rebuilt. *)
Definition ExprReplaceVisitor2 (replacements : list (Expr * Expr)) : Visitor :=
  MkVisitor true default_visitExpr default_visitKind
    (fun e => match ExprMap_find e replacements with Some r => ChangeTo r | None => DoChildren end).

(** The map that [simplifyExpr] fills: a constraint that equates something with
    a constant replaces it, any other constraint is replaced by true. *)
Definition equality (c : Expr) : Expr * Expr :=
  match c with
  | BinaryExpr EqK (ConstantExpr v) r => (r, ConstantExpr v)
  | _ => (c, ConstantExpr (ConstantExpr_alloc 1 Bool))
  end.

Definition equalities (cs : ConstraintSet) : list (Expr * Expr) :=
  foldl (fun m c => ExprMap_insert (equality c).1 (equality c).2 m) [] cs.

Definition simplifyExpr (fuel : nat) (cs : ConstraintSet) (e : Expr) : outcome Expr :=
  if isConst e then Done e
  else '(r, _) ← visit (ExprReplaceVisitor2 (equalities cs)) fuel e []; Done r.

(** The loop of [rewriteConstraints] over the constraints taken out, with the
    visitor's memory, the constraints put back so far and the flag. *)
Fixpoint rewrite_loop (visit : Expr -> VM Expr) (add : Expr -> ConstraintSet -> outcome ConstraintSet)
    (old : list Expr) (s : visited_ty) (cs : ConstraintSet) (changed : bool)
    : outcome (ConstraintSet * bool) :=
  match old with
  | [] => Done (cs, changed)
  | ce :: old =>
      '(e, s) ← visit ce s;
      if negb (expr_eqb e ce) then
        cs ← add e cs;
        rewrite_loop visit add old s cs true
      else rewrite_loop visit add old s (cs ++ [ce]) changed
  end.

Definition rewriteConstraints (fuel : nat) (add : Expr -> ConstraintSet -> outcome ConstraintSet)
    (V : Visitor) (cs : ConstraintSet) : outcome (ConstraintSet * bool) :=
  rewrite_loop (visit V fuel) add cs [] [] false.

Fixpoint addConstraintInternal (fuel : nat) (e : Expr) (cs : ConstraintSet) : outcome ConstraintSet :=
  match fuel with
  | O => OutOfFuel
  | S fuel =>
      match e with
      | ConstantExpr c => Assert ConstantExpr_isTrue c ;; Done cs
      | BinaryExpr And l r =>
          cs ← addConstraintInternal fuel l cs;
          addConstraintInternal fuel r cs
      | BinaryExpr EqK l r =>
          cs ← (if RewriteEqualities && isConst l
                then p ← rewriteConstraints fuel (addConstraintInternal fuel) (ExprReplaceVisitor r l) cs;
                     Done p.1
                else Done cs);
          Done (cs ++ [e])
      | _ => Done (cs ++ [e])
      end
  end.

Definition addConstraint (fuel : nat) (e : Expr) (cs : ConstraintSet) : outcome ConstraintSet :=
  simplified ← simplifyExpr fuel cs e;
  addConstraintInternal fuel simplified cs.

End Manager.

(** ** Replacements *)

Section Replacing.
Context {AP : APIntOps} {APL : APIntLaws} {AH : ArrayHeap} {OP : ExprOptions} {VO : VisitorOptions}.
Context (default_opt : ConstArrayOpt = false).

(** The environments in which the replacements are right, and one of them in
    which nothing is divided by zero. *)
Context (E : env -> Prop) (ρ0 : env) (Hρ0 : E ρ0).

Record replaces (e r : Expr) : Prop := MkReplaces {
  rp_preserves : preserves E ρ0 e r;
  rp_lighter : lighter 1 (fun _ _ => O) e r
}.

Lemma replaces_refl e : visitable ρ0 e -> replaces e e.
Proof. split; [by apply preserves_refl|by left]. Qed.

Lemma replaces_trans a b c : replaces a b -> replaces b c -> replaces a c.
Proof. intros [P1 L1] [P2 L2]. split; [by eapply preserves_trans|by eapply lighter_trans]. Qed.

(** A constant of the right value replaces. *)
Lemma replaces_const e v : visitable ρ0 e -> isConst e = false -> wf_apint v ->
  getBitWidth v = getWidth e -> (forall ρ, E ρ -> eval ρ e = uval v) -> replaces e (ConstantExpr v).
Proof.
  intros He Hc Hv Hw Hev. split; [by apply preserves_const|].
  right. cbn. pose proof (weight_nonconst 1 (fun _ _ => O) e Hc). lia.
Qed.

Lemma replaces_rebuild e ks : visitable ρ0 e -> Forall2 replaces (kids e) ks -> ks <> kids e ->
  exists e', rebuild e ks = Done e' /\ replaces e e' /\ (nodes e' < nodes e)%nat.
Proof.
  intros He Hks Hne.
  assert (kids e <> []) as Hk. { intros E'. rewrite E' in *. by apply Forall2_nil_inv_l in Hks. }
  destruct (preserves_rebuild default_opt E ρ0 Hρ0 e ks He) as (e' & Er & Hp); [|done|].
  { eapply Forall2_impl; [exact Hks|by intros ? ? []]. }
  assert (nodes e' < nodes e)%nat as Hn.
  { eapply rebuild_nodes; [done| |done..]. eapply Forall2_impl; [exact Hks|by intros ? ? []]. }
  exists e'. split_and!; [done| |done]. split; [done|by right].
Qed.

(** A visitor that only replaces, by constants of the right value. *)
Lemma replacing_visitor V :
  (forall e, visitable ρ0 e -> isConst e = false -> exists a, visitExpr V e = Done a /\ action_ok replaces (fun _ => True) e a) ->
  (forall vis e, visitKind V vis e = mret DoChildren) ->
  (forall e, visitable ρ0 e -> isConst e = false -> action_ok replaces (fun _ => True) e (visitExprPost V e)) ->
  visitor_ok V (visitable ρ0) (fun _ => True) replaces replaces.
Proof.
  intros H1 H2 H3. split; auto using replaces_refl.
  - intros e vis s He Hc Ev Hvis Hs. exists DoChildren, s. split_and!; [|done..].
    eapply eventually_ext; [|apply eventually_Done]. intros m. by rewrite H2.
  - intros e k. apply visitable_kids.
  - intros e ks He _ Hks Hne. destruct (replaces_rebuild e ks He Hks Hne) as (e' & Er & Hr & Hn).
    exists e'. split; [done|]. destruct (recursive V); [|done].
    split_and!; [by eapply preserves_visitable, Hr|by left|]. intros r. by apply replaces_trans.
  - intros e x He _ Hx. unfold apply_post. destruct (isConst x) eqn:Hc; [done|].
    pose proof (preserves_visitable E ρ0 _ _ (rp_preserves _ _ Hx)) as Px. specialize (H3 x Px Hc).
    destruct (visitExprPost V x); try done. by eapply replaces_trans.
Qed.

Lemma ExprReplaceVisitor_ok src v : wf src -> wf_apint v -> getBitWidth v = getWidth src ->
  (forall ρ, E ρ -> eval ρ src = uval v) ->
  visitor_ok (ExprReplaceVisitor src (ConstantExpr v)) (visitable ρ0) (fun _ => True) replaces replaces.
Proof.
  intros Hs Hv Hw He.
  assert (forall e, visitable ρ0 e -> isConst e = false ->
    action_ok replaces (fun _ => True) e (if expr_eqb e src then ChangeTo (ConstantExpr v) else DoChildren)) as H.
  { intros e Pe Hc. destruct (expr_eqb_reflect e src) as [->|]; [|done]. by apply replaces_const. }
  apply replacing_visitor; cbn; eauto.
Qed.

(** Every entry of the map is a constant that its key equals. *)
Lemma equality_ok c : boolean c -> (forall ρ, E ρ -> eval ρ c <> 0) -> visitable ρ0 (equality c).1 ->
  isConst (equality c).1 = false -> replaces (equality c).1 (equality c).2.
Proof.
  intros [Hwf Hb] Hc Pk Hk.
  assert (visitable ρ0 c -> isConst c = false -> replaces c (ConstantExpr (ConstantExpr_alloc 1 Bool))) as Hd.
  { intros Pc Hcc. rewrite alloc_1_Bool. apply replaces_const; auto; [by split|].
    intros ρ Hρ. cbn. destruct (bool_value c ρ Hwf Hb); [|done]. by destruct (Hc ρ Hρ). }
  unfold equality in *. destruct c as [| | | | | | | |[] [v| | | | | | | |] r]; cbn in Pk, Hk |- *; auto.
  destruct Hwf as (Hv & Hr & Hw). apply replaces_const; auto.
  intros ρ Hρ. specialize (Hc ρ Hρ). cbn in Hc. destruct (Z.eqb_spec (uval v) (eval ρ r)); [done|].
  by cbn in Hc.
Qed.

Lemma equalities_ok cs : Forall boolean cs -> (forall ρ, E ρ -> sat ρ cs) ->
  Forall (fun p => visitable ρ0 p.1 -> isConst p.1 = false -> replaces p.1 p.2) (equalities cs).
Proof.
  intros Hb Hs. unfold equalities.
  assert (forall m, Forall (fun p => visitable ρ0 p.1 -> isConst p.1 = false -> replaces p.1 p.2) m ->
    Forall (fun p => visitable ρ0 p.1 -> isConst p.1 = false -> replaces p.1 p.2)
      (foldl (fun m c => ExprMap_insert (equality c).1 (equality c).2 m) m cs)) as H; [|by apply H].
  induction cs as [|c cs IH]; intros m Hm; [done|]. apply Forall_cons in Hb as [Hc Hb]. cbn [foldl].
  apply IH; [done|intros ρ Hρ c' ?; apply (Hs ρ Hρ); set_solver|].
  apply (ExprMap_insert_ok (fun a b => visitable ρ0 a -> isConst a = false -> replaces a b)); [done|].
  intros. apply equality_ok; auto. intros ρ Hρ. apply (Hs ρ Hρ). set_solver.
Qed.

Lemma ExprReplaceVisitor2_ok cs : Forall boolean cs -> (forall ρ, E ρ -> sat ρ cs) ->
  visitor_ok (ExprReplaceVisitor2 (equalities cs)) (visitable ρ0) (fun _ => True) replaces replaces.
Proof.
  intros Hb Hs. apply replacing_visitor; cbn; [by eexists|done|].
  intros e Pe Hc. destruct (ExprMap_find e (equalities cs)) as [r|] eqn:Hf; [|done]. cbn.
  eapply (ExprMap_find_ok (fun a b => visitable ρ0 a -> isConst a = false -> replaces a b)); eauto.
  by apply equalities_ok.
Qed.

Lemma simplifyExpr_replaces cs e : Forall boolean cs -> (forall ρ, E ρ -> sat ρ cs) -> visitable ρ0 e ->
  exists r, eventually (fun m => simplifyExpr m cs e) r /\ replaces e r.
Proof.
  intros Hb Hs He. unfold simplifyExpr. destruct (isConst e) eqn:Hc.
  { exists e. split; [apply eventually_Done|by apply replaces_refl]. }
  destruct (visit_ok _ _ _ _ _ e [] (ExprReplaceVisitor2_ok cs Hb Hs) He (List.Forall_nil _)) as (r & s & Ev & Hr & _).
  exists r. split; [|done]. eapply (eventually_bind _ (fun m '(r, _) => _)); [exact Ev|apply eventually_Done].
Qed.

End Replacing.

(** ** Adding a constraint *)

Section Adding.
Context {AP : APIntOps} {APL : APIntLaws} {AH : ArrayHeap} {OP : ExprOptions} {VO : VisitorOptions}.
Context {CO : ConstraintOptions} (default_opt : ConstArrayOpt = false).

(** A run that the constraints describe: it satisfies them and divides nothing
    by zero. *)
Context (ρ0 : env).

Definition feasible (c : Expr) : Prop := boolean c /\ eval ρ0 c <> 0 /\ div_safe ρ0 c.

Definition total (cs : list Expr) : nat := sum_list_with nodes cs.

Lemma total_cons c cs : total (c :: cs) = (nodes c + total cs)%nat.
Proof. done. Qed.

Lemma total_app a b : total (a ++ b) = (total a + total b)%nat.
Proof. apply sum_list_with_app. Qed.

Lemma sat_app ρ a b : sat ρ (a ++ b) <-> sat ρ a /\ sat ρ b.
Proof. unfold sat. setoid_rewrite elem_of_app. naive_solver. Qed.

Lemma sat_one ρ c : sat ρ [c] <-> eval ρ c <> 0.
Proof. unfold sat. setoid_rewrite list_elem_of_singleton. naive_solver. Qed.

(** The new set says what the old one and the constraint say. *)
Record adds (e : Expr) (cs cs' : ConstraintSet) : Prop := MkAdds {
  ad_feasible : Forall feasible cs';
  ad_total : (total cs' <= total cs + nodes e)%nat;
  ad_sat : forall ρ, sat ρ cs' <-> sat ρ cs /\ eval ρ e <> 0
}.

Lemma adds_push e cs : Forall feasible cs -> feasible e -> adds e cs (cs ++ [e]).
Proof.
  intros Hcs He. split.
  - apply Forall_app. split; [done|by apply Forall_singleton].
  - rewrite total_app. cbn. lia.
  - intros ρ. by rewrite sat_app, sat_one.
Qed.

Lemma feasible_visitable c : feasible c -> visitable ρ0 c.
Proof. by intros ((? & _) & _ & ?). Qed.

Lemma replaces_feasible E c r : E ρ0 -> feasible c -> replaces E ρ0 c r -> feasible r.
Proof.
  intros HE ((Hwf & Hb) & Hv & Hs) [[[? ?] Hev ?] _]. split_and!; auto; [split; [done|congruence]|].
  by rewrite (Hev _ HE).
Qed.

(** The loop, given that additions lighter than [N] return. *)
Lemma rewrite_loop_ok V E N add : visitor_ok V (visitable ρ0) (fun _ => True) (replaces E ρ0) (replaces E ρ0) -> E ρ0 ->
  (forall e cs, (total cs + nodes e < N)%nat -> feasible e -> Forall feasible cs ->
     exists cs', eventually (fun m => add m e cs) cs' /\ adds e cs cs') ->
  forall old s cs b, Forall feasible old -> Forall feasible cs -> (total cs + total old <= N)%nat ->
  visited_ok (replaces E ρ0) s ->
  exists cs' b', eventually (fun m => rewrite_loop (visit V m) (add m) old s cs b) (cs', b') /\
    Forall feasible cs' /\ (total cs' <= total cs + total old)%nat /\
    forall ρ, E ρ -> sat ρ cs' <-> sat ρ cs /\ sat ρ old.
Proof.
  intros HV HE Hadd. induction old as [|ce old IH]; intros s cs b Hold Hcs HN Hs.
  { exists cs, b. split; [apply eventually_Done|]. split_and!; [done|cbn; lia|]. unfold sat. set_solver. }
  apply Forall_cons in Hold as [Hce Hold]. rewrite total_cons in HN.
  destruct (visit_ok V _ _ _ _ ce s HV (feasible_visitable _ Hce) Hs) as (r & s' & Ev & Hr & Hs').
  pose proof (replaces_feasible E ce r HE Hce Hr) as Hrf.
  assert (exists cs1 b1, eventually (fun m => if negb (expr_eqb r ce) then cs ← add m r cs; Done (cs, true)
      else Done (cs ++ [ce], b)) (cs1, b1) /\ Forall feasible cs1 /\ (total cs1 <= total cs + nodes ce)%nat /\
      forall ρ, E ρ -> sat ρ cs1 <-> sat ρ cs /\ eval ρ ce <> 0) as (cs1 & b1 & E1 & H1 & T1 & S1).
  { destruct (expr_eqb_reflect r ce) as [->|Hne]; cbn [negb].
    - exists (cs ++ [ce]), b. destruct (adds_push ce cs Hcs Hce). split; [apply eventually_Done|]. auto.
    - destruct (rp_lighter _ _ _ _ Hr) as [?|Hl]; [done|]. change (nodes r < nodes ce)%nat in Hl.
      destruct (Hadd r cs ltac:(lia) Hrf Hcs) as (cs1 & E1 & [F1 T1 S1]). exists cs1, true. split_and!; [|done|lia|].
      + eapply eventually_bind; [exact E1|apply eventually_Done].
      + intros ρ Hρ. by rewrite S1, (pv_eval _ _ _ _ (rp_preserves _ _ _ _ Hr) ρ Hρ). }
  destruct (IH s' cs1 b1 Hold H1 ltac:(lia) Hs') as (cs' & b' & E' & F' & T' & S').
  exists cs', b'. split_and!; [|done|rewrite total_cons; lia|].
  - cbn [rewrite_loop]. eapply (eventually_bind _ (fun m '(e, s) => _)); [exact Ev|]. cbn beta iota.
    eapply (eventually_ext _ (fun m => p ← (if negb (expr_eqb r ce) then cs ← add m r cs; Done (cs, true)
      else Done (cs ++ [ce], b)); rewrite_loop (visit V m) (add m) old s' p.1 p.2)).
    { intros m. destruct (negb _); [|done]. by destruct (add m r cs). }
    by eapply eventually_bind; [exact E1|].
  - intros ρ Hρ. rewrite S', S1 by done. rewrite (sat_app ρ [ce] old : sat ρ (ce :: old) <-> _), sat_one. tauto.
Qed.

(** Conjuncts are added one after the other. *)
Lemma add_conjuncts add l r cs : feasible (BinaryExpr And l r) -> Forall feasible cs ->
  (forall e cs', (total cs' + nodes e < total cs + nodes (BinaryExpr And l r))%nat ->
     feasible e -> Forall feasible cs' ->
     exists cs1, eventually (fun m => add m e cs') cs1 /\ adds e cs' cs1) ->
  exists cs', eventually (fun m => cs ← add m l cs; add m r cs) cs' /\ adds (BinaryExpr And l r) cs cs'.
Proof.
  intros ((Hwf & Hb) & Hv & Hs) Hcs Hadd. destruct Hwf as (Hl & Hr & Hw). cbn in Hb.
  assert (forall ρ, eval ρ (BinaryExpr And l r) <> 0 <-> eval ρ l <> 0 /\ eval ρ r <> 0) as Hand.
  { intros ρ. cbn. destruct (bool_value l ρ Hl Hb) as [-> | ->], (bool_value r ρ Hr ltac:(congruence)) as [-> | ->];
      cbn; naive_solver lia. }
  apply Hand in Hv as [Vl Vr]. unfold nodes in Hadd. cbn in Hadd.
  assert (div_safe ρ0 l /\ div_safe ρ0 r) as [Sl Sr].
  { split; eapply div_safe_kids; [exact Hs|cbn|exact Hs|cbn]; set_solver. }
  destruct (Hadd l cs) as (cs1 & E1 & [F1 T1 S1]); [lia|by split_and!|done|]. unfold nodes in T1.
  destruct (Hadd r cs1) as (cs2 & E2 & [F2 T2 S2]); [lia|split_and!; [split; [done|congruence]|done..]|done|].
  unfold nodes in T2. exists cs2. split; [by eapply eventually_bind; [exact E1|]|]. split; [done| |].
  - unfold nodes. cbn. lia.
  - intros ρ. rewrite S2, S1, Hand. tauto.
Qed.

(** An equality with a constant first rewrites the constraints there are. *)
Lemma add_equality add v r cs : feasible (BinaryExpr EqK (ConstantExpr v) r) -> Forall feasible cs ->
  (forall e cs', (total cs' + nodes e < total cs)%nat -> feasible e -> Forall feasible cs' ->
     exists cs1, eventually (fun m => add m e cs') cs1 /\ adds e cs' cs1) ->
  exists cs', eventually (fun m => p ← rewriteConstraints m (add m) (ExprReplaceVisitor r (ConstantExpr v)) cs;
    Done (p.1 ++ [BinaryExpr EqK (ConstantExpr v) r])) cs' /\ adds (BinaryExpr EqK (ConstantExpr v) r) cs cs'.
Proof.
  intros He Hcs Hadd. pose proof He as ((Hwf & Hb) & Hv & Hs). destruct Hwf as (Hwv & Hr & Hw).
  assert (forall ρ, eval ρ (BinaryExpr EqK (ConstantExpr v) r) <> 0 -> eval ρ r = uval v) as Heq.
  { intros ρ. cbn. by destruct (Z.eqb_spec (uval v) (eval ρ r)). }
  destruct (rewrite_loop_ok (ExprReplaceVisitor r (ConstantExpr v))
    (fun ρ => eval ρ (BinaryExpr EqK (ConstantExpr v) r) <> 0) (total cs) add) with
    (old := cs) (s := @nil (Expr * Expr)) (cs := @nil Expr) (b := false)
    as (cs1 & b & E1 & F1 & T1 & S1); auto;
    try apply List.Forall_nil; [by apply ExprReplaceVisitor_ok|].
  exists (cs1 ++ [BinaryExpr EqK (ConstantExpr v) r]). split.
  { eapply (eventually_bind _ (fun m p => _)); [exact E1|apply eventually_Done]. }
  destruct (adds_push _ cs1 F1 He) as [F2 T2 S2]. split; [done|cbn in T1; lia|].
  intros ρ. rewrite S2. split; intros [A B]; (split; [|done]); apply (S1 ρ B) in A || apply (S1 ρ B);
    [tauto|]. split; [|done]. unfold sat. set_solver.
Qed.

Lemma addConstraintInternal_ok N : forall e cs, (total cs + nodes e < N)%nat -> feasible e -> Forall feasible cs ->
  exists cs', eventually (fun m => addConstraintInternal m e cs) cs' /\ adds e cs cs'.
Proof.
  induction N as [|N IH]; [lia|]. intros e cs HN He Hcs.
  assert ((forall m, addConstraintInternal (S m) e cs = Done (cs ++ [e])) ->
    exists cs', eventually (fun m => addConstraintInternal m e cs) cs' /\ adds e cs cs') as Hpush.
  { intros Em. exists (cs ++ [e]). split; [|by apply adds_push].
    eapply eventually_succ; [exact Em|apply eventually_Done]. }
  destruct e as [c| | | | | | | |k l r]; try (by apply Hpush).
  - destruct He as ((Hwf & Hb) & Hv & _). cbn in Hv, Hb. exists cs. split.
    + eapply (eventually_succ _ (fun _ => Done cs)); [|apply eventually_Done]. intros m. cbn. rewrite isTrue_spec by done.
      by rewrite (proj2 (Z.eqb_neq _ _) Hv).
    + split; [done|cbn; lia|]. intros ρ. cbn. tauto.
  - destruct k; try (by apply Hpush).
    + destruct (add_conjuncts addConstraintInternal l r cs He Hcs) as (cs' & E & H).
      { intros e' cs' ?. apply IH. lia. }
      exists cs'. split; [|done]. by eapply eventually_succ; [|exact E].
    + destruct (RewriteEqualities && isConst l) eqn:Hl; [|apply Hpush; intros m; cbn; by rewrite Hl].
      destruct l as [v| | | | | | | |]; try (by rewrite andb_false_r in Hl).
      destruct (add_equality addConstraintInternal v r cs He Hcs) as (cs' & E & H).
      { intros e' cs' ?. apply IH. lia. }
      exists cs'. split; [|done]. eapply eventually_succ; [|exact E].
      intros m. cbn [addConstraintInternal]. rewrite Hl. by rewrite bind_assoc.
Qed.

(** A constraint that the path allows is added: the set then has the solutions
    of both. *)
Lemma addConstraint_ok e cs : Forall feasible cs -> feasible e ->
  exists cs', eventually (fun m => addConstraint m e cs) cs' /\ Forall feasible cs' /\
    forall ρ, sat ρ cs' <-> sat ρ cs /\ eval ρ e <> 0.
Proof.
  intros Hcs He.
  assert (Forall boolean cs /\ sat ρ0 cs) as [Hb Hs].
  { split; [by eapply Forall_impl; [exact Hcs|intros ? []]|]. intros c Hc.
    rewrite Forall_forall in Hcs. by apply Hcs. }
  destruct (simplifyExpr_replaces default_opt (fun ρ => sat ρ cs) ρ0 Hs cs e Hb) as (r & Er & Hr);
    [done|by apply feasible_visitable|].
  destruct (addConstraintInternal_ok (S (total cs + nodes r)) r cs) as (cs' & Ea & [F T S]);
    [lia|by eapply (replaces_feasible (fun ρ => sat ρ cs))|done|].
  exists cs'. split_and!; [|done|].
  - by eapply eventually_bind; [exact Er|].
  - intros ρ. rewrite S. split; intros [A B]; (split; [done|]); by rewrite (pv_eval _ _ _ _ (rp_preserves _ _ _ _ Hr) ρ A) in *.
Qed.

End Adding.
