(* ===== verification/Evaluator.v ===== *)
(** Evaluation by visiting (ExprEvaluator.cpp) and assignments of bytes to
    arrays (Assignment.h, Assignment.cpp). *)
From stdpp Require Import base list numbers strings sets gmap.
From Stdlib Require Import ZArith Lia.
From S2P Require Import Prelude APInt Expr Semantics ConstantOps ExprCreate CreateSound OpsSound ReadSound.
From S2P Require Import ExprWeight Visitor FindReads Solver.
Local Open Scope Z_scope.

Section Evaluator.
Context {AP : APIntOps} {AH : ArrayHeap} {OP : ExprOptions} {VO : VisitorOptions}.

(** The method a subclass of [ExprEvaluator] provides. *)
Context (getInitialValue : positive -> Z -> outcome Expr).

(** [ExprEvaluator::evalRead]; [index] has 32 bits. *)
Fixpoint evalRead (visit : Expr -> VM Expr) (root : positive) (head : UpdateNode) (index : Z) : VM Action :=
  let a := array_at root in
  match head with
  | UNode next i v =>
      ui ← visit i;
      match ui with
      | ConstantExpr CE =>
          z ← lift (ConstantExpr_getZExtValue CE 64);
          if z =? index then v' ← visit v; mret (ChangeTo v')
          else evalRead visit root next index
      | _ =>
          r ← lift (ReadExpr_create (MkUpdateList root head)
                      (ConstantExpr (ConstantExpr_alloc index (arr_domain a))));
          mret (ChangeTo r)
      end
  | UNull =>
      if isConstantArray a && (index <? arr_size a)
      then c ← lift (deref (constantValues a !! Z.to_nat index)); mret (ChangeTo (ConstantExpr c))
      else r ← lift (getInitialValue root index); mret (ChangeTo r)
  end.

(** [ExprEvaluator::visitExpr]: an operator on constants is folded at once. *)
Definition evaluator_visitExpr (e : Expr) : outcome Action :=
  match e with
  | ConstantExpr _ | ReadExpr _ _ _ => Done DoChildren
  | _ =>
      if forallb isConst (kids e) then r ← rebuild e (kids e); Done (ChangeTo r)
      else Done DoChildren
  end.

Definition evaluator_visitRead (visit : Expr -> VM Expr) (root : positive) (head : UpdateNode)
    (index : Expr) : VM Action :=
  v ← visit index;
  match v with
  | ConstantExpr CE =>
      z ← lift (ConstantExpr_getZExtValue CE 64);
      evalRead visit root head (u32 z)
  | _ => mret DoChildren
  end.

(** [ExprEvaluator::protectedDivOperation]: a divisor that comes out as zero is
    not used. *)
Definition protectedDivOperation (visit : Expr -> VM Expr) (k : BinaryKind) (l r : Expr) : VM Action :=
  k0 ← visit l;
  k1 ← visit r;
  let k1 := match k1 with ConstantExpr CE => if ConstantExpr_isZero CE then r else k1 | _ => k1 end in
  if negb (expr_eqb k0 l) || negb (expr_eqb k1 r)
  then e ← lift (rebuild (BinaryExpr k l r) [k0; k1]); mret (ChangeTo e)
  else mret SkipChildren.

Definition evaluator_visitKind (visit : Expr -> VM Expr) (e : Expr) : VM Action :=
  match e with
  | ReadExpr root head index => evaluator_visitRead visit root head index
  | BinaryExpr k l r => if isDivKind k then protectedDivOperation visit k l r else mret DoChildren
  | _ => mret DoChildren
  end.

Definition evaluator_visitExprPost (e : Expr) : Action :=
  match e with NotOptimizedExpr src => ChangeTo src | _ => SkipChildren end.

Definition ExprEvaluator : Visitor :=
  MkVisitor false evaluator_visitExpr evaluator_visitKind evaluator_visitExprPost.

End Evaluator.

(** ** Assignments *)

(** [Assignment]: the bytes of arrays. *)
Record Assignment : Type := MkAssignment {
  allowFreeValues : bool;
  bindings : gmap positive (list Z)
}.

(** The constructor from objects and values: an array keeps its first value. *)
Fixpoint bind_objects (objects : list positive) (values : list (list Z))
    (m : gmap positive (list Z)) : outcome (gmap positive (list Z)) :=
  match objects with
  | [] => Done m
  | os :: objects =>
      match values with
      | [] => Undefined
      | arr :: values =>
          bind_objects objects values (match m !! os with Some _ => m | None => <[os := arr]> m end)
      end
  end.

Definition Assignment_make (objects : list positive) (values : list (list Z)) (allow : bool) : outcome Assignment :=
  m ← bind_objects objects values ∅; Done (MkAssignment allow m).

Section Assignments.
Context {AP : APIntOps} {AH : ArrayHeap} {OP : ExprOptions} {VO : VisitorOptions}.

(** [Assignment::evaluate] of one byte. *)
Definition evaluate_byte (a : Assignment) (array : positive) (index : Z) : outcome Expr :=
  let range := arr_range (array_at array) in
  match (bs ← bindings a !! array; bs !! Z.to_nat index) with
  | Some v => Done (ConstantExpr (ConstantExpr_alloc v range))
  | None =>
      if allowFreeValues a
      then ReadExpr_create (MkUpdateList array UNull)
             (ConstantExpr (ConstantExpr_alloc index (arr_domain (array_at array))))
      else Done (ConstantExpr (ConstantExpr_alloc 0 range))
  end.

Definition AssignmentEvaluator (a : Assignment) : Visitor := ExprEvaluator (evaluate_byte a).

(** [Assignment::evaluate] of an expression. *)
Definition Assignment_evaluate (a : Assignment) (e : Expr) : outcome Expr :=
  '(r, _) ← visit_expr (AssignmentEvaluator a) e []; Done r.

(** [Expr::isTrue] *)
Definition Expr_isTrue (e : Expr) : outcome bool :=
  Assert getWidth e =? Bool ;;
  Done (match e with ConstantExpr CE => ConstantExpr_isTrue CE | _ => false end).

Fixpoint satisfies_loop (visit : Expr -> VM Expr) (cs : list Expr) (s : visited_ty) : outcome bool :=
  match cs with
  | [] => Done true
  | c :: cs =>
      '(r, s) ← visit c s;
      b ← Expr_isTrue r;
      if negb b then Done false else satisfies_loop visit cs s
  end.

(** [Assignment::satisfies] *)
Definition satisfies (a : Assignment) (cs : list Expr) : outcome bool :=
  satisfies_loop (visit_expr (AssignmentEvaluator a)) cs [].

(** The constraint that one byte has its value. *)
Definition byte_constraint (array : positive) (values : list Z) (arrayIndex : nat) : outcome Expr :=
  value ← deref (values !! arrayIndex);
  rd ← ReadExpr_create (MkUpdateList array UNull)
         (ConstantExpr (ConstantExpr_alloc (Z.of_nat arrayIndex) (arr_domain (array_at array))));
  EqExpr_create rd (ConstantExpr (ConstantExpr_alloc value (arr_range (array_at array)))).

(** [Assignment::createConstraintsFromAssignment], over the arrays in the order
    of the map. *)
Definition createConstraintsFromAssignment (a : Assignment) : outcome (list Expr) :=
  css ← mapM (fun b => mapM (byte_constraint b.1 b.2) (seq 0 (Z.to_nat (arr_size (array_at b.1)))))
          (map_to_list (bindings a));
  Done (concat css).

End Assignments.

(** ** What evaluation computes *)

(** No [NotOptimizedExpr] directly over a constant: [visitExpr] rebuilds such a
    node and returns it, so that [visitExprPost] never removes it. *)
Fixpoint clean (e : Expr) : bool :=
  match e with
  | ConstantExpr _ => true
  | NotOptimizedExpr s => negb (isConst s) && clean s
  | ReadExpr _ u i => clean_updates u && clean i
  | SelectExpr c t f => clean c && clean t && clean f
  | ConcatExpr l r => clean l && clean r
  | ExtractExpr e _ _ => clean e
  | NotExpr e => clean e
  | CastExpr _ s _ => clean s
  | BinaryExpr _ l r => clean l && clean r
  end
with clean_updates (u : UpdateNode) : bool :=
  match u with
  | UNull => true
  | UNode n i v => clean_updates n && clean i && clean v
  end.

(** No divisor is the literal zero. *)
Fixpoint lit_safe (e : Expr) : bool :=
  match e with
  | ConstantExpr _ => true
  | NotOptimizedExpr s => lit_safe s
  | ReadExpr _ u i => lit_safe_updates u && lit_safe i
  | SelectExpr c t f => lit_safe c && lit_safe t && lit_safe f
  | ConcatExpr l r => lit_safe l && lit_safe r
  | ExtractExpr e _ _ => lit_safe e
  | NotExpr e => lit_safe e
  | CastExpr _ s _ => lit_safe s
  | BinaryExpr k l r => negb (div_by_zero k r) && lit_safe l && lit_safe r
  end
with lit_safe_updates (u : UpdateNode) : bool :=
  match u with
  | UNull => true
  | UNode n i v => lit_safe_updates n && lit_safe i && lit_safe v
  end.

Definition isRead (e : Expr) : bool := match e with ReadExpr _ _ _ => true | _ => false end.

Lemma clean_kids e k : clean e = true -> k ∈ kids e -> clean k = true.
Proof.
  intros H Hk. destruct e; cbn in H, Hk; rewrite ?elem_of_cons, ?elem_of_nil in Hk;
    rewrite ?andb_true_iff in H; destruct_and?; destruct_or?; subst; done.
Qed.

Lemma lit_safe_kids e k : lit_safe e = true -> k ∈ kids e -> lit_safe k = true.
Proof.
  intros H Hk. destruct e; cbn in H, Hk; rewrite ?elem_of_cons, ?elem_of_nil in Hk;
    rewrite ?andb_true_iff in H; destruct_and?; destruct_or?; subst; done.
Qed.

(** The expressions written by the updates, and their indices. *)
Fixpoint update_exprs (u : UpdateNode) : list Expr :=
  match u with UNull => [] | UNode n i v => i :: v :: update_exprs n end.

Lemma update_exprs_lt r u i k : k ∈ update_exprs u -> walk_lt k (ReadExpr r u i).
Proof.
  intros Hk. right. change (nodes (ReadExpr r u i)) with (1 + updates_weight 1 (fun _ _ => O) u + nodes i)%nat.
  change (expr_size (ReadExpr r u i)) with (S (un_weight u + expr_size i)). unfold nodes at 1.
  enough (weight 1 (fun _ _ => O) k <= updates_weight 1 (fun _ _ => O) u /\
    expr_size k <= un_weight u)%nat by lia.
  induction u as [|n IH ix v] using UpdateNode_ind;
    cbn [update_exprs] in *; [by apply elem_of_nil in Hk|].
  change (updates_weight 1 (fun _ _ => O) (UNode n ix v)) with
    (updates_weight 1 (fun _ _ => O) n + nodes ix + nodes v)%nat.
  change (un_weight (UNode n ix v)) with (S (un_weight n + expr_size ix + expr_size v)). unfold nodes.
  rewrite !elem_of_cons in Hk. destruct Hk as [-> | [-> |Hk]]; [lia..|]. specialize (IH Hk). lia.
Qed.

(** An expression that divides nothing by zero has no literal zero divisor. *)
Lemma div_safe_lit_safe_mut {AH : ArrayHeap} ρ :
  (forall e, div_safe ρ e -> lit_safe e = true) /\
  (forall u, div_safe_updates ρ u -> lit_safe_updates u = true).
Proof.
  apply Expr_UpdateNode_ind; cbn [lit_safe lit_safe_updates].
  - done.
  - intros s IH H. apply IH. eapply div_safe_kids; [exact H|cbn; set_solver].
  - intros r u IHu i IHi (Hu & Hi)%div_safe_read. by rewrite IHu, IHi.
  - intros c IHc t IHt f IHf H. rewrite IHc, IHt, IHf; [done|..]; (eapply div_safe_kids; [exact H|cbn; set_solver]).
  - intros l IHl r IHr H. rewrite IHl, IHr; [done|..]; (eapply div_safe_kids; [exact H|cbn; set_solver]).
  - intros x IH off w H. apply IH. eapply div_safe_kids; [exact H|cbn; set_solver].
  - intros x IH H. apply IH. eapply div_safe_kids; [exact H|cbn; set_solver].
  - intros k x IH w H. apply IH. eapply div_safe_kids; [exact H|cbn; set_solver].
  - intros k l IHl r IHr H. rewrite IHl, IHr by (eapply div_safe_kids; [exact H|cbn; set_solver]).
    rewrite !andb_true_r. apply negb_true_iff. unfold div_by_zero. destruct (isDivKind k) eqn:Hk; [|done].
    pose proof (div_safe_divisor _ _ _ _ H Hk) as Hd. destruct r; try done. by apply Z.eqb_neq.
  - done.
  - intros n IHn i IHi v IHv (Hn & Hi & Hv)%div_safe_node. by rewrite IHn, IHi, IHv.
Qed.

Lemma div_safe_lit_safe {AH : ArrayHeap} ρ e : div_safe ρ e -> lit_safe e = true.
Proof. apply div_safe_lit_safe_mut. Qed.

Section Folding.
Context {AP : APIntOps} {AH : ArrayHeap} {OP : ExprOptions}.

Lemma BinaryExpr_constants k a b e :
  BinaryExpr_create k (ConstantExpr a) (ConstantExpr b) = Done e -> isConst e = true.
Proof.
  assert (forall op create, BCREATE op create (ConstantExpr a) (ConstantExpr b) = Done e -> isConst e = true) as H1.
  { intros op create. unfold BCREATE. case_match; [|done]. by intros [= <-]. }
  assert (forall op create, BCREATE op create (ConstantExpr b) (ConstantExpr a) = Done e -> isConst e = true) as H1'.
  { intros op create. unfold BCREATE. case_match; [|done]. by intros [= <-]. }
  assert (forall op pL pR create a b e, BCREATE_R op pL pR create (ConstantExpr a) (ConstantExpr b) = Done e ->
    exists c, e = ConstantExpr c) as H2.
  { intros op pL pR create a' b' e'. unfold BCREATE_R. case_match; [|done]. intros [= <-]. by eexists. }
  destruct k; cbn [BinaryExpr_create]; try (by apply H1); try (by apply H1');
    try (intros [c ->]%H2; done).
  intros H. unfold NeExpr_create in H. run_inv.
  match goal with H : EqExpr_create _ _ = _ |- _ => apply H2 in H as [? ->] end.
  match goal with H : EqExpr_create _ _ = _ |- _ => apply H2 in H as [? ->] end. done.
Qed.

(** Operators other than reads and [NotOptimizedExpr] fold constants. *)
Lemma rebuild_constants e ks e' : isRead e = false -> (forall s, e <> NotOptimizedExpr s) ->
  Forall (fun k => isConst k = true) ks -> rebuild e ks = Done e' -> isConst e' = true.
Proof.
  intros Hr Hn Hks H.
  destruct e as [|s|? ? ?|c t f|l r|e off w|e|k s w|k l r]; cbn in Hr; try done; [by destruct (Hn s)|..];
    cbn [rebuild] in H;
    repeat (match type of H with match ?l with _ => _ end = _ => destruct l; try done end);
    repeat match goal with H : Forall _ (_ :: _) |- _ => apply Forall_cons in H as [? H] end;
    repeat match goal with H : isConst ?x = true |- _ => destruct x; try discriminate H; clear H end.
  - unfold SelectExpr_create in H. repeat case_match; try done; by simplify_eq.
  - by simplify_eq/=.
  - unfold ExtractExpr_create in H. rewrite Nat.add_1_r in H. cbn [ExtractExpr_create_f] in H.
    repeat case_match; try done; by simplify_eq.
  - by simplify_eq/=.
  - destruct k; cbn in H; unfold ZExtExpr_create, SExtExpr_create, ExtractExpr_create in H;
      rewrite Nat.add_1_r in H; cbn [ExtractExpr_create_f] in H; repeat case_match; try done; by simplify_eq.
  - by eapply BinaryExpr_constants.
Qed.


(** What [visitExprPost] leaves of an expression. *)
Definition strip (e : Expr) : Expr := match e with NotOptimizedExpr s => s | _ => e end.

Lemma rebuild_strip e ks e' : isRead e = false -> Forall (fun k => isConst k = true) ks ->
  rebuild e ks = Done e' -> isConst (strip e') = true.
Proof.
  intros Hr Hk H.
  assert ((forall s, e <> NotOptimizedExpr s) -> isConst (strip e') = true) as Ho.
  { intros Hn. pose proof (rebuild_constants _ _ _ Hr Hn Hk H). by destruct e'. }
  destruct e as [|s| | | | | | |]; try (by apply Ho). cbn in H. destruct ks as [|k [|]]; try done.
  injection H as <-. by apply Forall_cons in Hk as [? _].
Qed.

End Folding.

(** The evaluator visits only what is inside the expression. *)
Lemma evalRead_local {AP : APIntOps} {AH : ArrayHeap} {OP : ExprOptions} getInitialValue vis vis' root u index s :
  (forall k, k ∈ update_exprs u -> forall s, vis k s = vis' k s) ->
  evalRead getInitialValue vis root u index s = evalRead getInitialValue vis' root u index s.
Proof.
  revert s. induction u as [|next IH i v] using UpdateNode_ind; intros s H; [done|]. cbn [evalRead update_exprs] in *.
  apply VM_bind_ext; [apply H; set_solver|]. intros [] t; try done.
  apply VM_bind_ext; [done|]. intros z t'. destruct (z =? index); [|apply IH; set_solver].
  apply VM_bind_ext; [apply H; set_solver|done].
Qed.

Lemma update_exprs_size r u i k : k ∈ update_exprs u -> (expr_size k < expr_size (ReadExpr r u i))%nat.
Proof.
  intros Hk. change (expr_size (ReadExpr r u i)) with (S (un_weight u + expr_size i)).
  enough (expr_size k <= un_weight u)%nat by lia. revert Hk.
  induction u as [|n IH ix v] using UpdateNode_ind; cbn [update_exprs]; intros Hk; [by apply elem_of_nil in Hk|].
  change (un_weight (UNode n ix v)) with (S (un_weight n + expr_size ix + expr_size v)).
  rewrite !elem_of_cons in Hk. destruct Hk as [-> | [-> |Hk]]; [lia..|]. specialize (IH Hk). lia.
Qed.

Lemma evaluator_local {AP : APIntOps} {AH : ArrayHeap} {OP : ExprOptions} getInitialValue :
  local_kind (ExprEvaluator getInitialValue).
Proof.
  intros vis vis' e H s. destruct e as [| |root u i| | | | | |k l r]; try done; cbn.
  - unfold evaluator_visitRead. apply VM_bind_ext; [apply H, kids_size; cbn; set_solver|].
    intros [] t; try done. apply VM_bind_ext; [done|]. intros z t'. apply evalRead_local.
    intros x Hx. by apply H, update_exprs_size.
  - destruct (isDivKind k); [|done]. unfold protectedDivOperation.
    apply VM_bind_ext; [apply H, (kids_size (BinaryExpr k l r)); cbn; set_solver|]. intros k0 t.
    apply VM_bind_ext; [apply H, (kids_size (BinaryExpr k l r)); cbn; set_solver|done].
Qed.

Section Evaluating.
Context {AP : APIntOps} {APL : APIntLaws} {AH : ArrayHeap} {OP : ExprOptions} {VO : VisitorOptions}.
Context (default_opt : ConstArrayOpt = false) (domain32 : forall r, arr_domain (array_at r) <= 32).

(** The environments the initial values are right about; [K] says which of them
    are constants. *)
Context (E : env -> Prop) (ρ0 : env) (Hρ0 : E ρ0) (K : positive -> Z -> Prop).
Context (getInitialValue : positive -> Z -> outcome Expr).

(** The contract of [getInitialValue]: it is asked for the elements of symbolic
    arrays, and for those beyond the end of constant ones. *)
Definition initial_values_ok : Prop := forall r i,
  wf_array (array_at r) -> 0 <= i < 2 ^ arr_domain (array_at r) ->
  (isConstantArray (array_at r) = true -> arr_size (array_at r) <= i) ->
  exists x, getInitialValue r i = Done x /\ wf x /\ getWidth x = arr_range (array_at r) /\
    (K r i -> isConst x = true) /\
    forall ρ, E ρ -> eval ρ x = initial_value ρ r i.

Context (init_ok : initial_values_ok).

Definition evaluable (e : Expr) : Prop := wf e /\ lit_safe e = true.

Record same_value (e r : Expr) : Prop := MkSameValue {
  sv_sort : same_sort e r;
  sv_eval : forall ρ, E ρ -> eval ρ r = eval ρ e
}.

(** The elements that are read are known. *)
Definition reads_known (l : list Expr) : Prop := forall r u i, ReadExpr r u i ∈ l -> K r (eval ρ0 i).

(** If everything is known and nothing is divided by zero, evaluation ends in a
    constant. *)
Definition known (e : Expr) : Prop := clean e = true /\ div_safe ρ0 e /\ reads_known (subs e).

Definition known_updates (u : UpdateNode) : Prop :=
  clean_updates u = true /\ div_safe_updates ρ0 u /\ reads_known (un_subs u).

Record evaluates (e r : Expr) : Prop := MkEvaluates {
  ev_same : same_value e r;
  ev_const : known e -> isConst r = true
}.

Lemma same_value_refl e : wf e -> same_value e e.
Proof. intros ?. by split. Qed.

Lemma evaluable_kids e k : evaluable e -> k ∈ kids e -> evaluable k.
Proof. intros [He Hs] Hk. split; [by eapply kids_wf|by eapply lit_safe_kids]. Qed.

Lemma subs_kids e k x : k ∈ kids e -> x ∈ subs k -> x ∈ subs e.
Proof.
  intros Hk Hx. destruct e; cbn [kids subs] in *; apply elem_of_cons; right; rewrite ?elem_of_cons, ?elem_of_nil in Hk;
    destruct_or?; subst; rewrite ?elem_of_app; tauto.
Qed.

Lemma known_kids e k : known e -> k ∈ kids e -> known k.
Proof.
  intros (? & ? & Hr) Hk. split_and!; [by eapply clean_kids|by eapply div_safe_kids|].
  intros r u i Hin. apply (Hr r u i). by eapply subs_kids.
Qed.

Lemma same_value_rebuild e ks : wf e -> Forall2 same_value (kids e) ks -> kids e <> [] ->
  divisor_ok e ks = true -> exists e', rebuild e ks = Done e' /\ same_value e e'.
Proof.
  intros He Hks Hne Hd.
  assert (Forall2 same_sort (kids e) ks) as H1 by (eapply Forall2_impl; [exact Hks|by intros ? ? []]).
  destruct (rebuild_ok default_opt e ks He Hne H1 Hd) as (e' & Er & Hwf & Hw & Hev).
  exists e'. split; [done|]. split; [done|]. intros ρ Hρ. rewrite Hev. apply eval_with_kids.
  eapply Forall2_impl; [exact Hks|]. intros ? ? [[? ?] ?]. auto.
Qed.

Lemma reads_known_app a b : reads_known (a ++ b) <-> reads_known a /\ reads_known b.
Proof. unfold reads_known. setoid_rewrite elem_of_app. naive_solver. Qed.

(** What is known of a write and of a read. *)
Lemma known_node n i v : known_updates (UNode n i v) -> known i /\ known v /\ known_updates n.
Proof.
  intros (Hc & (D1 & D2 & D3)%div_safe_node & Hr). cbn in Hc, Hr. rewrite !andb_true_iff in Hc.
  rewrite !reads_known_app in Hr. unfold known, known_updates. tauto.
Qed.

Lemma known_read r u i : known (ReadExpr r u i) -> known i /\ K r (eval ρ0 i) /\ known_updates u.
Proof.
  intros (Hc & (D1 & D2)%div_safe_read & Hr). cbn in Hc. rewrite !andb_true_iff in Hc.
  assert (K r (eval ρ0 i)) by (apply (Hr r u i), subs_self).
  assert (reads_known (un_subs u ++ subs i)) as [? ?]%reads_known_app.
  { intros r' u' i' Hin. apply (Hr r' u' i'). cbn. by apply elem_of_cons; right. }
  unfold known, known_updates. tauto.
Qed.

(** An element as [evalRead] gives it. *)
Record element (root : positive) (u : UpdateNode) (index : Z) (r : Expr) : Prop := MkElement {
  el_wf : wf r;
  el_width : getWidth r = arr_range (array_at root);
  el_const : K root index -> known_updates u -> isConst r = true;
  el_eval : forall ρ, E ρ -> eval ρ r = eval_read ρ root u index
}.

Lemma domain_u32 root i : 0 <= i < 2 ^ arr_domain (array_at root) -> u32 i = i /\ i < 2 ^ 64.
Proof.
  intros Hi. assert (i < 2 ^ 32).
  { eapply Z.lt_le_trans; [apply Hi|]. apply Z.pow_le_mono_r; [lia|apply domain32]. }
  unfold u32. rewrite Z.mod_small by lia. lia.
Qed.

Lemma getZExtValue_index v root : wf_apint v -> getBitWidth v = arr_domain (array_at root) ->
  ConstantExpr_getZExtValue v 64 = Done (uval v) /\ 0 <= uval v < 2 ^ arr_domain (array_at root).
Proof.
  intros [Hw Hv] E'. unfold ConstantExpr_getZExtValue. pose proof (domain32 root).
  rewrite (proj2 (Z.leb_le _ _)) by lia. rewrite E' in Hv.
  rewrite ap_getZExtValue_spec by (apply (domain_u32 root); done). done.
Qed.

(** Past the updates: the contents of a constant array, or the initial value. *)
Lemma evalRead_base vis root index s : wf_array (array_at root) ->
  0 <= index < 2 ^ arr_domain (array_at root) ->
  exists r, evalRead getInitialValue vis root UNull index s = Done (ChangeTo r, s) /\ element root UNull index r.
Proof.
  intros Ha Hi. cbn [evalRead]. destruct (isConstantArray (array_at root) && (index <? arr_size (array_at root))) eqn:Hc.
  - apply andb_true_iff in Hc as [Hc Hlt%Z.ltb_lt]. pose proof Ha as (_ & _ & _ & Hl & Hv).
    specialize (Hl Hc).
    destruct (lookup_lt_is_Some_2 (constantValues (array_at root)) (Z.to_nat index)) as [c Ec]; [lia|].
    rewrite Ec. exists (ConstantExpr c). split; [done|]. rewrite Forall_lookup in Hv.
    destruct (Hv _ _ Ec) as [? ?]. split; auto. intros ρ _. cbn. symmetry.
    apply initial_value_constant; [done|lia|done].
  - destruct (init_ok root index Ha Hi) as (x & Ex & Hx & Hw & Hcx & Hev).
    { intros Hca. rewrite Hca in Hc. by apply Z.ltb_ge in Hc. }
    unfold lift. cbn [mbind VM_bind]. unfold mbind, VM_bind. rewrite Ex. exists x. split; [done|]. split; auto.
Qed.

(** At a write whose index is not known the read stays, at this version. *)
Lemma evalRead_symbolic root u index : wf_array (array_at root) -> wf_updates root u ->
  0 <= index < 2 ^ arr_domain (array_at root) ->
  (K root index -> ~ known_updates u) ->
  exists r, ReadExpr_create (MkUpdateList root u)
    (ConstantExpr (ConstantExpr_alloc index (arr_domain (array_at root)))) = Done r /\ element root u index r.
Proof.
  intros Ha Hu Hi Hf. pose proof Ha as (Hd & _).
  set (c := ConstantExpr_alloc index (arr_domain (array_at root))).
  assert (c = MkAPInt (arr_domain (array_at root)) index) as Ec.
  { subst c. unfold ConstantExpr_alloc. pose proof (domain_u32 root index Hi).
    rewrite ap_of_u64_spec by lia. f_equal. by apply Z.mod_small. }
  destruct (ReadExpr_create_ok default_opt root u (ConstantExpr c)) as (r & Er & Hr & Hw & Hev).
  { rewrite Ec. do 2 (split; [done|]). split; [|done]. split; cbn; lia. }
  exists r. split; [done|]. split; auto.
  - intros H1 H2. by destruct (Hf H1 H2).
  - intros ρ _. rewrite Hev, Ec. done.
Qed.

Lemma evalRead_ok vis root index u s : wf_array (array_at root) -> wf_updates root u ->
  lit_safe_updates u = true -> 0 <= index < 2 ^ arr_domain (array_at root) ->
  (forall k, k ∈ update_exprs u -> visits evaluable evaluates vis k) -> visited_ok evaluates s ->
  exists r s', eventually (fun m => evalRead getInitialValue (vis m) root u index s) (ChangeTo r, s') /\
    element root u index r /\ visited_ok evaluates s'.
Proof.
  intros Ha. revert s. induction u as [|next IH i v] using UpdateNode_ind; intros s Hu Hsf Hi Hvis Hs.
  { destruct (evalRead_base (fun e => vis O e) root index s Ha Hi) as (r & Er & Hr). exists r, s.
    split_and!; [|done..]. by apply eventually_now. }
  pose proof Hu as (Hn & Hwi & Hwv & Ei & Evv).
  cbn in Hsf. rewrite !andb_true_iff in Hsf. destruct Hsf as [[Sn Si] Sv].
  pose proof (known_node next i v) as Hkn.
  destruct (Hvis i ltac:(cbn; set_solver) (conj Hwi Si) s Hs) as (ui & s1 & E1 & [[[Wu Wu'] Eu] Cu] & Hs1).
  cbn [evalRead]. destruct (isConst ui) eqn:Hc.
  - destruct ui as [c| | | | | | | |]; try discriminate Hc. clear Hc. cbn in Wu, Wu', Eu.
    destruct (getZExtValue_index c root Wu ltac:(congruence)) as [Ez Hz].
    assert (forall ρ, E ρ -> eval_read ρ root (UNode next i v) index =
      if uval c =? index then eval ρ v else eval_read ρ root next index) as Hev.
    { intros ρ Hρ. cbn. by rewrite <- (Eu ρ Hρ). }
    assert (exists r s', eventually (fun m => (if uval c =? index then v' ← vis m v; mret (ChangeTo v')
      else evalRead getInitialValue (vis m) root next index) s1) (ChangeTo r, s') /\
      element root (UNode next i v) index r /\ visited_ok evaluates s') as (r & s' & Er & Hr & Hs').
    { destruct (uval c =? index).
      - destruct (Hvis v ltac:(cbn; set_solver) (conj Hwv Sv) s1 Hs1) as (r & s' & Er & [[[Wr Wr'] Evr] Cr] & Hs').
        exists r, s'. split_and!; [| |done].
        + by eapply (eventually_bind _ (fun m '(v', s') => Done (ChangeTo v', s'))); [exact Er|apply eventually_Done].
        + split; auto; [congruence| |intros ρ Hρ; by rewrite Hev, Evr]. intros _ H2. by apply Cr, Hkn.
      - destruct (IH s1 Hn Sn Hi) as (r & s' & Er & [] & Hs'); [intros k Hk; apply Hvis; cbn; set_solver|done|].
        exists r, s'. split_and!; [done| |done]. split; auto; [|intros ρ Hρ; rewrite Hev; auto].
        intros H1 H2. destruct (Hkn H2) as (_ & _ & ?). auto. }
    exists r, s'. split_and!; [|done..].
    eapply (eventually_bind _ (fun m '(ui, s1) => _)); [exact E1|]. cbn beta iota.
    eapply eventually_ext; [|exact Er]. intros m. unfold mbind at 1, VM_bind at 1, lift. rewrite Ez. done.
  - destruct (evalRead_symbolic root (UNode next i v) index Ha Hu Hi) as (r & Er & Hr).
    { intros _ H2. destruct (Hkn H2) as (Hk & _). discriminate (Cu Hk). }
    exists r, s1. split_and!; [|done..].
    eapply (eventually_bind _ (fun m '(ui, s1) => _)); [exact E1|]. cbn beta iota.
    apply eventually_now. intros m. destruct ui; try discriminate Hc; unfold mbind, VM_bind, lift; rewrite Er; done.
Qed.

(** Kids are visited of what is no division, and if everything is known neither
    a read nor an operator on constants. *)
Definition descends (e : Expr) : Prop :=
  (forall k l r, e = BinaryExpr k l r -> isDivKind k = false) /\
  (known e -> isRead e = false /\ forallb isConst (kids e) = false).

Record evaluates0 (e r : Expr) : Prop := MkEvaluates0 {
  ev0_same : same_value e r;
  ev0_const : known e -> isConst (strip r) = true
}.

Lemma evaluates_kids e ks : Forall2 evaluates (kids e) ks -> Forall2 same_value (kids e) ks.
Proof. intros H. eapply Forall2_impl; [exact H|by intros ? ? []]. Qed.

Lemma evaluates_const_kids e ks : Forall2 evaluates (kids e) ks -> known e ->
  Forall (fun k => isConst k = true) ks.
Proof.
  intros H Hk. assert (Forall known (kids e)) as Hkk by (apply Forall_forall; intros k; by apply known_kids).
  clear Hk. induction H as [|k r ks rs [_ Hr] _ IH]; [constructor|].
  apply Forall_cons in Hkk as [? ?]. constructor; auto.
Qed.

Lemma evaluator_visitExpr_ok e : evaluable e -> isConst e = false ->
  exists a, evaluator_visitExpr e = Done a /\ action_ok evaluates (fun _ => True) e a.
Proof.
  intros [He Hlit] Hc. destruct (isRead e) eqn:Hr; [destruct e; try discriminate Hr; by eexists|].
  assert (evaluator_visitExpr e = if forallb isConst (kids e) then r ← rebuild e (kids e); Done (ChangeTo r)
    else Done DoChildren) as -> by (by destruct e).
  destruct (forallb isConst (kids e)) eqn:Hk; [|by eexists].
  destruct (same_value_rebuild e (kids e) He) as (r & Er & Hp).
  { apply Forall_Forall2_diag, Forall_forall. intros k Hin. eapply same_value_refl, kids_wf; eauto. }
  { by destruct e. }
  { destruct e; try done. cbn in Hlit |- *. rewrite !andb_true_iff in Hlit. tauto. }
  rewrite Er. eexists. split; [done|]. cbn. split; [done|]. intros (Hcl & _).
  eapply rebuild_constants; [exact Hr| | |exact Er].
  - intros s ->. cbn in Hk, Hcl. by destruct (isConst s).
  - apply Forall_forall. intros k Hin. rewrite forallb_forall in Hk. by apply Hk, list_elem_of_In.
Qed.

Lemma protectedDiv_ok vis k l r s : evaluable (BinaryExpr k l r) -> isDivKind k = true ->
  forallb isConst [l; r] = false ->
  (forall x, x ∈ [l; r] -> visits evaluable evaluates vis x) -> visited_ok evaluates s ->
  exists a s', eventually (fun m => protectedDivOperation (vis m) k l r s) (a, s') /\
    action_ok evaluates (fun _ => False) (BinaryExpr k l r) a /\ visited_ok evaluates s'.
Proof.
  intros He Hk Hnc Hvis Hs. pose proof (evaluable_kids _ l He ltac:(cbn; set_solver)) as Pl.
  pose proof (evaluable_kids _ r He ltac:(cbn; set_solver)) as Pr.
  destruct (Hvis l ltac:(set_solver) Pl s Hs) as (k0 & s1 & E0 & H0 & Hs1).
  destruct (Hvis r ltac:(set_solver) Pr s1 Hs1) as (k1 & s2 & E1 & H1 & Hs2).
  set (k1' := match k1 with ConstantExpr CE => if ConstantExpr_isZero CE then r else k1 | _ => k1 end).
  assert (k1' = r \/ (k1' = k1 /\ div_by_zero k k1 = false)) as Hk1'.
  { unfold k1', div_by_zero. rewrite Hk. destruct k1 as [c| | | | | | | |]; auto. rewrite isZero_spec.
    destruct (uval c =? 0); auto. }
  assert (known (BinaryExpr k l r) -> isConst k0 = true /\ isConst k1 = true /\ k1' = k1) as Hkn.
  { intros Hkn. split_and!; [apply H0; eapply known_kids; [done|cbn; set_solver]|
      apply H1; eapply known_kids; [done|cbn; set_solver]|].
    destruct Hkn as (_ & Hd & _). pose proof (div_safe_divisor ρ0 k l r Hd Hk) as Hnz. unfold k1'.
    destruct k1 as [c| | | | | | | |]; try done. rewrite isZero_spec. destruct (Z.eqb_spec (uval c) 0) as [Hz|]; [|done].
    by rewrite <- (sv_eval _ _ (ev_same _ _ H1) ρ0 Hρ0) in Hnz. }
  assert (same_value r k1') as Hsv by (destruct Hk1' as [-> |[-> _]]; [apply same_value_refl, Pr|apply H1]).
  destruct (same_value_rebuild (BinaryExpr k l r) [k0; k1'] (proj1 He)) as (e' & Er & Hp).
  { apply List.Forall2_cons, List.Forall2_cons, List.Forall2_nil; [apply H0|done]. }
  { done. }
  { cbn. destruct Hk1' as [-> |[-> ->]]; [|done]. destruct He as [_ Hlit]. cbn in Hlit. rewrite !andb_true_iff in Hlit. tauto. }
  assert (evaluates (BinaryExpr k l r) e') as He'.
  { split; [done|]. intros (C0 & C1 & E')%Hkn. eapply rebuild_constants; [| | |exact Er]; try done.
    rewrite E'. apply Forall_cons. split; [done|]. by apply Forall_singleton. }
  exists (if negb (expr_eqb k0 l) || negb (expr_eqb k1' r) then ChangeTo e' else SkipChildren), s2. split_and!; [| |done].
  - unfold protectedDivOperation.
    eapply (eventually_bind _ (fun m '(k0, s1) => _)); [exact E0|]. cbn beta iota.
    eapply (eventually_bind _ (fun m '(k1, s2) => _)); [exact E1|]. cbn beta iota zeta. fold k1'.
    apply eventually_now. intros m. destruct (negb _ || negb _); [|reflexivity].
    unfold mbind, VM_bind, lift. by rewrite Er.
  - destruct (negb _ || negb _) eqn:Hch; [exact He'|]. apply orb_false_iff in Hch as [C0%negb_false_iff C1%negb_false_iff].
    apply expr_eqb_eq in C0. apply expr_eqb_eq in C1. cbn. split; [apply same_value_refl, He|].
    intros (K0 & K1 & E')%Hkn. rewrite <- C0, <- C1, E' in Hnc. cbn in Hnc. by rewrite K0, K1 in Hnc.
Qed.

Lemma evaluator_visitRead_ok vis root u i s : evaluable (ReadExpr root u i) ->
  (forall k, walk_lt k (ReadExpr root u i) -> visits evaluable evaluates vis k) -> visited_ok evaluates s ->
  exists a s', eventually (fun m => evaluator_visitRead getInitialValue (vis m) root u i s) (a, s') /\
    action_ok evaluates descends (ReadExpr root u i) a /\ visited_ok evaluates s'.
Proof.
  intros He Hvis Hs. pose proof He as [(Ha & Hu & Hwi & Hw) Hlit].
  cbn in Hlit. apply andb_true_iff in Hlit as [Su Si].
  destruct (Hvis i ltac:(apply kids_walk_lt; cbn; set_solver) (conj Hwi Si) s Hs)
    as (v & s1 & E1 & [[[Wv Wv'] Ev] Cv] & Hs1).
  destruct (isConst v) eqn:Hc.
  - destruct v as [c| | | | | | | |]; try discriminate Hc. cbn in Wv, Wv', Ev.
    destruct (getZExtValue_index c root Wv ltac:(congruence)) as [Ez Hz].
    destruct (evalRead_ok vis root (uval c) u s1 Ha Hu Su Hz) as (r & s' & Er & [] & Hs'); auto.
    { intros k Hk. by apply Hvis, update_exprs_lt. }
    exists (ChangeTo r), s'. split_and!; [| |done].
    + unfold evaluator_visitRead. eapply (eventually_bind _ (fun m '(v, s1) => _)); [exact E1|]. cbn beta iota.
      eapply eventually_ext; [|exact Er]. intros m. unfold mbind, VM_bind, lift. rewrite Ez. cbn [mbind outcome_bind].
      by rewrite (proj1 (domain_u32 root _ Hz)).
    + cbn. split; [split; [by split|]|].
      * intros ρ Hρ. cbn. rewrite <- (Ev ρ Hρ). auto.
      * intros (Hi & Hk & Hkn)%known_read. rewrite <- (Ev ρ0 Hρ0) in Hk. auto.
  - exists DoChildren, s1. split_and!; [| |done].
    + unfold evaluator_visitRead. eapply (eventually_bind _ (fun m '(v, s1) => _)); [exact E1|]. cbn beta iota.
      apply eventually_now. intros m. by destruct v.
    + split; [done|]. intros Hkn. discriminate (Cv (known_kids _ i Hkn ltac:(cbn; set_solver))).
Qed.

Lemma evaluator_visitKind_ok e vis s : evaluable e -> isConst e = false ->
  evaluator_visitExpr e = Done DoChildren ->
  (forall k, walk_lt k e -> visits evaluable evaluates vis k) -> visited_ok evaluates s ->
  exists a s', eventually (fun m => evaluator_visitKind getInitialValue (vis m) e s) (a, s') /\
    action_ok evaluates descends e a /\ visited_ok evaluates s'.
Proof.
  intros He Hc Hx Hvis Hs.
  assert (isRead e = false -> forallb isConst (kids e) = false) as Hnc.
  { intros Hr. apply not_true_iff_false. intros Hk. destruct e; try discriminate; cbn [evaluator_visitExpr] in Hx;
      rewrite Hk in Hx; by destruct (rebuild _ _). }
  assert (isRead e = false -> (forall k l r, e = BinaryExpr k l r -> isDivKind k = false) ->
    exists a s', eventually (fun _ => Done (DoChildren, s)) (a, s') /\
      action_ok evaluates descends e a /\ visited_ok evaluates s') as Hdo.
  { intros Hr Hd. exists DoChildren, s. split; [apply eventually_Done|]. split; [|done]. split; [done|]. auto. }
  destruct e as [| |root u i| | | | | |k l r]; try (by apply Hdo); [by apply evaluator_visitRead_ok|].
  cbn [evaluator_visitKind]. destruct (isDivKind k) eqn:Hk; [|apply Hdo; [done|by intros ? ? ? [= -> _ _]]].
  destruct (protectedDiv_ok vis k l r s He Hk) as (a & s' & Ea & Ha & Hs'); auto.
  { intros x Hin. by apply Hvis, kids_walk_lt. }
  exists a, s'. split_and!; [done| |done]. by destruct a.
Qed.

Lemma ExprEvaluator_ok :
  visitor_ok (ExprEvaluator getInitialValue) evaluable descends evaluates evaluates0.
Proof.
  split.
  - intros v [Hv _]. split; [by apply same_value_refl|done].
  - apply evaluator_visitExpr_ok.
  - apply evaluator_visitKind_ok.
  - intros e k. apply evaluable_kids.
  - intros e He [_ HD] Hc Hk. split; [apply same_value_refl, He|]. intros Hkn.
    destruct (HD Hkn) as [_ Hn]. exfalso. apply not_true_iff_false in Hn. apply Hn.
    apply forallb_forall. intros x Hin%list_elem_of_In. revert x Hin. apply Forall_forall.
    by eapply evaluates_const_kids.
  - intros e ks He [Hnd HD] Hks Hne. cbn.
    assert (kids e <> []) as Hk0. { intros E'. rewrite E' in *. by apply Forall2_nil_inv_l in Hks. }
    destruct (same_value_rebuild e ks (proj1 He)) as (e' & Er & Hp); [by apply evaluates_kids|done| |].
    { destruct e as [| | | | | | | |k l r]; try done. cbn. unfold div_by_zero. rewrite (Hnd k l r eq_refl).
      by destruct ks as [|? [|? [|? ?]]]. }
    exists e'. split; [done|]. split; [done|]. intros Hkn. destruct (HD Hkn) as [Hr _].
    pose proof (evaluates_const_kids _ _ Hks Hkn) as Hkc. by eapply rebuild_strip.
  - intros e x He _ [Hp Hc]. unfold apply_post. destruct (isConst x) eqn:Hx.
    { split; [done|]. by intros. }
    destruct x; cbn in Hx; try discriminate Hx; cbn [visitExprPost ExprEvaluator evaluator_visitExprPost];
      try (split; [done|exact Hc]).
    split; [|exact Hc]. destruct Hp as [[? ?] ?]. by split.
Qed.

End Evaluating.

(** ** Evaluation under an assignment *)

Section AssignmentSound.
Context {AP : APIntOps} {APL : APIntLaws} {AH : ArrayHeap} {OP : ExprOptions} {VO : VisitorOptions}.
Context (default_opt : ConstArrayOpt = false) (domain32 : forall r, arr_domain (array_at r) <= 32).

(** Bytes; those of a constant array end where it does. *)
Definition assignment_ok (a : Assignment) : Prop := forall r bs, bindings a !! r = Some bs ->
  (isConstantArray (array_at r) = true -> Z.of_nat (length bs) <= arr_size (array_at r)) /\
  Forall (fun v => 0 <= v < 2 ^ 8) bs.

Definition byte_of (a : Assignment) (r : positive) (i : Z) : option Z :=
  bs ← bindings a !! r; bs !! Z.to_nat i.

(** The environments an assignment describes: it fixes the bytes it has, and
    the others are zero unless they are free. *)
Definition agrees (a : Assignment) (ρ : env) : Prop := forall r i, 0 <= i ->
  isConstantArray (array_at r) = false ->
  match byte_of a r i with
  | Some v => ρ r i mod 2 ^ arr_range (array_at r) = v mod 2 ^ arr_range (array_at r)
  | None => allowFreeValues a = true \/ ρ r i mod 2 ^ arr_range (array_at r) = 0
  end.

Definition env_of (a : Assignment) : env := fun r i => default 0 (byte_of a r i).

Lemma env_of_agrees a : agrees a (env_of a).
Proof. intros r i Hi Hc. unfold env_of. destruct (byte_of a r i); [done|]. right. apply Zmod_0_l. Qed.

(** The elements whose value is known: those that are assigned, all of them when
    none is free, and the contents of constant arrays. *)
Definition byte_known (a : Assignment) (r : positive) (i : Z) : Prop :=
  allowFreeValues a = false \/ is_Some (byte_of a r i) \/
  (isConstantArray (array_at r) = true /\ i < arr_size (array_at r)).

Lemma known_closed a e : allowFreeValues a = false -> clean e = true -> div_safe (env_of a) e ->
  known (env_of a) (byte_known a) e.
Proof. intros Hf Hc Hd. split_and!; [done..|]. intros r u i _. by left. Qed.

Lemma alloc_small w v : 0 < w -> 0 <= v < 2 ^ 64 -> ConstantExpr_alloc v w = MkAPInt w (v mod 2 ^ w).
Proof. apply ap_of_u64_spec. Qed.

Lemma wf_alloc w v : 0 < w -> 0 <= v < 2 ^ 64 -> wf (ConstantExpr (ConstantExpr_alloc v w)) /\
  getBitWidth (ConstantExpr_alloc v w) = w.
Proof.
  intros Hw Hv. rewrite alloc_small by done. split; [|done]. split; [done|]. apply mod_pow2_range. cbn. lia.
Qed.

Lemma evaluate_byte_ok a : assignment_ok a ->
  initial_values_ok (agrees a) (byte_known a) (evaluate_byte a).
Proof.
  intros Ha r i Hwa Hi Hc. unfold evaluate_byte. fold (byte_of a r i). pose proof Hwa as (Hd & Hr & _).
  assert (i < 2 ^ 64) as Hi64 by (apply (domain_u32 domain32 r); done).
  assert (forall v, 0 <= v < 2 ^ 64 ->
    (forall ρ, agrees a ρ -> v mod 2 ^ arr_range (array_at r) = initial_value ρ r i) ->
    exists x, Done (ConstantExpr (ConstantExpr_alloc v (arr_range (array_at r)))) = Done x /\ wf x /\
      getWidth x = arr_range (array_at r) /\ (byte_known a r i -> isConst x = true) /\
      forall ρ, agrees a ρ -> eval ρ x = initial_value ρ r i) as Hconst.
  { intros v Hv He. destruct (wf_alloc (arr_range (array_at r)) v Hr Hv) as [W1 W2]. eexists. split_and!; [done..|].
    intros ρ Hρ. rewrite <- (He ρ Hρ). cbn. by rewrite alloc_small. }
  assert (forall ρ, isConstantArray (array_at r) = true -> initial_value ρ r i = 0) as Hzero.
  { intros ρ Hca. unfold initial_value. rewrite Hca, (proj2 (Z.ltb_ge _ _)) by auto. done. }
  destruct (byte_of a r i) as [v|] eqn:Hb.
  - assert (isConstantArray (array_at r) = false /\ 0 <= v < 2 ^ 8) as [Hs Hv].
    { unfold byte_of in Hb. apply bind_Some in Hb as (bs & Ebs & Hl). destruct (Ha r bs Ebs) as [Hca Hf].
      split; [|rewrite Forall_lookup in Hf; by eapply Hf]. apply not_true_iff_false. intros Hct.
      specialize (Hc Hct). specialize (Hca Hct). apply lookup_lt_Some in Hl. lia. }
    apply Hconst; [lia|]. intros ρ Hρ. unfold initial_value. rewrite Hs. specialize (Hρ r i ltac:(lia) Hs).
    by rewrite Hb in Hρ.
  - destruct (allowFreeValues a) eqn:Hf.
    + destruct (evalRead_symbolic default_opt domain32 (agrees a) (env_of a) (fun _ _ => False) r UNull i)
        as (x & Ex & []); try done.
      exists x. split_and!; try done. unfold byte_known. rewrite Hb, Hf. intros [?|[[? ?]|[? ?]]]; [done|done|].
      specialize (Hc ltac:(done)). lia.
    + apply Hconst; [lia|]. intros ρ Hρ. rewrite Zmod_0_l. destruct (isConstantArray (array_at r)) eqn:Hs.
      { by rewrite Hzero. }
      unfold initial_value. rewrite Hs. specialize (Hρ r i ltac:(lia) Hs). rewrite Hb in Hρ. by destruct Hρ; [congruence|].
Qed.

(** The values an assignment gives to an expression, and whether they are one. *)
Abbreviation assigned a := (evaluates (agrees a) (env_of a) (byte_known a)).

Lemma AssignmentEvaluator_ok a : assignment_ok a ->
  visitor_ok (AssignmentEvaluator a) evaluable (descends (env_of a) (byte_known a))
    (assigned a) (evaluates0 (agrees a) (env_of a) (byte_known a)).
Proof. intros Ha. apply ExprEvaluator_ok; [done..|apply env_of_agrees|by apply evaluate_byte_ok]. Qed.

(** The visit of an expression with the memory of earlier ones. *)
Lemma assigned_visit a e s : assignment_ok a -> evaluable e -> visited_ok (assigned a) s ->
  exists r s', visit_expr (AssignmentEvaluator a) e s = Done (r, s') /\ assigned a e r /\ visited_ok (assigned a) s'.
Proof.
  intros Ha He Hs.
  destruct (visit_ok _ _ _ _ _ e s (AssignmentEvaluator_ok a Ha) He Hs) as (r & s' & Ev & Hr & Hs').
  exists r, s'. split_and!; [|done..]. by apply visit_enough; [|apply evaluator_local|].
Qed.

Lemma Assignment_evaluate_ok a e : assignment_ok a -> evaluable e ->
  exists r, Assignment_evaluate a e = Done r /\ assigned a e r.
Proof.
  intros Ha He. destruct (assigned_visit a e [] Ha He (List.Forall_nil _)) as (r & s & Ev & Hr & _).
  exists r. unfold Assignment_evaluate. by rewrite Ev.
Qed.

Definition literal_bool (c : Expr) : Prop := boolean c /\ lit_safe c = true.

(** The answer of [satisfies] is right about every environment the assignment
    describes, and it is yes whenever nothing is left open. *)
Lemma satisfies_loop_ok a : assignment_ok a -> forall cs s,
  Forall literal_bool cs -> visited_ok (assigned a) s ->
  exists b, satisfies_loop (visit_expr (AssignmentEvaluator a)) cs s = Done b /\
    (b = true -> forall ρ, agrees a ρ -> sat ρ cs) /\
    (Forall (known (env_of a) (byte_known a)) cs -> sat (env_of a) cs -> b = true).
Proof.
  intros Ha cs. induction cs as [|c cs IH]; intros s Hcs Hs.
  { exists true. split; [done|]. split; [|done]. intros _ ρ _ c Hc. by apply elem_of_nil in Hc. }
  apply Forall_cons in Hcs as [[[Hwf Hb] Hd] Hcs].
  destruct (assigned_visit a c s Ha (conj Hwf Hd) Hs) as (r & s1 & Ev & [Hp Hc] & Hs1).
  destruct (IH s1 Hcs Hs1) as (b & Eb & Hb1 & Hb2). clear IH.
  pose proof (sv_sort _ _ _ Hp) as [Wr Wr'].
  set (t := match r with ConstantExpr CE => ConstantExpr_isTrue CE | _ => false end).
  assert (Expr_isTrue r = Done t) as Et by (unfold Expr_isTrue; by rewrite Wr', Hb).
  exists (if t then b else false). split.
  { cbn [satisfies_loop]. rewrite Ev. cbn [mbind outcome_bind]. rewrite Et. cbn [mbind outcome_bind].
    by destruct t. }
  assert (t = true -> forall ρ, agrees a ρ -> eval ρ c <> 0) as Ht.
  { intros Htt ρ Hρ. rewrite <- (sv_eval _ _ _ Hp ρ Hρ). subst t. destruct r as [v| | | | | | | |]; try done.
    rewrite isTrue_spec in Htt by (cbn in Wr'; congruence). by apply negb_true_iff, Z.eqb_neq in Htt. }
  split.
  - destruct t eqn:Htt; [|done]. intros ? ρ Hρ c' [-> |Hin]%elem_of_cons; [by apply Ht|by apply Hb1].
  - intros Hkn Hsat. apply Forall_cons in Hkn as [Hkc Hkn]. specialize (Hc Hkc).
    assert (t = true) as ->.
    { subst t. destruct r as [v| | | | | | | |]; try discriminate Hc.
      rewrite isTrue_spec by (cbn in Wr'; congruence). apply negb_true_iff, Z.eqb_neq.
      change (uval v) with (eval (env_of a) (ConstantExpr v)).
      rewrite (sv_eval _ _ _ Hp (env_of a) (env_of_agrees a)). apply Hsat. set_solver. }
    apply Hb2; auto. intros c' Hc'. apply Hsat. set_solver.
Qed.

Lemma satisfies_ok a cs : assignment_ok a -> Forall literal_bool cs ->
  exists b, satisfies a cs = Done b /\
    (b = true -> forall ρ, agrees a ρ -> sat ρ cs) /\
    (Forall (known (env_of a) (byte_known a)) cs -> sat (env_of a) cs -> b = true).
Proof. intros Ha Hcs. by apply (satisfies_loop_ok a Ha cs [] Hcs), List.Forall_nil. Qed.

(** *** The constraints of an assignment *)

(** Each bound array is symbolic, as long as its bytes and can be indexed. *)
Definition bound_arrays (a : Assignment) : Prop := forall r bs, bindings a !! r = Some bs ->
  isConstantArray (array_at r) = false /\ wf_array (array_at r) /\ arr_size (array_at r) <= 2 ^ arr_domain (array_at r) /\
  Z.of_nat (length bs) = arr_size (array_at r).

Definition byte_is (ρ : env) (r : positive) (i : nat) (v : Z) : Prop :=
  ρ r (Z.of_nat i) mod 2 ^ arr_range (array_at r) = v mod 2 ^ arr_range (array_at r).

Lemma byte_constraint_ok r bs i v : isConstantArray (array_at r) = false ->
  wf_array (array_at r) -> arr_size (array_at r) <= 2 ^ arr_domain (array_at r) ->
  Z.of_nat i < arr_size (array_at r) -> bs !! i = Some v -> 0 <= v < 2 ^ 8 ->
  exists c, byte_constraint r bs i = Done c /\ boolean c /\ forall ρ, eval ρ c <> 0 <-> byte_is ρ r i v.
Proof.
  intros Hs Ha Hd Hi Hv Hb. pose proof Ha as (Hdom & Hr & _). unfold byte_constraint. rewrite Hv.
  destruct (evalRead_symbolic default_opt domain32 (fun _ => True) (fun _ _ => 0) (fun _ _ => False) r UNull (Z.of_nat i))
    as (rd & Er & [Wr Wr' _ Ev]); try done; [lia|].
  cbn [deref mbind outcome_bind]. rewrite Er. cbn [mbind outcome_bind].
  destruct (wf_alloc (arr_range (array_at r)) v Hr ltac:(lia)) as [Wc Wc'].
  destruct (EqExpr_create_ok rd (ConstantExpr (ConstantExpr_alloc v (arr_range (array_at r)))) default_opt Wr Wc
    ltac:(by rewrite Wr')) as (c & -> & Hwc & Hbc & Ec).
  exists c. split; [done|]. split; [done|]. intros ρ. rewrite Ec, Ev by done. cbn.
  rewrite alloc_small by lia. cbn. unfold initial_value, byte_is. rewrite Hs.
  match goal with |- context [?x =? ?y] => destruct (Z.eqb_spec x y) end; cbn; naive_solver lia.
Qed.

(** The constraints of one array. *)
Lemma array_constraints_ok r bs : isConstantArray (array_at r) = false ->
  Forall (fun v => 0 <= v < 2 ^ 8) bs -> wf_array (array_at r) ->
  arr_size (array_at r) <= 2 ^ arr_domain (array_at r) -> Z.of_nat (length bs) = arr_size (array_at r) ->
  exists cs, mapM (byte_constraint r bs) (seq 0 (Z.to_nat (arr_size (array_at r)))) = Done cs /\
    Forall boolean cs /\ forall ρ, sat ρ cs <-> forall i v, bs !! i = Some v -> byte_is ρ r i v.
Proof.
  intros Hs Hb Ha Hd Hl. rewrite <- Hl, Nat2Z.id.
  destruct (mapM_Done (byte_constraint r bs)
    (fun i c => boolean c /\ forall ρ, eval ρ c <> 0 <-> forall v, bs !! i = Some v -> byte_is ρ r i v)
    (seq 0 (length bs))) as (cs & Ecs & Hcs).
  { apply Forall_forall. intros i Hi%elem_of_seq. destruct (lookup_lt_is_Some_2 bs i ltac:(lia)) as [v Hv].
    pose proof (proj1 (Forall_lookup _ bs) Hb _ _ Hv).
    destruct (byte_constraint_ok r bs i v) as (c & Ec & Hc & He); auto; [lia|].
    exists c. split_and!; [done..|]. intros ρ. rewrite He. split; [|by auto].
    intros H' v' Hv'. congruence. }
  exists cs. split; [done|]. split.
  - apply Forall_forall. intros c Hc. apply list_elem_of_lookup in Hc as [j Hj].
    destruct (Forall2_lookup_r _ _ _ _ _ Hcs Hj) as (i & _ & Hi & _). done.
  - intros ρ. split.
    + intros H i v Hv. assert (seq 0 (length bs) !! i = Some i) as Hi.
      { apply lookup_seq. split; [lia|]. by eapply lookup_lt_Some. }
      destruct (Forall2_lookup_l _ _ _ _ _ Hcs Hi) as (c & Hc & _ & He). apply He; [|done].
      apply H. by eapply list_elem_of_lookup_2.
    + intros H c Hc. apply list_elem_of_lookup in Hc as [j Hj].
      destruct (Forall2_lookup_r _ _ _ _ _ Hcs Hj) as (i & Hi & _ & He). apply He. eauto.
Qed.

(** The constraints made from an assignment describe the arrays it binds, and
    nothing else. *)
Lemma createConstraints_ok a : assignment_ok a -> bound_arrays a ->
  exists cs, createConstraintsFromAssignment a = Done cs /\ Forall boolean cs /\
    forall ρ, sat ρ cs <-> forall r bs i v, bindings a !! r = Some bs -> bs !! i = Some v -> byte_is ρ r i v.
Proof.
  intros Ha Hw. unfold createConstraintsFromAssignment.
  destruct (mapM_Done (fun b : positive * list Z =>
      mapM (byte_constraint b.1 b.2) (seq 0 (Z.to_nat (arr_size (array_at b.1)))))
    (fun b cs => Forall boolean cs /\ forall ρ, sat ρ cs <-> forall i v, b.2 !! i = Some v -> byte_is ρ b.1 i v)
    (map_to_list (bindings a))) as (css & Ecss & Hcss).
  { apply Forall_forall. intros [r bs] Hin%elem_of_map_to_list. destruct (Ha _ _ Hin), (Hw _ _ Hin) as (? & ? & ? & ?).
    by apply array_constraints_ok. }
  exists (concat css). rewrite Ecss. split; [done|].
  assert (forall cs, cs ∈ css -> exists r bs, bindings a !! r = Some bs /\ Forall boolean cs /\
    forall ρ, sat ρ cs <-> forall i v, bs !! i = Some v -> byte_is ρ r i v) as H1.
  { intros cs Hin. apply list_elem_of_lookup in Hin as [j Hj].
    destruct (Forall2_lookup_r _ _ _ _ _ Hcss Hj) as ([r bs] & Hi & Hb & Hs). exists r, bs. split; [|done].
    apply elem_of_map_to_list. by eapply list_elem_of_lookup_2. }
  split.
  - apply Forall_forall. intros c Hc. apply list_elem_of_In, in_concat in Hc as (cs & Hcs & Hc).
    apply list_elem_of_In in Hcs, Hc. destruct (H1 cs Hcs) as (r & bs & _ & Hb & _).
    rewrite Forall_forall in Hb. by apply Hb.
  - intros ρ. split.
    + intros H r bs i v Hbs Hv. apply elem_of_map_to_list, list_elem_of_lookup in Hbs as [j Hj].
      destruct (Forall2_lookup_l _ _ _ _ _ Hcss Hj) as (cs & Hcs & _ & Hs). apply Hs; [|done].
      intros c Hc. apply H. apply list_elem_of_In, in_concat. exists cs. rewrite <- !list_elem_of_In. split; [|done].
      by eapply list_elem_of_lookup_2.
    + intros H c Hc. apply list_elem_of_In, in_concat in Hc as (cs & Hcs & Hc). apply list_elem_of_In in Hcs, Hc.
      destruct (H1 cs Hcs) as (r & bs & Hbs & _ & Hs). apply (proj2 (Hs ρ)); eauto.
Qed.

End AssignmentSound.
