(* ===== verification/PTree.v ===== *)
(** The process tree (lib/Core/PTree.h, PTree.cpp): a leaf for every execution
    state, under the forks it comes from.

    The nodes are a heap.  A [PTreeNodePtr] is a pointer and three tag bits, one
    for each random path searcher.  What a state keeps, [ptreeNode], is a map
    beside the nodes. *)
From stdpp Require Import base list numbers gmap.
From Stdlib Require Import ZArith Lia.
From S2P Require Import Prelude Bits.
Local Open Scope Z_scope.

(** [--compress-process-tree] *)
Class PTreeOptions : Type := { CompressProcessTree : bool }.

Record PTreeNodePtr : Type := MkPtr { getPointer : option positive; getInt : Z }.

Record PTreeNode : Type := MkNode {
  parent : option positive;
  left : PTreeNodePtr;
  right : PTreeNodePtr;
  state : option positive
}.

Record PTree : Type := MkPTree {
  registeredIds : Z;
  root : PTreeNodePtr;
  nodes : gmap positive PTreeNode;
  ptreeNode : gmap positive positive
}.

Definition null_ptr : PTreeNodePtr := MkPtr None 0.

Definition set_nodes (h : gmap positive PTreeNode) (t : PTree) : PTree :=
  MkPTree (registeredIds t) (root t) h (ptreeNode t).

(** Where a pointer to a node is stored: [PTreeNodePtr *childPtr]. *)
Inductive slot : Type := RootSlot | LeftSlot (p : positive) | RightSlot (p : positive).

#[export] Instance slot_eq_dec : EqDecision slot.
Proof. solve_decision. Defined.

Definition read_slot (c : slot) (t : PTree) : outcome PTreeNodePtr :=
  match c with
  | RootSlot => Done (root t)
  | LeftSlot p => left <$> deref (nodes t !! p)
  | RightSlot p => right <$> deref (nodes t !! p)
  end.

Definition with_left (l : PTreeNodePtr) (n : PTreeNode) : PTreeNode := MkNode (parent n) l (right n) (state n).
Definition with_right (r : PTreeNodePtr) (n : PTreeNode) : PTreeNode := MkNode (parent n) (left n) r (state n).
Definition with_parent (p : option positive) (n : PTreeNode) : PTreeNode := MkNode p (left n) (right n) (state n).

Definition write_slot (c : slot) (v : PTreeNodePtr) (t : PTree) : outcome PTree :=
  match c with
  | RootSlot => Done (MkPTree (registeredIds t) v (nodes t) (ptreeNode t))
  | LeftSlot p => n ← deref (nodes t !! p); Done (set_nodes (<[p := with_left v n]> (nodes t)) t)
  | RightSlot p => n ← deref (nodes t !! p); Done (set_nodes (<[p := with_right v n]> (nodes t)) t)
  end.

(** [parent ? (parent->left.getPointer() == n ? &parent->left : &parent->right) : &root] *)
Definition slot_of (parent : option positive) (n : positive) (t : PTree) : outcome slot :=
  match parent with
  | None => Done RootSlot
  | Some p => pd ← deref (nodes t !! p);
      Done (if decide (getPointer (left pd) = Some n) then LeftSlot p else RightSlot p)
  end.

Module PTree.

(** The constructor of PTreeNode, at a new address. *)
Definition new_node (parent : option positive) (s : positive) (t : PTree) : positive * PTree :=
  let n := fresh (dom (nodes t)) in
  (n, MkPTree (registeredIds t) (root t) (<[n := MkNode parent null_ptr null_ptr (Some s)]> (nodes t)) (<[s := n]> (ptreeNode t))).

Definition new (initialState : positive) : PTree :=
  let '(n, t) := new_node None initialState (MkPTree 0 null_ptr ∅ ∅) in
  MkPTree 0 (MkPtr (Some n) 0) (nodes t) (ptreeNode t).

(** More than three searchers end the run. *)
Definition getNextId (t : PTree) : outcome (Z * PTree) :=
  let id := Z.shiftl 1 (registeredIds t) mod 2 ^ 8 in
  let ids := registeredIds t + 1 in
  Assert ids <=? 3 ;;
  Done (id, MkPTree ids (root t) (nodes t) (ptreeNode t)).

Definition is_leaf (n : PTreeNode) : bool :=
  bool_decide (getPointer (left n) = None) && bool_decide (getPointer (right n) = None).

Definition attach (node : option positive) (leftState rightState : positive) (t : PTree) : outcome PTree :=
  match node with
  | None => AssertFail
  | Some node =>
      n ← deref (nodes t !! node);
      Assert is_leaf n ;;
      Assert bool_decide (ptreeNode t !! rightState = Some node) ;;
      let '(l, t) := new_node (Some node) leftState t in
      c ← slot_of (parent n) node t;
      v ← read_slot c t;
      let '(r, t) := new_node (Some node) rightState t in
      Done (set_nodes (<[node := MkNode (parent n) (MkPtr (Some l) 0) (MkPtr (Some r) (getInt v)) None]> (nodes t)) t)
  end.

(** The loop that removes [n] and the ancestors that lose their last child; where
    it stops. *)
Fixpoint remove_loop (fuel : nat) (n : positive) (t : PTree) : outcome (option positive * PTree) :=
  match fuel with
  | O => OutOfFuel
  | S fuel =>
      nd ← deref (nodes t !! n);
      match parent nd with
      | None => Done (None, set_nodes (delete n (nodes t)) t)
      | Some p =>
          c ← slot_of (Some p) n t;
          v ← read_slot c t;
          Assert bool_decide (getPointer v = Some n) ;;
          t ← write_slot c null_ptr t;
          let t := set_nodes (delete n (nodes t)) t in
          pd ← deref (nodes t !! p);
          if is_leaf pd then remove_loop fuel p t else Done (Some p, t)
      end
  end.

(** A node with one child is taken out of the tree. *)
Definition compress (n : positive) (t : PTree) : outcome PTree :=
  nd ← deref (nodes t !! n);
  let child := if bool_decide (is_Some (getPointer (left nd))) then left nd else right nd in
  let parent := parent nd in
  c ← deref (getPointer child);
  cd ← deref (nodes t !! c);
  let t := set_nodes (<[c := with_parent parent cd]> (nodes t)) t in
  place ← slot_of parent n t;
  v ← read_slot place t;
  Assert (match parent with None => true | Some _ => bool_decide (getPointer v = Some n) end) ;;
  t ← write_slot place child t;
  Done (set_nodes (delete n (nodes t)) t).

Definition remove {PO : PTreeOptions} (fuel : nat) (n : positive) (t : PTree) : outcome PTree :=
  nd ← deref (nodes t !! n);
  Assert is_leaf nd ;;
  '(m, t) ← remove_loop fuel n t;
  match m with
  | Some m => if CompressProcessTree then compress m t else Done t
  | None => Done t
  end.

End PTree.

(** ** RandomPathSearcher (lib/Core/Searcher.cpp) *)

Module RandomPathSearcher.
Section Operations.
Context (idBitMask : Z).

Definition IS_OUR_NODE_VALID (v : PTreeNodePtr) : bool :=
  bool_decide (is_Some (getPointer v)) && negb (Z.land (getInt v) idBitMask =? 0).

(** [rng k] is the [k]-th number [theRNG.getInt32()] returns in this call. *)
Fixpoint walk (fuel : nat) (rng : nat -> Z) (k : nat) (flips bits : Z) (n : positive) (t : PTree) : outcome positive :=
  match fuel with
  | O => OutOfFuel
  | S fuel =>
      nd ← deref (nodes t !! n);
      match state nd with
      | Some s => Done s
      | None =>
          if negb (IS_OUR_NODE_VALID (left nd)) then
            Assert IS_OUR_NODE_VALID (right nd) ;;
            Assert bool_decide (getPointer (right nd) <> Some n) ;;
            m ← deref (getPointer (right nd));
            walk fuel rng k flips bits m t
          else if negb (IS_OUR_NODE_VALID (right nd)) then
            Assert bool_decide (getPointer (left nd) <> Some n) ;;
            m ← deref (getPointer (left nd));
            walk fuel rng k flips bits m t
          else
            let '(k, flips, bits) := if bits =? 0 then (S k, rng k, 32) else (k, flips, bits) in
            let bits := bits - 1 in
            m ← deref (getPointer (if Z.testbit flips bits then left nd else right nd));
            walk fuel rng k flips bits m t
      end
  end.

Definition selectState (fuel : nat) (rng : nat -> Z) (t : PTree) : outcome positive :=
  Assert negb (Z.land (getInt (root t)) idBitMask =? 0) ;;
  n ← deref (getPointer (root t));
  walk fuel rng 0 0 0 n t.

(** The way up from a new state, to the first node that is marked. *)
Fixpoint mark (fuel : nat) (pnode par : option positive) (childPtr : slot) (t : PTree) : outcome PTree :=
  match fuel with
  | O => OutOfFuel
  | S fuel =>
      match pnode with
      | None => Done t
      | Some _ =>
          v ← read_slot childPtr t;
          if IS_OUR_NODE_VALID v then Done t
          else
            t ← write_slot childPtr (MkPtr (getPointer v) (Z.lor (getInt v) idBitMask)) t;
            let pnode := par in
            match pnode with
            | None => Done t
            | Some p =>
                pd ← deref (nodes t !! p);
                let par := parent pd in
                childPtr ← slot_of par p t;
                mark fuel (Some p) par childPtr t
            end
      end
  end.

Definition add_state (fuel : nat) (es : positive) (t : PTree) : outcome PTree :=
  pnode ← deref (ptreeNode t !! es);
  nd ← deref (nodes t !! pnode);
  childPtr ← slot_of (parent nd) pnode t;
  mark fuel (Some pnode) (parent nd) childPtr t.

(** The way up from a removed state, to the first node that leads to another. *)
Fixpoint unmark (fuel : nat) (pnode : positive) (t : PTree) : outcome PTree :=
  match fuel with
  | O => OutOfFuel
  | S fuel =>
      nd ← deref (nodes t !! pnode);
      if IS_OUR_NODE_VALID (left nd) || IS_OUR_NODE_VALID (right nd) then Done t
      else
        childPtr ← slot_of (parent nd) pnode t;
        v ← read_slot childPtr t;
        Assert IS_OUR_NODE_VALID v ;;
        t ← write_slot childPtr (MkPtr (getPointer v) (Z.land (getInt v) (Z.lnot idBitMask))) t;
        match parent nd with
        | None => Done t
        | Some p => unmark fuel p t
        end
  end.

Definition remove_state (fuel : nat) (es : positive) (t : PTree) : outcome PTree :=
  pnode ← deref (ptreeNode t !! es);
  unmark fuel pnode t.

Fixpoint each (f : positive -> PTree -> outcome PTree) (l : list positive) (t : PTree) : outcome PTree :=
  match l with
  | [] => Done t
  | s :: l => t ← f s t; each f l t
  end.

Definition update (fuel : nat) (addedStates removedStates : list positive) (t : PTree) : outcome PTree :=
  t ← each (add_state fuel) addedStates t;
  each (remove_state fuel) removedStates t.

Definition empty (t : PTree) : bool := negb (IS_OUR_NODE_VALID (root t)).

End Operations.
End RandomPathSearcher.
