(* ===== verification/PTreeShape.v ===== *)
(** The shape of the process tree: an invariant of the heap of nodes, what it says
    about the places pointers are stored in, and that the operations keep it. *)
From stdpp Require Import base list numbers gmap.
From Stdlib Require Import ZArith Lia.
From S2P Require Import Prelude Bits PTree.
Local Open Scope Z_scope.

(** A node without the tags. *)
Record Shape : Type := MkShape {
  sh_parent : option positive;
  sh_left : option positive;
  sh_right : option positive;
  sh_state : option positive
}.

Definition shape (n : PTreeNode) : Shape := MkShape (parent n) (getPointer (left n)) (getPointer (right n)) (state n).

Definition shapes (t : PTree) : gmap positive Shape := shape <$> nodes t.

Definition child_of (m : gmap positive Shape) (p c : positive) : Prop := exists cd, m !! c = Some cd /\ sh_parent cd = Some p.

(** Parents and children agree, leaves are the nodes with a state, which knows its
    leaf, and the root is above all.  One node [z] may be without children and
    state while a branch is removed. *)
Record shape_but (z : option positive) (r : option positive) (m : gmap positive Shape) (pt : gmap positive positive) : Prop := MkShapeOk {
  sh_root : exists n nd, r = Some n /\ m !! n = Some nd /\ sh_parent nd = None;
  sh_top n nd : m !! n = Some nd -> sh_parent nd = None -> r = Some n;
  sh_down_left n nd c : m !! n = Some nd -> sh_left nd = Some c -> child_of m n c;
  sh_down_right n nd c : m !! n = Some nd -> sh_right nd = Some c -> child_of m n c;
  sh_distinct n nd c : m !! n = Some nd -> sh_left nd = Some c -> sh_right nd <> Some c;
  sh_up n nd p : m !! n = Some nd -> sh_parent nd = Some p ->
    exists pd, m !! p = Some pd /\ (sh_left pd = Some n \/ sh_right pd = Some n);
  sh_leaf n nd : m !! n = Some nd -> z <> Some n -> (is_Some (sh_state nd) <-> sh_left nd = None /\ sh_right nd = None);
  sh_loose n nd : m !! n = Some nd -> z = Some n -> sh_left nd = None /\ sh_right nd = None;
  sh_known n nd s : m !! n = Some nd -> sh_state nd = Some s -> pt !! s = Some n;
  sh_depth : exists depth : positive -> nat, forall n nd p, m !! n = Some nd -> sh_parent nd = Some p -> (depth p < depth n)%nat
}.

Definition tree_but (z : option positive) (t : PTree) : Prop := shape_but z (getPointer (root t)) (shapes t) (ptreeNode t).

Abbreviation tree_ok := (tree_but None).

(** The states of the leaves. *)
Definition live (t : PTree) (s : positive) : Prop := exists n nd, nodes t !! n = Some nd /\ state nd = Some s.

(** ** Places *)

Definition node_slot (m : gmap positive Shape) (n : positive) : slot :=
  match m !! n ≫= sh_parent with
  | None => RootSlot
  | Some p => if decide (m !! p ≫= sh_left = Some n) then LeftSlot p else RightSlot p
  end.

Definition slot_val (t : PTree) (c : slot) : PTreeNodePtr :=
  match c with
  | RootSlot => root t
  | LeftSlot p => default null_ptr (left <$> nodes t !! p)
  | RightSlot p => default null_ptr (right <$> nodes t !! p)
  end.

(** The tags of the pointer to a node. *)
Definition tag (t : PTree) (n : positive) : Z := getInt (slot_val t (node_slot (shapes t) n)).

Lemma shapes_lookup t n nd : nodes t !! n = Some nd -> shapes t !! n = Some (shape nd).
Proof. intros H. unfold shapes. by rewrite lookup_fmap, H. Qed.

Lemma shapes_inv t n sd : shapes t !! n = Some sd -> exists nd, nodes t !! n = Some nd /\ sd = shape nd.
Proof. unfold shapes. rewrite lookup_fmap, fmap_Some. done. Qed.

Lemma node_place z t n nd : tree_but z t -> nodes t !! n = Some nd ->
  slot_of (parent nd) n t = Done (node_slot (shapes t) n) /\
  read_slot (node_slot (shapes t) n) t = Done (MkPtr (Some n) (tag t n)) /\
  slot_val t (node_slot (shapes t) n) = MkPtr (Some n) (tag t n).
Proof.
  intros Ht Hn. pose proof (shapes_lookup _ _ _ Hn) as Hs. unfold tag, node_slot. rewrite Hs. cbn [mbind option_bind shape sh_parent].
  destruct (parent nd) as [p|] eqn:Ep.
  - destruct (sh_up _ _ _ _ Ht n _ p Hs Ep) as (pd & Hp & Hc). destruct (shapes_inv _ _ _ Hp) as (pn & Hpn & ->).
    cbn [slot_of]. rewrite Hpn, Hp. cbn [deref mbind outcome_bind option_bind shape sh_left sh_right] in *. case_decide as E; cbn [slot_val read_slot]; rewrite Hpn; cbn.
    + split_and!; [done|..]; rewrite <- E; by destruct (left pn).
    + destruct Hc as [|Hc]; [done|]. split_and!; [done|..]; rewrite <- Hc; by destruct (right pn).
  - pose proof (sh_top _ _ _ _ Ht n _ Hs Ep) as Hr. cbn. split_and!; [done|..]; rewrite <- Hr; by destruct (root t).
Qed.

(** Two nodes are pointed to from two places. *)
Lemma node_slot_inj z t n n' nd nd' : tree_but z t -> nodes t !! n = Some nd -> nodes t !! n' = Some nd' ->
  node_slot (shapes t) n = node_slot (shapes t) n' -> n = n'.
Proof.
  intros Ht Hn Hn' E. destruct (node_place z t n nd Ht Hn) as (_ & H & _), (node_place z t n' nd' Ht Hn') as (_ & H' & _).
  rewrite E, H' in H. congruence.
Qed.

(** The children of a node, as the code tests them. *)
Lemma left_child z t n nd c : tree_but z t -> nodes t !! n = Some nd -> getPointer (left nd) = Some c ->
  left nd = MkPtr (Some c) (tag t c) /\ exists cd, nodes t !! c = Some cd /\ parent cd = Some n.
Proof.
  intros Ht Hn Hc. pose proof (shapes_lookup _ _ _ Hn) as Hs. destruct (sh_down_left _ _ _ _ Ht n _ c Hs Hc) as (cs & Hcs & Hp).
  destruct (shapes_inv _ _ _ Hcs) as (cd & Hcd & ->). cbn in Hp. split; [|by exists cd].
  destruct (node_place z t c cd Ht Hcd) as (_ & _ & H). unfold node_slot in H. rewrite Hcs in H. cbn [mbind option_bind shape sh_parent] in H.
  rewrite Hp, Hs in H. cbn [option_bind shape sh_left] in H. rewrite decide_True in H by done. cbn [slot_val] in H. rewrite Hn in H. exact H.
Qed.

Lemma right_child z t n nd c : tree_but z t -> nodes t !! n = Some nd -> getPointer (right nd) = Some c ->
  right nd = MkPtr (Some c) (tag t c) /\ exists cd, nodes t !! c = Some cd /\ parent cd = Some n.
Proof.
  intros Ht Hn Hc. pose proof (shapes_lookup _ _ _ Hn) as Hs. destruct (sh_down_right _ _ _ _ Ht n _ c Hs Hc) as (cs & Hcs & Hp).
  destruct (shapes_inv _ _ _ Hcs) as (cd & Hcd & ->). cbn in Hp. split; [|by exists cd].
  destruct (node_place z t c cd Ht Hcd) as (_ & _ & H). unfold node_slot in H. rewrite Hcs in H. cbn [mbind option_bind shape sh_parent] in H.
  rewrite Hp, Hs in H. cbn [option_bind shape sh_left] in H. rewrite decide_False in H.
  - cbn [slot_val] in H. rewrite Hn in H. exact H.
  - intros El. by apply (sh_distinct _ _ _ _ Ht n _ c Hs El).
Qed.

Lemma child_is z t n nd c cd : tree_but z t -> nodes t !! n = Some nd -> nodes t !! c = Some cd -> parent cd = Some n ->
  getPointer (left nd) = Some c \/ getPointer (right nd) = Some c.
Proof.
  intros Ht Hn Hc Hp. destruct (sh_up _ _ _ _ Ht c _ n (shapes_lookup _ _ _ Hc) Hp) as (pd & Hpd & H).
  rewrite (shapes_lookup _ _ _ Hn) in Hpd. injection Hpd as <-. exact H.
Qed.

Lemma parent_exists z t n nd p : tree_but z t -> nodes t !! n = Some nd -> parent nd = Some p -> exists pd, nodes t !! p = Some pd /\ (z = Some p \/ state pd = None).
Proof.
  intros Ht Hn Hp. destruct (sh_up _ _ _ _ Ht n _ p (shapes_lookup _ _ _ Hn) Hp) as (ps & Hps & H).
  destruct (shapes_inv _ _ _ Hps) as (pd & Hpd & ->). exists pd. split; [done|]. pose proof (sh_leaf _ _ _ _ Ht p _ Hps) as Hl. cbn in *.
  destruct (decide (z = Some p)) as [|Hz]; [by left|right]. destruct (state pd) eqn:Es; [|done]. destruct (proj1 (Hl Hz)) as [E1 E2]; [done|]. destruct H; congruence.
Qed.

(** ** Changing a tag *)

Definition same_shape (t t' : PTree) : Prop :=
  getPointer (root t') = getPointer (root t) /\ shapes t' = shapes t /\ ptreeNode t' = ptreeNode t /\ registeredIds t' = registeredIds t.

#[export] Instance same_shape_preorder : PreOrder same_shape.
Proof. split; [by intros t|]. intros t t' t'' (? & ? & ? & ?) (? & ? & ? & ?). split_and!; congruence. Qed.

Lemma same_shape_ok z t t' : same_shape t t' -> tree_but z t -> tree_but z t'.
Proof. intros (Hr & Hs & Hp & _). unfold tree_but. by rewrite Hr, Hs, Hp. Qed.

Lemma same_shape_node t t' n nd : same_shape t t' -> nodes t !! n = Some nd -> exists nd', nodes t' !! n = Some nd' /\ shape nd' = shape nd.
Proof.
  intros (_ & Hs & _) Hn. apply shapes_lookup in Hn. rewrite <- Hs in Hn. destruct (shapes_inv _ _ _ Hn) as (nd' & ? & ?). by exists nd'.
Qed.

Lemma same_shape_sym t t' : same_shape t t' -> same_shape t' t.
Proof. intros (? & ? & ? & ?). by split_and!. Qed.

Lemma same_shape_live t t' s : same_shape t t' -> live t s <-> live t' s.
Proof.
  intros H. split; intros (n & nd & Hn & Hs); [|apply same_shape_sym in H];
    (destruct (same_shape_node _ _ n nd H Hn) as (nd' & Hn' & E); exists n, nd'; split; [done|]; injection E as _ _ _ E; congruence).
Qed.

(** Writing other tags to the pointer to [n]. *)
Lemma write_tag z t n nd x : tree_but z t -> nodes t !! n = Some nd ->
  exists t', write_slot (node_slot (shapes t) n) (MkPtr (Some n) x) t = Done t' /\ same_shape t t' /\
    forall m, is_Some (nodes t !! m) -> tag t' m = if decide (m = n) then x else tag t m.
Proof.
  intros Ht Hn. destruct (node_place z t n nd Ht Hn) as (_ & Hrd & Hv).
  assert (exists t', write_slot (node_slot (shapes t) n) (MkPtr (Some n) x) t = Done t' /\ same_shape t t' /\
    forall c, slot_val t' c = if decide (c = node_slot (shapes t) n) then MkPtr (Some n) x else slot_val t c) as (t' & E & Hs & Hval).
  { destruct (node_slot (shapes t) n) as [|p|p] eqn:Ec; cbn [read_slot write_slot slot_val] in *.
    - eexists. split; [done|]. split; [unfold same_shape; cbn; injection Hrd as ->; done|]. intros [| |]; by cbn.
    - destruct (nodes t !! p) as [pd|] eqn:Hp; [|done]. cbn in *. injection Hrd as Hl. eexists. split; [done|]. split.
      + unfold same_shape, shapes, set_nodes. cbn. split_and!; try done. rewrite fmap_insert. apply insert_id. rewrite lookup_fmap, Hp. cbn.
        unfold shape, with_left. cbn. by rewrite Hl.
      + intros [|q|q]; cbn; [done|..]; (destruct (decide (q = p)) as [-> |Hne]; [rewrite lookup_insert_eq, ?Hp|rewrite lookup_insert_ne by done]); cbn; try done.
        * by rewrite decide_True.
        * rewrite decide_False by congruence. done.
    - destruct (nodes t !! p) as [pd|] eqn:Hp; [|done]. cbn in *. injection Hrd as Hl. eexists. split; [done|]. split.
      + unfold same_shape, shapes, set_nodes. cbn. split_and!; try done. rewrite fmap_insert. apply insert_id. rewrite lookup_fmap, Hp. cbn.
        unfold shape, with_right. cbn. by rewrite Hl.
      + intros [|q|q]; cbn; [done|..]; (destruct (decide (q = p)) as [-> |Hne]; [rewrite lookup_insert_eq, ?Hp|rewrite lookup_insert_ne by done]); cbn; try done.
        * by rewrite decide_True.
        * rewrite decide_False by congruence. done. }
  exists t'. split_and!; [done|done|]. intros m [md Hm]. unfold tag. destruct Hs as (_ & Hs & _). rewrite Hs, Hval. case_decide as Em.
  - rewrite decide_True; [done|]. by eapply node_slot_inj.
  - rewrite decide_False; [done|]. congruence.
Qed.

(** ** A fork *)

Ltac by_node :=
  repeat match goal with
    | H : <[_ := _]> _ !! _ = Some _ |- _ => apply lookup_insert_Some in H as [[<- <-]|[? H]]; simplify_eq/=
    | H : delete _ _ !! _ = Some _ |- _ => apply lookup_delete_Some in H as [? H]
    end.

(** Some depth that grows from parents to children. *)
Definition deeper (m : gmap positive Shape) (depth : positive -> nat) : Prop :=
  forall n nd p, m !! n = Some nd -> sh_parent nd = Some p -> (depth p < depth n)%nat.

Lemma shape_attach r m pt n p s l q s' : shape_but None r m pt -> m !! n = Some (MkShape p None None (Some s)) ->
  m !! l = None -> m !! q = None -> l <> q -> (forall k nd, m !! k = Some nd -> sh_state nd <> Some s') ->
  shape_but None r (<[n := MkShape p (Some l) (Some q) None]> (<[q := MkShape (Some n) None None (Some s)]>
    (<[l := MkShape (Some n) None None (Some s')]> m))) (<[s := q]> (<[s' := l]> pt)).
Proof.
  intros Hm Hn Hl Hq Hlq Hs'. assert (n <> l /\ n <> q) as [Hnl Hnq] by (split; congruence).
  assert (s <> s') as Hss by (intros ->; by apply (Hs' n _ Hn)).
  assert (forall k nd c, m !! k = Some nd -> sh_left nd = Some c \/ sh_right nd = Some c -> c <> l /\ c <> q) as Hc.
  { intros k nd c Hk H. assert (child_of m k c) as (cd & Hcd & _) by (destruct H; [by eapply (sh_down_left _ _ _ _ Hm)|by eapply (sh_down_right _ _ _ _ Hm)]).
    split; congruence. }
  split.
  - destruct (sh_root _ _ _ _ Hm) as (r' & rd & -> & Hr & Hp). exists r'. destruct (decide (r' = n)) as [-> |Hne].
    + rewrite Hn in Hr. injection Hr as <-. eexists. by rewrite lookup_insert_eq.
    + exists rd. split_and!; [done| |done]. rewrite !lookup_insert_ne by congruence. done.
  - intros k nd Hk Hp. by_node; [by eapply (sh_top _ _ _ _ Hm)|by eapply (sh_top _ _ _ _ Hm)].
  - intros k nd c Hk H. unfold child_of. by_node.
    + eexists. rewrite lookup_insert_ne, lookup_insert_ne, lookup_insert_eq by done. done.
    + destruct (sh_down_left _ _ _ _ Hm k nd c Hk H) as (cd & Hcd & Ep). destruct (decide (c = n)) as [-> |Hcn].
      * rewrite Hn in Hcd. injection Hcd as <-. eexists. by rewrite lookup_insert_eq.
      * exists cd. rewrite !lookup_insert_ne by (congruence || (destruct (Hc k nd c); auto)). done.
  - intros k nd c Hk H. unfold child_of. by_node.
    + eexists. rewrite lookup_insert_ne, lookup_insert_eq by done. done.
    + destruct (sh_down_right _ _ _ _ Hm k nd c Hk H) as (cd & Hcd & Ep). destruct (decide (c = n)) as [-> |Hcn].
      * rewrite Hn in Hcd. injection Hcd as <-. eexists. by rewrite lookup_insert_eq.
      * exists cd. rewrite !lookup_insert_ne by (congruence || (destruct (Hc k nd c); auto)). done.
  - intros k nd c Hk H. by_node; [congruence|]. by eapply (sh_distinct _ _ _ _ Hm).
  - intros k nd p' Hk Hp. assert (forall k', m !! k' = Some nd -> sh_parent nd = Some p' -> p' <> n) as Hpn.
    { intros k' Hk' E ->. destruct (sh_up _ _ _ _ Hm k' nd n Hk' E) as (pd & Hpd & H). rewrite Hn in Hpd. injection Hpd as <-. by destruct H. }
    by_node.
    + destruct (sh_up _ _ _ _ Hm n _ p' Hn eq_refl) as (pd & Hpd & H). exists pd. cbn in *.
      rewrite !lookup_insert_ne; [done|congruence..|]. intros <-. rewrite Hn in Hpd. injection Hpd as <-. by destruct H.
    + eexists. rewrite lookup_insert_eq. split; [done|]. by right.
    + eexists. rewrite lookup_insert_eq. split; [done|]. by left.
    + destruct (sh_up _ _ _ _ Hm k nd p' Hk Hp) as (pd & Hpd & H'). exists pd. rewrite !lookup_insert_ne; [done|congruence..|]. intros <-. by apply (Hpn k).
  - intros k nd Hk _. by_node; try (split; [by intros []|by intros []]). by apply (sh_leaf _ _ _ _ Hm k nd Hk).
  - done.
  - intros k nd x Hk Hx. by_node; [by rewrite lookup_insert_eq|by rewrite lookup_insert_ne, lookup_insert_eq by done|].
    rewrite !lookup_insert_ne; [by eapply (sh_known _ _ _ _ Hm)|..].
    + intros <-. by apply (Hs' k nd Hk).
    + intros <-. pose proof (sh_known _ _ _ _ Hm k nd s Hk Hx). pose proof (sh_known _ _ _ _ Hm n _ s Hn eq_refl). congruence.
  - destruct (sh_depth _ _ _ _ Hm) as [d Hd]. exists (fun k => if decide (k = l \/ k = q) then S (d n) else d k). intros k nd p' Hk Hp.
    assert (forall k', m !! k' = Some nd -> sh_parent nd = Some p' -> p' <> l /\ p' <> q) as Hpp.
    { intros k' Hk' E. destruct (sh_up _ _ _ _ Hm k' nd p' Hk' E) as (pd & Hpd & _). split; congruence. }
    by_node.
    + destruct (sh_up _ _ _ _ Hm n _ p' Hn eq_refl) as (pd & Hpd & _). rewrite !decide_False by (intros [|]; congruence). by eapply (Hd n _ p' Hn).
    + rewrite (decide_True (P := q = l \/ q = q)) by auto. rewrite decide_False by (intros [|]; congruence). lia.
    + rewrite (decide_True (P := l = l \/ l = q)) by auto. rewrite decide_False by (intros [|]; congruence). lia.
    + destruct (Hpp k Hk Hp) as [? ?]. rewrite !decide_False by (intros [|]; congruence). by eapply Hd.
Qed.

Lemma shapes_insert n nd (h : gmap positive PTreeNode) : shape <$> <[n := nd]> h = <[n := shape nd]> (shape <$> h).
Proof. apply fmap_insert. Qed.

Lemma tag_ext t t' m md md' : nodes t !! m = Some md -> nodes t' !! m = Some md' -> parent md' = parent md ->
  match parent md with None => root t' = root t | Some p => nodes t' !! p = nodes t !! p end -> tag t' m = tag t m.
Proof.
  intros Hm Hm' Hp H. assert (node_slot (shapes t') m = node_slot (shapes t) m) as E.
  { unfold node_slot, shapes. rewrite !lookup_fmap, Hm, Hm'. cbn. rewrite Hp. destruct (parent md) as [p|]; [|done]. by rewrite !lookup_fmap, H. }
  unfold tag. rewrite E. unfold node_slot, shapes. rewrite lookup_fmap, Hm. cbn. destruct (parent md) as [p|]; cbn; [|by rewrite H].
  case_decide; cbn; by rewrite H.
Qed.

Lemma slot_of_mono t t' par n c : slot_of par n t = Done c -> nodes t ⊆ nodes t' -> slot_of par n t' = Done c.
Proof.
  destruct par as [p|]; [|done]. cbn. destruct (nodes t !! p) as [pd|] eqn:E; [|done]. intros H Hs.
  rewrite (lookup_weaken _ _ _ _ E Hs). exact H.
Qed.

Lemma read_slot_mono t t' c v : read_slot c t = Done v -> nodes t ⊆ nodes t' -> root t' = root t -> read_slot c t' = Done v.
Proof.
  intros H Hs Hr. destruct c as [|p|p]; cbn in *; [by rewrite Hr|..]; (destruct (nodes t !! p) as [pd|] eqn:E; [|done]);
    by rewrite (lookup_weaken _ _ _ _ E Hs).
Qed.

(** The node of a state gets two children; the old state moves to the right one,
    with the tags. *)
Definition attached (t : PTree) (n : positive) (nd : PTreeNode) (a b s' s : positive) : PTree :=
  MkPTree (registeredIds t) (root t)
    (<[n := MkNode (parent nd) (MkPtr (Some a) 0) (MkPtr (Some b) (tag t n)) None]> (<[b := MkNode (Some n) null_ptr null_ptr (Some s)]>
       (<[a := MkNode (Some n) null_ptr null_ptr (Some s')]> (nodes t))))
    (<[s := b]> (<[s' := a]> (ptreeNode t))).

Lemma leaf_shape t n nd s : tree_ok t -> nodes t !! n = Some nd -> state nd = Some s ->
  getPointer (left nd) = None /\ getPointer (right nd) = None /\ ptreeNode t !! s = Some n.
Proof.
  intros Ht Hn Hs. pose proof (shapes_lookup _ _ _ Hn) as Hm. destruct (proj1 (sh_leaf _ _ _ _ Ht n _ Hm ltac:(done))) as [El Er]; [by exists s|].
  split_and!; [done..|]. by apply (sh_known _ _ _ _ Ht n _ s Hm).
Qed.

Lemma attach_eq t n nd s s' : tree_ok t -> nodes t !! n = Some nd -> state nd = Some s -> ~ live t s' ->
  exists a b, nodes t !! a = None /\ nodes t !! b = None /\ a <> b /\ PTree.attach (Some n) s' s t = Done (attached t n nd a b s' s).
Proof.
  intros Ht Hn Hs Hs'. destruct (leaf_shape t n nd s Ht Hn Hs) as (El & Er & Ek).
  set (a := fresh (dom (nodes t))). set (h := <[a := MkNode (Some n) null_ptr null_ptr (Some s')]> (nodes t)). set (b := fresh (dom h)).
  assert (nodes t !! a = None) as Ha by (apply not_elem_of_dom, is_fresh). assert (h !! b = None) as Hb by (apply not_elem_of_dom, is_fresh).
  assert (nodes t ⊆ h) as Hsub by by apply insert_subseteq.
  assert (a <> b) as Hab. { intros E. revert Hb. unfold h. rewrite E, lookup_insert_eq. done. }
  exists a, b. split_and!; [done|revert Hb; unfold h; by rewrite lookup_insert_ne|done|].
  unfold PTree.attach. rewrite Hn. cbn [deref mbind outcome_bind]. unfold PTree.is_leaf. rewrite !bool_decide_eq_true_2 by done. cbn [andb].
  unfold PTree.new_node. fold a. fold h. cbn [nodes root ptreeNode registeredIds]. fold b.
  destruct (node_place None t n nd Ht Hn) as (Ec & Ev & _).
  rewrite (slot_of_mono t _ _ _ _ Ec) by done. cbn [mbind outcome_bind]. rewrite (read_slot_mono t _ _ _ Ev) by done. done.
Qed.

Lemma attach_ok t n nd a b s' s : tree_ok t -> nodes t !! n = Some nd -> state nd = Some s -> ~ live t s' ->
  nodes t !! a = None -> nodes t !! b = None -> a <> b -> let t' := attached t n nd a b s' s in
  tree_ok t' /\ (forall m, is_Some (nodes t !! m) -> tag t' m = tag t m) /\ tag t' a = 0 /\ tag t' b = tag t n /\
  forall x, live t' x <-> live t x \/ x = s'.
Proof.
  intros Ht Hn Hs Hs' Ha Hb Hab t'. assert (n <> a /\ n <> b) as [Hna Hnb] by (split; congruence).
  destruct (leaf_shape t n nd s Ht Hn Hs) as (El & Er & Ek).
  assert (forall k kd, nodes t !! k = Some kd -> parent kd <> Some n) as Hpar.
  { intros k kd Hk Ep. destruct (child_is None t n nd k kd Ht Hn Hk Ep); congruence. }
  split_and!.
  - unfold tree_but, shapes, t', attached. cbn [nodes root ptreeNode]. rewrite !shapes_insert. cbn [shape getPointer].
    apply (shape_attach _ (shapes t)); [done|..].
    + rewrite (shapes_lookup _ _ _ Hn). unfold shape. by rewrite El, Er, Hs.
    + unfold shapes. by rewrite lookup_fmap, Ha.
    + unfold shapes. by rewrite lookup_fmap, Hb.
    + done.
    + intros k kd (x & Hk & ->)%shapes_inv E. apply Hs'. by exists k, x.
  - intros m [md Hm]. assert (exists md', nodes t' !! m = Some md' /\ parent md' = parent md) as (md' & Hm' & Ep).
    { cbn. destruct (decide (m = n)) as [-> |Hmn]; [rewrite Hn in Hm; injection Hm as <-; rewrite lookup_insert_eq; by eexists|].
      rewrite !lookup_insert_ne by congruence. by exists md. }
    eapply tag_ext; [done..|]. destruct (parent md) as [p|] eqn:Epm; [|done]. destruct (parent_exists None t m md p Ht Hm Epm) as (pd & Hp & _).
    cbn. rewrite !lookup_insert_ne; [done|congruence|congruence|]. intros <-. by apply (Hpar m md).
  - unfold tag, node_slot, shapes, t', attached. cbn [nodes]. rewrite !shapes_insert, lookup_insert_ne, lookup_insert_ne, lookup_insert_eq by done. cbn.
    rewrite lookup_insert_eq. cbn. rewrite decide_True by done. cbn. by rewrite lookup_insert_eq.
  - unfold tag at 1. unfold node_slot, shapes, t', attached. cbn [nodes]. rewrite !shapes_insert, lookup_insert_ne, lookup_insert_eq by done. cbn.
    rewrite lookup_insert_eq. cbn. rewrite decide_False by congruence. cbn. by rewrite lookup_insert_eq.
  - intros x. unfold live. cbn. split.
    + intros (k & kd & Hk & Hx). by_node; [naive_solver..|]. left. by exists k, kd.
    + intros [(k & kd & Hk & Hx)| ->].
      * destruct (decide (k = n)) as [-> |Hne].
        -- assert (x = s) as -> by congruence. exists b. eexists. by rewrite lookup_insert_ne, lookup_insert_eq by done.
        -- exists k, kd. rewrite !lookup_insert_ne by congruence. done.
      * exists a. eexists. by rewrite lookup_insert_ne, lookup_insert_ne, lookup_insert_eq by done.
Qed.

(** ** The removal of a branch *)

Lemma shape_loosen r m pt n nd : shape_but None r m pt -> m !! n = Some nd -> is_Some (sh_state nd) -> shape_but (Some n) r m pt.
Proof.
  intros Hm Hn Hs. split; try by destruct Hm.
  - intros k kd Hk _. by apply (sh_leaf _ _ _ _ Hm k kd Hk).
  - intros k kd Hk [= <-]. rewrite Hn in Hk. injection Hk as <-. by apply (sh_leaf _ _ _ _ Hm n nd Hn).
Qed.

(** A node [p] without its child [n]. *)
Definition sh_without (n : positive) (p : Shape) : Shape :=
  if decide (sh_left p = Some n) then MkShape (sh_parent p) None (sh_right p) (sh_state p) else MkShape (sh_parent p) (sh_left p) None (sh_state p).

Lemma shape_detach r m pt n nd p pd : shape_but (Some n) r m pt -> m !! n = Some nd -> sh_parent nd = Some p -> m !! p = Some pd ->
  shape_but (if decide (sh_left (sh_without n pd) = None /\ sh_right (sh_without n pd) = None) then Some p else None)
    r (delete n (<[p := sh_without n pd]> m)) pt.
Proof.
  intros Hm Hn Hp Hpd. destruct (sh_loose _ _ _ _ Hm n nd Hn eq_refl) as [Hl Hr].
  destruct (sh_up _ _ _ _ Hm n nd p Hn Hp) as (pd0 & Hpd0 & Hc). rewrite Hpd in Hpd0. injection Hpd0 as <-.
  assert (p <> n) as Hpn. { intros ->. rewrite Hpd in Hn. injection Hn as ->. destruct Hc; congruence. }
  assert (sh_state pd = None) as Hps.
  { pose proof (sh_leaf _ _ _ _ Hm p pd Hpd ltac:(congruence)) as H. destruct (sh_state pd); [|done]. destruct (proj1 H) as [E1 E2]; [done|]. destruct Hc; congruence. }
  assert (forall k kd, m !! k = Some kd -> sh_parent kd <> Some n) as Hnp.
  { intros k kd Hk E. destruct (sh_up _ _ _ _ Hm k kd n Hk E) as (nd0 & Hn0 & H). rewrite Hn in Hn0. injection Hn0 as <-. destruct H; congruence. }
  assert (sh_parent (sh_without n pd) = sh_parent pd /\ sh_state (sh_without n pd) = None) as [Ep Es] by (unfold sh_without; case_decide; done).
  assert (forall c, sh_left (sh_without n pd) = Some c -> sh_left pd = Some c /\ c <> n) as Hwl.
  { unfold sh_without. intros c. case_decide; cbn; [done|]. intros ?. split; congruence. }
  assert (forall c, sh_right (sh_without n pd) = Some c -> sh_right pd = Some c /\ c <> n) as Hwr.
  { unfold sh_without. intros c. case_decide as E; cbn; [|done]. intros H. split; [done|]. intros ->. by apply (sh_distinct _ _ _ _ Hm p pd n Hpd E). }
  assert (forall c, c <> n -> sh_left pd = Some c \/ sh_right pd = Some c -> sh_left (sh_without n pd) = Some c \/ sh_right (sh_without n pd) = Some c) as Hkeep.
  { unfold sh_without. intros c Hcn. case_decide as E; cbn; [|destruct Hc as [|Hc]; [done|rewrite Hc]]; intros [H|H]; (congruence || auto). }
  assert (forall k c kd, child_of m k c -> c <> n -> m !! c = Some kd -> child_of (delete n (<[p := sh_without n pd]> m)) k c) as Hchild.
  { intros k c kd (cd & Hcd & E) Hcn _. unfold child_of. rewrite lookup_delete_ne by done. destruct (decide (c = p)) as [-> |Hcp].
    - rewrite lookup_insert_eq. eexists. split; [done|]. rewrite Ep. congruence.
    - rewrite lookup_insert_ne by done. by exists cd. }
  split.
  - destruct (sh_root _ _ _ _ Hm) as (q & rd & Er & Hq & Hqp). assert (q <> n) as Hqn by congruence. exists q.
    destruct (decide (q = p)) as [-> |Hne].
    + exists (sh_without n pd). rewrite lookup_delete_ne, lookup_insert_eq by done. split_and!; [done..|congruence].
    + exists rd. rewrite lookup_delete_ne, lookup_insert_ne by done. done.
  - intros k kd Hk E. by_node; [rewrite Ep in E|]; by eapply (sh_top _ _ _ _ Hm).
  - intros k kd c Hk E. by_node.
    + destruct (Hwl c E) as [E' ?]. destruct (sh_down_left _ _ _ _ Hm p pd c Hpd E') as (cd & Hcd & ?). by apply (Hchild p c cd); [exists cd|..].
    + destruct (sh_down_left _ _ _ _ Hm k kd c Hk E) as (cd & Hcd & Hck). apply (Hchild k c cd); [by exists cd| |done].
      intros ->. rewrite Hn in Hcd. congruence.
  - intros k kd c Hk E. by_node.
    + destruct (Hwr c E) as [E' ?]. destruct (sh_down_right _ _ _ _ Hm p pd c Hpd E') as (cd & Hcd & ?). by apply (Hchild p c cd); [exists cd|..].
    + destruct (sh_down_right _ _ _ _ Hm k kd c Hk E) as (cd & Hcd & Hck). apply (Hchild k c cd); [by exists cd| |done].
      intros ->. rewrite Hn in Hcd. congruence.
  - intros k kd c Hk E. by_node; [|by eapply (sh_distinct _ _ _ _ Hm)]. intros E2. destruct (Hwl c E) as [E' _], (Hwr c E2) as [E2' _].
    by apply (sh_distinct _ _ _ _ Hm p pd c Hpd E').
  - intros k kd q Hk E. assert (exists qd, m !! q = Some qd /\ (sh_left qd = Some k \/ sh_right qd = Some k)) as (qd & Hq & H).
    { by_node; [rewrite Ep in E; by apply (sh_up _ _ _ _ Hm p pd q Hpd E)|by apply (sh_up _ _ _ _ Hm k kd q Hk E)]. }
    assert (k <> n) by by apply lookup_delete_Some in Hk as [? _].
    destruct (decide (q = p)) as [-> |Hqp].
    + exists (sh_without n pd). rewrite lookup_delete_ne, lookup_insert_eq by done. split; [done|]. apply Hkeep; [done|]. congruence.
    + exists qd. rewrite lookup_delete_ne, lookup_insert_ne; [done|done|]. intros <-.
      rewrite Hn in Hq. injection Hq as <-. destruct H; congruence.
  - intros k kd Hk Hz. by_node.
    + case_decide as Ed; [done|]. rewrite Es. split; [by intros []|done].
    + apply (sh_leaf _ _ _ _ Hm k kd Hk). congruence.
  - intros k kd Hk Hz. case_decide as Ed; [|done]. injection Hz as <-. rewrite lookup_delete_ne, lookup_insert_eq in Hk by done. injection Hk as <-. done.
  - intros k kd s Hk E. by_node; try congruence; by eapply (sh_known _ _ _ _ Hm).
  - destruct (sh_depth _ _ _ _ Hm) as [d Hd]. exists d. intros k kd q Hk E. by_node; [rewrite Ep in E|]; by eapply Hd.
Qed.

(** ** A node with one child is taken out *)

Definition sh_with_parent (p : option positive) (c : Shape) : Shape := MkShape p (sh_left c) (sh_right c) (sh_state c).

Definition sh_replace (n c : positive) (p : Shape) : Shape :=
  if decide (sh_left p = Some n) then MkShape (sh_parent p) (Some c) (sh_right p) (sh_state p) else MkShape (sh_parent p) (sh_left p) (Some c) (sh_state p).

(** The nodes afterwards. *)
Definition sh_compressed (m : gmap positive Shape) (n : positive) (nd : Shape) (c : positive) (cd : Shape) (k : positive) : option Shape :=
  if decide (k = n) then None
  else if decide (k = c) then Some (sh_with_parent (sh_parent nd) cd)
  else if decide (sh_parent nd = Some k) then sh_replace n c <$> m !! k
  else m !! k.

Lemma shape_compress r m m' pt n nd c cd : shape_but None r m pt -> m !! n = Some nd -> m !! c = Some cd ->
  (sh_left nd = Some c /\ sh_right nd = None) \/ (sh_left nd = None /\ sh_right nd = Some c) ->
  (forall k, m' !! k = sh_compressed m n nd c cd k) ->
  shape_but None (match sh_parent nd with None => Some c | Some _ => r end) m' pt.
Proof.
  intros Hm Hn Hc Hone Hm'. destruct (sh_depth _ _ _ _ Hm) as [d Hd].
  assert (sh_parent cd = Some n) as Hcp.
  { assert (child_of m n c) as (cd' & Hc' & ?); [|congruence].
    destruct Hone as [[? ?]|[? ?]]; [by eapply (sh_down_left _ _ _ _ Hm)|by eapply (sh_down_right _ _ _ _ Hm)]. }
  assert (c <> n) as Hcn. { intros ->. pose proof (Hd n cd n Hc Hcp). lia. }
  assert (sh_parent nd <> Some n) as Hgn. { intros E. pose proof (Hd n nd n Hn E). lia. }
  assert (sh_parent nd <> Some c) as Hgc. { intros E. pose proof (Hd n nd c Hn E). pose proof (Hd c cd n Hc Hcp). lia. }
  assert (forall k kd, m !! k = Some kd -> sh_parent kd = Some n -> k = c) as Honly.
  { intros k kd Hk E. destruct (sh_up _ _ _ _ Hm k kd n Hk E) as (nd0 & Hn0 & H). rewrite Hn in Hn0. injection Hn0 as <-.
    destruct Hone as [[? ?]|[? ?]], H; congruence. }
  assert (sh_state nd = None) as Hns.
  { pose proof (sh_leaf _ _ _ _ Hm n nd Hn ltac:(done)) as H. destruct (sh_state nd); [|done]. destruct (proj1 H) as [E1 E2]; [done|].
    destruct Hone as [[? ?]|[? ?]]; congruence. }
  (* a node afterwards: its parent and what it points to *)
  assert (forall k kd, m' !! k = Some kd -> k <> n /\ exists kd0, m !! k = Some kd0 /\ sh_state kd = sh_state kd0 /\
    sh_parent kd = (if decide (k = c) then sh_parent nd else sh_parent kd0) /\
    (sh_left kd = if decide (sh_left kd0 = Some n) then Some c else sh_left kd0) /\
    (sh_right kd = if decide (sh_right kd0 = Some n) then Some c else sh_right kd0)) as Hinv.
  { intros k kd. rewrite Hm'. unfold sh_compressed. case_decide as E1; [done|]. intros Hk. split; [done|].
    assert (forall kd0, m !! k = Some kd0 -> sh_parent nd <> Some k -> sh_left kd0 <> Some n /\ sh_right kd0 <> Some n) as Hnk.
    { intros kd0 Hk0 Hg. split; intros E.
      - destruct (sh_down_left _ _ _ _ Hm k kd0 n Hk0 E) as (? & ? & ?). congruence.
      - destruct (sh_down_right _ _ _ _ Hm k kd0 n Hk0 E) as (? & ? & ?). congruence. }
    destruct (decide (k = c)) as [-> |E2].
    { injection Hk as <-. exists cd. destruct (Hnk cd Hc Hgc) as [? ?]. cbn. rewrite !decide_False by done. done. }
    case_decide as E3; [|exists kd; destruct (Hnk kd Hk E3) as [? ?]; rewrite !decide_False by done; done].
    apply fmap_Some in Hk as (gd & Hg & ->). exists gd. destruct (sh_up _ _ _ _ Hm n nd k Hn E3) as (gd0 & Hg0 & H). rewrite Hg in Hg0. injection Hg0 as <-.
    unfold sh_replace. destruct (decide (sh_left gd = Some n)) as [El|El]; cbn; split_and!; try done.
    - rewrite decide_False; [done|]. by apply (sh_distinct _ _ _ _ Hm k gd n Hg El).
    - destruct H; [done|]. by rewrite decide_True. }
  assert (forall k kd0, m !! k = Some kd0 -> k <> n -> exists kd, m' !! k = Some kd) as Hkeep.
  { intros k kd0 Hk Hkn. rewrite Hm'. unfold sh_compressed. rewrite decide_False by done. destruct (decide (k = c)); [by eexists|].
    rewrite Hk. case_decide; by eexists. }
  assert (forall k kd x, m' !! k = Some kd -> sh_left kd = Some x \/ sh_right kd = Some x -> child_of m' k x) as Hdown.
  { intros k kd x Hk Hx. destruct (Hinv k kd Hk) as (Hkn & kd0 & Hk0 & _ & _ & El & Er).
    assert (x = c /\ sh_parent nd = Some k \/ exists xd, x <> n /\ m !! x = Some xd /\ sh_parent xd = Some k) as H.
    { assert (forall y, sh_left kd0 = Some y \/ sh_right kd0 = Some y -> exists yd, m !! y = Some yd /\ sh_parent yd = Some k) as Hy.
      { intros y [E|E]; [by destruct (sh_down_left _ _ _ _ Hm k kd0 y Hk0 E) as (yd & ? & ?); exists yd|].
        by destruct (sh_down_right _ _ _ _ Hm k kd0 y Hk0 E) as (yd & ? & ?); exists yd. }
      rewrite El, Er in Hx. destruct (decide (sh_left kd0 = Some n)) as [E|E].
      - destruct (Hy n (or_introl E)) as (nd0 & Hn0 & E'). assert (nd0 = nd) as -> by congruence. destruct Hx as [[= <-]|Hx]; [by left|].
        rewrite decide_False in Hx by by apply (sh_distinct _ _ _ _ Hm k kd0 n Hk0 E). right. destruct (Hy x (or_intror Hx)) as (xd & ? & ?). exists xd. split_and!; [|done..].
        intros ->. by apply (sh_distinct _ _ _ _ Hm k kd0 n Hk0 E).
      - destruct Hx as [Hx|Hx]; [right; destruct (Hy x (or_introl Hx)) as (xd & ? & ?); exists xd; split_and!; [congruence|done..]|].
        case_decide as E2; [|right; destruct (Hy x (or_intror Hx)) as (xd & ? & ?); exists xd; split_and!; [congruence|done..]].
        left. injection Hx as <-. split; [done|]. destruct (Hy n (or_intror E2)) as (nd0 & Hn0 & E'). congruence. }
    destruct H as [[-> Hg]|(xd & Hxn & Hxd & Hxp)].
    - destruct (Hkeep c cd Hc Hcn) as (cd' & Hc'). exists cd'. split; [done|]. destruct (Hinv c cd' Hc') as (_ & ? & _ & _ & -> & _). by rewrite decide_True.
    - destruct (Hkeep x xd Hxd Hxn) as (xd' & Hx'). exists xd'. split; [done|]. destruct (Hinv x xd' Hx') as (_ & xd0 & Hxd0 & _ & -> & _).
      rewrite decide_False; [congruence|]. intros ->. congruence. }
  split.
  - destruct (sh_root _ _ _ _ Hm) as (q & qd & -> & Hq & Hqp). destruct (sh_parent nd) as [g|] eqn:Eg.
    + assert (q <> n) as Hqn by congruence. destruct (Hkeep q qd Hq Hqn) as (qd' & Hq'). exists q, qd'. split_and!; [done..|].
      destruct (Hinv q qd' Hq') as (_ & qd0 & Hqd0 & _ & -> & _). rewrite decide_False; [congruence|]. intros ->. congruence.
    + destruct (Hkeep c cd Hc Hcn) as (cd' & Hc'). exists c, cd'. split_and!; [done..|]. destruct (Hinv c cd' Hc') as (_ & ? & _ & _ & -> & _). by rewrite decide_True.
  - intros k kd Hk Hkp. destruct (Hinv k kd Hk) as (Hkn & kd0 & Hk0 & _ & Ep & _). rewrite Ep in Hkp. case_decide as E; [subst; by rewrite Hkp|].
    pose proof (sh_top _ _ _ _ Hm k kd0 Hk0 Hkp) as Hr. destruct (sh_parent nd) eqn:Eg; [done|].
    pose proof (sh_top _ _ _ _ Hm n nd Hn Eg). congruence.
  - intros k kd x Hk Hx. eapply Hdown; [done|by left].
  - intros k kd x Hk Hx. eapply Hdown; [done|by right].
  - intros k kd x Hk Hx Hx'. destruct (Hinv k kd Hk) as (Hkn & kd0 & Hk0 & _ & _ & El & Er). rewrite El in Hx. rewrite Er in Hx'.
    assert (forall y, sh_left kd0 = Some y \/ sh_right kd0 = Some y -> y = c -> False) as Hyc.
    { intros y H ->. assert (child_of m k c) as (cd0 & ? & ?) by (destruct H; [by eapply (sh_down_left _ _ _ _ Hm)|by eapply (sh_down_right _ _ _ _ Hm)]). congruence. }
    repeat case_decide; simplify_eq; first
      [by eapply (sh_distinct _ _ _ _ Hm)|by eapply Hyc; [left; eassumption|]|by eapply Hyc; [right; eassumption|]].
  - intros k kd p Hk Hp. destruct (Hinv k kd Hk) as (Hkn & kd0 & Hk0 & _ & Ep & _). rewrite Ep in Hp.
    assert (exists pd0 y, m !! p = Some pd0 /\ (sh_left pd0 = Some y \/ sh_right pd0 = Some y) /\ p <> n /\ (y = n /\ k = c \/ y = k /\ k <> n /\ k <> c)) as (pd0 & y & Hpd0 & Hy & Hpn & Hyk).
    { case_decide as E.
      - destruct (sh_up _ _ _ _ Hm n nd p Hn Hp) as (pd0 & ? & ?). exists pd0, n. split_and!; [done|done|congruence|by left].
      - destruct (sh_up _ _ _ _ Hm k kd0 p Hk0 Hp) as (pd0 & ? & ?). exists pd0, k. split_and!; [done|done| |by right].
        intros ->. by apply E, (Honly k kd0). }
    destruct (Hkeep p pd0 Hpd0 Hpn) as (pd & Hpd). exists pd. split; [done|]. destruct (Hinv p pd Hpd) as (_ & pd1 & Hpd1 & _ & _ & El & Er).
    rewrite Hpd0 in Hpd1. injection Hpd1 as <-. rewrite El, Er. destruct Hyk as [[-> ->]|(-> & Hkn' & Hkc)].
    + destruct Hy as [H|H]; rewrite H; [left; by rewrite decide_True|right; by rewrite decide_True].
    + destruct Hy as [H|H]; rewrite H; [left|right]; rewrite decide_False by congruence; done.
  - intros k kd Hk _. destruct (Hinv k kd Hk) as (Hkn & kd0 & Hk0 & Es & _ & El & Er). rewrite Es, El, Er, (sh_leaf _ _ _ _ Hm k kd0 Hk0 ltac:(done)).
    split; [intros [-> ->]; by rewrite !decide_False|]. intros [H1 H2]. case_decide; [done|]. case_decide; done.
  - done.
  - intros k kd s Hk Hs. destruct (Hinv k kd Hk) as (Hkn & kd0 & Hk0 & Es & _). rewrite Es in Hs. by eapply (sh_known _ _ _ _ Hm).
  - exists d. intros k kd p Hk Hp. destruct (Hinv k kd Hk) as (Hkn & kd0 & Hk0 & _ & Ep & _). rewrite Ep in Hp. case_decide as E; [|by eapply Hd].
    subst k. pose proof (Hd n nd p Hn Hp). pose proof (Hd c cd n Hc Hcp). lia.
Qed.
