(* ===== verification/RandomPath.v ===== *)
(** The process tree under the random path searchers: which nodes a searcher owns
    (lib/Core/PTree.cpp, lib/Core/Searcher.cpp), and that forks, removals and the
    searchers' updates keep it.

    The random path searcher finds the states it holds: its walk and its updates
    over the nodes it owns. *)
From stdpp Require Import base list numbers gmap.
From Stdlib Require Import ZArith Lia.
From S2P Require Import Prelude Bits Searcher PTree PTreeShape.
Local Open Scope Z_scope.

(** ** Ownership *)

(** The tag bit of the searcher [b] on the pointer to a node. *)
Definition ours (b : Z) (t : PTree) (n : positive) : Prop := Z.testbit (tag t n) b = true.

(** A searcher that holds the states [C] finds one of them below the node. *)
Definition leads (b : Z) (t : PTree) (C : list positive) (n : positive) (nd : PTreeNode) : Prop :=
  match state nd with
  | Some s => s ∈ C
  | None => exists c cd, nodes t !! c = Some cd /\ parent cd = Some n /\ ours b t c
  end.

(** The searcher [b] holds the states [C]: it owns the nodes that lead to them. *)
Definition owns (b : Z) (t : PTree) (C : list positive) : Prop :=
  forall n nd, nodes t !! n = Some nd -> ours b t n <-> leads b t C n nd.

(** [t'] has some of the nodes of [t], with their tags. *)
Definition pruned (t t' : PTree) : Prop :=
  forall m md', nodes t' !! m = Some md' ->
    tag t' m = tag t m /\ exists md, nodes t !! m = Some md /\ parent md' = parent md /\ state md' = state md.

#[export] Instance pruned_preorder : PreOrder pruned.
Proof.
  split.
  - intros t m md Hm. split; [done|]. by exists md.
  - intros t t' t'' H H' m md Hm. destruct (H' m md Hm) as (E & md' & Hm' & ? & ?). destruct (H m md' Hm') as (E' & md0 & ? & ? & ?).
    split; [congruence|]. exists md0. split_and!; congruence.
Qed.

Lemma pruned_owns b t t' C : pruned t t' -> (forall m, is_Some (nodes t !! m) -> nodes t' !! m = None -> ~ ours b t m) -> owns b t C -> owns b t' C.
Proof.
  intros Hp Hgone Ho n nd' Hn'. destruct (Hp n nd' Hn') as (Et & nd & Hn & _ & Es). unfold ours. rewrite Et. rewrite (Ho n nd Hn).
  unfold leads. rewrite Es. destruct (state nd); [done|]. split.
  - intros (c & cd & Hc & Hcp & Hco). destruct (nodes t' !! c) as [cd'|] eqn:Hc'.
    + destruct (Hp c cd' Hc') as (Ec & cd0 & Hc0 & Ep & _). assert (cd0 = cd) as -> by congruence. exists c, cd'.
      unfold ours. rewrite Ec. split_and!; [done|congruence|done].
    + exfalso. by apply (Hgone c); [exists cd|..].
  - intros (c & cd' & Hc' & Hcp & Hco). destruct (Hp c cd' Hc') as (Ec & cd & Hc & Ep & _). exists c, cd. unfold ours in *.
    rewrite Ec in Hco. split_and!; [done|congruence|done].
Qed.

(** ** Removing a leaf *)

Lemma no_parent_loose z t n nd c cd : tree_but z t -> nodes t !! n = Some nd -> PTree.is_leaf nd = true -> nodes t !! c = Some cd -> parent cd <> Some n.
Proof.
  unfold PTree.is_leaf. rewrite andb_true_iff, !bool_decide_eq_true. intros Ht Hn [El Er] Hc Hp.
  destruct (child_is z t n nd c cd Ht Hn Hc Hp); congruence.
Qed.

Lemma loose_leaf t n nd : tree_but (Some n) t -> nodes t !! n = Some nd -> PTree.is_leaf nd = true.
Proof.
  intros Ht Hn. unfold PTree.is_leaf. rewrite andb_true_iff, !bool_decide_eq_true. by apply (sh_loose _ _ _ _ Ht n _ (shapes_lookup _ _ _ Hn)).
Qed.

(** The pointer to a node is in its parent. *)
Lemma tag_by_parent z z' t t' m md p pd pd' : tree_but z t -> tree_but z' t' -> nodes t !! m = Some md -> parent md = Some p ->
  nodes t !! p = Some pd -> nodes t' !! p = Some pd' -> (getPointer (left pd) = Some m -> left pd' = left pd) ->
  (getPointer (right pd) = Some m -> right pd' = right pd) -> tag t' m = tag t m.
Proof.
  intros Ht Ht' Hm Hp Hpd Hpd' Hl Hr. destruct (child_is _ t p pd m md Ht Hpd Hm Hp) as [Hc|Hc].
  - destruct (left_child _ t p pd m Ht Hpd Hc) as [El _]. specialize (Hl Hc). destruct (left_child _ t' p pd' m Ht' Hpd') as [El' _]; congruence.
  - destruct (right_child _ t p pd m Ht Hpd Hc) as [El _]. specialize (Hr Hc). destruct (right_child _ t' p pd' m Ht' Hpd') as [El' _]; congruence.
Qed.

Definition node_without (n : positive) (p : PTreeNode) : PTreeNode :=
  if decide (getPointer (left p) = Some n) then with_left null_ptr p else with_right null_ptr p.

Lemma shape_without n p : shape (node_without n p) = sh_without n (shape p).
Proof. unfold node_without, sh_without. cbn. by case_decide. Qed.

(** One round of the loop. *)
Definition detached (t : PTree) (n p : positive) (pd : PTreeNode) : PTree :=
  set_nodes (delete n (<[p := node_without n pd]> (nodes t))) t.

Lemma detach_run t n nd p : tree_but (Some n) t -> nodes t !! n = Some nd -> parent nd = Some p ->
  exists pd c, nodes t !! p = Some pd /\ p <> n /\ slot_of (Some p) n t = Done c /\ read_slot c t = Done (MkPtr (Some n) (tag t n)) /\
    write_slot c null_ptr t = Done (set_nodes (<[p := node_without n pd]> (nodes t)) t).
Proof.
  intros Ht Hn Hp. destruct (parent_exists _ t n nd p Ht Hn Hp) as (pd & Hpd & _).
  destruct (node_place _ t n nd Ht Hn) as (Ec & Ev & _). rewrite Hp in Ec. exists pd. eexists. split_and!; [done| |done|done|].
  - intros ->. by apply (no_parent_loose _ t n nd n nd Ht Hn (loose_leaf t n nd Ht Hn) Hn).
  - cbn in Ec. rewrite Hpd in Ec. cbn in Ec. unfold node_without. destruct (decide _) in Ec; injection Ec as <-; cbn; rewrite Hpd; cbn;
      [by rewrite decide_True|by rewrite decide_False].
Qed.

Lemma detach_ok t n nd p pd : tree_but (Some n) t -> nodes t !! n = Some nd -> parent nd = Some p -> nodes t !! p = Some pd -> p <> n ->
  let t' := detached t n p pd in
  tree_but (if PTree.is_leaf (node_without n pd) then Some p else None) t' /\ nodes t' !! p = Some (node_without n pd) /\
  pruned t t' /\ (forall m, is_Some (nodes t !! m) -> nodes t' !! m = None -> m = n).
Proof.
  intros Ht Hn Hp Hpd Hpn t'. assert (tree_but (if PTree.is_leaf (node_without n pd) then Some p else None) t') as Ht'.
  { unfold tree_but, shapes, t', detached, set_nodes. cbn. rewrite fmap_delete, fmap_insert, shape_without.
    pose proof (shape_detach _ (shapes t) _ n _ p _ Ht (shapes_lookup _ _ _ Hn) Hp (shapes_lookup _ _ _ Hpd)) as H. rewrite <- shape_without in H.
    unfold PTree.is_leaf. cbn in H. rewrite shape_without in H. destruct (decide _) as [[E1 E2]|E] in H.
    - rewrite !bool_decide_eq_true_2 by done. exact H.
    - destruct (_ && _) eqn:El; [|exact H]. apply andb_true_iff in El as [E1%bool_decide_eq_true E2%bool_decide_eq_true]. by destruct E. }
  assert (nodes t' !! p = Some (node_without n pd)) as Hp' by (cbn; by rewrite lookup_delete_ne, lookup_insert_eq).
  split_and!; [done|done|..].
  - intros m md' Hm'. assert (exists md, nodes t !! m = Some md /\ parent md' = parent md /\ state md' = state md /\ m <> n /\ (m <> p -> md' = md)) as (md & Hm & E1 & E2 & Hmn & Hmp).
    { cbn in Hm'. apply lookup_delete_Some in Hm' as [? H]. destruct (decide (m = p)) as [-> |Hne].
      - rewrite lookup_insert_eq in H. injection H as <-. exists pd. unfold node_without. case_decide; by split_and!.
      - rewrite lookup_insert_ne in H by done. by exists md'. }
    split; [|by exists md]. destruct (parent md) as [q|] eqn:Eq.
    + destruct (decide (q = p)) as [-> |Hqp].
      * apply (tag_by_parent _ _ t t' m md p pd _ Ht Ht' Hm Eq Hpd Hp'); unfold node_without; case_decide; try done; [congruence|].
        intros Hr. destruct (child_is _ t p pd n nd Ht Hpd Hn Hp); congruence.
      * eapply tag_ext; [done..|congruence|]. rewrite Eq. assert (q <> n).
        { intros ->. by apply (no_parent_loose _ t n nd m md Ht Hn (loose_leaf t n nd Ht Hn) Hm). }
        cbn. by rewrite lookup_delete_ne, lookup_insert_ne.
    + eapply tag_ext; [done..|congruence|]. by rewrite Eq.
  - intros m [md Hm] H. cbn in H. destruct (decide (m = n)); [done|]. rewrite lookup_delete_ne in H by done.
    destruct (decide (m = p)) as [-> |Hne]; [by rewrite lookup_insert_eq in H|]. rewrite lookup_insert_ne in H by done. congruence.
Qed.

Definition node_deeper (t : PTree) (depth : positive -> nat) : Prop :=
  forall n nd p, nodes t !! n = Some nd -> parent nd = Some p -> (depth p < depth n)%nat.

Lemma tree_depth z t : tree_but z t -> exists depth, node_deeper t depth.
Proof.
  intros Ht. destruct (sh_depth _ _ _ _ Ht) as [d Hd]. exists d. intros n nd p Hn Hp. by apply (Hd n _ p (shapes_lookup _ _ _ Hn)).
Qed.

Lemma pruned_deeper t t' depth : pruned t t' -> node_deeper t depth -> node_deeper t' depth.
Proof. intros Hp Hd n nd' p Hn E. destruct (Hp n nd' Hn) as (_ & nd & Hn' & Ep & _). apply (Hd n nd p); congruence. Qed.

(** A root without children is the only node. *)
Lemma root_alone t n nd : tree_but (Some n) t -> nodes t !! n = Some nd -> parent nd = None -> forall m, is_Some (nodes t !! m) -> m = n.
Proof.
  intros Ht Hn Hr. destruct (tree_depth _ t Ht) as [d Hd]. intros m. remember (d m) as k eqn:Ek. revert m Ek.
  induction k as [k IH] using lt_wf_ind. intros m -> [md Hm]. destruct (parent md) as [p|] eqn:Ep.
  - destruct (parent_exists _ t m md p Ht Hm Ep) as (pd & Hp & _). assert (p = n) as ->; [|by destruct (no_parent_loose _ t n nd m md Ht Hn (loose_leaf t n nd Ht Hn) Hm)].
    eapply (IH (d p)); [by eapply Hd|done|by eexists].
  - pose proof (sh_top _ _ _ _ Ht m _ (shapes_lookup _ _ _ Hm) Ep) as E1. pose proof (sh_top _ _ _ _ Ht n _ (shapes_lookup _ _ _ Hn) Hr) as E2. congruence.
Qed.

(** Nobody who holds no state of the leaf owns it. *)
Lemma loose_not_ours b t n nd C : tree_but (Some n) t -> nodes t !! n = Some nd -> owns b t C -> (forall s, state nd = Some s -> s ∉ C) -> ~ ours b t n.
Proof.
  intros Ht Hn Ho Hs. rewrite (Ho n nd Hn). unfold leads. destruct (state nd) as [s|]; [by apply Hs|].
  intros (c & cd & Hc & Hp & _). by apply (no_parent_loose _ t n nd c cd Ht Hn (loose_leaf t n nd Ht Hn) Hc).
Qed.

Lemma node_without_state n pd : state (node_without n pd) = state pd.
Proof. unfold node_without. by case_decide. Qed.

Lemma detach_removed t n nd p pd : tree_but (Some n) t -> nodes t !! n = Some nd -> parent nd = Some p -> nodes t !! p = Some pd -> p <> n ->
  (forall m md s, nodes t !! m = Some md -> state md = Some s -> state nd = Some s -> m = n) ->
  let t' := detached t n p pd in
  pruned t t' /\ (forall x, live t' x <-> live t x /\ state nd <> Some x) /\
  (forall b C, owns b t C -> (forall x, state nd = Some x -> x ∉ C) -> owns b t' C).
Proof.
  intros Ht Hn Hp Hpd Hpn Huniq t'. destruct (detach_ok t n nd p pd Ht Hn Hp Hpd Hpn) as (_ & Hp' & Hpr & Hgone).
  split_and!; [done|..].
  - intros x. split.
    + intros (m & md' & Hm & Hx). destruct (Hpr m md' Hm) as (_ & md & Hm0 & _ & Es). split; [exists m, md; split; [done|congruence]|].
      intros Hs. rewrite Hx in Es. assert (m = n) as -> by by eapply Huniq. cbn in Hm. by rewrite lookup_delete_eq in Hm.
    + intros [(m & md & Hm & Hx) Hs]. destruct (nodes t' !! m) as [md'|] eqn:Hm'.
      * destruct (Hpr m md' Hm') as (_ & md0 & Hm0 & _ & Es). exists m, md'. split; [done|congruence].
      * assert (m = n) as -> by (apply Hgone; [by eexists|done]). congruence.
  - intros b C Ho Hs. eapply pruned_owns; [done| |done]. intros m Hm Hm'. rewrite (Hgone m Hm Hm'). by eapply loose_not_ours.
Qed.

Lemma loose_unique z t n nd s m md : tree_but z t -> nodes t !! n = Some nd -> state nd = Some s -> nodes t !! m = Some md -> state md = Some s -> m = n.
Proof.
  intros Ht Hn Hs Hm Hs'. pose proof (sh_known _ _ _ _ Ht n _ s (shapes_lookup _ _ _ Hn) Hs).
  pose proof (sh_known _ _ _ _ Ht m _ s (shapes_lookup _ _ _ Hm) Hs'). congruence.
Qed.

(** One round of the loop. *)
Lemma remove_loop_step t n nd p : tree_but (Some n) t -> nodes t !! n = Some nd -> parent nd = Some p ->
  exists pd, nodes t !! p = Some pd /\ p <> n /\ forall fuel, let t' := detached t n p pd in
    PTree.remove_loop (S fuel) n t = if PTree.is_leaf (node_without n pd) then PTree.remove_loop fuel p t' else Done (Some p, t').
Proof.
  intros Ht Hn Ep. destruct (detach_run t n nd p Ht Hn Ep) as (pd & c & Hpd & Hpn & Ec & Ev & Ew).
  destruct (detach_ok t n nd p pd Ht Hn Ep Hpd Hpn) as (_ & Hp' & _). exists pd. split_and!; [done..|].
  intros fuel t'. cbn [PTree.remove_loop]. rewrite Hn. cbn [deref mbind outcome_bind]. rewrite Ep, Ec. cbn [mbind outcome_bind]. rewrite Ev. cbn [mbind outcome_bind getPointer].
  rewrite bool_decide_eq_true_2 by done. rewrite Ew. cbn [mbind outcome_bind].
  change (set_nodes (delete n (nodes (set_nodes (<[p:=node_without n pd]> (nodes t)) t))) (set_nodes (<[p:=node_without n pd]> (nodes t)) t)) with t'.
  fold t' in Hp'. by rewrite Hp'.
Qed.

(** The loop ends at a node with one child, if there is another state. *)
Lemma remove_loop_ok depth k t n nd : node_deeper t depth -> (depth n < k)%nat -> tree_but (Some n) t -> nodes t !! n = Some nd ->
  (exists x, live t x /\ state nd <> Some x) ->
  exists p t', (forall fuel, (k <= fuel)%nat -> PTree.remove_loop fuel n t = Done (Some p, t')) /\ tree_ok t' /\
    (exists pd, nodes t' !! p = Some pd /\ PTree.is_leaf pd = false /\ (getPointer (left pd) = None \/ getPointer (right pd) = None)) /\
    pruned t t' /\ (forall x, live t' x <-> live t x /\ state nd <> Some x) /\
    (forall b C, owns b t C -> (forall x, state nd = Some x -> x ∉ C) -> owns b t' C).
Proof.
  revert t n nd. induction k as [|k IH]; [lia|]. intros t n nd Hd Hk Ht Hn Hx.
  destruct (parent nd) as [p|] eqn:Ep.
  2:{ destruct Hx as (x & (m & md & Hm & Hxm) & Hne). assert (m = n) as -> by (eapply root_alone; by eauto). congruence. }
  destruct (remove_loop_step t n nd p Ht Hn Ep) as (pd & Hpd & Hpn & Erun).
  destruct (detach_ok t n nd p pd Ht Hn Ep Hpd Hpn) as (Ht' & Hp' & Hpr & Hgone).
  destruct (detach_removed t n nd p pd Ht Hn Ep Hpd Hpn) as (_ & Hlive & Hown); [intros m md s Hm Hs Hs'; by apply (loose_unique _ t n nd s m md Ht Hn Hs')|].
  set (t' := detached t n p pd) in *.
  destruct (PTree.is_leaf (node_without n pd)) eqn:El.
  - assert (state (node_without n pd) = None) as Es.
    { rewrite node_without_state. destruct (parent_exists _ t n nd p Ht Hn Ep) as (pd' & Hpd' & [[= E]|E]); congruence. }
    assert (depth p < depth n)%nat as Hdp by by eapply Hd.
    destruct (IH t' p _ ltac:(by eapply pruned_deeper) ltac:(lia) Ht' Hp') as (q & t2 & E & Ht2 & Hq & Hpr2 & Hl2 & Ho2).
    { destruct Hx as (x & Hx & Hne). exists x. rewrite Hlive, Es. done. }
    exists q, t2. split_and!; [|done|done|by etrans|..].
    + intros [|fuel] Hf; [lia|]. rewrite Erun. apply E. lia.
    + intros x. rewrite Hl2, Hlive, Es. naive_solver.
    + intros b C Ho Hs. apply Ho2; [by apply Hown|]. by rewrite Es.
  - exists p, t'. split_and!; [|done| |done|done|done].
    + intros [|fuel] Hf; [lia|]. apply Erun.
    + eexists. split_and!; [done|done|]. unfold node_without. case_decide; [by left|by right].
Qed.

(** There is a leaf. *)
Lemma tree_inhabited t : tree_ok t -> exists x, live t x.
Proof.
  intros Ht. destruct (tree_depth _ t Ht) as [d Hd].
  assert (forall k, (exists x, live t x) \/ exists n nd, nodes t !! n = Some nd /\ (k <= d n)%nat) as Hdeep.
  { induction k as [|k [IH|(n & nd & Hn & Hk)]]; [|by left|].
    - destruct (sh_root _ _ _ _ Ht) as (n & sd & _ & Hn & _). apply shapes_inv in Hn as (nd & Hn & _). right. exists n, nd. split; [done|lia].
    - destruct (state nd) as [s|] eqn:Es; [left; by exists s, n, nd|]. right.
      assert (exists c cd, nodes t !! c = Some cd /\ parent cd = Some n) as (c & cd & Hc & Hp).
      { destruct (getPointer (left nd)) as [c|] eqn:El; [destruct (left_child _ t n nd c Ht Hn El) as (_ & cd & ? & ?); by exists c, cd|].
        destruct (getPointer (right nd)) as [c|] eqn:Er; [destruct (right_child _ t n nd c Ht Hn Er) as (_ & cd & ? & ?); by exists c, cd|].
        destruct (proj2 (sh_leaf _ _ _ _ Ht n _ (shapes_lookup _ _ _ Hn) ltac:(done))) as [y Hy]; [done|]. cbn in Hy. congruence. }
      exists c, cd. split; [done|]. specialize (Hd c cd n Hc Hp). lia. }
  destruct (Hdeep (S (max_list (d <$> elements (dom (nodes t)))))) as [|(n & nd & Hn & Hk)]; [done|].
  assert (d n <= max_list (d <$> elements (dom (nodes t))))%nat; [|lia]. apply max_list_elem_of_le, list_elem_of_fmap_2, elem_of_elements, elem_of_dom. by eexists.
Qed.

(** Without another state the loop removes everything. *)
Lemma remove_loop_last depth k t n nd : node_deeper t depth -> (depth n < k)%nat -> tree_but (Some n) t -> nodes t !! n = Some nd ->
  (forall x, live t x -> state nd = Some x) ->
  exists t', (forall fuel, (k <= fuel)%nat -> PTree.remove_loop fuel n t = Done (None, t')) /\ forall x, ~ live t' x.
Proof.
  revert t n nd. induction k as [|k IH]; [lia|]. intros t n nd Hd Hk Ht Hn Hx.
  destruct (parent nd) as [p|] eqn:Ep.
  2:{ eexists. split; [intros [|fuel] Hf; [lia|]; cbn [PTree.remove_loop]; rewrite Hn; cbn [deref mbind outcome_bind]; by rewrite Ep|].
      intros x (m & md & Hm & Hs). cbn in Hm. apply lookup_delete_Some in Hm as [Hne Hm]. apply Hne. symmetry.
      eapply (loose_unique _ t n nd x m md); try done. apply Hx. by exists m, md. }
  destruct (remove_loop_step t n nd p Ht Hn Ep) as (pd & Hpd & Hpn & Erun).
  destruct (detach_ok t n nd p pd Ht Hn Ep Hpd Hpn) as (Ht' & Hp' & Hpr & Hgone).
  destruct (detach_removed t n nd p pd Ht Hn Ep Hpd Hpn) as (_ & Hlive & _); [intros m md s Hm Hs Hs'; by apply (loose_unique _ t n nd s m md Ht Hn Hs')|].
  set (t' := detached t n p pd) in *. assert (forall x, ~ live t' x) as Hno by (intros x [? []]%Hlive; auto).
  destruct (PTree.is_leaf (node_without n pd)) eqn:El; [|by destruct (tree_inhabited t' Ht') as [x []%Hno]].
  assert (depth p < depth n)%nat as Hdp by by eapply Hd.
  destruct (IH t' p _ ltac:(by eapply pruned_deeper) ltac:(lia) Ht' Hp') as (t2 & E & H2); [by intros x []%Hno|].
  exists t2. split; [|done]. intros [|fuel] Hf; [lia|]. rewrite Erun. apply E. lia.
Qed.

(** ** Compression *)

Lemma one_child t n nd : tree_ok t -> nodes t !! n = Some nd -> PTree.is_leaf nd = false -> (getPointer (left nd) = None \/ getPointer (right nd) = None) ->
  exists c cd, (if bool_decide (is_Some (getPointer (left nd))) then left nd else right nd) = MkPtr (Some c) (tag t c) /\
    nodes t !! c = Some cd /\ parent cd = Some n /\
    ((getPointer (left nd) = Some c /\ getPointer (right nd) = None) \/ (getPointer (left nd) = None /\ getPointer (right nd) = Some c)).
Proof.
  unfold PTree.is_leaf. intros Ht Hn Hl Hone. destruct (getPointer (left nd)) as [c|] eqn:El.
  - destruct Hone as [|Hr]; [done|]. destruct (left_child _ t n nd c Ht Hn El) as (E & cd & ? & ?). exists c, cd.
    rewrite bool_decide_eq_true_2 by done. split_and!; auto.
  - destruct (getPointer (right nd)) as [c|] eqn:Er; [|done]. destruct (right_child _ t n nd c Ht Hn Er) as (E & cd & ? & ?). exists c, cd.
    rewrite bool_decide_eq_false_2 by (by intros []). split_and!; auto.
Qed.

Definition node_replace (n : positive) (v : PTreeNodePtr) (p : PTreeNode) : PTreeNode :=
  if decide (getPointer (left p) = Some n) then with_left v p else with_right v p.

Definition compressed (t : PTree) (n : positive) (nd : PTreeNode) (c : positive) (cd : PTreeNode) : PTree :=
  let v := MkPtr (Some c) (tag t c) in
  let h := <[c := with_parent (parent nd) cd]> (nodes t) in
  match parent nd with
  | None => MkPTree (registeredIds t) v (delete n h) (ptreeNode t)
  | Some g => set_nodes (delete n (alter (node_replace n v) g h)) t
  end.

Lemma compress_run t n nd c cd : tree_ok t -> nodes t !! n = Some nd -> nodes t !! c = Some cd -> parent cd = Some n ->
  (if bool_decide (is_Some (getPointer (left nd))) then left nd else right nd) = MkPtr (Some c) (tag t c) ->
  PTree.compress n t = Done (compressed t n nd c cd).
Proof.
  intros Ht Hn Hc Hcp E. unfold PTree.compress, compressed. rewrite Hn. cbn [deref mbind outcome_bind]. rewrite E. cbn [deref mbind outcome_bind getPointer].
  rewrite Hc. cbn [deref mbind outcome_bind]. destruct (parent nd) as [g|] eqn:Eg; [|done].
  destruct (tree_depth _ t Ht) as [d Hd]. pose proof (Hd n nd g Hn Eg). pose proof (Hd c cd n Hc Hcp).
  destruct (parent_exists _ t n nd g Ht Hn Eg) as (gd & Hg & _). assert (nodes (set_nodes (<[c:=with_parent (Some g) cd]> (nodes t)) t) !! g = Some gd) as Hg1.
  { cbn. rewrite lookup_insert_ne; [done|]. intros ->. lia. }
  destruct (node_place _ t n nd Ht Hn) as (Ec & Ev & _). rewrite Eg in Ec. cbn in Ec. rewrite Hg in Ec. cbn in Ec.
  cbn [slot_of]. rewrite Hg1. cbn [deref mbind outcome_bind]. injection Ec as Ec. rewrite <- Ec in Ev.
  cbn [nodes set_nodes] in *.
  assert (forall f, <[g := f gd]> (<[c := with_parent (Some g) cd]> (nodes t)) = alter f g (<[c := with_parent (Some g) cd]> (nodes t))) as Ealt.
  { intros f. apply map_eq. intros k. rewrite lookup_alter, lookup_insert. case_decide; subst; by rewrite ?Hg1. }
  destruct (decide (getPointer (left gd) = Some n)) as [El|El]; cbn [read_slot write_slot nodes set_nodes] in *; rewrite Hg1; rewrite Hg in Ev; cbn in Ev |- *;
    injection Ev as Ev; rewrite Ev; rewrite bool_decide_eq_true_2 by done; unfold set_nodes; cbn; do 3 f_equal; rewrite <- Ealt; unfold node_replace; by case_decide.
Qed.

Lemma compressed_lookup t n nd c cd k : tree_ok t -> nodes t !! n = Some nd -> nodes t !! c = Some cd -> parent cd = Some n ->
  nodes (compressed t n nd c cd) !! k =
    if decide (k = n) then None else if decide (k = c) then Some (with_parent (parent nd) cd)
    else if decide (parent nd = Some k) then node_replace n (MkPtr (Some c) (tag t c)) <$> nodes t !! k else nodes t !! k.
Proof.
  intros Ht Hn Hc Hcp. destruct (tree_depth _ t Ht) as [d Hd]. unfold compressed. destruct (parent nd) as [g|] eqn:Eg; cbn.
  - pose proof (Hd n nd g Hn Eg). pose proof (Hd c cd n Hc Hcp). rewrite lookup_delete, lookup_alter, lookup_insert.
    repeat case_decide; simplify_eq; try done; try lia; by simplify_map_eq.
  - rewrite lookup_delete, lookup_insert. repeat case_decide; simplify_eq; done.
Qed.

Lemma compressed_shapes t n nd c cd k : tree_ok t -> nodes t !! n = Some nd -> nodes t !! c = Some cd -> parent cd = Some n ->
  shapes (compressed t n nd c cd) !! k = sh_compressed (shapes t) n (shape nd) c (shape cd) k.
Proof.
  intros Ht Hn Hc Hcp. unfold shapes. rewrite lookup_fmap, (compressed_lookup t n nd c cd k Ht Hn Hc Hcp). unfold sh_compressed. cbn [sh_parent shape].
  rewrite lookup_fmap. repeat case_decide; try done. destruct (nodes t !! k) as [gd|]; [|done]. cbn. f_equal.
  unfold node_replace, sh_replace. cbn. by case_decide.
Qed.

Lemma compress_ok t n nd c cd : tree_ok t -> nodes t !! n = Some nd -> nodes t !! c = Some cd -> parent cd = Some n ->
  (getPointer (left nd) = Some c /\ getPointer (right nd) = None) \/ (getPointer (left nd) = None /\ getPointer (right nd) = Some c) ->
  let t' := compressed t n nd c cd in
  tree_ok t' /\ (forall m, is_Some (nodes t' !! m) -> m <> n /\ tag t' m = tag t m) /\
  (forall x, live t' x <-> live t x) /\ (forall b C, owns b t C -> owns b t' C).
Proof.
  intros Ht Hn Hc Hcp Hone t'. pose proof (fun k => compressed_lookup t n nd c cd k Ht Hn Hc Hcp) as Hlook. fold t' in Hlook.
  destruct (tree_depth _ t Ht) as [d Hd].
  assert (tree_ok t') as Ht'.
  { pose proof (shape_compress _ _ (shapes t') _ n _ c _ Ht (shapes_lookup _ _ _ Hn) (shapes_lookup _ _ _ Hc) Hone
      (fun k => compressed_shapes t n nd c cd k Ht Hn Hc Hcp)) as H. unfold tree_but. cbn in H. unfold t', compressed in *. destruct (parent nd); exact H. }
  assert (c <> n) as Hcn. { intros ->. pose proof (Hd n cd n Hc Hcp). lia. }
  assert (parent nd <> Some c) as Hgc. { intros E. pose proof (Hd n nd c Hn E). pose proof (Hd c cd n Hc Hcp). lia. }
  assert (parent nd <> Some n) as Hgn. { intros E. pose proof (Hd n nd n Hn E). lia. }
  assert (state nd = None) as Hns.
  { destruct (state nd) as [x|] eqn:E; [|done]. destruct (leaf_shape t n nd x Ht Hn E) as (? & ? & _). destruct Hone as [[? ?]|[? ?]]; congruence. }
  (* the nodes that stay *)
  assert (forall k kd', nodes t' !! k = Some kd' -> k <> n /\ exists kd, nodes t !! k = Some kd /\ state kd' = state kd /\
    parent kd' = (if decide (k = c) then parent nd else parent kd) /\ (parent nd <> Some k -> left kd' = left kd /\ right kd' = right kd)) as Hinv.
  { intros k kd'. rewrite Hlook. case_decide as E1; [done|]. intros Hk. split; [done|]. destruct (decide (k = c)) as [-> |E2].
    - injection Hk as <-. by exists cd.
    - case_decide as E3; [|by exists kd']. apply fmap_Some in Hk as (kd & Hkd & ->). exists kd. unfold node_replace. case_decide; by split_and!. }
  assert (forall k kd, nodes t !! k = Some kd -> k <> n -> is_Some (nodes t' !! k)) as Hkeep.
  { intros k kd Hk Hkn. rewrite Hlook, decide_False by done. case_decide; [by eexists|]. rewrite Hk. case_decide; by eexists. }
  assert (forall m, is_Some (nodes t' !! m) -> m <> n /\ tag t' m = tag t m) as Htag.
  { intros m [md' Hm']. destruct (Hinv m md' Hm') as (Hmn & md & Hm & _ & Ep & _). split; [done|]. destruct (decide (m = c)) as [-> |Hmc].
    - destruct (parent nd) as [g|] eqn:Eg.
      + destruct (parent_exists _ t n nd g Ht Hn Eg) as (gd & Hg & _). assert (nodes t' !! g = Some (node_replace n (MkPtr (Some c) (tag t c)) gd)) as Hg'.
        { rewrite Hlook, !decide_False by congruence. by rewrite decide_True, Hg. }
        unfold node_replace in Hg'. case_decide.
        * destruct (left_child _ t' g _ c Ht' Hg' eq_refl) as [El _]. cbn in El. congruence.
        * destruct (right_child _ t' g _ c Ht' Hg' eq_refl) as [El _]. cbn in El. congruence.
      + unfold tag at 1, node_slot. rewrite (shapes_lookup _ _ _ Hm'). cbn. rewrite Ep. cbn. unfold t', compressed. by rewrite Eg.
    - destruct (parent md) as [p|] eqn:Epm.
      + assert (p <> n). { intros ->. destruct (child_is _ t n nd m md Ht Hn Hm Epm), Hone as [[? ?]|[? ?]]; congruence. }
        destruct (parent_exists _ t m md p Ht Hm Epm) as (pd & Hpd & _). destruct (Hkeep p pd Hpd) as [pd' Hpd']; [done|].
        apply (tag_by_parent _ _ t t' m md p pd pd' Ht Ht' Hm Epm Hpd Hpd').
        * intros El. revert Hpd'. rewrite Hlook, decide_False by done. case_decide as E2; [subst p; assert (pd = cd) as -> by congruence; by intros <-%(inj Some)|].
          case_decide as E3; [|congruence]. rewrite Hpd. intros <-%(inj Some). unfold node_replace. rewrite decide_False; [done|congruence].
        * intros Er. revert Hpd'. rewrite Hlook, decide_False by done. case_decide as E2; [subst p; assert (pd = cd) as -> by congruence; by intros <-%(inj Some)|].
          case_decide as E3; [|congruence]. rewrite Hpd. intros <-%(inj Some). unfold node_replace. case_decide; [done|].
          destruct (child_is _ t p pd n nd Ht Hpd Hn E3); congruence.
      + destruct (parent nd) as [g|] eqn:Eg.
        * eapply tag_ext; [done..| |]; rewrite Epm, ?Ep, ?decide_False by done; [done|]. unfold t', compressed. by rewrite Eg.
        * exfalso. pose proof (sh_top _ _ _ _ Ht m _ (shapes_lookup _ _ _ Hm) Epm). pose proof (sh_top _ _ _ _ Ht n _ (shapes_lookup _ _ _ Hn) Eg). congruence. }
  split_and!; [done|done|..].
  - intros x. split.
    + intros (k & kd' & Hk & Hx). destruct (Hinv k kd' Hk) as (_ & kd & Hkd & Es & _). exists k, kd. split; [done|congruence].
    + intros (k & kd & Hk & Hx). destruct (Hkeep k kd Hk) as [kd' Hk']; [congruence|]. destruct (Hinv k kd' Hk') as (_ & kd0 & Hkd & Es & _).
      exists k, kd'. split; [done|congruence].
  - intros b C Ho k kd' Hk. destruct (Hinv k kd' Hk) as (Hkn & kd & Hkd & Es & _). unfold ours. rewrite (proj2 (Htag k ltac:(by eexists))), (Ho k kd Hkd : ours b t k <-> _).
    unfold leads. rewrite Es. destruct (state kd); [done|].
    assert (ours b t n <-> ours b t c) as Hnc.
    { rewrite (Ho n nd Hn). unfold leads. rewrite Hns. split.
      - intros (y & yd & Hy & Hyp & Hyo). destruct (child_is _ t n nd y yd Ht Hn Hy Hyp), Hone as [[? ?]|[? ?]]; congruence.
      - intros Hco. by exists c, cd. }
    split.
    + intros (y & yd & Hy & Hyp & Hyo). assert (exists z zd, z <> n /\ nodes t !! z = Some zd /\ ours b t z /\ (if decide (z = c) then parent nd else parent zd) = Some k) as (z & zd & Hzn & Hz & Hzo & Hzp).
      { destruct (decide (y = n)) as [-> |Hyn].
        - exists c, cd. rewrite decide_True by done. split_and!; [done|done|by apply Hnc|congruence].
        - exists y, yd. rewrite decide_False; [done|]. intros ->. congruence. }
      destruct (Hkeep z zd Hz Hzn) as [zd' Hz']. exists z, zd'. destruct (Hinv z zd' Hz') as (_ & zd0 & Hz0 & _ & Ep & _).
      split_and!; [done|destruct (decide (z = c)); congruence|]. unfold ours. rewrite (proj2 (Htag z ltac:(by eexists))). done.
    + intros (y & yd' & Hy & Hyp & Hyo). destruct (Hinv y yd' Hy) as (Hyn & yd & Hyd & _ & Ep & _). unfold ours in Hyo.
      rewrite (proj2 (Htag y ltac:(by eexists))) in Hyo. destruct (decide (y = c)) as [-> |Hyc]; [exists n, nd; split_and!; [done|congruence|by apply Hnc]|].
      exists y, yd. split_and!; [done|congruence|done].
Qed.

(** Removing a state, when another one is left. *)
Lemma tree_remove_ok {PO : PTreeOptions} t n nd s : tree_ok t -> nodes t !! n = Some nd -> state nd = Some s -> (exists x, live t x /\ x <> s) ->
  exists t', eventually (fun fuel => PTree.remove fuel n t) t' /\ tree_ok t' /\ (forall x, live t' x <-> live t x /\ x <> s) /\
    forall b C, owns b t C -> s ∉ C -> owns b t' C.
Proof.
  intros Ht Hn Hs (x & Hx & Hxs). destruct (tree_depth _ t Ht) as [d Hd].
  pose proof (shape_loosen _ _ _ n _ Ht (shapes_lookup _ _ _ Hn) (ltac:(by exists s) : is_Some (sh_state (shape nd)))) as Hz.
  destruct (remove_loop_ok d (S (d n)) t n nd Hd ltac:(lia) Hz Hn) as (p & t1 & Erun & Ht1 & (pd & Hp & Hl & Hone) & _ & Hlive & Hown).
  { exists x. split; [done|congruence]. }
  assert (forall fuel, PTree.remove fuel n t = '(m, t) ← PTree.remove_loop fuel n t; match m with Some m => if CompressProcessTree then PTree.compress m t else Done t | None => Done t end) as E.
  { intros fuel. unfold PTree.remove. rewrite Hn. cbn [deref mbind outcome_bind]. by rewrite (loose_leaf t n nd Hz Hn). }
  assert (forall y, live t1 y <-> live t y /\ y <> s) as Hlive1 by (intros y; rewrite Hlive, Hs; naive_solver).
  assert (forall b C, owns b t C -> s ∉ C -> owns b t1 C) as Hown1 by (intros b C Ho Hi; apply Hown; [done|]; rewrite Hs; naive_solver).
  destruct CompressProcessTree eqn:Eo.
  - destruct (one_child t1 p pd Ht1 Hp Hl Hone) as (c & cd & Ec & Hc & Hcp & Hside).
    destruct (compress_ok t1 p pd c cd Ht1 Hp Hc Hcp Hside) as (Ht2 & _ & Hl2 & Ho2). exists (compressed t1 p pd c cd). split_and!; [|done|..].
    + exists (S (d n)). intros fuel Hf. rewrite E, Erun by lia. cbn [mbind outcome_bind]. by apply compress_run.
    + intros y. by rewrite Hl2.
    + intros b C Ho Hi. by apply Ho2, Hown1.
  - exists t1. split_and!; [|done..]. exists (S (d n)). intros fuel Hf. rewrite E, Erun by lia. done.
Qed.

(** Removing the last state. *)
Lemma tree_remove_last {PO : PTreeOptions} t n nd s : tree_ok t -> nodes t !! n = Some nd -> state nd = Some s -> (forall x, live t x -> x = s) ->
  exists t', eventually (fun fuel => PTree.remove fuel n t) t' /\ forall x, ~ live t' x.
Proof.
  intros Ht Hn Hs Hx. destruct (tree_depth _ t Ht) as [d Hd].
  pose proof (shape_loosen _ _ _ n _ Ht (shapes_lookup _ _ _ Hn) (ltac:(by exists s) : is_Some (sh_state (shape nd)))) as Hz.
  destruct (remove_loop_last d (S (d n)) t n nd Hd ltac:(lia) Hz Hn) as (t1 & Erun & Hno); [intros x Hl; by rewrite (Hx x Hl)|].
  exists t1. split; [|done]. exists (S (d n)). intros fuel Hf. unfold PTree.remove. rewrite Hn. cbn [deref mbind outcome_bind].
  rewrite (loose_leaf t n nd Hz Hn). cbn [mbind outcome_bind]. by rewrite Erun.
Qed.

(** Forking: the tags of the old state go with it, the new state is nobody's yet. *)
Lemma attach_owns t n nd a b s' s i C : tree_ok t -> nodes t !! n = Some nd -> state nd = Some s -> ~ live t s' ->
  nodes t !! a = None -> nodes t !! b = None -> a <> b -> s' ∉ C -> owns i t C -> owns i (attached t n nd a b s' s) C.
Proof.
  intros Ht Hn Hs Hs' Ha Hb Hab HC Ho. destruct (attach_ok t n nd a b s' s Ht Hn Hs Hs' Ha Hb Hab) as (Ht' & Htag & Hta & Htb & _).
  assert (forall k kd, nodes t !! k = Some kd -> parent kd <> Some n) as Hpar.
  { intros k kd Hk. destruct (leaf_shape t n nd s Ht Hn Hs) as (El & Er & _). apply (no_parent_loose _ t n nd k kd Ht Hn); [|done].
    unfold PTree.is_leaf. by rewrite El, Er. }
  set (t' := attached t n nd a b s' s) in *. intros k kd Hk. unfold leads, ours.
  assert (forall j, nodes t' !! j = <[n := MkNode (parent nd) (MkPtr (Some a) 0) (MkPtr (Some b) (tag t n)) None]> (<[b := MkNode (Some n) null_ptr null_ptr (Some s)]>
       (<[a := MkNode (Some n) null_ptr null_ptr (Some s')]> (nodes t))) !! j) as E by done. clearbody t'.
  assert (n <> a /\ n <> b) as [Hna Hnb] by (split; congruence). rewrite E in Hk. by_node; cbn.
  - rewrite Htag by (by eexists). rewrite (Ho n nd Hn : ours i t n <-> _). unfold leads, ours. rewrite Hs. split.
    + intros Hi. exists b. eexists. rewrite E, lookup_insert_ne, lookup_insert_eq by done. split_and!; [done..|]. rewrite Htb.
      apply (Ho n nd Hn). unfold leads. by rewrite Hs.
    + intros (c & cd & Hc & Hcp & Hco). rewrite E in Hc. by_node.
      * exfalso. pose proof (sh_depth _ _ _ _ Ht) as [d Hd]. pose proof (Hd n _ n (shapes_lookup _ _ _ Hn) Hcp). lia.
      * rewrite Htb in Hco. apply (Ho n nd Hn) in Hco. unfold leads in Hco. by rewrite Hs in Hco.
      * by rewrite Hta, Z.bits_0 in Hco.
      * by apply Hpar in Hc.
  - rewrite Htb. rewrite (Ho n nd Hn : ours i t n <-> _). unfold leads. by rewrite Hs.
  - rewrite Hta, Z.bits_0. done.
  - rewrite Htag by (by eexists). rewrite (Ho k kd Hk : ours i t k <-> _). unfold leads, ours. destruct (state kd); [done|]. split.
    + intros (c & cd & Hc & Hcp & Hco). assert (exists cd', nodes t' !! c = Some cd' /\ parent cd' = parent cd) as (cd' & Hc' & Ep).
      { rewrite E. destruct (decide (c = n)) as [-> |]; [rewrite lookup_insert_eq; eexists; split; [done|]; cbn; congruence|].
        rewrite !lookup_insert_ne by congruence. by exists cd. }
      exists c, cd'. split_and!; [done|congruence|]. rewrite Htag by (by eexists). done.
    + intros (c & cd & Hc & Hcp & Hco). rewrite E in Hc. by_node; try congruence.
      * exists n, nd. split_and!; [done|done|]. rewrite Htag in Hco by (by eexists). done.
      * exists c, cd. split_and!; [done|done|]. rewrite Htag in Hco by (by eexists). done.
Qed.

Section Searcher.
Context (i : Z) (Hi : 0 <= i).

(** The searcher's mask: [getNextId] gives the powers of two. *)
Abbreviation mask := (2 ^ i).

Lemma land_bit x : (Z.land x mask =? 0) = negb (Z.testbit x i).
Proof.
  destruct (Z.testbit x i) eqn:E; cbn.
  - apply Z.eqb_neq. intros H. assert (Z.testbit (Z.land x mask) i = false) as H' by (rewrite H; apply Z.bits_0).
    by rewrite Z.land_spec, E, Z.pow2_bits_true in H' by lia.
  - apply Z.eqb_eq. apply Z.bits_inj'. intros n Hn. rewrite Z.land_spec, Z.bits_0. destruct (decide (n = i)) as [-> |Hne]; [by rewrite E|].
    by rewrite Z.pow2_bits_false, andb_false_r by lia.
Qed.

Abbreviation valid := (RandomPathSearcher.IS_OUR_NODE_VALID mask).

Lemma valid_some c x : valid (MkPtr (Some c) x) = Z.testbit x i.
Proof. unfold RandomPathSearcher.IS_OUR_NODE_VALID. cbn [getPointer getInt]. rewrite land_bit, negb_involutive. by rewrite bool_decide_eq_true_2. Qed.

Lemma valid_none p : getPointer p = None -> valid p = false.
Proof. unfold RandomPathSearcher.IS_OUR_NODE_VALID. intros ->. by rewrite bool_decide_eq_false_2 by (by intros []). Qed.

Lemma valid_left z t n nd : tree_but z t -> nodes t !! n = Some nd ->
  valid (left nd) = true <-> exists c, getPointer (left nd) = Some c /\ ours i t c.
Proof.
  intros Ht Hn. destruct (getPointer (left nd)) as [c|] eqn:E.
  - destruct (left_child z t n nd c Ht Hn E) as [-> _]. rewrite valid_some. unfold ours. naive_solver.
  - rewrite (valid_none _ E). naive_solver.
Qed.

Lemma valid_right z t n nd : tree_but z t -> nodes t !! n = Some nd ->
  valid (right nd) = true <-> exists c, getPointer (right nd) = Some c /\ ours i t c.
Proof.
  intros Ht Hn. destruct (getPointer (right nd)) as [c|] eqn:E.
  - destruct (right_child z t n nd c Ht Hn E) as [-> _]. rewrite valid_some. unfold ours. naive_solver.
  - rewrite (valid_none _ E). naive_solver.
Qed.

(** An inner node leads to a state when one of the tests holds. *)
Lemma leads_valid t C n nd : tree_ok t -> nodes t !! n = Some nd -> state nd = None ->
  leads i t C n nd <-> valid (left nd) = true \/ valid (right nd) = true.
Proof.
  intros Ht Hn Hs. rewrite (valid_left None t n nd Ht Hn), (valid_right None t n nd Ht Hn). unfold leads. rewrite Hs. split.
  - intros (c & cd & Hc & Hp & Ho). destruct (child_is None t n nd c cd Ht Hn Hc Hp); [left|right]; by exists c.
  - intros [(c & E & Ho)|(c & E & Ho)]; [destruct (left_child None t n nd c Ht Hn E) as [_ (cd & ? & ?)]|destruct (right_child None t n nd c Ht Hn E) as [_ (cd & ? & ?)]];
      by exists c, cd.
Qed.

(** ** Selection *)

Lemma depth_bound (t : PTree) (d : positive -> nat) : exists D, forall n, is_Some (nodes t !! n) -> (d n <= D)%nat.
Proof.
  induction (nodes t) as [|n nd h Hn IH] using map_ind; [exists O; intros n [? H]; by rewrite lookup_empty in H|].
  destruct IH as [D HD]. exists (d n `max` D)%nat. intros m [md Hm]. apply lookup_insert_Some in Hm as [[<- _]|[_ Hm]]; [lia|].
  pose proof (HD m ltac:(by eexists)). lia.
Qed.

Lemma walk_ok t C d D rng k : tree_ok t -> owns i t C -> node_deeper t d -> (forall n, is_Some (nodes t !! n) -> (d n <= D)%nat) ->
  forall n nd j flips bits, nodes t !! n = Some nd -> ours i t n -> (D < k + d n)%nat ->
  exists s, s ∈ C /\ forall fuel, (k <= fuel)%nat -> RandomPathSearcher.walk mask fuel rng j flips bits n t = Done s.
Proof.
  intros Ht Ho Hd HD. induction k as [|k IH]; intros n nd j flips bits Hn Hour Hk; [specialize (HD n ltac:(by eexists)); lia|].
  pose proof (proj1 (Ho n nd Hn) Hour) as Hl. destruct (state nd) as [s|] eqn:Es.
  { exists s. unfold leads in Hl. rewrite Es in Hl. split; [done|]. intros [|fuel] Hf; [lia|]. cbn [RandomPathSearcher.walk]. rewrite Hn. cbn. by rewrite Es. }
  assert (forall c, getPointer (left nd) = Some c \/ getPointer (right nd) = Some c -> exists cd, nodes t !! c = Some cd /\ (d n < d c)%nat) as Hdown.
  { intros c [E|E]; [destruct (left_child None t n nd c Ht Hn E) as [_ (cd & Hc & Hp)]|destruct (right_child None t n nd c Ht Hn E) as [_ (cd & Hc & Hp)]];
      exists cd; split; [done|by eapply Hd|done|by eapply Hd]. }
  assert (forall p j flips bits, (p = left nd \/ p = right nd) -> valid p = true -> exists c s, getPointer p = Some c /\ c <> n /\ s ∈ C /\
     forall fuel, (k <= fuel)%nat -> RandomPathSearcher.walk mask fuel rng j flips bits c t = Done s) as Hgo.
  { intros p j' flips' bits' Hp Hv. assert (exists c, getPointer p = Some c /\ ours i t c) as (c & Ec & Hc).
    { destruct Hp as [-> | ->]; [by apply (valid_left None t n nd Ht Hn)|by apply (valid_right None t n nd Ht Hn)]. }
    destruct (Hdown c) as (cd & Hcd & Hdc); [destruct Hp as [<- | <-]; auto|].
    destruct (IH c cd j' flips' bits' Hcd Hc ltac:(lia)) as (s & Hs & E). exists c, s. split_and!; [done|intros ->; lia|done|done]. }
  pose proof (proj1 (leads_valid t C n nd Ht Hn Es) Hl) as Hv.
  destruct (valid (left nd)) eqn:El, (valid (right nd)) eqn:Er.
  - set (st := if bits =? 0 then (S j, rng j, 32) else (j, flips, bits)).
    assert (exists s, s ∈ C /\ forall fuel, (k <= fuel)%nat ->
      (m ← deref (getPointer (if Z.testbit st.1.2 (st.2 - 1) then left nd else right nd)); RandomPathSearcher.walk mask fuel rng st.1.1 st.1.2 (st.2 - 1) m t) = Done s) as (s & Hs & E).
    { destruct (Hgo (if Z.testbit st.1.2 (st.2 - 1) then left nd else right nd) st.1.1 st.1.2 (st.2 - 1)) as (c & s & Ec & _ & Hs & E);
        [destruct (Z.testbit _ _); auto|by destruct (Z.testbit _ _)|]. exists s. split; [done|]. intros fuel Hf. rewrite Ec. by apply E. }
    exists s. split; [done|]. intros [|fuel] Hf; [lia|]. cbn [RandomPathSearcher.walk]. rewrite Hn. cbn [deref mbind outcome_bind].
    rewrite Es, El, Er. cbn [negb]. rewrite <- (E fuel) by lia. unfold st. by destruct (bits =? 0).
  - destruct (Hgo (left nd) j flips bits ltac:(by left) El) as (c & s & Ec & Hcn & Hs & E). exists s. split; [done|]. intros [|fuel] Hf; [lia|].
    cbn [RandomPathSearcher.walk]. rewrite Hn. cbn [deref mbind outcome_bind]. rewrite Es, El, Er. cbn [negb]. rewrite Ec, bool_decide_eq_true_2 by congruence. apply E. lia.
  - destruct (Hgo (right nd) j flips bits ltac:(by right) Er) as (c & s & Ec & Hcn & Hs & E). exists s. split; [done|]. intros [|fuel] Hf; [lia|].
    cbn [RandomPathSearcher.walk]. rewrite Hn. cbn [deref mbind outcome_bind]. rewrite Es, El. cbn [negb]. rewrite Er, Ec, bool_decide_eq_true_2 by congruence. apply E. lia.
  - by destruct Hv.
Qed.

(** The nodes above an owned node are owned. *)
Lemma root_ours t C n nd : tree_ok t -> owns i t C -> nodes t !! n = Some nd -> ours i t n ->
  exists r rd, root t = MkPtr (Some r) (tag t r) /\ nodes t !! r = Some rd /\ ours i t r.
Proof.
  intros Ht Ho. destruct (tree_depth _ t Ht) as [d Hd]. remember (d n) as k eqn:Ek. revert n nd Ek. induction k as [k IH] using lt_wf_ind.
  intros n nd -> Hn Hour. destruct (parent nd) as [p|] eqn:Ep.
  - destruct (parent_exists _ t n nd p Ht Hn Ep) as (pd & Hp & [|Hs]); [done|]. eapply (IH (d p)); [by eapply Hd|done|done|].
    apply (Ho p pd Hp). unfold leads. rewrite Hs. by exists n, nd.
  - exists n, nd. split_and!; [|done|done]. destruct (node_place None t n nd Ht Hn) as (_ & _ & E). unfold node_slot in E.
    rewrite (shapes_lookup _ _ _ Hn) in E. cbn in E. by rewrite Ep in E.
Qed.

Lemma held_root t C s : tree_ok t -> owns i t C -> live t s -> s ∈ C -> exists r rd, root t = MkPtr (Some r) (tag t r) /\ nodes t !! r = Some rd /\ ours i t r.
Proof.
  intros Ht Ho (n & nd & Hn & Hs) HC. eapply root_ours; [done..|]. apply (Ho n nd Hn). unfold leads. by rewrite Hs.
Qed.

Lemma selectState_ok t C rng : tree_ok t -> owns i t C -> (forall s, s ∈ C -> live t s) -> C <> [] ->
  exists s, s ∈ C /\ eventually (fun fuel => RandomPathSearcher.selectState mask fuel rng t) s.
Proof.
  intros Ht Ho HC Hne. destruct C as [|s0 C]; [done|]. destruct (held_root t _ s0 Ht Ho (HC s0 ltac:(by left)) ltac:(by left)) as (r & rd & Er & Hr & Hour).
  destruct (tree_depth _ t Ht) as [d Hd]. destruct (depth_bound t d) as [D HD].
  destruct (walk_ok t _ d D rng (S D) Ht Ho Hd HD r rd O 0 0 Hr Hour ltac:(lia)) as (s & Hs & E). exists s. split; [done|].
  exists (S D). intros fuel Hf. unfold RandomPathSearcher.selectState. rewrite Er. cbn [getInt getPointer deref mbind outcome_bind].
  unfold ours in Hour. rewrite land_bit, Hour. cbn. by apply E.
Qed.

Lemma empty_ok t C : tree_ok t -> owns i t C -> (forall s, s ∈ C -> live t s) -> RandomPathSearcher.empty mask t = bool_decide (C = []).
Proof.
  intros Ht Ho HC. unfold RandomPathSearcher.empty. destruct (decide (C = [])) as [-> |Hne].
  - rewrite bool_decide_eq_true_2 by done. apply negb_true_iff. apply not_true_is_false. intros Hv.
    destruct (sh_root _ _ _ _ Ht) as (r & rs & Er & Hr & Hp). destruct (shapes_inv _ _ _ Hr) as (rd & Hrd & ->).
    destruct (node_place None t r rd Ht Hrd) as (_ & _ & E). unfold node_slot in E. rewrite Hr in E. cbn in Hp, E. rewrite Hp in E. cbn in E.
    rewrite E, valid_some in Hv. destruct (tree_depth _ t Ht) as [d Hd]. destruct (depth_bound t d) as [D HD].
    destruct (walk_ok t [] d D (fun _ => 0) (S D) Ht Ho Hd HD r rd O 0 0 Hrd Hv ltac:(lia)) as (s & Hs & _). by apply elem_of_nil in Hs.
  - rewrite bool_decide_eq_false_2 by done. apply negb_false_iff. destruct C as [|s0 C]; [done|].
    destruct (held_root t _ s0 Ht Ho (HC s0 ltac:(by left)) ltac:(by left)) as (r & rd & Er & Hr & Hour). rewrite Er, valid_some. exact Hour.
Qed.

(** ** Updates *)

(** Only tag bits of this searcher differ. *)
Definition same_but_ours (t t' : PTree) : Prop :=
  same_shape t t' /\ forall m j, is_Some (nodes t !! m) -> j <> i -> Z.testbit (tag t' m) j = Z.testbit (tag t m) j.

#[local] Instance same_but_ours_preorder : PreOrder same_but_ours.
Proof.
  split; [by intros t|]. intros t t' t'' [H1 H2] [H3 H4]. split; [by etrans|]. intros m j [md Hm] Hj. rewrite H4, H2; [done|by eexists|done| |done].
  destruct (same_shape_node _ _ m md H1 Hm) as (md' & ? & _). by eexists.
Qed.

Lemma same_parent t t' n nd : same_shape t t' -> nodes t !! n = Some nd -> exists nd', nodes t' !! n = Some nd' /\ parent nd' = parent nd /\ state nd' = state nd.
Proof. intros Hs Hn. destruct (same_shape_node _ _ n nd Hs Hn) as (nd' & Hn' & E). injection E. by exists nd'. Qed.

(** The tag of [n] changes: what leads where is the same except for its parent. *)
Lemma leads_same t t' C n nd k kd kd' : same_shape t t' -> (forall m, is_Some (nodes t !! m) -> m <> n -> tag t' m = tag t m) ->
  nodes t !! n = Some nd -> parent nd <> Some k -> nodes t !! k = Some kd -> nodes t' !! k = Some kd' -> leads i t' C k kd' <-> leads i t C k kd.
Proof.
  intros Hs Htag Hn Hp Hk Hk'. destruct (same_parent t t' k kd Hs Hk) as (kd0 & Hk0 & _ & Es). assert (kd0 = kd') as -> by congruence.
  unfold leads. rewrite Es. destruct (state kd); [done|]. split.
  - intros (c & cd' & Hc & Hcp & Hco). destruct (same_parent t' t c cd' (same_shape_sym _ _ Hs) Hc) as (cd & Hcd & Ep & _).
    exists c, cd. split_and!; [done|congruence|]. unfold ours in *. rewrite <- Htag; [done|by eexists|]. intros ->. congruence.
  - intros (c & cd & Hc & Hcp & Hco). destruct (same_parent t t' c cd Hs Hc) as (cd' & Hcd & Ep & _).
    exists c, cd'. split_and!; [done|congruence|]. unfold ours in *. rewrite Htag; [done|by eexists|]. intros ->. congruence.
Qed.

Definition owns_but (n : positive) (t : PTree) (C : list positive) : Prop :=
  forall k kd, k <> n -> nodes t !! k = Some kd -> ours i t k <-> leads i t C k kd.

(** Writing the bit of [n] as its subtree has it leaves its parent to be done. *)
Lemma owns_step t t' C n nd : tree_ok t -> same_shape t t' -> (forall m, is_Some (nodes t !! m) -> m <> n -> tag t' m = tag t m) ->
  nodes t !! n = Some nd -> owns_but n t C -> (ours i t' n <-> leads i t C n nd) ->
  match parent nd with None => owns i t' C | Some p => owns_but p t' C end.
Proof.
  intros Ht Hs Htag Hn Ho Hour.
  assert (forall k kd', nodes t' !! k = Some kd' -> parent nd <> Some k -> ours i t' k <-> leads i t' C k kd') as H.
  { intros k kd' Hk Hp. destruct (same_parent t' t k kd' (same_shape_sym _ _ Hs) Hk) as (kd & Hkd & _).
    rewrite (leads_same t t' C n nd k kd kd' Hs Htag Hn Hp Hkd Hk). destruct (decide (k = n)) as [-> |Hkn].
    - assert (kd = nd) as -> by congruence. done.
    - unfold ours. rewrite Htag by (done || by eexists). by apply Ho. }
  destruct (parent nd) as [p|]; [intros k kd Hkp Hk; apply H; [done|congruence]|intros k kd Hk; by apply H].
Qed.

Lemma write_bit t n nd x : tree_ok t -> nodes t !! n = Some nd -> (forall j, j <> i -> Z.testbit x j = Z.testbit (tag t n) j) ->
  exists t', write_slot (node_slot (shapes t) n) (MkPtr (Some n) x) t = Done t' /\ same_but_ours t t' /\ tag t' n = x /\
    (forall m, is_Some (nodes t !! m) -> m <> n -> tag t' m = tag t m).
Proof.
  intros Ht Hn Hx. destruct (write_tag None t n nd x Ht Hn) as (t' & E & Hs & Htag). exists t'. split_and!; [done|split; [done|]|..].
  - intros m j Hm Hj. rewrite Htag by done. case_decide; [subst; by apply Hx|done].
  - rewrite Htag by (by eexists). by rewrite decide_True.
  - intros m Hm Hmn. rewrite Htag by done. by rewrite decide_False.
Qed.

Lemma lor_bits x j : j <> i -> Z.testbit (Z.lor x mask) j = Z.testbit x j.
Proof. intros Hj. rewrite Z.lor_spec, Z.pow2_bits_eqb by lia. rewrite (proj2 (Z.eqb_neq _ _)) by done. apply orb_false_r. Qed.

Lemma land_bits x j : j <> i -> Z.testbit (Z.land x (Z.lnot mask)) j = Z.testbit x j.
Proof.
  intros Hj. destruct (Z.ltb_spec j 0); [by rewrite !Z.testbit_neg_r|]. rewrite Z.land_spec, Z.lnot_spec, Z.pow2_bits_eqb by lia.
  rewrite (proj2 (Z.eqb_neq _ _)) by done. apply andb_true_r.
Qed.

Lemma mark_ok C d k : forall t n nd, tree_ok t -> node_deeper t d -> nodes t !! n = Some nd -> owns_but n t C -> leads i t C n nd -> (d n < k)%nat ->
  exists t', (forall fuel, (k <= fuel)%nat -> RandomPathSearcher.mark mask fuel (Some n) (parent nd) (node_slot (shapes t) n) t = Done t') /\
    same_but_ours t t' /\ owns i t' C.
Proof.
  induction k as [|k IH]; [lia|]. intros t n nd Ht Hd Hn Ho Hl Hk. destruct (node_place None t n nd Ht Hn) as (_ & Ev & _).
  destruct (Z.testbit (tag t n) i) eqn:Eb.
  { exists t. split_and!; [|done|].
    - intros [|fuel] Hf; [lia|]. cbn [RandomPathSearcher.mark]. rewrite Ev. cbn [mbind outcome_bind]. by rewrite valid_some, Eb.
    - intros m md Hm. destruct (decide (m = n)) as [-> |Hmn]; [assert (md = nd) as -> by congruence; by split|by apply Ho]. }
  destruct (write_bit t n nd (Z.lor (tag t n) mask) Ht Hn (lor_bits _)) as (t1 & Ew & Hs & Hx & Htag).
  assert (ours i t1 n) as Hour by (unfold ours; rewrite Hx, Z.lor_spec, Z.pow2_bits_true, orb_true_r by lia; done).
  pose proof (owns_step t t1 C n nd Ht (proj1 Hs) Htag Hn Ho ltac:(done)) as Hstep.
  assert (forall fuel, RandomPathSearcher.mark mask (S fuel) (Some n) (parent nd) (node_slot (shapes t) n) t =
    match parent nd with None => Done t1 | Some p => pd ← deref (nodes t1 !! p); c ← slot_of (parent pd) p t1; RandomPathSearcher.mark mask fuel (Some p) (parent pd) c t1 end) as Erun.
  { intros fuel. cbn [RandomPathSearcher.mark]. rewrite Ev. cbn [mbind outcome_bind]. rewrite valid_some, Eb. cbn [getPointer getInt]. by rewrite Ew. }
  destruct (parent nd) as [p|] eqn:Ep.
  - destruct (parent_exists None t n nd p Ht Hn Ep) as (pd & Hp & [|Hps]); [done|].
    destruct (same_parent t t1 p pd (proj1 Hs) Hp) as (pd1 & Hp1 & _ & Eps). pose proof (same_shape_ok _ _ _ (proj1 Hs) Ht) as Ht1.
    destruct (IH t1 p pd1 Ht1) as (t2 & E2 & Hs2 & Ho2); [|done|done| | |].
    + intros m md q Hm E. destruct (same_parent t1 t m md (same_shape_sym _ _ (proj1 Hs)) Hm) as (md0 & Hm0 & E0 & _). apply (Hd m md0 q); congruence.
    + unfold leads. rewrite Eps, Hps. destruct (same_parent t t1 n nd (proj1 Hs) Hn) as (nd1 & Hn1 & En & _). exists n, nd1. split_and!; [done|congruence|done].
    + pose proof (Hd n nd p Hn Ep). lia.
    + exists t2. split_and!; [|by etrans|done]. intros [|fuel] Hf; [lia|]. rewrite Erun, Hp1. cbn [deref mbind outcome_bind].
      destruct (node_place None t1 p pd1 Ht1 Hp1) as (-> & _). cbn [mbind outcome_bind]. apply E2. lia.
  - exists t1. split_and!; [|done|done]. intros [|fuel] Hf; [lia|]. apply Erun.
Qed.

Lemma unmark_ok C d k : forall t n nd, tree_ok t -> node_deeper t d -> nodes t !! n = Some nd -> owns_but n t C -> ours i t n ->
  (forall s, state nd = Some s -> s ∉ C) -> (d n < k)%nat ->
  exists t', (forall fuel, (k <= fuel)%nat -> RandomPathSearcher.unmark mask fuel n t = Done t') /\ same_but_ours t t' /\ owns i t' C.
Proof.
  induction k as [|k IH]; [lia|]. intros t n nd Ht Hd Hn Ho Hour Hs0 Hk. destruct (node_place None t n nd Ht Hn) as (Ec & Ev & _).
  destruct (valid (left nd) || valid (right nd)) eqn:Evl.
  { assert (state nd = None) as Es.
    { destruct (state nd) as [s|] eqn:E; [|done]. destruct (leaf_shape t n nd s Ht Hn E) as (El & Er & _).
      by rewrite (valid_none _ El), (valid_none _ Er) in Evl. }
    exists t. split_and!; [|done|].
    - intros [|fuel] Hf; [lia|]. cbn [RandomPathSearcher.unmark]. rewrite Hn. cbn [deref mbind outcome_bind]. by rewrite Evl.
    - intros m md Hm. destruct (decide (m = n)) as [-> |Hmn]; [|by apply Ho]. assert (md = nd) as -> by congruence. split; [|done]. intros _.
      apply (leads_valid t C n nd Ht Hn Es). by apply orb_true_iff. }
  destruct (write_bit t n nd (Z.land (tag t n) (Z.lnot mask)) Ht Hn (land_bits _)) as (t1 & Ew & Hs & Hx & Htag).
  assert (~ ours i t1 n) as Hnot.
  { unfold ours. rewrite Hx, Z.land_spec, Z.lnot_spec, Z.pow2_bits_true, andb_false_r by lia. done. }
  assert (~ leads i t C n nd) as Hnl.
  { destruct (state nd) as [s|] eqn:E; [unfold leads; rewrite E; by apply Hs0|]. rewrite (leads_valid t C n nd Ht Hn E), <- orb_true_iff. by rewrite Evl. }
  pose proof (owns_step t t1 C n nd Ht (proj1 Hs) Htag Hn Ho ltac:(done)) as Hstep.
  assert (forall fuel, RandomPathSearcher.unmark mask (S fuel) n t = match parent nd with None => Done t1 | Some p => RandomPathSearcher.unmark mask fuel p t1 end) as Erun.
  { intros fuel. cbn [RandomPathSearcher.unmark]. rewrite Hn. cbn [deref mbind outcome_bind]. rewrite Evl, Ec. cbn [mbind outcome_bind]. rewrite Ev. cbn [mbind outcome_bind].
    rewrite valid_some. unfold ours in Hour. rewrite Hour. cbn [getPointer getInt]. by rewrite Ew. }
  destruct (parent nd) as [p|] eqn:Ep.
  - destruct (parent_exists None t n nd p Ht Hn Ep) as (pd & Hp & [|Hps]); [done|].
    destruct (same_parent t t1 p pd (proj1 Hs) Hp) as (pd1 & Hp1 & _ & Eps). pose proof (same_shape_ok _ _ _ (proj1 Hs) Ht) as Ht1.
    assert (p <> n) as Hpn. { intros ->. pose proof (Hd n nd n Hn Ep). lia. }
    destruct (IH t1 p pd1 Ht1) as (t2 & E2 & Hs2 & Ho2); [|done|done| | | |].
    + intros m md q Hm E. destruct (same_parent t1 t m md (same_shape_sym _ _ (proj1 Hs)) Hm) as (md0 & Hm0 & E0 & _). apply (Hd m md0 q); congruence.
    + unfold ours. rewrite Htag by (done || by eexists). apply (Ho p pd Hpn Hp). unfold leads. rewrite Hps. by exists n, nd.
    + intros s E. congruence.
    + pose proof (Hd n nd p Hn Ep). lia.
    + exists t2. split_and!; [|by etrans|done]. intros [|fuel] Hf; [lia|]. rewrite Erun. apply E2. lia.
  - exists t1. split_and!; [|done|done]. intros [|fuel] Hf; [lia|]. apply Erun.
Qed.

(** The states of a leaf that is not [n] are others. *)
Lemma owns_others t C C' n nd s : tree_ok t -> nodes t !! n = Some nd -> state nd = Some s -> (forall x, x <> s -> x ∈ C' <-> x ∈ C) ->
  owns i t C -> owns_but n t C'.
Proof.
  intros Ht Hn Hs HC Ho k kd Hkn Hk. rewrite (Ho k kd Hk). unfold leads. destruct (state kd) as [x|] eqn:Ex; [|done]. symmetry. apply HC.
  intros ->. by apply Hkn, (loose_unique None t n nd s k kd).
Qed.

Lemma add_state_ok t C s : tree_ok t -> owns i t C -> live t s ->
  exists t', eventually (fun fuel => RandomPathSearcher.add_state mask fuel s t) t' /\ same_but_ours t t' /\ owns i t' (C ++ [s]).
Proof.
  intros Ht Ho (n & nd & Hn & Hs). destruct (leaf_shape t n nd s Ht Hn Hs) as (_ & _ & Ek). destruct (tree_depth _ t Ht) as [d Hd].
  destruct (mark_ok (C ++ [s]) d (S (d n)) t n nd Ht Hd Hn) as (t' & E & H1 & H2).
  - apply (owns_others t C _ n nd s Ht Hn Hs); [|done]. intros x Hx. set_solver.
  - unfold leads. rewrite Hs. set_solver.
  - lia.
  - exists t'. split_and!; [|done|done]. exists (S (d n)). intros fuel Hf. unfold RandomPathSearcher.add_state. rewrite Ek. cbn [deref mbind outcome_bind].
    rewrite Hn. cbn [deref mbind outcome_bind]. destruct (node_place None t n nd Ht Hn) as (-> & _). cbn [mbind outcome_bind]. by apply E.
Qed.

Lemma remove_state_ok t C s : tree_ok t -> owns i t C -> live t s -> s ∈ C ->
  exists t', eventually (fun fuel => RandomPathSearcher.remove_state mask fuel s t) t' /\ same_but_ours t t' /\ owns i t' (without [s] C).
Proof.
  intros Ht Ho (n & nd & Hn & Hs) HC. destruct (leaf_shape t n nd s Ht Hn Hs) as (_ & _ & Ek). destruct (tree_depth _ t Ht) as [d Hd].
  destruct (unmark_ok (without [s] C) d (S (d n)) t n nd Ht Hd Hn) as (t' & E & H1 & H2).
  - apply (owns_others t C _ n nd s Ht Hn Hs); [|done]. intros x Hx. rewrite elem_of_without. set_solver.
  - apply (Ho n nd Hn). unfold leads. by rewrite Hs.
  - intros x Hx. rewrite Hs in Hx. injection Hx as <-. rewrite elem_of_without. set_solver.
  - lia.
  - exists t'. split_and!; [|done|done]. exists (S (d n)). intros fuel Hf. unfold RandomPathSearcher.remove_state. rewrite Ek. cbn [deref mbind outcome_bind]. by apply E.
Qed.

Lemma update_ok t C added removed : tree_ok t -> owns i t C -> (forall s, s ∈ C ++ added -> live t s) -> NoDup removed -> removed ⊆ C ++ added ->
  exists t', eventually (fun fuel => RandomPathSearcher.update mask fuel added removed t) t' /\ same_but_ours t t' /\ owns i t' (without removed (C ++ added)).
Proof.
  intros Ht Ho Hlive Hnd Hsub.
  assert (exists t1, eventually (fun fuel => RandomPathSearcher.each (RandomPathSearcher.add_state mask fuel) added t) t1 /\ same_but_ours t t1 /\ owns i t1 (C ++ added)) as (t1 & E1 & Hs1 & Ho1).
  { clear Hsub. revert t C Ht Ho Hlive. induction added as [|s added IH]; intros t C Ht Ho Hlive.
    - exists t. rewrite app_nil_r. split_and!; [by apply eventually_now|done|done].
    - destruct (add_state_ok t C s Ht Ho) as (t1 & E & Hs & Ho1); [apply Hlive; set_solver|].
      destruct (IH t1 (C ++ [s])) as (t2 & E2 & Hs2 & Ho2); [by eapply same_shape_ok; [apply Hs|]|done| |].
      + intros x Hx. apply (same_shape_live t); [apply Hs|]. apply Hlive. by rewrite <- app_assoc in Hx.
      + exists t2. rewrite <- app_assoc in Ho2. split_and!; [|by etrans|done]. cbn [RandomPathSearcher.each].
        eapply (eventually_bind (fun fuel => RandomPathSearcher.add_state mask fuel s t)); [exact E|]. exact E2. }
  assert (forall l t C, tree_ok t -> owns i t C -> (forall s, s ∈ l -> live t s) -> NoDup l -> l ⊆ C ->
    exists t', eventually (fun fuel => RandomPathSearcher.each (RandomPathSearcher.remove_state mask fuel) l t) t' /\ same_but_ours t t' /\ owns i t' (without l C)) as Hrem.
  { clear - Hi. intros l. induction l as [|s l IH]; intros t C Ht Ho Hlive Hnd Hsub.
    - exists t. rewrite without_nil. split_and!; [by apply eventually_now|done|done].
    - apply NoDup_cons in Hnd as [Hs Hnd]. destruct (remove_state_ok t C s Ht Ho) as (t1 & E & H1 & Ho1); [apply Hlive; by left|set_solver|].
      destruct (IH t1 (without [s] C)) as (t2 & E2 & Hs2 & Ho2); [by eapply same_shape_ok; [apply H1|]|done| |done| |].
      + intros x Hx. apply (same_shape_live t); [apply H1|]. apply Hlive. by right.
      + intros x Hx. apply elem_of_without. split; [set_solver|]. apply Hsub. by right.
      + exists t2. rewrite without_cons in Ho2. split_and!; [|by etrans|done]. cbn [RandomPathSearcher.each].
        eapply (eventually_bind (fun fuel => RandomPathSearcher.remove_state mask fuel s t)); [exact E|exact E2]. }
  destruct (Hrem removed t1 (C ++ added)) as (t2 & E2 & Hs2 & Ho2); [by eapply same_shape_ok; [apply Hs1|]|done| |done|done|].
  { intros s Hs. apply (same_shape_live t); [apply Hs1|]. by apply Hlive, Hsub. }
  exists t2. split_and!; [|by etrans|done]. unfold RandomPathSearcher.update.
  eapply (eventually_bind (fun fuel => RandomPathSearcher.each (RandomPathSearcher.add_state mask fuel) added t)); [exact E1|exact E2].
Qed.

(** The other searchers hold what they held. *)
Lemma same_but_others t t' j C : same_but_ours t t' -> j <> i -> owns j t C -> owns j t' C.
Proof.
  intros [Hs Hbits] Hj Ho n nd' Hn'. destruct (same_parent t' t n nd' (same_shape_sym _ _ Hs) Hn') as (nd & Hn & _ & Es).
  unfold ours. rewrite Hbits by (done || by eexists). rewrite (Ho n nd Hn : ours j t n <-> _). unfold leads, ours. rewrite Es. destruct (state nd'); [done|].
  split; intros (c & cd & Hc & Hp & Hco).
  - destruct (same_parent t t' c cd Hs Hc) as (cd' & Hc' & Ep & _). exists c, cd'. rewrite Hbits by (done || by eexists). split_and!; congruence.
  - destruct (same_parent t' t c cd (same_shape_sym _ _ Hs) Hc) as (cd' & Hc' & Ep & _). exists c, cd'. rewrite <- Hbits by (done || by eexists). split_and!; congruence.
Qed.

End Searcher.
