(* ===== verification/SolverRange.v ===== *)
(** [Solver::getRange] (Solver.cpp): the least and the greatest value of an
    expression, by binary search over solver queries. *)
From stdpp Require Import base list numbers.
From Stdlib Require Import ZArith Lia.
From S2P Require Import Prelude APInt Bits Expr Semantics ConstantOps ExprCreate CreateSound OpsSound Solver.
Local Open Scope Z_scope.

Section Range.
Context {AP : APIntOps} {AH : ArrayHeap} {OP : ExprOptions}.
Context {S : Type} {ops : SolverImpl S}.

(** [assert(success && ...)] after a query. *)
Definition answered {A} (m : outcome (option A * S)) : outcome (A * S) :=
  r ← m;
  match r with (Some a, s) => Done (a, s) | (None, _) => AssertFail end.

(** The three loops: [while (lo<hi)], with the test that decides the half. *)
Fixpoint bsearch (n : nat) (test : Z -> S -> outcome (bool * S)) (lo hi : Z) (s : S)
    : outcome (Z * S) :=
  if lo <? hi then
    match n with
    | O => OutOfFuel
    | Datatypes.S n =>
        let mid := lo + (hi - lo) / 2 in
        rs ← test mid s;
        let '(res, s) := (rs : bool * S) in
        if res then bsearch n test lo mid s else bsearch n test (mid + 1) hi s
    end
  else Done (lo, s).

(** The queries the loops ask: [e >> mid == 0], [e <= mid]. *)
Definition fits_bits (q : Query) (mid : Z) : outcome Query :=
  let width := getWidth (q_expr q) in
  m ← ConstantExpr_create mid width;
  sh ← LShrExpr_create (q_expr q) (ConstantExpr m);
  z ← ConstantExpr_create 0 width;
  e ← EqExpr_create sh (ConstantExpr z);
  Done (withExpr e q).

Definition at_most (q : Query) (mid : Z) : outcome Query :=
  m ← ConstantExpr_create mid (getWidth (q_expr q));
  e ← UleExpr_create (q_expr q) (ConstantExpr m);
  Done (withExpr e q).

Definition equals_zero (q : Query) : outcome Query :=
  z ← ConstantExpr_create 0 (getWidth (q_expr q));
  e ← EqExpr_create (q_expr q) (ConstantExpr z);
  Done (withExpr e q).

(** 64 rounds halve an interval of 64-bit numbers to a point. *)
Definition rounds : nat := 64.

(** The minimum: 0 in the common case. *)
Definition search_min (q : Query) (bits : Z) (s : S) : outcome (Z * S) :=
  qz ← equals_zero q;
  rs ← answered (mayBeTrue qz s);
  let '(res, s) := (rs : bool * S) in
  if res then Done (0, s)
  else hi ← bits64_maxValueOfNBits bits;
       bsearch rounds (fun mid s => q ← at_most q mid; answered (mayBeTrue q s)) 0 hi s.

Definition search_max (q : Query) (bits mn : Z) (s : S) : outcome (Z * S) :=
  hi ← bits64_maxValueOfNBits bits;
  bsearch rounds (fun mid s => q ← at_most q mid; answered (mustBeTrue q s)) mn hi s.

Definition search_wide (q : Query) (s : S) : outcome (Z * Z * S) :=
  bs ← bsearch rounds (fun mid s => q ← fits_bits q mid; answered (mustBeTrue q s))
         0 (getWidth (q_expr q)) s;
  let '(bits, s) := (bs : Z * S) in
  ms ← search_min q bits s;
  let '(mn, s) := (ms : Z * S) in
  ms ← search_max q bits mn s;
  let '(mx, s) := (ms : Z * S) in
  Done (mn, mx, s).

Definition getRange (q : Query) (s : S) : outcome (APInt * APInt * S) :=
  let width := getWidth (q_expr q) in
  mms ← (if width =? 1 then
           vs ← answered (evaluate q s);
           let '(v, s) := (vs : Validity * S) in
           Done (match v with VTrue => (1, 1, s) | VFalse => (0, 0, s) | VUnknown => (0, 1, s) end)
         else match q_expr q with
              | ConstantExpr CE => v ← ConstantExpr_getZExtValue CE 64; Done (v, v, s)
              | _ => search_wide q s
              end);
  let '(mn, mx, s) := (mms : Z * Z * S) in
  a ← ConstantExpr_create mn width;
  b ← ConstantExpr_create mx width;
  Done (a, b, s).

(** ** Binary search *)

Lemma rounds_enough : 2 ^ Z.of_nat rounds = 2 ^ 64.
Proof. done. Qed.

Opaque rounds.

(** A search for the least value with a monotone property finds it. *)
Lemma bsearch_ok (I : S -> Prop) (P : Z -> Prop) test n lo hi s :
  (forall m m', m <= m' -> P m -> P m') ->
  (forall m s, lo <= m < hi -> I s ->
     exists b s', test m s = Done (b, s') /\ I s' /\ (b = true <-> P m)) ->
  lo <= hi -> hi - lo < 2 ^ Z.of_nat n -> P hi -> I s ->
  exists r s', bsearch n test lo hi s = Done (r, s') /\ I s' /\ lo <= r <= hi /\ P r /\
    forall m, lo <= m < r -> ~ P m.
Proof.
  intros Hmono. revert lo hi s. induction n as [|n IH]; intros lo hi s Htest Hle Hn Hhi Hs; cbn [bsearch].
  - destruct (Z.ltb_spec lo hi); [cbn in Hn; lia|]. replace hi with lo in Hhi by lia.
    exists lo, s. split; [done|]. split; [done|]. split; [lia|]. split; [done|]. intros; lia.
  - destruct (Z.ltb_spec lo hi) as [Hlt|Hge].
    2:{ replace hi with lo in Hhi by lia. exists lo, s. split; [done|]. split; [done|].
        split; [lia|]. split; [done|]. intros; lia. }
    set (mid := lo + (hi - lo) / 2). pose proof (Z.div_mod (hi - lo) 2).
    pose proof (Z.mod_pos_bound (hi - lo) 2).
    assert (lo <= mid < hi) as Hmid by (subst mid; lia).
    rewrite Nat2Z.inj_succ, Z.pow_succ_r in Hn by lia.
    destruct (Htest mid s Hmid Hs) as (b & s1 & -> & Hs1 & Hb). cbn [mbind outcome_bind].
    destruct b.
    + destruct (IH lo mid s1) as (r & s' & -> & Hs' & Hr & HP & Hmin); [|lia|subst mid; lia|by apply Hb|done|].
      { intros m s2 Hm Hs2. apply Htest; [lia|done]. }
      exists r, s'. split; [done|]. split; [done|]. split; [lia|]. by split.
    + destruct (IH (mid + 1) hi s1) as (r & s' & -> & Hs' & Hr & HP & Hmin);
        [|lia|subst mid; lia|done|done|].
      { intros m s2 Hm Hs2. apply Htest; [lia|done]. }
      exists r, s'. split; [done|]. split; [done|]. split; [lia|]. split; [done|].
      intros m Hm Hp. destruct (Z.le_gt_cases (mid + 1) m) as [?|Hlt']; [by apply (Hmin m); [lia|]|].
      enough (false = true) by done. apply Hb. apply (Hmono m mid); [lia|done].
Qed.

(** ** The queries *)

Context {APL : APIntLaws} (default_opt : ConstArrayOpt = false).
Context {sol : SoundSolver S}.

(** The solver answers the queries it gets. *)
Context (answers_truth : forall q s r s', s_inv s -> bool_query q -> computeTruth q s = Done (r, s') -> r <> None).
Context (answers_validity : forall q s r s', s_inv s -> bool_query q -> computeValidity q s = Done (r, s') -> r <> None).

Lemma mustBeTrue_answers q s r s' : s_inv s -> bool_query q -> mustBeTrue q s = Done (r, s') -> r <> None.
Proof.
  intros Hs Hq. unfold mustBeTrue. pose proof Hq as [_ ->]. rewrite Z.eqb_refl.
  destruct (q_expr q); try (by apply answers_truth). intros ?; by simplify_eq.
Qed.

Lemma must_ok q s : s_inv s -> bool_query q ->
  exists b s', answered (mustBeTrue q s) = Done (b, s') /\ s_inv s' /\ (b = true <-> valid q).
Proof.
  intros Hs Hq. destruct (mustBeTrue_ok q s Hs Hq) as (r & s' & E & Hs' & Hr).
  pose proof (mustBeTrue_answers q s r s' Hs Hq E). unfold answered. rewrite E. cbn.
  destruct r as [b|]; [|done]. exists b, s'. split; [done|]. split; [done|]. by apply Hr.
Qed.

Lemma may_ok q s : s_inv s -> bool_query q ->
  exists b s', answered (mayBeTrue q s) = Done (b, s') /\ s_inv s' /\ (b = true <-> ~ valid_not q).
Proof.
  intros Hs Hq. unfold mayBeTrue, mustBeFalse.
  destruct (negateExpr_ok default_opt q Hq) as (nq & -> & Hnq & _ & Hn & _). cbn [mbind outcome_bind].
  destruct (mustBeTrue_ok nq s Hs Hnq) as (r & s' & E & Hs' & Hr).
  pose proof (mustBeTrue_answers nq s r s' Hs Hnq E). unfold answered. rewrite E. cbn.
  destruct r as [b|]; [|done]. exists (negb b), s'. split; [done|]. split; [done|].
  rewrite <- Hn, <- (Hr b eq_refl). destruct b; cbn; naive_solver.
Qed.

Lemma withExpr_bool q e : wf_query q -> wf e -> getWidth e = Bool -> bool_query (withExpr e q).
Proof. intros [Hc He Hs] Hwf Hw. by split. Qed.

Lemma fits_bits_ok q mid : wf_query q -> getWidth (q_expr q) <= 64 -> 0 <= mid < getWidth (q_expr q) ->
  exists q', fits_bits q mid = Done q' /\ bool_query q' /\
    (valid q' <-> forall ρ, sat ρ (constraints q) -> eval ρ (q_expr q) < 2 ^ mid).
Proof.
  intros Hq Hw Hm. pose proof (wq_expr _ Hq) as He. unfold fits_bits.
  set (e := q_expr q) in *. set (w := getWidth e) in *.
  pose proof (Z.pow_gt_lin_r 2 w ltac:(lia)). pose proof (pow2_mono w 64).
  assert (wf (ConstantExpr (MkAPInt w mid))) as Hmid by (split; cbn; lia).
  assert (wf (ConstantExpr (MkAPInt w 0))) as Hz by (split; cbn; lia).
  rewrite (ConstantExpr_create_spec mid w) by lia. cbn [mbind outcome_bind].
  destruct (BinaryExpr_create_ok default_opt LShr e (ConstantExpr (MkAPInt w mid))) as (sh & Es & Ws & Wsw & Vs);
    [done|done|done|done|]. cbn [BinaryExpr_create] in Es. rewrite Es. cbn [mbind outcome_bind].
  rewrite (ConstantExpr_create_spec 0 w) by lia. cbn [mbind outcome_bind].
  destruct (BinaryExpr_create_ok default_opt EqK sh (ConstantExpr (MkAPInt w 0))) as (eq & Ee & We & Wew & Ve);
    [done|done|by rewrite Wsw|done|]. cbn [BinaryExpr_create] in Ee. rewrite Ee. cbn [mbind outcome_bind].
  eexists; split; [done|]. split; [by apply withExpr_bool|]. unfold valid; cbn.
  assert (forall ρ, eval ρ eq <> 0 <-> eval ρ e < 2 ^ mid) as Hev.
  { intros ρ. rewrite Ve. cbn [eval_binary eval uval]. rewrite Vs. cbn [eval_binary eval uval].
    rewrite Z.shiftr_div_pow2 by lia. pose proof (eval_range e ρ He). pose proof (pow2_pos mid ltac:(lia)).
    assert (eval ρ e / 2 ^ mid = 0 <-> eval ρ e < 2 ^ mid) as <-.
    { split; [intros Hd; apply Z.div_small_iff in Hd; lia|intros; apply Z.div_small; lia]. }
    destruct (Z.eqb_spec (eval ρ e / 2 ^ mid) 0); cbn; lia. }
  setoid_rewrite Hev. done.
Qed.

Lemma at_most_ok q mid : wf_query q -> getWidth (q_expr q) <= 64 -> 0 <= mid < 2 ^ getWidth (q_expr q) ->
  exists q', at_most q mid = Done q' /\ bool_query q' /\ constraints q' = constraints q /\
    forall ρ, eval ρ (q_expr q') <> 0 <-> eval ρ (q_expr q) <= mid.
Proof.
  intros Hq Hw Hm. pose proof (wq_expr _ Hq) as He. unfold at_most.
  set (e := q_expr q) in *. set (w := getWidth e) in *. pose proof (wf_width e He).
  pose proof (pow2_mono w 64). assert (wf (ConstantExpr (MkAPInt w mid))) as Hmid by (split; cbn; lia).
  rewrite ConstantExpr_create_spec by lia. cbn [mbind outcome_bind].
  destruct (BinaryExpr_create_ok default_opt Ule e (ConstantExpr (MkAPInt w mid))) as (le & El & Wl & Wlw & Vl);
    [done|done|done|done|]. cbn [BinaryExpr_create] in El. rewrite El. cbn [mbind outcome_bind].
  eexists; split; [done|]. split; [by apply withExpr_bool|]. split; [done|].
  intros ρ. cbn. rewrite Vl. cbn. destruct (Z.leb_spec (eval ρ e) mid); cbn; lia.
Qed.

Lemma equals_zero_ok q : wf_query q ->
  exists q', equals_zero q = Done q' /\ bool_query q' /\ constraints q' = constraints q /\
    forall ρ, eval ρ (q_expr q') <> 0 <-> eval ρ (q_expr q) = 0.
Proof.
  intros Hq. pose proof (wq_expr _ Hq) as He. unfold equals_zero.
  set (e := q_expr q) in *. set (w := getWidth e) in *. pose proof (wf_width e He). pose proof (pow2_pos w).
  assert (wf (ConstantExpr (MkAPInt w 0))) as Hz by (split; cbn; lia).
  rewrite ConstantExpr_create_0 by done. cbn [mbind outcome_bind].
  destruct (BinaryExpr_create_ok default_opt EqK e (ConstantExpr (MkAPInt w 0))) as (eq & El & Wl & Wlw & Vl);
    [done|done|done|done|]. cbn [BinaryExpr_create] in El. rewrite El. cbn [mbind outcome_bind].
  eexists; split; [done|]. split; [by apply withExpr_bool|]. split; [done|].
  intros ρ. cbn. rewrite Vl. cbn. destruct (Z.eqb_spec (eval ρ e) 0); cbn; lia.
Qed.

(** [lo, hi] is the smallest interval with all values of the expression. *)
Definition is_range (q : Query) (mn mx : Z) : Prop :=
  (forall ρ, sat ρ (constraints q) -> mn <= eval ρ (q_expr q) <= mx) /\
  (forall m, (forall ρ, sat ρ (constraints q) -> m <= eval ρ (q_expr q)) -> m <= mn) /\
  (forall m, (forall ρ, sat ρ (constraints q) -> eval ρ (q_expr q) <= m) -> mx <= m).

(** The three tests, as the searches use them. *)
Lemma fits_test q m s : wf_query q -> getWidth (q_expr q) <= 64 -> 0 <= m < getWidth (q_expr q) -> s_inv s ->
  exists b s', (q ← fits_bits q m; answered (mustBeTrue q s)) = Done (b, s') /\ s_inv s' /\
    (b = true <-> forall ρ, sat ρ (constraints q) -> eval ρ (q_expr q) < 2 ^ m).
Proof.
  intros Hq Hw Hm Hs. destruct (fits_bits_ok q m Hq Hw Hm) as (q' & -> & Hq' & Hv). cbn [mbind outcome_bind].
  destruct (must_ok q' s Hs Hq') as (b & s' & E & Hs' & Hb). exists b, s'. by rewrite Hb, Hv.
Qed.

Lemma must_test q m s : wf_query q -> getWidth (q_expr q) <= 64 -> 0 <= m < 2 ^ getWidth (q_expr q) -> s_inv s ->
  exists b s', (q ← at_most q m; answered (mustBeTrue q s)) = Done (b, s') /\ s_inv s' /\
    (b = true <-> forall ρ, sat ρ (constraints q) -> eval ρ (q_expr q) <= m).
Proof.
  intros Hq Hw Hm Hs. destruct (at_most_ok q m Hq Hw Hm) as (q' & -> & Hq' & Hc & Hv). cbn [mbind outcome_bind].
  destruct (must_ok q' s Hs Hq') as (b & s' & E & Hs' & Hb). exists b, s'. rewrite Hb. unfold valid.
  rewrite Hc. setoid_rewrite Hv. done.
Qed.

Lemma may_test q m s : wf_query q -> getWidth (q_expr q) <= 64 -> 0 <= m < 2 ^ getWidth (q_expr q) -> s_inv s ->
  exists b s', (q ← at_most q m; answered (mayBeTrue q s)) = Done (b, s') /\ s_inv s' /\
    (b = true <-> ~ forall ρ, sat ρ (constraints q) -> m < eval ρ (q_expr q)).
Proof.
  intros Hq Hw Hm Hs. destruct (at_most_ok q m Hq Hw Hm) as (q' & -> & Hq' & Hc & Hv). cbn [mbind outcome_bind].
  destruct (may_ok q' s Hs Hq') as (b & s' & E & Hs' & Hb). exists b, s'. rewrite Hb. unfold valid_not. rewrite Hc.
  assert (forall ρ, eval ρ (q_expr q') = 0 <-> m < eval ρ (q_expr q)) as Hz.
  { intros ρ. specialize (Hv ρ). destruct (Z.eq_dec (eval ρ (q_expr q')) 0); intuition lia. }
  setoid_rewrite Hz. done.
Qed.

(** Finding the minimum, given the number of bits. *)
Lemma search_min_ok q bits s : wf_query q -> getWidth (q_expr q) <= 64 ->
  0 <= bits <= getWidth (q_expr q) -> (forall ρ, sat ρ (constraints q) -> eval ρ (q_expr q) < 2 ^ bits) -> s_inv s ->
  exists mn s', bsearch rounds (fun mid s => q ← at_most q mid; answered (mayBeTrue q s)) 0 (2 ^ bits - 1) s = Done (mn, s') /\
    s_inv s' /\ 0 <= mn <= 2 ^ bits - 1 /\
    (forall ρ, sat ρ (constraints q) -> mn <= eval ρ (q_expr q)) /\
    ~ (forall ρ, sat ρ (constraints q) -> mn < eval ρ (q_expr q)).
Proof.
  intros Hq Hw Hbits Hlt Hs. pose proof (pow2_mono bits (getWidth (q_expr q))). pose proof (pow2_mono bits 64).
  pose proof (pow2_pos bits). pose proof (wq_expr _ Hq) as He. destruct (wq_sat _ Hq) as [ρ0 Hρ0].
  destruct (bsearch_ok s_inv (fun m => ~ forall ρ, sat ρ (constraints q) -> m < eval ρ (q_expr q))
    (fun mid s => q ← at_most q mid; answered (mayBeTrue q s)) rounds 0 (2 ^ bits - 1) s)
    as (mn & s' & E & Hs' & Hr & HP & Hmin).
  - intros m m' Hle Hp Hn. apply Hp. intros ρ Hρ. specialize (Hn ρ Hρ). lia.
  - intros m s1 Hm Hs1. apply may_test; [done|done|lia|done].
  - lia.
  - rewrite rounds_enough. lia.
  - intros Hn. specialize (Hn ρ0 Hρ0). specialize (Hlt ρ0 Hρ0). lia.
  - done.
  - exists mn, s'. split; [done|]. split; [done|]. split; [lia|]. split; [|done].
    intros ρ Hρ. destruct (Z.le_gt_cases mn (eval ρ (q_expr q))) as [?|Hgt]; [done|].
    pose proof (eval_range (q_expr q) ρ He). exfalso. apply (Hmin (eval ρ (q_expr q))); [lia|].
    intros Hn. specialize (Hn ρ Hρ). lia.
Qed.

Lemma search_max_ok q bits mn s : wf_query q -> getWidth (q_expr q) <= 64 ->
  0 <= bits <= getWidth (q_expr q) -> (forall ρ, sat ρ (constraints q) -> eval ρ (q_expr q) < 2 ^ bits) ->
  0 <= mn <= 2 ^ bits - 1 -> s_inv s ->
  exists mx s', search_max q bits mn s = Done (mx, s') /\
    s_inv s' /\ mn <= mx <= 2 ^ bits - 1 /\
    (forall ρ, sat ρ (constraints q) -> eval ρ (q_expr q) <= mx) /\
    forall m, mn <= m -> (forall ρ, sat ρ (constraints q) -> eval ρ (q_expr q) <= m) -> mx <= m.
Proof.
  intros Hq Hw Hbits Hlt Hmn Hs. unfold search_max.
  rewrite bits64_maxValueOfNBits_spec by lia. pose proof (pow2_mono bits (getWidth (q_expr q))). pose proof (pow2_mono bits 64).
  destruct (bsearch_ok s_inv (fun m => forall ρ, sat ρ (constraints q) -> eval ρ (q_expr q) <= m)
    (fun mid s => q ← at_most q mid; answered (mustBeTrue q s)) rounds mn (2 ^ bits - 1) s)
    as (mx & s' & E & Hs' & Hr & HP & Hmin).
  - intros m m' Hle Hp ρ Hρ. specialize (Hp ρ Hρ). lia.
  - intros m s1 Hm Hs1. apply must_test; [done|done|lia|done].
  - lia.
  - rewrite rounds_enough. lia.
  - intros ρ Hρ. specialize (Hlt ρ Hρ). lia.
  - done.
  - exists mx, s'. split; [done|]. split; [done|]. split; [lia|]. split; [done|].
    intros m Hm Hall. destruct (Z.le_gt_cases mx m) as [?|Hgt]; [done|].
    exfalso. apply (Hmin m); [lia|done].
Qed.

Lemma search_bits_ok q s : wf_query q -> getWidth (q_expr q) <= 64 -> s_inv s ->
  exists bits s', bsearch rounds (fun mid s => q ← fits_bits q mid; answered (mustBeTrue q s))
      0 (getWidth (q_expr q)) s = Done (bits, s') /\ s_inv s' /\ 0 <= bits <= getWidth (q_expr q) /\
    forall ρ, sat ρ (constraints q) -> eval ρ (q_expr q) < 2 ^ bits.
Proof.
  intros Hq Hw Hs. pose proof (wq_expr _ Hq) as He. pose proof (wf_width _ He) as Hpos.
  destruct (bsearch_ok s_inv (fun m => forall ρ, sat ρ (constraints q) -> eval ρ (q_expr q) < 2 ^ m)
    (fun mid s => q ← fits_bits q mid; answered (mustBeTrue q s)) rounds 0 (getWidth (q_expr q)) s)
    as (bits & s1 & E & Hs1 & Hbits & Hlt & _).
  - intros m m' Hle Hp ρ Hρ. specialize (Hp ρ Hρ). pose proof (eval_range _ ρ He).
    destruct (Z.le_gt_cases 0 m) as [?|?]; [pose proof (pow2_mono m m')|rewrite (Z.pow_neg_r 2 m) in Hp]; lia.
  - intros m s1 Hm Hs1. by apply fits_test.
  - lia.
  - rewrite rounds_enough. lia.
  - intros ρ _. by apply eval_range.
  - done.
  - by exists bits, s1.
Qed.

(** The common case, where 0 is a value, needs no search. *)
Lemma search_min_or_zero_ok q bits s : wf_query q -> getWidth (q_expr q) <= 64 ->
  0 <= bits <= getWidth (q_expr q) -> (forall ρ, sat ρ (constraints q) -> eval ρ (q_expr q) < 2 ^ bits) -> s_inv s ->
  exists mn s', search_min q bits s = Done (mn, s') /\
    s_inv s' /\ 0 <= mn <= 2 ^ bits - 1 /\
    (forall ρ, sat ρ (constraints q) -> mn <= eval ρ (q_expr q)) /\
    ~ (forall ρ, sat ρ (constraints q) -> mn < eval ρ (q_expr q)).
Proof.
  intros Hq Hw Hbits Hlt Hs. unfold search_min. pose proof (wq_expr _ Hq) as He.
  destruct (equals_zero_ok q Hq) as (qz & -> & Hqz & Hcz & Hvz).
  cbn [mbind outcome_bind]. destruct (may_ok qz s Hs Hqz) as (res & s2 & -> & Hs2 & Hres).
  cbn [mbind outcome_bind]. destruct res.
  - exists 0, s2. assert (0 < 2 ^ bits) by (apply pow2_pos; lia). split; [done|]. split; [done|]. split; [lia|].
    split; [intros ρ _; by apply eval_range|]. intros Hn. apply (proj1 Hres eq_refl). intros ρ.
    rewrite Hcz. intros Hρ. specialize (Hn ρ Hρ). specialize (Hvz ρ).
    destruct (Z.eq_dec (eval ρ (q_expr qz)) 0); [done|]. lia.
  - rewrite bits64_maxValueOfNBits_spec by lia. by apply search_min_ok.
Qed.

Lemma search_wide_ok q s : wf_query q -> getWidth (q_expr q) <= 64 -> s_inv s ->
  exists mn mx s', search_wide q s = Done (mn, mx, s') /\ s_inv s' /\
    0 <= mn <= mx /\ mx < 2 ^ getWidth (q_expr q) /\ is_range q mn mx.
Proof.
  intros Hq Hw Hs. unfold search_wide.
  destruct (search_bits_ok q s) as (bits & s1 & -> & Hs1 & Hbits & Hlt); [done..|].
  cbn [mbind outcome_bind].
  destruct (search_min_or_zero_ok q bits s1) as (mn & s3 & -> & Hs3 & Hmn & Hlow & Hatt); [done..|].
  cbn [mbind outcome_bind].
  assert (2 ^ bits <= 2 ^ getWidth (q_expr q)) by (apply pow2_mono; lia).
  destruct (search_max_ok q bits mn s3) as (mx & s4 & -> & Hs4 & Hmx & Hup & Hleast); [done..|].
  cbn [mbind outcome_bind]. exists mn, mx, s4. split; [done|]. split; [done|]. split; [lia|]. split; [lia|].
  split; [auto|]. split.
  - intros m Hm. destruct (Z.le_gt_cases m mn) as [?|Hgt]; [done|]. exfalso. apply Hatt.
    intros ρ Hρ. specialize (Hm ρ Hρ). lia.
  - intros m Hm. apply Hleast; [|done]. destruct (wq_sat _ Hq) as [ρ Hρ].
    specialize (Hm ρ Hρ). specialize (Hlow ρ Hρ). lia.
Qed.

Lemma range_const q (v : Z) : (exists ρ, sat ρ (constraints q)) ->
  (forall ρ, sat ρ (constraints q) -> eval ρ (q_expr q) = v) -> is_range q v v.
Proof.
  intros [ρ0 Hρ0] Hv. split; [intros ρ Hρ; rewrite Hv; [lia|done]|].
  split; intros m Hm; specialize (Hm ρ0 Hρ0); rewrite Hv in Hm by done; done.
Qed.

Lemma bool_eval q ρ : wf_query q -> getWidth (q_expr q) = 1 -> eval ρ (q_expr q) = 0 \/ eval ρ (q_expr q) = 1.
Proof. intros Hq Hw. pose proof (eval_range _ ρ (wq_expr _ Hq)) as H. rewrite Hw in H. lia. Qed.

Lemma range_bool q v : wf_query q -> getWidth (q_expr q) = 1 -> validity_is v q ->
  is_range q (match v with VTrue => 1 | _ => 0 end) (match v with VFalse => 0 | _ => 1 end).
Proof.
  intros Hq Hw Hv. pose proof (fun ρ => bool_eval q ρ Hq Hw) as Hb.
  destruct v; cbn in Hv.
  - apply range_const; [apply Hq|]. intros ρ Hρ. specialize (Hv ρ Hρ). specialize (Hb ρ). lia.
  - apply range_const; [apply Hq|]. intros ρ Hρ. by apply Hv.
  - destruct Hv as [H1 H2]. split; [intros ρ _; specialize (Hb ρ); lia|]. split.
    + intros m Hm. destruct (Z.le_gt_cases m 0) as [?|?]; [done|]. exfalso. apply H1. intros ρ Hρ.
      specialize (Hm ρ Hρ). lia.
    + intros m Hm. destruct (Z.le_gt_cases 1 m) as [?|?]; [done|]. exfalso. apply H2. intros ρ Hρ.
      specialize (Hm ρ Hρ). specialize (Hb ρ). lia.
Qed.

Lemma getRange_ok q s : wf_query q -> getWidth (q_expr q) <= 64 -> s_inv s ->
  exists mn mx s', let w := getWidth (q_expr q) in
    getRange q s = Done (MkAPInt w mn, MkAPInt w mx, s') /\ s_inv s' /\ is_range q mn mx.
Proof.
  intros Hq Hw Hs. pose proof (wq_expr _ Hq) as He. pose proof (wf_width _ He) as Hpos. unfold getRange.
  set (w := getWidth (q_expr q)) in *. pose proof (pow2_mono w 64).
  match goal with |- context [?m ≫= _] => assert (exists mn mx s', m = Done (mn, mx, s') /\ s_inv s' /\
    0 <= mn <= mx /\ mx < 2 ^ w /\ is_range q mn mx) as (mn & mx & s' & -> & Hs' & Hmn & Hmx & Hr) end.
  { destruct (Z.eqb_spec w 1) as [Hw1|Hw1].
    - assert (bool_query q) as Hbq by done. destruct (evaluate_ok q s Hs Hbq) as (r & s' & E & Hs' & Hr).
      assert (r <> None) as Hne.
      { revert E. unfold evaluate. fold w. rewrite Hw1. cbn.
        destruct (q_expr q); try (by apply answers_validity). intros ?; by simplify_eq. }
      unfold answered. rewrite E. cbn. destruct r as [v|]; [|done]. specialize (Hr v eq_refl).
      pose proof (range_bool q v Hq Hw1 Hr). rewrite Hw1.
      destruct v; eexists _, _, _; (split; [done|]); (split; [done|]); (split; [lia|]); (split; [lia|done]).
    - pose proof (search_wide_ok q s Hq Hw Hs) as Hwide. fold w in Hwide.
      destruct (q_expr q) as [CE| | | | | | | |] eqn:E; try exact Hwide. clear Hwide. cbn in w. destruct He as [_ Hu]. unfold ConstantExpr_getZExtValue. fold w.
      rewrite (proj2 (Z.leb_le w 64)) by done. cbn [mbind outcome_bind].
      rewrite ap_getZExtValue_spec by (unfold w in *; lia). eexists _, _, _. split; [done|]. split; [done|].
      split; [unfold w in *; lia|]. split; [unfold w in *; lia|]. apply range_const; [apply Hq|].
      intros ρ _. by rewrite E. }
  cbn [mbind outcome_bind]. rewrite !ConstantExpr_create_spec by lia. cbn.
  exists mn, mx, s'. by split.
Qed.

End Range.
