(* ===== verification/IncompleteSolver.v ===== *)
(** Incomplete solvers, and [StagedSolverImpl], which asks one before a complete
    solver (IncompleteSolver.h, IncompleteSolver.cpp). *)
From stdpp Require Import base list numbers.
From Stdlib Require Import ZArith Lia.
From S2P Require Import Prelude APInt Bits Expr Semantics ConstantOps ExprCreate CreateSound OpsSound Solver.
Local Open Scope Z_scope.

(** [IncompleteSolver::PartialValidity] *)
Inductive PartialValidity : Type :=
| MustBeTrue | MustBeFalse | MayBeTrue | MayBeFalse | TrueOrFalse | PNone.

#[export] Instance PartialValidity_eq_dec : EqDecision PartialValidity.
Proof. solve_decision. Defined.

Definition negatePartialValidity (pv : PartialValidity) : outcome PartialValidity :=
  match pv with
  | MustBeTrue => Done MustBeFalse
  | MustBeFalse => Done MustBeTrue
  | MayBeTrue => Done MayBeFalse
  | MayBeFalse => Done MayBeTrue
  | TrueOrFalse => Done TrueOrFalse
  | PNone => AssertFail
  end.

Section Meaning.
Context {AP : APIntOps} {AH : ArrayHeap} {OP : ExprOptions}.

(** What a partial validity says about a query. *)
Definition pv_is (pv : PartialValidity) (q : Query) : Prop :=
  match pv with
  | MustBeTrue => valid q
  | MustBeFalse => valid_not q
  | MayBeTrue => ~ valid_not q
  | MayBeFalse => ~ valid q
  | TrueOrFalse => ~ valid q /\ ~ valid_not q
  | PNone => False
  end.

(** Negating a fact gives one of the negated query. *)
Lemma pv_negate pv q nq :
  (valid nq <-> valid_not q) -> (valid_not nq <-> valid q) -> pv_is pv q ->
  exists pv', negatePartialValidity pv = Done pv' /\ pv_is pv' nq.
Proof.
  intros H1 H2 Hp. destruct pv; cbn in Hp |- *; try done; eexists; (split; [done|]); cbn; tauto.
Qed.

End Meaning.

(** [computeTruth] and [computeValidity] answer what they can; [computeValue]
    may find none. *)
Class IncompleteSolver : Type := {
  i_computeTruth : Query -> outcome PartialValidity;
  i_computeValidity : Query -> outcome PartialValidity;
  i_computeValue : Query -> outcome (option APInt)
}.

(** The documentation of IncompleteSolver.h; [computeTruth] reports a failed
    proof as [MayBeFalse] and never as [MayBeTrue]. *)
Class SoundIncomplete `{IncompleteSolver} {AH : ArrayHeap} : Prop := {
  i_truth_ok q : bool_query q ->
    exists pv, i_computeTruth q = Done pv /\ (pv <> PNone -> pv_is pv q) /\ pv <> MayBeTrue;
  i_validity_ok q : bool_query q ->
    exists pv, i_computeValidity q = Done pv /\ (pv <> PNone -> pv_is pv q);
  i_value_ok q : wf_query q ->
    exists r, i_computeValue q = Done r /\
      forall a, r = Some a -> wf_apint a /\ getBitWidth a = getWidth (q_expr q) /\
        exists ρ, sat ρ (constraints q) /\ eval ρ (q_expr q) = uval a
}.

Section Default.
Context {AP : APIntOps} {AH : ArrayHeap} {OP : ExprOptions}.

(** [IncompleteSolver::computeValidity], on top of [computeTruth]. *)
Definition IncompleteSolver_computeValidity (truth : Query -> outcome PartialValidity) (q : Query)
    : outcome PartialValidity :=
  trueResult ← truth q;
  if decide (trueResult = MustBeTrue) then Done MustBeTrue
  else
    nq ← negateExpr q;
    falseResult ← truth nq;
    if decide (falseResult = MustBeTrue) then Done MustBeFalse
    else
      let trueCorrect := negb (bool_decide (trueResult = PNone)) in
      let falseCorrect := negb (bool_decide (falseResult = PNone)) in
      Done (if trueCorrect && falseCorrect then TrueOrFalse
            else if trueCorrect then MayBeFalse
            else if falseCorrect then MayBeTrue
            else PNone).

Context {APL : APIntLaws} (default_opt : ConstArrayOpt = false).

(** A truth other than [MustBeTrue] that is an answer says the query is not valid. *)
Lemma truth_not_valid pv q : bool_query q -> (pv <> PNone -> pv_is pv q) -> pv <> MayBeTrue -> pv <> PNone ->
  pv <> MustBeTrue -> ~ valid q.
Proof.
  intros [Hq _] Hp H1 H2 H3. specialize (Hp H2). destruct pv; cbn in Hp; try done; [|tauto].
  intros Hv. by eapply valid_excl.
Qed.

Lemma IncompleteSolver_computeValidity_ok truth q : bool_query q ->
  (forall q, bool_query q -> exists pv, truth q = Done pv /\ (pv <> PNone -> pv_is pv q) /\ pv <> MayBeTrue) ->
  exists pv, IncompleteSolver_computeValidity truth q = Done pv /\ (pv <> PNone -> pv_is pv q).
Proof.
  intros Hq Ht. unfold IncompleteSolver_computeValidity.
  destruct (Ht q Hq) as (tr & -> & Htr & Ntr). cbn [mbind outcome_bind].
  destruct (decide (tr = MustBeTrue)) as [->|N1]; [eexists; split; [done|by intros _; apply Htr]|].
  destruct (negateExpr_ok default_opt q Hq) as (nq & -> & Hnq & _ & Hn & _). cbn [mbind outcome_bind].
  destruct (Ht nq Hnq) as (fr & -> & Hfr & Nfr). cbn [mbind outcome_bind].
  destruct (decide (fr = MustBeTrue)) as [->|N2]; [eexists; split; [done|]; intros _; by apply Hn, Hfr|].
  assert (tr <> PNone -> ~ valid q) as Ht1 by (intros; by eapply truth_not_valid).
  assert (fr <> PNone -> ~ valid_not q) as Hf1 by (intros; rewrite <- Hn; by eapply truth_not_valid).
  eexists; split; [done|]. repeat case_bool_decide; cbn; auto.
Qed.

End Default.

(** ** [StagedSolverImpl] *)

Module StagedSolver.

Section Staged.
Context {AP : APIntOps} {AH : ArrayHeap} {OP : ExprOptions}.
Context {primary : IncompleteSolver} {S : Type} {ops : SolverImpl S}.

(** The state is the secondary solver's, wrapped. *)
Record t : Type := Mk { secondary : S }.

Definition ask {A} (f : S -> outcome (option A * S)) (s : t) : outcome (option A * t) :=
  r ← f (secondary s); Done ((r : option A * S).1, Mk r.2).

Definition computeTruth (q : Query) (s : t) : outcome (option bool * t) :=
  trueResult ← i_computeTruth q;
  if decide (trueResult = PNone) then ask (Solver.computeTruth q) s
  else Done (Some (bool_decide (trueResult = MustBeTrue)), s).

Definition computeValidity (q : Query) (s : t) : outcome (option Validity * t) :=
  pv ← i_computeValidity q;
  match pv with
  | MustBeTrue => Done (Some VTrue, s)
  | MustBeFalse => Done (Some VFalse, s)
  | TrueOrFalse => Done (Some VUnknown, s)
  | MayBeTrue =>
      r ← ask (Solver.computeTruth q) s;
      Done ((fun tmp : bool => if tmp then VTrue else VUnknown) <$> (r : option bool * t).1, r.2)
  | MayBeFalse =>
      nq ← negateExpr q;
      r ← ask (Solver.computeTruth nq) s;
      Done ((fun tmp : bool => if tmp then VFalse else VUnknown) <$> (r : option bool * t).1, r.2)
  | PNone => ask (Solver.computeValidity q) s
  end.

Definition computeValue (q : Query) (s : t) : outcome (option APInt * t) :=
  r ← i_computeValue q;
  match r with
  | Some a => Done (Some a, s)
  | None => ask (Solver.computeValue q) s
  end.

#[global] Instance ops_of : SolverImpl t := {|
  Solver.computeValidity := computeValidity;
  Solver.computeTruth := computeTruth;
  Solver.computeValue := computeValue
|}.

Context {APL : APIntLaws} (default_opt : ConstArrayOpt = false).
Context {psound : SoundIncomplete} {sol : SoundSolver S}.

(** Passing a question on. *)
Lemma ask_ok {A} (f : S -> outcome (option A * S)) (P : A -> Prop) s :
  (exists r s', f (secondary s) = Done (r, s') /\ s_inv s' /\ forall a, r = Some a -> P a) ->
  exists r s', ask f s = Done (r, s') /\ s_inv (secondary s') /\ forall a, r = Some a -> P a.
Proof. intros (r & s' & E & Hs & Hr). unfold ask. rewrite E. cbn. by eexists _, (Mk s'). Qed.

Lemma staged_computeValidity_ok q s : s_inv (secondary s) -> bool_query q ->
  exists r s', computeValidity q s = Done (r, s') /\ s_inv (secondary s') /\
    forall v, r = Some v -> validity_is v q.
Proof.
  intros Hs Hq. unfold computeValidity.
  destruct (i_validity_ok q Hq) as (pv & -> & Hpv). cbn [mbind outcome_bind].
  destruct pv; try (specialize (Hpv ltac:(done))); cbn in Hpv; try (eexists _, _; split; [done|]; split; [done|]; intros v Hv; by simplify_eq).
  - destruct (ask_ok (Solver.computeTruth q) (fun b => b = true <-> valid q) s) as (r & s' & -> & Hs' & Hr);
      [by apply truth_ok|]. cbn. eexists _, _. split; [done|]. split; [done|].
    intros v Hv. destruct r as [b|]; [|done]. specialize (Hr b eq_refl). cbn in Hv. simplify_eq.
    destruct b; cbn; [by apply Hr|]. split; [|done]. intros Hv. by apply Hr in Hv.
  - destruct (negateExpr_ok default_opt q Hq) as (nq & -> & Hnq & _ & Hn & _). cbn [mbind outcome_bind].
    destruct (ask_ok (Solver.computeTruth nq) (fun b => b = true <-> valid nq) s) as (r & s' & -> & Hs' & Hr);
      [by apply truth_ok|]. cbn. eexists _, _. split; [done|]. split; [done|].
    intros v Hv. destruct r as [b|]; [|done]. specialize (Hr b eq_refl). cbn in Hv. simplify_eq.
    destruct b; cbn; [by apply Hn, Hr|]. split; [done|]. intros Hv. apply Hn, Hr in Hv. done.
  - by apply ask_ok, validity_ok.
Qed.

(** A sound incomplete solver in front keeps a solver sound. *)
#[export] Instance sound_of : SoundSolver t.
Proof.
  refine {| s_inv := fun s => s_inv (secondary s) |}.
  - intros. by apply staged_computeValidity_ok.
  - intros q s Hs Hq. cbn. unfold computeTruth.
    destruct (i_truth_ok q Hq) as (pv & -> & Hpv & Hn). cbn [mbind outcome_bind].
    destruct (decide (pv = PNone)) as [->|Hne]; [by apply ask_ok, truth_ok|].
    eexists _, _. split; [done|]. split; [done|]. intros b Hb. simplify_eq. rewrite bool_decide_eq_true.
    split; [intros ->; by apply Hpv|]. intros Hv. destruct (decide (pv = MustBeTrue)) as [?|Hm]; [done|].
    exfalso. by eapply truth_not_valid.
  - intros q s Hs Hq. cbn. unfold computeValue.
    destruct (i_value_ok q Hq) as (r & -> & Hr). cbn [mbind outcome_bind].
    destruct r as [a|]; [|by apply ask_ok, value_ok]. by eexists _, _.
Defined.

(** It answers whenever the secondary solver does. *)
Lemma staged_total_of : TotalSolver S -> TotalSolver t.
Proof.
  intros Ht. split; intros q s r s' H; cbn in H; intros ->;
    unfold computeValidity, computeTruth, computeValue, ask in H; run_inv; total_solver.
Qed.

End Staged.
End StagedSolver.
