(* ===== verification/ValueRange.v ===== *)
(** Ranges of values (the first part of lib/Solver/FastCexSolver.cpp), and the
    evaluation of an expression to one (include/klee/Expr/ExprRangeEvaluator.h).

    [minOR] to [maxAND] are exact: they are the least and the greatest result of
    the operator on two ranges.  The range of an expression contains its values,
    but for concatenations whose right side is not a byte. *)
From stdpp Require Import base list numbers.
From Stdlib Require Import ZArith Lia.
From S2P Require Import Prelude APInt Bits Expr Semantics ConstantOps.
Local Open Scope Z_scope.

(** ** Bounds of bitwise operators *)

(** The loops visit the bits of a word from the highest to the lowest: [m] is a
    power of two, and [k] the number of bits that are left. *)
Fixpoint minOR_loop (k : nat) (a b c d : Z) : Z :=
  match k with
  | O => Z.lor a c
  | S k =>
      let m := Z.shiftl 1 (Z.of_nat k) in
      if negb (Z.land (Z.land (Z.lnot a) c) m =? 0) then
        let temp := Z.land (Z.lor a m) (u64 (- m)) in
        if temp <=? b then Z.lor temp c else minOR_loop k a b c d
      else if negb (Z.land (Z.land a (Z.lnot c)) m =? 0) then
        let temp := Z.land (Z.lor c m) (u64 (- m)) in
        if temp <=? d then Z.lor a temp else minOR_loop k a b c d
      else minOR_loop k a b c d
  end.

Definition minOR (a b c d : Z) : Z := minOR_loop 64 a b c d.

Fixpoint maxOR_loop (k : nat) (a b c d : Z) : Z :=
  match k with
  | O => Z.lor b d
  | S k =>
      let m := Z.shiftl 1 (Z.of_nat k) in
      if negb (Z.land (Z.land b d) m =? 0) then
        let temp := Z.lor (b - m) (m - 1) in
        if a <=? temp then Z.lor temp d
        else
          let temp := Z.lor (d - m) (m - 1) in
          if c <=? temp then Z.lor b temp else maxOR_loop k a b c d
      else maxOR_loop k a b c d
  end.

Definition maxOR (a b c d : Z) : Z := maxOR_loop 64 a b c d.

Fixpoint minAND_loop (k : nat) (a b c d : Z) : Z :=
  match k with
  | O => Z.land a c
  | S k =>
      let m := Z.shiftl 1 (Z.of_nat k) in
      if negb (Z.land (Z.land (Z.lnot a) (Z.lnot c)) m =? 0) then
        let temp := Z.land (Z.lor a m) (u64 (- m)) in
        if temp <=? b then Z.land temp c
        else
          let temp := Z.land (Z.lor c m) (u64 (- m)) in
          if temp <=? d then Z.land a temp else minAND_loop k a b c d
      else minAND_loop k a b c d
  end.

Definition minAND (a b c d : Z) : Z := minAND_loop 64 a b c d.

Fixpoint maxAND_loop (k : nat) (a b c d : Z) : Z :=
  match k with
  | O => Z.land b d
  | S k =>
      let m := Z.shiftl 1 (Z.of_nat k) in
      if negb (Z.land (Z.land b (Z.lnot d)) m =? 0) then
        let temp := Z.lor (Z.land b (Z.lnot m)) (m - 1) in
        if a <=? temp then Z.land temp d else maxAND_loop k a b c d
      else if negb (Z.land (Z.land (Z.lnot b) d) m =? 0) then
        let temp := Z.lor (Z.land d (Z.lnot m)) (m - 1) in
        if c <=? temp then Z.land b temp else maxAND_loop k a b c d
      else maxAND_loop k a b c d
  end.

Definition maxAND (a b c d : Z) : Z := maxAND_loop 64 a b c d.

(** ** [ValueRange] *)

(** Both bounds have 64 bits; a range whose minimum is above its maximum is
    empty. *)
Record ValueRange : Type := MkRange { m_min : Z; m_max : Z }.

#[export] Instance ValueRange_eq_dec : EqDecision ValueRange.
Proof. solve_decision. Defined.

Definition ValueRange_empty : ValueRange := MkRange 1 0.

Definition ValueRange_fixed (value : Z) : ValueRange := MkRange value value.

(** FIXME in the code: wide constants are taken for the largest word. *)
Definition ValueRange_constant (ce : APInt) : ValueRange :=
  ValueRange_fixed (ap_getLimitedValue ce (2 ^ 64 - 1)).

Definition ValueRange_isEmpty (r : ValueRange) : bool := m_max r <? m_min r.

Definition ValueRange_set_intersection (r b : ValueRange) : ValueRange :=
  MkRange (Z.max (m_min r) (m_min b)) (Z.min (m_max r) (m_max b)).

Definition ValueRange_set_union (r b : ValueRange) : ValueRange :=
  MkRange (Z.min (m_min r) (m_min b)) (Z.max (m_max r) (m_max b)).

Definition ValueRange_intersects (r b : ValueRange) : bool :=
  negb (ValueRange_isEmpty (ValueRange_set_intersection r b)).

Definition ValueRange_contains (r : ValueRange) (value : Z) : bool :=
  ValueRange_intersects r (ValueRange_fixed value).

Definition ValueRange_isFullRange (r : ValueRange) (bits : Z) : outcome bool :=
  if m_min r =? 0 then mx ← bits64_maxValueOfNBits bits; Done (m_max r =? mx) else Done false.

Definition ValueRange_set_difference (r b : ValueRange) : ValueRange :=
  if ValueRange_isEmpty b || (m_max r <? m_min b) || (m_max b <? m_min r) then r
  else if (m_min b <=? m_min r) && (m_max r <=? m_max b) then MkRange 1 0
  else if m_min b <=? m_min r then MkRange (u64 (m_max b + 1)) (m_max r)
  else if m_max r <=? m_max b then MkRange (m_min r) (u64 (m_min b - 1))
  else MkRange (m_min r) (u64 (m_min b - 1)).

Definition ValueRange_isFixed (r : ValueRange) : bool := m_min r =? m_max r.

Definition ValueRange_binaryAnd (r b : ValueRange) : outcome ValueRange :=
  Assert negb (ValueRange_isEmpty r) && negb (ValueRange_isEmpty b) ;;
  Done (if ValueRange_isFixed r && ValueRange_isFixed b
        then ValueRange_fixed (Z.land (m_min r) (m_min b))
        else MkRange (minAND (m_min r) (m_max r) (m_min b) (m_max b))
               (maxAND (m_min r) (m_max r) (m_min b) (m_max b))).

Definition ValueRange_binaryOr (r b : ValueRange) : outcome ValueRange :=
  Assert negb (ValueRange_isEmpty r) && negb (ValueRange_isEmpty b) ;;
  Done (if ValueRange_isFixed r && ValueRange_isFixed b
        then ValueRange_fixed (Z.lor (m_min r) (m_min b))
        else MkRange (minOR (m_min r) (m_max r) (m_min b) (m_max b))
               (maxOR (m_min r) (m_max r) (m_min b) (m_max b))).

(** The loop of [binaryXor]: the highest bit of [t].  It does not end for 0. *)
Fixpoint highest_bit (fuel : nat) (t : Z) : outcome Z :=
  match fuel with
  | O => OutOfFuel
  | S fuel =>
      if bits64_isPowerOfTwo t then Done t else highest_bit fuel (bits64_withoutRightmostBit t)
  end.

Definition ValueRange_binaryXor (r b : ValueRange) : outcome ValueRange :=
  if ValueRange_isFixed r && ValueRange_isFixed b
  then Done (ValueRange_fixed (Z.lxor (m_min r) (m_min b)))
  else
    t ← highest_bit 64 (Z.lor (m_max r) (m_max b));
    Done (MkRange 0 (u64 (u64 (Z.shiftl t 1) - 1))).

(** A shift by the width of the word or more is undefined. *)
Definition ValueRange_binaryShiftLeft (r : ValueRange) (bits : Z) : outcome ValueRange :=
  if bits <? 64 then Done (MkRange (u64 (Z.shiftl (m_min r) bits)) (u64 (Z.shiftl (m_max r) bits)))
  else Undefined.

Definition ValueRange_binaryShiftRight (r : ValueRange) (bits : Z) : outcome ValueRange :=
  if bits <? 64 then Done (MkRange (Z.shiftr (m_min r) bits) (Z.shiftr (m_max r) bits)) else Undefined.

Definition ValueRange_concat (r b : ValueRange) (bits : Z) : outcome ValueRange :=
  s ← ValueRange_binaryShiftLeft r bits; ValueRange_binaryOr s b.

Definition ValueRange_extract (r : ValueRange) (lowBit maxBit : Z) : outcome ValueRange :=
  s ← ValueRange_binaryShiftRight r lowBit;
  mx ← bits64_maxValueOfNBits (maxBit - lowBit);
  ValueRange_binaryAnd s (ValueRange_fixed mx).

(** [add], [sub], [mul], [udiv], [sdiv], [urem] and [srem] have the same body,
    which does not look at the operands. *)
Definition ValueRange_arith (r b : ValueRange) (width : Z) : outcome ValueRange :=
  mx ← bits64_maxValueOfNBits width; Done (MkRange 0 mx).

Definition ValueRange_mustEqual_value (r : ValueRange) (b : Z) : bool :=
  (m_min r =? m_max r) && (m_min r =? b).

Definition ValueRange_mayEqual_value (r : ValueRange) (b : Z) : bool :=
  (m_min r <=? b) && (b <=? m_max r).

Definition ValueRange_mustEqual (r b : ValueRange) : bool :=
  ValueRange_isFixed r && ValueRange_isFixed b && (m_min r =? m_min b).

Definition ValueRange_mayEqual (r b : ValueRange) : bool := ValueRange_intersects r b.

Definition ValueRange_min (r : ValueRange) : outcome Z :=
  Assert negb (ValueRange_isEmpty r) ;; Done (m_min r).

Definition ValueRange_max (r : ValueRange) : outcome Z :=
  Assert negb (ValueRange_isEmpty r) ;; Done (m_max r).

(** [int64_t] of a word. *)
Definition i64 (v : Z) : Z := to_signed 64 (u64 v).

(** [ints::sext] *)
Definition ints_sext (l outWidth inWidth : Z) : outcome Z :=
  let numInvalidBits := 64 - inWidth in
  if (0 <=? numInvalidBits) && (numInvalidBits <? 64) then
    bits64_truncateToNBits (u64 (Z.shiftr (i64 (Z.shiftl l numInvalidBits)) numInvalidBits)) outWidth
  else Undefined.

Definition sign_bit (bits : Z) : outcome Z := if 0 <? bits then Done (Z.shiftl 1 (bits - 1)) else Undefined.

(** The assertion shifts by [bits], which is undefined for a whole word. *)
Definition ValueRange_minSigned (r : ValueRange) (bits : Z) : outcome Z :=
  if bits <? 64 then
    Assert (Z.shiftr (m_min r) bits =? 0) && (Z.shiftr (m_max r) bits =? 0) ;;
    smallest ← sign_bit bits;
    if smallest <=? m_max r then s ← ints_sext smallest 64 bits; Done (i64 s) else Done (i64 (m_min r))
  else Undefined.

Definition ValueRange_maxSigned (r : ValueRange) (bits : Z) : outcome Z :=
  if bits <? 64 then
    Assert (Z.shiftr (m_min r) bits =? 0) && (Z.shiftr (m_max r) bits =? 0) ;;
    smallest ← sign_bit bits;
    if (m_min r <? smallest) && (smallest <=? m_max r) then Done (i64 (smallest - 1))
    else s ← ints_sext (m_max r) 64 bits; Done (i64 s)
  else Undefined.

(** ** The loops are exact *)

(** Numbers that share their quotient by a power of two are compared by what is
    below. *)
Lemma split_bit x K : 0 <= K -> x / 2 ^ K = 2 * (x / 2 ^ (K + 1)) + Z.b2z (Z.testbit x K).
Proof.
  intros. rewrite Z.testbit_spec' by done. rewrite Z.pow_add_r, Z.pow_1_r, <- Z.div_div by (try apply Z.pow_nonzero; lia).
  apply Z.div_mod. lia.
Qed.

Lemma lt_high x y K : 0 <= K -> x / 2 ^ K < y / 2 ^ K -> x < y.
Proof.
  intros HK H. destruct (Z.lt_ge_cases x y) as [|Hge]; [done|].
  pose proof (Z.div_le_mono y x (2 ^ K) (pow2_pos K HK) Hge). lia.
Qed.

Lemma le_low x y K : 0 <= K -> x / 2 ^ K = y / 2 ^ K -> x mod 2 ^ K <= y mod 2 ^ K -> x <= y.
Proof.
  intros HK E H. rewrite (Z.div_mod x (2 ^ K)), (Z.div_mod y (2 ^ K)) by (apply Z.pow_nonzero; lia). lia.
Qed.

Lemma high_lor x y K : 0 <= K -> Z.lor x y / 2 ^ K = Z.lor (x / 2 ^ K) (y / 2 ^ K).
Proof. intros. by rewrite <- !Z.shiftr_div_pow2, Z.shiftr_lor by done. Qed.

Lemma high_land x y K : 0 <= K -> Z.land x y / 2 ^ K = Z.land (x / 2 ^ K) (y / 2 ^ K).
Proof. intros. by rewrite <- !Z.shiftr_div_pow2, Z.shiftr_land by done. Qed.

Lemma low_lor x y K : 0 <= K -> Z.lor x y mod 2 ^ K = Z.lor (x mod 2 ^ K) (y mod 2 ^ K).
Proof. intros. by rewrite <- !Z.land_ones, Z.land_lor_distr_l by done. Qed.

Lemma low_land x y K : 0 <= K -> Z.land x y mod 2 ^ K = Z.land (x mod 2 ^ K) (y mod 2 ^ K).
Proof.
  intros. rewrite <- !Z.land_ones by done. apply Z.bits_inj'. intros n Hn. rewrite !Z.land_spec.
  by destruct (Z.testbit x n), (Z.testbit y n), (Z.testbit (Z.ones K) n).
Qed.

(** A word whose bits are among those of another is not above it. *)
Lemma subset_le a b : 0 <= a -> Z.ldiff b a = 0 -> b <= a.
Proof.
  intros Ha H. pose proof (Z.sub_nocarry_ldiff a b H). assert (0 <= Z.ldiff a b); [|lia].
  apply Z.ldiff_nonneg. by left.
Qed.

Lemma le_lor x y : 0 <= x -> 0 <= y -> x <= Z.lor x y /\ y <= Z.lor x y.
Proof.
  intros. assert (0 <= Z.lor x y) by (by apply Z.lor_nonneg).
  split; (apply subset_le; [done|]); apply Z.bits_inj'; intros n Hn;
    rewrite Z.ldiff_spec, Z.lor_spec, Z.bits_0; by destruct (Z.testbit x n), (Z.testbit y n).
Qed.

Lemma land_le x y : 0 <= x -> 0 <= y -> Z.land x y <= x /\ Z.land x y <= y.
Proof.
  intros. split; (apply subset_le; [done|]); apply Z.bits_inj'; intros n Hn;
    rewrite Z.ldiff_spec, Z.land_spec, Z.bits_0; by destruct (Z.testbit x n), (Z.testbit y n).
Qed.

(** The numbers the loops try: the bit [K] set and nothing below it, and the bit
    [K] clear and all below it set. *)
Lemma testbit_pow2 K n : 0 <= K -> 0 <= n -> Z.testbit (2 ^ K) n = (K =? n).
Proof. intros. by rewrite Z.pow2_bits_eqb. Qed.

Lemma mask_bit x K : 0 <= K -> negb (Z.land x (Z.shiftl 1 K) =? 0) = Z.testbit x K.
Proof.
  intros HK. rewrite Z.shiftl_mul_pow2, Z.mul_1_l by done. destruct (Z.testbit x K) eqn:Hb.
  - apply negb_true_iff, Z.eqb_neq. intros H. assert (Z.testbit (Z.land x (2 ^ K)) K = true) as Ht.
    { by rewrite Z.land_spec, Hb, testbit_pow2, Z.eqb_refl by done. }
    by rewrite H, Z.bits_0 in Ht.
  - apply negb_false_iff, Z.eqb_eq, Z.bits_inj'. intros n Hn. rewrite Z.land_spec, testbit_pow2, Z.bits_0 by done.
    destruct (Z.eqb_spec K n) as [<-|]; [by rewrite Hb|apply andb_false_r].
Qed.

Definition low_try (x K : Z) : Z := (2 * (x / 2 ^ (K + 1)) + 1) * 2 ^ K.
Definition high_try (x K : Z) : Z := 2 * (x / 2 ^ (K + 1)) * 2 ^ K + (2 ^ K - 1).

Lemma low_try_spec x K : 0 <= K < 64 -> 0 <= x < 2 ^ 64 ->
  Z.land (Z.lor x (Z.shiftl 1 K)) (u64 (- Z.shiftl 1 K)) = low_try x K.
Proof.
  intros HK Hx. rewrite Z.shiftl_mul_pow2, Z.mul_1_l by lia. pose proof (pow2_pos K ltac:(lia)).
  assert (u64 (- 2 ^ K) = Z.shiftl (Z.ones (64 - K)) K) as ->.
  { unfold u64. rewrite Z.shiftl_mul_pow2, Z.ones_equiv, <- Z.sub_1_r, Z.mul_sub_distr_r, <- Z.pow_add_r by lia.
    replace (64 - K + K) with 64 by lia. rewrite Z.mul_1_l, <- (Z.mod_small (2 ^ 64 - 2 ^ K) (2 ^ 64)).
    - apply mod_eq_of_diff; [lia|]. exists (-1). lia.
    - pose proof (pow2_mono K 64 ltac:(lia)) as Hm. change (2 ^ 64) with 18446744073709551616 in *. lia. }
  unfold low_try. rewrite <- Z.shiftl_mul_pow2 by lia. apply Z.bits_inj'. intros n Hn.
  rewrite Z.land_spec, Z.lor_spec, testbit_pow2, !Z.shiftl_spec by lia.
  destruct (Z.lt_ge_cases n K) as [Hlt|Hge].
  { rewrite !(Z.testbit_neg_r _ (n - K)) by lia. apply andb_false_r. }
  destruct (Z.eqb_spec K n) as [<-|Hne].
  { rewrite orb_true_r, Z.sub_diag, Z.testbit_odd_0, Z.ones_spec_low by lia. done. }
  replace (n - K) with (Z.succ (n - K - 1)) by lia. rewrite Z.testbit_odd_succ by lia.
  rewrite <- Z.shiftr_div_pow2, Z.shiftr_spec by lia. replace (n - K - 1 + (K + 1)) with n by lia.
  rewrite orb_false_r. destruct (Z.lt_ge_cases n 64) as [H64|H64].
  - rewrite Z.ones_spec_low by lia. apply andb_true_r.
  - rewrite Z.ones_spec_high by lia. rewrite andb_false_r. symmetry. destruct (Z.eq_dec x 0) as [->|]; [by rewrite Z.bits_0|].
    apply Z.bits_above_log2; [lia|]. apply Z.log2_lt_pow2; [lia|]. pose proof (pow2_mono 64 n ltac:(lia)). lia.
Qed.

Lemma high_try_spec x K : 0 <= K -> Z.testbit x K = true ->
  Z.lor (x - Z.shiftl 1 K) (Z.shiftl 1 K - 1) = high_try x K /\
  Z.lor (Z.land x (Z.lnot (Z.shiftl 1 K))) (Z.shiftl 1 K - 1) = high_try x K.
Proof.
  intros HK Hb. rewrite Z.shiftl_mul_pow2, Z.mul_1_l, <- Z.ldiff_land by lia. pose proof (pow2_pos K HK).
  assert (x - 2 ^ K = Z.ldiff x (2 ^ K)) as <-.
  { apply Z.sub_nocarry_ldiff, Z.bits_inj'. intros n Hn. rewrite Z.ldiff_spec, testbit_pow2, Z.bits_0 by done.
    destruct (Z.eqb_spec K n) as [<-|]; [by rewrite Hb|done]. }
  enough (Z.lor (x - 2 ^ K) (2 ^ K - 1) = high_try x K) by done.
  rewrite (Z.div_mod (Z.lor _ _) (2 ^ K)) by lia. unfold high_try. f_equal.
  - rewrite high_lor, (Z.div_small (2 ^ K - 1)), Z.lor_0_r by lia.
    replace (x - 2 ^ K) with (x + (-1) * 2 ^ K) by lia. rewrite Z.div_add, (split_bit x K), Hb by lia. cbn. lia.
  - replace (2 ^ K - 1) with (Z.ones K) by (rewrite Z.ones_equiv; lia).
    apply Z.bits_inj'. intros n Hn. destruct (Z.lt_ge_cases n K).
    + by rewrite Z.mod_pow2_bits_low, Z.lor_spec, Z.ones_spec_low, orb_true_r by lia.
    + by rewrite Z.mod_pow2_bits_high, Z.ones_spec_high by lia.
Qed.

Lemma div_high z K : 0 <= K -> z / 2 ^ (K + 1) = z / 2 ^ K / 2.
Proof. intros. rewrite Z.pow_add_r, Z.pow_1_r, Z.div_div by (try apply Z.pow_nonzero; lia). done. Qed.

Lemma low_try_div x K : 0 <= K -> low_try x K / 2 ^ K = 2 * (x / 2 ^ (K + 1)) + 1 /\ low_try x K mod 2 ^ K = 0.
Proof. intros HK. pose proof (pow2_pos K HK). unfold low_try. by rewrite Z.div_mul, Z.mod_mul by lia. Qed.

Lemma high_try_div x K : 0 <= K ->
  high_try x K / 2 ^ K = 2 * (x / 2 ^ (K + 1)) /\ high_try x K mod 2 ^ K = 2 ^ K - 1.
Proof.
  intros HK. pose proof (pow2_pos K HK). unfold high_try. split.
  - rewrite Z.div_add_l, (Z.div_small (2 ^ K - 1)) by lia. lia.
  - rewrite Z.add_comm, Z_mod_plus_full. apply Z.mod_small. lia.
Qed.

Section Bit.
Context (K : Z) (HK : 0 <= K).

Abbreviation above x := (x / 2 ^ (K + 1)).
Abbreviation at_bit x := (Z.testbit x K).

Lemma keep_bit x a : above x = above a -> at_bit x = at_bit a -> x / 2 ^ K = a / 2 ^ K.
Proof. intros H1 H2. by rewrite !(split_bit _ K), H1, H2 by done. Qed.

Lemma bit_up x a : a <= x -> above x = above a -> at_bit a = true -> at_bit x = true.
Proof.
  intros Hle H Hb. pose proof (Z.div_le_mono a x (2 ^ K) (pow2_pos K HK) Hle) as Hd.
  rewrite !(split_bit _ K), Hb, H in Hd by done. destruct (at_bit x); cbn in Hd; [done|lia].
Qed.

Lemma bit_down x b : x <= b -> above x = above b -> at_bit b = false -> at_bit x = false.
Proof.
  intros Hle H Hb. destruct (at_bit x) eqn:Hx; [|done]. pose proof (bit_up b x Hle ltac:(done) Hx). congruence.
Qed.

Lemma not_tried_low x a b : b < low_try a K -> x <= b -> above x = above a -> at_bit x = false.
Proof.
  intros Hb Hx H. destruct (at_bit x) eqn:E; [|done]. destruct (low_try_div a K HK) as [D M].
  pose proof (pow2_pos K HK). pose proof (Z.mod_pos_bound x (2 ^ K)).
  assert (low_try a K <= x); [|lia]. apply (le_low _ _ K HK); [|lia]. by rewrite D, (split_bit x K), E, H by done.
Qed.

Lemma not_tried_high x a b : high_try b K < a -> a <= x -> above x = above b -> at_bit x = true.
Proof.
  intros Hb Hx H. destruct (at_bit x) eqn:E; [done|]. destruct (high_try_div b K HK) as [D M].
  pose proof (pow2_pos K HK). pose proof (Z.mod_pos_bound x (2 ^ K)).
  assert (x <= high_try b K); [|lia]. apply (le_low _ _ K HK); [|lia]. rewrite D, (split_bit x K), E, H by done. cbn. lia.
Qed.

Lemma low_try_above a : at_bit a = false -> a <= low_try a K.
Proof.
  intros Hb. apply Z.lt_le_incl, (lt_high _ _ K HK). destruct (low_try_div a K HK) as [-> _].
  rewrite (split_bit a K), Hb by done. cbn. lia.
Qed.

Lemma high_try_below b : at_bit b = true -> high_try b K <= b.
Proof.
  intros Hb. apply Z.lt_le_incl, (lt_high _ _ K HK). destruct (high_try_div b K HK) as [-> _].
  rewrite (split_bit b K), Hb by done. cbn. lia.
Qed.

Lemma lor_split x y : Z.lor x y / 2 ^ K = 2 * Z.lor (above x) (above y) + Z.b2z (at_bit x || at_bit y).
Proof. rewrite (split_bit _ K), high_lor, Z.lor_spec by lia. done. Qed.

Lemma land_split x y : Z.land x y / 2 ^ K = 2 * Z.land (above x) (above y) + Z.b2z (at_bit x && at_bit y).
Proof. rewrite (split_bit _ K), high_land, Z.land_spec by lia. done. Qed.

Lemma low_try_same a : above (low_try a K) = above a /\ at_bit (low_try a K) = true.
Proof.
  pose proof (proj1 (low_try_div a K HK)) as H. pose proof (split_bit (low_try a K) K HK) as S.
  rewrite div_high, H in S |- * by done. change (2 * above a + 1) with (2 * above a + Z.b2z true) in *.
  rewrite Z.add_comm, Z.add_b2z_double_div2 in S |- *. split; [done|]. destruct (at_bit _); cbn in S; [done|lia].
Qed.

Lemma high_try_same b : above (high_try b K) = above b /\ at_bit (high_try b K) = false.
Proof.
  pose proof (proj1 (high_try_div b K HK)) as H. pose proof (split_bit (high_try b K) K HK) as S.
  rewrite div_high, H in S |- * by done. replace (2 * above b) with (2 * above b + Z.b2z false) in * by (cbn; lia).
  rewrite Z.add_comm, Z.add_b2z_double_div2 in S |- *. split; [done|]. destruct (at_bit _); cbn in S; [lia|done].
Qed.

(** Numbers compared by their quotients, and what is below them. *)
Lemma below_low r z : r / 2 ^ K <= z / 2 ^ K -> r mod 2 ^ K = 0 -> r <= z.
Proof.
  intros H M. pose proof (pow2_pos K HK). pose proof (Z.mod_pos_bound z (2 ^ K)).
  rewrite (Z.div_mod r (2 ^ K)), (Z.div_mod z (2 ^ K)) by lia. nia.
Qed.

Lemma below_high r z : z / 2 ^ K <= r / 2 ^ K -> r mod 2 ^ K = 2 ^ K - 1 -> z <= r.
Proof.
  intros H M. pose proof (pow2_pos K HK). pose proof (Z.mod_pos_bound z (2 ^ K)).
  rewrite (Z.div_mod r (2 ^ K)), (Z.div_mod z (2 ^ K)) by lia. nia.
Qed.

Lemma low_mono x y : x <= y -> x / 2 ^ K = y / 2 ^ K -> x mod 2 ^ K <= y mod 2 ^ K.
Proof.
  intros H E. pose proof (pow2_pos K HK).
  rewrite (Z.div_mod x (2 ^ K)), (Z.div_mod y (2 ^ K)) in H by lia. lia.
Qed.

(** The results the loops stop with are at the end of what is left. *)
Lemma stop_minOR x y t c : 0 <= c -> c <= y -> above x = above t -> y / 2 ^ K = c / 2 ^ K -> above y = above c ->
  t mod 2 ^ K = 0 -> at_bit c = true -> Z.lor t c <= Z.lor x y.
Proof.
  intros Hc Hy Hx E Ey Ht Hb. pose proof (pow2_pos K HK). apply (le_low _ _ K HK).
  - rewrite !lor_split, Hx, Ey, (bit_up y c Hy Ey Hb), Hb, !orb_true_r by done. done.
  - rewrite !low_lor, Ht, Z.lor_0_l by done. pose proof (low_mono c y Hy ltac:(done)).
    pose proof (le_lor (x mod 2 ^ K) (y mod 2 ^ K)). pose proof (Z.mod_pos_bound x (2 ^ K)).
    pose proof (Z.mod_pos_bound y (2 ^ K)). lia.
Qed.

Lemma stop_maxOR x y t d : 0 <= d -> above x = above t -> above y = above d ->
  t mod 2 ^ K = 2 ^ K - 1 -> at_bit d = true -> Z.lor x y <= Z.lor t d.
Proof.
  intros Hd Hx Hy Ht Hb. pose proof (pow2_pos K HK). apply below_high.
  - rewrite !lor_split, Hx, Hy, Hb, orb_true_r by done. destruct (at_bit x || at_bit y); cbn; lia.
  - rewrite low_lor, Ht by done. pose proof (Z.mod_pos_bound d (2 ^ K)).
    pose proof (le_lor (2 ^ K - 1) (d mod 2 ^ K) ltac:(lia) ltac:(lia)).
    pose proof (bitop_range Z.lor orb K (2 ^ K - 1) (d mod 2 ^ K) Z.lor_spec eq_refl HK ltac:(lia) ltac:(lia)). lia.
Qed.

Lemma stop_minAND x y t c : above x = above t -> above y = above c ->
  t mod 2 ^ K = 0 -> at_bit c = false -> Z.land t c <= Z.land x y.
Proof.
  intros Hx Hy Ht Hb. apply below_low.
  - rewrite !land_split, Hx, Hy, Hb, andb_false_r by done. destruct (at_bit x && at_bit y); cbn; lia.
  - by rewrite low_land, Ht, Z.land_0_l by done.
Qed.

Lemma stop_maxAND x y t d : y <= d -> above x = above t -> above y = above d -> y / 2 ^ K = d / 2 ^ K ->
  t mod 2 ^ K = 2 ^ K - 1 -> at_bit d = false -> Z.land x y <= Z.land t d.
Proof.
  intros Hy Hx Ey E Ht Hb. pose proof (pow2_pos K HK). apply (le_low _ _ K HK).
  - rewrite !land_split, Hx, Ey, Hb, (bit_down y d Hy Ey Hb), !andb_false_r by done. done.
  - rewrite !low_land, Ht by done. replace (2 ^ K - 1) with (Z.ones K) by (rewrite Z.ones_equiv; lia).
    rewrite (Z.land_comm (Z.ones K)), Z.land_ones, Zmod_mod by done.
    pose proof (low_mono y d Hy E). pose proof (Z.mod_pos_bound x (2 ^ K)). pose proof (Z.mod_pos_bound y (2 ^ K)).
    pose proof (land_le (x mod 2 ^ K) (y mod 2 ^ K)). lia.
Qed.

End Bit.



Lemma lt_high_le x y K : 0 <= K -> x / 2 ^ K < y / 2 ^ K -> x <= y.
Proof. intros HK H. by apply Z.lt_le_incl, (lt_high _ _ K). Qed.

Lemma gt_high_ge x y K : 0 <= K -> x / 2 ^ K > y / 2 ^ K -> x >= y.
Proof. intros HK H. apply Z.le_ge, (lt_high_le _ _ K); [done|lia]. Qed.

(** A loop computes a result of the operator on the two ranges; among the
    operands that agree with [a'] and [c'] above the bits that are left, no
    result is beyond it. *)
Record loop_ok (op : Z -> Z -> Z) (le : Z -> Z -> Prop) (k : nat) (a b c d a' c' r : Z) : Prop := MkLoopOk {
  lo_high : r / 2 ^ Z.of_nat k = op a' c' / 2 ^ Z.of_nat k;
  lo_reached : exists x y, a <= x <= b /\ c <= y <= d /\ r = op x y;
  lo_end x y : a <= x <= b -> c <= y <= d ->
    x / 2 ^ Z.of_nat k = a' / 2 ^ Z.of_nat k -> y / 2 ^ Z.of_nat k = c' / 2 ^ Z.of_nat k -> le r (op x y)
}.

Section Loop.
Context (op : Z -> Z -> Z) (le lt : Z -> Z -> Prop).
Context (op_high : forall x y K, 0 <= K -> op x y / 2 ^ K = op (x / 2 ^ K) (y / 2 ^ K)).
Context (le_refl : forall x, le x x) (lt_le : forall x y K, 0 <= K -> lt (x / 2 ^ K) (y / 2 ^ K) -> le x y).
Context (k : nat) (a b c d a' c' : Z).

Abbreviation K := (Z.of_nat k).

Lemma loop_end (Ha : a <= a' <= b) (Hc : c <= c' <= d) : loop_ok op le 0 a b c d a' c' (op a' c').
Proof.
  split; [done|by exists a', c'|]. intros x y _ _. cbn [Z.of_nat]. rewrite !Z.div_1_r. by intros -> ->.
Qed.

(** One more bit, of which the result with the bounds has the right value or
    the operands have the bits of the bounds. *)
Lemma loop_next r : loop_ok op le k a b c d a' c' r ->
  (forall x y, a <= x <= b -> c <= y <= d ->
    x / 2 ^ (K + 1) = a' / 2 ^ (K + 1) -> y / 2 ^ (K + 1) = c' / 2 ^ (K + 1) ->
    (Z.testbit x K = Z.testbit a' K /\ Z.testbit y K = Z.testbit c' K) \/ lt (op a' c' / 2 ^ K) (op x y / 2 ^ K)) ->
  loop_ok op le (S k) a b c d a' c' r.
Proof.
  intros [H1 H2 H3] Hxy. split; rewrite ?Nat2Z.inj_succ, <- ?Z.add_1_r; [|done|].
  - by rewrite !div_high, H1 by lia.
  - intros x y Hx Hy Ex Ey. destruct (Hxy x y Hx Hy Ex Ey) as [[? ?]|Hlt].
    + apply H3; [done..| |]; by apply keep_bit; [lia|..].
    + apply (lt_le _ _ K); [lia|]. by rewrite H1.
Qed.

(** The loop stops with other operands. *)
Lemma loop_stop t u : a <= t <= b -> c <= u <= d ->
  t / 2 ^ (K + 1) = a' / 2 ^ (K + 1) -> u / 2 ^ (K + 1) = c' / 2 ^ (K + 1) ->
  (forall x y, a <= x <= b -> c <= y <= d ->
    x / 2 ^ (K + 1) = a' / 2 ^ (K + 1) -> y / 2 ^ (K + 1) = c' / 2 ^ (K + 1) -> le (op t u) (op x y)) ->
  loop_ok op le (S k) a b c d a' c' (op t u).
Proof.
  intros Ht Hu Et Eu H. split; rewrite ?Nat2Z.inj_succ, <- ?Z.add_1_r; [|by exists t, u|by apply H].
  by rewrite !op_high, Et, Eu by lia.
Qed.

End Loop.

(** The cases of a round: it goes on, or it stops with a try. *)
Ltac loop_round := cbn [negb andb];
  try match goal with |- context [if ?t <=? ?u then _ else _] => destruct (Z.leb_spec t u) end.

Lemma minOR_loop_ok k a b c d : (k <= 64)%nat -> 0 <= a <= b -> b < 2 ^ 64 -> 0 <= c <= d -> d < 2 ^ 64 ->
  loop_ok Z.lor Z.le k a b c d a c (minOR_loop k a b c d).
Proof.
  intros Hk Ha Hb Hc Hd. induction k as [|k IH]; [apply (loop_end Z.lor Z.le Z.le_refl); lia|].
  specialize (IH ltac:(lia)). cbn [minOR_loop]. set (K := Z.of_nat k) in *.
  assert (0 <= K) as HK by lia. rewrite !mask_bit, !low_try_spec, !Z.land_spec, !Z.lnot_spec by lia.
  pose proof (fun x => low_try_same K HK x) as Hsame. pose proof (fun x => low_try_div x K HK) as Hdiv.
  pose proof (loop_next Z.lor Z.le Z.lt lt_high_le k a b c d a c _ IH) as Hnext. fold K in Hnext.
  pose proof (fun t u => loop_stop Z.lor Z.le high_lor k a b c d a c t u) as Hstop. fold K in Hstop.
  pose proof (low_try_above K HK) as Habove.
  destruct (Z.testbit a K) eqn:Ba, (Z.testbit c K) eqn:Bc; loop_round.
  - apply Hnext. intros x y Hx Hy Ex Ey. left. by rewrite (bit_up K HK x a), (bit_up K HK y c) by (done || lia).
  - apply Hstop; [lia|specialize (Habove c Bc); lia|done|apply Hsame|]. intros x y Hx Hy Ex Ey.
    rewrite Z.lor_comm, (Z.lor_comm x). apply (stop_minOR K HK); try done; try lia; [| |apply Hdiv].
    + by rewrite Ey, (proj1 (Hsame c)).
    + apply keep_bit; [done..|]. by rewrite Ba, (bit_up K HK x a) by (done || lia).
  - apply Hnext. intros x y Hx Hy Ex Ey. left. rewrite (bit_up K HK x a) by (done || lia).
    by rewrite (not_tried_low K HK y c d) by (done || lia).
  - apply Hstop; [specialize (Habove a Ba); lia|lia|apply Hsame|done|]. intros x y Hx Hy Ex Ey.
    apply (stop_minOR K HK); try done; try lia; [| |apply Hdiv].
    + by rewrite Ex, (proj1 (Hsame a)).
    + apply keep_bit; [done..|]. by rewrite Bc, (bit_up K HK y c) by (done || lia).
  - apply Hnext. intros x y Hx Hy Ex Ey. left. rewrite (bit_up K HK y c) by (done || lia).
    by rewrite (not_tried_low K HK x a b) by (done || lia).
  - apply Hnext. intros x y Hx Hy Ex Ey. rewrite !(lor_split K HK), Ba, Bc, Ex, Ey.
    destruct (Z.testbit x K), (Z.testbit y K); cbn; (by left) || (right; lia).
Qed.

Lemma maxOR_loop_ok k a b c d : (k <= 64)%nat -> 0 <= a <= b -> b < 2 ^ 64 -> 0 <= c <= d -> d < 2 ^ 64 ->
  loop_ok Z.lor Z.ge k a b c d b d (maxOR_loop k a b c d).
Proof.
  intros Hk Ha Hb Hc Hd. induction k as [|k IH]; [apply (loop_end Z.lor Z.ge); lia|].
  specialize (IH ltac:(lia)). cbn [maxOR_loop]. set (K := Z.of_nat k) in *.
  assert (0 <= K) as HK by lia. rewrite !mask_bit, !Z.land_spec by lia.
  pose proof (fun x => high_try_same K HK x) as Hsame. pose proof (fun x => high_try_div x K HK) as Hdiv.
  pose proof (loop_next Z.lor Z.ge Z.gt gt_high_ge k a b c d b d _ IH) as Hnext. fold K in Hnext.
  pose proof (fun t u => loop_stop Z.lor Z.ge high_lor k a b c d b d t u) as Hstop. fold K in Hstop.
  pose proof (high_try_below K HK) as Hbelow. pose proof (fun x => high_try_spec x K HK) as Htry.
  destruct (Z.testbit b K) eqn:Bb, (Z.testbit d K) eqn:Bd; loop_round;
    rewrite ?(proj1 (Htry b Bb)), ?(proj1 (Htry d Bd)) in *.
  - apply Hstop; [specialize (Hbelow b Bb); lia|lia|apply Hsame|done|]. intros x y Hx Hy Ex Ey.
    apply Z.le_ge, (stop_maxOR K HK); try done; try lia; [|apply Hdiv]. by rewrite Ex, (proj1 (Hsame b)).
  - loop_round.
    + apply Hstop; [lia|specialize (Hbelow d Bd); lia|done|apply Hsame|]. intros x y Hx Hy Ex Ey.
      rewrite Z.lor_comm, (Z.lor_comm x). apply Z.le_ge, (stop_maxOR K HK); try done; try lia; [|apply Hdiv].
      by rewrite Ey, (proj1 (Hsame d)).
    + apply Hnext. intros x y Hx Hy Ex Ey. left.
      by rewrite (not_tried_high K HK x a b), (not_tried_high K HK y c d) by (done || lia).
  - apply Hnext. intros x y Hx Hy Ex Ey. rewrite !(lor_split K HK), Bb, Bd, Ex, Ey.
    rewrite (bit_down K HK y d) by (done || lia). destruct (Z.testbit x K); cbn; (by left) || (right; lia).
  - apply Hnext. intros x y Hx Hy Ex Ey. rewrite !(lor_split K HK), Bb, Bd, Ex, Ey.
    rewrite (bit_down K HK x b) by (done || lia). destruct (Z.testbit y K); cbn; (by left) || (right; lia).
  - apply Hnext. intros x y Hx Hy Ex Ey. left. by rewrite (bit_down K HK x b), (bit_down K HK y d) by (done || lia).
Qed.

Lemma minAND_loop_ok k a b c d : (k <= 64)%nat -> 0 <= a <= b -> b < 2 ^ 64 -> 0 <= c <= d -> d < 2 ^ 64 ->
  loop_ok Z.land Z.le k a b c d a c (minAND_loop k a b c d).
Proof.
  intros Hk Ha Hb Hc Hd. induction k as [|k IH]; [apply (loop_end Z.land Z.le Z.le_refl); lia|].
  specialize (IH ltac:(lia)). cbn [minAND_loop]. set (K := Z.of_nat k) in *.
  assert (0 <= K) as HK by lia. rewrite !mask_bit, !low_try_spec, !Z.land_spec, !Z.lnot_spec by lia.
  pose proof (fun x => low_try_same K HK x) as Hsame. pose proof (fun x => low_try_div x K HK) as Hdiv.
  pose proof (loop_next Z.land Z.le Z.lt lt_high_le k a b c d a c _ IH) as Hnext. fold K in Hnext.
  pose proof (fun t u => loop_stop Z.land Z.le high_land k a b c d a c t u) as Hstop. fold K in Hstop.
  pose proof (low_try_above K HK) as Habove.
  destruct (Z.testbit a K) eqn:Ba, (Z.testbit c K) eqn:Bc; loop_round.
  - apply Hnext. intros x y Hx Hy Ex Ey. left. by rewrite (bit_up K HK x a), (bit_up K HK y c) by (done || lia).
  - apply Hnext. intros x y Hx Hy Ex Ey. rewrite !(land_split K HK), Ba, Bc, Ex, Ey.
    rewrite (bit_up K HK x a) by (done || lia). destruct (Z.testbit y K); cbn; (by left) || (right; lia).
  - apply Hnext. intros x y Hx Hy Ex Ey. rewrite !(land_split K HK), Ba, Bc, Ex, Ey.
    rewrite (bit_up K HK y c) by (done || lia). destruct (Z.testbit x K); cbn; (by left) || (right; lia).
  - apply Hstop; [specialize (Habove a Ba); lia|lia|apply Hsame|done|]. intros x y Hx Hy Ex Ey.
    apply (stop_minAND K HK); try done; [|apply Hdiv]. by rewrite Ex, (proj1 (Hsame a)).
  - loop_round.
    + apply Hstop; [lia|specialize (Habove c Bc); lia|done|apply Hsame|]. intros x y Hx Hy Ex Ey.
      rewrite Z.land_comm, (Z.land_comm x). apply (stop_minAND K HK); try done; [|apply Hdiv].
      by rewrite Ey, (proj1 (Hsame c)).
    + apply Hnext. intros x y Hx Hy Ex Ey. left.
      by rewrite (not_tried_low K HK x a b), (not_tried_low K HK y c d) by (done || lia).
Qed.

Lemma maxAND_loop_ok k a b c d : (k <= 64)%nat -> 0 <= a <= b -> b < 2 ^ 64 -> 0 <= c <= d -> d < 2 ^ 64 ->
  loop_ok Z.land Z.ge k a b c d b d (maxAND_loop k a b c d).
Proof.
  intros Hk Ha Hb Hc Hd. induction k as [|k IH]; [apply (loop_end Z.land Z.ge); lia|].
  specialize (IH ltac:(lia)). cbn [maxAND_loop]. set (K := Z.of_nat k) in *.
  assert (0 <= K) as HK by lia. rewrite !mask_bit, !Z.land_spec, !Z.lnot_spec by lia.
  pose proof (fun x => high_try_same K HK x) as Hsame. pose proof (fun x => high_try_div x K HK) as Hdiv.
  pose proof (loop_next Z.land Z.ge Z.gt gt_high_ge k a b c d b d _ IH) as Hnext. fold K in Hnext.
  pose proof (fun t u => loop_stop Z.land Z.ge high_land k a b c d b d t u) as Hstop. fold K in Hstop.
  pose proof (high_try_below K HK) as Hbelow. pose proof (fun x => high_try_spec x K HK) as Htry.
  destruct (Z.testbit b K) eqn:Bb, (Z.testbit d K) eqn:Bd; cbn [negb andb];
    rewrite ?(proj2 (Htry b Bb)), ?(proj2 (Htry d Bd)); loop_round.
  - apply Hnext. intros x y Hx Hy Ex Ey. rewrite !(land_split K HK), Bb, Bd, Ex, Ey.
    destruct (Z.testbit x K), (Z.testbit y K); cbn; (by left) || (right; lia).
  - apply Hstop; [specialize (Hbelow b Bb); lia|lia|apply Hsame|done|]. intros x y Hx Hy Ex Ey.
    apply Z.le_ge, (stop_maxAND K HK); try done; try lia; [| |apply Hdiv].
    + by rewrite Ex, (proj1 (Hsame b)).
    + apply keep_bit; [done..|]. by rewrite Bd, (bit_down K HK y d) by (done || lia).
  - apply Hnext. intros x y Hx Hy Ex Ey. left. rewrite (bit_down K HK y d) by (done || lia).
    by rewrite (not_tried_high K HK x a b) by (done || lia).
  - apply Hstop; [lia|specialize (Hbelow d Bd); lia|done|apply Hsame|]. intros x y Hx Hy Ex Ey.
    rewrite Z.land_comm, (Z.land_comm x). apply Z.le_ge, (stop_maxAND K HK); try done; try lia; [| |apply Hdiv].
    + by rewrite Ey, (proj1 (Hsame d)).
    + apply keep_bit; [done..|]. by rewrite Bb, (bit_down K HK x b) by (done || lia).
  - apply Hnext. intros x y Hx Hy Ex Ey. left. rewrite (bit_down K HK x b) by (done || lia).
    by rewrite (not_tried_high K HK y c d) by (done || lia).
  - apply Hnext. intros x y Hx Hy Ex Ey. left. by rewrite (bit_down K HK x b), (bit_down K HK y d) by (done || lia).
Qed.

(** [lo, hi] are the least and the greatest of the results of [op] on two ranges. *)
Definition bounds_of (op : Z -> Z -> Z) (a b c d lo hi : Z) : Prop :=
  (forall x y, a <= x <= b -> c <= y <= d -> lo <= op x y <= hi) /\
  (exists x y, a <= x <= b /\ c <= y <= d /\ lo = op x y) /\
  (exists x y, a <= x <= b /\ c <= y <= d /\ hi = op x y).

Lemma loops_bounds op a b c d a1 c1 a2 c2 lo hi : 0 <= a -> b < 2 ^ 64 -> 0 <= c -> d < 2 ^ 64 ->
  a <= a1 <= b -> c <= c1 <= d -> a <= a2 <= b -> c <= c2 <= d ->
  loop_ok op Z.le 64 a b c d a1 c1 lo -> loop_ok op Z.ge 64 a b c d a2 c2 hi -> bounds_of op a b c d lo hi.
Proof.
  intros Ha Hb Hc Hd ? ? ? ? [_ L1 L2] [_ H1 H2]. split; [|done]. intros x y Hx Hy.
  assert (forall z, 0 <= z < 2 ^ 64 -> z / 2 ^ Z.of_nat 64 = 0) as Hz by (intros; by apply Z.div_small).
  specialize (L2 x y Hx Hy). specialize (H2 x y Hx Hy). rewrite !Hz in L2, H2 by lia.
  specialize (L2 eq_refl eq_refl). specialize (H2 eq_refl eq_refl). lia.
Qed.

Lemma bitwise_bounds a b c d : 0 <= a <= b -> b < 2 ^ 64 -> 0 <= c <= d -> d < 2 ^ 64 ->
  bounds_of Z.lor a b c d (minOR a b c d) (maxOR a b c d) /\
  bounds_of Z.land a b c d (minAND a b c d) (maxAND a b c d).
Proof.
  intros. split.
  - eapply loops_bounds; [..|apply minOR_loop_ok|apply maxOR_loop_ok]; lia.
  - eapply loops_bounds; [..|apply minAND_loop_ok|apply maxAND_loop_ok]; lia.
Qed.

(** ** Operations on ranges *)

Definition inside (x : Z) (r : ValueRange) : Prop := m_min r <= x <= m_max r.

(** A range of words of a width that is not empty. *)
Definition fits (w : Z) (r : ValueRange) : Prop := 0 <= m_min r <= m_max r /\ m_max r < 2 ^ w.

Definition covers (r r' : ValueRange) : Prop := m_min r <= m_min r' /\ m_max r' <= m_max r.

Lemma covers_inside r r' x : covers r r' -> inside x r' -> inside x r.
Proof. unfold covers, inside. lia. Qed.

Lemma fits_word w r : w <= 64 -> fits w r -> 0 <= m_min r <= m_max r /\ m_max r < 2 ^ 64.
Proof.
  intros Hw [H1 H2]. split; [done|]. destruct (Z.lt_ge_cases w 0) as [Hn|Hn]; [rewrite Z.pow_neg_r in H2; lia|].
  pose proof (pow2_mono w 64 ltac:(lia)). lia.
Qed.

Lemma fits_nonempty w r : fits w r -> ValueRange_isEmpty r = false.
Proof. intros [H _]. apply Z.ltb_ge. lia. Qed.

Lemma fits_mono w w' r : 0 <= w <= w' -> fits w r -> fits w' r.
Proof. intros Hw [H1 H2]. split; [done|]. pose proof (pow2_mono w w' Hw). lia. Qed.

Lemma fits_fixed w x : 0 <= x < 2 ^ w -> fits w (ValueRange_fixed x) /\ inside x (ValueRange_fixed x).
Proof. unfold fits, inside. cbn. lia. Qed.

Lemma fixed_inside r x y : ValueRange_isFixed r = true -> inside x r -> inside y r -> x = y.
Proof. unfold ValueRange_isFixed, inside. rewrite Z.eqb_eq. lia. Qed.

Lemma fixed_min r x : ValueRange_isFixed r = true -> inside x r -> m_min r = x.
Proof. unfold ValueRange_isFixed, inside. rewrite Z.eqb_eq. lia. Qed.

Lemma full_range_ok w : 0 <= w <= 64 -> exists mx, bits64_maxValueOfNBits w = Done mx /\ mx = 2 ^ w - 1 /\
  fits w (MkRange 0 mx) /\ forall x, 0 <= x < 2 ^ w -> inside x (MkRange 0 mx).
Proof.
  intros Hw. exists (2 ^ w - 1). rewrite bits64_maxValueOfNBits_spec by done. pose proof (pow2_pos w ltac:(lia)).
  split_and!; [done..| |]; unfold fits, inside; cbn; lia.
Qed.

Lemma intersects_inside r b x : inside x r -> inside x b -> ValueRange_intersects r b = true.
Proof.
  unfold inside, ValueRange_intersects, ValueRange_isEmpty. cbn. intros. apply negb_true_iff, Z.ltb_ge. lia.
Qed.

Lemma mustEqual_inside r b x y : ValueRange_mustEqual r b = true -> inside x r -> inside y b -> x = y.
Proof.
  unfold ValueRange_mustEqual, ValueRange_isFixed, inside. rewrite !andb_true_iff, !Z.eqb_eq. lia.
Qed.

Lemma union_covers r b : covers (ValueRange_set_union r b) r /\ covers (ValueRange_set_union r b) b.
Proof. unfold covers. cbn. lia. Qed.

Lemma union_fits w r b : fits w r -> fits w b -> fits w (ValueRange_set_union r b).
Proof. unfold fits. cbn. lia. Qed.

(** The operators on ranges of words of width [w]. *)
Section Operators.
Context (w : Z) (Hw : 0 <= w <= 64).

Lemma bounds_range op f r b lo hi : (forall x y n, Z.testbit (op x y) n = f (Z.testbit x n) (Z.testbit y n)) ->
  f false false = false -> fits w r -> fits w b ->
  bounds_of op (m_min r) (m_max r) (m_min b) (m_max b) lo hi ->
  fits w (MkRange lo hi) /\ forall x y, inside x r -> inside y b -> inside (op x y) (MkRange lo hi).
Proof.
  intros Hf Hff [R1 R2] [B1 B2] (Hall & (x1 & y1 & Hx1 & Hy1 & ->) & (x2 & y2 & Hx2 & Hy2 & ->)).
  pose proof (bitop_range op f w x1 y1 Hf Hff ltac:(lia) ltac:(lia) ltac:(lia)).
  pose proof (bitop_range op f w x2 y2 Hf Hff ltac:(lia) ltac:(lia) ltac:(lia)).
  pose proof (Hall x1 y1 Hx1 Hy1). split; [unfold fits; cbn; lia|]. intros x y Hx Hy. by apply Hall.
Qed.

Lemma binary_fixed op f r b : (forall x y n, Z.testbit (op x y) n = f (Z.testbit x n) (Z.testbit y n)) ->
  f false false = false -> fits w r -> fits w b -> ValueRange_isFixed r && ValueRange_isFixed b = true ->
  fits w (ValueRange_fixed (op (m_min r) (m_min b))) /\
  forall x y, inside x r -> inside y b -> inside (op x y) (ValueRange_fixed (op (m_min r) (m_min b))).
Proof.
  intros Hf Hff [R1 R2] [B1 B2] [F1 F2]%andb_true_iff. split.
  - apply fits_fixed, (bitop_range op f w); (done || lia).
  - intros x y Hx Hy. rewrite (fixed_min r x F1 Hx), (fixed_min b y F2 Hy). unfold inside. cbn. lia.
Qed.

Lemma binaryAnd_ok r b : fits w r -> fits w b -> exists r', ValueRange_binaryAnd r b = Done r' /\ fits w r' /\
  forall x y, inside x r -> inside y b -> inside (Z.land x y) r'.
Proof.
  intros Hr Hb. unfold ValueRange_binaryAnd. rewrite (fits_nonempty w r), (fits_nonempty w b) by done.
  eexists. split; [done|]. destruct (ValueRange_isFixed r && ValueRange_isFixed b) eqn:HF.
  - by apply (binary_fixed Z.land andb); [apply Z.land_spec|..].
  - apply (bounds_range Z.land andb); [apply Z.land_spec|done..|].
    pose proof (fits_word w r (proj2 Hw) Hr) as [? ?]. pose proof (fits_word w b (proj2 Hw) Hb) as [? ?].
    by apply (fun H1 H2 H3 H4 => proj2 (bitwise_bounds (m_min r) (m_max r) (m_min b) (m_max b) H1 H2 H3 H4)).
Qed.

Lemma binaryOr_ok r b : fits w r -> fits w b -> exists r', ValueRange_binaryOr r b = Done r' /\ fits w r' /\
  forall x y, inside x r -> inside y b -> inside (Z.lor x y) r'.
Proof.
  intros Hr Hb. unfold ValueRange_binaryOr. rewrite (fits_nonempty w r), (fits_nonempty w b) by done.
  eexists. split; [done|]. destruct (ValueRange_isFixed r && ValueRange_isFixed b) eqn:HF.
  - by apply (binary_fixed Z.lor orb); [apply Z.lor_spec|..].
  - apply (bounds_range Z.lor orb); [apply Z.lor_spec|done..|].
    pose proof (fits_word w r (proj2 Hw) Hr) as [? ?]. pose proof (fits_word w b (proj2 Hw) Hb) as [? ?].
    by apply (fun H1 H2 H3 H4 => proj1 (bitwise_bounds (m_min r) (m_max r) (m_min b) (m_max b) H1 H2 H3 H4)).
Qed.

End Operators.

(** [binaryXor] keeps the highest bit of the two maxima: each round of its loop
    clears one more bit from below. *)
Lemma highest_bit_ok n t : (n <= 64)%nat -> 0 < t < 2 ^ 64 -> t mod 2 ^ (64 - Z.of_nat n) = 0 ->
  highest_bit n t = Done (2 ^ Z.log2 t).
Proof.
  revert t. induction n as [|n IH]; intros t Hn Ht Hm.
  { rewrite Z.sub_0_r, Z.mod_small in Hm by lia. lia. }
  cbn [highest_bit]. unfold bits64_isPowerOfTwo, bits64_withoutRightmostBit, u64.
  rewrite (Z.mod_small (t - 1)) by lia. rewrite (proj2 (Z.eqb_neq t 0)) by lia.
  destruct (Z.eqb_spec (Z.land t (t - 1)) 0) as [Hz|Hz]; [f_equal; apply land_pred_zero; lia|].
  set (L := Z.log2 t) in *. pose proof (Z.log2_spec t ltac:(lia)) as HL. fold L in HL. rewrite Z.pow_succ_r in HL by apply Z.log2_nonneg.
  assert (0 <= L) as HL0 by apply Z.log2_nonneg.
  assert (t <> 2 ^ L) as Hne. { intros E. apply Hz. rewrite E. by apply land_pred_pow2. }
  pose proof (land_le t (t - 1) ltac:(lia) ltac:(lia)) as [Hle _].
  assert (2 ^ L <= Z.land t (t - 1)) as Hge.
  { assert (Z.log2 (t - 1) = L) as E1 by (apply Z.log2_unique; [done|rewrite Z.pow_succ_r by done; lia]).
    destruct (Z.lt_ge_cases (Z.land t (t - 1)) (2 ^ L)) as [Hlt|]; [|done]. exfalso.
    assert (Z.testbit (Z.land t (t - 1)) L = true) as Hb.
    { rewrite Z.land_spec. unfold L at 1. rewrite Z.bit_log2, <- E1, Z.bit_log2 by lia. done. }
    assert (0 <= Z.land t (t - 1)) by (apply Z.land_nonneg; lia).
    rewrite <- (Z.mod_small (Z.land t (t - 1)) (2 ^ L)), Z.mod_pow2_bits_high in Hb by lia. done. }
  assert (Z.log2 (Z.land t (t - 1)) = L) as El by (apply Z.log2_unique; [done|rewrite Z.pow_succ_r by done; lia]).
  rewrite IH, El; [done|lia|lia|]. set (i := 64 - Z.of_nat (S n)) in *.
  replace (64 - Z.of_nat n) with (i + 1) by lia. assert (0 <= i) as Hi by lia.
  rewrite low_land by lia. apply Z.mod_divide in Hm as [u ->]; [|apply Z.pow_nonzero; lia].
  pose proof (pow2_pos i Hi). rewrite Z.pow_add_r, Z.pow_1_r by lia.
  destruct (Z.Even_or_Odd u) as [[v ->]|[v ->]].
  - replace (2 * v * 2 ^ i) with (v * (2 ^ i * 2)) at 1 by lia. by rewrite Z.mod_mul, Z.land_0_l by lia.
  - replace ((2 * v + 1) * 2 ^ i) with (2 ^ i + v * (2 ^ i * 2)) at 1 by lia.
    replace ((2 * v + 1) * 2 ^ i - 1) with (2 ^ i - 1 + v * (2 ^ i * 2)) by lia.
    rewrite !Z_mod_plus_full, !Z.mod_small by lia. by apply land_pred_pow2.
Qed.

Lemma binaryXor_ok w r b : 0 <= w <= 64 -> fits w r -> fits w b -> exists r', ValueRange_binaryXor r b = Done r' /\
  fits w r' /\ forall x y, inside x r -> inside y b -> inside (Z.lxor x y) r'.
Proof.
  intros Hw Hr Hb. unfold ValueRange_binaryXor. destruct (ValueRange_isFixed r && ValueRange_isFixed b) eqn:HF.
  { eexists. split; [done|]. by apply (binary_fixed w Hw Z.lxor xorb); [apply Z.lxor_spec|..]. }
  pose proof (fits_word w r ltac:(lia) Hr) as [R1 R2]. pose proof (fits_word w b ltac:(lia) Hb) as [B1 B2].
  set (t := Z.lor (m_max r) (m_max b)).
  pose proof (le_lor (m_max r) (m_max b) ltac:(lia) ltac:(lia)) as Hle. fold t in Hle.
  assert (0 <= t < 2 ^ w) as Ht.
  { apply (bitop_range Z.lor orb); [apply Z.lor_spec|done|lia|..]; [destruct Hr|destruct Hb]; lia. }
  assert (0 < t) as Ht0.
  { apply andb_false_iff in HF. unfold ValueRange_isFixed in HF. rewrite !Z.eqb_neq in HF. lia. }
  pose proof (pow2_mono w 64 ltac:(lia)). set (L := Z.log2 t).
  pose proof (Z.log2_spec t Ht0) as HL. fold L in HL. assert (0 <= L) as HL0 by apply Z.log2_nonneg.
  assert (L < w) as HLw by (apply Z.log2_lt_pow2; lia). pose proof (pow2_mono (L + 1) w ltac:(lia)).
  rewrite highest_bit_ok by (try apply Z.mod_1_r; lia). cbn [mbind outcome_bind]. fold L.
  rewrite Z.shiftl_mul_pow2, <- Z.pow_add_r by lia. pose proof (pow2_pos (L + 1) ltac:(lia)).
  assert (u64 (u64 (2 ^ (L + 1)) - 1) = 2 ^ (L + 1) - 1) as ->.
  { unfold u64. rewrite Zminus_mod_idemp_l. apply Z.mod_small. lia. }
  eexists. split; [done|]. split; [unfold fits; cbn; lia|]. intros x y Hx Hy.
  enough (0 <= Z.lxor x y < 2 ^ (L + 1)) by (unfold inside; cbn; lia). rewrite <- Z.add_1_r in HL.
  unfold inside in Hx, Hy. apply (bitop_range Z.lxor xorb); [apply Z.lxor_spec|done|lia..].
Qed.

(** Shifts and concatenation. *)
Lemma shiftLeft_ok w n r : 0 <= w -> 0 <= n < 64 -> w + n <= 64 -> fits w r ->
  exists r', ValueRange_binaryShiftLeft r n = Done r' /\ fits (w + n) r' /\
    forall x, inside x r -> inside (x * 2 ^ n) r'.
Proof.
  intros Hw Hn Hs [R1 R2]. unfold ValueRange_binaryShiftLeft. rewrite (proj2 (Z.ltb_lt n 64)) by lia.
  pose proof (pow2_pos n ltac:(lia)). pose proof (pow2_mono (w + n) 64 ltac:(lia)).
  assert (m_min r * 2 ^ n <= m_max r * 2 ^ n < 2 ^ (w + n)) by (rewrite Z.pow_add_r by lia; nia).
  assert (0 <= m_min r * 2 ^ n) by nia.
  rewrite !Z.shiftl_mul_pow2 by lia. unfold u64. rewrite !Z.mod_small by lia. eexists. split; [done|].
  split; [unfold fits; cbn; lia|]. unfold inside. cbn. nia.
Qed.

Lemma concat_byte_ok wl wr l r : 0 < wl -> 8 <= wr -> wl + wr <= 64 -> fits wl l -> fits wr r ->
  exists r1 r2, ValueRange_concat (ValueRange_fixed 0) l 8 = Done r1 /\ ValueRange_concat r1 r 8 = Done r2 /\
    fits (wl + wr) r2 /\ (wr = 8 -> forall x y, inside x l -> inside y r -> inside (x * 2 ^ wr + y) r2).
Proof.
  intros Hl Hr Hlr Fl Fr. unfold ValueRange_concat.
  change (ValueRange_binaryShiftLeft (ValueRange_fixed 0) 8) with (Done (ValueRange_fixed 0)).
  destruct (fits_fixed wl 0) as [F0 I0]; [pose proof (pow2_pos wl); lia|].
  destruct (binaryOr_ok wl ltac:(lia) _ _ F0 Fl) as (r1 & E1 & F1 & H1).
  destruct (shiftLeft_ok wl 8 r1 ltac:(lia) ltac:(lia) ltac:(lia) F1) as (s & Es & Fs & Hs).
  destruct (binaryOr_ok (wl + wr) ltac:(lia) s r) as (r2 & E2 & F2 & H2).
  { eapply fits_mono; [|done]. lia. }
  { eapply fits_mono; [|done]. lia. }
  exists r1, r2. cbn [mbind outcome_bind]. rewrite E1, Es. split_and!; [done..|]. intros -> x y Hx Hy.
  assert (0 <= y < 2 ^ 8) as Hy8 by (destruct Fr; unfold inside in Hy; lia).
  replace (x * 2 ^ 8 + y) with (Z.lor (x * 2 ^ 8) y); [apply H2, Hy; apply Hs; apply (H1 0 x I0 Hx)|].
  rewrite <- Z.shiftl_mul_pow2 by lia. symmetry.
  rewrite (Z.add_nocarry_lxor (Z.shiftl x 8) y), Z.lxor_lor; [done|..];
    (apply Z.bits_inj'; intros n Hn; rewrite Z.land_spec, Z.bits_0;
     destruct (Z.lt_ge_cases n 8) as [Hlt|Hge];
     [by rewrite Z.shiftl_spec_low by done|];
     rewrite <- (Z.mod_small y (2 ^ 8)) by done; rewrite Z.mod_pow2_bits_high by lia; apply andb_false_r).
Qed.

(** Signed bounds. *)
Lemma i64_id x : - 2 ^ 63 <= x < 2 ^ 63 -> i64 (u64 x) = x /\ i64 x = x.
Proof.
  intros Hx. assert (i64 x = x) as H; [|split; [|done]].
  - unfold i64, to_signed, u64. destruct (Z.lt_ge_cases x 0).
    + assert (x mod 2 ^ 64 = x + 2 ^ 64) as ->.
      { rewrite <- (Z.mod_small (x + 2 ^ 64) (2 ^ 64)) by lia. apply mod_eq_of_diff; [lia|]. exists (-1). lia. }
      change (2 ^ (64 - 1)) with (2 ^ 63). rewrite (proj2 (Z.ltb_ge _ _)) by lia. lia.
    + rewrite Z.mod_small by lia. change (2 ^ (64 - 1)) with (2 ^ 63). by rewrite (proj2 (Z.ltb_lt _ _)) by lia.
  - unfold i64, u64 in *. by rewrite Zmod_mod.
Qed.

Lemma sext_ok w x : 0 < w < 64 -> 0 <= x < 2 ^ w -> exists s, ints_sext x 64 w = Done s /\ i64 s = to_signed w x.
Proof.
  intros Hw Hx. unfold ints_sext. rewrite (proj2 (Z.leb_le 0 (64 - w))), (proj2 (Z.ltb_lt (64 - w) 64)) by lia.
  cbn [andb]. rewrite bits64_truncateToNBits_spec by lia. eexists. split; [done|].
  assert (2 ^ w * 2 ^ (64 - w) = 2 ^ 64) as E by (rewrite <- Z.pow_add_r by lia; f_equal; lia).
  assert (2 ^ (w - 1) * 2 ^ (64 - w) = 2 ^ 63) as E1 by (rewrite <- Z.pow_add_r by lia; f_equal; lia).
  pose proof (pow2_pos (64 - w) ltac:(lia)) as Hp. pose proof (to_signed_range w x ltac:(lia) Hx) as Hr.
  pose proof (pow2_mono (w - 1) 63 ltac:(lia)).
  assert (i64 (Z.shiftl x (64 - w)) = to_signed w x * 2 ^ (64 - w)) as ->.
  { rewrite Z.shiftl_mul_pow2 by lia. unfold i64, u64. rewrite Z.mod_small by nia. unfold to_signed.
    change (2 ^ (64 - 1)) with (2 ^ 63). destruct (Z.ltb_spec x (2 ^ (w - 1))).
    - rewrite (proj2 (Z.ltb_lt _ _)) by nia. done.
    - rewrite (proj2 (Z.ltb_ge _ _)) by nia. nia. }
  rewrite Z.shiftr_div_pow2, Z.div_mul by lia. unfold u64. rewrite Zmod_mod. apply i64_id. lia.
Qed.

Lemma signed_ok w r : 0 < w < 64 -> fits w r -> exists lo hi,
  ValueRange_minSigned r w = Done lo /\ ValueRange_maxSigned r w = Done hi /\
  forall x, inside x r -> lo <= to_signed w x <= hi.
Proof.
  intros Hw [R1 R2]. unfold ValueRange_minSigned, ValueRange_maxSigned, sign_bit.
  rewrite (proj2 (Z.ltb_lt w 64)), (proj2 (Z.ltb_lt 0 w)), !Z.shiftr_div_pow2, !Z.div_small by lia.
  cbn [Z.eqb andb mbind outcome_bind]. rewrite Z.shiftl_mul_pow2, Z.mul_1_l by lia.
  pose proof (pow2_half w ltac:(lia)). pose proof (pow2_mono (w - 1) 62 ltac:(lia)). pose proof (pow2_pos (w - 1) ltac:(lia)).
  destruct (sext_ok w (2 ^ (w - 1)) Hw ltac:(lia)) as (s & Es & Hs).
  destruct (sext_ok w (m_max r) Hw ltac:(lia)) as (s' & Es' & Hs').
  rewrite Es, Es'. cbn [mbind outcome_bind]. rewrite Hs, Hs'. unfold to_signed in *.
  rewrite (proj2 (Z.ltb_ge (2 ^ (w - 1)) _)) by lia.
  destruct (Z.leb_spec (2 ^ (w - 1)) (m_max r)); [rewrite (proj2 (Z.ltb_ge (m_max r) _)) by lia|
    rewrite (proj2 (Z.ltb_lt (m_max r) _)) by lia]; destruct (Z.ltb_spec (m_min r) (2 ^ (w - 1))); cbn [andb];
    eexists _, _; (split_and!; [done..|]); intros x Hx; unfold inside in Hx; rewrite ?(proj2 (i64_id (m_min r) ltac:(lia))), ?(proj2 (i64_id (2 ^ (w - 1) - 1) ltac:(lia)));
    destruct (Z.ltb_spec x (2 ^ (w - 1))); lia.
Qed.
