(* ===== verification/CachingSolver.v ===== *)
(** [CachingSolver] (CachingSolver.cpp): a cache of partial validities in front
    of another solver, keyed by the constraints and the smaller of the query
    and its negation. *)
From stdpp Require Import base list numbers.
From Stdlib Require Import ZArith Lia.
From S2P Require Import Prelude APInt Bits Expr Semantics ConstantOps ExprCreate CreateSound OpsSound FindReads Solver IncompleteSolver.
Local Open Scope Z_scope.

Module CachingSolver.

(** A cache entry: constraints, query, and what is known. *)
Abbreviation key := (list Expr * Expr)%type.

Record t (S : Type) : Type := Mk { solver : S; cache : list (key * PartialValidity) }.
Arguments Mk {S}.
Arguments solver {S}.
Arguments cache {S}.

(** [unordered_map::find] and [unordered_map::insert], which keeps an entry
    that is already there. *)
Definition cache_find (k : key) (c : list (key * PartialValidity)) : option PartialValidity :=
  snd <$> find (fun x => bool_decide (k = x.1)) c.

Definition cache_insert (k : key) (pv : PartialValidity) (c : list (key * PartialValidity))
    : list (key * PartialValidity) :=
  match cache_find k c with Some _ => c | None => (k, pv) :: c end.

Section Caching.
Context {AP : APIntOps} {AH : ArrayHeap} {OP : ExprOptions}.
Context {S : Type} {ops : SolverImpl S}.

(** The canonical query and whether it is the negation. *)
Definition canonicalizeQuery (e : Expr) : outcome (Expr * bool) :=
  n ← createIsZero e;
  Done (match compare e n with Lt => (e, false) | _ => (n, true) end).

Definition cacheLookup (q : Query) (s : t S) : outcome (option PartialValidity) :=
  cn ← canonicalizeQuery (q_expr q);
  let '(c, negationUsed) := (cn : Expr * bool) in
  match cache_find (constraints q, c) (cache s) with
  | None => Done None
  | Some pv => pv ← (if negationUsed then negatePartialValidity pv else Done pv); Done (Some pv)
  end.

Definition cacheInsert (q : Query) (result : PartialValidity) (s : t S) : outcome (t S) :=
  cn ← canonicalizeQuery (q_expr q);
  let '(c, negationUsed) := (cn : Expr * bool) in
  pv ← (if negationUsed then negatePartialValidity result else Done result);
  Done (Mk (solver s) (cache_insert (constraints q, c) pv (cache s))).

(** Asking the underlying solver. *)
Definition ask {A} (f : S -> outcome (option A * S)) (s : t S) : outcome (option A * t S) :=
  r ← f (solver s); Done ((r : option A * S).1, Mk r.2 (cache s)).

Definition computeValidity (q : Query) (s : t S) : outcome (option Validity * t S) :=
  hit ← cacheLookup q s;
  match hit with
  | Some MustBeTrue => Done (Some VTrue, s)
  | Some MustBeFalse => Done (Some VFalse, s)
  | Some TrueOrFalse => Done (Some VUnknown, s)
  | Some MayBeTrue =>
      r ← ask (Solver.computeTruth q) s;
      match r with
      | (None, s) => Done (None, s)
      | (Some true, s) => s ← cacheInsert q MustBeTrue s; Done (Some VTrue, s)
      | (Some false, s) => s ← cacheInsert q TrueOrFalse s; Done (Some VUnknown, s)
      end
  | Some MayBeFalse =>
      nq ← negateExpr q;
      r ← ask (Solver.computeTruth nq) s;
      match r with
      | (None, s) => Done (None, s)
      | (Some true, s) => s ← cacheInsert q MustBeFalse s; Done (Some VFalse, s)
      | (Some false, s) => s ← cacheInsert q TrueOrFalse s; Done (Some VUnknown, s)
      end
  | Some PNone => AssertFail
  | None =>
      r ← ask (Solver.computeValidity q) s;
      match r with
      | (None, s) => Done (None, s)
      | (Some v, s) =>
          let pv := match v with VTrue => MustBeTrue | VFalse => MustBeFalse
                               | VUnknown => TrueOrFalse end in
          s ← cacheInsert q pv s; Done (Some v, s)
      end
  end.

Definition computeTruth (q : Query) (s : t S) : outcome (option bool * t S) :=
  hit ← cacheLookup q s;
  match hit with
  | Some MayBeTrue | None =>
      r ← ask (Solver.computeTruth q) s;
      match r with
      | (None, s) => Done (None, s)
      | (Some isValid, s) =>
          let pv := if (isValid : bool) then MustBeTrue
                    else match hit with Some _ => TrueOrFalse | None => MayBeFalse end in
          s ← cacheInsert q pv s; Done (Some isValid, s)
      end
  | Some pv => Done (Some (bool_decide (pv = MustBeTrue)), s)
  end.

Definition computeValue (q : Query) (s : t S) : outcome (option APInt * t S) :=
  ask (Solver.computeValue q) s.

#[global] Instance ops_of : SolverImpl (t S) := {|
  Solver.computeValidity := computeValidity;
  Solver.computeTruth := computeTruth;
  Solver.computeValue := computeValue
|}.

(** ** The cache is sound *)

Definition cache_ok (c : list (key * PartialValidity)) : Prop :=
  forall k pv, (k, pv) ∈ c -> pv_is pv (MkQuery k.1 k.2).

Lemma cache_find_elem k c pv : cache_find k c = Some pv -> (k, pv) ∈ c.
Proof.
  unfold cache_find. rewrite fmap_Some. intros ([k' pv'] & Hf & ->).
  apply find_some in Hf as [Hin Heq]. apply bool_decide_eq_true in Heq. cbn in Heq. subst k'.
  by apply list_elem_of_In.
Qed.

Lemma cache_insert_ok k pv c : cache_ok c -> pv_is pv (MkQuery k.1 k.2) -> cache_ok (cache_insert k pv c).
Proof.
  intros Hc Hp. unfold cache_insert. destruct (cache_find k c); [done|].
  intros k' pv' [?|?]%elem_of_cons; [by simplify_eq|by apply Hc].
Qed.

Context {APL : APIntLaws} (default_opt : ConstArrayOpt = false).

(** The canonical query is the query or its negation, and says so. *)
Lemma canonicalizeQuery_ok q : bool_query q ->
  exists c neg, canonicalizeQuery (q_expr q) = Done (c, neg) /\
    if (neg : bool) then (valid (withExpr c q) <-> valid_not q) /\ (valid_not (withExpr c q) <-> valid q)
    else c = q_expr q.
Proof.
  intros Hq. destruct (negateExpr_ok default_opt q Hq) as (nq & En & _ & Hcs & Hn1 & Hn2).
  unfold negateExpr in En. unfold canonicalizeQuery.
  apply bind_Done in En as (n & -> & En). injection En as <-. cbn [mbind outcome_bind].
  destruct (compare (q_expr q) n); [by exists n, true|by exists (q_expr q), false|by exists n, true].
Qed.

Lemma withExpr_self q : withExpr (q_expr q) q = q.
Proof. by destruct q. Qed.

Lemma cacheLookup_ok q s : bool_query q -> cache_ok (cache s) ->
  exists hit, cacheLookup q s = Done hit /\ forall pv, hit = Some pv -> pv_is pv q.
Proof.
  intros Hq Hc. unfold cacheLookup.
  destruct (canonicalizeQuery_ok q Hq) as (c & neg & -> & Hn). cbn [mbind outcome_bind].
  destruct (cache_find _ _) as [pv|] eqn:Ef; [|by eexists; split].
  apply cache_find_elem, Hc in Ef. change (pv_is pv (withExpr c q)) in Ef. destruct neg.
  - destruct Hn as [H1 H2].
    destruct (pv_negate pv (withExpr c q) q) as (pv' & -> & Hp); [tauto|tauto|done|].
    eexists; split; [done|]. intros. by simplify_eq.
  - subst c. rewrite withExpr_self in Ef. eexists; split; [done|]. intros. by simplify_eq.
Qed.

Lemma cacheInsert_ok q pv s : bool_query q -> cache_ok (cache s) -> pv_is pv q ->
  exists c, cacheInsert q pv s = Done (Mk (solver s) c) /\ cache_ok c.
Proof.
  intros Hq Hc Hp. unfold cacheInsert.
  destruct (canonicalizeQuery_ok q Hq) as (c & neg & -> & Hn). cbn [mbind outcome_bind].
  destruct neg.
  - destruct Hn as [H1 H2].
    destruct (pv_negate pv q (withExpr c q)) as (pv' & -> & Hp'); [done|done|done|].
    cbn. eexists; split; [done|]. by apply cache_insert_ok.
  - subst c. eexists; split; [done|]. apply cache_insert_ok; [done|].
    change (pv_is pv (withExpr (q_expr q) q)). by rewrite withExpr_self.
Qed.

(** An entry is never refined: inserting a query that is already there leaves
    the cache as it was. *)
Lemma cacheInsert_keeps q pv s s' c neg : canonicalizeQuery (q_expr q) = Done (c, neg) ->
  cache_find (constraints q, c) (cache s) <> None -> cacheInsert q pv s = Done s' -> s' = s.
Proof.
  intros Ec Hf. unfold cacheInsert. rewrite Ec. cbn [mbind outcome_bind].
  intros (pv' & _ & E)%bind_Done. unfold cache_insert in E. destruct (cache_find _ _); [|done].
  injection E as <-. by destruct s.
Qed.

Context {sol : SoundSolver S}.

Definition inv (s : t S) : Prop := s_inv (solver s) /\ cache_ok (cache s).

(** Recording a true fact and answering. *)
Lemma record_ok {A} q pv (a : A) s : bool_query q -> inv s -> pv_is pv q ->
  exists s', (s ← cacheInsert q pv s; Done (Some a, s)) = Done (Some a, s') /\ inv s'.
Proof.
  intros Hq [Hs Hc] Hp. destruct (cacheInsert_ok q pv s Hq Hc Hp) as (c & -> & Hc').
  cbn. eexists; split; [done|]. by split.
Qed.

Lemma caching_computeTruth_ok q s : inv s -> bool_query q ->
  exists r s', computeTruth q s = Done (r, s') /\ inv s' /\
    forall b, r = Some b -> (b = true <-> valid q).
Proof.
  intros [Hs Hc] Hq. unfold computeTruth.
  destruct (cacheLookup_ok q s Hq Hc) as (hit & -> & Hhit). cbn [mbind outcome_bind].
  destruct (truth_ok q (solver s) Hs Hq) as (r & s1 & Er & Hs1 & Hr).
  assert (forall pv, (r = Some true -> pv_is MustBeTrue q) -> (r = Some false -> pv_is pv q) ->
    exists r' s', (r0 ← ask (Solver.computeTruth q) s;
      match r0 with
      | (None, s) => Done (None, s)
      | (Some isValid, s) =>
          s ← cacheInsert q (if (isValid : bool) then MustBeTrue else pv) s; Done (Some isValid, s)
      end) = Done (r', s') /\ inv s' /\ forall b, r' = Some b -> (b = true <-> valid q)) as Hask.
  { intros pv Ht Hf. unfold ask. rewrite Er. cbn [mbind outcome_bind fst snd].
    destruct r as [b|]; [|by eexists _, _; split; [done|]; split].
    destruct (record_ok q (if b then MustBeTrue else pv) b (Mk s1 (cache s)))
      as (s' & -> & Hi); [done|by split|destruct b; auto|].
    eexists _, _. split; [done|]. split; [done|]. intros b' Hb. simplify_eq. by apply Hr. }
  assert (r = Some true -> valid q) as Hrt by (intros ->; by apply (Hr true)).
  assert (r = Some false -> ~ valid q) as Hrf by (intros -> Hv; by apply (Hr false eq_refl) in Hv).
  destruct hit as [pv|]; [|by apply (Hask MayBeFalse)]. specialize (Hhit pv eq_refl).
  destruct pv; cbn in Hhit;
    try (eexists _, _; split; [done|]; split; [by split|]; intros b Hb; simplify_eq).
  - by rewrite bool_decide_true.
  - rewrite bool_decide_false by done. split; [done|]. intros Hv. exfalso. by eapply valid_excl; [apply Hq|..].
  - apply (Hask TrueOrFalse); [done|]. intros Hr0. split; auto.
  - rewrite bool_decide_false by done. by split.
  - rewrite bool_decide_false by done. destruct Hhit. by split.
  - done.
Qed.

Lemma caching_computeValidity_ok q s : inv s -> bool_query q ->
  exists r s', computeValidity q s = Done (r, s') /\ inv s' /\
    forall v, r = Some v -> validity_is v q.
Proof.
  intros [Hs Hc] Hq. unfold computeValidity.
  destruct (cacheLookup_ok q s Hq Hc) as (hit & -> & Hhit). cbn [mbind outcome_bind].
  destruct hit as [pv|]; [specialize (Hhit pv eq_refl); destruct pv; cbn in Hhit|].
  - eexists _, _. split; [done|]. split; [first [done|by split]|]. intros v Hv. by simplify_eq.
  - eexists _, _. split; [done|]. split; [first [done|by split]|]. intros v Hv. by simplify_eq.
  - destruct (truth_ok q (solver s) Hs Hq) as (r & s1 & Er & Hs1 & Hr).
    unfold ask. rewrite Er. cbn [mbind outcome_bind fst snd].
    destruct r as [[|]|]; [| |by eexists _, _; split; [done|]; split].
    + assert (valid q) by (by apply (Hr true)).
      destruct (record_ok q MustBeTrue VTrue (Mk s1 (cache s))) as (s' & -> & Hi); [done|by split|done|].
      eexists _, _. split; [done|]. split; [first [done|by split]|]. intros v Hv. by simplify_eq.
    + assert (~ valid q) by (intros Hv; by apply (Hr false eq_refl) in Hv).
      destruct (record_ok q TrueOrFalse VUnknown (Mk s1 (cache s))) as (s' & -> & Hi); [done|by split|done|].
      eexists _, _. split; [done|]. split; [first [done|by split]|]. intros v Hv. by simplify_eq.
  - destruct (negateExpr_ok default_opt q Hq) as (nq & -> & Hnq & _ & Hn & _). cbn [mbind outcome_bind].
    destruct (truth_ok nq (solver s) Hs Hnq) as (r & s1 & Er & Hs1 & Hr).
    assert (forall b, r = Some b -> (b = true <-> valid_not q)) as Hr' by (intros b Hb; by rewrite (Hr b Hb)).
    clear Hr. rename Hr' into Hr.
    unfold ask. rewrite Er. cbn [mbind outcome_bind fst snd].
    destruct r as [[|]|]; [| |by eexists _, _; split; [done|]; split].
    + assert (valid_not q) by (by apply (Hr true)).
      destruct (record_ok q MustBeFalse VFalse (Mk s1 (cache s))) as (s' & -> & Hi); [done|by split|done|].
      eexists _, _. split; [done|]. split; [first [done|by split]|]. intros v Hv. by simplify_eq.
    + assert (~ valid_not q) by (intros Hv; by apply (Hr false eq_refl) in Hv).
      destruct (record_ok q TrueOrFalse VUnknown (Mk s1 (cache s))) as (s' & -> & Hi); [done|by split|done|].
      eexists _, _. split; [done|]. split; [first [done|by split]|]. intros v Hv. by simplify_eq.
  - eexists _, _. split; [done|]. split; [first [done|by split]|]. intros v Hv. by simplify_eq.
  - done.
  - destruct (validity_ok q (solver s) Hs Hq) as (r & s1 & Er & Hs1 & Hr).
    unfold ask. rewrite Er. cbn [mbind outcome_bind fst snd].
    destruct r as [v|]; [|by eexists _, _; split; [done|]; split]. specialize (Hr v eq_refl).
    destruct (record_ok q (match v with VTrue => MustBeTrue | VFalse => MustBeFalse
                           | VUnknown => TrueOrFalse end) v (Mk s1 (cache s))) as (s' & -> & Hi);
      [done|by split|by destruct v|].
    eexists _, _. split; [done|]. split; [done|]. intros v' Hv. by simplify_eq.
Qed.

(** The caching solver is a sound solver. *)
#[export] Instance sound_of : SoundSolver (t S).
Proof.
  refine {| s_inv := inv |}.
  - intros. by apply caching_computeValidity_ok.
  - intros. by apply caching_computeTruth_ok.
  - intros q s [Hs Hc] Hq. cbn. unfold computeValue, ask.
    destruct (value_ok q (solver s) Hs Hq) as (r & s1 & -> & Hs1 & Hr). cbn.
    eexists _, _. split; [done|]. split; [by split|done].
Defined.

(** It answers whenever the underlying solver does. *)
Lemma caching_total_of : TotalSolver S -> TotalSolver (t S).
Proof.
  intros Ht. split; intros q s r s' H; cbn in H; intros ->;
    unfold computeValidity, computeTruth, computeValue, ask in H; run_inv; total_solver.
Qed.

End Caching.
End CachingSolver.
