(* ===== verification/MapOfSets.v ===== *)
(** Maps whose keys are sets (include/klee/ADT/MapOfSets.h): a tree that branches
    on the elements of a set in order, with lookups of one set, of a stored
    subset and of a stored superset. *)
From stdpp Require Import base list numbers sets.
From Stdlib Require Import ZArith Lia Sorting.Sorted.
From S2P Require Import Prelude.
Local Open Scope Z_scope.

(** The order of the elements, [operator<] and [operator==] of [K]. *)
Class OrderedKey (K : Type) : Type := { key_compare : K -> K -> comparison }.

Class OrderedKeyLaws (K : Type) `{OrderedKey K} : Prop := {
  key_eq a b : key_compare a b = Eq <-> a = b;
  key_opp a b : key_compare b a = CompOpp (key_compare a b);
  key_trans a b c : key_compare a b = Lt -> key_compare b c = Lt -> key_compare a c = Lt
}.

Definition key_eqb {K} `{OrderedKey K} (a b : K) : bool :=
  match key_compare a b with Eq => true | _ => false end.
Definition key_ltb {K} `{OrderedKey K} (a b : K) : bool :=
  match key_compare a b with Lt => true | _ => false end.
Definition key_lt {K} `{OrderedKey K} (a b : K) : Prop := key_compare a b = Lt.

Section Sets.
Context {K : Type} {O : OrderedKey K}.

(** [std::set<K>]: its elements in increasing order. *)
Fixpoint set_insert (k : K) (l : list K) : list K :=
  match l with
  | [] => [k]
  | x :: l' =>
      match key_compare k x with
      | Lt => k :: l
      | Eq => l
      | Gt => x :: set_insert k l'
      end
  end.

Definition set_of_list (l : list K) : list K := foldl (fun s k => set_insert k s) [] l.

Abbreviation is_set := (StronglySorted key_lt).

Context {L : OrderedKeyLaws K}.

Lemma key_lt_irrefl a : ~ key_lt a a.
Proof. unfold key_lt. rewrite (proj2 (key_eq a a) eq_refl). done. Qed.

Lemma key_eqb_eq a b : key_eqb a b = true <-> a = b.
Proof. unfold key_eqb. rewrite <- key_eq. by destruct (key_compare a b). Qed.

Lemma key_gt a b : key_compare a b = Gt -> key_lt b a.
Proof. unfold key_lt. rewrite (key_opp a b). by intros ->. Qed.

Lemma set_insert_elem k x l : x ∈ set_insert k l <-> x = k \/ x ∈ l.
Proof.
  induction l as [|y l IH]; cbn; [set_solver|]. destruct (key_compare k y) eqn:E.
  - apply key_eq in E as ->. set_solver.
  - set_solver.
  - rewrite elem_of_cons, IH. set_solver.
Qed.

Lemma set_insert_sorted k l : is_set l -> is_set (set_insert k l).
Proof.
  induction 1 as [|y l Hs IH Hf]; cbn; [repeat constructor|]. destruct (key_compare k y) eqn:E; [by constructor| |].
  - constructor; [by constructor|]. constructor; [done|]. eapply Forall_impl; [exact Hf|].
    intros z Hz. by eapply key_trans.
  - constructor; [done|]. apply Forall_forall. intros z Hz%set_insert_elem. apply key_gt in E.
    rewrite Forall_forall in Hf. destruct Hz as [-> |Hz]; auto.
Qed.

Lemma set_of_list_spec l : is_set (set_of_list l) /\ forall x, x ∈ set_of_list l <-> x ∈ l.
Proof.
  unfold set_of_list.
  assert (forall s, is_set s -> is_set (foldl (fun s k => set_insert k s) s l) /\
    forall x, x ∈ foldl (fun s k => set_insert k s) s l <-> x ∈ s \/ x ∈ l) as H.
  { induction l as [|k l IH]; intros s Hs; cbn; [set_solver|].
    destruct (IH (set_insert k s) (set_insert_sorted k s Hs)) as [A B]. split; [done|].
    intros x. rewrite B, set_insert_elem. set_solver. }
  destruct (H [] ltac:(constructor)) as [A B]. split; [done|]. intros x. rewrite B. set_solver.
Qed.

End Sets.

Abbreviation is_set := (StronglySorted key_lt).

(** ** The tree *)

Inductive Node (K V : Type) : Type :=
| MkNode (value : V) (isEndOfSet : bool) (children : list (K * Node K V)).
Arguments MkNode {K V}.

Section Tree.
Context {K V : Type} {O : OrderedKey K} (V0 : V).

Definition node_value (n : Node K V) : V := match n with MkNode v _ _ => v end.
Definition isEndOfSet (n : Node K V) : bool := match n with MkNode _ e _ => e end.
Definition children (n : Node K V) : list (K * Node K V) := match n with MkNode _ _ c => c end.

(** [Node()] *)
Definition node_new : Node K V := MkNode V0 false [].

(** [children.find] *)
Fixpoint find_child (k : K) (ch : list (K * Node K V)) : option (Node K V) :=
  match ch with
  | [] => None
  | (k', c) :: ch => if key_eqb k k' then Some c else find_child k ch
  end.

(** [children.insert(make_pair(k, Node())).first->second], changed by [f]. *)
Fixpoint update_child (k : K) (f : Node K V -> Node K V) (ch : list (K * Node K V)) : list (K * Node K V) :=
  match ch with
  | [] => [(k, f node_new)]
  | (k', c) :: ch' =>
      match key_compare k k' with
      | Lt => (k, f node_new) :: ch
      | Eq => (k', f c) :: ch'
      | Gt => (k', c) :: update_child k f ch'
      end
  end.

Fixpoint insert (set : list K) (v : V) (n : Node K V) : Node K V :=
  match set with
  | [] => MkNode v true (children n)
  | k :: set => MkNode (node_value n) (isEndOfSet n) (update_child k (insert set v) (children n))
  end.

Fixpoint lookup (set : list K) (n : Node K V) : option V :=
  match set with
  | [] => if isEndOfSet n then Some (node_value n) else None
  | k :: set =>
      match find_child k (children n) with
      | None => None
      | Some c => lookup set c
      end
  end.

Definition clear (n : Node K V) : Node K V := MkNode V0 false [].

(** [findSubsets] below the node: the sets through the children of elements of
    [set], with [accum] above them. *)
Fixpoint findSubsets_below (set : list K) (n : Node K V) (accum : list K) : list (list K * V) :=
  match set with
  | [] => []
  | elt :: it =>
      match find_child elt (children n) with
      | Some c =>
          let nacc := set_insert elt accum in
          (if isEndOfSet c then [(nacc, node_value c)] else []) ++ findSubsets_below it c nacc
      | None => []
      end ++ findSubsets_below it n accum
  end.

Definition findSubsets (n : Node K V) (accum set : list K) : list (list K * V) :=
  (if isEndOfSet n then [(accum, node_value n)] else []) ++ findSubsets_below set n accum.

Definition subsets (set : list K) (n : Node K V) : list (list K * V) := findSubsets n [] set.

Fixpoint findSupersets (n : Node K V) (accum set : list K) {struct n} : list (list K * V) :=
  match n with
  | MkNode value isEnd ch =>
      match set with
      | [] =>
          (if isEnd then [(accum, value)] else []) ++
          (fix loop (ch : list (K * Node K V)) : list (list K * V) :=
             match ch with
             | [] => []
             | (k, c) :: ch => findSupersets c (set_insert k accum) [] ++ loop ch
             end) ch
      | elt :: next =>
          (fix loop (ch : list (K * Node K V)) : list (list K * V) :=
             match ch with
             | [] => []
             | (k, c) :: ch =>
                 let nacc := set_insert k accum in
                 if key_eqb elt k then findSupersets c nacc next ++ loop ch
                 else if key_ltb k elt then findSupersets c nacc (elt :: next) ++ loop ch
                 else []
             end) ch
      end
  end.

Definition supersets (set : list K) (n : Node K V) : list (list K * V) := findSupersets n [] set.

(** The predicate of a search may evaluate expressions. *)
Context (p : V -> outcome bool).

(** [while ( *it < k) ++it] *)
Fixpoint skip_below (k : K) (it : list K) : list K :=
  match it with
  | [] => []
  | x :: it' => if key_ltb x k then skip_below k it' else it
  end.

(** [findSubset]: the children and the elements are walked together, as in a
    merge; [lower_bound] and the loop over [kbegin] skip the children that are
    not in the set. *)
Fixpoint findSubset (n : Node K V) (set : list K) {struct n} : outcome (option V) :=
  match n with
  | MkNode value isEnd ch =>
      hit ← (if isEnd then p value else Done false);
      if (hit : bool) then Done (Some value)
      else
        (fix loop (ch : list (K * Node K V)) (it : list K) {struct ch} : outcome (option V) :=
           match ch with
           | [] => Done None
           | (k, c) :: ch =>
               match skip_below k it with
               | [] => Done None
               | x :: it' =>
                   if key_eqb x k then
                     res ← findSubset c it';
                     match res, it' with
                     | Some v, _ => Done (Some v)
                     | None, [] => Done None
                     | None, _ => loop ch it'
                     end
                   else loop ch (x :: it')
               end
           end) ch set
  end.

(** [findSuperset]: with elements still to be found the loop runs over all
    children, then the child of the first element is tried. *)
Fixpoint findSuperset (n : Node K V) (set : list K) {struct n} : outcome (option V) :=
  match n with
  | MkNode value isEnd ch =>
      let all_children :=
        (fix loop (ch : list (K * Node K V)) : outcome (option V) :=
           match ch with
           | [] => Done None
           | (_, c) :: ch =>
               res ← findSuperset c set;
               match res with Some v => Done (Some v) | None => loop ch end
           end) in
      match set with
      | [] =>
          hit ← (if isEnd then p value else Done false);
          if (hit : bool) then Done (Some value) else all_children ch
      | b :: set' =>
          res ← all_children ch;
          match res with
          | Some v => Done (Some v)
          | None =>
              (fix kmid (ch : list (K * Node K V)) : outcome (option V) :=
                 match ch with
                 | [] => Done None
                 | (k, c) :: ch => if key_eqb b k then findSuperset c set' else kmid ch
                 end) ch
          end
      end
  end.

End Tree.

(** ** The tree as a map from sets *)

Section NodeInd.
Context {K V : Type} (P : Node K V -> Prop).
Context (H : forall v e ch, Forall (fun x => P x.2) ch -> P (MkNode v e ch)).

Fixpoint Node_nested_ind (n : Node K V) : P n :=
  match n with
  | MkNode v e ch =>
      H v e ch ((fix go (ch : list (K * Node K V)) : Forall (fun x => P x.2) ch :=
        match ch with
        | [] => List.Forall_nil _
        | x :: ch => List.Forall_cons _ x ch (Node_nested_ind x.2) (go ch)
        end) ch)
  end.
End NodeInd.

Section TreeSpec.
Context {K V : Type} {O : OrderedKey K} {L : OrderedKeyLaws K} (V0 : V).
Implicit Types (ch : list (K * Node K V)) (n : Node K V).

(** Children are kept in order, with smaller elements above larger ones. *)
Inductive wf_node : Node K V -> Prop :=
| wf_node_intro v e ch : StronglySorted (fun a b => key_lt a.1 b.1) ch ->
    Forall (fun x => wf_node x.2) ch -> wf_node (MkNode v e ch).

Abbreviation sorted_children := (StronglySorted (fun a b : K * Node K V => key_lt a.1 b.1)).

Lemma find_child_elem k ch c : find_child k ch = Some c -> (k, c) ∈ ch.
Proof.
  induction ch as [|[k' c'] ch IH]; [done|]. cbn. destruct (key_eqb k k') eqn:E; [|set_solver].
  apply key_eqb_eq in E as ->. intros [= <-]. set_solver.
Qed.

Lemma find_child_sorted k ch c : sorted_children ch -> (k, c) ∈ ch -> find_child k ch = Some c.
Proof.
  induction 1 as [|[k' c'] ch Hs IH Hf]; intros Hin; [by apply elem_of_nil in Hin|]. cbn.
  apply elem_of_cons in Hin as [[= <- <-]|Hin]; [by rewrite (proj2 (key_eqb_eq k k) eq_refl)|].
  destruct (key_eqb k k') eqn:E; [|auto]. apply key_eqb_eq in E as ->.
  rewrite Forall_forall in Hf. specialize (Hf _ Hin). by destruct (key_lt_irrefl k').
Qed.

Lemma update_child_find k f ch k' : sorted_children ch ->
  find_child k' (update_child V0 k f ch) =
    if key_eqb k' k then Some (f (default (node_new V0) (find_child k ch))) else find_child k' ch.
Proof.
  induction 1 as [|[k1 c1] ch Hs IH Hf]; cbn; [done|].
  destruct (key_compare k k1) eqn:E; cbn; 
    [|assert (key_eqb k k1 = false) as -> by (unfold key_eqb; by rewrite E)..].
  - apply key_eq in E as <-. rewrite (proj2 (key_eqb_eq k k) eq_refl). by destruct (key_eqb k' k).
  - destruct (key_eqb k' k) eqn:Ek; [|done]. f_equal. f_equal.
    assert (find_child k ch = None) as ->; [|done]. destruct (find_child k ch) eqn:Ef; [|done].
    apply find_child_elem in Ef. rewrite Forall_forall in Hf. specialize (Hf _ Ef). cbn in Hf.
    destruct (key_lt_irrefl k). by eapply key_trans.
  - rewrite IH. destruct (key_eqb k' k1) eqn:E1; [|done]. apply key_eqb_eq in E1 as ->.
    destruct (key_eqb k1 k) eqn:E2; [|done]. apply key_eqb_eq in E2 as ->.
    by rewrite (proj2 (key_eq k k) eq_refl) in E.
Qed.

Lemma update_child_keys k f ch x : x ∈ update_child V0 k f ch -> x.1 = k \/ x ∈ ch.
Proof.
  induction ch as [|[k1 c1] ch IH]; cbn; [set_solver|]. destruct (key_compare k k1) eqn:E.
  - apply key_eq in E as ->. set_solver.
  - set_solver.
  - rewrite !elem_of_cons. intros [-> |?]; [by right; left|]. destruct IH; auto.
Qed.

Lemma update_child_wf k f ch : sorted_children ch -> Forall (fun x => wf_node x.2) ch ->
  (forall c, wf_node c -> wf_node (f c)) ->
  sorted_children (update_child V0 k f ch) /\ Forall (fun x => wf_node x.2) (update_child V0 k f ch).
Proof.
  intros Hs Hw Hf. assert (wf_node (f (node_new V0))) as Hnew by (apply Hf; repeat constructor).
  induction Hs as [|[k1 c1] ch Hs IH Hlt]; cbn; [by repeat constructor|].
  apply Forall_cons in Hw as [Hc Hw]. destruct (IH Hw) as [A B]. destruct (key_compare k k1) eqn:E.
  - split; [by constructor|]. constructor; [by apply Hf|done].
  - split; [|by repeat constructor]. constructor; [by constructor|]. constructor; [done|].
    eapply Forall_impl; [exact Hlt|]. intros x Hx. by eapply key_trans.
  - split; [|by constructor]. constructor; [done|]. apply Forall_forall. intros x Hx. apply key_gt in E.
    rewrite Forall_forall in Hlt. apply update_child_keys in Hx as [-> |Hx]; auto.
Qed.

Lemma insert_wf set v n : wf_node n -> wf_node (insert V0 set v n).
Proof.
  revert n. induction set as [|k set IH]; intros n [v' e ch Hs Hw]; cbn; [by constructor|].
  destruct (update_child_wf k (insert V0 set v) ch Hs Hw IH). by constructor.
Qed.

(** The stored sets are those inserted, each with its last value. *)
Lemma lookup_insert_same set v n : wf_node n -> lookup set (insert V0 set v n) = Some v.
Proof.
  revert n. induction set as [|k set IH]; intros n [v' e ch Hs Hw]; cbn; [done|].
  rewrite update_child_find, (proj2 (key_eqb_eq k k) eq_refl) by done. apply IH.
  destruct (find_child k ch) eqn:E; cbn; [|repeat constructor].
  apply find_child_elem in E. rewrite Forall_forall in Hw. by apply (Hw _ E).
Qed.

Lemma lookup_new set : lookup set (node_new V0) = None.
Proof. by destruct set. Qed.

Lemma lookup_insert_other set v n set' : wf_node n -> set <> set' ->
  lookup set' (insert V0 set v n) = lookup set' n.
Proof.
  revert n set'. induction set as [|k set IH]; intros n set' [v' e ch Hs Hw] Hne; cbn; [by destruct set'|].
  destruct set' as [|k' set']; [done|]. cbn. rewrite update_child_find by done.
  destruct (key_eqb k' k) eqn:E; [|done]. apply key_eqb_eq in E as ->.
  assert (set <> set') by congruence. destruct (find_child k ch) as [c|] eqn:Ef; cbn.
  - apply IH; [|done]. apply find_child_elem in Ef. rewrite Forall_forall in Hw. by apply (Hw _ Ef).
  - rewrite IH by first [done | repeat constructor]. apply lookup_new.
Qed.

(** What the operations keep: order in the tree, and sets as keys. *)
Record tree_ok (n : Node K V) : Prop := MkTreeOk {
  tree_wf : wf_node n;
  tree_sets : forall s v, lookup s n = Some v -> is_set s
}.

Lemma tree_ok_new : tree_ok (node_new V0).
Proof. split; [repeat constructor|]. intros s v. by rewrite lookup_new. Qed.

Definition set_eq_dec (s t : list K) : {s = t} + {s <> t}.
Proof.
  apply List.list_eq_dec. intros a b. destruct (key_eqb a b) eqn:E; [left; by apply key_eqb_eq|right].
  intros H%key_eqb_eq. congruence.
Defined.

Lemma lookup_insert set v n set' : wf_node n ->
  lookup set' (insert V0 set v n) = if set_eq_dec set set' then Some v else lookup set' n.
Proof.
  intros Hn. destruct (set_eq_dec set set') as [<-|Hne]; [by apply lookup_insert_same|by apply lookup_insert_other].
Qed.

Lemma tree_ok_insert set v n : is_set set -> tree_ok n -> tree_ok (insert V0 set v n).
Proof.
  intros Hset [Hw Hs]. split; [by apply insert_wf|]. intros s x. rewrite lookup_insert by done.
  destruct (set_eq_dec set s) as [<-|]; [done|]. apply Hs.
Qed.

(** ** Searches *)

Context (p : V -> outcome bool).

(** [p] holds of, or does not hold of. *)
Definition accepts (v : V) : Prop := p v = Done true.

Lemma skip_below_spec k it : is_set it ->
  is_set (skip_below k it) /\ (forall x, x ∈ skip_below k it <-> x ∈ it /\ ~ key_lt x k).
Proof.
  clear V0 p. induction 1 as [|x it Hs [IH1 IH2] Hf]; cbn; [split; [constructor|set_solver]|].
  unfold key_ltb. destruct (key_compare x k) eqn:E.
  2: { split; [done|]. intros y. rewrite IH2, elem_of_cons. split; [tauto|]. intros [[-> |?] Hn]; [|done]. by destruct Hn. }
  all: (split; [by constructor|]); intros y; (split; [|tauto]); intros Hy; (split; [done|]);
    intros Hlt; apply elem_of_cons in Hy as [-> |Hy]; [congruence|];
    rewrite Forall_forall in Hf; specialize (Hf _ Hy); pose proof (key_trans _ _ _ Hf Hlt); congruence.
Qed.

(** What a search over the sets of a tree may answer: a stored value that is
    accepted and whose set is related, or that there is none. *)
Definition finds (rel : list K -> Prop) (n : Node K V) (o : outcome (option V)) : Prop :=
  match o with
  | Done (Some v) => exists s, rel s /\ lookup s n = Some v /\ accepts v
  | Done None => forall s v, is_set s -> rel s -> lookup s n = Some v -> p v = Done false
  | _ => False
  end.

(** The predicate returns on every stored value. *)
Definition p_defined (n : Node K V) : Prop := forall s v, lookup s n = Some v -> exists b, p v = Done b.

Lemma subset_loop_ok (rec : Node K V -> list K -> outcome (option V)) ch :
  sorted_children ch ->
  Forall (fun x => forall set, is_set set -> finds (fun s => s ⊆ set) x.2 (rec x.2 set)) ch ->
  forall it, is_set it ->
  match (fix loop (ch : list (K * Node K V)) (it : list K) {struct ch} : outcome (option V) :=
           match ch with
           | [] => Done None
           | (k, c) :: ch =>
               match skip_below k it with
               | [] => Done None
               | x :: it' =>
                   if key_eqb x k then
                     res ← rec c it';
                     match res, it' with
                     | Some v, _ => Done (Some v)
                     | None, [] => Done None
                     | None, _ => loop ch it'
                     end
                   else loop ch (x :: it')
               end
           end) ch it with
  | Done (Some v) => exists k c s, (k, c) ∈ ch /\ k ∈ it /\ s ⊆ it /\ lookup s c = Some v /\ accepts v
  | Done None => forall k c s v, (k, c) ∈ ch -> k ∈ it -> s ⊆ it -> Forall (key_lt k) s -> is_set s ->
      lookup s c = Some v -> p v = Done false
  | _ => False
  end.
Proof.
  clear V0. intros Hs Hrec. induction Hs as [|[k c] ch Hs IH Hf]; intros it Hit.
  { intros k c s v Hin. by apply elem_of_nil in Hin. }
  apply Forall_cons in Hrec as [Hc Hrec]. cbn in Hc. destruct (skip_below_spec k it Hit) as [Hsk Hmem].
  assert (forall k' c', (k', c') ∈ ch -> key_lt k k') as Hlt.
  { intros k' c' Hin. rewrite Forall_forall in Hf. by apply (Hf _ Hin). }
  assert (forall y, y ∈ it -> key_lt k y -> y ∈ skip_below k it) as Hup.
  { intros y Hy Hky. apply Hmem. split; [done|]. intros Hyk. by destruct (key_lt_irrefl k (key_trans _ _ _ Hky Hyk)). }
  destruct (skip_below k it) as [|x it'].
  { intros k' c' s v Hin Hk'. exfalso. enough (k' ∈ []) as H by (by apply elem_of_nil in H).
    apply elem_of_cons in Hin as [[= -> ->]|Hin]; [apply Hmem; split; [done|apply key_lt_irrefl]|eauto]. }
  apply StronglySorted_inv in Hsk as [Hsk Hx].
  assert (it' ⊆ it) as Hsub by (intros y Hy; apply Hmem, elem_of_cons; by right).
  destruct (key_eqb x k) eqn:E.
  - apply key_eqb_eq in E as ->. rewrite Forall_forall in Hx.
    assert (forall y, y ∈ it -> key_lt k y -> y ∈ it') as Hup'.
    { intros y Hy Hky. apply Hup in Hky as Hin; [|done]. apply elem_of_cons in Hin as [-> |?]; [|done].
      by destruct (key_lt_irrefl k). }
    specialize (Hc it' Hsk). destruct (rec c it') as [[v|]| | |]; try done; cbn [mbind outcome_bind].
    { destruct Hc as (s & Hs2 & Hl & Ha). exists k, c, s.
      split_and!; [apply elem_of_cons; by left|by apply Hmem, list_elem_of_here|by etrans|done..]. }
    assert (forall s v, s ⊆ it -> Forall (key_lt k) s -> is_set s -> lookup s c = Some v -> p v = Done false) as Hhead.
    { intros s v H1 H2 H3. apply Hc; [done|]. intros y Hy. rewrite Forall_forall in H2. auto. }
    destruct it' as [|y it''] eqn:Eit.
    { intros k' c' s v [[= -> ->]|Hin]%elem_of_cons Hk'; [by eauto|].
      specialize (Hup' _ Hk' (Hlt _ _ Hin)). by apply elem_of_nil in Hup'. }
    rewrite <- Eit in *. specialize (IH Hrec it' Hsk). clear Eit y it''.
    match goal with |- match ?o with _ => _ end => destruct o as [[v|]| | |] end; try done.
    + destruct IH as (k' & c' & s & ? & ? & ? & ?). exists k', c', s.
      split_and!; [apply elem_of_cons; by right|by apply Hsub|by etrans|tauto..].
    + intros k' c' s v [[= -> ->]|Hin]%elem_of_cons Hk' H1 H2; [by eauto|].
      eapply IH; eauto. intros z Hz. apply Hup'; [by apply H1|]. rewrite Forall_forall in H2.
      eapply key_trans; [by eapply Hlt|by apply H2].
  - assert (key_lt k x) as Hkx.
    { destruct (Hmem x) as [[_ Hn] _]; [apply list_elem_of_here|]. unfold key_eqb in E. unfold key_lt in *.
      rewrite (key_opp x k). by destruct (key_compare x k). }
    specialize (IH Hrec (x :: it') ltac:(by constructor)).
    match goal with |- match ?o with _ => _ end => destruct o as [[v|]| | |] end; try done.
    + destruct IH as (k' & c' & s & ? & Hk' & Hs' & ?). exists k', c', s.
      split_and!; [apply elem_of_cons; by right| | |tauto..].
      * by apply Hmem.
      * intros z Hz. by apply Hmem, Hs'.
    + intros k' c' s v [[= -> ->]|Hin]%elem_of_cons Hk' H1 H2.
      * exfalso. assert (k ∈ x :: it') as Hin by (apply Hmem; split; [done|apply key_lt_irrefl]).
        apply elem_of_cons in Hin as [-> |Hin]; [by apply key_lt_irrefl in Hkx|]. rewrite Forall_forall in Hx.
        by destruct (key_lt_irrefl k (key_trans _ _ _ Hkx (Hx _ Hin))).
      * eapply IH; eauto. intros z Hz. apply Hup; [by apply H1|]. rewrite Forall_forall in H2.
        eapply key_trans; [by eapply Hlt|by apply H2].
Qed.

Lemma wf_child k c v e ch : wf_node (MkNode v e ch) -> (k, c) ∈ ch -> wf_node c.
Proof. intros Hn Hin. inversion_clear Hn as [? ? ? _ Hw]. rewrite Forall_forall in Hw. by apply (Hw _ Hin). Qed.

(** The first elements of a stored set lead to the child it is in. *)
Lemma lookup_cons k s v e ch x : lookup (k :: s) (MkNode v e ch) = Some x ->
  exists c, (k, c) ∈ ch /\ lookup s c = Some x.
Proof. cbn. destruct (find_child k ch) as [c|] eqn:E; [|done]. exists c. by apply find_child_elem in E. Qed.

Lemma lookup_child k c s v e ch x : wf_node (MkNode v e ch) -> (k, c) ∈ ch -> lookup s c = Some x ->
  lookup (k :: s) (MkNode v e ch) = Some x.
Proof.
  intros Hn Hin Hl. inversion_clear Hn as [? ? ? Hs _]. cbn. by rewrite (find_child_sorted k ch c).
Qed.

Lemma p_defined_child k c v e ch : wf_node (MkNode v e ch) -> (k, c) ∈ ch ->
  p_defined (MkNode v e ch) -> p_defined c.
Proof. intros Hn Hin Hp s x Hl. eapply (Hp (k :: s)). by eapply lookup_child. Qed.

Lemma p_defined_here v e ch : p_defined (MkNode v e ch) -> exists b, (if e then p v else Done false) = Done b.
Proof. intros Hp. destruct e; [by apply (Hp [])|by exists false]. Qed.

(** A subset search finds a stored subset that is accepted, if there is one. *)
Lemma findSubset_ok n set : wf_node n -> p_defined n -> is_set set ->
  finds (fun s => s ⊆ set) n (findSubset p n set).
Proof.
  revert set. induction n as [v e ch IH] using Node_nested_ind. intros set Hn Hp Hset.
  pose proof Hn as Hn'. inversion_clear Hn' as [? ? ? Hs Hw]. cbn [findSubset].
  destruct (p_defined_here v e ch Hp) as [b Hb]. rewrite Hb. cbn [mbind outcome_bind]. destruct b.
  { exists []. destruct e; [|done]. split_and!; try done. by intros ? ?%elem_of_nil. }
  pose proof (subset_loop_ok (findSubset p) ch Hs) as Hloop.
  specialize (Hloop ltac:(apply Forall_forall; intros [k c] Hx set' Hset'; rewrite Forall_forall in IH;
    apply (IH _ Hx); [by eapply wf_child|by eapply p_defined_child|done]) set Hset).
  match goal with |- finds _ _ ?o => destruct o as [[x|]| | |] end; try done.
  - destruct Hloop as (k & c & s & Hin & Hk & Hsub & Hl & Ha). exists (k :: s).
    split_and!; [|by eapply lookup_child|done]. intros y [-> |Hy]%elem_of_cons; auto.
  - intros s x Hss Hsub Hl. destruct s as [|k s].
    + cbn in Hl. destruct e; [|done]. by simplify_eq.
    + apply lookup_cons in Hl as (c & Hin & Hl). apply StronglySorted_inv in Hss as [Hss Hlt].
      apply (Hloop k c s x); try done; [apply Hsub, list_elem_of_here|].
      intros y Hy. apply Hsub, elem_of_cons. by right.
Qed.

Lemma all_children_ok (rec : Node K V -> outcome (option V)) ch :
  Forall (fun x => exists r, rec x.2 = Done r) ch ->
  match (fix loop (ch : list (K * Node K V)) : outcome (option V) :=
           match ch with
           | [] => Done None
           | (_, c) :: ch => res ← rec c; match res with Some v => Done (Some v) | None => loop ch end
           end) ch with
  | Done (Some v) => exists k c, (k, c) ∈ ch /\ rec c = Done (Some v)
  | Done None => forall k c, (k, c) ∈ ch -> rec c = Done None
  | _ => False
  end.
Proof.
  induction 1 as [|[k c] ch [r Hr] _ IH]; [by intros ? ? ?%elem_of_nil|]. cbn in Hr. rewrite Hr. cbn [mbind outcome_bind].
  destruct r as [v|]; [exists k, c; split; [apply list_elem_of_here|done]|].
  match goal with |- match ?o with _ => _ end => destruct o as [[v|]| | |] end; try done.
  - destruct IH as (k' & c' & ? & ?). exists k', c'. split; [apply elem_of_cons; by right|done].
  - intros k' c' [[= -> ->]|Hin]%elem_of_cons; [done|by eapply IH].
Qed.

Lemma kmid_find_child {A} b (rec : Node K V -> outcome (option A)) ch :
  (fix kmid (ch : list (K * Node K V)) : outcome (option A) :=
     match ch with
     | [] => Done None
     | (k, c) :: ch => if key_eqb b k then rec c else kmid ch
     end) ch = match find_child b ch with Some c => rec c | None => Done None end.
Proof. induction ch as [|[k c] ch IH]; [done|]. cbn. destruct (key_eqb b k); [done|exact IH]. Qed.

Lemma subset_tail k s t : (forall y, y ∈ t -> key_lt k y) -> t ⊆ k :: s -> t ⊆ s.
Proof.
  intros Hlt Hsub y Hy. specialize (Hsub y Hy). apply elem_of_cons in Hsub as [-> |?]; [|done].
  by destruct (key_lt_irrefl k (Hlt k Hy)).
Qed.

(** A superset search finds a stored superset that is accepted, if there is one. *)
Lemma findSuperset_ok n set : wf_node n -> p_defined n -> is_set set ->
  finds (fun s => set ⊆ s) n (findSuperset p n set).
Proof.
  revert set. induction n as [v e ch IH] using Node_nested_ind. intros set Hn Hp Hset.
  rewrite Forall_forall in IH.
  assert (forall k c set', (k, c) ∈ ch -> is_set set' -> finds (fun s => set' ⊆ s) c (findSuperset p c set')) as IHc.
  { intros k c set' Hin Hset'. apply (IH _ Hin); [by eapply wf_child|by eapply p_defined_child|done]. }
  pose proof (all_children_ok (fun c => findSuperset p c set) ch) as Hall.
  specialize (Hall ltac:(apply Forall_forall; intros [k c] Hin; specialize (IHc k c set Hin Hset); cbn;
    destruct (findSuperset p c set) as [r| | |]; try done; by exists r)).
  assert (forall k c x, (k, c) ∈ ch -> findSuperset p c set = Done (Some x) ->
    finds (fun s => set ⊆ s) (MkNode v e ch) (Done (Some x))) as Hhit.
  { intros k c x Hin Hr. specialize (IHc k c set Hin Hset). rewrite Hr in IHc.
    destruct IHc as (s & Hsub & Hl & Ha). exists (k :: s). split_and!; [|by eapply lookup_child|done].
    intros y Hy. apply elem_of_cons. right. by apply Hsub. }
  cbn [findSuperset]. destruct set as [|b set'].
  - destruct (p_defined_here v e ch Hp) as [b Hb]. rewrite Hb. cbn [mbind outcome_bind]. destruct b.
    { exists []. destruct e; [|done]. by split_and!. }
    match goal with |- finds _ _ ?o => destruct o as [[x|]| | |] end; try done.
    + destruct Hall as (k & c & Hin & Hr). by eapply Hhit.
    + intros s x Hss Hsub Hl. destruct s as [|k s]; [cbn in Hl; destruct e; by simplify_eq|].
      apply lookup_cons in Hl as (c & Hin & Hl). specialize (IHc k c [] Hin Hset). rewrite (Hall k c Hin) in IHc.
      apply StronglySorted_inv in Hss as [Hss _]. eapply IHc; [done| |done]. by intros ? ?%elem_of_nil.
  - match goal with |- finds _ _ (?o ≫= _) => destruct o as [[x|]| | |] end; try done; cbn [mbind outcome_bind].
    { destruct Hall as (k & c & Hin & Hr). by eapply Hhit. }
    rewrite (kmid_find_child b (fun c => findSuperset p c set')).
    apply StronglySorted_inv in Hset as Hset'. destruct Hset' as [Hset' Hb]. rewrite Forall_forall in Hb.
    assert (forall s x, is_set s -> b :: set' ⊆ s -> lookup s (MkNode v e ch) = Some x -> p x = Done false \/
      exists c s', find_child b ch = Some c /\ s = b :: s' /\ set' ⊆ s' /\ is_set s' /\ lookup s' c = Some x) as Hcase.
    { intros s x Hss Hsub Hl. pose proof (Hsub b (list_elem_of_here _ _)) as Hbs.
      destruct s as [|k s]; [by apply elem_of_nil in Hbs|]. apply StronglySorted_inv in Hss as [Hss Hk].
      rewrite Forall_forall in Hk. apply elem_of_cons in Hbs as [-> |Hbs].
      - right. cbn in Hl. destruct (find_child k ch) as [c|] eqn:Ef; [|done]. exists c, s. split_and!; try done.
        apply (subset_tail k); [done|]. intros y Hy. apply Hsub, elem_of_cons. by right.
      - left. apply lookup_cons in Hl as (c & Hin & Hl). specialize (IHc k c (b :: set') Hin Hset).
        rewrite (Hall k c Hin) in IHc. eapply IHc; [done| |done]. apply (subset_tail k); [|done].
        intros y [-> |Hy]%elem_of_cons; [by apply Hk|]. eapply key_trans; [by apply Hk|by apply Hb]. }
    destruct (find_child b ch) as [c|] eqn:Ef.
    + pose proof (find_child_elem _ _ _ Ef) as Hin. specialize (IHc b c set' Hin Hset').
      destruct (findSuperset p c set') as [[x|]| | |]; try done.
      * destruct IHc as (s & Hsub & Hl & Ha). exists (b :: s). split_and!; [|by eapply lookup_child|done].
        intros y [-> |Hy]%elem_of_cons; apply elem_of_cons; [by left|right; by apply Hsub].
      * intros s x Hss Hsub Hl. destruct (Hcase s x Hss Hsub Hl) as [?|(c' & s' & [= <-] & -> & ? & ? & ?)]; [done|].
        by eapply IHc.
    + intros s x Hss Hsub Hl. by destruct (Hcase s x Hss Hsub Hl) as [?|(c' & s' & ? & _)].
Qed.


(** ** All subsets and supersets *)

(** Elements added one after the other. *)
Definition insert_elems (acc s : list K) : list K := foldl (fun a k => set_insert k a) acc s.

Lemma set_insert_last k acc : (forall a, a ∈ acc -> key_lt a k) -> set_insert k acc = acc ++ [k].
Proof.
  induction acc as [|a acc IH]; intros H; [done|]. cbn.
  pose proof (H a (list_elem_of_here _ _)) as Ha. unfold key_lt in Ha. rewrite (key_opp a k), Ha. cbn.
  f_equal. apply IH. intros b Hb. apply H, elem_of_cons. by right.
Qed.

Lemma insert_elems_set acc s : is_set (acc ++ s) -> insert_elems acc s = acc ++ s.
Proof.
  revert acc. induction s as [|k s IH]; intros acc Hs; [by rewrite app_nil_r|]. unfold insert_elems in *. cbn.
  rewrite set_insert_last.
  - rewrite IH; rewrite <- app_assoc; done.
  - intros a Ha. clear IH. induction acc as [|b acc IHa]; [by apply elem_of_nil in Ha|].
    apply StronglySorted_inv in Hs as [Hs Hb]. apply elem_of_cons in Ha as [-> |Ha]; [|by apply IHa].
    rewrite Forall_forall in Hb. apply Hb, elem_of_app. right. apply list_elem_of_here.
Qed.

Lemma findSubsets_below_elem set n acc t v : is_set set ->
  (t, v) ∈ findSubsets_below set n acc <->
    exists k s, t = insert_elems acc (k :: s) /\ is_set (k :: s) /\ k :: s ⊆ set /\ lookup (k :: s) n = Some v.
Proof.
  revert n acc. induction set as [|elt it IH]; intros n acc Hset; cbn [findSubsets_below].
  { split; [by intros ?%elem_of_nil|]. intros (k & s & _ & _ & Hsub & _). specialize (Hsub k (list_elem_of_here _ _)).
    by apply elem_of_nil in Hsub. }
  apply StronglySorted_inv in Hset as [Hset Helt]. rewrite Forall_forall in Helt.
  rewrite elem_of_app, (IH n acc Hset). split.
  - intros [Hin|(k & s & -> & Hks & Hsub & Hl)].
    + destruct (find_child elt (children n)) as [c|] eqn:Ef; [|by apply elem_of_nil in Hin].
      apply elem_of_app in Hin as [Hin|(k & s & -> & Hks & Hsub & Hl)%IH]; [| |done].
      * destruct (isEndOfSet c) eqn:Ee; [|by apply elem_of_nil in Hin]. apply list_elem_of_singleton in Hin as [= -> ->].
        exists elt, []. split_and!; [done|by repeat constructor| |cbn; by rewrite Ef, Ee].
        intros x Hx. apply list_elem_of_singleton in Hx as ->. apply list_elem_of_here.
      * exists elt, (k :: s). split_and!; [done| | |cbn; by rewrite Ef].
        -- constructor; [done|]. apply Forall_forall. intros x Hx. by apply Helt, Hsub.
        -- intros x [-> |Hx]%elem_of_cons; [apply list_elem_of_here|apply elem_of_cons; right; by apply Hsub].
    + exists k, s. split_and!; try done. intros x Hx. apply elem_of_cons. right. by apply Hsub.
  - intros (k & s & -> & Hks & Hsub & Hl). apply StronglySorted_inv in Hks as Hk. destruct Hk as [Hs Hk]. rewrite Forall_forall in Hk.
    pose proof (Hsub k (list_elem_of_here _ _)) as Hkin. apply elem_of_cons in Hkin as [-> |Hkin].
    + left. cbn in Hl. destruct (find_child elt (children n)) as [c|]; [|done]. apply elem_of_app.
      destruct s as [|k s].
      * left. cbn in Hl. destruct (isEndOfSet c); [|done]. injection Hl as <-. by apply list_elem_of_singleton.
      * right. apply IH; [done|]. exists k, s. split_and!; [done..| |done]. apply (subset_tail elt); [done|].
        intros x Hx. apply Hsub, elem_of_cons. by right.
    + right. exists k, s. split_and!; [done..| |done]. apply (subset_tail elt); [|done].
      intros x [-> |Hx]%elem_of_cons; [by apply Helt|]. eapply key_trans; [by apply Helt|by apply Hk].
Qed.

(** [subsets] lists the stored subsets and their values. *)
Lemma subsets_elem set n s v : is_set set -> tree_ok n ->
  (s, v) ∈ subsets set n <-> s ⊆ set /\ lookup s n = Some v.
Proof.
  intros Hset [_ Hn]. unfold subsets, findSubsets. rewrite elem_of_app, findSubsets_below_elem by done. split.
  - intros [Hin|(k & t & -> & Hs & Hsub & Hl)]; [|by rewrite insert_elems_set].
    destruct (isEndOfSet n) eqn:Ee; [|by apply elem_of_nil in Hin]. apply list_elem_of_singleton in Hin as [= -> ->].
    split; [by intros ? ?%elem_of_nil|]. cbn. by rewrite Ee.
  - intros [Hsub Hl]. pose proof (Hn s v Hl) as Hs. destruct s as [|k s].
    + left. cbn in Hl. destruct (isEndOfSet n); [|done]. injection Hl as <-. by apply list_elem_of_singleton.
    + right. exists k, s. by rewrite insert_elems_set.
Qed.

(** How the search for supersets walks along a stored set. *)
Fixpoint walk (s : list K) (set : list K) : bool :=
  match set, s with
  | [], _ => true
  | _, [] => false
  | e :: set', k :: s => if key_eqb e k then walk s set' else if key_ltb k e then walk s set else false
  end.

Lemma walk_subset s set : is_set s -> is_set set -> walk s set = true <-> set ⊆ s.
Proof.
  revert set. induction s as [|k s IH]; intros [|e set] Hs Hset; try (split; [by intros _ ? ?%elem_of_nil|done]).
  { split; [done|]. intros H. specialize (H e (list_elem_of_here _ _)). by apply elem_of_nil in H. }
  cbn. apply StronglySorted_inv in Hs as [Hs Hk], Hset as Hset'. destruct Hset' as [Hset' He].
  rewrite Forall_forall in Hk. rewrite Forall_forall in He. destruct (key_eqb e k) eqn:E.
  - apply key_eqb_eq in E as ->. rewrite IH by done. split.
    + intros H x [-> |Hx]%elem_of_cons; apply elem_of_cons; [by left|right; by apply H].
    + intros H. apply (subset_tail k); [done|]. intros x Hx. apply H, elem_of_cons. by right.
  - destruct (key_ltb k e) eqn:El.
    + rewrite IH by done. split.
      * intros H x Hx. apply elem_of_cons. right. by apply H.
      * intros H. apply (subset_tail k); [|done]. unfold key_ltb in El.
        assert (key_lt k e) as Hke by (unfold key_lt; by destruct (key_compare k e)).
        intros x [-> |Hx]%elem_of_cons; [done|]. eapply key_trans; [done|by apply He].
    + split; [done|]. intros H. exfalso. specialize (H e (list_elem_of_here _ _)).
      apply elem_of_cons in H as [-> |H]; [by rewrite (proj2 (key_eqb_eq k k) eq_refl) in E|].
      specialize (Hk e H). unfold key_ltb in El. unfold key_lt in Hk. by rewrite Hk in El.
Qed.

(** The loop over the children, for a search [rec] of each. *)
Definition found_below (acc set : list K) ch (t : list K) (v : V) : Prop := exists k s c,
  (k, c) ∈ ch /\ t = insert_elems acc (k :: s) /\ walk (k :: s) set = true /\ lookup s c = Some v.

Definition searches (rec : Node K V -> list K -> list K -> list (list K * V)) (c : Node K V) : Prop :=
  forall acc set t v, (t, v) ∈ rec c acc set <->
    exists s, t = insert_elems acc s /\ walk s set = true /\ lookup s c = Some v.

Lemma found_below_nil acc set t v : found_below acc set [] t v <-> False.
Proof. split; [|done]. intros (k & s & c & H & _). by apply elem_of_nil in H. Qed.

Lemma found_below_cons acc set k c ch t v :
  found_below acc set ((k, c) :: ch) t v <->
    (exists s, t = insert_elems (set_insert k acc) s /\ walk (k :: s) set = true /\ lookup s c = Some v) \/
    found_below acc set ch t v.
Proof.
  split.
  - intros (k' & s & c' & [[= -> ->]|Hin]%elem_of_cons & H); [left; by exists s|right]. by exists k', s, c'.
  - intros [(s & ? & ? & ?)|(k' & s & c' & Hin & H)].
    + exists k, s, c. split; [apply list_elem_of_here|done].
    + exists k', s, c'. split; [apply elem_of_cons; by right|done].
Qed.

Lemma all_below rec acc ch t v : Forall (fun x => searches rec x.2) ch ->
  (t, v) ∈ (fix loop (ch : list (K * Node K V)) : list (list K * V) :=
              match ch with
              | [] => []
              | (k, c) :: ch => rec c (set_insert k acc) [] ++ loop ch
              end) ch <-> found_below acc [] ch t v.
Proof.
  induction 1 as [|[k c] ch Hc _ IH]; [by rewrite found_below_nil, elem_of_nil|].
  rewrite elem_of_app, IH, found_below_cons, (Hc (set_insert k acc) [] t v). apply or_iff_compat_r.
  split; intros (s & ? & ? & ?); exists s; split_and!; try done; by destruct s.
Qed.

Lemma some_below rec acc elt next ch t v : sorted_children ch -> Forall (fun x => searches rec x.2) ch ->
  (t, v) ∈ (fix loop (ch : list (K * Node K V)) : list (list K * V) :=
              match ch with
              | [] => []
              | (k, c) :: ch =>
                  let nacc := set_insert k acc in
                  if key_eqb elt k then rec c nacc next ++ loop ch
                  else if key_ltb k elt then rec c nacc (elt :: next) ++ loop ch
                  else []
              end) ch <-> found_below acc (elt :: next) ch t v.
Proof.
  intros Hs Hr. induction Hs as [|[k c] ch Hs IH Hlt]; [by rewrite found_below_nil, elem_of_nil|].
  apply Forall_cons in Hr as [Hc Hr]. rewrite found_below_cons. specialize (IH Hr). cbn [walk].
  destruct (key_eqb elt k) eqn:E; [|destruct (key_ltb k elt) eqn:El].
  1,2: rewrite elem_of_app, IH, (Hc (set_insert k acc)); done.
  rewrite elem_of_nil. split; [done|]. intros [(s & _ & ? & _)|(k' & s & c' & Hin & _ & Hw & _)]; [done|]. cbn in Hw.
  rewrite Forall_forall in Hlt. specialize (Hlt _ Hin). cbn in Hlt.
  assert (key_lt elt k) as Hek.
  { unfold key_eqb, key_ltb in *. apply key_gt. rewrite (key_opp elt k) in El |- *. by destruct (key_compare elt k). }
  pose proof (key_trans _ _ _ Hek Hlt) as Hek'. unfold key_eqb, key_ltb in Hw. rewrite (key_opp elt k'), Hek' in Hw. done.
Qed.

Lemma findSupersets_elem n : wf_node n -> searches findSupersets n.
Proof.
  induction n as [x e ch IH] using Node_nested_ind. intros Hn. inversion_clear Hn as [? ? ? Hs Hw].
  assert (Forall (fun x => searches findSupersets x.2) ch) as Hr.
  { rewrite Forall_forall in IH. rewrite Forall_forall in Hw. apply Forall_forall. auto. }
  assert (forall acc set t v, found_below acc set ch t v <->
    exists k s, t = insert_elems acc (k :: s) /\ walk (k :: s) set = true /\ lookup (k :: s) (MkNode x e ch) = Some v) as Hfb.
  { intros acc set t v. split.
    - intros (k & s & c & Hin & -> & Hwk & Hl). exists k, s. split_and!; [done..|]. cbn.
      by rewrite (find_child_sorted k ch c).
    - intros (k & s & -> & Hwk & (c & Hin & Hl)%lookup_cons). by exists k, s, c. }
  intros acc [|elt next] t v; cbn [findSupersets].
  - rewrite elem_of_app, all_below, Hfb by done. split.
    + intros [Hin|(k & s & ? & ? & ?)]; [|by exists (k :: s)]. destruct e eqn:Ee; [|by apply elem_of_nil in Hin].
      apply list_elem_of_singleton in Hin as [= -> ->]. by exists [].
    + intros ([|k s] & -> & ? & Hl); [left|right; by exists k, s]. cbn in Hl. destruct e; [|done]. injection Hl as <-.
      by apply list_elem_of_singleton.
  - rewrite some_below, Hfb by done. split; [intros (k & s & ?); by exists (k :: s)|].
    intros ([|k s] & -> & Hwk & Hl); [done|]. by exists k, s.
Qed.

(** [supersets] lists the stored supersets and their values. *)
Lemma supersets_elem set n s v : is_set set -> tree_ok n ->
  (s, v) ∈ supersets set n <-> set ⊆ s /\ lookup s n = Some v.
Proof.
  intros Hset [Hw Hn]. unfold supersets. etrans; [apply (findSupersets_elem n Hw)|]. split.
  - intros (t & -> & Hwk & Hl). pose proof (Hn t v Hl) as Ht. rewrite insert_elems_set by done.
    split; [by apply walk_subset|done].
  - intros [Hsub Hl]. pose proof (Hn s v Hl) as Hs. exists s. rewrite insert_elems_set by done.
    split_and!; [done|by apply walk_subset|done].
Qed.

End TreeSpec.
