(* ===== verification/ImmutableTree.v ===== *)
(** Persistent balanced trees (include/klee/ADT/ImmutableTree.h), the maps and
    sets over them, and their iterators. *)
From stdpp Require Import base numbers sets list.
From Stdlib Require Import ZArith Lia Sorting.Sorted.
From S2P Require Import Prelude MapOfSets.

(** [KOV]: the key of a stored value; the whole value for ImmutableSet, its first
    component for ImmutableMap. *)
Class KeyOfValue (K V : Type) : Type := key_of_value : V -> K.

Module ImmutableTree.

(** A node holds its height; the terminator is the one node without a value, of
    height 0.  Reference counts are not state of the model. *)
Inductive node (V : Type) : Type :=
| terminator
| Node (left : node V) (value : V) (right : node V) (height : N).
Arguments terminator {V}.
Arguments Node {V}.

Section Tree.
Context {K V : Type} {O : OrderedKey K} {KV : KeyOfValue K V}.
Implicit Types (t l r : node V) (v x : V) (k : K).

Definition height t : N := match t with terminator => 0 | Node _ _ _ h => h end.
(** The children of the terminator are the terminator. *)
Definition left t : node V := match t with terminator => terminator | Node l _ _ _ => l end.
Definition right t : node V := match t with terminator => terminator | Node _ _ r _ => r end.
Definition isTerminator t : bool := match t with terminator => true | Node _ _ _ _ => false end.

(** [Node(left, right, value)] *)
Definition new_node l v r : node V := Node l v r (N.max (height l) (height r) + 1).

(** [balance].  A node that is higher than another is not the terminator, so the
    remaining cases of the matches do not arise. *)
Definition balance l v r : node V :=
  if (height r + 2 <? height l)%N then
    match l with
    | Node ll lv lr _ =>
        if (height lr <=? height ll)%N then new_node ll lv (new_node lr v r)
        else
          match lr with
          | Node lrl lrv lrr _ => new_node (new_node ll lv lrl) lrv (new_node lrr v r)
          | terminator => new_node l v r
          end
    | terminator => new_node l v r
    end
  else if (height l + 2 <? height r)%N then
    match r with
    | Node rl rv rr _ =>
        if (height rl <=? height rr)%N then new_node (new_node l v rl) rv rr
        else
          match rl with
          | Node rll rlv rlr _ => new_node (new_node l v rll) rlv (new_node rlr rv rr)
          | terminator => new_node l v r
          end
    | terminator => new_node l v r
    end
  else new_node l v r.

Fixpoint size t : N :=
  match t with terminator => 0 | Node l _ r _ => size l + 1 + size r end.

(** [popMin] and [popMax] give the value and the tree without it.  On the
    terminator the code recurses into itself for ever; it is not called there. *)
Fixpoint popMin t : outcome (V * node V) :=
  match t with
  | terminator => Undefined
  | Node terminator v r _ => Done (v, r)
  | Node l v r _ => '(out, l) ← popMin l; Done (out, balance l v r)
  end.

Fixpoint popMax t : outcome (V * node V) :=
  match t with
  | terminator => Undefined
  | Node l v terminator _ => Done (v, l)
  | Node l v r _ => '(out, r) ← popMax r; Done (out, balance l v r)
  end.

Fixpoint insert v t : node V :=
  match t with
  | terminator => new_node terminator v terminator
  | Node l x r _ =>
      if key_ltb (key_of_value v) (key_of_value x) then balance (insert v l) x r
      else if key_ltb (key_of_value x) (key_of_value v) then balance l x (insert v r)
      else t
  end.

Fixpoint replace v t : node V :=
  match t with
  | terminator => new_node terminator v terminator
  | Node l x r _ =>
      if key_ltb (key_of_value v) (key_of_value x) then balance (replace v l) x r
      else if key_ltb (key_of_value x) (key_of_value v) then balance l x (replace v r)
      else new_node l v r
  end.

Fixpoint remove k t : outcome (node V) :=
  match t with
  | terminator => Done terminator
  | Node l x r _ =>
      if key_ltb k (key_of_value x) then l ← remove k l; Done (balance l x r)
      else if key_ltb (key_of_value x) k then r ← remove k r; Done (balance l x r)
      else if isTerminator l then Done r
      else if isTerminator r then Done l
      else '(min, nr) ← popMin r; Done (balance l min nr)
  end.

Definition empty t : bool := isTerminator t.

Fixpoint count k t : N :=
  match t with
  | terminator => 0
  | Node l x r _ =>
      if key_ltb k (key_of_value x) then count k l
      else if key_ltb (key_of_value x) k then count k r
      else 1
  end.

Fixpoint lookup k t : option V :=
  match t with
  | terminator => None
  | Node l x r _ =>
      if key_ltb k (key_of_value x) then lookup k l
      else if key_ltb (key_of_value x) k then lookup k r
      else Some x
  end.

Fixpoint lookup_previous_loop k t (result : option V) : option V :=
  match t with
  | terminator => result
  | Node l x r _ =>
      if key_ltb k (key_of_value x) then lookup_previous_loop k l result
      else if key_ltb (key_of_value x) k then lookup_previous_loop k r (Some x)
      else Some x
  end.

Definition lookup_previous k t : option V := lookup_previous_loop k t None.

Fixpoint min t : outcome V :=
  match t with
  | terminator => AssertFail
  | Node terminator v _ _ => Done v
  | Node l _ _ _ => min l
  end.

Fixpoint max t : outcome V :=
  match t with
  | terminator => AssertFail
  | Node _ v terminator _ => Done v
  | Node _ _ r _ => max r
  end.

(** ** Iterators *)

(** [FixedStack]: at most [max] elements, the last one first. *)
Record FixedStack : Type := MkStack { stack_max : N; elts : list (node V) }.

Definition push_back (s : FixedStack) t : outcome FixedStack :=
  if (N.of_nat (length (elts s)) <? stack_max s)%N then Done (MkStack (stack_max s) (t :: elts s))
  else Undefined.

(** An iterator is the root and the path from it down to the current node. *)
Record iterator : Type := MkIter { root : node V; stack : FixedStack }.

Definition set_stack (i : iterator) (s : FixedStack) : iterator := MkIter (root i) s.
Definition set_elts (i : iterator) (ns : list (node V)) : iterator := set_stack i (MkStack (stack_max (stack i)) ns).

(** Two pointers to nodes of one search tree are the same when their keys are. *)
Definition same_node t1 t2 : bool :=
  match t1, t2 with
  | Node _ v1 _ _, Node _ v2 _ _ => key_eqb (key_of_value v1) (key_of_value v2)
  | terminator, terminator => true
  | _, _ => false
  end.

(** The loops that push a node and its left, or right, descendants. *)
Fixpoint push_left t (s : FixedStack) : outcome FixedStack :=
  match t with
  | terminator => Done s
  | Node l _ _ _ => s ← push_back s t; push_left l s
  end.

Fixpoint push_right t (s : FixedStack) : outcome FixedStack :=
  match t with
  | terminator => Done s
  | Node _ _ r _ => s ← push_back s t; push_right r s
  end.

Definition iterator_new t (atBeginning : bool) : outcome iterator :=
  s ← (if atBeginning then push_left t (MkStack (height t) []) else Done (MkStack (height t) []));
  Done (MkIter t s).

Definition begin t : outcome iterator := iterator_new t true.
Definition end_ t : outcome iterator := iterator_new t false.

(** [operator*]: [back] of an empty stack is outside its array. *)
Definition deref_iter (i : iterator) : outcome V :=
  match elts (stack i) with
  | Node _ v _ _ :: _ => Done v
  | _ => Undefined
  end.

Fixpoint nodes_eqb (a b : list (node V)) : bool :=
  match a, b with
  | [], [] => true
  | x :: a, y :: b => same_node x y && nodes_eqb a b
  | _, _ => false
  end.

Definition iter_eqb (a b : iterator) : bool := nodes_eqb (elts (stack a)) (elts (stack b)).

(** The loops that pop until the node was reached from its left, or right,
    child. *)
Fixpoint climb_from_left prev (ns : list (node V)) : list (node V) :=
  match ns with
  | [] => []
  | n :: ns' => if same_node prev (left n) then ns else climb_from_left n ns'
  end.

Fixpoint climb_from_right prev (ns : list (node V)) : list (node V) :=
  match ns with
  | [] => []
  | n :: ns' => if same_node prev (right n) then ns else climb_from_right n ns'
  end.

(** [operator++] *)
Definition next (i : iterator) : outcome iterator :=
  match elts (stack i) with
  | [] => AssertFail
  | n :: ns =>
      if isTerminator (right n) then Done (set_elts i (climb_from_left n ns))
      else s ← push_left (right n) (stack i); Done (set_stack i s)
  end.

(** [operator--] *)
Definition prev (i : iterator) : outcome iterator :=
  match elts (stack i) with
  | [] => s ← push_right (root i) (stack i); Done (set_stack i s)
  | n :: ns =>
      if isTerminator (left n) then Done (set_elts i (climb_from_right n ns))
      else s ← push_right (left n) (stack i); Done (set_stack i s)
  end.

(** The search of [lower_bound]: the path, and whether the key was met. *)
Fixpoint search k t (s : FixedStack) : outcome (FixedStack * bool) :=
  match t with
  | terminator => Done (s, false)
  | Node l x r _ =>
      s ← push_back s t;
      if key_ltb k (key_of_value x) then search k l s
      else if key_ltb (key_of_value x) k then search k r s
      else Done (s, true)
  end.

Definition lower_bound k t : outcome iterator :=
  it ← end_ t;
  '(s, found) ← search k t (stack it);
  let it := set_stack it s in
  if (found : bool) then Done it
  else
    match elts s with
    | [] => Done it
    | _ =>
        last ← deref_iter it;
        if key_ltb (key_of_value last) k then next it else Done it
    end.

Definition upper_bound k t : outcome iterator :=
  e ← end_ t;
  it ← lower_bound k t;
  if iter_eqb it e then Done it
  else
    v ← deref_iter it;
    if key_ltb k (key_of_value v) then Done it else next it.

Definition find k t : outcome iterator :=
  e ← end_ t;
  it ← lower_bound k t;
  if iter_eqb it e then Done e
  else
    v ← deref_iter it;
    if key_ltb k (key_of_value v) then Done e else Done it.

End Tree.

(** ** The values of a tree, in order *)

Section Elements.
Context {K V : Type} {O : OrderedKey K} {KV : KeyOfValue K V}.

Fixpoint elems (t : node V) : list V :=
  match t with terminator => [] | Node l v r _ => elems l ++ v :: elems r end.

(** The order of the keys, and the operations on ordered lists of values. *)
Definition value_lt (a b : V) : Prop := key_lt (key_of_value a) (key_of_value b).
Definition ordered : list V -> Prop := StronglySorted value_lt.

Fixpoint list_insert (v : V) (l : list V) : list V :=
  match l with
  | [] => [v]
  | x :: l' =>
      match key_compare (key_of_value v) (key_of_value x) with
      | Lt => v :: l
      | Eq => l
      | Gt => x :: list_insert v l'
      end
  end.

Fixpoint list_replace (v : V) (l : list V) : list V :=
  match l with
  | [] => [v]
  | x :: l' =>
      match key_compare (key_of_value v) (key_of_value x) with
      | Lt => v :: l
      | Eq => v :: l'
      | Gt => x :: list_replace v l'
      end
  end.

Fixpoint list_remove (k : K) (l : list V) : list V :=
  match l with
  | [] => []
  | x :: l' =>
      match key_compare k (key_of_value x) with
      | Lt => l
      | Eq => l'
      | Gt => x :: list_remove k l'
      end
  end.

Fixpoint list_find (k : K) (l : list V) : option V :=
  match l with
  | [] => None
  | x :: l' => if key_eqb k (key_of_value x) then Some x else list_find k l'
  end.

(** The values whose keys are below [k], and those whose keys are at most [k]. *)
Definition below (k : K) (l : list V) : list V := List.filter (fun x => key_ltb (key_of_value x) k) l.
Definition upto (k : K) (l : list V) : list V := List.filter (fun x => negb (key_ltb k (key_of_value x))) l.

Lemma elems_balance (l : node V) v r : elems (balance l v r) = elems l ++ v :: elems r.
Proof. unfold balance. repeat case_match; subst; cbn; repeat (rewrite <- app_assoc; cbn); done. Qed.

Lemma size_elems (t : node V) : size t = N.of_nat (length (elems t)).
Proof. induction t as [|l IHl v r IHr h]; cbn; [done|]. rewrite IHl, IHr, length_app. cbn. lia. Qed.

Context {L : OrderedKeyLaws K}.

(** The three outcomes of the comparisons a search makes. *)
Lemma key_cases (a b : K) :
  (key_compare a b = Lt /\ key_ltb a b = true) \/
  (key_compare a b = Gt /\ key_ltb a b = false /\ key_lt b a /\ key_ltb b a = true) \/
  (a = b /\ key_compare a b = Eq /\ key_ltb a b = false /\ key_ltb b a = false).
Proof.
  unfold key_ltb, key_lt. rewrite (key_opp a b). destruct (key_compare a b) eqn:E; cbn; auto 6.
  apply key_eq in E. auto 6.
Qed.

Lemma ordered_app l1 x l2 : ordered (l1 ++ x :: l2) <->
  ordered l1 /\ ordered l2 /\ Forall (fun y => value_lt y x) l1 /\ Forall (value_lt x) l2.
Proof.
  unfold ordered. induction l1 as [|y l1 IH]; cbn.
  - split; [inversion 1; subst; split_and!; auto; constructor|]. intros (_ & ? & _ & ?). by constructor.
  - split.
    + intros H. apply StronglySorted_inv in H as [H Hf]. apply IH in H as (H1 & H2 & H3 & H4).
      apply Forall_app in Hf as [Hf1 Hf2]. inversion Hf2; subst. split_and!; [by constructor|done|by constructor|done].
    + intros (H1 & H2 & H3 & H4). apply StronglySorted_inv in H1 as [H1 Hf]. inversion H3; subst.
      constructor; [by apply IH|]. apply Forall_app. split; [done|]. constructor; [done|].
      eapply List.Forall_impl; [|exact H4]. intros z Hz. by eapply key_trans.
Qed.

(** Where the order of the keys sends a search. *)
Lemma list_insert_lt v x l1 l2 : key_compare (key_of_value v) (key_of_value x) = Lt ->
  list_insert v (l1 ++ x :: l2) = list_insert v l1 ++ x :: l2.
Proof. intros H. induction l1 as [|y l1 IH]; cbn; [by rewrite H|]. case_match; by rewrite ?IH. Qed.

Lemma list_replace_lt v x l1 l2 : key_compare (key_of_value v) (key_of_value x) = Lt ->
  list_replace v (l1 ++ x :: l2) = list_replace v l1 ++ x :: l2.
Proof. intros H. induction l1 as [|y l1 IH]; cbn; [by rewrite H|]. case_match; by rewrite ?IH. Qed.

Lemma list_remove_lt k x l1 l2 : key_compare k (key_of_value x) = Lt ->
  list_remove k (l1 ++ x :: l2) = list_remove k l1 ++ x :: l2.
Proof. intros H. induction l1 as [|y l1 IH]; cbn; [by rewrite H|]. case_match; by rewrite ?IH. Qed.

Lemma above_all k x l1 : key_lt (key_of_value x) k \/ k = key_of_value x -> Forall (fun y => value_lt y x) l1 ->
  Forall (fun y => key_compare k (key_of_value y) = Gt) l1.
Proof.
  intros H. apply List.Forall_impl. intros y Hy. rewrite (key_opp (key_of_value y) k).
  assert (key_compare (key_of_value y) k = Lt) as ->; [|done].
  destruct H as [H| ->]; [by eapply key_trans|done].
Qed.

Lemma list_insert_skip v l1 l2 : Forall (fun y => key_compare (key_of_value v) (key_of_value y) = Gt) l1 ->
  list_insert v (l1 ++ l2) = l1 ++ list_insert v l2.
Proof. induction 1 as [|y l1 H _ IH]; cbn; [done|]. by rewrite H, IH. Qed.

Lemma list_replace_skip v l1 l2 : Forall (fun y => key_compare (key_of_value v) (key_of_value y) = Gt) l1 ->
  list_replace v (l1 ++ l2) = l1 ++ list_replace v l2.
Proof. induction 1 as [|y l1 H _ IH]; cbn; [done|]. by rewrite H, IH. Qed.

Lemma list_remove_skip k l1 l2 : Forall (fun y => key_compare k (key_of_value y) = Gt) l1 ->
  list_remove k (l1 ++ l2) = l1 ++ list_remove k l2.
Proof. induction 1 as [|y l1 H _ IH]; cbn; [done|]. by rewrite H, IH. Qed.

Lemma list_find_skip k l1 l2 : Forall (fun y => key_compare k (key_of_value y) = Gt) l1 ->
  list_find k (l1 ++ l2) = list_find k l2.
Proof. induction 1 as [|y l1 H _ IH]; cbn; [done|]. unfold key_eqb. by rewrite H. Qed.

Lemma list_find_lt k x l1 l2 : key_compare k (key_of_value x) = Lt -> Forall (value_lt x) l2 ->
  list_find k (l1 ++ x :: l2) = list_find k l1.
Proof.
  intros H Hf. induction l1 as [|y l1 IH]; cbn; unfold key_eqb in *.
  - rewrite H. induction Hf as [|y l2 Hy _ IH]; cbn; [done|]. unfold key_eqb.
    assert (key_compare k (key_of_value y) = Lt) as -> by (by eapply key_trans). done.
  - case_match; by rewrite ?IH.
Qed.

End Elements.

(** ** Balance *)

Section Balance.
Context {K V : Type} {O : OrderedKey K} {KV : KeyOfValue K V}.

(** Heights are right, and those of siblings differ by at most 2. *)
Fixpoint avl (t : node V) : Prop :=
  match t with
  | terminator => True
  | Node l _ r h =>
      avl l /\ avl r /\ h = (N.max (height l) (height r) + 1)%N /\
      (height l <= height r + 2)%N /\ (height r <= height l + 2)%N
  end.

(** One insertion or removal away from balance, [balance] restores it; the height
    is that of a new node or one less, and that of a new node when nothing had to
    be done. *)
Lemma balance_avl (l : node V) v r : avl l -> avl r ->
  (height l <= height r + 3)%N -> (height r <= height l + 3)%N ->
  avl (balance l v r) /\
  (N.max (height l) (height r) <= height (balance l v r) <= N.max (height l) (height r) + 1)%N /\
  ((height l <= height r + 2)%N -> (height r <= height l + 2)%N ->
     height (balance l v r) = (N.max (height l) (height r) + 1)%N).
Proof.
  intros Hl Hr H1 H2. unfold balance.
  destruct (N.ltb_spec (height r + 2) (height l)).
  - destruct l as [|ll lv lr lh]; cbn in *; [lia|]. destruct Hl as (Hll & Hlr & -> & ? & ?).
    destruct (N.leb_spec (height lr) (height ll)); [cbn; split_and!; auto; lia|].
    destruct lr as [|lrl lrv lrr lrh]; cbn in *; [lia|]. destruct Hlr as (? & ? & -> & ? & ?).
    split_and!; auto; lia.
  - destruct (N.ltb_spec (height l + 2) (height r)); [|cbn; split_and!; auto; lia].
    destruct r as [|rl rv rr rh]; cbn in *; [lia|]. destruct Hr as (Hrl & Hrr & -> & ? & ?).
    destruct (N.leb_spec (height rl) (height rr)); [cbn; split_and!; auto; lia|].
    destruct rl as [|rll rlv rlr rlh]; cbn in *; [lia|]. destruct Hrl as (? & ? & -> & ? & ?).
    split_and!; auto; lia.
Qed.

(** Both subtrees may change by one level when a value is added ... *)
Definition grown (t t' : node V) : Prop := avl t' /\ (height t <= height t' <= height t + 1)%N.
(** ... or removed. *)
Definition shrunk (t t' : node V) : Prop := avl t' /\ (height t' <= height t <= height t' + 1)%N.

Lemma balance_grown_l l v r h l' : avl (Node l v r h) -> grown l l' -> grown (Node l v r h) (balance l' v r).
Proof.
  intros (Hl & Hr & -> & ? & ?) [Hl' ?]. unfold grown. cbn.
  destruct (balance_avl l' v r Hl' Hr) as (? & ? & Hb); [lia..|]. split; [done|].
  destruct (N.leb_spec (height l') (height r + 2)); [rewrite Hb by lia; lia|lia].
Qed.

Lemma balance_grown_r l v r h r' : avl (Node l v r h) -> grown r r' -> grown (Node l v r h) (balance l v r').
Proof.
  intros (Hl & Hr & -> & ? & ?) [Hr' ?]. unfold grown. cbn.
  destruct (balance_avl l v r' Hl Hr') as (? & ? & Hb); [lia..|]. split; [done|].
  destruct (N.leb_spec (height r') (height l + 2)); [rewrite Hb by lia; lia|lia].
Qed.

Lemma balance_shrunk_l l v r h l' : avl (Node l v r h) -> shrunk l l' -> shrunk (Node l v r h) (balance l' v r).
Proof.
  intros (Hl & Hr & -> & ? & ?) [Hl' ?]. unfold shrunk. cbn.
  destruct (balance_avl l' v r Hl' Hr) as (? & ? & Hb); [lia..|]. split; [done|].
  destruct (N.leb_spec (height r) (height l' + 2)); [rewrite Hb by lia; lia|lia].
Qed.

Lemma balance_shrunk_r l v r h r' x : avl (Node l x r h) -> shrunk r r' -> shrunk (Node l x r h) (balance l v r').
Proof.
  intros (Hl & Hr & -> & ? & ?) [Hr' ?]. unfold shrunk. cbn.
  destruct (balance_avl l v r' Hl Hr') as (? & ? & Hb); [lia..|]. split; [done|].
  destruct (N.leb_spec (height l) (height r' + 2)); [rewrite Hb by lia; lia|lia].
Qed.

Lemma insert_grown v (t : node V) : avl t -> grown t (insert v t).
Proof.
  induction t as [|l IHl x r IHr h]; intros Ht; [unfold grown; cbn; lia|]. cbn [insert].
  pose proof Ht as (Hl & Hr & _). do 2 (case_match; [auto using balance_grown_l, balance_grown_r|]).
  split; [done|lia].
Qed.

Lemma replace_grown v (t : node V) : avl t -> grown t (replace v t).
Proof.
  induction t as [|l IHl x r IHr h]; intros Ht; [unfold grown; cbn; lia|]. cbn [replace].
  pose proof Ht as (Hl & Hr & -> & ? & ?). do 2 (case_match; [auto using balance_grown_l, balance_grown_r|]).
  unfold grown. cbn. split_and!; auto; lia.
Qed.

Lemma popMin_node (l : node V) v r h : l <> terminator ->
  popMin (Node l v r h) = ('(out, l) ← popMin l; Done (out, balance l v r)).
Proof. by destruct l. Qed.

Lemma popMax_node (l : node V) v r h : r <> terminator ->
  popMax (Node l v r h) = ('(out, r) ← popMax r; Done (out, balance l v r)).
Proof. by destruct r. Qed.

(** The pops return on every tree but the empty one. *)
Lemma popMin_ok (t : node V) : t <> terminator -> exists v t', popMin t = Done (v, t') /\
  elems t = v :: elems t' /\ (avl t -> shrunk t t').
Proof.
  induction t as [|l IHl v r IHr h]; [done|intros _]. destruct l as [|ll lv lr lh].
  - exists v, r. split_and!; [done..|]. intros (_ & Hr & -> & ? & ?). split; [done|cbn in *; lia].
  - destruct (IHl ltac:(done)) as (w & l' & E & He & Hs). exists w, (balance l' v r).
    rewrite popMin_node, E by done. split_and!; [done| |].
    + cbn [elems] in *. by rewrite He, elems_balance.
    + intros Ht. pose proof Ht as (Hl & _). apply balance_shrunk_l; auto.
Qed.

Lemma popMax_ok (t : node V) : t <> terminator -> exists v t', popMax t = Done (v, t') /\
  elems t = elems t' ++ [v] /\ (avl t -> shrunk t t').
Proof.
  induction t as [|l IHl v r IHr h]; [done|intros _]. destruct r as [|rl rv rr rh].
  - exists v, l. split_and!; [done..|]. intros (Hl & _ & -> & ? & ?). split; [done|cbn in *; lia].
  - destruct (IHr ltac:(done)) as (w & r' & E & He & Hs). exists w, (balance l v r').
    rewrite popMax_node, E by done. split_and!; [done| |].
    + cbn [elems] in *. by rewrite He, elems_balance, <- app_assoc.
    + intros Ht. pose proof Ht as (_ & Hr & _). apply balance_shrunk_r; auto.
Qed.

(** A balanced tree is not deep: three levels double the number of values. *)
Lemma avl_size_bound (t : node V) : avl t -> (2 ^ (height t / 3) <= size t + 1)%N.
Proof.
  enough (forall n t, (height t <= n)%N -> avl t -> (2 ^ (height t / 3) <= size t + 1)%N) as H by (by apply (H (height t))).
  clear t. intros n. induction n as [n IH] using (well_founded_induction N.lt_wf_0). intros t Hn Ht.
  destruct t as [|l v r h]; cbn in *; [by vm_compute|]. destruct Ht as (Hl & Hr & -> & ? & ?).
  destruct (N.ltb_spec (N.max (height l) (height r) + 1) 3).
  - rewrite N.div_small by done. cbn. lia.
  - assert ((N.max (height l) (height r) + 1) / 3 = (N.max (height l) (height r) - 2) / 3 + 1)%N as ->.
    { replace (N.max (height l) (height r) + 1)%N with (N.max (height l) (height r) - 2 + 1 * 3)%N by lia.
      by rewrite N.div_add by lia. }
    assert (forall s, (N.max (height l) (height r) - 2 <= height s)%N -> (height s < n)%N -> avl s ->
      (2 ^ ((N.max (height l) (height r) - 2) / 3) <= size s + 1)%N) as Hs.
    { intros s Hlo Hhi Ha. etrans; [|apply (IH (height s)); [done|lia|done]].
      apply N.pow_le_mono_r; [lia|]. apply N.Div0.div_le_mono. lia. }
    rewrite N.pow_add_r. pose proof (Hs l ltac:(lia) ltac:(lia) Hl). pose proof (Hs r ltac:(lia) ltac:(lia) Hr). lia.
Qed.

End Balance.

(** ** The operations on the values *)

Section Operations.
Context {K V : Type} {O : OrderedKey K} {KV : KeyOfValue K V} {L : OrderedKeyLaws K}.

(** A tree the operations keep: balanced and ordered. *)
Record good (t : node V) : Prop := MkGood { good_avl : avl t; good_ordered : ordered (elems t) }.

Lemma good_terminator : good terminator.
Proof. split; [done|constructor]. Qed.

Lemma good_inv l v r h : good (Node l v r h) -> good l /\ good r /\
  Forall (fun y => value_lt y v) (elems l) /\ Forall (value_lt v) (elems r).
Proof.
  intros [(Hl & Hr & _) Ho]. cbn in Ho. apply ordered_app in Ho as (? & ? & ? & ?). by split_and!.
Qed.

Lemma elems_insert v t : ordered (elems t) -> elems (insert v t) = list_insert v (elems t).
Proof.
  induction t as [|l IHl x r IHr h]; cbn; [done|]. intros (Hl & Hr & Hlt & Hgt)%ordered_app.
  destruct (key_cases (key_of_value v) (key_of_value x)) as [[E ->]|[(E & -> & Hk & ->)|(Ek & E & -> & ->)]].
  - by rewrite elems_balance, IHl, list_insert_lt by done.
  - rewrite elems_balance, IHr by done. rewrite list_insert_skip by (by eapply above_all; [|exact Hlt]; auto). cbn. by rewrite E.
  - rewrite list_insert_skip by (by eapply above_all; [|exact Hlt]; auto). cbn. by rewrite E.
Qed.

Lemma elems_replace v t : ordered (elems t) -> elems (replace v t) = list_replace v (elems t).
Proof.
  induction t as [|l IHl x r IHr h]; cbn; [done|]. intros (Hl & Hr & Hlt & Hgt)%ordered_app.
  destruct (key_cases (key_of_value v) (key_of_value x)) as [[E ->]|[(E & -> & Hk & ->)|(Ek & E & -> & ->)]].
  - by rewrite elems_balance, IHl, list_replace_lt by done.
  - rewrite elems_balance, IHr by done. rewrite list_replace_skip by (by eapply above_all; [|exact Hlt]; auto). cbn. by rewrite E.
  - rewrite list_replace_skip by (by eapply above_all; [|exact Hlt]; auto). cbn. by rewrite E.
Qed.

Lemma remove_ok k t : ordered (elems t) -> exists t', remove k t = Done t' /\
  elems t' = list_remove k (elems t) /\ (avl t -> shrunk t t').
Proof.
  induction t as [|l IHl x r IHr h]; cbn [remove elems].
  { exists terminator. split_and!; [done..|]. split; [done|lia]. }
  intros (Hl & Hr & Hlt & Hgt)%ordered_app.
  destruct (key_cases k (key_of_value x)) as [[E ->]|[(E & -> & Hk & ->)|(-> & E & E1 & _)]]; [..|rewrite !E1].
  - destruct (IHl Hl) as (l' & -> & He & Hs). exists (balance l' x r). split_and!; [done| |].
    + by rewrite elems_balance, He, list_remove_lt.
    + intros Ht. pose proof Ht as (? & _). apply balance_shrunk_l; auto.
  - destruct (IHr Hr) as (r' & -> & He & Hs). exists (balance l x r'). split_and!; [done| |].
    + rewrite elems_balance, He, list_remove_skip by (by eapply above_all; [|exact Hlt]; auto). cbn. by rewrite E.
    + intros Ht. pose proof Ht as (_ & ? & _). apply balance_shrunk_r; auto.
  - assert (list_remove (key_of_value x) (elems l ++ x :: elems r) = elems l ++ elems r) as ->.
    { rewrite list_remove_skip by (by eapply above_all; [|exact Hlt]; auto). cbn. by rewrite E. }
    destruct l as [|ll lv lr lh] eqn:El; [|rewrite <- El in *; replace (isTerminator l) with false by (by rewrite El)].
    { exists r. split_and!; [done..|]. intros (_ & ? & -> & ? & ?). split; [done|cbn in *; lia]. }
    destruct r as [|rl rv rr rh] eqn:Er; [|rewrite <- Er in *; replace (isTerminator r) with false by (by rewrite Er)].
    { exists l. rewrite app_nil_r. split_and!; [done..|]. intros (? & _ & -> & ? & ?). split; [done|cbn in *; lia]. }
    destruct (popMin_ok r) as (m & r' & -> & He & Hs); [by rewrite Er|].
    exists (balance l m r'). split_and!; [done|by rewrite elems_balance, He|].
    intros Ht. pose proof Ht as (_ & ? & _). apply balance_shrunk_r; auto.
Qed.

Lemma lookup_elems k t : ordered (elems t) -> lookup k t = list_find k (elems t).
Proof.
  induction t as [|l IHl x r IHr h]; cbn; [done|]. intros (Hl & Hr & Hlt & Hgt)%ordered_app.
  destruct (key_cases k (key_of_value x)) as [[E ->]|[(E & -> & Hk & ->)|(-> & E & E1 & _)]]; [..|rewrite !E1].
  - rewrite list_find_lt by done. auto.
  - rewrite list_find_skip by (by eapply above_all; [|exact Hlt]; auto). cbn. unfold key_eqb. rewrite E. auto.
  - rewrite list_find_skip by (by eapply above_all; [|exact Hlt]; auto). cbn. unfold key_eqb. by rewrite E.
Qed.

Lemma count_lookup k t : count k t = match lookup k t with Some _ => 1%N | None => 0%N end.
Proof. induction t as [|l IHl x r IHr h]; cbn; [done|]. by repeat case_match. Qed.


(** Predicates on the values, and the order, survive the operations. *)
Lemma list_insert_Forall (P : V -> Prop) v l : P v -> Forall P l -> Forall P (list_insert v l).
Proof. intros Hv. induction 1 as [|x l Hx Hl IH]; cbn; [by constructor|]. by case_match; repeat constructor. Qed.

Lemma list_replace_Forall (P : V -> Prop) v l : P v -> Forall P l -> Forall P (list_replace v l).
Proof. intros Hv. induction 1 as [|x l Hx Hl IH]; cbn; [by constructor|]. by case_match; repeat constructor. Qed.

Lemma list_remove_Forall (P : V -> Prop) k l : Forall P l -> Forall P (list_remove k l).
Proof. induction 1 as [|x l Hx Hl IH]; cbn; [by constructor|]. by case_match; repeat constructor. Qed.

Lemma ordered_cons x l : ordered (x :: l) <-> ordered l /\ Forall (value_lt x) l.
Proof. split; [by apply StronglySorted_inv|]. intros []. by constructor. Qed.

Lemma value_lt_Forall v x l : key_compare (key_of_value v) (key_of_value x) = Lt -> Forall (value_lt x) l ->
  Forall (value_lt v) (x :: l).
Proof.
  intros H Hl. constructor; [done|]. eapply List.Forall_impl; [|exact Hl]. intros y Hy. by eapply key_trans.
Qed.

Lemma list_insert_ordered v l : ordered l -> ordered (list_insert v l).
Proof.
  induction l as [|x l IH]; cbn; [repeat constructor|]. intros [Hl Hf]%ordered_cons.
  destruct (key_compare _ _) eqn:E; apply ordered_cons.
  - done.
  - split; [by apply ordered_cons|by apply value_lt_Forall].
  - split; [auto|]. apply list_insert_Forall; [by apply key_gt|done].
Qed.

Lemma list_replace_ordered v l : ordered l -> ordered (list_replace v l).
Proof.
  induction l as [|x l IH]; cbn; [repeat constructor|]. intros [Hl Hf]%ordered_cons.
  destruct (key_compare _ _) eqn:E; apply ordered_cons.
  - split; [done|]. unfold value_lt in *. apply key_eq in E as ->. done.
  - split; [by apply ordered_cons|by apply value_lt_Forall].
  - split; [auto|]. apply list_replace_Forall; [by apply key_gt|done].
Qed.

Lemma list_remove_ordered k l : ordered l -> ordered (list_remove k l).
Proof.
  induction l as [|x l IH]; cbn; [done|]. intros [Hl Hf]%ordered_cons.
  case_match; [done|by apply ordered_cons|]. apply ordered_cons. split; [auto|by apply list_remove_Forall].
Qed.

Lemma insert_good v t : good t -> good (insert v t).
Proof.
  intros [Ha Ho]. split; [by apply insert_grown|]. rewrite elems_insert by done. by apply list_insert_ordered.
Qed.

Lemma replace_good v t : good t -> good (replace v t).
Proof.
  intros [Ha Ho]. split; [by apply replace_grown|]. rewrite elems_replace by done. by apply list_replace_ordered.
Qed.

Lemma remove_good k t : good t -> exists t', remove k t = Done t' /\ good t' /\ elems t' = list_remove k (elems t).
Proof.
  intros [Ha Ho]. destruct (remove_ok k t Ho) as (t' & E & He & Hs). exists t'. split_and!; [done| |done].
  split; [by apply Hs|]. rewrite He. by apply list_remove_ordered.
Qed.

Lemma popMin_good t : good t -> t <> terminator -> exists v t', popMin t = Done (v, t') /\ good t' /\ elems t = v :: elems t'.
Proof.
  intros [Ha Ho] Ht. destruct (popMin_ok t Ht) as (v & t' & E & He & Hs). exists v, t'. split_and!; [done| |done].
  rewrite He in Ho. apply ordered_cons in Ho as [Ho _]. split; [by apply Hs|done].
Qed.

Lemma popMax_good t : good t -> t <> terminator -> exists v t', popMax t = Done (v, t') /\ good t' /\ elems t = elems t' ++ [v].
Proof.
  intros [Ha Ho] Ht. destruct (popMax_ok t Ht) as (v & t' & E & He & Hs). exists v, t'. split_and!; [done| |done].
  rewrite He in Ho. apply ordered_app in Ho as [Ho _]. split; [by apply Hs|done].
Qed.

(** What a lookup finds afterwards. *)
Lemma list_find_replace k v l : list_find k (list_replace v l) =
  if key_eqb k (key_of_value v) then Some v else list_find k l.
Proof.
  induction l as [|x l IH]; cbn; [done|].
  destruct (key_compare (key_of_value v) (key_of_value x)) eqn:E; cbn; [|done|].
  - apply key_eq in E. rewrite E. by destruct (key_eqb k (key_of_value x)).
  - rewrite IH. destruct (key_eqb k (key_of_value x)) eqn:E1; [|done]. apply key_eqb_eq in E1 as ->.
    destruct (key_eqb _ _) eqn:E1; [|done]. apply key_eqb_eq in E1. rewrite <- E1 in E.
    by rewrite (proj2 (key_eq _ _) eq_refl) in E.
Qed.

Lemma list_find_absent k l : Forall (fun y => key_compare k (key_of_value y) <> Eq) l -> list_find k l = None.
Proof. induction 1 as [|x l Hx _ IH]; cbn; [done|]. unfold key_eqb. by destruct (key_compare _ _). Qed.

Lemma list_find_below k x l : key_compare k (key_of_value x) = Lt -> Forall (value_lt x) l -> list_find k (x :: l) = None.
Proof.
  intros E Hl. apply list_find_absent. constructor; [by rewrite E|]. eapply List.Forall_impl; [|exact Hl].
  intros y Hy. assert (key_compare k (key_of_value y) = Lt) as -> by (by eapply key_trans). done.
Qed.

Lemma list_find_insert k v l : ordered l -> list_find k (list_insert v l) =
  if key_eqb k (key_of_value v) then Some (default v (list_find k l)) else list_find k l.
Proof.
  induction l as [|x l IH]; cbn; [by case_match|]. intros [Hl Hf]%ordered_cons.
  destruct (key_compare (key_of_value v) (key_of_value x)) eqn:E; cbn [list_find].
  - apply key_eq in E. rewrite E. by destruct (key_eqb k (key_of_value x)).
  - destruct (key_eqb k (key_of_value v)) eqn:Ev; [|done]. apply key_eqb_eq in Ev as ->.
    pose proof (list_find_below _ _ _ E Hf) as Hn. cbn [list_find] in Hn. by rewrite Hn.
  - rewrite IH by done. destruct (key_eqb k (key_of_value x)) eqn:E1; [|done]. by case_match.
Qed.

Lemma list_find_remove k k' l : ordered l -> list_find k (list_remove k' l) =
  if key_eqb k k' then None else list_find k l.
Proof.
  induction l as [|x l IH]; cbn; [by case_match|]. intros [Hl Hf]%ordered_cons.
  destruct (key_compare k' (key_of_value x)) eqn:E; cbn [list_find].
  - apply key_eq in E as ->. destruct (key_eqb k (key_of_value x)) eqn:Ek; [|done]. apply key_eqb_eq in Ek as ->.
    apply list_find_absent. eapply List.Forall_impl; [|exact Hf]. intros y Hy. unfold value_lt, key_lt in Hy. by rewrite Hy.
  - destruct (key_eqb k k') eqn:Ek; [|done]. apply key_eqb_eq in Ek as ->. by apply list_find_below.
  - rewrite IH by done. destruct (key_eqb k (key_of_value x)) eqn:E1; [|done]. apply key_eqb_eq in E1 as ->.
    unfold key_eqb. rewrite key_opp, E. done.
Qed.

(** Ordered values split at a key. *)
Lemma key_ltb_lt a b : key_ltb a b = true <-> key_lt a b.
Proof. unfold key_ltb, key_lt. by destruct (key_compare a b). Qed.

Lemma below_split k a b : Forall (fun x => key_lt (key_of_value x) k) a ->
  Forall (fun x => ~ key_lt (key_of_value x) k) b -> below k (a ++ b) = a.
Proof.
  intros Ha Hb. unfold below. rewrite List.filter_app.
  assert (List.filter (fun x => key_ltb (key_of_value x) k) b = []) as ->.
  { induction Hb as [|x b Hx _ IH]; cbn; [done|]. rewrite <- key_ltb_lt in Hx. by destruct (key_ltb _ _). }
  rewrite app_nil_r. induction Ha as [|x a Hx _ IH]; cbn; [done|]. apply key_ltb_lt in Hx as ->. by rewrite IH.
Qed.

Lemma upto_split k a b : Forall (fun x => ~ key_lt k (key_of_value x)) a ->
  Forall (fun x => key_lt k (key_of_value x)) b -> upto k (a ++ b) = a.
Proof.
  intros Ha Hb. unfold upto. rewrite List.filter_app.
  assert (List.filter (fun x => negb (key_ltb k (key_of_value x))) b = []) as ->.
  { induction Hb as [|x b Hx _ IH]; cbn; [done|]. apply key_ltb_lt in Hx as ->. done. }
  rewrite app_nil_r. induction Ha as [|x a Hx _ IH]; cbn; [done|]. rewrite <- key_ltb_lt in Hx.
  destruct (key_ltb _ _); [done|]. cbn. by rewrite IH.
Qed.

Lemma upto_app k a b : upto k (a ++ b) = upto k a ++ upto k b.
Proof. apply List.filter_app. Qed.

Lemma key_lt_asym a b : key_lt a b -> ~ key_lt b a.
Proof. unfold key_lt. intros H. rewrite key_opp, H. done. Qed.

Lemma all_above k x l : ~ key_lt (key_of_value x) k -> Forall (value_lt x) l -> Forall (fun y => key_lt k (key_of_value y)) l.
Proof.
  intros H. apply List.Forall_impl. intros y Hy. destruct (key_cases k (key_of_value x)) as [[E _]|[(_ & _ & E & _)|(-> & _)]];
    [by eapply key_trans|done|done].
Qed.

Lemma all_smaller k x l : ~ key_lt k (key_of_value x) -> Forall (fun y => value_lt y x) l ->
  Forall (fun y => key_lt (key_of_value y) k) l.
Proof.
  intros H. apply List.Forall_impl. intros y Hy. destruct (key_cases k (key_of_value x)) as [[E _]|[(_ & _ & E & _)|(-> & _)]];
    [done|by eapply key_trans|done].
Qed.

Lemma lookup_previous_loop_elems k t result : ordered (elems t) ->
  lookup_previous_loop k t result = match last (upto k (elems t)) with Some v => Some v | None => result end.
Proof.
  revert result. induction t as [|l IHl x r IHr h]; intros result; cbn [lookup_previous_loop elems]; [done|].
  intros (Hl & Hr & Hlt & Hgt)%ordered_app. rewrite upto_app.
  destruct (key_cases k (key_of_value x)) as [[E ->]|[(E & -> & Hk & ->)|(-> & E & E1 & _)]]; [..|rewrite !E1].
  - assert (upto k (x :: elems r) = []) as ->; [|by rewrite app_nil_r, IHl].
    apply (upto_split k []); [done|]. constructor; [done|]. eapply all_above; [|exact Hgt]. by apply key_lt_asym.
  - rewrite IHr by done. assert (upto k (x :: elems r) = x :: upto k (elems r)) as ->.
    { unfold upto. cbn. unfold key_ltb. by rewrite E. }
    rewrite last_app_cons, last_cons. by destruct (last (upto k (elems r))).
  - assert (upto (key_of_value x) (x :: elems r) = [x]) as ->; [|by rewrite last_snoc].
    apply (upto_split _ [x]); [|by eapply all_above; [|exact Hgt]; apply key_lt_irrefl].
    apply Forall_singleton, key_lt_irrefl.
Qed.

Lemma lookup_previous_elems k t : ordered (elems t) -> lookup_previous k t = last (upto k (elems t)).
Proof. intros H. unfold lookup_previous. rewrite lookup_previous_loop_elems by done. by destruct (last _). Qed.

Lemma min_elems (t : node V) : min t = match elems t with [] => AssertFail | v :: _ => Done v end.
Proof.
  induction t as [|l IHl x r IHr h]; cbn; [done|]. destruct l as [|ll lv lr lh] eqn:El; [done|]. rewrite <- El in *.
  rewrite IHl. by destruct (elems l) eqn:Ee; [rewrite El in Ee; cbn in Ee; destruct (elems ll)|].
Qed.

Lemma max_elems (t : node V) : max t = match last (elems t) with None => AssertFail | Some v => Done v end.
Proof.
  induction t as [|l IHl x r IHr h]; cbn; [done|]. rewrite last_app_cons, last_cons.
  destruct r as [|rl rv rr rh] eqn:Er; [done|]. rewrite <- Er in *. rewrite IHr.
  destruct (last (elems r)) eqn:Ee; [done|]. apply last_None in Ee. rewrite Er in Ee. cbn in Ee. by destruct (elems rl).
Qed.

End Operations.

(** ** Iterators *)

Section Iterators.
Context {K V : Type} {O : OrderedKey K} {KV : KeyOfValue K V} {L : OrderedKeyLaws K}.

(** The value of a node, if it has one. *)
Definition vals (t : node V) : list V := match t with terminator => [] | Node _ v _ _ => [v] end.

(** The nodes from the root down to the current one, which comes first. *)
Fixpoint is_path (rt : node V) (ns : list (node V)) : Prop :=
  match ns with
  | [] => True
  | n :: ns' =>
      n <> terminator /\ is_path rt ns' /\
      match ns' with [] => n = rt | p :: _ => n = left p \/ n = right p end
  end.

(** The values before and after the subtree [n] of the last node of [ns]. *)
Fixpoint pre_up (n : node V) (ns : list (node V)) : list V :=
  match ns with
  | [] => []
  | p :: ns' => if same_node n (left p) then pre_up p ns' else pre_up p ns' ++ elems (left p) ++ vals p
  end.

Fixpoint post_up (n : node V) (ns : list (node V)) : list V :=
  match ns with
  | [] => []
  | p :: ns' => if same_node n (left p) then vals p ++ elems (right p) ++ post_up p ns' else post_up p ns'
  end.

(** The values before the current one, and from it on. *)
Definition passed (rt : node V) (ns : list (node V)) : list V :=
  match ns with [] => elems rt | n :: ns' => pre_up n ns' ++ elems (left n) end.

Definition rest (ns : list (node V)) : list V :=
  match ns with [] => [] | n :: ns' => vals n ++ elems (right n) ++ post_up n ns' end.

Lemma elems_node (t : node V) : t <> terminator -> elems t = elems (left t) ++ vals t ++ elems (right t).
Proof. by destruct t. Qed.

Lemma good_left (t : node V) : good t -> good (left t).
Proof. destruct t; [done|]. by intros (? & _)%good_inv. Qed.

Lemma good_right (t : node V) : good t -> good (right t).
Proof. destruct t; [done|]. by intros (_ & ? & _)%good_inv. Qed.

Lemma vals_elems (n : node V) v : v ∈ vals n -> v ∈ elems n.
Proof. destruct n; cbn; [done|]. set_solver. Qed.

Lemma key_eqb_refl (a : K) : key_eqb a a = true.
Proof. by apply key_eqb_eq. Qed.

Lemma same_node_refl (n : node V) : same_node n n = true.
Proof. destruct n; [done|]. cbn. apply key_eqb_refl. Qed.

(** Siblings are different nodes. *)
Lemma siblings_differ (p : node V) : good p -> same_node (left p) (right p) = true -> left p = terminator.
Proof.
  destruct p as [|l v r h]; [done|]. cbn. intros (_ & _ & Hl & Hr)%good_inv.
  destruct l as [|ll lv lr lh]; [done|]. destruct r as [|rl rv rr rh]; [done|]. cbn. rewrite key_eqb_eq. intros E.
  rewrite Forall_forall in Hl, Hr. pose proof (Hl lv (vals_elems (Node ll lv lr lh) lv ltac:(cbn; set_solver))) as H1.
  pose proof (Hr rv (vals_elems (Node rl rv rr rh) rv ltac:(cbn; set_solver))) as H2.
  unfold value_lt in *. rewrite E in H1. by apply key_lt_asym in H2.
Qed.

Lemma same_node_sym (a b : node V) : same_node a b = same_node b a.
Proof.
  destruct a, b; cbn; try done. unfold key_eqb. rewrite key_opp. by destruct (key_compare _ _).
Qed.

Lemma right_not_left (p : node V) : good p -> right p <> terminator -> same_node (right p) (left p) = false.
Proof.
  intros Hp Hr. destruct (same_node (right p) (left p)) eqn:E; [|done]. rewrite same_node_sym in E.
  pose proof (siblings_differ _ Hp E) as El. rewrite El in E. by destruct (right p).
Qed.

Lemma same_left (n p : node V) : good p -> n <> terminator -> n = left p \/ n = right p ->
  (same_node n (left p) = true /\ n = left p /\ same_node n (right p) = false) \/
  (same_node n (left p) = false /\ n = right p /\ same_node n (right p) = true).
Proof.
  intros Hp Hn [-> | ->].
  - left. rewrite same_node_refl. split_and!; [done..|]. destruct (same_node (left p) (right p)) eqn:E; [|done].
    by apply siblings_differ in E.
  - right. rewrite same_node_refl. split_and!; [|done..]. by apply right_not_left.
Qed.

Context (rt : node V) (Hrt : good rt).

Lemma path_good ns n : is_path rt (n :: ns) -> good n.
Proof.
  revert n. induction ns as [|p ns IH]; intros n; [by intros (_ & _ & ->)|].
  intros (_ & Hp & [-> | ->]); [apply good_left|apply good_right]; auto.
Qed.

(** A path splits the values of the root. *)
Lemma path_split ns n : is_path rt (n :: ns) -> elems rt = pre_up n ns ++ elems n ++ post_up n ns.
Proof.
  revert n. induction ns as [|p ns IH]; intros n; cbn [pre_up post_up]; [intros (_ & _ & ->); by rewrite app_nil_r|].
  intros (Hn & Hp & Hc). rewrite (IH _ Hp). rewrite (elems_node p) by (by destruct Hp).
  destruct (same_left n p (path_good _ _ Hp) Hn Hc) as [(-> & -> & _)|(-> & -> & _)]; by rewrite <- !app_assoc.
Qed.

Lemma passed_rest ns : is_path rt ns -> passed rt ns ++ rest ns = elems rt.
Proof.
  destruct ns as [|n ns]; intros Hp; cbn [passed rest]; [by rewrite app_nil_r|].
  rewrite (path_split ns n Hp), (elems_node n) by (by destruct Hp). by rewrite <- !app_assoc.
Qed.

(** A path is no longer than the root is high. *)
Lemma path_height ns n : is_path rt (n :: ns) -> (N.of_nat (length ns) + height n <= height rt)%N.
Proof.
  revert n. induction ns as [|p ns IH]; intros n; [intros (_ & _ & ->); cbn; lia|]. intros (Hn & Hp & Hc).
  pose proof (IH _ Hp). pose proof (good_avl _ (path_good _ _ Hp)) as Ha. destruct p as [|l v r h]; [by destruct Hp|].
  cbn [left right height avl length] in *. destruct Ha as (_ & _ & -> & ? & ?). destruct Hc as [-> | ->]; lia.
Qed.

Lemma node_height (n : node V) : good n -> n <> terminator -> (0 < height n)%N.
Proof. intros [Ha _]. destruct n; [done|]. cbn in *. lia. Qed.

(** Where the next node goes. *)
Definition child_of (n : node V) (ns : list (node V)) : Prop :=
  match ns with [] => n = rt | p :: _ => n = left p \/ n = right p end.

Lemma child_path n ns : is_path rt ns -> child_of n ns -> n <> terminator -> is_path rt (n :: ns).
Proof. by intros. Qed.

Lemma push_back_ok n ns : is_path rt (n :: ns) ->
  push_back (MkStack (height rt) ns) n = Done (MkStack (height rt) (n :: ns)).
Proof.
  intros Hp. unfold push_back. cbn [elts stack_max].
  pose proof (path_height _ _ Hp). pose proof (node_height n (path_good _ _ Hp) ltac:(by destruct Hp)).
  destruct (N.ltb_spec (N.of_nat (length ns)) (height rt)); [done|lia].
Qed.

(** The loops reach the first, or the last, value of a subtree. *)
Lemma push_left_ok t ns : is_path rt ns -> child_of t ns -> exists ns',
  push_left t (MkStack (height rt) ns) = Done (MkStack (height rt) ns') /\ is_path rt ns' /\
  rest ns' = match t with terminator => rest ns | _ => elems t ++ post_up t ns end.
Proof.
  revert ns. induction t as [|l IHl v r _ h]; intros ns Hp Hc; [by exists ns|].
  assert (is_path rt (Node l v r h :: ns)) as Hp' by by split_and!.
  cbn [push_left]. rewrite push_back_ok by done. cbn [mbind outcome_bind].
  destruct (IHl (Node l v r h :: ns) Hp' (or_introl eq_refl)) as (ns' & -> & Hns & Hr). exists ns'. split_and!; [done..|].
  rewrite Hr. destruct l as [|ll lv lr lh] eqn:El; [done|]. rewrite <- El in *. cbn [post_up left right vals elems].
  rewrite same_node_refl. by rewrite <- app_assoc.
Qed.

Lemma push_right_ok t ns : is_path rt ns -> child_of t ns -> exists ns',
  push_right t (MkStack (height rt) ns) = Done (MkStack (height rt) ns') /\ is_path rt ns' /\
  match t with
  | terminator => ns' = ns
  | _ => exists n q, ns' = n :: q /\ passed rt ns' ++ vals n = pre_up t ns ++ elems t
  end.
Proof.
  revert ns. induction t as [|l _ v r IHr h]; intros ns Hp Hc; [by exists ns|].
  assert (is_path rt (Node l v r h :: ns)) as Hp' by by split_and!.
  cbn [push_right]. rewrite push_back_ok by done. cbn [mbind outcome_bind].
  destruct (IHr (Node l v r h :: ns) Hp' (or_intror eq_refl)) as (ns' & -> & Hns & Hr). exists ns'. split_and!; [done..|].
  destruct r as [|rl rv rr rh] eqn:Er.
  - exists (Node l v terminator h), ns. rewrite Hr. split; [done|]. cbn. by rewrite <- app_assoc.
  - rewrite <- Er in *. destruct Hr as (n & q & -> & Hr). exists n, q. split; [done|]. rewrite Hr.
    assert (same_node r l = false) as Hs.
    { apply (right_not_left (Node l v r h)); [by eapply path_good|]. cbn. by rewrite Er. }
    cbn [pre_up left right vals elems]. rewrite Hs. by rewrite <- !app_assoc.
Qed.

(** Popping until a subtree was entered from the left leads to the value after it;
    from the right, to the value before it. *)
Lemma climb_from_left_ok ns n : is_path rt (n :: ns) ->
  is_path rt (climb_from_left n ns) /\ rest (climb_from_left n ns) = post_up n ns.
Proof.
  revert n. induction ns as [|p ns IH]; intros n Hp; [done|]. pose proof Hp as (Hn & Hp' & Hc). cbn [climb_from_left post_up].
  destruct (same_left n p (path_good _ _ Hp') Hn Hc) as [(-> & _ & _)|(-> & _ & _)]; [done|]. by apply IH.
Qed.

Lemma climb_from_right_ok ns n : is_path rt (n :: ns) -> is_path rt (climb_from_right n ns) /\
  match climb_from_right n ns with
  | [] => pre_up n ns = []
  | p :: q => passed rt (p :: q) ++ vals p = pre_up n ns
  end.
Proof.
  revert n. induction ns as [|p ns IH]; intros n Hp; [done|]. pose proof Hp as (Hn & Hp' & Hc). cbn [climb_from_right pre_up].
  destruct (same_left n p (path_good _ _ Hp') Hn Hc) as [(-> & _ & ->)|(-> & _ & ->)].
  - by apply IH.
  - split; [done|]. cbn. by rewrite <- app_assoc.
Qed.

(** The iterator [it] stands at the [i]-th value, or at the end. *)
Definition at_index (it : iterator) (i : nat) : Prop :=
  root it = rt /\ stack_max (stack it) = height rt /\ is_path rt (elts (stack it)) /\
  length (passed rt (elts (stack it))) = i.

Lemma at_index_rest it i : at_index it i -> rest (elts (stack it)) = drop i (elems rt).
Proof. intros (_ & _ & Hp & <-). by rewrite <- (passed_rest _ Hp), drop_app_length. Qed.

Lemma rest_index ns : is_path rt ns -> length (passed rt ns) + length (rest ns) = length (elems rt).
Proof. intros Hp. by rewrite <- (passed_rest _ Hp), length_app. Qed.

Lemma at_index_mk ns i : is_path rt ns -> length (passed rt ns) = i -> at_index (MkIter rt (MkStack (height rt) ns)) i.
Proof. by intros. Qed.

Lemma at_index_inv it i : at_index it i ->
  exists ns, it = MkIter rt (MkStack (height rt) ns) /\ is_path rt ns /\ length (passed rt ns) = i.
Proof. destruct it as [r [m ns]]. intros (? & ? & Hp & ?). cbn in *. subst. by exists ns. Qed.

Lemma end_ok : exists it, end_ rt = Done it /\ at_index it (length (elems rt)).
Proof. eexists. split; [done|]. by apply at_index_mk. Qed.

Lemma begin_ok : exists it, begin rt = Done it /\ at_index it 0.
Proof.
  unfold begin, iterator_new. destruct (push_left_ok rt [] I eq_refl) as (ns & -> & Hp & Hr). eexists. split; [done|].
  apply at_index_mk; [done|]. pose proof (rest_index _ Hp) as Hl. rewrite Hr in Hl. destruct rt; cbn in *; [lia|].
  rewrite app_nil_r in Hl. lia.
Qed.

Lemma deref_iter_ok it i : at_index it i -> deref_iter it =
  match elems rt !! i with Some v => Done v | None => Undefined end.
Proof.
  intros Hi. pose proof (at_index_rest _ _ Hi) as Hr. apply at_index_inv in Hi as (ns & -> & Hp & Hi).
  unfold deref_iter. cbn in *. rewrite <- (Nat.add_0_r i), <- lookup_drop, <- Hr.
  destruct ns as [|[|] ns]; cbn; try done. by destruct Hp.
Qed.

Lemma next_ok it i : at_index it i -> i < length (elems rt) -> exists it', next it = Done it' /\ at_index it' (S i).
Proof.
  intros Hi Hlt. apply at_index_inv in Hi as (ns & -> & Hp & Hi). unfold next. cbn [stack elts].
  destruct ns as [|n ns]; [cbn in Hi; lia|]. pose proof (rest_index _ Hp) as Hl.
  cbn [rest] in Hl.
  assert (length (vals n) = 1) as Hv by (by destruct n; [destruct Hp|]). rewrite length_app, Hv in Hl.
  destruct (right n) as [|l v r h] eqn:Er.
  - cbn [isTerminator]. destruct (climb_from_left_ok ns n Hp) as [Hp' Hr]. eexists. split; [done|].
    apply at_index_mk; [done|]. pose proof (rest_index _ Hp') as Hl'. rewrite Hr in Hl'. cbn [elems app] in Hl. lia.
  - cbn [isTerminator]. destruct (push_left_ok (right n) (n :: ns) Hp (or_intror eq_refl)) as (ns' & E & Hp' & Hr).
    rewrite <- Er, E. eexists. split; [done|]. apply at_index_mk; [done|]. pose proof (rest_index _ Hp') as Hl'.
    rewrite Hr, Er in Hl'. rewrite <- Er in Hl'. cbn [post_up] in Hl'.
    rewrite right_not_left in Hl'; [|by eapply path_good|by rewrite Er]. rewrite !length_app in *. cbn in *. rewrite Er in Hl'. cbn in Hl'. rewrite !length_app in *. cbn in *. lia.
Qed.

Lemma prev_ok it i : at_index it (S i) -> exists it', prev it = Done it' /\ at_index it' i.
Proof.
  intros Hi. apply at_index_inv in Hi as (ns & -> & Hp & Hi). unfold prev. cbn [stack elts root].
  destruct ns as [|n ns].
  - destruct (push_right_ok rt [] I eq_refl) as (ns' & -> & Hp' & Hr). eexists. split; [done|].
    apply at_index_mk; [done|]. cbn in Hi. destruct rt as [|l v r h]; [done|]. destruct Hr as (n & q & -> & Hr).
    apply (f_equal length) in Hr. rewrite !length_app in Hr. destruct n; [by destruct Hp'|]. cbn in *. lia.
  - cbn [passed] in Hi. rewrite length_app in Hi. destruct (left n) as [|l v r h] eqn:El; cbn [isTerminator].
    + destruct (climb_from_right_ok ns n Hp) as [Hp' Hr]. eexists. split; [done|]. apply at_index_mk; [done|].
      cbn in Hi. destruct (climb_from_right n ns) as [|p q] eqn:Ec; [rewrite Hr in Hi; done|].
      apply (f_equal length) in Hr. rewrite length_app in Hr. destruct p; [by destruct Hp'|]. cbn [vals length] in Hr. lia.
    + rewrite <- El in *. destruct (push_right_ok (left n) (n :: ns) Hp (or_introl eq_refl)) as (ns' & -> & Hp' & Hr).
      eexists. split; [done|]. apply at_index_mk; [done|]. rewrite El in Hr. destruct Hr as (m & q & -> & Hr).
      rewrite <- El in Hr. cbn [pre_up] in Hr. rewrite same_node_refl in Hr.
      apply (f_equal length) in Hr. rewrite !length_app in Hr. destruct m; [by destruct Hp'|]. cbn [vals length] in Hr. lia.
Qed.

(** The path a search takes; the path to a node is the one its key is searched
    along. *)
Fixpoint search_path (k : K) (t : node V) (ns : list (node V)) : list (node V) :=
  match t with
  | terminator => ns
  | Node l x r _ =>
      if key_ltb k (key_of_value x) then search_path k l (t :: ns)
      else if key_ltb (key_of_value x) k then search_path k r (t :: ns)
      else t :: ns
  end.

Lemma search_path_ok ns n v : is_path rt (n :: ns) -> v ∈ elems n ->
  search_path (key_of_value v) n ns = search_path (key_of_value v) rt [].
Proof.
  revert n. induction ns as [|p ns IH]; intros n; [by intros (_ & _ & ->)|].
  intros (Hn & Hp & Hc) Hv. rewrite <- (IH p Hp).
  - pose proof (path_good _ _ Hp) as Hg. destruct p as [|l x r h]; [by destruct Hp|]. cbn in Hc.
    apply good_inv in Hg as (_ & _ & Hl & Hr). rewrite Forall_forall in Hl, Hr. cbn [search_path].
    destruct Hc as [-> | ->].
    + apply Hl in Hv. by rewrite (proj2 (key_ltb_lt _ _) Hv).
    + apply Hr in Hv. rewrite (proj2 (key_ltb_lt _ _) Hv). destruct (key_ltb (key_of_value v) _) eqn:E; [|done].
      apply key_ltb_lt in E. by apply key_lt_asym in Hv.
  - rewrite (elems_node p) by (by destruct Hp). destruct Hc as [-> | ->]; set_solver.
Qed.

Lemma search_path_top ns n v : is_path rt (n :: ns) -> v ∈ vals n -> search_path (key_of_value v) rt [] = n :: ns.
Proof.
  intros Hp Hv. rewrite <- (search_path_ok ns n v Hp) by (by apply vals_elems). destruct n as [|l x r h]; [by destruct Hp|].
  apply list_elem_of_singleton in Hv as ->. cbn. unfold key_ltb. by rewrite (proj2 (key_eq _ _) eq_refl).
Qed.

Lemma nodes_eqb_refl (ns : list (node V)) : nodes_eqb ns ns = true.
Proof. induction ns as [|n ns IH]; cbn; [done|]. by rewrite same_node_refl, IH. Qed.

(** The values have different keys, so that an index is known by its key. *)
Lemma ordered_index (l : list V) i j a b : ordered l -> l !! i = Some a -> l !! j = Some b ->
  key_of_value a = key_of_value b -> i = j.
Proof.
  revert i j. induction l as [|x l IH]; intros i j Ho; [done|]. apply ordered_cons in Ho as [Ho Hx].
  rewrite Forall_forall in Hx. destruct i as [|i], j as [|j]; cbn; intros Ha Hb E; [done|..].
  - injection Ha as ->. apply list_elem_of_lookup_2, Hx in Hb. unfold value_lt in Hb. rewrite E in Hb. by apply key_lt_irrefl in Hb.
  - injection Hb as ->. apply list_elem_of_lookup_2, Hx in Ha. unfold value_lt in Ha. rewrite E in Ha. by apply key_lt_irrefl in Ha.
  - f_equal. by eapply IH.
Qed.

Lemma path_top n ns : is_path rt (n :: ns) -> exists v, vals n = [v] /\
  elems rt !! length (passed rt (n :: ns)) = Some v.
Proof.
  intros Hp. pose proof (passed_rest _ Hp) as Hs. destruct n as [|l v r h] eqn:En; [by destruct Hp|]. exists v. split; [done|].
  rewrite <- Hs, lookup_app_r, Nat.sub_diag by lia. done.
Qed.

(** [operator==] of iterators. *)
Lemma iter_eqb_ok a b i j : at_index a i -> at_index b j -> iter_eqb a b = bool_decide (i = j).
Proof.
  intros Ha Hb. apply at_index_inv in Ha as (ns & -> & Hp & Hi). apply at_index_inv in Hb as (ms & -> & Hq & Hj).
  unfold iter_eqb. cbn [stack elts]. destruct ns as [|n ns], ms as [|m ms].
  - cbn in *. by rewrite bool_decide_true by lia.
  - destruct (path_top _ _ Hq) as (v & _ & Hv). apply lookup_lt_Some in Hv. cbn [passed nodes_eqb] in *.
    rewrite bool_decide_false by lia. done.
  - destruct (path_top _ _ Hp) as (v & _ & Hv). apply lookup_lt_Some in Hv. cbn [passed nodes_eqb] in *.
    rewrite bool_decide_false by lia. by destruct n.
  - destruct (path_top _ _ Hp) as (v & Ev & Hv), (path_top _ _ Hq) as (w & Ew & Hw). rewrite Hi in Hv. rewrite Hj in Hw.
    assert (same_node n m = key_eqb (key_of_value v) (key_of_value w)) as Es.
    { destruct n, m; [done..|]. cbn in Ev, Ew. injection Ev as ->. by injection Ew as ->. }
    cbn [nodes_eqb]. rewrite Es. destruct (key_eqb _ _) eqn:E; cbn.
    + apply key_eqb_eq in E. rewrite bool_decide_true by (by eapply (ordered_index (elems rt)); [apply Hrt|..]).
      assert (n :: ns = m :: ms) as [= -> ->]; [|apply nodes_eqb_refl].
      rewrite <- (search_path_top ns n v Hp), <- (search_path_top ms m w Hq), E by (rewrite ?Ev, ?Ew; set_solver). done.
    + rewrite bool_decide_false; [done|]. intros ->. rewrite Hv in Hw. injection Hw as ->. by rewrite key_eqb_refl in E.
Qed.

(** The search stops at the key, or at one of its neighbours. *)
Lemma search_ok k t ns : t <> terminator -> is_path rt (t :: ns) ->
  Forall (fun x => key_lt (key_of_value x) k) (pre_up t ns) ->
  Forall (fun x => key_lt k (key_of_value x)) (post_up t ns) ->
  exists n q v found, search k t (MkStack (height rt) ns) = Done (MkStack (height rt) (n :: q), found) /\
    is_path rt (n :: q) /\ vals n = [v] /\
    if found then k = key_of_value v
    else
      if key_ltb (key_of_value v) k then Forall (fun x => key_lt k (key_of_value x)) (elems (right n) ++ post_up n q)
      else key_lt k (key_of_value v) /\ Forall (fun x => key_lt (key_of_value x) k) (passed rt (n :: q)).
Proof.
  revert ns. induction t as [|l IHl x r IHr h]; intros ns Ht Hp Hpre Hpost; [done|clear Ht].
  cbn [search]. rewrite push_back_ok by done. cbn [mbind outcome_bind].
  pose proof (good_inv _ _ _ _ (path_good _ _ Hp)) as (_ & _ & Hl & Hr).
  destruct (key_cases k (key_of_value x)) as [[E ->]|[(E & -> & Hk & Hk')|(-> & E & E1 & _)]]; [..|rewrite !E1].
  - destruct l as [|ll lv lr lh] eqn:El.
    + exists (Node terminator x r h), ns, x, false. split_and!; [done..|]. unfold key_ltb. rewrite key_opp, E. cbn.
      split; [done|]. by rewrite app_nil_r.
    + rewrite <- El in *. apply IHl; [by rewrite El|..].
      * apply child_path; [done|by left|by rewrite El].
      * cbn. by rewrite same_node_refl.
      * cbn. rewrite same_node_refl. constructor; [done|]. apply Forall_app. split; [|done].
        eapply all_above; [|exact Hr]. by apply key_lt_asym.
  - rewrite Hk'. destruct r as [|rl rv rr rh] eqn:Er.
    + exists (Node l x terminator h), ns, x, false. split_and!; [done..|]. by rewrite Hk'.
    + rewrite <- Er in *. assert (same_node r l = false) as Hs.
      { apply (right_not_left (Node l x r h)); [by eapply path_good|]. cbn. by rewrite Er. }
      apply IHr; [by rewrite Er|..].
      * apply child_path; [done|by right|by rewrite Er].
      * cbn. rewrite Hs. apply Forall_app. split; [done|]. apply Forall_app. split; [|by repeat constructor].
        eapply all_smaller; [|exact Hl]. by apply key_lt_asym.
      * cbn. by rewrite Hs.
  - exists (Node l x r h), ns, x, true. by split_and!.
Qed.

(** [lower_bound] stands behind the smaller keys, [upper_bound] behind those not
    larger. *)
Lemma path_ordered n q v : is_path rt (n :: q) -> vals n = [v] ->
  elems rt = passed rt (n :: q) ++ v :: (elems (right n) ++ post_up n q) /\
  Forall (fun y => value_lt y v) (passed rt (n :: q)) /\ Forall (value_lt v) (elems (right n) ++ post_up n q).
Proof.
  intros Hp Hv. pose proof (passed_rest _ Hp) as Hs. cbn [rest] in Hs. rewrite Hv in Hs. symmetry in Hs. split; [done|].
  pose proof (good_ordered _ Hrt) as Ho. rewrite Hs in Ho. by apply ordered_app in Ho as (_ & _ & ? & ?).
Qed.

Lemma lower_bound_ok k : exists it, lower_bound k rt = Done it /\ at_index it (length (below k (elems rt))).
Proof.
  unfold lower_bound, end_, iterator_new. cbn [mbind outcome_bind stack].
  assert (rt = terminator \/ rt <> terminator) as [E|Ht] by (destruct rt; auto).
  { rewrite E. cbn. eexists. split; [done|]. unfold at_index. cbn. by rewrite E. }
  destruct (search_ok k rt [] Ht) as (n & q & v & found & -> & Hp & Hv & H); [by split_and!|constructor|constructor|].
  destruct (path_ordered n q v Hp Hv) as (Hs & Hb & Ha). cbn [mbind outcome_bind set_stack root elts stack].
  assert (~ key_lt (key_of_value v) k -> Forall (fun x => key_lt (key_of_value x) k) (passed rt (n :: q)) ->
    below k (elems rt) = passed rt (n :: q)) as Hhere.
  { intros Hk Hf. rewrite Hs. apply below_split; [done|]. constructor; [done|].
    eapply List.Forall_impl; [|by eapply all_above; [|exact Ha]]. intros y Hy. by apply key_lt_asym. }
  assert (at_index (MkIter rt (MkStack (height rt) (n :: q))) (length (passed rt (n :: q)))) as Hi by by apply at_index_mk.
  destruct found; subst.
  - eexists. split; [done|]. rewrite Hhere; [done|apply key_lt_irrefl|done].
  - destruct n as [|l x r h]; [done|]. injection Hv as ->. unfold deref_iter, set_stack.
    cbn [stack elts root mbind outcome_bind].
    destruct (key_ltb (key_of_value v) k) eqn:E.
    + apply key_ltb_lt in E. destruct (next_ok _ _ Hi) as (it & En & Hit).
      { rewrite Hs, length_app. cbn [length]. lia. }
      exists it. split; [exact En|]. assert (below k (elems rt) = passed rt (Node l v r h :: q) ++ [v]) as ->.
      { rewrite Hs. change (v :: ?m) with ([v] ++ m). rewrite app_assoc. apply below_split.
        - apply Forall_app. split; [|by constructor]. eapply all_smaller; [|exact Hb]. by apply key_lt_asym.
        - eapply List.Forall_impl; [|exact H]. intros y Hy. by apply key_lt_asym. }
      rewrite length_app. cbn [length]. by rewrite Nat.add_1_r.
    + eexists. split; [done|]. destruct H as [Hk Hf]. rewrite Hhere; [done|by apply key_lt_asym|done].
Qed.

(** The values of a tree around a key. *)
Lemma key_split k (l : list V) : ordered l ->
  (exists v, list_find k l = Some v /\ key_of_value v = k /\ upto k l = below k l ++ [v] /\ l !! length (below k l) = Some v) \/
  (list_find k l = None /\ upto k l = below k l /\
     forall v, l !! length (below k l) = Some v -> key_lt k (key_of_value v)).
Proof.
  induction l as [|x l IH]; [by right|]. intros [Hl Hx]%ordered_cons. unfold below, upto in *. cbn [List.filter list_find].
  destruct (key_cases k (key_of_value x)) as [[E E1]|[(E & E1 & Hk & E2)|(-> & E & E1 & _)]].
  - right. assert (forall y, y ∈ x :: l -> key_lt k (key_of_value y)) as Hall.
    { intros y [-> |Hy]%elem_of_cons; [done|]. rewrite Forall_forall in Hx. eapply key_trans; [exact E|by apply Hx]. }
    pose proof (list_find_below k x l E Hx) as Hn. cbn in Hn. rewrite Hn.
    assert (List.filter (fun y => key_ltb (key_of_value y) k) (x :: l) = []) as Hb.
    { refine (below_split k [] (x :: l) _ _); [done|]. apply Forall_forall. intros y Hy. by apply key_lt_asym, Hall. }
    assert (List.filter (fun y => negb (key_ltb k (key_of_value y))) (x :: l) = []) as Hu.
    { refine (upto_split k [] (x :: l) _ _); [done|]. by apply Forall_forall. }
    cbn in Hb, Hu. rewrite Hb, Hu. split_and!; [done..|]. cbn. intros v [= <-]. done.
  - rewrite E1, E2. cbn [negb]. unfold key_eqb. rewrite E.
    destruct (IH Hl) as [(v & H1 & H2 & H3 & H4)|(H1 & H2 & H3)]; [left|right].
    + exists v. by rewrite H3.
    + by rewrite H2.
  - left. exists x. rewrite E1, key_eqb_refl. cbn [negb].
    assert (List.filter (fun y => key_ltb (key_of_value y) (key_of_value x)) l = []) as ->.
    { refine (below_split _ [] l _ _); [done|]. eapply List.Forall_impl; [|exact Hx]. intros y Hy. by apply key_lt_asym. }
    assert (List.filter (fun y => negb (key_ltb (key_of_value x) (key_of_value y))) l = []) as ->; [|done].
    refine (upto_split _ [] l _ _); [done|exact Hx].
Qed.

Lemma upper_bound_ok k : exists it, upper_bound k rt = Done it /\ at_index it (length (upto k (elems rt))).
Proof.
  unfold upper_bound. destruct end_ok as (e & -> & He), (lower_bound_ok k) as (it & -> & Hi). cbn [mbind outcome_bind].
  rewrite (iter_eqb_ok _ _ _ _ Hi He), (deref_iter_ok _ _ Hi). case_bool_decide as Hl.
  - exists it. split; [done|]. destruct (key_split k _ (good_ordered _ Hrt)) as [(v & _ & _ & _ & Hv)|(_ & -> & _)]; [|done].
    apply lookup_lt_Some in Hv. lia.
  - assert (length (below k (elems rt)) < length (elems rt)) as Hlt by
      (pose proof (List.filter_length_le (fun x => key_ltb (key_of_value x) k) (elems rt)); unfold below in *; lia).
    destruct (key_split k _ (good_ordered _ Hrt)) as [(v & _ & Ek & -> & Hv)|(_ & -> & Hv)].
    + rewrite Hv. cbn [mbind outcome_bind]. rewrite Ek. unfold key_ltb. rewrite (proj2 (key_eq _ _) eq_refl).
      rewrite length_app, Nat.add_1_r. by apply next_ok.
    + apply lookup_lt_is_Some in Hlt as [w Hw]. rewrite Hw. cbn [mbind outcome_bind].
      rewrite (proj2 (key_ltb_lt _ _) (Hv w Hw)). by exists it.
Qed.

Lemma find_ok k : exists it, find k rt = Done it /\
  at_index it (match list_find k (elems rt) with Some _ => length (below k (elems rt)) | None => length (elems rt) end).
Proof.
  unfold find. destruct end_ok as (e & -> & He), (lower_bound_ok k) as (it & -> & Hi). cbn [mbind outcome_bind].
  rewrite (iter_eqb_ok _ _ _ _ Hi He), (deref_iter_ok _ _ Hi). case_bool_decide as Hl.
  - exists e. split; [done|]. destruct (list_find k (elems rt)); [by rewrite Hl|done].
  - assert (length (below k (elems rt)) < length (elems rt)) as Hlt by
      (pose proof (List.filter_length_le (fun x => key_ltb (key_of_value x) k) (elems rt)); unfold below in *; lia).
    destruct (key_split k _ (good_ordered _ Hrt)) as [(v & -> & Ek & _ & Hv)|(-> & _ & Hv)].
    + rewrite Hv. cbn [mbind outcome_bind]. rewrite Ek. unfold key_ltb. rewrite (proj2 (key_eq _ _) eq_refl). by exists it.
    + apply lookup_lt_is_Some in Hlt as [w Hw]. rewrite Hw. cbn [mbind outcome_bind].
      rewrite (proj2 (key_ltb_lt _ _) (Hv w Hw)). by exists e.
Qed.

End Iterators.
End ImmutableTree.
