(* ===== verification/Memory.v ===== *)
(** Memory objects and their contents (lib/Core/Memory.h, Memory.cpp): bytes that
    are concrete, known symbolic expressions, or in the update list of an array.
    The flags of the bytes are arrays of bits (include/klee/ADT/BitArray.h). *)
From stdpp Require Import base numbers list strings pretty.
From Stdlib Require Import ZArith Lia.
From S2P Require Import Prelude APInt Bits Expr ConstantOps ExprCreate.
Local Open Scope Z_scope.

(** ** Arrays of bits *)

(** The words of an array. *)
Abbreviation BitArray := (list Z).

Definition BitArray_length (size : Z) : Z := (size + 31) / 32.

Definition BitArray_new (size : Z) (value : bool) : BitArray :=
  replicate (Z.to_nat (BitArray_length size)) (if value then 0xFFFFFFFF else 0).

(** [BitArray(b, size)]: [memcpy] of the words. *)
Definition BitArray_copy (b : BitArray) (size : Z) : BitArray := take (Z.to_nat (BitArray_length size)) b.

Definition BitArray_get (b : BitArray) (idx : Z) : outcome bool :=
  w ← deref (b !! Z.to_nat (idx / 32));
  Done (negb (Z.land (Z.shiftr w (Z.land idx 0x1F)) 1 =? 0)).

Definition BitArray_set (b : BitArray) (idx : Z) : outcome BitArray :=
  w ← deref (b !! Z.to_nat (idx / 32));
  Done (<[Z.to_nat (idx / 32) := Z.lor w (Z.shiftl 1 (Z.land idx 0x1F))]> b).

Definition BitArray_unset (b : BitArray) (idx : Z) : outcome BitArray :=
  w ← deref (b !! Z.to_nat (idx / 32));
  Done (<[Z.to_nat (idx / 32) := Z.land w (u32 (Z.lnot (Z.shiftl 1 (Z.land idx 0x1F))))]> b).

(** An array of [size] bits, and its bits. *)
Definition bits_ok (b : BitArray) (size : Z) : Prop := Z.of_nat (length b) = BitArray_length size.

Definition bit (b : BitArray) (idx : Z) : bool :=
  match b !! Z.to_nat (idx / 32) with Some w => Z.testbit w (idx mod 32) | None => false end.

Lemma land_31 i : Z.land i 31 = i mod 32.
Proof. change 31 with (Z.ones 5). by rewrite Z.land_ones. Qed.

Lemma bit_mod i : 0 <= i mod 32 < 32.
Proof. apply Z.mod_pos_bound. lia. Qed.

(** The word of an index inside the array. *)
Lemma word_lookup b size i : bits_ok b size -> 0 <= i < size -> exists w, b !! Z.to_nat (i / 32) = Some w.
Proof.
  intros Hb Hi. apply lookup_lt_is_Some. unfold bits_ok, BitArray_length in Hb.
  assert (0 <= i / 32) by (apply Z.div_pos; lia).
  assert (i / 32 < (size + 31) / 32); [|lia].
  apply Z.lt_le_trans with (i / 32 + 1); [lia|]. replace (i / 32 + 1) with ((i + 32) / 32).
  - apply Z.div_le_mono; lia.
  - replace (i + 32) with (i + 1 * 32) by lia. by rewrite Z.div_add.
Qed.

Lemma BitArray_get_ok b size i : bits_ok b size -> 0 <= i < size -> BitArray_get b i = Done (bit b i).
Proof.
  intros Hb Hi. destruct (word_lookup b size i Hb Hi) as [w Hw]. unfold BitArray_get, bit. rewrite Hw. cbn.
  f_equal. rewrite land_31. pose proof (bit_mod i).
  assert (Z.testbit w (i mod 32) = Z.testbit (Z.shiftr w (i mod 32)) 0) as -> by (rewrite Z.shiftr_spec; f_equal; lia).
  change 1 with (Z.ones 1). rewrite Z.land_ones by lia. rewrite Z.bit0_odd, Zmod_odd. by destruct (Z.odd _).
Qed.

(** Two indices of one word differ in the word. *)
Lemma same_word i j : i / 32 = j / 32 -> i mod 32 = j mod 32 -> i = j.
Proof. intros Hd Hm. by rewrite (Z.div_mod i 32), (Z.div_mod j 32), Hd, Hm by lia. Qed.

Lemma other_bit i j : i / 32 = j / 32 -> j <> i -> Z.testbit 1 (j mod 32 - i mod 32) = false.
Proof.
  intros E Hne. assert (j mod 32 <> i mod 32) by (intros Em; by apply Hne, same_word).
  destruct (Z.lt_ge_cases (j mod 32) (i mod 32)); [apply Z.testbit_neg_r|apply Z.bits_above_log2; cbn]; lia.
Qed.

Lemma bit_insert b i w j : 0 <= i -> 0 <= j -> is_Some (b !! Z.to_nat (i / 32)) ->
  bit (<[Z.to_nat (i / 32) := w]> b) j = if i / 32 =? j / 32 then Z.testbit w (j mod 32) else bit b j.
Proof.
  intros Hi Hj Hs%lookup_lt_is_Some. unfold bit. assert (0 <= i / 32 /\ 0 <= j / 32) as [? ?] by (split; apply Z.div_pos; lia).
  destruct (Z.eqb_spec (i / 32) (j / 32)) as [E|E].
  - rewrite <- E. by rewrite list_lookup_insert_eq.
  - rewrite list_lookup_insert_ne by lia. done.
Qed.

Lemma BitArray_set_ok b size i : bits_ok b size -> 0 <= i < size -> exists b', BitArray_set b i = Done b' /\
  bits_ok b' size /\ forall j, 0 <= j -> bit b' j = if j =? i then true else bit b j.
Proof.
  intros Hb Hi. destruct (word_lookup b size i Hb Hi) as [w Hw]. unfold BitArray_set. rewrite Hw. eexists. split; [done|].
  split; [unfold bits_ok in *; by rewrite length_insert|]. intros j Hj. rewrite bit_insert by (eauto; lia).
  pose proof (bit_mod i). pose proof (bit_mod j). rewrite land_31.
  destruct (Z.eqb_spec (i / 32) (j / 32)) as [E|E].
  - rewrite Z.lor_spec, Z.shiftl_spec by lia.
    destruct (Z.eqb_spec j i) as [-> |Hne]; [by rewrite Z.sub_diag, orb_true_r|].
    rewrite other_bit by done.
    rewrite orb_false_r. unfold bit. by rewrite <- E, Hw.
  - destruct (Z.eqb_spec j i) as [-> |]; done.
Qed.

Lemma BitArray_unset_ok b size i : bits_ok b size -> 0 <= i < size -> exists b', BitArray_unset b i = Done b' /\
  bits_ok b' size /\ forall j, 0 <= j -> bit b' j = if j =? i then false else bit b j.
Proof.
  intros Hb Hi. destruct (word_lookup b size i Hb Hi) as [w Hw]. unfold BitArray_unset. rewrite Hw. eexists. split; [done|].
  split; [unfold bits_ok in *; by rewrite length_insert|]. intros j Hj. rewrite bit_insert by (eauto; lia).
  pose proof (bit_mod i). pose proof (bit_mod j). rewrite land_31.
  destruct (Z.eqb_spec (i / 32) (j / 32)) as [E|E].
  - rewrite Z.land_spec. unfold u32. rewrite Z.mod_pow2_bits_low, Z.lnot_spec, Z.shiftl_spec by lia.
    destruct (Z.eqb_spec j i) as [-> |Hne]; [by rewrite Z.sub_diag, andb_false_r|].
    rewrite other_bit by done.
    rewrite andb_true_r. unfold bit. by rewrite <- E, Hw.
  - destruct (Z.eqb_spec j i) as [-> |]; done.
Qed.

Lemma BitArray_new_ok size value : 0 <= size -> bits_ok (BitArray_new size value) size /\
  forall j, 0 <= j < size -> bit (BitArray_new size value) j = value.
Proof.
  intros Hs. assert (bits_ok (BitArray_new size value) size) as Hb.
  { unfold bits_ok, BitArray_new, BitArray_length. rewrite length_replicate, Z2Nat.id; [done|]. apply Z.div_pos; lia. }
  split; [done|]. intros j Hj. destruct (word_lookup _ _ _ Hb Hj) as [w Hw]. unfold bit. rewrite Hw.
  apply lookup_replicate in Hw as [-> _]. pose proof (bit_mod j). destruct value; [|by rewrite Z.bits_0].
  change 0xFFFFFFFF with (Z.ones 32). by rewrite Z.ones_spec_low by lia.
Qed.

Lemma BitArray_copy_ok b size : bits_ok b size -> BitArray_copy b size = b.
Proof. intros Hb. unfold BitArray_copy. rewrite <- Hb, Nat2Z.id. apply firstn_all. Qed.

(** [Context]: the byte order and the pointer width of the target. *)
Class TargetContext : Type := { isLittleEndian : bool; getPointerWidth : Z }.

(** The option -use-constant-arrays. *)
Class MemoryOptions : Type := { UseConstantArrays : bool }.

(** [ArrayCache::CreateArray], with the default widths.  A symbolic array is
    cached by its name and size; every constant array is created under a name of
    its own: the array is a function of the arguments. *)
Class ArrayCache : Type := { CreateArray : string -> Z -> list APInt -> positive }.

Class ArrayCacheLaws `{ArrayHeap} `{ArrayCache} : Prop := {
  CreateArray_spec name size contents : array_at (CreateArray name size contents) = MkArray name size Int32 Int8 contents
}.

(** ** Objects *)

(** The fields of [MemoryObject] the modelled code reads; [allocSite] is a
    pointer to an LLVM value. *)
Record MemoryObject : Type := MkMO {
  mo_id : Z;
  address : Z;
  mo_size : Z;
  mo_name : list Z;
  isLocal : bool;
  isGlobal : bool;
  isFixed : bool;
  isUserSpecified : bool;
  allocSite : positive
}.

#[export] Instance MemoryObject_eq_dec : EqDecision MemoryObject.
Proof. solve_decision. Defined.

(** [MemoryObject::compare] *)
Definition MemoryObject_compare (a b : MemoryObject) : comparison :=
  if mo_id a =? mo_id b then Eq
  else if negb (address a =? address b) then (if address a <? address b then Lt else Gt)
  else if negb (mo_size a =? mo_size b) then (if mo_size a <? mo_size b then Lt else Gt)
  else if negb (Pos.eqb (allocSite a) (allocSite b)) then (if Pos.ltb (allocSite a) (allocSite b) then Lt else Gt)
  else Eq.

(** An update list whose array may be missing: it is then created when the
    contents are first read. *)
Record Updates : Type := MkUpdates { up_root : option positive; up_head : UpdateNode }.

Record ObjectState : Type := MkOS {
  copyOnWriteOwner : Z;
  object : MemoryObject;
  concreteStore : list Z;
  concreteMask : option BitArray;
  knownSymbolics : option (list (option Expr));
  unflushedMask : option BitArray;
  updates : Updates;
  os_size : Z;
  readOnly : bool
}.

Definition with_owner (o : Z) (s : ObjectState) : ObjectState :=
  MkOS o (object s) (concreteStore s) (concreteMask s) (knownSymbolics s) (unflushedMask s) (updates s) (os_size s) (readOnly s).
Definition with_concreteStore (c : list Z) (s : ObjectState) : ObjectState :=
  MkOS (copyOnWriteOwner s) (object s) c (concreteMask s) (knownSymbolics s) (unflushedMask s) (updates s) (os_size s) (readOnly s).
Definition with_concreteMask (m : option BitArray) (s : ObjectState) : ObjectState :=
  MkOS (copyOnWriteOwner s) (object s) (concreteStore s) m (knownSymbolics s) (unflushedMask s) (updates s) (os_size s) (readOnly s).
Definition with_knownSymbolics (k : option (list (option Expr))) (s : ObjectState) : ObjectState :=
  MkOS (copyOnWriteOwner s) (object s) (concreteStore s) (concreteMask s) k (unflushedMask s) (updates s) (os_size s) (readOnly s).
Definition with_unflushedMask (m : option BitArray) (s : ObjectState) : ObjectState :=
  MkOS (copyOnWriteOwner s) (object s) (concreteStore s) (concreteMask s) (knownSymbolics s) m (updates s) (os_size s) (readOnly s).
Definition with_updates (u : Updates) (s : ObjectState) : ObjectState :=
  MkOS (copyOnWriteOwner s) (object s) (concreteStore s) (concreteMask s) (knownSymbolics s) (unflushedMask s) u (os_size s) (readOnly s).
Definition setReadOnly (ro : bool) (s : ObjectState) : ObjectState :=
  MkOS (copyOnWriteOwner s) (object s) (concreteStore s) (concreteMask s) (knownSymbolics s) (unflushedMask s) (updates s) (os_size s) ro.

(** ** Marks *)

Definition isByteConcrete (s : ObjectState) (offset : Z) : outcome bool :=
  match concreteMask s with None => Done true | Some m => BitArray_get m offset end.

Definition isByteUnflushed (s : ObjectState) (offset : Z) : outcome bool :=
  match unflushedMask s with None => Done true | Some m => BitArray_get m offset end.

Definition knownSymbolic (s : ObjectState) (offset : Z) : outcome (option Expr) :=
  match knownSymbolics s with None => Done None | Some k => deref (k !! Z.to_nat offset) end.

Definition isByteKnownSymbolic (s : ObjectState) (offset : Z) : outcome bool :=
  k ← knownSymbolic s offset; Done (bool_decide (is_Some k)).

Definition markByteConcrete (offset : Z) (s : ObjectState) : outcome ObjectState :=
  match concreteMask s with
  | None => Done s
  | Some m => m ← BitArray_set m offset; Done (with_concreteMask (Some m) s)
  end.

Definition markByteSymbolic (offset : Z) (s : ObjectState) : outcome ObjectState :=
  m ← BitArray_unset (default (BitArray_new (os_size s) true) (concreteMask s)) offset;
  Done (with_concreteMask (Some m) s).

Definition markByteUnflushed (offset : Z) (s : ObjectState) : outcome ObjectState :=
  match unflushedMask s with
  | None => Done s
  | Some m => m ← BitArray_set m offset; Done (with_unflushedMask (Some m) s)
  end.

(** Without a mask one is made in which every byte is flushed. *)
Definition markByteFlushed (offset : Z) (s : ObjectState) : outcome ObjectState :=
  match unflushedMask s with
  | None => Done (with_unflushedMask (Some (BitArray_new (os_size s) false)) s)
  | Some m => m ← BitArray_unset m offset; Done (with_unflushedMask (Some m) s)
  end.

Definition set_known (offset : Z) (value : option Expr) (k : list (option Expr)) : outcome (list (option Expr)) :=
  _ ← deref (k !! Z.to_nat offset); Done (<[Z.to_nat offset := value]> k).

Definition setKnownSymbolic (offset : Z) (value : option Expr) (s : ObjectState) : outcome ObjectState :=
  match knownSymbolics s, value with
  | Some k, _ => k ← set_known offset value k; Done (with_knownSymbolics (Some k) s)
  | None, Some _ =>
      k ← set_known offset value (replicate (Z.to_nat (os_size s)) None); Done (with_knownSymbolics (Some k) s)
  | None, None => Done s
  end.

Section Memory.
Context {AP : APIntOps} {AH : ArrayHeap} {OP : ExprOptions} {TC : TargetContext} {MO : MemoryOptions} {AC : ArrayCache}.

(** ** Pointers into an object *)

Definition getBaseExpr (mo : MemoryObject) : outcome Expr :=
  v ← ConstantExpr_create (address mo) getPointerWidth; Done (ConstantExpr v).
Definition getSizeExpr (mo : MemoryObject) : outcome Expr :=
  v ← ConstantExpr_create (mo_size mo) getPointerWidth; Done (ConstantExpr v).
Definition getOffsetExpr (mo : MemoryObject) (pointer : Expr) : outcome Expr :=
  base ← getBaseExpr mo; SubExpr_create pointer base.

Definition getBoundsCheckOffset (mo : MemoryObject) (offset : Expr) : outcome Expr :=
  if mo_size mo =? 0 then EqExpr_create offset (ConstantExpr (ConstantExpr_alloc 0 getPointerWidth))
  else size ← getSizeExpr mo; UltExpr_create offset size.

Definition getBoundsCheckOffset_bytes (mo : MemoryObject) (offset : Expr) (bytes : Z) : outcome Expr :=
  if bytes <=? mo_size mo then
    UltExpr_create offset (ConstantExpr (ConstantExpr_alloc (u32 (u32 (mo_size mo - bytes) + 1)) getPointerWidth))
  else Done (ConstantExpr (ConstantExpr_alloc 0 Bool)).

Definition getBoundsCheckPointer (mo : MemoryObject) (pointer : Expr) : outcome Expr :=
  offset ← getOffsetExpr mo pointer; getBoundsCheckOffset mo offset.
Definition getBoundsCheckPointer_bytes (mo : MemoryObject) (pointer : Expr) (bytes : Z) : outcome Expr :=
  offset ← getOffsetExpr mo pointer; getBoundsCheckOffset_bytes mo offset bytes.

(** ** Construction *)

(** [updates.extend]: the widths are checked when there is an array. *)
Definition Updates_extend (u : Updates) (index value : Expr) : outcome Updates :=
  match up_root u with
  | Some r => ul ← UpdateList_extend (MkUpdateList r (up_head u)) index value; Done (MkUpdates (Some r) (ul_head ul))
  | None => Done (MkUpdates None (UNode (up_head u) index value))
  end.

(** Contents that are concrete; [id] is the number of the last temporary array,
    a static variable. *)
Definition ObjectState_new (mo : MemoryObject) (id : Z) : ObjectState * Z :=
  let store := replicate (Z.to_nat (mo_size mo)) 0 in
  if UseConstantArrays then (MkOS 0 mo store None None None (MkUpdates None UNull) (mo_size mo) false, id)
  else
    let id := u32 (id + 1) in
    let array := CreateArray ("tmp_arr" +:+ pretty id) (mo_size mo) [] in
    (MkOS 0 mo store None None None (MkUpdates (Some array) UNull) (mo_size mo) false, id).

(** The bytes from [i] on. *)
Fixpoint makeSymbolic_loop (n : nat) (i : Z) (s : ObjectState) : outcome ObjectState :=
  match n with
  | O => Done s
  | S n =>
      s ← markByteSymbolic i s;
      s ← setKnownSymbolic i None s;
      s ← markByteFlushed i s;
      makeSymbolic_loop n (i + 1) s
  end.

Definition makeSymbolic (s : ObjectState) : outcome ObjectState :=
  Assert (match up_head (updates s) with UNull => true | _ => false end) ;;
  makeSymbolic_loop (Z.to_nat (os_size s)) 0 s.

Definition ObjectState_new_symbolic (mo : MemoryObject) (array : positive) : outcome ObjectState :=
  makeSymbolic (MkOS 0 mo (replicate (Z.to_nat (mo_size mo)) 0) None None None (MkUpdates (Some array) UNull) (mo_size mo) false).

(** The copy has no owner and may be written. *)
Definition ObjectState_copy (s : ObjectState) : outcome ObjectState :=
  Assert negb (readOnly s) ;;
  Done (MkOS 0 (object s) (concreteStore s) ((fun m => BitArray_copy m (os_size s)) <$> concreteMask s)
    (knownSymbolics s) ((fun m => BitArray_copy m (os_size s)) <$> unflushedMask s) (updates s) (os_size s) false).

Definition makeConcrete (s : ObjectState) : ObjectState :=
  with_knownSymbolics None (with_unflushedMask None (with_concreteMask None s)).

Definition initializeToZero (s : ObjectState) : ObjectState :=
  with_concreteStore (replicate (Z.to_nat (os_size s)) 0) (makeConcrete s).
Definition initializeToRandom (s : ObjectState) : ObjectState :=
  with_concreteStore (replicate (Z.to_nat (os_size s)) 0xAB) (makeConcrete s).

(** ** The update list *)

(** The writes, oldest first. *)
Fixpoint Writes (u : UpdateNode) : list (Expr * Expr) :=
  match u with UNull => [] | UNode next i v => Writes next ++ [(i, v)] end.

(** The concrete writes go into the constant array, up to the first other one. *)
Fixpoint pull_concrete (writes : list (Expr * Expr)) (contents : list APInt) :
    outcome (list APInt * list (Expr * Expr)) :=
  match writes with
  | (ConstantExpr index, ConstantExpr value) :: rest =>
      i ← ConstantExpr_getZExtValue index 64;
      _ ← deref (contents !! Z.to_nat i);
      pull_concrete rest (<[Z.to_nat i := value]> contents)
  | _ => Done (contents, writes)
  end.

Fixpoint extend_all (u : Updates) (writes : list (Expr * Expr)) : outcome Updates :=
  match writes with
  | [] => Done u
  | (i, v) :: rest => u ← Updates_extend u i v; extend_all u rest
  end.

(** [getUpdates]: the array of contents that were concrete at first is created
    lazily; [id] is the number of the last one, a static variable. *)
Definition getUpdates (s : ObjectState) (id : Z) : outcome (UpdateList * ObjectState * Z) :=
  match up_root (updates s) with
  | Some r => Done (MkUpdateList r (up_head (updates s)), s, id)
  | None =>
      zero ← ConstantExpr_create 0 Int8;
      '(contents, rest) ← pull_concrete (Writes (up_head (updates s))) (replicate (Z.to_nat (os_size s)) zero);
      let id := u32 (id + 1) in
      let array := CreateArray ("const_arr" +:+ pretty id) (os_size s) contents in
      u ← extend_all (MkUpdates (Some array) UNull) rest;
      Done (MkUpdateList array (up_head u), with_updates u s, id)
  end.

(** [fastRangeCheckOffset]: the whole object. *)
Definition fastRangeCheckOffset (s : ObjectState) : Z * Z := (0, os_size s).

(** The value of an unflushed byte. *)
Definition cached_byte (s : ObjectState) (offset : Z) : outcome Expr :=
  c ← isByteConcrete s offset;
  if (c : bool) then
    b ← deref (concreteStore s !! Z.to_nat offset);
    v ← ConstantExpr_create b Int8;
    Done (ConstantExpr v)
  else
    k ← knownSymbolic s offset;
    match k with Some e => Done e | None => AssertFail end.

(** The byte is appended to the updates. *)
Definition flush_byte (offset : Z) (s : ObjectState) : outcome ObjectState :=
  i ← ConstantExpr_create offset Int32;
  v ← cached_byte s offset;
  u ← Updates_extend (updates s) (ConstantExpr i) v;
  Done (with_updates u s).

Definition unset_unflushed (offset : Z) (s : ObjectState) : outcome ObjectState :=
  match unflushedMask s with
  | Some m => m ← BitArray_unset m offset; Done (with_unflushedMask (Some m) s)
  | None => Undefined
  end.

Definition need_unflushedMask (s : ObjectState) : ObjectState :=
  match unflushedMask s with
  | None => with_unflushedMask (Some (BitArray_new (os_size s) true)) s
  | Some _ => s
  end.

Fixpoint flushRangeForRead_loop (n : nat) (offset : Z) (s : ObjectState) : outcome ObjectState :=
  match n with
  | O => Done s
  | S n =>
      u ← isByteUnflushed s offset;
      s ← (if (u : bool) then s ← flush_byte offset s; unset_unflushed offset s else Done s);
      flushRangeForRead_loop n (offset + 1) s
  end.

Definition flushRangeForRead (rangeBase rangeSize : Z) (s : ObjectState) : outcome ObjectState :=
  flushRangeForRead_loop (Z.to_nat rangeSize) rangeBase (need_unflushedMask s).

Fixpoint flushRangeForWrite_loop (n : nat) (offset : Z) (s : ObjectState) : outcome ObjectState :=
  match n with
  | O => Done s
  | S n =>
      u ← isByteUnflushed s offset;
      c ← isByteConcrete s offset;
      s ← (if (u : bool) then
             s ← flush_byte offset s;
             s ← (if (c : bool) then markByteSymbolic offset s else setKnownSymbolic offset None s);
             unset_unflushed offset s
           else if (c : bool) then markByteSymbolic offset s
           else
             k ← isByteKnownSymbolic s offset;
             if (k : bool) then setKnownSymbolic offset None s else Done s);
      flushRangeForWrite_loop n (offset + 1) s
  end.

Definition flushRangeForWrite (rangeBase rangeSize : Z) (s : ObjectState) : outcome ObjectState :=
  flushRangeForWrite_loop (Z.to_nat rangeSize) rangeBase (need_unflushedMask s).

(** ** Bytes *)

(** A read may create the constant array and flush bytes: it gives the contents
    it leaves. *)
Definition read8 (s : ObjectState) (id offset : Z) : outcome (Expr * ObjectState * Z) :=
  c ← isByteConcrete s offset;
  if (c : bool) then e ← cached_byte s offset; Done (e, s, id)
  else
    k ← knownSymbolic s offset;
    match k with
    | Some e => Done (e, s, id)
    | None =>
        u ← isByteUnflushed s offset;
        Assert negb u ;;
        '(ul, s, id) ← getUpdates s id;
        i ← ConstantExpr_create offset Int32;
        e ← ReadExpr_create ul (ConstantExpr i);
        Done (e, s, id)
    end.

Definition is_constant (e : Expr) : bool := match e with ConstantExpr _ => true | _ => false end.

Definition read8_symbolic (s : ObjectState) (id : Z) (offset : Expr) : outcome (Expr * ObjectState * Z) :=
  Assert negb (is_constant offset) ;;
  let '(base, size) := fastRangeCheckOffset s in
  s ← flushRangeForRead base size s;
  '(ul, s, id) ← getUpdates s id;
  i ← ZExtExpr_create offset Int32;
  e ← ReadExpr_create ul i;
  Done (e, s, id).

Definition write8_byte (offset value : Z) (s : ObjectState) : outcome ObjectState :=
  _ ← deref (concreteStore s !! Z.to_nat offset);
  s ← setKnownSymbolic offset None (with_concreteStore (<[Z.to_nat offset := value mod 2 ^ 8]> (concreteStore s)) s);
  s ← markByteConcrete offset s;
  markByteUnflushed offset s.

Definition write8 (offset : Z) (value : Expr) (s : ObjectState) : outcome ObjectState :=
  match value with
  | ConstantExpr CE => v ← ConstantExpr_getZExtValue CE 8; write8_byte offset v s
  | _ =>
      s ← setKnownSymbolic offset (Some value) s;
      s ← markByteSymbolic offset s;
      markByteUnflushed offset s
  end.

Definition write8_symbolic (offset value : Expr) (s : ObjectState) : outcome ObjectState :=
  Assert negb (is_constant offset) ;;
  let '(base, size) := fastRangeCheckOffset s in
  s ← flushRangeForWrite base size s;
  i ← ZExtExpr_create offset Int32;
  u ← Updates_extend (updates s) i value;
  Done (with_updates u s).

(** ** Words *)

Definition byte_index (NumBytes i : Z) : Z := if isLittleEndian then i else NumBytes - i - 1.

(** The loop of a read: byte [i] goes above the bytes before it. *)
Fixpoint read_loop (rd : ObjectState -> Z -> Z -> outcome (Expr * ObjectState * Z)) (NumBytes : Z) (n : nat) (i : Z)
    (Res : option Expr) (s : ObjectState) (id : Z) : outcome (option Expr * ObjectState * Z) :=
  match n with
  | O => Done (Res, s, id)
  | S n =>
      '(Byte, s, id) ← rd s id (byte_index NumBytes i);
      Res ← (match Res with None => Done Byte | Some Res => ConcatExpr_create Byte Res end);
      read_loop rd NumBytes n (i + 1) (Some Res) s id
  end.

(** The result of a read of no bytes is null. *)
Definition read_word (rd : ObjectState -> Z -> Z -> outcome (Expr * ObjectState * Z)) (s : ObjectState) (id width : Z) :
    outcome (Expr * ObjectState * Z) :=
  let NumBytes := width / 8 in
  Assert width =? NumBytes * 8 ;;
  '(Res, s, id) ← read_loop rd NumBytes (Z.to_nat NumBytes) 0 None s id;
  Res ← deref Res;
  Done (Res, s, id).

Definition read_at (s : ObjectState) (id offset width : Z) : outcome (Expr * ObjectState * Z) :=
  if width =? Bool then
    '(e, s, id) ← read8 s id offset;
    e ← ExtractExpr_create e 0 Bool;
    Done (e, s, id)
  else read_word (fun s id idx => read8 s id (u32 (offset + idx))) s id width.

Definition read (s : ObjectState) (id : Z) (offset : Expr) (width : Z) : outcome (Expr * ObjectState * Z) :=
  offset ← ZExtExpr_create offset Int32;
  match offset with
  | ConstantExpr CE => o ← ConstantExpr_getZExtValue CE 32; read_at s id o width
  | _ =>
      if width =? Bool then
        '(e, s, id) ← read8_symbolic s id offset;
        e ← ExtractExpr_create e 0 Bool;
        Done (e, s, id)
      else
        read_word (fun s id idx =>
          i ← ConstantExpr_create idx Int32;
          o ← AddExpr_create offset (ConstantExpr i);
          read8_symbolic s id o) s id width
  end.

(** [write16], [write32] and [write64]: the bytes of a value, [n] of them from [i]
    on. *)
Fixpoint write_bytes (NumBytes : Z) (n : nat) (i offset value : Z) (s : ObjectState) : outcome ObjectState :=
  match n with
  | O => Done s
  | S n =>
      s ← write8_byte (u32 (offset + byte_index NumBytes i)) (Z.shiftr value (8 * i)) s;
      write_bytes NumBytes n (i + 1) offset value s
  end.

Definition write16 (offset value : Z) (s : ObjectState) : outcome ObjectState := write_bytes 2 2 0 offset (value mod 2 ^ 16) s.
Definition write32 (offset value : Z) (s : ObjectState) : outcome ObjectState := write_bytes 4 4 0 offset (value mod 2 ^ 32) s.
Definition write64 (offset value : Z) (s : ObjectState) : outcome ObjectState := write_bytes 8 8 0 offset value s.

(** The loop of a write: byte [i] of the value. *)
Fixpoint write_loop (wr : Z -> Expr -> ObjectState -> outcome ObjectState) (NumBytes : Z) (n : nat) (i : Z)
    (value : Expr) (s : ObjectState) : outcome ObjectState :=
  match n with
  | O => Done s
  | S n =>
      b ← ExtractExpr_create value (8 * i) Int8;
      s ← wr (byte_index NumBytes i) b s;
      write_loop wr NumBytes n (i + 1) value s
  end.

Definition write_word (wr : Z -> Expr -> ObjectState -> outcome ObjectState) (value : Expr) (s : ObjectState) :
    outcome ObjectState :=
  let NumBytes := getWidth value / 8 in
  Assert getWidth value =? NumBytes * 8 ;;
  write_loop wr NumBytes (Z.to_nat NumBytes) 0 value s.

Definition write_at_general (offset : Z) (value : Expr) (s : ObjectState) : outcome ObjectState :=
  if getWidth value =? Bool then e ← ZExtExpr_create value Int8; write8 offset e s
  else write_word (fun idx b => write8 (u32 (offset + idx)) b) value s.

Definition write_at (offset : Z) (value : Expr) (s : ObjectState) : outcome ObjectState :=
  match value with
  | ConstantExpr CE =>
      let w := getBitWidth CE in
      if (w <=? 64) && bits64_isPowerOfTwo w then
        val ← ConstantExpr_getZExtValue CE 64;
        if (w =? Bool) || (w =? Int8) then write8_byte offset val s
        else if w =? Int16 then write16 offset val s
        else if w =? Int32 then write32 offset val s
        else if w =? Int64 then write64 offset val s
        else AssertFail
      else write_at_general offset value s
  | _ => write_at_general offset value s
  end.

Definition write (offset value : Expr) (s : ObjectState) : outcome ObjectState :=
  offset ← ZExtExpr_create offset Int32;
  match offset with
  | ConstantExpr CE => o ← ConstantExpr_getZExtValue CE 32; write_at o value s
  | _ =>
      if getWidth value =? Bool then e ← ZExtExpr_create value Int8; write8_symbolic offset e s
      else
        write_word (fun idx b s =>
          i ← ConstantExpr_create idx Int32;
          o ← AddExpr_create offset (ConstantExpr i);
          write8_symbolic o b s) value s
  end.

End Memory.
