(* ===== verification/MemorySound.v ===== *)
(** What an object contains, and that the operations of Memory.v keep it. *)
From stdpp Require Import base numbers list strings pretty.
From Stdlib Require Import ZArith Lia.
From S2P Require Import Prelude APInt Bits Expr Semantics ConstantOps ExprCreate CreateSound OpsSound SliceSound ReadSound Memory.
Local Open Scope Z_scope.

(** ** Contents *)

(** The value at an index after some updates of contents [f]. *)
Fixpoint updated {AH : ArrayHeap} (ρ : env) (f : Z -> Z) (u : UpdateNode) (i : Z) : Z :=
  match u with
  | UNull => f i
  | UNode next ix v => if eval ρ ix =? i then eval ρ v else updated ρ f next i
  end.

(** An array that does not exist yet has zeros. *)
Definition initial_byte {AH : ArrayHeap} (ρ : env) (root : option positive) (i : Z) : Z :=
  match root with Some r => initial_value ρ r i | None => 0 end.

Definition updates_value {AH : ArrayHeap} (ρ : env) (u : Updates) (i : Z) : Z :=
  updated ρ (initial_byte ρ (up_root u)) (up_head u) i.

Definition concrete_at (s : ObjectState) (i : Z) : bool :=
  match concreteMask s with None => true | Some m => bit m i end.
Definition unflushed_at (s : ObjectState) (i : Z) : bool :=
  match unflushedMask s with None => true | Some m => bit m i end.
Definition known_at (s : ObjectState) (i : Z) : option Expr :=
  match knownSymbolics s with None => None | Some k => mjoin (k !! Z.to_nat i) end.

(** Byte [i] of the object, in an environment. *)
Definition byte {AH : ArrayHeap} (ρ : env) (s : ObjectState) (i : Z) : Z :=
  if concrete_at s i then default 0 (concreteStore s !! Z.to_nat i)
  else match known_at s i with Some e => eval ρ e | None => updates_value ρ (updates s) i end.

(** A byte is cached: concrete or known symbolic. *)
Definition cached (s : ObjectState) (i : Z) : bool :=
  concrete_at s i || match known_at s i with Some _ => true | None => false end.

Definition mask_ok (m : option BitArray) (size : Z) : Prop :=
  match m with None => True | Some b => bits_ok b size end.

Definition byte_expr {AH : ArrayHeap} (e : Expr) : Prop := wf e /\ getWidth e = Int8.

(** Writes of bytes at 32-bit indices; a constant index is inside the object. *)
Fixpoint nodes_ok {AH : ArrayHeap} (size : Z) (u : UpdateNode) : Prop :=
  match u with
  | UNull => True
  | UNode next i v =>
      nodes_ok size next /\ (wf i /\ getWidth i = Int32) /\ byte_expr v /\
      match i with ConstantExpr c => uval c < size | _ => True end
  end.

Definition root_ok {AH : ArrayHeap} (root : option positive) : Prop :=
  match root with
  | Some r => wf_array (array_at r) /\ arr_domain (array_at r) = Int32 /\ arr_range (array_at r) = Int8
  | None => True
  end.

(** The parts of an object state fit together. *)
Record os_shape {AH : ArrayHeap} (s : ObjectState) : Prop := MkShape {
  os_range : 0 <= os_size s < 2 ^ 32;
  os_object : mo_size (object s) = os_size s;
  os_store : Z.of_nat (length (concreteStore s)) = os_size s;
  os_bytes : Forall (fun b => 0 <= b < 2 ^ 8) (concreteStore s);
  os_concrete : mask_ok (concreteMask s) (os_size s);
  os_unflushed : mask_ok (unflushedMask s) (os_size s);
  os_known k : knownSymbolics s = Some k -> Z.of_nat (length k) = os_size s;
  os_known_ok i e : known_at s i = Some e -> byte_expr e;
  os_updates : nodes_ok (os_size s) (up_head (updates s)) /\ root_ok (up_root (updates s))
}.

(** The invariant of an object state: the three clauses of the comment "Cache
    Invariants" of the code, and what a flushed byte means. *)
Record os_ok {AH : ArrayHeap} (s : ObjectState) : Prop := MkOsOk {
  os_ok_shape : os_shape s;
  os_exclusive i : 0 <= i < os_size s -> concrete_at s i = true -> known_at s i = None;
  os_cached i : 0 <= i < os_size s -> unflushed_at s i = true -> cached s i = true;
  os_coherent i ρ : 0 <= i < os_size s -> unflushed_at s i = false -> updates_value ρ (updates s) i = byte ρ s i
}.
#[export] Hint Resolve os_ok_shape : core.

(** The same object with the same contents. *)
Record same_contents {AH : ArrayHeap} (s s' : ObjectState) : Prop := MkSame {
  same_owner : copyOnWriteOwner s' = copyOnWriteOwner s;
  same_object : object s' = object s;
  same_size : os_size s' = os_size s;
  same_readOnly : readOnly s' = readOnly s;
  same_byte ρ i : 0 <= i < os_size s -> byte ρ s' i = byte ρ s i
}.

Lemma same_contents_refl {AH : ArrayHeap} s : same_contents s s.
Proof. by split. Qed.

Lemma same_contents_trans {AH : ArrayHeap} s s' s'' : same_contents s s' -> same_contents s' s'' -> same_contents s s''.
Proof.
  intros [O B S R H] [O' B' S' R' H']. split; try congruence. intros ρ i Hi. rewrite H', H; [done|done|congruence].
Qed.

(** Where the marks of two states agree, so do the cached bytes. *)
Lemma byte_ext {AH : ArrayHeap} ρ s s' i :
  concrete_at s' i = concrete_at s i -> known_at s' i = known_at s i ->
  concreteStore s' !! Z.to_nat i = concreteStore s !! Z.to_nat i ->
  (cached s i = false -> updates_value ρ (updates s') i = updates_value ρ (updates s) i) -> byte ρ s' i = byte ρ s i.
Proof.
  intros Hc Hk Hs Hu. unfold byte, cached in *. rewrite Hc, Hk, Hs. destruct (concrete_at s i); [done|].
  destruct (known_at s i); [done|]. by apply Hu.
Qed.

Section Sound.
Context {AP : APIntOps} {APL : APIntLaws} {AH : ArrayHeap} {OP : ExprOptions} {TC : TargetContext} {MO : MemoryOptions}.
Context {AC : ArrayCache} {ACL : ArrayCacheLaws}.
Context (default_opt : ConstArrayOpt = false).

(** ** Update lists *)

Lemma eval_read_updated ρ r u i : eval_read ρ r u i = updated ρ (initial_value ρ r) u i.
Proof. induction u as [|next IH ix v] using UpdateNode_ind; cbn; [done|]. by rewrite IH. Qed.

Lemma wf_updates_nodes r u size : arr_domain (array_at r) = Int32 -> arr_range (array_at r) = Int8 ->
  nodes_ok size u -> wf_updates r u.
Proof.
  intros Hd Hr. induction u as [|next IH ix v] using UpdateNode_ind; cbn; [done|].
  intros (Hn & [Hi Hwi] & [Hv Hwv] & _). rewrite Hd, Hr. split_and!; auto.
Qed.

Definition updates_ok (size : Z) (u : Updates) : Prop := nodes_ok size (up_head u) /\ root_ok (up_root u).

Lemma Updates_extend_ok size u i v : updates_ok size u -> wf i -> getWidth i = Int32 -> byte_expr v ->
  (forall c, i = ConstantExpr c -> uval c < size) ->
  Updates_extend u i v = Done (MkUpdates (up_root u) (UNode (up_head u) i v)) /\
  updates_ok size (MkUpdates (up_root u) (UNode (up_head u) i v)) /\
  forall ρ j, updates_value ρ (MkUpdates (up_root u) (UNode (up_head u) i v)) j =
    if eval ρ i =? j then eval ρ v else updates_value ρ u j.
Proof.
  intros [Hn Hr] Hi Hwi [Hv Hwv] Hc. split_and!; [|split; [|done]|done].
  - unfold Updates_extend. destruct (up_root u) as [r|]; [|done]. destruct Hr as (Ha & Hd & Hg).
    unfold UpdateList_extend. cbn [ul_root ul_head]. rewrite Hd, Hg, Hwi, Hwv. done.
  - cbn. split_and!; try done. destruct i; naive_solver.
Qed.

(** The updates as a list, oldest first. *)
Fixpoint written (ρ : env) (f : Z -> Z) (ws : list (Expr * Expr)) (i : Z) : Z :=
  match ws with
  | [] => f i
  | w :: ws => written ρ (fun j => if eval ρ w.1 =? j then eval ρ w.2 else f j) ws i
  end.

Definition entry_ok (size : Z) (w : Expr * Expr) : Prop :=
  (wf w.1 /\ getWidth w.1 = Int32) /\ byte_expr w.2 /\ match w.1 with ConstantExpr c => uval c < size | _ => True end.

Lemma written_app ρ f ws vs i : written ρ f (ws ++ vs) i = written ρ (written ρ f ws) vs i.
Proof. revert f. induction ws as [|w ws IH]; intros f; cbn; [done|]. apply IH. Qed.

Lemma written_ext ρ f g ws i : f i = g i -> written ρ f ws i = written ρ g ws i.
Proof. revert f g. induction ws as [|w ws IH]; intros f g H; cbn; [done|]. apply IH. by rewrite H. Qed.

Lemma updated_written ρ f u i : updated ρ f u i = written ρ f (Writes u) i.
Proof.
  revert i. induction u as [|next IH ix v] using UpdateNode_ind; intros i; cbn; [done|].
  rewrite written_app. cbn. by rewrite IH.
Qed.

Lemma Writes_ok size u : nodes_ok size u -> Forall (entry_ok size) (Writes u).
Proof.
  induction u as [|next IH ix v] using UpdateNode_ind; cbn; [constructor|]. intros (Hn & Hi & Hv & Hc).
  apply Forall_app. split; [auto|]. by apply Forall_singleton.
Qed.

Definition contents_value (contents : list APInt) (i : Z) : Z :=
  match contents !! Z.to_nat i with Some v => uval v | None => 0 end.

Definition contents_ok (contents : list APInt) : Prop := Forall (fun v => wf_apint v /\ getBitWidth v = Int8) contents.

Lemma pull_concrete_ok size ws contents : Forall (entry_ok size) ws -> contents_ok contents ->
  Z.of_nat (length contents) = size ->
  exists contents' rest, pull_concrete ws contents = Done (contents', rest) /\
    Z.of_nat (length contents') = size /\ contents_ok contents' /\ Forall (entry_ok size) rest /\
    forall ρ i, 0 <= i -> written ρ (contents_value contents') rest i = written ρ (contents_value contents) ws i.
Proof.
  intros Hws. revert contents. induction Hws as [|[i v] ws Hw Hws IH]; intros contents Hc Hl; [by exists contents, []|].
  pose proof Hw as ([Hi Hwi] & [Hv Hwv] & Hlt). cbn in Hi, Hwi, Hv, Hwv, Hlt.
  destruct i as [i| | | | | | | |]; cbn [pull_concrete]; try (by eexists _, _; split_and!; [done..|by constructor|]).
  destruct v as [v| | | | | | | |]; try (by eexists _, _; split_and!; [done..|by constructor|]).
  pose proof Hi as [_ Hir]. cbn in Hwi, Hwv. rewrite Hwi in Hir. unfold Int32 in Hir.
  unfold ConstantExpr_getZExtValue. rewrite Hwi. cbn [Z.leb]. change (Int32 <=? 64) with true. cbn [mbind outcome_bind].
  rewrite ap_getZExtValue_spec by lia. destruct (lookup_lt_is_Some_2 contents (Z.to_nat (uval i))) as [x Hx]; [lia|].
  rewrite Hx. cbn [deref mbind outcome_bind].
  destruct (IH (<[Z.to_nat (uval i) := v]> contents)) as (c' & rest & E & Hl' & Hc' & Hr' & Hv').
  - by apply Forall_insert.
  - by rewrite length_insert.
  - exists c', rest. split_and!; try done. intros ρ j Hj. rewrite Hv' by done. cbn. apply written_ext. cbn.
    unfold contents_value. destruct (Z.eqb_spec (uval i) j) as [<-|Hne].
    + by rewrite list_lookup_insert_eq by lia.
    + by rewrite list_lookup_insert_ne by lia.
Qed.

Lemma extend_all_ok size u ws : updates_ok size u -> Forall (entry_ok size) ws ->
  exists u', extend_all u ws = Done u' /\ updates_ok size u' /\ up_root u' = up_root u /\
    forall ρ i, updates_value ρ u' i = written ρ (updates_value ρ u) ws i.
Proof.
  intros Hu Hws. revert u Hu. induction Hws as [|[i v] ws ([Hi Hwi] & Hv & Hlt) Hws IH]; intros u Hu; [by exists u|].
  cbn in Hi, Hwi, Hv, Hlt. destruct (Updates_extend_ok size u i v Hu Hi Hwi Hv) as (E & Hu' & Hval); [by intros c ->|].
  cbn [extend_all]. rewrite E. cbn [mbind outcome_bind]. destruct (IH _ Hu') as (u' & -> & Hok & Hr & Hval').
  exists u'. split_and!; [done..|]. intros ρ j. rewrite Hval'. cbn. apply written_ext. apply Hval.
Qed.

(** The lazily created array has the contents that were written to it. *)
Lemma create_array_root name size contents : 0 <= size < 2 ^ 32 -> Z.of_nat (length contents) = size ->
  contents_ok contents -> root_ok (Some (CreateArray name size contents)) /\
  forall ρ i, 0 <= i < size -> initial_byte ρ (Some (CreateArray name size contents)) i = contents_value contents i.
Proof.
  intros Hs Hl Hc. unfold root_ok, initial_byte, initial_value. rewrite CreateArray_spec. cbn.
  split; [split_and!; cbn; try done; unfold Int8; lia|]. intros ρ i Hi.
  unfold isConstantArray, isSymbolicArray. cbn. destruct contents as [|v contents]; [cbn in Hl; lia|]. cbn [negb].
  by rewrite (proj2 (Z.ltb_lt i size)) by lia.
Qed.

Lemma getUpdates_ok s id : os_ok s -> exists ul s' id', getUpdates s id = Done (ul, s', id') /\
  s' = with_updates (MkUpdates (Some (ul_root ul)) (ul_head ul)) s /\
  updates_ok (os_size s) (updates s') /\
  forall ρ i, 0 <= i < os_size s -> updates_value ρ (updates s') i = updates_value ρ (updates s) i.
Proof.
  intros Hs. destruct (os_updates _ (os_ok_shape _ Hs)) as [Hn Hr]. unfold getUpdates. destruct (up_root (updates s)) as [r|] eqn:Er.
  { eexists _, _, _. split; [done|]. cbn [ul_root ul_head]. split.
    - rewrite <- Er. by destruct s as [? ? ? ? ? ? [? ?] ? ?].
    - split; [|done]. split; [done|]. by rewrite Er. }
  unfold Int8. rewrite ConstantExpr_create_0 by done. cbn [mbind outcome_bind].
  set (zeros := replicate _ _). pose proof (os_range _ (os_ok_shape _ Hs)) as Hsz.
  destruct (pull_concrete_ok (os_size s) (Writes (up_head (updates s))) zeros) as (c & rest & -> & Hl & Hc & Hrest & Hval).
  { by apply Writes_ok. }
  { apply Forall_replicate. split; [split; cbn; lia|done]. }
  { unfold zeros. rewrite length_replicate. lia. }
  cbn [mbind outcome_bind]. set (array := CreateArray _ _ _).
  destruct (create_array_root ("const_arr" +:+ pretty (u32 (id + 1))) (os_size s) c Hsz Hl Hc) as [Hroot Hinit]. fold array in Hroot, Hinit.
  destruct (extend_all_ok (os_size s) (MkUpdates (Some array) UNull) rest) as (u & -> & Hu & Hur & Huv); [by split|done|].
  cbn [mbind outcome_bind]. eexists _, _, _. split; [done|]. cbn [ul_root ul_head with_updates updates].
  cbn in Hur. assert (MkUpdates (Some array) (up_head u) = u) as -> by (destruct u; cbn in *; congruence).
  split_and!; [done|apply Hu..|]. intros ρ i Hi. rewrite Huv. unfold updates_value at 1. cbn [up_head up_root updated].
  rewrite (written_ext ρ _ (contents_value c)) by (cbn; by apply Hinit). rewrite Hval by lia.
  unfold updates_value. rewrite updated_written, Er. apply written_ext. unfold contents_value, zeros. cbn.
  rewrite lookup_replicate_2 by lia. done.
Qed.

(** ** Marks *)

Lemma isByteConcrete_ok s i : os_shape s -> 0 <= i < os_size s -> isByteConcrete s i = Done (concrete_at s i).
Proof.
  intros Hs Hi. unfold isByteConcrete, concrete_at. pose proof (os_concrete _ Hs).
  destruct (concreteMask s); [by eapply BitArray_get_ok|done].
Qed.

Lemma isByteUnflushed_ok s i : os_shape s -> 0 <= i < os_size s -> isByteUnflushed s i = Done (unflushed_at s i).
Proof.
  intros Hs Hi. unfold isByteUnflushed, unflushed_at. pose proof (os_unflushed _ Hs).
  destruct (unflushedMask s); [by eapply BitArray_get_ok|done].
Qed.

Lemma known_lookup s k i : os_shape s -> knownSymbolics s = Some k -> 0 <= i < os_size s -> is_Some (k !! Z.to_nat i).
Proof. intros Hs Hk Hi. apply lookup_lt_is_Some. pose proof (os_known _ Hs k Hk). lia. Qed.

Lemma knownSymbolic_ok s i : os_shape s -> 0 <= i < os_size s -> knownSymbolic s i = Done (known_at s i).
Proof.
  intros Hs Hi. unfold knownSymbolic, known_at. destruct (knownSymbolics s) as [k|] eqn:Ek; [|done].
  destruct (known_lookup s k i Hs Ek Hi) as [x ->]. done.
Qed.

Lemma markByteSymbolic_ok s i : os_shape s -> 0 <= i < os_size s ->
  exists m, markByteSymbolic i s = Done (with_concreteMask (Some m) s) /\ bits_ok m (os_size s) /\
    forall j, 0 <= j < os_size s -> bit m j = if j =? i then false else concrete_at s j.
Proof.
  intros Hs Hi. unfold markByteSymbolic. pose proof (os_concrete _ Hs) as Hc. pose proof (os_range _ Hs).
  destruct (BitArray_new_ok (os_size s) true) as [Hn Hb]; [lia|].
  destruct (BitArray_unset_ok (default (BitArray_new (os_size s) true) (concreteMask s)) (os_size s) i) as (m & -> & Hm & Hbit);
    [by destruct (concreteMask s)|done|].
  exists m. split_and!; [done..|]. intros j Hj. rewrite Hbit by lia. unfold concrete_at.
  destruct (concreteMask s); cbn; [done|by rewrite Hb].
Qed.

Lemma markByteConcrete_ok s i : os_shape s -> 0 <= i < os_size s ->
  exists m, markByteConcrete i s = Done (with_concreteMask m s) /\ mask_ok m (os_size s) /\
    forall j, 0 <= j < os_size s -> concrete_at (with_concreteMask m s) j = if j =? i then true else concrete_at s j.
Proof.
  intros Hs Hi. unfold markByteConcrete, concrete_at. pose proof (os_concrete _ Hs) as Hc. cbn [concreteMask with_concreteMask].
  destruct (concreteMask s) as [m|] eqn:Em.
  - destruct (BitArray_set_ok m (os_size s) i Hc Hi) as (m' & -> & Hm & Hb). exists (Some m'). split_and!; [done..|].
    intros j Hj. apply Hb. lia.
  - exists None. split_and!; [by destruct s; cbn in *; subst|done|]. intros j _. by destruct (j =? i).
Qed.

Lemma markByteUnflushed_ok s i : os_shape s -> 0 <= i < os_size s ->
  exists m, markByteUnflushed i s = Done (with_unflushedMask m s) /\ mask_ok m (os_size s) /\
    forall j, 0 <= j < os_size s -> unflushed_at (with_unflushedMask m s) j = if j =? i then true else unflushed_at s j.
Proof.
  intros Hs Hi. unfold markByteUnflushed, unflushed_at. pose proof (os_unflushed _ Hs) as Hc. cbn [unflushedMask with_unflushedMask].
  destruct (unflushedMask s) as [m|] eqn:Em.
  - destruct (BitArray_set_ok m (os_size s) i Hc Hi) as (m' & -> & Hm & Hb). exists (Some m'). split_and!; [done..|].
    intros j Hj. apply Hb. lia.
  - exists None. split_and!; [by destruct s; cbn in *; subst|done|]. intros j _. by destruct (j =? i).
Qed.

Lemma unset_unflushed_ok s i m : os_shape s -> unflushedMask s = Some m -> 0 <= i < os_size s ->
  exists m', unset_unflushed i s = Done (with_unflushedMask (Some m') s) /\ bits_ok m' (os_size s) /\
    forall j, 0 <= j < os_size s -> bit m' j = if j =? i then false else unflushed_at s j.
Proof.
  intros Hs Hm Hi. unfold unset_unflushed, unflushed_at. pose proof (os_unflushed _ Hs) as Hc. rewrite Hm in *.
  destruct (BitArray_unset_ok m (os_size s) i Hc Hi) as (m' & -> & Hm' & Hb). exists m'. split_and!; [done..|].
  intros j Hj. apply Hb. lia.
Qed.

Lemma known_at_insert (k : list (option Expr)) i v j : 0 <= i < Z.of_nat (length k) -> 0 <= j ->
  mjoin (<[Z.to_nat i := v]> k !! Z.to_nat j) = if j =? i then v else mjoin (k !! Z.to_nat j).
Proof.
  intros Hi Hj. destruct (Z.eqb_spec j i) as [-> |Hne].
  - by rewrite list_lookup_insert_eq by lia.
  - by rewrite list_lookup_insert_ne by lia.
Qed.

Lemma setKnownSymbolic_ok s i v : os_shape s -> 0 <= i < os_size s ->
  exists k, setKnownSymbolic i v s = Done (with_knownSymbolics k s) /\
    (forall l, k = Some l -> Z.of_nat (length l) = os_size s) /\
    forall j, 0 <= j -> known_at (with_knownSymbolics k s) j = if j =? i then v else known_at s j.
Proof.
  intros Hs Hi. unfold setKnownSymbolic, known_at. cbn [knownSymbolics with_knownSymbolics].
  destruct (knownSymbolics s) as [l|] eqn:El.
  - pose proof (os_known _ Hs l El) as Hl. unfold set_known. destruct (known_lookup s l i Hs El Hi) as [x ->]. cbn.
    eexists. split; [done|]. split; [intros ? [= <-]; by rewrite length_insert|]. intros j Hj. apply known_at_insert; lia.
  - destruct v as [e|].
    + unfold set_known. rewrite lookup_replicate_2 by lia. cbn. eexists. split; [done|]. split.
      * intros ? [= <-]. rewrite length_insert, length_replicate. lia.
      * intros j Hj. rewrite known_at_insert by (rewrite ?length_replicate; lia). destruct (j =? i); [done|].
        by destruct (replicate _ _ !! Z.to_nat j) as [x|] eqn:E; [apply lookup_replicate in E as [-> _]|].
    + exists None. split_and!; [by destruct s; cbn in *; subst|done|]. intros j _. by destruct (j =? i).
Qed.

(** Changing one part keeps the shape. *)
Lemma shape_concreteMask m s : os_shape s -> mask_ok m (os_size s) -> os_shape (with_concreteMask m s).
Proof. intros [] Hm. by split. Qed.

Lemma shape_unflushedMask m s : os_shape s -> mask_ok m (os_size s) -> os_shape (with_unflushedMask m s).
Proof. intros [] Hm. by split. Qed.

Lemma shape_updates u s : os_shape s -> updates_ok (os_size s) u -> os_shape (with_updates u s).
Proof. intros [] Hu. by split. Qed.

Lemma shape_knownSymbolics k s : os_shape s -> (forall l, k = Some l -> Z.of_nat (length l) = os_size s) ->
  (forall i e, known_at (with_knownSymbolics k s) i = Some e -> byte_expr e) -> os_shape (with_knownSymbolics k s).
Proof. intros [] Hl Hk. by split. Qed.

Lemma shape_concreteStore c s : os_shape s -> length c = length (concreteStore s) -> Forall (fun b => 0 <= b < 2 ^ 8) c ->
  os_shape (with_concreteStore c s).
Proof. intros [] Hl Hc. split; try done. cbn. by rewrite Hl. Qed.

(** ** Flushing *)

Lemma index_const i : 0 <= i < 2 ^ 32 -> ConstantExpr_create i Int32 = Done (MkAPInt 32 i).
Proof. intros Hi. apply ConstantExpr_create_spec; unfold Int32; lia. Qed.

Lemma cached_byte_ok s i : os_shape s -> 0 <= i < os_size s -> cached s i = true ->
  exists e, cached_byte s i = Done e /\ byte_expr e /\ forall ρ, eval ρ e = byte ρ s i.
Proof.
  intros Hs Hi Hc. unfold cached_byte, byte. rewrite isByteConcrete_ok by done. unfold cached in Hc. cbn [mbind outcome_bind].
  destruct (concrete_at s i).
  - destruct (lookup_lt_is_Some_2 (concreteStore s) (Z.to_nat i)) as [b Hb]; [pose proof (os_store _ Hs); lia|].
    rewrite Hb. cbn [deref mbind outcome_bind]. pose proof (os_bytes _ Hs) as Hf. rewrite Forall_lookup in Hf. pose proof (Hf _ _ Hb).
    rewrite ConstantExpr_create_spec by (unfold Int8; lia). cbn. eexists. split; [done|]. split; [|done]. split; [|done]. by split.
  - rewrite knownSymbolic_ok by done. cbn [mbind outcome_bind]. destruct (known_at s i) as [e|] eqn:Ek; [|done].
    exists e. split; [done|]. split; [by eapply os_known_ok|done].
Qed.

Lemma flush_byte_ok s i : os_shape s -> 0 <= i < os_size s -> cached s i = true ->
  exists u, flush_byte i s = Done (with_updates u s) /\ updates_ok (os_size s) u /\
    forall ρ j, updates_value ρ u j = if i =? j then byte ρ s i else updates_value ρ (updates s) j.
Proof.
  intros Hs Hi Hc. unfold flush_byte. pose proof (os_range _ Hs). rewrite index_const by lia. cbn [mbind outcome_bind].
  destruct (cached_byte_ok s i Hs Hi Hc) as (e & -> & He & Hv). cbn [mbind outcome_bind].
  destruct (Updates_extend_ok (os_size s) (updates s) (ConstantExpr (MkAPInt 32 i)) e) as (E & Hu & Hval).
  - apply os_updates, Hs.
  - split; cbn; lia.
  - done.
  - done.
  - intros c [= <-]. cbn. lia.
  - rewrite E. cbn [mbind outcome_bind]. eexists. split_and!; [done|done|]. intros ρ j. rewrite Hval, Hv. done.
Qed.

(** The parts of the invariant depend on the marks of each byte and its contents. *)
Lemma need_mask_ok s : os_ok s -> os_ok (need_unflushedMask s) /\ same_contents s (need_unflushedMask s) /\
  exists m, unflushedMask (need_unflushedMask s) = Some m.
Proof.
  intros Hs. unfold need_unflushedMask. destruct (unflushedMask s) as [m|] eqn:Em; [split_and!; [done|done|by exists m]|].
  pose proof (os_range _ (os_ok_shape _ Hs)). destruct (BitArray_new_ok (os_size s) true) as [Hn Hb]; [lia|].
  split; [|split; [by split|by eexists]].
  split; [apply shape_unflushedMask; auto| | |].
  - apply (os_exclusive _ Hs).
  - intros i Hi _. apply (os_cached _ Hs i Hi). unfold unflushed_at. by rewrite Em.
  - intros i ρ Hi Hf. unfold unflushed_at in Hf. cbn in Hf. by rewrite Hb in Hf.
Qed.

(** One byte of the loop of [flushRangeForRead]. *)
Lemma flush_read_step s i m : os_ok s -> unflushedMask s = Some m -> 0 <= i < os_size s -> unflushed_at s i = true ->
  exists s', (s ← flush_byte i s; unset_unflushed i s) = Done s' /\ os_ok s' /\ same_contents s s' /\
    concreteMask s' = concreteMask s /\ knownSymbolics s' = knownSymbolics s /\ (exists m', unflushedMask s' = Some m') /\
    forall j, 0 <= j < os_size s -> unflushed_at s' j = if j =? i then false else unflushed_at s j.
Proof.
  intros Hs Hm Hi Hu. pose proof (os_cached _ Hs i Hi Hu) as Hc. pose proof (os_ok_shape _ Hs) as Hsh.
  destruct (flush_byte_ok s i Hsh Hi Hc) as (u & -> & Hok & Hval). cbn [mbind outcome_bind].
  assert (os_shape (with_updates u s)) as Hsh1 by by apply shape_updates.
  destruct (unset_unflushed_ok (with_updates u s) i m Hsh1 Hm Hi) as (m' & -> & Hm' & Hb). cbn [os_size with_updates] in *.
  set (s' := with_unflushedMask _ _).
  assert (forall ρ j, byte ρ s' j = byte ρ s j) as Hbyte.
  { intros ρ j. apply byte_ext; [done..|]. intros Hcj. cbn. rewrite Hval. destruct (Z.eqb_spec i j) as [<-|]; [|done]. by rewrite Hc in Hcj. }
  exists s'. split_and!; [done| |by split|done|done|by eexists|exact Hb].
  split; [apply shape_unflushedMask; auto|apply (os_exclusive _ Hs)| |].
  - intros j Hj Huj. apply (os_cached _ Hs j Hj). cbn in Huj, Hj. rewrite (Hb j Hj) in Huj. by destruct (j =? i).
  - intros j ρ Hj Huj. cbn in Huj, Hj. rewrite (Hb j Hj) in Huj. rewrite Hbyte. cbn. rewrite Hval.
    destruct (Z.eqb_spec i j) as [<-|Hne]; [done|]. destruct (Z.eqb_spec j i); [lia|]. by apply (os_coherent _ Hs).
Qed.

Lemma flush_read_loop n i s m : os_ok s -> unflushedMask s = Some m -> 0 <= i -> i + Z.of_nat n <= os_size s ->
  exists s', flushRangeForRead_loop n i s = Done s' /\ os_ok s' /\ same_contents s s' /\
    forall j, 0 <= j < os_size s -> unflushed_at s' j = unflushed_at s j && negb ((i <=? j) && (j <? i + Z.of_nat n)).
Proof.
  revert i s m. induction n as [|n IH]; intros i s m Hs Hm Hi Hn.
  { exists s. split_and!; [done|done|apply same_contents_refl|]. intros j Hj.
    destruct (Z.leb_spec i j), (Z.ltb_spec j (i + Z.of_nat 0)); try lia; by rewrite andb_true_r. }
  cbn [flushRangeForRead_loop]. rewrite isByteUnflushed_ok by (auto; lia). cbn [mbind outcome_bind].
  assert (exists s1, (if unflushed_at s i then s ← flush_byte i s; unset_unflushed i s else Done s) = Done s1 /\ os_ok s1 /\
    same_contents s s1 /\ (exists m', unflushedMask s1 = Some m') /\
    forall j, 0 <= j < os_size s -> unflushed_at s1 j = if j =? i then false else unflushed_at s j) as
    (s1 & -> & Hs1 & Hsame & (m1 & Hm1) & Hu1).
  { destruct (unflushed_at s i) eqn:Eu.
    { destruct (flush_read_step s i m Hs Hm ltac:(lia) Eu) as (s1 & ? & ? & ? & _ & _ & ? & ?). by exists s1. }
    exists s. split_and!; [done|done|apply same_contents_refl|by eexists|]. intros j Hj. destruct (Z.eqb_spec j i) as [-> |]; done. }
  cbn [mbind outcome_bind]. pose proof (same_size _ _ Hsame) as Hsz.
  destruct (IH (i + 1) s1 m1 Hs1 Hm1) as (s2 & -> & Hs2 & Hsame2 & Hu2); [lia|lia|].
  exists s2. split_and!; [done|done|by eapply same_contents_trans|]. intros j Hj. rewrite Hu2, Hu1 by lia.
  destruct (Z.eqb_spec j i) as [-> |Hne]; cbn [andb].
  - rewrite (proj2 (Z.leb_le i i)), (proj2 (Z.ltb_lt _ _)) by lia. by rewrite andb_false_r.
  - f_equal. f_equal. destruct (Z.leb_spec (i + 1) j), (Z.leb_spec i j); try lia; cbn; try done; f_equal; lia.
Qed.

(** Afterwards the update list has all the contents. *)
Lemma flushRangeForRead_ok s : os_ok s -> exists s', flushRangeForRead 0 (os_size s) s = Done s' /\ os_ok s' /\
  same_contents s s' /\ forall ρ j, 0 <= j < os_size s -> updates_value ρ (updates s') j = byte ρ s j.
Proof.
  intros Hs. unfold flushRangeForRead. pose proof (os_range _ (os_ok_shape _ Hs)).
  destruct (need_mask_ok s Hs) as (Hs0 & Hsame & m & Hm). pose proof (same_size _ _ Hsame) as Hsz.
  destruct (flush_read_loop (Z.to_nat (os_size s)) 0 _ m Hs0 Hm) as (s' & -> & Hs' & Hsame' & Hu); [lia|lia|].
  exists s'. split_and!; [done|done|by eapply same_contents_trans|]. intros ρ j Hj. pose proof (same_size _ _ Hsame').
  rewrite (os_coherent _ Hs') by (try lia; rewrite Hu by lia; rewrite (proj2 (Z.leb_le 0 j)), (proj2 (Z.ltb_lt _ _)) by lia; by rewrite andb_false_r).
  rewrite (same_byte _ _ Hsame') by lia. by apply same_byte.
Qed.

(** Another update list with the same contents. *)
Lemma os_ok_updates s u : os_ok s -> updates_ok (os_size s) u ->
  (forall ρ i, 0 <= i < os_size s -> updates_value ρ u i = updates_value ρ (updates s) i) ->
  os_ok (with_updates u s) /\ same_contents s (with_updates u s).
Proof.
  intros Hs Hu Hval.
  assert (forall ρ i, 0 <= i < os_size s -> byte ρ (with_updates u s) i = byte ρ s i) as Hbyte.
  { intros ρ i Hi. apply byte_ext; [done..|]. intros _. by apply Hval. }
  split; [|by split]. split; [apply shape_updates; auto|apply (os_exclusive _ Hs)|apply (os_cached _ Hs)|].
  intros i ρ Hi Hf. rewrite Hbyte by done. cbn. rewrite Hval by done. by apply (os_coherent _ Hs).
Qed.

(** A read of the update list, at an index inside the object. *)
Lemma read_updates_ok s id index : os_ok s -> wf index -> getWidth index = Int32 ->
  exists e s' id', ('(ul, s, id) ← getUpdates s id; e ← ReadExpr_create ul index; Done (e, s, id)) = Done (e, s', id') /\
    byte_expr e /\ os_ok s' /\ same_contents s s' /\
    forall ρ, eval ρ index < os_size s -> eval ρ e = updates_value ρ (updates s) (eval ρ index).
Proof.
  intros Hs Hi Hw. destruct (getUpdates_ok s id Hs) as (ul & s' & id' & -> & Es & Hu & Hval).
  cbn [mbind outcome_bind]. assert (updates s' = MkUpdates (Some (ul_root ul)) (ul_head ul)) as Eu by (by subst).
  rewrite Eu in *. destruct Hu as [Hn (Ha & Hd & Hr)]. cbn [up_root up_head] in *.
  destruct (ReadExpr_create_ok default_opt (ul_root ul) (ul_head ul) index) as (e & Ee & He & Hwe & Hv).
  { cbn. split_and!; try done; [by eapply wf_updates_nodes|congruence]. }
  destruct ul as [r u]. cbn [ul_root ul_head] in *. rewrite Ee. cbn [mbind outcome_bind].
  destruct (os_ok_updates s (MkUpdates (Some r) u) Hs) as [Hs' Hsame]; [by split|done|].
  exists e, s', id'. subst s'. split_and!; [done|split; [done|congruence]|done..|].
  intros ρ Hlt. rewrite Hv. cbn [eval]. rewrite <- Hval; [by rewrite eval_read_updated|].
  pose proof (eval_range index ρ Hi). lia.
Qed.

Lemma read8_ok s id i : os_ok s -> 0 <= i < os_size s -> exists e s' id', read8 s id i = Done (e, s', id') /\
  byte_expr e /\ os_ok s' /\ same_contents s s' /\ forall ρ, eval ρ e = byte ρ s i.
Proof.
  intros Hs Hi. pose proof (os_ok_shape _ Hs) as Hsh. pose proof (os_range _ Hsh). unfold read8.
  rewrite isByteConcrete_ok by done. cbn [mbind outcome_bind]. destruct (concrete_at s i) eqn:Ec.
  { destruct (cached_byte_ok s i Hsh Hi) as (e & -> & He & Hv); [unfold cached; by rewrite Ec|].
    exists e, s, id. split_and!; [done..|apply same_contents_refl|done]. }
  rewrite knownSymbolic_ok by done. cbn [mbind outcome_bind]. destruct (known_at s i) as [e|] eqn:Ek.
  { exists e, s, id. split_and!; [done|by eapply os_known_ok|done|apply same_contents_refl|]. intros ρ. unfold byte. by rewrite Ec, Ek. }
  rewrite isByteUnflushed_ok by done. cbn [mbind outcome_bind]. destruct (unflushed_at s i) eqn:Eu.
  { pose proof (os_cached _ Hs i Hi Eu) as Hc. unfold cached in Hc. by rewrite Ec, Ek in Hc. }
  cbn [negb]. rewrite index_const by lia.
  destruct (read_updates_ok s id (ConstantExpr (MkAPInt 32 i)) Hs) as (e & s' & id' & E & He & Hs' & Hsame & Hv); [split; cbn; lia|done|].
  exists e, s', id'. split_and!; [|done..|].
  - rewrite <- E. by destruct (getUpdates s id) as [[[ul s1] id1]| | |].
  - intros ρ. rewrite Hv by (cbn; lia). cbn. unfold byte. by rewrite Ec, Ek.
Qed.

Lemma ZExt_same e : getWidth e = Int32 -> ZExtExpr_create e Int32 = Done e.
Proof. intros Hw. unfold ZExtExpr_create. by rewrite Hw, Z.eqb_refl. Qed.

Lemma read8_symbolic_ok s id o : os_ok s -> wf o -> getWidth o = Int32 -> is_constant o = false ->
  exists e s' id', read8_symbolic s id o = Done (e, s', id') /\ byte_expr e /\ os_ok s' /\ same_contents s s' /\
    forall ρ, eval ρ o < os_size s -> eval ρ e = byte ρ s (eval ρ o).
Proof.
  intros Hs Ho Hw Hc. unfold read8_symbolic. rewrite Hc. cbn [negb fastRangeCheckOffset].
  destruct (flushRangeForRead_ok s Hs) as (s1 & -> & Hs1 & Hsame1 & Hval). cbn [mbind outcome_bind].
  destruct (read_updates_ok s1 id o Hs1 Ho Hw) as (e & s' & id' & E & He & Hs' & Hsame & Hv).
  exists e, s', id'. rewrite ZExt_same by done. pose proof (same_size _ _ Hsame1). split_and!; [|done..|by eapply same_contents_trans|].
  - rewrite <- E. by destruct (getUpdates s1 id) as [[[ul s2] id1]| | |].
  - intros ρ Hlt. rewrite Hv by lia. apply Hval. pose proof (eval_range o ρ Ho). lia.
Qed.

(** ** Writing bytes *)

(** A byte that is only in the update list. *)
Definition settled (s : ObjectState) (i : Z) : bool := negb (cached s i) && negb (unflushed_at s i).

Lemma cached_or s i : cached s i = false <-> concrete_at s i = false /\ known_at s i = None.
Proof. unfold cached. destruct (concrete_at s i), (known_at s i); cbn; naive_solver. Qed.

(** Dropping the cache of a flushed byte. *)
Lemma uncache_ok s s' i : os_ok s -> os_shape s' -> 0 <= i < os_size s ->
  copyOnWriteOwner s' = copyOnWriteOwner s -> object s' = object s -> os_size s' = os_size s -> readOnly s' = readOnly s ->
  updates s' = updates s -> concreteStore s' = concreteStore s -> unflushed_at s i = false ->
  (forall j, 0 <= j < os_size s -> unflushed_at s' j = unflushed_at s j) ->
  (forall j, 0 <= j < os_size s -> j <> i -> concrete_at s' j = concrete_at s j /\ known_at s' j = known_at s j) ->
  cached s' i = false -> os_ok s' /\ same_contents s s'.
Proof.
  intros Hs Hsh Hi Eo Eb Es Er Eu Ec Hf Hun Hj Hci. pose proof Hci as [Hcc Hck]%cached_or.
  assert (forall ρ j, 0 <= j < os_size s -> byte ρ s' j = byte ρ s j) as Hbyte.
  { intros ρ j Hr. destruct (Z.eq_dec j i) as [-> |Hne].
    - rewrite <- (os_coherent _ Hs) by done. unfold byte. by rewrite Hcc, Hck, Eu.
    - destruct (Hj j Hr Hne). apply byte_ext; [done..|by rewrite Ec|by rewrite Eu]. }
  split; [|by split]. split; [done| | |]; rewrite Es; intros j.
  - intros Hr Hc. destruct (Z.eq_dec j i) as [-> |Hne]; [done|]. destruct (Hj j Hr Hne) as [E ->]. apply (os_exclusive _ Hs); congruence.
  - intros Hr. rewrite Hun by done. intros Hu. destruct (Z.eq_dec j i) as [-> |Hne]; [congruence|]. destruct (Hj j Hr Hne) as [E1 E2].
    unfold cached. rewrite E1, E2. by apply (os_cached _ Hs).
  - intros ρ Hr. rewrite Hun, Eu by done. intros Hu. rewrite Hbyte by done. by apply (os_coherent _ Hs).
Qed.

(** One byte of the loop of [flushRangeForWrite]. *)
Definition flush_write_step (i : Z) (s : ObjectState) : outcome ObjectState :=
  u ← isByteUnflushed s i;
  c ← isByteConcrete s i;
  if (u : bool) then
    s ← flush_byte i s;
    s ← (if (c : bool) then markByteSymbolic i s else setKnownSymbolic i None s);
    unset_unflushed i s
  else if (c : bool) then markByteSymbolic i s
  else
    k ← isByteKnownSymbolic s i;
    if (k : bool) then setKnownSymbolic i None s else Done s.

(** The part after the flush: the caches of the byte are dropped. *)
Lemma uncache_byte s i : os_ok s -> 0 <= i < os_size s -> unflushed_at s i = false ->
  exists s', (if concrete_at s i then markByteSymbolic i s else setKnownSymbolic i None s) = Done s' /\ os_ok s' /\
    same_contents s s' /\ unflushedMask s' = unflushedMask s /\
    forall j, 0 <= j < os_size s -> cached s' j = if j =? i then false else cached s j.
Proof.
  intros Hs Hi Hf. pose proof (os_ok_shape _ Hs) as Hsh. destruct (concrete_at s i) eqn:Ec.
  - destruct (markByteSymbolic_ok s i Hsh Hi) as (m & -> & Hm & Hb).
    assert (forall j, 0 <= j < os_size s -> cached (with_concreteMask (Some m) s) j = if j =? i then false else cached s j) as Hcd.
    { intros j Hj. unfold cached. change (concrete_at (with_concreteMask (Some m) s) j) with (bit m j).
      change (known_at (with_concreteMask (Some m) s) j) with (known_at s j). rewrite Hb by done.
      destruct (Z.eqb_spec j i) as [-> |]; [|done]. by rewrite (os_exclusive _ Hs i Hi Ec). }
    destruct (uncache_ok s (with_concreteMask (Some m) s) i) as [Hs' Hsame]; try done.
    + by apply shape_concreteMask.
    + intros j Hj Hne. split; [|done]. change (bit m j = concrete_at s j). rewrite Hb by done. by destruct (Z.eqb_spec j i).
    + rewrite Hcd by done. by rewrite Z.eqb_refl.
    + eexists. by split_and!.
  - destruct (setKnownSymbolic_ok s i None Hsh Hi) as (k & -> & Hl & Hk).
    assert (forall j, 0 <= j < os_size s -> cached (with_knownSymbolics k s) j = if j =? i then false else cached s j) as Hcd.
    { intros j Hj. unfold cached. change (concrete_at (with_knownSymbolics k s) j) with (concrete_at s j). rewrite Hk by lia.
      destruct (Z.eqb_spec j i) as [-> |]; [|done]. by rewrite Ec. }
    destruct (uncache_ok s (with_knownSymbolics k s) i) as [Hs' Hsame]; try done.
    + apply shape_knownSymbolics; [done..|]. intros j e. destruct (Z.lt_ge_cases j 0) as [Hneg|Hnn].
      * unfold known_at. cbn. intros E. replace (Z.to_nat j) with (Z.to_nat 0) in E by lia.
        assert (known_at (with_knownSymbolics k s) 0 = Some e) as E0 by done. rewrite Hk in E0 by lia.
        destruct (0 =? i); [done|]. by eapply os_known_ok.
      * rewrite Hk by done. destruct (j =? i); [done|]. by eapply os_known_ok.
    + intros j Hj Hne. split; [done|]. rewrite Hk by lia. by destruct (Z.eqb_spec j i).
    + rewrite Hcd by done. by rewrite Z.eqb_refl.
    + eexists. by split_and!.
Qed.

Lemma unset_commutes i (c : bool) s :
  (s ← (if c then markByteSymbolic i s else setKnownSymbolic i None s); unset_unflushed i s) =
  (s ← unset_unflushed i s; if c then markByteSymbolic i s else setKnownSymbolic i None s).
Proof.
  unfold markByteSymbolic, setKnownSymbolic, unset_unflushed, set_known, BitArray_unset. destruct c.
  - destruct (unflushedMask s) as [m|] eqn:Em; cbn.
    + destruct (default (BitArray_new (os_size s) true) (concreteMask s) !! Z.to_nat (i / 32)) eqn:Ed; cbn; rewrite ?Em;
        destruct (m !! Z.to_nat (i / 32)); cbn; rewrite ?Ed; done.
    + by destruct (default _ _ !! _); cbn; rewrite ?Em.
  - destruct (knownSymbolics s) as [k|] eqn:Ek; [destruct (k !! Z.to_nat i) as [x|] eqn:Ex|];
      destruct (unflushedMask s) as [m|] eqn:Em; cbn; rewrite ?Em, ?Ek; cbn; try done;
      destruct (m !! Z.to_nat (i / 32)); cbn; rewrite ?Ek; cbn; rewrite ?Ex; done.
Qed.

Lemma flush_write_step_ok s i m : os_ok s -> unflushedMask s = Some m -> 0 <= i < os_size s ->
  exists s', flush_write_step i s = Done s' /\ os_ok s' /\ same_contents s s' /\ (exists m', unflushedMask s' = Some m') /\
    forall j, 0 <= j < os_size s -> settled s' j = (j =? i) || settled s j.
Proof.
  intros Hs Hm Hi. pose proof (os_ok_shape _ Hs) as Hsh. unfold flush_write_step.
  rewrite isByteUnflushed_ok, isByteConcrete_ok by done. cbn [mbind outcome_bind].
  assert (forall s1 s', os_size s1 = os_size s -> (forall j, 0 <= j < os_size s -> unflushed_at s1 j = if j =? i then false else unflushed_at s j) ->
    (forall j, 0 <= j < os_size s -> cached s1 j = cached s j) -> unflushedMask s' = unflushedMask s1 ->
    (forall j, 0 <= j < os_size s1 -> cached s' j = if j =? i then false else cached s1 j) ->
    forall j, 0 <= j < os_size s -> settled s' j = (j =? i) || settled s j) as Hset.
  { intros s1 s' Esz Hu Hc1 Eu Hc j Hj. unfold settled. rewrite Hc by lia. rewrite Hc1 by done.
    assert (unflushed_at s' j = unflushed_at s1 j) as -> by (unfold unflushed_at; by rewrite Eu). rewrite Hu by done.
    destruct (j =? i); done. }
  destruct (unflushed_at s i) eqn:Eu.
  - destruct (flush_read_step s i m Hs Hm Hi Eu) as (s1 & E & Hs1 & Hsame1 & Ec & Ek & Hm1 & Hu1).
    pose proof (same_size _ _ Hsame1) as Hsz.
    destruct (uncache_byte s1 i Hs1) as (s' & E' & Hs' & Hsame' & Em' & Hc'); [lia|rewrite Hu1, Z.eqb_refl; done|].
    assert (concrete_at s1 i = concrete_at s i) as Hci by (unfold concrete_at; by rewrite Ec). rewrite Hci in E'.
    exists s'. split_and!.
    + rewrite <- E'. destruct (flush_byte i s) as [s2| | |]; cbn [mbind outcome_bind] in *; [|done..].
      rewrite unset_commutes, E. done.
    + done.
    + by eapply same_contents_trans.
    + by rewrite Em'.
    + apply (Hset s1); try done. intros j Hj. unfold cached, concrete_at, known_at. by rewrite Ec, Ek.
  - destruct (uncache_byte s i Hs Hi Eu) as (s' & E' & Hs' & Hsame' & Em' & Hc').
    assert (forall j, 0 <= j < os_size s -> unflushed_at s j = if j =? i then false else unflushed_at s j) as Hu.
    { intros j _. destruct (Z.eqb_spec j i) as [-> |]; done. }
    destruct (concrete_at s i) eqn:Ec.
    + exists s'. split_and!; [done..|rewrite Em'; by eexists|by apply (Hset s)].
    + unfold isByteKnownSymbolic. rewrite knownSymbolic_ok by done. cbn [mbind outcome_bind].
      destruct (known_at s i) as [e|] eqn:Ek; cbn.
      * exists s'. split_and!; [done..|rewrite Em'; by eexists|by apply (Hset s)].
      * exists s. split_and!; [done..|apply same_contents_refl|by eexists|]. intros j Hj.
        destruct (Z.eqb_spec j i) as [-> |]; [|done]. unfold settled, cached. by rewrite Ec, Ek, Eu.
Qed.

Lemma flush_write_loop n i s m : os_ok s -> unflushedMask s = Some m -> 0 <= i -> i + Z.of_nat n <= os_size s ->
  exists s', flushRangeForWrite_loop n i s = Done s' /\ os_ok s' /\ same_contents s s' /\
    forall j, 0 <= j < os_size s -> settled s' j = settled s j || ((i <=? j) && (j <? i + Z.of_nat n)).
Proof.
  revert i s m. induction n as [|n IH]; intros i s m Hs Hm Hi Hn.
  { exists s. split_and!; [done|done|apply same_contents_refl|]. intros j Hj.
    destruct (Z.leb_spec i j), (Z.ltb_spec j (i + Z.of_nat 0)); try lia; by rewrite orb_false_r. }
  destruct (flush_write_step_ok s i m Hs Hm) as (s1 & E & Hs1 & Hsame & (m1 & Hm1) & Hu1); [lia|].
  pose proof (same_size _ _ Hsame) as Hsz.
  destruct (IH (i + 1) s1 m1 Hs1 Hm1) as (s2 & E2 & Hs2 & Hsame2 & Hu2); [lia|lia|].
  exists s2. split_and!; [|done|by eapply same_contents_trans|].
  - rewrite <- E2. change (flushRangeForWrite_loop n (i + 1) s1) with (Done s1 ≫= flushRangeForWrite_loop n (i + 1)).
    rewrite <- E. unfold flush_write_step. cbn [flushRangeForWrite_loop]. by rewrite !bind_assoc; destruct (isByteUnflushed s i); cbn; rewrite ?bind_assoc.
  - intros j Hj. rewrite Hu2, Hu1 by lia. destruct (Z.eqb_spec j i) as [-> |Hne]; cbn [orb].
    + rewrite (proj2 (Z.leb_le i i)), (proj2 (Z.ltb_lt _ _)) by lia. by rewrite orb_true_r.
    + f_equal. destruct (Z.leb_spec (i + 1) j), (Z.leb_spec i j); try lia; cbn; try done; f_equal; lia.
Qed.

(** Afterwards every byte is only in the update list. *)
Lemma flushRangeForWrite_ok s : os_ok s -> exists s', flushRangeForWrite 0 (os_size s) s = Done s' /\ os_ok s' /\
  same_contents s s' /\ forall j, 0 <= j < os_size s -> settled s' j = true.
Proof.
  intros Hs. unfold flushRangeForWrite. pose proof (os_range _ (os_ok_shape _ Hs)).
  destruct (need_mask_ok s Hs) as (Hs0 & Hsame & m & Hm). pose proof (same_size _ _ Hsame) as Hsz.
  destruct (flush_write_loop (Z.to_nat (os_size s)) 0 _ m Hs0 Hm) as (s' & -> & Hs' & Hsame' & Hu); [lia|lia|].
  exists s'. split_and!; [done|done|by eapply same_contents_trans|]. intros j Hj. rewrite Hu by lia.
  rewrite (proj2 (Z.leb_le 0 j)), (proj2 (Z.ltb_lt _ _)) by lia. apply orb_true_r.
Qed.

(** The same object with one byte changed. *)
Record byte_written (s s' : ObjectState) (f : env -> Z -> Prop) (g : env -> Z) : Prop := MkWritten {
  bw_owner : copyOnWriteOwner s' = copyOnWriteOwner s;
  bw_object : object s' = object s;
  bw_size : os_size s' = os_size s;
  bw_readOnly : readOnly s' = readOnly s;
  bw_hit ρ j : 0 <= j < os_size s -> f ρ j -> byte ρ s' j = g ρ;
  bw_miss ρ j : 0 <= j < os_size s -> ~ f ρ j -> byte ρ s' j = byte ρ s j
}.

Lemma write8_symbolic_ok s o v : os_ok s -> wf o -> getWidth o = Int32 -> is_constant o = false -> byte_expr v ->
  exists s', write8_symbolic o v s = Done s' /\ os_ok s' /\ byte_written s s' (fun ρ j => j = eval ρ o) (fun ρ => eval ρ v).
Proof.
  intros Hs Ho Hw Hc Hv. unfold write8_symbolic. rewrite Hc. cbn [negb fastRangeCheckOffset].
  destruct (flushRangeForWrite_ok s Hs) as (s1 & -> & Hs1 & Hsame & Hset). cbn [mbind outcome_bind].
  rewrite ZExt_same by done. cbn [mbind outcome_bind]. pose proof (os_ok_shape _ Hs1) as Hsh1. pose proof (same_size _ _ Hsame) as Hsz.
  destruct (Updates_extend_ok (os_size s1) (updates s1) o v) as (E & Hu & Hval); [apply os_updates, Hsh1|done|done|done| |].
  { intros c ->. by cbn in Hc. }
  rewrite E. cbn [mbind outcome_bind]. set (u := MkUpdates _ _) in *. eexists. split; [done|].
  assert (forall ρ j, 0 <= j < os_size s -> byte ρ (with_updates u s1) j = updates_value ρ u j /\
    byte ρ s1 j = updates_value ρ (updates s1) j) as Hb.
  { intros ρ j Hj. specialize (Hset j Hj). unfold settled in Hset. apply andb_true_iff in Hset as [Hn _].
    apply negb_true_iff, cached_or in Hn as [Hn1 Hn2]. unfold byte.
    change (concrete_at (with_updates u s1) j) with (concrete_at s1 j). change (known_at (with_updates u s1) j) with (known_at s1 j).
    by rewrite Hn1, Hn2. }
  split.
  - split; [by apply shape_updates|apply (os_exclusive _ Hs1)|apply (os_cached _ Hs1)|].
    intros j ρ Hj _. symmetry. apply Hb. cbn in Hj. lia.
  - split; try (apply Hsame).
    + intros ρ j Hj ->. destruct (Hb ρ (eval ρ o) Hj) as [-> _]. rewrite Hval. by rewrite Z.eqb_refl.
    + intros ρ j Hj Hne. destruct (Hb ρ j Hj) as [-> E1]. rewrite Hval. destruct (Z.eqb_spec (eval ρ o) j); [congruence|].
      rewrite <- E1. by apply same_byte.
Qed.

(** A byte that is cached anew. *)
Lemma recache_ok s s' i : os_ok s -> os_shape s' -> 0 <= i < os_size s ->
  copyOnWriteOwner s' = copyOnWriteOwner s -> object s' = object s -> os_size s' = os_size s -> readOnly s' = readOnly s ->
  updates s' = updates s ->
  (forall j, 0 <= j < os_size s -> j <> i -> concrete_at s' j = concrete_at s j /\ known_at s' j = known_at s j /\
     unflushed_at s' j = unflushed_at s j /\ concreteStore s' !! Z.to_nat j = concreteStore s !! Z.to_nat j) ->
  unflushed_at s' i = true -> cached s' i = true -> (concrete_at s' i = true -> known_at s' i = None) ->
  os_ok s' /\ byte_written s s' (fun _ j => j = i) (fun ρ => byte ρ s' i).
Proof.
  intros Hs Hsh Hi Eo Eb Es Er Eu Hj Hui Hci Hxi.
  assert (forall ρ j, 0 <= j < os_size s -> j <> i -> byte ρ s' j = byte ρ s j) as Hbyte.
  { intros ρ j Hr Hne. destruct (Hj j Hr Hne) as (? & ? & ? & ?). apply byte_ext; [done..|by rewrite Eu]. }
  split; [split; [done| | |]; rewrite Es; intros j|].
  - intros Hr. destruct (Z.eq_dec j i) as [-> |Hne]; [done|]. destruct (Hj j Hr Hne) as (-> & -> & _). by apply (os_exclusive _ Hs).
  - intros Hr. destruct (Z.eq_dec j i) as [-> |Hne]; [done|]. destruct (Hj j Hr Hne) as (E1 & E2 & -> & _). unfold cached. rewrite E1, E2.
    by apply (os_cached _ Hs).
  - intros ρ Hr. destruct (Z.eq_dec j i) as [-> |Hne]; [congruence|]. rewrite Hbyte by done. destruct (Hj j Hr Hne) as (_ & _ & -> & _).
    rewrite Eu. by apply (os_coherent _ Hs).
  - split; try done; intros ρ j Hr Hji; first [by rewrite Hji | by apply Hbyte].
Qed.

Lemma with_known_shape s k : os_shape s -> (forall l, k = Some l -> Z.of_nat (length l) = os_size s) ->
  (forall j e, 0 <= j -> known_at (with_knownSymbolics k s) j = Some e -> byte_expr e) -> os_shape (with_knownSymbolics k s).
Proof.
  intros Hs Hl Hk. apply shape_knownSymbolics; [done..|]. intros j e. destruct (Z.lt_ge_cases j 0); [|by apply Hk].
  unfold known_at. cbn. intros E. replace (Z.to_nat j) with (Z.to_nat 0) in E by lia. by apply (Hk 0 e).
Qed.

Lemma write8_byte_ok s i v : os_ok s -> 0 <= i < os_size s -> exists s', write8_byte i v s = Done s' /\ os_ok s' /\
  byte_written s s' (fun _ j => j = i) (fun _ => v mod 2 ^ 8).
Proof.
  intros Hs Hi. pose proof (os_ok_shape _ Hs) as Hsh. unfold write8_byte.
  assert (Z.to_nat i < length (concreteStore s))%nat as Hlen by (pose proof (os_store _ Hsh); lia).
  destruct (lookup_lt_is_Some_2 _ _ Hlen) as [b ->]. cbn [deref mbind outcome_bind].
  set (s1 := with_concreteStore _ s). assert (os_shape s1) as Hsh1.
  { apply shape_concreteStore; [done|by rewrite length_insert|]. apply Forall_insert; [apply os_bytes, Hsh|]. apply Z.mod_pos_bound. lia. }
  destruct (setKnownSymbolic_ok s1 i None Hsh1 Hi) as (k & -> & Hl & Hk). cbn [mbind outcome_bind].
  assert (os_shape (with_knownSymbolics k s1)) as Hsh2.
  { apply with_known_shape; [done..|]. intros j e Hj. rewrite Hk by done. destruct (j =? i); [done|]. by eapply os_known_ok. }
  destruct (markByteConcrete_ok (with_knownSymbolics k s1) i Hsh2 Hi) as (m & -> & Hm & Hc). cbn [mbind outcome_bind].
  destruct (markByteUnflushed_ok (with_concreteMask m (with_knownSymbolics k s1)) i) as (u & -> & Hu & Hf);
    [by apply shape_concreteMask|done|].
  set (s' := with_unflushedMask _ _). exists s'. split; [done|].
  assert (concrete_at s' i = true) as Hci.
  { change (concrete_at s' i) with (concrete_at (with_concreteMask m (with_knownSymbolics k s1)) i).
    rewrite Hc by done. by rewrite Z.eqb_refl. }
  destruct (recache_ok s s' i Hs) as [Hs' Hw]; try done.
  - apply shape_unflushedMask; [by apply shape_concreteMask|done].
  - intros j Hj Hne. apply Z.eqb_neq in Hne as Hne'. split_and!.
    + change (concrete_at s' j) with (concrete_at (with_concreteMask m (with_knownSymbolics k s1)) j). rewrite Hc by done. by rewrite Hne'.
    + change (known_at s' j) with (known_at (with_knownSymbolics k s1) j). rewrite Hk by lia. by rewrite Hne'.
    + unfold s'. rewrite Hf by done. by rewrite Hne'.
    + cbn. by rewrite list_lookup_insert_ne by lia.
  - unfold s'. rewrite Hf by done. by rewrite Z.eqb_refl.
  - unfold cached. by rewrite Hci.
  - intros _. change (known_at s' i) with (known_at (with_knownSymbolics k s1) i). rewrite Hk by lia. by rewrite Z.eqb_refl.
  - split; [done|]. destruct Hw as [W1 W2 W3 W4 W5 W6]. split; try done. intros ρ j Hj Ej. rewrite (W5 ρ j Hj Ej). unfold byte. rewrite Hci.
    cbn. by rewrite list_lookup_insert_eq.
Qed.

Lemma write8_ok s i v : os_ok s -> 0 <= i < os_size s -> byte_expr v -> exists s', write8 i v s = Done s' /\ os_ok s' /\
  byte_written s s' (fun _ j => j = i) (fun ρ => eval ρ v).
Proof.
  intros Hs Hi [Hv Hwv]. destruct (is_constant v) eqn:Ev.
  - destruct v as [c| | | | | | | |]; try done. cbn in Hwv. destruct Hv as [Hw Hr]. rewrite Hwv in Hr. unfold Int8 in *.
    unfold write8, ConstantExpr_getZExtValue. rewrite Hwv. cbn [mbind outcome_bind]. change (8 <=? 8) with true. cbn [mbind outcome_bind].
    rewrite ap_getZExtValue_spec by lia. destruct (write8_byte_ok s i (uval c) Hs Hi) as (s' & -> & Hs' & W).
    exists s'. split_and!; [done..|]. destruct W as [W1 W2 W3 W4 W5 W6]. split; try done. intros ρ j Hj Ej. rewrite (W5 ρ j Hj Ej). cbn.
    by apply Z.mod_small.
  - assert (write8 i v s = (s ← setKnownSymbolic i (Some v) s; s ← markByteSymbolic i s; markByteUnflushed i s)) as -> by by destruct v.
    pose proof (os_ok_shape _ Hs) as Hsh. destruct (setKnownSymbolic_ok s i (Some v) Hsh Hi) as (k & -> & Hl & Hk). cbn [mbind outcome_bind].
    assert (os_shape (with_knownSymbolics k s)) as Hsh2.
    { apply with_known_shape; [done..|]. intros j e Hj. rewrite Hk by done. destruct (j =? i); [by intros [= <-]|]. by eapply os_known_ok. }
    destruct (markByteSymbolic_ok (with_knownSymbolics k s) i Hsh2 Hi) as (m & -> & Hm & Hc). cbn [mbind outcome_bind].
    destruct (markByteUnflushed_ok (with_concreteMask (Some m) (with_knownSymbolics k s)) i) as (u & -> & Hu & Hf);
      [by apply shape_concreteMask|done|].
    set (s' := with_unflushedMask _ _). exists s'. split; [done|].
    assert (concrete_at s' i = false) as Hci.
    { change (concrete_at s' i) with (bit m i). rewrite Hc by done. by rewrite Z.eqb_refl. }
    assert (known_at s' i = Some v) as Hki.
    { change (known_at s' i) with (known_at (with_knownSymbolics k s) i). rewrite Hk by lia. by rewrite Z.eqb_refl. }
    destruct (recache_ok s s' i Hs) as [Hs' Hw]; try done.
    + apply shape_unflushedMask; [by apply shape_concreteMask|done].
    + intros j Hj Hne. apply Z.eqb_neq in Hne as Hne'. split_and!.
      * change (concrete_at s' j) with (bit m j). rewrite Hc by done. by rewrite Hne'.
      * change (known_at s' j) with (known_at (with_knownSymbolics k s) j). rewrite Hk by lia. by rewrite Hne'.
      * unfold s'. rewrite Hf by done. by rewrite Hne'.
      * done.
    + unfold s'. rewrite Hf by done. by rewrite Z.eqb_refl.
    + unfold cached. by rewrite Hci, Hki.
    + by rewrite Hci.
    + split; [done|]. destruct Hw as [W1 W2 W3 W4 W5 W6]. split; try done. intros ρ j Hj Ej. rewrite (W5 ρ j Hj Ej). unfold byte. by rewrite Hci, Hki.
Qed.

(** ** Words *)

(** The value of [n] bytes, the first one lowest. *)
Fixpoint word (f : Z -> Z) (n : nat) : Z :=
  match n with O => 0 | S n => word f n + f (Z.of_nat n) * 2 ^ (8 * Z.of_nat n) end.

(** [n] bytes of an object from [o] on, in the byte order of the target. *)
Definition word_at (ρ : env) (s : ObjectState) (o : Z) (n : Z) : Z :=
  word (fun i => byte ρ s (o + byte_index n i)) (Z.to_nat n).

Lemma byte_index_range n i : 0 <= i < n -> 0 <= byte_index n i < n.
Proof. unfold byte_index. destruct isLittleEndian; lia. Qed.

Lemma byte_index_invol n i : byte_index n (byte_index n i) = i.
Proof. unfold byte_index. destruct isLittleEndian; lia. Qed.

Lemma word_ext f g n : (forall i, 0 <= i < Z.of_nat n -> f i = g i) -> word f n = word g n.
Proof. intros H. induction n as [|n IH]; cbn [word]; [done|]. rewrite IH, H by (intros; try apply H; lia). done. Qed.

Lemma word_bytes x n : 0 <= x -> word (fun i => x / 2 ^ (8 * i) mod 2 ^ 8) n = x mod 2 ^ (8 * Z.of_nat n).
Proof.
  intros Hx. induction n as [|n IH]; [by rewrite Z.mod_1_r|]. cbn [word]. rewrite IH.
  replace (8 * Z.of_nat (S n)) with (8 * Z.of_nat n + 8) by lia. rewrite Z.pow_add_r by lia.
  rewrite Z.rem_mul_r by (try apply pow2_pos; lia). lia.
Qed.

Lemma byte_expr_range e ρ : byte_expr e -> 0 <= eval ρ e < 2 ^ 8.
Proof. intros [He Hw]. pose proof (eval_range e ρ He) as H. by rewrite Hw in H. Qed.

(** The loop of a read, over any way to read a byte that keeps the contents. *)
Lemma read_loop_ok rd (val : env -> Z -> Z) (P : env -> Prop) NumBytes s0 n i Res s id :
  (forall s id idx, same_contents s0 s -> os_ok s -> 0 <= idx < NumBytes -> exists e s' id', rd s id idx = Done (e, s', id') /\
     byte_expr e /\ os_ok s' /\ same_contents s0 s' /\ forall ρ, P ρ -> eval ρ e = val ρ idx) ->
  os_ok s -> same_contents s0 s -> 0 <= i -> i + Z.of_nat n = NumBytes ->
  match Res with
  | None => i = 0
  | Some e => 0 < i /\ wf e /\ getWidth e = 8 * i /\
      forall ρ, P ρ -> eval ρ e = word (fun k => val ρ (byte_index NumBytes k)) (Z.to_nat i)
  end ->
  exists Res' s' id', read_loop rd NumBytes n i Res s id = Done (Res', s', id') /\ os_ok s' /\ same_contents s0 s' /\
    match Res' with
    | None => NumBytes = 0
    | Some e => 0 < NumBytes /\ wf e /\ getWidth e = 8 * NumBytes /\
        forall ρ, P ρ -> eval ρ e = word (fun k => val ρ (byte_index NumBytes k)) (Z.to_nat NumBytes)
    end.
Proof.
  intros Hrd. revert i Res s id. induction n as [|n IH]; intros i Res s id Hs Hsame Hi Hn HRes.
  { exists Res, s, id. split_and!; [done..|]. assert (i = NumBytes) as -> by lia. by destruct Res. }
  cbn [read_loop]. destruct (Hrd s id (byte_index NumBytes i) Hsame Hs) as (b & s1 & id1 & -> & Hb & Hs1 & Hsame1 & Hv);
    [apply byte_index_range; lia|]. cbn [mbind outcome_bind]. pose proof Hb as [Hwb Ewb]. unfold Int8 in Ewb.
  assert (exists e, (match Res with None => Done b | Some Res => ConcatExpr_create b Res end) = Done e /\ wf e /\
    getWidth e = 8 * (i + 1) /\ forall ρ, P ρ -> eval ρ e = word (fun k => val ρ (byte_index NumBytes k)) (Z.to_nat (i + 1)))
    as (e & -> & He & Hwe & Hve).
  { assert (forall ρ, word (fun k => val ρ (byte_index NumBytes k)) (Z.to_nat (i + 1)) =
      word (fun k => val ρ (byte_index NumBytes k)) (Z.to_nat i) + val ρ (byte_index NumBytes i) * 2 ^ (8 * i)) as Hword.
    { intros ρ. replace (Z.to_nat (i + 1)) with (S (Z.to_nat i)) by lia. cbn [word]. by rewrite Z2Nat.id by lia. }
    destruct Res as [r|].
    - destruct HRes as (Hi0 & Hr & Hwr & Hvr). destruct (ConcatExpr_create_ok b r Hwb Hr) as (e & -> & He & Hwe & Hve).
      exists e. split_and!; [done|done|rewrite Hwe; cbn; lia|]. intros ρ HP. rewrite Hve, Hword. cbn [eval]. rewrite Hv, Hvr, Hwr by done. lia.
    - subst i. exists b. split_and!; [done|done|lia|]. intros ρ HP. rewrite Hword, Hv by done. change (Z.to_nat 0) with O. cbn [word]. rewrite Z.mul_0_r, Z.pow_0_r. lia. }
  cbn [mbind outcome_bind]. apply IH; [done|done|lia|lia|]. split_and!; [lia|done..].
Qed.

Lemma read_word_ok rd (val : env -> Z -> Z) (P : env -> Prop) s id width :
  (forall s' id idx, same_contents s s' -> os_ok s' -> 0 <= idx < width / 8 -> exists e s'' id', rd s' id idx = Done (e, s'', id') /\
     byte_expr e /\ os_ok s'' /\ same_contents s s'' /\ forall ρ, P ρ -> eval ρ e = val ρ idx) ->
  os_ok s -> 0 < width -> width mod 8 = 0 -> exists e s' id', read_word rd s id width = Done (e, s', id') /\
    wf e /\ getWidth e = width /\ os_ok s' /\ same_contents s s' /\
    forall ρ, P ρ -> eval ρ e = word (fun k => val ρ (byte_index (width / 8) k)) (Z.to_nat (width / 8)).
Proof.
  intros Hrd Hs Hw Hm. assert (width = 8 * (width / 8)) as Ew by (rewrite (Z.div_mod width 8) at 1; lia).
  unfold read_word. rewrite (proj2 (Z.eqb_eq _ _)) by lia.
  destruct (read_loop_ok rd val P (width / 8) s (Z.to_nat (width / 8)) 0 None s id) as (Res & s' & id' & -> & Hs' & Hsame & HRes);
    try done; [lia|]. cbn [mbind outcome_bind].
  destruct Res as [e|]; [|lia]. destruct HRes as (_ & He & Hwe & Hv). cbn [deref mbind outcome_bind].
  exists e, s', id'. split_and!; [done|done|lia|done..].
Qed.

(** A width is one bit or whole bytes; a bit takes a byte. *)
Definition width_ok (w : Z) : Prop := w = Bool \/ (0 < w /\ w mod 8 = 0).
Definition access_bytes (w : Z) : Z := if w =? Bool then 1 else w / 8.

Definition read_value (ρ : env) (s : ObjectState) (o w : Z) : Z :=
  if w =? Bool then byte ρ s o mod 2 else word_at ρ s o (w / 8).

Lemma whole_bytes w : 0 < w -> w mod 8 = 0 -> w = 8 * (w / 8) /\ 0 < w / 8.
Proof. intros. assert (w = 8 * (w / 8)) by (rewrite (Z.div_mod w 8) at 1; lia). lia. Qed.

Lemma not_Bool w : 0 < w -> w mod 8 = 0 -> (w =? Bool) = false.
Proof. intros Hw Hm. apply Z.eqb_neq. intros ->. discriminate Hm. Qed.

(** The low bit of a byte that was read. *)
Lemma read_bit_ok e : byte_expr e -> exists b, ExtractExpr_create e 0 Bool = Done b /\ wf b /\ getWidth b = Bool /\
  forall ρ, eval ρ b = eval ρ e mod 2.
Proof.
  intros [He Hw]. destruct (ExtractExpr_create_ok e 0 Bool He) as (b & E & Hb & Hwb & Hv); [lia|done|rewrite Hw; unfold Bool, Int8; lia|].
  exists b. split_and!; [done..|]. intros ρ. rewrite Hv. cbn [eval]. by rewrite Z.pow_0_r, Z.div_1_r.
Qed.

Lemma read_at_ok s id o w : os_ok s -> width_ok w -> 0 <= o -> o + access_bytes w <= os_size s ->
  exists e s' id', read_at s id o w = Done (e, s', id') /\ wf e /\ getWidth e = w /\ os_ok s' /\ same_contents s s' /\
    forall ρ, eval ρ e = read_value ρ s o w.
Proof.
  intros Hs [-> |[Hw Hm]] Ho Hb; unfold read_at, access_bytes, read_value in *.
  - rewrite Z.eqb_refl in *. destruct (read8_ok s id o Hs) as (e & s' & id' & -> & He & Hs' & Hsame & Hv); [lia|]. cbn [mbind outcome_bind].
    destruct (read_bit_ok e He) as (b & -> & Hwb & Ewb & Hvb). cbn [mbind outcome_bind]. exists b, s', id'. split_and!; [done..|].
    intros ρ. by rewrite Hvb, Hv.
  - rewrite (not_Bool w Hw Hm) in *. destruct (whole_bytes w Hw Hm) as [Ew Hn]. pose proof (os_range _ (os_ok_shape _ Hs)).
    destruct (read_word_ok (fun s id idx => read8 s id (u32 (o + idx))) (fun ρ k => byte ρ s (o + k)) (fun _ => True) s id w)
      as (e & s' & id' & E & He & Hwe & Hs' & Hsame & Hv); [|done..|].
    + intros s1 id1 idx Hsame1 Hs1 Hidx. pose proof (same_size _ _ Hsame1). unfold u32. rewrite Z.mod_small by lia.
      destruct (read8_ok s1 id1 (o + idx) Hs1) as (e & s2 & id2 & E & He & Hs2 & Hsame2 & Hv); [lia|].
      exists e, s2, id2. split_and!; [done..|by eapply same_contents_trans|]. intros ρ _. rewrite Hv. apply same_byte; [done|lia].
    + exists e, s', id'. split_and!; [done..|]. intros ρ. by rewrite Hv.
Qed.

(** An access of [n] bytes: at a constant offset it is inside the object; at
    another one, no sum of it and the index of a byte folds to a constant. *)
Definition addressable (size : Z) (offset : Expr) (n : Z) : Prop :=
  match ZExtExpr_create offset Int32 with
  | Done (ConstantExpr c) => uval c + n <= size
  | Done o => forall i e, 0 <= i < n -> AddExpr_create o (ConstantExpr (MkAPInt 32 i)) = Done e -> is_constant e = false
  | _ => False
  end.

(** The offset of an access, in an environment. *)
Definition offset_of (ρ : env) (offset : Expr) : Z := eval ρ offset mod 2 ^ 32.

Lemma truncate_ok offset : wf offset -> exists o, ZExtExpr_create offset Int32 = Done o /\ wf o /\ getWidth o = Int32 /\
  forall ρ, eval ρ o = offset_of ρ offset.
Proof.
  intros Hwf. destruct (CastExpr_create_ok ZExt offset Int32 Hwf) as (o & E & Ho & Hw & Hv); [done|].
  exists o. split_and!; [done..|]. intros ρ. rewrite Hv. by case_match.
Qed.

(** The offset of a byte of a word at a symbolic offset. *)
Lemma byte_offset_ok o i : wf o -> getWidth o = Int32 -> 0 <= i < 2 ^ 32 ->
  exists e, (i ← ConstantExpr_create i Int32; AddExpr_create o (ConstantExpr i)) = Done e /\
    AddExpr_create o (ConstantExpr (MkAPInt 32 i)) = Done e /\ wf e /\ getWidth e = Int32 /\
    forall ρ, eval ρ e = (eval ρ o + i) mod 2 ^ 32.
Proof.
  intros Ho Hw Hi. rewrite index_const by done. cbn [mbind outcome_bind].
  destruct (AddExpr_create_ok default_opt o (ConstantExpr (MkAPInt 32 i)) Ho) as (e & E & He & Hwe & Hv); [split; cbn; lia|done|].
  exists e. split_and!; [done..|cbn in Hwe; congruence|]. intros ρ. rewrite Hv. cbn [eval_binary eval uval]. by rewrite Hw.
Qed.

Theorem read_ok s id offset w : os_ok s -> wf offset -> width_ok w -> addressable (os_size s) offset (access_bytes w) ->
  access_bytes w <= os_size s ->
  exists e s' id', read s id offset w = Done (e, s', id') /\ wf e /\ getWidth e = w /\ os_ok s' /\ same_contents s s' /\
    forall ρ, offset_of ρ offset + access_bytes w <= os_size s -> eval ρ e = read_value ρ s (offset_of ρ offset) w.
Proof.
  intros Hs Hoff Hw Ha Hsz. destruct (truncate_ok offset Hoff) as (o & E & Ho & Hwo & Hv). unfold read, addressable in *.
  rewrite E in *. cbn [mbind outcome_bind]. pose proof (os_range _ (os_ok_shape _ Hs)) as Hr. destruct (is_constant o) eqn:Ec.
  { destruct o as [c| | | | | | | |]; try done. cbn in Hwo. pose proof Ho as [_ Hc]. rewrite Hwo in Hc. unfold Int32 in *.
    unfold ConstantExpr_getZExtValue. rewrite Hwo. change (32 <=? 32) with true. cbn [mbind outcome_bind].
    rewrite ap_getZExtValue_spec by lia. destruct (read_at_ok s id (uval c) w Hs Hw) as (e & s' & id' & -> & He & Hwe & Hs' & Hsame & Hve); [lia|done|].
    exists e, s', id'. split_and!; [done..|]. intros ρ _. rewrite Hve, <- Hv. done. }
  assert (exists r, (if w =? Bool then
      '(e, s, id) ← read8_symbolic s id o; e ← ExtractExpr_create e 0 Bool; Done (e, s, id)
    else
      read_word (fun s id idx => i ← ConstantExpr_create idx Int32; o ← AddExpr_create o (ConstantExpr i); read8_symbolic s id o) s id w) = r /\
    exists e s' id', r = Done (e, s', id') /\ wf e /\ getWidth e = w /\ os_ok s' /\ same_contents s s' /\
    forall ρ, offset_of ρ offset + access_bytes w <= os_size s -> eval ρ e = read_value ρ s (offset_of ρ offset) w) as (r & Er & H).
  2: { destruct H as (e & s' & id' & -> & H). exists e, s', id'. split; [|exact H]. rewrite <- Er. by destruct o. }
  eexists. split; [done|]. unfold access_bytes, read_value in *. destruct Hw as [-> |[Hw Hm]].
  - rewrite Z.eqb_refl in *. destruct (read8_symbolic_ok s id o Hs Ho Hwo Ec) as (e & s' & id' & -> & He & Hs' & Hsame & Hve). cbn [mbind outcome_bind].
    destruct (read_bit_ok e He) as (b & -> & Hwb & Ewb & Hvb). cbn [mbind outcome_bind]. exists b, s', id'. split_and!; [done..|].
    intros ρ Hlt. rewrite Hvb, Hve by (rewrite Hv; lia). by rewrite Hv.
  - rewrite (not_Bool w Hw Hm) in *. destruct (whole_bytes w Hw Hm) as [Ew Hn].
    destruct (read_word_ok (fun s id idx => i ← ConstantExpr_create idx Int32; o ← AddExpr_create o (ConstantExpr i); read8_symbolic s id o)
      (fun ρ k => byte ρ s (offset_of ρ offset + k)) (fun ρ => offset_of ρ offset + w / 8 <= os_size s) s id w)
      as (e & s' & id' & E' & He & Hwe & Hs' & Hsame & Hve); [|done..|].
    + intros s1 id1 idx Hsame1 Hs1 Hidx. pose proof (same_size _ _ Hsame1).
      destruct (byte_offset_ok o idx Ho Hwo) as (oi & E1 & E2 & Hoi & Hwoi & Hvoi); [lia|].
      assert (is_constant oi = false) as Hci by (destruct o; try done; by eapply (Ha idx)).
      destruct (read8_symbolic_ok s1 id1 oi Hs1 Hoi Hwoi Hci) as (e & s2 & id2 & Er & He & Hs2 & Hsame2 & Hve).
      exists e, s2, id2. split_and!; [|done..|by eapply same_contents_trans|].
      * rewrite <- Er. rewrite index_const in * by lia. cbn [mbind outcome_bind] in *. by rewrite E2.
      * intros ρ Hlt. assert (eval ρ oi = offset_of ρ offset + idx) as Eoi.
        { rewrite Hvoi, Hv. apply Z.mod_small. unfold offset_of in *. pose proof (Z.mod_pos_bound (eval ρ offset) (2 ^ 32)). lia. }
        rewrite Hve, Eoi by lia. apply same_byte; [done|]. unfold offset_of in *. pose proof (Z.mod_pos_bound (eval ρ offset) (2 ^ 32)). lia.
    + exists e, s', id'. split_and!; [done..|]. intros ρ Hlt. by rewrite Hve.
Qed.

(** ** Writing words *)

Record same_frame (s s' : ObjectState) : Prop := MkFrame {
  fr_owner : copyOnWriteOwner s' = copyOnWriteOwner s;
  fr_object : object s' = object s;
  fr_size : os_size s' = os_size s;
  fr_readOnly : readOnly s' = readOnly s
}.

(** The first [i] of [N] bytes of the value [v] have been written at [o]. *)
Definition progress (N : Z) (o v : env -> Z) (s0 s : ObjectState) (i : Z) : Prop :=
  os_ok s /\ same_frame s0 s /\
  forall ρ j, 0 <= o ρ -> o ρ + N <= os_size s0 -> 0 <= j < os_size s0 ->
    byte ρ s j =
      if (o ρ <=? j) && (j <? o ρ + N) && (byte_index N (j - o ρ) <? i)
      then v ρ / 2 ^ (8 * byte_index N (j - o ρ)) mod 2 ^ 8 else byte ρ s0 j.

Lemma progress_0 N o v s : os_ok s -> progress N o v s s 0.
Proof.
  intros Hs. split_and!; [done|done|]. intros ρ j Ho Hn Hj.
  destruct (Z.leb_spec (o ρ) j), (Z.ltb_spec j (o ρ + N)); cbn [andb]; try done.
  pose proof (byte_index_range N (j - o ρ)). destruct (Z.ltb_spec (byte_index N (j - o ρ)) 0); [lia|done].
Qed.

Lemma progress_step N o v s0 s s' i (pos : env -> Z) g : progress N o v s0 s i -> 0 <= i < N -> os_ok s' ->
  byte_written s s' (fun ρ j => j = pos ρ) g ->
  (forall ρ, 0 <= o ρ -> o ρ + N <= os_size s0 -> pos ρ = o ρ + byte_index N i) ->
  (forall ρ, g ρ = v ρ / 2 ^ (8 * i) mod 2 ^ 8) ->
  progress N o v s0 s' (i + 1).
Proof.
  intros (Hs & [F1 F2 F3 F4] & Hb) Hi Hs' [W1 W2 W3 W4 W5 W6] Hpos Hg. split_and!; [done|split; congruence|].
  intros ρ j Ho Hn Hj. specialize (Hpos ρ Ho Hn). specialize (Hb ρ j Ho Hn Hj). rewrite <- F3 in Hj.
  destruct (Z.eq_dec j (pos ρ)) as [Ej|Hne].
  - rewrite (W5 ρ j Hj Ej), Hg. pose proof (byte_index_range N i Hi). assert (j - o ρ = byte_index N i) as -> by lia.
    rewrite byte_index_invol, (proj2 (Z.leb_le _ _)), !(proj2 (Z.ltb_lt _ _)) by lia. done.
  - rewrite (W6 ρ j Hj Hne), Hb. destruct (Z.leb_spec (o ρ) j), (Z.ltb_spec j (o ρ + N)); cbn [andb]; try done.
    assert (byte_index N (j - o ρ) <> i) by (intros <-; rewrite byte_index_invol in Hpos; lia).
    destruct (Z.ltb_spec (byte_index N (j - o ρ)) i), (Z.ltb_spec (byte_index N (j - o ρ)) (i + 1)); try lia; done.
Qed.

(** All of a value has been written. *)
Definition written_at (N : Z) (o v : env -> Z) (s s' : ObjectState) : Prop := progress N o v s s' N.

Lemma write_bytes_loop N n i o value s0 s : progress N (fun _ => o) (fun _ => value) s0 s i -> 0 <= i ->
  i + Z.of_nat n = N -> 0 <= o -> o + N <= os_size s0 -> os_size s0 < 2 ^ 32 -> 0 <= value ->
  exists s', write_bytes N n i o value s = Done s' /\ written_at N (fun _ => o) (fun _ => value) s0 s'.
Proof.
  revert i s. induction n as [|n IH]; intros i s Hp Hi Hn Ho Hsz Hlt Hv.
  { exists s. split; [done|]. unfold written_at. by assert (i = N) as -> by lia. }
  cbn [write_bytes]. pose proof Hp as (Hs & [_ _ Fs _] & _). pose proof (byte_index_range N i ltac:(lia)).
  unfold u32. rewrite Z.mod_small by lia.
  destruct (write8_byte_ok s (o + byte_index N i) (Z.shiftr value (8 * i)) Hs) as (s1 & -> & Hs1 & Hw); [lia|]. cbn [mbind outcome_bind].
  apply IH; try lia. eapply progress_step; [exact Hp|lia|done|exact Hw|done|]. intros ρ. cbn. by rewrite Z.shiftr_div_pow2 by lia.
Qed.

Lemma write_loop_ok wr N n i (o : env -> Z) (pos : env -> Z -> Z) value s0 s :
  (forall idx b s, os_ok s -> same_frame s0 s -> 0 <= idx < N -> byte_expr b -> exists s', wr idx b s = Done s' /\ os_ok s' /\
     byte_written s s' (fun ρ j => j = pos ρ idx) (fun ρ => eval ρ b)) ->
  (forall ρ idx, 0 <= o ρ -> o ρ + N <= os_size s0 -> 0 <= idx < N -> pos ρ idx = o ρ + idx) ->
  wf value -> getWidth value = 8 * N ->
  progress N o (fun ρ => eval ρ value) s0 s i -> 0 <= i -> i + Z.of_nat n = N ->
  exists s', write_loop wr N n i value s = Done s' /\ written_at N o (fun ρ => eval ρ value) s0 s'.
Proof.
  intros Hwr Hpos Hval Hwv. revert i s. induction n as [|n IH]; intros i s Hp Hi Hn.
  { exists s. split; [done|]. unfold written_at. by assert (i = N) as -> by lia. }
  cbn [write_loop]. pose proof Hp as (Hs & Hf & _). pose proof (byte_index_range N i ltac:(lia)).
  destruct (ExtractExpr_create_ok value (8 * i) Int8 Hval) as (b & -> & Hb & Hwb & Hvb); [lia|done|unfold Int8; lia|].
  cbn [mbind outcome_bind]. destruct (Hwr (byte_index N i) b s Hs Hf) as (s1 & -> & Hs1 & Hw); [lia|done|]. cbn [mbind outcome_bind].
  apply IH; try lia. eapply progress_step; [exact Hp|lia|done|exact Hw| |].
  - intros ρ Ho Hsz. by apply Hpos.
  - intros ρ. etrans; [apply Hvb|done].
Qed.

(** A bit is stored as a byte. *)
Lemma bit_as_byte value : wf value -> getWidth value = Bool -> exists b, ZExtExpr_create value Int8 = Done b /\ byte_expr b /\
  forall ρ, eval ρ b = eval ρ value / 2 ^ (8 * 0) mod 2 ^ 8.
Proof.
  intros Hv Hw. destruct (CastExpr_create_ok ZExt value Int8 Hv) as (b & E & Hb & Hwb & He); [done|]. exists b. split_and!; [done..|].
  intros ρ. rewrite He, Hw. change (Int8 <? Bool) with false. cbn [eval_cast]. rewrite Z.mul_0_r, Z.pow_0_r, Z.div_1_r. done.
Qed.

Lemma byte_index_1 : byte_index 1 0 = 0.
Proof. unfold byte_index. by destruct isLittleEndian. Qed.

(** One byte is all of a value of one byte. *)
Lemma write_one_byte s s' (pos v g : env -> Z) : os_ok s -> os_ok s' -> byte_written s s' (fun ρ j => j = pos ρ) g ->
  (forall ρ, g ρ = v ρ / 2 ^ (8 * 0) mod 2 ^ 8) -> written_at 1 pos v s s'.
Proof.
  intros Hs Hs' Hw Hg. unfold written_at. change 1 with (0 + 1) at 2.
  eapply progress_step; [by apply progress_0|lia|done|exact Hw| |done]. intros ρ _ _. rewrite byte_index_1. lia.
Qed.

Lemma write_at_general_ok s o value : os_ok s -> wf value -> width_ok (getWidth value) -> 0 <= o ->
  o + access_bytes (getWidth value) <= os_size s ->
  exists s', write_at_general o value s = Done s' /\
    written_at (access_bytes (getWidth value)) (fun _ => o) (fun ρ => eval ρ value) s s'.
Proof.
  intros Hs Hv Hw Ho Hsz. pose proof (os_range _ (os_ok_shape _ Hs)). unfold write_at_general, access_bytes in *.
  destruct Hw as [Ew|[Hw Hm]].
  - rewrite Ew in *. rewrite Z.eqb_refl in *. destruct (bit_as_byte value Hv Ew) as (b & -> & Hb & Eb). cbn [mbind outcome_bind].
    destruct (write8_ok s o b Hs) as (s' & -> & Hs' & W); [lia|done|]. exists s'. split; [done|].
    by eapply (write_one_byte s s' (fun _ => o)).
  - rewrite (not_Bool _ Hw Hm) in *. destruct (whole_bytes _ Hw Hm) as [Ew Hn]. unfold write_word.
    rewrite (proj2 (Z.eqb_eq _ _)) by lia.
    apply (write_loop_ok _ _ _ _ _ (fun _ idx => o + idx)); try done; try lia; [|by apply progress_0].
    intros idx b s1 Hs1 [_ _ F3 _] Hidx Hb. unfold u32. rewrite Z.mod_small by lia. apply write8_ok; [done|lia|done].
Qed.

Lemma write_constant_ok s o c N : os_ok s -> wf_apint c -> getBitWidth c = 8 * N -> 0 <= o -> 0 < N -> o + N <= os_size s ->
  exists s', write_bytes N (Z.to_nat N) 0 o (uval c) s = Done s' /\ written_at N (fun _ => o) (fun _ => uval c) s s'.
Proof.
  intros Hs [_ Hc] Hw Ho HN Hsz. pose proof (os_range _ (os_ok_shape _ Hs)).
  apply write_bytes_loop; try lia. by apply progress_0.
Qed.

Lemma write_at_ok s o value : os_ok s -> wf value -> width_ok (getWidth value) -> 0 <= o ->
  o + access_bytes (getWidth value) <= os_size s ->
  exists s', write_at o value s = Done s' /\
    written_at (access_bytes (getWidth value)) (fun _ => o) (fun ρ => eval ρ value) s s'.
Proof.
  intros Hs Hv Hw Ho Hsz. destruct (is_constant value) eqn:Ec.
  2: { destruct (write_at_general_ok s o value Hs Hv Hw Ho Hsz) as (s' & E & W). exists s'. split; [|done]. rewrite <- E. by destruct value. }
  destruct value as [c| | | | | | | |]; try done. cbn [write_at getWidth eval] in *.
  destruct ((getBitWidth c <=? 64) && bits64_isPowerOfTwo (getBitWidth c)) eqn:Ep; [|by apply write_at_general_ok].
  apply andb_true_iff in Ep as [Ele Ep]. apply Z.leb_le in Ele. pose proof Hv as [Hc0 Hc].
  assert (uval c < 2 ^ 64) as H64 by (pose proof (pow2_mono (getBitWidth c) 64); lia).
  unfold ConstantExpr_getZExtValue. rewrite (proj2 (Z.leb_le _ _)) by done. cbn [mbind outcome_bind].
  rewrite ap_getZExtValue_spec by done.
  assert (forall N, getBitWidth c = 8 * N -> 1 < N -> exists s', write_bytes N (Z.to_nat N) 0 o (uval c) s = Done s' /\
    written_at (access_bytes (getBitWidth c)) (fun _ => o) (fun _ => uval c) s s') as Hword.
  { intros N EN HN. assert (access_bytes (getBitWidth c) = N) as EA.
    { unfold access_bytes. rewrite not_Bool; rewrite ?EN; [by rewrite Z.mul_comm, Z.div_mul|lia|by rewrite Z.mul_comm, Z.mod_mul]. }
    rewrite EA in *. apply write_constant_ok; [done..|lia|done]. }
  assert (forall g, (forall ρ : env, g ρ = uval c mod 2 ^ 8) -> access_bytes (getBitWidth c) = 1 ->
    exists s', write8_byte o (uval c) s = Done s' /\ written_at (access_bytes (getBitWidth c)) (fun _ => o) (fun _ => uval c) s s') as Hbyte.
  { intros g Hg EA. rewrite EA in *. destruct (write8_byte_ok s o (uval c) Hs) as (s' & -> & Hs' & W); [lia|].
    exists s'. split; [done|]. eapply (write_one_byte s s' (fun _ => o)); [done|done|exact W|]. intros ρ. by rewrite Z.mul_0_r, Z.pow_0_r, Z.div_1_r. }
  destruct Hw as [Ew|[Hw Hm]].
  { rewrite Ew in *. change (Bool =? Bool) with true. cbn [orb]. by apply (Hbyte (fun _ => uval c mod 2 ^ 8)). }
  destruct (whole_bytes _ Hw Hm) as [EN HN]. set (N := getBitWidth c / 8) in *.
  assert (N = 1 \/ N = 2 \/ N = 3 \/ N = 4 \/ N = 5 \/ N = 6 \/ N = 7 \/ N = 8) as HNs by lia.
  destruct HNs as [E|[E|[E|[E|[E|[E|[E|E]]]]]]]; rewrite E in EN; cbn in EN; rewrite EN in *; try discriminate Ep; cbn [orb Z.eqb].
  - by apply (Hbyte (fun _ => uval c mod 2 ^ 8)).
  - change ((16 =? Bool) || (16 =? Int8)) with false. change (16 =? Int16) with true. cbv iota. unfold write16.
    rewrite Z.mod_small by done. by apply (Hword 2).
  - change ((32 =? Bool) || (32 =? Int8)) with false. change (32 =? Int16) with false. change (32 =? Int32) with true. cbv iota. unfold write32.
    rewrite Z.mod_small by done. by apply (Hword 4).
  - change ((64 =? Bool) || (64 =? Int8)) with false. change (64 =? Int16) with false. change (64 =? Int32) with false.
    change (64 =? Int64) with true. cbv iota. by apply (Hword 8).
Qed.

Theorem write_ok s offset value : os_ok s -> wf offset -> wf value -> width_ok (getWidth value) ->
  addressable (os_size s) offset (access_bytes (getWidth value)) -> access_bytes (getWidth value) <= os_size s ->
  exists s', write offset value s = Done s' /\
    written_at (access_bytes (getWidth value)) (fun ρ => offset_of ρ offset) (fun ρ => eval ρ value) s s'.
Proof.
  intros Hs Hoff Hval Hw Ha Hsz. destruct (truncate_ok offset Hoff) as (o & E & Ho & Hwo & Hv). unfold write, addressable in *.
  rewrite E in *. cbn [mbind outcome_bind]. pose proof (os_range _ (os_ok_shape _ Hs)) as Hr. destruct (is_constant o) eqn:Ec.
  { destruct o as [c| | | | | | | |]; try done. cbn in Hwo. pose proof Ho as [_ Hc]. rewrite Hwo in Hc. unfold Int32 in *.
    unfold ConstantExpr_getZExtValue. rewrite Hwo. change (32 <=? 32) with true. cbn [mbind outcome_bind].
    rewrite ap_getZExtValue_spec by lia. destruct (write_at_ok s (uval c) value Hs Hval Hw) as (s' & -> & W); [lia|done|].
    exists s'. split; [done|]. destruct W as (Hs' & Hf & Hb). split_and!; [done..|]. intros ρ j. rewrite <- Hv. apply Hb. }
  assert (exists r, (if getWidth value =? Bool then e ← ZExtExpr_create value Int8; write8_symbolic o e s
    else write_word (fun idx b s => i ← ConstantExpr_create idx Int32; oi ← AddExpr_create o (ConstantExpr i); write8_symbolic oi b s) value s) = r /\
    exists s', r = Done s' /\
    written_at (access_bytes (getWidth value)) (fun ρ => offset_of ρ offset) (fun ρ => eval ρ value) s s') as (r & Er & s' & -> & W).
  2: { exists s'. split; [|done]. rewrite <- Er. by destruct o. }
  eexists. split; [done|]. unfold access_bytes in *. destruct Hw as [Ew|[Hw Hm]].
  - rewrite Ew in *. rewrite Z.eqb_refl in *. destruct (bit_as_byte value Hval Ew) as (b & -> & Hb & Eb). cbn [mbind outcome_bind].
    destruct (write8_symbolic_ok s o b Hs Ho Hwo Ec Hb) as (s' & -> & Hs' & W). exists s'. split; [done|].
    eapply (write_one_byte s s' (fun ρ => offset_of ρ offset)); [done|done| |exact Eb].
    destruct W as [W1 W2 W3 W4 W5 W6]. split; try done; intros ρ j Hj; rewrite <- Hv; auto.
  - rewrite (not_Bool _ Hw Hm) in *. destruct (whole_bytes _ Hw Hm) as [Ew Hn]. unfold write_word.
    rewrite (proj2 (Z.eqb_eq _ _)) by lia.
    apply (write_loop_ok _ _ _ _ _ (fun ρ idx => (offset_of ρ offset + idx) mod 2 ^ 32)); try done; try lia; [| |by apply progress_0].
    + intros idx b s1 Hs1 [_ _ F3 _] Hidx Hb.
      destruct (byte_offset_ok o idx Ho Hwo) as (oi & E1 & E2 & Hoi & Hwoi & Hvoi); [lia|].
      assert (is_constant oi = false) as Hci by (destruct o; try done; by eapply (Ha idx)).
      destruct (write8_symbolic_ok s1 oi b Hs1 Hoi Hwoi Hci Hb) as (s2 & E3 & Hs2 & W). exists s2. split_and!; [|done|].
      * rewrite <- E3. rewrite index_const in * by lia. cbn [mbind outcome_bind] in *. by rewrite E2.
      * destruct W as [W1 W2 W3 W4 W5 W6]. split; try done; intros ρ j Hj; rewrite <- Hv, <- Hvoi; auto.
    + intros ρ idx Hlo Hhi Hidx. apply Z.mod_small. lia.
Qed.

(** The value that was written can be read back. *)
Lemma read_value_written s s' ρ (o v : env -> Z) w : written_at (access_bytes w) o v s s' -> width_ok w ->
  0 <= o ρ -> o ρ + access_bytes w <= os_size s -> 0 <= v ρ < 2 ^ w -> read_value ρ s' (o ρ) w = v ρ.
Proof.
  intros (Hs' & Hf & Hb) Hw Ho Hsz Hv. unfold read_value, access_bytes in *. destruct Hw as [-> |[Hw Hm]].
  - rewrite Z.eqb_refl in *. rewrite Hb by lia. rewrite Z.sub_diag, byte_index_1, Z.mul_0_r, Z.pow_0_r, Z.div_1_r.
    rewrite (proj2 (Z.leb_le _ _)), !(proj2 (Z.ltb_lt _ _)) by lia. cbn [andb]. unfold Bool in Hv. rewrite (Z.mod_small (v ρ)) by lia. apply Z.mod_small. lia.
  - rewrite (not_Bool _ Hw Hm) in *. destruct (whole_bytes _ Hw Hm) as [Ew Hn]. unfold word_at.
    rewrite (word_ext _ (fun i => v ρ / 2 ^ (8 * i) mod 2 ^ 8)).
    + rewrite word_bytes by lia. rewrite Z2Nat.id, <- Ew by lia. by apply Z.mod_small.
    + intros i Hi. rewrite Z2Nat.id in Hi by lia. pose proof (byte_index_range (w / 8) i Hi). rewrite Hb by lia.
      assert (o ρ + byte_index (w / 8) i - o ρ = byte_index (w / 8) i) as -> by lia. rewrite byte_index_invol.
      by rewrite (proj2 (Z.leb_le _ _)), !(proj2 (Z.ltb_lt _ _)) by lia.
Qed.

(** Bytes outside the access keep their values. *)
Lemma written_outside s s' ρ N o v j : written_at N o v s s' -> 0 <= o ρ -> o ρ + N <= os_size s ->
  0 <= j < os_size s -> j < o ρ \/ o ρ + N <= j -> byte ρ s' j = byte ρ s j.
Proof.
  intros (_ & _ & Hb) Ho Hn Hj Hout. rewrite Hb by done.
  destruct (Z.leb_spec (o ρ) j), (Z.ltb_spec j (o ρ + N)); cbn [andb]; try done. lia.
Qed.

End Sound.
