(* ===== verification/MemoryObjects.v ===== *)
(** New objects, copies, and the checks of a pointer against the bounds of an
    object. *)
From stdpp Require Import base numbers list strings pretty.
From Stdlib Require Import ZArith Lia.
From S2P Require Import Prelude APInt Bits Expr Semantics ConstantOps ExprCreate CreateSound OpsSound SliceSound Memory MemorySound.
Local Open Scope Z_scope.

Section Objects.
Context {AP : APIntOps} {APL : APIntLaws} {AH : ArrayHeap} {OP : ExprOptions} {TC : TargetContext} {MO : MemoryOptions}.
Context {AC : ArrayCache} {ACL : ArrayCacheLaws}.
Context (default_opt : ConstArrayOpt = false).

(** ** Construction *)

(** Without masks every byte is concrete and unflushed. *)
Lemma concrete_ok s : 0 <= os_size s < 2 ^ 32 -> mo_size (object s) = os_size s ->
  Z.of_nat (length (concreteStore s)) = os_size s -> Forall (fun b => 0 <= b < 2 ^ 8) (concreteStore s) ->
  concreteMask s = None -> unflushedMask s = None -> knownSymbolics s = None ->
  nodes_ok (os_size s) (up_head (updates s)) /\ root_ok (up_root (updates s)) -> os_ok s.
Proof.
  intros Hr Ho Hl Hb Hc Hf Hk Hu. split.
  - split; try done; rewrite ?Hc, ?Hf; try done; [by rewrite Hk|]. intros i e. unfold known_at. by rewrite Hk.
  - intros i _ _. unfold known_at. by rewrite Hk.
  - intros i _ _. unfold cached, concrete_at. by rewrite Hc.
  - intros i ρ _. unfold unflushed_at. by rewrite Hf.
Qed.

Lemma concrete_byte ρ s i : concreteMask s = None -> byte ρ s i = default 0 (concreteStore s !! Z.to_nat i).
Proof. intros Hc. unfold byte, concrete_at. by rewrite Hc. Qed.

Lemma symbolic_root_ok name size : 0 <= size < 2 ^ 32 -> root_ok (Some (CreateArray name size [])).
Proof. intros Hs. unfold root_ok. rewrite CreateArray_spec. split_and!; cbn; try done; unfold Int8; try lia; constructor. Qed.

Lemma ObjectState_new_ok mo id : 0 <= mo_size mo < 2 ^ 32 ->
  let s := (ObjectState_new mo id).1 in
  os_ok s /\ object s = mo /\ copyOnWriteOwner s = 0 /\ readOnly s = false /\ forall ρ i, 0 <= i < mo_size mo -> byte ρ s i = 0.
Proof.
  intros Hsz s. assert (exists root, s = MkOS 0 mo (replicate (Z.to_nat (mo_size mo)) 0) None None None (MkUpdates root UNull) (mo_size mo) false /\
    root_ok root) as (root & -> & Hroot).
  { unfold s, ObjectState_new. destruct UseConstantArrays; [by exists None|]. eexists. split; [done|]. by apply symbolic_root_ok. }
  split_and!; [|done..|].
  - apply concrete_ok; try done; cbn; [rewrite length_replicate; lia|]. by apply Forall_replicate.
  - intros ρ i Hi. rewrite concrete_byte by done. cbn. by rewrite lookup_replicate_2 by lia.
Qed.

(** The bytes before [i] have been marked. *)
Definition marked (s : ObjectState) (i : Z) : Prop :=
  forall j, 0 <= j < i -> concrete_at s j = false /\ unflushed_at s j = false.

Lemma markByteFlushed_ok s i : os_shape s -> 0 <= i < os_size s ->
  exists m, markByteFlushed i s = Done (with_unflushedMask (Some m) s) /\ bits_ok m (os_size s) /\ bit m i = false /\
    forall j, 0 <= j < os_size s -> unflushed_at s j = false -> bit m j = false.
Proof.
  intros Hs Hi. unfold markByteFlushed, unflushed_at. pose proof (os_unflushed _ Hs) as Hf. pose proof (os_range _ Hs).
  destruct (unflushedMask s) as [m|].
  - destruct (BitArray_unset_ok m (os_size s) i Hf Hi) as (m' & -> & Hm & Hb). exists m'. split_and!; [done..| |].
    + by rewrite Hb, Z.eqb_refl by lia.
    + intros j Hj E. rewrite Hb by lia. by destruct (j =? i).
  - destruct (BitArray_new_ok (os_size s) false) as [Hm Hb]; [lia|]. eexists. split_and!; [done|done|by apply Hb|]. intros j Hj _. by apply Hb.
Qed.

Lemma makeSymbolic_loop_ok n i s : os_shape s -> knownSymbolics s = None -> marked s i -> 0 <= i -> i + Z.of_nat n = os_size s ->
  exists s', makeSymbolic_loop n i s = Done s' /\ os_shape s' /\ knownSymbolics s' = None /\ marked s' (os_size s) /\
    updates s' = updates s /\ os_size s' = os_size s /\ object s' = object s /\ copyOnWriteOwner s' = copyOnWriteOwner s /\ readOnly s' = readOnly s /\
    concreteStore s' = concreteStore s.
Proof.
  revert i s. induction n as [|n IH]; intros i s Hs Hk Hm Hi Hn.
  { exists s. split_and!; try done. by assert (i = os_size s) as <- by lia. }
  cbn [makeSymbolic_loop]. destruct (markByteSymbolic_ok s i Hs) as (m & -> & Hbm & Hb); [lia|]. cbn [mbind outcome_bind].
  set (s1 := with_concreteMask _ s). assert (os_shape s1) as Hs1 by by apply shape_concreteMask.
  assert (setKnownSymbolic i None s1 = Done s1) as -> by (unfold setKnownSymbolic; cbn; by rewrite Hk). cbn [mbind outcome_bind].
  destruct (markByteFlushed_ok s1 i Hs1) as (f & -> & Hbf & Hfi & Hfj); [cbn; lia|]. cbn [mbind outcome_bind].
  destruct (IH (i + 1) (with_unflushedMask (Some f) s1)) as (s' & -> & Hs' & Hk' & Hm' & Hu & Hsz & Ho & Hw & Hro & Hst); try done; try (cbn; lia).
  - by apply shape_unflushedMask.
  - intros j Hj. change (concrete_at (with_unflushedMask (Some f) s1) j) with (bit m j).
    change (unflushed_at (with_unflushedMask (Some f) s1) j) with (bit f j). rewrite Hb by lia.
    destruct (Z.eqb_spec j i) as [-> |Hne]; [done|]. destruct (Hm j) as [Hc Hf]; [lia|]. split; [done|]. apply Hfj; [cbn; lia|done].
  - exists s'. by split_and!.
Qed.

(** An object whose contents are those of an array. *)
Lemma ObjectState_new_symbolic_ok mo array : 0 <= mo_size mo < 2 ^ 32 -> root_ok (Some array) ->
  exists s, ObjectState_new_symbolic mo array = Done s /\ os_ok s /\ object s = mo /\ copyOnWriteOwner s = 0 /\ readOnly s = false /\
    (forall ρ i, 0 <= i < mo_size mo -> byte ρ s i = initial_value ρ array i) /\
    knownSymbolics s = None /\ concreteStore s = replicate (Z.to_nat (mo_size mo)) 0.
Proof.
  intros Hsz Ha. unfold ObjectState_new_symbolic, makeSymbolic. cbn [updates up_head os_size]. set (s0 := MkOS _ _ _ _ _ _ _ _ _).
  destruct (makeSymbolic_loop_ok (Z.to_nat (mo_size mo)) 0 s0) as (s & -> & Hs & Hk & Hm & Hu & Hz & Ho & Hw & Hro & Hst); try done.
  - split; try done; cbn; [rewrite length_replicate; lia|by apply Forall_replicate].
  - intros j Hj. lia.
  - cbn. lia.
  - cbn in Hz. assert (forall i, known_at s i = None) as Hn by (intros i; unfold known_at; by rewrite Hk).
    assert (forall ρ i, 0 <= i < mo_size mo -> byte ρ s i = initial_value ρ array i) as Hbyte.
    { intros ρ i Hi. unfold byte. destruct (Hm i) as [-> _]; [done|]. by rewrite Hn, Hu. }
    exists s. split_and!; try done. split; [done| | |]; rewrite Hz; intros i.
    + intros Hi Hc. apply Hn.
    + intros Hi Hf. destruct (Hm i Hi) as [_ E]. congruence.
    + intros ρ Hi _. rewrite Hbyte by done. by rewrite Hu.
Qed.

(** A copy has the same contents; it belongs to no address space and may be
    written. *)
Lemma ObjectState_copy_ok s : os_ok s -> readOnly s = false ->
  ObjectState_copy s = Done (with_owner 0 s) /\ os_ok (with_owner 0 s) /\ forall ρ i, byte ρ (with_owner 0 s) i = byte ρ s i.
Proof.
  intros Hs Hr. split_and!.
  - unfold ObjectState_copy. rewrite Hr. cbn [negb]. unfold with_owner. rewrite Hr.
    pose proof (os_concrete _ (os_ok_shape _ Hs)) as Hc. pose proof (os_unflushed _ (os_ok_shape _ Hs)) as Hf.
    destruct (concreteMask s); destruct (unflushedMask s); cbn; rewrite ?BitArray_copy_ok by done; done.
  - destruct Hs as [[] ? ? ?]. constructor; [by constructor|done..].
  - done.
Qed.

Lemma initialize_ok s b : os_ok s -> 0 <= b < 2 ^ 8 ->
  let s' := with_concreteStore (replicate (Z.to_nat (os_size s)) b) (makeConcrete s) in
  os_ok s' /\ same_frame s s' /\ forall ρ i, 0 <= i < os_size s -> byte ρ s' i = b.
Proof.
  intros Hs Hb s'. pose proof (os_ok_shape _ Hs) as Hsh. split_and!; [|done|].
  - apply concrete_ok; try done; cbn; [apply Hsh|apply Hsh| | |apply Hsh].
    + rewrite length_replicate. pose proof (os_range _ Hsh). lia.
    + by apply Forall_replicate.
  - intros ρ i Hi. rewrite concrete_byte by done. cbn. by rewrite lookup_replicate_2 by lia.
Qed.

(** ** Bounds *)

(** An object that fits into the memory of the target. *)
Record object_fits (mo : MemoryObject) : Prop := MkFits {
  fits_width : 32 <= getPointerWidth <= 64;
  fits_address : 0 <= address mo;
  fits_size : 0 <= mo_size mo < 2 ^ 32;
  fits_end : address mo + mo_size mo <= 2 ^ getPointerWidth;
  fits_base : address mo < 2 ^ getPointerWidth
}.

Lemma pointer_constant v : 32 <= getPointerWidth <= 64 -> 0 <= v < 2 ^ getPointerWidth ->
  ConstantExpr_create v getPointerWidth = Done (MkAPInt getPointerWidth v).
Proof. intros Hw Hv. apply ConstantExpr_create_spec; [lia|done|]. pose proof (pow2_mono getPointerWidth 64). lia. Qed.

Lemma getOffsetExpr_ok mo p : object_fits mo -> wf p -> getWidth p = getPointerWidth ->
  builds (getOffsetExpr mo p) getPointerWidth (fun ρ => (eval ρ p - address mo) mod 2 ^ getPointerWidth).
Proof.
  intros [Hw Ha Hs He Hb] Hp Hwp. unfold getOffsetExpr, getBaseExpr. rewrite pointer_constant by done. cbn [mbind outcome_bind].
  destruct (SubExpr_create_ok default_opt p (ConstantExpr (MkAPInt getPointerWidth (address mo))) Hp) as (e & -> & Hwf & Hwe & Hv); [split; cbn; lia|done|].
  exists e. split_and!; [done|done|cbn in Hwe; congruence|]. intros ρ. rewrite Hv. cbn. by rewrite Hwp.
Qed.

Lemma offset_inside W a size x n : 0 <= a -> 0 <= size -> a + size <= 2 ^ W -> 0 <= x < 2 ^ W -> 0 < n ->
  ((x - a) mod 2 ^ W + n <= size <-> a <= x /\ x + n <= a + size).
Proof.
  intros Ha Hs He Hx Hn. destruct (Z.le_gt_cases a x).
  - rewrite Z.mod_small by lia. lia.
  - assert ((x - a) mod 2 ^ W = x - a + 2 ^ W) as ->; [|lia].
    symmetry. apply (Z.mod_unique_pos _ _ (-1)); lia.
Qed.

Lemma constant_wf v w : 0 < w -> 0 <= v < 2 ^ w -> wf (ConstantExpr (MkAPInt w v)).
Proof. by split. Qed.

(** The condition the executor puts to the solver before an access of [bytes]
    bytes. *)
Lemma getBoundsCheckPointer_bytes_ok mo p bytes : object_fits mo -> wf p -> getWidth p = getPointerWidth -> 0 < bytes < 2 ^ 32 ->
  builds (getBoundsCheckPointer_bytes mo p bytes) Bool
    (fun ρ => Z.b2z (bool_decide (address mo <= eval ρ p /\ eval ρ p + bytes <= address mo + mo_size mo))).
Proof.
  intros Hm Hp Hwp Hb. pose proof Hm as [Hw Ha Hs He Hbase]. unfold getBoundsCheckPointer_bytes.
  eapply builds_bind; [by apply getOffsetExpr_ok|]. intros o Ho Hwo Hv. unfold getBoundsCheckOffset_bytes.
  assert (2 ^ 32 <= 2 ^ getPointerWidth) as Hpow by (apply pow2_mono; lia).
  assert (2 ^ getPointerWidth <= 2 ^ 64) as Hpow64 by (apply pow2_mono; lia).
  assert (forall ρ, 0 <= eval ρ p < 2 ^ getPointerWidth) as Hrange.
  { intros ρ. pose proof (eval_range p ρ Hp) as H. by rewrite Hwp in H. }
  destruct (Z.leb_spec bytes (mo_size mo)) as [Hle|Hgt].
  - unfold u32. rewrite (Z.mod_small (mo_size mo - bytes)), Z.mod_small by lia.
    rewrite ConstantExpr_alloc_spec by lia.
    eapply builds_ext; [apply (UltExpr_create_ok default_opt); [done|apply constant_wf; lia|done]|].
    intros ρ. cbn [eval_binary eval uval]. rewrite Hv. f_equal.
    destruct (Z.ltb_spec ((eval ρ p - address mo) mod 2 ^ getPointerWidth) (mo_size mo - bytes + 1)) as [Hlt|Hge].
    + symmetry. apply bool_decide_eq_true_2. apply (offset_inside getPointerWidth); try done; try lia.
    + symmetry. apply bool_decide_eq_false_2. intros H. apply (offset_inside getPointerWidth) in H; try done; try lia.
  - rewrite ConstantExpr_alloc_spec by (unfold Bool; lia). apply builds_Done; [apply constant_wf; unfold Bool; lia|done|].
    intros ρ. rewrite bool_decide_false by lia. done.
Qed.

(** Inside an object, or at the address of an object without bytes. *)
Definition points_into (mo : MemoryObject) (x : Z) : Prop :=
  (mo_size mo = 0 /\ x = address mo) \/ (address mo <= x < address mo + mo_size mo).

#[global] Instance points_into_dec mo x : Decision (points_into mo x).
Proof. unfold points_into. apply _. Defined.

Lemma getBoundsCheckPointer_ok mo p : object_fits mo -> wf p -> getWidth p = getPointerWidth ->
  builds (getBoundsCheckPointer mo p) Bool (fun ρ => Z.b2z (bool_decide (points_into mo (eval ρ p)))).
Proof.
  intros Hm Hp Hwp. pose proof Hm as [Hw Ha Hs He Hbase]. unfold getBoundsCheckPointer, points_into.
  eapply builds_bind; [by apply getOffsetExpr_ok|]. intros o Ho Hwo Hv. unfold getBoundsCheckOffset.
  assert (2 ^ 32 <= 2 ^ getPointerWidth) as Hpow by (apply pow2_mono; lia).
  assert (2 ^ getPointerWidth <= 2 ^ 64) as Hpow64 by (apply pow2_mono; lia).
  assert (forall ρ, 0 <= eval ρ p < 2 ^ getPointerWidth) as Hrange.
  { intros ρ. pose proof (eval_range p ρ Hp) as H. by rewrite Hwp in H. }
  destruct (Z.eqb_spec (mo_size mo) 0) as [E0|Hne].
  - rewrite ConstantExpr_alloc_spec by lia.
    eapply builds_ext; [apply EqExpr_create_ok; [done|done|apply constant_wf; lia|done]|].
    intros ρ. cbn [eval_binary eval uval]. rewrite Hv. f_equal. specialize (Hrange ρ).
    assert ((eval ρ p - address mo) mod 2 ^ getPointerWidth = 0 <-> eval ρ p = address mo) as Hz.
    { split; [|intros ->; by rewrite Z.sub_diag, Z.mod_0_l by lia]. intros H. destruct (Z.le_gt_cases (address mo) (eval ρ p)).
      - rewrite Z.mod_small in H by lia. lia.
      - assert ((eval ρ p - address mo) mod 2 ^ getPointerWidth = eval ρ p - address mo + 2 ^ getPointerWidth); [|lia].
        symmetry. apply (Z.mod_unique_pos _ _ (-1)); lia. }
    destruct (Z.eqb_spec ((eval ρ p - address mo) mod 2 ^ getPointerWidth) 0) as [H|H]; symmetry.
    + apply bool_decide_eq_true_2. left. tauto.
    + apply bool_decide_eq_false_2. intros [[_ ?]|?]; [tauto|lia].
  - unfold getSizeExpr. rewrite pointer_constant by lia. cbn [mbind outcome_bind].
    eapply builds_ext; [apply (UltExpr_create_ok default_opt); [done|apply constant_wf; lia|done]|].
    intros ρ. cbn [eval_binary eval uval]. rewrite Hv. f_equal. specialize (Hrange ρ).
    pose proof (offset_inside getPointerWidth (address mo) (mo_size mo) (eval ρ p) 1 Ha (proj1 Hs) He Hrange ltac:(lia)) as Hin.
    destruct (Z.ltb_spec ((eval ρ p - address mo) mod 2 ^ getPointerWidth) (mo_size mo)) as [Hlt|Hge]; symmetry.
    + apply bool_decide_eq_true_2. right. lia.
    + apply bool_decide_eq_false_2. intros [[? _]|?]; lia.
Qed.

End Objects.
