(* ===== verification/MemoryManager.v ===== *)
(** Allocation (lib/Core/MemoryManager.h, MemoryManager.cpp): the objects that were
    allocated, and the region from which they are cut when allocation is
    deterministic.

    The allocator of the system is an argument: what its n-th call gives, as an
    address or 0; and so are the two functions of LLVM's MathExtras.h. *)
From stdpp Require Import base numbers list.
From Stdlib Require Import ZArith Lia.
From S2P Require Import Prelude Bits Memory.
Local Open Scope Z_scope.

Class AllocationOptions : Type := {
  DeterministicAllocation : bool;
  DeterministicAllocationSize : Z;
  NullOnZeroMalloc : bool;
  RedzoneSize : Z;
  DeterministicStartAddress : Z
}.

(** What the n-th call of [malloc] or [posix_memalign] gives for a number of bytes at
    an alignment, 0 when it fails; and where [mmap] puts a region that is wanted at an
    address, if it succeeds. *)
Class SystemAllocator : Type := {
  sys_alloc : nat -> Z -> Z -> Z;
  mmap : Z -> Z -> option Z;
  alignTo : Z -> Z -> Z;
  isPowerOf2_64 : Z -> bool
}.

(** [counter] is the number that the next object gets. *)
Record MemoryManager : Type := MkMM {
  mm_objects : list MemoryObject;
  deterministicSpace : Z;
  nextFreeSlot : Z;
  spaceSize : Z;
  counter : Z;
  calls : nat
}.

Module MemoryManager.
Section Operations.
Context {AO : AllocationOptions} {SA : SystemAllocator}.

(** The constructor; [klee_error] ends the process.  The size is computed with
    [unsigned]. *)
Definition new : outcome MemoryManager :=
  let size := u32 (DeterministicAllocationSize * 1024 * 1024) in
  if DeterministicAllocation then
    match mmap DeterministicStartAddress size with
    | None => AssertFail
    | Some newSpace =>
        if negb (DeterministicStartAddress =? newSpace) && negb (DeterministicStartAddress =? 0) then AssertFail
        else Done (MkMM [] newSpace newSpace size 0 0)
    end
  else Done (MkMM [] 0 0 size 0 0).

Definition add_object (o : MemoryObject) (m : MemoryManager) : MemoryManager :=
  MkMM (mm_objects m ++ [o]) (deterministicSpace m) (nextFreeSlot m) (spaceSize m) (counter m + 1) (calls m).

(** Where the next object goes, or 0. *)
Definition deterministic_address (size alignment : Z) (m : MemoryManager) : Z * MemoryManager :=
  let address := alignTo (u64 (nextFreeSlot m + alignment - 1)) alignment in
  let alloc_size := Z.max size 1 in
  if u64 (address + alloc_size) <? u64 (deterministicSpace m + spaceSize m) then
    (address, MkMM (mm_objects m) (deterministicSpace m) (u64 (address + alloc_size + RedzoneSize)) (spaceSize m) (counter m) (calls m))
  else (0, m).

Definition system_address (size alignment : Z) (m : MemoryManager) : Z * MemoryManager :=
  (sys_alloc (calls m) size alignment, MkMM (mm_objects m) (deterministicSpace m) (nextFreeSlot m) (spaceSize m) (counter m) (S (calls m))).

(** The object has a size of type [unsigned]. *)
Definition allocate (size : Z) (isLocal isGlobal : bool) (allocSite : positive) (alignment : Z) (m : MemoryManager) : option MemoryObject * MemoryManager :=
  if NullOnZeroMalloc && (size =? 0) then (None, m)
  else if negb (isPowerOf2_64 alignment) then (None, m)
  else
    let '(address, m) := if DeterministicAllocation then deterministic_address size alignment m else system_address size alignment m in
    if address =? 0 then (None, m)
    else
      let res := MkMO (counter m) address (u32 size) [117; 110; 110; 97; 109; 101; 100] isLocal isGlobal false false allocSite in
      (Some res, add_object res m).

(** An object at a given address; [klee_error] when it would overlap another. *)
Definition allocateFixed (addr size : Z) (allocSite : positive) (m : MemoryManager) : outcome (MemoryObject * MemoryManager) :=
  Assert forallb (fun mo => negb ((address mo <? u64 (addr + size)) && (addr <? u64 (address mo + mo_size mo)))) (mm_objects m) ;;
  let res := MkMO (counter m) addr (u32 size) [117; 110; 110; 97; 109; 101; 100] false true true false allocSite in
  Done (res, add_object res m).

(** The memory of the host is given back as well, unless the object is fixed. *)
Definition markFreed (mo : MemoryObject) (m : MemoryManager) : MemoryManager :=
  MkMM (filter (fun o => o <> mo) (mm_objects m)) (deterministicSpace m) (nextFreeSlot m) (spaceSize m) (counter m) (calls m).

Definition getUsedDeterministicSize (m : MemoryManager) : Z := u64 (nextFreeSlot m - deterministicSpace m).

End Operations.
End MemoryManager.
