(* ===== verification/AddressSpace.v ===== *)
(** Address spaces (lib/Core/AddressSpace.h, AddressSpace.cpp): maps from memory
    objects to object states that the spaces of forked states share until one of
    them writes.

    Address spaces are right: addresses resolve to the object that holds them, the
    loops over objects see each once, and spaces that share states do not see
    each other's writes. *)
From stdpp Require Import base numbers list gmap.
From Stdlib Require Import ZArith Lia Sorting.Sorted.
From S2P Require Import Prelude APInt Expr ConstantOps MapOfSets ImmutableTree Memory MemorySound MemoryObjects.
Local Open Scope Z_scope.

(** [MemoryObjectLT] compares addresses: the key of a pair is the address of its
    object. *)
#[export] Instance address_key : OrderedKey Z := {| key_compare := Z.compare |}.

#[export] Instance address_key_laws : OrderedKeyLaws Z.
Proof.
  split; cbn; intros; [apply Z.compare_eq_iff|apply Z.compare_antisym|]. rewrite Z.compare_lt_iff in *. lia.
Qed.

(** A pair of an object and a pointer to its state. *)
Abbreviation ObjectPair := (MemoryObject * positive)%type.

#[export] Instance pair_address : KeyOfValue Z ObjectPair := fun x => address x.1.

Abbreviation MemoryMap := (ImmutableTree.node ObjectPair).

(** The object states that exist, behind pointers that spaces may share. *)
Abbreviation Store := (gmap positive ObjectState).

Record AddressSpace : Type := MkAS { cowKey : Z; objects : MemoryMap }.

Module AddressSpace.

Definition new : AddressSpace := MkAS 1 ImmutableTree.terminator.

(** The copy and the original both get a new key; the result is the copy and the
    original. *)
Definition copy (b : AddressSpace) : AddressSpace * AddressSpace :=
  let key := u32 (cowKey b + 1) in
  (MkAS key (objects b), MkAS key (objects b)).

Definition bindObject (mo : MemoryObject) (os : positive) (a : AddressSpace) (st : Store) : outcome (AddressSpace * Store) :=
  o ← deref (st !! os);
  Assert copyOnWriteOwner o =? 0 ;;
  Done (MkAS (cowKey a) (ImmutableTree.replace (mo, os) (objects a)), <[os := with_owner (cowKey a) o]> st).

Definition unbindObject (mo : MemoryObject) (a : AddressSpace) : outcome AddressSpace :=
  t ← ImmutableTree.remove (address mo) (objects a);
  Done (MkAS (cowKey a) t).

Definition findObject (mo : MemoryObject) (a : AddressSpace) : option positive :=
  snd <$> ImmutableTree.lookup (address mo) (objects a).

(** A state the space may write: its own, or a copy that it then owns. *)
Definition getWriteable (mo : MemoryObject) (os : positive) (a : AddressSpace) (st : Store) :
    outcome (positive * AddressSpace * Store) :=
  o ← deref (st !! os);
  Assert negb (readOnly o) ;;
  if cowKey a =? copyOnWriteOwner o then Done (os, a, st)
  else
    n ← ObjectState_copy o;
    let p := fresh (dom st) in
    Done (p, MkAS (cowKey a) (ImmutableTree.replace (mo, p) (objects a)), <[p := with_owner (cowKey a) n]> st).

(** [resolveOne] at a constant address. *)
Definition resolveOne {AP : APIntOps} (addr : APInt) (a : AddressSpace) : outcome (option ObjectPair) :=
  address ← ConstantExpr_getZExtValue addr 64;
  Done (match ImmutableTree.lookup_previous address (objects a) with
        | Some res =>
            let mo := res.1 in
            if ((mo_size mo =? 0) && (address =? Memory.address mo)) || (u64 (address - Memory.address mo) <? mo_size mo)
            then Some res else None
        | None => None
        end).

(** ** Passing memory to external code *)

(** The memory of the process, by address. *)
Abbreviation SystemMemory := (Z -> Z).

Definition store_bytes (addr : Z) (bytes : list Z) (mem : SystemMemory) : SystemMemory :=
  fun x => match (if addr <=? x then bytes !! Z.to_nat (x - addr) else None) with Some b => b | None => mem x end.

Definition load_bytes (addr : Z) (n : nat) (mem : SystemMemory) : list Z := (fun i => mem (addr + Z.of_nat i)) <$> seq 0 n.

(** The loops [for (it = begin; it != end; ++it)]: [n] bounds the number of rounds. *)
Fixpoint for_each {A} (n : nat) (f : ObjectPair -> A -> outcome A) (e it : ImmutableTree.iterator) (x : A) : outcome A :=
  match n with
  | O => OutOfFuel
  | S n =>
      if ImmutableTree.iter_eqb it e then Done x
      else
        v ← ImmutableTree.deref_iter it;
        x ← f v x;
        it ← ImmutableTree.next it;
        for_each n f e it x
  end.

Definition for_objects {A} (f : ObjectPair -> A -> outcome A) (a : AddressSpace) (x : A) : outcome A :=
  b ← ImmutableTree.begin (objects a);
  e ← ImmutableTree.end_ (objects a);
  for_each (S (N.to_nat (ImmutableTree.size (objects a)))) f e b x.

(** Only the first [mo->size] bytes of the store, which has that length. *)
Definition copy_out (st : Store) (x : ObjectPair) (mem : SystemMemory) : outcome SystemMemory :=
  let mo := x.1 in
  if isUserSpecified mo then Done mem
  else
    os ← deref (st !! x.2);
    if readOnly os then Done mem
    else Done (store_bytes (Memory.address mo) (take (Z.to_nat (mo_size mo)) (concreteStore os)) mem).

Definition copyOutConcretes (a : AddressSpace) (st : Store) (mem : SystemMemory) : outcome SystemMemory :=
  for_objects (copy_out st) a mem.

(** False when a read-only object was modified. *)
Definition copyInConcrete (mo : MemoryObject) (os : positive) (src_address : Z) (mem : SystemMemory)
    (a : AddressSpace) (st : Store) : outcome (bool * AddressSpace * Store) :=
  o ← deref (st !! os);
  let n := Z.to_nat (mo_size mo) in
  let bytes := load_bytes src_address n mem in
  if bool_decide (bytes = take n (concreteStore o)) then Done (true, a, st)
  else if readOnly o then Done (false, a, st)
  else
    '(p, a, st) ← getWriteable mo os a st;
    w ← deref (st !! p);
    Done (true, a, <[p := with_concreteStore (bytes ++ drop n (concreteStore w)) w]> st).

(** The loop stops at the first object that may not be modified. *)
Definition copy_in (mem : SystemMemory) (x : ObjectPair) (s : bool * AddressSpace * Store) : outcome (bool * AddressSpace * Store) :=
  let '(ok, a, st) := s in
  if negb ok then Done s
  else if isUserSpecified x.1 then Done s
  else copyInConcrete x.1 x.2 (Memory.address x.1) mem a st.

Definition copyInConcretes (mem : SystemMemory) (a : AddressSpace) (st : Store) : outcome (bool * AddressSpace * Store) :=
  for_objects (copy_in mem) a (true, a, st).

End AddressSpace.

(** ** Lookups *)

Abbreviation good_map := (@ImmutableTree.good Z ObjectPair address_key pair_address).
Abbreviation pairs := ImmutableTree.elems.

Lemma lookup_replace k x (t : MemoryMap) : good_map t ->
  ImmutableTree.lookup k (ImmutableTree.replace x t) = if k =? address x.1 then Some x else ImmutableTree.lookup k t.
Proof.
  intros Ht. pose proof (ImmutableTree.replace_good x t Ht) as [_ Ho]. pose proof Ht as [_ Ho'].
  rewrite !ImmutableTree.lookup_elems, ImmutableTree.elems_replace, ImmutableTree.list_find_replace by done.
  unfold key_eqb, key_compare, address_key, key_of_value, pair_address.
  rewrite Z.eqb_compare. done.
Qed.

Lemma lookup_remove k k' (t t' : MemoryMap) : good_map t -> ImmutableTree.remove k' t = Done t' ->
  good_map t' /\ ImmutableTree.lookup k t' = if k =? k' then None else ImmutableTree.lookup k t.
Proof.
  intros Ht E. destruct (ImmutableTree.remove_good k' t Ht) as (t1 & E1 & Ht1 & He). rewrite E in E1. injection E1 as <-.
  split; [done|]. pose proof Ht as [_ Ho]. pose proof Ht1 as [_ Ho1].
  rewrite !ImmutableTree.lookup_elems, He, ImmutableTree.list_find_remove by done.
  unfold key_eqb, key_compare, address_key. by rewrite Z.eqb_compare.
Qed.

Lemma list_find_Some k (l : list ObjectPair) x : ImmutableTree.list_find k l = Some x -> x ∈ l /\ address x.1 = k.
Proof.
  induction l as [|y l IH]; cbn; [done|]. unfold key_eqb, key_compare, address_key, key_of_value, pair_address.
  destruct (Z.compare_spec k (address y.1)) as [-> | |]; [intros [= ->]; split; [by left|done]| |];
    intros Hf; destruct (IH Hf); (split; [by right|done]).
Qed.

Lemma lookup_address k (t : MemoryMap) x : good_map t -> ImmutableTree.lookup k t = Some x -> x ∈ pairs t /\ address x.1 = k.
Proof. intros [_ Ho]. rewrite ImmutableTree.lookup_elems by done. apply list_find_Some. Qed.

Lemma lookup_pairs (t : MemoryMap) x : good_map t -> x ∈ pairs t -> ImmutableTree.lookup (address x.1) t = Some x.
Proof.
  intros [_ Ho] Hx. rewrite ImmutableTree.lookup_elems by done. induction (pairs t) as [|y l IH]; [by apply elem_of_nil in Hx|].
  apply ImmutableTree.ordered_cons in Ho as [Ho Hy]. cbn. unfold key_eqb, key_compare, address_key, key_of_value, pair_address in *.
  apply elem_of_cons in Hx as [-> |Hx]; [by rewrite Z.compare_refl|].
  rewrite Forall_forall in Hy. specialize (Hy x Hx). unfold ImmutableTree.value_lt, key_lt, key_compare, key_of_value in Hy. cbn in Hy.
  rewrite Z.compare_antisym, Hy. cbn. by apply IH.
Qed.

(** ** Resolution of a constant address *)

(** Objects do not overlap, and end inside the address range. *)
Record layout_ok (t : MemoryMap) : Prop := MkLayout {
  layout_good : good_map t;
  layout_range x : x ∈ pairs t -> 0 <= address x.1 < 2 ^ 64 /\ 0 <= mo_size x.1 < 2 ^ 32;
  layout_disjoint x y : x ∈ pairs t -> y ∈ pairs t -> address x.1 < address y.1 -> address x.1 + mo_size x.1 <= address y.1
}.

Lemma upto_spec k (l : list ObjectPair) x : x ∈ ImmutableTree.upto k l <-> x ∈ l /\ address x.1 <= k.
Proof.
  unfold ImmutableTree.upto. rewrite !list_elem_of_In, List.filter_In. unfold key_ltb, key_compare, address_key, key_of_value, pair_address.
  destruct (Z.compare_spec k (address x.1)); cbn; split; intros []; split; try done; lia.
Qed.

(** The last of ordered values is the greatest. *)
Lemma last_greatest (l : list ObjectPair) x y : ImmutableTree.ordered l -> last l = Some x -> y ∈ l -> y = x \/ address y.1 < address x.1.
Proof.
  intros Ho Hx Hy. apply last_Some in Hx as [l' ->]. apply ImmutableTree.ordered_app in Ho as (_ & _ & Hl & _).
  apply elem_of_app in Hy as [Hy|Hy]; [right|left; by apply list_elem_of_singleton].
  rewrite Forall_forall in Hl. specialize (Hl y Hy). by apply Z.compare_lt_iff.
Qed.

Lemma upto_ordered k (l : list ObjectPair) : ImmutableTree.ordered l -> ImmutableTree.ordered (ImmutableTree.upto k l).
Proof.
  induction l as [|x l IH]; [done|]. intros [Ho Hx]%ImmutableTree.ordered_cons. unfold ImmutableTree.upto in *. cbn.
  case_match; [|auto]. apply ImmutableTree.ordered_cons. split; [auto|]. apply Forall_forall. intros y Hy.
  rewrite Forall_forall in Hx. apply Hx. apply list_elem_of_In in Hy. apply List.filter_In in Hy as [Hy _]. by apply list_elem_of_In.
Qed.

Section Resolve.
Context {AP : APIntOps} {APL : APIntLaws}.

Lemma resolveOne_ok addr a : layout_ok (objects a) -> 0 <= uval addr < 2 ^ 64 -> getBitWidth addr <= 64 ->
  exists r, AddressSpace.resolveOne addr a = Done r /\
    match r with
    | Some x => x ∈ pairs (objects a) /\ points_into x.1 (uval addr)
    | None => forall x, x ∈ pairs (objects a) -> ~ points_into x.1 (uval addr)
    end.
Proof.
  intros [Hg Hr Hd] Hk Hw. unfold AddressSpace.resolveOne, ConstantExpr_getZExtValue. rewrite (proj2 (Z.leb_le _ _)) by done.
  cbn [mbind outcome_bind]. rewrite ap_getZExtValue_spec by lia. eexists. split; [done|]. pose proof Hg as [_ Ho].
  rewrite ImmutableTree.lookup_previous_elems by done. set (k := uval addr) in *. unfold points_into.
  destruct (last (ImmutableTree.upto k (pairs (objects a)))) as [x|] eqn:El.
  - assert (x ∈ ImmutableTree.upto k (pairs (objects a))) as Hx by (apply last_Some in El as [l ->]; set_solver).
    apply upto_spec in Hx as [Hx Hle]. destruct (Hr x Hx). unfold u64. rewrite Z.mod_small by lia.
    assert (forall y, y ∈ pairs (objects a) -> address y.1 <= k -> y = x \/ address y.1 < address x.1) as Hlast.
    { intros y Hy Hky. eapply (last_greatest (ImmutableTree.upto k (pairs (objects a)))); [by apply upto_ordered|done|by apply upto_spec]. }
    destruct (Z.eqb_spec (mo_size x.1) 0) as [E0|E0], (Z.eqb_spec k (address x.1)) as [Ea|Ea],
      (Z.ltb_spec (k - address x.1) (mo_size x.1)) as [Elt|Elt]; cbn; try (split; [done|]; lia);
      intros y Hy Hp; destruct (Hlast y Hy ltac:(lia)) as [-> |Hlt]; try lia; pose proof (Hd y x Hy Hx Hlt); destruct (Hr y Hy); lia.
  - apply last_None in El. intros y Hy Hp. assert (y ∈ ImmutableTree.upto k (pairs (objects a))) as H; [|by rewrite El in H; apply elem_of_nil in H].
    apply upto_spec. split; [done|lia].
Qed.

End Resolve.

(** ** Loops over the objects *)

Fixpoint fold_outcome {A} (f : ObjectPair -> A -> outcome A) (l : list ObjectPair) (x : A) : outcome A :=
  match l with [] => Done x | v :: l => x ← f v x; fold_outcome f l x end.

Lemma for_each_ok {A} (f : ObjectPair -> A -> outcome A) (t : MemoryMap) (Ht : good_map t) e n it i x :
  ImmutableTree.at_index t e (length (pairs t)) -> ImmutableTree.at_index t it i -> (i <= length (pairs t))%nat ->
  (length (pairs t) - i < n)%nat -> AddressSpace.for_each n f e it x = fold_outcome f (drop i (pairs t)) x.
Proof.
  intros He. revert it i x. induction n as [|n IH]; intros it i x Hi Hle Hn; [lia|]. cbn [AddressSpace.for_each].
  rewrite (ImmutableTree.iter_eqb_ok t Ht it e i _ Hi He). case_bool_decide as E.
  - subst i. by rewrite drop_all.
  - rewrite (ImmutableTree.deref_iter_ok t Ht it i Hi). destruct (lookup_lt_is_Some_2 (pairs t) i) as [v Hv]; [lia|].
    rewrite Hv. cbn [mbind outcome_bind]. rewrite (drop_S _ v i Hv). cbn [fold_outcome]. destruct (f v x) as [y| | |]; [|done..].
    cbn [mbind outcome_bind]. destruct (ImmutableTree.next_ok t Ht it i Hi) as (it' & -> & Hi'); [lia|]. cbn [mbind outcome_bind].
    apply IH; [done|lia|lia].
Qed.

(** Each object once, in the order of their addresses. *)
Lemma for_objects_ok {A} (f : ObjectPair -> A -> outcome A) a x : good_map (objects a) ->
  AddressSpace.for_objects f a x = fold_outcome f (pairs (objects a)) x.
Proof.
  intros Ht. unfold AddressSpace.for_objects. destruct (ImmutableTree.begin_ok _ Ht) as (b & -> & Hb).
  destruct (ImmutableTree.end_ok (objects a)) as (e & -> & He). cbn [mbind outcome_bind].
  rewrite (for_each_ok f _ Ht e _ b 0 x He Hb); [done|lia|]. rewrite ImmutableTree.size_elems. lia.
Qed.
