(* ===== verification/CopyOnWrite.v ===== *)
(** Copy on write: the address spaces of forked states over one store of object
    states, as a step relation, and its invariant. *)
From stdpp Require Import base numbers list gmap.
From Stdlib Require Import ZArith Lia.
From S2P Require Import Prelude APInt Expr Semantics Memory MemorySound MemoryObjects MapOfSets ImmutableTree AddressSpace.
Local Open Scope Z_scope.

(** The spaces that exist, by the state they belong to. *)
Record System : Type := MkSystem { store : Store; spaces : gmap positive AddressSpace }.

(** What a space can see at an address: the object and its state, whoever owns
    the latter. *)
Definition view (st : Store) (a : AddressSpace) (k : Z) : option (MemoryObject * ObjectState) :=
  x ← ImmutableTree.lookup k (objects a);
  o ← st !! x.2;
  Some (x.1, with_owner 0 o).

(** The masks have the length of the object. *)
Definition masks_ok (o : ObjectState) : Prop := mask_ok (concreteMask o) (os_size o) /\ mask_ok (unflushedMask o) (os_size o).

(** What the state [i] does to its address space.  A write goes through
    [getWriteable], which hands out the state [o]; the writer leaves [o'] there. *)
Inductive action : Type :=
| Fork (j : positive)
| Bind (mo : MemoryObject) (o : ObjectState)
| Unbind (mo : MemoryObject)
| Write (mo : MemoryObject) (o o' : ObjectState)
| Exit.

Inductive step (i : positive) : action -> System -> System -> Prop :=
| step_fork s a j : spaces s !! i = Some a -> spaces s !! j = None -> cowKey a + 1 < 2 ^ 32 ->
    step i (Fork j) s (let '(c, b) := AddressSpace.copy a in MkSystem (store s) (<[j := c]> (<[i := b]> (spaces s))))
| step_bind s a mo p o a' st' : spaces s !! i = Some a -> store s !! p = None -> copyOnWriteOwner o = 0 -> masks_ok o ->
    AddressSpace.bindObject mo p a (<[p := o]> (store s)) = Done (a', st') ->
    step i (Bind mo o) s (MkSystem st' (<[i := a']> (spaces s)))
| step_unbind s a mo a' : spaces s !! i = Some a -> AddressSpace.unbindObject mo a = Done a' ->
    step i (Unbind mo) s (MkSystem (store s) (<[i := a']> (spaces s)))
| step_write s a mo p q a' st' o o' : spaces s !! i = Some a -> ImmutableTree.lookup (address mo) (objects a) = Some (mo, p) ->
    AddressSpace.getWriteable mo p a (store s) = Done (q, a', st') -> st' !! q = Some o ->
    copyOnWriteOwner o' = copyOnWriteOwner o -> masks_ok o' ->
    step i (Write mo o o') s (MkSystem (<[q := o']> st') (<[i := a']> (spaces s)))
| step_exit s a : spaces s !! i = Some a -> step i Exit s (MkSystem (store s) (delete i (spaces s))).

(** One state, with an empty address space. *)
Definition initial_system : System := MkSystem ∅ {[ 1%positive := AddressSpace.new ]}.

Inductive reachable : System -> Prop :=
| reachable_initial : reachable initial_system
| reachable_step i l s s' : reachable s -> step i l s s' -> reachable s'.

(** ** The invariant *)

(** Every state has an owner's key not above the key of a space that sees it, and
    below it when another space sees the state as well: the comment on [objects]
    says the former. *)
Record system_ok (s : System) : Prop := MkSystemOk {
  sys_space i a : spaces s !! i = Some a -> good_map (objects a) /\ 1 <= cowKey a < 2 ^ 32;
  sys_bound i a k x : spaces s !! i = Some a -> ImmutableTree.lookup k (objects a) = Some x ->
    exists o, store s !! x.2 = Some o /\ 1 <= copyOnWriteOwner o <= cowKey a /\ masks_ok o;
  sys_once i a k k' x y : spaces s !! i = Some a -> ImmutableTree.lookup k (objects a) = Some x ->
    ImmutableTree.lookup k' (objects a) = Some y -> x.2 = y.2 -> k = k';
  sys_shared i j a b k k' x y o : spaces s !! i = Some a -> spaces s !! j = Some b -> i <> j ->
    ImmutableTree.lookup k (objects a) = Some x -> ImmutableTree.lookup k' (objects b) = Some y -> x.2 = y.2 ->
    store s !! x.2 = Some o -> copyOnWriteOwner o < cowKey a
}.

Lemma lookup_terminator k : ImmutableTree.lookup k (ImmutableTree.terminator : MemoryMap) = None.
Proof. done. Qed.

Lemma system_ok_initial : system_ok initial_system.
Proof.
  split; cbn; intros i.
  - intros a [<- <-]%lookup_singleton_Some. split; [apply ImmutableTree.good_terminator|cbn; lia].
  - intros a k x [<- <-]%lookup_singleton_Some. done.
  - intros a k k' x y [<- <-]%lookup_singleton_Some. done.
  - intros j a b k k' x y o [<- <-]%lookup_singleton_Some. done.
Qed.

(** A space is replaced by one that sees states at places of the old one, or one
    new state that nobody else sees. *)
Lemma system_ok_update s i a a' st' q : system_ok s -> spaces s !! i = Some a -> good_map (objects a') -> cowKey a' = cowKey a ->
  (forall p o, p <> q -> store s !! p = Some o -> st' !! p = Some o) ->
  (forall k x, ImmutableTree.lookup k (objects a') = Some x -> x.2 = q \/ ImmutableTree.lookup k (objects a) = Some x) ->
  (forall k k' x y, ImmutableTree.lookup k (objects a') = Some x -> ImmutableTree.lookup k' (objects a') = Some y ->
     x.2 = q -> y.2 = q -> k = k') ->
  (forall j b k x, j <> i -> spaces s !! j = Some b -> ImmutableTree.lookup k (objects b) = Some x -> x.2 <> q) ->
  (forall k x, ImmutableTree.lookup k (objects a') = Some x -> x.2 = q ->
     exists o, st' !! q = Some o /\ 1 <= copyOnWriteOwner o <= cowKey a /\ masks_ok o) ->
  system_ok (MkSystem st' (<[i := a']> (spaces s))).
Proof.
  intros Hs Ha Hg Hk Hst Hl Honce Hfree Hq. split; cbn; intros i1.
  - intros b. destruct (decide (i1 = i)) as [-> |Hne]; simplify_map_eq; [|by apply Hs]. intros [= <-]. rewrite Hk. split; [done|].
    by destruct (sys_space _ Hs _ _ Ha).
  - intros b k x. destruct (decide (i1 = i)) as [-> |Hne]; simplify_map_eq.
    + intros [= <-] Hx. rewrite Hk. destruct (decide (x.2 = q)) as [E|Hnq]; [destruct (Hq k x Hx E) as (o & ? & ?); exists o; by rewrite E|].
      destruct (Hl k x Hx) as [|Hx']; [done|]. destruct (sys_bound _ Hs i a k x Ha Hx') as (o & ? & ?). exists o. split; [by apply Hst|done].
    + intros Hb Hx. destruct (sys_bound _ Hs i1 b k x Hb Hx) as (o & ? & ?). exists o. split; [|done]. apply Hst; [|done]. by eapply Hfree.
  - intros b k k' x y. destruct (decide (i1 = i)) as [-> |Hne]; simplify_map_eq; [|by apply Hs].
    intros [= <-] Hx Hy E. destruct (decide (x.2 = q)) as [Ex|Hnx]; [eapply Honce; eauto; congruence|].
    destruct (Hl k x Hx) as [|Hx']; [done|]. destruct (Hl k' y Hy) as [|Hy']; [congruence|]. by eapply (sys_once _ Hs i a).
  - intros j b c k k' x y o. destruct (decide (i1 = i)) as [-> |Hne], (decide (j = i)) as [-> |Hne']; simplify_map_eq.
    + done.
    + intros [= <-] Hc Hij Hx Hy E Ho. rewrite Hk. assert (y.2 <> q) as Hyq by by apply (Hfree j c k' y). assert (x.2 <> q) as Hxq by congruence.
      destruct (Hl k x Hx) as [|Hx']; [done|]. destruct (sys_bound _ Hs i a k x Ha Hx') as (o1 & E1 & _).
      rewrite (Hst _ _ Hxq E1) in Ho. injection Ho as <-. by eapply (sys_shared _ Hs i j a c).
    + intros Hb [= <-] Hij Hx Hy E Ho. assert (x.2 <> q) as Hxq by by apply (Hfree i1 b k x). assert (y.2 <> q) as Hyq by congruence.
      destruct (Hl k' y Hy) as [|Hy']; [done|]. destruct (sys_bound _ Hs i1 b k x Hb Hx) as (o1 & E1 & _).
      rewrite (Hst _ _ Hxq E1) in Ho. injection Ho as <-. by eapply (sys_shared _ Hs i1 i b a).
    + intros Hb Hc Hij Hx Hy E Ho. assert (x.2 <> q) as Hxq by by apply (Hfree i1 b k x).
      destruct (sys_bound _ Hs i1 b k x Hb Hx) as (o1 & E1 & _). rewrite (Hst _ _ Hxq E1) in Ho. injection Ho as <-.
      by eapply (sys_shared _ Hs i1 j b c).
Qed.

(** What [getWriteable] hands out: a state of its own with the contents seen. *)
Lemma getWriteable_inv mo p a st q a' st' : AddressSpace.getWriteable mo p a st = Done (q, a', st') ->
  exists o, st !! p = Some o /\ readOnly o = false /\
    ((q = p /\ a' = a /\ st' = st /\ copyOnWriteOwner o = cowKey a) \/
     (q = fresh (dom st) /\ copyOnWriteOwner o <> cowKey a /\
      a' = MkAS (cowKey a) (ImmutableTree.replace (mo, q) (objects a)) /\
      exists n, ObjectState_copy o = Done n /\ st' = <[q := with_owner (cowKey a) n]> st)).
Proof.
  unfold AddressSpace.getWriteable. destruct (st !! p) as [o|]; [|done]. cbn. destruct (readOnly o) eqn:Er; [done|]. cbn.
  intros H. exists o. split_and!; [done..|]. destruct (Z.eqb_spec (cowKey a) (copyOnWriteOwner o)) as [E|E].
  - injection H as <- <- <-. left. by split_and!.
  - right. destruct (ObjectState_copy o) as [n| | |]; [|done..]. cbn in H. injection H as <- <- <-. split_and!; [done..|]. by exists n.
Qed.

Lemma copy_masks o n : masks_ok o -> ObjectState_copy o = Done n -> n = with_owner 0 o.
Proof.
  intros [Hc Hf]. unfold ObjectState_copy. destruct (readOnly o) eqn:Er; [done|]. cbn. intros [= <-]. unfold with_owner. rewrite Er.
  destruct (concreteMask o), (unflushedMask o); cbn in *; rewrite ?BitArray_copy_ok by done; done.
Qed.

Lemma fresh_store (st : Store) : st !! fresh (dom st) = None.
Proof. apply not_elem_of_dom, is_fresh. Qed.

(** The states that are bound exist, so that a fresh pointer is seen by no space. *)
Lemma sees_stored s i a k x : system_ok s -> spaces s !! i = Some a -> ImmutableTree.lookup k (objects a) = Some x -> is_Some (store s !! x.2).
Proof. intros Hs Ha Hx. destruct (sys_bound _ Hs i a k x Ha Hx) as (o & -> & _). by eexists. Qed.

(** A state owned by a space is seen by no other. *)
Lemma owned_unshared s i a k x o j b k' y : system_ok s -> spaces s !! i = Some a -> ImmutableTree.lookup k (objects a) = Some x ->
  store s !! x.2 = Some o -> copyOnWriteOwner o = cowKey a -> j <> i -> spaces s !! j = Some b ->
  ImmutableTree.lookup k' (objects b) = Some y -> y.2 <> x.2.
Proof.
  intros Hs Ha Hx Ho Eo Hj Hb Hy E. pose proof (sys_shared _ Hs i j a b k k' x y o Ha Hb ltac:(congruence) Hx Hy ltac:(congruence) Ho). lia.
Qed.

Lemma step_fork_ok s i j a : system_ok s -> spaces s !! i = Some a -> spaces s !! j = None -> cowKey a + 1 < 2 ^ 32 ->
  let '(c, b) := AddressSpace.copy a in system_ok (MkSystem (store s) (<[j := c]> (<[i := b]> (spaces s)))).
Proof.
  intros Hs Ha Hj Hk. destruct (sys_space _ Hs _ _ Ha) as [Hg Hck]. unfold AddressSpace.copy. unfold u32. rewrite Z.mod_small by lia.
  set (b := MkAS _ _). assert (i <> j) as Hij by congruence.
  assert (forall l c, <[j := b]> (<[i := b]> (spaces s)) !! l = Some c -> exists l0 c0, spaces s !! l0 = Some c0 /\ objects c = objects c0 /\
    ((l0 = l /\ l <> i /\ l <> j /\ c = c0) \/ (l0 = i /\ (l = i \/ l = j) /\ c0 = a /\ cowKey c = cowKey a + 1))) as Hold.
  { intros l c. destruct (decide (l = j)) as [-> |Hlj]; [rewrite lookup_insert_eq; intros [= <-]; exists i, a; naive_solver|].
    rewrite lookup_insert_ne by done. destruct (decide (l = i)) as [-> |Hli]; [rewrite lookup_insert_eq; intros [= <-]; exists i, a; naive_solver|].
    rewrite lookup_insert_ne by done. intros Hc. exists l, c. naive_solver. }
  split; cbn [spaces store]; intros l.
  - intros c Hc. destruct (Hold l c Hc) as (l0 & c0 & Hc0 & Eo & [(-> & _ & _ & ->)|(-> & _ & -> & Ek)]); [by apply (sys_space _ Hs l)|].
    rewrite Eo, Ek. split; [done|lia].
  - intros c k x Hc Hx. destruct (Hold l c Hc) as (l0 & c0 & Hc0 & Eo & Hcase). rewrite Eo in Hx.
    destruct (sys_bound _ Hs l0 c0 k x Hc0 Hx) as (o & Ho & Hown & Hm). exists o. split_and!; [done|lia| |done].
    destruct Hcase as [(_ & _ & _ & ->)|(_ & _ & -> & Ek)]; lia.
  - intros c k k' x y Hc Hx Hy. destruct (Hold l c Hc) as (l0 & c0 & Hc0 & Eo & _). rewrite Eo in Hx, Hy. by eapply (sys_once _ Hs l0 c0).
  - intros l' c d k k' x y o Hc Hd Hll Hx Hy E Ho.
    destruct (Hold l c Hc) as (l0 & c0 & Hc0 & Eo & Hcase), (Hold l' d Hd) as (l1 & d0 & Hd0 & Eo' & Hcase'). rewrite Eo in Hx. rewrite Eo' in Hy.
    destruct Hcase as [(-> & Hli & Hlj & ->)|(-> & _ & -> & Ek)].
    + apply (sys_shared _ Hs l l1 c0 d0 k k' x y o); try done. destruct Hcase' as [(-> & _)|(-> & _)]; done.
    + destruct (sys_bound _ Hs i a k x Hc0 Hx) as (o1 & Ho1 & Hown & _). rewrite Ho in Ho1. injection Ho1 as <-. lia.
Qed.

(** After a replacement by an object at a fresh address, only its key leads there. *)
Lemma replaced_only t mo (p : positive) k (x : ObjectPair) : good_map t -> (forall k x, ImmutableTree.lookup k t = Some x -> x.2 <> p) ->
  ImmutableTree.lookup k (ImmutableTree.replace (mo, p) t) = Some x -> x.2 = p -> k = address mo.
Proof.
  intros Hg Hfree. rewrite lookup_replace by done. cbn. destruct (Z.eqb_spec k (address mo)); [done|].
  intros Hx Ex. by destruct (Hfree k x Hx).
Qed.

Lemma step_ok i l s s' : system_ok s -> step i l s s' -> system_ok s'.
Proof.
  intros Hs Hst. destruct Hst as [s a j Ha Hj Hk|s a mo p o a' st' Ha Hp Ho Hm E|s a mo a' Ha E|s a mo p q a' st' o o' Ha Hl E Hq Ho Hm|s a Ha].
  - by apply step_fork_ok.
  - unfold AddressSpace.bindObject in E. rewrite lookup_insert_eq in E. cbn in E. rewrite Ho in E. cbn in E. injection E as <- <-.
    destruct (sys_space _ Hs _ _ Ha) as [Hg Hck].
    assert (forall j b k x, spaces s !! j = Some b -> ImmutableTree.lookup k (objects b) = Some x -> x.2 <> p) as Hfree.
    { intros j b k x Hb Hx Ef. destruct (sees_stored s j b k x Hs Hb Hx) as [o1 E1]. congruence. }
    apply (system_ok_update s i a _ _ p); try done.
    + by apply ImmutableTree.replace_good.
    + intros p' o' Hne Hp'. by rewrite !lookup_insert_ne by done.
    + intros k x. cbn. rewrite lookup_replace by done. destruct (k =? _); [intros [= <-]; by left|by right].
    + intros k k' x y Hx Hy Ex Ey. rewrite (replaced_only _ _ _ _ _ Hg (fun k x => Hfree i a k x Ha) Hx Ex).
      by rewrite (replaced_only _ _ _ _ _ Hg (fun k x => Hfree i a k x Ha) Hy Ey).
    + intros j b k x _. apply Hfree.
    + intros k x _ _. rewrite lookup_insert_eq. eexists. split; [done|]. split; [cbn; lia|done].
  - unfold AddressSpace.unbindObject in E. destruct (ImmutableTree.remove (address mo) (objects a)) as [t| | |] eqn:Er; [|done..].
    cbn in E. injection E as <-. destruct (sys_space _ Hs _ _ Ha) as [Hg Hck].
    assert (forall k x, ImmutableTree.lookup k t = Some x -> ImmutableTree.lookup k (objects a) = Some x) as Hl.
    { intros k x. destruct (lookup_remove k _ _ _ Hg Er) as [_ ->]. by destruct (k =? _). }
    assert (forall j b k x, spaces s !! j = Some b -> ImmutableTree.lookup k (objects b) = Some x -> x.2 <> fresh (dom (store s))) as Hfree.
    { intros j b k x Hb Hx Ef. destruct (sees_stored s j b k x Hs Hb Hx) as [o1 E1]. rewrite Ef, fresh_store in E1. done. }
    apply (system_ok_update s i a _ _ (fresh (dom (store s)))); try done.
    + by destruct (lookup_remove 0 _ _ _ Hg Er).
    + intros k x Hx. right. by apply Hl.
    + intros k k' x y Hx Hy Ex Ey. exfalso. by apply (Hfree i a k x Ha (Hl k x Hx)).
    + intros j b k x _. apply Hfree.
    + intros k x Hx Ex. exfalso. by apply (Hfree i a k x Ha (Hl k x Hx)).
  - destruct (sys_space _ Hs _ _ Ha) as [Hg Hck].
    destruct (getWriteable_inv _ _ _ _ _ _ _ E) as (op & Hop & Hro & [(-> & -> & -> & Eown)|(Eq & Hown & -> & n & En & ->)]).
    + apply (system_ok_update s i a _ _ p); try done.
      * intros p' o1 Hne Hp'. by rewrite lookup_insert_ne.
      * intros k x Hx. by right.
      * intros k k' x y Hx Hy Ex Ey. apply (sys_once _ Hs i a k k' x y); [done..|congruence].
      * intros j b k x Hj Hb Hx. by eapply (owned_unshared s i a (address mo) (mo, p) op j b k x).
      * intros k x Hx Ex. rewrite lookup_insert_eq. exists o'. split; [done|]. rewrite Ho. rewrite Hop in Hq. injection Hq as <-. split; [lia|done].
    + rewrite lookup_insert_eq in Hq. injection Hq as <-.
      assert (forall j b k x, spaces s !! j = Some b -> ImmutableTree.lookup k (objects b) = Some x -> x.2 <> q) as Hfree.
      { intros j b k x Hb Hx Ef. destruct (sees_stored s j b k x Hs Hb Hx) as [o1 E1]. rewrite Ef, Eq, fresh_store in E1. done. }
      apply (system_ok_update s i a _ _ q); try done.
      * by apply ImmutableTree.replace_good.
      * intros p' o1 Hne Hp'. by rewrite !lookup_insert_ne by done.
      * intros k x. cbn. rewrite lookup_replace by done. destruct (k =? _); [intros [= <-]; by left|by right].
      * intros k k' x y Hx Hy Ex Ey. rewrite (replaced_only _ _ _ _ _ Hg (fun k x => Hfree i a k x Ha) Hx Ex).
        by rewrite (replaced_only _ _ _ _ _ Hg (fun k x => Hfree i a k x Ha) Hy Ey).
      * intros j b k x _. apply Hfree.
      * intros k x _ _. rewrite lookup_insert_eq. exists o'. split; [done|]. rewrite Ho. split; [cbn; lia|done].
  - split; cbn; intros i1.
    + intros b [_ Hb]%lookup_delete_Some. by apply (sys_space _ Hs i1).
    + intros b k x [_ Hb]%lookup_delete_Some. by apply (sys_bound _ Hs i1).
    + intros b k k' x y [_ Hb]%lookup_delete_Some. by apply (sys_once _ Hs i1).
    + intros j b c k k' x y o [_ Hb]%lookup_delete_Some [_ Hc]%lookup_delete_Some. by apply (sys_shared _ Hs i1).
Qed.

Lemma reachable_ok s : reachable s -> system_ok s.
Proof. induction 1; [apply system_ok_initial|by eapply step_ok]. Qed.

(** ** What the spaces see *)

Lemma view_lookup st a k x o : ImmutableTree.lookup k (objects a) = Some x -> st !! x.2 = Some o -> view st a k = Some (x.1, with_owner 0 o).
Proof. unfold view. intros -> Ho. cbn. by rewrite Ho. Qed.

(** Where the bound states are the same, so is the view. *)
Lemma view_ext st st' a a' k : ImmutableTree.lookup k (objects a') = ImmutableTree.lookup k (objects a) ->
  (forall x, ImmutableTree.lookup k (objects a) = Some x -> st' !! x.2 = st !! x.2) -> view st' a' k = view st a k.
Proof. unfold view. intros ->. destruct (ImmutableTree.lookup k (objects a)) as [x|]; [|done]. cbn. intros H. by rewrite (H x). Qed.

Lemma view_others i l s s' j b : system_ok s -> step i l s s' -> j <> i -> spaces s !! j = Some b ->
  exists b', spaces s' !! j = Some b' /\ forall k, view (store s') b' k = view (store s) b k.
Proof.
  intros Hs Hst Hj Hb.
  destruct Hst as [s a j' Ha Hj' Hk|s a mo p o a' st' Ha Hp Ho Hm E|s a mo a' Ha E|s a mo p q a' st' o o' Ha Hl E Hq Ho Hm|s a Ha];
    exists b; cbn; (split; [repeat rewrite ?lookup_insert_ne, ?lookup_delete_ne by congruence; done|]); try done.
  - intros k. apply view_ext; [done|]. intros x Hx. destruct (sees_stored s j b k x Hs Hb Hx) as [o1 E1].
    assert (x.2 <> p) by congruence. unfold AddressSpace.bindObject in E. rewrite lookup_insert_eq in E. cbn in E. rewrite Ho in E. cbn in E.
    injection E as <- <-. by rewrite !lookup_insert_ne by done.
  - intros k. apply view_ext; [done|]. intros x Hx. destruct (sees_stored s j b k x Hs Hb Hx) as [o1 E1].
    destruct (getWriteable_inv _ _ _ _ _ _ _ E) as (op & Hop & Hro & [(-> & -> & -> & Eown)|(Eq & Hown & -> & n & En & ->)]).
    + rewrite lookup_insert_ne; [done|]. apply not_eq_sym. by eapply (owned_unshared s i a (address mo) (mo, p) op j b k x).
    + assert (x.2 <> q) by (intros Ef; rewrite Ef, Eq, fresh_store in E1; done). by rewrite !lookup_insert_ne by done.
Qed.

(** What an action means to the space that does it. *)
Definition effect (l : action) (before after : Z -> option (MemoryObject * ObjectState)) : Prop :=
  match l with
  | Fork _ => forall k, after k = before k
  | Bind mo o => forall k, after k = if k =? address mo then Some (mo, with_owner 0 o) else before k
  | Unbind mo => forall k, after k = if k =? address mo then None else before k
  | Write mo o o' =>
      before (address mo) = Some (mo, with_owner 0 o) /\
      forall k, after k = if k =? address mo then Some (mo, with_owner 0 o') else before k
  | Exit => True
  end.

Lemma view_own i l s s' a a' : system_ok s -> step i l s s' -> spaces s !! i = Some a -> spaces s' !! i = Some a' ->
  effect l (view (store s) a) (view (store s') a').
Proof.
  intros Hs Hst Ha Ha'.
  destruct Hst as [s b j' Hb Hj' Hk|s b mo p o b' st' Hb Hp Ho Hm E|s b mo b' Hb E|s b mo p q b' st' o o' Hb Hl E Hq Ho Hm|s b Hb];
    rewrite Ha in Hb; injection Hb as <-; destruct (sys_space _ Hs _ _ Ha) as [Hg Hck]; cbn [effect store spaces AddressSpace.copy] in *.
  - rewrite lookup_insert_ne, lookup_insert_eq in Ha' by congruence. injection Ha' as <-. done.
  - rewrite lookup_insert_eq in Ha'. injection Ha' as <-. unfold AddressSpace.bindObject in E. rewrite lookup_insert_eq in E. cbn in E.
    rewrite Ho in E. cbn in E. injection E as <- <-. intros k. destruct (Z.eqb_spec k (address mo)) as [-> |Hne].
    + rewrite (view_lookup _ _ _ (mo, p) (with_owner (cowKey a) o)); [done|cbn; rewrite lookup_replace by done; cbn; by rewrite Z.eqb_refl|by rewrite lookup_insert_eq].
    + apply view_ext; [cbn; rewrite lookup_replace by done; cbn; by rewrite (proj2 (Z.eqb_neq _ _) Hne)|]. intros x Hx.
      destruct (sees_stored s i a k x Hs Ha Hx) as [o1 E1]. rewrite !lookup_insert_ne by congruence. done.
  - rewrite lookup_insert_eq in Ha'. injection Ha' as <-. unfold AddressSpace.unbindObject in E.
    destruct (ImmutableTree.remove (address mo) (objects a)) as [t| | |] eqn:Er; [|done..]. cbn in E. injection E as <-. intros k.
    destruct (lookup_remove k _ _ _ Hg Er) as [_ El]. case_match; [unfold view; cbn; by rewrite El|by apply view_ext].
  - rewrite lookup_insert_eq in Ha'. injection Ha' as <-. destruct (sys_bound _ Hs i a _ _ Ha Hl) as (o1 & Ho1 & _ & Hm1).
    destruct (getWriteable_inv _ _ _ _ _ _ _ E) as (op & Hop & Hro & Hcase). cbn in Ho1. rewrite Hop in Ho1. injection Ho1 as <-.
    destruct Hcase as [(-> & -> & -> & Eown)|(Eq & Hown & -> & n & En & ->)].
    + rewrite Hop in Hq. injection Hq as <-. split; [by apply (view_lookup _ _ _ (mo, p))|]. intros k.
      destruct (Z.eqb_spec k (address mo)) as [-> |Hne]; [apply (view_lookup _ _ _ (mo, p)); [done|by rewrite lookup_insert_eq]|].
      apply view_ext; [done|]. intros x Hx. rewrite lookup_insert_ne; [done|]. intros Ep. by apply Hne, (sys_once _ Hs i a k (address mo) x (mo, p)).
    + rewrite lookup_insert_eq in Hq. injection Hq as <-. apply copy_masks in En as ->; [|done]. split; [by apply (view_lookup _ _ _ (mo, p) op)|].
      intros k. destruct (Z.eqb_spec k (address mo)) as [-> |Hne].
      * apply (view_lookup _ _ _ (mo, q)); [cbn; rewrite lookup_replace by done; cbn; by rewrite Z.eqb_refl|by rewrite lookup_insert_eq].
      * apply view_ext; [cbn; rewrite lookup_replace by done; cbn; by rewrite (proj2 (Z.eqb_neq _ _) Hne)|]. intros x Hx.
        destruct (sees_stored s i a k x Hs Ha Hx) as [o1 E1]. assert (x.2 <> q) by (intros Ef; rewrite Ef, Eq, fresh_store in E1; done).
        by rewrite !lookup_insert_ne by done.
  - by rewrite lookup_delete_eq in Ha'.
Qed.

(** A forked state sees what its parent saw. *)
Lemma view_child i j s s' b : step i (Fork j) s s' -> spaces s' !! j = Some b ->
  exists a, spaces s !! i = Some a /\ forall k, view (store s') b k = view (store s) a k.
Proof.
  intros Hst. inversion Hst as [? a ? Ha Hj Hk| | | |]; subst. cbn. rewrite lookup_insert_eq. intros [= <-].
  exists a. split; [done|]. done.
Qed.

(** The states that exist after a step. *)
Lemma step_alive i l s s' j : step i l s s' ->
  is_Some (spaces s' !! j) <->
    match l with
    | Fork c => j = c \/ is_Some (spaces s !! j)
    | Exit => j <> i /\ is_Some (spaces s !! j)
    | _ => is_Some (spaces s !! j)
    end.
Proof.
  intros Hst. destruct Hst as [s a j' Ha Hj' Hk|s a mo p o a' st' Ha Hp Ho Hm E|s a mo a' Ha E|s a mo p q a' st' o o' Ha Hl E Hq Ho Hm|s a Ha]; cbn [spaces AddressSpace.copy].
  - destruct (decide (j = j')) as [-> |Hne]; [rewrite lookup_insert_eq; naive_solver|]. rewrite lookup_insert_ne by done.
    destruct (decide (j = i)) as [-> |Hni]; [rewrite lookup_insert_eq, Ha; naive_solver|]. rewrite lookup_insert_ne by done. naive_solver.
  - destruct (decide (j = i)) as [-> |Hni]; [rewrite lookup_insert_eq, Ha; naive_solver|by rewrite lookup_insert_ne].
  - destruct (decide (j = i)) as [-> |Hni]; [rewrite lookup_insert_eq, Ha; naive_solver|by rewrite lookup_insert_ne].
  - destruct (decide (j = i)) as [-> |Hni]; [rewrite lookup_insert_eq, Ha; naive_solver|by rewrite lookup_insert_ne].
  - destruct (decide (j = i)) as [-> |Hni]; [rewrite lookup_delete_eq; naive_solver|]. rewrite lookup_delete_ne by done. naive_solver.
Qed.

(** ** Deep copies *)

(** The same history with a full copy of the memory at every fork: every state
    has its own map, which only its own actions change. *)
Definition Memories : Type := positive -> option (Z -> option (MemoryObject * ObjectState)).

Definition deep_action (l : action) (m : Z -> option (MemoryObject * ObjectState)) : Z -> option (MemoryObject * ObjectState) :=
  match l with
  | Bind mo o => fun k => if k =? address mo then Some (mo, with_owner 0 o) else m k
  | Unbind mo => fun k => if k =? address mo then None else m k
  | Write mo _ o' => fun k => if k =? address mo then Some (mo, with_owner 0 o') else m k
  | _ => m
  end.

Definition deep_step (x : positive * action) (M : Memories) : Memories :=
  let '(i, l) := x in
  fun j =>
    match l with
    | Fork c => if decide (j = c) then M i else M j
    | Exit => if decide (j = i) then None else M j
    | _ => if decide (j = i) then deep_action l <$> M i else M j
    end.

Definition deep_initial : Memories := fun i => if decide (i = 1%positive) then Some (fun _ => None) else None.

(** A history, the latest step first. *)
Definition replay (tr : list (positive * action)) : Memories := foldr deep_step deep_initial tr.

(** What a writer was given is what its own memory holds. *)
Fixpoint reads_agree (tr : list (positive * action)) : Prop :=
  match tr with
  | [] => True
  | (i, l) :: tr =>
      (match l with Write mo o _ => exists m, replay tr i = Some m /\ m (address mo) = Some (mo, with_owner 0 o) | _ => True end) /\ reads_agree tr
  end.

Inductive run : list (positive * action) -> System -> Prop :=
| run_nil : run [] initial_system
| run_cons tr i l s s' : run tr s -> step i l s s' -> run ((i, l) :: tr) s'.

Lemma run_reachable tr s : run tr s -> reachable s.
Proof. induction 1; [constructor|by eapply reachable_step]. Qed.

(** The spaces of a system show these memories. *)
Definition shows_memories (s : System) (M : Memories) : Prop :=
  forall i, match spaces s !! i, M i with
            | Some a, Some m => forall k, view (store s) a k = m k
            | None, None => True
            | _, _ => False
            end.

Lemma shows_alive s M j : shows_memories s M -> is_Some (spaces s !! j) <-> is_Some (M j).
Proof. intros H. specialize (H j). destruct (spaces s !! j), (M j); try done; split; eauto. Qed.

Lemma step_alive_deep i l s s' M j : shows_memories s M -> step i l s s' -> is_Some (spaces s' !! j) <-> is_Some (deep_step (i, l) M j).
Proof.
  intros HM Hst. rewrite (step_alive i l s s' j Hst). pose proof (shows_alive s M j HM) as Hj. pose proof (shows_alive s M i HM) as Hi.
  assert (is_Some (spaces s !! i)) as Hal by (destruct Hst; by eexists). pose proof (proj1 Hi Hal) as HMi.
  destruct l as [c|mo o|mo|mo o o'|]; cbn [deep_step]; case_decide as E; try subst j; rewrite ?fmap_is_Some; try tauto.
  split; [tauto|by intros []].
Qed.

Lemma step_shows i l s s' M : system_ok s -> shows_memories s M -> step i l s s' -> shows_memories s' (deep_step (i, l) M).
Proof.
  intros Hs HM Hst j. pose proof (step_alive_deep i l s s' M j HM Hst) as Hj.
  assert (forall b, spaces s' !! j = Some b -> exists m, deep_step (i, l) M j = Some m /\ forall k, view (store s') b k = m k) as H.
  { intros b Hb. destruct (decide (j = i)) as [-> |Hne].
    - assert (exists a, spaces s !! i = Some a) as [a Ha] by (destruct Hst; by eexists). pose proof (HM i) as HMi. rewrite Ha in HMi.
      destruct (M i) as [m|] eqn:Em; [|done]. pose proof (view_own i l s s' a b Hs Hst Ha Hb) as He.
      destruct l as [c|mo o|mo|mo o o'|]; cbn [deep_step effect] in *.
      + exists m. case_decide; (split; [done|]); intros k; by rewrite He.
      + rewrite decide_True by done. rewrite Em. eexists. split; [done|]. intros k. cbn. rewrite He. destruct (k =? address mo); [done|apply HMi].
      + rewrite decide_True by done. rewrite Em. eexists. split; [done|]. intros k. cbn. rewrite He. destruct (k =? address mo); [done|apply HMi].
      + rewrite decide_True by done. rewrite Em. eexists. split; [done|]. intros k. cbn. destruct He as [_ He]. rewrite He. destruct (k =? address mo); [done|apply HMi].
      + rewrite decide_True in Hj by done. by destruct (proj1 Hj ltac:(by eexists)).
    - destruct (spaces s !! j) as [a|] eqn:Ha.
      + destruct (view_others i l s s' j a Hs Hst Hne Ha) as (b' & Hb' & Hv). rewrite Hb in Hb'. injection Hb' as <-.
        pose proof (HM j) as HMj. rewrite Ha in HMj. destruct (M j) as [m|] eqn:Em; [|done]. exists m. split; [|intros k; by rewrite Hv].
        destruct l as [c|mo o|mo|mo o o'|]; cbn [deep_step]; rewrite ?decide_False by done; try done. case_decide; [|done]. subst c.
        inversion Hst; congruence.
      + pose proof (proj1 (step_alive i l s s' j Hst) ltac:(by eexists)) as Hal. rewrite Ha in Hal.
        destruct l as [c|mo o|mo|mo o o'|]; try (by destruct Hal as [? ?]); try (by destruct Hal as [_ [? ?]]). destruct Hal as [-> |[]]; [|done].
        destruct (view_child i c s s' b Hst Hb) as (a & Ha' & Hv). pose proof (HM i) as HMi. rewrite Ha' in HMi.
        cbn [deep_step]. rewrite decide_True by done. destruct (M i) as [m|]; [|done]. exists m. split; [done|]. intros k. by rewrite Hv. }
  destruct (spaces s' !! j) as [b|] eqn:Hb.
  - destruct (H b eq_refl) as (m & -> & Hv). done.
  - destruct (deep_step (i, l) M j); [|done]. by destruct (proj2 Hj ltac:(by eexists)).
Qed.
