(* ===== verification/SymbolicObjects.v ===== *)
(** The symbolic arrays of expressions ([findSymbolicObjects], ExprUtil.cpp). *)
From stdpp Require Import base list numbers strings sets.
From Stdlib Require Import ZArith Lia.
From S2P Require Import Prelude APInt Expr Semantics ExprWeight Visitor FindReads.
Local Open Scope Z_scope.

(** [SymbolicObjectFinder]: what [ExprVisitor] remembers, and its own members. *)
Record ObjectFinder : Type := MkObjectFinder {
  of_visited : list Expr;
  of_results : list positive;
  of_objects : list positive
}.

Section Finder.
Context {AP : APIntOps} {AH : ArrayHeap} {VO : VisitorOptions}.

Definition of_add (r : positive) (s : ObjectFinder) : ObjectFinder :=
  if isSymbolicArray (array_at r) then
    if bool_decide (r ∈ of_results s) then s
    else MkObjectFinder (of_visited s) (of_results s ++ [r]) (of_objects s ++ [r])
  else s.

Definition of_enter (e : Expr) (s : ObjectFinder) (k : ObjectFinder) : ObjectFinder :=
  if UseVisitorHash then
    if existsb (expr_eqb e) (of_visited s) then s
    else MkObjectFinder (e :: of_visited k) (of_results k) (of_objects k)
  else k.

(** [ExprVisitor::visit] for this visitor: every method answers that the kids
    are to be visited, so that nothing is rebuilt. *)
Fixpoint of_visit (e : Expr) (s : ObjectFinder) : ObjectFinder :=
  match e with
  | ConstantExpr _ => s
  | NotOptimizedExpr x => of_enter e s (of_visit x s)
  | ReadExpr r u i => of_enter e s (of_visit i (of_add r (of_updates u s)))
  | SelectExpr c t f => of_enter e s (of_visit f (of_visit t (of_visit c s)))
  | ConcatExpr l r => of_enter e s (of_visit r (of_visit l s))
  | ExtractExpr x _ _ => of_enter e s (of_visit x s)
  | NotExpr x => of_enter e s (of_visit x s)
  | CastExpr _ x _ => of_enter e s (of_visit x s)
  | BinaryExpr _ l r => of_enter e s (of_visit r (of_visit l s))
  end
with of_updates (u : UpdateNode) (s : ObjectFinder) : ObjectFinder :=
  match u with
  | UNull => s
  | UNode next i v => of_updates next (of_visit v (of_visit i s))
  end.

Definition findSymbolicObjects (es : list Expr) : list positive :=
  of_objects (foldl (fun s e => of_visit e s) (MkObjectFinder [] [] []) es).

(** ** What is found *)

(** A read of the symbolic array is among the expressions. *)
Definition reads_in (r : positive) (l : list Expr) : Prop :=
  isSymbolicArray (array_at r) = true /\ exists u i, ReadExpr r u i ∈ l.

Abbreviation reads_array r e := (reads_in r (subs e)).

Record finder_ok (s : ObjectFinder) : Prop := MkFinderOk {
  fo_visited : forall e, e ∈ of_visited s -> forall r, reads_array r e -> r ∈ of_results s;
  fo_objects : of_objects s = of_results s;
  fo_nodup : NoDup (of_objects s)
}.

(** The step found exactly the arrays described by [Q]. *)
Record found (Q : positive -> Prop) (s s' : ObjectFinder) : Prop := MkFound {
  fd_ok : finder_ok s';
  fd_results : forall r, r ∈ of_results s' <-> r ∈ of_results s \/ Q r
}.

Context {APL : APIntLaws}.

Lemma found_refl s : finder_ok s -> found (fun _ => False) s s.
Proof. intros H. split; [done|]. tauto. Qed.

Lemma found_trans Q Q' s1 s2 s3 : found Q s1 s2 -> found Q' s2 s3 -> found (fun r => Q r \/ Q' r) s1 s3.
Proof. intros [A1 A2] [B1 B2]. split; [done|]. intros r. rewrite B2, A2. tauto. Qed.

Lemma found_ext Q Q' s s' : found Q s s' -> (forall r, Q r <-> Q' r) -> found Q' s s'.
Proof. intros [A B] H. split; [done|]. intros r. by rewrite B, H. Qed.

Lemma of_add_ok r s : finder_ok s -> found (fun x => isSymbolicArray (array_at r) = true /\ x = r) s (of_add r s).
Proof.
  intros [H1 H2 H3]. unfold of_add. destruct (isSymbolicArray (array_at r)) eqn:E.
  2: { split; [done|]. intros x. split; [tauto|]. intros [?|[? _]]; [done|congruence]. }
  case_bool_decide as Hin.
  { split; [done|]. intros x. split; [tauto|]. intros [?|[_ ->]]; done. }
  split; [split; cbn|cbn; set_solver].
  - intros e He x Hx. apply elem_of_app. left. eauto.
  - by rewrite H2.
  - apply NoDup_app. split_and!; [done| |apply NoDup_singleton]. rewrite H2. set_solver.
Qed.

Lemma of_enter_ok e s k : finder_ok s -> found (fun r => reads_array r e) s k ->
  found (fun r => reads_array r e) s (of_enter e s k).
Proof.
  intros Hs [[K1 K2 K3] K4]. unfold of_enter. destruct UseVisitorHash; [|done].
  destruct (existsb (expr_eqb e) (of_visited s)) eqn:E.
  - split; [done|]. intros r. split; [tauto|]. intros [?|Hr]; [done|].
    apply existsb_exists in E as (x & Hx%list_elem_of_In & ->%expr_eqb_eq). by eapply (fo_visited s Hs).
  - split; [split; cbn|exact K4]; auto. intros x [-> |Hx]%elem_of_cons r Hr; [|by eapply K1]. apply K4. by right.
Qed.

Lemma reads_in_app r a b : reads_in r (a ++ b) <-> reads_in r a \/ reads_in r b.
Proof. unfold reads_in. setoid_rewrite elem_of_app. naive_solver. Qed.

Lemma reads_in_other r e l : isReadExpr e = false -> reads_in r (e :: l) <-> reads_in r l.
Proof.
  intros He. unfold reads_in. setoid_rewrite elem_of_cons. split; [|naive_solver].
  intros (? & u & i & [<-|?]); [done|]. eauto.
Qed.

Lemma reads_in_read r r' u i l :
  reads_in r (ReadExpr r' u i :: l) <-> (isSymbolicArray (array_at r') = true /\ r = r') \/ reads_in r l.
Proof.
  unfold reads_in. setoid_rewrite elem_of_cons. split.
  - intros (? & u' & i' & [[= -> -> ->]|?]); [by left|right; eauto].
  - intros [[? ->]|(? & u' & i' & ?)]; [split; [done|]; exists u, i; by left|eauto 6].
Qed.

Lemma of_visit_ok_mut :
  (forall e s, finder_ok s -> found (fun r => reads_in r (subs e)) s (of_visit e s)) /\
  (forall u s, finder_ok s -> found (fun r => reads_in r (un_subs u)) s (of_updates u s)).
Proof.
  apply Expr_UpdateNode_ind; cbn [of_visit of_updates].
  - intros v s Hs. eapply found_ext; [by apply found_refl|]. intros r. cbn. rewrite reads_in_other by done.
    split; [done|]. intros (_ & u & i & H). by apply elem_of_nil in H.
  - intros x IH s Hs. apply of_enter_ok; [done|]. eapply found_ext; [by apply IH|]. intros r. cbn. by rewrite reads_in_other.
  - intros r0 u IHu i IHi s Hs. apply of_enter_ok; [done|]. pose proof (IHu s Hs) as Fu.
    pose proof (of_add_ok r0 _ (fd_ok _ _ _ Fu)) as Fa. pose proof (IHi _ (fd_ok _ _ _ Fa)) as Fi.
    eapply found_ext; [exact (found_trans _ _ _ _ _ (found_trans _ _ _ _ _ Fu Fa) Fi)|].
    intros r. cbn. rewrite reads_in_read, reads_in_app. tauto.
  - intros c IHc t IHt f IHf s Hs. apply of_enter_ok; [done|]. pose proof (IHc s Hs) as Fc.
    pose proof (IHt _ (fd_ok _ _ _ Fc)) as Ft. pose proof (IHf _ (fd_ok _ _ _ Ft)) as Ff.
    eapply found_ext; [exact (found_trans _ _ _ _ _ (found_trans _ _ _ _ _ Fc Ft) Ff)|].
    intros r. cbn. rewrite reads_in_other, !reads_in_app by done. tauto.
  - intros l IHl r0 IHr s Hs. apply of_enter_ok; [done|]. pose proof (IHl s Hs) as Fl.
    pose proof (IHr _ (fd_ok _ _ _ Fl)) as Fr. eapply found_ext; [exact (found_trans _ _ _ _ _ Fl Fr)|].
    intros r. cbn. by rewrite reads_in_other, reads_in_app.
  - intros x IH off w s Hs. apply of_enter_ok; [done|]. eapply found_ext; [by apply IH|]. intros r. cbn. by rewrite reads_in_other.
  - intros x IH s Hs. apply of_enter_ok; [done|]. eapply found_ext; [by apply IH|]. intros r. cbn. by rewrite reads_in_other.
  - intros k x IH w s Hs. apply of_enter_ok; [done|]. eapply found_ext; [by apply IH|]. intros r. cbn. by rewrite reads_in_other.
  - intros k l IHl r0 IHr s Hs. apply of_enter_ok; [done|]. pose proof (IHl s Hs) as Fl.
    pose proof (IHr _ (fd_ok _ _ _ Fl)) as Fr. eapply found_ext; [exact (found_trans _ _ _ _ _ Fl Fr)|].
    intros r. cbn. by rewrite reads_in_other, reads_in_app.
  - intros s Hs. eapply found_ext; [by apply found_refl|]. intros r. split; [done|].
    intros (_ & u & i & H). by apply elem_of_nil in H.
  - intros n IHn i IHi v IHv s Hs. pose proof (IHi s Hs) as Fi. pose proof (IHv _ (fd_ok _ _ _ Fi)) as Fv.
    pose proof (IHn _ (fd_ok _ _ _ Fv)) as Fn.
    eapply found_ext; [exact (found_trans _ _ _ _ _ (found_trans _ _ _ _ _ Fi Fv) Fn)|].
    intros r. cbn. rewrite !reads_in_app. tauto.
Qed.

(** The arrays found are those a read of which occurs, each once. *)
Lemma findSymbolicObjects_ok es : NoDup (findSymbolicObjects es) /\
  forall r, r ∈ findSymbolicObjects es <-> exists e, e ∈ es /\ reads_array r e.
Proof.
  unfold findSymbolicObjects.
  assert (forall s, finder_ok s -> found (fun r => exists e, e ∈ es /\ reads_array r e) s
    (foldl (fun s e => of_visit e s) s es)) as H.
  { induction es as [|e es IH]; intros s Hs; cbn.
    - eapply found_ext; [by apply found_refl|]. intros r. split; [done|]. intros (e & He & _). by apply elem_of_nil in He.
    - pose proof (proj1 of_visit_ok_mut e s Hs) as Fe. pose proof (IH _ (fd_ok _ _ _ Fe)) as Fs.
      eapply found_ext; [exact (found_trans _ _ _ _ _ Fe Fs)|]. intros r. setoid_rewrite elem_of_cons.
      split; [intros [H|(e' & ? & ?)]; eauto|]. intros (e' & [-> |?] & ?); [by left|right; eauto]. }
  destruct (H (MkObjectFinder [] [] [])) as [[_ Ho Hn] Hr].
  { split; cbn; [|done|constructor]. intros e He. by apply elem_of_nil in He. }
  split; [done|]. intros r. rewrite Ho, Hr. cbn. rewrite elem_of_nil. tauto.
Qed.

End Finder.

Abbreviation reads_array r e := (reads_in r (subs e)).

Section Dependence.
Context {AH : ArrayHeap}.

(** Environments that give the same contents to an array. *)
Definition same_contents (ρ ρ' : env) (r : positive) : Prop :=
  forall k, initial_value ρ r k = initial_value ρ' r k.

Lemma same_contents_constant ρ ρ' r : isSymbolicArray (array_at r) = false -> same_contents ρ ρ' r.
Proof. intros H k. unfold initial_value, isConstantArray. by rewrite H. Qed.

(** The value of an expression depends on the arrays it reads. *)
Lemma eval_same_contents_mut ρ ρ' :
  (forall e, (forall r, reads_in r (subs e) -> same_contents ρ ρ' r) -> eval ρ e = eval ρ' e) /\
  (forall u, (forall r, reads_in r (un_subs u) -> same_contents ρ ρ' r) ->
     forall r k, same_contents ρ ρ' r -> eval_read ρ r u k = eval_read ρ' r u k).
Proof.
  apply Expr_UpdateNode_ind; cbn [subs un_subs eval eval_read].
  - done.
  - intros x IH H. apply IH. intros r Hr. apply H. by rewrite reads_in_other.
  - intros r u IHu i IHi H. rewrite IHi by (intros r' Hr'; apply H; rewrite reads_in_read, reads_in_app; auto).
    apply IHu; [intros r' Hr'; apply H; rewrite reads_in_read, reads_in_app; auto|].
    destruct (isSymbolicArray (array_at r)) eqn:E; [|by apply same_contents_constant].
    apply H. rewrite reads_in_read. auto.
  - intros c IHc t IHt f IHf H. rewrite IHc, IHt, IHf; [done|..]; intros r Hr; apply H;
      rewrite reads_in_other, !reads_in_app by done; auto.
  - intros l IHl r0 IHr H. rewrite IHl, IHr; [done|..]; intros r Hr; apply H;
      rewrite reads_in_other, reads_in_app by done; auto.
  - intros x IH off w H. rewrite IH; [done|]. intros r Hr. apply H. by rewrite reads_in_other.
  - intros x IH H. rewrite IH; [done|]. intros r Hr. apply H. by rewrite reads_in_other.
  - intros k x IH w H. rewrite IH; [done|]. intros r Hr. apply H. by rewrite reads_in_other.
  - intros k l IHl r0 IHr H. rewrite IHl, IHr; [done|..]; intros r Hr; apply H;
      rewrite reads_in_other, reads_in_app by done; auto.
  - intros _ r k H. apply H.
  - intros n IHn i IHi v IHv H r k Hr. rewrite IHi, IHv by (intros r' Hr'; apply H; rewrite !reads_in_app; auto).
    case_match; [done|]. apply IHn; [|done]. intros r' Hr'. apply H. rewrite !reads_in_app. auto.
Qed.

Lemma eval_same_contents ρ ρ' e : (forall r, reads_array r e -> same_contents ρ ρ' r) -> eval ρ e = eval ρ' e.
Proof. apply eval_same_contents_mut. Qed.

End Dependence.
