(* ===== verification/InitialValues.v ===== *)
(** Counterexamples: [computeInitialValues] of the solvers, and what the layers
    that pass it on or check it make of it (Solver.cpp, CachingSolver.cpp,
    IncompleteSolver.cpp, AssignmentValidatingSolver.cpp).

    The caller's [hasSolution] is not initialised, so a solver that fails may
    leave it unwritten; [iv_hasSolution] is [None] then, and reading it is
    undefined. *)
From stdpp Require Import base list numbers strings gmap.
From Stdlib Require Import ZArith Lia.
From S2P Require Import Prelude APInt Expr Semantics ConstantOps ExprCreate CreateSound OpsSound ExprWeight Visitor FindReads Solver Evaluator IncompleteSolver CachingSolver SymbolicObjects.
Local Open Scope Z_scope.

Record InitialResult : Type := MkInitial {
  iv_success : bool;
  iv_hasSolution : option bool;
  iv_values : list (list Z)
}.

Class InitialSolver (S : Type) : Type := {
  computeInitialValues : Query -> list positive -> S -> outcome (InitialResult * S)
}.

(** ** What a counterexample is *)

Section Solutions.
Context {AH : ArrayHeap}.

(** One byte for every element of every object. *)
Definition values_ok (objects : list positive) (values : list (list Z)) : Prop :=
  Forall2 (fun r bs => Z.of_nat (length bs) = arr_size (array_at r) /\ Forall (fun v => 0 <= v < 2 ^ 8) bs)
    objects values.

(** The environment has these bytes in the symbolic arrays. *)
Definition has_values (ρ : env) (objects : list positive) (values : list (list Z)) : Prop :=
  Forall2 (fun r bs => isSymbolicArray (array_at r) = true -> forall k v, bs !! k = Some v ->
             initial_value ρ r (Z.of_nat k) = v mod 2 ^ arr_range (array_at r)) objects values.

Definition counterexample (q : Query) (ρ : env) : Prop :=
  sat ρ (constraints q) /\ eval ρ (q_expr q) = 0.

(** Boolean constraints and a boolean expression. *)
Definition shaped (q : Query) : Prop := Forall boolean (constraints q) /\ boolean (q_expr q).

(** Values for the objects that are part of a counterexample. *)
Definition solution (q : Query) (objects : list positive) (values : list (list Z)) : Prop :=
  values_ok objects values /\ exists ρ, counterexample q ρ /\ has_values ρ objects values.

Definition initial_result_ok (q : Query) (objects : list positive) (r : InitialResult) : Prop :=
  iv_success r = true ->
  (iv_hasSolution r = Some false /\ valid q) \/
  (iv_hasSolution r = Some true /\ solution q objects (iv_values r)).

(** The arrays a caller may ask about. *)
Definition objects_ok (objects : list positive) : Prop :=
  NoDup objects /\ Forall (fun r => wf_array (array_at r)) objects.

End Solutions.

(** The contract of [computeInitialValues] on the queries in [G]. *)
Class SoundInitialSolver (S : Type) `{InitialSolver S} {AH : ArrayHeap} (G : Query -> Prop) : Type := {
  iv_inv : S -> Prop;
  initial_ok q objects s : iv_inv s -> G q -> objects_ok objects ->
    exists r s', computeInitialValues q objects s = Done (r, s') /\ iv_inv s' /\ initial_result_ok q objects r
}.
Arguments iv_inv {S _ AH} G {_}.

(** ** The facade and the layers that pass the question on *)

Section Layers.
Context {AP : APIntOps} {AH : ArrayHeap} {OP : ExprOptions} {VO : VisitorOptions}.
Context {S : Type} {iops : InitialSolver S}.

(** [Solver::getInitialValues]: [hasSolution] is read before [success]. *)
Definition getInitialValues (q : Query) (objects : list positive) (s : S) : outcome (option (list (list Z)) * S) :=
  '(r, s) ← computeInitialValues q objects s;
  match iv_hasSolution r with
  | None => Undefined
  | Some false => Done (None, s)
  | Some true => Done (if iv_success r then Some (iv_values r) else None, s)
  end.

(** [CachingSolver::computeInitialValues] *)
Definition caching_computeInitialValues (q : Query) (objects : list positive) (s : CachingSolver.t S)
    : outcome (InitialResult * CachingSolver.t S) :=
  '(r, s') ← computeInitialValues q objects (CachingSolver.solver s);
  Done (r, CachingSolver.Mk s' (CachingSolver.cache s)).

(** [StagedSolverImpl::computeInitialValues]; [primary] is that of the
    incomplete solver. *)
Definition staged_computeInitialValues (primary : Query -> list positive -> outcome InitialResult)
    (q : Query) (objects : list positive) (s : @StagedSolver.t S) : outcome (InitialResult * @StagedSolver.t S) :=
  r ← primary q objects;
  if iv_success r then Done (r, s)
  else
    '(r, s') ← computeInitialValues q objects (StagedSolver.secondary s);
    Done (r, StagedSolver.Mk s').

(** [AssignmentValidatingSolver::computeInitialValues]: [abort] when a
    constraint or the expression does not come out as it should. *)
Fixpoint check_constraints (a : Assignment) (cs : list Expr) : outcome unit :=
  match cs with
  | [] => Done tt
  | c :: cs =>
      e ← Assignment_evaluate a c;
      match e with
      | ConstantExpr CE => if ConstantExpr_isFalse CE then AssertFail else check_constraints a cs
      | _ => AssertFail
      end
  end.

Definition check_query_expr (a : Assignment) (e : Expr) : outcome unit :=
  e ← Assignment_evaluate a e;
  match e with
  | ConstantExpr CE => if ConstantExpr_isTrue CE then AssertFail else Done tt
  | _ => AssertFail
  end.

Definition assignment_validating_computeInitialValues (q : Query) (objects : list positive) (s : S)
    : outcome (InitialResult * S) :=
  '(r, s) ← computeInitialValues q objects s;
  match iv_hasSolution r with
  | None => Undefined
  | Some false => Done (r, s)
  | Some true =>
      a ← Assignment_make objects (iv_values r) true;
      _ ← check_constraints a (constraints q);
      _ ← check_query_expr a (q_expr q);
      Done (r, s)
  end.

End Layers.

(** ** Assignments from values *)

Lemma bind_objects_ok objects values m : (length objects <= length values)%nat ->
  exists m', bind_objects objects values m = Done m' /\
    forall r, m' !! r = match m !! r with Some bs => Some bs
                        | None => (list_to_map (zip objects values) : gmap positive (list Z)) !! r end.
Proof.
  revert values m. induction objects as [|o objects IH]; intros values m Hl; cbn.
  { exists m. split; [done|]. intros r. destruct (m !! r) eqn:E; by rewrite ?lookup_empty. }
  destruct values as [|bs values]; [cbn in Hl; lia|]. cbn in Hl.
  destruct (IH values (match m !! o with Some _ => m | None => <[o := bs]> m end) ltac:(lia)) as (m' & Em & Hm).
  exists m'. split; [done|]. intros r. rewrite Hm. cbn. destruct (decide (r = o)) as [->|Hne].
  - rewrite lookup_insert_eq. destruct (m !! o) eqn:E; [by rewrite E|]. by rewrite lookup_insert_eq.
  - rewrite (lookup_insert_ne _ o) by done. destruct (m !! o) eqn:E; [done|]. by rewrite lookup_insert_ne.
Qed.

Lemma bind_objects_length objects values m m' : bind_objects objects values m = Done m' ->
  (length objects <= length values)%nat.
Proof.
  revert values m. induction objects as [|o objects IH]; intros [|bs values] m H; cbn in *; try done; [lia..|].
  apply IH in H. lia.
Qed.

(** The assignment of an object is its value. *)
Lemma Assignment_make_ok objects values allow : (length objects <= length values)%nat ->
  exists a, Assignment_make objects values allow = Done a /\ allowFreeValues a = allow /\
    forall r, bindings a !! r = (list_to_map (zip objects values) : gmap positive (list Z)) !! r.
Proof.
  intros Hl. destruct (bind_objects_ok objects values ∅ Hl) as (m & Em & Hm). unfold Assignment_make.
  rewrite Em. eexists. split; [done|]. split; [done|]. intros r. rewrite Hm. by rewrite lookup_empty.
Qed.

Lemma zip_Forall2 {A B} (P : A -> B -> Prop) la lb a b : Forall2 P la lb -> (a, b) ∈ zip la lb -> P a b.
Proof. induction 1; cbn; [by intros ?%elem_of_nil|]. intros [[= -> ->]|?]%elem_of_cons; auto. Qed.

Section Made.
Context {AH : ArrayHeap}.

(** An assignment made of the right values for symbolic arrays. *)
Lemma made_binding objects values allow a r bs :
  Assignment_make objects values allow = Done a -> bindings a !! r = Some bs -> (r, bs) ∈ zip objects values.
Proof.
  intros Ha Hr. unfold Assignment_make in Ha. destruct (bind_objects objects values ∅) as [m| | |] eqn:E; try done.
  destruct (bind_objects_ok objects values ∅ (bind_objects_length _ _ _ _ E)) as (m' & E' & Hm).
  rewrite E in E'. injection E' as <-. injection Ha as <-. cbn in Hr. rewrite Hm, lookup_empty in Hr.
  by apply elem_of_list_to_map_2 in Hr.
Qed.

Lemma made_bound objects values allow r : length objects = length values ->
  r ∈ objects -> forall a, Assignment_make objects values allow = Done a -> exists bs, bindings a !! r = Some bs.
Proof.
  intros Hl Hr a Ha. destruct (Assignment_make_ok objects values allow) as (a' & Ea & _ & Hb); [lia|].
  rewrite Ea in Ha. injection Ha as <-. rewrite Hb.
  destruct ((list_to_map (zip objects values) : gmap positive (list Z)) !! r) eqn:E; [by eexists|].
  apply not_elem_of_list_to_map_2 in E. rewrite fst_zip in E by lia. done.
Qed.

Lemma symbolic_not_constant r : isSymbolicArray (array_at r) = true -> isConstantArray (array_at r) = false.
Proof. unfold isConstantArray. by intros ->. Qed.

Lemma constant_not_symbolic r : isSymbolicArray (array_at r) = false -> isConstantArray (array_at r) = true.
Proof. unfold isConstantArray. by intros ->. Qed.

Lemma made_ok objects values allow a :
  (forall r bs, (r, bs) ∈ zip objects values ->
     (isConstantArray (array_at r) = true -> Z.of_nat (length bs) <= arr_size (array_at r)) /\
     Forall (fun v => 0 <= v < 2 ^ 8) bs) ->
  Assignment_make objects values allow = Done a -> assignment_ok a.
Proof. intros H Ha r bs Hr. by eapply H, made_binding. Qed.

Lemma made_values_ok objects values allow a : values_ok objects values ->
  Assignment_make objects values allow = Done a -> assignment_ok a.
Proof.
  intros Hv. apply made_ok. intros r bs Hin. destruct (zip_Forall2 _ _ _ _ _ Hv Hin) as [? ?]. split; [lia|done].
Qed.

End Made.

(** ** Checked counterexamples *)

Section Checking.
Context {AP : APIntOps} {APL : APIntLaws} {AH : ArrayHeap} {OP : ExprOptions} {VO : VisitorOptions}.
Context (default_opt : ConstArrayOpt = false) (domain32 : forall r, arr_domain (array_at r) <= 32).

Lemma check_constraints_spec a cs : assignment_ok a -> Forall literal_bool cs ->
  check_constraints a cs = Done tt -> forall ρ, agrees a ρ -> sat ρ cs.
Proof.
  intros Ha Hcs. induction Hcs as [|c cs [[Hwf Hb] Hl] Hcs IH]; intros Hc ρ Hρ; [by intros ? ?%elem_of_nil|].
  cbn [check_constraints] in Hc. destruct (Assignment_evaluate_ok default_opt domain32 a c Ha (conj Hwf Hl)) as (e & Ee & [[[We Ww] Ev] _]).
  rewrite Ee in Hc. cbn [mbind outcome_bind] in Hc. destruct e as [CE| | | | | | | |]; try done.
  destruct (ConstantExpr_isFalse CE) eqn:Ef; [done|]. rewrite isFalse_spec in Ef by (by rewrite <- Hb, <- Ww).
  intros x [-> |Hx]%elem_of_cons; [|by apply (IH Hc ρ Hρ)]. rewrite <- (Ev ρ Hρ). by apply Z.eqb_neq in Ef.
Qed.

Lemma check_query_expr_spec a e : assignment_ok a -> literal_bool e ->
  check_query_expr a e = Done tt -> forall ρ, agrees a ρ -> eval ρ e = 0.
Proof.
  intros Ha [[Hwf Hb] Hl] Hc ρ Hρ. unfold check_query_expr in Hc.
  destruct (Assignment_evaluate_ok default_opt domain32 a e Ha (conj Hwf Hl)) as (e' & Ee & [[[We Ww] Ev] _]).
  rewrite Ee in Hc. cbn [mbind outcome_bind] in Hc. destruct e' as [CE| | | | | | | |]; try done.
  destruct (ConstantExpr_isTrue CE) eqn:Ef; [done|]. rewrite isTrue_spec in Ef by (by rewrite <- Hb, <- Ww).
  rewrite <- (Ev ρ Hρ). apply negb_false_iff, Z.eqb_eq in Ef. done.
Qed.

(** Whatever solver is asked, values that pass the check are a counterexample:
    every environment with these bytes is one. *)
Lemma assignment_validating_certifies {S} {iops : InitialSolver S} q objects s r s' :
  assignment_validating_computeInitialValues q objects s = Done (r, s') -> iv_hasSolution r = Some true ->
  Forall literal_bool (constraints q) -> literal_bool (q_expr q) ->
  Forall (fun r => isSymbolicArray (array_at r) = true) objects ->
  Forall (Forall (fun v => 0 <= v < 2 ^ 8)) (iv_values r) ->
  exists a, Assignment_make objects (iv_values r) true = Done a /\
    forall ρ, agrees a ρ -> counterexample q ρ.
Proof.
  intros H Hs Hcs He Ho Hv. unfold assignment_validating_computeInitialValues in H.
  destruct (computeInitialValues q objects s) as [[r1 s1]| | |]; try done. cbn [mbind outcome_bind] in H.
  destruct (iv_hasSolution r1) as [[|]|] eqn:E1; try done; [|by injection H as <- <-; rewrite E1 in Hs].
  destruct (Assignment_make objects (iv_values r1) true) as [a| | |] eqn:Ea; try done. cbn [mbind outcome_bind] in H.
  destruct (check_constraints a (constraints q)) as [[]| | |] eqn:Ec; try done. cbn [mbind outcome_bind] in H.
  destruct (check_query_expr a (q_expr q)) as [[]| | |] eqn:Eq; try done. injection H as <- <-.
  assert (assignment_ok a) as Hok.
  { eapply made_ok; [|done]. intros x bs Hin. apply elem_of_zip_l in Hin as Hl. apply elem_of_zip_r in Hin.
    pose proof (proj1 (Forall_forall _ _) Ho x Hl) as Hsym%symbolic_not_constant. split; [by rewrite Hsym|].
    exact (proj1 (Forall_forall _ _) Hv bs Hin). }
  exists a. split; [done|]. intros ρ Hρ. split.
  - by eapply check_constraints_spec.
  - by eapply check_query_expr_spec.
Qed.

End Checking.

(** ** Reads inside their arrays *)

Section Bounds.
Context {AH : ArrayHeap}.

(** Reads are inside their arrays, as the checks of the executor make sure on a
    path. *)
Definition in_bounds_list (ρ : env) (l : list Expr) : Prop := forall r u i,
  ReadExpr r u i ∈ l -> eval ρ i < arr_size (array_at r).

Abbreviation in_bounds ρ e := (in_bounds_list ρ (subs e)).

(** Environments that give an array the same bytes. *)
Definition same_bytes (ρ ρ' : env) (r : positive) : Prop := forall k,
  0 <= k < arr_size (array_at r) -> initial_value ρ r k = initial_value ρ' r k.

Lemma in_bounds_app ρ a b : in_bounds_list ρ (a ++ b) <-> in_bounds_list ρ a /\ in_bounds_list ρ b.
Proof. unfold in_bounds_list. setoid_rewrite elem_of_app. naive_solver. Qed.

Lemma in_bounds_cons ρ e l : in_bounds_list ρ (e :: l) -> in_bounds_list ρ l.
Proof. intros H r u i Hin. apply (H r u i), elem_of_cons. by right. Qed.

(** With reads inside the arrays, an expression depends on their bytes. *)
Lemma eval_same_bytes_mut ρ ρ' : (forall r, same_bytes ρ ρ' r) ->
  (forall e, wf e -> in_bounds ρ e -> eval ρ e = eval ρ' e) /\
  (forall u r0, wf_updates r0 u -> in_bounds_list ρ (un_subs u) ->
     forall r k, 0 <= k < arr_size (array_at r) ->
       eval_read ρ r u k = eval_read ρ' r u k).
Proof.
  intros Hb.
  apply Expr_UpdateNode_ind; cbn [subs un_subs eval eval_read wf wf_updates].
  - done.
  - intros x IH W B%in_bounds_cons. auto.
  - intros r u IHu i IHi (_ & Wu & Wi & _) B. pose proof (B r u i (list_elem_of_here _ _)) as Hi.
    apply in_bounds_cons, in_bounds_app in B as [Bu Bi]. rewrite <- IHi by done.
    eapply IHu; [done..|]. split; [by apply eval_range|done].
  - intros c IHc t IHt f IHf (? & ? & ? & _) B%in_bounds_cons. rewrite !in_bounds_app in B.
    destruct B as (? & ? & ?). by rewrite IHc, IHt, IHf.
  - intros l IHl r IHr (? & ?) [? ?]%in_bounds_cons%in_bounds_app. by rewrite IHl, IHr.
  - intros x IH off w (? & _) B%in_bounds_cons. by rewrite IH.
  - intros x IH W B%in_bounds_cons. by rewrite IH.
  - intros k x IH w (? & _) B%in_bounds_cons. by rewrite IH.
  - intros k l IHl r IHr (? & ? & _) [? ?]%in_bounds_cons%in_bounds_app. by rewrite IHl, IHr.
  - intros r0 _ _ r k Hk. by apply Hb.
  - intros n IHn i IHi v IHv r0 (? & ? & ? & _) B r k Hk. rewrite !in_bounds_app in B. destruct B as (? & ? & ?).
    rewrite IHi, IHv by done. case_match; [done|]. by eapply IHn.
Qed.

Lemma eval_same_bytes ρ ρ' e : (forall r, same_bytes ρ ρ' r) -> wf e -> in_bounds ρ e -> eval ρ e = eval ρ' e.
Proof. intros Hb. by apply eval_same_bytes_mut. Qed.

(** Queries as the executor asks them: the path keeps divisors from being zero
    and reads inside their arrays, and no constant is hidden from folding. *)
Record guarded (q : Query) : Prop := MkGuarded {
  g_query : wf_query q;
  g_clean : Forall (fun e => clean e = true) (q_expr q :: constraints q);
  g_div ρ : sat ρ (constraints q) -> Forall (div_safe ρ) (q_expr q :: constraints q);
  g_bounds ρ : sat ρ (constraints q) -> Forall (fun e => in_bounds ρ e) (q_expr q :: constraints q)
}.

End Bounds.

Abbreviation in_bounds ρ e := (in_bounds_list ρ (subs e)).

(** ** Negating keeps a query guarded *)

Section Negation.
Context {AP : APIntOps} {APL : APIntLaws} {AH : ArrayHeap} {OP : ExprOptions}.
Context (default_opt : ConstArrayOpt = false).

(** A property of expressions that negating only passes on. *)
Section Kept.
Context (P : Expr -> Prop) (P_const : forall v, P (ConstantExpr v)).
Context (P_cast : forall k s w, P (CastExpr k s w) <-> P s).
Context (P_binary : forall k l r, isDivKind k = false -> P (BinaryExpr k l r) <-> P l /\ P r).

(** What a constructor returns, if it returns, has it. *)
Definition keeps (o : outcome Expr) : Prop := match o with Done e => P e | _ => True end.

Lemma keeps_bind (m : outcome Expr) k : keeps m -> (forall x, P x -> keeps (k x)) -> keeps (m ≫= k).
Proof. destruct m; cbn; auto. Qed.

Lemma keeps_binary k l r : isDivKind k = false -> P l -> P r -> keeps (Done (BinaryExpr k l r)).
Proof. intros Hk Hl Hr. cbn. by apply P_binary. Qed.

Lemma EqExpr_create__keeps l r : P l -> P r -> keeps (EqExpr_create_ l r).
Proof. intros Hl Hr. unfold EqExpr_create_. case_match; [cbn; apply P_const|]. by apply keeps_binary. Qed.

Lemma EqExpr_const_keeps (partialR : APInt -> Expr -> outcome Expr) e :
  (forall k, keeps (partialR k e)) -> forall k, keeps (EqExpr_create_const partialR e k).
Proof. intros H k. unfold EqExpr_create_const. case_match; [|done]. destruct e; first [apply H|apply P_const]. Qed.

Lemma isZero_with_keeps (partialR : APInt -> Expr -> outcome Expr) e :
  (forall k, keeps (partialR k e)) -> keeps (createIsZero_with partialR e).
Proof.
  intros H. unfold createIsZero_with. destruct (ConstantExpr_create _ _); try done.
  by apply EqExpr_const_keeps.
Qed.

Lemma AndExpr_partial_keeps l c : P l -> keeps (AndExpr_createPartial l c).
Proof. intros Hl. unfold AndExpr_createPartial. repeat case_match; first [done|by apply keeps_binary|apply P_const]. Qed.

Lemma AndExpr_keeps l r : P l -> P r -> keeps (AndExpr_create l r).
Proof.
  intros Hl Hr. unfold AndExpr_create, BCREATE_R. destruct (_ =? _); [|done].
  destruct l; [destruct r; first [by apply AndExpr_partial_keeps|apply P_const]|..];
    (destruct r; [by apply AndExpr_partial_keeps|..]); by apply keeps_binary.
Qed.

Lemma EqExpr_partial_keeps r : P r -> forall c, keeps (EqExpr_createPartialR c r).
Proof.
  assert (forall c r, P r -> keeps (EqExpr_create_ (ConstantExpr c) r)) as Heq.
  { intros c e He. by apply EqExpr_create__keeps. }
  induction r using Expr_ind; intros Hr c; cbn [EqExpr_createPartialR]; rewrite ?default_opt;
    (case_match; [case_match; [done|]|]); try (by apply Heq).
  - rewrite P_cast in Hr. do 2 case_match; try (destruct (ConstantExpr_create _ _); try done; apply P_const);
      by apply EqExpr_const_keeps, IHr.
  - destruct k; try (by apply Heq); apply P_binary in Hr as Hlr; try done; destruct Hlr as [H1 H2].
    + eapply keeps_bind; [by apply isZero_with_keeps, IHr1|]. intros a Ha.
      eapply keeps_bind; [by apply isZero_with_keeps, IHr2|]. intros b Hb. by apply AndExpr_keeps.
    + destruct r1; try (by apply Heq). case_match; [done|]. by apply Heq.
  - destruct k; try (by apply Heq); (destruct r1; try (by apply Heq));
      apply P_binary in Hr as [H1 H2]; try done; case_match; [by apply IHr2|done|by apply IHr2|done].
Qed.

Lemma createIsZero_keeps e n : P e -> createIsZero e = Done n -> P n.
Proof.
  intros He. enough (keeps (createIsZero e)) as H by (intros En; by rewrite En in H).
  unfold createIsZero. destruct (ConstantExpr_create _ _); try done. cbn [mbind outcome_bind].
  unfold EqExpr_create, BCREATE_R. case_match; [|done]. destruct e; first [by apply EqExpr_partial_keeps|apply P_const].
Qed.
End Kept.

Lemma createIsZero_clean e n : clean e = true -> createIsZero e = Done n -> clean n = true.
Proof. apply (createIsZero_keeps (fun e => clean e = true)); try done. intros k l r _. cbn. apply andb_true_iff. Qed.

Lemma createIsZero_lit_safe e n : lit_safe e = true -> createIsZero e = Done n -> lit_safe n = true.
Proof.
  apply (createIsZero_keeps (fun e => lit_safe e = true)); try done. intros k l r Hk. cbn. unfold div_by_zero.
  rewrite Hk. apply andb_true_iff.
Qed.

Lemma in_bounds_other ρ e l : isReadExpr e = false -> in_bounds_list ρ (e :: l) <-> in_bounds_list ρ l.
Proof.
  intros He. split; [apply in_bounds_cons|]. intros H r u i [<-|Hin]%elem_of_cons; [done|]. by apply (H r u i).
Qed.

Lemma createIsZero_in_bounds ρ e n : in_bounds ρ e -> createIsZero e = Done n -> in_bounds ρ n.
Proof.
  apply (createIsZero_keeps (fun e => in_bounds ρ e)).
  - intros v. apply in_bounds_other; [done|]. by intros r u i ?%elem_of_nil.
  - intros. cbn [subs]. by apply in_bounds_other.
  - intros. cbn [subs]. by rewrite in_bounds_other, in_bounds_app.
Qed.

Lemma createIsZero_div_safe ρ e n : div_safe ρ e -> createIsZero e = Done n -> div_safe ρ n.
Proof.
  intros He Hn. pose proof (isZero_bounded 0 (zero_divisor ρ) (zero_divisor_other ρ) default_opt e) as B. rewrite Hn in B.
  unfold div_safe, zero_divisions in *. cbn [bounded] in B. lia.
Qed.

(** What a solver that evaluates needs of a query; being a counterexample is a
    question about the bytes inside the arrays.  The constraints need not have a
    solution. *)
Record askable (q : Query) : Prop := MkAskable {
  ask_shaped : shaped q;
  ask_clean : Forall (fun e => clean e = true) (q_expr q :: constraints q);
  ask_literal : Forall (fun e => lit_safe e = true) (q_expr q :: constraints q);
  ask_div ρ : sat ρ (constraints q) -> Forall (div_safe ρ) (q_expr q :: constraints q);
  ask_bytes ρ ρ' : counterexample q ρ -> (forall r, same_bytes ρ ρ' r) -> counterexample q ρ'
}.

Lemma guarded_literal q : guarded q -> Forall (fun e => lit_safe e = true) (q_expr q :: constraints q).
Proof.
  intros [[_ _ [ρ Hρ]] _ Hd _]. eapply Forall_impl; [exact (Hd ρ Hρ)|]. intros e. apply div_safe_lit_safe.
Qed.

Lemma guarded_same_bytes q ρ ρ' : guarded q -> sat ρ (constraints q) -> (forall r, same_bytes ρ ρ' r) ->
  eval ρ (q_expr q) = eval ρ' (q_expr q) /\ sat ρ' (constraints q).
Proof.
  intros [[Hb He _] _ _ Hin] Hs Hbytes. specialize (Hin ρ Hs). apply Forall_cons in Hin as [Hie Hic].
  split; [by apply eval_same_bytes|]. intros c Hc. rewrite Forall_forall in Hb, Hic.
  rewrite <- (eval_same_bytes ρ ρ' c); [by apply Hs|done|apply Hb, Hc|by apply Hic].
Qed.

Lemma guarded_askable q : guarded q -> getWidth (q_expr q) = Bool -> askable q.
Proof.
  intros Hg Hw. split; [split; [apply Hg|split; [apply Hg|done]]|apply Hg|by apply guarded_literal|apply Hg|].
  intros ρ ρ' [Hs He] Hb.
  destruct (guarded_same_bytes q ρ ρ' Hg Hs Hb) as [Ee Hs']. split; [done|]. by rewrite <- Ee.
Qed.

Lemma false_expr_ok : wf (ConstantExpr (ConstantExpr_alloc 0 Bool)) /\
  getWidth (ConstantExpr (ConstantExpr_alloc 0 Bool)) = Bool /\
  forall ρ, eval ρ (ConstantExpr (ConstantExpr_alloc 0 Bool)) = 0.
Proof.
  destruct (wf_alloc Bool 0) as [? ?]; [done..|]. split_and!; [done..|]. intros ρ. cbn. by rewrite alloc_small.
Qed.

(** The query that asks for any solution of the constraints. *)
Lemma guarded_withFalse q : guarded q -> askable (withFalse q).
Proof.
  intros Hg. destruct false_expr_ok as (Hf & Hw & Ev). pose proof Hg as [[Hb He Hs] Hc Hd _].
  apply Forall_cons in Hc as [_ Hc]. pose proof (guarded_literal q Hg) as [_ Hl]%Forall_cons. split.
  - by split.
  - by apply Forall_cons.
  - by apply Forall_cons.
  - intros ρ Hρ. apply Forall_cons. split; [done|]. by apply Hd, Forall_cons in Hρ as [_ ?].
  - intros ρ ρ' [Hρ _] Hbytes. split; [by apply (guarded_same_bytes q ρ ρ')|apply Ev].
Qed.

Lemma askable_negate q : guarded q -> getWidth (q_expr q) = Bool ->
  exists nq, negateExpr q = Done nq /\ askable nq /\ constraints nq = constraints q /\
    forall ρ, eval ρ (q_expr nq) = 0 <-> eval ρ (q_expr q) <> 0.
Proof.
  intros Hg Hw. pose proof Hg as [[Hb He Hs] Hc Hd _]. unfold negateExpr.
  destruct (createIsZero_ok default_opt (q_expr q) He) as (n & En & Wn & Nw & Ev). rewrite En.
  assert (forall ρ, eval ρ n = 0 <-> eval ρ (q_expr q) <> 0) as Hz.
  { intros ρ. rewrite Ev. destruct (Z.eqb_spec (eval ρ (q_expr q)) 0); cbn; lia. }
  eexists. split; [done|]. split; [|done]. apply Forall_cons in Hc as [Hce Hc].
  pose proof (guarded_literal q Hg) as [Hle Hl]%Forall_cons. split; cbn.
  - by split.
  - apply Forall_cons. split; [by eapply createIsZero_clean|done].
  - apply Forall_cons. split; [by eapply createIsZero_lit_safe|done].
  - intros ρ Hρ. apply Hd, Forall_cons in Hρ as [? ?]. apply Forall_cons. split; [|done].
    by eapply createIsZero_div_safe.
  - intros ρ ρ' [Hρ H0] Hbytes. cbn in Hρ, H0. destruct (guarded_same_bytes q ρ ρ' Hg Hρ Hbytes) as [Ee Hs'].
    split; [done|]. cbn. apply Hz. rewrite <- Ee. by apply Hz.
Qed.

End Negation.

(** ** The layers keep the contract *)

Section LayersSound.
Context {AH : ArrayHeap} {S : Type} {iops : InitialSolver S} {G : Query -> Prop} {sol : SoundInitialSolver S G}.

#[global] Instance caching_initial : InitialSolver (CachingSolver.t S) :=
  {| computeInitialValues := caching_computeInitialValues |}.

#[export] Instance caching_sound_initial : SoundInitialSolver (CachingSolver.t S) G.
Proof.
  refine {| iv_inv s := iv_inv G (CachingSolver.solver s) |}. intros q objects s Hs Hq Ho.
  cbn. unfold caching_computeInitialValues.
  destruct (initial_ok q objects (CachingSolver.solver s) Hs Hq Ho) as (r & s' & -> & Hs' & Hr).
  cbn [mbind outcome_bind]. by eexists _, _.
Defined.

Context (primary : Query -> list positive -> outcome InitialResult).
Context (primary_ok : forall q objects, G q -> objects_ok objects ->
  exists r, primary q objects = Done r /\ initial_result_ok q objects r).

Definition staged_initial : InitialSolver (@StagedSolver.t S) :=
  {| computeInitialValues := staged_computeInitialValues primary |}.

Definition staged_sound_initial : @SoundInitialSolver _ staged_initial AH G.
Proof.
  refine (@Build_SoundInitialSolver _ staged_initial AH G (fun s => iv_inv G (StagedSolver.secondary s)) _).
  intros q objects s Hs Hq Ho. cbn. unfold staged_computeInitialValues.
  destruct (primary_ok q objects Hq Ho) as (r & -> & Hr). cbn [mbind outcome_bind].
  destruct (iv_success r); [by eexists _, _|].
  destruct (initial_ok q objects (StagedSolver.secondary s) Hs Hq Ho) as (r' & s' & -> & Hs' & Hr').
  cbn [mbind outcome_bind]. by eexists _, _.
Defined.

(** The facade returns values exactly when there is a counterexample, if the
    solver succeeds. *)
Lemma getInitialValues_ok q objects s r s' : iv_inv G s -> G q -> objects_ok objects ->
  computeInitialValues q objects s = Done (r, s') -> iv_success r = true ->
  iv_inv G s' /\ exists vs, getInitialValues q objects s = Done (vs, s') /\
    match vs with Some values => solution q objects values | None => valid q end.
Proof.
  intros Hs Hq Ho E Hok. destruct (initial_ok q objects s Hs Hq Ho) as (r' & s1 & E' & Hs1 & Hr).
  rewrite E in E'. injection E' as <- <-. split; [done|]. unfold getInitialValues. rewrite E. cbn [mbind outcome_bind].
  destruct (Hr Hok) as [[-> ?]|[-> ?]]; [by exists None|]. rewrite Hok. by exists (Some (iv_values r)).
Qed.

End LayersSound.

(** ** From values to a counterexample *)

Section Patch.
Context {AH : ArrayHeap}.

(** The bytes of the objects, and the environment elsewhere. *)
Definition patch (objects : list positive) (a : Assignment) (ρ : env) : env :=
  fun r k => if bool_decide (r ∈ objects) then env_of a r k else ρ r k.

Lemma patch_same_bytes objects values allow a ρ :
  values_ok objects values -> has_values ρ objects values -> objects_ok objects ->
  Assignment_make objects values allow = Done a -> forall r, same_bytes ρ (patch objects a ρ) r.
Proof.
  intros Hv Hh [_ Ho] Ha r k Hk. unfold initial_value. destruct (isConstantArray (array_at r)) eqn:Ec; [done|].
  unfold patch. case_bool_decide as Hr; [|done].
  destruct (made_bound objects values allow r (Forall2_length _ _ _ Hv) Hr a Ha) as [bs Hb].
  pose proof (made_binding _ _ _ _ _ _ Ha Hb) as Hin.
  destruct (zip_Forall2 _ _ _ _ _ Hv Hin) as [Hlen _]. pose proof (zip_Forall2 _ _ _ _ _ Hh Hin) as Hval. cbn in Hval.
  destruct (lookup_lt_is_Some_2 bs (Z.to_nat k)) as [v Hbk]; [lia|].
  specialize (Hval ltac:(by apply negb_false_iff in Ec) (Z.to_nat k) v Hbk). rewrite Z2Nat.id in Hval by lia. unfold initial_value in Hval. rewrite Ec in Hval.
  rewrite Hval. unfold env_of, byte_of. rewrite Hb. cbn. by rewrite Hbk.
Qed.

(** The values of a solution, with zero elsewhere, are a counterexample, if the
    other arrays do not matter. *)
Lemma solution_env_on q objects values allow a :
  (forall ρ ρ', counterexample q ρ -> (forall r, same_bytes ρ ρ' r) -> counterexample q ρ') ->
  (forall ρ ρ', (forall r, r ∈ objects -> same_contents ρ ρ' r) -> counterexample q ρ -> counterexample q ρ') ->
  objects_ok objects -> solution q objects values -> Assignment_make objects values allow = Done a ->
  counterexample q (env_of a).
Proof.
  intros Hb Hd Ho [Hv (ρ & Hρ & Hh)] Ha.
  pose proof (patch_same_bytes _ _ _ _ _ Hv Hh Ho Ha) as Hbytes.
  apply (Hd (patch objects a ρ)); [|by eapply Hb].
  intros r Hr k. unfold initial_value, patch. by rewrite bool_decide_eq_true_2.
Qed.

Lemma sat_same_contents ρ ρ' l (objects : list positive) : (forall e r, e ∈ l -> reads_array r e -> r ∈ objects) ->
  (forall r, r ∈ objects -> same_contents ρ ρ' r) -> sat ρ l -> sat ρ' l.
Proof. intros Hr Hc Hs e He. rewrite <- (eval_same_contents ρ ρ' e); [by apply Hs|]. intros r Hrr. eauto. Qed.

(** The objects are all the arrays that a query reads. *)
Definition covers_query (objects : list positive) (q : Query) : Prop :=
  forall e r, e ∈ q_expr q :: constraints q -> reads_array r e -> r ∈ objects.

Lemma covers_counterexample objects q ρ ρ' : covers_query objects q ->
  (forall r, r ∈ objects -> same_contents ρ ρ' r) -> counterexample q ρ -> counterexample q ρ'.
Proof.
  intros Hcov Hc [Hs He]. split.
  - eapply sat_same_contents; [|done|done]. intros e r Hin. apply Hcov. by right.
  - rewrite <- (eval_same_contents ρ ρ'); [done|]. intros r Hr. apply Hc. eapply Hcov; [by left|done].
Qed.

End Patch.

(** ** Checking a sound solver *)

Section CheckingSound.
Context {AP : APIntOps} {APL : APIntLaws} {AH : ArrayHeap} {OP : ExprOptions} {VO : VisitorOptions}.
Context (default_opt : ConstArrayOpt = false) (domain32 : forall r, arr_domain (array_at r) <= 32).

(** Bytes for all elements of the arrays that are read: nothing is left open,
    even with free values. *)
Lemma covered_known objects values allow a e : values_ok objects values ->
  Assignment_make objects values allow = Done a -> (forall r, reads_array r e -> r ∈ objects) ->
  wf e -> clean e = true -> div_safe (env_of a) e -> in_bounds (env_of a) e ->
  known (env_of a) (byte_known a) e.
Proof.
  intros Hv Ha Hr He Hc Hd Hb. split_and!; [done..|]. intros r u i Hin. right. specialize (Hb r u i Hin).
  destruct (isSymbolicArray (array_at r)) eqn:Es; [left|right; split; [by apply constant_not_symbolic|done]].
  destruct (made_bound objects values allow r (Forall2_length _ _ _ Hv)) with (a := a) as [bs Hbs]; [|done|].
  { apply Hr. split; [done|]. by exists u, i. }
  destruct (zip_Forall2 _ _ _ _ _ Hv (made_binding _ _ _ _ _ _ Ha Hbs)) as [Hlen _].
  unfold byte_of. rewrite Hbs. cbn. apply lookup_lt_is_Some_2.
  apply (proj1 wf_subs_mut e He) in Hin as (_ & _ & Hi & _). pose proof (eval_range i (env_of a) Hi). lia.
Qed.

(** What is known evaluates to its value. *)
Lemma evaluate_known a e : assignment_ok a -> wf e -> known (env_of a) (byte_known a) e ->
  exists v, Assignment_evaluate a e = Done (ConstantExpr v) /\ wf_apint v /\ getBitWidth v = getWidth e /\
    uval v = eval (env_of a) e.
Proof.
  intros Ha He Hk.
  destruct (Assignment_evaluate_ok default_opt domain32 a e Ha) as (r & Er & [[[Hw Hww] Ev] Hcr]).
  { split; [done|]. eapply div_safe_lit_safe, Hk. }
  specialize (Hcr Hk). destruct r as [v| | | | | | | |]; try discriminate Hcr. exists v. split_and!; [done..|].
  by apply (Ev (env_of a)), env_of_agrees.
Qed.

Lemma check_constraints_ok a cs : assignment_ok a -> Forall boolean cs ->
  Forall (known (env_of a) (byte_known a)) cs -> sat (env_of a) cs -> check_constraints a cs = Done tt.
Proof.
  intros Ha Hb. induction Hb as [|c cs [Hw Hbw] Hb IH]; intros Hk Hs; [done|]. apply Forall_cons in Hk as [Hkc Hk].
  cbn [check_constraints]. destruct (evaluate_known a c Ha Hw Hkc) as (v & -> & _ & Vw & Ev). cbn [mbind outcome_bind].
  rewrite isFalse_spec by congruence. rewrite (proj2 (Z.eqb_neq _ _)).
  - apply IH; [done|]. intros x Hx. apply Hs. by right.
  - rewrite Ev. apply Hs. by left.
Qed.

Lemma check_query_expr_ok a e : assignment_ok a -> boolean e -> known (env_of a) (byte_known a) e ->
  eval (env_of a) e = 0 -> check_query_expr a e = Done tt.
Proof.
  intros Ha [Hw Hbw] Hk H0. unfold check_query_expr.
  destruct (evaluate_known a e Ha Hw Hk) as (v & -> & _ & Vw & Ev). cbn [mbind outcome_bind].
  rewrite isTrue_spec by congruence. by rewrite Ev, H0.
Qed.

(** A sound solver passes the check. *)
Lemma assignment_validating_passes {S} {iops : InitialSolver S} {sol : SoundInitialSolver S shaped} q objects s r s' :
  iv_inv shaped s -> guarded q -> getWidth (q_expr q) = Bool -> objects_ok objects -> covers_query objects q ->
  computeInitialValues q objects s = Done (r, s') -> iv_success r = true ->
  assignment_validating_computeInitialValues q objects s = Done (r, s').
Proof.
  intros Hs Hg Hw Ho Hcov E Hok. pose proof Hg as [Hq Hc Hd Hb].
  destruct (initial_ok q objects s Hs (conj (wq_constraints _ Hq) (conj (wq_expr _ Hq) Hw)) Ho) as (r' & s1 & E' & _ & Hr). rewrite E in E'. injection E' as <- <-.
  unfold assignment_validating_computeInitialValues. rewrite E. cbn [mbind outcome_bind].
  destruct (Hr Hok) as [[-> _]|[-> Hsol]]; [done|]. pose proof (proj1 Hsol) as Hv.
  destruct (Assignment_make_ok objects (iv_values r) true) as (a & Ea & _); [by rewrite (Forall2_length _ _ _ Hv)|].
  rewrite Ea. cbn [mbind outcome_bind].
  assert (assignment_ok a) as Ha by (by eapply made_values_ok).
  assert (counterexample q (env_of a)) as [Hsat H0].
  { eapply solution_env_on; [apply guarded_askable; done| |done..]. intros ρ ρ'. by apply covers_counterexample. }
  specialize (Hd _ Hsat). specialize (Hb _ Hsat).
  assert (forall e, e ∈ q_expr q :: constraints q -> wf e -> known (env_of a) (byte_known a) e) as Hk.
  { intros e He Hwe. rewrite Forall_forall in Hc, Hd, Hb. eapply covered_known; eauto. }
  rewrite check_constraints_ok; [|done|apply Hq| |done].
  2: { apply Forall_forall. intros e He. apply Hk; [by right|]. pose proof (wq_constraints _ Hq) as Hbc.
       rewrite Forall_forall in Hbc. by apply Hbc. }
  cbn [mbind outcome_bind]. rewrite check_query_expr_ok; [done|done|split; [apply Hq|done]| |done].
  apply Hk; [by left|apply Hq].
Qed.

End CheckingSound.
