(* ===== verification/FastCexSolver.v ===== *)
(** The fast counterexample solver (lib/Solver/FastCexSolver.cpp): it guesses
    the bytes of arrays by pushing the truth of the constraints down to reads,
    and keeps on the side what it knows for certain of them. *)
From stdpp Require Import base list numbers strings gmap.
From Stdlib Require Import ZArith Lia.
From S2P Require Import Prelude APInt Bits Expr Semantics ConstantOps ExprCreate CreateSound OpsSound ReadSound.
From S2P Require Import ExprWeight Visitor FindReads Solver Evaluator IncompleteSolver ValueRange InitialValues.
Local Open Scope Z_scope.

(** ** The range of an expression *)

Section RangeEvaluator.
Context {AP : APIntOps} {AH : ArrayHeap}.

(** [CexRangeEvaluator::getInitialReadRange] *)
Definition getInitialReadRange (root : positive) (index : ValueRange) : outcome ValueRange :=
  let array := array_at root in
  if isConstantArray array && ValueRange_isFixed index then
    i ← ValueRange_min index;
    if i <? arr_size array then
      c ← deref (constantValues array !! Z.to_nat i);
      z ← ConstantExpr_getZExtValue c 8;
      Done (ValueRange_fixed z)
    else Done (MkRange 0 255)
  else Done (MkRange 0 255).

Definition full_range (e : Expr) : outcome ValueRange :=
  mx ← bits64_maxValueOfNBits (getWidth e); Done (MkRange 0 mx).

(** [Ult] and its kin: [T(1)], [T(0)], or what the switch falls to. *)
Definition compare_range (yes : outcome bool) (no : outcome bool) (e : Expr) : outcome ValueRange :=
  y ← yes;
  if (y : bool) then Done (ValueRange_fixed 1)
  else n ← no; if (n : bool) then Done (ValueRange_fixed 0) else full_range e.

(** [ExprRangeEvaluator::evaluate] and [evalRead]; the latter's [res] starts as
    the empty range.  The evaluator never asks for the objects it is given. *)
Fixpoint evalRangeForExpr (e : Expr) : outcome ValueRange :=
  match e with
  | ConstantExpr CE => Done (ValueRange_constant CE)
  | NotOptimizedExpr _ => full_range e
  | ReadExpr root head index =>
      i ← evalRangeForExpr index;
      range_evalRead root head i ValueRange_empty
  | SelectExpr c t f =>
      cond ← evalRangeForExpr c;
      if ValueRange_mustEqual_value cond 1 then evalRangeForExpr t
      else if ValueRange_mustEqual_value cond 0 then evalRangeForExpr f
      else a ← evalRangeForExpr t; b ← evalRangeForExpr f; Done (ValueRange_set_union a b)
  | ConcatExpr l r =>
      a ← evalRangeForExpr l;
      res ← ValueRange_concat (ValueRange_fixed 0) a 8;
      b ← evalRangeForExpr r;
      ValueRange_concat res b 8
  | BinaryExpr k l r =>
      match k with
      | Add | Sub | Mul | UDiv | SDiv | URem | SRem =>
          a ← evalRangeForExpr l; b ← evalRangeForExpr r; ValueRange_arith a b (getWidth l)
      | And => a ← evalRangeForExpr l; b ← evalRangeForExpr r; ValueRange_binaryAnd a b
      | Or => a ← evalRangeForExpr l; b ← evalRangeForExpr r; ValueRange_binaryOr a b
      | Xor => a ← evalRangeForExpr l; b ← evalRangeForExpr r; ValueRange_binaryXor a b
      | Shl | LShr | AShr => full_range e
      | EqK =>
          a ← evalRangeForExpr l; b ← evalRangeForExpr r;
          compare_range (Done (ValueRange_mustEqual a b)) (Done (negb (ValueRange_mayEqual a b))) e
      | Ult =>
          a ← evalRangeForExpr l; b ← evalRangeForExpr r;
          compare_range (x ← ValueRange_max a; y ← ValueRange_min b; Done (x <? y))
            (x ← ValueRange_min a; y ← ValueRange_max b; Done (y <=? x)) e
      | Ule =>
          a ← evalRangeForExpr l; b ← evalRangeForExpr r;
          compare_range (x ← ValueRange_max a; y ← ValueRange_min b; Done (x <=? y))
            (x ← ValueRange_min a; y ← ValueRange_max b; Done (y <? x)) e
      | Slt =>
          a ← evalRangeForExpr l; b ← evalRangeForExpr r;
          let bits := getWidth l in
          compare_range (x ← ValueRange_maxSigned a bits; y ← ValueRange_minSigned b bits; Done (x <? y))
            (x ← ValueRange_minSigned a bits; y ← ValueRange_maxSigned b bits; Done (y <=? x)) e
      | Sle =>
          a ← evalRangeForExpr l; b ← evalRangeForExpr r;
          let bits := getWidth l in
          compare_range (x ← ValueRange_maxSigned a bits; y ← ValueRange_minSigned b bits; Done (x <=? y))
            (x ← ValueRange_minSigned a bits; y ← ValueRange_maxSigned b bits; Done (y <? x)) e
      | Ne | Ugt | Uge | Sgt | Sge => AssertFail
      end
  | ExtractExpr _ _ _ | NotExpr _ | CastExpr _ _ _ => full_range e
  end
with range_evalRead (root : positive) (un : UpdateNode) (index res : ValueRange) : outcome ValueRange :=
  match un with
  | UNull => i ← getInitialReadRange root index; Done (ValueRange_set_union res i)
  | UNode next i v =>
      ui ← evalRangeForExpr i;
      if ValueRange_mustEqual ui index then x ← evalRangeForExpr v; Done (ValueRange_set_union res x)
      else if ValueRange_mayEqual ui index then
        x ← evalRangeForExpr v;
        let res := ValueRange_set_union res x in
        full ← ValueRange_isFullRange res 8;
        if (full : bool) then Done res else range_evalRead root next index res
      else range_evalRead root next index res
  end.

End RangeEvaluator.

(** ** The values of objects *)

(** [CexObjectData] *)
Record CexObjectData : Type := MkCexObjectData {
  possibleContents : list ValueRange;
  exactContents : list ValueRange
}.

Definition CexObjectData_new (size : Z) : CexObjectData :=
  MkCexObjectData (replicate (Z.to_nat size) (MkRange 0 255)) (replicate (Z.to_nat size) (MkRange 0 255)).

(** Indexing a [std::vector] outside of it is undefined. *)
Definition vector_set {A} (l : list A) (i : Z) (x : A) : outcome (list A) :=
  if (Z.to_nat i <? length l)%nat then Done (<[Z.to_nat i := x]> l) else Undefined.

Definition getPossibleValues (index : Z) (d : CexObjectData) : outcome ValueRange :=
  deref (possibleContents d !! Z.to_nat index).

Definition setPossibleValues (index : Z) (values : ValueRange) (d : CexObjectData) : outcome CexObjectData :=
  l ← vector_set (possibleContents d) index values; Done (MkCexObjectData l (exactContents d)).

(** The argument is an [unsigned char]. *)
Definition setPossibleValue (index value : Z) (d : CexObjectData) : outcome CexObjectData :=
  setPossibleValues index (ValueRange_fixed (value mod 2 ^ 8)) d.

Definition getExactValues (index : Z) (d : CexObjectData) : outcome ValueRange :=
  deref (exactContents d !! Z.to_nat index).

Definition setExactValues (index : Z) (values : ValueRange) (d : CexObjectData) : outcome CexObjectData :=
  l ← vector_set (exactContents d) index values; Done (MkCexObjectData (possibleContents d) l).

(** The middle of the range. *)
Definition getPossibleValue (index : Z) (d : CexObjectData) : outcome Z :=
  cvd ← getPossibleValues index d;
  lo ← ValueRange_min cvd;
  hi ← ValueRange_max cvd;
  Done (u64 (lo + u64 (hi - lo) / 2) mod 2 ^ 8).

(** The map from arrays that [CexData] owns. *)
Abbreviation Objects := (gmap positive CexObjectData).

Definition with_object (root : positive) (f : CexObjectData -> outcome CexObjectData) (o : Objects) : outcome Objects :=
  d ← deref (o !! root); d ← f d; Done (<[root := d]> o).

(** The bool that a fixed range of a boolean stands for, negated. *)
Definition not_value (m : Z) : Z := Z.b2z (m =? 0).

(** [1 << (inBits - 1)] is an [int], passed as a [uint64_t]. *)
Definition int_shift (n : Z) : outcome Z :=
  if (0 <=? n) && (n <? 32) then Done (u64 (to_signed 32 (Z.shiftl 1 n))) else Undefined.

Section CexData.
Context {AP : APIntOps} {AH : ArrayHeap}.

(** [CexData::getObjectData]: an object that is not there is made. *)
Definition getObjectData (A : positive) (o : Objects) : Objects :=
  match o !! A with
  | Some _ => o
  | None => <[A := CexObjectData_new (arr_size (array_at A))]> o
  end.

(** *** Possible values *)

(** The read of a concrete index, whatever is written before it. *)
Definition possible_read (root : positive) (index : Expr) (range : ValueRange) (o : Objects) : outcome Objects :=
  let o := getObjectData root o in
  match index with
  | ConstantExpr CE =>
      index ← ConstantExpr_getZExtValue CE 64;
      if index <? arr_size (array_at root) then
        if ValueRange_isFixed range then
          m ← ValueRange_min range; with_object root (setPossibleValue index m) o
        else
          d ← deref (o !! root);
          cvd ← getPossibleValues index d;
          let tmp := ValueRange_set_intersection cvd range in
          if ValueRange_isEmpty tmp then Done o else with_object root (setPossibleValues index tmp) o
      else Done o
  | _ => Done o
  end.

(** What [Concat] passes to its kids; the code takes the width of the right one
    for both. *)
Definition possible_concat_left (r : Expr) (range : ValueRange) : outcome ValueRange :=
  let LSBWidth := getWidth r in
  let MSBWidth := getWidth r in
  ValueRange_extract range LSBWidth (LSBWidth + MSBWidth).

Definition possible_concat_right (r : Expr) (range : ValueRange) : outcome ValueRange :=
  ValueRange_extract range 0 (getWidth r).

Definition possible_zext (src : Expr) (range : ValueRange) : outcome ValueRange :=
  mx ← bits64_maxValueOfNBits (getWidth src);
  Done (ValueRange_set_intersection range (MkRange 0 mx)).

Definition possible_sext (src : Expr) (outBits : Z) (range : ValueRange) : outcome ValueRange :=
  let inBits := getWidth src in
  lo ← int_shift (inBits - 1);
  mxout ← bits64_maxValueOfNBits outBits;
  mxin1 ← bits64_maxValueOfNBits (inBits - 1);
  let output := ValueRange_set_difference range (MkRange lo (u64 (mxout - mxin1 - 1))) in
  mxin ← bits64_maxValueOfNBits inBits;
  ValueRange_binaryAnd output (ValueRange_fixed mxin).

(** The range of the other summand, [None] where nothing is passed on. *)
Definition possible_add (l : Expr) (range : ValueRange) : outcome (option ValueRange) :=
  match l with
  | ConstantExpr CE =>
      if getBitWidth CE <=? 64 then
        if ValueRange_isEmpty range then Done None
        else
          let W := getBitWidth CE in
          lo ← ValueRange_min range;
          hi ← ValueRange_max range;
          lo ← ConstantExpr_getZExtValue (ConstantExpr_Sub (ConstantExpr_alloc lo W) CE) 64;
          hi ← ConstantExpr_getZExtValue (ConstantExpr_Sub (ConstantExpr_alloc hi W) CE) 64;
          let nrange := MkRange lo hi in
          Done (if ValueRange_isEmpty nrange then None else Some nrange)
      else Done None
  | _ => Done None
  end.

(** The range of the right side of an equation. *)
Definition possible_eq (l : Expr) (range : ValueRange) : outcome (option ValueRange) :=
  if ValueRange_isFixed range then
    match l with
    | ConstantExpr CE =>
        if getBitWidth CE <=? 64 then
          value ← ConstantExpr_getZExtValue CE 64;
          m ← ValueRange_min range;
          if negb (m =? 0) then Done (Some (MkRange value value))
          else if value =? 0 then
            mx ← bits64_maxValueOfNBits (getBitWidth CE); Done (Some (MkRange 1 mx))
          else Done (Some (MkRange 0 (value - 1)))
        else Done None
    | _ => Done None
    end
  else Done None.

(** A comparison with a known side narrows the other one: [inl] the left, [inr]
    the right; [strict] for [Ult]. *)
Definition possible_compare (strict : bool) (l r : Expr) (range : ValueRange)
    : outcome (option (ValueRange + ValueRange)) :=
  if ValueRange_isFixed range then
    left ← evalRangeForExpr l;
    right ← evalRangeForExpr r;
    maxValue ← bits64_maxValueOfNBits (getWidth r);
    if ValueRange_isFixed left then
      m ← ValueRange_min range;
      x ← ValueRange_min left;
      Done (Some (inr (if negb (m =? 0) then MkRange (if strict then u64 (x + 1) else x) maxValue
                       else MkRange 0 (if strict then x else u64 (x - 1)))))
    else if ValueRange_isFixed right then
      m ← ValueRange_min range;
      x ← ValueRange_min right;
      Done (Some (inl (if negb (m =? 0) then MkRange 0 (if strict then u64 (x - 1) else x)
                       else MkRange (if strict then x else u64 (x + 1)) maxValue)))
    else Done None
  else Done None.

(** [CexData::propagatePossibleValues] *)
Fixpoint propagatePossibleValues (e : Expr) (range : ValueRange) (o : Objects) : outcome Objects :=
  match e with
  | ReadExpr root _ index => possible_read root index range o
  | SelectExpr c t f =>
      cond ← evalRangeForExpr c;
      if ValueRange_isFixed cond then
        m ← ValueRange_min cond;
        if negb (m =? 0) then propagatePossibleValues t range o else propagatePossibleValues f range o
      else
        o ← propagatePossibleValues t range o;
        propagatePossibleValues f range o
  | ConcatExpr l r =>
      lrange ← possible_concat_left r range;
      o ← propagatePossibleValues l lrange o;
      rrange ← possible_concat_right r range;
      propagatePossibleValues r rrange o
  | CastExpr ZExt src _ => input ← possible_zext src range; propagatePossibleValues src input o
  | CastExpr SExt src w => input ← possible_sext src w range; propagatePossibleValues src input o
  | NotExpr x =>
      if (getWidth x =? Bool) && ValueRange_isFixed range then
        m ← ValueRange_min range; propagatePossibleValues x (ValueRange_fixed (not_value m)) o
      else Done o
  | BinaryExpr k l r =>
      match k with
      | Add =>
          nrange ← possible_add l range;
          match nrange with Some nrange => propagatePossibleValues r nrange o | None => Done o end
      | And =>
          if (getWidth l =? Bool) && ValueRange_isFixed range then
            left ← evalRangeForExpr l;
            right ← evalRangeForExpr r;
            m ← ValueRange_min range;
            if m =? 0 then
              if ValueRange_mustEqual_value left 0 || ValueRange_mustEqual_value right 0 then Done o
              else
                o ← propagatePossibleValues l (ValueRange_fixed 0) o;
                left ← evalRangeForExpr l;
                if negb (ValueRange_mustEqual_value left 1)
                then propagatePossibleValues r (ValueRange_fixed 0) o else Done o
            else
              o ← (if negb (ValueRange_mustEqual_value left 1)
                   then propagatePossibleValues l (ValueRange_fixed 1) o else Done o);
              if negb (ValueRange_mustEqual_value right 1)
              then propagatePossibleValues r (ValueRange_fixed 1) o else Done o
          else Done o
      | Or =>
          if (getWidth l =? Bool) && ValueRange_isFixed range then
            left ← evalRangeForExpr l;
            right ← evalRangeForExpr r;
            m ← ValueRange_min range;
            if negb (m =? 0) then
              if ValueRange_mustEqual_value left 1 || ValueRange_mustEqual_value right 1 then Done o
              else
                o ← propagatePossibleValues l (ValueRange_fixed 1) o;
                left ← evalRangeForExpr l;
                if negb (ValueRange_mustEqual_value left 1)
                then propagatePossibleValues r (ValueRange_fixed 1) o else Done o
            else
              o ← (if negb (ValueRange_mustEqual_value left 0)
                   then propagatePossibleValues l (ValueRange_fixed 0) o else Done o);
              if negb (ValueRange_mustEqual_value right 0)
              then propagatePossibleValues r (ValueRange_fixed 0) o else Done o
          else Done o
      | EqK =>
          nrange ← possible_eq l range;
          match nrange with Some nrange => propagatePossibleValues r nrange o | None => Done o end
      | Ult | Ule =>
          side ← possible_compare (bool_decide (k = Ult)) l r range;
          match side with
          | Some (inl nrange) => propagatePossibleValues l nrange o
          | Some (inr nrange) => propagatePossibleValues r nrange o
          | None => Done o
          end
      | Ne | Ugt | Uge | Sgt | Sge => AssertFail
      | _ => Done o
      end
  | ConstantExpr _ | NotOptimizedExpr _ | ExtractExpr _ _ _ => Done o
  end.

Definition propagatePossibleValue (e : Expr) (value : Z) (o : Objects) : outcome Objects :=
  propagatePossibleValues e (MkRange value value) o.

(** *** Exact values *)

(** The element of a fixed index that no write can hide.  A constant array has
    constants, into which nothing is propagated. *)
Definition exact_initial (root : positive) (index range : ValueRange) (o : Objects) : outcome Objects :=
  if ValueRange_isFixed index then
    i ← ValueRange_min index;
    if isConstantArray (array_at root) then
      _ ← deref (constantValues (array_at root) !! Z.to_nat i); Done o
    else
      d ← deref (o !! root);
      cvd ← getExactValues i d;
      rmin ← ValueRange_min range;
      cmin ← ValueRange_min cvd;
      cvd ← (if cmin <? rmin then
               cmax ← ValueRange_max cvd; Assert rmin <=? cmax ;; Done (MkRange rmin cmax)
             else Done cvd);
      rmax ← ValueRange_max range;
      cmax ← ValueRange_max cvd;
      cvd ← (if rmax <? cmax then
               cmin ← ValueRange_min cvd; Assert cmin <=? rmax ;; Done (MkRange cmin rmax)
             else Done cvd);
      with_object root (setExactValues i cvd) o
  else Done o.

(** [CexData::propagateExactValues]; [exact_updates] is the walk of a read over
    the updates, [read_index] the index that is read and [index] its range. *)
Fixpoint propagateExactValues (e : Expr) (range : ValueRange) (o : Objects) : outcome Objects :=
  match e with
  | ReadExpr root head read_index =>
      let o := getObjectData root o in
      index ← evalRangeForExpr read_index;
      exact_updates root head read_index index range o
  | NotExpr x =>
      if (getWidth x =? Bool) && ValueRange_isFixed range then
        m ← ValueRange_min range; propagateExactValues x (ValueRange_fixed (not_value m)) o
      else Done o
  | BinaryExpr EqK l r =>
      if ValueRange_isFixed range then
        match l with
        | ConstantExpr CE =>
            if getBitWidth CE <=? 64 then
              value ← ConstantExpr_getZExtValue CE 64;
              m ← ValueRange_min range;
              if negb (m =? 0) then propagateExactValues r (ValueRange_fixed value) o
              else if getWidth r =? Bool then propagateExactValues r (ValueRange_fixed (not_value value)) o
              else Done o
            else Done o
        | _ => Done o
        end
      else Done o
  | BinaryExpr (Ne | Ugt | Uge | Sgt | Sge) _ _ => AssertFail
  | _ => Done o
  end
with exact_updates (root : positive) (un : UpdateNode) (read_index : Expr) (index range : ValueRange) (o : Objects)
    : outcome Objects :=
  match un with
  | UNull => exact_initial root index range o
  | UNode next i v =>
      ui ← evalRangeForExpr i;
      if negb (ValueRange_mayEqual ui index) then exact_updates root next read_index index range o
      else if ValueRange_mustEqual ui index || expr_eqb read_index i then propagateExactValues v range o
      else Done o
  end.

Definition propagateExactValue (e : Expr) (value : Z) (o : Objects) : outcome Objects :=
  propagateExactValues e (MkRange value value) o.

Context {OP : ExprOptions} {VO : VisitorOptions}.

(** *** Evaluation with the values *)

(** The element of an array as it is: what the evaluators return for one they
    know nothing of. *)
Definition unknown_element (array : positive) (index : Z) : outcome Expr :=
  ReadExpr_create (MkUpdateList array UNull)
    (ConstantExpr (ConstantExpr_alloc index (arr_domain (array_at array)))).

(** [CexPossibleEvaluator::getInitialValue] *)
Definition possible_initial_value (o : Objects) (array : positive) (index : Z) : outcome Expr :=
  if arr_size (array_at array) <=? index then unknown_element array index
  else
    v ← match o !! array with None => Done 127 | Some d => getPossibleValue index d end;
    Done (ConstantExpr (ConstantExpr_alloc v (arr_range (array_at array)))).

(** [CexExactEvaluator::getInitialValue] *)
Definition exact_initial_value (o : Objects) (array : positive) (index : Z) : outcome Expr :=
  if arr_size (array_at array) <=? index then unknown_element array index
  else
    match o !! array with
    | None => unknown_element array index
    | Some d =>
        cvd ← getExactValues index d;
        if negb (ValueRange_isFixed cvd) then unknown_element array index
        else m ← ValueRange_min cvd; Done (ConstantExpr (ConstantExpr_alloc m (arr_range (array_at array))))
    end.

Definition evaluatePossible (e : Expr) (o : Objects) : outcome Expr :=
  '(r, _) ← visit_expr (ExprEvaluator (possible_initial_value o)) e []; Done r.

Definition evaluateExact (e : Expr) (o : Objects) : outcome Expr :=
  '(r, _) ← visit_expr (ExprEvaluator (exact_initial_value o)) e []; Done r.

(** [Expr::isFalse] *)
Definition Expr_isFalse (e : Expr) : outcome bool :=
  Assert getWidth e =? Bool ;;
  Done (match e with ConstantExpr CE => ConstantExpr_isFalse CE | _ => false end).

(** ** The solver *)

Definition propagate_value (e : Expr) (value : Z) (o : Objects) : outcome Objects :=
  o ← propagatePossibleValue e value o; propagateExactValue e value o.

Fixpoint propagate_constraints (cs : list Expr) (o : Objects) : outcome Objects :=
  match cs with
  | [] => Done o
  | c :: cs => o ← propagate_value c 1 o; propagate_constraints cs o
  end.

(** The second half of [propagateValues]: [None] if nothing was determined,
    else whether the query is valid. *)
Fixpoint check_assignment (cs : list Expr) (o : Objects) (hasSatisfyingAssignment : bool) : outcome (option bool) :=
  match cs with
  | [] => Done (if hasSatisfyingAssignment then Some false else None)
  | c :: cs =>
      has ← (if hasSatisfyingAssignment then p ← evaluatePossible c o; Expr_isTrue p else Done false);
      e ← evaluateExact c o;
      b ← Expr_isFalse e;
      if (b : bool) then Done (Some true) else check_assignment cs o has
  end.

(** [propagateValues], and the data it leaves. *)
Definition propagateValues (query : Query) (checkExpr : bool) : outcome (option bool * Objects) :=
  o ← propagate_constraints (constraints query) ∅;
  o ← (if checkExpr then propagate_value (q_expr query) 0 o else Done o);
  res ←
    (if checkExpr then
       p ← evaluatePossible (q_expr query) o;
       has ← Expr_isFalse p;
       e ← evaluateExact (q_expr query) o;
       b ← Expr_isTrue e;
       if (b : bool) then Done (Some true) else check_assignment (constraints query) o has
     else check_assignment (constraints query) o true);
  Done (res, o).

Definition fast_computeTruth (query : Query) : outcome PartialValidity :=
  '(isValid, _) ← propagateValues query true;
  Done (match isValid with None => PNone | Some true => MustBeTrue | Some false => MayBeFalse end).

Definition fast_computeValue (query : Query) : outcome (option APInt) :=
  '(isValid, cd) ← propagateValues query false;
  match isValid with
  | Some false =>
      value ← evaluatePossible (q_expr query) cd;
      Done (match value with ConstantExpr CE => Some CE | _ => None end)
  | _ => Done None
  end.

(** The bytes of one array; [None] if one is not a constant. *)
Fixpoint fast_bytes (array : positive) (l : list nat) (cd : Objects) : outcome (option (list Z)) :=
  match l with
  | [] => Done (Some [])
  | i :: l =>
      index ← ConstantExpr_create (Z.of_nat i) (arr_domain (array_at array));
      read ← ReadExpr_create (MkUpdateList array UNull) (ConstantExpr index);
      value ← evaluatePossible read cd;
      match value with
      | ConstantExpr CE =>
          z ← ConstantExpr_getZExtValue CE 8;
          data ← fast_bytes array l cd;
          Done (cons (z mod 2 ^ 8) <$> (data : option (list Z)))
      | _ => Done None
      end
  end.

(** The values of the arrays before the first one that fails stay. *)
Fixpoint fast_values (objects : list positive) (cd : Objects) (values : list (list Z)) : outcome (bool * list (list Z)) :=
  match objects with
  | [] => Done (true, values)
  | array :: objects =>
      data ← fast_bytes array (seq 0 (Z.to_nat (arr_size (array_at array)))) cd;
      match data with
      | Some data => fast_values objects cd (values ++ [data])
      | None => Done (false, values)
      end
  end.

Definition fast_computeInitialValues (query : Query) (objects : list positive) : outcome InitialResult :=
  '(isValid, cd) ← propagateValues query true;
  match isValid with
  | None => Done (MkInitial false None [])
  | Some true => Done (MkInitial true (Some false) [])
  | Some false =>
      '(success, values) ← fast_values objects cd [];
      Done (MkInitial success (Some true) values)
  end.

(** [FastCexSolver] as an incomplete solver; [computeValidity] is the inherited
    one. *)
Definition FastCexSolver : IncompleteSolver := {|
  i_computeTruth := fast_computeTruth;
  i_computeValidity := IncompleteSolver_computeValidity fast_computeTruth;
  i_computeValue := fast_computeValue
|}.

End CexData.
