(* ===== verification/FastCexSound.v ===== *)
(** What the fast counterexample solver promises.

    [ranged] says of which expressions a range can be computed, [precise] of
    which it contains the values.  Propagation keeps an environment that
    satisfies the constraints among the exact values ([exact_ok]); so what
    evaluates to a constant with them has that value in every such environment. *)
From stdpp Require Import base list numbers strings gmap.
From Stdlib Require Import ZArith Lia.
From S2P Require Import Prelude APInt Bits Expr Semantics ConstantOps ExprCreate CreateSound OpsSound ReadSound.
From S2P Require Import ExprWeight Visitor FindReads Solver Evaluator IncompleteSolver ValueRange InitialValues FastCexSolver.
Local Open Scope Z_scope.

(** ** Ranges of expressions *)

Section Ranges.
Context {AP : APIntOps} {APL : APIntLaws} {AH : ArrayHeap}.

(** Words of at most 64 bits, bytes in arrays, and no comparison of signed
    64-bit words. *)
Fixpoint ranged (e : Expr) : bool :=
  (getWidth e <=? 64) &&
  match e with
  | ConstantExpr _ | NotOptimizedExpr _ | ExtractExpr _ _ _ | NotExpr _ | CastExpr _ _ _ => true
  | ReadExpr r u i => (arr_range (array_at r) =? 8) && ranged_updates u && ranged i
  | SelectExpr c t f => ranged c && ranged t && ranged f
  | ConcatExpr l r => ranged l && ranged r && (8 <=? getWidth r)
  | BinaryExpr k l r =>
      match k with
      | Shl | LShr | AShr => true
      | Ne | Ugt | Uge | Sgt | Sge => false
      | Slt | Sle => ranged l && ranged r && (getWidth l <? 64)
      | _ => ranged l && ranged r
      end
  end
with ranged_updates (u : UpdateNode) : bool :=
  match u with
  | UNull => true
  | UNode n i v => ranged_updates n && ranged i && ranged v
  end.

(** The right side of every concatenation that matters is one byte. *)
Fixpoint precise (e : Expr) : bool :=
  match e with
  | ConstantExpr _ | NotOptimizedExpr _ | ExtractExpr _ _ _ | NotExpr _ | CastExpr _ _ _ => true
  | ReadExpr r u i => precise_updates u && precise i
  | SelectExpr c t f => precise c && precise t && precise f
  | ConcatExpr l r => precise l && precise r && (getWidth r =? 8)
  | BinaryExpr k l r =>
      match k with
      | And | Or | Xor | EqK | Ult | Ule | Slt | Sle => precise l && precise r
      | _ => true
      end
  end
with precise_updates (u : UpdateNode) : bool :=
  match u with
  | UNull => true
  | UNode n i v => precise_updates n && precise i && precise v
  end.

Definition range_ok (e : Expr) (v : ValueRange) : Prop :=
  fits (getWidth e) v /\ (precise e = true -> forall ρ, inside (eval ρ e) v).

Lemma full_range_ok_expr e : wf e -> getWidth e <= 64 -> exists v, full_range e = Done v /\ fits (getWidth e) v /\
  forall ρ, inside (eval ρ e) v.
Proof.
  intros He Hw. pose proof (wf_width e He). destruct (full_range_ok (getWidth e)) as (mx & E & _ & F & I); [lia|].
  exists (MkRange 0 mx). unfold full_range. rewrite E. split_and!; [done..|]. intros ρ. by apply I, eval_range.
Qed.

(** A comparison, by what its two tests say. *)
Lemma compare_range_ok yes no y n e (P : Prop) : wf e -> getWidth e = Bool ->
  yes = Done y -> no = Done n ->
  (P -> y = true -> forall ρ, eval ρ e = 1) -> (P -> n = true -> forall ρ, eval ρ e = 0) ->
  exists v, compare_range yes no e = Done v /\ fits (getWidth e) v /\ (P -> forall ρ, inside (eval ρ e) v).
Proof.
  intros He Hw -> -> Hy Hn. unfold compare_range. cbn [mbind outcome_bind]. rewrite Hw. unfold Bool in *.
  assert (forall c, 0 <= c < 2 ^ 1 -> (P -> forall ρ, eval ρ e = c) -> exists v, Done (ValueRange_fixed c) = Done v /\
    fits 1 v /\ (P -> forall ρ, inside (eval ρ e) v)) as Hfix.
  { intros c Hc H. eexists. split; [done|]. destruct (fits_fixed 1 c Hc) as [F I]. split; [done|].
    intros HP ρ. by rewrite H. }
  destruct y; [apply Hfix; [lia|auto]|]. destruct n; [apply Hfix; [lia|auto]|].
  destruct (full_range_ok_expr e He) as (v & -> & F & I); [unfold Bool in *; lia|]. exists v. rewrite Hw in F. auto.
Qed.

(** Results collected over the updates. *)
Definition res_ok (res : ValueRange) : Prop := 0 <= m_min res /\ 0 <= m_max res < 2 ^ 8.

Lemma fits_res v : fits 8 v -> res_ok v.
Proof. unfold fits, res_ok. lia. Qed.

Lemma union_res res v : res_ok res -> fits 8 v ->
  fits 8 (ValueRange_set_union res v) /\ covers (ValueRange_set_union res v) res.
Proof. unfold res_ok, fits, covers. cbn. lia. Qed.

Lemma getInitialReadRange_ok r index : wf_array (array_at r) -> arr_range (array_at r) = 8 -> 0 <= m_min index ->
  exists v, getInitialReadRange r index = Done v /\ fits 8 v /\
    forall ρ i, 0 <= i -> inside i index -> inside (initial_value ρ r i) v.
Proof.
  intros Ha H8 Hi. unfold getInitialReadRange.
  assert (exists v, Done (MkRange 0 255) = Done v /\ fits 8 v /\
    forall ρ i, 0 <= i -> inside i index -> inside (initial_value ρ r i) v) as Hdef.
  { eexists. split; [done|]. split; [done|]. intros ρ i _ _. pose proof (initial_value_range ρ r i Ha) as Hr.
    rewrite H8 in Hr. unfold inside. cbn. lia. }
  destruct (isConstantArray (array_at r)) eqn:Hc; [|done]. destruct (ValueRange_isFixed index) eqn:HF; [|done].
  cbn [andb]. pose proof HF as E%Z.eqb_eq. unfold ValueRange_min, ValueRange_isEmpty.
  rewrite <- E, Z.ltb_irrefl. cbn [negb mbind outcome_bind].
  destruct (Z.ltb_spec (m_min index) (arr_size (array_at r))) as [Hlt|]; [|done].
  destruct Ha as (_ & _ & _ & Hl & Hv). specialize (Hl Hc).
  destruct (lookup_lt_is_Some_2 (constantValues (array_at r)) (Z.to_nat (m_min index))) as [c Ec]; [lia|].
  rewrite Ec. cbn [deref mbind outcome_bind]. rewrite Forall_lookup in Hv. destruct (Hv _ _ Ec) as [[? Hcv] Hcw].
  unfold ConstantExpr_getZExtValue. rewrite Hcw, H8. cbn. rewrite Hcw, H8 in Hcv.
  rewrite ap_getZExtValue_spec by lia. eexists. split; [done|]. destruct (fits_fixed 8 (uval c) Hcv) as [F I].
  split; [done|]. intros ρ i Hi0 Hin. pose proof (fixed_min index i HF Hin) as Em.
  rewrite (initial_value_constant ρ r i c); [done|done|lia|congruence].
Qed.

Lemma nonempty_bounds w v : fits w v -> ValueRange_min v = Done (m_min v) /\ ValueRange_max v = Done (m_max v).
Proof. intros H. unfold ValueRange_min, ValueRange_max. by rewrite (fits_nonempty w v H). Qed.

Lemma fixed_bound v : ValueRange_isFixed v = true -> ValueRange_min v = Done (m_min v).
Proof.
  intros E%Z.eqb_eq. unfold ValueRange_min, ValueRange_isEmpty. by rewrite <- E, Z.ltb_irrefl.
Qed.

Lemma mustEqual_value_inside v x b : ValueRange_mustEqual_value v b = true -> inside x v -> x = b.
Proof. unfold ValueRange_mustEqual_value, inside. rewrite andb_true_iff, !Z.eqb_eq. lia. Qed.

Lemma mayEqual_inside a b x y : ValueRange_mayEqual a b = false -> inside x a -> inside y b -> x <> y.
Proof.
  intros H Hx Hy ->. unfold ValueRange_mayEqual in H. by rewrite (intersects_inside a b y) in H.
Qed.

Lemma eval_cmp_b2z k l r b ρ : isCmpKind k = true -> eval_binary k (getWidth l) (eval ρ l) (eval ρ r) = Z.b2z b ->
  eval ρ (BinaryExpr k l r) = Z.b2z b.
Proof. done. Qed.

(** The ranges of the operands, where both are computed first. *)
Lemma range_binary_ok k l r a b : wf (BinaryExpr k l r) -> ranged (BinaryExpr k l r) = true ->
  evalRangeForExpr l = Done a -> evalRangeForExpr r = Done b -> range_ok l a -> range_ok r b ->
  exists v, evalRangeForExpr (BinaryExpr k l r) = Done v /\ range_ok (BinaryExpr k l r) v.
Proof.
  intros He Hrg Ea Eb [Fa Pa] [Fb Pb]. pose proof He as (Wl & Wr & Ew). unfold range_ok.
  pose proof (wf_width l Wl) as Hwl. pose proof (wf_width _ He) as Hwe.
  cbn [ranged] in Hrg. apply andb_true_iff in Hrg as [Hw64%Z.leb_le Hrg].
  destruct (full_range_ok_expr _ He Hw64) as (full & Efull & Ffull & Ifull).
  destruct k; cbn [evalRangeForExpr precise] in *; try (rewrite Ea, Eb; cbn [mbind outcome_bind]); try discriminate Hrg;
    try (exists full; by auto);
    try (unfold ValueRange_arith, full_range in *; cbn [getWidth isCmpKind] in *; exists full; by auto).
  - cbn [getWidth isCmpKind] in *. rewrite <- Ew in Fb. assert (0 <= getWidth l <= 64) as Hlw by lia.
    destruct (binaryAnd_ok _ Hlw a b Fa Fb) as (v & -> & Fv & Iv). exists v. split_and!; [done..|].
    intros [Hl Hr]%andb_true_iff ρ. apply Iv; auto.
  - cbn [getWidth isCmpKind] in *. rewrite <- Ew in Fb. assert (0 <= getWidth l <= 64) as Hlw by lia.
    destruct (binaryOr_ok _ Hlw a b Fa Fb) as (v & -> & Fv & Iv). exists v. split_and!; [done..|].
    intros [Hl Hr]%andb_true_iff ρ. apply Iv; auto.
  - cbn [getWidth isCmpKind] in *. rewrite <- Ew in Fb. assert (0 <= getWidth l <= 64) as Hlw by lia.
    destruct (binaryXor_ok _ a b Hlw Fa Fb) as (v & -> & Fv & Iv). exists v. split_and!; [done..|].
    intros [Hl Hr]%andb_true_iff ρ. apply Iv; auto.
  - eapply compare_range_ok; [done..| |]; intros [Hl Hr]%andb_true_iff H ρ; cbn [eval eval_binary];
      specialize (Pa Hl ρ); specialize (Pb Hr ρ).
    + by rewrite (mustEqual_inside a b _ _ H Pa Pb), Z.eqb_refl.
    + by rewrite (proj2 (Z.eqb_neq _ _) (mayEqual_inside a b _ _ (proj1 (negb_true_iff _) H) Pa Pb)).
  - destruct (nonempty_bounds _ a Fa) as [-> ->], (nonempty_bounds _ b Fb) as [-> ->]. cbn [mbind outcome_bind].
    eapply compare_range_ok; [done..| |]; intros [Hl Hr]%andb_true_iff H ρ; cbn [eval eval_binary];
      specialize (Pa Hl ρ); specialize (Pb Hr ρ); unfold inside in Pa, Pb.
    + apply Z.ltb_lt in H. by rewrite (proj2 (Z.ltb_lt _ _)) by lia.
    + apply Z.leb_le in H. by rewrite (proj2 (Z.ltb_ge _ _)) by lia.
  - destruct (nonempty_bounds _ a Fa) as [-> ->], (nonempty_bounds _ b Fb) as [-> ->]. cbn [mbind outcome_bind].
    eapply compare_range_ok; [done..| |]; intros [Hl Hr]%andb_true_iff H ρ; cbn [eval eval_binary];
      specialize (Pa Hl ρ); specialize (Pb Hr ρ); unfold inside in Pa, Pb.
    + apply Z.leb_le in H. by rewrite (proj2 (Z.leb_le _ _)) by lia.
    + apply Z.ltb_lt in H. by rewrite (proj2 (Z.leb_gt _ _)) by lia.
  - apply andb_true_iff in Hrg as [_ H64%Z.ltb_lt]. rewrite <- Ew in Fb.
    destruct (signed_ok (getWidth l) a (conj Hwl H64) Fa) as (alo & ahi & -> & -> & Ia).
    destruct (signed_ok (getWidth l) b (conj Hwl H64) Fb) as (blo & bhi & -> & -> & Ib). cbn [mbind outcome_bind].
    eapply compare_range_ok; [done..| |]; intros [Hl Hr]%andb_true_iff H ρ; cbn [eval eval_binary];
      specialize (Ia _ (Pa Hl ρ)); specialize (Ib _ (Pb Hr ρ)).
    + apply Z.ltb_lt in H. by rewrite (proj2 (Z.ltb_lt _ _)) by lia.
    + apply Z.leb_le in H. by rewrite (proj2 (Z.ltb_ge _ _)) by lia.
  - apply andb_true_iff in Hrg as [_ H64%Z.ltb_lt]. rewrite <- Ew in Fb.
    destruct (signed_ok (getWidth l) a (conj Hwl H64) Fa) as (alo & ahi & -> & -> & Ia).
    destruct (signed_ok (getWidth l) b (conj Hwl H64) Fb) as (blo & bhi & -> & -> & Ib). cbn [mbind outcome_bind].
    eapply compare_range_ok; [done..| |]; intros [Hl Hr]%andb_true_iff H ρ; cbn [eval eval_binary];
      specialize (Ia _ (Pa Hl ρ)); specialize (Ib _ (Pb Hr ρ)).
    + apply Z.leb_le in H. by rewrite (proj2 (Z.leb_le _ _)) by lia.
    + apply Z.ltb_lt in H. by rewrite (proj2 (Z.leb_gt _ _)) by lia.
Qed.

Definition reads_ok (u : UpdateNode) : Prop := forall r index res,
  wf_array (array_at r) -> arr_range (array_at r) = 8 -> wf_updates r u -> ranged_updates u = true ->
  fits (arr_domain (array_at r)) index -> res_ok res ->
  exists v, range_evalRead r u index res = Done v /\ fits 8 v /\ covers v res /\
    (precise_updates u = true -> forall ρ i, 0 <= i -> inside i index -> inside (eval_read ρ r u i) v).

Lemma range_evalRead_node r n i v index res : range_evalRead r (UNode n i v) index res =
  (ui ← evalRangeForExpr i;
   if ValueRange_mustEqual ui index then x ← evalRangeForExpr v; Done (ValueRange_set_union res x)
   else if ValueRange_mayEqual ui index then
     x ← evalRangeForExpr v;
     full ← ValueRange_isFullRange (ValueRange_set_union res x) 8;
     if (full : bool) then Done (ValueRange_set_union res x)
     else range_evalRead r n index (ValueRange_set_union res x)
   else range_evalRead r n index res).
Proof. done. Qed.

Lemma reads_ok_node n i v : reads_ok n ->
  (wf i -> ranged i = true -> exists x, evalRangeForExpr i = Done x /\ range_ok i x) ->
  (wf v -> ranged v = true -> exists x, evalRangeForExpr v = Done x /\ range_ok v x) -> reads_ok (UNode n i v).
Proof.
  intros IHn IHi IHv r index res Ha H8 (Wn & Wi & Wv & Ei & Ev) Hrg Fx Hres. cbn in Hrg.
  rewrite !andb_true_iff in Hrg. destruct Hrg as [[Rn Ri] Rv].
  destruct (IHi Wi Ri) as (ui & Eui & Fui & Pui). destruct (IHv Wv Rv) as (x & Ex & Fv & Pv).
  rewrite Ev, H8 in Fv. destruct (union_res res x Hres Fv) as [Fu Cu].
  pose proof (proj2 (union_covers res x)) as Cx. rewrite range_evalRead_node, Eui, Ex. cbn [mbind outcome_bind].
  assert (precise_updates (UNode n i v) = true -> precise i = true /\ precise v = true /\ precise_updates n = true) as Hp.
  { cbn. rewrite !andb_true_iff. tauto. }
  destruct (ValueRange_mustEqual ui index) eqn:Hmust.
  { eexists. split_and!; [done..|]. intros Hpr ρ k Hk Hin. destruct (Hp Hpr) as (P1 & P2 & _). cbn [eval_read].
    rewrite (mustEqual_inside ui index _ k Hmust (Pui P1 ρ) Hin), Z.eqb_refl. eapply covers_inside; [exact Cx|auto]. }
  destruct (ValueRange_mayEqual ui index) eqn:Hmay.
  - destruct (IHn r index (ValueRange_set_union res x) Ha H8 Wn Rn Fx (fits_res _ Fu)) as (v' & Ev' & Fv' & Cv' & Pv').
    assert (exists b, ValueRange_isFullRange (ValueRange_set_union res x) 8 = Done b /\
      (b = true -> m_min (ValueRange_set_union res x) = 0 /\ m_max (ValueRange_set_union res x) = 255)) as (b & Eb & Hb).
    { unfold ValueRange_isFullRange. destruct (Z.eqb_spec (m_min (ValueRange_set_union res x)) 0); [|by eexists].
      eexists. split; [done|]. by intros ->%Z.eqb_eq. }
    rewrite Eb. cbn [mbind outcome_bind]. destruct b.
    + eexists. split_and!; [done..|]. intros _ ρ k Hk _. destruct (Hb eq_refl) as [E0 E1]. unfold inside. rewrite E0, E1.
      assert (wf_updates r (UNode n i v)) as Wu by done.
      pose proof (proj2 wf_range_mut (UNode n i v) r Ha Wu ρ k). rewrite H8 in *. lia.
    + exists v'. split_and!; [done..| |].
      * unfold covers in *. cbn in *. lia.
      * intros Hpr ρ k Hk Hin. destruct (Hp Hpr) as (P1 & P2 & P3). cbn [eval_read]. case_match; [|by apply Pv'].
        eapply covers_inside; [exact Cv'|]. eapply covers_inside; [exact Cx|auto].
  - destruct (IHn r index res Ha H8 Wn Rn Fx Hres) as (v' & Ev' & Fv' & Cv' & Pv').
    exists v'. split_and!; [done..|]. intros Hpr ρ k Hk Hin. destruct (Hp Hpr) as (P1 & P2 & P3). cbn [eval_read].
    rewrite (proj2 (Z.eqb_neq _ _) (mayEqual_inside ui index _ k Hmay (Pui P1 ρ) Hin)). by apply Pv'.
Qed.

Definition computes_range (e : Expr) : Prop :=
  wf e -> ranged e = true -> exists v, evalRangeForExpr e = Done v /\ range_ok e v.

Lemma range_select_ok c t f : computes_range c -> computes_range t -> computes_range f -> computes_range (SelectExpr c t f).
Proof.
  intros IHc IHt IHf (Wc & Wt & Wf & Ec & Ew) Hrg. cbn in Hrg. rewrite !andb_true_iff in Hrg.
  destruct Hrg as [_ [[Rc Rt] Rf]]. destruct (IHc Wc Rc) as (x & Ex & Fx & Px).
  destruct (IHt Wt Rt) as (a & Ea & Fa & Pa). destruct (IHf Wf Rf) as (b & Eb & Fb & Pb).
  cbn [evalRangeForExpr]. rewrite Ex, Ea, Eb. cbn [mbind outcome_bind]. unfold range_ok. cbn [precise getWidth eval].
  assert (precise c && precise t && precise f = true -> (precise c = true /\ precise t = true) /\ precise f = true) as Hp
    by (by rewrite !andb_true_iff).
  rewrite <- Ew in Fb. destruct (ValueRange_mustEqual_value x 1) eqn:H1.
  { exists a. split_and!; [done..|]. intros [[Pc Pt] _]%Hp ρ. rewrite (mustEqual_value_inside x _ 1 H1 (Px Pc ρ)). by apply Pa. }
  destruct (ValueRange_mustEqual_value x 0) eqn:H0.
  { exists b. split_and!; [done..|]. intros [[Pc _] Pf]%Hp ρ. rewrite (mustEqual_value_inside x _ 0 H0 (Px Pc ρ)). by apply Pb. }
  eexists. split_and!; [done|by apply union_fits|]. destruct (union_covers a b) as [Ca Cb]. intros [[Pc Pt] Pf]%Hp ρ.
  case_match; [eapply covers_inside; [exact Cb|auto]|eapply covers_inside; [exact Ca|auto]].
Qed.

Lemma range_concat_ok l r : computes_range l -> computes_range r -> computes_range (ConcatExpr l r).
Proof.
  intros IHl IHr [Wl Wr] Hrg. cbn in Hrg. rewrite !andb_true_iff in Hrg. rewrite !Z.leb_le in Hrg. destruct Hrg as [Hw [[Rl Rr] H8]].
  destruct (IHl Wl Rl) as (a & Ea & Fa & Pa). destruct (IHr Wr Rr) as (b & Eb & Fb & Pb).
  pose proof (wf_width l Wl) as Hwl.
  destruct (concat_byte_ok (getWidth l) (getWidth r) a b Hwl H8 Hw Fa Fb) as (r1 & r2 & E1 & E2 & F2 & I2).
  exists r2. cbn [evalRangeForExpr]. rewrite Ea, Eb. cbn [mbind outcome_bind]. rewrite E1. cbn [mbind outcome_bind].
  split; [done|]. split; [done|]. cbn [precise eval]. rewrite !andb_true_iff, Z.eqb_eq. intros [[Pl Pr] E8] ρ. by apply I2; auto.
Qed.

(** The range of an expression is computed and is not empty, and it contains the
    values of a precise one. *)
Lemma range_ok_mut :
  (forall e, computes_range e) /\ (forall u, reads_ok u).
Proof.
  assert (forall e, evalRangeForExpr e = full_range e -> wf e -> ranged e = true ->
    exists v, evalRangeForExpr e = Done v /\ range_ok e v) as Hfull.
  { intros e E He Hrg. assert (getWidth e <= 64) as Hw.
    { destruct e; cbn [ranged] in Hrg; apply andb_true_iff in Hrg as [Hrg _]; by apply Z.leb_le in Hrg. }
    destruct (full_range_ok_expr e He Hw) as (v & Ev & F & I). exists v. rewrite E. split; [done|]. by split. }
  apply Expr_UpdateNode_ind; try (intros; intros ? ?; by apply Hfull).
  - intros v Hv Hrg. cbn in Hrg. rewrite andb_true_r in Hrg. apply Z.leb_le in Hrg. destruct Hv as [Hw Hv].
    pose proof (pow2_mono (getBitWidth v) 64 ltac:(lia)). eexists. split; [done|]. unfold ValueRange_constant.
    rewrite ap_getLimitedValue_spec, Z.min_l by lia. destruct (fits_fixed (getBitWidth v) (uval v) Hv). by split.
  - intros r u IHu i IHi (Ha & Wu & Wi & Ew) Hrg. cbn in Hrg. rewrite !andb_true_iff, Z.eqb_eq in Hrg.
    destruct Hrg as [_ [[H8 Ru] Ri]]. destruct (IHi Wi Ri) as (x & Ex & Fx & Px). rewrite Ew in Fx.
    destruct (IHu r x ValueRange_empty Ha H8 Wu Ru Fx) as (v & Ev & Fv & _ & Pv); [by split; cbn; lia|].
    exists v. cbn [evalRangeForExpr]. rewrite Ex. split; [done|]. split; [cbn; by rewrite H8|].
    cbn [precise eval]. rewrite andb_true_iff. intros [P1 P2] ρ. apply Pv; auto. by apply eval_range.
  - intros c IHc t IHt f IHf He Hrg. by apply range_select_ok.
  - intros l IHl r IHr He Hrg. by apply range_concat_ok.
  - intros k l IHl r IHr He Hrg. destruct (decide (k = Shl \/ k = LShr \/ k = AShr)) as [Hk|Hk].
    { apply Hfull; [|done..]. by destruct_or!; subst. }
    assert (ranged l = true /\ ranged r = true) as [Rl Rr].
    { cbn [ranged] in Hrg. apply andb_true_iff in Hrg as [_ Hrg].
      destruct k; rewrite ?andb_true_iff in Hrg; try done; try tauto. }
    destruct He as (Wl & Wr & Ew). destruct (IHl Wl Rl) as (a & Ea & Ra). destruct (IHr Wr Rr) as (b & Eb & Rb).
    by eapply range_binary_ok.
  - intros r index res Ha H8 _ _ [Fx _] Hres. destruct (getInitialReadRange_ok r index Ha H8) as (v & Ev & Fv & Iv); [lia|].
    cbn [range_evalRead]. rewrite Ev. cbn [mbind outcome_bind]. destruct (union_res res v Hres Fv) as [Fu Cu].
    eexists. split_and!; [done..|]. intros _ ρ i Hi Hin. eapply covers_inside; [apply union_covers|]. by apply Iv.
  - intros n IHn i IHi v IHv. by apply reads_ok_node.
Qed.

Lemma evalRange_ok e : wf e -> ranged e = true -> exists v, evalRangeForExpr e = Done v /\ range_ok e v.
Proof. apply range_ok_mut. Qed.

End Ranges.

(** ** Evaluation with the values *)

Section Evaluation.
Context {AP : APIntOps} {APL : APIntLaws} {AH : ArrayHeap} {OP : ExprOptions} {VO : VisitorOptions}.
Context (default_opt : ConstArrayOpt = false) (domain32 : forall r, arr_domain (array_at r) <= 32).

(** One range of bytes for each element of an object, none of them empty. *)
Definition contents_ok (r : positive) (l : list ValueRange) : Prop :=
  length l = Z.to_nat (arr_size (array_at r)) /\ Forall (fits 8) l.

Definition cex_ok (o : Objects) : Prop := forall r d, o !! r = Some d ->
  contents_ok r (possibleContents d) /\ contents_ok r (exactContents d).

(** The environment is among the exact values. *)
Definition exact_ok (ρ : env) (o : Objects) : Prop := forall r d i v, o !! r = Some d ->
  exactContents d !! i = Some v -> isConstantArray (array_at r) = false ->
  inside (initial_value ρ r (Z.of_nat i)) v.

(** The environment of the possible values. *)
Definition middle (v : ValueRange) : Z := m_min v + (m_max v - m_min v) / 2.

Definition possible_byte (o : Objects) (r : positive) (i : Z) : Z :=
  match o !! r with
  | None => 127
  | Some d => default 0 (middle <$> possibleContents d !! Z.to_nat i)
  end.

Lemma contents_lookup r l i : contents_ok r l -> 0 <= i < arr_size (array_at r) ->
  exists v, l !! Z.to_nat i = Some v /\ fits 8 v.
Proof.
  intros [Hl Hf] Hi. destruct (lookup_lt_is_Some_2 l (Z.to_nat i)) as [v Hv]; [lia|].
  exists v. split; [done|]. rewrite Forall_lookup in Hf. by eapply Hf.
Qed.

Lemma middle_inside v : fits 8 v -> inside (middle v) v /\ 0 <= middle v < 2 ^ 8.
Proof.
  intros [H1 H2]. unfold inside, middle. pose proof (Z.div_pos (m_max v - m_min v) 2).
  pose proof (Z.div_le_upper_bound (m_max v - m_min v) 2 (m_max v - m_min v)). lia.
Qed.

Lemma getPossibleValue_ok r d i : contents_ok r (possibleContents d) -> 0 <= i < arr_size (array_at r) ->
  exists v, possibleContents d !! Z.to_nat i = Some v /\ fits 8 v /\ getPossibleValue i d = Done (middle v).
Proof.
  intros Hc Hi. destruct (contents_lookup r _ i Hc Hi) as (v & Ev & Fv). exists v. split_and!; [done..|].
  unfold getPossibleValue, getPossibleValues. rewrite Ev. cbn [deref mbind outcome_bind].
  destruct (nonempty_bounds 8 v Fv) as [-> ->]. cbn [mbind outcome_bind]. f_equal.
  pose proof (middle_inside v Fv) as [_ Hm]. destruct Fv as [? ?]. unfold u64.
  rewrite (Z.mod_small (m_max v - m_min v)) by lia. fold (middle v).
  rewrite (Z.mod_small (middle v) (2 ^ 64)) by lia. by apply Z.mod_small.
Qed.

(** What the evaluators give for an element they know nothing of. *)
Lemma unknown_element_ok r i : wf_array (array_at r) -> 0 <= i < 2 ^ arr_domain (array_at r) ->
  exists x, unknown_element r i = Done x /\ wf x /\ getWidth x = arr_range (array_at r) /\
    forall ρ, eval ρ x = initial_value ρ r i.
Proof.
  intros Ha Hi.
  destruct (evalRead_symbolic default_opt domain32 (fun _ => True) (fun _ _ => 0) (fun _ _ => False) r UNull i)
    as (x & Ex & []); try done. exists x. split_and!; auto.
Qed.

Lemma element_constant r v i : wf_array (array_at r) -> 0 <= v < 2 ^ 8 ->
  let c := ConstantExpr (ConstantExpr_alloc v (arr_range (array_at r))) in
  wf c /\ getWidth c = arr_range (array_at r) /\
  forall ρ, ρ r i mod 2 ^ arr_range (array_at r) = v mod 2 ^ arr_range (array_at r) ->
    isConstantArray (array_at r) = false -> eval ρ c = initial_value ρ r i.
Proof.
  intros (_ & Hr & _) Hv c. assert (0 <= v < 2 ^ 64) as Hv64 by lia.
  destruct (wf_alloc (arr_range (array_at r)) v Hr Hv64) as [W1 W2]. split_and!; [done..|].
  intros ρ E Hc. unfold c, initial_value. rewrite Hc, E. cbn [eval]. by rewrite alloc_small.
Qed.

Abbreviation possible_env o := (possible_byte o).

Lemma possible_initial_ok o : cex_ok o ->
  initial_values_ok (fun ρ => ρ = possible_env o) (fun r i => i < arr_size (array_at r)) (possible_initial_value o).
Proof.
  intros Ho r i Ha Hi Hc. unfold possible_initial_value. destruct (Z.leb_spec (arr_size (array_at r)) i) as [Hle|Hlt].
  { destruct (unknown_element_ok r i Ha Hi) as (x & -> & Hw & Hx & He). exists x. split_and!; auto. lia. }
  assert (isConstantArray (array_at r) = false) as Hs.
  { apply not_true_iff_false. intros Hct. specialize (Hc Hct). lia. }
  assert (exists v, match o !! r with None => Done 127 | Some d => getPossibleValue i d end = Done v /\
    0 <= v < 2 ^ 8 /\ v = possible_byte o r i) as (v & -> & Hv & Ev).
  { unfold possible_byte. destruct (o !! r) as [d|] eqn:Hd; [|by exists 127].
    destruct (Ho r d Hd) as [Hp _]. destruct (getPossibleValue_ok r d i Hp) as (x & Ex & Fx & ->); [lia|].
    exists (middle x). rewrite Ex. split; [done|]. split; [by apply middle_inside|done]. }
  destruct (element_constant r v i Ha Hv) as (W1 & W2 & W3). eexists. split; [done|]. split_and!; [done..|].
  intros ρ ->. apply W3; [by rewrite Ev|done].
Qed.

Lemma exact_initial_ok o : cex_ok o ->
  initial_values_ok (fun ρ => exact_ok ρ o) (fun _ _ => False) (exact_initial_value o).
Proof.
  intros Ho r i Ha Hi Hc. unfold exact_initial_value.
  assert (exists x, unknown_element r i = Done x /\ wf x /\ getWidth x = arr_range (array_at r) /\
    (False -> isConst x = true) /\ forall ρ, exact_ok ρ o -> eval ρ x = initial_value ρ r i) as Hun.
  { destruct (unknown_element_ok r i Ha Hi) as (x & -> & Hw & Hx & He). exists x. by split_and!; auto. }
  destruct (Z.leb_spec (arr_size (array_at r)) i) as [Hle|Hlt]; [done|].
  assert (isConstantArray (array_at r) = false) as Hs.
  { apply not_true_iff_false. intros Hct. specialize (Hc Hct). lia. }
  destruct (o !! r) as [d|] eqn:Hd; [|done]. destruct (Ho r d Hd) as [_ He].
  destruct (contents_lookup r _ i He) as (v & Ev & Fv); [lia|]. unfold getExactValues. rewrite Ev.
  cbn [deref mbind outcome_bind]. destruct (ValueRange_isFixed v) eqn:HF; cbn [negb]; [|done].
  rewrite (proj1 (nonempty_bounds 8 v Fv)). cbn [mbind outcome_bind]. destruct Fv as [F1 F2].
  destruct (element_constant r (m_min v) i Ha ltac:(lia)) as (W1 & W2 & W3). eexists. split; [done|]. split_and!; [done..|].
  intros ρ Hρ. apply W3; [|done]. specialize (Hρ r d (Z.to_nat i) v Hd Ev Hs). rewrite Z2Nat.id in Hρ by lia.
  rewrite (fixed_min v _ HF Hρ). unfold initial_value. rewrite Hs. symmetry. apply Zmod_mod.
Qed.

(** Evaluation keeps the values: of the possible environment, and of every
    environment among the exact values. *)
Lemma evaluatePossible_ok o e : cex_ok o -> evaluable e -> exists x, evaluatePossible e o = Done x /\ wf x /\
  getWidth x = getWidth e /\ eval (possible_env o) x = eval (possible_env o) e /\
  (known (possible_env o) (fun r i => i < arr_size (array_at r)) e -> isConst x = true).
Proof.
  intros Ho He.
  pose proof (ExprEvaluator_ok default_opt domain32 (fun ρ => ρ = possible_env o) (possible_env o) eq_refl
    (fun r i => i < arr_size (array_at r)) (possible_initial_value o) (possible_initial_ok o Ho)) as Hv.
  destruct (visit_ok _ _ _ _ _ e [] Hv He (List.Forall_nil _)) as (x & s' & Ev & [[[W1 W2] W3] Hc] & _).
  exists x. unfold evaluatePossible. rewrite (visit_enough (ExprEvaluator (possible_initial_value o)) e [] (x, s') eq_refl (evaluator_local _) Ev). split_and!; auto.
Qed.

Lemma evaluateExact_ok ρ o e : cex_ok o -> exact_ok ρ o -> evaluable e -> exists x, evaluateExact e o = Done x /\
  wf x /\ getWidth x = getWidth e /\ eval ρ x = eval ρ e.
Proof.
  intros Ho Hρ He.
  pose proof (ExprEvaluator_ok default_opt domain32 (fun ρ => exact_ok ρ o) ρ Hρ
    (fun _ _ => False) (exact_initial_value o) (exact_initial_ok o Ho)) as Hv.
  destruct (visit_ok _ _ _ _ _ e [] Hv He (List.Forall_nil _)) as (x & s' & Ev & [[[W1 W2] W3] _] & _).
  exists x. unfold evaluateExact. rewrite (visit_enough (ExprEvaluator (exact_initial_value o)) e [] (x, s') eq_refl (evaluator_local _) Ev). split_and!; auto.
Qed.

End Evaluation.

(** ** Propagation of possible values *)

Section Possible.
Context {AP : APIntOps} {APL : APIntLaws} {AH : ArrayHeap}.

(** No range that may be empty reaches a concatenation, and nothing reaches a
    sign extension; [empty] says that the range passed may be empty. *)
Fixpoint pushes (empty : bool) (e : Expr) : bool :=
  match e with
  | ConstantExpr _ | NotOptimizedExpr _ | ExtractExpr _ _ _ => true
  | ReadExpr r _ _ => arr_range (array_at r) =? 8
  | SelectExpr c t f => ranged c && pushes empty t && pushes empty f
  | ConcatExpr l r => negb empty && (getWidth l + getWidth r <=? 64) && pushes false l && pushes false r
  | CastExpr ZExt s _ => (getWidth s <=? 64) && pushes true s
  | CastExpr SExt _ _ => false
  | NotExpr x => negb (getWidth x =? Bool) || pushes false x
  | BinaryExpr k l r =>
      match k with
      | Add | EqK => match l with ConstantExpr CE => negb (getBitWidth CE <=? 64) || pushes false r | _ => true end
      | And | Or =>
          negb (getWidth l =? Bool) || ranged l && ranged r && pushes false l && pushes false r
      | Ult | Ule =>
          ranged l && ranged r &&
          match evalRangeForExpr l, evalRangeForExpr r with
          | Done a, Done b =>
              if ValueRange_isFixed a then pushes (m_min a =? 2 ^ getWidth r - 1) r
              else if ValueRange_isFixed b then pushes (m_min b =? 2 ^ getWidth r - 1) l else true
          | _, _ => false
          end
      | Ne | Ugt | Uge | Sgt | Sge => false
      | _ => true
      end
  end.

(** Bounds that are words. *)
Definition words (r : ValueRange) : Prop := 0 <= m_min r < 2 ^ 64 /\ 0 <= m_max r < 2 ^ 64.

Definition passed (empty : bool) (r : ValueRange) : Prop := words r /\ (empty = false -> fits 64 r).

Lemma passed_fits empty r : fits 64 r -> passed empty r.
Proof. intros [? ?]. split; [split; lia|by split]. Qed.

Lemma passed_fixed empty x : 0 <= x < 2 ^ 64 -> passed empty (ValueRange_fixed x).
Proof. intros Hx. apply passed_fits, (fits_fixed 64 x Hx). Qed.

Lemma fixed_fits r : words r -> ValueRange_isFixed r = true -> fits 64 r.
Proof. intros [? ?] E%Z.eqb_eq. split; lia. Qed.

(** What a step of the propagation keeps. *)
Record kept (o o' : Objects) : Prop := MkKept {
  k_cex : cex_ok o';
  k_exact ρ : exact_ok ρ o -> exact_ok ρ o'
}.

Lemma kept_refl o : cex_ok o -> kept o o.
Proof. by split. Qed.

Lemma kept_trans o1 o2 o3 : kept o1 o2 -> kept o2 o3 -> kept o1 o3.
Proof. intros [] []. split; auto. Qed.

Lemma new_contents r : contents_ok r (replicate (Z.to_nat (arr_size (array_at r))) (MkRange 0 255)).
Proof. split; [apply length_replicate|]. by apply Forall_replicate. Qed.

Lemma getObjectData_ok r o : wf_array (array_at r) -> arr_range (array_at r) = 8 -> cex_ok o ->
  kept o (getObjectData r o) /\ exists d, getObjectData r o !! r = Some d.
Proof.
  intros Ha H8 Ho. unfold getObjectData. destruct (o !! r) as [d|] eqn:Hd; [split; [by apply kept_refl|by exists d]|].
  split; [|eexists; apply lookup_insert_eq]. split.
  - intros r' d' [[<- <-]|[Hne Hl]]%lookup_insert_Some; [|by eapply Ho]. split; apply new_contents.
  - intros ρ Hρ r' d' i v [[<- <-]|[Hne Hl]]%lookup_insert_Some Hi Hs; [|by eapply Hρ].
    cbn in Hi. apply lookup_replicate in Hi as [-> _]. pose proof (initial_value_range ρ r (Z.of_nat i) Ha) as Hr.
    rewrite H8 in Hr. unfold inside. cbn. lia.
Qed.

Lemma vector_set_ok {A} (l : list A) i x : 0 <= i < Z.of_nat (length l) ->
  vector_set l i x = Done (<[Z.to_nat i := x]> l).
Proof. intros Hi. unfold vector_set. by rewrite (proj2 (Nat.ltb_lt _ _)) by lia. Qed.

Lemma contents_insert r l i v : contents_ok r l -> fits 8 v -> contents_ok r (<[i := v]> l).
Proof. intros [Hl Hf] Hv. split; [by rewrite length_insert|by apply Forall_insert]. Qed.

Lemma setPossibleValues_kept r d i v o : cex_ok o -> o !! r = Some d -> 0 <= i < arr_size (array_at r) -> fits 8 v ->
  exists o', with_object r (setPossibleValues i v) o = Done o' /\ kept o o'.
Proof.
  intros Ho Hd Hi Hv. destruct (Ho r d Hd) as [Hp He]. unfold with_object, setPossibleValues. rewrite Hd.
  cbn [deref mbind outcome_bind]. rewrite vector_set_ok by (destruct Hp; lia). eexists. split; [done|]. split.
  - intros r' d' [[<- <-]|[Hne Hl]]%lookup_insert_Some; [|by eapply Ho]. split; [by apply contents_insert|done].
  - intros ρ Hρ r' d' j x [[<- <-]|[Hne Hl]]%lookup_insert_Some Hj Hs; [by eapply (Hρ r d)|by eapply Hρ].
Qed.

Lemma possible_read_ok r u i empty range o : wf (ReadExpr r u i) -> arr_domain (array_at r) <= 32 ->
  arr_range (array_at r) = 8 -> passed empty range -> cex_ok o ->
  exists o', possible_read r i range o = Done o' /\ kept o o'.
Proof.
  intros (Ha & _ & Wi & Ew) Hdom H8 [Hwords _] Ho. unfold possible_read.
  destruct (getObjectData_ok r o Ha H8 Ho) as [Hk [d Hd]]. set (o1 := getObjectData r o) in *.
  destruct i as [c| | | | | | | |]; try (by exists o1). cbn in Wi, Ew. destruct Wi as [Wc Vc].
  unfold ConstantExpr_getZExtValue. rewrite (proj2 (Z.leb_le _ _)) by lia. cbn [mbind outcome_bind].
  pose proof (pow2_mono (getBitWidth c) 32 ltac:(lia)). rewrite ap_getZExtValue_spec by lia.
  destruct (Z.ltb_spec (uval c) (arr_size (array_at r))) as [Hlt|]; [|by exists o1].
  pose proof (k_cex _ _ Hk) as Ho1. destruct (ValueRange_isFixed range) eqn:HF.
  - pose proof (fixed_fits range Hwords HF) as Fr. rewrite (proj1 (nonempty_bounds 64 range Fr)). cbn [mbind outcome_bind].
    unfold setPossibleValue. destruct (fits_fixed 8 (m_min range mod 2 ^ 8)) as [F _]; [apply mod_pow2_range; lia|].
    destruct (setPossibleValues_kept r d (uval c) _ o1 Ho1 Hd ltac:(lia) F) as (o2 & E2 & K2).
    exists o2. split; [done|]. by eapply kept_trans.
  - rewrite Hd. cbn [deref mbind outcome_bind]. destruct (contents_lookup r _ (uval c) (proj1 (Ho1 r d Hd))) as (v & Ev & Fv); [lia|].
    unfold getPossibleValues. rewrite Ev. cbn [deref mbind outcome_bind]. destruct (ValueRange_isEmpty _) eqn:HE; [by exists o1|].
    apply Z.ltb_ge in HE. destruct (setPossibleValues_kept r d (uval c) (ValueRange_set_intersection v range) o1 Ho1 Hd ltac:(lia)) as (o2 & E2 & K2).
    { unfold fits in *. cbn in *. lia. }
    exists o2. split; [done|]. by eapply kept_trans.
Qed.

(** The ranges that are passed on. *)
Lemma shiftRight_ok n r : 0 <= n < 64 -> fits 64 r ->
  exists r', ValueRange_binaryShiftRight r n = Done r' /\ fits 64 r'.
Proof.
  intros Hn [H1 H2]. unfold ValueRange_binaryShiftRight. rewrite (proj2 (Z.ltb_lt n 64)) by lia. eexists. split; [done|].
  pose proof (pow2_pos n ltac:(lia)). unfold fits. cbn. rewrite !Z.shiftr_div_pow2 by lia.
  pose proof (Z.div_pos (m_min r) (2 ^ n)). pose proof (Z.div_le_mono (m_min r) (m_max r) (2 ^ n)).
  pose proof (Z.div_le_upper_bound (m_max r) (2 ^ n) (m_max r)). nia.
Qed.

Lemma range_extract_ok lo hi r : 0 <= lo < 64 -> 0 <= hi - lo <= 64 -> fits 64 r ->
  exists r', ValueRange_extract r lo hi = Done r' /\ fits 64 r'.
Proof.
  intros Hlo Hhi Hr. unfold ValueRange_extract. destruct (shiftRight_ok lo r Hlo Hr) as (s & -> & Fs). cbn [mbind outcome_bind].
  rewrite bits64_maxValueOfNBits_spec by done. cbn [mbind outcome_bind].
  pose proof (pow2_pos (hi - lo) ltac:(lia)). pose proof (pow2_mono (hi - lo) 64 ltac:(lia)).
  destruct (fits_fixed 64 (2 ^ (hi - lo) - 1)) as [F _]; [lia|].
  destruct (binaryAnd_ok 64 ltac:(lia) s _ Fs F) as (r' & E & Fr & _). by exists r'.
Qed.

Lemma possible_add_ok CE range : wf_apint CE -> passed false range \/ passed true range ->
  exists r, possible_add (ConstantExpr CE) range = Done r /\
    forall v, r = Some v -> getBitWidth CE <= 64 /\ fits 64 v.
Proof.
  intros [Wc Vc] Hp. assert (words range) as Hwords by (by destruct Hp as [[? _]|[? _]]). clear Hp.
  unfold possible_add. destruct (Z.leb_spec (getBitWidth CE) 64) as [Hw|]; [|by eexists].
  destruct (ValueRange_isEmpty range) eqn:HE; [by eexists|]. unfold ValueRange_min, ValueRange_max. rewrite HE.
  cbn [negb mbind outcome_bind]. destruct Hwords as [H1 H2].
  assert (forall x, 0 <= x < 2 ^ 64 -> exists y, ConstantExpr_getZExtValue
    (ConstantExpr_Sub (ConstantExpr_alloc x (getBitWidth CE)) CE) 64 = Done y /\ 0 <= y < 2 ^ 64) as Hsub.
  { intros x Hx. unfold ConstantExpr_Sub. rewrite alloc_small, ap_sub_spec by done. unfold ConstantExpr_getZExtValue.
    cbn [getBitWidth]. rewrite (proj2 (Z.leb_le _ _)) by done. pose proof (pow2_mono (getBitWidth CE) 64 ltac:(lia)).
    pose proof (mod_pow2_range (x mod 2 ^ getBitWidth CE - uval CE) (getBitWidth CE) ltac:(lia)) as Hm.
    rewrite ap_getZExtValue_spec by (cbn [uval]; lia). cbn [uval]. eexists. split; [done|]. lia. }
  destruct (Hsub _ H1) as (lo & -> & Hlo). cbn [mbind outcome_bind]. destruct (Hsub _ H2) as (hi & -> & Hhi).
  cbn [mbind outcome_bind]. eexists. split; [done|]. intros v Hv. split; [done|].
  destruct (ValueRange_isEmpty (MkRange lo hi)) eqn:HE2; [done|]. injection Hv as <-. apply Z.ltb_ge in HE2.
  unfold fits. cbn in *. lia.
Qed.

Lemma possible_eq_ok CE range : wf_apint CE -> words range ->
  exists r, possible_eq (ConstantExpr CE) range = Done r /\ forall v, r = Some v -> getBitWidth CE <= 64 /\ fits 64 v.
Proof.
  intros [Wc Vc] Hwords. unfold possible_eq. destruct (ValueRange_isFixed range) eqn:HF; [|by eexists].
  destruct (Z.leb_spec (getBitWidth CE) 64) as [Hw|]; [|by eexists].
  pose proof (pow2_mono (getBitWidth CE) 64 ltac:(lia)). unfold ConstantExpr_getZExtValue.
  rewrite (proj2 (Z.leb_le _ _)), ap_getZExtValue_spec by lia. cbn [mbind outcome_bind].
  rewrite (proj1 (nonempty_bounds 64 range (fixed_fits range Hwords HF))). cbn [mbind outcome_bind].
  destruct (m_min range =? 0); cbn [negb].
  - rewrite bits64_maxValueOfNBits_spec by lia. cbn [mbind outcome_bind]. pose proof (pow2_ge2 (getBitWidth CE) Wc).
    destruct (Z.eqb_spec (uval CE) 0); eexists; (split; [done|]); intros v [= <-]; unfold fits; cbn; lia.
  - eexists; split; [done|]. intros v [= <-]; unfold fits; cbn; lia.
Qed.

(** The side that a comparison narrows is passed what [pushes] asks for. *)
Lemma possible_compare_ok k l r range : k = Ult \/ k = Ule -> wf l -> wf r -> getWidth l = getWidth r ->
  pushes true (BinaryExpr k l r) = true -> words range ->
  exists side, possible_compare (bool_decide (k = Ult)) l r range = Done side /\
    (forall v, side = Some (inl v) -> exists b, pushes b l = true /\ passed b v) /\
    (forall v, side = Some (inr v) -> exists b, pushes b r = true /\ passed b v).
Proof.
  intros Hk Wl Wr Ew Hp Hwords. unfold possible_compare.
  destruct (ValueRange_isFixed range) eqn:HF; [|by eexists].
  assert (ranged l = true /\ ranged r = true /\
    match evalRangeForExpr l, evalRangeForExpr r with
    | Done a, Done b => if ValueRange_isFixed a then pushes (m_min a =? 2 ^ getWidth r - 1) r = true
        else if ValueRange_isFixed b then pushes (m_min b =? 2 ^ getWidth r - 1) l = true else True
    | _, _ => False
    end) as (Rl & Rr & Hm).
  { destruct Hk as [-> | ->]; cbn [pushes] in Hp; rewrite !andb_true_iff in Hp; destruct Hp as [[Rl Rr] Hm];
      (split_and!; [done..|]); repeat case_match; done. }
  destruct (evalRange_ok l Wl Rl) as (a & Ea & Fa & _). destruct (evalRange_ok r Wr Rr) as (b & Eb & Fb & _).
  rewrite Ea, Eb in Hm |- *. cbn [mbind outcome_bind]. pose proof (wf_width r Wr).
  assert (getWidth r <= 64) as Hw64.
  { destruct r; cbn [ranged] in Rr; apply andb_true_iff in Rr as [Rr _]; by apply Z.leb_le in Rr. }
  rewrite bits64_maxValueOfNBits_spec by lia. cbn [mbind outcome_bind].
  assert (2 ^ getWidth r <= 2 ^ 64) by (apply pow2_mono; lia). rewrite Ew in Fa.
  rewrite (proj1 (nonempty_bounds 64 range (fixed_fits range Hwords HF))).
  rewrite (proj1 (nonempty_bounds _ a Fa)), (proj1 (nonempty_bounds _ b Fb)). cbn [mbind outcome_bind].
  destruct Fa as [Fa1 Fa2], Fb as [Fb1 Fb2].
  assert (forall x, 0 <= x < 2 ^ getWidth r -> forall s m, passed (x =? 2 ^ getWidth r - 1)
    (if negb (m =? 0) then MkRange (if (s : bool) then u64 (x + 1) else x) (2 ^ getWidth r - 1)
     else MkRange 0 (if s then x else u64 (x - 1)))) as Hup.
  { intros x Hx s m. unfold passed, words, fits. pose proof (u64_range (x + 1)). pose proof (u64_range (x - 1)).
    destruct (m =? 0), s; cbn; (split; [lia|]); intros HE%Z.eqb_neq; try lia. unfold u64. rewrite Z.mod_small; lia. }
  assert (forall x, 0 <= x < 2 ^ getWidth r -> forall s m, passed (x =? 2 ^ getWidth r - 1)
    (if negb (m =? 0) then MkRange 0 (if (s : bool) then u64 (x - 1) else x)
     else MkRange (if s then x else u64 (x + 1)) (2 ^ getWidth r - 1))) as Hdown.
  { intros x Hx s m. specialize (Hup x Hx (negb s) (1 - m)). specialize (Hup). unfold passed, words, fits in *.
    pose proof (u64_range (x + 1)). pose proof (u64_range (x - 1)).
    destruct (m =? 0), s; cbn; (split; [lia|]); intros HE%Z.eqb_neq; try lia. unfold u64. rewrite Z.mod_small; lia. }
  destruct (ValueRange_isFixed a) eqn:HFa; [|destruct (ValueRange_isFixed b) eqn:HFb]; eexists; (split; [done|]); split;
    intros v Hv; try done; injection Hv as <-; eexists; (split; [exact Hm|]); [apply Hup|apply Hdown]; lia.
Qed.

Context (domain32 : forall r, arr_domain (array_at r) <= 32).

(** Propagation into an expression returns and keeps the exact values. *)
Definition pushed (e : Expr) : Prop := forall empty range o, wf e -> pushes empty e = true -> passed empty range -> cex_ok o ->
  exists o', propagatePossibleValues e range o = Done o' /\ kept o o'.

Lemma pushed_skip o : cex_ok o -> exists o', Done o = Done o' /\ kept o o'.
Proof. intros. exists o. split; [done|]. by apply kept_refl. Qed.

(** One propagation after another. *)
Lemma pushed_then (f : outcome Objects) (g : Objects -> outcome Objects) o : (exists o', f = Done o' /\ kept o o') ->
  (forall o', kept o o' -> exists o'', g o' = Done o'' /\ kept o' o'') -> exists o', f ≫= g = Done o' /\ kept o o'.
Proof.
  intros (o1 & -> & K1) Hg. destruct (Hg o1 K1) as (o2 & E & K2). exists o2. split; [done|]. by eapply kept_trans.
Qed.

Lemma pushed_value e x o : pushed e -> wf e -> pushes false e = true -> 0 <= x < 2 ^ 64 -> cex_ok o ->
  exists o', propagatePossibleValues e (ValueRange_fixed x) o = Done o' /\ kept o o'.
Proof. intros H We Hp Hx Ho. apply (H false); try done. by apply passed_fixed. Qed.

(** The two halves of [And] and [Or] on booleans: one side is enough, or both
    are needed. *)
Lemma pushed_one l r lv c x o : pushed l -> pushed r -> wf l -> wf r -> pushes false l = true -> pushes false r = true ->
  0 <= x < 2 ^ 64 -> cex_ok o -> evalRangeForExpr l = Done lv ->
  exists o', (if (c : bool) then Done o
     else o ← propagatePossibleValues l (ValueRange_fixed x) o;
          left ← evalRangeForExpr l;
          if negb (ValueRange_mustEqual_value left 1)
          then propagatePossibleValues r (ValueRange_fixed x) o else Done o) = Done o' /\ kept o o'.
Proof.
  intros Hl Hr Wl Wr Pl Pr Hx Ho El. destruct c; [by apply pushed_skip|]. apply pushed_then; [by apply pushed_value|].
  intros o1 K1. rewrite El. cbn [mbind outcome_bind]. pose proof (k_cex _ _ K1).
  destruct (negb _); [by apply pushed_value|by apply pushed_skip].
Qed.

Lemma pushed_both l r c c' x o : pushed l -> pushed r -> wf l -> wf r -> pushes false l = true -> pushes false r = true ->
  0 <= x < 2 ^ 64 -> cex_ok o ->
  exists o', (o ← (if (c : bool) then propagatePossibleValues l (ValueRange_fixed x) o else Done o);
              if (c' : bool) then propagatePossibleValues r (ValueRange_fixed x) o else Done o) = Done o' /\ kept o o'.
Proof.
  intros Hl Hr Wl Wr Pl Pr Hx Ho. apply pushed_then; [destruct c; [by apply pushed_value|by apply pushed_skip]|].
  intros o1 K1. pose proof (k_cex _ _ K1). destruct c'; [by apply pushed_value|by apply pushed_skip].
Qed.

Lemma pushed_connective k l r : k = And \/ k = Or -> pushed l -> pushed r -> pushed (BinaryExpr k l r).
Proof.
  intros Hk IHl IHr empty range o (Wl & Wr & _) Hp [Hwords _] Ho.
  assert (negb (getWidth l =? Bool) || ranged l && ranged r && pushes false l && pushes false r = true) as Hp'
    by (by destruct Hk as [-> | ->]). clear Hp.
  destruct (getWidth l =? Bool) eqn:Hw; [|destruct Hk as [-> | ->]; cbn [propagatePossibleValues]; rewrite Hw; by apply pushed_skip].
  cbn [negb orb] in Hp'. rewrite !andb_true_iff in Hp'. destruct Hp' as [[[Rl Rr] Pl] Pr].
  destruct (evalRange_ok l Wl Rl) as (a & Ea & _). destruct (evalRange_ok r Wr Rr) as (b & Eb & _).
  destruct (ValueRange_isFixed range) eqn:HF;
    [|destruct Hk as [-> | ->]; cbn [propagatePossibleValues]; rewrite Hw, HF; by apply pushed_skip].
  pose proof (proj1 (nonempty_bounds 64 range (fixed_fits range Hwords HF))) as Em.
  destruct Hk as [-> | ->]; cbn [propagatePossibleValues]; rewrite Hw, HF, Ea, Eb; cbn [andb mbind outcome_bind]; rewrite Em;
    cbn [mbind outcome_bind]; destruct (m_min range =? 0); cbn [negb].
  - pose proof (pushed_one l r a (ValueRange_mustEqual_value a 0 || ValueRange_mustEqual_value b 0) 0 o) as H.
    rewrite Ea in H. apply H; (done || lia).
  - apply pushed_both; (done || lia).
  - apply pushed_both; (done || lia).
  - pose proof (pushed_one l r a (ValueRange_mustEqual_value a 1 || ValueRange_mustEqual_value b 1) 1 o) as H.
    rewrite Ea in H. apply H; (done || lia).
Qed.

Lemma pushed_compare k l r : k = Ult \/ k = Ule -> pushed l -> pushed r -> pushed (BinaryExpr k l r).
Proof.
  intros Hk IHl IHr empty range o (Wl & Wr & Ew) Hp [Hwords _] Ho.
  assert (pushes true (BinaryExpr k l r) = true) as Hp' by (by destruct Hk as [-> | ->]).
  destruct (possible_compare_ok k l r range Hk Wl Wr Ew Hp' Hwords) as (side & Es & Hl & Hr).
  assert (propagatePossibleValues (BinaryExpr k l r) range o =
    (side ← possible_compare (bool_decide (k = Ult)) l r range;
     match side with
     | Some (inl nrange) => propagatePossibleValues l nrange o
     | Some (inr nrange) => propagatePossibleValues r nrange o
     | None => Done o
     end)) as -> by (by destruct Hk as [-> | ->]).
  rewrite Es. cbn [mbind outcome_bind]. destruct side as [[v|v]|]; [| |by apply pushed_skip].
  - destruct (Hl v eq_refl) as (b & Hb & Hv). by eapply IHl.
  - destruct (Hr v eq_refl) as (b & Hb & Hv). by eapply IHr.
Qed.

Lemma pushed_sum k l r : k = Add \/ k = EqK -> pushed r -> pushed (BinaryExpr k l r).
Proof.
  intros Hk IHr empty range o (Wl & Wr & _) Hp Hpass Ho. pose proof Hpass as [Hwords _].
  set (f := match k with Add => possible_add | _ => possible_eq end).
  assert (propagatePossibleValues (BinaryExpr k l r) range o =
    (nrange ← f l range; match nrange with Some nrange => propagatePossibleValues r nrange o | None => Done o end)) as ->
    by (by destruct Hk as [-> | ->]).
  assert (isConst l = false -> f l range = Done None) as Hn.
  { intros Hc. unfold f. destruct Hk as [-> | ->], l; try done; unfold possible_eq; by case_match. }
  destruct l as [CE| | | | | | | |]; try (rewrite Hn by done; by apply pushed_skip). clear Hn.
  assert (negb (getBitWidth CE <=? 64) || pushes false r = true) as Hp' by (by destruct Hk as [-> | ->]).
  assert (exists v, f (ConstantExpr CE) range = Done v /\ forall x, v = Some x -> getBitWidth CE <= 64 /\ fits 64 x)
    as (v & -> & Hv).
  { unfold f. destruct Hk as [-> | ->]; [apply possible_add_ok|apply possible_eq_ok]; try done. right. by split. }
  cbn [mbind outcome_bind]. destruct v as [x|]; [|by apply pushed_skip]. destruct (Hv x eq_refl) as [Hw Hx].
  rewrite (proj2 (Z.leb_le _ _)) in Hp' by done. apply (IHr false); try done. by apply passed_fits.
Qed.

Lemma propagatePossibleValues_ok e : pushed e.
Proof.
  induction e as [v|s IH|r u i IHi|c IHc t IHt f IHf|l IHl r IHr|x IH off w|x IH|k s IH w|k l IHl r IHr];
    intros empty range o We Hp Hpass Ho; cbn [propagatePossibleValues]; try (by apply pushed_skip).
  - cbn in Hp. apply Z.eqb_eq in Hp. by eapply possible_read_ok.
  - destruct We as (Wc & Wt & Wf & _). cbn [pushes] in Hp. rewrite !andb_true_iff in Hp. destruct Hp as [[Rc Pt] Pf].
    destruct (evalRange_ok c Wc Rc) as (a & -> & Fa & _). cbn [mbind outcome_bind]. destruct (ValueRange_isFixed a).
    + rewrite (proj1 (nonempty_bounds _ a Fa)). cbn [mbind outcome_bind]. destruct (negb _); [by eapply IHt|by eapply IHf].
    + apply pushed_then; [by eapply IHt|]. intros o1 K1. pose proof (k_cex _ _ K1). by eapply IHf.
  - destruct We as (Wl & Wr). cbn [pushes] in Hp. rewrite !andb_true_iff, Z.leb_le in Hp.
    destruct Hp as [[[He Hw] Pl] Pr]. apply negb_true_iff in He as ->. destruct Hpass as [_ Hfits]. specialize (Hfits eq_refl).
    pose proof (wf_width l Wl). pose proof (wf_width r Wr).
    destruct (range_extract_ok (getWidth r) (getWidth r + getWidth r) range) as (lr & El & Fl); [lia|lia|done|].
    destruct (range_extract_ok 0 (getWidth r) range) as (rr & Er & Fr); [lia|lia|done|].
    unfold possible_concat_left, possible_concat_right. rewrite El, Er. cbn [mbind outcome_bind].
    apply pushed_then; [apply (IHl false); try done; by apply passed_fits|]. intros o1 K1. pose proof (k_cex _ _ K1).
    apply (IHr false); try done. by apply passed_fits.
  - cbn [pushes] in Hp. destruct (getWidth x =? Bool) eqn:Hw; [|by apply pushed_skip].
    destruct (ValueRange_isFixed range) eqn:HF; [|by apply pushed_skip]. destruct Hpass as [Hwords _].
    rewrite (proj1 (nonempty_bounds 64 range (fixed_fits range Hwords HF))). cbn [andb mbind outcome_bind].
    apply pushed_value; try done. unfold not_value. destruct (m_min range =? 0); cbn; lia.
  - destruct We as [Ws _]. destruct k; [|done]. cbn [pushes] in Hp. rewrite andb_true_iff, Z.leb_le in Hp. destruct Hp as [Hw Hp].
    unfold possible_zext. pose proof (wf_width s Ws). rewrite bits64_maxValueOfNBits_spec by lia. cbn [mbind outcome_bind].
    apply (IH true); try done. split; [|done]. destruct Hpass as [[H1 H2] _].
    assert (2 ^ getWidth s <= 2 ^ 64) by (apply pow2_mono; lia). assert (0 < 2 ^ getWidth s) by (apply pow2_pos; lia).
    unfold words. cbn. lia.
  - destruct (decide (k = And \/ k = Or)) as [Hk|Hk]; [by eapply (pushed_connective k)|].
    destruct (decide (k = Ult \/ k = Ule)) as [Hk'|Hk']; [by eapply (pushed_compare k)|].
    destruct (decide (k = Add \/ k = EqK)) as [Hk''|Hk'']; [by eapply (pushed_sum k)|].
    destruct k; try done; try (by apply pushed_skip); tauto.
Qed.

End Possible.

(** ** Propagation of exact values *)

Section Exact.
Context {AP : APIntOps} {APL : APIntLaws} {AH : ArrayHeap}.

(** The index of a read has a range that contains it, and is inside the array
    where the range is a single value. *)
Definition located (r : positive) (i : Expr) : bool :=
  ranged i && precise i &&
  match evalRangeForExpr i with
  | Done a => negb (ValueRange_isFixed a) || (m_min a <? arr_size (array_at r))
  | _ => false
  end.

Fixpoint certain (e : Expr) : bool :=
  match e with
  | ReadExpr r u i => (arr_range (array_at r) =? 8) && located r i && certain_updates u
  | NotExpr x => negb (getWidth x =? Bool) || certain x
  | BinaryExpr EqK (ConstantExpr CE) r => negb (getBitWidth CE <=? 64) || certain r
  | BinaryExpr (Ne | Ugt | Uge | Sgt | Sge) _ _ => false
  | _ => true
  end
with certain_updates (u : UpdateNode) : bool :=
  match u with
  | UNull => true
  | UNode n i v => certain_updates n && ranged i && precise i && certain v
  end.

Context (ρ : env).

(** What propagation of a value that is right leaves. *)
Definition still (f : outcome Objects) : Prop := exists o', f = Done o' /\ cex_ok o' /\ exact_ok ρ o'.

Lemma still_Done o : cex_ok o -> exact_ok ρ o -> still (Done o).
Proof. by exists o. Qed.

(** Two ranges that share a value are intersected without a failed assertion. *)
Lemma exact_initial_still r d index range o : wf_array (array_at r) -> 0 <= m_min index ->
  (ValueRange_isFixed index = true -> m_min index < arr_size (array_at r)) -> fits 64 range ->
  (ValueRange_isFixed index = true -> inside (initial_value ρ r (m_min index)) range) ->
  cex_ok o -> exact_ok ρ o -> o !! r = Some d -> still (exact_initial r index range o).
Proof.
  intros Ha Hi0 Hi Fr Hin Ho Hρ Hd. unfold exact_initial. destruct (ValueRange_isFixed index) eqn:HF; [|by apply still_Done].
  specialize (Hi eq_refl). specialize (Hin eq_refl). rewrite (fixed_bound index HF). cbn [mbind outcome_bind].
  destruct (isConstantArray (array_at r)) eqn:Hc.
  { destruct Ha as (_ & _ & _ & Hl & _). specialize (Hl Hc).
    destruct (lookup_lt_is_Some_2 (constantValues (array_at r)) (Z.to_nat (m_min index))) as [c Ec]; [lia|].
    rewrite Ec. by apply still_Done. }
  rewrite Hd. cbn [deref mbind outcome_bind]. destruct (Ho r d Hd) as [Hpos Hex].
  destruct (contents_lookup r _ (m_min index) Hex ltac:(lia)) as (v & Ev & Fv). unfold getExactValues. rewrite Ev.
  cbn [deref mbind outcome_bind]. pose proof (Hρ r d _ v Hd Ev Hc) as Hv. rewrite Z2Nat.id in Hv by done.
  destruct (nonempty_bounds 64 range Fr) as [-> ->], (nonempty_bounds 8 v Fv) as [-> ->]. cbn [mbind outcome_bind].
  set (x := initial_value ρ r (m_min index)) in *. unfold inside in Hin, Hv. destruct Fv as [Fv1 Fv2].
  assert (exists v1, (if m_min v <? m_min range then Assert m_min range <=? m_max v ;; Done (MkRange (m_min range) (m_max v))
    else Done v) = Done v1 /\ fits 8 v1 /\ inside x v1) as (v1 & E1 & F1 & I1).
  { destruct (Z.ltb_spec (m_min v) (m_min range)); [rewrite (proj2 (Z.leb_le _ _)) by lia|];
      (eexists; split; [done|]); unfold fits, inside; cbn; lia. }
  cbn [mbind outcome_bind] in E1 |- *. rewrite E1. cbn [mbind outcome_bind].
  destruct (nonempty_bounds 8 v1 F1) as [-> ->]. cbn [mbind outcome_bind]. unfold inside in I1. destruct F1 as [F11 F12].
  assert (exists v2, (if m_max range <? m_max v1 then Assert m_min v1 <=? m_max range ;; Done (MkRange (m_min v1) (m_max range))
    else Done v1) = Done v2 /\ fits 8 v2 /\ inside x v2) as (v2 & E2 & F2 & I2).
  { destruct (Z.ltb_spec (m_max range) (m_max v1)); [rewrite (proj2 (Z.leb_le _ _)) by lia|];
      (eexists; split; [done|]); unfold fits, inside; cbn; destruct Fr; lia. }
  cbn [mbind outcome_bind] in E2 |- *. rewrite E2. cbn [mbind outcome_bind].
  unfold with_object, setExactValues. rewrite Hd. cbn [deref mbind outcome_bind]. rewrite vector_set_ok by (destruct Hex; lia).
  eexists. split; [done|]. split.
  - intros r' d' [[<- <-]|[Hne Hl]]%lookup_insert_Some; [|by eapply Ho]. split; [done|by apply contents_insert].
  - intros r' d' j y [[<- <-]|[Hne Hl]]%lookup_insert_Some Hj Hs; [|by eapply Hρ]. cbn in Hj.
    apply list_lookup_insert_Some in Hj as [(<- & <- & _)|[_ Hj]]; [by rewrite Z2Nat.id by done|by eapply (Hρ r d)].
Qed.

Definition exact_value_ok (e : Expr) : Prop := forall range o, wf e -> certain e = true -> fits 64 range ->
  inside (eval ρ e) range -> cex_ok o -> exact_ok ρ o -> still (propagateExactValues e range o).

Definition exact_updates_ok (u : UpdateNode) : Prop := forall r ri index range o d,
  wf_array (array_at r) -> wf_updates r u -> certain_updates u = true -> fits (arr_domain (array_at r)) index ->
  inside (eval ρ ri) index -> (ValueRange_isFixed index = true -> m_min index < arr_size (array_at r)) ->
  fits 64 range -> inside (eval_read ρ r u (eval ρ ri)) range ->
  cex_ok o -> exact_ok ρ o -> o !! r = Some d -> still (exact_updates r u ri index range o).

Lemma exact_updates_node r n i v ri index range o : exact_updates r (UNode n i v) ri index range o =
  (ui ← evalRangeForExpr i;
   if negb (ValueRange_mayEqual ui index) then exact_updates r n ri index range o
   else if ValueRange_mustEqual ui index || expr_eqb ri i then propagateExactValues v range o
   else Done o).
Proof. done. Qed.

(** A value that is right is propagated without a failed assertion, and what is
    known stays right. *)
Lemma exact_mut : (forall e, exact_value_ok e) /\ (forall u, exact_updates_ok u).
Proof.
  apply Expr_UpdateNode_ind; try (intros; intros range o We Hc Fr Hin Ho Hρ; by apply still_Done).
  - intros r u IHu i IHi range o (Ha & Wu & Wi & Ew) Hc Fr Hin Ho Hρ. cbn [certain] in Hc.
    rewrite !andb_true_iff, Z.eqb_eq in Hc. destruct Hc as [[H8 Hloc] Hcu]. unfold located in Hloc.
    rewrite !andb_true_iff in Hloc. destruct Hloc as [[Ri Pi] Hloc].
    destruct (evalRange_ok i Wi Ri) as (a & Ea & Fa & Ia). rewrite Ea in Hloc. cbn [propagateExactValues]. rewrite Ea.
    cbn [mbind outcome_bind]. destruct (getObjectData_ok r o Ha H8 Ho) as [[Ko Kρ] [d Hd]]. rewrite Ew in Fa.
    eapply IHu; try done; [by apply Ia| |by apply Kρ].
    intros HF. rewrite HF in Hloc. by apply Z.ltb_lt in Hloc.
  - intros x IH range o We Hc Fr Hin Ho Hρ. cbn [certain propagateExactValues] in *.
    destruct (Z.eqb_spec (getWidth x) Bool) as [Hw|]; [|by apply still_Done].
    destruct (ValueRange_isFixed range) eqn:HF; [|by apply still_Done].
    rewrite (proj1 (nonempty_bounds 64 range Fr)). cbn [andb mbind outcome_bind].
    pose proof (fixed_min range _ HF Hin) as Em. cbn [eval] in Em. pose proof (eval_range x ρ We) as Hx. rewrite Hw in *.
    change (2 ^ Bool) with 2 in *.
    assert (not_value (m_min range) = eval ρ x) as ->.
    { rewrite Em. unfold not_value. assert (eval ρ x = 0 \/ eval ρ x = 1) as [-> | ->] by lia; reflexivity. }
    destruct (fits_fixed 64 (eval ρ x)) as [F I]; [lia|]. by apply IH.
  - intros k l IHl r IHr range o (Wl & Wr & Ew) Hc Fr Hin Ho Hρ.
    destruct k; try (by apply still_Done); try discriminate Hc. cbn [certain propagateExactValues] in *.
    destruct (ValueRange_isFixed range) eqn:HF; [|by apply still_Done].
    destruct l as [CE| | | | | | | |]; try (by apply still_Done).
    destruct (Z.leb_spec (getBitWidth CE) 64) as [H64|]; [|by apply still_Done]. cbn [negb orb] in Hc.
    cbn in Wl, Ew. destruct Wl as [Wc Vc]. pose proof (pow2_mono (getBitWidth CE) 64 ltac:(lia)) as Hp.
    unfold ConstantExpr_getZExtValue. rewrite (proj2 (Z.leb_le _ _)) by done. rewrite ap_getZExtValue_spec by lia.
    cbn [mbind outcome_bind]. rewrite (proj1 (nonempty_bounds 64 range Fr)). cbn [mbind outcome_bind].
    pose proof (fixed_min range _ HF Hin) as Em. cbn [eval eval_binary] in Em. rewrite Em.
    pose proof (eval_range r ρ Wr) as Hr. rewrite <- Ew in Hr.
    assert (forall y, y = eval ρ r -> still (propagateExactValues r (ValueRange_fixed y) o)) as Hgo.
    { intros y ->. destruct (fits_fixed 64 (eval ρ r)) as [F I]; [lia|]. by apply IHr. }
    destruct (Z.eqb_spec (uval CE) (eval ρ r)) as [He|Hne]; cbn [Z.b2z Z.eqb negb]; [by apply Hgo|].
    destruct (Z.eqb_spec (getWidth r) Bool) as [Hw|]; [|by apply still_Done]. apply Hgo. rewrite <- Ew in Hw.
    rewrite Hw in Hr, Vc. change (2 ^ Bool) with 2 in *. unfold not_value. destruct (Z.eqb_spec (uval CE) 0); cbn; lia.
  - intros r ri index range o d Ha _ _ [Fi _] Hin Hsz Fr Hr Ho Hρ Hd. cbn [exact_updates].
    eapply exact_initial_still; try done; [lia|]. intros HF. cbn [eval_read] in Hr. by rewrite (fixed_min index _ HF Hin).
  - intros n IHn i IHi v IHv r ri index range o d Ha (Wn & Wi & Wv & Ei & Ev) Hc Fi Hin Hsz Fr Hr Ho Hρ Hd.
    cbn [certain_updates] in Hc. rewrite !andb_true_iff in Hc. destruct Hc as [[[Cn Ri] Pi] Cv].
    destruct (evalRange_ok i Wi Ri) as (a & Ea & Fa & Ia). specialize (Ia Pi ρ). rewrite exact_updates_node, Ea.
    cbn [mbind outcome_bind]. cbn [eval_read] in Hr. destruct (ValueRange_mayEqual a index) eqn:Hmay; cbn [negb].
    + destruct (ValueRange_mustEqual a index || expr_eqb ri i) eqn:Hsame; [|by apply still_Done].
      assert (eval ρ i = eval ρ ri) as E.
      { apply orb_true_iff in Hsame as [Hs|Hs]; [by eapply mustEqual_inside|]. by apply expr_eqb_eq in Hs as ->. }
      rewrite E, Z.eqb_refl in Hr. by apply IHv.
    + rewrite (proj2 (Z.eqb_neq _ _) (mayEqual_inside a index _ _ Hmay Ia Hin)) in Hr. by eapply IHn.
Qed.

Lemma propagateExactValues_ok e : exact_value_ok e.
Proof. apply exact_mut. Qed.

End Exact.

(** ** What is propagated stays well formed *)

Section Shape.
Context {AP : APIntOps} {APL : APIntLaws} {AH : ArrayHeap}.

Definition keeps_shape (e : Expr) : Prop := forall range o o', wf e -> certain e = true -> cex_ok o ->
  propagateExactValues e range o = Done o' -> cex_ok o'.

Definition keeps_shape_updates (u : UpdateNode) : Prop := forall r ri index range o o', wf_array (array_at r) ->
  wf_updates r u -> certain_updates u = true -> cex_ok o ->
  exact_updates r u ri index range o = Done o' -> cex_ok o'.

Lemma min_Done v x : ValueRange_min v = Done x -> x = m_min v /\ m_min v <= m_max v.
Proof. unfold ValueRange_min, ValueRange_isEmpty. destruct (Z.ltb_spec (m_max v) (m_min v)); [done|]. by intros [= <-]. Qed.

Lemma max_Done v x : ValueRange_max v = Done x -> x = m_max v /\ m_min v <= m_max v.
Proof. unfold ValueRange_max, ValueRange_isEmpty. destruct (Z.ltb_spec (m_max v) (m_min v)); [done|]. by intros [= <-]. Qed.

Lemma exact_initial_shape r index range o o' : cex_ok o -> exact_initial r index range o = Done o' -> cex_ok o'.
Proof.
  intros Ho H. unfold exact_initial in H. destruct (ValueRange_isFixed index); [|by simplify_eq].
  apply bind_Done in H as (i & _ & H). destruct (isConstantArray _); [apply bind_Done in H as (c & _ & H); by simplify_eq|].
  apply bind_Done in H as (d & Hd & H). apply bind_Done in H as (v & Hv & H).
  apply bind_Done in H as (rmin & [-> Hr]%min_Done & H). apply bind_Done in H as (cmin & [-> _]%min_Done & H).
  destruct (o !! r) as [d'|] eqn:Ed; [|done]. injection Hd as ->. destruct (Ho r d Ed) as [Hp Hex].
  unfold getExactValues in Hv. destruct (exactContents d !! Z.to_nat i) as [v'|] eqn:Ev; [|done]. injection Hv as ->.
  assert (fits 8 v) as [Fv1 Fv2] by (destruct Hex as [_ Hf]; rewrite Forall_lookup in Hf; by eapply Hf).
  apply bind_Done in H as (v1 & H1 & H). assert (fits 8 v1) as [F11 F12].
  { destruct (Z.ltb_spec (m_min v) (m_min range)); [|by injection H1 as <-].
    apply bind_Done in H1 as (cmax & [-> _]%max_Done & H1). destruct (Z.leb_spec (m_min range) (m_max v)); [|done].
    injection H1 as <-. unfold fits. cbn. lia. }
  apply bind_Done in H as (rmax & [-> _]%max_Done & H). apply bind_Done in H as (cmax & [-> _]%max_Done & H).
  apply bind_Done in H as (v2 & H2 & H). assert (fits 8 v2) as F2.
  { destruct (Z.ltb_spec (m_max range) (m_max v1)); [|by injection H2 as <-].
    apply bind_Done in H2 as (c & [-> _]%min_Done & H2). destruct (Z.leb_spec (m_min v1) (m_max range)); [|done].
    injection H2 as <-. unfold fits. cbn. lia. }
  unfold with_object, setExactValues in H. rewrite Ed in H. cbn [deref mbind outcome_bind] in H.
  assert (0 <= 0) as _ by done. unfold vector_set in H. destruct (_ <? _)%nat; [|done]. injection H as <-.
  intros r' d2 [[<- <-]|[Hne Hl]]%lookup_insert_Some; [|by eapply Ho]. split; [done|by apply contents_insert].
Qed.

Lemma shape_mut : (forall e, keeps_shape e) /\ (forall u, keeps_shape_updates u).
Proof.
  apply Expr_UpdateNode_ind; try (intros; intros range o o' We Hc Ho Hrun; cbn in Hrun; by injection Hrun as <-).
  - intros r u IHu i IHi range o o' (Ha & Wu & Wi & Ew) Hc Ho H. cbn [certain] in Hc.
    rewrite !andb_true_iff, Z.eqb_eq in Hc. destruct Hc as [[H8 _] Hcu]. cbn [propagateExactValues] in H.
    apply bind_Done in H as (a & _ & H). destruct (getObjectData_ok r o Ha H8 Ho) as [[Ko _] _]. by eapply IHu.
  - intros x IH range o o' We Hc Ho H. cbn [certain propagateExactValues] in *.
    destruct (getWidth x =? Bool); [|by injection H as <-]. destruct (ValueRange_isFixed range); [|by injection H as <-].
    apply bind_Done in H as (m & _ & H). by eapply IH.
  - intros k l IHl r IHr range o o' (Wl & Wr & Ew) Hc Ho H.
    destruct k; try (cbn in H; by injection H as <-); try discriminate Hc. cbn [certain propagateExactValues] in *.
    destruct (ValueRange_isFixed range); [|by injection H as <-].
    destruct l as [CE| | | | | | | |]; try (by injection H as <-).
    destruct (getBitWidth CE <=? 64); [|by injection H as <-]. cbn [negb orb] in Hc.
    apply bind_Done in H as (value & _ & H). apply bind_Done in H as (m & _ & H).
    destruct (negb (m =? 0)); [by eapply IHr|]. destruct (getWidth r =? Bool); [by eapply IHr|by injection H as <-].
  - intros r ri index range o o' _ _ _ Ho H. by eapply exact_initial_shape.
  - intros n IHn i IHi v IHv r ri index range o o' Ha (Wn & Wi & Wv & Ei & Ev) Hc Ho H.
    cbn [certain_updates] in Hc. rewrite !andb_true_iff in Hc. destruct Hc as [[[Cn Ri] Pi] Cv].
    rewrite exact_updates_node in H. apply bind_Done in H as (ui & _ & H).
    destruct (negb _); [by eapply IHn|]. destruct (_ || _); [by eapply IHv|by injection H as <-].
Qed.

End Shape.

(** ** The solver *)

Section Solver.
Context {AP : APIntOps} {APL : APIntLaws} {AH : ArrayHeap} {OP : ExprOptions} {VO : VisitorOptions}.
Context (default_opt : ConstArrayOpt = false) (domain32 : forall r, arr_domain (array_at r) <= 32).

(** What the solver can be asked about: no propagation of its truth fails an
    assertion that depends only on its form. *)
Definition propagable (e : Expr) : Prop := literal_bool e /\ pushes false e = true /\ certain e = true.

Lemma propagate_value_ok ρ e x o : propagable e -> 0 <= x < 2 ^ 64 -> eval ρ e = x -> cex_ok o -> exact_ok ρ o ->
  still ρ (propagate_value e x o).
Proof.
  intros (((We & _) & _) & Hp & Hc) Hx He Ho Hρ. unfold propagate_value, propagatePossibleValue, propagateExactValue.
  destruct (pushed_value e x o (propagatePossibleValues_ok domain32 e) We Hp Hx Ho) as (o1 & E1 & [K1 K2]).
  unfold ValueRange_fixed in E1. rewrite E1. cbn [mbind outcome_bind]. destruct (fits_fixed 64 x Hx) as [F I].
  apply (propagateExactValues_ok ρ e); try done; [by rewrite He|by apply K2].
Qed.

Lemma propagate_value_shape e x o o' : propagable e -> 0 <= x < 2 ^ 64 -> cex_ok o -> propagate_value e x o = Done o' -> cex_ok o'.
Proof.
  intros (((We & _) & _) & Hp & Hc) Hx Ho. unfold propagate_value, propagatePossibleValue, propagateExactValue.
  destruct (pushed_value e x o (propagatePossibleValues_ok domain32 e) We Hp Hx Ho) as (o1 & E1 & [K1 K2]).
  unfold ValueRange_fixed in E1. rewrite E1. cbn [mbind outcome_bind]. intros H. eapply (proj1 shape_mut e); try done.
Qed.

Lemma boolean_one ρ c : boolean c -> eval ρ c <> 0 -> eval ρ c = 1.
Proof. intros [Wc Hb] H. pose proof (eval_range c ρ Wc) as Hr. rewrite Hb in Hr. change (2 ^ Bool) with 2 in Hr. lia. Qed.

Lemma propagate_constraints_ok ρ cs o : Forall propagable cs -> sat ρ cs -> cex_ok o -> exact_ok ρ o ->
  still ρ (propagate_constraints cs o).
Proof.
  revert o. induction cs as [|c cs IH]; intros o Hcs Hsat Ho Hρ; [by apply still_Done|].
  apply Forall_cons in Hcs as [Hc Hcs]. cbn [propagate_constraints].
  destruct (propagate_value_ok ρ c 1 o) as (o1 & -> & Ho1 & Hρ1); try done.
  { apply boolean_one; [apply Hc|]. apply Hsat. by left. }
  apply IH; try done. intros c' Hc'. apply Hsat. by right.
Qed.

Lemma propagate_constraints_shape cs o o' : Forall propagable cs -> cex_ok o -> propagate_constraints cs o = Done o' -> cex_ok o'.
Proof.
  revert o. induction cs as [|c cs IH]; intros o Hcs Ho H; [by injection H as <-|].
  apply Forall_cons in Hcs as [Hc Hcs]. cbn [propagate_constraints] in H. apply bind_Done in H as (o1 & H1 & H).
  apply (IH o1); [done| |done]. by apply (propagate_value_shape c 1 o).
Qed.

(** The tests of a boolean that has been evaluated. *)
Lemma verdicts x : wf x -> getWidth x = Bool -> exists t f, Expr_isTrue x = Done t /\ Expr_isFalse x = Done f /\
  (t = true -> forall ρ, eval ρ x <> 0) /\ (f = true -> forall ρ, eval ρ x = 0).
Proof.
  intros Wx Hb. unfold Expr_isTrue, Expr_isFalse. rewrite Hb. eexists _, _. split; [done|]. split; [done|].
  destruct x as [v| | | | | | | |]; try done. cbn in Hb. rewrite isTrue_spec, isFalse_spec by done.
  split; [intros H%negb_true_iff%Z.eqb_neq|intros H%Z.eqb_eq]; by intros ρ.
Qed.

Lemma evaluable_literal e : propagable e -> evaluable e /\ getWidth e = Bool.
Proof. by intros [[[We Hb] Hl] _]. Qed.

(** Both evaluations of a boolean and what they tell. *)
Lemma possible_verdicts o e : cex_ok o -> propagable e -> exists x t f, evaluatePossible e o = Done x /\
  Expr_isTrue x = Done t /\ Expr_isFalse x = Done f /\
  (t = true -> eval (possible_byte o) e <> 0) /\ (f = true -> eval (possible_byte o) e = 0).
Proof.
  intros Ho [He Hb]%evaluable_literal. destruct (evaluatePossible_ok default_opt domain32 o e Ho He) as (x & Ex & Wx & Wd & Ev & _).
  destruct (verdicts x Wx ltac:(by rewrite Wd)) as (t & f & Et & Ef & Ht & Hf). exists x, t, f. rewrite <- Ev. split_and!; auto.
Qed.

Lemma exact_verdicts ρ o e : cex_ok o -> exact_ok ρ o -> propagable e -> exists x t f, evaluateExact e o = Done x /\
  Expr_isTrue x = Done t /\ Expr_isFalse x = Done f /\ (t = true -> eval ρ e <> 0) /\ (f = true -> eval ρ e = 0).
Proof.
  intros Ho Hρ [He Hb]%evaluable_literal. destruct (evaluateExact_ok default_opt domain32 ρ o e Ho Hρ He) as (x & Ex & Wx & Wd & Ev).
  destruct (verdicts x Wx ltac:(by rewrite Wd)) as (t & f & Et & Ef & Ht & Hf). exists x, t, f. rewrite <- Ev. split_and!; auto.
Qed.

(** The check of the constraints: true is said only of what no environment among
    the exact values satisfies, false only of what the possible one does. *)
Lemma check_assignment_ok ρ cs o has : Forall propagable cs -> sat ρ cs -> cex_ok o -> exact_ok ρ o ->
  exists res, check_assignment cs o has = Done res /\ res <> Some true.
Proof.
  intros Hcs Hsat Ho Hρ. revert has Hcs Hsat. induction cs as [|c cs IH]; intros has Hcs Hsat.
  { eexists. split; [done|]. by destruct has. }
  apply Forall_cons in Hcs as [Hc Hcs]. cbn [check_assignment].
  destruct (possible_verdicts o c Ho Hc) as (x & t & f & Ex & Et & _). destruct (exact_verdicts ρ o c Ho Hρ Hc) as (y & t' & f' & Ey & _ & Ef' & _ & Hf').
  rewrite Ex, Ey. cbn [mbind outcome_bind]. rewrite Et, Ef'.
  destruct f'; [exfalso; apply (Hsat c ltac:(by left)); by apply Hf'|].
  assert (sat ρ cs) as Hsat' by (intros c' Hc'; apply Hsat; by right).
  destruct has; cbn [mbind outcome_bind]; by apply IH.
Qed.

Lemma check_assignment_false cs o has : Forall propagable cs -> cex_ok o ->
  check_assignment cs o has = Done (Some false) -> has = true /\ sat (possible_byte o) cs.
Proof.
  intros Hcs Ho. revert has Hcs. induction cs as [|c cs IH]; intros has Hcs H.
  { destruct has; [|done]. split; [done|]. intros c Hc. by apply elem_of_nil in Hc. }
  apply Forall_cons in Hcs as [Hc Hcs]. cbn [check_assignment] in H.
  destruct (possible_verdicts o c Ho Hc) as (x & t & f & Ex & Et & _ & Ht & _). rewrite Ex in H. cbn [mbind outcome_bind] in H.
  rewrite Et in H. apply bind_Done in H as (has' & Hh & H). apply bind_Done in H as (y & _ & H). apply bind_Done in H as (b & _ & H).
  destruct b; [done|]. destruct (IH has' Hcs H) as [-> Hsat]. destruct has; [|done]. injection Hh as ->. split; [done|].
  intros c' [-> |Hin]%elem_of_cons; auto.
Qed.

Lemma no_objects_ok : cex_ok ∅ /\ forall ρ, exact_ok ρ ∅.
Proof. split; [by intros r d Hl%lookup_empty_Some|by intros ρ r d i v Hl%lookup_empty_Some]. Qed.

(** [propagateValues] on a query with a counterexample. *)
Lemma propagateValues_ok ρ q b : Forall propagable (constraints q) -> (b = true -> propagable (q_expr q)) ->
  sat ρ (constraints q) -> (b = true -> eval ρ (q_expr q) = 0) ->
  exists res cd, propagateValues q b = Done (res, cd) /\ res <> Some true.
Proof.
  intros Hcs He Hsat Hz. unfold propagateValues. destruct no_objects_ok as [E0 Eρ].
  destruct (propagate_constraints_ok ρ (constraints q) ∅ Hcs Hsat E0 (Eρ ρ)) as (o1 & -> & Ho1 & Hρ1). cbn [mbind outcome_bind].
  destruct b; cbn [mbind outcome_bind].
  - destruct (propagate_value_ok ρ (q_expr q) 0 o1) as (o2 & -> & Ho2 & Hρ2); auto; [done|]. cbn [mbind outcome_bind].
    destruct (possible_verdicts o2 _ Ho2 (He eq_refl)) as (x & t & f & -> & _ & Ef & _). cbn [mbind outcome_bind]. rewrite Ef.
    destruct (exact_verdicts ρ o2 _ Ho2 Hρ2 (He eq_refl)) as (y & t' & f' & -> & Et' & _ & Ht' & _). cbn [mbind outcome_bind].
    rewrite Et'. cbn [mbind outcome_bind]. destruct t'; [exfalso; by apply (Ht' eq_refl), Hz|].
    destruct (check_assignment_ok ρ (constraints q) o2 f) as (res & -> & Hres); try done. by eexists _, _.
  - destruct (check_assignment_ok ρ (constraints q) o1 true) as (res & -> & Hres); try done. by eexists _, _.
Qed.

(** When it says that the query is not valid, the possible values are a
    counterexample. *)
Lemma propagateValues_false q b cd : Forall propagable (constraints q) -> (b = true -> propagable (q_expr q)) ->
  propagateValues q b = Done (Some false, cd) ->
  cex_ok cd /\ sat (possible_byte cd) (constraints q) /\ (b = true -> eval (possible_byte cd) (q_expr q) = 0).
Proof.
  intros Hcs He H. unfold propagateValues in H. apply bind_Done in H as (o1 & H1 & H).
  pose proof (propagate_constraints_shape _ _ _ Hcs (proj1 no_objects_ok) H1) as Ho1. apply bind_Done in H as (o2 & H2 & H).
  apply bind_Done in H as (res & Hr & H). injection H as -> ->. destruct b.
  - assert (cex_ok cd) as Ho2 by (eapply (propagate_value_shape (q_expr q) 0); eauto; lia). split; [done|].
    destruct (possible_verdicts cd _ Ho2 (He eq_refl)) as (x & t & f & Ex & _ & Ef & _ & Hf). rewrite Ex in Hr.
    cbn [mbind outcome_bind] in Hr. rewrite Ef in Hr. cbn [mbind outcome_bind] in Hr.
    apply bind_Done in Hr as (y & _ & Hr). apply bind_Done in Hr as (t' & _ & Hr). destruct t'; [done|].
    apply check_assignment_false in Hr as [-> Hsat]; auto.
  - injection H2 as ->. split; [done|]. apply check_assignment_false in Hr as [_ Hsat]; auto. by split.
Qed.

(** *** The answers *)

(** A query whose constraints, and expression if it is propagated, the solver
    can be asked about. *)
Definition propagable_query (q : Query) : Prop := Forall propagable (constraints q) /\ propagable (q_expr q).

Lemma fast_computeTruth_ok q : propagable_query q ->
  (forall pv, fast_computeTruth q = Done pv -> pv <> PNone -> pv_is pv q) /\
  (forall ρ, counterexample q ρ -> exists pv, fast_computeTruth q = Done pv /\ pv <> MustBeTrue).
Proof.
  intros [Hcs He]. unfold fast_computeTruth. split.
  - intros pv H Hn. apply bind_Done in H as ([res cd] & Hp & H). injection H as <-. destruct res as [[]|]; [| |done].
    + intros ρ Hsat Hz. destruct (propagateValues_ok ρ q true Hcs (fun _ => He) Hsat (fun _ => Hz)) as (res & cd' & E & Hne).
      congruence.
    + destruct (propagateValues_false q true cd Hcs (fun _ => He) Hp) as (_ & Hsat & Hz). intros Hv.
      by apply (Hv (possible_byte cd) Hsat), Hz.
  - intros ρ [Hsat Hz]. destruct (propagateValues_ok ρ q true Hcs (fun _ => He) Hsat (fun _ => Hz)) as (res & cd & -> & Hne).
    eexists. split; [done|]. by destruct res as [[]|].
Qed.

Lemma fast_computeValue_ok q : Forall propagable (constraints q) -> evaluable (q_expr q) ->
  (forall a, fast_computeValue q = Done (Some a) -> wf_apint a /\ getBitWidth a = getWidth (q_expr q) /\
     exists ρ, sat ρ (constraints q) /\ eval ρ (q_expr q) = uval a) /\
  (forall ρ, sat ρ (constraints q) -> exists r, fast_computeValue q = Done r).
Proof.
  intros Hcs He. assert (false = true -> propagable (q_expr q)) as Hno by done. unfold fast_computeValue. split.
  - intros a H. apply bind_Done in H as ([res cd] & Hp & H). destruct res as [[]|]; try done.
    destruct (propagateValues_false q false cd Hcs Hno Hp) as (Ho & Hsat & _).
    destruct (evaluatePossible_ok default_opt domain32 cd _ Ho He) as (x & Ex & Wx & Wd & Ev & _). rewrite Ex in H.
    destruct x as [v| | | | | | | |]; try done. injection H as ->. split_and!; [done..|]. by exists (possible_byte cd).
  - intros ρ Hsat. destruct (propagateValues_ok ρ q false Hcs Hno Hsat) as (res & cd & E & Hne); [done|]. rewrite E.
    cbn [mbind outcome_bind]. destruct res as [[]|]; [done| |by eexists].
    destruct (propagateValues_false q false cd Hcs Hno E) as (Ho & _).
    destruct (evaluatePossible_ok default_opt domain32 cd _ Ho He) as (x & -> & _). by eexists.
Qed.

(** The objects whose bytes are asked for. *)
Definition byte_array (r : positive) : Prop := isSymbolicArray (array_at r) = true /\ wf_array (array_at r) /\
  arr_range (array_at r) = 8 /\ arr_size (array_at r) <= 2 ^ arr_domain (array_at r).

Lemma possible_byte_range o r i : cex_ok o -> 0 <= possible_byte o r i < 2 ^ 8.
Proof.
  intros Ho. unfold possible_byte. destruct (o !! r) as [d|] eqn:Hd; [|lia]. destruct (Ho r d Hd) as [[_ Hf] _].
  destruct (possibleContents d !! Z.to_nat i) as [v|] eqn:Hv; cbn; [|lia]. rewrite Forall_lookup in Hf.
  by apply middle_inside, (Hf _ _ Hv).
Qed.

(** An element that is inside its array evaluates to a constant. *)
Lemma evaluatePossible_element o r i : cex_ok o -> byte_array r -> 0 <= i < arr_size (array_at r) ->
  exists c, evaluatePossible (ReadExpr r UNull (ConstantExpr (MkAPInt (arr_domain (array_at r)) i))) o = Done (ConstantExpr c) /\
    wf_apint c /\ getBitWidth c = 8 /\ uval c = possible_byte o r i.
Proof.
  intros Ho (Hs & Ha & H8 & Hd) Hi. pose proof Ha as (Hdom & _). set (e := ReadExpr _ _ _).
  assert (evaluable e) as He by (split; [|done]; cbn; unfold wf_apint; cbn; split_and!; try done; lia).
  destruct (evaluatePossible_ok default_opt domain32 o e Ho He) as (x & Ex & Wx & Wd & Ev & Hc).
  assert (isConst x = true) as Hcx.
  { apply Hc. split_and!; [done|unfold div_safe; cbn; done|].
    intros r' u i' [[= -> -> ->]|Hin]%elem_of_cons; [cbn; lia|]. cbn in Hin. by apply list_elem_of_singleton in Hin. }
  destruct x as [c| | | | | | | |]; try done. exists c. cbn in Wd, Ev. split_and!; [done..|congruence|].
  rewrite Ev. unfold initial_value, isConstantArray. rewrite Hs. cbn [negb]. rewrite H8.
  apply Z.mod_small, (possible_byte_range o r i Ho).
Qed.

Lemma fast_bytes_ok o r l : cex_ok o -> byte_array r -> Forall (fun i => Z.of_nat i < arr_size (array_at r)) l ->
  fast_bytes r l o = Done (Some ((fun i => possible_byte o r (Z.of_nat i)) <$> l)).
Proof.
  intros Ho Hr Hl. induction Hl as [|i l Hi Hl IH]; [done|]. cbn [fast_bytes]. pose proof Hr as (Hs & Ha & H8 & Hd).
  pose proof Ha as (Hdom & _ & Hsz & _). pose proof (domain32 r).
  assert (2 ^ arr_domain (array_at r) <= 2 ^ 32) by (apply pow2_mono; lia).
  rewrite ConstantExpr_create_spec by lia. cbn [mbind outcome_bind].
  assert (forall c, getBitWidth c = arr_domain (array_at r) -> ReadExpr_create (MkUpdateList r UNull) (ConstantExpr c) =
    Done (ReadExpr r UNull (ConstantExpr c))) as Hrd.
  { intros c Hc. unfold ReadExpr_create. cbn. unfold ConstantExpr_getZExtValue. rewrite Hc, (proj2 (Z.leb_le _ _)) by lia.
    cbn. unfold isConstantArray. rewrite Hs. cbn. by case_match. }
  rewrite Hrd by done. cbn [mbind outcome_bind].
  destruct (evaluatePossible_element o r (Z.of_nat i) Ho Hr ltac:(lia)) as (c & -> & Wc & W8 & Ec). cbn [mbind outcome_bind].
  pose proof (possible_byte_range o r (Z.of_nat i) Ho). unfold ConstantExpr_getZExtValue. rewrite W8. cbn [Z.leb].
  rewrite ap_getZExtValue_spec by lia. cbn. rewrite IH. cbn. by rewrite Ec, Z.mod_small by lia.
Qed.

Definition possible_bytes (o : Objects) (r : positive) : list Z :=
  (fun i => possible_byte o r (Z.of_nat i)) <$> seq 0 (Z.to_nat (arr_size (array_at r))).

Lemma fast_values_ok o objects values : cex_ok o -> Forall byte_array objects ->
  fast_values objects o values = Done (true, values ++ (possible_bytes o <$> objects)).
Proof.
  intros Ho Hob. revert values. induction Hob as [|r objects Hr Hob IH]; intros values.
  { cbn. by rewrite app_nil_r. }
  cbn [fast_values]. rewrite (fast_bytes_ok o r _ Ho Hr).
  - cbn [mbind outcome_bind]. rewrite IH. by rewrite <- app_assoc.
  - apply Forall_forall. intros i Hi%elem_of_seq. destruct Hr as (_ & (_ & _ & ? & _) & _). lia.
Qed.

Lemma possible_solution q cd objects : cex_ok cd -> Forall byte_array objects -> counterexample q (possible_byte cd) ->
  solution q objects (possible_bytes cd <$> objects).
Proof.
  intros Ho Hob Hc. split.
  - apply Forall2_fmap_r, Forall_Forall2_diag. eapply Forall_impl; [exact Hob|]. intros r (_ & (_ & _ & ? & _) & _).
    unfold compose, possible_bytes. rewrite length_fmap, length_seq, Z2Nat.id by lia. split; [done|].
    apply Forall_fmap, Forall_forall. intros i _. by apply possible_byte_range.
  - exists (possible_byte cd). split; [done|]. apply Forall2_fmap_r, Forall_Forall2_diag. eapply Forall_impl; [exact Hob|].
    intros r _ Hs k v Hk. unfold possible_bytes in Hk. apply list_lookup_fmap_Some in Hk as (i & -> & Hi).
    apply lookup_seq in Hi as [-> _]. unfold initial_value, isConstantArray. by rewrite Hs.
Qed.

Lemma fast_computeInitialValues_ok q objects : propagable_query q -> Forall byte_array objects ->
  (forall r, fast_computeInitialValues q objects = Done r -> initial_result_ok q objects r) /\
  (forall ρ, counterexample q ρ -> exists r, fast_computeInitialValues q objects = Done r /\ iv_hasSolution r <> Some false).
Proof.
  intros [Hcs He] Hob. unfold fast_computeInitialValues. split.
  - intros r H. apply bind_Done in H as ([res cd] & Hp & H). destruct res as [[]|]; [| |by injection H as <-].
    + injection H as <-. intros _. left. split; [done|]. intros ρ Hsat Hz.
      destruct (propagateValues_ok ρ q true Hcs (fun _ => He) Hsat (fun _ => Hz)) as (res & cd' & E & Hne). congruence.
    + destruct (propagateValues_false q true cd Hcs (fun _ => He) Hp) as (Ho & Hsat & Hz).
      rewrite fast_values_ok in H by done. injection H as <-. intros _. right. split; [done|].
      apply possible_solution; try done. split; auto.
  - intros ρ [Hsat Hz]. destruct (propagateValues_ok ρ q true Hcs (fun _ => He) Hsat (fun _ => Hz)) as (res & cd & E & Hne).
    rewrite E. cbn [mbind outcome_bind]. destruct res as [[]|]; [done| |by eexists].
    destruct (propagateValues_false q true cd Hcs (fun _ => He) E) as (Ho & _). rewrite fast_values_ok by done. by eexists.
Qed.

End Solver.
