(* ===== verification/TimingSolver.v ===== *)
(** The solver as the executor calls it (lib/Core/TimingSolver.h, .cpp):
    constants are answered at once, and queries are simplified under the path
    constraints before they are asked.

    The time that queries take is added to [metaData.queryCost], which nothing
    modelled here reads. *)
From stdpp Require Import base list numbers.
From Stdlib Require Import ZArith Lia.
From S2P Require Import Prelude APInt Bits Expr Semantics ConstantOps ExprCreate CreateSound OpsSound ReadSound SliceSound ExprWeight Visitor FindReads Solver Constraints Evaluator SolverRange IncompleteSolver CachingSolver MapOfSets SymbolicObjects InitialValues.
Local Open Scope Z_scope.

(** The second argument of the constructor. *)
Class TimingOptions : Type := { simplifyExprs : bool }.

Module TimingSolver.
Section Operations.
Context {AP : APIntOps} {AH : ArrayHeap} {OP : ExprOptions} {VO : VisitorOptions} {TO : TimingOptions}.
Context {S : Type} {ops : SolverImpl S} {iops : InitialSolver S}.

Definition simplify (fuel : nat) (cs : ConstraintSet) (e : Expr) : outcome Expr :=
  if simplifyExprs then simplifyExpr fuel cs e else Done e.

Definition evaluate (fuel : nat) (cs : ConstraintSet) (expr : Expr) (s : S) : outcome (option Validity * S) :=
  match expr with
  | ConstantExpr CE => Done (Some (if ConstantExpr_isTrue CE then VTrue else VFalse), s)
  | _ => expr ← simplify fuel cs expr; Solver.evaluate (MkQuery cs expr) s
  end.

Definition mustBeTrue (fuel : nat) (cs : ConstraintSet) (expr : Expr) (s : S) : outcome (option bool * S) :=
  match expr with
  | ConstantExpr CE => Done (Some (ConstantExpr_isTrue CE), s)
  | _ => expr ← simplify fuel cs expr; Solver.mustBeTrue (MkQuery cs expr) s
  end.

Definition mustBeFalse (fuel : nat) (cs : ConstraintSet) (expr : Expr) (s : S) : outcome (option bool * S) :=
  z ← createIsZero expr; mustBeTrue fuel cs z s.

Definition mayBeTrue (fuel : nat) (cs : ConstraintSet) (expr : Expr) (s : S) : outcome (option bool * S) :=
  r ← mustBeFalse fuel cs expr s; Done (negb <$> (r : option bool * S).1, r.2).

Definition mayBeFalse (fuel : nat) (cs : ConstraintSet) (expr : Expr) (s : S) : outcome (option bool * S) :=
  r ← mustBeTrue fuel cs expr s; Done (negb <$> (r : option bool * S).1, r.2).

Definition getValue (fuel : nat) (cs : ConstraintSet) (expr : Expr) (s : S) : outcome (option APInt * S) :=
  match expr with
  | ConstantExpr CE => Done (Some CE, s)
  | _ => expr ← simplify fuel cs expr; Solver.getValue (MkQuery cs expr) s
  end.

(** Without objects the caller's [result] stays what it is. *)
Definition getInitialValues (cs : ConstraintSet) (objects : list positive) (result : list (list Z)) (s : S) :
    outcome (option (list (list Z)) * S) :=
  match objects with
  | [] => Done (Some result, s)
  | _ => InitialValues.getInitialValues (MkQuery cs (ConstantExpr (ConstantExpr_alloc 0 Bool))) objects s
  end.

Definition getRange (cs : ConstraintSet) (expr : Expr) (s : S) : outcome (APInt * APInt * S) :=
  SolverRange.getRange (MkQuery cs expr) s.

End Operations.
End TimingSolver.

(** ** Soundness *)

(** Expressions that are built without a division divide by zero where their
    parts do. *)
Lemma create_div_safe {AP : APIntOps} {APL : APIntLaws} {AH : ArrayHeap} {OP : ExprOptions} (default_opt : ConstArrayOpt = false) ρ k l r e :
  isDivKind k = false -> div_safe ρ l -> div_safe ρ r -> BinaryExpr_create k l r = Done e -> div_safe ρ e.
Proof.
  intros Hk Hl Hr E. pose proof (rebuild_bounded 0 (zero_divisor ρ) (zero_divisor_other ρ) default_opt (BinaryExpr k l r) [l; r]) as B.
  cbn [rebuild] in B. rewrite E in B. unfold div_safe, zero_divisions in *. cbn [bounded with_kids weight] in B.
  rewrite (zero_divisor_other ρ k r Hk) in B. lia.
Qed.

Lemma const_div_safe {AH : ArrayHeap} ρ c : div_safe ρ (ConstantExpr c).
Proof. done. Qed.

Section Sound.
Context {AP : APIntOps} {APL : APIntLaws} {AH : ArrayHeap} {OP : ExprOptions} {VO : VisitorOptions} {TO : TimingOptions}.
Context (default_opt : ConstArrayOpt = false).
Context {S : Type} {ops : SolverImpl S} {sol : SoundSolver S}.

(** A path: its constraints hold in the run [ρ0]. *)
Context (cs : ConstraintSet) (ρ0 : env) (Hcs : Forall boolean cs) (Hρ0 : sat ρ0 cs).

(** What may be asked: in that run nothing is divided by zero. *)
Definition asked (e : Expr) : Prop := wf e /\ div_safe ρ0 e.

Lemma path_query e : wf e -> wf_query (MkQuery cs e).
Proof. intros He. split; [done|done|by exists ρ0]. Qed.

Lemma simplify_ok e : asked e -> exists r, eventually (fun fuel => TimingSolver.simplify fuel cs e) r /\
  wf r /\ getWidth r = getWidth e /\ forall ρ, sat ρ cs -> eval ρ r = eval ρ e.
Proof.
  intros He. unfold TimingSolver.simplify. destruct simplifyExprs.
  - destruct (simplifyExpr_replaces default_opt (fun ρ => sat ρ cs) ρ0 Hρ0 cs e Hcs) as (r & Er & [[[? ?] Ev _] L]); [done..|].
    by exists r.
  - exists e. split_and!; [apply eventually_Done|apply He|done|done].
Qed.

(** The operation answers in every state, truthfully, and always when the solver
    below always answers. *)
Definition truthful {A} (op : S -> outcome (option A * S)) (P : A -> Prop) : Prop :=
  forall s, s_inv s -> exists r s', op s = Done (r, s') /\ s_inv s' /\ (TotalSolver S -> r <> None) /\ forall a, r = Some a -> P a.

(** From some fuel on. *)
Definition answers {A} (op : nat -> S -> outcome (option A * S)) (P : A -> Prop) : Prop :=
  exists n, forall fuel, (n <= fuel)%nat -> truthful (op fuel) P.

(** One fuel is enough for finitely many questions. *)
Lemma answers_all {A B} (op : B -> nat -> S -> outcome (option A * S)) (P : B -> A -> Prop) (l : list B) :
  (forall x, x ∈ l -> answers (op x) (P x)) -> exists n, forall fuel, (n <= fuel)%nat -> forall x, x ∈ l -> truthful (op x fuel) (P x).
Proof.
  induction l as [|x l IH]; intros H; [exists O; intros fuel _ x Hx; by apply elem_of_nil in Hx|].
  destruct (H x) as [n Hn]; [by left|]. destruct IH as [m Hm]; [intros y Hy; apply H; by right|].
  exists (n `max` m)%nat. intros fuel Hf y [-> |Hy]%elem_of_cons; [apply Hn; lia|by apply Hm; [lia|]].
Qed.

Lemma answers_now {A} (op : nat -> S -> outcome (option A * S)) P :
  (forall fuel s, s_inv s -> exists r s', op fuel s = Done (r, s') /\ s_inv s' /\ (TotalSolver S -> r <> None) /\ forall a, r = Some a -> P a) -> answers op P.
Proof. intros H. exists O. intros fuel _. exact (H fuel). Qed.

Lemma answers_impl {A} (op : nat -> S -> outcome (option A * S)) (P Q : A -> Prop) : answers op P -> (forall a, P a -> Q a) -> answers op Q.
Proof.
  intros [n Hn] HPQ. exists n. intros fuel Hf s Hs. destruct (Hn fuel Hf s Hs) as (r & s' & E & Hs' & Ht & Hr).
  exists r, s'. split_and!; auto.
Qed.

(** A simplified query is answered like the query itself. *)
Lemma answers_simplified {A} (op : Expr -> S -> outcome (option A * S)) (P : A -> Prop) e : asked e ->
  (forall r, wf r -> getWidth r = getWidth e -> (forall ρ, sat ρ cs -> eval ρ r = eval ρ e) -> forall s, s_inv s ->
     exists a s', op r s = Done (a, s') /\ s_inv s' /\ (TotalSolver S -> a <> None) /\ forall x, a = Some x -> P x) ->
  answers (fun fuel s => x ← TimingSolver.simplify fuel cs e; op x s) P.
Proof.
  intros He Hop. destruct (simplify_ok e He) as (r & (n & Hn) & Hwf & Hw & Hv). exists n. intros fuel Hf s Hs.
  rewrite (Hn fuel Hf). cbn [mbind outcome_bind]. by apply Hop.
Qed.

Lemma same_valid r e : (forall ρ, sat ρ cs -> eval ρ r = eval ρ e) ->
  (valid (MkQuery cs r) <-> valid (MkQuery cs e)) /\ (valid_not (MkQuery cs r) <-> valid_not (MkQuery cs e)).
Proof.
  intros H. unfold valid, valid_not. cbn. split; split; intros G ρ Hρ; specialize (G ρ Hρ); rewrite (H ρ Hρ) in *; done.
Qed.

Lemma not_both e : valid (MkQuery cs e) -> valid_not (MkQuery cs e) -> False.
Proof. intros H1 H2. by apply (H1 ρ0), H2. Qed.

(** A constant is answered without the solver. *)
Lemma const_truth_path c : asked (ConstantExpr c) -> getBitWidth c = Bool -> ConstantExpr_isTrue c = true <-> valid (MkQuery cs (ConstantExpr c)).
Proof.
  intros [He _] Hw. rewrite isTrue_spec by done. rewrite negb_true_iff, Z.eqb_neq. split.
  - intros Hc ρ _. done.
  - intros Hv. by apply (Hv ρ0).
Qed.

Lemma facade_answers q s : TotalSolver S ->
  (forall r s', Solver.mustBeTrue q s = Done (r, s') -> r <> None) /\ (forall r s', Solver.evaluate q s = Done (r, s') -> r <> None) /\
  (forall r s', Solver.getValue q s = Done (r, s') -> r <> None).
Proof.
  intros Ht. destruct (facade_total q s Ht) as (H1 & H2 & _ & _ & _ & H3).
  split_and!; intros r s' E ->; [by apply (H2 s')|by apply (H1 s')|by apply (H3 s')].
Qed.

Lemma mustBeTrue_decides e : asked e -> getWidth e = Bool ->
  answers (fun fuel => TimingSolver.mustBeTrue fuel cs e) (fun b => b = true <-> valid (MkQuery cs e)).
Proof.
  intros He Hw.
  assert (answers (fun fuel s => x ← TimingSolver.simplify fuel cs e; Solver.mustBeTrue (MkQuery cs x) s) (fun b => b = true <-> valid (MkQuery cs e))) as H.
  { apply answers_simplified; [done|]. intros r Hr Hwr Hv s Hs.
    destruct (mustBeTrue_ok (MkQuery cs r) s Hs) as (b & s' & E & Hs' & Hb); [split; [by apply path_query|cbn; congruence]|].
    exists b, s'. split_and!; [done|done|intros Ht; by eapply (facade_answers _ s Ht)|].
    intros a Ha. rewrite (Hb a Ha). by apply same_valid. }
  unfold TimingSolver.mustBeTrue. destruct e; try exact H. apply answers_now. intros fuel s Hs. eexists _, s. split_and!; [done..|].
  intros a [= <-]. by apply const_truth_path.
Qed.

Lemma isZero_asked e : asked e -> getWidth e = Bool -> exists z, createIsZero e = Done z /\ asked z /\ getWidth z = Bool /\
  (valid (MkQuery cs z) <-> valid_not (MkQuery cs e)).
Proof.
  intros [He Hd] Hw. destruct (negateExpr_ok default_opt (MkQuery cs e)) as (nq & E & [[_ Hz _] Hwz] & Ec & Hv & _);
    [split; [by apply path_query|done]|]. unfold negateExpr in E. cbn in E. destruct (createIsZero e) as [z| | |] eqn:Ez; [|done..].
  cbn in E. injection E as <-. exists z. split_and!; [done| |done|done]. split; [done|by apply (createIsZero_div_safe default_opt ρ0 e)].
Qed.

Lemma mustBeFalse_answers e : asked e -> getWidth e = Bool ->
  answers (fun fuel => TimingSolver.mustBeFalse fuel cs e) (fun b => b = true <-> valid_not (MkQuery cs e)).
Proof.
  intros He Hw. destruct (isZero_asked e He Hw) as (z & Ez & Hz & Hwz & Hv).
  unfold TimingSolver.mustBeFalse. rewrite Ez. cbn [mbind outcome_bind]. eapply answers_impl; [by apply mustBeTrue_decides|].
  intros b Hb. cbn beta in Hb. by rewrite Hb, Hv.
Qed.

Lemma answers_negb (op : nat -> S -> outcome (option bool * S)) (P Q : bool -> Prop) : answers op P -> (forall b, P b -> Q (negb b)) ->
  answers (fun fuel s => r ← op fuel s; Done (negb <$> (r : option bool * S).1, r.2)) Q.
Proof.
  intros [n Hn] HPQ. exists n. intros fuel Hf s Hs. destruct (Hn fuel Hf s Hs) as (r & s' & -> & Hs' & Ht & Hr).
  cbn [mbind outcome_bind]. exists (negb <$> r), s'. split_and!; [done|done|intros T; specialize (Ht T); by destruct r|].
  destruct r as [b|]; cbn; [|done]. intros a [= <-]. auto.
Qed.

Lemma mayBeTrue_answers e : asked e -> getWidth e = Bool ->
  answers (fun fuel => TimingSolver.mayBeTrue fuel cs e) (fun b => b = false <-> valid_not (MkQuery cs e)).
Proof.
  intros He Hw. eapply answers_negb; [by apply mustBeFalse_answers|]. intros b Hb. rewrite negb_false_iff. done.
Qed.

Lemma mayBeFalse_answers e : asked e -> getWidth e = Bool ->
  answers (fun fuel => TimingSolver.mayBeFalse fuel cs e) (fun b => b = false <-> valid (MkQuery cs e)).
Proof.
  intros He Hw. eapply answers_negb; [by apply mustBeTrue_decides|]. intros b Hb. rewrite negb_false_iff. done.
Qed.

Lemma evaluate_answers e : asked e -> getWidth e = Bool ->
  answers (fun fuel => TimingSolver.evaluate fuel cs e) (fun v => validity_is v (MkQuery cs e)).
Proof.
  intros He Hw.
  assert (answers (fun fuel s => x ← TimingSolver.simplify fuel cs e; Solver.evaluate (MkQuery cs x) s) (fun v => validity_is v (MkQuery cs e))) as H.
  { apply answers_simplified; [done|]. intros r Hr Hwr Hv s Hs.
    destruct (evaluate_ok (MkQuery cs r) s Hs) as (b & s' & E & Hs' & Hb); [split; [by apply path_query|cbn; congruence]|].
    exists b, s'. split_and!; [done|done|intros Ht; by eapply (facade_answers _ s Ht)|].
    intros a Ha. specialize (Hb a Ha). destruct (same_valid r e Hv) as [V1 V2]. destruct a; cbn in *; rewrite <- ?V1, <- ?V2; done. }
  unfold TimingSolver.evaluate. destruct e as [c| | | | | | | |]; try exact H. apply answers_now. intros fuel s Hs. eexists _, s. split_and!; [done..|].
  intros v [= <-]. pose proof (const_truth_path c He Hw) as Hc. destruct (ConstantExpr_isTrue c) eqn:E; cbn; [by apply Hc|].
  intros ρ _. destruct He as [He _]. rewrite isTrue_spec in E by done. apply negb_false_iff, Z.eqb_eq in E. done.
Qed.

(** A value the expression has in some run of the path. *)
Definition possible (e : Expr) (a : APInt) : Prop :=
  wf_apint a /\ getBitWidth a = getWidth e /\ exists ρ, sat ρ cs /\ eval ρ e = uval a.

Lemma getValue_answers e : asked e -> answers (fun fuel => TimingSolver.getValue fuel cs e) (possible e).
Proof.
  intros He.
  assert (answers (fun fuel s => x ← TimingSolver.simplify fuel cs e; Solver.getValue (MkQuery cs x) s) (possible e)) as H.
  { apply answers_simplified; [done|]. intros r Hr Hwr Hv s Hs.
    destruct (getValue_ok (MkQuery cs r) s Hs) as (b & s' & E & Hs' & Hb); [by apply path_query|].
    exists b, s'. split_and!; [done|done|intros Ht; by eapply (facade_answers _ s Ht)|].
    intros a Ha. destruct (Hb a Ha) as (Hwa & Hba & ρ & Hρ & Ev). split_and!; [done|cbn in Hba; congruence|].
    exists ρ. split; [done|]. rewrite <- (Hv ρ Hρ). done. }
  unfold TimingSolver.getValue. destruct e; try exact H. apply answers_now. intros fuel s Hs. eexists _, s. split_and!; [done..|].
  intros a [= <-]. destruct He as [He _]. split_and!; [done|done|]. by exists ρ0.
Qed.

(** What the simplifier gives is the same for every fuel that is enough, and so is
    the answer. *)
Lemma asked_settles {A} (op : Expr -> S -> outcome A) e : asked e -> settles (fun fuel s => x ← TimingSolver.simplify fuel cs e; op x s).
Proof. intros He. destruct (simplify_ok e He) as (r & Er & _). by eapply eventually_settles. Qed.

Lemma mustBeTrue_settles e : asked e -> settles (fun fuel => TimingSolver.mustBeTrue fuel cs e).
Proof.
  intros He. unfold TimingSolver.mustBeTrue. destruct e; try exact (asked_settles (fun x => Solver.mustBeTrue (MkQuery cs x)) _ He). apply settles_now.
Qed.

Lemma evaluate_settles e : asked e -> settles (fun fuel => TimingSolver.evaluate fuel cs e).
Proof.
  intros He. unfold TimingSolver.evaluate. destruct e; try exact (asked_settles (fun x => Solver.evaluate (MkQuery cs x)) _ He). apply settles_now.
Qed.

Lemma getValue_settles e : asked e -> settles (fun fuel => TimingSolver.getValue fuel cs e).
Proof.
  intros He. unfold TimingSolver.getValue. destruct e; try exact (asked_settles (fun x => Solver.getValue (MkQuery cs x)) _ He). apply settles_now.
Qed.

Lemma mayBeTrue_settles e : asked e -> getWidth e = Bool -> settles (fun fuel => TimingSolver.mayBeTrue fuel cs e).
Proof.
  intros He Hw. destruct (isZero_asked e He Hw) as (z & Ez & Hz & _ & _). destruct (mustBeTrue_settles z Hz) as [n Hn]. exists n.
  intros m Hm s. unfold TimingSolver.mayBeTrue, TimingSolver.mustBeFalse. rewrite Ez. cbn [mbind outcome_bind]. by rewrite (Hn m Hm).
Qed.

(** An operation that answers and settles has one answer. *)
Lemma answers_settled {A} (op : nat -> S -> outcome (option A * S)) P : answers op P -> settles op -> forall s, s_inv s ->
  exists r s', eventually (fun fuel => op fuel s) (r, s') /\ s_inv s' /\ (TotalSolver S -> r <> None) /\ forall a, r = Some a -> P a.
Proof.
  intros [n Hn] [m Hm] s Hs. destruct (Hn (n `max` m)%nat ltac:(lia) s Hs) as (r & s' & E & H). exists r, s'. split; [|done].
  exists (n `max` m)%nat. intros k Hk. rewrite (Hm k), <- (Hm (n `max` m)%nat) by lia. exact E.
Qed.

End Sound.
