(* ===== verification/SeedInfo.v ===== *)
(** Seeds (lib/Core/SeedInfo.h, SeedInfo.cpp): a test that guides the run, and how it
    is patched when the path leaves it. *)
From stdpp Require Import base numbers list sorting gmap.
From Stdlib Require Import ZArith Lia.
From S2P Require Import Prelude APInt Bits KTest Expr Semantics ConstantOps ExprCreate Visitor FindReads Solver Constraints Evaluator TimingSolver.
Local Open Scope Z_scope.

(** The objects of the input that were used are numbers of objects. *)
Record SeedInfo : Type := MkSeed {
  assignment : Assignment;
  input : KTest;
  inputPosition : Z;
  used : gset nat
}.

Module SeedInfo.

Definition new (input : KTest) : SeedInfo := MkSeed (MkAssignment true ∅) input 0 ∅.

Definition with_assignment (a : Assignment) (s : SeedInfo) : SeedInfo := MkSeed a (input s) (inputPosition s) (used s).

(** The first number below the end that passes the test. *)
Definition first (p : nat -> bool) (n : nat) : option nat := head (filter (fun i => p i = true) (seq 0 n)).

(** The next input for an object of this name and size. *)
Definition getNextInput (mo_name : bytes) (size : Z) (byName : bool) (s : SeedInfo) : option KTestObject * SeedInfo :=
  let objects := k_objects (input s) in
  let take i := (objects !! i, MkSeed (assignment s) (input s) (inputPosition s) ({[ i ]} ∪ used s)) in
  if byName then
    match first (fun i => bool_decide (name <$> objects !! i = Some mo_name) && bool_decide (i ∉ used s)) (length objects) with
    | Some i => take i
    | None =>
        match first (fun i => bool_decide (i ∉ used s)) (length objects) with
        | Some i => if bool_decide ((fun o => Z.of_nat (length (o_bytes o))) <$> objects !! i = Some size) then take i else (None, s)
        | None => (None, s)
        end
    end
  else if Z.of_nat (length objects) <=? inputPosition s then (None, s)
  else (objects !! Z.to_nat (inputPosition s), MkSeed (assignment s) (input s) (inputPosition s + 1) (used s)).

Section Patch.
Context {AP : APIntOps} {AH : ArrayHeap} {OP : ExprOptions} {VO : VisitorOptions} {CO : ConstraintOptions} {TO : TimingOptions}.
Context {S : Type} {ops : SolverImpl S}.
Context (fuel : nat).

(** What the loops thread: the values, the constraints that are required, the
    solver. *)
Abbreviation patching := (gmap positive (list Z) * ConstraintSet * S)%type.

Definition read_byte (array : positive) (i : Z) : outcome Expr :=
  ReadExpr_create (MkUpdateList array UNull) (ConstantExpr (ConstantExpr_alloc i Int32)).

Definition byte_constant (v : Z) : Expr := ConstantExpr (ConstantExpr_alloc v Int8).

(** A byte keeps its value when the constraints allow it, and takes one that they
    allow otherwise. *)
Definition patch_byte (array : positive) (i : Z) (x : patching) : outcome patching :=
  let '(b, required, s) := x in
  values ← deref (b !! array);
  v ← deref (values !! Z.to_nat i);
  read ← read_byte array i;
  isSeed ← EqExpr_create read (byte_constant v);
  '(res, s) ← TimingSolver.mustBeFalse fuel required isSeed s;
  match res with
  | None => AssertFail
  | Some true =>
      '(value, s) ← TimingSolver.getValue fuel required read s;
      match value with
      | None => AssertFail
      | Some value =>
          z ← ConstantExpr_getZExtValue value 8;
          c ← EqExpr_create read (byte_constant z);
          required ← addConstraint fuel c required;
          Done (<[array := <[Z.to_nat i := z]> values]> b, required, s)
      end
  | Some false =>
      required ← addConstraint fuel isSeed required;
      Done (b, required, s)
  end.

Fixpoint patch_bytes (l : list (positive * Z)) (x : patching) : outcome patching :=
  match l with
  | [] => Done x
  | (array, i) :: l => x ← patch_byte array i x; patch_bytes l x
  end.

(** Sets and maps are gone through by the order of their keys. *)
Definition read_le (x y : positive * Z) : Prop := (x.1 < y.1)%positive \/ x.1 = y.1 /\ x.2 <= y.2.

#[export] Instance read_le_dec : RelDecision read_le.
Proof. intros x y. unfold read_le. apply _. Defined.

(** The bytes the condition reads at constant indices. *)
Fixpoint directReads (reads : list Expr) (acc : gset (positive * Z)) : outcome (gset (positive * Z)) :=
  match reads with
  | [] => Done acc
  | ReadExpr root _ (ConstantExpr CE) :: reads => z ← ConstantExpr_getZExtValue CE 32; directReads reads ({[ (root, z) ]} ∪ acc)
  | _ :: reads => directReads reads acc
  end.

Definition patchSeed (constraints : ConstraintSet) (condition : Expr) (seed : SeedInfo) (s : S) : outcome (SeedInfo * S) :=
  required ← addConstraint fuel condition constraints;
  reads ← findReads condition false;
  direct ← directReads reads ∅;
  let b := bindings (assignment seed) in
  '(b, required, s) ← patch_bytes (merge_sort read_le (filter (fun x => is_Some (b !! x.1)) (elements direct))) (b, required, s);
  let a := MkAssignment (allowFreeValues (assignment seed)) b in
  e ← Assignment_evaluate a condition;
  '(res, s) ← TimingSolver.mayBeTrue fuel constraints e s;
  match res with
  | None => AssertFail
  | Some true => Done (with_assignment a seed, s)
  | Some false =>
      let all := merge_sort read_le (x ← map_to_list b; (fun i => (x.1, Z.of_nat i)) <$> seq 0 (Z.to_nat (arr_size (array_at x.1)))) in
      '(b, _, s) ← patch_bytes all (b, required, s);
      let a := MkAssignment (allowFreeValues (assignment seed)) b in
      e ← Assignment_evaluate a condition;
      '(res, s) ← TimingSolver.mayBeTrue fuel constraints e s;
      match res with
      | Some true => Done (with_assignment a seed, s)
      | _ => AssertFail
      end
  end.

End Patch.
End SeedInfo.
