(* ===== verification/ExecutorState.v ===== *)
(** The state of the executor (lib/Core/Executor.h, ExecutionState.h, .cpp): execution
    states, the object states their address spaces share, the process tree, and what
    waits for the searcher.

    States are named by pointers.  What only statistics, output and unwinding read is
    left out, and so are the fields of the guided search (CGSWorld.v). *)
From stdpp Require Import base numbers list strings gmap.
From Stdlib Require Import ZArith Lia String.
From S2P Require Import Prelude APInt RNG KTest PTree Expr Memory MemoryManager ImmutableTree AddressSpace Visitor Solver Constraints SeedInfo.
Local Open Scope Z_scope.

(** [StackFrame]: the locals are the values of registers by number. *)
Record StackFrame : Type := MkFrame {
  caller : positive;
  allocas : list MemoryObject;
  locals : gmap Z Expr
}.

(** The back of the stack is the head of the list. *)
Record ExecutionState : Type := MkES {
  pc : positive;
  prevPC : positive;
  stack : list StackFrame;
  depth : Z;
  addressSpace : AddressSpace;
  constraints : ConstraintSet;
  coveredLines : gmap positive (gset Z);
  symbolics : list (MemoryObject * positive);
  arrayNames : gset string;
  id : Z;
  coveredNew : bool;
  forkDisabled : bool
}.

Definition set_pc (v : positive) (e : ExecutionState) : ExecutionState :=
  MkES v (prevPC e) (stack e) (depth e) (addressSpace e) (constraints e) (coveredLines e) (symbolics e) (arrayNames e) (id e) (coveredNew e) (forkDisabled e).
Definition set_stack (v : list StackFrame) (e : ExecutionState) : ExecutionState :=
  MkES (pc e) (prevPC e) v (depth e) (addressSpace e) (constraints e) (coveredLines e) (symbolics e) (arrayNames e) (id e) (coveredNew e) (forkDisabled e).
Definition set_addressSpace (v : AddressSpace) (e : ExecutionState) : ExecutionState :=
  MkES (pc e) (prevPC e) (stack e) (depth e) v (constraints e) (coveredLines e) (symbolics e) (arrayNames e) (id e) (coveredNew e) (forkDisabled e).
Definition set_constraints (v : ConstraintSet) (e : ExecutionState) : ExecutionState :=
  MkES (pc e) (prevPC e) (stack e) (depth e) (addressSpace e) v (coveredLines e) (symbolics e) (arrayNames e) (id e) (coveredNew e) (forkDisabled e).
Definition set_covered (n : bool) (l : gmap positive (gset Z)) (e : ExecutionState) : ExecutionState :=
  MkES (pc e) (prevPC e) (stack e) (depth e) (addressSpace e) (constraints e) l (symbolics e) (arrayNames e) (id e) n (forkDisabled e).
Definition set_symbolics (v : list (MemoryObject * positive)) (e : ExecutionState) : ExecutionState :=
  MkES (pc e) (prevPC e) (stack e) (depth e) (addressSpace e) (constraints e) (coveredLines e) v (arrayNames e) (id e) (coveredNew e) (forkDisabled e).
Definition set_arrayNames (v : gset string) (e : ExecutionState) : ExecutionState :=
  MkES (pc e) (prevPC e) (stack e) (depth e) (addressSpace e) (constraints e) (coveredLines e) (symbolics e) v (id e) (coveredNew e) (forkDisabled e).

(** The part of [ExecutionState::branch] that is about the state itself: the original
    with one more level of depth, and its copy with the number [id].  Both get a new
    key for copy on write. *)
Definition ExecutionState_branch (newID : Z) (e : ExecutionState) : ExecutionState * ExecutionState :=
  let d := u32 (depth e + 1) in
  let '(copy, orig) := AddressSpace.copy (addressSpace e) in
  (MkES (pc e) (prevPC e) (stack e) d orig (constraints e) (coveredLines e) (symbolics e) (arrayNames e) (id e) (coveredNew e) (forkDisabled e),
   MkES (pc e) (prevPC e) (stack e) d copy (constraints e) ∅ (symbolics e) (arrayNames e) newID false (forkDisabled e)).

Definition pushFrame (caller : positive) (e : ExecutionState) : ExecutionState :=
  set_stack (MkFrame caller [] ∅ :: stack e) e.

Fixpoint unbind_all (l : list MemoryObject) (a : AddressSpace) : outcome AddressSpace :=
  match l with
  | [] => Done a
  | mo :: l => a ← AddressSpace.unbindObject mo a; unbind_all l a
  end.

Definition popFrame (e : ExecutionState) : outcome ExecutionState :=
  match stack e with
  | [] => Undefined
  | sf :: stack => a ← unbind_all (allocas sf) (addressSpace e); Done (set_stack stack (set_addressSpace a e))
  end.

(** [StateTerminationType]: why a state ends. *)
Inductive StateTerminationType : Type :=
| TRunning | TExit | TInterrupted | TMaxDepth | TOutOfMemory | TOutOfStackMemory | TSolver
| TAbort | TAssert | TBadVectorAccess | TFree | TModel | TOverflow | TPtr | TReadOnly | TReportError
| TUser | TExecution | TExternal | TReplay | TMerge | TSilentExit.

Section Executor.
Context {S : Type}.

Record Executor : Type := MkExecutor {
  heap : gmap positive ExecutionState;
  store : Store;
  arrays : Z;
  solver : S;
  processTree : PTree;
  states : gset positive;
  addedStates : list positive;
  removedStates : list positive;
  seedMap : gmap positive (list SeedInfo);
  theRNG : RNG;
  forks : Z;
  replayPosition : Z;
  nextID : Z;
  ended : list (positive * StateTerminationType);
  mm : MemoryManager
}.

Definition set_heap (v : gmap positive ExecutionState) (x : Executor) : Executor :=
  MkExecutor v (store x) (arrays x) (solver x) (processTree x) (states x) (addedStates x) (removedStates x) (seedMap x) (theRNG x) (forks x) (replayPosition x) (nextID x) (ended x) (mm x).
Definition set_store (v : Store) (n : Z) (x : Executor) : Executor :=
  MkExecutor (heap x) v n (solver x) (processTree x) (states x) (addedStates x) (removedStates x) (seedMap x) (theRNG x) (forks x) (replayPosition x) (nextID x) (ended x) (mm x).
Definition set_solver (v : S) (x : Executor) : Executor :=
  MkExecutor (heap x) (store x) (arrays x) v (processTree x) (states x) (addedStates x) (removedStates x) (seedMap x) (theRNG x) (forks x) (replayPosition x) (nextID x) (ended x) (mm x).
Definition set_tree (v : PTree) (x : Executor) : Executor :=
  MkExecutor (heap x) (store x) (arrays x) (solver x) v (states x) (addedStates x) (removedStates x) (seedMap x) (theRNG x) (forks x) (replayPosition x) (nextID x) (ended x) (mm x).
Definition set_states (v : gset positive) (x : Executor) : Executor :=
  MkExecutor (heap x) (store x) (arrays x) (solver x) (processTree x) v (addedStates x) (removedStates x) (seedMap x) (theRNG x) (forks x) (replayPosition x) (nextID x) (ended x) (mm x).
Definition set_added (v : list positive) (x : Executor) : Executor :=
  MkExecutor (heap x) (store x) (arrays x) (solver x) (processTree x) (states x) v (removedStates x) (seedMap x) (theRNG x) (forks x) (replayPosition x) (nextID x) (ended x) (mm x).
Definition set_removed (v : list positive) (x : Executor) : Executor :=
  MkExecutor (heap x) (store x) (arrays x) (solver x) (processTree x) (states x) (addedStates x) v (seedMap x) (theRNG x) (forks x) (replayPosition x) (nextID x) (ended x) (mm x).
Definition set_seedMap (v : gmap positive (list SeedInfo)) (x : Executor) : Executor :=
  MkExecutor (heap x) (store x) (arrays x) (solver x) (processTree x) (states x) (addedStates x) (removedStates x) v (theRNG x) (forks x) (replayPosition x) (nextID x) (ended x) (mm x).
Definition set_theRNG (v : RNG) (x : Executor) : Executor :=
  MkExecutor (heap x) (store x) (arrays x) (solver x) (processTree x) (states x) (addedStates x) (removedStates x) (seedMap x) v (forks x) (replayPosition x) (nextID x) (ended x) (mm x).
Definition set_forks (v : Z) (x : Executor) : Executor :=
  MkExecutor (heap x) (store x) (arrays x) (solver x) (processTree x) (states x) (addedStates x) (removedStates x) (seedMap x) (theRNG x) v (replayPosition x) (nextID x) (ended x) (mm x).
Definition set_replayPosition (v : Z) (x : Executor) : Executor :=
  MkExecutor (heap x) (store x) (arrays x) (solver x) (processTree x) (states x) (addedStates x) (removedStates x) (seedMap x) (theRNG x) (forks x) v (nextID x) (ended x) (mm x).
Definition set_nextID (v : Z) (x : Executor) : Executor :=
  MkExecutor (heap x) (store x) (arrays x) (solver x) (processTree x) (states x) (addedStates x) (removedStates x) (seedMap x) (theRNG x) (forks x) (replayPosition x) v (ended x) (mm x).
Definition set_ended (v : list (positive * StateTerminationType)) (x : Executor) : Executor :=
  MkExecutor (heap x) (store x) (arrays x) (solver x) (processTree x) (states x) (addedStates x) (removedStates x) (seedMap x) (theRNG x) (forks x) (replayPosition x) (nextID x) v (mm x).

Definition set_mm (v : MemoryManager) (x : Executor) : Executor :=
  MkExecutor (heap x) (store x) (arrays x) (solver x) (processTree x) (states x) (addedStates x) (removedStates x) (seedMap x) (theRNG x) (forks x) (replayPosition x) (nextID x) (ended x) v.

(** ** Operations that read and change the executor *)

Definition EM (A : Type) : Type := Executor -> outcome (A * Executor).

#[export] Instance EM_ret : MRet EM := fun A a x => Done (a, x).
#[export] Instance EM_bind : MBind EM := fun A B f m x => m x ≫= fun r => f r.1 r.2.

(** The executor as it is, and an operation of a part. *)
Definition ask {A} (f : Executor -> A) : EM A := fun x => Done (f x, x).
Definition tell (f : Executor -> Executor) : EM () := fun x => Done (tt, f x).
Definition try {A} (o : outcome A) : EM A := fun x => o ≫= fun a => Done (a, x).

Definition state_of (p : positive) : EM ExecutionState := fun x => e ← deref (heap x !! p); Done (e, x).
Definition put_state (p : positive) (e : ExecutionState) : EM () := tell (fun x => set_heap (<[p := e]> (heap x)) x).
Definition update_state (p : positive) (f : ExecutionState -> ExecutionState) : EM () := e ← state_of p; put_state p (f e).

(** A question to the solver. *)
Definition ask_solver {A} (op : S -> outcome (A * S)) : EM A :=
  fun x => op (solver x) ≫= fun r => Done (r.1, set_solver r.2 x).

(** One that must succeed. *)
Definition must {A} (op : S -> outcome (option A * S)) : EM A :=
  r ← ask_solver op; try (match r with Some a => Done a | None => AssertFail end).

(** A random number. *)
Definition random {A} (op : RNG -> outcome (A * RNG)) : EM A :=
  fun x => op (theRNG x) ≫= fun r => Done (r.1, set_theRNG r.2 x).

End Executor.

Arguments Executor : clear implicits.
Arguments EM : clear implicits.
