(* ===== verification/Resolution.v ===== *)
(** The resolution of symbolic addresses (lib/Core/AddressSpace.cpp): the objects
    a pointer may point into, found with queries to the solver that start at an
    example of the pointer. *)
From stdpp Require Import base numbers list gmap.
From Stdlib Require Import ZArith Lia.
From S2P Require Import Prelude APInt Bits Expr Semantics ConstantOps ExprCreate CreateSound OpsSound ExprWeight Visitor Solver Constraints Memory MemorySound MemoryObjects MapOfSets ImmutableTree AddressSpace TimingSolver.
Local Open Scope Z_scope.

(** How a round of a loop ends: it goes on, breaks, or returns from the function. *)
Inductive round (R A : Type) : Type :=
| Continue (x : A)
| Break (x : A)
| Return (r : R) (x : A).
Arguments Continue {R A} x.
Arguments Break {R A} x.
Arguments Return {R A} r x.

(** The last argument of [resolve]: whether more time than the timeout has passed,
    as far as the clock in the threaded state tells. *)
Class Clock (S : Type) : Type := { past_timeout : S -> bool }.

Module Resolution.

(** ** The two loops *)

(** [while (oi != begin) { --oi; ... }] *)
Fixpoint search_back {R A} (n : nat) (f : ObjectPair -> A -> outcome (round R A)) (begin oi : ImmutableTree.iterator) (x : A) :
    outcome (option R * A) :=
  match n with
  | O => OutOfFuel
  | S n =>
      if ImmutableTree.iter_eqb oi begin then Done (None, x)
      else
        oi ← ImmutableTree.prev oi;
        v ← ImmutableTree.deref_iter oi;
        r ← f v x;
        match r with
        | Continue x => search_back n f begin oi x
        | Break x => Done (None, x)
        | Return r x => Done (Some r, x)
        end
  end.

(** [for (oi = start; oi != end; ++oi) { ... }] *)
Fixpoint search_forward {R A} (n : nat) (f : ObjectPair -> A -> outcome (round R A)) (end_ oi : ImmutableTree.iterator) (x : A) :
    outcome (option R * A) :=
  match n with
  | O => OutOfFuel
  | S n =>
      if ImmutableTree.iter_eqb oi end_ then Done (None, x)
      else
        v ← ImmutableTree.deref_iter oi;
        r ← f v x;
        match r with
        | Continue x => oi ← ImmutableTree.next oi; search_forward n f end_ oi x
        | Break x => Done (None, x)
        | Return r x => Done (Some r, x)
        end
  end.

(** Backwards from the first object above the example, then forwards from there;
    [n] bounds the rounds of each loop. *)
Definition search {R A} (example : Z) (a : AddressSpace) (back forth : ObjectPair -> A -> outcome (round R A)) (x : A) :
    outcome (option R * A) :=
  let n := S (N.to_nat (ImmutableTree.size (objects a))) in
  start ← ImmutableTree.upper_bound example (objects a);
  begin ← ImmutableTree.begin (objects a);
  end_ ← ImmutableTree.end_ (objects a);
  r ← search_back n back begin start x;
  match r : option R * A with
  | (Some r, x) => Done (Some r, x)
  | (None, x) => search_forward n forth end_ start x
  end.

Section Operations.
Context {AP : APIntOps} {AH : ArrayHeap} {OP : ExprOptions} {VO : VisitorOptions} {TO : TimingOptions} {TC : TargetContext}.
Context {S : Type} {ops : SolverImpl S} {clock : Clock S}.
Context (fuel : nat) (cs : ConstraintSet).

(** ** The questions about one object *)

Definition may_point (mo : MemoryObject) (p : Expr) (s : S) : outcome (option bool * S) :=
  e ← getBoundsCheckPointer mo p; TimingSolver.mayBeTrue fuel cs e s.

Definition must_be_above (mo : MemoryObject) (p : Expr) (s : S) : outcome (option bool * S) :=
  base ← getBaseExpr mo; e ← UgeExpr_create p base; TimingSolver.mustBeTrue fuel cs e s.

Definition must_be_below (mo : MemoryObject) (p : Expr) (s : S) : outcome (option bool * S) :=
  base ← getBaseExpr mo; e ← UltExpr_create p base; TimingSolver.mustBeTrue fuel cs e s.

(** ** [resolveOne]: a result is [None] when a query failed *)

Definition one_back (p : Expr) (x : ObjectPair) (s : S) : outcome (round (option ObjectPair) S) :=
  '(mayBeTrue, s) ← may_point x.1 p s;
  match mayBeTrue with
  | None => Done (Return None s)
  | Some true => Done (Return (Some x) s)
  | Some false =>
      '(mustBeTrue, s) ← must_be_above x.1 p s;
      match mustBeTrue with
      | None => Done (Return None s)
      | Some true => Done (Break s)
      | Some false => Done (Continue s)
      end
  end.

Definition one_forth (p : Expr) (x : ObjectPair) (s : S) : outcome (round (option ObjectPair) S) :=
  '(mustBeTrue, s) ← must_be_below x.1 p s;
  match mustBeTrue with
  | None => Done (Return None s)
  | Some true => Done (Break s)
  | Some false =>
      '(mayBeTrue, s) ← may_point x.1 p s;
      match mayBeTrue with
      | None => Done (Return None s)
      | Some true => Done (Return (Some x) s)
      | Some false => Done (Continue s)
      end
  end.

(** The cheap search: the object the example is in. *)
Definition example_object (example : Z) (a : AddressSpace) : option ObjectPair :=
  match ImmutableTree.lookup_previous example (objects a) with
  | Some x => if u64 (example - Memory.address x.1) <? mo_size x.1 then Some x else None
  | None => None
  end.

(** At an address that is not constant.  [None]: a query failed; [Some None]:
    nothing was found. *)
Definition resolveOne_symbolic (address : Expr) (a : AddressSpace) (s : S) : outcome (option (option ObjectPair) * S) :=
  '(cex, s) ← TimingSolver.getValue fuel cs address s;
  match cex with
  | None => Done (None, s)
  | Some cex =>
      example ← ConstantExpr_getZExtValue cex 64;
      match example_object example a with
      | Some x => Done (Some (Some x), s)
      | None =>
          '(r, s) ← search example a (one_back address) (one_forth address) s;
          Done (match r : option (option ObjectPair) with
                | Some None => (None, s)
                | Some (Some x) => (Some (Some x), s)
                | None => (Some None, s)
                end)
      end
  end.

Definition resolveOne (address : Expr) (a : AddressSpace) (s : S) : outcome (option (option ObjectPair) * S) :=
  match address with
  | ConstantExpr CE => r ← AddressSpace.resolveOne CE a; Done (Some r, s)
  | _ => resolveOne_symbolic address a s
  end.

(** ** [resolve] *)

Abbreviation ResolutionList := (list ObjectPair).

(** 1: the resolution is incomplete; 0: it is complete; 2: go on. *)
Definition checkPointerInObject (p : Expr) (op : ObjectPair) (rl : ResolutionList) (maxResolutions : Z) (s : S) :
    outcome (Z * ResolutionList * S) :=
  inBounds ← getBoundsCheckPointer op.1 p;
  '(mayBeTrue, s) ← TimingSolver.mayBeTrue fuel cs inBounds s;
  match mayBeTrue with
  | None => Done (1, rl, s)
  | Some true =>
      let rl := rl ++ [op] in
      let size := Z.of_nat (length rl) in
      if size =? 1 then
        '(mustBeTrue, s) ← TimingSolver.mustBeTrue fuel cs inBounds s;
        Done (match mustBeTrue with None => 1 | Some true => 0 | Some false => 2 end, rl, s)
      else Done (if size =? maxResolutions then 1 else 2, rl, s)
  | Some false => Done (2, rl, s)
  end.

Definition all_back (p : Expr) (maxResolutions : Z) (op : ObjectPair) (x : ResolutionList * S) : outcome (round bool (ResolutionList * S)) :=
  let '(rl, s) := x in
  if past_timeout s then Done (Return true (rl, s))
  else
    '(incomplete, rl, s) ← checkPointerInObject p op rl maxResolutions s;
    if negb (incomplete =? 2) then Done (Return (negb (incomplete =? 0)) (rl, s))
    else
      '(mustBeTrue, s) ← must_be_above op.1 p s;
      Done (match mustBeTrue with
            | None => Return true (rl, s)
            | Some true => Break (rl, s)
            | Some false => Continue (rl, s)
            end).

Definition all_forth (p : Expr) (maxResolutions : Z) (op : ObjectPair) (x : ResolutionList * S) : outcome (round bool (ResolutionList * S)) :=
  let '(rl, s) := x in
  if past_timeout s then Done (Return true (rl, s))
  else
    '(mustBeTrue, s) ← must_be_below op.1 p s;
    match mustBeTrue with
    | None => Done (Return true (rl, s))
    | Some true => Done (Break (rl, s))
    | Some false =>
        '(incomplete, rl, s) ← checkPointerInObject p op rl maxResolutions s;
        if negb (incomplete =? 2) then Done (Return (negb (incomplete =? 0)) (rl, s))
        else Done (Continue (rl, s))
    end.

(** True when the resolution is incomplete; with the list. *)
Definition resolve_symbolic (p : Expr) (rl : ResolutionList) (maxResolutions : Z) (a : AddressSpace) (s : S) :
    outcome (bool * ResolutionList * S) :=
  '(cex, s) ← TimingSolver.getValue fuel cs p s;
  match cex with
  | None => Done (true, rl, s)
  | Some cex =>
      example ← ConstantExpr_getZExtValue cex 64;
      '(r, x) ← search example a (all_back p maxResolutions) (all_forth p maxResolutions) (rl, s);
      let '(rl, s) := (x : ResolutionList * S) in
      Done (match r : option bool with Some incomplete => incomplete | None => false end, rl, s)
  end.

Definition resolve (p : Expr) (rl : ResolutionList) (maxResolutions : Z) (a : AddressSpace) (s : S) : outcome (bool * ResolutionList * S) :=
  match p with
  | ConstantExpr CE =>
      res ← AddressSpace.resolveOne CE a;
      Done (false, match res with Some x => rl ++ [x] | None => rl end, s)
  | _ => resolve_symbolic p rl maxResolutions a s
  end.

End Operations.
End Resolution.
