(* ===== verification/Fork.v ===== *)
(** Forking (lib/Core/Executor.cpp): how a state splits at a condition, how states
    end, and how the changes reach the searcher.

    Time limits, messages, test output and path files leave no trace here; that a
    state ended, and why, is noted in [ended]. *)
From stdpp Require Import base numbers list gmap.
From Stdlib Require Import ZArith Lia.
From S2P Require Import Prelude APInt Bits RNG KTest Searcher PTree Expr Semantics ConstantOps ExprCreate Visitor Memory AddressSpace Solver Constraints Evaluator TimingSolver SeedInfo ExecutorState.
Local Open Scope Z_scope.

(** The options, and fields of the executor that nothing below changes. *)
Class ExecutorOptions : Type := {
  MaxForks : Z;
  MaxDepth : Z;
  MaxMemoryInhibit : bool;
  atMemoryLimit : bool;
  inhibitForking : bool;
  OnlyReplaySeeds : bool;
  ivcEnabled : bool;
  replayPath : option (list bool);
  replayKTest : option KTest;
  (** What the statistics say of the limits of [-max-static-fork-pct] and its kin. *)
  static_limit_reached : bool
}.

Module Executor.
Section Operations.
Context {AP : APIntOps} {AH : ArrayHeap} {OP : ExprOptions} {VO : VisitorOptions} {CO : ConstraintOptions} {TO : TimingOptions}.
Context {PO : PTreeOptions} {EO : ExecutorOptions}.
Context {S : Type} {ops : SolverImpl S}.
Context (fuel : nat).

Abbreviation M := (EM S).

(** ** The end of a state *)

(** One that the searcher has not seen is deleted at once. *)
Definition terminateState (p : positive) : M () :=
  added ← ask addedStates;
  match vec_erase p added with
  | None =>
      _ ← update_state p (fun e => set_pc (prevPC e) e);
      tell (fun x => set_removed (removedStates x ++ [p]) x)
  | Some added =>
      _ ← tell (fun x => set_seedMap (delete p (seedMap x)) (set_added added x));
      tree ← ask processTree;
      n ← try (deref (ptreeNode tree !! p));
      tree ← try (PTree.remove fuel n tree);
      tell (fun x => set_heap (delete p (heap x)) (set_tree tree x))
  end.

Definition terminate (p : positive) (reason : StateTerminationType) : M () :=
  _ ← tell (fun x => set_ended (ended x ++ [(p, reason)]) x);
  terminateState p.

Definition terminateStateEarly := terminate.
Definition terminateStateOnError := terminate.
Definition terminateStateOnSolverError (p : positive) : M () := terminateStateOnError p TSolver.

(** The loop over the removed states of [updateStates], after the searcher was told. *)
Fixpoint delete_states (l : list positive) : M () :=
  match l with
  | [] => mret ()
  | p :: l =>
      known ← ask states;
      _ ← try (if bool_decide (p ∈ known) then Done () else AssertFail);
      _ ← tell (fun x => set_seedMap (delete p (seedMap x)) (set_states (states x ∖ {[ p ]}) x));
      tree ← ask processTree;
      n ← try (deref (ptreeNode tree !! p));
      tree ← try (PTree.remove fuel n tree);
      _ ← tell (fun x => set_heap (delete p (heap x)) (set_tree tree x));
      delete_states l
  end.

Definition updateStates : M () :=
  _ ← tell (fun x => set_added [] (set_states (states x ∪ list_to_set (addedStates x)) x));
  removed ← ask removedStates;
  _ ← delete_states removed;
  tell (set_removed []).

(** ** Constraints *)

(** Seeds that the condition excludes are patched. *)
Fixpoint patch_seeds (constraints : ConstraintSet) (condition : Expr) (l : list SeedInfo) : M (list SeedInfo) :=
  match l with
  | [] => mret []
  | seed :: l =>
      e ← try (Assignment_evaluate (assignment seed) condition);
      res ← must (TimingSolver.mustBeFalse fuel constraints e);
      seed ← (if (res : bool) then ask_solver (SeedInfo.patchSeed fuel constraints condition seed) else mret seed);
      l ← patch_seeds constraints condition l;
      mret (seed :: l)
  end.

(** A constant that is not true is a fatal error; so is the concretization of implied
    values, which aborts. *)
Definition addConstraint (p : positive) (condition : Expr) : M () :=
  match condition with
  | ConstantExpr CE => try (if ConstantExpr_isTrue CE then Done () else AssertFail)
  | _ =>
      e ← state_of p;
      seeds ← ask (fun x => seedMap x !! p);
      _ ← match seeds with
          | Some l => l ← patch_seeds (constraints e) condition l; tell (fun x => set_seedMap (<[p := l]> (seedMap x)) x)
          | None => mret ()
          end;
      cs ← try (Constraints.addConstraint fuel condition (constraints e));
      _ ← put_state p (set_constraints cs e);
      if ivcEnabled then try AssertFail else mret ()
  end.

(** ** Splitting a state *)

Definition branchingPermitted (p : positive) : M bool :=
  e ← state_of p;
  n ← ask forks;
  mret (negb ((MaxMemoryInhibit && atMemoryLimit) || forkDisabled e || inhibitForking ||
    (negb (MaxForks =? 2 ^ 32 - 1) && (MaxForks <=? n)))).

(** [es->branch()], [addedStates.push_back(ns)] and [processTree->attach], in the
    orders of the two callers, which no part of the state depends on. *)
Definition branch_state (p : positive) : M positive :=
  e ← state_of p;
  newID ← ask nextID;
  q ← ask (fun x => fresh (dom (heap x)));
  let '(e, ns) := ExecutionState_branch newID e in
  _ ← put_state p e;
  _ ← put_state q ns;
  _ ← tell (fun x => set_nextID (u32 (newID + 1)) (set_added (addedStates x ++ [q]) x));
  mret q.

Definition attach (p q : positive) : M () :=
  tree ← ask processTree;
  tree ← try (PTree.attach (ptreeNode tree !! p) q p tree);
  tell (set_tree tree).

Definition maxStaticPctChecks (p : positive) (condition : Expr) : M Expr :=
  if Memory.is_constant condition then mret condition
  else if negb static_limit_reached then mret condition
  else
    e ← state_of p;
    value ← must (TimingSolver.getValue fuel (constraints e) condition);
    eq ← try (EqExpr_create (ConstantExpr value) condition);
    _ ← addConstraint p eq;
    mret (ConstantExpr value).

(** Whether a seed takes the true side. *)
Definition seed_side (constraints : ConstraintSet) (condition : Expr) (seed : SeedInfo) : M bool :=
  e ← try (Assignment_evaluate (assignment seed) condition);
  res ← must (TimingSolver.getValue fuel constraints e);
  mret (ConstantExpr_isTrue res).

(** Stops when seeds for both sides were found. *)
Fixpoint seed_sides (constraints : ConstraintSet) (condition : Expr) (l : list SeedInfo) (trueSeed falseSeed : bool) : M (bool * bool) :=
  match l with
  | [] => mret (trueSeed, falseSeed)
  | seed :: l =>
      b ← seed_side constraints condition seed;
      let trueSeed := trueSeed || b in
      let falseSeed := falseSeed || negb b in
      if trueSeed && falseSeed then mret (true, true) else seed_sides constraints condition l trueSeed falseSeed
  end.

Fixpoint split_seeds (constraints : ConstraintSet) (condition : Expr) (l : list SeedInfo) : M (list SeedInfo * list SeedInfo) :=
  match l with
  | [] => mret ([], [])
  | seed :: l =>
      b ← seed_side constraints condition seed;
      '(t, f) ← split_seeds constraints condition l;
      mret (if (b : bool) then (seed :: t, f) else (t, seed :: f))
  end.

(** The seeds of [p] go to the side they take; a side without seeds has no entry, and
    when it is the current state the coverage marks are swapped. *)
Definition distribute_seeds (p q : positive) (condition : Expr) (l : list SeedInfo) : M () :=
  e ← state_of p;
  '(t, f) ← split_seeds (constraints e) condition l;
  let put s l m := match l with [] => delete s m | _ => <[s := l]> m end in
  _ ← tell (fun x => set_seedMap (put q f (put p t (seedMap x))) x);
  match t with
  | [] =>
      e ← state_of p;
      n ← state_of q;
      _ ← put_state p (set_covered (coveredNew n) (coveredLines n) e);
      put_state q (set_covered (coveredNew e) (coveredLines e) n)
  | _ => mret ()
  end.

(** A condition that is fixed from outside: a recorded path, or a coin when forking is
    not allowed. *)
Definition follow (p : positive) (condition : Expr) (side : bool) : M Validity :=
  if side then _ ← addConstraint p condition; mret VTrue
  else z ← try (createIsZero condition); _ ← addConstraint p z; mret VFalse.

Definition follow_replay (p : positive) (condition : Expr) (path : list bool) (res : Validity) : M Validity :=
  i ← ask replayPosition;
  side ← try (match path !! Z.to_nat i with Some b => Done b | None => AssertFail end);
  _ ← tell (set_replayPosition (i + 1));
  match res with
  | VTrue => try (if (side : bool) then Done VTrue else AssertFail)
  | VFalse => try (if (side : bool) then AssertFail else Done VFalse)
  | VUnknown => follow p condition side
  end.

Definition decide_unseeded (p : positive) (condition : Expr) (isInternal : bool) (res : Validity) : M Validity :=
  match replayPath with
  | Some path =>
      if isInternal then
        match res with
        | VUnknown =>
            _ ← try (match replayKTest with Some _ => AssertFail | None => Done () end);
            ok ← branchingPermitted p;
            if (ok : bool) then mret VUnknown else side ← random RNG.getBool; follow p condition side
        | _ => mret res
        end
      else follow_replay p condition path res
  | None =>
      match res with
      | VUnknown =>
          _ ← try (match replayKTest with Some _ => AssertFail | None => Done () end);
          ok ← branchingPermitted p;
          if (ok : bool) then mret VUnknown else side ← random RNG.getBool; follow p condition side
      | _ => mret res
      end
  end.

Definition decide_seeded (p : positive) (condition : Expr) (l : list SeedInfo) (res : Validity) : M Validity :=
  e ← state_of p;
  match res with
  | VUnknown =>
      if forkDisabled e || OnlyReplaySeeds then
        '(t, f) ← seed_sides (constraints e) condition l false false;
        if t && f then mret VUnknown
        else _ ← try (if t || f then Done () else AssertFail); follow p condition t
      else mret VUnknown
  | _ => mret res
  end.

(** Both sides are possible. *)
Definition split_state (p : positive) (condition : Expr) (seeds : option (list SeedInfo)) : M (option positive * option positive) :=
  _ ← tell (fun x => set_forks (u64 (forks x + 1)) x);
  q ← branch_state p;
  _ ← match seeds with Some l => distribute_seeds p q condition l | None => mret () end;
  _ ← attach p q;
  _ ← addConstraint p condition;
  z ← try (createIsZero condition);
  _ ← addConstraint q z;
  e ← state_of p;
  if negb (MaxDepth =? 0) && (MaxDepth <=? depth e) then
    _ ← terminateStateEarly p TMaxDepth;
    _ ← terminateStateEarly q TMaxDepth;
    mret (None, None)
  else mret (Some p, Some q).

(** [fork] after the solver was asked. *)
Definition fork_answered (p : positive) (condition : Expr) (isInternal isSeeding : bool) (res : option Validity) : M (option positive * option positive) :=
  match res with
  | None =>
      _ ← update_state p (fun e => set_pc (prevPC e) e);
      _ ← terminateStateOnSolverError p;
      mret (None, None)
  | Some res =>
      res ← if isSeeding then mret res else decide_unseeded p condition isInternal res;
      seeds ← ask (fun x => seedMap x !! p);
      res ← match seeds with Some l => decide_seeded p condition l res | None => mret res end;
      match res with
      | VTrue => mret (Some p, None)
      | VFalse => mret (None, Some p)
      | VUnknown => split_state p condition seeds
      end
  end.

Definition fork (p : positive) (condition : Expr) (isInternal : bool) : M (option positive * option positive) :=
  isSeeding ← ask (fun x => bool_decide (is_Some (seedMap x !! p)));
  condition ← if (isSeeding : bool) then mret condition else maxStaticPctChecks p condition;
  e ← state_of p;
  res ← ask_solver (TimingSolver.evaluate fuel (constraints e) condition);
  fork_answered p condition isInternal isSeeding res.

End Operations.
End Executor.
