(* ===== verification/ExecutorMemory.v ===== *)
(** The memory operations of the executor (lib/Core/Executor.cpp): loads and stores
    through pointers that may point into several objects, allocation, deallocation,
    symbolic objects, and the concretization of values.

    The optimizer of array expressions returns what it is given: -optimize-array is
    not set, and neither is -make-concrete-symbolic. *)
From stdpp Require Import base numbers list strings gmap pretty.
From Stdlib Require Import ZArith Lia String.
From S2P Require Import Prelude APInt Bits RNG KTest Expr Semantics ConstantOps ExprCreate Visitor Solver Constraints Evaluator Memory MemoryManager ImmutableTree AddressSpace TimingSolver Resolution SeedInfo PTree ExecutorState Fork.
Local Open Scope Z_scope.
Local Open Scope list_scope.

Class MemoryOperationOptions : Type := {
  SimplifySymIndices : bool;
  MaxSymArraySize : Z
}.

(** What LLVM says of an allocation site: the alignment that is written there (0 if
    none is), and the one that the target prefers for the type, if it has a size. *)
Inductive AllocSite : Type :=
| GlobalSite (declared : Z) (preferred : option Z)
| AllocaSite (declared : Z) (preferred : option Z)
| CallSite.

Class AllocSites : Type := { site_of : positive -> option AllocSite }.

(** The two uses of [executeMemoryOperation]: a load of a type into a register, and
    a store of a value. *)
Inductive MemoryOperation : Type :=
| MemRead (type target : Z)
| MemWrite (value : Expr).

Definition getMinBytesForWidth (w : Z) : Z := u32 (w + 7) / 8.

Module MemoryOperations.
Section Operations.
Context {AP : APIntOps} {AH : ArrayHeap} {OP : ExprOptions} {VO : VisitorOptions} {CO : ConstraintOptions} {TO : TimingOptions}.
Context {TC : TargetContext} {MO : MemoryOptions} {AC : ArrayCache} {AO : AllocationOptions} {SA : SystemAllocator}.
Context {PO : PTreeOptions} {EO : ExecutorOptions} {OO : MemoryOperationOptions} {AS : AllocSites}.
Context {S : Type} {ops : SolverImpl S} {clock : Clock S}.
Context (fuel : nat).

Abbreviation M := (EM S).

(** ** Registers and single values *)

(** The register is in the frame at the back of the stack. *)
Definition bindLocal (target : Z) (p : positive) (value : Expr) : M () :=
  e ← state_of p;
  match stack e with
  | [] => try Undefined
  | sf :: frames => put_state p (set_stack (MkFrame (caller sf) (allocas sf) (<[target := value]> (locals sf)) :: frames) e)
  end.

Definition toUnique (p : positive) (e : Expr) : M Expr :=
  if is_constant e then mret e
  else
    st ← state_of p;
    value ← ask_solver (TimingSolver.getValue fuel (constraints st) e);
    match value with
    | None => mret e
    | Some value =>
        cond ← try (EqExpr_create e (ConstantExpr value));
        isTrue ← ask_solver (TimingSolver.mustBeTrue fuel (constraints st) cond);
        mret (match isTrue with Some true => ConstantExpr value | _ => e end)
    end.

Definition toConstant (p : positive) (e : Expr) : M APInt :=
  st ← state_of p;
  e ← try (simplifyExpr fuel (constraints st) e);
  match e with
  | ConstantExpr CE => mret CE
  | _ =>
      value ← must (TimingSolver.getValue fuel (constraints st) e);
      eq ← try (EqExpr_create e (ConstantExpr value));
      _ ← Executor.addConstraint fuel p eq;
      mret value
  end.

(** ** One access *)

Definition object_at (os : positive) : M ObjectState := fun x => o ← deref (store x !! os); Done (o, x).

(** A read may change the caches of the object, which all states that share it see. *)
Definition read_object (os : positive) (offset : Expr) (width : Z) : M Expr :=
  fun x =>
    o ← deref (store x !! os);
    '(e, o, id) ← read o (arrays x) offset width;
    Done (e, set_store (<[os := o]> (store x)) id x).

Definition getWriteable (p : positive) (mo : MemoryObject) (os : positive) : M positive :=
  fun x =>
    e ← deref (heap x !! p);
    '(wos, a, st) ← AddressSpace.getWriteable mo os (addressSpace e) (store x);
    Done (wos, set_store st (arrays x) (set_heap (<[p := set_addressSpace a e]> (heap x)) x)).

Definition write_object (wos : positive) (offset value : Expr) : M () :=
  fun x =>
    o ← deref (store x !! wos);
    o ← write offset value o;
    Done (tt, set_store (<[wos := o]> (store x)) (arrays x) x).

(** The object is known, and the access is inside it. *)
Definition perform (p : positive) (op : MemoryOperation) (mo : MemoryObject) (os : positive) (offset : outcome Expr) : M () :=
  match op with
  | MemWrite value =>
      o ← object_at os;
      if readOnly o then Executor.terminateStateOnError fuel p TReadOnly
      else
        wos ← getWriteable p mo os;
        offset ← try offset;
        write_object wos offset value
  | MemRead type target =>
      offset ← try offset;
      result ← read_object os offset type;
      bindLocal target p result
  end.

(** ** Loads and stores *)

(** The loop over the objects the pointer may point into: a state for each, and the
    state that is left. *)
Fixpoint access_each (op : MemoryOperation) (address : Expr) (bytes : Z) (rl : list ObjectPair) (unbound : positive) : M (option positive) :=
  match rl with
  | [] => mret (Some unbound)
  | (mo, os) :: rl =>
      inBounds ← try (getBoundsCheckPointer_bytes mo address bytes);
      '(bound, unbound) ← Executor.fork fuel unbound inBounds true;
      _ ← match bound with Some b => perform b op mo os (getOffsetExpr mo address) | None => mret () end;
      match unbound with None => mret None | Some u => access_each op address bytes rl u end
  end.

Definition resolve_all (p : positive) (address : Expr) (maxResolutions : Z) : M (bool * list ObjectPair) :=
  e ← state_of p;
  ask_solver (fun s => '(incomplete, rl, s) ← Resolution.resolve fuel (constraints e) address [] maxResolutions (addressSpace e) s; Done ((incomplete, rl), s)).

Definition error_path (p : positive) (op : MemoryOperation) (address : Expr) (bytes : Z) : M () :=
  '(incomplete, rl) ← resolve_all p address 0;
  unbound ← access_each op address bytes rl p;
  match unbound with
  | None => mret ()
  | Some u => if (incomplete : bool) then Executor.terminateStateOnSolverError fuel u else Executor.terminateStateOnError fuel u TPtr
  end.

(** The single resolution: the address, which may have become a constant, and
    whether the operation is over. *)
Definition fast_path (p : positive) (op : MemoryOperation) (address : Expr) (bytes : Z) (mo : MemoryObject) (os : positive) : M (Expr * bool) :=
  address ← (if negb (MaxSymArraySize =? 0) && (MaxSymArraySize <=? mo_size mo) then c ← toConstant p address; mret (ConstantExpr c) else mret address);
  offset ← try (getOffsetExpr mo address);
  check ← try (getBoundsCheckOffset_bytes mo offset bytes);
  e ← state_of p;
  inBounds ← ask_solver (TimingSolver.mustBeTrue fuel (constraints e) check);
  match inBounds with
  | None =>
      _ ← update_state p (fun e => set_pc (prevPC e) e);
      _ ← Executor.terminateStateOnSolverError fuel p;
      mret (address, true)
  | Some true => _ ← perform p op mo os (Done offset); mret (address, true)
  | Some false => mret (address, false)
  end.

Definition simplify_index (p : positive) (e : Expr) : M Expr :=
  if SimplifySymIndices && negb (is_constant e) then st ← state_of p; try (simplifyExpr fuel (constraints st) e) else mret e.

Definition op_width (op : MemoryOperation) : Z := match op with MemRead type _ => type | MemWrite value => getWidth value end.

Definition executeMemoryOperation (p : positive) (op : MemoryOperation) (address : Expr) : M () :=
  let bytes := getMinBytesForWidth (op_width op) in
  address ← simplify_index p address;
  op ← match op with MemWrite value => value ← simplify_index p value; mret (MemWrite value) | MemRead _ _ => mret op end;
  e ← state_of p;
  r ← ask_solver (Resolution.resolveOne fuel (constraints e) address (addressSpace e));
  '(address, r) ← match r with
    | Some r => mret (address, r)
    | None =>
        c ← toConstant p address;
        e ← state_of p;
        r ← try (AddressSpace.resolveOne c (addressSpace e));
        mret (ConstantExpr c, r)
    end;
  '(address, finished) ← match r with
    | Some (mo, os) => fast_path p op address bytes mo os
    | None => mret (address, false)
    end;
  if (finished : bool) then mret () else error_path p op address bytes.

(** ** Deallocation *)

Fixpoint resolve_each (address : Expr) (rl : list ObjectPair) (unbound : positive) : M (list (ObjectPair * positive) * option positive) :=
  match rl with
  | [] => mret ([], Some unbound)
  | op :: rl =>
      base ← try (getBaseExpr op.1);
      inBounds ← try (EqExpr_create address base);
      '(bound, unbound) ← Executor.fork fuel unbound inBounds true;
      '(l, u) ← match unbound with None => mret ([], None) | Some u => resolve_each address rl u end;
      mret (match bound with Some b => (op, b) :: l | None => l end, u)
  end.

Definition resolveExact (p : positive) (address : Expr) : M (list (ObjectPair * positive)) :=
  '(_, rl) ← resolve_all p address 0;
  '(results, unbound) ← resolve_each address rl p;
  _ ← match unbound with Some u => Executor.terminateStateOnError fuel u TPtr | None => mret () end;
  mret results.

Definition unbind (p : positive) (mo : MemoryObject) : M () :=
  e ← state_of p;
  a ← try (AddressSpace.unbindObject mo (addressSpace e));
  put_state p (set_addressSpace a e).

(** The result of the call, if there is a register for it. *)
Definition bind_pointer (target : option Z) (p : positive) (value : Z) : M () :=
  match target with
  | Some t => bindLocal t p (ConstantExpr (ConstantExpr_alloc value getPointerWidth))
  | None => mret ()
  end.

Fixpoint free_each (target : option Z) (rl : list (ObjectPair * positive)) : M () :=
  match rl with
  | [] => mret ()
  | ((mo, _), p) :: rl =>
      _ ← (if isLocal mo then Executor.terminateStateOnError fuel p TFree
           else if isGlobal mo then Executor.terminateStateOnError fuel p TFree
           else _ ← unbind p mo; bind_pointer target p 0);
      free_each target rl
  end.

Definition executeFree (p : positive) (address : Expr) (target : option Z) : M () :=
  z ← try (createIsZero address);
  '(zero, nonzero) ← Executor.fork fuel p z true;
  _ ← match zero with Some q => bind_pointer target q 0 | None => mret () end;
  match nonzero with
  | Some q => rl ← resolveExact q address; free_each target rl
  | None => mret ()
  end.

(** ** Allocation *)

(** [getAllocationAlignment]: 8 for calls, types without a size, and alignments
    that are not powers of two. *)
Definition getAllocationAlignment (site : positive) : outcome Z :=
  let known declared preferred :=
    let a := if declared =? 0 then default 8 preferred else declared in
    Done (if bits64_isPowerOfTwo a then a else 8) in
  match site_of site with
  | Some (GlobalSite declared preferred) | Some (AllocaSite declared preferred) => known declared preferred
  | Some CallSite => Done 8
  | None => Undefined
  end.

Definition new_object_state (mo : MemoryObject) (array : option positive) (id : Z) : outcome (ObjectState * Z) :=
  match array with
  | Some a => o ← ObjectState_new_symbolic mo a; Done (o, id)
  | None => Done (ObjectState_new mo id)
  end.

Definition bindObjectInState (p : positive) (mo : MemoryObject) (isLocal : bool) (array : option positive) : M positive :=
  e ← state_of p;
  '(st, id) ← ask (fun x => (store x, arrays x));
  '(o, id) ← try (new_object_state mo array id);
  let os := fresh (dom st) in
  '(a, st) ← try (AddressSpace.bindObject mo os (addressSpace e) (<[os := o]> st));
  _ ← tell (set_store st id);
  let e := set_addressSpace a e in
  e ← (if isLocal then
         match stack e with
         | [] => try Undefined
         | sf :: frames => mret (set_stack (MkFrame (caller sf) (allocas sf ++ [mo]) (locals sf) :: frames) e)
         end
       else mret e);
  _ ← put_state p e;
  mret os.

Definition update_object (os : positive) (f : ObjectState -> Z -> outcome (ObjectState * Z)) : M () :=
  fun x =>
    o ← deref (store x !! os);
    '(o, id) ← f o (arrays x);
    Done (tt, set_store (<[os := o]> (store x)) id x).

(** [os->write(i, reallocFrom->read8(i))], for [n] bytes from [i] on. *)
Fixpoint copy_bytes (os from : positive) (n : nat) (i : Z) : M () :=
  match n with
  | O => mret ()
  | Datatypes.S n =>
      b ← (fun x => o ← deref (store x !! from); '(b, o, id) ← read8 o (arrays x) i; Done (b, set_store (<[from := o]> (store x)) id x));
      _ ← update_object os (fun o id => o ← write_at i b o; Done (o, id));
      copy_bytes os from n (i + 1)
  end.

(** An allocation of a constant size. *)
Definition alloc_constant (p : positive) (CE : APInt) (isLocal : bool) (target : Z) (zeroMemory : bool) (reallocFrom : option positive) (alignment : Z) : M () :=
  e ← state_of p;
  alignment ← (if alignment =? 0 then try (getAllocationAlignment (prevPC e)) else mret alignment);
  size ← try (ConstantExpr_getZExtValue CE 64);
  m ← ask mm;
  let '(mo, m) := MemoryManager.allocate size isLocal false (prevPC e) alignment m in
  _ ← tell (set_mm m);
  match mo with
  | None => bindLocal target p (ConstantExpr (ConstantExpr_alloc 0 getPointerWidth))
  | Some mo =>
      os ← bindObjectInState p mo isLocal None;
      _ ← update_object os (fun o id => Done (if zeroMemory then initializeToZero o else initializeToRandom o, id));
      base ← try (getBaseExpr mo);
      _ ← bindLocal target p base;
      match reallocFrom with
      | None => mret ()
      | Some from =>
          o ← object_at from;
          n ← object_at os;
          _ ← copy_bytes os from (Z.to_nat (Z.min (os_size o) (os_size n))) 0;
          unbind p (object o)
      end
  end.

(** The loop towards a small example; each round halves it. *)
Fixpoint small_example (p : positive) (size : Expr) (n : nat) (example : APInt) : M APInt :=
  match n with
  | O => try OutOfFuel
  | Datatypes.S n =>
      if ConstantExpr_isTrue (ConstantExpr_Ugt example (ConstantExpr_alloc 128 (getBitWidth example))) then
        let tmp := ConstantExpr_LShr example (ConstantExpr_alloc 1 (getBitWidth example)) in
        e ← state_of p;
        eq ← try (EqExpr_create (ConstantExpr tmp) size);
        res ← must (TimingSolver.mayBeTrue fuel (constraints e) eq);
        if (res : bool) then small_example p size n tmp else mret example
      else mret example
  end.

(** The states whose size is not the example. *)
Definition other_sizes (p : positive) (size : Expr) (W : Z) (alloc : APInt -> M ()) (target : Z) : M () :=
  e ← state_of p;
  tmp ← must (TimingSolver.getValue fuel (constraints e) size);
  eq ← try (EqExpr_create (ConstantExpr tmp) size);
  res ← must (TimingSolver.mustBeTrue fuel (constraints e) eq);
  if (res : bool) then alloc tmp
  else
    huge ← try (UltExpr_create (ConstantExpr (ConstantExpr_alloc (2 ^ 31) W)) size);
    '(first, second) ← Executor.fork fuel p huge true;
    _ ← match first with Some q => bindLocal target q (ConstantExpr (ConstantExpr_alloc 0 getPointerWidth)) | None => mret () end;
    match second with Some q => Executor.terminateStateOnError fuel q TModel | None => mret () end.

(** The recursive calls are for constant sizes, and with the default alignment. *)
Definition executeAlloc (p : positive) (size : Expr) (isLocal : bool) (target : Z) (zeroMemory : bool) (reallocFrom : option positive) (alignment : Z) : M () :=
  size ← toUnique p size;
  match size with
  | ConstantExpr CE => alloc_constant p CE isLocal target zeroMemory reallocFrom alignment
  | _ =>
      e ← state_of p;
      example ← must (TimingSolver.getValue fuel (constraints e) size);
      let W := getBitWidth example in
      example ← small_example p size (Datatypes.S (Z.to_nat W)) example;
      eq ← try (EqExpr_create (ConstantExpr example) size);
      '(first, second) ← Executor.fork fuel p eq true;
      _ ← match second with
          | Some q => other_sizes q size W (fun c => alloc_constant q c isLocal target zeroMemory reallocFrom 0) target
          | None => mret ()
          end;
      match first with
      | Some q => alloc_constant q example isLocal target zeroMemory reallocFrom 0
      | None => mret ()
      end
  end.

End Operations.
End MemoryOperations.
