(* ===== verification/Resolutions.v ===== *)
(** What the resolution of a symbolic address finds: objects the pointer may point
    into, and all of them when it says so. *)
From stdpp Require Import base numbers list gmap.
From Stdlib Require Import ZArith Lia Sorting.Sorted.
From S2P Require Import Prelude APInt Bits Expr Semantics ConstantOps ExprCreate CreateSound OpsSound ExprWeight Visitor Solver Constraints Memory MemorySound MemoryObjects MapOfSets ImmutableTree AddressSpace TimingSolver Resolution.
Local Open Scope Z_scope.

(** ** The loops as walks over lists *)

Fixpoint iterate {R A} (f : ObjectPair -> A -> outcome (round R A)) (l : list ObjectPair) (x : A) : outcome (option R * A) :=
  match l with
  | [] => Done (None, x)
  | v :: l =>
      r ← f v x;
      match r with
      | Continue x => iterate f l x
      | Break x => Done (None, x)
      | Return r x => Done (Some r, x)
      end
  end.

Section Walks.
Context {R A : Type} (t : MemoryMap) (Ht : good_map t).
Implicit Types f : ObjectPair -> A -> outcome (round R A).

Lemma search_forward_ok f e n it i x : ImmutableTree.at_index t e (length (pairs t)) -> ImmutableTree.at_index t it i ->
  (i <= length (pairs t))%nat -> (length (pairs t) - i < n)%nat -> Resolution.search_forward n f e it x = iterate f (drop i (pairs t)) x.
Proof.
  intros He. revert it i x. induction n as [|n IH]; intros it i x Hi Hle Hn; [lia|]. cbn [Resolution.search_forward].
  rewrite (ImmutableTree.iter_eqb_ok t Ht it e i _ Hi He). case_bool_decide as E; [subst i; by rewrite drop_all|].
  rewrite (ImmutableTree.deref_iter_ok t Ht it i Hi). destruct (lookup_lt_is_Some_2 (pairs t) i) as [v Hv]; [lia|].
  rewrite Hv. cbn [mbind outcome_bind]. rewrite (drop_S _ v i Hv). cbn [iterate]. destruct (f v x) as [[y|y|r y]| | |]; try done.
  cbn [mbind outcome_bind]. destruct (ImmutableTree.next_ok t Ht it i Hi) as (it' & -> & Hi'); [lia|]. cbn [mbind outcome_bind].
  apply IH; [done|lia|lia].
Qed.

Lemma search_back_ok f b n it i x : ImmutableTree.at_index t b 0 -> ImmutableTree.at_index t it i -> (i <= length (pairs t))%nat ->
  (i < n)%nat -> Resolution.search_back n f b it x = iterate f (reverse (take i (pairs t))) x.
Proof.
  intros Hb. revert it i x. induction n as [|n IH]; intros it i x Hi Hle Hn; [lia|]. cbn [Resolution.search_back].
  rewrite (ImmutableTree.iter_eqb_ok t Ht it b i _ Hi Hb). case_bool_decide as E; [by subst i|]. destruct i as [|i]; [done|].
  destruct (ImmutableTree.prev_ok t Ht it i Hi) as (it' & -> & Hi'). cbn [mbind outcome_bind].
  rewrite (ImmutableTree.deref_iter_ok t Ht it' i Hi'). destruct (lookup_lt_is_Some_2 (pairs t) i) as [v Hv]; [lia|].
  rewrite Hv. cbn [mbind outcome_bind]. rewrite (take_S_r _ _ v Hv), reverse_app. cbn [reverse rev_append app iterate].
  change (reverse [v] ++ reverse (take i (pairs t))) with (v :: reverse (take i (pairs t))). cbn [iterate].
  destruct (f v x) as [[y|y|r y]| | |]; try done. cbn [mbind outcome_bind]. apply IH; [done|lia|lia].
Qed.

End Walks.

(** The objects below the place where the search starts, nearest first, and the
    objects above. *)
Definition objects_back (example : Z) (t : MemoryMap) : list ObjectPair := reverse (take (length (ImmutableTree.upto example (pairs t))) (pairs t)).
Definition objects_forth (example : Z) (t : MemoryMap) : list ObjectPair := drop (length (ImmutableTree.upto example (pairs t))) (pairs t).

Lemma search_walks {R A} example a (back forth : ObjectPair -> A -> outcome (round R A)) x : good_map (objects a) ->
  Resolution.search example a back forth x =
    (r ← iterate back (objects_back example (objects a)) x;
     match r : option R * A with
     | (Some r, x) => Done (Some r, x)
     | (None, x) => iterate forth (objects_forth example (objects a)) x
     end).
Proof.
  intros Ht. unfold Resolution.search. destruct (ImmutableTree.upper_bound_ok _ Ht example) as (it & -> & Hi).
  destruct (ImmutableTree.begin_ok _ Ht) as (b & -> & Hb), (ImmutableTree.end_ok (objects a)) as (e & -> & He). cbn [mbind outcome_bind].
  assert (length (ImmutableTree.upto example (pairs (objects a))) <= length (pairs (objects a)))%nat as Hle by apply List.filter_length_le.
  rewrite (search_back_ok _ Ht back b _ it _ x Hb Hi Hle) by (rewrite ImmutableTree.size_elems; lia). fold (objects_back example (objects a)).
  destruct (iterate back (objects_back example (objects a)) x) as [[[r|] y]| | |]; try done. cbn [mbind outcome_bind].
  rewrite (search_forward_ok _ Ht forth e _ it _ y He Hi Hle); [done|rewrite ImmutableTree.size_elems; lia].
Qed.

(** [y] comes after [x] on the way back, and on the way forth. *)
Definition before (x y : ObjectPair) : Prop := address y.1 < address x.1 /\ address y.1 + mo_size y.1 <= address x.1.
Definition after (x y : ObjectPair) : Prop := address x.1 < address y.1.

Lemma ordered_sorted (l : list ObjectPair) : ImmutableTree.ordered l <-> StronglySorted after l.
Proof.
  induction l as [|x l IH]; [by split; constructor|]. rewrite ImmutableTree.ordered_cons. split.
  - intros [Ho Hx]. constructor; [by apply IH|]. eapply List.Forall_impl; [|exact Hx]. intros y. apply Z.compare_lt_iff.
  - intros H. apply StronglySorted_inv in H as [Hs Hx]. split; [by apply IH|]. eapply List.Forall_impl; [|exact Hx]. intros y. apply Z.compare_lt_iff.
Qed.

Lemma StronglySorted_snoc {A} (R : A -> A -> Prop) l x : StronglySorted R l -> Forall (fun y => R y x) l -> StronglySorted R (l ++ [x]).
Proof.
  induction l as [|y l IH]; cbn; intros Hs Hf; [by repeat constructor|]. apply StronglySorted_inv in Hs as [Hs Hy].
  apply Forall_cons in Hf as [Hyx Hf]. constructor; [auto|]. apply Forall_app. split; [done|by constructor].
Qed.

Lemma StronglySorted_reverse {A} (R : A -> A -> Prop) l : StronglySorted R l -> StronglySorted (fun x y => R y x) (reverse l).
Proof.
  induction l as [|x l IH]; [constructor|]. intros [Hs Hx]%StronglySorted_inv. rewrite reverse_cons. apply StronglySorted_snoc; [auto|].
  by apply Forall_reverse.
Qed.

Lemma StronglySorted_take {A} (R : A -> A -> Prop) n l : StronglySorted R l -> StronglySorted R (take n l).
Proof.
  revert n. induction l as [|x l IH]; intros [|n] Hs; cbn; try constructor; apply StronglySorted_inv in Hs as [Hs Hx]; [auto|by apply Forall_take].
Qed.

Lemma StronglySorted_drop {A} (R : A -> A -> Prop) n l : StronglySorted R l -> StronglySorted R (drop n l).
Proof. revert n. induction l as [|x l IH]; intros [|n] Hs; cbn; try done. apply StronglySorted_inv in Hs as [Hs _]. auto. Qed.

Lemma StronglySorted_impl_in {A} (R R' : A -> A -> Prop) l : StronglySorted R l -> (forall x y, x ∈ l -> y ∈ l -> R x y -> R' x y) -> StronglySorted R' l.
Proof.
  induction l as [|x l IH]; [constructor|]. intros [Hs Hx]%StronglySorted_inv H. constructor.
  - apply IH; [done|]. intros y z Hy Hz. apply H; by right.
  - rewrite Forall_forall in *. intros y Hy. apply H; [by left|by right|auto].
Qed.

Section Layout.
Context (t : MemoryMap) (Ht : layout_ok t).

Lemma objects_split example x : x ∈ pairs t <-> x ∈ objects_back example t \/ x ∈ objects_forth example t.
Proof.
  unfold objects_back, objects_forth. rewrite elem_of_reverse, <- elem_of_app, firstn_skipn. done.
Qed.

Lemma back_sorted example : StronglySorted before (objects_back example t).
Proof.
  pose proof Ht as [[_ Ho] Hr Hd]. apply ordered_sorted in Ho.
  eapply (StronglySorted_impl_in (fun x y => after y x)); [by apply StronglySorted_reverse, StronglySorted_take|].
  intros x y Hx Hy Hxy. split; [done|]. apply Hd; [by apply (objects_split example); left|by apply (objects_split example); left|done].
Qed.

Lemma forth_sorted example : StronglySorted after (objects_forth example t).
Proof. pose proof Ht as [[_ Ho] _ _]. by apply StronglySorted_drop, ordered_sorted. Qed.

(** A pointer is inside one object at most. *)
Lemma points_into_unique x y v : x ∈ pairs t -> y ∈ pairs t -> points_into x.1 v -> points_into y.1 v -> x = y.
Proof.
  intros Hx Hy Px Py. pose proof Ht as [Hg Hr Hd]. unfold points_into in *.
  assert (address x.1 = address y.1) as E.
  { destruct (Z.lt_trichotomy (address x.1) (address y.1)) as [H|[H|H]]; [|done|].
    - pose proof (Hd x y Hx Hy H). lia.
    - pose proof (Hd y x Hy Hx H). lia. }
  pose proof (lookup_pairs t x Hg Hx) as E1. pose proof (lookup_pairs t y Hg Hy) as E2. congruence.
Qed.

End Layout.

(** ** The questions *)

Section Questions.
Context {AP : APIntOps} {APL : APIntLaws} {AH : ArrayHeap} {OP : ExprOptions} {VO : VisitorOptions} {TO : TimingOptions} {TC : TargetContext}.
Context {S : Type} {ops : SolverImpl S} {sol : SoundSolver S}.
Context (default_opt : ConstArrayOpt = false).
Context (cs : ConstraintSet) (ρ0 : env) (Hcs : Forall boolean cs) (Hρ0 : sat ρ0 cs).
Context (p : Expr) (Hp : asked ρ0 p) (Hwp : getWidth p = getPointerWidth).

(** On no run of the path does the pointer point into the object. *)
Definition never (x : ObjectPair) : Prop := forall ρ, sat ρ cs -> ~ points_into x.1 (eval ρ p).

Lemma base_asked mo : object_fits mo -> exists b, getBaseExpr mo = Done (ConstantExpr b) /\ asked ρ0 (ConstantExpr b) /\
  getBitWidth b = getPointerWidth /\ uval b = address mo.
Proof.
  intros [Hw Ha Hs He Hb]. unfold getBaseExpr. rewrite pointer_constant by done. cbn [mbind outcome_bind]. eexists. split_and!; [done| |done|done].
  split; [by apply constant_wf; lia|apply const_div_safe].
Qed.

Lemma bounds_asked mo : object_fits mo -> exists e, getBoundsCheckPointer mo p = Done e /\ asked ρ0 e /\ getWidth e = Bool /\
  forall ρ, eval ρ e = Z.b2z (bool_decide (points_into mo (eval ρ p))).
Proof.
  intros Hf. destruct Hp as [Hwf Hd]. destruct (getBoundsCheckPointer_ok default_opt mo p Hf Hwf Hwp) as (e & E & He & Hw & Hv).
  exists e. split_and!; try done. split; [done|].
  unfold getBoundsCheckPointer, getOffsetExpr, getBoundsCheckOffset, getSizeExpr in E. destruct (base_asked mo Hf) as (b & Eb & [_ Hb] & _).
  rewrite Eb in E. cbn [mbind outcome_bind] in E. destruct (SubExpr_create p (ConstantExpr b)) as [o| | |] eqn:Eo; [|done..].
  cbn [mbind outcome_bind] in E. assert (div_safe ρ0 o) as Ho by (apply (create_div_safe default_opt ρ0 Sub p (ConstantExpr b) o); [done|exact Hd|exact Hb|exact Eo]).
  destruct (mo_size mo =? 0); [eapply (create_div_safe default_opt ρ0 EqK o _ e); [done|exact Ho|apply const_div_safe|exact E]|].
  destruct (ConstantExpr_create (mo_size mo) getPointerWidth) as [z| | |]; [|done..]. cbn [mbind outcome_bind] in E.
  eapply (create_div_safe default_opt ρ0 Ult o _ e); [done|exact Ho|apply const_div_safe|exact E].
Qed.

Lemma may_point_answers mo : object_fits mo ->
  answers (fun fuel => Resolution.may_point fuel cs mo p) (fun b => b = false <-> forall ρ, sat ρ cs -> ~ points_into mo (eval ρ p)).
Proof.
  intros Hf. destruct (bounds_asked mo Hf) as (e & E & He & Hw & Hv). unfold Resolution.may_point. rewrite E. cbn [mbind outcome_bind].
  eapply answers_impl; [by apply (mayBeTrue_answers default_opt cs ρ0)|]. intros b Hb. cbn beta in Hb. rewrite Hb. unfold valid_not. cbn.
  split; intros H ρ Hρ; specialize (H ρ Hρ); rewrite Hv in *; case_bool_decide; done.
Qed.

Lemma must_be_above_answers mo : object_fits mo ->
  answers (fun fuel => Resolution.must_be_above fuel cs mo p) (fun b => b = true <-> forall ρ, sat ρ cs -> address mo <= eval ρ p).
Proof.
  intros Hf. destruct (base_asked mo Hf) as (b & Eb & [Hwb Hb] & Hw & Hu). destruct Hp as [Hwf Hd]. unfold Resolution.must_be_above. rewrite Eb.
  cbn [mbind outcome_bind]. destruct (BinaryExpr_create_ok default_opt Uge p (ConstantExpr b) Hwf Hwb) as (e & E & He & Hwe & Hv); [cbn; congruence|done|].
  cbn [BinaryExpr_create] in E. rewrite E. cbn [mbind outcome_bind]. eapply answers_impl; [apply (mustBeTrue_decides default_opt cs ρ0 Hcs Hρ0 e); [|done]|].
  { split; [done|]. apply (create_div_safe default_opt ρ0 Uge p (ConstantExpr b) e); [done|exact Hd|exact Hb|exact E]. }
  intros v Hvv. cbn beta in Hvv. rewrite Hvv. unfold valid. cbn. split; intros H ρ Hρ; specialize (H ρ Hρ); rewrite Hv in *; cbn in *; rewrite Hu in *;
    destruct (Z.leb_spec (address mo) (eval ρ p)); cbn in *; try done; lia.
Qed.

Lemma must_be_below_answers mo : object_fits mo ->
  answers (fun fuel => Resolution.must_be_below fuel cs mo p) (fun b => b = true <-> forall ρ, sat ρ cs -> eval ρ p < address mo).
Proof.
  intros Hf. destruct (base_asked mo Hf) as (b & Eb & [Hwb Hb] & Hw & Hu). destruct Hp as [Hwf Hd]. unfold Resolution.must_be_below. rewrite Eb.
  cbn [mbind outcome_bind]. destruct (BinaryExpr_create_ok default_opt Ult p (ConstantExpr b) Hwf Hwb) as (e & E & He & Hwe & Hv); [cbn; congruence|done|].
  cbn [BinaryExpr_create] in E. rewrite E. cbn [mbind outcome_bind]. eapply answers_impl; [apply (mustBeTrue_decides default_opt cs ρ0 Hcs Hρ0 e); [|done]|].
  { split; [done|]. apply (create_div_safe default_opt ρ0 Ult p (ConstantExpr b) e); [done|exact Hd|exact Hb|exact E]. }
  intros v Hvv. cbn beta in Hvv. rewrite Hvv. unfold valid. cbn. split; intros H ρ Hρ; specialize (H ρ Hρ); rewrite Hv in *; cbn in *; rewrite Hu in *;
    destruct (Z.ltb_spec (eval ρ p) (address mo)); cbn in *; try done; lia.
Qed.

Lemma must_point_answers mo : object_fits mo ->
  answers (fun fuel s => e ← getBoundsCheckPointer mo p; TimingSolver.mustBeTrue fuel cs e s)
    (fun b => b = true <-> forall ρ, sat ρ cs -> points_into mo (eval ρ p)).
Proof.
  intros Hf. destruct (bounds_asked mo Hf) as (e & E & He & Hw & Hv). rewrite E. cbn [mbind outcome_bind].
  eapply answers_impl; [by apply (mustBeTrue_decides default_opt cs ρ0)|]. intros b Hb. cbn beta in Hb. rewrite Hb. unfold valid. cbn.
  split; intros H ρ Hρ; specialize (H ρ Hρ); rewrite Hv in *; case_bool_decide; done.
Qed.

(** The three questions about an object, and the first one asked for certain. *)
Record questions_ok (fuel : nat) (x : ObjectPair) : Prop := MkQuestions {
  q_may : truthful (Resolution.may_point fuel cs x.1 p) (fun b => b = false <-> never x);
  q_above : truthful (Resolution.must_be_above fuel cs x.1 p) (fun b => b = true <-> forall ρ, sat ρ cs -> address x.1 <= eval ρ p);
  q_below : truthful (Resolution.must_be_below fuel cs x.1 p) (fun b => b = true <-> forall ρ, sat ρ cs -> eval ρ p < address x.1);
  q_must : truthful (fun s => e ← getBoundsCheckPointer x.1 p; TimingSolver.mustBeTrue fuel cs e s)
    (fun b => b = true <-> forall ρ, sat ρ cs -> points_into x.1 (eval ρ p))
}.

Lemma questions_answered (l : list ObjectPair) : (forall x, x ∈ l -> object_fits x.1) ->
  exists n, forall fuel, (n <= fuel)%nat -> forall x, x ∈ l -> questions_ok fuel x.
Proof.
  intros Hl.
  destruct (answers_all (fun x fuel => Resolution.may_point fuel cs x.1 p) (fun x b => b = false <-> never x) l) as [n1 H1];
    [intros x Hx; by apply may_point_answers, Hl|].
  destruct (answers_all (fun x fuel => Resolution.must_be_above fuel cs x.1 p) (fun x b => b = true <-> forall ρ, sat ρ cs -> address x.1 <= eval ρ p) l) as [n2 H2];
    [intros x Hx; by apply must_be_above_answers, Hl|].
  destruct (answers_all (fun x fuel => Resolution.must_be_below fuel cs x.1 p) (fun x b => b = true <-> forall ρ, sat ρ cs -> eval ρ p < address x.1) l) as [n3 H3];
    [intros x Hx; by apply must_be_below_answers, Hl|].
  destruct (answers_all (fun x fuel s => e ← getBoundsCheckPointer x.1 p; TimingSolver.mustBeTrue fuel cs e s)
    (fun x b => b = true <-> forall ρ, sat ρ cs -> points_into x.1 (eval ρ p)) l) as [n4 H4];
    [intros x Hx; by apply must_point_answers, Hl|].
  exists (n1 + n2 + n3 + n4)%nat. intros fuel Hf x Hx. split; [apply H1|apply H2|apply H3|apply H4]; try done; lia.
Qed.

End Questions.

(** ** What is found *)

Section Found.
Context {AP : APIntOps} {APL : APIntLaws} {AH : ArrayHeap} {OP : ExprOptions} {VO : VisitorOptions} {TO : TimingOptions} {TC : TargetContext}.
Context {S : Type} {ops : SolverImpl S} {sol : SoundSolver S} {clock : Clock S}.
Context (cs : ConstraintSet) (p : Expr).

Abbreviation never := (never cs p).
Abbreviation questions_ok := (questions_ok cs p).

(** Past an object below which the pointer never is, and one above. *)
Lemma stop_back x y : (forall ρ, sat ρ cs -> address x.1 <= eval ρ p) -> before x y -> never y.
Proof. intros H [H1 H2] ρ Hρ Hin. specialize (H ρ Hρ). unfold points_into in Hin. lia. Qed.

Lemma stop_forth x y : 0 <= mo_size y.1 -> (forall ρ, sat ρ cs -> eval ρ p < address x.1) -> after x y \/ x = y -> never y.
Proof. intros Hz H Hxy ρ Hρ Hin. specialize (H ρ Hρ). unfold points_into, after in *. destruct Hxy as [Hxy| ->]; lia. Qed.

(** How a loop of [resolveOne] ends. *)
Definition one_found (l : list ObjectPair) (r : option (option ObjectPair)) : Prop :=
  match r with
  | Some (Some x) => x ∈ l /\ ~ never x
  | Some None => True
  | None => forall x, x ∈ l -> never x
  end.

Lemma one_found_cons x l r : never x -> one_found l r -> one_found (x :: l) r.
Proof.
  intros Hx. destruct r as [[y|]|]; cbn; [|done|].
  - intros [Hy Hn]. split; [by right|done].
  - intros H y [-> |Hy]%elem_of_cons; auto.
Qed.

Ltac ask H s Hs := 
  let b := fresh "b" in let s' := fresh "s" in let E := fresh "E" in let Hs' := fresh "Hs" in let Ht := fresh "Ht" in let Hb := fresh "Hb" in
  destruct (H s Hs) as (b & s' & E & Hs' & Ht & Hb); rewrite E; cbn [mbind outcome_bind].

Definition no_answer : Prop := TotalSolver S -> False.

Lemma one_back_step fuel x s : questions_ok fuel x -> s_inv s -> exists rd s', Resolution.one_back fuel cs p x s = Done rd /\ s_inv s' /\
  ((rd = Return (Some x) s' /\ ~ never x) \/ (rd = Return None s' /\ no_answer) \/
   (rd = Break s' /\ never x /\ forall ρ, sat ρ cs -> address x.1 <= eval ρ p) \/ (rd = Continue s' /\ never x)).
Proof.
  intros [Qm Qa _ _] Hs. unfold Resolution.one_back. ask Qm s Hs. destruct b as [[]|]; cbn [mbind outcome_bind].
  - eexists _, s0. split_and!; [done..|]. left. split; [done|]. intros Hn. by apply (Hb true eq_refl) in Hn.
  - assert (never x) as Hnx by (by apply (Hb false eq_refl)). ask Qa s0 Hs0. destruct b as [[]|]; cbn [mbind outcome_bind]; eexists _, s1;
      (split_and!; [done..|]).
    + right; right; left. split_and!; [done..|]. by apply (Hb0 true eq_refl).
    + by right; right; right.
    + right; left. split; [done|]. intros T. by apply (Ht0 T).
  - eexists _, s0. split_and!; [done..|]. right; left. split; [done|]. intros T. by apply (Ht T).
Qed.

Lemma one_back_ok fuel l s : StronglySorted before l -> (forall x, x ∈ l -> questions_ok fuel x) -> s_inv s ->
  exists r s', iterate (Resolution.one_back fuel cs p) l s = Done (r, s') /\ s_inv s' /\ (TotalSolver S -> r <> Some None) /\ one_found l r.
Proof.
  revert s. induction l as [|x l IH]; intros s Hl Hq Hs; cbn [iterate].
  { exists None, s. split_and!; try done. intros x Hx. by apply elem_of_nil in Hx. }
  apply StronglySorted_inv in Hl as [Hl Hx]. rewrite Forall_forall in Hx.
  destruct (one_back_step fuel x s) as (rd & s1 & -> & Hs1 & Hcase); [apply Hq; by left|done|]. cbn [mbind outcome_bind].
  destruct Hcase as [[-> Hn]|[[-> Hn]|[(-> & Hn & Ha)|[-> Hn]]]].
  - exists (Some (Some x)), s1. split_and!; [done..|]. split; [by left|done].
  - exists (Some None), s1. split_and!; [done..|intros T; by destruct (Hn T)|done].
  - exists None, s1. split_and!; [done..|]. intros y [-> |Hy]%elem_of_cons; [done|]. eapply stop_back; [exact Ha|auto].
  - destruct (IH s1) as (r & s' & -> & Hs' & Ht' & Hr); [done|intros y Hy; apply Hq; by right|done|].
    exists r, s'. split_and!; [done..|by apply one_found_cons].
Qed.

Lemma one_forth_step fuel x s : questions_ok fuel x -> s_inv s -> exists rd s', Resolution.one_forth fuel cs p x s = Done rd /\ s_inv s' /\
  ((rd = Return (Some x) s' /\ ~ never x) \/ (rd = Return None s' /\ no_answer) \/
   (rd = Break s' /\ forall ρ, sat ρ cs -> eval ρ p < address x.1) \/ (rd = Continue s' /\ never x)).
Proof.
  intros [Qm _ Qb _] Hs. unfold Resolution.one_forth. ask Qb s Hs. destruct b as [[]|]; cbn [mbind outcome_bind].
  - eexists _, s0. split_and!; [done..|]. right; right; left. split; [done|]. by apply (Hb true eq_refl).
  - ask Qm s0 Hs0. destruct b as [[]|]; cbn [mbind outcome_bind]; eexists _, s1; (split_and!; [done..|]).
    + left. split; [done|]. intros Hn. by apply (Hb0 true eq_refl) in Hn.
    + right; right; right. split; [done|]. by apply (Hb0 false eq_refl).
    + right; left. split; [done|]. intros T. by apply (Ht0 T).
  - eexists _, s0. split_and!; [done..|]. right; left. split; [done|]. intros T. by apply (Ht T).
Qed.

Lemma one_forth_ok fuel l s : StronglySorted after l -> (forall x, x ∈ l -> 0 <= mo_size x.1) -> (forall x, x ∈ l -> questions_ok fuel x) -> s_inv s ->
  exists r s', iterate (Resolution.one_forth fuel cs p) l s = Done (r, s') /\ s_inv s' /\ (TotalSolver S -> r <> Some None) /\ one_found l r.
Proof.
  revert s. induction l as [|x l IH]; intros s Hl Hz Hq Hs; cbn [iterate].
  { exists None, s. split_and!; try done. intros x Hx. by apply elem_of_nil in Hx. }
  apply StronglySorted_inv in Hl as [Hl Hx]. rewrite Forall_forall in Hx.
  destruct (one_forth_step fuel x s) as (rd & s1 & -> & Hs1 & Hcase); [apply Hq; by left|done|]. cbn [mbind outcome_bind].
  destruct Hcase as [[-> Hn]|[[-> Hn]|[[-> Ha]|[-> Hn]]]].
  - exists (Some (Some x)), s1. split_and!; [done..|]. split; [by left|done].
  - exists (Some None), s1. split_and!; [done..|intros T; by destruct (Hn T)|done].
  - exists None, s1. split_and!; [done..|]. intros y Hy. apply (stop_forth x y); [by apply Hz|exact Ha|].
    apply elem_of_cons in Hy as [-> |Hy]; auto.
  - destruct (IH s1) as (r & s' & -> & Hs' & Ht' & Hr); [done|intros y Hy; apply Hz; by right|intros y Hy; apply Hq; by right|done|].
    exists r, s'. split_and!; [done..|by apply one_found_cons].
Qed.

(** How a loop of [resolve] ends, when it started with the list [rl]. *)
Record all_found (maxResolutions : Z) (l rl rl' found : list ObjectPair) (r : option bool) : Prop := MkAllFound {
  af_list : rl' = rl ++ found;
  af_sublist : found `sublist_of` l;
  af_may : Forall (fun x => ~ never x) found;
  af_through : r = None -> forall x, x ∈ l -> x ∈ found \/ never x;
  af_certain : r = Some false -> exists x, x ∈ l /\ rl' = [x] /\ forall ρ, sat ρ cs -> points_into x.1 (eval ρ p);
  af_incomplete : r = Some true -> TotalSolver S -> (forall s : S, past_timeout s = false) ->
    2 <= maxResolutions /\ Z.of_nat (length rl') = maxResolutions;
  af_length : 2 <= maxResolutions -> Z.of_nat (length rl) < maxResolutions ->
    Z.of_nat (length rl') <= maxResolutions /\ (r = None -> Z.of_nat (length rl') < maxResolutions)
}.

Arguments all_found : clear implicits.

(** What [checkPointerInObject] makes of an object. *)
Inductive checked (maxResolutions : Z) (x : ObjectPair) (rl : list ObjectPair) : Z -> list ObjectPair -> Prop :=
| checked_never : never x -> checked maxResolutions x rl 2 rl
| checked_may : ~ never x -> (2 <= maxResolutions -> Z.of_nat (length rl) < maxResolutions -> Z.of_nat (length (rl ++ [x])) < maxResolutions) ->
    checked maxResolutions x rl 2 (rl ++ [x])
| checked_certain : ~ never x -> rl = [] -> (forall ρ, sat ρ cs -> points_into x.1 (eval ρ p)) -> checked maxResolutions x rl 0 (rl ++ [x])
| checked_full : ~ never x -> 2 <= maxResolutions -> Z.of_nat (length (rl ++ [x])) = maxResolutions -> checked maxResolutions x rl 1 (rl ++ [x])
| checked_unsure : ~ never x -> rl = [] -> no_answer -> checked maxResolutions x rl 1 (rl ++ [x])
| checked_failed : no_answer -> checked maxResolutions x rl 1 rl.

Lemma check_ok fuel x rl mx s : questions_ok fuel x -> s_inv s -> exists c rl' s',
  Resolution.checkPointerInObject fuel cs p x rl mx s = Done (c, rl', s') /\ s_inv s' /\ checked mx x rl c rl'.
Proof.
  intros [Qm _ _ Qc] Hs. unfold Resolution.checkPointerInObject. unfold Resolution.may_point in Qm.
  destruct (getBoundsCheckPointer x.1 p) as [e| | |]; cbn [mbind outcome_bind] in *; [|by destruct (Qm s Hs) as (? & ? & ? & _)..].
  ask Qm s Hs. destruct b as [[]|]; cbn [mbind outcome_bind].
  - assert (~ never x) as Hn by (intros Hn; by apply (Hb true eq_refl) in Hn). rewrite length_app. cbn [length].
    destruct (Z.eqb_spec (Z.of_nat (length rl + 1)) 1) as [E1|E1].
    + assert (rl = []) as -> by (destruct rl; [done|cbn in E1; lia]). ask Qc s0 Hs0. eexists _, _, s1. split_and!; [done|done|].
      destruct b as [[]|].
      * apply checked_certain; [done|done|]. by apply (Hb0 true eq_refl).
      * apply checked_may; [done|]. cbn. lia.
      * apply checked_unsure; [done|done|]. intros T. by apply (Ht0 T).
    + eexists _, _, s0. split_and!; [done|done|]. destruct (Z.eqb_spec (Z.of_nat (length rl + 1)) mx) as [E2|E2].
      * apply checked_full; [done|lia|]. rewrite length_app. cbn. lia.
      * apply checked_may; [done|]. rewrite length_app. cbn. lia.
  - eexists _, rl, s0. split_and!; [done|done|]. apply checked_never. by apply (Hb false eq_refl).
  - eexists _, rl, s0. split_and!; [done|done|]. apply checked_failed. intros T. by apply (Ht T).
Qed.

(** A round that goes on, and one that ends the loop. *)
Lemma all_found_continue mx x l rl rl1 rl' found r : checked mx x rl 2 rl1 -> all_found mx l rl1 rl' found r ->
  exists found', all_found mx (x :: l) rl rl' found' r.
Proof.
  intros Hc [L B M T C I N]. inversion Hc as [Hn|Hn Hlen| | | |]; subst rl1.
  - exists found. split; try done.
    + by constructor.
    + intros Hr y [-> |Hy]%elem_of_cons; [by right|auto].
    + intros Hr. destruct (C Hr) as (y & Hy & ?). exists y. split; [by right|done].
  - exists (x :: found). split; try done.
    + by rewrite L, <- app_assoc.
    + by constructor.
    + by constructor.
    + intros Hr y [-> |Hy]%elem_of_cons; [left; by left|]. destruct (T Hr y Hy); [left; by right|by right].
    + intros Hr. destruct (C Hr) as (y & Hy & ?). exists y. split; [by right|done].
    + intros Hm Hlt. apply N; auto.
Qed.

(** Nothing new is found. *)
Lemma all_found_nil mx l rl r : (r = None -> forall y, y ∈ l -> never y) -> r <> Some false ->
  (r = Some true -> TotalSolver S -> (forall s : S, past_timeout s = false) -> False) -> all_found mx l rl rl [] r.
Proof.
  intros Hn Hf Ht. split.
  - by rewrite app_nil_r.
  - apply sublist_nil_l.
  - constructor.
  - intros Hr y Hy. right. auto.
  - done.
  - intros Hr T Hc. by destruct (Ht Hr T Hc).
  - intros _ Hlt. split; [lia|done].
Qed.

Lemma all_found_break mx x l rl rl1 : checked mx x rl 2 rl1 -> (forall y, y ∈ l -> never y) ->
  exists found, all_found mx (x :: l) rl rl1 found None.
Proof. intros Hc Hl. apply (all_found_continue mx x l rl rl1 rl1 [] None); [done|]. by apply all_found_nil. Qed.

Lemma all_found_none mx l rl : (forall y, y ∈ l -> never y) -> exists found, all_found mx l rl rl found None.
Proof. intros Hl. exists []. by apply all_found_nil. Qed.

(** A failed query or the timeout: the list may miss objects. *)
Lemma all_found_failed mx l rl : (TotalSolver S -> (forall s : S, past_timeout s = false) -> False) -> exists found, all_found mx l rl rl found (Some true).
Proof. intros Hf. exists []. by apply all_found_nil. Qed.

(** One object is found, and the loop ends. *)
Lemma all_found_one mx x l rl b : ~ never x ->
  (b = false -> rl = [] /\ forall ρ, sat ρ cs -> points_into x.1 (eval ρ p)) ->
  (b = true -> TotalSolver S -> 2 <= mx /\ Z.of_nat (length (rl ++ [x])) = mx) -> all_found mx (x :: l) rl (rl ++ [x]) [x] (Some b).
Proof.
  intros Hn Hf Ht. split.
  - done.
  - constructor. apply sublist_nil_l.
  - by repeat constructor.
  - done.
  - intros [= ->]. destruct (Hf eq_refl) as [-> Ha]. exists x. split_and!; [by left|done..].
  - intros [= ->] T _. auto.
  - intros _ Hlt. rewrite length_app. cbn. split; [lia|done].
Qed.

Lemma all_found_return mx x l rl rl1 c : checked mx x rl c rl1 -> c <> 2 -> exists found, all_found mx (x :: l) rl rl1 found (Some (negb (c =? 0))).
Proof.
  intros Hc Hne. inversion Hc as [| |Hn E Ha|Hn Hm Hlen|Hn E Hno|Hno]; subst c; try done; subst rl1; cbn [negb Z.eqb].
  - exists [x]. by apply all_found_one.
  - exists [x]. by apply all_found_one.
  - exists [x]. apply all_found_one; [done..|]. intros _ T. by destruct (Hno T).
  - apply all_found_failed. intros T _. by apply Hno.
Qed.

Definition all_ok (f : ObjectPair -> list ObjectPair * S -> outcome (round bool (list ObjectPair * S))) (mx : Z) (l : list ObjectPair) : Prop :=
  forall rl s, s_inv s -> exists r rl' s' found, iterate f l (rl, s) = Done (r, (rl', s')) /\ s_inv s' /\ all_found mx l rl rl' found r.

Lemma all_back_ok fuel mx l : StronglySorted before l -> (forall x, x ∈ l -> questions_ok fuel x) -> all_ok (Resolution.all_back fuel cs p mx) mx l.
Proof.
  induction l as [|x l IH]; intros Hl Hq rl s Hs; cbn [iterate].
  { destruct (all_found_none mx [] rl) as [found Hf]; [intros y Hy; by apply elem_of_nil in Hy|]. by exists None, rl, s, found. }
  apply StronglySorted_inv in Hl as [Hl Hx]. rewrite Forall_forall in Hx. cbn [Resolution.all_back].
  destruct (past_timeout s) eqn:Et; cbn [mbind outcome_bind].
  { destruct (all_found_failed mx (x :: l) rl) as [found Hf]; [intros _ Hc; by rewrite Hc in Et|]. by exists (Some true), rl, s, found. }
  assert (questions_ok fuel x) as Hqx by (apply Hq; by left).
  destruct (check_ok fuel x rl mx s Hqx Hs) as (c & rl1 & s1 & -> & Hs1 & Hc). cbn [mbind outcome_bind].
  destruct (Z.eqb_spec c 2) as [-> |Hne]; cbn [negb mbind outcome_bind].
  - destruct Hqx as [_ Qa _ _]. ask Qa s1 Hs1. destruct b as [[]|]; cbn [mbind outcome_bind].
    + destruct (all_found_break mx x l rl rl1 Hc) as [found Hf]; [|by exists None, rl1, s0, found].
      intros y Hy. eapply stop_back; [by apply (Hb true eq_refl)|auto].
    + destruct (IH Hl ltac:(intros y Hy; apply Hq; by right) rl1 s0 Hs0) as (r & rl' & s' & found & -> & Hs' & Hf).
      destruct (all_found_continue mx x l rl rl1 rl' found r Hc Hf) as [found' Hf']. by exists r, rl', s', found'.
    + destruct (all_found_failed mx l rl1) as [f0 Hf0]; [intros T _; by destruct (Ht T)|].
      destruct (all_found_continue mx x l rl rl1 rl1 f0 _ Hc Hf0) as [found Hf]. by exists (Some true), rl1, s0, found.
  - destruct (all_found_return mx x l rl rl1 c Hc Hne) as [found Hf]. by exists (Some (negb (c =? 0))), rl1, s1, found.
Qed.

Lemma all_forth_ok fuel mx l : StronglySorted after l -> (forall x, x ∈ l -> 0 <= mo_size x.1) -> (forall x, x ∈ l -> questions_ok fuel x) ->
  all_ok (Resolution.all_forth fuel cs p mx) mx l.
Proof.
  induction l as [|x l IH]; intros Hl Hz Hq rl s Hs; cbn [iterate].
  { destruct (all_found_none mx [] rl) as [found Hf]; [intros y Hy; by apply elem_of_nil in Hy|]. by exists None, rl, s, found. }
  apply StronglySorted_inv in Hl as [Hl Hx]. rewrite Forall_forall in Hx. cbn [Resolution.all_forth].
  destruct (past_timeout s) eqn:Et; cbn [mbind outcome_bind].
  { destruct (all_found_failed mx (x :: l) rl) as [found Hf]; [intros _ Hc; by rewrite Hc in Et|]. by exists (Some true), rl, s, found. }
  assert (questions_ok fuel x) as Hqx by (apply Hq; by left). pose proof Hqx as [_ _ Qb _].
  ask Qb s Hs. destruct b as [[]|]; cbn [mbind outcome_bind].
  - destruct (all_found_none mx (x :: l) rl) as [found Hf]; [|by exists None, rl, s0, found].
    intros y Hy. apply (stop_forth x y); [by apply Hz|by apply (Hb true eq_refl)|]. apply elem_of_cons in Hy as [-> |Hy]; auto.
  - destruct (check_ok fuel x rl mx s0 Hqx Hs0) as (c & rl1 & s1 & -> & Hs1 & Hc). cbn [mbind outcome_bind].
    destruct (Z.eqb_spec c 2) as [-> |Hne]; cbn [negb mbind outcome_bind].
    + destruct (IH Hl ltac:(intros y Hy; apply Hz; by right) ltac:(intros y Hy; apply Hq; by right) rl1 s1 Hs1)
        as (r & rl' & s' & found & -> & Hs' & Hf).
      destruct (all_found_continue mx x l rl rl1 rl' found r Hc Hf) as [found' Hf']. by exists r, rl', s', found'.
    + destruct (all_found_return mx x l rl rl1 c Hc Hne) as [found Hf]. by exists (Some (negb (c =? 0))), rl1, s1, found.
  - destruct (all_found_failed mx (x :: l) rl) as [found Hf]; [intros T _; by destruct (Ht T)|]. by exists (Some true), rl, s0, found.
Qed.

(** The two loops, one after the other. *)
Lemma all_found_app mx l1 l2 rl rl1 rl' f1 f2 r : all_found mx l1 rl rl1 f1 None -> all_found mx l2 rl1 rl' f2 r ->
  all_found mx (l1 ++ l2) rl rl' (f1 ++ f2) r.
Proof.
  intros [L1 B1 M1 T1 _ _ N1] [L2 B2 M2 T2 C2 I2 N2]. split; try done.
  - by rewrite L2, L1, app_assoc.
  - by apply sublist_app.
  - by apply Forall_app.
  - intros Hr y [Hy|Hy]%elem_of_app; [destruct (T1 eq_refl y Hy)|destruct (T2 Hr y Hy)]; rewrite ?elem_of_app; auto.
  - intros Hr. destruct (C2 Hr) as (y & Hy & ?). exists y. split; [apply elem_of_app; by right|done].
  - intros Hm Hlt. destruct (N1 Hm Hlt) as [_ H]. by apply N2, H.
Qed.

Lemma all_found_app_l mx l1 l2 rl rl1 f1 b : all_found mx l1 rl rl1 f1 (Some b) -> all_found mx (l1 ++ l2) rl rl1 f1 (Some b).
Proof.
  intros [L1 B1 M1 T1 C1 I1 N1]. split; try done.
  - by apply sublist_inserts_r.
  - intros Hr. destruct (C1 Hr) as (y & Hy & ?). exists y. split; [apply elem_of_app; by left|done].
Qed.

End Found.

(** ** Both operations *)

Section Resolved.
Context {AP : APIntOps} {APL : APIntLaws} {AH : ArrayHeap} {OP : ExprOptions} {VO : VisitorOptions} {TO : TimingOptions} {TC : TargetContext}.
Context {S : Type} {ops : SolverImpl S} {sol : SoundSolver S} {clock : Clock S}.
Context (default_opt : ConstArrayOpt = false).

(** A pointer on a feasible path, and objects that fit into the memory of the target. *)
Record resolvable (cs : ConstraintSet) (ρ0 : env) (p : Expr) (a : AddressSpace) : Prop := MkResolvable {
  rv_path : Forall boolean cs /\ sat ρ0 cs;
  rv_pointer : asked ρ0 p /\ getWidth p = getPointerWidth;
  rv_width : 32 <= getPointerWidth <= 64;
  rv_layout : layout_ok (objects a);
  rv_fits x : x ∈ pairs (objects a) -> object_fits x.1
}.

Context (cs : ConstraintSet) (ρ0 : env) (p : Expr) (a : AddressSpace) (Hr : resolvable cs ρ0 p a).

Lemma pairs_nodup : NoDup (pairs (objects a)).
Proof.
  destruct (rv_layout _ _ _ _ Hr) as [[_ Ho] _ _]. apply (proj1 (ordered_sorted _)) in Ho. induction Ho as [|x l Hs IH Hx]; constructor; [|done].
  intros Hin. rewrite Forall_forall in Hx. specialize (Hx x Hin). unfold after in Hx. lia.
Qed.

Lemma search_nodup example : NoDup (objects_back example (objects a) ++ objects_forth example (objects a)).
Proof.
  pose proof pairs_nodup as H. rewrite <- (firstn_skipn (length (ImmutableTree.upto example (pairs (objects a)))) (pairs (objects a))) in H.
  unfold objects_back, objects_forth. by rewrite reverse_Permutation.
Qed.

(** The example that the search starts from is an address the pointer can have. *)
Lemma example_ok cex : possible cs p cex -> ConstantExpr_getZExtValue cex 64 = Done (uval cex) /\ 0 <= uval cex < 2 ^ 64 /\
  forall x, points_into x.1 (uval cex) -> ~ never cs p x.
Proof.
  intros (Hwf & Hw & ρ & Hρ & Hv). destruct (rv_pointer _ _ _ _ Hr) as [_ Hwp]. pose proof (rv_width _ _ _ _ Hr).
  assert (0 <= uval cex < 2 ^ 64) as Hb. { destruct Hwf as [_ Hu]. rewrite Hw, Hwp in Hu. pose proof (pow2_mono getPointerWidth 64). lia. }
  split_and!; try lia.
  - unfold ConstantExpr_getZExtValue. rewrite (proj2 (Z.leb_le _ _)) by lia. cbn. rewrite ap_getZExtValue_spec by lia. done.
  - intros x Hx Hn. apply (Hn ρ Hρ). by rewrite Hv.
Qed.

Lemma constant_pointer c : p = ConstantExpr c -> possible cs p c.
Proof.
  intros ->. destruct (rv_pointer _ _ _ _ Hr) as [[Hwf _] _]. split_and!; [done|done|]. exists ρ0. split; [|done]. apply (rv_path _ _ _ _ Hr).
Qed.

(** An object at a constant address. *)
Lemma constant_resolved c : p = ConstantExpr c -> exists r, AddressSpace.resolveOne c a = Done r /\
  match r with
  | Some x => x ∈ pairs (objects a) /\ forall ρ, points_into x.1 (eval ρ p)
  | None => forall x, x ∈ pairs (objects a) -> never cs p x
  end.
Proof.
  intros Hp. destruct (example_ok c (constant_pointer c Hp)) as (_ & Hb & _). destruct (rv_pointer _ _ _ _ Hr) as [_ Hwp].
  pose proof (rv_width _ _ _ _ Hr) as Hw. assert (getBitWidth c <= 64) as Hbw by (rewrite Hp in Hwp; cbn in Hwp; lia).
  destruct (resolveOne_ok c a (rv_layout _ _ _ _ Hr) Hb Hbw) as (r & E & H). exists r. split; [done|].
  rewrite Hp. destruct r as [x|]; [by destruct H|]. intros x Hx ρ _. exact (H x Hx).
Qed.

Lemma pointer_cases : (exists c, p = ConstantExpr c) \/
  forall fuel s, Resolution.resolveOne fuel cs p a s = Resolution.resolveOne_symbolic fuel cs p a s /\
    forall rl mx, Resolution.resolve fuel cs p rl mx a s = Resolution.resolve_symbolic fuel cs p rl mx a s.
Proof. destruct p; [left; by eexists|by right..]. Qed.

(** The object the example is in. *)
Lemma example_object_ok cex x : possible cs p cex -> Resolution.example_object (uval cex) a = Some x ->
  x ∈ pairs (objects a) /\ ~ never cs p x.
Proof.
  intros Hpos. destruct (example_ok cex Hpos) as (_ & Hb & Hex). pose proof (rv_layout _ _ _ _ Hr) as [Hg Hrange _]. pose proof Hg as [_ Ho].
  unfold Resolution.example_object. rewrite ImmutableTree.lookup_previous_elems by done.
  destruct (last (ImmutableTree.upto (uval cex) (pairs (objects a)))) as [y|] eqn:El; [|done].
  assert (y ∈ ImmutableTree.upto (uval cex) (pairs (objects a))) as Hy by (apply last_Some in El as [l ->]; set_solver).
  apply upto_spec in Hy as [Hy Hle]. destruct (Hrange y Hy). unfold u64. rewrite Z.mod_small by lia.
  destruct (Z.ltb_spec (uval cex - address y.1) (mo_size y.1)); [|done]. intros [= <-]. split; [done|]. apply Hex. right. lia.
Qed.

(** The fuel that every question about the pointer needs. *)
Lemma pointer_fuel : exists n, forall fuel, (n <= fuel)%nat ->
  truthful (TimingSolver.getValue fuel cs p) (possible cs p) /\ forall x, x ∈ pairs (objects a) -> questions_ok cs p fuel x.
Proof.
  destruct Hr as [[Hcs Hρ0] [Hp Hwp] Hw Hl Hf].
  destruct (questions_answered default_opt cs ρ0 Hcs Hρ0 p Hp Hwp (pairs (objects a)) Hf) as [n Hn].
  destruct (getValue_answers default_opt cs ρ0 Hcs Hρ0 p Hp) as [m Hm]. exists (n `max` m)%nat. intros fuel Hfu.
  split; [apply Hm; lia|]. intros x Hx. apply Hn; [lia|done].
Qed.

Lemma resolveOne_found : exists n, forall fuel, (n <= fuel)%nat -> forall s, s_inv s ->
  exists r s', Resolution.resolveOne fuel cs p a s = Done (r, s') /\ s_inv s' /\ (TotalSolver S -> r <> None) /\
    match r with
    | Some (Some x) => x ∈ pairs (objects a) /\ ~ never cs p x
    | Some None => forall x, x ∈ pairs (objects a) -> never cs p x
    | None => True
    end.
Proof.
  destruct pointer_fuel as [n Hn]. exists n. intros fuel Hfu s Hs. destruct (Hn fuel Hfu) as [Hv Hq].
  destruct pointer_cases as [[c Hc]|Hcase].
  { destruct (constant_resolved c Hc) as (r & E & Hx). exists (Some r), s. rewrite Hc at 1. cbn [Resolution.resolveOne]. rewrite E. cbn [mbind outcome_bind].
    split_and!; [done..|]. destruct r as [x|]; [|done]. destruct Hx as [Hx Hin]. split; [done|]. intros Hno. apply (Hno ρ0); [|done]. apply (rv_path _ _ _ _ Hr). }
  destruct (Hcase fuel s) as [-> _]. unfold Resolution.resolveOne_symbolic. destruct (Hv s Hs) as (cex & s1 & -> & Hs1 & Ht & Hpos). cbn [mbind outcome_bind]. destruct cex as [cex|].
  2: { exists None, s1. split_and!; [done|done|intros T; by destruct (Ht T)|done]. }
  destruct (example_ok cex (Hpos cex eq_refl)) as (-> & Hb & Hex). cbn [mbind outcome_bind].
  pose proof (rv_layout _ _ _ _ Hr) as Hl. pose proof Hl as [Hg Hrange _].
  destruct (Resolution.example_object (uval cex) a) as [x|] eqn:Eh.
  { exists (Some (Some x)), s1. destruct (example_object_ok cex x (Hpos cex eq_refl) Eh). by split_and!. }
  rewrite search_walks by done.
  destruct (one_back_ok cs p fuel (objects_back (uval cex) (objects a)) s1) as (r & s2 & -> & Hs2 & Ht2 & Hr2);
    [by apply back_sorted|intros x Hx; apply Hq, (objects_split _ (uval cex)); by left|done|].
  cbn [mbind outcome_bind]. destruct r as [r|].
  { cbn [mbind outcome_bind]. destruct r as [x|]; [|exists None, s2; split_and!; [done|done|intros T; by destruct (Ht2 T)|done]].
    exists (Some (Some x)), s2. destruct Hr2 as [Hx ?]. split_and!; try done. apply (objects_split _ (uval cex)). by left. }
  destruct (one_forth_ok cs p fuel (objects_forth (uval cex) (objects a)) s2) as (r & s3 & -> & Hs3 & Ht3 & Hr3);
    [by apply forth_sorted|intros x Hx; apply Hrange, (objects_split _ (uval cex)); by right|intros x Hx; apply Hq, (objects_split _ (uval cex)); by right|done|].
  cbn [mbind outcome_bind]. destruct r as [[x|]|].
  - exists (Some (Some x)), s3. destruct Hr3 as [Hx ?]. split_and!; try done. apply (objects_split _ (uval cex)). by right.
  - exists None, s3. split_and!; [done|done|intros T; by destruct (Ht3 T)|done].
  - exists (Some None), s3. split_and!; [done..|]. intros x [Hx|Hx]%(objects_split _ (uval cex)); auto.
Qed.

(** A list of objects the pointer may point into, without repetition, and all of
    them unless [incomplete] is set. *)
Record resolved (maxResolutions : Z) (incomplete : bool) (rl : list ObjectPair) : Prop := MkResolved {
  rs_nodup : NoDup rl;
  rs_may x : x ∈ rl -> x ∈ pairs (objects a) /\ ~ never cs p x;
  rs_complete x : incomplete = false -> x ∈ pairs (objects a) -> x ∈ rl \/ never cs p x;
  rs_incomplete : incomplete = true -> TotalSolver S -> (forall s : S, past_timeout s = false) ->
    2 <= maxResolutions /\ Z.of_nat (length rl) = maxResolutions;
  rs_length : 2 <= maxResolutions -> Z.of_nat (length rl) <= maxResolutions
}.

Lemma all_found_resolved mx example rl found r : all_found cs p mx (objects_back example (objects a) ++ objects_forth example (objects a)) [] rl found r ->
  resolved mx (match r with Some b => b | None => false end) rl.
Proof.
  intros [L B M T C I N]. cbn in L. subst rl. pose proof (search_nodup example) as Hnd.
  assert (forall x, x ∈ found -> x ∈ pairs (objects a)) as Hsub.
  { intros x Hx. apply (objects_split _ example), elem_of_app. by eapply sublist_subseteq. }
  split.
  - by eapply sublist_NoDup.
  - intros x Hx. rewrite Forall_forall in M. auto.
  - intros x Hi Hx. destruct r as [[]|]; [done| |].
    + destruct (C eq_refl) as (y & Hy & -> & Hc). destruct (decide (x = y)) as [-> |Hne]; [left; by apply list_elem_of_singleton|].
      right. intros ρ Hρ Hin. apply Hne, (points_into_unique _ (rv_layout _ _ _ _ Hr) x y (eval ρ p)); [done|apply Hsub, list_elem_of_singleton; done|done|auto].
    + apply T; [done|]. by apply elem_of_app, (objects_split _ example).
  - intros Hi. destruct r as [[]|]; [|done..]. by apply I.
  - intros Hm. apply N; [done|cbn; lia].
Qed.

Lemma resolve_found mx : exists n, forall fuel, (n <= fuel)%nat -> forall s, s_inv s ->
  exists incomplete rl s', Resolution.resolve fuel cs p [] mx a s = Done (incomplete, rl, s') /\ s_inv s' /\ resolved mx incomplete rl.
Proof.
  destruct pointer_fuel as [n Hn]. exists n. intros fuel Hfu s Hs. destruct (Hn fuel Hfu) as [Hv Hq].
  destruct pointer_cases as [[c Hc]|Hcase].
  { destruct (constant_resolved c Hc) as (r & E & Hx). exists false, (match r with Some x => [x] | None => [] end), s. rewrite Hc at 1.
    cbn [Resolution.resolve]. rewrite E. cbn [mbind outcome_bind]. split_and!; [by destruct r|done|]. destruct r as [x|].
    - destruct Hx as [Hx Hin]. split.
      + apply NoDup_singleton.
      + intros y ->%list_elem_of_singleton. split; [done|]. intros Hno. apply (Hno ρ0); [|done]. apply (rv_path _ _ _ _ Hr).
      + intros y _ Hy. destruct (decide (y = x)) as [-> |Hne]; [left; by apply list_elem_of_singleton|]. right. intros ρ Hρ Hiny.
        by apply Hne, (points_into_unique _ (rv_layout _ _ _ _ Hr) y x (eval ρ p)).
      + done.
      + cbn. lia.
    - split; [constructor|intros y Hy; by apply elem_of_nil in Hy|by right; auto|done|cbn; lia]. }
  rewrite (proj2 (Hcase fuel s)). unfold Resolution.resolve_symbolic. destruct (Hv s Hs) as (cex & s1 & -> & Hs1 & Ht & Hpos). cbn [mbind outcome_bind]. destruct cex as [cex|].
  2: { exists true, [], s1. split_and!; [done..|]. split; [constructor|intros y Hy; by apply elem_of_nil in Hy|done|intros _ T; by destruct (Ht T)|cbn; lia]. }
  destruct (example_ok cex (Hpos cex eq_refl)) as (-> & Hb & Hex). cbn [mbind outcome_bind].
  pose proof (rv_layout _ _ _ _ Hr) as Hl. pose proof Hl as [Hg Hrange _]. rewrite search_walks by done.
  destruct (all_back_ok cs p fuel mx (objects_back (uval cex) (objects a))) with (rl := @nil ObjectPair) (s := s1) as (r & rl1 & s2 & f1 & -> & Hs2 & Hf1);
    [by apply back_sorted|intros x Hx; apply Hq, (objects_split _ (uval cex)); by left|done|].
  cbn [mbind outcome_bind]. destruct r as [b|].
  { cbn [mbind outcome_bind]. exists b, rl1, s2. split_and!; [done..|]. eapply (all_found_resolved mx (uval cex) rl1 f1 (Some b)). by apply all_found_app_l. }
  destruct (all_forth_ok cs p fuel mx (objects_forth (uval cex) (objects a))) with (rl := rl1) (s := s2) as (r & rl2 & s3 & f2 & -> & Hs3 & Hf2);
    [by apply forth_sorted|intros x Hx; apply Hrange, (objects_split _ (uval cex)); by right|intros x Hx; apply Hq, (objects_split _ (uval cex)); by right|done|].
  cbn [mbind outcome_bind]. exists (match r with Some b => b | None => false end), rl2, s3. split_and!; [done..|].
  eapply (all_found_resolved mx (uval cex) rl2 (f1 ++ f2) r). by eapply all_found_app.
Qed.

(** ** The same answer for every fuel that is enough *)

Lemma iterate_ext {R A} (f g : ObjectPair -> A -> outcome (round R A)) l x : (forall v y, v ∈ l -> f v y = g v y) -> iterate f l x = iterate g l x.
Proof.
  revert x. induction l as [|v l IH]; intros x H; [done|]. cbn [iterate]. rewrite (H v x) by (by left).
  destruct (g v x) as [[y|y|r y]| | |]; try done. cbn [mbind outcome_bind]. apply IH. intros w y' Hw. apply H. by right.
Qed.

Lemma search_ext {R A} example (f g f' g' : ObjectPair -> A -> outcome (round R A)) x : (forall v y, v ∈ pairs (objects a) -> f v y = f' v y) ->
  (forall v y, v ∈ pairs (objects a) -> g v y = g' v y) -> Resolution.search example a f g x = Resolution.search example a f' g' x.
Proof.
  intros Hf Hg. destruct (rv_layout _ _ _ _ Hr) as [Ha _ _]. rewrite !search_walks by done. rewrite (iterate_ext f f').
  - destruct (iterate f' _ x) as [[[r|] y]| | |]; try done. cbn [mbind outcome_bind]. apply iterate_ext. intros v z Hv. apply Hg, (objects_split _ example). by right.
  - intros v y Hv. apply Hf, (objects_split _ example). by left.
Qed.

(** The questions of the two searches, each with the fuel that settles it. *)
Lemma questions_settle : exists n, forall m, (n <= m)%nat ->
  (forall s, TimingSolver.getValue m cs p s = TimingSolver.getValue n cs p s) /\
  forall x s, x ∈ pairs (objects a) ->
    Resolution.may_point m cs x.1 p s = Resolution.may_point n cs x.1 p s /\
    Resolution.must_be_above m cs x.1 p s = Resolution.must_be_above n cs x.1 p s /\
    Resolution.must_be_below m cs x.1 p s = Resolution.must_be_below n cs x.1 p s /\
    (e ← getBoundsCheckPointer x.1 p; TimingSolver.mustBeTrue m cs e s) = (e ← getBoundsCheckPointer x.1 p; TimingSolver.mustBeTrue n cs e s).
Proof.
  destruct Hr as [[Hcs Hρ0] [Hp Hwp] Hw Hl Hf].
  assert (forall x, x ∈ pairs (objects a) -> settles (fun m s => (Resolution.may_point m cs x.1 p s, Resolution.must_be_above m cs x.1 p s,
    Resolution.must_be_below m cs x.1 p s, e ← getBoundsCheckPointer x.1 p; TimingSolver.mustBeTrue m cs e s))) as Hx.
  { intros x Hx. destruct (bounds_asked default_opt ρ0 p Hp Hwp x.1 (Hf x Hx)) as (b & Eb & Hb & Hwb & _).
    destruct (base_asked ρ0 x.1 (Hf x Hx)) as (c & Ec & [Hc Hdc] & Hwc & _). destruct Hp as [Hwf Hd].
    assert (forall k, isDivKind k = false -> isCmpKind k = true -> exists e, BinaryExpr_create k p (ConstantExpr c) = Done e /\ asked ρ0 e) as Hcmp.
    { intros k Hk Hwk. destruct (BinaryExpr_create_ok default_opt k p (ConstantExpr c) Hwf Hc) as (e & E & He & _ & _); [cbn; congruence|by destruct k|].
      exists e. split; [done|]. split; [done|]. by apply (create_div_safe default_opt ρ0 k p (ConstantExpr c) e). }
    destruct (Hcmp Uge) as (u & Eu & Hu); [done..|]. destruct (Hcmp Ult) as (v & Ev & Hv); [done..|]. cbn [BinaryExpr_create] in Eu, Ev.
    destruct (mayBeTrue_settles default_opt cs ρ0 Hcs Hρ0 b Hb Hwb) as [n1 H1], (mustBeTrue_settles default_opt cs ρ0 Hcs Hρ0 u Hu) as [n2 H2],
      (mustBeTrue_settles default_opt cs ρ0 Hcs Hρ0 v Hv) as [n3 H3], (mustBeTrue_settles default_opt cs ρ0 Hcs Hρ0 b Hb) as [n4 H4].
    exists (n1 + n2 + n3 + n4)%nat. intros m Hm s. unfold Resolution.may_point, Resolution.must_be_above, Resolution.must_be_below.
    rewrite Eb, Ec. cbn [mbind outcome_bind]. rewrite Eu, Ev. cbn [mbind outcome_bind].
    rewrite (H1 m), (H2 m), (H3 m), (H4 m) by lia.
    by rewrite (H1 (n1 + n2 + n3 + n4)%nat), (H2 (n1 + n2 + n3 + n4)%nat), (H3 (n1 + n2 + n3 + n4)%nat), (H4 (n1 + n2 + n3 + n4)%nat) by lia. }
  destruct (settles_list _ _ Hx) as [n Hn]. destruct (getValue_settles default_opt cs ρ0 Hcs Hρ0 p Hp) as [k Hk].
  exists (n `max` k)%nat. intros m Hm. split; [intros s; rewrite (Hk m), (Hk (n `max` k)%nat) by lia; done|].
  intros x s Hin. pose proof (Hn m ltac:(lia) x Hin s) as E1. pose proof (Hn (n `max` k)%nat ltac:(lia) x Hin s) as E2.
  injection E1 as -> -> -> ->. injection E2 as -> -> -> ->. done.
Qed.

Lemma resolveOne_settles : settles (fun fuel => Resolution.resolveOne fuel cs p a).
Proof.
  destruct questions_settle as [n Hn]. exists n. intros m Hm s. destruct (Hn m Hm) as [Hv Hq]. destruct pointer_cases as [[c ->]|Hcase]; [done|].
  destruct (Hcase m s) as [-> _], (Hcase n s) as [-> _]. unfold Resolution.resolveOne_symbolic. rewrite Hv.
  destruct (TimingSolver.getValue n cs p s) as [[[cex|] s1]| | |]; try done. cbn [mbind outcome_bind].
  destruct (ConstantExpr_getZExtValue cex 64) as [example| | |]; try done. cbn [mbind outcome_bind]. destruct (Resolution.example_object example a); [done|].
  rewrite (search_ext example _ (Resolution.one_forth m cs p) (Resolution.one_back n cs p) (Resolution.one_forth n cs p)); [done|..];
    intros x y Hx; destruct (Hq x y Hx) as (E1 & E2 & E3 & _); unfold Resolution.one_back, Resolution.one_forth.
  - rewrite E1. destruct (Resolution.may_point n cs x.1 p y) as [[[[]|] z]| | |]; try done. cbn [mbind outcome_bind]. by destruct (Hq x z Hx) as (_ & -> & _).
  - rewrite E3. destruct (Resolution.must_be_below n cs x.1 p y) as [[[[]|] z]| | |]; try done. cbn [mbind outcome_bind]. by destruct (Hq x z Hx) as (-> & _).
Qed.

(** The check of one object, as far as it depends on the questions. *)
Lemma check_ext m n x rl mx s : x ∈ pairs (objects a) ->
  (forall s, Resolution.may_point m cs x.1 p s = Resolution.may_point n cs x.1 p s) ->
  (forall s, (e ← getBoundsCheckPointer x.1 p; TimingSolver.mustBeTrue m cs e s) = (e ← getBoundsCheckPointer x.1 p; TimingSolver.mustBeTrue n cs e s)) ->
  Resolution.checkPointerInObject m cs p x rl mx s = Resolution.checkPointerInObject n cs p x rl mx s.
Proof.
  intros Hx H1 H2. unfold Resolution.checkPointerInObject, Resolution.may_point in *.
  destruct (getBoundsCheckPointer x.1 p) as [e| | |]; try done. cbn [mbind outcome_bind] in *. rewrite H1.
  destruct (TimingSolver.mayBeTrue n cs e s) as [[[[]|] z]| | |]; try done. cbn [mbind outcome_bind]. by rewrite H2.
Qed.

Lemma resolve_settles rl mx : settles (fun fuel => Resolution.resolve fuel cs p rl mx a).
Proof.
  destruct questions_settle as [n Hn]. exists n. intros m Hm s. destruct (Hn m Hm) as [Hv Hq]. destruct pointer_cases as [[c ->]|Hcase]; [done|].
  rewrite (proj2 (Hcase m s)), (proj2 (Hcase n s)). unfold Resolution.resolve_symbolic. rewrite Hv.
  destruct (TimingSolver.getValue n cs p s) as [[[cex|] s1]| | |]; try done. cbn [mbind outcome_bind].
  destruct (ConstantExpr_getZExtValue cex 64) as [example| | |]; try done. cbn [mbind outcome_bind].
  assert (forall x l z, x ∈ pairs (objects a) -> Resolution.checkPointerInObject m cs p x l mx z = Resolution.checkPointerInObject n cs p x l mx z) as Hc.
  { intros x l z Hx. apply check_ext; [done|intros y; by apply Hq..]. }
  rewrite (search_ext example _ (Resolution.all_forth m cs p mx) (Resolution.all_back n cs p mx) (Resolution.all_forth n cs p mx)); [done|..];
    intros x [l y] Hx; unfold Resolution.all_back, Resolution.all_forth; destruct (past_timeout y); try done.
  - rewrite Hc by done. destruct (Resolution.checkPointerInObject n cs p x l mx y) as [[[i l'] z]| | |]; try done. cbn [mbind outcome_bind].
    destruct (negb (i =? 2)); [done|]. by destruct (Hq x z Hx) as (_ & -> & _).
  - destruct (Hq x y Hx) as (_ & _ & -> & _). destruct (Resolution.must_be_below n cs x.1 p y) as [[[[]|] z]| | |]; try done. cbn [mbind outcome_bind]. by rewrite Hc.
Qed.

End Resolved.
