(* ===== verification/ForkSound.v ===== *)
(** Forking is right: what [addConstraint], [terminateState] and [updateStates] do to
    an executor in good order, and the states that [fork] leaves for the runs of a
    path.

    What the executor does to its states over a run: forks, ends of states and
    updates of the searcher, and that the paths stay a partition of the inputs. *)
From stdpp Require Import base numbers list gmap.
From Stdlib Require Import ZArith Lia Classical.
From S2P Require Import Prelude APInt Bits RNG Expr Semantics ConstantOps ExprCreate CreateSound OpsSound SliceSound ReadSound ExprWeight Visitor Searcher FindReads Solver Constraints Evaluator PTree PTreeShape RandomPath ImmutableTree Memory AddressSpace CopyOnWrite InitialValues TimingSolver SeedInfo ExecutorState Fork.
Local Open Scope Z_scope.

(** ** Running operations of the executor *)

Section Runs.
Context {S : Type}.
Implicit Types x : Executor S.

Definition runs {A} (op : nat -> EM S A) x (a : A) x' : Prop := eventually (fun fuel => op fuel x) (a, x').

Lemma runs_now {A} (op : nat -> EM S A) x a x' : (forall fuel, op fuel x = Done (a, x')) -> runs op x a x'.
Proof. apply eventually_now. Qed.

Lemma runs_ret {A} (a : A) x : runs (fun _ => mret a) x a x.
Proof. by apply runs_now. Qed.

Lemma runs_bind {A B} (op : nat -> EM S A) (f : nat -> A -> EM S B) x a x1 b x2 :
  runs op x a x1 -> runs (fun fuel => f fuel a) x1 b x2 -> runs (fun fuel => op fuel ≫= f fuel) x b x2.
Proof. intros H1 H2. exact (eventually_bind (fun fuel => op fuel x) (fun fuel r => f fuel r.1 r.2) (a, x1) (b, x2) H1 H2). Qed.

Lemma runs_try {A} (o : nat -> outcome A) x a : eventually o a -> runs (fun fuel => try (o fuel)) x a x.
Proof. intros H. eapply (eventually_bind o (fun _ a => Done (a, x))); [exact H|apply eventually_Done]. Qed.

Lemma runs_ask_solver {A} (op : nat -> S -> outcome (A * S)) x a s' : eventually (fun fuel => op fuel (solver x)) (a, s') ->
  runs (fun fuel => ask_solver (op fuel)) x a (set_solver s' x).
Proof. intros H. eapply (eventually_bind (fun fuel => op fuel (solver x)) (fun _ r => Done (r.1, set_solver r.2 x))); [exact H|apply eventually_Done]. Qed.

Lemma runs_state_of p x e : heap x !! p = Some e -> runs (fun _ => state_of p) x e x.
Proof. intros H. apply runs_now. intros _. unfold state_of. by rewrite H. Qed.

Lemma runs_ext {A} (f g : nat -> EM S A) x a x' : (forall fuel, f fuel x = g fuel x) -> runs g x a x' -> runs f x a x'.
Proof. apply eventually_ext. Qed.

End Runs.

(** ** Paths *)

Section Paths.
Context {AP : APIntOps} {APL : APIntLaws} {AH : ArrayHeap} {OP : ExprOptions} {VO : VisitorOptions} {CO : ConstraintOptions}.
Context (default_opt : ConstArrayOpt = false).

(** The constraints of a path: some run satisfies them, and on such runs they divide
    nothing by zero. *)
Record path_ok (cs : ConstraintSet) : Prop := MkPath {
  pa_boolean : Forall boolean cs;
  pa_sat : exists ρ, sat ρ cs;
  pa_safe ρ : sat ρ cs -> Forall (div_safe ρ) cs
}.

(** What the executor may ask on a path. *)
Definition guarded_on (cs : ConstraintSet) (e : Expr) : Prop := wf e /\ forall ρ, sat ρ cs -> div_safe ρ e.

Definition condition_on (cs : ConstraintSet) (e : Expr) : Prop := guarded_on cs e /\ getWidth e = Bool.

Lemma path_feasible cs ρ : path_ok cs -> sat ρ cs -> Forall (feasible ρ) cs.
Proof.
  intros [Hb _ Hs] Hρ. specialize (Hs ρ Hρ). rewrite !Forall_forall in *. intros c Hc. split_and!; [by apply Hb|by apply Hρ|by apply Hs].
Qed.

Lemma condition_feasible cs ρ e : condition_on cs e -> sat ρ cs -> eval ρ e <> 0 -> feasible ρ e.
Proof. intros [[Hwf Hs] Hw] Hρ He. split_and!; [done..|by apply Hs]. Qed.

Lemma eventually_same {A} (f : nat -> outcome A) a b : eventually f a -> eventually f b -> a = b.
Proof. intros [n Hn] [m Hm]. specialize (Hn (n `max` m)%nat ltac:(lia)). specialize (Hm (n `max` m)%nat ltac:(lia)). congruence. Qed.

(** The path with one constraint more. *)
Lemma path_add cs e : path_ok cs -> condition_on cs e -> (exists ρ, sat ρ cs /\ eval ρ e <> 0) ->
  exists cs', eventually (fun m => Constraints.addConstraint m e cs) cs' /\ path_ok cs' /\ forall ρ, sat ρ cs' <-> sat ρ cs /\ eval ρ e <> 0.
Proof.
  intros Hp He (ρ0 & Hρ0 & Hv0).
  assert (forall ρ, sat ρ cs -> eval ρ e <> 0 -> exists cs', eventually (fun m => Constraints.addConstraint m e cs) cs' /\ Forall (feasible ρ) cs' /\
    forall ρ, sat ρ cs' <-> sat ρ cs /\ eval ρ e <> 0) as Hadd.
  { intros ρ Hρ Hv. apply (addConstraint_ok default_opt ρ e cs); [by apply path_feasible|by eapply condition_feasible]. }
  destruct (Hadd ρ0 Hρ0 Hv0) as (cs' & E & F & Hs). exists cs'. split_and!; [done| |done]. split.
  - eapply Forall_impl; [exact F|]. by intros c [].
  - exists ρ0. by apply Hs.
  - intros ρ [Hρ Hv]%Hs. destruct (Hadd ρ Hρ Hv) as (cs1 & E1 & F1 & _). rewrite (eventually_same _ _ _ E E1).
    eapply Forall_impl; [exact F1|]. by intros c (_ & _ & ?).
Qed.

(** The negation of a condition. *)
Lemma condition_negated cs e : condition_on cs e -> exists z, createIsZero e = Done z /\ condition_on cs z /\ forall ρ, eval ρ z <> 0 <-> eval ρ e = 0.
Proof.
  intros [[Hwf Hs] Hw]. destruct (createIsZero_ok default_opt e Hwf) as (z & Ez & Wz & Nz & Ev). exists z. split_and!; [done| |].
  - split; [|done]. split; [done|]. intros ρ Hρ. eapply (createIsZero_div_safe default_opt ρ e); [by apply Hs|done].
  - intros ρ. rewrite Ev. destruct (Z.eqb_spec (eval ρ e) 0); cbn; split; try done; lia.
Qed.

Lemma not_valid_ex cs e : ~ valid (MkQuery cs e) -> exists ρ, sat ρ cs /\ eval ρ e = 0.
Proof.
  intros H. apply NNPP. intros Hn. apply H. intros ρ Hρ He. apply Hn. by exists ρ.
Qed.

Lemma not_valid_not_ex cs e : ~ valid_not (MkQuery cs e) -> exists ρ, sat ρ cs /\ eval ρ e <> 0.
Proof.
  intros H. apply NNPP. intros Hn. apply H. intros ρ Hρ. apply NNPP. intros He. apply Hn. by exists ρ.
Qed.

End Paths.

(** ** Executors in good order *)

(** The leaves of the process tree are these states. *)
Definition tree_shows (t : PTree) (P : positive -> Prop) : Prop :=
  (forall p, live t p <-> P p) /\ ((exists p, P p) -> tree_ok t).

Lemma tree_shows_ext t (P Q : positive -> Prop) : (forall p, P p <-> Q p) -> tree_shows t P -> tree_shows t Q.
Proof. intros E [H1 H2]. split; [intros p; by rewrite H1|]. intros [p Hp]. apply H2. exists p. by apply E. Qed.

Lemma tree_shows_leaf t P p : tree_shows t P -> P p -> tree_ok t /\ exists n nd, nodes t !! n = Some nd /\ state nd = Some p /\ ptreeNode t !! p = Some n.
Proof.
  intros [H1 H2] Hp. assert (tree_ok t) as Ht by (apply H2; by exists p). split; [done|]. apply H1 in Hp as (n & nd & Hn & Hs).
  exists n, nd. split_and!; [done..|]. by apply (leaf_shape t n nd p Ht Hn Hs).
Qed.

Lemma tree_shows_attach t P p q : tree_shows t P -> P p -> ~ P q ->
  exists t', PTree.attach (ptreeNode t !! p) q p t = Done t' /\ tree_shows t' (fun s => P s \/ s = q).
Proof.
  intros Ht Hp Hq. destruct (tree_shows_leaf t P p Ht Hp) as (Hok & n & nd & Hn & Hs & ->). pose proof Ht as [H1 H2].
  assert (~ live t q) as Hl by by rewrite H1.
  destruct (attach_eq t n nd p q Hok Hn Hs Hl) as (a & b & Ha & Hb & Hab & E). exists (attached t n nd a b q p). split; [done|].
  destruct (attach_ok t n nd a b q p Hok Hn Hs Hl Ha Hb Hab) as (Ht' & _ & _ & _ & Hlive). split; [|done].
  intros s. by rewrite Hlive, H1.
Qed.

Lemma tree_shows_remove {PO : PTreeOptions} t P p : tree_shows t P -> P p ->
  exists n t', ptreeNode t !! p = Some n /\ eventually (fun fuel => PTree.remove fuel n t) t' /\ tree_shows t' (fun s => P s /\ s <> p).
Proof.
  intros Ht Hp. destruct (tree_shows_leaf t P p Ht Hp) as (Hok & n & nd & Hn & Hs & Ek). pose proof Ht as [H1 H2]. exists n.
  destruct (classic (exists s, P s /\ s <> p)) as [(s & Hs' & Hne)|Hnone].
  - destruct (tree_remove_ok t n nd p Hok Hn Hs) as (t' & E & Ht' & Hlive & _); [exists s; by rewrite H1|].
    exists t'. split_and!; [done..|]. split; [|done]. intros z. by rewrite Hlive, H1.
  - destruct (tree_remove_last t n nd p Hok Hn Hs) as (t' & E & Hno).
    { intros s Hl%H1. apply NNPP. intros Hne. apply Hnone. by exists s. }
    exists t'. split_and!; [done..|]. split; [|by intros Hex%Hnone]. intros z. split; [by intros []%Hno|]. intros Hz. exfalso. apply Hnone. by exists z.
Qed.

Section Sound.
Context {AP : APIntOps} {APL : APIntLaws} {AH : ArrayHeap} {OP : ExprOptions} {VO : VisitorOptions} {CO : ConstraintOptions} {TO : TimingOptions}.
Context {PO : PTreeOptions} {EO : ExecutorOptions} (default_opt : ConstArrayOpt = false).
Context {S : Type} {ops : SolverImpl S} {sol : SoundSolver S}.
Implicit Types x : Executor S.

(** The address spaces, over the store they share. *)
Definition memory (x : Executor S) : System := MkSystem (store x) (addressSpace <$> heap x).

(** No seeds; every state has a path and a leaf of the tree; the searcher knows
    [states], and [addedStates] and [removedStates] are what it is about to learn. *)
Record exec_ok (x : Executor S) : Prop := MkExecOk {
  eo_path p e : heap x !! p = Some e -> path_ok (constraints e);
  eo_memory : system_ok (memory x);
  eo_solver : s_inv (solver x);
  eo_rng : rng_ok (theRNG x);
  eo_unseeded : seedMap x = ∅;
  eo_tree : tree_shows (processTree x) (fun p => is_Some (heap x !! p));
  eo_known p : is_Some (heap x !! p) <-> p ∈ states x \/ p ∈ addedStates x;
  eo_new p : p ∈ addedStates x -> p ∉ states x;
  eo_old p : p ∈ removedStates x -> p ∈ states x;
  eo_added_once : NoDup (addedStates x);
  eo_removed_once : NoDup (removedStates x)
}.

(** A state that still runs. *)
Definition running (x : Executor S) (p : positive) (e : ExecutionState) : Prop := heap x !! p = Some e /\ p ∉ removedStates x.

Lemma exec_ok_solver x s : exec_ok x -> s_inv s -> exec_ok (set_solver s x).
Proof. intros [] Hs. by split. Qed.

Lemma exec_ok_rng x r : exec_ok x -> rng_ok r -> exec_ok (set_theRNG r x).
Proof. intros [] Hr. by split. Qed.

Lemma exec_ok_ended x l : exec_ok x -> exec_ok (set_ended l x).
Proof. intros []. by split. Qed.

(** A state changes, but for its address space. *)
Lemma exec_ok_put x p e e' : exec_ok x -> heap x !! p = Some e -> addressSpace e' = addressSpace e -> path_ok (constraints e') ->
  exec_ok (set_heap (<[p := e']> (heap x)) x).
Proof.
  intros [] Hp Ea He. assert (forall s, is_Some (<[p:=e']> (heap x) !! s) <-> is_Some (heap x !! s)) as Hsome.
  { intros s. destruct (decide (s = p)) as [-> |]; [rewrite lookup_insert_eq, Hp; by split|by rewrite lookup_insert_ne]. }
  split; try done.
  - intros s d. cbn. destruct (decide (s = p)) as [-> |]; [rewrite lookup_insert_eq; by intros [= <-]|rewrite lookup_insert_ne by done; by apply eo_path0].
  - unfold memory. cbn. rewrite fmap_insert, Ea. rewrite insert_id; [done|]. by rewrite lookup_fmap, Hp.
  - eapply tree_shows_ext; [|done]. intros s. cbn. by rewrite Hsome.
  - intros s. cbn. rewrite Hsome. apply eo_known0.
Qed.

(** A state leaves the heap. *)
Lemma memory_drop x p : system_ok (memory x) -> is_Some (heap x !! p) -> system_ok (MkSystem (store x) (addressSpace <$> delete p (heap x))).
Proof.
  intros Hm [e He]. rewrite fmap_delete. eapply (step_ok p Exit (memory x)); [done|]. apply (step_exit p (memory x) (addressSpace e)).
  cbn. by rewrite lookup_fmap, He.
Qed.

(** ** Adding a constraint *)

Lemma put_same x p e : heap x !! p = Some e -> set_heap (<[p := set_constraints (constraints e) e]> (heap x)) x = x.
Proof. intros Hp. assert (set_constraints (constraints e) e = e) as -> by by destruct e. rewrite insert_id by done. by destruct x. Qed.

Lemma addConstraint_runs x p e c : exec_ok x -> ivcEnabled = false -> heap x !! p = Some e -> condition_on (constraints e) c ->
  (exists ρ, sat ρ (constraints e) /\ eval ρ c <> 0) ->
  exists cs', runs (fun fuel => Executor.addConstraint fuel p c) x tt (set_heap (<[p := set_constraints cs' e]> (heap x)) x) /\
    path_ok cs' /\ forall ρ, sat ρ cs' <-> sat ρ (constraints e) /\ eval ρ c <> 0.
Proof.
  intros Hx Hi Hp Hc Hex. pose proof (eo_path x Hx p e Hp) as Hpath. destruct (isConst c) eqn:Econst.
  - destruct c as [v| | | | | | | |]; try done. exists (constraints e). destruct Hc as [[Hwf _] Hw], Hex as (ρ & _ & Hv). cbn in Hv. split_and!; [|done|].
    + rewrite put_same by done. apply runs_now. intros fuel. unfold Executor.addConstraint, try. rewrite isTrue_spec by done.
      by rewrite (proj2 (Z.eqb_neq _ _) Hv).
    + intros ρ'. cbn. tauto.
  - destruct (path_add default_opt (constraints e) c Hpath Hc Hex) as (cs' & E & Hp' & Hs). exists cs'. split_and!; [|done..].
    eapply (runs_ext _ (fun fuel => e ← state_of p; seeds ← ask (fun x => seedMap x !! p);
      _ ← match seeds with
          | Some l => l ← Executor.patch_seeds fuel (constraints e) c l; tell (fun x => set_seedMap (<[p := l]> (seedMap x)) x)
          | None => mret ()
          end;
      cs ← try (Constraints.addConstraint fuel c (constraints e)); _ ← put_state p (set_constraints cs e); if ivcEnabled then try AssertFail else mret ())).
    { intros fuel. by destruct c. }
    eapply runs_bind; [by apply runs_state_of|]. eapply runs_bind; [by apply runs_now|]. rewrite (eo_unseeded x Hx), lookup_empty.
    eapply runs_bind; [apply runs_ret|]. eapply runs_bind; [by apply runs_try|]. eapply runs_bind; [by apply runs_now|]. rewrite Hi. apply runs_ret.
Qed.

(** ** The end of a state *)

Lemma without_absent p l : p ∉ l -> without [p] l = l.
Proof. intros H. apply without_id. set_solver. Qed.

(** A state is deleted, and forgotten by everyone. *)
Lemma exec_ok_drop x x' p : exec_ok x -> is_Some (heap x !! p) -> heap x' = delete p (heap x) -> store x' = store x -> solver x' = solver x ->
  theRNG x' = theRNG x -> seedMap x' = ∅ -> tree_shows (processTree x') (fun q => is_Some (heap x !! q) /\ q <> p) ->
  states x' = states x ∖ {[ p ]} -> addedStates x' = without [p] (addedStates x) -> removedStates x' = without [p] (removedStates x) -> exec_ok x'.
Proof.
  intros [] Hp Eh Es Esol Er Esd Ht Est Ea Ero. split; rewrite ?Esol, ?Er; try done.
  - intros q e. rewrite Eh. intros [_ Hq]%lookup_delete_Some. by eapply eo_path0.
  - unfold memory. rewrite Eh, Es. by apply memory_drop.
  - eapply tree_shows_ext; [|exact Ht]. intros q. rewrite Eh. cbn. split; [intros [[e He] Hne]; exists e; by rewrite lookup_delete_ne|].
    intros [e [Hne He]%lookup_delete_Some]. split; [by eexists|done].
  - intros q. rewrite Eh, Est, Ea, elem_of_without. specialize (eo_known0 q). destruct (decide (q = p)) as [-> |Hne].
    + rewrite lookup_delete_eq. split; [by intros []|]. intros [H|H]; set_solver.
    + rewrite lookup_delete_ne by done. rewrite eo_known0. set_solver.
  - intros q. rewrite Est, Ea, elem_of_without. intros [_ H]. specialize (eo_new0 q H). set_solver.
  - intros q. rewrite Est, Ero, elem_of_without. intros [Hne H]. specialize (eo_old0 q H). set_solver.
  - rewrite Ea. by apply without_NoDup.
  - rewrite Ero. by apply without_NoDup.
Qed.

Lemma terminateState_runs x p e : exec_ok x -> running x p e ->
  exists x', runs (fun fuel => Executor.terminateState fuel p) x tt x' /\ exec_ok x' /\ store x' = store x /\ solver x' = solver x /\ forks x' = forks x /\
    forall q d, running x' q d <-> running x q d /\ q <> p.
Proof.
  intros Hx [Hp Hr]. pose proof Hx as []. destruct (decide (p ∈ addedStates x)) as [Hadd|Hadd].
  - destruct (tree_shows_remove (processTree x) _ p eo_tree0 ltac:(by eexists)) as (n & t' & En & Et & Ht').
    exists (set_heap (delete p (heap x)) (set_tree t' (set_seedMap (delete p (seedMap x)) (set_added (without [p] (addedStates x)) x)))). split_and!; try done.
    + unfold Executor.terminateState. eapply runs_bind; [by apply runs_now|]. cbn beta. rewrite vec_erase_without by done.
      eapply runs_bind; [by apply runs_now|]. eapply runs_bind; [by apply runs_now|].
      eapply runs_bind; [apply runs_try; apply eventually_now; intros _; cbn; by rewrite En|]. eapply runs_bind; [by apply runs_try|]. by apply runs_now.
    + eapply (exec_ok_drop x _ p); try done; [cbn; by rewrite eo_unseeded0, delete_empty| |].
      * cbn. specialize (eo_new0 p Hadd). set_solver.
      * cbn. by rewrite without_absent.
    + intros q d. unfold running. cbn. rewrite lookup_delete_Some. naive_solver.
  - exists (set_removed (removedStates x ++ [p]) (set_heap (<[p := set_pc (prevPC e) e]> (heap x)) x)). split_and!; try done.
    + unfold Executor.terminateState. eapply runs_bind; [by apply runs_now|]. cbn beta. rewrite (proj2 (vec_erase_None p (addedStates x))) by done.
      eapply runs_bind; [eapply runs_bind; [by apply runs_state_of|by apply runs_now]|]. by apply runs_now.
    + pose proof (exec_ok_put x p e (set_pc (prevPC e) e) Hx Hp eq_refl (eo_path0 p e Hp)) as []. split; try done.
      * intros q. cbn. intros [Hq|Hq]%elem_of_app; [by apply eo_old0|]. apply list_elem_of_singleton in Hq as ->.
        destruct (proj1 (eo_known0 p)) as [|]; [by eexists|done|done].
      * cbn. apply NoDup_app. split_and!; [done| |apply NoDup_singleton]. intros q Hq. rewrite list_elem_of_singleton. congruence.
    + intros q d. unfold running. cbn. rewrite not_elem_of_app, list_elem_of_singleton. destruct (decide (q = p)) as [-> |]; [|rewrite lookup_insert_ne by done]; naive_solver.
Qed.

Lemma terminate_runs x p e reason : exec_ok x -> running x p e ->
  exists x', runs (fun fuel => Executor.terminate fuel p reason) x tt x' /\ exec_ok x' /\ store x' = store x /\ solver x' = solver x /\ forks x' = forks x /\
    forall q d, running x' q d <-> running x q d /\ q <> p.
Proof.
  intros Hx Hp. destruct (terminateState_runs (set_ended (ended x ++ [(p, reason)]) x) p e) as (x' & E & H); [by apply exec_ok_ended|done|].
  exists x'. split; [|done]. eapply runs_bind; [by apply runs_now|exact E].
Qed.

(** ** The changes reach the searcher *)

Lemma delete_states_runs l x : exec_ok (set_removed l x) ->
  exists x', runs (fun fuel => Executor.delete_states fuel l) x tt x' /\ exec_ok (set_removed [] x') /\ store x' = store x /\ solver x' = solver x /\
    addedStates x' = addedStates x /\ forall q, heap x' !! q = if decide (q ∈ l) then None else heap x !! q.
Proof.
  revert x. induction l as [|p l IH]; intros x Hx.
  { exists x. split_and!; try done. apply runs_ret. }
  pose proof Hx as []. assert (p ∈ states x) as Hp by by apply (eo_old0 p (list_elem_of_here _ _)).
  assert (is_Some (heap x !! p)) as He by (apply eo_known0; by left).
  destruct (tree_shows_remove (processTree x) _ p eo_tree0 He) as (n & t' & En & Et & Ht').
  apply NoDup_cons in eo_removed_once0 as [Hpl Hl].
  set (x1 := set_heap (delete p (heap x)) (set_tree t' (set_seedMap (delete p (seedMap x)) (set_states (states x ∖ {[ p ]}) x)))).
  destruct (IH x1) as (x' & E & Hx' & Es & Esol & Ea & Eh).
  { eapply (exec_ok_drop (set_removed (p :: l) x) _ p); try done; cbn.
    - cbn in eo_unseeded0. by rewrite eo_unseeded0, delete_empty.
    - symmetry. apply without_absent. intros Hadd. by apply (eo_new0 p Hadd).
    - rewrite decide_False by set_solver. symmetry. by apply without_absent. }
  exists x'. split_and!; try done.
  - cbn [Executor.delete_states]. eapply runs_bind; [by apply runs_now|].
    eapply runs_bind; [apply runs_try; apply eventually_now; intros _; by rewrite bool_decide_eq_true_2|].
    eapply runs_bind; [by apply runs_now|]. eapply runs_bind; [by apply runs_now|].
    eapply runs_bind; [apply runs_try; apply eventually_now; intros _; cbn; by rewrite En|]. eapply runs_bind; [by apply runs_try|].
    eapply runs_bind; [by apply runs_now|]. exact E.
  - intros q. rewrite Eh. cbn. destruct (decide (q = p)) as [-> |Hne].
    + rewrite decide_False by done. rewrite lookup_delete_eq, decide_True by (by left). done.
    + rewrite lookup_delete_ne by done. destruct (decide (q ∈ l)); [by rewrite decide_True by (by right)|].
      rewrite decide_False; [done|]. by intros [?|?]%elem_of_cons.
Qed.

Lemma updateStates_runs x : exec_ok x ->
  exists x', runs (fun fuel => Executor.updateStates fuel) x tt x' /\ exec_ok x' /\ addedStates x' = [] /\ removedStates x' = [] /\
    forall q d, running x' q d <-> running x q d.
Proof.
  intros Hx. pose proof Hx as []. set (x1 := set_added [] (set_states (states x ∪ list_to_set (addedStates x)) x)).
  destruct (delete_states_runs (removedStates x) x1) as (x2 & E & Hx2 & _ & _ & Ea & Eh).
  { split; try done; cbn.
    - intros q. rewrite eo_known0. set_solver.
    - intros q Hq. by apply elem_of_nil in Hq.
    - intros q Hq. apply eo_old0 in Hq. set_solver.
    - apply NoDup_nil_2. }
  exists (set_removed [] x2). split_and!; try done.
  - eapply runs_bind; [by apply runs_now|]. eapply runs_bind; [by apply runs_now|]. eapply runs_bind; [exact E|]. by apply runs_now.
  - intros q d. unfold running. cbn. rewrite Eh. case_decide; [|cbn]; set_solver.
Qed.

(** ** Branching *)

(** The same state of the program, but for the path. *)
Record copies (e e' : ExecutionState) : Prop := MkCopies {
  cp_pc : pc e' = pc e;
  cp_prevPC : prevPC e' = prevPC e;
  cp_stack : stack e' = stack e;
  cp_objects : objects (addressSpace e') = objects (addressSpace e);
  cp_symbolics : symbolics e' = symbolics e;
  cp_arrayNames : arrayNames e' = arrayNames e;
  cp_forkDisabled : forkDisabled e' = forkDisabled e
}.

Lemma copies_refl e : copies e e.
Proof. by split. Qed.

Lemma copies_trans a b c : copies a b -> copies b c -> copies a c.
Proof. intros [] []. split; congruence. Qed.

Lemma copies_constraints cs e e' : copies e e' -> copies e (set_constraints cs e').
Proof. by intros []. Qed.

(** One that came from the state with one fork at most. *)
Record descends (e e' : ExecutionState) : Prop := MkDescends {
  de_copies : copies e e';
  de_key : cowKey (addressSpace e') <= cowKey (addressSpace e) + 1
}.

Lemma descends_refl e : descends e e.
Proof. split; [apply copies_refl|lia]. Qed.

Lemma descends_constraints cs e e' : descends e e' -> descends e (set_constraints cs e').
Proof. intros [C K]. split; [by apply copies_constraints|done]. Qed.

(** One more fork does not wrap the key for copy on write. *)
Definition room (e : ExecutionState) : Prop := cowKey (addressSpace e) + 1 < 2 ^ 32.

Lemma branch_runs x p e : exec_ok x -> running x p e -> room e ->
  exists q e1 e2 t x1, heap x !! q = None /\ runs (fun _ => Executor.branch_state p) x q x1 /\
    runs (fun _ => Executor.attach p q) x1 tt (set_tree t x1) /\ exec_ok (set_tree t x1) /\
    heap x1 = <[q := e2]> (<[p := e1]> (heap x)) /\ store x1 = store x /\ solver x1 = solver x /\ forks x1 = forks x /\ removedStates x1 = removedStates x /\
    descends e e1 /\ descends e e2 /\ constraints e1 = constraints e /\ constraints e2 = constraints e.
Proof.
  intros Hx [Hp Hr] Hroom. pose proof Hx as []. set (q := fresh (dom (heap x))). assert (heap x !! q = None) as Hq by (apply not_elem_of_dom, is_fresh).
  assert (p <> q) as Hpq by congruence. destruct (ExecutionState_branch (nextID x) e) as [e1 e2] eqn:Eb.
  set (x1 := set_nextID (u32 (nextID x + 1)) (set_added (addedStates x ++ [q]) (set_heap (<[q := e2]> (<[p := e1]> (heap x))) x))).
  destruct (tree_shows_attach (processTree x) _ p q eo_tree0) as (t & Et & Ht); [by eexists|rewrite Hq; by intros []|].
  assert (forall s, is_Some (heap x1 !! s) <-> is_Some (heap x !! s) \/ s = q) as Hsome.
  { intros s. cbn. destruct (decide (s = q)) as [-> |]; [rewrite lookup_insert_eq; naive_solver|rewrite lookup_insert_ne by done].
    destruct (decide (s = p)) as [-> |]; [rewrite lookup_insert_eq, Hp; naive_solver|rewrite lookup_insert_ne by done; naive_solver]. }
  assert (q ∉ states x /\ q ∉ addedStates x) as [Hqs Hqa].
  { split; intros H; destruct (proj2 (eo_known0 q)) as [d Hd]; [by left|congruence|by right|congruence]. }
  unfold ExecutionState_branch in Eb. destruct (AddressSpace.copy (addressSpace e)) as [copy orig] eqn:Ec. unfold AddressSpace.copy in Ec. injection Ec as <- <-. injection Eb as <- <-.
  assert (u32 (cowKey (addressSpace e) + 1) <= cowKey (addressSpace e) + 1) as Hkey.
  { destruct (sys_space _ eo_memory0 p (addressSpace e)) as [_ ?]; [cbn; by rewrite lookup_fmap, Hp|]. unfold u32. apply Z.mod_le; lia. }
  eexists q, _, _, t, x1. split_and!; try done.
  - unfold Executor.branch_state. eapply runs_bind; [by apply runs_state_of|]. eapply runs_bind; [by apply runs_now|]. eapply runs_bind; [by apply runs_now|].
    cbn beta iota. eapply runs_bind; [by apply runs_now|]. eapply runs_bind; [by apply runs_now|]. eapply runs_bind; [by apply runs_now|]. by apply runs_now.
  - unfold Executor.attach. eapply runs_bind; [by apply runs_now|]. eapply runs_bind; [apply runs_try, eventually_now; intros _; exact Et|]. by apply runs_now.
  - split; try done.
    + intros s d. cbn. rewrite !lookup_insert_Some. intros [[<- <-]|[_ [[<- <-]|[_ H]]]]; cbn; eauto.
    + unfold memory. cbn. rewrite !fmap_insert. cbn.
      pose proof (step_fork_ok (memory x) p q (addressSpace e) eo_memory0) as Hstep. cbn in Hstep. apply Hstep; [by rewrite lookup_fmap, Hp|by rewrite lookup_fmap, Hq|done].
    + eapply tree_shows_ext; [|exact Ht]. intros s. cbn beta. by rewrite <- Hsome.
    + intros s. change (heap (set_tree t x1)) with (heap x1). rewrite Hsome, eo_known0. cbn. rewrite elem_of_app, list_elem_of_singleton. naive_solver.
    + cbn. intros s [Hs|Hs]%elem_of_app; [by apply eo_new0|]. by apply list_elem_of_singleton in Hs as ->.
    + cbn. apply NoDup_app. split_and!; [done| |apply NoDup_singleton]. intros s Hs ->%list_elem_of_singleton. done.
Qed.

(** A state for the runs of [e] with [P]; none if there are no such runs. *)
Definition side (x' : Executor S) (e : ExecutionState) (o : option positive) (P : env -> Prop) : Prop :=
  match o with
  | Some s => exists e', running x' s e' /\ descends e e' /\ forall ρ, sat ρ (constraints e') <-> sat ρ (constraints e) /\ P ρ
  | None => forall ρ, sat ρ (constraints e) -> ~ P ρ
  end.

(** Nobody but the results changes, and what is new in the results is new. *)
Record only (p : positive) (r : option positive * option positive) (x x' : Executor S) : Prop := MkOnly {
  on_others q d : q <> p -> r.1 <> Some q -> r.2 <> Some q -> running x' q d <-> running x q d;
  on_new q : r.1 = Some q \/ r.2 = Some q -> q = p \/ heap x !! q = None;
  on_gone d : r.1 <> Some p -> r.2 <> Some p -> ~ running x' p d;
  on_two q : r.1 = Some q -> r.2 <> Some q
}.

(** Both sides of a condition that is possible on both. *)
Definition sides (x' : Executor S) (e : ExecutionState) (c : Expr) (r : option positive * option positive) : Prop :=
  side x' e r.1 (fun ρ => eval ρ c <> 0) /\ side x' e r.2 (fun ρ => eval ρ c = 0).

Lemma running_put x p q e' d : heap x !! p <> None ->
  running (set_heap (<[p := e']> (heap x)) x) q d <-> if decide (q = p) then d = e' /\ p ∉ removedStates x else running x q d.
Proof.
  intros Hp. unfold running. cbn. case_decide as E; [subst; rewrite lookup_insert_eq|by rewrite lookup_insert_ne]. naive_solver.
Qed.

Lemma split_runs x p e c : exec_ok x -> ivcEnabled = false -> running x p e -> room e -> condition_on (constraints e) c ->
  (exists ρ, sat ρ (constraints e) /\ eval ρ c <> 0) -> (exists ρ, sat ρ (constraints e) /\ eval ρ c = 0) ->
  exists r x', runs (fun fuel => Executor.split_state fuel p c None) x r x' /\ exec_ok x' /\ store x' = store x /\ only p r x x' /\
    (sides x' e c r \/ r = (None, None) /\ MaxDepth <> 0).
Proof.
  intros Hx Hi Hrun Hroom Hc Htrue Hfalse. pose proof Hrun as [Hp Hpr].
  set (x0 := set_forks (u64 (forks x + 1)) x). assert (exec_ok x0) as Hx0 by (destruct Hx; by split).
  destruct (branch_runs x0 p e Hx0 Hrun Hroom) as (q & e1 & e2 & t & x1 & Hq & Rb & Ra & Hx1 & Eh & Es & _ & _ & Er & C1 & C2 & K1 & K2).
  change (heap x !! q = None) in Hq. assert (p <> q) as Hpq by congruence. change (heap x1 = <[q := e2]> (<[p := e1]> (heap x))) in Eh. change (removedStates x1 = removedStates x) in Er.
  assert (q ∉ removedStates x) as Hqr.
  { intros H. destruct (proj2 (eo_known x Hx q)) as [d Hd]; [left; by apply (eo_old x Hx)|congruence]. }
  set (x2 := set_tree t x1) in *. assert (heap x2 !! p = Some e1) as H1p by (cbn; rewrite Eh, lookup_insert_ne, lookup_insert_eq by done; done).
  assert (heap x2 !! q = Some e2) as H2q by (cbn; by rewrite Eh, lookup_insert_eq).
  destruct (addConstraint_runs x2 p e1 c Hx1 Hi H1p) as (cs1 & R1 & P1 & S1); [by rewrite K1|by rewrite K1|]. rewrite K1 in S1.
  destruct (condition_negated default_opt _ c Hc) as (z & Ez & Hz & Vz).
  set (x3 := set_heap (<[p := set_constraints cs1 e1]> (heap x2)) x2) in *.
  assert (exec_ok x3) as Hx3 by by apply (exec_ok_put x2 p e1). assert (heap x3 !! q = Some e2) as H3q by (cbn; by rewrite lookup_insert_ne).
  destruct (addConstraint_runs x3 q e2 z Hx3 Hi H3q) as (cs2 & R2 & P2 & S2); [by rewrite K2|rewrite K2; destruct Hfalse as (ρ & ? & ?); exists ρ; by rewrite Vz|]. rewrite K2 in S2.
  set (x4 := set_heap (<[q := set_constraints cs2 e2]> (heap x3)) x3) in *. assert (exec_ok x4) as Hx4 by by apply (exec_ok_put x3 q e2).
  assert (forall s d, running x4 s d <-> if decide (s = q) then d = set_constraints cs2 e2 else if decide (s = p) then d = set_constraints cs1 e1 else running x s d) as Hrun4.
  { intros s d. unfold x4. rewrite running_put by congruence. change (removedStates x3) with (removedStates x1). rewrite Er. case_decide; [naive_solver|].
    unfold x3. rewrite running_put by congruence. change (removedStates x2) with (removedStates x1). rewrite Er. case_decide; [naive_solver|].
    unfold running. change (heap x2) with (heap x1). change (removedStates x2) with (removedStates x1). rewrite Eh, Er, !lookup_insert_ne by done. done. }
  assert (running x4 p (set_constraints cs1 e1)) as R4p by (apply Hrun4; by rewrite decide_False, decide_True by done).
  assert (running x4 q (set_constraints cs2 e2)) as R4q by (apply Hrun4; by rewrite decide_True by done).
  assert (forall r x', runs (fun fuel => if negb (MaxDepth =? 0) && (MaxDepth <=? depth (set_constraints cs1 e1)) then
      _ ← Executor.terminateStateEarly fuel p TMaxDepth; _ ← Executor.terminateStateEarly fuel q TMaxDepth; mret (None, None) else mret (Some p, Some q)) x4 r x' ->
      runs (fun fuel => Executor.split_state fuel p c None) x r x') as Hprefix.
  { intros r x' R. unfold Executor.split_state. eapply runs_bind; [by apply runs_now|]. eapply runs_bind; [exact Rb|]. eapply runs_bind; [apply runs_ret|].
    eapply runs_bind; [exact Ra|]. eapply runs_bind; [exact R1|]. eapply runs_bind; [apply runs_try, eventually_now; intros _; exact Ez|].
    eapply runs_bind; [exact R2|]. eapply runs_bind; [by apply runs_state_of, R4p|]. exact R. }
  destruct (negb (MaxDepth =? 0) && (MaxDepth <=? depth (set_constraints cs1 e1))) eqn:Ed.
  - destruct (terminate_runs x4 p _ TMaxDepth Hx4 R4p) as (x5 & R5 & Hx5 & Es5 & _ & _ & Hr5).
    destruct (terminate_runs x5 q (set_constraints cs2 e2) TMaxDepth Hx5) as (x6 & R6 & Hx6 & Es6 & _ & _ & Hr6); [by apply Hr5|].
    exists (None, None), x6. split_and!; [|done|rewrite Es6, Es5; exact Es| |].
    + apply Hprefix. eapply runs_bind; [exact R5|]. eapply runs_bind; [exact R6|]. apply runs_ret.
    + split; cbn.
      * intros s d Hs _ _. rewrite Hr6, Hr5, Hrun4. destruct (decide (s = q)) as [-> |Hsq]; [unfold running; rewrite Hq; naive_solver|].
        rewrite decide_False by done. naive_solver.
      * naive_solver.
      * intros d _ _. rewrite Hr6, Hr5. naive_solver.
      * done.
    + right. split; [done|]. apply andb_true_iff in Ed as [Ed _]. apply negb_true_iff, Z.eqb_neq in Ed. done.
  - exists (Some p, Some q), x4. split_and!; [apply Hprefix, runs_ret|done|exact Es| |].
    + split; cbn.
      * intros s d Hs _ Hsq. rewrite Hrun4, !decide_False by congruence. done.
      * intros s [[= ->]|[= ->]]; [by left|by right].
      * done.
      * intros s [= ->]. congruence.
    + left. split; cbn.
      * eexists. split_and!; [exact R4p|by apply descends_constraints|exact S1].
      * eexists. split_and!; [exact R4q|by apply descends_constraints|]. intros ρ. cbn. rewrite S2. by rewrite Vz.
Qed.

(** ** Forking *)

(** [branchingPermitted]. *)
Definition permitted (x : Executor S) (e : ExecutionState) : bool :=
  negb ((MaxMemoryInhibit && atMemoryLimit) || forkDisabled e || inhibitForking || (negb (MaxForks =? 2 ^ 32 - 1) && (MaxForks <=? forks x))).

(** What [fork] leaves: both sides; one of two possible sides, when forking is not
    allowed; or nothing, when the solver gave no answer or the state is too deep. *)
Inductive forked (x : Executor S) (p : positive) (e : ExecutionState) (c : Expr) (x' : Executor S) : option positive * option positive -> Prop :=
| forked_exact r : sides x' e c r -> forked x p e c x' r
| forked_true : permitted x e = false -> side x' e (Some p) (fun ρ => eval ρ c <> 0) -> forked x p e c x' (Some p, None)
| forked_false : permitted x e = false -> side x' e (Some p) (fun ρ => eval ρ c = 0) -> forked x p e c x' (None, Some p)
| forked_none : ~ TotalSolver S \/ MaxDepth <> 0 -> forked x p e c x' (None, None).

(** One side is followed. *)
Lemma follow_runs x p e c (b : bool) : exec_ok x -> ivcEnabled = false -> running x p e -> condition_on (constraints e) c ->
  (exists ρ, sat ρ (constraints e) /\ if b then eval ρ c <> 0 else eval ρ c = 0) ->
  exists x', runs (fun fuel => Executor.follow fuel p c b) x (if b then VTrue else VFalse) x' /\ exec_ok x' /\ store x' = store x /\ seedMap x' = seedMap x /\
    (forall q d, q <> p -> running x' q d <-> running x q d) /\ side x' e (Some p) (fun ρ => if b then eval ρ c <> 0 else eval ρ c = 0).
Proof.
  intros Hx Hi [Hp Hr] Hc Hex.
  assert (exists c', (if b then Done c else createIsZero c) = Done c' /\ condition_on (constraints e) c' /\
    forall ρ, eval ρ c' <> 0 <-> if b then eval ρ c <> 0 else eval ρ c = 0) as (c' & Ec & Hc' & Vc).
  { destruct b; [exists c; split; [done|split; [done|intros ρ; reflexivity]]|]. destruct (condition_negated default_opt _ c Hc) as (z & ? & ? & ?). exists z. split; [done|by split]. }
  destruct (addConstraint_runs x p e c' Hx Hi Hp Hc') as (cs & R & P & Hs); [destruct Hex as (ρ & ? & ?); exists ρ; by rewrite Vc|].
  exists (set_heap (<[p := set_constraints cs e]> (heap x)) x). split_and!; [|by apply (exec_ok_put x p e)|done|done| |].
  - unfold Executor.follow. destruct b.
    + injection Ec as <-. eapply runs_bind; [exact R|apply runs_ret].
    + eapply runs_bind; [apply runs_try, eventually_now; intros _; exact Ec|]. eapply runs_bind; [exact R|apply runs_ret].
  - intros q d Hq. rewrite running_put by congruence. by rewrite decide_False.
  - eexists. split_and!; [apply running_put; [congruence|]; by rewrite decide_True|by apply descends_constraints, descends_refl|].
    intros ρ. cbn. by rewrite Hs, Vc.
Qed.

(** The answer of the solver. *)
Lemma evaluate_runs x p e c : exec_ok x -> heap x !! p = Some e -> condition_on (constraints e) c ->
  exists v s, runs (fun fuel => ask_solver (TimingSolver.evaluate fuel (constraints e) c)) x v (set_solver s x) /\ s_inv s /\
    (TotalSolver S -> v <> None) /\ forall r, v = Some r -> validity_is r (MkQuery (constraints e) c).
Proof.
  intros Hx Hp [[Hwf Hs] Hw]. destruct (eo_path x Hx p e Hp) as [Hb (ρ & Hρ) _]. assert (asked ρ c) as Ha by (split; [done|by apply Hs]).
  destruct (answers_settled (fun fuel => TimingSolver.evaluate fuel (constraints e) c) _
    (evaluate_answers default_opt (constraints e) ρ Hb Hρ c Ha Hw) (evaluate_settles default_opt (constraints e) ρ Hb Hρ c Ha) (solver x)) as (v & s & E & Hs' & Ht & Hv).
  { apply Hx. }
  exists v, s. split_and!; [by apply runs_ask_solver|done..].
Qed.

(** The default configuration: no recorded path or test is followed, and no limits
    on the share of forks. *)
Record plain_run : Prop := MkPlain {
  pl_ivc : ivcEnabled = false;
  pl_path : replayPath = None;
  pl_test : replayKTest = None;
  pl_static : static_limit_reached = false
}.

(** The answer is True or False, or the state may split, or one side is followed. *)
Lemma answered_runs x p e c internal v : exec_ok x -> plain_run -> running x p e -> room e -> condition_on (constraints e) c ->
  (TotalSolver S -> v <> None) -> (forall r, v = Some r -> validity_is r (MkQuery (constraints e) c)) ->
  exists r x', runs (fun fuel => Executor.fork_answered fuel p c internal false v) x r x' /\ exec_ok x' /\ store x' = store x /\ only p r x x' /\ forked x p e c x' r.
Proof.
  intros Hx [Hi Hpath Hkt _] Hrun Hroom Hc Htot Hv. pose proof Hrun as [Hp Hpr].
  assert (forall r, (r = (Some p, None) \/ r = (None, Some p)) -> only p r x x) as Honly by (intros r [-> | ->]; split; cbn; try done; intros q [|]; try done; left; congruence).
  destruct v as [[]|]; [specialize (Hv _ eq_refl); cbn in Hv..|].
  - exists (Some p, None), x. split_and!; try done; [|by apply Honly; left|].
    + eapply runs_bind; [unfold Executor.decide_unseeded; rewrite Hpath; apply runs_ret|]. eapply runs_bind; [by apply runs_now|].
      rewrite (eo_unseeded x Hx), lookup_empty. eapply runs_bind; apply runs_ret.
    + apply forked_exact. split; cbn; [exists e; split_and!; [done|apply descends_refl|]; intros ρ; split; [|tauto]; intros Hρ; split; [done|by apply Hv]|].
      intros ρ Hρ. by apply Hv.
  - exists (None, Some p), x. split_and!; try done; [|by apply Honly; right|].
    + eapply runs_bind; [unfold Executor.decide_unseeded; rewrite Hpath; apply runs_ret|]. eapply runs_bind; [by apply runs_now|].
      rewrite (eo_unseeded x Hx), lookup_empty. eapply runs_bind; apply runs_ret.
    + apply forked_exact. split; cbn; [intros ρ Hρ He; by apply He, Hv|]. exists e. split_and!; [done|apply descends_refl|]. intros ρ. split; [|tauto].
      intros Hρ. split; [done|by apply Hv].
  - destruct Hv as [Hf%not_valid_ex Ht%not_valid_not_ex].
    assert (runs (fun _ => Executor.branchingPermitted p) x (permitted x e) x) as Rperm.
    { unfold Executor.branchingPermitted. eapply runs_bind; [by apply runs_state_of|]. by apply runs_now. }
    destruct (permitted x e) eqn:Eperm.
    + destruct (split_runs x p e c Hx Hi Hrun Hroom Hc Ht Hf) as (r & x' & R & Hx' & Es & Ho & Hres). exists r, x'. split_and!; try done.
      * eapply runs_bind.
        { unfold Executor.decide_unseeded. rewrite Hpath, Hkt. eapply runs_bind; [by apply runs_now|]. eapply runs_bind; [exact Rperm|]. apply runs_ret. }
        eapply runs_bind; [by apply runs_now|]. rewrite (eo_unseeded x Hx), lookup_empty. eapply runs_bind; [apply runs_ret|]. exact R.
      * destruct Hres as [|[-> Hd]]; [by apply forked_exact|apply forked_none; by right].
    + destruct (getBool_ok (theRNG x) (eo_rng x Hx)) as (b & g & Eb & Hg). set (x1 := set_theRNG g x).
      destruct (follow_runs x1 p e c b) as (x' & R & Hx' & Es & Esd & Hoth & Hside); [by apply exec_ok_rng|done..|by destruct b|].
      exists (if b then (Some p, None) else (None, Some p)), x'. split_and!; try done.
      * eapply runs_bind.
        { unfold Executor.decide_unseeded. rewrite Hpath, Hkt. eapply runs_bind; [by apply runs_now|]. eapply runs_bind; [exact Rperm|]. cbn iota.
          eapply runs_bind; [apply runs_now; intros fuel; unfold random; by rewrite Eb|]. exact R. }
        eapply runs_bind; [by apply runs_now|]. rewrite Esd. cbn. rewrite (eo_unseeded x Hx), lookup_empty. eapply runs_bind; [apply runs_ret|].
        destruct b; apply runs_ret.
      * split.
        -- intros q d Hq _ _. by apply Hoth.
        -- destruct b; cbn; intros q [|]; try done; left; congruence.
        -- by destruct b.
        -- by destruct b.
      * destruct b; [by apply forked_true|by apply forked_false].
  - destruct (terminate_runs (set_heap (<[p := set_pc (prevPC e) e]> (heap x)) x) p (set_pc (prevPC e) e) TSolver) as (x' & R & Hx' & Es & _ & _ & Hr').
    { by apply (exec_ok_put x p e); [..|apply (eo_path x Hx p e)]. }
    { apply running_put; [congruence|]. by rewrite decide_True. }
    exists (None, None), x'. split_and!; [|done|done| |].
    + eapply runs_bind; [eapply runs_bind; [by apply runs_state_of|by apply runs_now]|]. eapply runs_bind; [exact R|]. apply runs_ret.
    + split; cbn; [|by intros q [|]| |done].
      * intros q d Hq _ _. rewrite Hr', running_put by congruence. rewrite decide_False by done. tauto.
      * intros d _ _. rewrite Hr'. tauto.
    + apply forked_none. left. intros T. by apply (Htot T).
Qed.

Lemma fork_runs x p e c internal : exec_ok x -> plain_run -> running x p e -> room e -> condition_on (constraints e) c ->
  exists r x', runs (fun fuel => Executor.fork fuel p c internal) x r x' /\ exec_ok x' /\ store x' = store x /\ only p r x x' /\ forked x p e c x' r.
Proof.
  intros Hx Hpl Hrun Hroom Hc. pose proof Hrun as [Hp Hpr]. pose proof Hpl as [_ _ _ Hst].
  destruct (evaluate_runs x p e c Hx Hp Hc) as (v & s & Rv & Hs & Htot & Hv).
  destruct (answered_runs (set_solver s x) p e c internal v) as (r & x' & R & Hx' & Es & Ho & Hf); try done; [by apply exec_ok_solver|].
  exists r, x'. split_and!; try done.
  - unfold Executor.fork. eapply runs_bind; [by apply runs_now|]. rewrite (eo_unseeded x Hx), lookup_empty.
    eapply runs_bind; [apply (runs_ext _ (fun _ => mret c)); [intros fuel; unfold Executor.maxStaticPctChecks; rewrite Hst; by destruct (Memory.is_constant c)|apply runs_ret]|].
    eapply runs_bind; [by apply runs_state_of|]. eapply runs_bind; [exact Rv|]. exact R.
  - destruct Ho. by split.
  - inversion Hf; subst; [by apply forked_exact|by apply forked_true|by apply forked_false|by apply forked_none].
Qed.

End Sound.

Section Runs.
Context {AP : APIntOps} {APL : APIntLaws} {AH : ArrayHeap} {OP : ExprOptions} {VO : VisitorOptions} {CO : ConstraintOptions} {TO : TimingOptions}.
Context {PO : PTreeOptions} {EO : ExecutorOptions} (default_opt : ConstArrayOpt = false).
Context {S : Type} {ops : SolverImpl S} {sol : SoundSolver S}.
Implicit Types (x : Executor S) (F : list ConstraintSet).

(** One thing that happens; [F] collects the paths that came to an end. *)
Inductive happens : Executor S * list ConstraintSet -> Executor S * list ConstraintSet -> Prop :=
| hap_fork x F p e c internal r x' : running x p e -> room e -> condition_on (constraints e) c ->
    runs (fun fuel => Executor.fork fuel p c internal) x r x' -> happens (x, F) (x', F)
| hap_exit x F p e reason x' : running x p e ->
    runs (fun fuel => Executor.terminate fuel p reason) x tt x' -> happens (x, F) (x', F ++ [constraints e])
| hap_update x F x' : runs (fun fuel => Executor.updateStates fuel) x tt x' -> happens (x, F) (x', F).

(** The input [ρ] is on the path of a state that runs, or on one that came to an end. *)
Definition on_path x F (ρ : env) (a : positive + nat) : Prop :=
  match a with
  | inl p => exists e, running x p e /\ sat ρ (constraints e)
  | inr i => exists cs, F !! i = Some cs /\ sat ρ cs
  end.

(** Every input is on one path. *)
Definition partition x F : Prop := forall ρ, exists a, on_path x F ρ a /\ forall b, on_path x F ρ b -> b = a.

(** Forks are allowed, and the solver always answers. *)
Record forking : Prop := MkForking {
  fk_plain : plain_run;
  fk_total : TotalSolver S;
  fk_depth : MaxDepth = 0;
  fk_forks : MaxForks = 2 ^ 32 - 1;
  fk_inhibit : inhibitForking = false;
  fk_memory : MaxMemoryInhibit && atMemoryLimit = false
}.

Record explored x F : Prop := MkExplored {
  ex_ok : exec_ok x;
  ex_forks p e : running x p e -> forkDisabled e = false;
  ex_partition : partition x F
}.

(** One member [a0] is replaced by the members of [N]. *)
Lemma unique_split {A} (P P' N : A -> Prop) (a0 : A) :
  (forall a, a <> a0 -> ~ N a -> P' a <-> P a) -> (forall a, N a -> a <> a0 -> ~ P a) -> (~ N a0 -> ~ P' a0) ->
  (P a0 -> exists a, N a /\ P' a) -> (forall a, N a -> P' a -> P a0) -> (forall a b, N a -> N b -> P' a -> P' b -> a = b) ->
  (exists a, P a /\ forall b, P b -> b = a) -> exists a, P' a /\ forall b, P' b -> b = a.
Proof.
  intros Hout Hnew H0 Hto Hfrom Huniq (a & Ha & Hu). destruct (classic (a = a0)) as [-> |Hne].
  - destruct (Hto Ha) as (b & Hb & Pb). exists b. split; [done|]. intros d Pd. destruct (classic (N d)) as [Nd|Nd]; [by apply Huniq|].
    assert (d <> a0) as Hd by (intros ->; by apply H0). destruct (Hd (Hu d (proj1 (Hout d Hd Nd) Pd))).
  - assert (~ N a) as Na by (intros Na; by apply (Hnew a)). exists a. split; [by apply Hout|]. intros d Pd.
    destruct (classic (N d)) as [Nd|Nd]; [destruct Hne; symmetry; by apply Hu, (Hfrom d)|].
    apply Hu. apply Hout; [|done..]. intros ->. by apply H0.
Qed.

(** The results of [fork] on the paths. *)
Lemma partition_fork x F p e c r x' : running x p e -> only p r x x' -> sides x' e c r -> partition x F -> partition x' F.
Proof.
  intros Hrun [Hoth Hnew Hgone Htwo] [H1 H2] Hp ρ.
  assert (forall q, r.1 = Some q -> (exists e', running x' q e' /\ sat ρ (constraints e')) <-> sat ρ (constraints e) /\ eval ρ c <> 0) as P1.
  { intros q E. rewrite E in H1. destruct H1 as (e' & Hr & _ & Hs). split; [intros (d & [Hd _] & Hsat)|intros Hsat; exists e'; by rewrite Hs].
    destruct Hr as [Hr _]. assert (d = e') as -> by congruence. by apply Hs. }
  assert (forall q, r.2 = Some q -> (exists e', running x' q e' /\ sat ρ (constraints e')) <-> sat ρ (constraints e) /\ eval ρ c = 0) as P2.
  { intros q E. rewrite E in H2. destruct H2 as (e' & Hr & _ & Hs). split; [intros (d & [Hd _] & Hsat)|intros Hsat; exists e'; by rewrite Hs].
    destruct Hr as [Hr _]. assert (d = e') as -> by congruence. by apply Hs. }
  assert (forall d, running x p d -> d = e) as Huniq by (intros d [Hd _]; destruct Hrun; congruence).
  apply (unique_split (on_path x F ρ) _ (fun a => match a with inl q => r.1 = Some q \/ r.2 = Some q | inr _ => False end) (inl p)); [..|apply Hp].
  - intros [q|i] Hq HN; [|done]. cbn in *. setoid_rewrite Hoth; [done|congruence|tauto|tauto].
  - intros [q|i] HN Hq; [|done]. destruct (Hnew q HN) as [-> |Hnone]; [done|]. intros (d & [Hd _] & _). congruence.
  - intros HN (d & Hd & _). apply (Hgone d); tauto.
  - intros (d & Hd & Hs). rewrite (Huniq d Hd) in Hs. destruct (classic (eval ρ c = 0)) as [E|E].
    + destruct (r.2) as [q|] eqn:E2; [|by destruct (H2 ρ Hs)]. exists (inl q). split; [by right|]. by apply (P2 q).
    + destruct (r.1) as [q|] eqn:E1; [|by destruct (H1 ρ Hs)]. exists (inl q). split; [by left|]. by apply (P1 q).
  - intros [q|i] HN; [|done]. intros Hq. exists e. split; [done|]. destruct HN as [E|E]; [by apply (P1 q)|by apply (P2 q)].
  - intros [q|i] [q'|i'] HN HN' Hq Hq'; try done. destruct HN as [E|E], HN' as [E'|E']; try congruence.
    + apply (P1 q E) in Hq as [_ ?]. by apply (P2 q' E') in Hq' as [_ ?].
    + apply (P2 q E) in Hq as [_ ?]. by apply (P1 q' E') in Hq' as [_ ?].
Qed.

Lemma partition_exit x F p e x' : running x p e -> (forall q d, running x' q d <-> running x q d /\ q <> p) ->
  partition x F -> partition x' (F ++ [constraints e]).
Proof.
  intros Hrun Hoth Hp ρ. assert (forall d, running x p d -> d = e) as Huniq by (intros d [Hd _]; destruct Hrun; congruence).
  apply (unique_split (on_path x F ρ) _ (fun a => a = inr (length F)) (inl p)); [..|apply Hp].
  - intros [q|i] Hq HN; cbn.
    + setoid_rewrite Hoth. split; intros (d & Hd & Hs); exists d; [tauto|]. split; [split; [done|congruence]|done].
    + assert (i <> length F) by congruence. split; intros (cs & E & Hs); exists cs; (split; [|done]).
      * apply lookup_app_Some in E as [|[Hl E]]; [done|]. apply list_lookup_singleton_Some in E as [E _]. unfold ConstraintSet in *. lia.
      * by apply lookup_app_l_Some.
  - intros a -> _ (cs & E & _). apply lookup_lt_Some in E. unfold ConstraintSet in *. lia.
  - intros _ (d & Hd & _). by apply Hoth in Hd as [_ ?].
  - intros (d & Hd & Hs). rewrite (Huniq d Hd) in Hs. exists (inr (length F)). split; [done|]. exists (constraints e). split; [|done].
    by rewrite lookup_app_r, Nat.sub_diag by done.
  - intros a -> (cs & E & Hs). exists e. split; [done|]. rewrite lookup_app_r, Nat.sub_diag in E by done. by injection E as <-.
  - by intros a b -> ->.
Qed.

Lemma runs_same {A} (op : nat -> EM S A) x a a' x1 x2 : runs op x a x1 -> runs op x a' x2 -> a = a' /\ x1 = x2.
Proof. intros H1 H2. pose proof (eventually_same _ _ _ H1 H2) as E. by injection E. Qed.

Lemma happens_explored x F x' F' : forking -> explored x F -> happens (x, F) (x', F') -> explored x' F'.
Proof.
  intros [Hpl Htot Hd Hmf Hin Hmem] [Hx Hfk Hp] H. inversion H as [? ? p e c internal r ? Hrun Hroom Hc R|? ? p e reason ? Hrun R|? ? ? R]; subst.
  - destruct (fork_runs default_opt x p e c internal Hx Hpl Hrun Hroom Hc) as (r1 & x1 & R1 & Hx1 & _ & Ho & Hf).
    destruct (runs_same _ _ _ _ _ _ R R1) as [<- <-]. clear R1.
    assert (permitted x e = true) as Hper by (unfold permitted; by rewrite Hmem, (Hfk p e Hrun), Hin, Hmf).
    assert (sides x' e c r) as Hs by (destruct Hf as [r Hs|Hs _|Hs _|[Hs|Hs]]; [done|congruence|congruence|done|done]).
    split; [done| |by eapply partition_fork].
    assert (forall o P, side x' e o P -> forall q d, o = Some q -> running x' q d -> forkDisabled d = false) as Hside.
    { intros o P Ho' q d -> [Hq _]. destruct Ho' as (d' & [Hq' _] & C & _). assert (d = d') as -> by congruence. rewrite (cp_forkDisabled _ _ (de_copies _ _ C)). by eapply Hfk. }
    intros q d Hq. destruct (decide (r.1 = Some q)) as [E1|E1]; [exact (Hside _ _ (proj1 Hs) q d E1 Hq)|].
    destruct (decide (r.2 = Some q)) as [E2|E2]; [exact (Hside _ _ (proj2 Hs) q d E2 Hq)|].
    destruct (decide (q = p)) as [-> |Hne]; [by destruct (on_gone _ _ _ _ Ho d E1 E2)|]. eapply Hfk. by apply (on_others _ _ _ _ Ho q d).
  - destruct (terminate_runs default_opt x p e reason Hx Hrun) as (x1 & R1 & Hx1 & _ & _ & _ & Hr). destruct (runs_same _ _ _ _ _ _ R R1) as [_ <-].
    split; [done| |by eapply partition_exit]. intros q d Hq. apply Hr in Hq as [Hq _]. by eapply Hfk.
  - destruct (updateStates_runs default_opt x Hx) as (x1 & R1 & Hx1 & _ & _ & Hr). destruct (runs_same _ _ _ _ _ _ R R1) as [_ <-].
    split; [done| |].
    + intros q d Hq%Hr. by eapply Hfk.
    + intros ρ. destruct (Hp ρ) as (a & Ha & Hu).
      assert (forall b, on_path x' F' ρ b <-> on_path x F' ρ b) as E by (intros [q|i]; cbn; [by setoid_rewrite Hr|done]).
      exists a. split; [by apply E|]. intros b Hb%E. by apply Hu.
Qed.

End Runs.
