(* ===== verification/MemoryAccess.v ===== *)
(** Loads and stores of the executor are right: one access through a pointer that is
    inside an object, and the loop over the objects a pointer may point into. *)
From stdpp Require Import base numbers list gmap.
From Stdlib Require Import ZArith Lia Classical.
From S2P Require Import Prelude APInt Bits Searcher Expr Semantics ConstantOps ExprCreate CreateSound OpsSound ReadSound SliceSound ExprWeight Visitor FindReads Solver Constraints Evaluator InitialValues Memory MemorySound MemoryObjects MemoryManager MapOfSets ImmutableTree AddressSpace CopyOnWrite TimingSolver Resolution Resolutions SeedInfo PTree PTreeShape RandomPath ExecutorState Fork ExecutorMemory ForkSound.
Local Open Scope Z_scope.

(** ** Object states that are as good as others *)

Section Refreshed.
Context {AH : ArrayHeap}.

(** The same contents, perhaps with other bytes in the caches. *)
Record refreshed (o o' : ObjectState) : Prop := MkRefreshed {
  rf_ok : os_ok o -> os_ok o';
  rf_same : same_contents o o'
}.

Lemma refreshed_refl o : refreshed o o.
Proof. split; [done|apply same_contents_refl]. Qed.

Lemma refreshed_trans a b c : refreshed a b -> refreshed b c -> refreshed a c.
Proof. intros [A1 A2] [B1 B2]. split; [auto|by eapply same_contents_trans]. Qed.

Lemma os_ok_owner n o : os_ok o -> os_ok (with_owner n o).
Proof. intros [[] H1 H2 H3]. split; [by split|exact H1|exact H2|exact H3]. Qed.

Lemma byte_owner ρ n o i : byte ρ (with_owner n o) i = byte ρ o i.
Proof. done. Qed.

Lemma refreshed_owner n o o' : refreshed o o' -> refreshed (with_owner n o) (with_owner n o').
Proof.
  intros [H [H1 H2 H3 H4 H5]]. split; [|by split]. intros Ho. apply os_ok_owner, H. destruct o. exact (os_ok_owner _ _ Ho).
Qed.

Lemma os_ok_masks o : os_ok o -> masks_ok o.
Proof. intros [[] _ _ _]. by split. Qed.

Lemma read_value_refreshed {TC : TargetContext} ρ o o' i w : refreshed o o' -> width_ok w -> 0 <= i -> i + access_bytes w <= os_size o -> read_value ρ o' i w = read_value ρ o i w.
Proof.
  intros [_ [_ _ _ _ H]] Hw Hi Hs. unfold read_value, access_bytes in *. destruct Hw as [-> |[Hw Hm]]; [rewrite Z.eqb_refl in *; by rewrite H by lia|].
  rewrite (not_Bool w Hw Hm) in *. unfold word_at. apply word_ext. intros j Hj. apply H. pose proof (byte_index_range (w / 8) j). lia.
Qed.

End Refreshed.

(** ** What the states of an executor see *)

Section Views.
Context {AH : ArrayHeap} {S : Type}.
Implicit Types x : Executor S.

(** The state sees the object with these contents; their owner does not matter. *)
Definition sees x (d : ExecutionState) (mo : MemoryObject) (o : ObjectState) : Prop :=
  view (store x) (addressSpace d) (address mo) = Some (mo, o).

Record keeps x d x' d' : Prop := MkKeeps {
  kp_sees mo o : sees x d mo o -> exists o', sees x' d' mo o' /\ refreshed o o';
  kp_only mo o' : sees x' d' mo o' -> exists o, sees x d mo o
}.

Lemma sees_unique x d mo o o' : sees x d mo o -> sees x d mo o' -> o' = o.
Proof. unfold sees. congruence. Qed.

Lemma keeps_view x d x' d' : (forall k, view (store x') (addressSpace d') k = view (store x) (addressSpace d) k) -> keeps x d x' d'.
Proof.
  intros H. split; unfold sees.
  - intros mo o Ho. exists o. rewrite H. split; [done|apply refreshed_refl].
  - intros mo o Ho. exists o. by rewrite <- H.
Qed.

Lemma keeps_refl x d : keeps x d x d.
Proof. by apply keeps_view. Qed.

Lemma keeps_trans x d x1 d1 x2 d2 : keeps x d x1 d1 -> keeps x1 d1 x2 d2 -> keeps x d x2 d2.
Proof.
  intros [F1 B1] [F2 B2]. split.
  - intros mo o (o1 & H1 & R1)%F1. destruct (F2 mo o1 H1) as (o2 & H2 & R2). exists o2. split; [done|by eapply refreshed_trans].
  - intros mo o (o1 & H1)%B2. by eapply B1.
Qed.

Lemma keeps_copies x d x' d' : store x' = store x -> copies d d' -> keeps x d x' d'.
Proof. intros Es C. apply keeps_view. intros k. unfold view. by rewrite Es, (cp_objects _ _ C). Qed.

Lemma keeps_same x d x' d' d1 : keeps x d x' d' -> addressSpace d1 = addressSpace d' -> keeps x d x' d1.
Proof. intros [F B] E. split; unfold sees in *; rewrite E; done. Qed.

End Views.

(** ** Changes of the store *)

Section Changes.
Context {AP : APIntOps} {APL : APIntLaws} {AH : ArrayHeap} {OP : ExprOptions} {VO : VisitorOptions} {CO : ConstraintOptions} {TO : TimingOptions}.
Context {PO : PTreeOptions} {EO : ExecutorOptions}.
Context {S : Type} {ops : SolverImpl S} {sol : SoundSolver S}.
Implicit Types x : Executor S.

Lemma system_ok_refresh s p o o' : system_ok s -> CopyOnWrite.store s !! p = Some o -> copyOnWriteOwner o' = copyOnWriteOwner o -> masks_ok o' ->
  system_ok (MkSystem (<[p := o']> (CopyOnWrite.store s)) (spaces s)).
Proof.
  intros [H1 H2 H3 H4] Hp Eo Hm. split; cbn; [exact H1| |exact H3|].
  - intros i a k y Ha Hy. destruct (H2 i a k y Ha Hy) as (q & Hq & Hown & Hmask). destruct (decide (p = y.2)) as [-> |Hne].
    + exists o'. rewrite lookup_insert_eq. split_and!; [done|..|done]; assert (q = o) as -> by congruence; rewrite Eo; apply Hown.
    + exists q. by rewrite lookup_insert_ne.
  - intros i j a b k k' y z q Ha Hb Hij Hy Hz E. destruct (decide (p = y.2)) as [-> |Hne].
    + rewrite lookup_insert_eq. intros [= <-]. rewrite Eo. by apply (H4 i j a b k k' y z).
    + rewrite lookup_insert_ne by done. by apply (H4 i j a b k k' y z).
Qed.

Lemma view_refresh (st : Store) p o o' a k : st !! p = Some o -> copyOnWriteOwner o' = copyOnWriteOwner o ->
  view (<[p := o']> st) a k = match ImmutableTree.lookup k (objects a) with
                              | Some y => if decide (y.2 = p) then Some (y.1, with_owner 0 o') else view st a k
                              | None => None
                              end.
Proof.
  intros Hp Eo. unfold view. destruct (ImmutableTree.lookup k (objects a)) as [y|]; [|done]. cbn. case_decide as E.
  - rewrite E, lookup_insert_eq. done.
  - by rewrite lookup_insert_ne.
Qed.

Lemma sees_refresh x d st n p o o' : store x !! p = Some o -> st = <[p := o']> (store x) -> refreshed o o' -> keeps x d (set_store st n x) d.
Proof.
  intros Hp -> Hr. assert (copyOnWriteOwner o' = copyOnWriteOwner o) as Eo by apply Hr. split; unfold sees; cbn.
  - intros mo q Hq. rewrite (view_refresh _ _ o) by done. unfold view in Hq |- *. destruct (ImmutableTree.lookup (address mo) (objects (addressSpace d))) as [y|]; [|done].
    cbn in *. case_decide as E; [|exists q; split; [exact Hq|apply refreshed_refl]]. rewrite E, Hp in Hq. injection Hq as <- <-. eexists. split; [done|].
    by apply refreshed_owner.
  - intros mo q. rewrite (view_refresh _ _ o) by done. unfold view. destruct (ImmutableTree.lookup (address mo) (objects (addressSpace d))) as [y|]; [|done].
    cbn. case_decide as E; [rewrite E, Hp; cbn; intros [= <- _]; by eexists|intros H; by exists q].
Qed.

(** The memories change, and nothing else. *)
Lemma exec_ok_memory x h st n : exec_ok x -> (forall p, is_Some (h !! p) <-> is_Some (heap x !! p)) ->
  (forall p d, h !! p = Some d -> exists e, heap x !! p = Some e /\ constraints d = constraints e) ->
  system_ok (MkSystem st (addressSpace <$> h)) -> exec_ok (set_store st n (set_heap h x)).
Proof.
  intros [Hpath Hmem Hsol Hrng Hseed Htree Hknown Hnew Hold Ha Hr] Hd Hc Hs. split; try done.
  - intros p d Hp. destruct (Hc p d Hp) as (e & He & ->). by eapply Hpath.
  - eapply tree_shows_ext; [|exact Htree]. intros p. cbn. by rewrite Hd.
  - intros p. cbn. rewrite Hd. apply Hknown.
Qed.

Lemma exec_ok_store x st n : exec_ok x -> system_ok (MkSystem st (addressSpace <$> heap x)) -> exec_ok (set_store st n x).
Proof.
  intros Hx Hs. assert (set_store st n x = set_store st n (set_heap (heap x) x)) as -> by by destruct x.
  apply exec_ok_memory; try done. intros p d Hp. by exists d.
Qed.

Lemma exec_ok_space x p e a st n : exec_ok x -> heap x !! p = Some e -> system_ok (MkSystem st (<[p := a]> (addressSpace <$> heap x))) ->
  exec_ok (set_store st n (set_heap (<[p := set_addressSpace a e]> (heap x)) x)).
Proof.
  intros Hx Hp Hs. apply exec_ok_memory; [done|..].
  - intros q. destruct (decide (q = p)) as [-> |]; [rewrite lookup_insert_eq, Hp; by split|by rewrite lookup_insert_ne].
  - intros q d. destruct (decide (q = p)) as [-> |]; [rewrite lookup_insert_eq; intros [= <-]; by exists e|rewrite lookup_insert_ne by done; intros Hq; by exists d].
  - by rewrite fmap_insert.
Qed.

Lemma running_heap x x' q d : heap x' = heap x -> removedStates x' = removedStates x -> running x' q d <-> running x q d.
Proof. unfold running. by intros -> ->. Qed.

(** ** One access *)

Context {TC : TargetContext} {MO : MemoryOptions} {AC : ArrayCache} {ACL : ArrayCacheLaws} {OO : MemoryOperationOptions}.
Context (default_opt : ConstArrayOpt = false).

(** A memory whose objects do not overlap, and are in good order. *)
Record healthy x d : Prop := MkHealthy {
  he_layout : layout_ok (objects (addressSpace d));
  he_fits y : y ∈ pairs (objects (addressSpace d)) -> object_fits y.1;
  he_sees mo o : sees x d mo o -> os_ok o /\ object o = mo
}.

Lemma healthy_keeps x d x' d' : healthy x d -> objects (addressSpace d') = objects (addressSpace d) -> keeps x d x' d' -> healthy x' d'.
Proof.
  intros [H1 H2 H3] E [F B]. split; [by rewrite E|by rewrite E|]. intros mo o' Ho'. destruct (B mo o' Ho') as (o & Ho). destruct (F mo o Ho) as (o1 & Ho1 & [Hok Hsame]).
  assert (o' = o1) as -> by by eapply sees_unique. destruct (H3 mo o Ho) as [Hoo Eo]. split; [by apply Hok|]. by rewrite (same_object _ _ Hsame).
Qed.

(** The pointer to the state of an object. *)
Lemma sees_pair x p e y : exec_ok x -> heap x !! p = Some e -> healthy x e -> y ∈ pairs (objects (addressSpace e)) ->
  exists o, store x !! y.2 = Some o /\ sees x e y.1 (with_owner 0 o) /\ os_ok o /\ object o = y.1 /\ ImmutableTree.lookup (address y.1) (objects (addressSpace e)) = Some y.
Proof.
  intros Hx Hp Hh Hy. pose proof (he_layout _ _ Hh) as [Hg _ _]. pose proof (lookup_pairs _ _ Hg Hy) as Hl.
  destruct (sys_bound _ (eo_memory x Hx) p (addressSpace e) (address y.1) y) as (o & Ho & _ & _); [cbn; by rewrite lookup_fmap, Hp|done|].
  exists o. assert (sees x e y.1 (with_owner 0 o)) as Hs by (by apply view_lookup). destruct (he_sees _ _ Hh _ _ Hs) as [Hok Eo]. split_and!; try done.
  destruct o. exact (os_ok_owner _ _ Hok).
Qed.

(** The access of [n] bytes at the pointer is inside the object. *)
Definition inside (ρ : env) (a : Expr) (mo : MemoryObject) (n : Z) : Prop :=
  address mo <= eval ρ a /\ eval ρ a + n <= address mo + mo_size mo.

(** A pointer: when its offset in an object is not constant, then no offset of a byte
    of the access folds to a constant. *)
Definition unfolding (a : Expr) (mo : MemoryObject) (n : Z) : Prop :=
  forall off o, getOffsetExpr mo a = Done off -> ZExtExpr_create off Int32 = Done o -> is_constant o = false ->
    forall i e, 0 <= i < n -> AddExpr_create o (ConstantExpr (MkAPInt 32 i)) = Done e -> is_constant e = false.

Record pointer (a : Expr) : Prop := MkPointer { pt_wf : wf a; pt_width : getWidth a = getPointerWidth }.

Lemma inside_offset ρ a mo n off : object_fits mo -> pointer a -> 0 < n -> inside ρ a mo n -> getOffsetExpr mo a = Done off ->
  wf off /\ offset_of ρ off = eval ρ a - address mo.
Proof.
  intros Hf [Hwf Hw] Hn [H1 H2] E. destruct (getOffsetExpr_ok default_opt mo a Hf Hwf Hw) as (o & Eo & Ho & _ & Hv). rewrite E in Eo. injection Eo as <-.
  split; [done|]. destruct Hf as [HW Ha Hs He Hb]. assert (0 <= eval ρ a < 2 ^ getPointerWidth) as Hr by (rewrite <- Hw; by apply eval_range).
  unfold offset_of. rewrite Hv, (Z.mod_small (eval ρ a - address mo)) by lia. apply Z.mod_small. lia.
Qed.

Lemma inside_addressable ρ a mo n off : object_fits mo -> pointer a -> 0 < n -> inside ρ a mo n -> getOffsetExpr mo a = Done off -> unfolding a mo n ->
  addressable (mo_size mo) off n /\ n <= mo_size mo.
Proof.
  intros Hf Hp Hn Hi E Hu. destruct (inside_offset ρ a mo n off Hf Hp Hn Hi E) as [Hwf Ho]. pose proof Hi as [Hi1 Hi2].
  split; [|lia]. unfold addressable. destruct (truncate_ok off Hwf) as (o & Eo & Hwo & _ & Hv). rewrite Eo.
  specialize (Hu off o E Eo). specialize (Hv ρ). rewrite Ho in Hv. destruct o as [c| | | | | | | |]; [cbn in Hv; lia|by apply Hu..].
Qed.

(** ** A read *)

Definition set_local (target : Z) (v : Expr) (d : ExecutionState) : ExecutionState :=
  match stack d with
  | [] => d
  | sf :: frames => set_stack (MkFrame (caller sf) (allocas sf) (<[target := v]> (locals sf)) :: frames) d
  end.

Lemma set_local_fields target v d : addressSpace (set_local target v d) = addressSpace d /\ constraints (set_local target v d) = constraints d.
Proof. unfold set_local. by destruct (stack d). Qed.

Lemma copies_local target v d d' : copies d d' -> copies (set_local target v d) (set_local target v d').
Proof. intros [C1 C2 C3 C4 C5 C6 C7]. unfold set_local. rewrite C3. destruct (stack d) eqn:E; split; cbn; congruence. Qed.

Lemma bindLocal_runs x p d target v : heap x !! p = Some d -> stack d <> [] ->
  runs (fun _ => MemoryOperations.bindLocal target p v) x tt (set_heap (<[p := set_local target v d]> (heap x)) x).
Proof.
  intros Hp Hs. unfold MemoryOperations.bindLocal, set_local. eapply runs_bind; [by apply runs_state_of|]. cbn beta. destruct (stack d); [done|]. by apply runs_now.
Qed.

Section OneAccess.
Context (x : Executor S) (b : positive) (d : ExecutionState) (y : ObjectPair) (a : Expr).
Context (Hx : exec_ok x) (Hb : running x b d) (Hh : healthy x d) (Hy : y ∈ pairs (objects (addressSpace d))) (Ha : pointer a).

(** What an access leaves alone: the states that run, and what the others see. *)
Record apart (x' : Executor S) : Prop := MkApart {
  ap_running q d1 : q <> b -> running x' q d1 <-> running x q d1;
  ap_keeps q d1 : q <> b -> running x q d1 -> keeps x d1 x' d1
}.

Lemma read_runs w target off : width_ok w -> stack d <> [] -> unfolding a y.1 (access_bytes w) -> (exists ρ, inside ρ a y.1 (access_bytes w)) ->
  getOffsetExpr y.1 a = Done off ->
  exists v x', runs (fun fuel => MemoryOperations.perform fuel b (MemRead w target) y.1 y.2 (Done off)) x tt x' /\ exec_ok x' /\ apart x' /\
    running x' b (set_local target v d) /\ keeps x d x' (set_local target v d) /\
    forall ρ o, inside ρ a y.1 (access_bytes w) -> sees x d y.1 o -> eval ρ v = read_value ρ o (eval ρ a - address y.1) w.
Proof.
  intros Hw Hst Hu [ρ0 Hρ0] Eoff. pose proof Hb as [Hp Hr]. pose proof (he_fits _ _ Hh y Hy) as Hf.
  assert (0 < access_bytes w) as Hn by (unfold access_bytes; destruct Hw as [-> |[Hw Hm]]; [done|rewrite (not_Bool w Hw Hm); by destruct (whole_bytes w Hw Hm)]).
  destruct (sees_pair x b d y Hx Hp Hh Hy) as (o & Ho & Hsee & Hok & Eo & Hl).
  destruct (inside_offset ρ0 a y.1 _ off Hf Ha Hn Hρ0 Eoff) as [Hwf _]. destruct (inside_addressable ρ0 a y.1 _ off Hf Ha Hn Hρ0 Eoff Hu) as [Hadd Hsz].
  rewrite <- Eo, (os_object _ (os_ok_shape _ Hok)) in Hadd, Hsz.
  destruct (read_ok default_opt o (arrays x) off w Hok Hwf Hw Hadd Hsz) as (v & o' & id' & E & Hv & Hwv & Hok' & Hsame & Hval).
  assert (refreshed o o') as Hrf by by split.
  set (x1 := set_store (<[y.2 := o']> (store x)) id' x).
  assert (exec_ok x1) as Hx1.
  { apply exec_ok_store; [done|]. apply (system_ok_refresh (memory x) y.2 o o'); [apply Hx|done|apply Hsame|by apply os_ok_masks]. }
  assert (forall d1, keeps x d1 x1 d1) as Hk by (intros d1; by apply (sees_refresh x d1 _ _ y.2 o o')).
  destruct (set_local_fields target v d) as [Es Ec].
  exists v, (set_heap (<[b := set_local target v d]> (heap x1)) x1). split_and!.
  - unfold MemoryOperations.perform. eapply runs_bind; [by apply runs_try, eventually_Done|].
    eapply runs_bind; [|by apply bindLocal_runs]. apply runs_now. intros fuel. unfold MemoryOperations.read_object. rewrite Ho. cbn. by rewrite E.
  - apply (exec_ok_put x1 b d); [done|exact Hp|done|rewrite Ec; by apply (eo_path x Hx b d)].
  - split.
    + intros q d1 Hq. rewrite running_put by (cbn; congruence). by rewrite decide_False.
    + intros q d1 _ _. destruct (Hk d1) as [F B]. by split.
  - apply running_put; [cbn; congruence|]. by rewrite decide_True.
  - eapply (keeps_same _ _ _ d); [|done]. destruct (Hk d) as [F B]. by split.
  - intros ρ q Hin Hq. rewrite (sees_unique x d y.1 _ _ Hsee Hq). destruct (inside_offset ρ a y.1 _ off Hf Ha Hn Hin Eoff) as [_ Eo2].
    rewrite Hval by (rewrite Eo2; destruct Hin; rewrite <- (os_object _ (os_ok_shape _ Hok)), Eo; lia). by rewrite Eo2.
Qed.

(** ** A write *)

(** The object after a write of the value at an offset. *)
Record written_with (ρ : env) (off n v : Z) (o o' : ObjectState) : Prop := MkWritten {
  wr_ok : os_ok o';
  wr_object : object o' = object o;
  wr_size : os_size o' = os_size o;
  wr_byte j : 0 <= j < os_size o -> byte ρ o' j = if (off <=? j) && (j <? off + n) then v / 2 ^ (8 * byte_index n (j - off)) mod 2 ^ 8 else byte ρ o j
}.

Lemma getWriteable_ok o : store x !! y.2 = Some o -> os_ok o -> readOnly o = false ->
  exists q a' st' o1, AddressSpace.getWriteable y.1 y.2 (addressSpace d) (store x) = Done (q, a', st') /\ st' !! q = Some o1 /\ os_ok o1 /\ with_owner 0 o1 = with_owner 0 o.
Proof.
  intros Ho Hok Hr. unfold AddressSpace.getWriteable. rewrite Ho. cbn [deref mbind outcome_bind]. rewrite Hr. cbn [negb]. destruct (cowKey (addressSpace d) =? copyOnWriteOwner o).
  - by exists y.2, (addressSpace d), (store x), o.
  - destruct (ObjectState_copy_ok o Hok Hr) as (-> & Hc & _). cbn [mbind outcome_bind]. do 3 eexists. exists (with_owner (cowKey (addressSpace d)) (with_owner 0 o)).
    split_and!; [done|by rewrite lookup_insert_eq|by apply os_ok_owner|done].
Qed.

Lemma terminated_apart reason : exists x', runs (fun fuel => Executor.terminate fuel b reason) x tt x' /\ exec_ok x' /\ apart x' /\ forall d', ~ running x' b d'.
Proof.
  destruct (terminate_runs default_opt x b d reason Hx Hb) as (x' & R & Hx' & Es & _ & _ & Hr). exists x'.
  split_and!; [exact R|done| |].
  - split.
    + intros q d1 Hq. rewrite Hr. tauto.
    + intros q d1 _ _. apply keeps_copies; [done|apply copies_refl].
  - intros d'. rewrite Hr. tauto.
Qed.

Lemma write_runs value off : wf value -> width_ok (getWidth value) -> unfolding a y.1 (access_bytes (getWidth value)) ->
  (exists ρ, inside ρ a y.1 (access_bytes (getWidth value))) -> getOffsetExpr y.1 a = Done off -> forall o, sees x d y.1 o ->
  exists x', runs (fun fuel => MemoryOperations.perform fuel b (MemWrite value) y.1 y.2 (Done off)) x tt x' /\ exec_ok x' /\ apart x' /\
    if readOnly o then forall d', ~ running x' b d'
    else exists a', running x' b (set_addressSpace a' d) /\
      (exists o', sees x' (set_addressSpace a' d) y.1 o' /\
         forall ρ, inside ρ a y.1 (access_bytes (getWidth value)) -> written_with ρ (eval ρ a - address y.1) (access_bytes (getWidth value)) (eval ρ value) o o') /\
      forall mo q, address mo <> address y.1 -> sees x' (set_addressSpace a' d) mo q <-> sees x d mo q.
Proof.
  intros Hv Hw Hu [ρ0 Hρ0] Eoff o0 Hsee0. set (n := access_bytes (getWidth value)) in *. pose proof Hb as [Hp Hr]. pose proof (he_fits _ _ Hh y Hy) as Hf.
  assert (0 < n) as Hn by (unfold n, access_bytes; destruct Hw as [-> |[Hw Hm]]; [done|rewrite (not_Bool _ Hw Hm); by destruct (whole_bytes _ Hw Hm)]).
  destruct (sees_pair x b d y Hx Hp Hh Hy) as (o & Ho & Hsee & Hok & Eo & Hl). rewrite (sees_unique x d y.1 _ _ Hsee Hsee0). clear o0 Hsee0.
  assert (runs (fun _ => MemoryOperations.object_at y.2) x o x) as Rat by (apply runs_now; intros _; unfold MemoryOperations.object_at; by rewrite Ho).
  change (readOnly (with_owner 0 o)) with (readOnly o). destruct (readOnly o) eqn:Ero.
  { destruct (terminated_apart TReadOnly) as (x' & R & Hx' & Hap & Hend). exists x'. split_and!; try done.
    unfold MemoryOperations.perform. eapply runs_bind; [exact Rat|]. rewrite Ero. exact R. }
  destruct (inside_offset ρ0 a y.1 _ off Hf Ha Hn Hρ0 Eoff) as [Hwf _]. destruct (inside_addressable ρ0 a y.1 _ off Hf Ha Hn Hρ0 Eoff Hu) as [Hadd Hsz].
  destruct (getWriteable_ok o Ho Hok Ero) as (q & a' & st' & o1 & Egw & Hq & Hok1 & Eo1).
  assert (object o1 = object o /\ os_size o1 = os_size o /\ forall ρ j, byte ρ o1 j = byte ρ o j) as (Eob & Esz & Hby).
  { split_and!; [exact (f_equal object Eo1)|exact (f_equal os_size Eo1)|]. intros ρ j. rewrite <- (byte_owner ρ 0 o1), <- (byte_owner ρ 0 o). by rewrite Eo1. }
  rewrite <- Eo, (os_object _ (os_ok_shape _ Hok)), <- Esz in Hadd, Hsz.
  destruct (write_ok default_opt o1 off value Hok1 Hwf Hv Hw Hadd Hsz) as (o2 & Ewr & Hok2 & [Fr1 Fr2 Fr3 Fr4] & Hby2). fold n in Hby2.
  pose proof (step_write b (memory x) (addressSpace d) y.1 y.2 q a' st' o1 o2) as Hst. cbn in Hst.
  specialize (Hst ltac:(by rewrite lookup_fmap, Hp)). specialize (Hst ltac:(rewrite <- surjective_pairing; exact Hl)). specialize (Hst Egw Hq Fr1 ltac:(by apply os_ok_masks)).
  pose proof (step_ok _ _ _ _ (eo_memory x Hx) Hst) as Hsys.
  set (x1 := set_store (<[q := o2]> st') (arrays x) (set_heap (<[b := set_addressSpace a' d]> (heap x)) x)).
  exists x1. split_and!.
  - unfold MemoryOperations.perform. eapply runs_bind; [exact Rat|]. rewrite Ero. eapply runs_bind.
    { apply runs_now. intros fuel. unfold MemoryOperations.getWriteable. rewrite Hp. cbn [deref mbind outcome_bind]. by rewrite Egw. }
    eapply runs_bind; [by apply runs_try, eventually_Done|]. apply runs_now. intros fuel. unfold MemoryOperations.write_object. cbn. rewrite Hq. cbn. by rewrite Ewr.
  - by apply exec_ok_space.
  - split.
    + intros s d1 Hs. unfold x1. rewrite (running_heap (set_heap (<[b := set_addressSpace a' d]> (heap x)) x)) by done. rewrite running_put by congruence. by rewrite decide_False.
    + intros s d1 Hs [Hd1 _]. apply keeps_view. intros k.
      destruct (view_others b _ _ _ s (addressSpace d1) (eo_memory x Hx) Hst Hs) as (bb & Hbb & Hview); [cbn; by rewrite lookup_fmap, Hd1|].
      cbn in Hbb. rewrite lookup_insert_ne, lookup_fmap, Hd1 in Hbb by done. injection Hbb as <-. apply Hview.
  - pose proof (view_own b _ _ _ (addressSpace d) a' (eo_memory x Hx) Hst) as Hown. cbn in Hown.
    specialize (Hown ltac:(by rewrite lookup_fmap, Hp) ltac:(by rewrite lookup_insert_eq)) as [_ Hown].
    exists a'. split_and!.
    + apply running_put; [congruence|]. by rewrite decide_True.
    + exists (with_owner 0 o2). split; [unfold sees; cbn; by rewrite Hown, Z.eqb_refl|]. intros ρ Hin.
      destruct (inside_offset ρ a y.1 _ off Hf Ha Hn Hin Eoff) as [_ Eo2]. split; [by apply os_ok_owner|cbn; congruence|cbn; congruence|].
      intros j Hj. rewrite !byte_owner, Hby2, Eo2, Hby; cbn in Hj; destruct Hin; [|rewrite Eo2; lia|rewrite Eo2, Esz, <- (os_object _ (os_ok_shape _ Hok)), Eo; lia|congruence].
      destruct (Z.leb_spec (eval ρ a - address y.1) j), (Z.ltb_spec j (eval ρ a - address y.1 + n)); cbn [andb]; try done.
      pose proof (byte_index_range n (j - (eval ρ a - address y.1))). by rewrite (proj2 (Z.ltb_lt _ _)) by lia.
    + intros mo p Hne. unfold sees. cbn. rewrite Hown. by rewrite (proj2 (Z.eqb_neq _ _)).
Qed.

(** ** Either *)

Definition op_bytes (op : MemoryOperation) : Z := access_bytes (MemoryOperations.op_width op).

Definition op_ok (op : MemoryOperation) (e : ExecutionState) : Prop :=
  match op with MemRead w _ => width_ok w /\ stack e <> [] | MemWrite value => wf value /\ width_ok (getWidth value) end.

Definition allowed (op : MemoryOperation) (o : ObjectState) : Prop :=
  match op with MemRead _ _ => True | MemWrite _ => readOnly o = false end.

(** In the run [ρ], the state [e'] is [e] after the access: a register has the value
    of the bytes and the memory is as it was, or the bytes have the value and the
    other objects are as they were. *)
Definition accessed (op : MemoryOperation) (a : Expr) (mo : MemoryObject) (x0 : Executor S) (e : ExecutionState) (ρ : env) (x' : Executor S) (e' : ExecutionState) : Prop :=
  exists o, sees x0 e mo o /\
    match op with
    | MemRead w target => exists v, copies (set_local target v e) e' /\ keeps x0 e x' e' /\ eval ρ v = read_value ρ o (eval ρ a - address mo) w
    | MemWrite value =>
        readOnly o = false /\ copies (set_addressSpace (addressSpace e') e) e' /\
        (exists o', sees x' e' mo o' /\ written_with ρ (eval ρ a - address mo) (access_bytes (getWidth value)) (eval ρ value) o o') /\
        (forall m q, address m <> address mo -> sees x0 e m q -> exists q', sees x' e' m q' /\ refreshed q q') /\
        (forall m q, address m <> address mo -> sees x' e' m q -> exists q0, sees x0 e m q0)
    end.

Lemma op_bytes_positive op e : op_ok op e -> 0 < op_bytes op.
Proof.
  assert (forall w, width_ok w -> 0 < access_bytes w) as H.
  { intros w [-> |[Hw Hm]]; [done|]. unfold access_bytes. rewrite (not_Bool w Hw Hm). by destruct (whole_bytes w Hw Hm). }
  destruct op; cbn; intros []; by apply H.
Qed.

Lemma perform_runs op : op_ok op d -> unfolding a y.1 (op_bytes op) -> (exists ρ, inside ρ a y.1 (op_bytes op)) ->
  exists x', runs (fun fuel => MemoryOperations.perform fuel b op y.1 y.2 (getOffsetExpr y.1 a)) x tt x' /\ exec_ok x' /\ apart x' /\
    (forall e, running x' b e -> constraints e = constraints d /\ forall ρ, inside ρ a y.1 (op_bytes op) -> accessed op a y.1 x d ρ x' e) /\
    (forall o, sees x d y.1 o -> allowed op o -> exists e, running x' b e).
Proof.
  intros Hop Hu Hin. destruct Ha as [Hwf Hwa]. pose proof Hb as [Hp _].
  destruct (getOffsetExpr_ok default_opt y.1 a (he_fits _ _ Hh y Hy) Hwf Hwa) as (off & Eoff & _). rewrite Eoff.
  destruct (sees_pair x b d y Hx Hp Hh Hy) as (o & _ & Hsee & _). destruct op as [w target|value]; cbn in Hop; destruct Hop as [H1 H2].
  - destruct (read_runs w target off H1 H2 Hu Hin Eoff) as (v & x' & R & Hx' & Hap & [Hr Hr'] & Hk & Hval). exists x'. split_and!; try done.
    + intros e [He _]. assert (e = set_local target v d) as -> by congruence. destruct (set_local_fields target v d) as [_ Ec]. split; [done|].
      intros ρ Hρ. eexists. split; [exact Hsee|]. exists v. split_and!; [apply copies_refl|done|by apply Hval].
    + intros _ _ _. by eexists.
  - destruct (write_runs value off H1 H2 Hu Hin Eoff _ Hsee) as (x' & R & Hx' & Hap & H). exists x'. split_and!; try done.
    + intros e He. destruct (readOnly _) eqn:Ero; [by destruct (H e)|]. destruct H as (a' & [Hr _] & (o' & Ho' & Hwr) & Hoth). destruct He as [He _].
      assert (e = set_addressSpace a' d) as -> by congruence. split; [done|]. intros ρ Hρ. eexists. split; [exact Hsee|]. split_and!.
      * exact Ero.
      * by split.
      * exists o'. split; [done|by apply Hwr].
      * intros m q Hm Hq. exists q. split; [by apply Hoth|apply refreshed_refl].
      * intros m q Hm Hq%Hoth; [by exists q|done].
    + intros q Hq Hal. rewrite (sees_unique x d y.1 _ _ Hsee Hq) in Hal. unfold allowed in Hal. rewrite Hal in H. destruct H as (a' & Hr & _). by eexists.
Qed.

End OneAccess.

(** The access as it is seen earlier and later: by a state from which the accessing one
    was forked, and after other states went on. *)
Lemma accessed_moved op a mo x e x1 e1 x2 e2 x3 ρ : healthy x e -> op_ok op e -> keeps x e x1 e1 -> copies e e1 -> inside ρ a mo (op_bytes op) ->
  accessed op a mo x1 e1 ρ x2 e2 -> keeps x2 e2 x3 e2 -> accessed op a mo x e ρ x3 e2.
Proof.
  intros Hh Hop Hk C Hin (o1 & Ho1 & H) Hk2. destruct (kp_only _ _ _ _ Hk mo o1 Ho1) as (o & Ho). destruct (kp_sees _ _ _ _ Hk mo o Ho) as (o1' & Ho1' & Hr).
  rewrite (sees_unique x1 e1 mo o1 o1' Ho1 Ho1') in Hr. clear o1' Ho1'. destruct (he_sees _ _ Hh mo o Ho) as [Hok Eo]. destruct Hin as [Hin1 Hin2].
  rewrite <- Eo, (os_object _ (os_ok_shape _ Hok)), Eo in Hin2. exists o. split; [done|]. destruct op as [w target|value]; cbn in Hop.
  - destruct H as (v & C2 & K & E). exists v. split_and!.
    + eapply copies_trans; [by apply copies_local|done].
    + eapply keeps_trans; [done|by eapply keeps_trans].
    + rewrite E. unfold op_bytes in Hin2. cbn in Hin2. apply read_value_refreshed; [done|apply Hop|lia|lia].
  - destruct H as (Hro & C2 & (o' & Ho' & [W1 W2 W3 W4]) & Hf & Hb). pose proof (rf_same _ _ Hr) as [_ R2 R3 R4 R5]. split_and!.
    + congruence.
    + eapply (copies_trans _ (set_addressSpace (addressSpace e2) e1)); [|done]. destruct C. by split.
    + destruct (kp_sees _ _ _ _ Hk2 mo o' Ho') as (o'' & Ho'' & [S1 [_ S2 S3 _ S5]]). exists o''. split; [done|]. split; [auto|congruence|congruence|].
      intros j Hj. rewrite S5 by lia. rewrite W4, R5 by lia. done.
    + intros m q Hm Hq. destruct (kp_sees _ _ _ _ Hk m q Hq) as (q1 & Hq1 & R1). destruct (Hf m q1 Hm Hq1) as (q2 & Hq2 & R6).
      destruct (kp_sees _ _ _ _ Hk2 m q2 Hq2) as (q3 & Hq3 & R7). exists q3. split; [done|]. eapply refreshed_trans; [done|by eapply refreshed_trans].
    + intros m q Hm Hq. destruct (kp_only _ _ _ _ Hk2 m q Hq) as (q2 & Hq2). destruct (Hb m q2 Hm Hq2) as (q1 & Hq1). by apply (kp_only _ _ _ _ Hk m q1).
Qed.

End Changes.
