(* ===== verification/MemoryOperation.v ===== *)
(** The memory operation as a whole: the loop that forks a state for each object, and
    [executeMemoryOperation] with its fast path. *)
From stdpp Require Import base numbers list gmap.
From Stdlib Require Import ZArith Lia Classical.
From S2P Require Import Prelude APInt Bits Searcher Expr Semantics ConstantOps ExprCreate CreateSound OpsSound ReadSound SliceSound ExprWeight Visitor FindReads Solver Constraints Evaluator InitialValues Memory MemorySound MemoryObjects MemoryManager MapOfSets ImmutableTree AddressSpace CopyOnWrite TimingSolver Resolution Resolutions SeedInfo PTree PTreeShape RandomPath ExecutorState Fork ExecutorMemory ForkSound MemoryAccess.
Local Open Scope Z_scope.

Section Operation.
Context {AP : APIntOps} {APL : APIntLaws} {AH : ArrayHeap} {OP : ExprOptions} {VO : VisitorOptions} {CO : ConstraintOptions} {TO : TimingOptions}.
Context {PO : PTreeOptions} {EO : ExecutorOptions}.
Context {S : Type} {ops : SolverImpl S} {sol : SoundSolver S}.
Context {TC : TargetContext} {MO : MemoryOptions} {AC : ArrayCache} {ACL : ArrayCacheLaws} {OO : MemoryOperationOptions}.
Context (default_opt : ConstArrayOpt = false).
Implicit Types x : Executor S.
Implicit Types e d : ExecutionState.

(** The question about an object, and what may be asked about it. *)
Lemma inside_condition cs a mo n : object_fits mo -> pointer a -> (forall ρ, sat ρ cs -> div_safe ρ a) -> 0 < n < 2 ^ 32 ->
  exists c, getBoundsCheckPointer_bytes mo a n = Done c /\ condition_on cs c /\ forall ρ, eval ρ c <> 0 <-> inside ρ a mo n.
Proof.
  intros Hf [Hwf Hw] Hs Hn. destruct (getBoundsCheckPointer_bytes_ok default_opt mo a n Hf Hwf Hw Hn) as (c & E & Hc & Hwc & Hv). exists c. split_and!; [done| |].
  - split; [|done]. split; [done|]. intros ρ Hρ. specialize (Hs ρ Hρ). unfold getBoundsCheckPointer_bytes, getOffsetExpr, getBaseExpr in E.
    rewrite pointer_constant in E by (destruct Hf; lia). cbn [mbind outcome_bind] in E.
    destruct (SubExpr_create a (ConstantExpr (MkAPInt getPointerWidth (address mo)))) as [o| | |] eqn:Eo; [|done..]. cbn [mbind outcome_bind] in E.
    assert (div_safe ρ o) as Ho by (apply (create_div_safe default_opt ρ Sub a _ o eq_refl Hs (const_div_safe ρ _) Eo)).
    unfold getBoundsCheckOffset_bytes in E. destruct (n <=? mo_size mo).
    + eapply (create_div_safe default_opt ρ Ult o _ c); [done|exact Ho|apply const_div_safe|exact E].
    + injection E as <-. apply const_div_safe.
  - intros ρ. rewrite Hv. unfold inside. case_bool_decide; cbn; split; try done; lia.
Qed.

(** A state before an access, and the executor around it. *)
Record ready (x : Executor S) (u : positive) (d : ExecutionState) (op : MemoryOperation) (a : Expr) (rl : list ObjectPair) : Prop := MkReady {
  rd_ok : exec_ok x;
  rd_running : running x u d;
  rd_healthy : healthy x d;
  rd_op : op_ok op d;
  rd_bytes : op_bytes op < 2 ^ 32;
  rd_pointer : pointer a;
  rd_safe ρ : sat ρ (constraints d) -> div_safe ρ a;
  rd_objects y : y ∈ rl -> y ∈ pairs (objects (addressSpace d)) /\ unfolding a y.1 (op_bytes op);
  rd_room : cowKey (addressSpace d) + Z.of_nat (length rl) < 2 ^ 32;
  rd_forks : forkDisabled d = false
}.

(** The other states, and what they see, are as they were. *)
Definition others (u : positive) x x' : Prop := forall q e, q <> u -> running x q e -> running x' q e /\ keeps x e x' e.

(** All the rest comes from [u]. *)
Definition derived (u : positive) x (q : positive) : Prop := q = u \/ forall e, ~ running x q e.

Definition access_condition (ρ : env) (a : Expr) (op : MemoryOperation) (y : ObjectPair) : Prop := inside ρ a y.1 (op_bytes op).

(** What the access of one object leaves, if it was possible at all. *)
Record one_done (u : positive) x d (op : MemoryOperation) (a : Expr) (y : ObjectPair) (bo : option positive) x1 x2 : Prop := MkOneDone {
  od_ok : exec_ok x2;
  od_running q e : bo <> Some q -> running x2 q e <-> running x1 q e;
  od_keeps q e : bo <> Some q -> running x1 q e -> keeps x1 e x2 e;
  od_sound q e ρ : bo = Some q -> running x2 q e -> sat ρ (constraints e) ->
    sat ρ (constraints d) /\ access_condition ρ a op y /\ accessed op a y.1 x d ρ x2 e;
  od_complete ρ o : sat ρ (constraints d) -> access_condition ρ a op y -> sees x d y.1 o -> allowed op o ->
    exists q e, bo = Some q /\ running x2 q e /\ sat ρ (constraints e)
}.

Lemma one_access x u d op a y rl bo uo x1 c : ready x u d op a (y :: rl) -> exec_ok x1 -> store x1 = store x ->
  (forall ρ, eval ρ c <> 0 <-> access_condition ρ a op y) -> side x1 d bo (fun ρ => eval ρ c <> 0) -> only u (bo, uo) x x1 ->
  exists x2, runs (fun fuel => match bo with Some b => MemoryOperations.perform fuel b op y.1 y.2 (getOffsetExpr y.1 a) | None => mret () end) x1 tt x2 /\
    one_done u x d op a y bo x1 x2.
Proof.
  intros Hrd Hx1 Es Hc Hside Hon. destruct (rd_objects _ _ _ _ _ _ Hrd y ltac:(by left)) as [Hy Hu]. destruct bo as [b|].
  - destruct Hside as (db & Hb & [C _] & Hs). assert (keeps x d x1 db) as Hk by by apply keeps_copies.
    assert (healthy x1 db) as Hh by (eapply healthy_keeps; [apply Hrd|apply C|done]).
    assert (op_ok op db) as Hop by (pose proof (rd_op _ _ _ _ _ _ Hrd) as H; destruct op; cbn in *; [by rewrite (cp_stack _ _ C)|done]).
    assert (y ∈ pairs (objects (addressSpace db))) as Hy' by by rewrite (cp_objects _ _ C).
    pose proof Hb as [Hpb _]. destruct (pa_sat _ (eo_path x1 Hx1 b db Hpb)) as (ρ0 & [Hρ0 Hc0]%Hs).
    destruct (perform_runs default_opt x1 b db y a Hx1 Hb Hh Hy' (rd_pointer _ _ _ _ _ _ Hrd) op Hop Hu) as (x2 & R & Hx2 & [A1 A2] & Hsnd & Hcmp).
    { exists ρ0. by apply Hc. }
    exists x2. split; [exact R|]. split; [done|intros q e Hq; apply A1; congruence|intros q e Hq; apply A2; congruence|..].
    + intros q e ρ [= <-] He Hρ. destruct (Hsnd e He) as [Ec Hacc]. rewrite Ec in Hρ. apply Hs in Hρ as [Hd Hin%Hc]. split_and!; [done|done|].
      eapply accessed_moved; [apply Hrd|apply Hrd|exact Hk|exact C|done|by apply Hacc|apply keeps_refl].
    + intros ρ o Hρ Hin Ho Hal. destruct (kp_sees _ _ _ _ Hk _ _ Ho) as (o1 & Ho1 & [_ Hsame]). destruct (Hcmp o1 Ho1) as (e & He).
      { destruct op; cbn in *; [done|]. by rewrite (same_readOnly _ _ Hsame). }
      exists b, e. split_and!; [done..|]. destruct (Hsnd e He) as [-> _]. apply Hs. split; [done|by apply Hc].
  - exists x1. split; [apply runs_ret|]. split; try done; [intros; apply keeps_refl|]. intros ρ o Hρ Hin. destruct (Hside ρ Hρ). by apply Hc.
Qed.

(** What the loop leaves: a state for each object in which the access is possible, and
    the state [r] for the runs in which the pointer is in none of them. *)
Record all_done (u : positive) x d (op : MemoryOperation) (a : Expr) (rl : list ObjectPair) (r : option positive) x' : Prop := MkAllDone {
  ad_ok : exec_ok x';
  ad_others : others u x x';
  ad_left : match r with
            | Some q => derived u x q /\ exists e, running x' q e /\
                forall ρ, sat ρ (constraints e) <-> sat ρ (constraints d) /\ forall y, y ∈ rl -> ~ access_condition ρ a op y
            | None => forall ρ, sat ρ (constraints d) -> exists y, y ∈ rl /\ access_condition ρ a op y
            end;
  ad_sound q e ρ : derived u x q -> r <> Some q -> running x' q e -> sat ρ (constraints e) ->
    sat ρ (constraints d) /\ exists y, y ∈ rl /\ access_condition ρ a op y /\ accessed op a y.1 x d ρ x' e;
  ad_complete ρ y o : sat ρ (constraints d) -> y ∈ rl -> access_condition ρ a op y -> sees x d y.1 o -> allowed op o ->
    exists q e, derived u x q /\ r <> Some q /\ running x' q e /\ sat ρ (constraints e)
}.

(** The pointer is inside one object at most. *)
Lemma inside_unique x u d op a rl y z ρ : ready x u d op a rl -> y ∈ rl -> z ∈ rl -> access_condition ρ a op y -> access_condition ρ a op z -> y = z.
Proof.
  intros Hrd Hy Hz [Y1 Y2] [Z1 Z2]. pose proof (op_bytes_positive op d (rd_op _ _ _ _ _ _ Hrd)) as Hn.
  apply (points_into_unique (objects (addressSpace d)) (he_layout _ _ (rd_healthy _ _ _ _ _ _ Hrd)) y z (eval ρ a));
    [by apply (rd_objects _ _ _ _ _ _ Hrd)|by apply (rd_objects _ _ _ _ _ _ Hrd)|right; lia|right; lia].
Qed.

(** The situation of the state that goes on in the loop. *)
Lemma ready_tail x u d op a y rl x1 u1 d1 : ready x u d op a (y :: rl) -> exec_ok x1 -> running x1 u1 d1 -> keeps x d x1 d1 -> descends d d1 ->
  (forall ρ, sat ρ (constraints d1) -> sat ρ (constraints d)) -> ready x1 u1 d1 op a rl.
Proof.
  intros [H1 H2 H3 H4 H5 H6 H7 H8 H9 H10] Hx1 Hr1 Hk [C K] Hs. split; try done.
  - eapply healthy_keeps; [exact H3|apply C|done].
  - destruct op; cbn in *; [by rewrite (cp_stack _ _ C)|done].
  - intros ρ Hρ. by apply H7, Hs.
  - intros z Hz. rewrite (cp_objects _ _ C). apply H8. by right.
  - cbn in H9. lia.
  - by rewrite (cp_forkDisabled _ _ C).
Qed.

Section Loop.
Context (Hfork : forking).

(** A fork at the question about an object. *)
Lemma fork_inside x u d op a y rl : ready x u d op a (y :: rl) -> exists c bo uo x1,
  getBoundsCheckPointer_bytes y.1 a (op_bytes op) = Done c /\ runs (fun fuel => Executor.fork fuel u c true) x (bo, uo) x1 /\
  exec_ok x1 /\ store x1 = store x /\ only u (bo, uo) x x1 /\ (forall ρ, eval ρ c <> 0 <-> access_condition ρ a op y) /\ sides x1 d c (bo, uo).
Proof.
  intros Hrd. pose proof Hrd as [Hx Hu Hh Hop Hlt Hp Hs Hrl Hroom Hfd]. destruct (Hrl y ltac:(by left)) as [Hy _].
  destruct (inside_condition (constraints d) a y.1 (op_bytes op) (he_fits _ _ Hh y Hy) Hp Hs) as (c & Ec & Hc & Hv); [by pose proof (op_bytes_positive op d Hop)|].
  destruct Hfork as [Hpl Htot Hd Hmf Hin Hmem].
  destruct (fork_runs default_opt x u d c true Hx Hpl Hu) as ([bo uo] & x1 & R & Hx1 & Es & Hon & Hf); [unfold room; cbn in Hroom; lia|done|].
  assert (permitted x d = true) as Hper by (unfold permitted; by rewrite Hmem, Hfd, Hin, Hmf).
  exists c, bo, uo, x1. split_and!; try done. destruct Hf as [r Hsd|H|H|[H|H]]; [done|congruence|congruence|done|done].
Qed.

(** The other states at a fork and an access. *)
Lemma others_step x u d op a y rl bo uo x1 x2 q e : ready x u d op a (y :: rl) -> store x1 = store x -> only u (bo, uo) x x1 ->
  one_done u x d op a y bo x1 x2 -> q <> u -> running x q e -> bo <> Some q /\ uo <> Some q /\ running x2 q e /\ keeps x e x2 e.
Proof.
  intros Hrd Es [O1 O2 O3 O4] Hod Hq Hr. assert (bo <> Some q /\ uo <> Some q) as [Hbo Huo].
  { split; intros E; (destruct (O2 q) as [|Hnone]; [cbn; rewrite E; tauto|done|destruct Hr as [Hr _]; congruence]). }
  assert (running x1 q e) as Hr1 by (by apply O1). split_and!; try done; [by apply (od_running _ _ _ _ _ _ _ _ _ Hod)|].
  eapply keeps_trans; [apply keeps_copies; [exact Es|apply copies_refl]|]. by apply (od_keeps _ _ _ _ _ _ _ _ _ Hod q).
Qed.

(** A derived state after a fork and an access is one of the results. *)
Lemma derived_step x u d op a y bo uo x1 x2 q e : only u (bo, uo) x x1 -> one_done u x d op a y bo x1 x2 -> derived u x q -> running x2 q e ->
  bo = Some q \/ uo = Some q.
Proof.
  intros [O1 O2 O3 O4] Hod Hq Hr. destruct (decide (bo = Some q)) as [|Hbo]; [by left|]. destruct (decide (uo = Some q)) as [|Huo]; [by right|].
  apply (od_running _ _ _ _ _ _ _ _ _ Hod q e Hbo) in Hr. destruct (decide (q = u)) as [-> |Hne]; [by destruct (O3 e Hbo Huo)|].
  apply (O1 q e Hne Hbo Huo) in Hr. destruct Hq as [|Hq]; [done|by destruct (Hq e)].
Qed.

Lemma derived_results x u bo uo x1 q : only u (bo, uo) x x1 -> bo = Some q \/ uo = Some q -> derived u x q.
Proof. intros [_ O2 _ _] Hq. destruct (O2 q Hq) as [|Hn]; [by left|]. right. intros e [He _]. congruence. Qed.

(** No run is left after this object. *)
Lemma loop_ends x u d op a y rl bo x1 x2 c : ready x u d op a (y :: rl) -> store x1 = store x -> only u (bo, None) x x1 ->
  (forall ρ, eval ρ c <> 0 <-> access_condition ρ a op y) -> (forall ρ, sat ρ (constraints d) -> ~ eval ρ c = 0) ->
  one_done u x d op a y bo x1 x2 -> all_done u x d op a (y :: rl) None x2.
Proof.
  intros Hrd Es Hon Hc Hno Hod. split.
  - apply Hod.
  - intros q e Hq Hr. by destruct (others_step x u d op a y rl bo None x1 x2 q e Hrd Es Hon Hod Hq Hr) as (_ & _ & ? & ?).
  - intros ρ Hρ. exists y. split; [by left|]. by apply Hc, Hno.
  - intros q e ρ Hq _ Hr Hρ. destruct (derived_step x u d op a y bo None x1 x2 q e Hon Hod Hq Hr) as [Hbo|]; [|done].
    destruct (od_sound _ _ _ _ _ _ _ _ _ Hod q e ρ Hbo Hr Hρ) as (? & ? & ?). split; [done|]. exists y. split; [by left|done].
  - intros ρ z o Hρ Hz Hin Ho Hal. assert (z = y) as ->.
    { eapply (inside_unique x u d op a (y :: rl)); [done|done|by left|done|]. by apply Hc, Hno. }
    destruct (od_complete _ _ _ _ _ _ _ _ _ Hod ρ o Hρ Hin Ho Hal) as (q & e & Hbo & Hr & Hs). exists q, e. split_and!; try done.
    eapply derived_results; [exact Hon|by left].
Qed.

(** The rest of the loop goes on with [u1]. *)
Lemma loop_goes_on x u d op a y rl bo u1 x1 x2 d1 c r x3 : ready x u d op a (y :: rl) -> store x1 = store x -> only u (bo, Some u1) x x1 ->
  (forall ρ, eval ρ c <> 0 <-> access_condition ρ a op y) -> running x2 u1 d1 -> keeps x d x2 d1 -> copies d d1 ->
  (forall ρ, sat ρ (constraints d1) <-> sat ρ (constraints d) /\ eval ρ c = 0) ->
  one_done u x d op a y bo x1 x2 -> all_done u1 x2 d1 op a rl r x3 -> all_done u x d op a (y :: rl) r x3.
Proof.
  intros Hrd Es Hon Hc Hu1 Hk C Hs Hod Had. pose proof (on_two _ _ _ _ Hon) as Htwo.
  assert (forall ρ, sat ρ (constraints d1) <-> sat ρ (constraints d) /\ ~ access_condition ρ a op y) as Hs'.
  { intros ρ. rewrite Hs, <- Hc. split; intros []; split; try done; lia. }
  assert (forall q, derived u1 x2 q -> (exists e, running x3 q e) -> derived u x q) as Hder.
  { intros q [-> |Hq] [e He]; [eapply derived_results; [exact Hon|by right]|]. destruct (decide (q = u)) as [-> |Hne]; [by left|]. right. intros e' He'.
    by destruct (others_step x u d op a y rl bo _ x1 x2 q e' Hrd Es Hon Hod Hne He') as (_ & _ & Hr2%Hq & _). }
  assert (forall q, bo = Some q -> q <> u1) as Hbo1 by (intros q E ->; by apply (Htwo u1)).
  split.
  - apply Had.
  - intros q e Hq Hr. destruct (others_step x u d op a y rl bo _ x1 x2 q e Hrd Es Hon Hod Hq Hr) as (_ & Hne & Hr2 & Hk2).
    destruct (ad_others _ _ _ _ _ _ _ _ Had q e) as [Hr3 Hk3]; [congruence|done|]. split; [done|]. by eapply keeps_trans.
  - pose proof (ad_left _ _ _ _ _ _ _ _ Had) as Hl. destruct r as [q|].
    + destruct Hl as (Hq & e & He & Hse). split; [apply Hder; [done|by exists e]|]. exists e. split; [done|]. intros ρ. rewrite Hse, Hs'. split.
      * intros [[? Hny] Hrest]. split; [done|]. intros z [-> |Hz]%elem_of_cons; [done|by apply Hrest].
      * intros [? Hall]. split_and!; [done|apply Hall; by left|]. intros z Hz. apply Hall. by right.
    + intros ρ Hρ. destruct (classic (access_condition ρ a op y)) as [|Hn]; [exists y; split; [by left|done]|].
      destruct (Hl ρ) as (z & Hz & ?); [by apply Hs'|]. exists z. split; [by right|done].
  - intros q e ρ Hq Hne Hr Hρ. destruct (classic (derived u1 x2 q)) as [Hq1|Hq1].
    + destruct (ad_sound _ _ _ _ _ _ _ _ Had q e ρ Hq1 Hne Hr Hρ) as (Hd1 & z & Hz & Hin & Hacc). apply Hs' in Hd1 as [Hd1 _]. split; [done|].
      exists z. split_and!; [by right|done|]. eapply accessed_moved; [apply Hrd|apply Hrd|exact Hk|exact C|exact Hin|exact Hacc|apply keeps_refl].
    + assert (q <> u1 /\ exists e', running x2 q e') as [Hqu [e' He']].
      { split; [intros ->; apply Hq1; by left|]. apply not_all_not_ex. intros Hall. apply Hq1. by right. }
      destruct (ad_others _ _ _ _ _ _ _ _ Had q e' Hqu He') as [[Hr' _] Hk3]. destruct Hr as [Hr _]. assert (e' = e) as -> by congruence.
      destruct (derived_step x u d op a y bo _ x1 x2 q e Hon Hod Hq He') as [Hbo|]; [|congruence].
      destruct (od_sound _ _ _ _ _ _ _ _ _ Hod q e ρ Hbo He' Hρ) as (Hd1 & Hin & Hacc). split; [done|]. exists y. split_and!; [by left|done|].
      eapply accessed_moved; [apply Hrd|apply Hrd|apply keeps_refl|apply copies_refl|exact Hin|exact Hacc|exact Hk3].
  - intros ρ z o Hρ Hz Hin Ho Hal. destruct (classic (access_condition ρ a op y)) as [Hy|Hn].
    + assert (z = y) as -> by (eapply (inside_unique x u d op a (y :: rl)); [done|done|by left|done..]).
      destruct (od_complete _ _ _ _ _ _ _ _ _ Hod ρ o Hρ Hin Ho Hal) as (q & e & Hbo & Hr & Hsat). exists q, e.
      destruct (ad_others _ _ _ _ _ _ _ _ Had q e (Hbo1 q Hbo) Hr) as [Hr3 _]. split_and!; try done; [eapply derived_results; [exact Hon|by left]|].
      intros ->. destruct (ad_left _ _ _ _ _ _ _ _ Had) as (_ & e' & [He' _] & Hse). destruct Hr3 as [Hr3 _]. assert (e' = e) as -> by congruence.
      apply Hse in Hsat as [[_ Hny]%Hs' _]. done.
    + apply elem_of_cons in Hz as [-> |Hz]; [done|]. destruct (kp_sees _ _ _ _ Hk _ _ Ho) as (o1 & Ho1 & [_ Hsame]).
      destruct (ad_complete _ _ _ _ _ _ _ _ Had ρ z o1) as (q & e & Hq & Hne & Hr & Hsat); [by apply Hs'|done|done|done| |].
      { destruct op; cbn in *; [done|]. by rewrite (same_readOnly _ _ Hsame). }
      exists q, e. split_and!; try done. apply Hder; [done|by exists e].
Qed.

(** The loop over the objects. *)
Lemma access_each_runs rl x u d op a : ready x u d op a rl ->
  exists r x', runs (fun fuel => MemoryOperations.access_each fuel op a (op_bytes op) rl u) x r x' /\ all_done u x d op a rl r x'.
Proof.
  revert x u d. induction rl as [|y rl IH]; intros x u d Hrd.
  { exists (Some u), x. split; [apply runs_ret|]. split.
    - apply Hrd.
    - intros q e _ Hr. split; [done|apply keeps_refl].
    - split; [by left|]. exists d. split; [apply Hrd|]. intros ρ. split; [|by intros []]. intros Hρ. split; [done|]. intros z Hz. by apply elem_of_nil in Hz.
    - intros q e ρ [-> |Hq] Hne Hr; [done|by apply Hq in Hr].
    - intros ρ z o _ Hz. by apply elem_of_nil in Hz. }
  destruct (fork_inside x u d op a y rl Hrd) as (c & bo & uo & x1 & Ec & R & Hx1 & Es & Hon & Hc & [Hs1 Hs2]). cbn in Hs1, Hs2.
  destruct (one_access x u d op a y rl bo uo x1 c Hrd Hx1 Es Hc Hs1 Hon) as (x2 & R2 & Hod). pose proof (od_ok _ _ _ _ _ _ _ _ _ Hod) as Hx2.
  assert (forall r x', runs (fun fuel => match uo with None => mret None | Some u => MemoryOperations.access_each fuel op a (op_bytes op) rl u end) x2 r x' ->
    runs (fun fuel => MemoryOperations.access_each fuel op a (op_bytes op) (y :: rl) u) x r x') as Hprefix.
  { intros r x' R3. destruct y as [mo os]. cbn [MemoryOperations.access_each]. eapply runs_bind; [apply runs_try, eventually_now; intros _; exact Ec|].
    eapply runs_bind; [exact R|]. cbn beta iota. eapply runs_bind; [exact R2|]. exact R3. }
  destruct uo as [u1|].
  - destruct Hs2 as (d1 & Hr1 & Hdes & Hs). pose proof Hdes as [C _].
    assert (bo <> Some u1) as Hne by (intros E; by apply (on_two _ _ _ _ Hon u1 E)).
    assert (running x2 u1 d1) as Hr2 by by apply (od_running _ _ _ _ _ _ _ _ _ Hod).
    assert (keeps x d x2 d1) as Hk.
    { eapply keeps_trans; [by apply (keeps_copies x d x1 d1)|]. by apply (od_keeps _ _ _ _ _ _ _ _ _ Hod u1). }
    destruct (IH x2 u1 d1) as (r & x3 & R3 & Had).
    { eapply ready_tail; [exact Hrd|done..|]. intros ρ Hρ. by apply Hs. }
    exists r, x3. split; [by apply Hprefix|]. eapply (loop_goes_on x u d op a y rl bo u1 x1 x2 d1 c); done.
  - exists None, x2. split; [apply Hprefix, runs_ret|]. by eapply (loop_ends x u d op a y rl bo x1 x2 c).
Qed.

End Loop.

(** ** The whole operation *)

Context {clock : Clock S}.

(** What the operation leaves: every run of the path in which the pointer is inside an
    object that allows the access goes on in a state that made it, and no other run of
    the path goes on. *)
Record operation_done (u : positive) x d (op : MemoryOperation) (a : Expr) x' : Prop := MkOperationDone {
  opd_ok : exec_ok x';
  opd_others : others u x x';
  opd_sound q e ρ : derived u x q -> running x' q e -> sat ρ (constraints e) ->
    sat ρ (constraints d) /\ exists y, y ∈ pairs (objects (addressSpace d)) /\ access_condition ρ a op y /\ accessed op a y.1 x d ρ x' e;
  opd_complete ρ y o : sat ρ (constraints d) -> y ∈ pairs (objects (addressSpace d)) -> access_condition ρ a op y -> sees x d y.1 o -> allowed op o ->
    exists q e, derived u x q /\ running x' q e /\ sat ρ (constraints e)
}.

Lemma ready_solver x u d op a rl s : ready x u d op a rl -> s_inv s -> ready (set_solver s x) u d op a rl.
Proof. intros [H1 H2 H3 H4 H5 H6 H7 H8 H9 H10] Hs. split; try done; [by apply exec_ok_solver|]. destruct H3. by split. Qed.

Lemma operation_solver u s x d op a rl x' : ready x u d op a rl -> operation_done u (set_solver s x) d op a x' -> operation_done u x d op a x'.
Proof.
  intros Hrd [D1 D2 D3 D4]. assert (forall e, keeps x e (set_solver s x) e) as Hk by (intros e; apply keeps_copies; [done|apply copies_refl]). split.
  - exact D1.
  - intros q e Hq Hr. destruct (D2 q e Hq Hr) as [Hr' Hk']. split; [done|]. by eapply keeps_trans.
  - intros q e ρ Hq Hr Hρ. destruct (D3 q e ρ Hq Hr Hρ) as (Hd & y & Hy & Hin & Hacc). split; [done|]. exists y. split_and!; [done|done|].
    eapply accessed_moved; [apply Hrd|apply Hrd|apply Hk|apply copies_refl|exact Hin|exact Hacc|apply keeps_refl].
  - exact D4.
Qed.

Lemma ready_subset x u d op a rl l : ready x u d op a rl -> NoDup l -> (forall y, y ∈ l -> y ∈ rl) -> ready x u d op a l.
Proof.
  intros [H1 H2 H3 H4 H5 H6 H7 H8 H9 H10] Hn Hl. split; try done; [by auto|].
  pose proof (submseteq_length l rl (NoDup_submseteq _ _ Hn Hl)). lia.
Qed.

Lemma ready_resolvable x u d op a : ready x u d op a (pairs (objects (addressSpace d))) -> 32 <= getPointerWidth <= 64 ->
  exists ρ0, sat ρ0 (constraints d) /\ resolvable (constraints d) ρ0 a (addressSpace d).
Proof.
  intros [H1 [H2 _] H3 H4 H5 [H6 H6'] H7 H8 H9 H10] HW. destruct (eo_path x H1 u d H2) as [Hb (ρ0 & Hρ0) _]. exists ρ0. split; [done|].
  split; try done; [split; [split; [done|by apply H7]|done]|apply H3|apply H3].
Qed.

(** When nothing is left, or what is left comes to an end. *)
Lemma operation_end x u d op a rl r x3 : ready x u d op a rl -> (forall y, y ∈ rl -> y ∈ pairs (objects (addressSpace d))) ->
  (forall y ρ, y ∈ pairs (objects (addressSpace d)) -> sat ρ (constraints d) -> access_condition ρ a op y -> y ∈ rl) -> all_done u x d op a rl r x3 ->
  exists x', runs (fun fuel => match r with None => mret () | Some q => Executor.terminateStateOnError fuel q TPtr end) x3 tt x' /\ operation_done u x d op a x'.
Proof.
  intros Hrd Hsub Hall [A1 A2 A3 A4 A5]. destruct r as [q|].
  - destruct A3 as (Hq & e & He & Hse). destruct (terminate_runs default_opt x3 q e TPtr A1 He) as (x' & R & Hx' & Es & _ & _ & Hr).
    assert (forall e1, keeps x3 e1 x' e1) as Hk by (intros e1; apply keeps_copies; [done|apply copies_refl]).
    exists x'. split; [exact R|]. split; [done|..].
    + intros s e1 Hs Hr1. destruct (A2 s e1 Hs Hr1) as [Hr3 Hk3]. split; [|by eapply keeps_trans]. apply Hr. split; [done|]. intros ->.
      destruct Hq as [|Hq]; [done|by apply Hq in Hr1].
    + intros s e1 ρ Hs [Hr3 Hne]%Hr Hρ. destruct (A4 s e1 ρ Hs ltac:(congruence) Hr3 Hρ) as (Hd & y & Hy & Hin & Hacc). split; [done|]. exists y. split_and!; [auto|done|].
      eapply accessed_moved; [apply Hrd|apply Hrd|apply keeps_refl|apply copies_refl|exact Hin|exact Hacc|apply Hk].
    + intros ρ y o Hd Hy Hin Ho Hal. destruct (A5 ρ y o Hd (Hall y ρ Hy Hd Hin) Hin Ho Hal) as (s & e1 & Hs & Hne & Hr1 & Hρ). exists s, e1. split_and!; [done| |done].
      apply Hr. split; [done|congruence].
  - exists x3. split; [apply runs_ret|]. split; [done|done|..].
    + intros s e1 ρ Hs Hr1 Hρ. destruct (A4 s e1 ρ Hs ltac:(done) Hr1 Hρ) as (Hd & y & Hy & Hin & Hacc). split; [done|]. exists y. split_and!; [auto|done|done].
    + intros ρ y o Hd Hy Hin Ho Hal. destruct (A5 ρ y o Hd (Hall y ρ Hy Hd Hin) Hin Ho Hal) as (s & e1 & Hs & _ & Hr1 & Hρ). by exists s, e1.
Qed.

(** The settings under which nothing is concretized. *)
Record exact_memory : Prop := MkExactMemory {
  em_forking : forking;
  em_width : 32 <= getPointerWidth <= 64;
  em_simplify : SimplifySymIndices = false;
  em_size : MaxSymArraySize = 0;
  em_timeout (s : S) : past_timeout s = false
}.

Context (Hem : exact_memory).

Lemma resolve_runs x u d op a : ready x u d op a (pairs (objects (addressSpace d))) ->
  exists rl s, runs (fun fuel => MemoryOperations.resolve_all fuel u a 0) x (false, rl) (set_solver s x) /\ s_inv s /\
    NoDup rl /\ (forall y, y ∈ rl -> y ∈ pairs (objects (addressSpace d))) /\
    forall y ρ, y ∈ pairs (objects (addressSpace d)) -> sat ρ (constraints d) -> access_condition ρ a op y -> y ∈ rl.
Proof.
  intros Hrd. destruct (ready_resolvable x u d op a Hrd (em_width Hem)) as (ρ0 & Hρ0 & Hres).
  destruct (resolve_found default_opt _ _ _ _ Hres 0) as [n Hn]. destruct (resolve_settles default_opt _ _ _ _ Hres [] 0) as [m Hm].
  destruct (Hn (n `max` m)%nat ltac:(lia) (solver x)) as (inc & rl & s & E & Hs & [R1 R2 R3 R4 R5]); [apply (eo_solver x), Hrd|].
  assert (inc = false) as ->.
  { destruct inc; [|done]. destruct (R4 eq_refl (fk_total (em_forking Hem)) (em_timeout Hem)). lia. }
  exists rl, s. split_and!; [|done|done|by intros y []%R2|].
  - unfold MemoryOperations.resolve_all. eapply runs_bind; [by apply runs_state_of, (rd_running _ _ _ _ _ _ Hrd)|]. apply runs_ask_solver.
    eapply (eventually_bind (fun fuel => Resolution.resolve fuel (constraints d) a [] 0 (addressSpace d) (solver x))
      (fun _ r => let '(incomplete, rl, s) := r in Done ((incomplete, rl), s)) (false, rl, s)); [|apply eventually_Done].
    exists (n `max` m)%nat. intros k Hk. rewrite (Hm k), <- (Hm (n `max` m)%nat) by lia. exact E.
  - intros y ρ Hy Hρ [Y1 Y2]. destruct (R3 y eq_refl Hy) as [|Hnever]; [done|]. destruct (Hnever ρ Hρ). right.
    pose proof (op_bytes_positive op d (rd_op _ _ _ _ _ _ Hrd)). lia.
Qed.

Lemma error_path_runs x u d op a : ready x u d op a (pairs (objects (addressSpace d))) ->
  exists x', runs (fun fuel => MemoryOperations.error_path fuel u op a (op_bytes op)) x tt x' /\ operation_done u x d op a x'.
Proof.
  intros Hrd. destruct (resolve_runs x u d op a Hrd) as (rl & s & R & Hs & Hnd & Hsub & Hall).
  assert (ready (set_solver s x) u d op a rl) as Hrd' by (eapply ready_subset; [by apply ready_solver|done|done]).
  destruct (access_each_runs (em_forking Hem) rl _ u d op a Hrd') as (r & x3 & R3 & Had).
  destruct (operation_end _ u d op a rl r x3 Hrd' Hsub Hall Had) as (x' & R4 & Hdone). exists x'. split; [|by eapply operation_solver].
  unfold MemoryOperations.error_path. eapply runs_bind; [exact R|]. cbn beta iota. eapply runs_bind; [exact R3|]. by destruct r.
Qed.

(** The access of the only object. *)
Lemma fast_access x u d op a y : ready x u d op a (pairs (objects (addressSpace d))) -> y ∈ pairs (objects (addressSpace d)) ->
  (forall ρ, sat ρ (constraints d) -> access_condition ρ a op y) ->
  exists x', runs (fun fuel => MemoryOperations.perform fuel u op y.1 y.2 (getOffsetExpr y.1 a)) x tt x' /\ operation_done u x d op a x'.
Proof.
  intros Hrd Hy Hin. pose proof Hrd as [Hx Hu Hh Hop _ Hp _ Hrl _ _]. pose proof Hu as [Hu' _]. destruct (Hrl y Hy) as [_ Hun].
  destruct (pa_sat _ (eo_path x Hx u d Hu')) as (ρ0 & Hρ0).
  destruct (perform_runs default_opt x u d y a Hx Hu Hh Hy Hp op Hop Hun) as (x' & R & Hx' & [A1 A2] & Hsnd & Hcmp); [exists ρ0; by apply Hin|].
  exists x'. split; [exact R|]. split; [done|..].
  - intros q e Hq Hr. split; [by apply A1|by apply (A2 q)].
  - intros q e ρ Hq Hr Hρ. destruct (decide (q = u)) as [-> |Hne].
    + destruct (Hsnd e Hr) as [Ec Hacc]. rewrite Ec in Hρ. split; [done|]. exists y. split_and!; [done|by apply Hin|]. by apply Hacc, Hin.
    + destruct Hq as [|Hq]; [done|]. apply (A1 q e Hne) in Hr. by destruct (Hq e).
  - intros ρ z o Hρ Hz Hinz Ho Hal. assert (z = y) as -> by (eapply (inside_unique x u d op a); [done|done|done|done|by apply Hin]).
    destruct (Hcmp o Ho Hal) as (e & He). exists u, e. split_and!; [by left|done|]. destruct (Hsnd e He) as [-> _]. done.
Qed.

Lemma resolveOne_runs x u d op a : ready x u d op a (pairs (objects (addressSpace d))) ->
  exists r s, runs (fun fuel => ask_solver (Resolution.resolveOne fuel (constraints d) a (addressSpace d))) x (Some r) (set_solver s x) /\ s_inv s /\
    forall y, r = Some y -> y ∈ pairs (objects (addressSpace d)).
Proof.
  intros Hrd. destruct (ready_resolvable x u d op a Hrd (em_width Hem)) as (ρ0 & Hρ0 & Hres).
  destruct (resolveOne_found default_opt _ _ _ _ Hres) as [n Hn]. destruct (resolveOne_settles default_opt _ _ _ _ Hres) as [m Hm].
  destruct (Hn (n `max` m)%nat ltac:(lia) (solver x)) as (r & s & E & Hs & Ht & Hr); [apply (eo_solver x), Hrd|].
  destruct r as [r|]; [|by destruct (Ht (fk_total (em_forking Hem)))]. exists r, s. split_and!; [|done|].
  - apply runs_ask_solver. exists (n `max` m)%nat. intros k Hk. rewrite (Hm k), <- (Hm (n `max` m)%nat) by lia. exact E.
  - intros y ->. apply Hr.
Qed.

(** The single resolution: it is the whole operation, or the paths part after it. *)
Lemma fast_path_runs x u d op a y : ready x u d op a (pairs (objects (addressSpace d))) -> y ∈ pairs (objects (addressSpace d)) ->
  exists (finished : bool) x', runs (fun fuel => MemoryOperations.fast_path fuel u op a (op_bytes op) y.1 y.2) x (a, finished) x' /\
    if finished then operation_done u x d op a x' else exists s, s_inv s /\ x' = set_solver s x.
Proof.
  intros Hrd Hy. pose proof Hrd as [Hx Hu Hh Hop Hlt Hp Hs Hrl _ _]. pose proof Hu as [Hu' _]. pose proof (he_fits _ _ Hh y Hy) as Hf.
  destruct (inside_condition (constraints d) a y.1 (op_bytes op) Hf Hp Hs) as (c & Ec & [[Hwf Hsafe] Hw] & Hv); [by pose proof (op_bytes_positive op d Hop)|].
  destruct (eo_path x Hx u d Hu') as [Hb (ρ0 & Hρ0) _]. assert (asked ρ0 c) as Hask by (split; [done|by apply Hsafe]).
  destruct (answers_settled (fun fuel => TimingSolver.mustBeTrue fuel (constraints d) c) _ (mustBeTrue_decides default_opt (constraints d) ρ0 Hb Hρ0 c Hask Hw)
    (mustBeTrue_settles default_opt (constraints d) ρ0 Hb Hρ0 c Hask) (solver x) (eo_solver x Hx)) as (b & s & E & Hinv & Ht & Hdec).
  destruct b as [b|]; [|by destruct (Ht (fk_total (em_forking Hem)))]. specialize (Hdec b eq_refl). cbn beta in Hdec.
  unfold getBoundsCheckPointer_bytes in Ec. destruct (getOffsetExpr y.1 a) as [off| | |] eqn:Eoff; [|done..]. cbn [mbind outcome_bind] in Ec.
  assert (forall finished x', runs (fun fuel => if b then _ ← MemoryOperations.perform fuel u op y.1 y.2 (Done off); mret (a, true) else mret (a, false)) (set_solver s x) (a, finished) x' ->
    runs (fun fuel => MemoryOperations.fast_path fuel u op a (op_bytes op) y.1 y.2) x (a, finished) x') as Hprefix.
  { intros finished x' R. unfold MemoryOperations.fast_path. rewrite (em_size Hem). eapply runs_bind; [apply runs_ret|].
    eapply runs_bind; [apply runs_try, eventually_now; intros _; exact Eoff|]. eapply runs_bind; [apply runs_try, eventually_now; intros _; exact Ec|].
    eapply runs_bind; [by apply runs_state_of|]. eapply runs_bind; [by apply runs_ask_solver|]. by destruct b. }
  destruct b.
  - destruct (fast_access (set_solver s x) u d op a y) as (x' & R & Hdone); [by apply ready_solver|done|intros ρ Hρ; by apply Hv, (proj1 Hdec eq_refl)|].
    rewrite Eoff in R. exists true, x'. split; [|by eapply operation_solver]. apply Hprefix. eapply runs_bind; [exact R|apply runs_ret].
  - exists false, (set_solver s x). split; [apply Hprefix, runs_ret|by exists s].
Qed.

Lemma bytes_of_width w : width_ok w -> w < 2 ^ 32 - 7 -> getMinBytesForWidth w = access_bytes w.
Proof.
  intros Hw Hlt. unfold getMinBytesForWidth, access_bytes, u32. destruct Hw as [-> |[Hw Hm]]; [done|]. rewrite (not_Bool w Hw Hm). rewrite Z.mod_small by lia.
  destruct (whole_bytes w Hw Hm) as [E _]. rewrite E at 1. rewrite (Z.mul_comm 8), Z.add_comm, Z.div_add by done. done.
Qed.

Lemma operation_runs x u d op a : ready x u d op a (pairs (objects (addressSpace d))) -> MemoryOperations.op_width op < 2 ^ 32 - 7 ->
  exists x', runs (fun fuel => MemoryOperations.executeMemoryOperation fuel u op a) x tt x' /\ operation_done u x d op a x'.
Proof.
  intros Hrd Hlt. assert (getMinBytesForWidth (MemoryOperations.op_width op) = op_bytes op) as Eb.
  { apply bytes_of_width; [|done]. pose proof (rd_op _ _ _ _ _ _ Hrd) as H. by destruct op, H. }
  destruct (resolveOne_runs x u d op a Hrd) as (r & s & R & Hs & Hy). pose proof (ready_solver x u d op a _ s Hrd Hs) as Hrd1.
  assert (forall r1 x1 x', runs (fun fuel => match r with Some (mo, os) => MemoryOperations.fast_path fuel u op a (op_bytes op) mo os | None => mret (a, false) end) (set_solver s x) r1 x1 ->
    runs (fun fuel => let '(address, finished) := r1 in if (finished : bool) then mret () else MemoryOperations.error_path fuel u op address (op_bytes op)) x1 tt x' ->
    runs (fun fuel => MemoryOperations.executeMemoryOperation fuel u op a) x tt x') as Hprefix.
  { intros r1 x1 x' R1 R2. unfold MemoryOperations.executeMemoryOperation. rewrite Eb. unfold MemoryOperations.simplify_index. rewrite (em_simplify Hem).
    eapply runs_bind; [apply runs_ret|]. eapply runs_bind; [by destruct op; [apply runs_ret|eapply runs_bind; apply runs_ret]|].
    eapply runs_bind; [by apply runs_state_of, (rd_running _ _ _ _ _ _ Hrd)|]. eapply runs_bind; [exact R|]. cbn iota. eapply runs_bind; [apply runs_ret|].
    cbn beta iota. eapply runs_bind; [exact R1|]. by destruct r1. }
  assert (forall s', s_inv s' -> exists x', runs (fun fuel => MemoryOperations.error_path fuel u op a (op_bytes op)) (set_solver s' x) tt x' /\ operation_done u x d op a x') as Herr.
  { intros s' Hs'. destruct (error_path_runs (set_solver s' x) u d op a) as (x' & R' & Hdone); [by apply ready_solver|]. exists x'. split; [exact R'|by eapply operation_solver]. }
  destruct r as [[mo os]|].
  - destruct (fast_path_runs (set_solver s x) u d op a (mo, os) Hrd1) as (fin & x1 & R1 & H1); [by apply Hy|]. destruct fin.
    + exists x1. split; [|by eapply operation_solver]. eapply Hprefix; [exact R1|apply runs_ret].
    + destruct H1 as (s1 & Hs1 & ->). destruct (Herr s1 Hs1) as (x' & R' & Hdone). exists x'. split; [|done]. eapply Hprefix; [exact R1|]. exact R'.
  - destruct (Herr s Hs) as (x' & R' & Hdone). exists x'. split; [|done]. eapply Hprefix; [apply runs_ret|]. exact R'.
Qed.

End Operation.
