(* ===== verification/HostMemory.v ===== *)
(** Values in the memory of the process: [toMemory] and [fromMemory] of constants
    (lib/Expr/Expr.cpp), and the bytes an object shows to external code
    ([ObjectState::flushToConcreteStore], lib/Core/Memory.cpp).

    The process runs on a little-endian machine; a copy of a [long double] is
    the compiler's. *)
From stdpp Require Import base numbers list strings.
From Stdlib Require Import ZArith Lia.
From S2P Require Import Prelude APInt Bits Expr Semantics ConstantOps ExprCreate CreateSound OpsSound ExprWeight Visitor Solver Constraints Memory MemorySound MemoryObjects TimingSolver.
Local Open Scope Z_scope.

(** The 16 bytes that an assignment of a [long double] writes, from the words of
    a value of 80 bits. *)
Class LongDouble : Type := { long_double_bytes : APInt -> list Z }.

(** [n] bytes of a value, lowest first, and the value of bytes. *)
Fixpoint le_bytes (n : nat) (v : Z) : list Z :=
  match n with O => [] | S n => v mod 2 ^ 8 :: le_bytes n (v / 2 ^ 8) end.
Fixpoint le_value (bs : list Z) : Z :=
  match bs with [] => 0 | b :: bs => b + 2 ^ 8 * le_value bs end.

Section Constants.
Context {AP : APIntOps} {LD : LongDouble}.

(** What [toMemory] writes. *)
Definition toMemory (c : APInt) : outcome (list Z) :=
  let width := getBitWidth c in
  if width =? Bool then v ← ConstantExpr_getZExtValue c 1; Done (le_bytes 1 v)
  else if width =? Int8 then v ← ConstantExpr_getZExtValue c 8; Done (le_bytes 1 v)
  else if width =? Int16 then v ← ConstantExpr_getZExtValue c 16; Done (le_bytes 2 v)
  else if width =? Int32 then v ← ConstantExpr_getZExtValue c 32; Done (le_bytes 4 v)
  else if width =? Int64 then v ← ConstantExpr_getZExtValue c 64; Done (le_bytes 8 v)
  else if width =? Fl80 then Done (long_double_bytes c)
  else if (width =? Int128) || (width =? Int256) || (width =? Int512) then Done (le_bytes (Z.to_nat (width / 8)) (uval c))
  else AssertFail.

(** The first [n] of some bytes; reading beyond them is undefined. *)
Definition load_le (n : nat) (mem : list Z) : outcome Z :=
  if bool_decide (n <= length mem)%nat then Done (le_value (take n mem)) else Undefined.

Definition fromMemory (mem : list Z) (width : Z) : outcome APInt :=
  if (width =? Bool) || (width =? Int8) then v ← load_le 1 mem; ConstantExpr_create v width
  else if width =? Int16 then v ← load_le 2 mem; ConstantExpr_create v width
  else if width =? Int32 then v ← load_le 4 mem; ConstantExpr_create v width
  else if width =? Int64 then v ← load_le 8 mem; ConstantExpr_create v width
  else if width =? Fl80 then v ← load_le 16 mem; Done (MkAPInt width (v mod 2 ^ width))
  else if (width =? Int128) || (width =? Int256) || (width =? Int512) then
    v ← load_le (8 * Z.to_nat (width / 64)) mem; Done (MkAPInt width (v mod 2 ^ width))
  else AssertFail.

End Constants.

(** Some bytes over the bytes from [i] on; writing beyond them is undefined. *)
Definition overwrite (i : nat) (bs mem : list Z) : outcome (list Z) :=
  if bool_decide (i + length bs <= length mem)%nat then Done (take i mem ++ bs ++ drop (i + length bs) mem) else Undefined.

Section Flush.
Context {AP : APIntOps} {AH : ArrayHeap} {OP : ExprOptions} {VO : VisitorOptions} {TO : TimingOptions} {TC : TargetContext} {MO : MemoryOptions}.
Context {AC : ArrayCache} {LD : LongDouble}.
Context {T : Type} {ops : SolverImpl T}.

(** The bytes from [i] on; a byte whose query fails keeps what the store has. *)
Fixpoint flushToConcreteStore_loop (fuel : nat) (cs : ConstraintSet) (n : nat) (i : Z) (s : ObjectState) (id : Z) (st : T) :
    outcome (ObjectState * Z * T) :=
  match n with
  | O => Done (s, id, st)
  | S n =>
      k ← isByteKnownSymbolic s i;
      if (k : bool) then
        '(e, s, id) ← read8 s id i;
        '(ce, st) ← TimingSolver.getValue fuel cs e st;
        match ce with
        | None => flushToConcreteStore_loop fuel cs n (i + 1) s id st
        | Some ce =>
            bs ← toMemory ce;
            store ← overwrite (Z.to_nat i) bs (concreteStore s);
            flushToConcreteStore_loop fuel cs n (i + 1) (with_concreteStore store s) id st
        end
      else flushToConcreteStore_loop fuel cs n (i + 1) s id st
  end.

Definition flushToConcreteStore (fuel : nat) (cs : ConstraintSet) (s : ObjectState) (id : Z) (st : T) : outcome (ObjectState * Z * T) :=
  flushToConcreteStore_loop fuel cs (Z.to_nat (os_size s)) 0 s id st.

End Flush.

(** ** Constants *)

Lemma length_le_bytes n v : length (le_bytes n v) = n.
Proof. revert v. induction n; intros v; cbn; auto. Qed.

Lemma le_bytes_range n v : Forall (fun b => 0 <= b < 2 ^ 8) (le_bytes n v).
Proof. revert v. induction n; intros v; cbn; constructor; auto. apply Z.mod_pos_bound. lia. Qed.

Lemma le_value_bytes n v : 0 <= v < 2 ^ (8 * Z.of_nat n) -> le_value (le_bytes n v) = v.
Proof.
  revert v. induction n as [|n IH]; intros v Hv; cbn [le_bytes le_value]; [cbn in Hv; lia|].
  rewrite IH; [pose proof (Z.div_mod v (2 ^ 8)); lia|]. split; [apply Z.div_pos; lia|].
  apply Z.div_lt_upper_bound; [lia|]. rewrite <- Z.pow_add_r by lia. replace (8 + 8 * Z.of_nat n) with (8 * Z.of_nat (S n)) by lia. apply Hv.
Qed.

Lemma load_le_bytes n v rest : 0 <= v < 2 ^ (8 * Z.of_nat n) -> load_le n (le_bytes n v ++ rest) = Done v.
Proof.
  intros Hv. unfold load_le. rewrite bool_decide_eq_true_2 by (rewrite length_app, length_le_bytes; lia).
  rewrite take_app_length' by by rewrite length_le_bytes. by rewrite le_value_bytes.
Qed.

Definition memory_width (w : Z) : Prop :=
  w = Bool \/ w = Int8 \/ w = Int16 \/ w = Int32 \/ w = Int64 \/ w = Int128 \/ w = Int256 \/ w = Int512.

Section Images.
Context {AP : APIntOps} {APL : APIntLaws} {LD : LongDouble}.

Lemma getZExtValue_small c w : getBitWidth c <= w -> wf_apint c -> getBitWidth c <= 64 -> ConstantExpr_getZExtValue c w = Done (uval c).
Proof.
  intros Hw [Hp Hv] H64. unfold ConstantExpr_getZExtValue. rewrite (proj2 (Z.leb_le _ _)) by done. cbn. rewrite ap_getZExtValue_spec; [done|].
  pose proof (pow2_mono (getBitWidth c) 64). lia.
Qed.

Lemma image_ok c : wf_apint c -> memory_width (getBitWidth c) ->
  exists bs, toMemory c = Done bs /\ Z.of_nat (length bs) = access_bytes (getBitWidth c) /\ Forall (fun b => 0 <= b < 2 ^ 8) bs /\
    forall rest, fromMemory (bs ++ rest) (getBitWidth c) = Done c.
Proof.
  intros Hwf Hw. destruct c as [w v]. pose proof Hwf as [_ Hv]. cbn [getBitWidth uval] in *. unfold memory_width, Bool, Int8, Int16, Int32, Int64, Int128, Int256, Int512 in Hw.
  unfold toMemory, fromMemory, access_bytes. cbn [getBitWidth uval].
  destruct Hw as [-> |[-> |[-> |[-> |[-> |[-> |[-> | ->]]]]]]];
    cbn [Z.eqb Bool Int8 Int16 Int32 Int64 Int128 Int256 Int512 Fl80 Pos.eqb orb andb]; rewrite ?getZExtValue_small by (cbn; first [exact Hwf|lia]); cbn [mbind outcome_bind uval];
    (eexists; split; [done|split; [by rewrite length_le_bytes|split; [apply le_bytes_range|intros rest]]]).
  all: match goal with |- context [load_le ?n (le_bytes ?m ?x ++ _)] => change m with n; rewrite (load_le_bytes n x rest) by (split; [exact (proj1 Hv)|eapply Z.lt_le_trans; [exact (proj2 Hv)|by apply Z.leb_le; vm_compute]]) end; cbn [mbind outcome_bind].
  all: try (rewrite ConstantExpr_create_spec by lia; done).
  all: rewrite Z.mod_small by done; done.
Qed.

End Images.

(** ** Flushing *)

Section Flushed.
Context {AP : APIntOps} {APL : APIntLaws} {AH : ArrayHeap} {OP : ExprOptions} {VO : VisitorOptions} {TO : TimingOptions} {TC : TargetContext} {MO : MemoryOptions}.
Context {AC : ArrayCache} {LD : LongDouble}.
Context {T : Type} {ops : SolverImpl T} {sol : SoundSolver T}.
Context (default_opt : ConstArrayOpt = false).
Context (cs : ConstraintSet) (ρ0 : env) (Hcs : Forall boolean cs) (Hρ0 : sat ρ0 cs).

(** Only bytes of the store that do not hold a concrete byte have changed. *)
Record flushed (s s' : ObjectState) : Prop := MkFlushed {
  fl_state : s' = with_concreteStore (concreteStore s') s;
  fl_length : length (concreteStore s') = length (concreteStore s);
  fl_bytes : Forall (fun b => 0 <= b < 2 ^ 8) (concreteStore s');
  fl_kept j : 0 <= j < os_size s -> known_at s j = None -> concreteStore s' !! Z.to_nat j = concreteStore s !! Z.to_nat j
}.

Lemma flushed_ok s s' : os_ok s -> flushed s s' -> os_ok s' /\ same_contents s s'.
Proof.
  intros [Hsh Hx Hc Hco] [E L B K]. assert (forall ρ j, 0 <= j < os_size s -> byte ρ s' j = byte ρ s j) as Hbyte.
  { intros ρ j Hj. rewrite E. unfold byte, concrete_at, known_at. cbn. destruct (match concreteMask s with Some m => bit m j | None => true end) eqn:Em; [|done].
    rewrite K; [done|done|]. by apply Hx. }
  split.
  - split.
    + destruct Hsh as [H1 H2 H3 H4 H5 H6 H7 H8 H9]. rewrite E. split; cbn; try done. lia.
    + rewrite E. apply Hx.
    + rewrite E. apply Hc.
    + intros i ρ Hi Hu. rewrite E in Hi, Hu. rewrite (Hbyte ρ i Hi), E. cbn. by apply Hco.
  - split; [by rewrite E..|]. done.
Qed.

(** The byte that the store has at [j] is one that the expression [e] can have. *)
Definition shows (s : ObjectState) (j : Z) (e : Expr) : Prop :=
  exists v, concreteStore s !! Z.to_nat j = Some v /\ possible cs e (MkAPInt Int8 v).

Lemma overwrite_one i v mem : (i < length mem)%nat -> overwrite i [v] mem = Done (<[i := v]> mem).
Proof.
  intros Hi. unfold overwrite. cbn [length]. rewrite bool_decide_eq_true_2 by lia. f_equal.
  rewrite (insert_take_drop mem i v Hi). cbn. by replace (i + 1)%nat with (S i) by lia.
Qed.

Lemma flush_loop_ok (l : list Expr) : (forall e, e ∈ l -> asked ρ0 e) -> exists m, forall fuel, (m <= fuel)%nat ->
  forall n i s0 s id st, s_inv st -> os_ok s0 -> flushed s0 s -> 0 <= i -> i + Z.of_nat n = os_size s0 ->
    (forall j e, known_at s0 j = Some e -> e ∈ l) ->
    (TotalSolver T -> forall j e, 0 <= j < i -> known_at s0 j = Some e -> shows s j e) ->
    exists s' st', flushToConcreteStore_loop fuel cs n i s id st = Done (s', id, st') /\ s_inv st' /\ flushed s0 s' /\
      (TotalSolver T -> forall j e, 0 <= j < os_size s0 -> known_at s0 j = Some e -> shows s' j e).
Proof.
  intros Hl. destruct (answers_all (fun e fuel => TimingSolver.getValue fuel cs e) (fun e => possible cs e) l) as [m Hm];
    [intros e He; by apply (getValue_answers default_opt cs ρ0 Hcs Hρ0), Hl|].
  exists m. intros fuel Hf n. induction n as [|n IH]; intros i s0 s id st Hst Hs0 Hfl Hi Hn Hk Hshown; cbn [flushToConcreteStore_loop].
  { exists s, st. split_and!; [done..|]. intros Tot j e Hj. apply Hshown; [done|lia]. }
  pose proof Hfl as [E L B K]. destruct (flushed_ok s0 s Hs0 Hfl) as [Hs Hsame]. pose proof (os_ok_shape _ Hs) as Hsh.
  assert (0 <= i < os_size s) as Hin by (rewrite E; cbn; lia). assert (known_at s i = known_at s0 i) as Eki by by rewrite E.
  assert (concrete_at s i = concrete_at s0 i) as Eci by by rewrite E. unfold isByteKnownSymbolic. rewrite knownSymbolic_ok by done. cbn [mbind outcome_bind].
  destruct (known_at s i) as [e|] eqn:Eke.
  2: { rewrite bool_decide_eq_false_2 by by intros []. apply IH; try done; [lia|lia|]. intros Tot j e Hj Hke. apply Hshown; [done| |done].
       destruct (Z.eq_dec j i) as [-> |]; [congruence|lia]. }
  rewrite bool_decide_eq_true_2 by by eexists. unfold read8. rewrite isByteConcrete_ok, knownSymbolic_ok by done. cbn [mbind outcome_bind].
  assert (concrete_at s i = false) as ->. { destruct (concrete_at s i) eqn:Ec; [|done]. by rewrite (os_exclusive _ Hs i Hin Ec) in Eke. }
  rewrite Eke. cbn [mbind outcome_bind]. assert (e ∈ l) as Hel by (by apply (Hk i)).
  destruct (Hm fuel Hf e Hel st Hst) as (ce & st1 & -> & Hst1 & Ht & Hpos). cbn [mbind outcome_bind]. destruct ce as [ce|].
  2: { apply IH; try done; [lia|lia|]. intros Tot. by destruct (Ht Tot). }
  destruct (Hpos ce eq_refl) as (Hwf & Hw & ρ & Hρ & Hv). destruct (os_known_ok _ Hsh i e Eke) as [_ Hwe]. rewrite Hwe in Hw. unfold toMemory. rewrite Hw.
  cbn [Z.eqb Bool Int8 Pos.eqb]. destruct ce as [cw cv]. cbn in Hw. subst cw. pose proof Hwf as [_ Hcv]. cbn in Hcv.
  rewrite getZExtValue_small by (cbn; first [exact Hwf|unfold Int8; lia]). cbn [mbind outcome_bind uval le_bytes]. rewrite Z.mod_small by done.
  pose proof (os_store _ Hsh) as Hlen. rewrite overwrite_one by lia. cbn [mbind outcome_bind].
  apply IH; try done; [|lia|lia|].
  - split.
    + rewrite E. done.
    + cbn. by rewrite length_insert.
    + cbn. apply Forall_insert; [done|]. done.
    + intros j Hj Hkj. cbn. rewrite list_lookup_insert_ne; [by apply K|]. intros Eij. assert (i = j) as <- by lia. congruence.
  - intros Tot j e' Hj Hke. destruct (Z.eq_dec j i) as [-> |Hne].
    + assert (e' = e) as -> by congruence. exists cv. cbn. rewrite list_lookup_insert_eq by lia. split; [done|]. split_and!; [done|done|by exists ρ].
    + destruct (Hshown Tot j e') as (v & Ev & Hp); [lia|done|]. exists v. cbn. rewrite list_lookup_insert_ne by lia. done.
Qed.

(** The expressions that are cached. *)
Definition known_exprs (s : ObjectState) : list Expr := match knownSymbolics s with None => [] | Some k => omap id k end.

Lemma known_exprs_in s j e : known_at s j = Some e -> e ∈ known_exprs s.
Proof.
  unfold known_at, known_exprs. destruct (knownSymbolics s) as [k|]; [|done]. intros H. apply list_elem_of_omap.
  destruct (k !! Z.to_nat j) as [[x|]|] eqn:E; try done. cbn in H. injection H as ->. exists (Some e). split; [|done]. by eapply list_elem_of_lookup_2.
Qed.

Lemma flush_ok s : os_ok s -> (forall e, e ∈ known_exprs s -> asked ρ0 e) ->
  exists m, forall fuel, (m <= fuel)%nat -> forall id st, s_inv st ->
    exists s' st', flushToConcreteStore fuel cs s id st = Done (s', id, st') /\ s_inv st' /\ flushed s s' /\
      (TotalSolver T -> forall j e, 0 <= j < os_size s -> known_at s j = Some e -> shows s' j e).
Proof.
  intros Hs Hk. destruct (flush_loop_ok (known_exprs s) Hk) as [m Hm]. exists m. intros fuel Hf id st Hst.
  pose proof (os_range _ (os_ok_shape _ Hs)). apply (Hm fuel Hf); try done; [|lia|by apply known_exprs_in|intros; lia].
  split; [by destruct s|done|apply Hs|done].
Qed.

(** Without known symbolic bytes nothing is asked, and nothing changes. *)
Lemma flush_nothing fuel s id st : os_ok s -> (forall j, 0 <= j < os_size s -> known_at s j = None) ->
  flushToConcreteStore fuel cs s id st = Done (s, id, st).
Proof.
  intros Hs Hk. unfold flushToConcreteStore. pose proof (os_range _ (os_ok_shape _ Hs)).
  assert (forall n i, 0 <= i -> i + Z.of_nat n = os_size s -> flushToConcreteStore_loop fuel cs n i s id st = Done (s, id, st)) as H1; [|apply H1; lia].
  induction n as [|n IH]; intros i Hi Hn; cbn [flushToConcreteStore_loop]; [done|]. unfold isByteKnownSymbolic.
  rewrite knownSymbolic_ok by (try apply Hs; lia). cbn [mbind outcome_bind]. rewrite Hk by lia. rewrite bool_decide_eq_false_2 by by intros [].
  apply IH; lia.
Qed.

End Flushed.
