(* ===== verification/FiniteSolver.v ===== *)
(** A solver by exhaustion over a heap with one small symbolic array: an instance
    of the contracts of solvers, on which the layers above are run.

    The ideal solver: it answers every query, by classical choice.  The layers that
    take a sound and total solver are about something, over any heap of arrays. *)
From stdpp Require Import base list numbers strings gmap.
From Stdlib Require Import ZArith Lia ClassicalEpsilon.
From S2P Require Import Prelude APInt Expr Semantics ConstantOps ExprCreate CreateSound ExprWeight Visitor FindReads Solver Evaluator SymbolicObjects InitialValues.
Local Open Scope Z_scope.

(** Two elements of two bits, with an index of one bit; other arrays are a full
    table of four bytes. *)
Definition pair_array : Array := MkArray "pair"%string 2 1 2 [].
Definition full_table : Array :=
  MkArray "full"%string 4 2 8 [MkAPInt 8 7; MkAPInt 8 11; MkAPInt 8 13; MkAPInt 8 17].

#[local] Instance small_heap : ArrayHeap := {| array_at := fun p => if Pos.eqb p 1 then pair_array else full_table |}.

Lemma small_wf r : wf_array (array_at r).
Proof.
  unfold array_at, small_heap. destruct (Pos.eqb r 1); split_and!; cbn; try lia; try done.
  repeat (apply Forall_cons; split; [by split; [split; cbn; lia|]|]). apply List.Forall_nil.
Qed.

Lemma small_domain32 r : arr_domain (array_at r) <= 32.
Proof. unfold array_at, small_heap. by destruct (Pos.eqb r 1). Qed.

Lemma small_full r : arr_size (array_at r) = 2 ^ arr_domain (array_at r).
Proof. unfold array_at, small_heap. by destruct (Pos.eqb r 1). Qed.

(** No read of a well-formed expression leaves its array. *)
Lemma small_in_bounds ρ e : wf e -> in_bounds ρ e.
Proof.
  intros He r u i Hin. apply (proj1 wf_subs_mut e He) in Hin as (_ & _ & Hi & Hw).
  rewrite small_full, <- Hw. by apply eval_range.
Qed.

Lemma small_eval ρ ρ' e : (forall r, same_bytes ρ ρ' r) -> wf e -> eval ρ e = eval ρ' e.
Proof. intros Hb He. by apply eval_same_bytes, small_in_bounds. Qed.

(** The environments that there are. *)
Definition small_env (a b : Z) : env := fun _ k => if k =? 0 then a else b.

Definition candidates : list env :=
  a ← [0; 1; 2; 3]; b ← [0; 1; 2; 3]; [small_env a b].

Lemma candidates_complete ρ : exists c, c ∈ candidates /\ forall r, same_bytes ρ c r.
Proof.
  assert (forall x, x mod 4 ∈ [0; 1; 2; 3]) as Hm.
  { intros x. pose proof (Z.mod_pos_bound x 4 ltac:(lia)). rewrite !elem_of_cons. lia. }
  exists (small_env (ρ 1%positive 0 mod 4) (ρ 1%positive 1 mod 4)). split.
  - unfold candidates. apply list_elem_of_bind. eexists. split; [|apply (Hm (ρ 1%positive 0))].
    apply list_elem_of_bind. eexists. split; [by apply list_elem_of_singleton|apply Hm].
  - intros r k Hk. unfold initial_value, small_env. unfold array_at, small_heap in Hk |- *.
    destruct (Pos.eqb_spec r 1) as [->|]; [|done]. cbn in *. assert (k = 0 \/ k = 1) as [-> | ->] by lia; cbn; by rewrite Z.mod_mod by lia.
Qed.

Definition satb (ρ : env) (cs : list Expr) : bool := forallb (fun c => negb (eval ρ c =? 0)) cs.
Definition counterexampleb (q : Query) (ρ : env) : bool := satb ρ (constraints q) && (eval ρ (q_expr q) =? 0).

Lemma satb_spec ρ cs : satb ρ cs = true <-> sat ρ cs.
Proof.
  unfold satb. rewrite forallb_forall. setoid_rewrite <- list_elem_of_In.
  split; intros H c Hc; specialize (H c Hc); [by apply negb_true_iff, Z.eqb_neq in H|by apply negb_true_iff, Z.eqb_neq].
Qed.

Lemma counterexampleb_spec q ρ : counterexampleb q ρ = true <-> counterexample q ρ.
Proof. unfold counterexampleb, counterexample. by rewrite andb_true_iff, satb_spec, Z.eqb_eq. Qed.

Lemma small_counterexample q ρ ρ' : Forall boolean (constraints q) -> wf (q_expr q) -> (forall r, same_bytes ρ ρ' r) ->
  counterexample q ρ -> counterexample q ρ'.
Proof.
  intros Hb He Hs [Hc H0]. split.
  - intros c Hin. rewrite Forall_forall in Hb. rewrite <- (small_eval ρ ρ' c Hs); [by apply Hc|by apply Hb].
  - by rewrite <- (small_eval ρ ρ' _ Hs).
Qed.

(** What is not found among the candidates does not exist. *)
Lemma no_candidate q : Forall boolean (constraints q) -> wf (q_expr q) ->
  find (counterexampleb q) candidates = None -> valid q.
Proof.
  intros Hb He Hf ρ Hρ H0. destruct (candidates_complete ρ) as (c & Hc & Hs).
  apply list_elem_of_In, (find_none _ _ Hf) in Hc as Hn.
  apply not_true_iff_false in Hn. apply Hn, counterexampleb_spec. by apply (small_counterexample q ρ).
Qed.

Definition bytes_of (ρ : env) (r : positive) : list Z :=
  (fun k => ρ r (Z.of_nat k)) <$> seq 0 (Z.to_nat (arr_size (array_at r))).

Definition truth_of (q : Query) : bool := match find (counterexampleb q) candidates with None => true | Some _ => false end.

Definition validity_of (q : Query) : Validity :=
  if truth_of q then VTrue
  else match find (fun ρ => satb ρ (constraints q) && negb (eval ρ (q_expr q) =? 0)) candidates with
       | None => VFalse
       | Some _ => VUnknown
       end.

#[local] Instance finite_solver : SolverImpl unit := {|
  computeValidity q s := Done (Some (validity_of q), s);
  computeTruth q s := Done (Some (truth_of q), s);
  computeValue q s :=
    Done (Some (MkAPInt (getWidth (q_expr q)) (match find (fun ρ => satb ρ (constraints q)) candidates with Some ρ => eval ρ (q_expr q) | None => 0 end)), s)
|}.

Lemma finite_total : TotalSolver unit.
Proof. split; intros q s r s' [= <- _]; done. Qed.

#[local] Instance finite_initial : InitialSolver unit := {|
  computeInitialValues q objects s :=
    Done (match find (counterexampleb q) candidates with
          | Some ρ => MkInitial true (Some true) (bytes_of ρ <$> objects)
          | None => MkInitial true (Some false) []
          end, s)
|}.

Lemma candidate_bytes c r : c ∈ candidates -> Z.of_nat (length (bytes_of c r)) = arr_size (array_at r) /\
  Forall (fun v => 0 <= v < 2 ^ 8) (bytes_of c r) /\
  forall k v, bytes_of c r !! k = Some v -> initial_value c r (Z.of_nat k) = v mod 2 ^ arr_range (array_at r) \/
    isSymbolicArray (array_at r) = false.
Proof.
  intros Hc. unfold bytes_of. rewrite length_fmap, length_seq. split; [by destruct (small_wf r) as (_ & _ & ? & _); lia|].
  assert (forall k, 0 <= c r k < 2 ^ 8) as Hrange.
  { intros k. unfold candidates in Hc. apply list_elem_of_bind in Hc as (a & Hc & Ha).
    apply list_elem_of_bind in Hc as (b & ->%list_elem_of_singleton & Hb). rewrite !elem_of_cons, elem_of_nil in Ha, Hb.
    unfold small_env. destruct (k =? 0); lia. }
  split.
  - apply Forall_fmap, Forall_forall. intros k _. apply Hrange.
  - intros k v Hk. rewrite list_lookup_fmap in Hk. apply fmap_Some in Hk as (j & Hj & ->).
    apply lookup_seq in Hj as [-> _]. unfold initial_value, isConstantArray.
    destruct (isSymbolicArray (array_at r)); [by left|by right].
Qed.

#[local] Instance finite_sound_initial : SoundInitialSolver unit shaped.
Proof.
  refine {| iv_inv := fun _ => True |}. intros q objects s _ [Hb He] _.
  eexists _, _. split; [done|]. split; [done|]. intros _.
  destruct (find (counterexampleb q) candidates) as [c|] eqn:Ef; [right|left].
  - apply find_some in Ef as [Hin%list_elem_of_In Hc%counterexampleb_spec]. split; [done|]. split; cbn.
    + unfold values_ok. rewrite Forall2_fmap_r. apply Forall_Forall2_diag, Forall_forall. intros r _.
      by destruct (candidate_bytes c r Hin) as (? & ? & _).
    + exists c. split; [done|]. unfold has_values. rewrite Forall2_fmap_r. apply Forall_Forall2_diag, Forall_forall.
      intros r _ Hs k v Hk. destruct (candidate_bytes c r Hin) as (_ & _ & Hv). destruct (Hv k v Hk); [done|congruence].
  - split; [done|]. apply no_candidate; [done|apply He|done].
Defined.

Lemma truth_of_spec q : Forall boolean (constraints q) -> wf (q_expr q) -> truth_of q = true <-> valid q.
Proof.
  intros Hb He. unfold truth_of. destruct (find _ _) as [c|] eqn:Ef.
  - apply find_some in Ef as [_ [Hs H0]%counterexampleb_spec]. split; [done|]. intros Hv. by destruct (Hv c Hs).
  - split; [intros _; by apply no_candidate|done].
Qed.

(** Some candidate satisfies what some environment does. *)
Lemma find_candidate ρ (f : env -> bool) : (forall c, (forall r, same_bytes ρ c r) -> f c = true) ->
  exists c, find f candidates = Some c /\ f c = true.
Proof.
  intros Hf. destruct (find f candidates) as [c|] eqn:E; [exists c; split; [done|apply (find_some _ _ E)]|].
  destruct (candidates_complete ρ) as (c & Hc & Hs). apply list_elem_of_In, (find_none _ _ E) in Hc.
  rewrite Hf in Hc; done.
Qed.

#[local] Instance finite_sound : SoundSolver unit.
Proof.
  assert (forall q ρ c, wf_query q -> sat ρ (constraints q) -> (forall r, same_bytes ρ c r) -> satb c (constraints q) = true) as Hsat.
  { intros q ρ c [Hb _ _] Hρ Hs. apply satb_spec. intros e He. rewrite Forall_forall in Hb.
    rewrite <- (small_eval ρ c e Hs); [by apply Hρ|by apply Hb]. }
  refine {| s_inv := fun _ => True |}.
  - intros q s _ [Hq Hw]. eexists _, _. split; [done|]. split; [done|]. intros v [= <-].
    unfold validity_of. pose proof (truth_of_spec q (wq_constraints _ Hq) (wq_expr _ Hq)) as Ht. destruct (truth_of q) eqn:Et; [by apply Ht|].
    assert (~ valid q) as Hnv by (intros H; by apply Ht in H).
    match goal with |- context [find ?f candidates] => destruct (find f candidates) as [c|] eqn:Ef end; cbn.
    + split; [done|]. intros Hn. apply find_some in Ef as [_ [Hs%satb_spec Hne%negb_true_iff%Z.eqb_neq]%andb_true_iff].
      by apply Hne, Hn.
    + intros ρ Hρ. destruct (Z.eq_dec (eval ρ (q_expr q)) 0) as [|Hne]; [done|exfalso].
      destruct (find_candidate ρ (fun ρ => satb ρ (constraints q) && negb (eval ρ (q_expr q) =? 0))) as (c & Ec & _); [|congruence].
      intros c Hc. rewrite (Hsat q ρ c Hq Hρ Hc). rewrite <- (small_eval ρ c _ Hc) by apply Hq. by apply negb_true_iff, Z.eqb_neq.
  - intros q s _ [Hq Hw]. eexists _, _. split; [done|]. split; [done|]. intros b [= <-]. apply truth_of_spec; apply Hq.
  - intros q s _ Hq. eexists _, _. split; [done|]. split; [done|]. intros a.
    destruct (wq_sat _ Hq) as [ρ Hρ]. destruct (find_candidate ρ (fun ρ => satb ρ (constraints q))) as (c & -> & Hc%satb_spec); [intros c Hc; by apply (Hsat q ρ c)|].
    intros [= <-]. pose proof (wf_width _ (wq_expr _ Hq)). split; [split; cbn; [done|apply eval_range, Hq]|]. split; [done|]. by exists c.
Defined.

Section Ideal.
Context {AH : ArrayHeap}.

Definition holds (P : Prop) : bool := if excluded_middle_informative P then true else false.

Lemma holds_spec P : holds P = true <-> P.
Proof. unfold holds. by destruct (excluded_middle_informative P). Qed.

Definition ideal_validity (q : Query) : Validity := if holds (valid q) then VTrue else if holds (valid_not q) then VFalse else VUnknown.

(** The value of the expression in some run of the path. *)
Definition ideal_value (q : Query) : Z := eval (epsilon (inhabits (fun _ _ => 0)) (fun ρ => sat ρ (constraints q))) (q_expr q).

Definition ideal_solver : SolverImpl unit := {|
  computeValidity q s := Done (Some (ideal_validity q), s);
  computeTruth q s := Done (Some (holds (valid q)), s);
  computeValue q s := Done (Some (MkAPInt (getWidth (q_expr q)) (ideal_value q)), s)
|}.

Lemma ideal_total : @TotalSolver unit ideal_solver.
Proof. split; intros q s r s' [= <- _]; done. Qed.

Definition ideal_sound : @SoundSolver unit ideal_solver AH.
Proof.
  refine (@Build_SoundSolver unit ideal_solver AH (fun _ => True) _ _ _).
  - intros q s _ _. eexists _, _. split; [done|]. split; [done|]. intros v [= <-]. unfold ideal_validity.
    destruct (holds (valid q)) eqn:Ev; [exact (proj1 (holds_spec _) Ev)|]. destruct (holds (valid_not q)) eqn:En; [exact (proj1 (holds_spec _) En)|].
    split; intros H; apply (proj2 (holds_spec _)) in H; congruence.
  - intros q s _ _. eexists _, _. split; [done|]. split; [done|]. intros b [= <-]. apply holds_spec.
  - intros q s _ Hq. eexists _, _. split; [done|]. split; [done|]. intros a [= <-]. unfold ideal_value.
    pose proof (epsilon_spec (inhabits (fun _ _ => 0)) (fun ρ => sat ρ (constraints q)) (wq_sat _ Hq)) as Hs.
    pose proof (wf_width _ (wq_expr _ Hq)). split; [split; cbn; [done|apply eval_range, Hq]|]. split; [done|]. eexists. split; [exact Hs|done].
Defined.

End Ideal.
