(* ===== verification/CexCachingSolver.v ===== *)
(** [CexCachingSolver] (CexCachingSolver.cpp): counterexamples of earlier queries,
    kept in a map of sets, answer later ones. *)
From stdpp Require Import base list numbers strings gmap sorting.
From Stdlib Require Import ZArith Lia.
From S2P Require Import Prelude APInt Expr Semantics ConstantOps ExprCreate CreateSound ExprWeight Visitor FindReads Solver Evaluator IncompleteSolver CachingSolver MapOfSets SymbolicObjects InitialValues.
Local Open Scope Z_scope.

(** The options -cex-cache-try-all, -cex-cache-superset, -cex-cache-exp and
    -debug-cex-cache-check-binding. *)
Class CexOptions : Type := {
  CexCacheTryAll : bool;
  CexCacheSuperSet : bool;
  CexCacheExperimental : bool;
  DebugCexCacheCheckBinding : bool
}.

(** The order of [std::set<ref<Expr>>]. *)
#[export] Instance Expr_key {AP : APIntOps} {AH : ArrayHeap} : OrderedKey Expr := {| key_compare := compare |}.

#[export] Instance Expr_key_laws {AP : APIntOps} {APL : APIntLaws} {AH : ArrayHeap} : OrderedKeyLaws Expr.
Proof. split; [apply compare_Eq|apply compare_antisym|apply compare_lt_trans]. Qed.

(** [bindings < bindings] of [std::map]: the pairs in the order of the arrays,
    lexicographically. *)
Fixpoint bytes_compare (a b : list Z) : comparison :=
  match a, b with
  | [], [] => Eq
  | [], _ => Lt
  | _, [] => Gt
  | x :: a, y :: b => compare_then (Z.compare x y) (bytes_compare a b)
  end.

Fixpoint bindings_compare (a b : list (positive * list Z)) : comparison :=
  match a, b with
  | [], [] => Eq
  | [], _ => Lt
  | _, [] => Gt
  | x :: a, y :: b =>
      compare_then (compare_then (Pos.compare x.1 y.1) (bytes_compare x.2 y.2)) (bindings_compare a b)
  end.

Definition array_le (x y : positive * list Z) : Prop := (x.1 <= y.1)%positive.

#[export] Instance array_le_dec : RelDecision array_le.
Proof. intros x y. unfold array_le. apply _. Defined.

Definition sorted_bindings (a : Assignment) : list (positive * list Z) :=
  merge_sort array_le (map_to_list (bindings a)).

(** [AssignmentLessThan] *)
#[export] Instance Assignment_key : OrderedKey Assignment :=
  {| key_compare a b := bindings_compare (sorted_bindings a) (sorted_bindings b) |}.

Lemma bytes_compare_Eq a b : bytes_compare a b = Eq -> a = b.
Proof.
  revert b. induction a as [|x a IH]; intros [|y b]; try done. cbn.
  rewrite compare_then_Eq, Z.compare_eq_iff. intros [-> ?]. f_equal. auto.
Qed.

Lemma bindings_compare_Eq a b : bindings_compare a b = Eq -> a = b.
Proof.
  revert b. induction a as [|[r x] a IH]; intros [|[r' y] b]; try done. cbn.
  rewrite !compare_then_Eq, Pos.compare_eq_iff. intros [[-> ->%bytes_compare_Eq] ?]. f_equal. auto.
Qed.

(** Equivalent assignments bind the same. *)
Lemma same_key_bindings a b : key_eqb a b = true -> bindings a = bindings b.
Proof.
  unfold key_eqb. destruct (key_compare a b) eqn:E; [intros _|done..]. apply bindings_compare_Eq in E.
  unfold sorted_bindings in E. apply map_to_list_inj. rewrite <- (merge_sort_Permutation array_le (map_to_list (bindings a))), E.
  apply merge_sort_Permutation.
Qed.

Module CexCachingSolver.

(** A cached result is an assignment or, for an unsatisfiable key, null. *)
Record t (S : Type) : Type := Mk {
  solver : S;
  cache : Node Expr (option Assignment);
  assignmentsTable : list Assignment
}.
Arguments Mk {S}.
Arguments solver {S}.
Arguments cache {S}.
Arguments assignmentsTable {S}.

Definition NullAssignment (a : option Assignment) : outcome bool :=
  Done (match a with None => true | Some _ => false end).
Definition NonNullAssignment (a : option Assignment) : outcome bool :=
  Done (match a with None => false | Some _ => true end).

Section Cex.
Context {AP : APIntOps} {AH : ArrayHeap} {OP : ExprOptions} {VO : VisitorOptions} {XO : CexOptions}.
Context {S : Type} {iops : InitialSolver S}.

Definition NullOrSatisfyingAssignment (key : list Expr) (a : option Assignment) : outcome bool :=
  match a with None => Done true | Some a => satisfies a key end.

(** The loop over all assignments. *)
Fixpoint try_all (key : list Expr) (table : list Assignment) : outcome (option Assignment) :=
  match table with
  | [] => Done None
  | a :: table =>
      b ← satisfies a key;
      if (b : bool) then Done (Some a) else try_all key table
  end.

Definition superset_lookup (key : list Expr) (s : t S) : outcome (option (option Assignment)) :=
  if CexCacheSuperSet then findSuperset NonNullAssignment (cache s) key else Done None.

Definition searchForAssignment (key : list Expr) (s : t S) : outcome (option (option Assignment)) :=
  match lookup key (cache s) with
  | Some result => Done (Some result)
  | None =>
      l ← superset_lookup key s;
      match l with
      | Some result => Done (Some result)
      | None =>
          if CexCacheTryAll then
            l ← findSubset NullAssignment (cache s) key;
            match l with
            | Some result => Done (Some result)
            | None => r ← try_all key (assignmentsTable s); Done (Some <$> (r : option Assignment))
            end
          else findSubset (NullOrSatisfyingAssignment key) (cache s) key
      end
  end.

(** The key of a query, and the cached result if there is one. *)
Definition lookupAssignment (q : Query) (s : t S) : outcome (list Expr * option (option Assignment)) :=
  let key := set_of_list (constraints q) in
  neg ← createIsZero (q_expr q);
  match neg with
  | ConstantExpr CE =>
      if ConstantExpr_isFalse CE then Done (key, Some None)
      else r ← searchForAssignment key s; Done (key, r)
  | _ =>
      let key := set_insert neg key in
      r ← searchForAssignment key s; Done (key, r)
  end.

(** [assignmentsTable.insert]: the assignment with these bindings that was there
    already, if one was. *)
Definition memoize (binding : Assignment) (table : list Assignment) : Assignment * list Assignment :=
  match find (fun a => key_eqb binding a) table with
  | Some a => (a, table)
  | None => (binding, set_insert binding table)
  end.

(** The answer is null or an assignment; no answer when the solver fails. *)
Definition getAssignment (q : Query) (s : t S) : outcome (option (option Assignment) * t S) :=
  '(key, hit) ← lookupAssignment q s;
  match hit with
  | Some result => Done (Some result, s)
  | None =>
      let objects := findSymbolicObjects key in
      '(r, s1) ← computeInitialValues q objects (solver s);
      if negb (iv_success r) then Done (None, Mk s1 (cache s) (assignmentsTable s))
      else
        hasSolution ← deref (iv_hasSolution r);
        if (hasSolution : bool) then
          binding ← Assignment_make objects (iv_values r) false;
          let '(binding, table) := memoize binding (assignmentsTable s) in
          ok ← (if DebugCexCacheCheckBinding then satisfies binding key else Done true);
          Assert ok ;;
          Done (Some (Some binding), Mk s1 (insert None key (Some binding) (cache s)) table)
        else
          Done (Some None, Mk s1 (insert None key None (cache s)) (assignmentsTable s))
  end.

(** [a->evaluate] and the assertion that it is a constant. *)
Definition evaluate_constant (a : Assignment) (e : Expr) : outcome APInt :=
  v ← Assignment_evaluate a e;
  match v with ConstantExpr CE => Done CE | _ => AssertFail end.

Definition computeValidity (q : Query) (s : t S) : outcome (option Validity * t S) :=
  '(a, s) ← getAssignment (withFalse q) s;
  match a with
  | None => Done (None, s)
  | Some None => AssertFail
  | Some (Some a) =>
      v ← evaluate_constant a (q_expr q);
      if ConstantExpr_isTrue v then
        '(a, s) ← getAssignment q s;
        Done ((fun a => match a with None => VTrue | Some _ => VUnknown end) <$> (a : option (option Assignment)), s)
      else
        nq ← negateExpr q;
        '(a, s) ← getAssignment nq s;
        Done ((fun a => match a with None => VFalse | Some _ => VUnknown end) <$> (a : option (option Assignment)), s)
  end.

Definition computeTruth (q : Query) (s : t S) : outcome (option bool * t S) :=
  known ← (if CexCacheExperimental then
             nq ← negateExpr q;
             '(_, hit) ← lookupAssignment nq s;
             Done (match hit : option (option Assignment) with Some None => true | _ => false end)
           else Done false);
  if (known : bool) then Done (None, s)
  else
    '(a, s) ← getAssignment q s;
    Done ((fun a => match a with None => true | Some _ => false end) <$> (a : option (option Assignment)), s).

Definition computeValue (q : Query) (s : t S) : outcome (option APInt * t S) :=
  '(a, s) ← getAssignment (withFalse q) s;
  match a with
  | None => Done (None, s)
  | Some None => AssertFail
  | Some (Some a) => v ← evaluate_constant a (q_expr q); Done (Some v, s)
  end.

(** The bytes of an object, zero when the assignment does not bind it. *)
Definition object_values (a : Assignment) (os : positive) : list Z :=
  match bindings a !! os with
  | None => replicate (Z.to_nat (arr_size (array_at os))) 0
  | Some bs => bs
  end.

Definition computeInitialValues (q : Query) (objects : list positive) (s : t S) : outcome (InitialResult * t S) :=
  '(a, s) ← getAssignment q s;
  Done (match a with
        | None => MkInitial false None []
        | Some None => MkInitial true (Some false) []
        | Some (Some a) => MkInitial true (Some true) (object_values a <$> objects)
        end, s).

#[global] Instance ops_of : SolverImpl (t S) := {|
  Solver.computeValidity := computeValidity;
  Solver.computeTruth := computeTruth;
  Solver.computeValue := computeValue
|}.

#[global] Instance initial_of : InitialSolver (t S) := {| InitialValues.computeInitialValues := computeInitialValues |}.

End Cex.

(** ** Correctness *)

(** An assignment for every byte of the arrays it binds. *)
Record assignment_good {AH : ArrayHeap} (a : Assignment) : Prop := MkGood {
  ag_ok : assignment_ok a;
  ag_closed : allowFreeValues a = false;
  ag_length r bs : bindings a !! r = Some bs -> Z.of_nat (length bs) = arr_size (array_at r)
}.

Section Correct.
Context {AP : APIntOps} {APL : APIntLaws} {AH : ArrayHeap} {OP : ExprOptions} {VO : VisitorOptions} {XO : CexOptions}.
Context (default_opt : ConstArrayOpt = false) (domain32 : forall r, arr_domain (array_at r) <= 32).
Context {S : Type} {iops : InitialSolver S} {sol : SoundInitialSolver S shaped}.

(** A cached result: null for a key without solution, else a solution. *)
Definition cached_ok (key : list Expr) (v : option Assignment) : Prop :=
  match v with
  | None => forall ρ, ~ sat ρ key
  | Some a => assignment_good a /\ sat (env_of a) key
  end.

Record inv (s : t S) : Prop := MkInv {
  inv_solver : iv_inv shaped (solver s);
  inv_tree : tree_ok (cache s);
  inv_cache key v : lookup key (cache s) = Some v -> cached_ok key v;
  inv_table : Forall assignment_good (assignmentsTable s)
}.

Lemma sat_subset ρ a b : a ⊆ b -> sat ρ b -> sat ρ a.
Proof. intros Hab Hs c Hc. auto. Qed.

Lemma cached_superset key s v : s ⊆ key -> cached_ok key v -> v <> None -> cached_ok s v.
Proof. destruct v as [a|]; [|done]. intros Hs [? ?] _. split; [done|]. by eapply sat_subset. Qed.

Lemma cached_subset key s v : s ⊆ key -> cached_ok s v -> v = None -> cached_ok key v.
Proof. intros Hs Hc -> ρ Hρ. by eapply (Hc ρ), sat_subset. Qed.

(** [satisfies] says yes to solutions only. *)
Lemma satisfies_good a key : assignment_good a -> Forall literal_bool key ->
  exists b, satisfies a key = Done b /\ (b = true -> cached_ok key (Some a)).
Proof.
  intros Ha Hk. destruct (satisfies_ok default_opt domain32 a key (ag_ok _ Ha) Hk) as (b & Eb & Hb & _).
  exists b. split; [done|]. intros ->. split; [done|]. apply Hb; [done|apply env_of_agrees].
Qed.

Lemma try_all_ok key table : Forall assignment_good table -> Forall literal_bool key ->
  exists r, try_all key table = Done r /\ forall a, r = Some a -> cached_ok key (Some a).
Proof.
  intros Ht Hk. induction Ht as [|a table Ha Ht IH]; cbn [try_all]; [by exists None|].
  destruct (satisfies_good a key Ha Hk) as (b & -> & Hb). cbn [mbind outcome_bind].
  destruct b; [|done]. exists (Some a). split; [done|]. intros ? [= <-]. auto.
Qed.

Lemma superset_lookup_ok key s : inv s -> is_set key ->
  exists r, superset_lookup key s = Done r /\ forall v, r = Some v -> cached_ok key v.
Proof.
  intros Hs Hk. unfold superset_lookup. destruct CexCacheSuperSet; [|by exists None].
  pose proof (findSuperset_ok NonNullAssignment (cache s) key (tree_wf _ (inv_tree _ Hs)) ltac:(intros ? []; by eexists) Hk) as H.
  destruct (findSuperset _ _ _) as [[v|]| | |]; try done; [|by exists None].
  eexists. split; [done|]. intros ? [= <-]. destruct H as (set & Hsub & Hl & Ha).
  eapply cached_superset; [done|by eapply inv_cache|]. by intros ->.
Qed.

Lemma null_subset_ok key s : inv s -> is_set key ->
  exists r, findSubset NullAssignment (cache s) key = Done r /\ forall v, r = Some v -> cached_ok key v.
Proof.
  intros Hs Hk.
  pose proof (findSubset_ok NullAssignment (cache s) key (tree_wf _ (inv_tree _ Hs)) ltac:(intros ? []; by eexists) Hk) as H.
  destruct (findSubset _ _ _) as [[v|]| | |]; try done; [|by exists None].
  eexists. split; [done|]. intros ? [= <-]. destruct H as (set & Hsub & Hl & Ha).
  eapply cached_subset; [done|by eapply inv_cache|]. by destruct v.
Qed.

Lemma satisfying_subset_ok key s : inv s -> is_set key -> Forall literal_bool key ->
  exists r, findSubset (NullOrSatisfyingAssignment key) (cache s) key = Done r /\
    forall v, r = Some v -> cached_ok key v.
Proof.
  intros Hs Hk Hl.
  assert (p_defined (NullOrSatisfyingAssignment key) (cache s)) as Hp.
  { intros set [a|] Hv; cbn; [|by eexists]. apply (inv_cache _ Hs) in Hv as [Ha _].
    destruct (satisfies_good a key Ha Hl) as (b & ? & _). by exists b. }
  pose proof (findSubset_ok _ (cache s) key (tree_wf _ (inv_tree _ Hs)) Hp Hk) as H.
  destruct (findSubset _ _ _) as [[v|]| | |]; try done; [|by exists None].
  eexists. split; [done|]. intros ? [= <-]. destruct H as (set & Hsub & Hv & Ha).
  apply (inv_cache _ Hs) in Hv. destruct v as [a|]; [|by eapply cached_subset].
  destruct (satisfies_good a key (proj1 Hv) Hl) as (b & Eb & Hb). unfold accepts in Ha. cbn in Ha.
  rewrite Eb in Ha. injection Ha as ->. auto.
Qed.

Lemma searchForAssignment_ok key s : inv s -> is_set key -> Forall literal_bool key ->
  exists r, searchForAssignment key s = Done r /\ forall v, r = Some v -> cached_ok key v.
Proof.
  intros Hs Hk Hl. unfold searchForAssignment. destruct (lookup key (cache s)) as [v|] eqn:E.
  { eexists. split; [done|]. intros ? [= <-]. by eapply inv_cache. }
  destruct (superset_lookup_ok key s Hs Hk) as (r & -> & Hr). cbn [mbind outcome_bind].
  destruct r as [v|]; [by eexists|]. destruct CexCacheTryAll; [|by apply satisfying_subset_ok].
  destruct (null_subset_ok key s Hs Hk) as (r & -> & Hr'). cbn [mbind outcome_bind].
  destruct r as [v|]; [by eexists|].
  destruct (try_all_ok key (assignmentsTable s) (inv_table _ Hs) Hl) as (r & -> & Ht). cbn [mbind outcome_bind].
  eexists. split; [done|]. intros v Hv. apply fmap_Some in Hv as (a & -> & ->). by apply Ht.
Qed.

(** ** Keys *)

(** What is asked for: null when there is no counterexample, else one. *)
Definition answer_ok (q : Query) (v : option Assignment) : Prop :=
  match v with
  | None => valid q
  | Some a => assignment_good a /\ counterexample q (env_of a)
  end.

(** The key of a query: its solutions are the counterexamples. *)
Record key_ok (q : Query) (key : list Expr) : Prop := MkKeyOk {
  ko_set : is_set key;
  ko_literal : Forall literal_bool key;
  ko_clean : Forall (fun e => clean e = true) key;
  ko_div ρ : sat ρ (constraints q) -> Forall (div_safe ρ) key;
  ko_sat ρ : sat ρ key <-> counterexample q ρ
}.

Lemma Forall_of_elem {A} (P : A -> Prop) (l l' : list A) : (forall x, x ∈ l -> x ∈ l') -> Forall P l' -> Forall P l.
Proof. rewrite !Forall_forall. auto. Qed.

Lemma sat_elem ρ a b : (forall x, x ∈ a <-> x ∈ b) -> sat ρ a <-> sat ρ b.
Proof. intros H. split; intros Hs c Hc; apply Hs, H, Hc. Qed.

(** A set with the elements of a list of good constraints is a key if its
    solutions are right. *)
Lemma make_key q key l : is_set key -> (forall x, x ∈ key -> x ∈ l) ->
  Forall boolean l -> Forall (fun e => clean e = true) l -> Forall (fun e => lit_safe e = true) l ->
  (forall ρ, sat ρ (constraints q) -> Forall (div_safe ρ) l) ->
  (forall ρ, sat ρ key <-> counterexample q ρ) -> key_ok q key.
Proof.
  intros Hs Hin Hb Hc Hl Hd Hsat. split; [done| |by eapply Forall_of_elem| |done].
  - apply Forall_forall. intros x Hx%Hin. rewrite Forall_forall in Hb, Hl. split; auto.
  - intros ρ Hρ. eapply Forall_of_elem; [done|auto].
Qed.

Lemma lookupAssignment_ok q s : inv s -> askable q ->
  exists key hit, lookupAssignment q s = Done (key, hit) /\
    (hit = None -> key_ok q key) /\ forall v, hit = Some v -> answer_ok q v.
Proof.
  intros Hs Hq. pose proof Hq as [[Hb [He Hw]] Hc Hl Hd _]. apply Forall_cons in Hc as [Hce Hc], Hl as [Hle Hl].
  assert (forall ρ, sat ρ (constraints q) -> div_safe ρ (q_expr q) /\ Forall (div_safe ρ) (constraints q)) as Hd'.
  { intros ρ Hρ. by apply Forall_cons, Hd. }
  unfold lookupAssignment. destruct (createIsZero_ok default_opt (q_expr q) He) as (neg & En & Wn & Nw & Ev).
  pose proof (createIsZero_clean default_opt _ _ Hce En) as Hcn.
  pose proof (createIsZero_lit_safe default_opt _ _ Hle En) as Hln. rewrite En. cbn [mbind outcome_bind].
  destruct (set_of_list_spec (constraints q)) as [Hset Helem].
  assert (forall ρ, eval ρ neg <> 0 <-> eval ρ (q_expr q) = 0) as Hz.
  { intros ρ. rewrite Ev. destruct (Z.eqb_spec (eval ρ (q_expr q)) 0); cbn; lia. }
  assert (forall key, key_ok q key -> exists key' hit,
    (r ← searchForAssignment key s; Done (key, r)) = Done (key', hit) /\
    (hit = None -> key_ok q key') /\ forall v, hit = Some v -> answer_ok q v) as Hsearch.
  { intros key Hk. destruct (searchForAssignment_ok key s Hs (ko_set _ _ Hk) (ko_literal _ _ Hk)) as (r & -> & Hr).
    cbn [mbind outcome_bind]. eexists _, _. split; [done|]. split; [done|]. intros v Hv. specialize (Hr v Hv).
    destruct v as [a|]; cbn in Hr |- *.
    - destruct Hr as [? Hr]. split; [done|]. by apply (ko_sat _ _ Hk).
    - intros ρ Hρ H0. by apply (Hr ρ), (ko_sat _ _ Hk). }
  assert (isConst neg = false -> key_ok q (set_insert neg (set_of_list (constraints q)))) as Hkey.
  { intros _. apply (make_key q _ (neg :: constraints q)); [by apply set_insert_sorted|..].
    - intros x. rewrite set_insert_elem, elem_of_cons, Helem. tauto.
    - by apply Forall_cons.
    - by apply Forall_cons.
    - by apply Forall_cons.
    - intros ρ Hρ. destruct (Hd' ρ Hρ). apply Forall_cons. split; [by eapply createIsZero_div_safe|done].
    - intros ρ. rewrite (sat_elem ρ _ (neg :: constraints q)) by (intros x; rewrite set_insert_elem, elem_of_cons, Helem; tauto).
      unfold counterexample. rewrite <- Hz. split.
      + intros H. split; [intros c Hcc; apply H; set_solver|apply H; set_solver].
      + intros [H1 H2] c [-> |Hcc]%elem_of_cons; auto. }
  destruct neg as [CE| | | | | | | |]; try (by apply Hsearch, Hkey).
  rewrite isFalse_spec by done. destruct (Z.eqb_spec (uval CE) 0) as [E|E].
  - eexists _, _. split; [done|]. split; [done|]. intros v [= <-]. intros ρ _ H0. by apply (Hz ρ) in H0.
  - apply Hsearch. apply (make_key q _ (constraints q)); [done|by intros x Hx; apply Helem|done|done|done| |].
    + intros ρ Hρ. by apply Hd'.
    + intros ρ. rewrite (sat_elem ρ _ (constraints q)) by done. unfold counterexample. split; [|tauto].
      intros H. split; [done|]. by apply Hz.
Qed.

(** ** New assignments *)

Lemma memoize_ok a table b table' : assignment_good a -> Forall assignment_good table ->
  memoize a table = (b, table') -> Forall assignment_good table' /\ assignment_good b /\ bindings b = bindings a.
Proof.
  intros Ha Ht. unfold memoize. destruct (find _ table) as [x|] eqn:E; intros [= <- <-].
  - apply find_some in E as [Hin%list_elem_of_In Hk]. split; [done|]. rewrite Forall_forall in Ht. split; [auto|].
    by apply same_key_bindings in Hk.
  - split; [|done]. apply Forall_forall. intros x Hx.
    assert (x = a \/ x ∈ table) as [-> |Hin].
    { clear -Hx. induction table as [|y table IH]; cbn [set_insert] in Hx; [by left; apply list_elem_of_singleton|].
      destruct (key_compare a y); rewrite elem_of_cons; repeat rewrite elem_of_cons in Hx; tauto. }
    + done.
    + rewrite Forall_forall in Ht. auto.
Qed.

Lemma env_of_bindings a b : bindings a = bindings b -> env_of a = env_of b.
Proof. intros H. unfold env_of, byte_of. by rewrite H. Qed.

Lemma key_objects_ok q key : key_ok q key -> objects_ok (findSymbolicObjects key).
Proof.
  intros Hk. destruct (findSymbolicObjects_ok key) as [Hn Hf]. split; [done|]. apply Forall_forall.
  intros r Hr. apply Hf in Hr as (e & He & Hs & u & i & Hin).
  pose proof (ko_literal _ _ Hk) as Hl. rewrite Forall_forall in Hl. destruct (Hl e He) as [[Hw _] _].
  by apply (proj1 wf_subs_mut e Hw) in Hin as [? _].
Qed.

(** The values of a solution, with zero elsewhere, are a counterexample: the key
    reads no other array. *)
Lemma solution_env q key values a : askable q -> key_ok q key ->
  solution q (findSymbolicObjects key) values ->
  Assignment_make (findSymbolicObjects key) values false = Done a -> counterexample q (env_of a).
Proof.
  intros Hq Hk. destruct (findSymbolicObjects_ok key) as [_ Hf].
  apply solution_env_on; [apply (ask_bytes _ Hq)| |by eapply key_objects_ok].
  intros ρ ρ' Hc. rewrite <- !(ko_sat _ _ Hk). eapply sat_same_contents; [|done].
  intros c r Hin Hr. apply Hf. by exists c.
Qed.

Lemma made_good objects values a : objects_ok objects -> values_ok objects values ->
  Assignment_make objects values false = Done a -> assignment_good a.
Proof.
  intros [_ Ho] Hv Ha. split.
  - by eapply made_values_ok.
  - unfold Assignment_make in Ha. destruct (bind_objects _ _ _); try done. by injection Ha as <-.
  - intros r bs Hb. pose proof (made_binding _ _ _ _ _ _ Ha Hb) as Hin.
    by destruct (zip_Forall2 _ _ _ _ _ Hv Hin).
Qed.

(** Recording an answer for a key. *)
Lemma insert_inv s s1 table key v : inv s -> iv_inv shaped s1 -> Forall assignment_good table ->
  is_set key -> cached_ok key v -> inv (Mk s1 (insert None key v (cache s)) table).
Proof.
  intros Hs Hs1 Ht Hk Hv. split; cbn; [done|apply tree_ok_insert; [done|apply Hs]| |done].
  intros k' v'. rewrite lookup_insert by apply Hs. destruct (set_eq_dec key k') as [<-|]; [by intros [= <-]|apply Hs].
Qed.

Lemma key_cached q key v : key_ok q key -> answer_ok q v -> cached_ok key v.
Proof.
  intros Hk. destruct v as [a|]; cbn.
  - intros [? ?]. split; [done|]. by apply (ko_sat _ _ Hk).
  - intros Hv ρ [Hρ H0]%(ko_sat _ _ Hk). by apply (Hv ρ).
Qed.

(** The check of -debug-cex-cache-check-binding passes. *)
Lemma binding_satisfies q key a : key_ok q key -> assignment_good a -> counterexample q (env_of a) ->
  satisfies a key = Done true.
Proof.
  intros Hk Ha Hc.
  destruct (satisfies_ok default_opt domain32 a key (ag_ok _ Ha) (ko_literal _ _ Hk)) as (b & -> & _ & Hb).
  f_equal. apply Hb; [|by apply (ko_sat _ _ Hk)]. pose proof (ko_clean _ _ Hk) as Hcl.
  pose proof (ko_div _ _ Hk _ (proj1 Hc)) as Hd. rewrite Forall_forall in Hcl, Hd |- *.
  intros x Hx. apply known_closed; [apply Ha|auto..].
Qed.

Lemma getAssignment_ok q s : inv s -> askable q ->
  exists r s', getAssignment q s = Done (r, s') /\ inv s' /\ forall v, r = Some v -> answer_ok q v.
Proof.
  intros Hs Hq. unfold getAssignment.
  destruct (lookupAssignment_ok q s Hs Hq) as (key & hit & -> & Hk & Hhit). cbn [mbind outcome_bind].
  destruct hit as [v|]; [by eexists _, _|]. specialize (Hk eq_refl).
  destruct (initial_ok q (findSymbolicObjects key) (solver s) (inv_solver _ Hs) (ask_shaped _ Hq) (key_objects_ok q key Hk))
    as (r & s1 & -> & Hs1 & Hr). cbn [mbind outcome_bind].
  destruct (iv_success r) eqn:Esuc; cbn [negb].
  2: { eexists _, _. split; [done|]. split; [|done]. split; cbn; [done|apply Hs..]. }
  destruct (Hr Esuc) as [[-> Hv]|[-> Hsol]]; cbn [deref mbind outcome_bind].
  { eexists _, _. split; [done|]. split; [|by intros ? [= <-]].
    apply insert_inv; [done..|apply Hs|apply Hk|by eapply (key_cached q)]. }
  destruct (Assignment_make_ok (findSymbolicObjects key) (iv_values r) false) as (a & Ea & _).
  { by rewrite (Forall2_length _ _ _ (proj1 Hsol)). }
  rewrite Ea. cbn [mbind outcome_bind].
  pose proof (made_good _ _ _ (key_objects_ok q key Hk) (proj1 Hsol) Ea) as Hg.
  pose proof (solution_env q key _ a Hq Hk Hsol Ea) as Hcex.
  destruct (memoize a (assignmentsTable s)) as [b table] eqn:Em.
  destruct (memoize_ok _ _ _ _ Hg (inv_table _ Hs) Em) as (Ht & Hgb & Eb).
  assert (answer_ok q (Some b)) as Hans by (split; [done|]; by rewrite (env_of_bindings b a)).
  assert ((if DebugCexCacheCheckBinding then satisfies b key else Done true) = Done true) as ->.
  { destruct DebugCexCacheCheckBinding; [|done]. apply (binding_satisfies q); [done|done|apply Hans]. }
  cbn [mbind outcome_bind]. eexists _, _. split; [done|]. split; [|by intros ? [= <-]].
  apply insert_inv; [done..|apply Hk|by eapply (key_cached q)].
Qed.

(** ** The operations *)

(** A counterexample makes the expression a constant. *)
Lemma evaluate_constant_ok q a : guarded q -> assignment_good a -> sat (env_of a) (constraints q) ->
  exists v, evaluate_constant a (q_expr q) = Done v /\ wf_apint v /\ getBitWidth v = getWidth (q_expr q) /\
    uval v = eval (env_of a) (q_expr q).
Proof.
  intros [[_ He _] Hc Hd _] Ha Hs. apply Forall_cons in Hc as [Hc _].
  specialize (Hd _ Hs). apply Forall_cons in Hd as [Hd _]. unfold evaluate_constant.
  destruct (Assignment_evaluate_ok default_opt domain32 a (q_expr q) (ag_ok _ Ha)) as (r & -> & [[[Hw Hww] Ev] Hcr]).
  { split; [done|by eapply div_safe_lit_safe]. }
  assert (isConst r = true) as Hr by (apply Hcr, known_closed; [apply Ha|done..]).
  destruct r as [v| | | | | | | |]; try discriminate Hr. exists v. split_and!; [done..|].
  by apply (Ev (env_of a)), env_of_agrees.
Qed.

(** An assignment for the constraints alone exists. *)
Lemma some_assignment q s : inv s -> guarded q ->
  exists r s', getAssignment (withFalse q) s = Done (r, s') /\ inv s' /\
    (r = None \/ exists a, r = Some (Some a) /\ assignment_good a /\ sat (env_of a) (constraints q)).
Proof.
  intros Hs Hg. destruct (getAssignment_ok (withFalse q) s Hs (guarded_withFalse q Hg)) as (r & s' & E & Hs' & Hr).
  exists r, s'. split_and!; [done..|]. destruct r as [[a|]|]; [|exfalso|by left].
  - right. exists a. destruct (Hr _ eq_refl) as [? [? _]]. done.
  - destruct Hg as [[_ _ [ρ Hρ]] _ _ _]. apply (Hr None eq_refl ρ Hρ), false_expr_ok.
Qed.

Lemma cex_computeValue_ok q s : inv s -> guarded q ->
  exists r s', computeValue q s = Done (r, s') /\ inv s' /\
    forall a, r = Some a -> wf_apint a /\ getBitWidth a = getWidth (q_expr q) /\
      exists ρ, sat ρ (constraints q) /\ eval ρ (q_expr q) = uval a.
Proof.
  intros Hs Hg. unfold computeValue. destruct (some_assignment q s Hs Hg) as (r & s' & -> & Hs' & Hr).
  cbn [mbind outcome_bind]. destruct Hr as [-> |(a & -> & Ha & Hsat)]; [by eexists _, _|].
  destruct (evaluate_constant_ok q a Hg Ha Hsat) as (v & -> & Hv & Hw & Ev). cbn [mbind outcome_bind].
  eexists _, _. split_and!; [done..|]. intros ? [= <-]. split_and!; [done..|]. by exists (env_of a).
Qed.

Lemma answer_valid q v : answer_ok q v -> match v with None => valid q | Some _ => ~ valid q end.
Proof. destruct v as [a|]; [|done]. intros [_ [Hs H0]] Hv. by apply (Hv _ Hs). Qed.

Lemma cex_computeTruth_ok q s : inv s -> guarded q -> getWidth (q_expr q) = Bool ->
  exists r s', computeTruth q s = Done (r, s') /\ inv s' /\ forall b, r = Some b -> (b = true <-> valid q).
Proof.
  intros Hs Hg Hw. unfold computeTruth.
  assert (exists known : bool, (if CexCacheExperimental then
      nq ← negateExpr q; '(_, hit) ← lookupAssignment nq s;
      Done (match hit : option (option Assignment) with Some None => true | _ => false end)
    else Done false) = Done known) as [known ->].
  { destruct CexCacheExperimental; [|by exists false].
    destruct (askable_negate default_opt q Hg Hw) as (nq & -> & Hnq & _). cbn [mbind outcome_bind].
    destruct (lookupAssignment_ok nq s Hs Hnq) as (key & hit & -> & _). by eexists. }
  cbn [mbind outcome_bind]. destruct known; [by eexists _, _|].
  destruct (getAssignment_ok q s Hs (guarded_askable q Hg Hw)) as (r & s' & -> & Hs' & Hr). cbn [mbind outcome_bind].
  eexists _, _. split_and!; [done..|]. intros b Hb. apply fmap_Some in Hb as (v & -> & ->).
  pose proof (answer_valid q v (Hr v eq_refl)). by destruct v.
Qed.

Lemma cex_computeValidity_ok q s : inv s -> guarded q -> getWidth (q_expr q) = Bool ->
  exists r s', computeValidity q s = Done (r, s') /\ inv s' /\ forall v, r = Some v -> validity_is v q.
Proof.
  intros Hs Hg Hw. unfold computeValidity. destruct (some_assignment q s Hs Hg) as (r & s1 & -> & Hs1 & Hr).
  cbn [mbind outcome_bind]. destruct Hr as [-> |(a & -> & Ha & Hsat)]; [by eexists _, _|].
  destruct (evaluate_constant_ok q a Hg Ha Hsat) as (v & -> & Hv & Hvw & Ev). cbn [mbind outcome_bind].
  rewrite isTrue_spec by congruence. destruct (Z.eqb_spec (uval v) 0) as [E0|E0]; cbn [negb].
  - destruct (askable_negate default_opt q Hg Hw) as (nq & -> & Hnq & Ec & Hz). cbn [mbind outcome_bind].
    destruct (getAssignment_ok nq s1 Hs1 Hnq) as (r & s2 & -> & Hs2 & Hr). cbn [mbind outcome_bind].
    eexists _, _. split_and!; [done..|]. intros w Hvw'. apply fmap_Some in Hvw' as (x & -> & ->).
    specialize (Hr x eq_refl). destruct x as [b|]; cbn in Hr |- *.
    + destruct Hr as [_ [Hb1 Hb2]]. rewrite Ec in Hb1. apply Hz in Hb2. split.
      * intros Hval. apply (Hval _ Hsat). congruence.
      * intros Hn. by apply Hb2, Hn.
    + intros ρ Hρ. unfold valid in Hr. rewrite Ec in Hr. specialize (Hr ρ Hρ).
      destruct (Z.eq_dec (eval ρ (q_expr q)) 0) as [|Hne]; [done|]. by apply Hz in Hne.
  - destruct (getAssignment_ok q s1 Hs1 (guarded_askable q Hg Hw)) as (r & s2 & -> & Hs2 & Hr). cbn [mbind outcome_bind].
    eexists _, _. split_and!; [done..|]. intros w Hvw'. apply fmap_Some in Hvw' as (x & -> & ->).
    pose proof (answer_valid q x (Hr x eq_refl)) as Hx. destruct x as [b|]; cbn; [|done].
    split; [done|]. intros Hn. apply E0. rewrite Ev. by apply Hn.
Qed.

Lemma object_values_ok a objects : assignment_good a -> objects_ok objects ->
  values_ok objects (object_values a <$> objects) /\ has_values (env_of a) objects (object_values a <$> objects).
Proof.
  intros Ha [_ Ho]. unfold values_ok, has_values. rewrite !Forall2_fmap_r.
  assert (forall r, r ∈ objects -> 0 <= arr_size (array_at r)) as Hr.
  { intros r Hr. rewrite Forall_forall in Ho. apply (Ho r Hr). }
  split; apply Forall_Forall2_diag, Forall_forall; intros r Hin; pose proof (Hr r Hin) as Hsz; unfold compose, object_values;
    destruct (bindings a !! r) as [bs|] eqn:Hb.
  - split; [by apply (ag_length _ Ha)|]. by apply (ag_ok _ Ha) in Hb as [_ ?].
  - rewrite length_replicate, Z2Nat.id by done. split; [done|]. by apply Forall_replicate.
  - intros Hc%symbolic_not_constant k v Hk. unfold initial_value, env_of, byte_of. rewrite Hc, Hb. cbn. by rewrite Nat2Z.id, Hk.
  - intros Hc%symbolic_not_constant k v [-> _]%lookup_replicate. unfold initial_value, env_of, byte_of. by rewrite Hc, Hb.
Qed.

(** Cached counterexamples are as good as new ones. *)
Lemma cex_computeInitialValues_ok q objects s : inv s -> askable q -> objects_ok objects ->
  exists r s', computeInitialValues q objects s = Done (r, s') /\ inv s' /\ initial_result_ok q objects r.
Proof.
  intros Hs Hq Ho. unfold computeInitialValues. destruct (getAssignment_ok q s Hs Hq) as (r & s' & -> & Hs' & Hr).
  cbn [mbind outcome_bind]. eexists _, _. split_and!; [done..|]. destruct r as [[a|]|]; intros Hok; cbn in *; [|left|done].
  - right. destruct (Hr _ eq_refl) as [Ha Hc]. destruct (object_values_ok a objects Ha Ho). split; [done|].
    split; [done|]. by exists (env_of a).
  - split; [done|]. exact (Hr _ eq_refl).
Qed.

#[export] Instance sound_initial_of : SoundInitialSolver (t S) askable.
Proof. refine {| iv_inv := inv |}. apply cex_computeInitialValues_ok. Defined.

(** The new cache. *)
Lemma inv_new (s : S) : iv_inv shaped s -> inv (Mk s (node_new None) []).
Proof.
  intros Hs. split; cbn; [done|apply tree_ok_new| |constructor]. intros key v. by rewrite lookup_new.
Qed.

(** ** What is not computed again *)

(** The key depends on the query alone, and a stored key is found. *)
Lemma lookupAssignment_stored q (s s' : t S) key v :
  lookupAssignment q s = Done (key, None) -> lookup key (cache s') = Some v ->
  lookupAssignment q s' = Done (key, Some v).
Proof.
  unfold lookupAssignment. destruct (createIsZero (q_expr q)) as [neg| | |]; try done. cbn [mbind outcome_bind].
  assert (forall k : list Expr, (r ← searchForAssignment k s; Done (k, r)) = Done (key, None) -> lookup key (cache s') = Some v ->
    (r ← searchForAssignment k s'; Done (k, r)) = Done (key, Some v)) as H.
  { intros k E Hl. destruct (searchForAssignment k s); try done. injection E as -> _.
    unfold searchForAssignment. by rewrite Hl. }
  destruct neg as [CE| | | | | | | |]; try apply H. destruct (ConstantExpr_isFalse CE); [done|apply H].
Qed.

(** A query that was answered is answered the same from the cache, without the
    solver. *)
Lemma getAssignment_cached q (s : t S) v s' : inv s ->
  getAssignment q s = Done (Some v, s') -> getAssignment q s' = Done (Some v, s').
Proof.
  intros Hs H. unfold getAssignment in H. destruct (lookupAssignment q s) as [[key hit]| | |] eqn:El; try done.
  cbn [mbind outcome_bind] in H. destruct hit as [x|].
  { injection H as -> <-. unfold getAssignment. by rewrite El. }
  enough (lookup key (cache s') = Some v) as Hl.
  { unfold getAssignment. by rewrite (lookupAssignment_stored q s s' key v El Hl). }
  destruct (InitialValues.computeInitialValues q (findSymbolicObjects key) (solver s)) as [[r s1]| | |]; try done.
  cbn [mbind outcome_bind] in H. destruct (iv_success r); cbn [negb] in H; [|done].
  destruct (iv_hasSolution r) as [[|]|]; cbn [deref mbind outcome_bind] in H; try done.
  - destruct (Assignment_make _ _ _) as [a| | |]; try done. cbn [mbind outcome_bind] in H.
    destruct (memoize a (assignmentsTable s)) as [b table].
    destruct (if DebugCexCacheCheckBinding then satisfies b key else Done true) as [[]| | |]; try done.
    injection H as <- <-. cbn. apply lookup_insert_same, Hs.
  - injection H as <- <-. cbn. apply lookup_insert_same, Hs.
Qed.

End Correct.
End CexCachingSolver.
