(* ===== verification/IndependentSolver.v ===== *)
(** [IndependentSolver] (IndependentSolver.cpp): before a query is answered,
    the constraints that share no array element with it, directly or through
    other constraints, are dropped.

    [getAllIndependentConstraintsSets] (IndependentSolver.cpp): the constraints
    of a query, and the negation of its expression, split into factors that
    share no array element. *)
From stdpp Require Import base list numbers gmap sets.
From Stdlib Require Import ZArith Lia.
From S2P Require Import Prelude APInt Bits Expr Semantics ConstantOps ExprCreate CreateSound OpsSound FindReads Solver.
Local Open Scope Z_scope.

(** ** [DenseSet<unsigned>] *)

Module DenseSet.

Abbreviation t := (gset Z).

(** One round of [add(const DenseSet &)], on the flag and the set. *)
Definition add_one (ms : bool * t) (x : Z) : bool * t :=
  let '(modified, s) := ms in
  if modified || negb (bool_decide (x ∈ s)) then (true, {[x]} ∪ s) else (modified, s).

(** Whether adding [b] changed the set, and the set. *)
Definition add_set (b s : t) : bool * t := fold_left add_one (elements b) (false, s).

Definition intersects (s b : t) : bool := existsb (fun x => bool_decide (x ∈ b)) (elements s).

Lemma add_one_fold l m s :
  fold_left add_one l (m, s) =
  (m || negb (bool_decide (list_to_set l ⊆ s)), list_to_set l ∪ s).
Proof.
  revert m s. induction l as [|x l IH]; intros m s; cbn [fold_left list_to_set foldr add_one].
  - rewrite bool_decide_true by set_solver. destruct m; cbn; f_equal; set_solver.
  - destruct (decide (x ∈ s)) as [Hx|Hx].
    + rewrite (bool_decide_true (x ∈ s)) by done. cbn [negb]. rewrite orb_false_r.
      destruct m; rewrite IH; cbn; f_equal; [set_solver| |set_solver].
      f_equal. apply bool_decide_ext. set_solver.
    + rewrite (bool_decide_false (x ∈ s)) by done. cbn [negb]. rewrite orb_true_r, IH. cbn.
      rewrite (bool_decide_false (_ ⊆ s)) by set_solver. rewrite orb_true_r. f_equal. set_solver.
Qed.

Lemma add_set_spec b s : add_set b s = (negb (bool_decide (b ⊆ s)), b ∪ s).
Proof. unfold add_set. by rewrite add_one_fold, list_to_set_elements_L. Qed.

Lemma dense_intersects_false s b x : intersects s b = false -> x ∈ s -> x ∈ b -> False.
Proof.
  unfold intersects. intros Hf Hs Hb. apply not_true_iff_false in Hf. apply Hf.
  apply existsb_exists. exists x. split; [|by apply bool_decide_true].
  by apply list_elem_of_In, elem_of_elements.
Qed.

End DenseSet.

(** ** [IndependentElementSet] *)

(** The elements read at constant indices, the arrays read at symbolic ones,
    and the expressions collected so far. *)
Record IndependentElementSet : Type := MkIES {
  ies_elements : gmap positive DenseSet.t;
  ies_wholeObjects : gset positive;
  ies_exprs : list Expr
}.

Module IES.

Abbreviation t := IndependentElementSet.

Section IES.
Context {AP : APIntOps} {AH : ArrayHeap}.

(** The body of the constructor's loop, for one read. *)
Definition add_read (i : t) (re : Expr) : outcome t :=
  match re with
  | ReadExpr array head index =>
      if isConstantArray (array_at array) && bool_decide (head = UNull) then Done i
      else if bool_decide (array ∈ ies_wholeObjects i) then Done i
      else match index with
           | ConstantExpr CE =>
               k ← ConstantExpr_getZExtValue CE 32;
               Done (MkIES (<[array := {[u32 k]} ∪ default ∅ (ies_elements i !! array)]> (ies_elements i))
                           (ies_wholeObjects i) (ies_exprs i))
           | _ => Done (MkIES (delete array (ies_elements i)) ({[array]} ∪ ies_wholeObjects i) (ies_exprs i))
           end
  | _ => Undefined
  end.

Fixpoint add_reads (reads : list Expr) (i : t) : outcome t :=
  match reads with
  | [] => Done i
  | re :: reads => i ← add_read i re; add_reads reads i
  end.

(** [IndependentElementSet(ref<Expr> e)] *)
Definition make (e : Expr) : outcome t :=
  reads ← findReads e true; add_reads reads (MkIES ∅ ∅ [e]).

Definition intersects (i b : t) : bool :=
  existsb (fun array => bool_decide (array ∈ ies_wholeObjects b) ||
                        bool_decide (is_Some (ies_elements b !! array)))
          (elements (ies_wholeObjects i)) ||
  existsb (fun x : positive * DenseSet.t =>
             bool_decide (x.1 ∈ ies_wholeObjects b) ||
             match ies_elements b !! x.1 with
             | Some d => DenseSet.intersects x.2 d
             | None => false
             end)
          (map_to_list (ies_elements i)).

(** The two loops of [add], on the flag [modified] and the set. *)
Definition add_whole (mi : bool * t) (array : positive) : bool * t :=
  let '(modified, i) := mi in
  match ies_elements i !! array with
  | Some _ => (true, MkIES (delete array (ies_elements i)) ({[array]} ∪ ies_wholeObjects i) (ies_exprs i))
  | None =>
      if bool_decide (array ∈ ies_wholeObjects i) then (modified, i)
      else (true, MkIES (ies_elements i) ({[array]} ∪ ies_wholeObjects i) (ies_exprs i))
  end.

Definition add_elements (mi : bool * t) (x : positive * DenseSet.t) : bool * t :=
  let '(modified, i) := mi in
  if bool_decide (x.1 ∈ ies_wholeObjects i) then (modified, i)
  else match ies_elements i !! x.1 with
       | None => (true, MkIES (<[x.1 := x.2]> (ies_elements i)) (ies_wholeObjects i) (ies_exprs i))
       | Some d =>
           let '(m, d) := DenseSet.add_set x.2 d in
           (modified || m, MkIES (<[x.1 := d]> (ies_elements i)) (ies_wholeObjects i) (ies_exprs i))
       end.

Definition add (b i : t) : bool * t :=
  let i := MkIES (ies_elements i) (ies_wholeObjects i) (ies_exprs i ++ ies_exprs b) in
  fold_left add_elements (map_to_list (ies_elements b))
    (fold_left add_whole (elements (ies_wholeObjects b)) (false, i)).

(** ** What a set stands for *)

(** The array elements a set covers. *)
Definition touches (i : t) (a : positive) (k : Z) : Prop :=
  a ∈ ies_wholeObjects i \/ exists d, ies_elements i !! a = Some d /\ k ∈ d.

#[global] Instance touches_dec i a k : Decision (touches i a k).
Proof.
  unfold touches. destruct (decide (a ∈ ies_wholeObjects i)); [left; auto|].
  destruct (ies_elements i !! a) as [d|]; [|right; naive_solver].
  destruct (decide (k ∈ d)); [left; eauto|right; naive_solver].
Defined.

Definition disjoint_sets (i b : t) : Prop := forall a k, touches i a k -> touches b a k -> False.

Lemma intersects_false i b : intersects i b = false -> disjoint_sets i b.
Proof.
  unfold intersects. intros [Hw He]%orb_false_iff a k Hi Hb. destruct Hi as [Hi|(d & Hd & Hk)].
  - apply not_true_iff_false in Hw. apply Hw, existsb_exists. exists a.
    split; [by apply list_elem_of_In, elem_of_elements|]. apply orb_true_iff.
    destruct Hb as [Hb|(d & Hd & _)]; [left|right]; apply bool_decide_true; [done|by exists d].
  - apply not_true_iff_false in He. apply He, existsb_exists. exists (a, d).
    split; [by apply list_elem_of_In, elem_of_map_to_list|]. cbn. apply orb_true_iff.
    destruct Hb as [Hb|(d' & Hd' & Hk')]; [left; by apply bool_decide_true|right].
    rewrite Hd'. apply not_false_iff_true. intros Hf. by eapply DenseSet.dense_intersects_false.
Qed.

(** What the steps of [add] do: cover more, and say so. *)
Definition grows (mi mi' : bool * t) (P : positive -> Z -> Prop) : Prop :=
  ies_exprs mi'.2 = ies_exprs mi.2 /\
  (forall a k, touches mi'.2 a k <-> touches mi.2 a k \/ P a k) /\
  (mi'.1 = false -> mi.1 = false /\ forall a k, P a k -> touches mi.2 a k).

Lemma fold_grows {A} (f : bool * t -> A -> bool * t) (P : A -> positive -> Z -> Prop) :
  (forall mi x, grows mi (f mi x) (P x)) ->
  forall l mi, grows mi (fold_left f l mi) (fun a k => exists x, x ∈ l /\ P x a k).
Proof.
  intros Hf l. induction l as [|x l IH]; intros mi; cbn [fold_left].
  - split; [done|]. split; [set_solver|]. intros ->. split; [done|]. set_solver.
  - destruct (IH (f mi x)) as (He & Ht & Hm). destruct (Hf mi x) as (He1 & Ht1 & Hm1).
    split; [congruence|]. split.
    + intros a k. rewrite Ht, Ht1. setoid_rewrite elem_of_cons. naive_solver.
    + intros E. destruct (Hm E) as [E1 Hs]. destruct (Hm1 E1) as [-> Hs1]. split; [done|].
      intros a k (y & [->|Hy]%elem_of_cons & Hp); [auto|].
      destruct (proj1 (Ht1 a k)) as [?|?]; eauto.
Qed.

Lemma add_whole_grows mi x : grows mi (add_whole mi x) (fun a _ => a = x).
Proof.
  destruct mi as [m i]. unfold add_whole. destruct (ies_elements i !! x) as [d|] eqn:E.
  - split; [done|]. split; [|done]. intros a k. unfold touches; cbn.
    destruct (decide (a = x)) as [->|Hne]; [set_solver|]. rewrite lookup_delete_ne by done. set_solver.
  - case_bool_decide as Hx; (split; [done|]; split); cbn; unfold touches; cbn.
    + intros a k. naive_solver.
    + intros ->. split; [done|]. intros a k ->. by left.
    + set_solver.
    + done.
Qed.

Lemma add_elements_grows mi x : grows mi (add_elements mi x) (fun a k => a = x.1 /\ k ∈ x.2).
Proof.
  destruct mi as [m i], x as [b d]. unfold add_elements; cbn [fst snd].
  case_bool_decide as Hx.
  { split; [done|]. split; cbn; unfold touches; [naive_solver|]. intros ->. split; [done|].
    intros a k [-> _]. by left. }
  destruct (ies_elements i !! b) as [d0|] eqn:E.
  - rewrite DenseSet.add_set_spec. cbn.
    assert (forall a k, touches (MkIES (<[b:=d ∪ d0]> (ies_elements i)) (ies_wholeObjects i) (ies_exprs i)) a k
      <-> touches i a k \/ a = b /\ k ∈ d) as Ht.
    { intros a k. unfold touches; cbn. destruct (decide (a = b)) as [->|Hne].
      - rewrite lookup_insert_eq, E. pose proof (elem_of_union d d0 k). naive_solver.
      - rewrite lookup_insert_ne by done. naive_solver. }
    split; [done|]. split; [done|]. cbn. intros [-> Hn]%orb_false_iff. split; [done|].
    apply negb_false_iff, bool_decide_eq_true in Hn. intros a k [-> Hk]. right. exists d0.
    split; [done|]. set_solver.
  - split; [done|]. split; [|done]. intros a k. unfold touches; cbn.
    destruct (decide (a = b)) as [->|Hne].
    + rewrite lookup_insert_eq, E. naive_solver.
    + rewrite lookup_insert_ne by done. naive_solver.
Qed.

(** [add] is the union, and its result says whether more is covered. *)
Lemma add_spec b i :
  ies_exprs (add b i).2 = ies_exprs i ++ ies_exprs b /\
  (forall a k, touches (add b i).2 a k <-> touches i a k \/ touches b a k) /\
  ((add b i).1 = false -> forall a k, touches b a k -> touches i a k).
Proof.
  unfold add. set (i0 := MkIES _ _ _).
  destruct (fold_grows _ _ add_whole_grows (elements (ies_wholeObjects b)) (false, i0)) as (E1 & T1 & M1).
  set (mi := fold_left add_whole _ _) in *.
  destruct (fold_grows _ _ add_elements_grows (map_to_list (ies_elements b)) mi) as (E2 & T2 & M2).
  assert (forall a k, touches b a k <->
    (exists x, x ∈ elements (ies_wholeObjects b) /\ a = x) \/
    (exists x, x ∈ map_to_list (ies_elements b) /\ a = x.1 /\ k ∈ x.2)) as Hb.
  { intros a k. unfold touches. apply Morphisms_Prop.or_iff_morphism.
    - split; [exists a; by rewrite elem_of_elements|]. intros (x & Hx & ->). by apply elem_of_elements.
    - split.
      + intros (d & Hd & Hk). exists (a, d). by rewrite elem_of_map_to_list.
      + intros ([x d] & Hx%elem_of_map_to_list & -> & Hk). eauto. }
  split; [by rewrite E2, E1|]. split.
  - intros a k. rewrite T2, T1, Hb. change (touches (false, i0).2 a k) with (touches i a k). tauto.
  - intros Hm a k. rewrite Hb. destruct (M2 Hm) as [E M2']. destruct (M1 E) as [_ M1'].
    intros [H|H]; [by apply (M1' a k)|]. apply M2' in H. apply T1 in H as [H|H]; [done|].
    by apply (M1' a k).
Qed.

(** ** What an expression depends on *)

(** The set covers what a read takes from the initial contents of its array. *)
Definition covers (i : t) (x : Expr) : Prop :=
  match x with
  | ReadExpr r _ ix =>
      isSymbolicArray (array_at r) = true ->
      match ix with ConstantExpr c => touches i r (uval c) | _ => forall k, touches i r k end
  | _ => True
  end.

Definition sub_touches (i i' : t) : Prop := forall a k, touches i a k -> touches i' a k.

Definition agree (i : t) (ρ ρ' : env) : Prop := forall a k, touches i a k -> ρ a k = ρ' a k.

Lemma covers_mono i i' x : sub_touches i i' -> covers i x -> covers i' x.
Proof. intros Hs. destruct x as [| |r u ix| | | | | |]; cbn; auto. destruct ix; auto. Qed.

Lemma initial_value_agree ρ ρ' r k :
  (isSymbolicArray (array_at r) = true -> ρ r k = ρ' r k) -> initial_value ρ r k = initial_value ρ' r k.
Proof.
  unfold initial_value, isConstantArray. destruct (isSymbolicArray _); cbn; [|done].
  intros ->; done.
Qed.

(** An expression has the same value under environments that agree on what
    its reads cover. *)
Lemma eval_agree_mut i ρ ρ' : agree i ρ ρ' ->
  (forall e, (forall x, x ∈ subs e -> covers i x) -> eval ρ e = eval ρ' e) /\
  (forall u, (forall x, x ∈ un_subs u -> covers i x) ->
     forall r k, (isSymbolicArray (array_at r) = true -> ρ r k = ρ' r k) ->
     eval_read ρ r u k = eval_read ρ' r u k).
Proof.
  intros Ha. apply Expr_UpdateNode_ind; cbn [subs un_subs eval eval_read]; intros;
    repeat match goal with
      | IH : (forall x, x ∈ subs ?e -> _) -> eval ρ ?e = _ |- _ =>
          let E := fresh "E" in
          assert (eval ρ e = eval ρ' e) as E by (apply IH; intros; set_solver); clear IH; rewrite ?E
      end; try done.
  - rename H into IH, H1 into Hx. apply IH; [intros; apply Hx; set_solver|].
    intros Hs. specialize (Hx _ (list_elem_of_here _ _) Hs). apply Ha.
    destruct index; auto.
  - by apply initial_value_agree.
  - rename H into IH. case_match; [done|]. apply IH; [set_solver|done].
Qed.

Context {APL : APIntLaws} (domain32 : forall r, arr_domain (array_at r) <= 32).

Lemma add_read_ok i x : wf x -> isReadExpr x = true ->
  exists i', add_read i x = Done i' /\ ies_exprs i' = ies_exprs i /\ sub_touches i i' /\ covers i' x.
Proof.
  intros Hwf Hr. destruct x as [| |r u ix| | | | | |]; try done. cbn [add_read].
  destruct Hwf as (_ & _ & Hix & Hw). pose proof (domain32 r) as Hd.
  destruct (isConstantArray (array_at r) && _) eqn:Ec.
  { exists i. split; [done|]. split; [done|]. split; [by intros a k|]. apply andb_true_iff in Ec as [Ec _].
    unfold isConstantArray in Ec. cbn. intros Hs. by rewrite Hs in Ec. }
  destruct (decide (r ∈ ies_wholeObjects i)) as [Hwh|Hwh];
    [rewrite bool_decide_true by done|rewrite bool_decide_false by done].
  { exists i. split; [done|]. split; [done|]. split; [by intros a k|]. cbn. intros _.
    destruct ix; intros; by left. }
  assert (covers (MkIES (delete r (ies_elements i)) ({[r]} ∪ ies_wholeObjects i) (ies_exprs i)) (ReadExpr r u ix) /\
    sub_touches i (MkIES (delete r (ies_elements i)) ({[r]} ∪ ies_wholeObjects i) (ies_exprs i))) as [Hcw Hsw].
  { split; [cbn; intros _; destruct ix; intros; left; cbn; set_solver|].
    intros a k. unfold touches; cbn. destruct (decide (a = r)) as [->|Hne]; [set_solver|].
    rewrite lookup_delete_ne by done. set_solver. }
  destruct ix as [c| | | | | | | |]; try (by eexists; split; [done|]; split; [done|]; split).
  cbn in Hw, Hix. unfold ConstantExpr_getZExtValue. rewrite (proj2 (Z.leb_le (getBitWidth c) 32)) by lia.
  cbn [mbind outcome_bind]. assert (uval c < 2 ^ 32) as Hlt.
  { destruct Hix. pose proof (pow2_mono (getBitWidth c) 32). lia. }
  rewrite ap_getZExtValue_spec by lia. eexists; split; [done|]. split; [done|].
  unfold u32. rewrite Z.mod_small by (destruct Hix; lia). split.
  - intros a k. unfold touches; cbn. destruct (decide (a = r)) as [->|Hne].
    + rewrite lookup_insert_eq. destruct (ies_elements i !! r) as [d|]; cbn; [|naive_solver].
      intros [?|(d' & [= <-] & Hk)]; [by left|right]. eexists; split; [done|]. set_solver.
    + by rewrite lookup_insert_ne.
  - cbn. intros _. right. cbn. rewrite lookup_insert_eq. eexists; split; [done|]. set_solver.
Qed.

Lemma add_reads_ok reads i : Forall (fun x => wf x /\ isReadExpr x = true) reads ->
  exists i', add_reads reads i = Done i' /\ ies_exprs i' = ies_exprs i /\ sub_touches i i' /\
    Forall (covers i') reads.
Proof.
  intros Hr. revert i. induction Hr as [|x l [Hwf Hx] _ IH]; intros i; cbn [add_reads].
  - exists i. split; [done|]. split; [done|]. split; [by intros a k|done].
  - destruct (add_read_ok i x Hwf Hx) as (i1 & -> & E1 & S1 & C1). cbn [mbind outcome_bind].
    destruct (IH i1) as (i2 & -> & E2 & S2 & C2). exists i2. split; [done|]. split; [congruence|].
    split; [intros a k Hk; by apply S2, S1|]. constructor; [|done]. by eapply covers_mono.
Qed.

(** The set of an expression covers everything its value depends on. *)
Lemma make_ok e : wf e ->
  exists i, make e = Done i /\ ies_exprs i = [e] /\
    forall ρ ρ', agree i ρ ρ' -> eval ρ e = eval ρ' e.
Proof.
  intros Hwf. unfold make. destruct (findReads_spec e) as (rs & -> & Hrs). cbn [mbind outcome_bind].
  destruct (add_reads_ok rs (MkIES ∅ ∅ [e])) as (i & -> & Ei & _ & Hc).
  { apply Forall_forall. intros x Hx. apply Hrs in Hx as [Hx Hr]. split; [|done].
    by apply (proj1 wf_subs_mut e). }
  exists i. split; [done|]. split; [done|]. intros ρ ρ' Ha. apply (proj1 (eval_agree_mut i ρ ρ' Ha)).
  intros x Hx. destruct (isReadExpr x) eqn:Er; [|by destruct x].
  rewrite Forall_forall in Hc. apply Hc, Hrs. done.
Qed.

End IES.
End IES.

(** ** [getIndependentConstraints] *)

Module Independent.

Abbreviation item := (Expr * IndependentElementSet)%type.

Section Constraints.
Context {AP : APIntOps} {AH : ArrayHeap}.

(** The worklist: every constraint with its set. *)
Fixpoint make_worklist (cs : list Expr) : outcome (list item) :=
  match cs with
  | [] => Done []
  | c :: cs => i ← IES.make c; wl ← make_worklist cs; Done ((c, i) :: wl)
  end.

(** The variables of the loop. *)
Record Closure : Type := MkClosure {
  eltsClosure : IndependentElementSet;
  result : list Expr;
  newWorklist : list item;
  is_done : bool
}.

(** The body of the [for] loop. *)
Definition visit (c : Closure) (x : item) : Closure :=
  if IES.intersects x.2 (eltsClosure c) then
    let '(modified, elts) := IES.add x.2 (eltsClosure c) in
    MkClosure elts (result c ++ [x.1]) (newWorklist c) (if modified then false else is_done c)
  else MkClosure (eltsClosure c) (result c) (newWorklist c ++ [x]) (is_done c).

Definition pass (worklist : list item) (elts : IndependentElementSet) (res : list Expr) : Closure :=
  fold_left visit worklist (MkClosure elts res [] true).

Fixpoint closure_loop (n : nat) (worklist : list item) (elts : IndependentElementSet) (res : list Expr)
    : outcome (IndependentElementSet * list Expr) :=
  match n with
  | O => OutOfFuel
  | S n =>
      let c := pass worklist elts res in
      if is_done c then Done (eltsClosure c, result c)
      else closure_loop n (newWorklist c) (eltsClosure c) (result c)
  end.

(** A round that is not the last takes a constraint off the worklist. *)
Definition getIndependentConstraints (q : Query) : outcome (IndependentElementSet * list Expr) :=
  elts ← IES.make (q_expr q);
  worklist ← make_worklist (constraints q);
  closure_loop (S (length worklist)) worklist elts [].

(** ** The closure *)

(** The worklist [wl] is split into the constraints that were taken and those
    kept back. *)
Definition splits (wl kept taken : list item) (elts elts' : IndependentElementSet) : Prop :=
  kept ++ taken ≡ₚ wl /\ IES.sub_touches elts elts' /\
  (forall x, x ∈ taken -> IES.sub_touches x.2 elts').

Lemma visit_all wl c :
  exists kept taken, let c' := fold_left visit wl c in
    newWorklist c' = newWorklist c ++ kept /\ result c' = result c ++ taken.*1 /\
    splits wl kept taken (eltsClosure c) (eltsClosure c') /\
    (is_done c' = true -> is_done c = true /\ IES.sub_touches (eltsClosure c') (eltsClosure c) /\
       forall x, x ∈ kept -> IES.disjoint_sets x.2 (eltsClosure c')) /\
    (is_done c' = false -> is_done c = false \/ taken <> []).
Proof.
  revert c. induction wl as [|x wl IH]; intros c; cbn [fold_left].
  - exists [], []. cbn. rewrite !app_nil_r. split; [done|]. split; [done|].
    split; [split; [done|split; [by intros a k|set_solver]]|].
    split; [|auto]. intros ->. split; [done|]. split; [by intros a k|set_solver].
  - destruct (IH (visit c x)) as (kept & taken & Hn & Hr & (Hp & Hs & Ht) & Hd & Hf). clear IH.
    unfold visit in Hn, Hr, Hp, Hs, Ht, Hd, Hf |- *.
    destruct (IES.intersects x.2 (eltsClosure c)) eqn:Ei.
    + destruct (IES.add_spec x.2 (eltsClosure c)) as (_ & At & Am).
      destruct (IES.add x.2 (eltsClosure c)) as [m elts]. cbn in *.
      exists kept, (x :: taken). split; [done|]. split; [by rewrite Hr, <- app_assoc|].
      split; [split; [by rewrite <- Permutation_middle, Hp|split]|split].
      * intros a k Hk. apply Hs, At. by left.
      * intros y [->|Hy]%elem_of_cons; [|by apply Ht]. intros a k Hk. apply Hs, At. by right.
      * intros Hd'. destruct (Hd Hd') as (Hdc & Hs' & Hk). destruct m; [done|]. split; [done|].
        split; [|done]. intros a k Ha. apply Hs', At in Ha as [?|?]; [done|by apply Am].
      * by right.
    + apply IES.intersects_false in Ei. cbn in *.
      exists (x :: kept), taken. split; [by rewrite Hn, <- app_assoc|]. split; [done|].
      split; [split; [by rewrite <- app_comm_cons, Hp|by split]|split; [|done]].
      intros Hd'. destruct (Hd Hd') as (Hdc & Hs' & Hk). split; [done|]. split; [done|].
      intros y [->|Hy]%elem_of_cons; [|by apply Hk]. intros a k H1 H2. eapply Ei; eauto.
Qed.

Lemma closure_loop_ok n wl elts res : (length wl < n)%nat ->
  exists elts' kept taken, closure_loop n wl elts res = Done (elts', res ++ taken.*1) /\
    splits wl kept taken elts elts' /\ forall x, x ∈ kept -> IES.disjoint_sets x.2 elts'.
Proof.
  revert wl elts res. induction n as [|n IH]; intros wl elts res Hn; [lia|]. cbn [closure_loop].
  unfold pass. destruct (visit_all wl (MkClosure elts res [] true)) as
    (kept & taken & Ek & Er & (Hp & Hs & Ht) & Hd & Hf). cbn in Ek, Er, Hs, Hd, Hf.
  destruct (is_done _) eqn:Ed.
  - exists (eltsClosure (fold_left visit wl (MkClosure elts res [] true))), kept, taken. rewrite Er.
    split; [done|]. split; [by split|]. by destruct (Hd eq_refl) as (_ & _ & ?).
  - destruct (Hf eq_refl) as [?|Hne]; [done|]. rewrite Ek, Er.
    assert (length kept + length taken = length wl)%nat as Hlen
      by (rewrite <- (Permutation_length Hp), length_app; done).
    destruct (IH kept (eltsClosure (fold_left visit wl (MkClosure elts res [] true))) (res ++ taken.*1))
      as (elts' & kept' & taken' & -> & (Hp' & Hs' & Ht') & Hk').
    { destruct taken; cbn in *; [done|lia]. }
    exists elts', kept', (taken ++ taken'). split; [by rewrite fmap_app, app_assoc|]. split; [|done].
    split; [|split].
    + rewrite <- Hp, <- Hp'. rewrite (Permutation_app_comm taken taken'). by rewrite app_assoc.
    + intros a k Ha. by apply Hs', Hs.
    + intros x [Hx|Hx]%elem_of_app; [|by apply Ht']. intros a k Ha. by apply Hs', (Ht x).
Qed.

Context {APL : APIntLaws} (domain32 : forall r, arr_domain (array_at r) <= 32).

Lemma make_worklist_ok cs : Forall wf cs ->
  exists wl, make_worklist cs = Done wl /\ wl.*1 = cs /\
    forall x, x ∈ wl -> forall ρ ρ', IES.agree x.2 ρ ρ' -> eval ρ x.1 = eval ρ' x.1.
Proof.
  induction 1 as [|c cs Hc _ IH]; cbn [make_worklist]; [exists []; set_solver|].
  destruct (IES.make_ok domain32 c Hc) as (i & -> & _ & Hi). destruct IH as (wl & -> & E & Hwl).
  cbn. eexists; split; [done|]. split; [cbn; by rewrite E|].
  intros x [->|Hx]%elem_of_cons; [done|by apply Hwl].
Qed.

(** The constraints left out do not matter: they hold together with whatever
    the required ones and the query are. *)
Lemma getIndependentConstraints_ok q : wf_query q ->
  exists elts req, getIndependentConstraints q = Done (elts, req) /\
    (forall c, c ∈ req -> c ∈ constraints q) /\
    forall ρ, sat ρ req -> exists ρ', sat ρ' (constraints q) /\ eval ρ' (q_expr q) = eval ρ (q_expr q).
Proof.
  intros [Hc He [ρ0 Hρ0]]. unfold getIndependentConstraints.
  destruct (IES.make_ok domain32 _ He) as (elts & -> & _ & Helts). cbn [mbind outcome_bind].
  destruct (make_worklist_ok (constraints q)) as (wl & -> & Ewl & Hwl).
  { eapply Forall_impl; [exact Hc|]. by intros x []. }
  cbn [mbind outcome_bind].
  destruct (closure_loop_ok (S (length wl)) wl elts []) as (elts' & kept & taken & -> & (Hp & Hs & Ht) & Hk);
    [lia|].
  cbn [app]. eexists _, _. split; [done|].
  assert (forall c, c ∈ constraints q <-> c ∈ kept.*1 \/ c ∈ taken.*1) as Hsplit.
  { intros c. rewrite <- Ewl, <- Hp, fmap_app. apply elem_of_app. }
  split; [intros c Hin; apply Hsplit; by right|]. intros ρ Hρ.
  exists (fun a k => if decide (IES.touches elts' a k) then ρ a k else ρ0 a k). split.
  - intros c [Hin|Hin]%Hsplit.
    + apply list_elem_of_fmap in Hin as (x & -> & Hx).
      assert (x ∈ wl) as Hxw by (rewrite <- Hp; set_solver).
      rewrite (Hwl x Hxw _ ρ0); [apply Hρ0; rewrite <- Ewl; by apply list_elem_of_fmap_2|].
      intros a k Ha. rewrite decide_False; [done|]. intros Ha'. by apply (Hk x Hx a k).
    + pose proof Hin as Hin'. apply list_elem_of_fmap in Hin' as (x & -> & Hx).
      assert (x ∈ wl) as Hxw by (rewrite <- Hp; set_solver).
      rewrite (Hwl x Hxw _ ρ); [by apply Hρ|].
      intros a k Ha. rewrite decide_True; [done|]. by apply (Ht x Hx).
  - apply Helts. intros a k Ha. rewrite decide_True; [done|]. by apply Hs.
Qed.

End Constraints.

(** ** The solver *)

Section Solver.
Context {AP : APIntOps} {AH : ArrayHeap}.
Context {S : Type} {ops : SolverImpl S}.

(** The state is the underlying solver's, wrapped. *)
Record t : Type := Mk { solver : S }.

(** Every operation asks for the reduced query. *)
Definition reduced {A} (f : Query -> S -> outcome (option A * S)) (q : Query) (s : t)
    : outcome (option A * t) :=
  er ← getIndependentConstraints q;
  r ← f (MkQuery (er : IndependentElementSet * list Expr).2 (q_expr q)) (solver s);
  Done ((r : option A * S).1, Mk r.2).

#[global] Instance ops_of : SolverImpl t := {|
  Solver.computeValidity := reduced Solver.computeValidity;
  Solver.computeTruth := reduced Solver.computeTruth;
  Solver.computeValue := reduced Solver.computeValue
|}.

Context {APL : APIntLaws} (domain32 : forall r, arr_domain (array_at r) <= 32).
Context {sol : SoundSolver S}.

(** The reduced query has the answers of the query. *)
Lemma reduced_query q : wf_query q ->
  exists elts req, getIndependentConstraints q = Done (elts, req) /\
    let q' := MkQuery req (q_expr q) in
    wf_query q' /\ (valid q' <-> valid q) /\ (valid_not q' <-> valid_not q) /\
    forall ρ, sat ρ req -> exists ρ', sat ρ' (constraints q) /\ eval ρ' (q_expr q) = eval ρ (q_expr q).
Proof.
  intros Hq. destruct (getIndependentConstraints_ok domain32 q Hq) as (elts & req & E & Hsub & Hext).
  exists elts, req. split; [done|]. destruct Hq as [Hc He [ρ0 Hρ0]].
  assert (forall ρ, sat ρ (constraints q) -> sat ρ req) as Hsat by (intros ρ Hρ c Hin; auto).
  cbn. split; [split; cbn; [|done|eauto]|].
  { rewrite Forall_forall in Hc |- *. auto. }
  split; [|split; [|done]]; unfold valid, valid_not; cbn; (split; intros H ρ Hρ; [by apply H, Hsat|]).
  - destruct (Hext ρ Hρ) as (ρ' & Hρ' & <-). by apply H.
  - destruct (Hext ρ Hρ) as (ρ' & Hρ' & <-). by apply H.
Qed.

Lemma reduced_ok {A} (f : Query -> S -> outcome (option A * S)) (P : A -> Query -> Prop) q s :
  wf_query q ->
  (forall req, wf_query (MkQuery req (q_expr q)) -> exists r s', f (MkQuery req (q_expr q)) (solver s) = Done (r, s') /\
     s_inv s' /\ forall a, r = Some a -> P a (MkQuery req (q_expr q))) ->
  (forall req a, (valid (MkQuery req (q_expr q)) <-> valid q) -> (valid_not (MkQuery req (q_expr q)) <-> valid_not q) ->
     (forall ρ, sat ρ req -> exists ρ', sat ρ' (constraints q) /\ eval ρ' (q_expr q) = eval ρ (q_expr q)) ->
     P a (MkQuery req (q_expr q)) -> P a q) ->
  exists r s', reduced f q s = Done (r, s') /\ s_inv (solver s') /\ forall a, r = Some a -> P a q.
Proof.
  intros Hq Hf HP. unfold reduced.
  destruct (reduced_query q Hq) as (elts & req & -> & Hq' & Hv & Hn & Hext). cbn [mbind outcome_bind fst snd].
  destruct (Hf req Hq') as (r & s' & -> & Hs' & Hr). cbn. eexists _, _. split; [done|]. split; [done|].
  intros a Ha. eapply HP; eauto.
Qed.

#[export] Instance sound_of : SoundSolver t.
Proof.
  refine {| s_inv := fun s => s_inv (solver s) |}.
  - intros q s Hs [Hq Hw]. apply (reduced_ok _ validity_is); [done| |].
    + intros req Hq'. by apply validity_ok.
    + intros req [] Hv Hn _; cbn; tauto.
  - intros q s Hs [Hq Hw]. apply (reduced_ok _ (fun b q => b = true <-> valid q)); [done| |].
    + intros req Hq'. by apply truth_ok.
    + intros req b Hv Hn _ ?. by rewrite <- Hv.
  - intros q s Hs Hq. apply (reduced_ok _ (fun a q => wf_apint a /\ getBitWidth a = getWidth (q_expr q) /\
        exists ρ, sat ρ (constraints q) /\ eval ρ (q_expr q) = uval a)); [done| |].
    + intros req Hq'. by apply value_ok.
    + intros req a _ _ Hext (Ha & Hw & ρ & Hρ & Ev). split; [done|]. split; [done|].
      destruct (Hext ρ Hρ) as (ρ' & ? & E). exists ρ'. split; [done|]. by rewrite E.
Defined.

(** It answers whenever the underlying solver does. *)
Lemma independent_total_of : TotalSolver S -> TotalSolver t.
Proof.
  intros Ht. split; intros q s r s' H; cbn in H; intros ->; unfold reduced in H; run_inv; total_solver.
Qed.

End Solver.
End Independent.

Module Factors.

Section Factors.
Context {AP : APIntOps} {AH : ArrayHeap} {OP : ExprOptions}.

Abbreviation IES := IndependentElementSet.

(** The variables of the inner loop. *)
Record Merge : Type := MkMerge { current : IES; keep : list IES; doneLoop : bool }.

(** The body of the inner loop: a factor that intersects [current] joins it. *)
Definition merge_one (m : Merge) (compare : IES) : Merge :=
  if IES.intersects (current m) compare then
    let '(modified, cur) := IES.add compare (current m) in
    MkMerge cur (keep m) (if modified then false else doneLoop m)
  else MkMerge (current m) (keep m ++ [compare]) (doneLoop m).

(** The loop over [factors], building [done]. *)
Fixpoint sweep (n : nat) (factors done : list IES) (doneLoop_ : bool) : outcome (list IES * bool) :=
  match factors with
  | [] => Done (done, doneLoop_)
  | cur :: rest =>
      match n with
      | O => OutOfFuel
      | S n => let m := fold_left merge_one rest (MkMerge cur [] doneLoop_) in
               sweep n (keep m) (done ++ [current m]) (doneLoop m)
      end
  end.

Fixpoint factor_loop (n : nat) (factors : list IES) : outcome (list IES) :=
  match n with
  | O => OutOfFuel
  | S n =>
      r ← sweep (length factors) factors [] true;
      if (r : list IES * bool).2 then Done r.1 else factor_loop n r.1
  end.

Fixpoint make_factors (es : list Expr) : outcome (list IES) :=
  match es with
  | [] => Done []
  | e :: es => i ← IES.make e; fs ← make_factors es; Done (i :: fs)
  end.

(** What is split: the negated expression, unless it is the constant false,
    and the constraints. *)
Definition factor_exprs (q : Query) : outcome (list Expr) :=
  match q_expr q with
  | ConstantExpr CE => Assert ConstantExpr_isFalse CE ;; Done (constraints q)
  | e => neg ← createIsZero e; Done (neg :: constraints q)
  end.

(** A round that is not the last merges two factors. *)
Definition getAllIndependentConstraintsSets (q : Query) : outcome (list IES) :=
  es ← factor_exprs q;
  factors ← make_factors es;
  factor_loop (S (length factors)) factors.

(** ** The factors *)

Definition all_exprs (fs : list IES) : list Expr := fs ≫= ies_exprs.

(** A factor covers what the values of its expressions depend on. *)
Definition good (f : IES) : Prop :=
  forall e, e ∈ ies_exprs f -> forall ρ ρ', IES.agree f ρ ρ' -> eval ρ e = eval ρ' e.

Lemma good_add b i : good b -> good i -> good (IES.add b i).2.
Proof.
  intros Hb Hi. destruct (IES.add_spec b i) as (He & Ht & _). intros e. rewrite He.
  intros [Hin|Hin]%elem_of_app ρ ρ' Ha; [apply (Hi e Hin)|apply (Hb e Hin)];
    intros a k Hk; apply Ha, Ht; auto.
Qed.

Lemma merge_all rest m : good (current m) -> Forall good rest ->
  exists kept, let m' := fold_left merge_one rest m in
    keep m' = keep m ++ kept /\ good (current m') /\ (forall x, x ∈ kept -> x ∈ rest) /\
    ies_exprs (current m') ++ all_exprs kept ≡ₚ ies_exprs (current m) ++ all_exprs rest /\
    (length kept <= length rest)%nat /\
    (doneLoop m' = true -> doneLoop m = true /\ IES.sub_touches (current m') (current m) /\
       forall x, x ∈ kept -> IES.disjoint_sets (current m') x) /\
    (doneLoop m' = false -> doneLoop m = false \/ (length kept < length rest)%nat).
Proof.
  revert m. induction rest as [|x rest IH]; intros m Hm Hr; cbn [fold_left].
  - exists []. cbn. rewrite app_nil_r. split; [done|]. split; [done|]. split; [done|].
    split; [done|]. split; [done|]. split; [|auto]. intros ->. split; [done|].
    split; [by intros a k|set_solver].
  - apply Forall_cons in Hr as [Hx Hr]. unfold merge_one at 2 4 6 8 10 12 14.
    destruct (IES.intersects (current m) x) eqn:Ei.
    + pose proof (good_add x (current m) Hx Hm) as Hg.
      destruct (IES.add_spec x (current m)) as (Ae & At & Am).
      destruct (IES.add x (current m)) as [md cur]. cbn [fst snd] in *.
      destruct (IH (MkMerge cur (keep m) (if md then false else doneLoop m)) Hg Hr)
        as (kept & Hk & Hg' & Hin & Hp & Hl & Hd & Hf). cbn [current keep doneLoop] in *.
      exists kept. split; [done|]. split; [done|]. split; [set_solver|]. split; [|split; [cbn; lia|split]].
      * rewrite Hp, Ae. cbn. by rewrite app_assoc.
      * intros Hd'. destruct (Hd Hd') as (Hdc & Hs & Hdis). destruct md; [done|]. split; [done|].
        split; [|done]. intros a k Ha. apply Hs, At in Ha as [?|?]; [done|by apply Am].
      * intros _. right. cbn. lia.
    + apply IES.intersects_false in Ei.
      destruct (IH (MkMerge (current m) (keep m ++ [x]) (doneLoop m)) Hm Hr)
        as (kept & Hk & Hg' & Hin & Hp & Hl & Hd & Hf). cbn [current keep doneLoop] in *.
      exists (x :: kept). split; [by rewrite Hk, <- app_assoc|]. split; [done|]. split; [set_solver|].
      split; [|split; [cbn; lia|split]].
      * cbn. rewrite !(Permutation_app_comm (ies_exprs x)), !app_assoc. by rewrite Hp.
      * intros Hd'. destruct (Hd Hd') as (Hdc & Hs & Hdis). split; [done|]. split; [done|].
        intros y [->|Hy]%elem_of_cons; [|by apply Hdis]. intros a k Ha Hb. eapply Ei; eauto.
      * intros Hd'. destruct (Hf Hd'); [by left|right; cbn; lia].
Qed.

Lemma sweep_ok n fs acc d : (length fs <= n)%nat -> Forall good fs ->
  exists out d', sweep n fs acc d = Done (acc ++ out, d') /\ Forall good out /\
    all_exprs out ≡ₚ all_exprs fs /\ (length out <= length fs)%nat /\
    (d' = false -> d = false \/ (length out < length fs)%nat) /\
    (d' = true -> d = true /\ ForallOrdPairs IES.disjoint_sets out /\
       forall o, o ∈ out -> exists x, x ∈ fs /\ IES.sub_touches o x).
Proof.
  revert fs acc d. induction n as [|n IH]; intros [|cur rest] acc d Hn Hg; try (cbn in Hn; lia);
    try (exists [], d; cbn; rewrite app_nil_r; repeat split; auto; [constructor|set_solver]).
  apply Forall_cons in Hg as [Hc Hr]. cbn [sweep].
  destruct (merge_all rest (MkMerge cur [] d) Hc Hr) as (kept & Hk & Hg' & Hin & Hp & Hl & Hd & Hf).
  set (m := fold_left merge_one rest _) in *. cbn [current keep doneLoop] in *. rewrite Hk. cbn [app].
  destruct (IH kept (acc ++ [current m]) (doneLoop m)) as (out & d' & -> & Hgo & Hpo & Hlo & Hf' & Hd').
  { cbn in Hn. lia. }
  { rewrite Forall_forall in Hr |- *. auto. }
  exists (current m :: out), d'. rewrite <- app_assoc. split; [done|]. split; [by constructor|].
  split; [cbn; by rewrite Hpo, Hp|]. split; [cbn; lia|]. split.
  - intros E. destruct (Hf' E) as [E'|?]; [|right; cbn; lia]. destruct (Hf E'); [by left|right; cbn; lia].
  - intros E. destruct (Hd' E) as (E1 & Hfo & Ho). destruct (Hd E1) as (-> & Hs & Hdis). split; [done|]. split.
    + constructor; [|done]. apply Forall_forall. intros o Hoo.
      destruct (Ho o Hoo) as (x & Hx & Hsx). intros a k Ha Hb. eapply Hdis; eauto.
    + intros o [->|Hoo]%elem_of_cons; [exists cur; split; [left|done]|].
      destruct (Ho o Hoo) as (x & Hx & Hsx). exists x. split; [|done]. right. auto.
Qed.

Lemma factor_loop_ok n fs : (length fs < n)%nat -> Forall good fs ->
  exists out, factor_loop n fs = Done out /\ Forall good out /\
    all_exprs out ≡ₚ all_exprs fs /\ ForallOrdPairs IES.disjoint_sets out.
Proof.
  revert fs. induction n as [|n IH]; intros fs Hn Hg; [lia|]. cbn [factor_loop].
  destruct (sweep_ok (length fs) fs [] true) as (out & d & -> & Hgo & Hp & Hl & Hf & Hd); [done|done|].
  cbn [mbind outcome_bind fst snd app]. destruct d.
  - exists out. destruct (Hd eq_refl) as (_ & ? & _). done.
  - destruct (Hf eq_refl) as [?|Hlt]; [done|].
    destruct (IH out) as (out' & -> & Hgo' & Hp' & Hfo); [lia|done|].
    exists out'. split; [done|]. split; [done|]. split; [by rewrite Hp'|done].
Qed.

(** Disjoint factors that can be satisfied one by one can be satisfied together. *)
Lemma combine_sat fs : Forall good fs -> ForallOrdPairs IES.disjoint_sets fs ->
  (forall f, f ∈ fs -> exists ρ, sat ρ (ies_exprs f)) -> exists ρ, sat ρ (all_exprs fs).
Proof.
  intros Hg Hd. revert Hg. induction Hd as [|f fs Hf _ IH]; intros Hg Hs.
  - exists (fun _ _ => 0). intros c Hc. by apply elem_of_nil in Hc.
  - apply Forall_cons in Hg as [Hgf Hg]. destruct IH as [ρ Hρ]; [done|intros; apply Hs; by right|].
    destruct (Hs f (list_elem_of_here _ _)) as [ρf Hρf].
    exists (fun a k => if decide (IES.touches f a k) then ρf a k else ρ a k).
    intros c [Hc|Hc]%elem_of_app.
    + rewrite (Hgf c Hc _ ρf); [by apply Hρf|]. intros a k Ha. by rewrite decide_True.
    + pose proof Hc as Hc'. apply list_elem_of_bind in Hc' as (g & Hcg & Hgin).
      rewrite Forall_forall in Hg. rewrite (Hg g Hgin c Hcg _ ρ); [by apply Hρ|].
      intros a k Ha. rewrite decide_False; [done|]. intros Ha'.
      rewrite Forall_forall in Hf. by apply (Hf g Hgin a k).
Qed.

Context {APL : APIntLaws} (default_opt : ConstArrayOpt = false).
Context (domain32 : forall r, arr_domain (array_at r) <= 32).

Lemma make_factors_ok es : Forall wf es ->
  exists fs, make_factors es = Done fs /\ Forall good fs /\ all_exprs fs = es.
Proof.
  induction 1 as [|e es He _ IH]; cbn [make_factors]; [by exists []|].
  destruct (IES.make_ok domain32 e He) as (i & -> & Ei & Hi). destruct IH as (fs & -> & Hg & Ef).
  cbn. eexists; split; [done|]. split; [|unfold all_exprs in *; cbn; by rewrite Ei, Ef].
  constructor; [|done]. intros x. rewrite Ei, list_elem_of_singleton. by intros ->.
Qed.

(** What is split has a solution exactly when the query has a counterexample. *)
Lemma factor_exprs_ok q : bool_query q ->
  (forall CE, q_expr q = ConstantExpr CE -> uval CE = 0) ->
  exists es, factor_exprs q = Done es /\ Forall wf es /\
    forall ρ, sat ρ es <-> sat ρ (constraints q) /\ eval ρ (q_expr q) = 0.
Proof.
  intros [[Hc He Hs] Hw] Hconst. unfold factor_exprs.
  assert (Forall wf (constraints q)) as Hcw by (eapply Forall_impl; [exact Hc|]; by intros x []).
  destruct (createIsZero_ok default_opt (q_expr q) He) as (e & Ee & We & _ & Ev).
  assert (exists es, (neg ← createIsZero (q_expr q); Done (neg :: constraints q)) = Done es /\ Forall wf es /\
    forall ρ, sat ρ es <-> sat ρ (constraints q) /\ eval ρ (q_expr q) = 0) as Hneg.
  { rewrite Ee. cbn. eexists; split; [done|]. split; [by constructor|]. intros ρ. unfold sat.
    setoid_rewrite elem_of_cons. assert (eval ρ e <> 0 <-> eval ρ (q_expr q) = 0) as Hz.
    { rewrite Ev. destruct (Z.eqb_spec (eval ρ (q_expr q)) 0); cbn; lia. }
    rewrite <- Hz. naive_solver. }
  destruct (q_expr q) as [CE| | | | | | | |] eqn:E; try done.
  rewrite isFalse_spec by done. specialize (Hconst CE eq_refl). rewrite Hconst. cbn.
  eexists; split; [done|]. split; [done|]. intros ρ. naive_solver.
Qed.

(** The split is complete and exact: the factors hold the same expressions,
    share no array element, and can be solved apart. *)
Lemma getAllIndependentConstraintsSets_ok q : bool_query q ->
  (forall CE, q_expr q = ConstantExpr CE -> uval CE = 0) ->
  exists es fs, factor_exprs q = Done es /\ getAllIndependentConstraintsSets q = Done fs /\
    all_exprs fs ≡ₚ es /\ ForallOrdPairs IES.disjoint_sets fs /\
    ((forall f, f ∈ fs -> exists ρ, sat ρ (ies_exprs f)) <->
     exists ρ, sat ρ (constraints q) /\ eval ρ (q_expr q) = 0).
Proof.
  intros Hq Hconst. destruct (factor_exprs_ok q Hq Hconst) as (es & Ees & Hwf & Hsat).
  destruct (make_factors_ok es Hwf) as (fs0 & Ef & Hg0 & E0).
  destruct (factor_loop_ok (S (length fs0)) fs0) as (fs & El & Hg & Hp & Hd); [lia|done|].
  exists es, fs. split; [done|]. unfold getAllIndependentConstraintsSets. rewrite Ees.
  cbn [mbind outcome_bind]. rewrite Ef. cbn [mbind outcome_bind]. split; [done|]. rewrite E0 in Hp.
  split; [done|]. split; [done|]. split.
  - intros Hs. destruct (combine_sat fs Hg Hd Hs) as [ρ Hρ]. exists ρ. apply Hsat.
    intros c Hc. apply Hρ. by rewrite Hp.
  - intros [ρ Hρ%Hsat] f Hf. exists ρ. intros c Hc. apply Hρ. rewrite <- Hp.
    apply list_elem_of_bind. by exists f.
Qed.

End Factors.
End Factors.
