(* ===== verification/IndependentInitial.v ===== *)
(** [IndependentSolver::computeInitialValues] (IndependentSolver.cpp): a
    counterexample is put together from those of the independent factors. *)
From stdpp Require Import base list numbers strings gmap sets.
From Stdlib Require Import ZArith Lia.
From S2P Require Import Prelude APInt Expr Semantics ConstantOps ExprCreate CreateSound OpsSound ExprWeight Visitor FindReads Solver Evaluator IncompleteSolver CachingSolver SymbolicObjects InitialValues IndependentSolver.
Local Open Scope Z_scope.

Module IndependentInitial.

Abbreviation IES := IndependentElementSet.
Abbreviation RetMap := (gmap positive (list Z)).

(** The arrays of a factor, each once. *)
Definition calculateArrayReferences (ie : IES) : list positive :=
  elements (dom (ies_elements ie) ∪ ies_wholeObjects ie : gset positive).

(** Copying the determined elements into the values that are there. *)
Fixpoint place (indices : list Z) (from into : list Z) : outcome (list Z) :=
  match indices with
  | [] => Done into
  | index :: indices =>
      v ← deref (from !! Z.to_nat index);
      _ ← deref (into !! Z.to_nat index);
      place indices from (<[Z.to_nat index := v]> into)
  end.

Definition merge_array (it : IES) (retMap : RetMap) (array : positive) (values : list Z) : outcome RetMap :=
  match retMap !! array with
  | Some tempPtr =>
      Assert (length tempPtr =? length values)%nat ;;
      l ← place (elements (default ∅ (ies_elements it !! array))) values tempPtr;
      Done (<[array := l]> retMap)
  | None => Done (<[array := values]> retMap)
  end.

Fixpoint merge_values (it : IES) (retMap : RetMap) (arrays : list positive) (values : list (list Z)) : outcome RetMap :=
  match arrays, values with
  | array :: arrays, v :: values => m ← merge_array it retMap array v; merge_values it m arrays values
  | _, _ => Done retMap
  end.

Section Independent.
Context {AP : APIntOps} {AH : ArrayHeap} {OP : ExprOptions} {VO : VisitorOptions}.
Context {S : Type} {iops : InitialSolver S}.

(** How the loop over the factors ends: it returns early, or has values. *)
Inductive FactorsResult : Type :=
| Early (r : InitialResult)
| Solved (retMap : RetMap).

Definition false_expr : Expr := ConstantExpr (ConstantExpr_alloc 0 Bool).

(** [hasSolution] is true when a factor is asked about. *)
Fixpoint solve_factors (factors : list IES) (retMap : RetMap) (s : S) : outcome (FactorsResult * S) :=
  match factors with
  | [] => Done (Solved retMap, s)
  | it :: factors =>
      let arraysInFactor := calculateArrayReferences it in
      Assert (1 <=? length (ies_exprs it))%nat ;;
      if bool_decide (arraysInFactor = []) then solve_factors factors retMap s
      else
        '(r, s) ← computeInitialValues (MkQuery (ies_exprs it) false_expr) arraysInFactor s;
        let hasSolution := default true (iv_hasSolution r) in
        if negb (iv_success r) then Done (Early (MkInitial false (Some hasSolution) []), s)
        else if negb hasSolution then Done (Early (MkInitial true (Some false) []), s)
        else
          Assert (length (iv_values r) =? length arraysInFactor)%nat ;;
          m ← merge_values it retMap arraysInFactor (iv_values r);
          solve_factors factors m s
  end.

Definition object_bytes (retMap : RetMap) (arr : positive) : list Z :=
  match retMap !! arr with
  | None => replicate (Z.to_nat (arr_size (array_at arr))) 0
  | Some bs => bs
  end.

(** The constraints come out as constants other than false. *)
Fixpoint constraints_true (assign : Assignment) (cs : list Expr) : outcome bool :=
  match cs with
  | [] => Done true
  | c :: cs =>
      ret ← Assignment_evaluate assign c;
      match ret with
      | ConstantExpr CE => if ConstantExpr_isFalse CE then Done false else constraints_true assign cs
      | _ => AssertFail
      end
  end.

Definition assertCreatedPointEvaluatesToTrue (q : Query) (objects : list positive) (values : list (list Z))
    (retMap : RetMap) : outcome bool :=
  a ← Assignment_make objects values true;
  let assign := MkAssignment true (bindings a ∪ retMap) in
  b ← constraints_true assign (constraints q);
  if negb b then Done false
  else
    neg ← createIsZero (q_expr q);
    ret ← Assignment_evaluate assign neg;
    match ret with
    | ConstantExpr CE => Done (ConstantExpr_isTrue CE)
    | _ => AssertFail
    end.

Definition computeInitialValues (q : Query) (objects : list positive) (s : S) : outcome (InitialResult * S) :=
  factors ← Factors.getAllIndependentConstraintsSets q;
  '(res, s) ← solve_factors factors ∅ s;
  match res with
  | Early r => Done (r, s)
  | Solved retMap =>
      let values := object_bytes retMap <$> objects in
      ok ← assertCreatedPointEvaluatesToTrue q objects values retMap;
      Assert ok ;;
      Done (MkInitial true (Some true) values, s)
  end.

End Independent.

(** ** What is known of a factor *)

Section Sized.
Context {AP : APIntOps} {AH : ArrayHeap}.

(** The arrays exist, and the elements listed are inside them. *)
Record arrays_sized (f : IES) : Prop := MkArraysSized {
  sz_elements r d : ies_elements f !! r = Some d ->
    d <> ∅ /\ wf_array (array_at r) /\ forall k, k ∈ d -> 0 <= k < arr_size (array_at r);
  sz_whole r : r ∈ ies_wholeObjects f -> wf_array (array_at r)
}.

(** And everything the expressions read is covered. *)
Record sized (f : IES) : Prop := MkSized {
  sz_arrays : arrays_sized f;
  sz_exprs : ies_exprs f <> [];
  sz_covers e x : e ∈ ies_exprs f -> x ∈ subs e -> IES.covers f x
}.

Lemma fold_left_keeps {A B} (R : A -> Prop) (Q : B -> Prop) (f : A -> B -> A) l a :
  (forall a x, Q x -> R a -> R (f a x)) -> (forall x, x ∈ l -> Q x) -> R a -> R (fold_left f l a).
Proof.
  intros Hf. revert a. induction l as [|x l IH]; intros a Hl Ha; [done|]. cbn.
  apply IH; [intros y Hy; apply Hl; by right|]. apply Hf; [apply Hl; by left|done].
Qed.

Lemma delete_sized r (i : IES) : wf_array (array_at r) -> arrays_sized i ->
  arrays_sized (MkIES (delete r (ies_elements i)) ({[r]} ∪ ies_wholeObjects i) (ies_exprs i)).
Proof.
  intros Hr [He Hw]. split; cbn.
  - intros r' d [_ Hd]%lookup_delete_Some. by apply He.
  - intros r' [->%elem_of_singleton|?]%elem_of_union; auto.
Qed.

Lemma insert_sized r d (i : IES) : d <> ∅ -> wf_array (array_at r) ->
  (forall k, k ∈ d -> 0 <= k < arr_size (array_at r)) -> arrays_sized i ->
  arrays_sized (MkIES (<[r := d]> (ies_elements i)) (ies_wholeObjects i) (ies_exprs i)).
Proof.
  intros Hd Hr Hk [He Hw]. split; cbn; [|done].
  intros r' d' [[<- <-]|[_ Hd']]%lookup_insert_Some; auto.
Qed.

Lemma add_whole_sized (mi : bool * IES) x : wf_array (array_at x) -> arrays_sized mi.2 -> arrays_sized (IES.add_whole mi x).2.
Proof.
  destruct mi as [m i]. cbn [snd]. intros Hx Hi. unfold IES.add_whole. destruct (ies_elements i !! x); cbn; [by apply delete_sized|].
  case_bool_decide; [done|]. destruct Hi as [He Hw]. split; cbn; [done|].
  intros r [->%elem_of_singleton|?]%elem_of_union; auto.
Qed.

Lemma add_elements_sized (mi : bool * IES) (x : positive * DenseSet.t) :
  x.2 <> ∅ /\ wf_array (array_at x.1) /\ (forall k, k ∈ x.2 -> 0 <= k < arr_size (array_at x.1)) ->
  arrays_sized mi.2 -> arrays_sized (IES.add_elements mi x).2.
Proof.
  destruct mi as [m i], x as [r d]. cbn [fst snd]. intros (Hd & Hr & Hk) Hi. unfold IES.add_elements. cbn [fst snd].
  case_bool_decide; [done|]. destruct (ies_elements i !! r) as [d0|] eqn:E; cbn; [|by apply insert_sized].
  rewrite DenseSet.add_set_spec. cbn. destruct (sz_elements _ Hi r d0 E) as (? & _ & Hk0).
  apply insert_sized; [|done| |done]; [set_solver|]. intros k [?|?]%elem_of_union; auto.
Qed.

(** Merging factors keeps it. *)
Lemma sized_add b i : sized b -> sized i -> sized (IES.add b i).2.
Proof.
  intros Hb Hi. destruct (IES.add_spec b i) as (He & Ht & _). split.
  - unfold IES.add. eapply (fold_left_keeps (fun mi : bool * IES => arrays_sized mi.2)); [apply add_elements_sized| |].
    + intros [r d] Hin%elem_of_map_to_list. by apply (sz_elements _ (sz_arrays _ Hb)).
    + eapply (fold_left_keeps (fun mi : bool * IES => arrays_sized mi.2)); [apply add_whole_sized| |].
      * intros r Hr%elem_of_elements. by apply (sz_whole _ (sz_arrays _ Hb)).
      * destruct (sz_arrays _ Hi). by split.
  - rewrite He. intros [E _]%app_nil. by apply (sz_exprs _ Hi).
  - intros e x. rewrite He. intros [Hin|Hin]%elem_of_app Hx.
    + eapply IES.covers_mono; [|exact (sz_covers _ Hi e x Hin Hx)]. intros a k Hk. apply Ht. by left.
    + eapply IES.covers_mono; [|exact (sz_covers _ Hb e x Hin Hx)]. intros a k Hk. apply Ht. by right.
Qed.

(** A predicate that merging keeps is kept by the whole split. *)
Lemma factor_loop_keeps (Q : IES -> Prop) (HQ : forall b i, Q b -> Q i -> Q (IES.add b i).2) n fs out :
  Forall Q fs -> Factors.factor_loop n fs = Done out -> Forall Q out.
Proof.
  assert (forall rest m, Forall Q rest -> Q (Factors.current m) /\ Forall Q (Factors.keep m) ->
    Q (Factors.current (fold_left Factors.merge_one rest m)) /\ Forall Q (Factors.keep (fold_left Factors.merge_one rest m))) as Hm.
  { intros rest m Hr. rewrite Forall_forall in Hr.
    apply (fold_left_keeps (fun m => Q (Factors.current m) /\ Forall Q (Factors.keep m)) Q); [|done].
    intros m' x Hx [Hc Hk]. unfold Factors.merge_one. destruct (IES.intersects _ _).
    - specialize (HQ x (Factors.current m') Hx Hc). by destruct (IES.add x (Factors.current m')).
    - split; [done|]. by apply Forall_app_2, Forall_singleton. }
  assert (forall n fs acc d r, Forall Q fs -> Forall Q acc -> Factors.sweep n fs acc d = Done r -> Forall Q r.1) as Hs.
  { clear -Hm. induction n as [|n IH]; intros [|f fs] acc d r Hf Ha E; cbn in E; try done; try (by injection E as <-).
    apply Forall_cons in Hf as [Hf Hfs]. destruct (Hm fs (Factors.MkMerge f [] d) Hfs) as [Hc Hk]; [by split|].
    eapply IH; [exact Hk| |exact E]. by apply Forall_app_2, Forall_singleton. }
  revert fs. induction n as [|n IH]; intros fs Hf E; [done|]. cbn in E.
  destruct (Factors.sweep (length fs) fs [] true) as [[fs' d]| | |] eqn:Ew; try done. cbn in E.
  apply Hs in Ew; [|done|constructor]. cbn in Ew. destruct d; [by injection E as <-|by eapply IH].
Qed.

Context {APL : APIntLaws} (domain32 : forall r, arr_domain (array_at r) <= 32).

Lemma add_read_sized ρ i i' r u ix : wf (ReadExpr r u ix) -> eval ρ ix < arr_size (array_at r) ->
  arrays_sized i -> IES.add_read i (ReadExpr r u ix) = Done i' -> arrays_sized i'.
Proof.
  intros (Hr & _ & Hix & Hw) Hb Hi. cbn [IES.add_read].
  destruct (isConstantArray (array_at r) && _); [by intros [= <-]|]. case_bool_decide; [by intros [= <-]|].
  assert (arrays_sized (MkIES (delete r (ies_elements i)) ({[r]} ∪ ies_wholeObjects i) (ies_exprs i))) as Hd by by apply delete_sized.
  destruct ix as [c| | | | | | | |]; try (by intros [= <-]).
  cbn in Hix, Hb, Hw. unfold ConstantExpr_getZExtValue. pose proof (domain32 r). rewrite (proj2 (Z.leb_le (getBitWidth c) 32)) by lia.
  assert (uval c < 2 ^ 32) as Hlt. { destruct Hix. pose proof (pow2_mono (getBitWidth c) 32). lia. }
  cbn [mbind outcome_bind]. rewrite ap_getZExtValue_spec by lia. unfold u32. rewrite Z.mod_small by (destruct Hix; lia).
  intros [= <-]. apply insert_sized; [set_solver|done| |done].
  intros k [->%elem_of_singleton|Hk]%elem_of_union; [destruct Hix; lia|].
  destruct (ies_elements i !! r) as [d|] eqn:E; [|by apply elem_of_empty in Hk].
  by apply (sz_elements _ Hi r d E).
Qed.

Lemma make_sized ρ e : wf e -> in_bounds ρ e -> exists i, IES.make e = Done i /\ ies_exprs i = [e] /\ sized i.
Proof.
  intros He Hb. unfold IES.make. destruct (findReads_spec e) as (rs & -> & Hrs). cbn [mbind outcome_bind].
  assert (Forall (fun x => wf x /\ isReadExpr x = true) rs) as Hwf.
  { apply Forall_forall. intros x Hx. apply Hrs in Hx as [Hx Hr]. split; [|done]. by apply (proj1 wf_subs_mut e). }
  destruct (IES.add_reads_ok domain32 rs (MkIES ∅ ∅ [e]) Hwf) as (i & Ei & Exi & _ & Hc).
  exists i. split; [done|]. split; [done|]. split; [|by rewrite Exi|].
  - assert (forall x, x ∈ rs -> x ∈ subs e) as Hin by (intros x Hx; by apply Hrs).
    assert (arrays_sized (MkIES ∅ ∅ [e])) as H0. { split; cbn; [intros r d H; by rewrite lookup_empty in H|set_solver]. }
    clear Hc Hrs Exi. revert H0 Ei. generalize (MkIES ∅ ∅ [e]).
    induction Hwf as [|x rs [Hx Hr] _ IH]; intros i0 H0 Ei; cbn in Ei; [by injection Ei as <-|].
    destruct (IES.add_read i0 x) as [i1| | |] eqn:E1; try done. cbn in Ei. destruct x as [| |r u ix| | | | | |]; try done.
    eapply IH; [intros y Hy; apply Hin; by right| |exact Ei].
    eapply (add_read_sized ρ); [done| |done|exact E1]. apply (Hb r u ix), Hin. by left.
  - intros e' x. rewrite Exi. intros ->%list_elem_of_singleton Hx. destruct (isReadExpr x) eqn:Er; [|by destruct x].
    rewrite Forall_forall in Hc. by apply Hc, Hrs.
Qed.

Lemma make_factors_sized ρ es : Forall (fun e => wf e /\ in_bounds ρ e) es ->
  exists fs, Factors.make_factors es = Done fs /\ Forall sized fs /\ Factors.all_exprs fs = es.
Proof.
  induction 1 as [|e es [He Hb] _ IH]; cbn [Factors.make_factors]; [by exists []|].
  destruct (make_sized ρ e He Hb) as (i & -> & Ei & Hi). destruct IH as (fs & -> & Hf & Ef).
  cbn. eexists; split; [done|]. split; [by constructor|]. unfold Factors.all_exprs in *. cbn. by rewrite Ei, Ef.
Qed.

End Sized.

(** ** Putting values together *)

Section Merging.
Context {AP : APIntOps} {AH : ArrayHeap}.

Definition ret_ok (m : RetMap) : Prop := forall r bs, m !! r = Some bs ->
  Z.of_nat (length bs) = arr_size (array_at r) /\ Forall (fun v => 0 <= v < 2 ^ 8) bs.

Lemma place_ok indices from into : length from = length into ->
  (forall k, k ∈ indices -> 0 <= k < Z.of_nat (length into)) ->
  exists l, place indices from into = Done l /\ length l = length into /\
    forall k : nat, l !! k = if decide (Z.of_nat k ∈ indices) then from !! k else into !! k.
Proof.
  revert into. induction indices as [|i indices IH]; intros into Hl Hr; cbn [place].
  { exists into. split; [done|]. split; [done|]. intros k. by rewrite decide_False by apply not_elem_of_nil. }
  pose proof (Hr i (list_elem_of_here _ _)) as Hi.
  destruct (lookup_lt_is_Some_2 from (Z.to_nat i)) as [v Ev]; [lia|].
  destruct (lookup_lt_is_Some_2 into (Z.to_nat i)) as [w Ew]; [lia|].
  rewrite Ev, Ew. cbn [deref mbind outcome_bind].
  destruct (IH (<[Z.to_nat i := v]> into)) as (l & -> & Hll & Hk).
  { by rewrite length_insert. }
  { intros k Hk. rewrite length_insert. apply Hr. by right. }
  exists l. rewrite length_insert in Hll. split; [done|]. split; [done|]. intros k. rewrite Hk.
  destruct (decide (Z.of_nat k ∈ indices)) as [Hin|Hin]; [by rewrite decide_True by (by right)|].
  destruct (decide (k = Z.to_nat i)) as [->|Hne].
  - rewrite list_lookup_insert_eq by lia. rewrite Z2Nat.id by lia. by rewrite decide_True, Ev by apply list_elem_of_here.
  - rewrite list_lookup_insert_ne by done. rewrite decide_False; [done|]. intros [E|?]%elem_of_cons; [lia|done].
Qed.

(** The bytes of an array after a factor: its own values where it determines
    them, or everywhere when it is the first to have any. *)
Definition merged (it : IES) (r : positive) (old : option (list Z)) (v l : list Z) : Prop :=
  forall k, l !! k = match old with
    | None => v !! k
    | Some o => if decide (Z.of_nat k ∈ default ∅ (ies_elements it !! r)) then v !! k else o !! k
    end.

Lemma merge_array_ok it m r v : arrays_sized it -> ret_ok m ->
  Z.of_nat (length v) = arr_size (array_at r) /\ Forall (fun v => 0 <= v < 2 ^ 8) v ->
  exists l, merge_array it m r v = Done (<[r := l]> m) /\ merged it r (m !! r) v l /\ ret_ok (<[r := l]> m).
Proof.
  intros Hit Hm [Hl Hb]. unfold merge_array. destruct (m !! r) as [old|] eqn:E.
  - destruct (Hm r old E) as [Ho Hob]. rewrite (proj2 (Nat.eqb_eq _ _)) by lia.
    destruct (place_ok (elements (default ∅ (ies_elements it !! r))) v old) as (l & -> & Hll & Hk); [lia| |].
    { intros k Hk%elem_of_elements. destruct (ies_elements it !! r) as [d|] eqn:Ed; [|by apply elem_of_empty in Hk].
      destruct (sz_elements _ Hit r d Ed) as (_ & _ & Hd). specialize (Hd k Hk). lia. }
    exists l. split; [done|]. split.
    + intros k. rewrite Hk. apply decide_ext. by rewrite elem_of_elements.
    + intros r' bs [[<- <-]|[_ Hr]]%lookup_insert_Some; [|by apply Hm]. split; [lia|].
      apply Forall_lookup. intros k x Hx. rewrite Hk in Hx. rewrite Forall_lookup in Hb, Hob. case_decide; eauto.
  - exists v. split; [done|]. split; [done|].
    intros r' bs [[<- <-]|[_ Hr]]%lookup_insert_Some; [done|by apply Hm].
Qed.

Lemma merge_values_ok it arrays values m : arrays_sized it -> NoDup arrays -> values_ok arrays values -> ret_ok m ->
  exists m', merge_values it m arrays values = Done m' /\ ret_ok m' /\
    (forall r, r ∉ arrays -> m' !! r = m !! r) /\
    forall r v, (r, v) ∈ zip arrays values -> exists l, m' !! r = Some l /\ merged it r (m !! r) v l.
Proof.
  intros Hit Hn Hv. revert m. induction Hv as [|r v arrays values Hrv Hv IH]; intros m Hm.
  { exists m. split; [done|]. split; [done|]. split; [done|]. by intros r v ?%elem_of_nil. }
  apply NoDup_cons in Hn as [Hr Hn]. cbn [merge_values].
  destruct (merge_array_ok it m r v Hit Hm Hrv) as (l & -> & Hl & Hm1). cbn [mbind outcome_bind].
  destruct (IH Hn _ Hm1) as (m' & -> & Hm' & Hout & Hin). exists m'. split; [done|]. split; [done|]. split.
  - intros r' Hr'. rewrite not_elem_of_cons in Hr'. rewrite Hout by tauto. apply lookup_insert_ne. naive_solver.
  - intros r' v' [[= -> ->]|Hz]%elem_of_cons.
    + exists l. rewrite Hout by done. by rewrite lookup_insert_eq.
    + destruct (Hin r' v' Hz) as (l' & E' & Hl'). exists l'. split; [done|].
      rewrite lookup_insert_ne in Hl'; [done|]. intros <-. by apply elem_of_zip_l in Hz.
Qed.

(** The bytes are those of a solution of the factor. *)
Definition has_factor (m : RetMap) (f : IES) (ρ : env) : Prop := forall r k,
  IES.touches f r k -> isSymbolicArray (array_at r) = true -> 0 <= k < arr_size (array_at r) ->
  exists bs v, m !! r = Some bs /\ bs !! Z.to_nat k = Some v /\ initial_value ρ r k = v mod 2 ^ arr_range (array_at r).

Lemma refs_elem f r : r ∈ calculateArrayReferences f <-> is_Some (ies_elements f !! r) \/ r ∈ ies_wholeObjects f.
Proof. unfold calculateArrayReferences. by rewrite elem_of_elements, elem_of_union, elem_of_dom. Qed.

Lemma touches_refs f r k : IES.touches f r k -> r ∈ calculateArrayReferences f.
Proof. rewrite refs_elem. intros [?|(d & Hd & _)]; [by right|left; by exists d]. Qed.

(** What is known after some factors: their models, and where values come from. *)
Record merged_ok (m : RetMap) (ps : list (IES * env)) : Prop := MkMergedOk {
  mg_ret : ret_ok m;
  mg_sized : Forall (fun p => arrays_sized p.1) ps;
  mg_sat : Forall (fun p => sat p.2 (ies_exprs p.1)) ps;
  mg_has : Forall (fun p => has_factor m p.1 p.2) ps;
  mg_bound : Forall (fun p => forall r, r ∈ calculateArrayReferences p.1 -> is_Some (m !! r)) ps;
  mg_from r : is_Some (m !! r) -> exists p, p ∈ ps /\ r ∈ calculateArrayReferences p.1
}.

(** A whole array of one factor is no array of a disjoint one. *)
Lemma whole_disjoint f g r : IES.disjoint_sets f g -> arrays_sized g -> r ∈ ies_wholeObjects f ->
  r ∈ calculateArrayReferences g -> False.
Proof.
  intros Hd Hg Hf Hr. apply refs_elem in Hr as [[d Hr]|Hr].
  - destruct (sz_elements _ Hg r d Hr) as (Hne & _ & _). apply set_choose_L in Hne as [k Hk].
    apply (Hd r k); [by left|right; eauto].
  - apply (Hd r 0); by left.
Qed.

Lemma merge_factor_ok f ρ m ps values : arrays_sized f -> merged_ok m ps ->
  (forall p, p ∈ ps -> IES.disjoint_sets f p.1) -> sat ρ (ies_exprs f) ->
  values_ok (calculateArrayReferences f) values -> has_values ρ (calculateArrayReferences f) values ->
  exists m', merge_values f m (calculateArrayReferences f) values = Done m' /\ merged_ok m' ((f, ρ) :: ps).
Proof.
  intros Hf [Hret Hsz Hsat Hhas Hbound Hfrom] Hd Hρ Hv Hh.
  assert (NoDup (calculateArrayReferences f)) as Hn by (unfold calculateArrayReferences; apply NoDup_elements).
  destruct (merge_values_ok f _ values m Hf Hn Hv Hret) as (m' & Em & Hm' & Hout & Hin).
  assert (forall r, r ∈ calculateArrayReferences f -> exists v l, (r, v) ∈ zip (calculateArrayReferences f) values /\
    m' !! r = Some l /\ merged f r (m !! r) v l) as Hget.
  { intros r Hr. apply list_elem_of_lookup in Hr as [i Hi].
    destruct (Forall2_lookup_l _ _ _ _ _ Hv Hi) as (v & Hvi & _).
    assert ((r, v) ∈ zip (calculateArrayReferences f) values) as Hz.
    { apply (list_elem_of_lookup_2 _ i). by apply lookup_zip_Some. }
    destruct (Hin r v Hz) as (l & ? & ?). eauto. }
  assert (forall r, is_Some (m !! r) -> is_Some (m' !! r)) as Hmono.
  { intros r Hr. destruct (decide (r ∈ calculateArrayReferences f)) as [Hrf|Hrf]; [|by rewrite Hout].
    destruct (Hget r Hrf) as (v & l & _ & -> & _). by eexists. }
  exists m'. split; [done|]. split; [done|by constructor|by constructor|..].
  - constructor; cbn [fst snd].
    + intros r k Ht Hs Hk. pose proof (touches_refs _ _ _ Ht) as Hr. destruct (Hget r Hr) as (v & l & Hz & El & Hl).
      destruct (zip_Forall2 _ _ _ _ _ Hv Hz) as [Hlen _].
      destruct (lookup_lt_is_Some_2 v (Z.to_nat k)) as [x Hx]; [lia|]. exists l, x.
      split_and!; [done| |].
      * rewrite Hl. destruct (m !! r) as [o|] eqn:Eo; [|done]. rewrite decide_True; [done|]. rewrite Z2Nat.id by lia.
        destruct Ht as [Hw|(d & -> & Hkd)]; [exfalso|done]. destruct (Hfrom r) as (p & Hp & Hrp); [by eexists|].
        rewrite Forall_forall in Hsz. by eapply (whole_disjoint f p.1 r); auto.
      * pose proof (zip_Forall2 _ _ _ _ _ Hh Hz) as Hval. cbn in Hval. specialize (Hval Hs _ _ Hx).
        by rewrite Z2Nat.id in Hval by lia.
    + apply Forall_forall. intros p Hp. rewrite Forall_forall in Hhas. intros r k Ht Hs Hk.
      destruct (Hhas p Hp r k Ht Hs Hk) as (bs & v & Eb & Ev & Hi).
      destruct (decide (r ∈ calculateArrayReferences f)) as [Hrf|Hrf]; [|rewrite Hout by done; eauto].
      destruct (Hget r Hrf) as (w & l & _ & El & Hl). exists l, v. split_and!; [done| |done].
      rewrite Hl, Eb, decide_False; [done|]. rewrite Z2Nat.id by lia. intros Hkd.
      apply (Hd p Hp r k); [|done]. right. destruct (ies_elements f !! r) as [d|]; [by exists d|by apply elem_of_empty in Hkd].
  - constructor; cbn [fst].
    + intros r Hr. destruct (Hget r Hr) as (v & l & _ & -> & _). by eexists.
    + eapply Forall_impl; [exact Hbound|]. intros p Hp r Hr. apply Hmono. auto.
  - intros r Hr. destruct (decide (r ∈ calculateArrayReferences f)) as [Hrf|Hrf]; [exists (f, ρ); split; [by left|done]|].
    rewrite Hout in Hr by done. destruct (Hfrom r Hr) as (p & Hp & ?). exists p. split; [by right|done].
Qed.

End Merging.

(** ** Solving the factors *)

Section Solving.
Context {AP : APIntOps} {APL : APIntLaws} {AH : ArrayHeap} {OP : ExprOptions} {VO : VisitorOptions}.
Context (default_opt : ConstArrayOpt = false) (domain32 : forall r, arr_domain (array_at r) <= 32).
Context {S : Type} {iops : InitialSolver S} {sol : SoundInitialSolver S shaped}.

Definition factor_ok (f : IES) : Prop :=
  sized f /\ Forall boolean (ies_exprs f) /\
  (calculateArrayReferences f = [] -> exists ρ, sat ρ (ies_exprs f)).

Lemma false_shaped cs : Forall boolean cs -> shaped (MkQuery cs false_expr).
Proof. intros H. destruct false_expr_ok as (? & ? & _). by split. Qed.

Lemma refs_objects f : arrays_sized f -> objects_ok (calculateArrayReferences f).
Proof.
  intros Hf. split; [unfold calculateArrayReferences; apply NoDup_elements|]. apply Forall_forall.
  intros r [[d Hd]|Hr]%refs_elem; [by apply (sz_elements _ Hf r d)|by apply (sz_whole _ Hf)].
Qed.

Lemma no_refs_merged f ρ m ps : arrays_sized f -> calculateArrayReferences f = [] -> sat ρ (ies_exprs f) ->
  merged_ok m ps -> merged_ok m ((f, ρ) :: ps).
Proof.
  intros Hf Hr Hs [Hret Hsz Hsat Hhas Hbound Hfrom]. split; [done|by constructor..| | |].
  - constructor; [|done]. intros r k Ht%touches_refs. cbn in Ht. rewrite Hr in Ht. by apply elem_of_nil in Ht.
  - constructor; [|done]. intros r Ht. cbn in Ht. rewrite Hr in Ht. by apply elem_of_nil in Ht.
  - intros r Hi. destruct (Hfrom r Hi) as (p & Hp & ?). exists p. split; [by right|done].
Qed.

(** The loop ends with a solution of every factor, or with one that has none. *)
Lemma solve_factors_ok fs m ps s : Forall factor_ok fs -> ForallOrdPairs IES.disjoint_sets fs ->
  (forall f p, f ∈ fs -> p ∈ ps -> IES.disjoint_sets f p.1) -> merged_ok m ps -> iv_inv shaped s ->
  exists res s', solve_factors fs m s = Done (res, s') /\ iv_inv shaped s' /\
    match res with
    | Early r => iv_success r = true -> iv_hasSolution r = Some false /\ exists f, f ∈ fs /\ forall ρ, ~ sat ρ (ies_exprs f)
    | Solved m' => exists qs, merged_ok m' (qs ++ ps) /\ qs.*1 = rev fs
    end.
Proof.
  intros Hfs Hd. revert m ps s. induction Hd as [|f fs Hdf Hd IH]; intros m ps s Hps Hm Hs; cbn [solve_factors].
  { exists (Solved m), s. split; [done|]. split; [done|]. by exists []. }
  apply Forall_cons in Hfs as [(Hsz & Hb & Hnone) Hfs].
  rewrite (proj2 (Nat.leb_le 1 _)) by (destruct (ies_exprs f) eqn:E; [by destruct (sz_exprs _ Hsz)|cbn; lia]).
  assert (forall ρ m', merged_ok m' ((f, ρ) :: ps) -> forall s', iv_inv shaped s' ->
    exists res s2, solve_factors fs m' s' = Done (res, s2) /\ iv_inv shaped s2 /\
    match res with
    | Early r => iv_success r = true -> iv_hasSolution r = Some false /\ exists g, g ∈ f :: fs /\ forall ρ, ~ sat ρ (ies_exprs g)
    | Solved m'' => exists qs, merged_ok m'' (qs ++ ps) /\ qs.*1 = rev (f :: fs)
    end) as Hnext.
  { intros ρ m' Hm' s' Hs'. destruct (IH Hfs m' ((f, ρ) :: ps) s') as (res & s2 & E & Hs2 & Hres); [|done..|].
    - intros g p Hg [-> |Hp]%elem_of_cons; [|apply Hps; [by right|done]]. rewrite Forall_forall in Hdf.
      intros a k H1 H2. by apply (Hdf g Hg a k).
    - exists res, s2. split_and!; [done..|]. destruct res as [r|m''].
      + intros Hok. destruct (Hres Hok) as [? (g & ? & ?)]. split; [done|]. exists g. split; [by right|done].
      + destruct Hres as (qs & Hq & Eq). exists (qs ++ [(f, ρ)]). rewrite <- app_assoc. split; [done|].
        rewrite fmap_app, Eq. done. }
  case_bool_decide as Hr.
  { destruct (Hnone Hr) as [ρ Hρ]. apply (Hnext ρ); [|done]. by apply no_refs_merged; [apply Hsz|..]. }
  destruct (initial_ok (MkQuery (ies_exprs f) false_expr) (calculateArrayReferences f) s Hs (false_shaped _ Hb)
    (refs_objects f (sz_arrays _ Hsz))) as (r & s1 & -> & Hs1 & Hres). cbn [mbind outcome_bind].
  destruct (iv_success r) eqn:Eok; cbn [negb]; [|by eexists _, _].
  destruct (Hres Eok) as [[-> Hv]|[-> [Hv (ρ & [Hρ _] & Hh)]]]; cbn [default negb].
  { eexists _, _. split; [done|]. split; [done|]. intros _. split; [done|]. exists f. split; [by left|].
    intros ρ Hρ. apply (Hv ρ Hρ), false_expr_ok. }
  rewrite (proj2 (Nat.eqb_eq _ _)) by (symmetry; by eapply Forall2_length).
  destruct (merge_factor_ok f ρ m ps (iv_values r)) as (m' & -> & Hm'); try done; [apply Hsz|..].
  { intros p Hp. apply Hps; [by left|done]. }
  cbn [mbind outcome_bind]. by apply (Hnext ρ).
Qed.

(** ** One environment from the solutions *)

Fixpoint combine (ps : list (IES * env)) (ρa : env) : env :=
  match ps with
  | [] => ρa
  | (f, ρ) :: ps => fun r k => if decide (IES.touches f r k) then ρ r k else combine ps ρa r k
  end.

Lemma combine_agree ps ρa p : ForallOrdPairs IES.disjoint_sets (ps.*1) -> p ∈ ps -> IES.agree p.1 (combine ps ρa) p.2.
Proof.
  induction ps as [|[f ρ] ps IH]; intros Hd Hp; [by apply elem_of_nil in Hp|]. inversion_clear Hd as [|? ? Hf Hd'].
  apply elem_of_cons in Hp as [-> |Hp]; intros r k Ht; cbn.
  - by rewrite decide_True.
  - rewrite decide_False; [by apply (IH Hd' Hp)|]. intros Hf'. rewrite Forall_forall in Hf.
    apply (Hf p.1) with (a := r) (k := k); [|done..]. by apply list_elem_of_fmap_2.
Qed.

Lemma combine_cases ps ρa r k : (exists p, p ∈ ps /\ IES.touches p.1 r k /\ combine ps ρa r k = p.2 r k) \/
  combine ps ρa r k = ρa r k.
Proof.
  induction ps as [|[f ρ] ps IH]; cbn; [by right|]. destruct (decide (IES.touches f r k)) as [Ht|_].
  - left. exists (f, ρ). split; [by left|done].
  - destruct IH as [(p & ? & ?)|?]; [left; exists p; split; [by right|done]|by right].
Qed.

Lemma sized_eval f e ρ ρ' : sized f -> e ∈ ies_exprs f -> IES.agree f ρ ρ' -> eval ρ e = eval ρ' e.
Proof. intros Hf He Ha. apply (proj1 (IES.eval_agree_mut f ρ ρ' Ha)). intros x. by apply (sz_covers _ Hf). Qed.

(** An assignment with the bytes that were put together. *)
Definition extends (a : Assignment) (m : RetMap) : Prop := forall r bs, m !! r = Some bs -> bindings a !! r = Some bs.

Lemma combine_same_bytes m ps a r : extends a m -> merged_ok m ps ->
  same_bytes (combine ps (env_of a)) (env_of a) r.
Proof.
  intros Ha Hm k Hk. unfold initial_value. destruct (isConstantArray (array_at r)) eqn:Ec; [done|].
  destruct (combine_cases ps (env_of a) r k) as [(p & Hp & Ht & ->)| ->]; [|done].
  pose proof (mg_has _ _ Hm) as Hhas. rewrite Forall_forall in Hhas.
  destruct (Hhas p Hp r k Ht ltac:(by apply negb_false_iff in Ec) Hk) as (bs & v & Eb & Ev & Hi).
  unfold initial_value in Hi. rewrite Ec in Hi. rewrite Hi. unfold env_of, byte_of. rewrite (Ha r bs Eb). cbn. by rewrite Ev.
Qed.

Lemma combine_all_sat m ps ρ : merged_ok m ps -> Forall (fun p => sized p.1) ps ->
  ForallOrdPairs IES.disjoint_sets (ps.*1) -> sat (combine ps ρ) (Factors.all_exprs (ps.*1)).
Proof.
  intros Hm Hsz Hd c Hc. apply list_elem_of_bind in Hc as (f & Hcf & Hf). apply list_elem_of_fmap in Hf as (p & -> & Hp).
  pose proof (mg_sat _ _ Hm) as Hsat. rewrite Forall_forall in Hsat, Hsz.
  rewrite (sized_eval p.1 c _ p.2 (Hsz p Hp) Hcf (combine_agree ps _ p Hd Hp)). by apply (Hsat p Hp).
Qed.

(** ** The query *)

(** What can be split: the expression is no tautology that nothing can refute. *)
Record splittable (q : Query) : Prop := MkSplittable {
  sp_guarded : guarded q;
  sp_bool : getWidth (q_expr q) = Bool;
  sp_constant CE : q_expr q = ConstantExpr CE -> uval CE = 0;
  sp_refutable : exists ρ, eval ρ (q_expr q) = 0
}.

(** The expressions that are split and later checked. *)
Lemma factor_exprs_split q : splittable q -> exists neg es,
  createIsZero (q_expr q) = Done neg /\ Factors.factor_exprs q = Done es /\
  (forall e, e ∈ es -> e = neg \/ e ∈ constraints q) /\ (forall e, e ∈ constraints q -> e ∈ es) /\
  (neg ∈ es \/ isConst neg = true) /\
  boolean neg /\ forall ρ, eval ρ neg <> 0 <-> eval ρ (q_expr q) = 0.
Proof.
  intros [Hg Hw Hc _]. pose proof (wq_expr _ (g_query _ Hg)) as He.
  destruct (createIsZero_ok default_opt (q_expr q) He) as (neg & En & Wn & Nw & Ev).
  assert (forall ρ, eval ρ neg <> 0 <-> eval ρ (q_expr q) = 0) as Hz.
  { intros ρ. rewrite Ev. destruct (Z.eqb_spec (eval ρ (q_expr q)) 0); cbn; lia. }
  exists neg. unfold Factors.factor_exprs.
  assert (exists es, (neg ← createIsZero (q_expr q); Done (neg :: constraints q)) = Done es /\
    (forall e, e ∈ es -> e = neg \/ e ∈ constraints q) /\ (forall e, e ∈ constraints q -> e ∈ es) /\ neg ∈ es) as Hn.
  { rewrite En. eexists. split; [done|]. split_and!; [by intros e ?%elem_of_cons|intros e ?; by right|by left]. }
  destruct (q_expr q) as [CE| | | | | | | |] eqn:E.
  2-9: destruct Hn as (es & Ees & ? & ? & ?); exists es; split_and!; try done; by left.
  exists (constraints q). rewrite isFalse_spec, (Hc CE eq_refl) by done. split_and!; try done; [by right|].
  right. unfold createIsZero in En. destruct (ConstantExpr_create 0 _); try done. cbn in En.
  unfold EqExpr_create, BCREATE_R in En. destruct (_ =? _); [|done]. by injection En as <-.
Qed.

(** The factors of a query that can be split. *)
Record split_ok (q : Query) (neg : Expr) (fs : list IES) : Prop := MkSplitOk {
  so_factors : Forall factor_ok fs;
  so_disjoint : ForallOrdPairs IES.disjoint_sets fs;
  so_sat ρ : sat ρ (Factors.all_exprs fs) <-> counterexample q ρ;
  so_elem e : e ∈ constraints q \/ (e = neg /\ isConst neg = false) -> e ∈ Factors.all_exprs fs
}.

Lemma getAll_split_ok q : splittable q -> exists neg fs, createIsZero (q_expr q) = Done neg /\ boolean neg /\
  (forall ρ, eval ρ neg <> 0 <-> eval ρ (q_expr q) = 0) /\
  Factors.getAllIndependentConstraintsSets q = Done fs /\ split_ok q neg fs.
Proof.
  intros Hq. pose proof Hq as [Hg Hw Hc [ρ1 Hρ1]]. pose proof Hg as [[Hb He [ρ0 Hρ0]] _ _ Hin].
  specialize (Hin ρ0 Hρ0). apply Forall_cons in Hin as [Hie Hic].
  destruct (factor_exprs_split q Hq) as (neg & es & En & Ees & Hes & Hcs & Hneg & Bn & Hz).
  pose proof (createIsZero_in_bounds default_opt ρ0 _ _ Hie En) as Hin.
  assert (Forall (fun e => boolean e /\ in_bounds ρ0 e) es) as Hall.
  { apply Forall_forall. intros e [-> |Hce]%Hes; [done|]. rewrite Forall_forall in Hb, Hic. auto. }
  destruct (make_factors_sized domain32 ρ0 es) as (fs0 & Ef0 & Hsz0 & Eall0).
  { eapply Forall_impl; [exact Hall|]. by intros e [[? ?] ?]. }
  destruct (Factors.getAllIndependentConstraintsSets_ok default_opt domain32 q (conj (g_query _ Hg) Hw) Hc)
    as (es' & fs & Ees' & Efs & Hperm & Hd & _). rewrite Ees in Ees'. injection Ees' as <-.
  assert (Forall sized fs) as Hsz.
  { pose proof Efs as El. unfold Factors.getAllIndependentConstraintsSets in El. rewrite Ees in El. cbn [mbind outcome_bind] in El.
    rewrite Ef0 in El. cbn [mbind outcome_bind] in El. by eapply (factor_loop_keeps sized sized_add). }
  assert (forall e f, f ∈ fs -> e ∈ ies_exprs f -> e ∈ es) as Hfe.
  { intros e f Hf Hef. rewrite <- Hperm. apply list_elem_of_bind. by exists f. }
  exists neg, fs. split_and!; [done..|]. split; [|done| |].
  - apply Forall_forall. intros f Hf. rewrite Forall_forall in Hsz. rewrite Forall_forall in Hall. split_and!; [by apply Hsz| |].
    + apply Forall_forall. intros e Hef. by apply (Hall e), (Hfe e f).
    + intros Hr. exists ρ0. intros e Hef. assert (forall ρ, eval ρ0 e = eval ρ e) as Hsame.
      { intros ρ. apply (sized_eval f); [by apply Hsz|done|]. intros r k Ht%touches_refs. rewrite Hr in Ht. by apply elem_of_nil in Ht. }
      destruct (Hes e (Hfe e f Hf Hef)) as [-> |Hce]; [|by apply Hρ0]. rewrite (Hsame ρ1). by apply Hz.
  - intros ρ. unfold sat. setoid_rewrite Hperm. split.
    + intros H. split; [intros c Hcc; by apply H, Hcs|]. apply Hz. destruct Hneg as [Hneg|Hneg]; [by apply H|].
      destruct neg as [v| | | | | | | |]; try done. specialize (Hz ρ1). change (uval v <> 0). by apply Hz in Hρ1.
    + intros [H1 H2] e [-> |Hce]%Hes; [by apply Hz|by apply H1].
  - intros e [Hce|[-> Hnc]]; rewrite Hperm; [by apply Hcs|]. destruct Hneg as [?|Hneg]; [done|congruence].
Qed.

(** *** The values, and the check of the point *)

Lemma object_bytes_ok m objects : ret_ok m -> objects_ok objects -> values_ok objects (object_bytes m <$> objects).
Proof.
  intros Hm [_ Ho]. unfold values_ok. rewrite Forall2_fmap_r. apply Forall_Forall2_diag, Forall_forall. intros r Hr.
  unfold compose, object_bytes. destruct (m !! r) as [bs|] eqn:E; [by apply Hm|].
  rewrite Forall_forall in Ho. destruct (Ho r Hr) as (_ & _ & [? _] & _).
  rewrite length_replicate, Z2Nat.id by done. split; [done|]. by apply Forall_replicate.
Qed.

(** The assignment that is checked. *)
Lemma point_ok m objects : ret_ok m -> objects_ok objects -> exists a,
  Assignment_make objects (object_bytes m <$> objects) true = Done a /\
  let p := MkAssignment true (bindings a ∪ m) in
  assignment_ok p /\ extends p m /\ has_values (env_of p) objects (object_bytes m <$> objects) /\
  (forall r bs, bindings p !! r = Some bs -> Z.of_nat (length bs) = arr_size (array_at r)).
Proof.
  intros Hm Ho. pose proof (object_bytes_ok m objects Hm Ho) as Hv.
  destruct (Assignment_make_ok objects (object_bytes m <$> objects) true) as (a & Ea & _ & Hb); [by rewrite length_fmap|].
  assert (forall r bs, bindings a !! r = Some bs -> bs = object_bytes m r) as Hab.
  { intros r bs Hr. pose proof (made_binding _ _ _ _ _ _ Ea Hr) as Hz. apply list_elem_of_lookup in Hz as [i Hz].
    apply lookup_zip_Some in Hz as [H1 H2]. rewrite list_lookup_fmap, H1 in H2. by injection H2 as <-. }
  assert (forall r, r ∈ objects -> is_Some (bindings a !! r)) as Hbound.
  { intros r Hr. destruct (made_bound objects (object_bytes m <$> objects) true r ltac:(by rewrite length_fmap) Hr a Ea). by eexists. }
  assert (forall r bs, (bindings a ∪ m) !! r = Some bs ->
    Z.of_nat (length bs) = arr_size (array_at r) /\ Forall (fun v => 0 <= v < 2 ^ 8) bs) as Hlen.
  { intros r bs [Hr|[_ Hr]]%lookup_union_Some_raw; [|by apply Hm].
    by apply (zip_Forall2 _ _ _ _ _ Hv (made_binding _ _ _ _ _ _ Ea Hr)). }
  exists a. split; [done|]. split_and!.
  - intros r bs Hr. destruct (Hlen r bs Hr). split; [lia|done].
  - intros r bs Hr. cbn. apply lookup_union_Some_raw. destruct (bindings a !! r) as [b|] eqn:E; [left|by right].
    apply Hab in E as ->. unfold object_bytes. by rewrite Hr.
  - unfold has_values. rewrite Forall2_fmap_r. apply Forall_Forall2_diag, Forall_forall. intros r Hr Hs k v Hk.
    unfold initial_value. rewrite (symbolic_not_constant r Hs). unfold env_of, byte_of. cbn.
    destruct (Hbound r Hr) as [bs E]. pose proof E as ->%Hab. rewrite (lookup_union_Some_l _ _ _ _ E). cbn.
    by rewrite Nat2Z.id, Hk.
  - intros r bs Hr. by apply Hlen.
Qed.

Lemma constraints_true_ok a cs : assignment_ok a -> Forall boolean cs ->
  Forall (known (env_of a) (byte_known a)) cs -> sat (env_of a) cs -> constraints_true a cs = Done true.
Proof.
  intros Ha Hb. induction Hb as [|c cs [Hw Hbw] Hb IH]; intros Hk Hs; [done|]. apply Forall_cons in Hk as [Hkc Hk].
  cbn [constraints_true]. destruct (evaluate_known default_opt domain32 a c Ha Hw Hkc) as (v & -> & _ & Vw & Ev).
  cbn [mbind outcome_bind]. rewrite isFalse_spec by congruence. rewrite (proj2 (Z.eqb_neq _ _)).
  - apply IH; [done|]. intros x Hx. apply Hs. by right.
  - rewrite Ev. apply Hs. by left.
Qed.

Lemma elem_of_rev {A} (x : A) l : x ∈ rev l <-> x ∈ l.
Proof. rewrite !list_elem_of_In. symmetry. apply in_rev. Qed.

Lemma disjoint_rev fs : ForallOrdPairs IES.disjoint_sets fs -> ForallOrdPairs IES.disjoint_sets (rev fs).
Proof.
  assert (forall l f, ForallOrdPairs IES.disjoint_sets l -> (forall x, x ∈ l -> IES.disjoint_sets x f) ->
    ForallOrdPairs IES.disjoint_sets (l ++ [f])) as Happ.
  { intros l f Hl. induction Hl as [|x l Hx Hl IH]; intros Hf; cbn; [repeat constructor|]. constructor.
    - apply Forall_app_2; [done|]. apply Forall_singleton, Hf. by left.
    - apply IH. intros y Hy. apply Hf. by right. }
  induction 1 as [|f fs Hf _ IH]; cbn; [constructor|]. apply Happ; [done|]. intros x Hx. apply (proj1 (elem_of_rev x fs)) in Hx.
  rewrite Forall_forall in Hf. intros r k H1 H2. by apply (Hf x Hx r k).
Qed.

(** The arrays that the expressions read are bound. *)
Lemma split_reads_bound q neg fs m ps e r : split_ok q neg fs -> merged_ok m ps -> ps.*1 = rev fs ->
  e ∈ Factors.all_exprs fs -> reads_array r e -> is_Some (m !! r).
Proof.
  intros Hsp Hm Eps He (Hs & u & i & Hin). apply list_elem_of_bind in He as (f & Hef & Hf).
  pose proof (so_factors _ _ _ Hsp) as Hfs. rewrite Forall_forall in Hfs. destruct (Hfs f Hf) as (Hsz & _ & _).
  assert (r ∈ calculateArrayReferences f) as Hr.
  { pose proof (sz_covers _ Hsz e _ Hef Hin Hs) as Hc.
    destruct i as [c| | | | | | | |]; [by eapply touches_refs|by eapply touches_refs; apply (Hc 0)..]. }
  assert (f ∈ ps.*1) as Hfp by (rewrite Eps; by apply elem_of_rev).
  apply list_elem_of_fmap in Hfp as (p & -> & Hp).
  pose proof (mg_bound _ _ Hm) as Hb. rewrite Forall_forall in Hb. by apply (Hb p Hp).
Qed.

(** The point passes the check of the code. *)
Lemma created_point_true q neg fs m ps objects : splittable q -> createIsZero (q_expr q) = Done neg -> boolean neg ->
  (forall ρ, eval ρ neg <> 0 <-> eval ρ (q_expr q) = 0) ->
  split_ok q neg fs -> merged_ok m ps -> ps.*1 = rev fs -> objects_ok objects ->
  assertCreatedPointEvaluatesToTrue q objects (object_bytes m <$> objects) m = Done true /\
  solution q objects (object_bytes m <$> objects).
Proof.
  intros [Hg Hw _ _] En Bn Hz Hsp Hm Eps Ho. pose proof Hg as [Hq Hc Hd Hb].
  destruct (point_ok m objects (mg_ret _ _ Hm) Ho) as (a & Ea & Hok & Hext & Hhas & Hlen).
  unfold assertCreatedPointEvaluatesToTrue. rewrite Ea. cbn [mbind outcome_bind].
  set (p := MkAssignment true (bindings a ∪ m)) in *.
  assert (counterexample q (env_of p)) as Hcex.
  { apply (ask_bytes _ (guarded_askable q Hg Hw) (combine ps (env_of p))); [|by intros r; apply (combine_same_bytes m)].
    apply (so_sat _ _ _ Hsp). pose proof (so_factors _ _ _ Hsp) as Hfs.
    assert (Factors.all_exprs (ps.*1) ≡ₚ Factors.all_exprs fs) as Hperm.
    { rewrite Eps. unfold Factors.all_exprs. by rewrite <- (Permutation_rev fs). }
    intros c Hcc. rewrite <- Hperm in Hcc. revert c Hcc. eapply (combine_all_sat m); [done| |].
    - apply Forall_forall. intros x Hx. assert (x.1 ∈ fs) as Hxf.
      { apply elem_of_rev. rewrite <- Eps. by apply list_elem_of_fmap_2. }
      rewrite Forall_forall in Hfs. by apply Hfs.
    - rewrite Eps. apply disjoint_rev, Hsp. }
  pose proof Hcex as [Hsat H0]. specialize (Hd _ Hsat). specialize (Hb _ Hsat).
  apply Forall_cons in Hc as [Hce Hc], Hd as [Hde Hd], Hb as [Hbe Hb].
  assert (forall e, wf e -> clean e = true -> div_safe (env_of p) e -> in_bounds (env_of p) e ->
    (forall r, reads_array r e -> is_Some (m !! r)) -> known (env_of p) (byte_known p) e) as Hk.
  { intros e We Ce De Be Re. split_and!; [done..|]. intros r u i Hin. right. specialize (Be r u i Hin).
    destruct (isSymbolicArray (array_at r)) eqn:Es; [left|right; split; [by apply constant_not_symbolic|done]].
    destruct (Re r) as [bs Hbs]; [split; [done|by exists u, i]|]. apply Hext in Hbs. unfold byte_of. rewrite Hbs. cbn.
    apply lookup_lt_is_Some_2. pose proof (Hlen r bs Hbs).
    apply (proj1 wf_subs_mut e We) in Hin as (_ & _ & Hi & _). pose proof (eval_range i (env_of p) Hi). lia. }
  pose proof (wq_constraints _ Hq) as Hbc. rewrite constraints_true_ok; [|done|done| |done].
  2: { apply Forall_forall. intros e He. rewrite Forall_forall in Hc, Hd, Hb, Hbc. apply Hk; auto; [by apply Hbc|].
       intros r. apply (split_reads_bound q neg fs m ps); [done..|]. apply (so_elem _ _ _ Hsp). by left. }
  cbn [mbind outcome_bind negb]. rewrite En. cbn [mbind outcome_bind].
  destruct (evaluate_known default_opt domain32 p neg Hok (proj1 Bn)) as (v & -> & _ & Vw & Ev).
  { apply Hk; [apply Bn|by eapply createIsZero_clean|by eapply createIsZero_div_safe|by eapply createIsZero_in_bounds|].
    intros r Hr. destruct (isConst neg) eqn:Ecn.
    - destruct neg; try done. destruct Hr as (_ & u & i & Hin). by apply list_elem_of_singleton in Hin.
    - eapply (split_reads_bound q neg fs m ps); [done..| |exact Hr]. apply (so_elem _ _ _ Hsp). by right. }
  cbn [mbind outcome_bind]. rewrite isTrue_spec by (rewrite Vw; apply Bn). split.
  - f_equal. apply negb_true_iff, Z.eqb_neq. rewrite Ev. by apply Hz.
  - split; [by apply object_bytes_ok; [apply Hm|]|]. by exists (env_of p).
Qed.

(** Counterexamples of the factors make one of the query, and a factor without
    one proves it. *)
Lemma independent_computeInitialValues_ok q objects s : iv_inv shaped s -> splittable q -> objects_ok objects ->
  exists r s', computeInitialValues q objects s = Done (r, s') /\ iv_inv shaped s' /\ initial_result_ok q objects r.
Proof.
  intros Hs Hq Ho. destruct (getAll_split_ok q Hq) as (neg & fs & En & Bn & Hz & Ef & Hsp).
  unfold computeInitialValues. rewrite Ef. cbn [mbind outcome_bind].
  destruct (solve_factors_ok fs ∅ [] s) as (res & s' & -> & Hs' & Hres); [apply Hsp|apply Hsp| | |done|].
  { by intros f p _ ?%elem_of_nil. }
  { split; [by intros r bs H; rewrite lookup_empty in H|constructor..|]. intros r [? H]. by rewrite lookup_empty in H. }
  cbn [mbind outcome_bind]. destruct res as [r|m].
  - eexists _, _. split_and!; [done..|]. intros Hok. left. destruct (Hres Hok) as [-> (f & Hf & Hn)]. split; [done|].
    intros ρ Hρ H0. apply (Hn ρ). assert (sat ρ (Factors.all_exprs fs)) as Hall by (by apply (so_sat _ _ _ Hsp)).
    intros c Hc. apply Hall, list_elem_of_bind. by exists f.
  - destruct Hres as (ps & Hm & Eps). rewrite app_nil_r in Hm.
    destruct (created_point_true q neg fs m ps objects) as [-> Hsol]; try done. cbn [mbind outcome_bind].
    eexists _, _. split_and!; [done..|]. intros _. by right.
Qed.

End Solving.

End IndependentInitial.
