(* ===== verification/ValidatingSolver.v ===== *)
(** [ValidatingSolver] (ValidatingSolver.cpp): every answer of a solver is
    checked against an oracle, and a mismatch fails an assertion. *)
From stdpp Require Import base list numbers strings gmap.
From Stdlib Require Import ZArith Lia.
From S2P Require Import Prelude APInt Bits Expr Semantics ConstantOps ExprCreate CreateSound OpsSound Visitor FindReads Solver Evaluator InitialValues.
Local Open Scope Z_scope.

Module ValidatingSolver.

(** The solver and the oracle it does not share. *)
Record t (S O : Type) : Type := Mk { solver : S; oracle : O }.
Arguments Mk {S O}.
Arguments solver {S O}.
Arguments oracle {S O}.

Section Validating.
Context {AP : APIntOps} {AH : ArrayHeap} {OP : ExprOptions}.
Context {S : Type} {ops : SolverImpl S} {O : Type} {oops : SolverImpl O}.

(** Ask the solver, then the oracle about what it said, and compare. *)
Definition cross_check {A B} (f : S -> outcome (option A * S)) (g : A -> O -> outcome (option B * O))
    (agree : A -> B -> bool) (s : t S O) : outcome (option A * t S O) :=
  r ← f (solver s);
  match r with
  | (None, s1) => Done (None, Mk s1 (oracle s))
  | (Some result, s1) =>
      a ← g result (oracle s);
      match a with
      | (None, o1) => Done (None, Mk s1 o1)
      | (Some answer, o1) => Assert agree result answer ;; Done (Some result, Mk s1 o1)
      end
  end.

Definition computeTruth (q : Query) : t S O -> outcome (option bool * t S O) :=
  cross_check (Solver.computeTruth q) (fun _ => Solver.computeTruth q) Bool.eqb.

Definition computeValidity (q : Query) : t S O -> outcome (option Validity * t S O) :=
  cross_check (Solver.computeValidity q) (fun _ => Solver.computeValidity q)
    (fun result answer => bool_decide (result = answer)).

(** A value is only checked to be a legal one: the query must not imply that
    the expression is different. *)
Definition computeValue (q : Query) : t S O -> outcome (option APInt * t S O) :=
  cross_check (Solver.computeValue q)
    (fun result o => ne ← NeExpr_create (q_expr q) (ConstantExpr result);
                     Solver.computeTruth (withExpr ne q) o)
    (fun _ answer => negb answer).

#[global] Instance ops_of : SolverImpl (t S O) := {|
  Solver.computeValidity := computeValidity;
  Solver.computeTruth := computeTruth;
  Solver.computeValue := computeValue
|}.

Context {APL : APIntLaws} (default_opt : ConstArrayOpt = false).
Context {sol : SoundSolver S} {osol : SoundSolver O}.

Definition inv (s : t S O) : Prop := s_inv (solver s) /\ s_inv (oracle s).

(** Two sound answers about the same question pass the check. *)
Lemma cross_check_ok {A B} (f : S -> outcome (option A * S)) (g : A -> O -> outcome (option B * O))
    (agree : A -> B -> bool) (P : A -> Prop) (Q : A -> B -> Prop) s :
  inv s ->
  (exists r s', f (solver s) = Done (r, s') /\ s_inv s' /\ forall a, r = Some a -> P a) ->
  (forall a, P a -> exists r o', g a (oracle s) = Done (r, o') /\ s_inv o' /\ forall b, r = Some b -> Q a b) ->
  (forall a b, P a -> Q a b -> agree a b = true) ->
  exists r s', cross_check f g agree s = Done (r, s') /\ inv s' /\ forall a, r = Some a -> P a.
Proof.
  intros [Hs Ho] (r & s1 & E & Hs1 & Hr) Hg Hagree. unfold cross_check. rewrite E. cbn [mbind outcome_bind].
  destruct r as [a|]; [|by eexists _, _; split; [done|]; split].
  specialize (Hr a eq_refl). destruct (Hg a Hr) as (rb & o1 & -> & Ho1 & Hb). cbn [mbind outcome_bind].
  destruct rb as [b|]; [|by eexists _, _; split; [done|]; split].
  rewrite (Hagree a b); [|done|by apply Hb]. eexists _, _. split; [done|]. split; [by split|].
  intros ? [= <-]. done.
Qed.

Lemma validity_unique v v' q : wf_query q -> validity_is v q -> validity_is v' q -> v = v'.
Proof.
  intros Hq H1 H2. destruct v, v'; cbn in *; try done; exfalso;
    solve [by eapply valid_excl | by destruct H1 | by destruct H2].
Qed.

(** Validating a sound solver with a sound oracle never fails an assertion,
    and the answers stay sound. *)
#[export] Instance sound_of : SoundSolver (t S O).
Proof.
  refine {| s_inv := inv |}.
  - intros q s Hs Hq. eapply (cross_check_ok _ _ _ _ (fun _ v => validity_is v q)); [done|by apply validity_ok, Hq; apply Hs| |].
    + intros a _. by apply validity_ok; [apply Hs|].
    + intros a b Ha Hb. apply bool_decide_true. eapply validity_unique; [apply Hq|done|done].
  - intros q s Hs Hq. eapply (cross_check_ok _ _ _ _ (fun _ b => b = true <-> valid q)); [done|by apply truth_ok, Hq; apply Hs| |].
    + intros a _. by apply truth_ok; [apply Hs|].
    + intros a b Ha Hb. destruct a, b; naive_solver.
  - intros q s Hs Hq.
    eapply (cross_check_ok _ _ _ _ (fun _ b => b <> true)); [done|by apply value_ok, Hq; apply Hs| |].
    + intros a (Ha & Hw & ρ & Hρ & Ev).
      destruct (NeExpr_create_ok default_opt (q_expr q) (ConstantExpr a)) as (ne & -> & Wn & Wnw & Vn);
        [apply Hq|done|by cbn; rewrite Hw|]. cbn [mbind outcome_bind].
      assert (bool_query (withExpr ne q)) as Hq' by (split; [split; [apply Hq|done|apply Hq]|done]).
      destruct (truth_ok (withExpr ne q) (oracle s) (proj2 Hs) Hq') as (r & o1 & -> & Ho1 & Hr).
      exists r, o1. split; [done|]. split; [done|]. intros b Hb ->.
      pose proof (proj1 (Hr true Hb) eq_refl ρ Hρ) as Hne. cbn in Hne.
      rewrite Vn in Hne. cbn in Hne. rewrite Ev, Z.eqb_refl in Hne. done.
    + intros a [] _ Hn; done.
Defined.

(** It answers whenever both solvers do. *)
Lemma validating_total_of : TotalSolver S -> TotalSolver O -> TotalSolver (t S O).
Proof.
  intros Hs Ho. split; intros q s r s' H; cbn in H; intros ->;
    unfold computeValidity, computeTruth, computeValue, cross_check in H; run_inv; total_solver.
Qed.

End Validating.

(** ** Counterexamples *)

Section ValidatingInitial.
Context {AP : APIntOps} {AH : ArrayHeap} {OP : ExprOptions}.
Context {S : Type} {iops : InitialSolver S} {O : Type} {oops : SolverImpl O}.

(** The values as constraints on the bytes of the objects. *)
Fixpoint value_constraints (objects : list positive) (values : list (list Z)) : outcome (list Expr) :=
  match values with
  | [] => Done []
  | bs :: values =>
      match objects with
      | [] => Undefined
      | array :: objects =>
          cs ← mapM (byte_constraint array bs) (seq 0 (Z.to_nat (arr_size (array_at array))));
          rest ← value_constraints objects values;
          Done (cs ++ rest)
      end
  end.

(** The conjunction of the constraints and the negated expression. *)
Definition query_conjunction (q : Query) : outcome Expr :=
  neg ← createIsZero (q_expr q);
  foldl (fun acc c => e ← acc; AndExpr_create e c) (Done neg) (constraints q).

Definition computeInitialValues (q : Query) (objects : list positive) (s : t S O) : outcome (InitialResult * t S O) :=
  '(r, s1) ← InitialValues.computeInitialValues q objects (solver s);
  if negb (iv_success r) then Done (r, Mk s1 (oracle s))
  else
    hasSolution ← deref (iv_hasSolution r);
    '(answer, o1) ←
      (if (hasSolution : bool) then
         bindings ← value_constraints objects (iv_values r);
         constraints ← query_conjunction q;
         Solver.computeTruth (MkQuery bindings constraints) (oracle s)
       else Solver.computeTruth q (oracle s));
    match answer with
    | None => Done (MkInitial false (Some hasSolution) (iv_values r), Mk s1 o1)
    | Some answer => Assert answer ;; Done (r, Mk s1 o1)
    end.

Context {APL : APIntLaws} (default_opt : ConstArrayOpt = false).
Context (domain32 : forall r, arr_domain (array_at r) <= 32).

(** Symbolic arrays whose every element has an index. *)
Definition indexable (objects : list positive) : Prop :=
  objects_ok objects /\
  Forall (fun r => isSymbolicArray (array_at r) = true /\ arr_size (array_at r) <= 2 ^ arr_domain (array_at r)) objects.

Lemma value_constraints_ok objects values : indexable objects -> values_ok objects values ->
  exists cs, value_constraints objects values = Done cs /\ Forall boolean cs /\
    forall ρ, sat ρ cs <-> has_values ρ objects values.
Proof.
  intros [[_ Ho] Hi] Hv. revert Ho Hi. induction Hv as [|r bs objects values [Hl Hb] Hv IH]; intros Ho Hi.
  { exists []. split_and!; [done|constructor|]. intros ρ. split; [constructor|]. by intros _ c ?%elem_of_nil. }
  apply Forall_cons in Ho as [Ha Ho]. apply Forall_cons in Hi as [[Hsym Hri] Hi]. apply symbolic_not_constant in Hsym as Hs.
  destruct (array_constraints_ok default_opt domain32 r bs Hs Hb Ha Hri Hl) as (cs1 & E1 & B1 & S1).
  destruct (IH Ho Hi) as (cs2 & E2 & B2 & S2). exists (cs1 ++ cs2). cbn [value_constraints].
  rewrite E1. cbn [mbind outcome_bind]. rewrite E2. split; [done|]. split; [by apply Forall_app|].
  intros ρ. unfold has_values. rewrite Forall2_cons. fold (has_values ρ objects values). rewrite <- S2.
  assert (sat ρ (cs1 ++ cs2) <-> sat ρ cs1 /\ sat ρ cs2) as ->.
  { unfold sat. setoid_rewrite elem_of_app. naive_solver. }
  rewrite S1. apply and_iff_compat_r. unfold byte_is, initial_value. rewrite Hs. tauto.
Qed.

(** Some environment has given values. *)
Lemma values_exist objects values : objects_ok objects -> values_ok objects values ->
  exists ρ, has_values ρ objects values.
Proof.
  intros [Hn Ho] Hv. pose proof (Forall2_length _ _ _ Hv) as Hl.
  destruct (Assignment_make_ok objects values false) as (a & _ & _ & Hb); [lia|]. exists (env_of a).
  apply Forall2_same_length_lookup. split; [done|]. intros i r bs Hr Hbs Hs k v Hk.
  assert (bindings a !! r = Some bs) as Hrb.
  { rewrite Hb. apply elem_of_list_to_map_1; [by rewrite fst_zip by lia|].
    apply (list_elem_of_lookup_2 _ i). apply lookup_zip_Some. done. }
  unfold initial_value. rewrite (symbolic_not_constant r Hs). unfold env_of, byte_of. rewrite Hrb. cbn.
  by rewrite Nat2Z.id, Hk.
Qed.

Lemma query_conjunction_ok q : bool_query q -> exists e, query_conjunction q = Done e /\ boolean e /\
  forall ρ, eval ρ e <> 0 <-> counterexample q ρ.
Proof.
  intros [[Hb He _] Hw]. unfold query_conjunction, counterexample.
  destruct (createIsZero_ok default_opt (q_expr q) He) as (n & -> & Wn & Nw & Ev). cbn [mbind outcome_bind].
  assert (forall ρ, eval ρ n <> 0 <-> eval ρ (q_expr q) = 0) as Hz.
  { intros ρ. rewrite Ev. destruct (Z.eqb_spec (eval ρ (q_expr q)) 0); cbn; lia. }
  clear Ev. setoid_rewrite <- Hz. clear Hz. revert n Wn Nw. induction Hb as [|c cs [Wc Cw] Hb IH]; intros n Wn Nw; cbn [foldl mbind outcome_bind].
  { exists n. split; [done|]. split; [done|]. intros ρ. split; [|tauto]. intros H. split; [|done]. by intros c ?%elem_of_nil. }
  destruct (AndExpr_create_ok n c Wn Wc ltac:(congruence)) as (m & -> & Wm & Mw & Em). cbn [mbind outcome_bind].
  cbn in Mw. rewrite Nw in Mw.
  destruct (IH m Wm Mw) as (e & -> & Be & Ee). exists e. split; [done|]. split; [done|]. intros ρ. rewrite Ee, Em.
  assert (eval_binary And (getWidth n) (eval ρ n) (eval ρ c) <> 0 <-> eval ρ n <> 0 /\ eval ρ c <> 0) as ->.
  { pose proof (bool_value n ρ Wn Nw). pose proof (bool_value c ρ Wc Cw). cbn.
    destruct_or?; repeat match goal with H : eval ρ _ = _ |- _ => rewrite H; clear H end; cbn; naive_solver. }
  unfold sat. setoid_rewrite elem_of_cons. naive_solver.
Qed.

(** Whatever the solver under test says, what passes the oracle is right: values
    describe counterexamples only, and no solution means the query is valid. *)
Lemma validating_initial_certified {osol : SoundSolver O} q objects s r s' :
  s_inv (oracle s) -> bool_query q -> indexable objects ->
  (iv_hasSolution r = Some true -> values_ok objects (iv_values r)) ->
  computeInitialValues q objects s = Done (r, s') -> iv_success r = true ->
  s_inv (oracle s') /\
  ((iv_hasSolution r = Some false /\ valid q) \/
   (iv_hasSolution r = Some true /\ forall ρ, has_values ρ objects (iv_values r) -> counterexample q ρ)).
Proof.
  intros Ho Hq Hi Hv H Hok. unfold computeInitialValues in H.
  destruct (InitialValues.computeInitialValues q objects (solver s)) as [[r1 s1]| | |]; try done.
  cbn [mbind outcome_bind] in H. destruct (iv_success r1) eqn:E1; cbn [negb] in H; [|by injection H as <- <-; congruence].
  destruct (iv_hasSolution r1) as [[|]|] eqn:E2; cbn [deref mbind outcome_bind] in H; try done.
  - destruct (value_constraints objects (iv_values r1)) as [cs| | |] eqn:Ec; try done. cbn [mbind outcome_bind] in H.
    destruct (query_conjunction_ok q Hq) as (e & Ee & [We Ew] & Hce). rewrite Ee in H. cbn [mbind outcome_bind] in H.
    assert (r1 = r) as ->.
    { destruct (Solver.computeTruth _ _) as [[[[|]|] o1]| | |]; try done; cbn in H; injection H as <- <-; [done|discriminate Hok]. }
    specialize (Hv E2). destruct (value_constraints_ok objects (iv_values r) Hi Hv) as (cs' & Ec' & Bc & Sc).
    rewrite Ec in Ec'. injection Ec' as <-.
    destruct (values_exist objects (iv_values r) (proj1 Hi) Hv) as [ρ0 Hρ0].
    destruct (truth_ok (MkQuery cs e) (oracle s) Ho) as (ans & o1 & Eo & Ho1 & Hans).
    { split; [|done]. split; [done|done|]. exists ρ0. by apply Sc. }
    rewrite Eo in H. cbn [mbind outcome_bind] in H. destruct ans as [[|]|]; try done.
    2: { injection H as Hr _. rewrite <- Hr in Hok. done. }
    injection H as <-. split; [done|]. right. split; [done|]. intros ρ Hρ. apply Hce.
    by apply (proj1 (Hans true eq_refl) eq_refl ρ), Sc.
  - destruct (truth_ok q (oracle s) Ho Hq) as (ans & o1 & Eo & Ho1 & Hans). rewrite Eo in H. cbn [mbind outcome_bind] in H.
    destruct ans as [[|]|]; try done; injection H as <- <-; [|done]. split; [done|]. left. split; [done|]. by apply (Hans true).
Qed.

End ValidatingInitial.
End ValidatingSolver.
