(* ===== verification/ConstantDivision.v ===== *)
(** Multiplication and division by constants (lib/Solver/ConstantDivision.cpp): the
    constants with which the STP builder replaces a product by shifts and sums, and a
    32-bit quotient by a product and shifts.

    A shift of a 32-bit word by 32 bits is undefined; what the machine does then is an
    argument. *)
From stdpp Require Import base numbers list.
From Stdlib Require Import ZArith Lia.
From S2P Require Import Prelude APInt Bits.
Local Open Scope Z_scope.

(** What [x << n] gives on 32-bit words when [n] is not below 32. *)
Class WideShifts : Type := { shl_wide : Z -> Z -> outcome Z }.

(** ** Operations *)

Section Operations.
Context {WS : WideShifts}.

(** The conversion of a word of [w] bits to a signed integer. *)
Definition signed (w v : Z) : Z := to_signed w (v mod 2 ^ w).

Definition ones (x : Z) : Z :=
  let x := u32 (x - Z.land (Z.shiftr x 1) 0x55555555) in
  let x := u32 (Z.land (Z.shiftr x 2) 0x33333333 + Z.land x 0x33333333) in
  let x := Z.land (u32 (Z.shiftr x 4 + x)) 0x0f0f0f0f in
  let x := u32 (x + Z.shiftr x 8) in
  let x := u32 (x + Z.shiftr x 16) in
  Z.land x 0x3f.

(** The leading zeros of a word. *)
Definition ldz (x : Z) : Z :=
  let x := Z.lor x (Z.shiftr x 1) in
  let x := Z.lor x (Z.shiftr x 2) in
  let x := Z.lor x (Z.shiftr x 4) in
  let x := Z.lor x (Z.shiftr x 8) in
  let x := Z.lor x (Z.shiftr x 16) in
  u32 (32 - ones x).

Definition LOG2_CEIL (x : Z) : Z := u32 (32 - ldz (u32 (x - 1))).

Definition exp_base_2 (n : Z) : outcome Z :=
  let x := Z.shiftr (u32 (Z.land (Z.lnot n) (n - 32))) 31 in
  if (0 <=? n) && (n <? 32) then Done (u32 (Z.shiftl x n)) else shl_wide x n.

(** One round of the loop: the rightmost region of ones is moved to [add] and [sub]. *)
Definition mult_step (x add sub : Z) : outcome (Z * Z * Z) :=
  low ← bits64_indexOfRightmostBit x;
  let lowbit := u64 (Z.shiftl 1 low) in
  let p := u64 (x + lowbit) in
  let q := bits64_isolateRightmostBit p in
  high ← (if q =? 0 then Done 64 else bits64_indexOfSingleBit q);
  let '(add, sub) :=
    if high =? low + 1 then (Z.lor add lowbit, sub)
    else
      let '(add, sub) :=
        if negb (low =? 0) && negb (Z.land add (Z.shiftr lowbit 1) =? 0)
        then (Z.lxor add (Z.shiftr lowbit 1), Z.lxor sub (Z.shiftr lowbit 1))
        else (add, Z.lor sub lowbit) in
      (if high =? 64 then add else Z.lor add (u64 (Z.shiftl 1 high)), sub) in
  Done (Z.lxor p q, add, sub).

Fixpoint mult_loop (n : nat) (x add sub : Z) : outcome (Z * Z) :=
  if x =? 0 then Done (add, sub)
  else
    match n with
    | O => OutOfFuel
    | S n => '(x, add, sub) ← mult_step x add sub; mult_loop n x add sub
    end.

(** Each round ends one region of ones, of which a word has 32 at most. *)
Definition ComputeMultConstants64 (multiplicand : Z) : outcome (Z * Z) :=
  '(add, sub) ← mult_loop 65 multiplicand 0 0;
  Assert multiplicand =? u64 (add - sub) ;; Done (add, sub).

(** The multiplier and the two shifts. *)
Definition ComputeUDivConstants32 (d : Z) : outcome (Z * Z * Z) :=
  let l := LOG2_CEIL d in
  e ← exp_base_2 l;
  let mid := u32 (e - d) in
  if d =? 0 then Undefined
  else Done (u32 (2 ^ 32 * mid / d + 1), Z.min l 1, Z.max (l - 1) 0).

(** The multiplier, the sign of the divisor and the shift. *)
Definition ComputeSDivConstants32 (d : Z) : outcome (Z * Z * Z) :=
  let abs_d := if 0 <? d then d else - d in
  let l := Z.max 1 (LOG2_CEIL (u32 abs_d)) in
  let l := if abs_d =? 2 ^ 31 then 31 else l in
  mid ← exp_base_2 (l - 1);
  if abs_d =? 0 then Undefined
  else
    let m := u64 (2 ^ 32 * mid / abs_d + 1) in
    Done (signed 32 (u64 (m - 2 ^ 32)), Z.shiftr d 31, l - 1).

End Operations.

(** ** Powers of two *)

(** The masks and sums count the bits of a word that is filled to the right. *)
Lemma ones_ones n : 0 <= n <= 32 -> ones (Z.ones n) = n.
Proof.
  intros Hn. apply Z.eqb_eq. destruct (Z.eq_dec n 32) as [-> |]; [by vm_compute|].
  refine (small_exponent (fun n => ones (Z.ones n) =? n) 32 _ n _); [by vm_compute|lia].
Qed.

(** A word that is or-ed with itself, shifted down by [k]. *)
Lemma smear_bits x k i : 0 <= k -> 0 <= i -> Z.testbit (Z.lor x (Z.shiftr x k)) i = Z.testbit x i || Z.testbit x (i + k).
Proof. intros. by rewrite Z.lor_spec, Z.shiftr_spec by lia. Qed.

(** [n] bits below each bit of [x] are set as well. *)
Definition smeared (x y n : Z) : Prop :=
  forall i, 0 <= i -> Z.testbit y i = true <-> exists j, i <= j < i + n /\ Z.testbit x j = true.

Lemma smeared_step x y n : 0 < n -> smeared x y n -> smeared x (Z.lor y (Z.shiftr y n)) (2 * n).
Proof.
  intros Hn H i Hi. rewrite smear_bits, orb_true_iff, (H i), (H (i + n)) by lia. split.
  - intros [(j & ? & ?)|(j & ? & ?)]; exists j; (split; [lia|done]).
  - intros (j & ? & ?). destruct (Z.ltb_spec j (i + n)); [left|right]; exists j; (split; [lia|done]).
Qed.

Lemma smear_all x : 0 <= x < 2 ^ 32 -> 0 < x ->
  (let x := Z.lor x (Z.shiftr x 1) in let x := Z.lor x (Z.shiftr x 2) in let x := Z.lor x (Z.shiftr x 4) in
   let x := Z.lor x (Z.shiftr x 8) in Z.lor x (Z.shiftr x 16)) = Z.ones (Z.log2 x + 1).
Proof.
  intros Hx Hp. cbv zeta.
  assert (smeared x x 1) as H1.
  { intros i Hi. split; [intros; exists i; (split; [lia|done])|]. intros (j & ? & ?). by replace i with j by lia. }
  apply smeared_step in H1; [|lia]. apply (smeared_step x _ 2) in H1; [|lia]. apply (smeared_step x _ 4) in H1; [|lia].
  apply (smeared_step x _ 8) in H1; [|lia]. apply (smeared_step x _ 16) in H1; [|lia].
  pose proof (Z.log2_nonneg x). assert (Z.log2 x < 32) by (apply Z.log2_lt_pow2; lia).
  apply Z.bits_inj'. intros i Hi. rewrite Z.testbit_ones_nonneg by lia. apply eq_bool_prop_intro. rewrite !Is_true_true.
  rewrite (H1 i Hi), Z.ltb_lt. split.
  - intros (j & ? & Hj). destruct (Z.ltb_spec i (Z.log2 x + 1)); [done|]. rewrite Z.bits_above_log2 in Hj by lia. done.
  - intros Hlt. exists (Z.log2 x). split; [lia|]. by apply Z.bit_log2.
Qed.

Lemma ldz_spec x : 0 <= x < 2 ^ 32 -> ldz x = if x =? 0 then 32 else 31 - Z.log2 x.
Proof.
  intros Hx. destruct (Z.eqb_spec x 0) as [-> |Hne]; [by vm_compute|]. unfold ldz. rewrite smear_all by lia.
  pose proof (Z.log2_nonneg x). assert (Z.log2 x < 32) by (apply Z.log2_lt_pow2; lia).
  rewrite ones_ones by lia. unfold u32. rewrite Z.mod_small by lia. lia.
Qed.

(** The least [l] with [d <= 2 ^ l]. *)
Lemma LOG2_CEIL_spec d : 0 < d < 2 ^ 32 -> let l := LOG2_CEIL d in 0 <= l <= 32 /\ d <= 2 ^ l /\ (0 < l -> 2 ^ (l - 1) < d) /\ (l = 0 -> d = 1).
Proof.
  intros Hd. assert (LOG2_CEIL d = if d - 1 =? 0 then 0 else Z.succ (Z.log2 (d - 1))) as ->.
  { unfold LOG2_CEIL. replace (u32 (d - 1)) with (d - 1) by (unfold u32; rewrite Z.mod_small; lia). rewrite ldz_spec by lia.
    destruct (Z.eqb_spec (d - 1) 0); [done|]. pose proof (Z.log2_nonneg (d - 1)). assert (Z.log2 (d - 1) < 32) by (apply Z.log2_lt_pow2; lia).
    unfold u32. rewrite Z.mod_small; lia. }
  cbv zeta. destruct (Z.eqb_spec (d - 1) 0); [assert (d = 1) as -> by lia; by split_and!|].
  pose proof (Z.log2_spec (d - 1) ltac:(lia)) as [H1 H2]. pose proof (Z.log2_nonneg (d - 1)). assert (Z.log2 (d - 1) < 32) by (apply Z.log2_lt_pow2; lia).
  replace (Z.succ (Z.log2 (d - 1)) - 1) with (Z.log2 (d - 1)) by lia. split_and!; lia.
Qed.

Section Sound.
Context {WS : WideShifts}.

Lemma exp_base_2_spec n : 0 <= n <= 32 -> (n = 32 -> shl_wide 0 32 = Done 0) -> exp_base_2 n = Done (if n =? 32 then 0 else 2 ^ n).
Proof.
  intros Hn Hw. destruct (Z.eqb_spec n 32) as [-> |Hne]; [by rewrite <- Hw|].
  assert (match exp_base_2 n with Done v => v =? 2 ^ n | _ => false end = true) as H.
  { change ((fun n => match exp_base_2 n with Done v => v =? 2 ^ n | _ => false end) n = true). apply (small_exponent _ 32); [by vm_compute|lia]. }
  destruct (exp_base_2 n); try done. by apply Z.eqb_eq in H as ->.
Qed.

(** ** Unsigned division *)

(** A multiplier just above [2 ^ s / d] gives the quotient. *)
Lemma magic_floor n d m s : 0 < d -> 0 <= n -> 0 <= s -> 2 ^ s < m * d -> n * (m * d - 2 ^ s) < 2 ^ s -> n * m / 2 ^ s = n / d.
Proof.
  intros Hd Hn Hs Hm He. pose proof (pow2_pos s Hs) as Hp. pose proof (Z.div_mod n d ltac:(lia)) as E. pose proof (Z.mod_pos_bound n d Hd) as B.
  symmetry. apply (Z.div_unique _ _ _ (n * m - 2 ^ s * (n / d))); [left|lia].
  set (q := n / d) in *. set (r := n mod d) in *. set (e := m * d - 2 ^ s) in *. assert (m * d = 2 ^ s + e) as Em by lia.
  assert (d * (n * m - 2 ^ s * q) = 2 ^ s * r + n * e) as Ed.
  { replace (d * (n * m - 2 ^ s * q)) with (n * (m * d) - 2 ^ s * (d * q)) by ring. rewrite Em. replace (d * q) with (n - r) by lia. ring. }
  split; nia.
Qed.

(** The quotient of the sum without a carry: the first shift halves the difference. *)
Lemma average_shift n t l : 0 <= t <= n -> 1 <= l -> Z.shiftr (Z.shiftr (n - t) 1 + t) (l - 1) = (n + t) / 2 ^ l.
Proof.
  intros Ht Hl. rewrite !Z.shiftr_div_pow2 by lia. replace ((n - t) / 2 ^ 1 + t) with ((n + t) / 2 ^ 1).
  - rewrite Z.div_div by lia. f_equal. rewrite <- Z.pow_add_r by lia. f_equal. lia.
  - rewrite <- Z.div_add by lia. f_equal. lia.
Qed.

(** The quotient as the STP builder computes it from the constants, on 32-bit words:
    [t1] is the upper half of a 64-bit product. *)
Definition udiv_by_constants (c : Z * Z * Z) (n : Z) : Z :=
  let '(mprime, sh1, sh2) := c in
  let t1 := u64 (mprime * n) / 2 ^ 32 in
  Z.shiftr (u32 (Z.shiftr (u32 (n - t1)) sh1 + t1)) sh2.

Lemma ComputeUDivConstants32_ok d : 0 < d < 2 ^ 32 -> (2 ^ 31 < d -> shl_wide 0 32 = Done 0) ->
  exists mprime sh1 sh2, ComputeUDivConstants32 d = Done (mprime, sh1, sh2) /\ 0 <= mprime < 2 ^ 32 /\ 0 <= sh1 <= 1 /\ 0 <= sh2 <= 31 /\
    forall n, 0 <= n < 2 ^ 32 -> udiv_by_constants (mprime, sh1, sh2) n = n / d.
Proof.
  intros Hd Hw. destruct (LOG2_CEIL_spec d Hd) as (H1 & H2 & H3 & H4). unfold ComputeUDivConstants32. cbv zeta. set (l := LOG2_CEIL d) in *.
  rewrite exp_base_2_spec; [cbn [mbind outcome_bind]|done|intros E; apply Hw; rewrite E in H3; apply H3; lia].
  rewrite (proj2 (Z.eqb_neq d 0)) by lia.
  assert (u32 ((if l =? 32 then 0 else 2 ^ l) - d) = 2 ^ l - d) as ->.
  { unfold u32. destruct (Z.eqb_spec l 32) as [-> |]; [replace (0 - d) with (2 ^ 32 - d + (-1) * 2 ^ 32) by lia; rewrite Z.mod_add by lia|]; rewrite Z.mod_small; [done|lia|done|].
    pose proof (pow2_mono l 32 ltac:(lia)). lia. }
  destruct (Z.eq_dec l 0) as [El|Hl].
  { rewrite El, (H4 El). do 3 eexists. split; [reflexivity|]. split_and!; try done. intros n Hn. unfold udiv_by_constants.
    replace (u32 (2 ^ 32 * (2 ^ 0 - 1) / 1 + 1)) with 1 by done. replace (Z.min 0 1) with 0 by done. replace (Z.max (0 - 1) 0) with 0 by done.
    unfold u64. rewrite (Z.mod_small (1 * n)) by lia. replace (1 * n / 2 ^ 32) with 0 by (rewrite Z.div_small; lia).
    rewrite Z.div_1_r, !Z.shiftr_0_r. unfold u32. rewrite !Z.sub_0_r, !Z.add_0_r, Z.mod_mod, Z.mod_small; lia. }
  assert (2 ^ (l - 1) < d) as H5 by (apply H3; lia). pose proof (pow2_half l ltac:(lia)) as Hh.
  set (k := 2 ^ 32 * (2 ^ l - d) / d). pose proof (Z.div_mod (2 ^ 32 * (2 ^ l - d)) d ltac:(lia)) as E. pose proof (Z.mod_pos_bound (2 ^ 32 * (2 ^ l - d)) d ltac:(lia)) as B.
  fold k in E. assert (0 <= k < 2 ^ 32 - 1 + 1) as Hk by nia.
  assert (k + 1 < 2 ^ 32) as Hk1.
  { assert (k * d <= 2 ^ 32 * (2 ^ l - d)) by lia. assert (2 ^ l - d < d) by lia. destruct (Z.ltb_spec (k + 1) (2 ^ 32)) as [|Hge]; [done|exfalso].
    assert (2 ^ 32 - 1 <= k) by lia. assert (2 ^ 32 * (2 * d - 2 ^ l) <= d) as Hx by nia. nia. }
  do 3 eexists. split; [reflexivity|]. replace (u32 (k + 1)) with (k + 1) by (unfold u32; rewrite Z.mod_small; lia).
  split_and!; try lia. intros n Hn. unfold udiv_by_constants. rewrite Z.min_r, Z.max_l by lia.
  assert (0 <= (k + 1) * n < 2 ^ 64) as Hmn by nia. unfold u64. rewrite (Z.mod_small ((k + 1) * n)) by lia. set (t := (k + 1) * n / 2 ^ 32).
  pose proof (Z.div_mod ((k + 1) * n) (2 ^ 32) ltac:(lia)) as Et. pose proof (Z.mod_pos_bound ((k + 1) * n) (2 ^ 32) ltac:(lia)) as Bt. fold t in Et.
  assert (0 <= t <= n) as Ht by nia. unfold u32. rewrite (Z.mod_small (n - t)) by lia.
  assert (0 <= Z.shiftr (n - t) 1 + t < 2 ^ 32) by (rewrite Z.shiftr_div_pow2 by lia; pose proof (Z.div_mod (n - t) (2 ^ 1) ltac:(lia)); pose proof (Z.mod_pos_bound (n - t) (2 ^ 1) ltac:(lia)); lia).
  rewrite (Z.mod_small (Z.shiftr _ _ + t)) by done. rewrite average_shift by lia.
  rewrite <- (magic_floor n d (2 ^ 32 + (k + 1)) (32 + l)); [|lia|lia|lia| |].
  - rewrite Z.pow_add_r, <- Z.div_div by lia. f_equal. unfold t. rewrite <- Z.div_add_l by lia. f_equal. lia.
  - rewrite Z.pow_add_r by lia. nia.
  - rewrite Z.pow_add_r by lia. assert (0 < (2 ^ 32 + (k + 1)) * d - 2 ^ 32 * 2 ^ l <= d) by nia. nia.
Qed.

(** ** Signed division *)

(** The same for signed numbers: the floor of a negative quotient is one too low. *)
Lemma magic_floor_neg n d m s : 0 < d -> 0 < n -> 0 <= s -> 2 ^ s < m * d -> n * (m * d - 2 ^ s) <= 2 ^ s -> - n * m / 2 ^ s = - (n / d) - 1.
Proof.
  intros Hd Hn Hs Hm He. pose proof (pow2_pos s Hs) as Hp. pose proof (Z.div_mod n d ltac:(lia)) as E. pose proof (Z.mod_pos_bound n d Hd) as B.
  symmetry. set (q := n / d) in *. set (r := n mod d) in *. apply (Z.div_unique _ _ _ (2 ^ s * (q + 1) - n * m)); [left|lia].
  set (e := m * d - 2 ^ s) in *. assert (m * d = 2 ^ s + e) as Em by lia.
  assert (d * (2 ^ s * (q + 1) - n * m) = 2 ^ s * (d - r) - n * e) as Ed.
  { replace (d * (2 ^ s * (q + 1) - n * m)) with (2 ^ s * (d * q) + 2 ^ s * d - n * (m * d)) by ring. rewrite Em. replace (d * q) with (n - r) by lia. ring. }
  split; nia.
Qed.

Lemma signed_range w v : 0 < w -> - 2 ^ (w - 1) <= signed w v < 2 ^ (w - 1).
Proof. intros Hw. apply to_signed_range; [done|]. apply mod_pow2_range. lia. Qed.

Lemma signed_small w v : 0 < w -> - 2 ^ (w - 1) <= v < 2 ^ (w - 1) -> signed w v = v.
Proof.
  intros Hw Hv. pose proof (pow2_half w Hw) as Hh. unfold signed, to_signed. destruct (Z.neg_nonneg_cases v).
  - replace (v mod 2 ^ w) with (v + 2 ^ w) by (symmetry; rewrite <- (Z.mod_add v 1), Z.mul_1_l, Z.mod_small; lia). destruct (Z.ltb_spec (v + 2 ^ w) (2 ^ (w - 1))); lia.
  - rewrite Z.mod_small by lia. destruct (Z.ltb_spec v (2 ^ (w - 1))); lia.
Qed.

Lemma signed_mod w v : 0 < w -> signed w v mod 2 ^ w = v mod 2 ^ w.
Proof.
  intros Hw. unfold signed, to_signed. case_match; [by rewrite Z.mod_mod by (pose proof (pow2_pos w); lia)|].
  rewrite <- (Z.mod_add _ 1), Z.mul_1_l, Z.sub_add by (pose proof (pow2_pos w); lia). apply Z.mod_mod. pose proof (pow2_pos w). lia.
Qed.

(** The quotient as the STP builder computes it: [n] is a word, its upper product is
    added to it, the sum is shifted as a signed number. *)
Definition sdiv_by_constants (c : Z * Z * Z) (n : Z) : Z :=
  let '(mprime, dsign, shpost) := c in
  let mulsh := u64 (to_signed 32 n * mprime) / 2 ^ 32 in
  let shifted := u32 (Z.shiftr (u64 (to_signed 32 (u32 (n + mulsh)))) shpost) in
  let q0 := u32 (shifted - (if n <? 2 ^ 31 then 0 else -1)) in
  u32 (Z.lxor q0 (u32 dsign) - dsign).

(** A division by a positive number, before the sign of the divisor is taken in. *)
Lemma sdiv_shifted a m l x : 1 <= l -> 0 < a -> 2 ^ (31 + l) < m * a <= 2 ^ (31 + l) + a -> a <= 2 ^ l -> - 2 ^ 31 <= x < 2 ^ 31 ->
  Z.shiftr (x * m / 2 ^ 32) (l - 1) = Z.quot x a - (if x <? 0 then 1 else 0).
Proof.
  intros Hl Ha [Hm1 Hm2] Hal Hx. rewrite Z.shiftr_div_pow2, Z.div_div by lia. rewrite <- Z.pow_add_r by lia. replace (32 + (l - 1)) with (31 + l) by lia.
  pose proof (pow2_pos l ltac:(lia)). assert (2 ^ (31 + l) = 2 ^ 31 * 2 ^ l) as E by (rewrite Z.pow_add_r; lia).
  destruct (Z.ltb_spec x 0) as [Hneg|Hpos].
  - replace x with (- (- x)) by lia. rewrite (magic_floor_neg (- x) a m (31 + l)) by nia. rewrite Z.quot_opp_l, Z.quot_div_nonneg by lia. lia.
  - rewrite (magic_floor x a m (31 + l)) by nia. rewrite Z.quot_div_nonneg by lia. lia.
Qed.

Lemma u64_shiftr_low v k : 0 <= k < 32 -> - 2 ^ 31 <= v < 2 ^ 31 -> u32 (Z.shiftr (u64 v) k) = u32 (Z.shiftr v k).
Proof.
  intros Hk Hv. unfold u32, u64. apply Z.bits_inj'. intros i Hi. destruct (Z.ltb_spec i 32).
  - rewrite !Z.mod_pow2_bits_low, !Z.shiftr_spec, Z.mod_pow2_bits_low by lia. done.
  - by rewrite !Z.mod_pow2_bits_high by lia.
Qed.

(** Changing the sign by an exclusive or and a difference. *)
Lemma conditional_negate q dsign : dsign = 0 \/ dsign = -1 -> u32 (Z.lxor (u32 q) (u32 dsign) - dsign) = u32 (if dsign =? 0 then q else - q).
Proof.
  intros [-> | ->]; cbn [Z.eqb].
  - unfold u32. rewrite Z.mod_0_l, Z.lxor_0_r, Z.sub_0_r, Z.mod_mod by lia. done.
  - replace (u32 (-1)) with (Z.ones 32) by done. assert (Z.lxor (u32 q) (Z.ones 32) = 2 ^ 32 - 1 - u32 q) as ->.
    { replace (2 ^ 32 - 1) with (Z.ones 32) by done. pose proof (u32_range q) as Hq. rewrite Z.lxor_comm. apply Z.add_cancel_r with (u32 q). rewrite Z.sub_add.
      rewrite Z.add_nocarry_lxor; [by rewrite Z.lxor_assoc, Z.lxor_nilpotent, Z.lxor_0_r|].
      apply Z.bits_inj'. intros i Hi. rewrite Z.land_spec, Z.lxor_spec, Z.bits_0, Z.testbit_ones_nonneg by lia.
      unfold u32. destruct (Z.ltb_spec i 32); [by destruct (Z.testbit _ i)|]. rewrite Z.mod_pow2_bits_high by lia. done. }
    unfold u32. replace (2 ^ 32 - 1 - q mod 2 ^ 32 - -1) with (- (q mod 2 ^ 32) + 1 * 2 ^ 32) by lia. rewrite Z.mod_add by lia.
    rewrite <- (Z.sub_0_l (q mod 2 ^ 32)), <- (Z.sub_0_l q). apply Zminus_mod_idemp_r.
Qed.

(** The constants, for a divisor of size [a]. *)
Lemma ComputeSDivConstants32_value d : - 2 ^ 31 <= d < 2 ^ 31 -> d <> 0 ->
  exists l m, ComputeSDivConstants32 d = Done (m - 2 ^ 32, if 0 <? d then 0 else -1, l - 1) /\
    1 <= l <= 31 /\ Z.abs d <= 2 ^ l /\ 2 ^ (31 + l) < m * Z.abs d <= 2 ^ (31 + l) + Z.abs d /\ 2 ^ 31 < m /\ (m <= 2 ^ 32 \/ Z.abs d = 1 /\ l = 1 /\ m = 2 ^ 32 + 1).
Proof.
  intros Hd Hne. unfold ComputeSDivConstants32. cbv zeta. replace (if 0 <? d then d else - d) with (Z.abs d) by (destruct (Z.ltb_spec 0 d); lia).
  set (a := Z.abs d). assert (0 < a <= 2 ^ 31) as Ha by (unfold a; lia). destruct (LOG2_CEIL_spec a ltac:(lia)) as (H1 & H2 & H3 & H4).
  replace (u32 a) with a by (unfold u32; rewrite Z.mod_small; lia).
  set (l := if a =? 2 ^ 31 then 31 else Z.max 1 (LOG2_CEIL a)).
  assert (1 <= l <= 31 /\ a <= 2 ^ l /\ (2 ^ (l - 1) < a \/ a = 1 /\ l = 1)) as (Hl & Hal & Hla).
  { unfold l. destruct (Z.eqb_spec a (2 ^ 31)) as [-> |Hlt]; [split_and!; [lia|lia|lia|by left]|].
    assert (LOG2_CEIL a <= 31) as H5.
    { destruct (Z.le_gt_cases (LOG2_CEIL a) 31) as [|Hgt]; [done|]. specialize (H3 ltac:(lia)). pose proof (pow2_mono 31 (LOG2_CEIL a - 1) ltac:(lia)). lia. }
    destruct (Z.eq_dec (LOG2_CEIL a) 0) as [E|Hnz]; [rewrite E in *|rewrite Z.max_r by lia].
    - assert (a = 1) by auto. rewrite Z.max_l by lia. split_and!; [lia|lia|lia|by right].
    - split_and!; [lia|lia|lia|left; apply H3; lia]. }
  rewrite exp_base_2_spec by lia. cbn [mbind outcome_bind]. rewrite (proj2 (Z.eqb_neq (l - 1) 32)), (proj2 (Z.eqb_neq a 0)) by lia.
  replace (2 ^ 32 * 2 ^ (l - 1)) with (2 ^ (31 + l)) by (rewrite <- Z.pow_add_r by lia; f_equal; lia).
  pose proof (pow2_pos l ltac:(lia)) as Hpl. assert (2 ^ (31 + l) = 2 ^ 31 * 2 ^ l) as El by (rewrite Z.pow_add_r; lia).
  set (k := 2 ^ (31 + l) / a). pose proof (Z.div_mod (2 ^ (31 + l)) a ltac:(lia)) as E. pose proof (Z.mod_pos_bound (2 ^ (31 + l)) a ltac:(lia)) as B. fold k in E.
  pose proof (pow2_half l ltac:(lia)) as Hh.
  assert (2 ^ 31 <= k) as Hk1 by (apply Z.div_le_lower_bound; nia).
  assert (k + 1 <= 2 ^ 32 \/ a = 1 /\ l = 1 /\ k + 1 = 2 ^ 32 + 1) as Hk2.
  { destruct Hla as [Hlt|[Ea El1]].
    - left. assert (k < 2 ^ 32); [|lia]. apply Z.div_lt_upper_bound; nia.
    - right. split_and!; [done|done|]. unfold k. rewrite Ea, El1. by vm_compute. }
  exists l, (k + 1). replace (u64 (k + 1)) with (k + 1) by (unfold u64; rewrite Z.mod_small; lia).
  assert (signed 32 (u64 (k + 1 - 2 ^ 32)) = k + 1 - 2 ^ 32) as ->.
  { transitivity (signed 32 (k + 1 - 2 ^ 32)); [unfold signed, u64; by rewrite (mod_mod_pow2 _ 32 64) by lia|apply signed_small; lia]. }
  assert (Z.shiftr d 31 = if 0 <? d then 0 else -1) as ->.
  { rewrite Z.shiftr_div_pow2 by lia. symmetry. destruct (Z.ltb_spec 0 d); [apply (Z.div_unique _ _ _ d)|apply (Z.div_unique _ _ _ (d + 2 ^ 31))]; lia. }
  split; [done|]. split_and!; lia.
Qed.

Lemma upper_half v : u32 (u64 v / 2 ^ 32) = u32 (v / 2 ^ 32).
Proof.
  unfold u32, u64. apply Z.bits_inj'. intros i Hi. destruct (Z.ltb_spec i 32).
  - rewrite !Z.mod_pow2_bits_low, !Z.div_pow2_bits, Z.mod_pow2_bits_low by lia. done.
  - by rewrite !Z.mod_pow2_bits_high by lia.
Qed.

Lemma to_signed_diff w v : exists k, to_signed w v = v + k * 2 ^ w.
Proof. unfold to_signed. case_match; [exists 0|exists (-1)]; lia. Qed.

Lemma u32_add_cong a b k : a = b + k * 2 ^ 32 -> u32 a = u32 b.
Proof. intros ->. unfold u32. apply Z.mod_add. lia. Qed.

Lemma u32_sub_l a b : u32 (u32 a - b) = u32 (a - b).
Proof. apply Zminus_mod_idemp_l. Qed.

Lemma ComputeSDivConstants32_ok d : - 2 ^ 31 <= d < 2 ^ 31 -> d <> 0 ->
  exists mprime dsign shpost, ComputeSDivConstants32 d = Done (mprime, dsign, shpost) /\ - 2 ^ 31 <= mprime < 2 ^ 31 /\ (dsign = 0 \/ dsign = -1) /\ 0 <= shpost <= 30 /\
    forall n, 0 <= n < 2 ^ 32 -> sdiv_by_constants (mprime, dsign, shpost) n = u32 (Z.quot (to_signed 32 n) d).
Proof.
  intros Hd Hne. destruct (ComputeSDivConstants32_value d Hd Hne) as (l & m & E & Hl & Hal & Hm & Hm31 & Hm32).
  do 3 eexists. split; [exact E|]. split_and!; [lia|lia|case_match; lia|lia|lia|]. intros n Hn. unfold sdiv_by_constants.
  set (x := to_signed 32 n). pose proof (to_signed_range 32 n ltac:(lia) Hn) as Hx. fold x in Hx. destruct (to_signed_diff 32 n) as [k Ek]. fold x in Ek.
  assert (u32 (n + u64 (x * (m - 2 ^ 32)) / 2 ^ 32) = u32 (x * m / 2 ^ 32)) as ->.
  { unfold u32 at 1. rewrite <- Z.add_mod_idemp_r by lia. fold (u32 (u64 (x * (m - 2 ^ 32)) / 2 ^ 32)). rewrite upper_half. unfold u32. rewrite Z.add_mod_idemp_r by lia.
    apply (u32_add_cong _ _ (- k)). replace (x * (m - 2 ^ 32)) with (x * m + (- x) * 2 ^ 32) by ring. rewrite Z.div_add by lia. lia. }
  assert (u32 (u32 (Z.shiftr (u64 (to_signed 32 (u32 (x * m / 2 ^ 32)))) (l - 1)) - (if n <? 2 ^ 31 then 0 else -1)) = u32 (Z.quot x (Z.abs d))) as ->.
  { rewrite u64_shiftr_low by (first [lia|apply (to_signed_range 32); [lia|apply u32_range]]). change (to_signed 32 (u32 (x * m / 2 ^ 32))) with (signed 32 (x * m / 2 ^ 32)).
    replace (n <? 2 ^ 31) with (negb (x <? 0)).
    2:{ unfold x, to_signed. destruct (Z.ltb_spec n (2 ^ (32 - 1))), (Z.ltb_spec n (2 ^ 31)); lia. }
    rewrite u32_sub_l.
    destruct Hm32 as [Hm32|(Ea & -> & ->)].
    - assert (- 2 ^ 31 <= x * m / 2 ^ 32 < 2 ^ 31) by (split; [apply Z.div_le_lower_bound|apply Z.div_lt_upper_bound]; nia). rewrite (signed_small 32) by lia.
      rewrite (sdiv_shifted (Z.abs d) m l x) by lia. f_equal. destruct (x <? 0); cbn [negb]; lia.
    - rewrite Ea, Z.quot_1_r, Z.sub_diag, Z.shiftr_0_r. replace (x * (2 ^ 32 + 1)) with (x + x * 2 ^ 32) by lia. rewrite Z.div_add by lia.
      destruct (to_signed_diff 32 ((x / 2 ^ 32 + x) mod 2 ^ 32)) as [j Ej]. unfold signed. rewrite Ej.
      pose proof (Z.div_mod (x / 2 ^ 32 + x) (2 ^ 32) ltac:(lia)) as D. apply (u32_add_cong _ _ (j - (x / 2 ^ 32 + x) / 2 ^ 32)).
      destruct (Z.ltb_spec x 0); cbn [negb].
      + assert (x / 2 ^ 32 = -1) as Ex by (symmetry; apply (Z.div_unique _ _ _ (x + 2 ^ 32)); lia). rewrite Ex in *. lia.
      + assert (x / 2 ^ 32 = 0) as Ex by (apply Z.div_small; lia). rewrite Ex in *. lia. }
  rewrite conditional_negate by (case_match; lia). f_equal. destruct (Z.ltb_spec 0 d).
  - cbn [Z.eqb]. by rewrite Z.abs_eq by lia.
  - cbn [Z.eqb]. rewrite Z.abs_neq by lia. rewrite Z.quot_opp_r by lia. lia.
Qed.

End Sound.

(** ** Multiplication *)

(** A power of two times an odd number. *)
Lemma odd_part x : 0 < x -> exists k y, 0 <= k /\ 0 <= y /\ x = 2 ^ k * (2 * y + 1).
Proof.
  destruct x as [|p|p]; [lia| |lia]. intros _. induction p as [p _|p (k & y & Hk & Hy & E)|].
  - exists 0, (Z.pos p). lia.
  - exists (k + 1), y. split_and!; [lia|done|]. rewrite Z.pow_add_r by lia. lia.
  - exists 0, 0. lia.
Qed.

Lemma odd_part_bits k y i : 0 <= k -> 0 <= i -> Z.testbit (2 ^ k * (2 * y + 1)) i = (i =? k) || (k <? i) && Z.testbit y (i - k - 1).
Proof.
  intros Hk Hi. rewrite Z.mul_comm, <- Z.shiftl_mul_pow2, Z.shiftl_spec by lia. destruct (Z.eqb_spec i k) as [-> |Hne]; [by rewrite Z.sub_diag, Z.testbit_odd_0|].
  destruct (Z.ltb_spec k i); cbn [orb andb]; [|by rewrite Z.testbit_neg_r by lia].
  rewrite <- (Z.testbit_odd_succ y) by lia. f_equal. lia.
Qed.

Lemma isolate_spec x k y : 0 <= k -> x = 2 ^ k * (2 * y + 1) -> 0 < x < 2 ^ 64 -> bits64_isolateRightmostBit x = 2 ^ k.
Proof.
  intros Hk Ex Hx. unfold bits64_isolateRightmostBit, u64. assert (Z.land x (- x) = 2 ^ k) as E.
  { apply Z.bits_inj'. intros i Hi. rewrite Z.land_spec. replace (- x) with (2 ^ k * (2 * (- y - 1) + 1)) by (rewrite Ex; lia). rewrite Ex, !odd_part_bits, Z.pow2_bits_eqb by lia.
    destruct (Z.eqb_spec i k) as [-> |Hne]; [by rewrite Z.eqb_refl|]. rewrite (proj2 (Z.eqb_neq k i)) by lia. cbn [orb].
    destruct (Z.ltb_spec k i); [cbn [andb]|done]. replace (- y - 1) with (Z.lnot y) by (unfold Z.lnot; lia). rewrite Z.lnot_spec by lia. by destruct (Z.testbit y _). }
  rewrite <- E. apply Z.bits_inj'. intros i Hi. rewrite !Z.land_spec. destruct (Z.ltb_spec i 64); [by rewrite Z.mod_pow2_bits_low by lia|].
  rewrite Z.mod_pow2_bits_high by lia. replace (Z.testbit x i) with false; [done|]. symmetry. apply Z.bits_above_log2; [lia|]. assert (Z.log2 x < 64) by (apply Z.log2_lt_pow2; lia). lia.
Qed.

(** The rightmost region of ones of a word: from [low] to [high]; above it there is
    [2 ^ (high + 1) * y]. *)
Lemma region_spec x : 0 < x < 2 ^ 64 -> exists low high y, 0 <= low < high /\ high <= 64 /\ 0 <= y /\ x = 2 ^ (high + 1) * y + (2 ^ high - 2 ^ low) /\ (high = 64 -> y = 0) /\ (exists z, x = 2 ^ low * (2 * z + 1)) /\
  bits64_isolateRightmostBit x = 2 ^ low /\ u64 (x + 2 ^ low) = (if high =? 64 then 0 else 2 ^ (high + 1) * y + 2 ^ high) /\
  (high < 64 -> bits64_isolateRightmostBit (2 ^ (high + 1) * y + 2 ^ high) = 2 ^ high).
Proof.
  intros Hx. destruct (odd_part x ltac:(lia)) as (low & z & Hlow & Hz & Ex). pose proof (pow2_pos low Hlow) as Hp.
  destruct (odd_part (2 * z + 2) ltac:(lia)) as (k & y & Hk & Hy & Ez). assert (k <> 0) as Hk0.
  { intros ->. rewrite Z.pow_0_r in Ez. lia. }
  set (high := low + k). assert (2 ^ high = 2 ^ low * 2 ^ k) as Eh by (unfold high; rewrite Z.pow_add_r; lia).
  assert (x + 2 ^ low = 2 ^ high * (2 * y + 1)) as Ep by (rewrite Ex, Eh; nia).
  assert (2 ^ (high + 1) = 2 * 2 ^ high) as Eh1 by (rewrite Z.pow_add_r by lia; lia).
  assert (low < 64) as Hl64. { destruct (Z.ltb_spec low 64); [done|]. pose proof (pow2_mono 64 low ltac:(lia)). nia. }
  assert (exists c, 2 ^ 64 = 2 ^ low * c) as [c Ec]. { exists (2 ^ (64 - low)). rewrite <- Z.pow_add_r by lia. f_equal. lia. }
  assert (2 * z + 1 < c) as Hc by (apply (Z.mul_lt_mono_pos_l (2 ^ low)); lia).
  assert (x + 2 ^ low <= 2 ^ 64) as Hle. { rewrite Ec. transitivity (2 ^ low * (2 * z + 2)); [lia|]. apply Z.mul_le_mono_nonneg_l; lia. }
  assert (2 ^ high <= x + 2 ^ low) as Hge. { rewrite Ep. transitivity (2 ^ high * 1); [lia|]. apply Z.mul_le_mono_nonneg_l; [pose proof (pow2_pos high ltac:(lia)); lia|lia]. }
  assert (high <= 64) as Hh64. { destruct (Z.leb_spec high 64); [done|]. pose proof (pow2_mono 65 high ltac:(lia)). lia. }
  exists low, high, y. split_and!; [lia|unfold high; lia|done|done|nia| |by exists z|by apply (isolate_spec x low z)| |].
  - intros E. rewrite E in *. nia.
  - unfold u64. rewrite Ep. destruct (Z.eqb_spec high 64) as [E|Hne].
    + rewrite E in *. assert (y = 0) as -> by nia. by rewrite Z.mul_1_r, Z_mod_same_full.
    + rewrite Z.mod_small; [lia|]. split; [nia|]. destruct (Z.eq_dec (2 ^ high * (2 * y + 1)) (2 ^ 64)) as [E|]; [exfalso|lia].
      assert (2 ^ 64 = 2 ^ high * (2 * 2 ^ (63 - high))) as E2. { replace (2 * 2 ^ (63 - high)) with (2 ^ (64 - high)) by (rewrite (pow2_half (64 - high)) by lia; do 2 f_equal; lia). rewrite <- Z.pow_add_r by lia. f_equal. lia. }
      assert (2 * y + 1 = 2 * 2 ^ (63 - high)); [|lia]. apply (Z.mul_cancel_l _ _ (2 ^ high)); [pose proof (pow2_pos high ltac:(lia)); lia|lia].
  - intros Hlt. apply (isolate_spec _ _ y); [lia|lia|]. split; [nia|]. assert (x + 2 ^ low <> 2 ^ 64); [|lia]. intros E. rewrite Ep in E.
    assert (2 ^ 64 = 2 ^ high * (2 * 2 ^ (63 - high))) as E2. { replace (2 * 2 ^ (63 - high)) with (2 ^ (64 - high)) by (rewrite (pow2_half (64 - high)) by lia; do 2 f_equal; lia). rewrite <- Z.pow_add_r by lia. f_equal. lia. }
    assert (2 * y + 1 = 2 * 2 ^ (63 - high)); [|lia]. apply (Z.mul_cancel_l _ _ (2 ^ high)); [pose proof (pow2_pos high ltac:(lia)); lia|lia].
Qed.

(** ** Single bits *)

Lemma bit_set v i : 0 <= i -> Z.testbit v i = false -> Z.lor v (2 ^ i) = v + 2 ^ i /\ Z.lxor v (2 ^ i) = v + 2 ^ i.
Proof.
  intros Hi Hb. assert (Z.land v (2 ^ i) = 0) as H0.
  { apply Z.bits_inj'. intros j Hj. rewrite Z.land_spec, Z.pow2_bits_eqb, Z.bits_0 by lia. destruct (Z.eqb_spec i j) as [<-|]; [by rewrite Hb|apply andb_false_r]. }
  rewrite <- Z.lxor_lor by done. rewrite Z.add_nocarry_lxor by done. done.
Qed.

Lemma bit_clear v i : 0 <= i -> Z.testbit v i = true -> Z.lxor v (2 ^ i) = v - 2 ^ i.
Proof.
  intros Hi Hb. assert (Z.testbit (Z.lxor v (2 ^ i)) i = false) as Hc by by rewrite Z.lxor_spec, Hb, Z.pow2_bits_true.
  apply bit_set in Hc as [_ Hc]; [|done]. rewrite Z.lxor_assoc, Z.lxor_nilpotent, Z.lxor_0_r in Hc. lia.
Qed.

Lemma bit_test v i : 0 <= i -> (Z.land v (2 ^ i) =? 0) = negb (Z.testbit v i).
Proof.
  intros Hi. destruct (Z.testbit v i) eqn:Hb; cbn [negb].
  - apply Z.eqb_neq. intros E. assert (Z.testbit (Z.land v (2 ^ i)) i = false) as H by by rewrite E, Z.bits_0. by rewrite Z.land_spec, Hb, Z.pow2_bits_true in H.
  - apply Z.eqb_eq. apply Z.bits_inj'. intros j Hj. rewrite Z.land_spec, Z.pow2_bits_eqb, Z.bits_0 by lia. destruct (Z.eqb_spec i j) as [<-|]; [by rewrite Hb|apply andb_false_r].
Qed.

Lemma bits_bounded v n : 0 <= n -> 0 <= v -> (forall i, n <= i -> Z.testbit v i = false) -> v < 2 ^ n.
Proof.
  intros Hn Hv Hb. destruct (Z.ltb_spec v (2 ^ n)); [done|exfalso]. pose proof (pow2_pos n Hn). assert (n <= Z.log2 v) as Hl by (apply Z.log2_le_pow2; lia).
  specialize (Hb _ Hl). by rewrite Z.bit_log2 in Hb by lia.
Qed.

(** What the loop keeps: bits from [h] on are still in [x], those below are in [add]
    and [sub]. *)
Record mult_inv (total h x add sub : Z) : Prop := MkMult {
  mi_h : 0 <= h;
  mi_x : 0 <= x < 2 ^ 64;
  mi_low : exists z, x = 2 ^ h * z;
  mi_add : 0 <= add;
  mi_sub : 0 <= sub;
  mi_below i : h <= i -> Z.testbit add i = false /\ Z.testbit sub i = false;
  mi_word i : 64 <= i -> Z.testbit add i = false /\ Z.testbit sub i = false;
  mi_apart i : 0 <= i -> Z.testbit add i = false \/ Z.testbit sub i = false;
  mi_total : exists k, x + add - sub = total + k * 2 ^ 64
}.

(** [- 2 ^ low], where a bit just below is taken back instead. *)
Lemma subtract_low total h x add sub low : mult_inv total h x add sub -> h <= low < 64 ->
  exists add' sub', (if negb (low =? 0) && negb (Z.land add (Z.shiftr (2 ^ low) 1) =? 0)
     then (Z.lxor add (Z.shiftr (2 ^ low) 1), Z.lxor sub (Z.shiftr (2 ^ low) 1)) else (add, Z.lor sub (2 ^ low))) = (add', sub') /\
    0 <= add' /\ 0 <= sub' /\ add' - sub' = add - sub - 2 ^ low /\
    (forall i, low < i -> Z.testbit add' i = false /\ Z.testbit sub' i = false) /\ (forall i, 0 <= i -> Z.testbit add' i = false \/ Z.testbit sub' i = false).
Proof.
  intros [Hh Hx _ Ha Hs Hb _ Hd _] Hlow. assert (Z.testbit add low = false /\ Z.testbit sub low = false) as [Hal Hsl] by (apply Hb; lia).
  destruct (Z.eqb_spec low 0) as [E|Hne]; cbn [negb andb].
  2: rewrite Z.shiftr_div_pow2 by lia; replace (2 ^ low / 2 ^ 1) with (2 ^ (low - 1)) by (rewrite <- Z.pow_sub_r; [done|lia|lia]); rewrite bit_test by lia; rewrite negb_involutive;
     destruct (Z.testbit add (low - 1)) eqn:Eb.
  2: { assert (Z.testbit sub (low - 1) = false) as Es by (destruct (Hd (low - 1)) as [H|H]; [lia|congruence|done]).
    rewrite (bit_clear add) by (done || lia). rewrite (proj2 (bit_set sub (low - 1) ltac:(lia) Es)). do 2 eexists. split; [done|]. pose proof (pow2_half low ltac:(lia)) as Hhalf. pose proof (pow2_pos (low - 1) ltac:(lia)).
    rewrite <- (bit_clear add), <- (proj2 (bit_set sub (low - 1) ltac:(lia) Es)) by (done || lia). split_and!.
    - apply Z.lxor_nonneg. split; lia.
    - apply Z.lxor_nonneg. split; lia.
    - rewrite (bit_clear add), (proj2 (bit_set sub (low - 1) ltac:(lia) Es)) by (done || lia). lia.
    - intros i Hi. rewrite !Z.lxor_spec, !Z.pow2_bits_false by lia. destruct (Hb i) as [-> ->]; [lia|done].
    - intros i Hi. rewrite !Z.lxor_spec, Z.pow2_bits_eqb by lia. destruct (Z.eqb_spec (low - 1) i) as [<-|]; [rewrite Eb; by left|]. rewrite !xorb_false_r. by apply Hd. }
  all: exists add, (Z.lor sub (2 ^ low)); (split; [done|]); pose proof (pow2_pos low ltac:(lia)); split_and!; [done|apply Z.lor_nonneg; lia|rewrite (proj1 (bit_set sub low ltac:(lia) Hsl)); lia|..].
  all: intros i Hi; rewrite Z.lor_spec, Z.pow2_bits_eqb by lia; destruct (Z.eqb_spec low i) as [<-|]; try lia; rewrite ?orb_false_r; auto.
  all: apply Hb; lia.
Qed.

Lemma mult_step_ok total h x add sub : mult_inv total h x add sub -> x <> 0 ->
  exists h' x' add' sub', mult_step x add sub = Done (x', add', sub') /\ mult_inv total h' x' add' sub' /\ h < h' /\ h < 64.
Proof.
  intros Hinv Hne. pose proof Hinv as [Hh Hx [z0 Ez0] Ha Hs Hb Hw Hd [k Ek]].
  destruct (region_spec x ltac:(lia)) as (low & high & y & Hlow & Hhigh & Hy & Ex & Hy64 & [z Ez] & Elow & Ep & Eq).
  assert (h <= low) as Hhl.
  { destruct (Z.leb_spec h low) as [|Hlt]; [done|exfalso]. assert (2 ^ h = 2 ^ low * (2 * 2 ^ (h - low - 1))) as E2.
    { replace (2 * 2 ^ (h - low - 1)) with (2 ^ (h - low)) by (rewrite (pow2_half (h - low)) by lia; done). rewrite <- Z.pow_add_r by lia. f_equal. lia. }
    assert (2 * z + 1 = 2 * (2 ^ (h - low - 1) * z0)); [|lia]. apply (Z.mul_cancel_l _ _ (2 ^ low)); [pose proof (pow2_pos low ltac:(lia)); lia|]. rewrite <- Ez, Ez0, E2. ring. }
  assert (exists x', Z.lxor (u64 (x + 2 ^ low)) (bits64_isolateRightmostBit (u64 (x + 2 ^ low))) = x' /\ x' = x - (2 ^ high - 2 ^ low) /\
    x' = 2 ^ (high + 1) * y /\ ((if bits64_isolateRightmostBit (u64 (x + 2 ^ low)) =? 0 then Done 64 else bits64_indexOfSingleBit (bits64_isolateRightmostBit (u64 (x + 2 ^ low)))) = Done high))
    as (x' & E1 & E2 & E3 & E4).
  { rewrite Ep. destruct (Z.eqb_spec high 64) as [E|Hn].
    - rewrite E in *. exists 0. rewrite (Hy64 eq_refl) in *. split_and!; [done|lia|lia|done].
    - rewrite Eq by lia. assert (Z.testbit (2 ^ (high + 1) * y + 2 ^ high) high = true) as Hbit.
      { replace (2 ^ (high + 1) * y + 2 ^ high) with (2 ^ high * (2 * y + 1)) by (rewrite Z.pow_add_r by lia; lia). by rewrite odd_part_bits, Z.eqb_refl by lia. }
      rewrite bit_clear by (done || lia). eexists. split; [done|]. pose proof (pow2_pos high ltac:(lia)). rewrite (proj2 (Z.eqb_neq (2 ^ high) 0)) by lia. split_and!; [lia|lia|by apply indexOfSingleBit_pow2; lia]. }
  unfold mult_step, bits64_indexOfRightmostBit. rewrite Elow, indexOfSingleBit_pow2 by lia. cbn [mbind outcome_bind]. rewrite Z.shiftl_1_l.
  assert (2 ^ low < 2 ^ 64) by (apply Z.pow_lt_mono_r; lia). pose proof (pow2_pos low ltac:(lia)). replace (u64 (2 ^ low)) with (2 ^ low) by (unfold u64; rewrite Z.mod_small; lia).
  cbv zeta. rewrite E4. cbn [mbind outcome_bind]. rewrite E1. clear Ep Eq E1 E4. pose proof (pow2_pos high ltac:(lia)). pose proof (pow2_pos (high + 1) ltac:(lia)).
  assert (forall i, 64 <= i -> high < i \/ high = i) as Hi64 by lia.
  exists (high + 1), x'.
  destruct (Z.eqb_spec high (low + 1)) as [Eh|Hn].
  - assert (Z.testbit add low = false) as Hal by (apply Hb; lia). do 2 eexists. split; [done|]. split; [|lia]. pose proof (bit_set add low ltac:(lia) Hal) as [El _]. split.
    + lia.
    + assert (2 ^ low < 2 ^ high) by (apply Z.pow_lt_mono_r; lia). lia.
    + by exists y.
    + apply Z.lor_nonneg. lia.
    + done.
    + intros i Hi. rewrite Z.lor_spec, Z.pow2_bits_false by lia. destruct (Hb i) as [-> ->]; [lia|done].
    + intros i Hi. rewrite Z.lor_spec, Z.pow2_bits_false by lia. destruct (Hw i) as [-> ->]; [lia|done].
    + intros i Hi. rewrite Z.lor_spec, Z.pow2_bits_eqb by lia. destruct (Z.eqb_spec low i) as [<-|]; [right; by apply Hb|]. rewrite orb_false_r. by apply Hd.
    + exists k. rewrite El, E2, Eh, Z.pow_add_r by lia. lia.
  - destruct (subtract_low _ _ _ _ _ low Hinv ltac:(lia)) as (add1 & sub1 & -> & Ha1 & Hs1 & Ht1 & Hb1 & Hd1).
    do 2 eexists. split; [done|]. split; [|lia]. assert (2 ^ low < 2 ^ high) by (apply Z.pow_lt_mono_r; lia).
    assert (Z.testbit add1 high = false) as Hah by (apply Hb1; lia).
    destruct (Z.eqb_spec high 64) as [E64|H64].
    + rewrite E64 in *. split; [lia|lia|by exists y|done|done|intros i Hi; apply Hb1; lia|intros i Hi; apply Hb1; lia|done|]. exists (k - 1). lia.
    + rewrite Z.shiftl_1_l. replace (u64 (2 ^ high)) with (2 ^ high) by (unfold u64; rewrite Z.mod_small; [done|split; [lia|apply Z.pow_lt_mono_r; lia]]).
      split.
      * lia.
      * lia.
      * by exists y.
      * apply Z.lor_nonneg. lia.
      * done.
      * intros i Hi. rewrite Z.lor_spec, Z.pow2_bits_false by lia. destruct (Hb1 i) as [-> ->]; [lia|done].
      * intros i Hi. rewrite Z.lor_spec, Z.pow2_bits_false by lia. destruct (Hb1 i) as [-> ->]; [lia|done].
      * intros i Hi. rewrite Z.lor_spec, Z.pow2_bits_eqb by lia. destruct (Z.eqb_spec high i) as [<-|]; [right; apply Hb1; lia|]. rewrite orb_false_r. by apply Hd1.
      * exists k. rewrite (proj1 (bit_set add1 high ltac:(lia) Hah)). lia.
Qed.

Lemma mult_loop_ok total n h x add sub : mult_inv total h x add sub -> 64 - h < Z.of_nat n ->
  exists h' add' sub', mult_loop n x add sub = Done (add', sub') /\ mult_inv total h' 0 add' sub'.
Proof.
  revert h x add sub. induction n as [|n IH]; intros h x add sub Hinv Hn; cbn [mult_loop]; (destruct (Z.eqb_spec x 0) as [-> |Hne]; [by exists h, add, sub|]).
  - destruct (mult_step_ok _ _ _ _ _ Hinv Hne) as (_ & _ & _ & _ & _ & _ & _ & ?). lia.
  - destruct (mult_step_ok _ _ _ _ _ Hinv Hne) as (h' & x' & add' & sub' & -> & Hinv' & ? & ?). cbn [mbind outcome_bind]. apply (IH h'); [done|lia].
Qed.

(** The number is the difference of two numbers that share no bit. *)
Lemma ComputeMultConstants64_ok x : 0 <= x < 2 ^ 64 ->
  exists add sub, ComputeMultConstants64 x = Done (add, sub) /\ 0 <= add < 2 ^ 64 /\ 0 <= sub < 2 ^ 64 /\ u64 (add - sub) = x /\
    forall i, 0 <= i -> Z.testbit add i = false \/ Z.testbit sub i = false.
Proof.
  intros Hx. destruct (mult_loop_ok x 65 0 x 0 0) as (h & add & sub & E & [_ _ _ Ha Hs _ Hw Hd [k Ek]]).
  - split; [lia|done|exists x; lia|lia|lia|intros; by rewrite Z.bits_0|intros; by rewrite Z.bits_0|left; by rewrite Z.bits_0|exists 0; lia].
  - lia.
  - exists add, sub. unfold ComputeMultConstants64. rewrite E. cbn [mbind outcome_bind].
    assert (u64 (add - sub) = x) as Et. { unfold u64. replace (add - sub) with (x + k * 2 ^ 64) by lia. rewrite Z.mod_add, Z.mod_small by lia. done. }
    rewrite Et, Z.eqb_refl. split_and!; try done.
    + apply bits_bounded; [lia|done|]. intros i Hi. by apply Hw.
    + apply bits_bounded; [lia|done|]. intros i Hi. by apply Hw.
Qed.
