(* ===== verification/STPBuilder.v ===== *)
(** The translation of expressions for the solver STP (lib/Solver/STPBuilder.cpp,
    STPBuilder.h, include/klee/Expr/ArrayExprHash.h).

    STP is a library: its expressions and the functions that build them are the class
    [STP].  The order in which C++ evaluates the arguments of a call is not fixed;
    they are evaluated from left to right here. *)
From stdpp Require Import base numbers list strings gmap pretty.
From Stdlib Require Import ZArith Lia.
From S2P Require Import Prelude APInt Bits Expr ConstantOps ConstantDivision.
Local Open Scope Z_scope.

(** The functions of stp/c_interface.h that are called, without the context [vc]; and
    [llvm::APInt(32, w).getActiveBits()]. *)
Class STP : Type := {
  VCExpr : Type;
  VCType : Type;
  vc_boolType : VCType;
  vc_bvType : Z -> VCType;
  vc_arrayType : VCType -> VCType -> VCType;
  vc_varExpr : string -> VCType -> VCExpr;
  vc_trueExpr : VCExpr;
  vc_falseExpr : VCExpr;
  vc_notExpr : VCExpr -> VCExpr;
  vc_andExpr : VCExpr -> VCExpr -> VCExpr;
  vc_orExpr : VCExpr -> VCExpr -> VCExpr;
  vc_iffExpr : VCExpr -> VCExpr -> VCExpr;
  vc_eqExpr : VCExpr -> VCExpr -> VCExpr;
  vc_iteExpr : VCExpr -> VCExpr -> VCExpr -> VCExpr;
  vc_bvConstExprFromInt : Z -> Z -> VCExpr;
  vc_bvConstExprFromLL : Z -> Z -> VCExpr;
  vc_getBVLength : VCExpr -> Z;
  vc_bvExtract : VCExpr -> Z -> Z -> VCExpr;
  vc_bvConcatExpr : VCExpr -> VCExpr -> VCExpr;
  vc_bvSignExtend : VCExpr -> Z -> VCExpr;
  vc_bvPlusExpr : Z -> VCExpr -> VCExpr -> VCExpr;
  vc_bvMinusExpr : Z -> VCExpr -> VCExpr -> VCExpr;
  vc_bvMultExpr : Z -> VCExpr -> VCExpr -> VCExpr;
  vc_bvDivExpr : Z -> VCExpr -> VCExpr -> VCExpr;
  vc_bvModExpr : Z -> VCExpr -> VCExpr -> VCExpr;
  vc_sbvDivExpr : Z -> VCExpr -> VCExpr -> VCExpr;
  vc_sbvRemExpr : Z -> VCExpr -> VCExpr -> VCExpr;
  vc_bvUMinusExpr : VCExpr -> VCExpr;
  vc_bvNotExpr : VCExpr -> VCExpr;
  vc_bvAndExpr : VCExpr -> VCExpr -> VCExpr;
  vc_bvOrExpr : VCExpr -> VCExpr -> VCExpr;
  vc_bvXorExpr : VCExpr -> VCExpr -> VCExpr;
  vc_bvLtExpr : VCExpr -> VCExpr -> VCExpr;
  vc_bvLeExpr : VCExpr -> VCExpr -> VCExpr;
  vc_sbvLtExpr : VCExpr -> VCExpr -> VCExpr;
  vc_sbvLeExpr : VCExpr -> VCExpr -> VCExpr;
  vc_writeExpr : VCExpr -> VCExpr -> VCExpr -> VCExpr;
  vc_readExpr : VCExpr -> VCExpr -> VCExpr;
  getActiveBits : Z -> Z
}.

(** ** Bit vectors *)

Section BitVectors.
Context {VC : STP} {WS : WideShifts}.

Definition buildVar (name : string) (width : Z) : VCExpr := vc_varExpr name (if width =? 1 then vc_boolType else vc_bvType width).

Definition buildArray (name : string) (indexWidth valueWidth : Z) : VCExpr :=
  vc_varExpr name (vc_arrayType (vc_bvType indexWidth) (vc_bvType valueWidth)).

Definition getTrue : VCExpr := vc_trueExpr.
Definition getFalse : VCExpr := vc_falseExpr.

Definition bvConst32 (width value : Z) : VCExpr := vc_bvConstExprFromInt width value.
Definition bvConst64 (width value : Z) : VCExpr := vc_bvConstExprFromLL width value.

(** The loop concatenates as many zero words as fit before the last. *)
Definition bvZExtConst (width value : Z) : VCExpr :=
  if width <=? 64 then bvConst64 width value
  else
    let expr := bvConst64 64 value in
    let zero := bvConst64 64 0 in
    let rounds := (width - 65) / 64 in
    vc_bvConcatExpr (bvConst64 (width - 64 - 64 * rounds) 0) (Nat.iter (Z.to_nat rounds) (vc_bvConcatExpr zero) expr).

Definition bvSExtConst (width value : Z) : VCExpr :=
  if width <=? 64 then bvConst64 width value else vc_bvSignExtend (bvConst64 64 value) width.

Definition bvOne (width : Z) : VCExpr := bvZExtConst width 1.
Definition bvZero (width : Z) : VCExpr := bvZExtConst width 0.
Definition bvMinusOne (width : Z) : VCExpr := bvSExtConst width (2 ^ 64 - 1).

Definition bvExtract (expr : VCExpr) (top bottom : Z) : VCExpr := vc_bvExtract expr top bottom.
Definition bvBoolExtract (expr : VCExpr) (bit : Z) : VCExpr := vc_eqExpr (bvExtract expr bit bit) (bvOne 1).

Definition eqExpr (a b : VCExpr) : outcome VCExpr := Assert vc_getBVLength a =? vc_getBVLength b ;; Done (vc_eqExpr a b).

Definition bvRightShift (expr : VCExpr) (shift : Z) : VCExpr :=
  let width := vc_getBVLength expr in
  if shift =? 0 then expr
  else if width <=? shift then bvZero width
  else vc_bvConcatExpr (bvZero shift) (bvExtract expr (width - 1) shift).

Definition bvLeftShift (expr : VCExpr) (shift : Z) : VCExpr :=
  let width := vc_getBVLength expr in
  if shift =? 0 then expr
  else if width <=? shift then bvZero width
  else vc_bvConcatExpr (bvExtract expr (width - shift - 1) 0) (bvZero shift).

(** The low bits of the amount, and how many. *)
Definition extractPartialShiftValue (shift : VCExpr) (width : Z) : VCExpr * Z :=
  let shiftBits := getActiveBits width in (vc_bvExtract shift (shiftBits - 1) 0, shiftBits).

(** The conditional with a case for each of the amounts below [n]. *)
Fixpoint shift_cases (shift_ext : VCExpr) (shiftBits : Z) (by_constant : Z -> VCExpr) (n : nat) (res : VCExpr) : outcome VCExpr :=
  match n with
  | O => Done res
  | S i =>
      c ← eqExpr shift_ext (bvConst32 shiftBits (Z.of_nat i));
      shift_cases shift_ext shiftBits by_constant i (vc_iteExpr c (by_constant (Z.of_nat i)) res)
  end.

(** An amount that is not below the width gives zero. *)
Definition unless_overshift (shift : VCExpr) (width : Z) (res : VCExpr) : VCExpr :=
  let ex := vc_bvLtExpr shift (bvConst32 (vc_getBVLength shift) width) in vc_iteExpr ex res (bvZero width).

Definition bvVarLeftShift (expr shift : VCExpr) : outcome VCExpr :=
  let width := vc_getBVLength expr in
  let '(shift_ext, shiftBits) := extractPartialShiftValue shift width in
  res ← shift_cases shift_ext shiftBits (bvLeftShift expr) (Z.to_nat width) (bvZero width);
  Done (unless_overshift shift width res).

Definition bvVarRightShift (expr shift : VCExpr) : outcome VCExpr :=
  let width := vc_getBVLength expr in
  let '(shift_ext, shiftBits) := extractPartialShiftValue shift width in
  res ← shift_cases shift_ext shiftBits (bvRightShift expr) (Z.to_nat width) (bvZero width);
  Done (unless_overshift shift width res).

Definition constructAShrByConstant (expr : VCExpr) (shift : Z) (isSigned : VCExpr) : VCExpr :=
  let width := vc_getBVLength expr in
  if shift =? 0 then expr
  else if width <=? shift then bvZero width
  else vc_iteExpr isSigned (vc_bvConcatExpr (bvMinusOne shift) (bvExtract expr (width - 1) shift)) (bvRightShift expr shift).

Definition bvVarArithRightShift (expr shift : VCExpr) : outcome VCExpr :=
  let width := vc_getBVLength expr in
  let '(shift_ext, shiftBits) := extractPartialShiftValue shift width in
  let signedBool := bvBoolExtract expr (width - 1) in
  let res := constructAShrByConstant expr (width - 1) signedBool in
  res ← shift_cases shift_ext shiftBits (fun i => constructAShrByConstant expr i signedBool) (Z.to_nat (width - 1)) res;
  Done (unless_overshift shift width res).

(** ** Products and quotients by constants *)

(** The bits below [n] of the two numbers, the highest first. *)
Fixpoint mul_terms (expr : VCExpr) (width add sub : Z) (n : nat) (res : option VCExpr) : outcome (option VCExpr) :=
  match n with
  | O => Done res
  | S j =>
      let in_add := Z.testbit add (Z.of_nat j) in
      let in_sub := Z.testbit sub (Z.of_nat j) in
      if in_add || in_sub then
        Assert negb (in_add && in_sub) ;;
        let op := bvLeftShift expr (Z.of_nat j) in
        mul_terms expr width add sub j (Some
          (if in_add then match res with Some res => vc_bvPlusExpr width res op | None => op end
           else match res with Some res => vc_bvMinusExpr width res op | None => vc_bvUMinusExpr op end))
      else mul_terms expr width add sub j res
  end.

Definition constructMulByConstant (expr : VCExpr) (width x : Z) : outcome VCExpr :=
  '(add, sub) ← ComputeMultConstants64 x;
  add ← bits64_truncateToNBits add width;
  sub ← bits64_truncateToNBits sub width;
  res ← mul_terms expr width add sub 64 None;
  Done (match res with Some res => res | None => bvZero width end).

Definition constructUDivByConstant (expr_n : VCExpr) (width d : Z) : outcome VCExpr :=
  Assert width =? 32 ;;
  '(mprime, sh1, sh2) ← ComputeUDivConstants32 (u32 d);
  let expr_sh1 := bvConst32 32 sh1 in
  let expr_sh2 := bvConst32 32 sh2 in
  let expr_n_64 := vc_bvConcatExpr (bvZero 32) expr_n in
  t1_64bits ← constructMulByConstant expr_n_64 64 mprime;
  let t1 := vc_bvExtract t1_64bits 63 32 in
  let n_minus_t1 := vc_bvMinusExpr width expr_n t1 in
  shift_sh1 ← bvVarRightShift n_minus_t1 expr_sh1;
  let plus_t1 := vc_bvPlusExpr width shift_sh1 t1 in
  bvVarRightShift plus_t1 expr_sh2.

Definition constructSDivByConstant (expr_n : VCExpr) (width d : Z) : outcome VCExpr :=
  Assert width =? 32 ;;
  '(mprime, dsign, shpost) ← ComputeSDivConstants32 (signed 32 d);
  let expr_dsign := bvConst32 32 (u32 dsign) in
  let expr_shpost := bvConst32 32 (u32 shpost) in
  let mprime_64 := mprime in
  let expr_n_64 := vc_bvSignExtend expr_n 64 in
  mult_64 ← constructMulByConstant expr_n_64 64 (u64 mprime_64);
  let mulsh := vc_bvExtract mult_64 63 32 in
  let n_plus_mulsh := vc_bvPlusExpr width expr_n mulsh in
  let extend_npm := vc_bvSignExtend n_plus_mulsh 64 in
  shift_npm ← bvVarRightShift extend_npm expr_shpost;
  let shift_shpost := vc_bvExtract shift_npm 31 0 in
  let is_signed := bvBoolExtract expr_n 31 in
  let neg_one := bvMinusOne 32 in
  let xsign_of_n := vc_iteExpr is_signed neg_one (bvZero 32) in
  let q0 := vc_bvMinusExpr width shift_shpost xsign_of_n in
  let q0_xor_dsign := vc_bvXorExpr q0 expr_dsign in
  Done (vc_bvMinusExpr width q0_xor_dsign expr_dsign).

End BitVectors.

(** ** The builder *)

(** The memory of one construction, and what is kept of arrays and updates.  A pointer
    to an update node stands for the updates of one array; nodes with the same updates
    are one node. *)
Record STPBuilder {VC : STP} : Type := MkBuilder {
  constructed : list (Expr * (VCExpr * Z));
  array_hash : gmap positive VCExpr;
  update_node_hash : list ((positive * UpdateNode) * VCExpr)
}.
Arguments STPBuilder VC : clear implicits.

Section Builder.
Context {VC : STP} {WS : WideShifts} {AP : APIntOps} {AH : ArrayHeap}.
Context (UseConstructHash optimizeDivides : bool).

Definition BM (A : Type) : Type := STPBuilder VC -> outcome (A * STPBuilder VC).

#[local] Instance BM_ret : MRet BM := fun A a b => Done (a, b).
#[local] Instance BM_bind : MBind BM := fun A B f m b => '(a, b') ← m b; f a b'.

Definition of_outcome {A} (o : outcome A) : BM A := fun b => a ← o; Done (a, b).

Definition assoc {K V} (same : K -> bool) (l : list (K * V)) : option V := snd <$> List.find (fun x => same x.1) l.

(** [ArrayExprHash] and the table of expressions. *)
Definition lookupArrayExpr (root : positive) : BM (option VCExpr) := fun b => Done (array_hash b !! root, b).
Definition hashArrayExpr (root : positive) (v : VCExpr) : BM () :=
  fun b => Done (tt, MkBuilder _ (constructed b) (<[root := v]> (array_hash b)) (update_node_hash b)).

Definition same_updates (k l : positive * UpdateNode) : bool :=
  expr_eqb (ReadExpr k.1 k.2 (ConstantExpr (MkAPInt 1 0))) (ReadExpr l.1 l.2 (ConstantExpr (MkAPInt 1 0))).

Definition lookupUpdateNodeExpr (root : positive) (un : UpdateNode) : BM (option VCExpr) :=
  fun b => Done (assoc (same_updates (root, un)) (update_node_hash b), b).
Definition hashUpdateNodeExpr (root : positive) (un : UpdateNode) (v : VCExpr) : BM () :=
  fun b => Done (tt, MkBuilder _ (constructed b) (array_hash b) (((root, un), v) :: update_node_hash b)).

Definition find_constructed (e : Expr) : BM (option (VCExpr * Z)) :=
  fun b => Done (assoc (expr_eqb e) (constructed b), b).
Definition insert_constructed (e : Expr) (r : VCExpr * Z) : BM () :=
  fun b => Done (tt, MkBuilder _ ((e, r) :: constructed b) (array_hash b) (update_node_hash b)).

Definition clear_constructed : BM () := fun b => Done (tt, MkBuilder _ [] (array_hash b) (update_node_hash b)).

(** The words of a constant above the first 64 bits. *)
Fixpoint constant_words (n : nat) (Tmp : APInt) (Res : VCExpr) : outcome VCExpr :=
  if 64 <? getBitWidth Tmp then
    match n with
    | O => OutOfFuel
    | S n =>
        let Tmp := ConstantExpr_Extract Tmp 64 (getBitWidth Tmp - 64) in
        let Width := Z.min 64 (getBitWidth Tmp) in
        v ← ConstantExpr_getZExtValue (ConstantExpr_Extract Tmp 0 Width) 64;
        constant_words n Tmp (vc_bvConcatExpr (bvConst64 Width v) Res)
    end
  else Done Res.

Definition constructConstant (CE : APInt) : outcome (VCExpr * Z) :=
  let width := getBitWidth CE in
  v ← (if width =? 1 then Done (if ConstantExpr_isTrue CE then getTrue else getFalse)
       else if width <=? 32 then v ← ConstantExpr_getZExtValue CE 32; Done (bvConst32 width v)
       else if width <=? 64 then v ← ConstantExpr_getZExtValue CE 64; Done (bvConst64 width v)
       else
         v ← ConstantExpr_getZExtValue (ConstantExpr_Extract CE 0 64) 64;
         constant_words (Z.to_nat width) CE (bvConst64 64 v));
  Done (v, width).

(** The values of a constant array are written one by one. *)
Fixpoint write_constants (a : Array) (n : nat) (i : Z) (array_expr : VCExpr) : outcome VCExpr :=
  match n with
  | O => Done array_expr
  | S n =>
      '(ix, _) ← constructConstant (ConstantExpr_alloc i (arr_domain a));
      v ← deref (constantValues a !! Z.to_nat i);
      '(v, _) ← constructConstant v;
      write_constants a n (i + 1) (vc_writeExpr array_expr ix v)
  end.

Definition number_of_arrays : BM string := fun b => Done (pretty (Z.of_nat (size (array_hash b))), b).

Definition getInitialArray (root : positive) : BM VCExpr :=
  hashed ← lookupArrayExpr root;
  match hashed with
  | Some array_expr => mret array_expr
  | None =>
      unique_id ← number_of_arrays;
      let a := array_at root in
      let array_expr := buildArray (arr_name a +:+ unique_id) (arr_domain a) (arr_range a) in
      array_expr ← (if isConstantArray a then of_outcome (write_constants a (Z.to_nat (arr_size a)) 0 array_expr) else mret array_expr);
      _ ← hashArrayExpr root array_expr;
      mret array_expr
  end.

Definition getInitialRead (root : positive) (index : Z) : BM VCExpr :=
  a ← getInitialArray root; mret (vc_readExpr a (bvConst32 32 index)).

(** ** Expressions *)

Definition width_is (b : bool) : BM () := of_outcome (if b then Done tt else AssertFail).

(** The division by a constant, where it has a special case. *)
Definition udiv_special (left : VCExpr) (width : Z) (right : Expr) : outcome (option VCExpr) :=
  match right with
  | ConstantExpr CE =>
      if getBitWidth CE <=? 64 then
        divisor ← ConstantExpr_getZExtValue CE 64;
        if bits64_isPowerOfTwo divisor then bits ← bits64_indexOfSingleBit divisor; Done (Some (bvRightShift left bits))
        else if optimizeDivides && (width =? 32) then v ← constructUDivByConstant left width (u32 divisor); Done (Some v)
        else Done None
      else Done None
  | _ => Done None
  end.

Definition sdiv_special (left : VCExpr) (width : Z) (right : Expr) : outcome (option VCExpr) :=
  match right with
  | ConstantExpr CE =>
      if optimizeDivides && negb (uval CE =? 1) && negb (uval CE =? 2 ^ getBitWidth CE - 1) && (width =? 32)
      then divisor ← ConstantExpr_getZExtValue CE 32; v ← constructSDivByConstant left width divisor; Done (Some v)
      else Done None
  | _ => Done None
  end.

Definition urem_special (left : VCExpr) (width : Z) (right : Expr) : outcome (option VCExpr) :=
  match right with
  | ConstantExpr CE =>
      if getBitWidth CE <=? 64 then
        divisor ← ConstantExpr_getZExtValue CE 64;
        if bits64_isPowerOfTwo divisor then
          bits ← bits64_indexOfSingleBit divisor;
          Done (Some (if bits =? 0 then bvZero width else vc_bvConcatExpr (bvZero (width - bits)) (bvExtract left (bits - 1) 0)))
        else if optimizeDivides && (width =? 32) then
          quotient ← constructUDivByConstant left width (u32 divisor);
          quot_times_divisor ← constructMulByConstant quotient width divisor;
          Done (Some (vc_bvMinusExpr width left quot_times_divisor))
        else Done None
      else Done None
  | _ => Done None
  end.

(** The amount of a shift by a constant. *)
Definition constant_amount (e : Expr) : option Z :=
  match e with ConstantExpr CE => Some (u32 (ap_getLimitedValue CE (2 ^ 64 - 1))) | _ => None end.

Definition constructBinary (construct : Expr -> BM (VCExpr * Z)) (k : BinaryKind) (l r : Expr) : BM (VCExpr * Z) :=
  let arithmetic op :=
    '(lv, _) ← construct l; '(rv, width) ← construct r;
    _ ← width_is (negb (width =? 1)); mret (op width lv rv, width) in
  let bitwise op_bool op :=
    '(lv, _) ← construct l; '(rv, width) ← construct r;
    mret (if width =? 1 then op_bool lv rv else op lv rv, width) in
  let comparison op :=
    '(lv, _) ← construct l; '(rv, width) ← construct r;
    _ ← width_is (negb (width =? 1)); mret (op lv rv, 1) in
  let division special op :=
    '(lv, width) ← construct l;
    _ ← width_is (negb (width =? 1));
    fast ← of_outcome (special lv width r);
    match fast with
    | Some v => mret (v, width)
    | None => '(rv, width) ← construct r; mret (op width lv rv, width)
    end in
  let shift by_constant by_variable :=
    '(lv, width) ← construct l;
    _ ← width_is (negb (width =? 1));
    match constant_amount r with
    | Some amount => mret (by_constant width lv amount, width)
    | None => '(amount, _) ← construct r; v ← of_outcome (by_variable lv amount); mret (v, width)
    end in
  match k with
  | Add => arithmetic vc_bvPlusExpr
  | Sub => arithmetic vc_bvMinusExpr
  | Mul =>
      '(rv, width) ← construct r;
      _ ← width_is (negb (width =? 1));
      let general := '(lv, width) ← construct l; mret (vc_bvMultExpr width lv rv, width) in
      match l with
      | ConstantExpr CE =>
          if getBitWidth CE <=? 64 then
            x ← of_outcome (ConstantExpr_getZExtValue CE 64);
            v ← of_outcome (constructMulByConstant rv width x); mret (v, width)
          else general
      | _ => general
      end
  | UDiv => division udiv_special vc_bvDivExpr
  | SDiv => division sdiv_special vc_sbvDivExpr
  | URem => division urem_special vc_bvModExpr
  | SRem => arithmetic vc_sbvRemExpr
  | And => bitwise vc_andExpr vc_bvAndExpr
  | Or => bitwise vc_orExpr vc_bvOrExpr
  | Xor => bitwise (fun left right => vc_iteExpr left (vc_notExpr right) right) vc_bvXorExpr
  | Shl => shift (fun _ => bvLeftShift) bvVarLeftShift
  | LShr => shift (fun _ => bvRightShift) bvVarRightShift
  | AShr => shift (fun width left amount => constructAShrByConstant left amount (bvBoolExtract left (width - 1))) bvVarArithRightShift
  | EqK =>
      '(lv, _) ← construct l; '(rv, width) ← construct r;
      mret (if width =? 1 then
              match l with
              | ConstantExpr CE => if ConstantExpr_isTrue CE then rv else vc_notExpr rv
              | _ => vc_iffExpr lv rv
              end
            else vc_eqExpr lv rv, 1)
  | Ult => comparison vc_bvLtExpr
  | Ule => comparison vc_bvLeExpr
  | Slt => comparison vc_sbvLtExpr
  | Sle => comparison vc_sbvLeExpr
  | Ne | Ugt | Uge | Sgt | Sge => of_outcome AssertFail
  end.

Definition constructActual (construct : Expr -> BM (VCExpr * Z)) (getArrayForUpdate : positive -> UpdateNode -> BM VCExpr) (e : Expr) : BM (VCExpr * Z) :=
  match e with
  | ConstantExpr CE => of_outcome (constructConstant CE)
  | NotOptimizedExpr src => construct src
  | ReadExpr root head index =>
      a ← getArrayForUpdate root head;
      '(i, _) ← construct index;
      mret (vc_readExpr a i, arr_range (array_at root))
  | SelectExpr c t f =>
      '(cond, _) ← construct c; '(tExpr, _) ← construct t; '(fExpr, width) ← construct f;
      mret (vc_iteExpr cond tExpr fExpr, width)
  | ConcatExpr l r =>
      '(res, _) ← construct r; '(lv, _) ← construct l;
      mret (vc_bvConcatExpr lv res, getWidth l + getWidth r)
  | ExtractExpr src offset width =>
      '(v, _) ← construct src;
      mret (if width =? 1 then bvBoolExtract v offset else vc_bvExtract v (offset + width - 1) offset, width)
  | NotExpr src => '(v, width) ← construct src; mret (if width =? 1 then vc_notExpr v else vc_bvNotExpr v, width)
  | CastExpr ZExt src width =>
      '(v, srcWidth) ← construct src;
      mret (if srcWidth =? 1 then vc_iteExpr v (bvOne width) (bvZero width) else vc_bvConcatExpr (bvZero (width - srcWidth)) v, width)
  | CastExpr SExt src width =>
      '(v, srcWidth) ← construct src;
      mret (if srcWidth =? 1 then vc_iteExpr v (bvMinusOne width) (bvZero width) else vc_bvSignExtend v width, width)
  | BinaryExpr k l r => constructBinary construct k l r
  end.

Definition is_constant_expr (e : Expr) : bool := match e with ConstantExpr _ => true | _ => false end.

(** What was constructed before is found in the table. *)
Definition memoized (e : Expr) (actual : BM (VCExpr * Z)) : BM (VCExpr * Z) :=
  if negb UseConstructHash || is_constant_expr e then actual
  else
    found ← find_constructed e;
    match found with
    | Some r => mret r
    | None => r ← actual; _ ← insert_constructed e r; mret r
    end.

Fixpoint construct_in (e : Expr) : BM (VCExpr * Z) := memoized e (constructActual construct_in getArrayForUpdate e)
with getArrayForUpdate (root : positive) (un : UpdateNode) : BM VCExpr :=
  match un with
  | UNull => getInitialArray root
  | UNode next index value =>
      found ← lookupUpdateNodeExpr root un;
      match found with
      | Some un_expr => mret un_expr
      | None =>
          a ← getArrayForUpdate root next;
          '(i, _) ← construct_in index; '(v, _) ← construct_in value;
          let un_expr := vc_writeExpr a i v in
          _ ← hashUpdateNodeExpr root un un_expr;
          mret un_expr
      end
  end.

(** The public [construct]: the table is emptied. *)
Definition construct (e : Expr) : BM VCExpr :=
  '(res, _) ← construct_in e;
  _ ← clear_constructed;
  mret res.

End Builder.
