(* ===== verification/STPSound.v ===== *)
(** What STP promises of its expressions, and that the builder's bit vector functions
    have the values their names say.

    The builder translates expressions faithfully: what [construct] returns has the
    value of the expression. *)
From stdpp Require Import base numbers list strings gmap pretty.
From Stdlib Require Import ZArith Lia.
From S2P Require Import Prelude APInt Bits Expr Semantics ConstantOps ConstantDivision STPBuilder.
Local Open Scope Z_scope.

(** The meaning of an expression of STP under values of the array variables: a truth
    value, a bit vector of a width, or an array with the widths of its indices and
    values.  Division is total ([make_division_total]), but nothing is said of what a
    division by zero gives, nor of operands that do not fit. *)
Class STPLaws (VC : STP) : Type := {
  is_bool : (string -> Z -> Z) -> VCExpr -> bool -> Prop;
  is_bv : (string -> Z -> Z) -> VCExpr -> Z -> Z -> Prop;
  is_array : (string -> Z -> Z) -> VCExpr -> Z -> Z -> (Z -> Z) -> Prop;
  l_bool_unique σ v b b' : is_bool σ v b -> is_bool σ v b' -> b = b';
  l_range σ v w x : is_bv σ v w x -> 0 < w /\ 0 <= x < 2 ^ w;
  l_true σ : is_bool σ vc_trueExpr true;
  l_false σ : is_bool σ vc_falseExpr false;
  l_not σ a x : is_bool σ a x -> is_bool σ (vc_notExpr a) (negb x);
  l_and σ a b x y : is_bool σ a x -> is_bool σ b y -> is_bool σ (vc_andExpr a b) (x && y);
  l_or σ a b x y : is_bool σ a x -> is_bool σ b y -> is_bool σ (vc_orExpr a b) (x || y);
  l_iff σ a b x y : is_bool σ a x -> is_bool σ b y -> is_bool σ (vc_iffExpr a b) (eqb x y);
  l_ite_bool σ c t f b x y : is_bool σ c b -> is_bool σ t x -> is_bool σ f y -> is_bool σ (vc_iteExpr c t f) (if b then x else y);
  l_ite σ c t f b w x y : is_bool σ c b -> is_bv σ t w x -> is_bv σ f w y -> is_bv σ (vc_iteExpr c t f) w (if b then x else y);
  l_eq σ a b w x y : is_bv σ a w x -> is_bv σ b w y -> is_bool σ (vc_eqExpr a b) (x =? y);
  l_int σ w v : 0 < w -> 0 <= v < 2 ^ 32 -> v < 2 ^ w -> is_bv σ (vc_bvConstExprFromInt w v) w v;
  l_ll σ w v : 0 < w <= 64 -> 0 <= v < 2 ^ 64 -> is_bv σ (vc_bvConstExprFromLL w v) w (v mod 2 ^ w);
  l_length σ v w x : is_bv σ v w x -> vc_getBVLength v = w;
  l_extract σ v w x top bottom : is_bv σ v w x -> 0 <= bottom <= top -> top < w ->
    is_bv σ (vc_bvExtract v top bottom) (top - bottom + 1) (x / 2 ^ bottom mod 2 ^ (top - bottom + 1));
  l_concat σ a b w x w' y : is_bv σ a w x -> is_bv σ b w' y -> is_bv σ (vc_bvConcatExpr a b) (w + w') (x * 2 ^ w' + y);
  l_sext σ v w x n : is_bv σ v w x -> w <= n -> is_bv σ (vc_bvSignExtend v n) n (to_signed w x mod 2 ^ n);
  l_plus σ a b w x y : is_bv σ a w x -> is_bv σ b w y -> is_bv σ (vc_bvPlusExpr w a b) w ((x + y) mod 2 ^ w);
  l_minus σ a b w x y : is_bv σ a w x -> is_bv σ b w y -> is_bv σ (vc_bvMinusExpr w a b) w ((x - y) mod 2 ^ w);
  l_mult σ a b w x y : is_bv σ a w x -> is_bv σ b w y -> is_bv σ (vc_bvMultExpr w a b) w ((x * y) mod 2 ^ w);
  l_div σ a b w x y : is_bv σ a w x -> is_bv σ b w y -> exists z, is_bv σ (vc_bvDivExpr w a b) w z /\ (y <> 0 -> z = x / y);
  l_mod σ a b w x y : is_bv σ a w x -> is_bv σ b w y -> exists z, is_bv σ (vc_bvModExpr w a b) w z /\ (y <> 0 -> z = x mod y);
  l_sdiv σ a b w x y : is_bv σ a w x -> is_bv σ b w y ->
    exists z, is_bv σ (vc_sbvDivExpr w a b) w z /\ (y <> 0 -> z = Z.quot (to_signed w x) (to_signed w y) mod 2 ^ w);
  l_srem σ a b w x y : is_bv σ a w x -> is_bv σ b w y ->
    exists z, is_bv σ (vc_sbvRemExpr w a b) w z /\ (y <> 0 -> z = Z.rem (to_signed w x) (to_signed w y) mod 2 ^ w);
  l_uminus σ a w x : is_bv σ a w x -> is_bv σ (vc_bvUMinusExpr a) w ((- x) mod 2 ^ w);
  l_bvnot σ a w x : is_bv σ a w x -> is_bv σ (vc_bvNotExpr a) w (Z.lnot x mod 2 ^ w);
  l_bvand σ a b w x y : is_bv σ a w x -> is_bv σ b w y -> is_bv σ (vc_bvAndExpr a b) w (Z.land x y);
  l_bvor σ a b w x y : is_bv σ a w x -> is_bv σ b w y -> is_bv σ (vc_bvOrExpr a b) w (Z.lor x y);
  l_bvxor σ a b w x y : is_bv σ a w x -> is_bv σ b w y -> is_bv σ (vc_bvXorExpr a b) w (Z.lxor x y);
  l_lt σ a b w x y : is_bv σ a w x -> is_bv σ b w y -> is_bool σ (vc_bvLtExpr a b) (x <? y);
  l_le σ a b w x y : is_bv σ a w x -> is_bv σ b w y -> is_bool σ (vc_bvLeExpr a b) (x <=? y);
  l_slt σ a b w x y : is_bv σ a w x -> is_bv σ b w y -> is_bool σ (vc_sbvLtExpr a b) (to_signed w x <? to_signed w y);
  l_sle σ a b w x y : is_bv σ a w x -> is_bv σ b w y -> is_bool σ (vc_sbvLeExpr a b) (to_signed w x <=? to_signed w y);
  l_array σ name d r : 0 < d -> 0 < r ->
    is_array σ (vc_varExpr name (vc_arrayType (vc_bvType d) (vc_bvType r))) d r (fun i => σ name i mod 2 ^ r);
  l_write σ a i v d r f x y : is_array σ a d r f -> is_bv σ i d x -> is_bv σ v r y ->
    is_array σ (vc_writeExpr a i v) d r (fun j => if x =? j then y else f j);
  l_read σ a i d r f x : is_array σ a d r f -> is_bv σ i d x -> is_bv σ (vc_readExpr a i) r (f x);
  l_active w : 0 < w < 2 ^ 32 -> getActiveBits w = Z.log2 w + 1
}.

Create HintDb stp.
#[export] Hint Resolve l_true l_false l_not l_and l_or l_iff l_eq l_concat l_plus l_minus l_mult l_uminus l_bvnot l_bvand l_bvor l_bvxor
  l_lt l_le l_slt l_sle l_ite l_ite_bool l_read l_write : stp.

Section Sound.
Context {VC : STP} {VL : STPLaws VC} {WS : WideShifts}.
Context (σ : string -> Z -> Z).

Abbreviation bv := (is_bv σ).

Lemma bv_eq v w x w' x' : bv v w x -> w = w' -> x = x' -> bv v w' x'.
Proof. by intros ? <- <-. Qed.

(** ** Constants *)

Lemma bvConst32_ok w v : 0 < w -> 0 <= v < 2 ^ 32 -> v < 2 ^ w -> bv (bvConst32 w v) w v.
Proof. apply l_int. Qed.

Lemma bvConst64_ok w v : 0 < w <= 64 -> 0 <= v < 2 ^ 64 -> v < 2 ^ w -> bv (bvConst64 w v) w v.
Proof. intros Hw Hv Hlt. eapply bv_eq; [by apply l_ll|done|]. apply Z.mod_small. lia. Qed.

Lemma zero_words n v : 0 <= v < 2 ^ 64 -> bv (Nat.iter n (vc_bvConcatExpr (bvConst64 64 0)) (bvConst64 64 v)) (64 * (Z.of_nat n + 1)) v.
Proof.
  intros Hv. induction n as [|n IH]; [apply bvConst64_ok; lia|]. cbn [Nat.iter]. eapply bv_eq; [eapply l_concat; [apply bvConst64_ok; lia|exact IH]|lia|lia].
Qed.

Lemma bvZExtConst_ok w v : 0 < w -> 0 <= v < 2 ^ 64 -> v < 2 ^ w -> bv (bvZExtConst w v) w v.
Proof.
  intros Hw Hv Hlt. unfold bvZExtConst. destruct (Z.leb_spec w 64); [apply bvConst64_ok; lia|].
  pose proof (Z.div_mod (w - 65) 64 ltac:(lia)). pose proof (Z.mod_pos_bound (w - 65) 64 ltac:(lia)).
  eapply bv_eq; [eapply l_concat; [apply (bvConst64_ok _ 0); [lia|lia|apply pow2_pos; lia]|by apply zero_words]|lia|lia].
Qed.

Lemma bvZero_ok w : 0 < w -> bv (bvZero w) w 0.
Proof. intros. apply bvZExtConst_ok; [lia|lia|apply pow2_pos; lia]. Qed.

Lemma bvOne_ok w : 0 < w -> bv (bvOne w) w 1.
Proof. intros. apply bvZExtConst_ok; [lia|lia|]. pose proof (pow2_ge2 w). lia. Qed.

Lemma bvMinusOne_ok w : 0 < w -> bv (bvMinusOne w) w (2 ^ w - 1).
Proof.
  intros Hw. unfold bvMinusOne, bvSExtConst, bvConst64. pose proof (pow2_pos w ltac:(lia)). destruct (Z.leb_spec w 64).
  - eapply bv_eq; [apply l_ll; lia|done|]. pose proof (pow2_pos (64 - w) ltac:(lia)). symmetry. apply (Z.mod_unique _ _ (2 ^ (64 - w) - 1)); [lia|].
    replace (2 ^ 64) with (2 ^ w * 2 ^ (64 - w)) by (rewrite <- Z.pow_add_r by lia; f_equal; lia). ring.
  - eapply bv_eq; [eapply l_sext; [apply l_ll; lia|lia]|done|]. change (to_signed 64 ((2 ^ 64 - 1) mod 2 ^ 64)) with (-1). symmetry. apply (Z.mod_unique _ _ (-1)); lia.
Qed.

(** ** Bits and shifts *)

Lemma bvBoolExtract_ok v w x i : bv v w x -> 0 <= i < w -> is_bool σ (bvBoolExtract v i) (Z.testbit x i).
Proof.
  intros Hv Hi. unfold bvBoolExtract, bvExtract. assert (is_bv σ (vc_bvExtract v i i) 1 (x / 2 ^ i mod 2)) as He.
  { eapply bv_eq; [eapply l_extract; [exact Hv|lia|lia]|lia|]. by replace (i - i + 1) with 1 by lia. }
  replace (Z.testbit x i) with (x / 2 ^ i mod 2 =? 1); [eapply l_eq; [exact He|by apply bvOne_ok]|].
  rewrite <- Z.shiftr_div_pow2 by lia. rewrite <- (Z.add_0_l i) at 2. rewrite <- Z.shiftr_spec by lia. rewrite <- Z.bit0_mod. by destruct (Z.testbit _ 0).
Qed.

Lemma bvRightShift_ok v w x s : bv v w x -> 0 <= s -> bv (bvRightShift v s) w (Z.shiftr x s).
Proof.
  intros Hv Hs. pose proof (l_range _ _ _ _ Hv) as [Hw Hx]. unfold bvRightShift. rewrite (l_length _ _ _ _ Hv), Z.shiftr_div_pow2 by lia.
  destruct (Z.eqb_spec s 0) as [-> |Hne]; [by rewrite Z.div_1_r|]. destruct (Z.leb_spec w s).
  - pose proof (pow2_mono w s ltac:(lia)). rewrite Z.div_small by lia. by apply bvZero_ok.
  - eapply bv_eq; [eapply l_concat; [apply bvZero_ok; lia|eapply l_extract; [exact Hv|lia|lia]]|lia|].
    rewrite Z.mul_0_l, Z.add_0_l. replace (w - 1 - s + 1) with (w - s) by lia. apply Z.mod_small. split; [apply Z.div_pos; [lia|apply pow2_pos; lia]|].
    apply Z.div_lt_upper_bound; [apply pow2_pos; lia|]. rewrite <- Z.pow_add_r by lia. replace (s + (w - s)) with w by lia. lia.
Qed.

Lemma bvLeftShift_ok v w x s : bv v w x -> 0 <= s -> bv (bvLeftShift v s) w (Z.shiftl x s mod 2 ^ w).
Proof.
  intros Hv Hs. pose proof (l_range _ _ _ _ Hv) as [Hw Hx]. unfold bvLeftShift. rewrite (l_length _ _ _ _ Hv), Z.shiftl_mul_pow2 by lia.
  destruct (Z.eqb_spec s 0) as [-> |Hne]; [rewrite Z.mul_1_r, Z.mod_small by lia; done|]. destruct (Z.leb_spec w s).
  - replace (x * 2 ^ s) with (x * 2 ^ (s - w) * 2 ^ w) by (rewrite <- Z.mul_assoc, <- Z.pow_add_r by lia; do 2 f_equal; lia). rewrite Z_mod_mult. by apply bvZero_ok.
  - eapply bv_eq; [eapply l_concat; [eapply l_extract; [exact Hv|lia|lia]|apply bvZero_ok; lia]|lia|].
    rewrite Z.pow_0_r, Z.div_1_r, Z.add_0_r. replace (w - s - 1 - 0 + 1) with (w - s) by lia. replace (2 ^ w) with (2 ^ (w - s) * 2 ^ s) by (rewrite <- Z.pow_add_r by lia; f_equal; lia).
    pose proof (pow2_pos s Hs). pose proof (pow2_pos (w - s) ltac:(lia)). by rewrite Z.mul_mod_distr_r by lia.
Qed.

(** The arithmetic shift, zero when the amount is not below the width. *)
Definition ashr_value (w x s : Z) : Z := if s <? w then Z.shiftr (to_signed w x) s mod 2 ^ w else 0.

Lemma constructAShrByConstant_ok v w x s sg : bv v w x -> 0 <= s -> is_bool σ sg (Z.testbit x (w - 1)) -> bv (constructAShrByConstant v s sg) w (ashr_value w x s).
Proof.
  intros Hv Hs Hsg. pose proof (l_range _ _ _ _ Hv) as [Hw Hx]. unfold constructAShrByConstant, ashr_value. rewrite (l_length _ _ _ _ Hv).
  pose proof (pow2_half w Hw) as Hhalf. pose proof (pow2_pos (w - 1) ltac:(lia)).
  assert (Z.testbit x (w - 1) = negb (x <? 2 ^ (w - 1))) as Hbit.
  { destruct (Z.ltb_spec x (2 ^ (w - 1))); cbn [negb].
    - destruct (Z.eq_dec x 0) as [-> |]; [apply Z.bits_0|]. apply Z.bits_above_log2; [lia|]. apply Z.log2_lt_pow2; lia.
    - replace (w - 1) with (Z.log2 x); [apply Z.bit_log2; lia|]. apply Z.log2_unique; [lia|]. replace (Z.succ (w - 1)) with w by lia. lia. }
  destruct (Z.eqb_spec s 0) as [-> |Hne].
  { rewrite (proj2 (Z.ltb_lt 0 w)), Z.shiftr_0_r by lia. rewrite to_signed_mod, Z.mod_small by lia. done. }
  destruct (Z.leb_spec w s); [rewrite (proj2 (Z.ltb_ge s w)) by lia; by apply bvZero_ok|]. rewrite (proj2 (Z.ltb_lt s w)) by lia.
  eapply bv_eq; [eapply l_ite; [exact Hsg| |by apply bvRightShift_ok]|done|].
  { eapply bv_eq; [eapply l_concat; [apply bvMinusOne_ok; lia|eapply l_extract; [exact Hv|lia|lia]]|lia|reflexivity]. }
  rewrite Hbit. unfold to_signed. destruct (Z.ltb_spec x (2 ^ (w - 1))); cbn [negb].
  - rewrite Z.mod_small; [done|]. rewrite Z.shiftr_div_pow2 by lia. split; [apply Z.div_pos; [lia|apply pow2_pos; lia]|]. apply Z.le_lt_trans with x; [|lia].
    pose proof (pow2_pos s Hs). apply Z.div_le_upper_bound; nia.
  - replace (w - 1 - s + 1) with (w - s) by lia. rewrite Z.shiftr_div_pow2 by lia. pose proof (pow2_pos s Hs). pose proof (pow2_pos (w - s) ltac:(lia)).
    assert (2 ^ w = 2 ^ (w - s) * 2 ^ s) as E by (rewrite <- Z.pow_add_r by lia; f_equal; lia). replace (x - 2 ^ w) with (x + (- 2 ^ (w - s)) * 2 ^ s) by lia. rewrite Z.div_add by lia.
    rewrite (Z.mod_small (x / 2 ^ s)) by (split; [apply Z.div_pos; lia|apply Z.div_lt_upper_bound; lia]).
    apply (Z.mod_unique _ _ (-1)); [left|lia]. assert (0 <= x / 2 ^ s < 2 ^ (w - s)) by (split; [apply Z.div_pos; lia|apply Z.div_lt_upper_bound; lia]). nia.
Qed.

Lemma eqExpr_ok a b w x y : bv a w x -> bv b w y -> exists c, eqExpr a b = Done c /\ is_bool σ c (x =? y).
Proof. intros Ha Hb. unfold eqExpr. rewrite (l_length _ _ _ _ Ha), (l_length _ _ _ _ Hb), Z.eqb_refl. eexists. split; [done|]. eauto with stp. Qed.

Lemma shift_cases_ok sh sb y bc g w n : forall res z, bv sh sb y -> (forall i, 0 <= i < Z.of_nat n -> bv (bc i) w (g i)) -> bv res w z -> Z.of_nat n <= 2 ^ sb -> Z.of_nat n <= 2 ^ 32 ->
  exists v, shift_cases sh sb bc n res = Done v /\ bv v w (if y <? Z.of_nat n then g y else z).
Proof.
  induction n as [|n IH]; intros res z Hsh Hbc Hres Hn Hn'; cbn [shift_cases].
  - pose proof (l_range _ _ _ _ Hsh). exists res. split; [done|]. by rewrite (proj2 (Z.ltb_ge y _)) by lia.
  - pose proof (l_range _ _ _ _ Hsh). destruct (eqExpr_ok sh (bvConst32 sb (Z.of_nat n)) sb y (Z.of_nat n) Hsh) as (c & -> & Hc); [apply bvConst32_ok; lia|]. cbn [mbind outcome_bind].
    destruct (IH (vc_iteExpr c (bc (Z.of_nat n)) res) (if y =? Z.of_nat n then g (Z.of_nat n) else z)) as (v & -> & Hv); [done|intros i Hi; apply Hbc; lia| |lia|lia|].
    { eapply l_ite; [done|apply Hbc; lia|done]. }
    exists v. split; [done|]. eapply bv_eq; [exact Hv|done|]. destruct (Z.ltb_spec y (Z.of_nat n)), (Z.ltb_spec y (Z.of_nat (S n))), (Z.eqb_spec y (Z.of_nat n)); try lia; by subst.
Qed.

(** ** Shifts by a variable amount *)

(** The amount is wide enough to be compared with the width. *)
Definition wide_amount (w ws : Z) : Prop := Z.log2 w + 1 <= ws.

Lemma unless_overshift_ok sh ws y w v x : bv sh ws y -> bv v w x -> wide_amount w ws -> w < 2 ^ 32 -> bv (unless_overshift sh w v) w (if y <? w then x else 0).
Proof.
  intros Hsh Hv Hwide Hw32. pose proof (l_range _ _ _ _ Hv) as [Hw Hx]. pose proof (l_range _ _ _ _ Hsh) as [Hws Hy]. unfold unless_overshift. rewrite (l_length _ _ _ _ Hsh).
  eapply l_ite; [eapply l_lt; [exact Hsh|apply bvConst32_ok; [lia|lia|]]|exact Hv|by apply bvZero_ok].
  pose proof (Z.log2_spec w Hw) as [_ H]. pose proof (Z.log2_nonneg w). pose proof (pow2_mono (Z.succ (Z.log2 w)) ws ltac:(unfold wide_amount in *; lia)). lia.
Qed.

Lemma extractPartialShiftValue_ok sh ws y w : bv sh ws y -> wide_amount w ws -> 0 < w < 2 ^ 32 ->
  exists v, extractPartialShiftValue sh w = (v, Z.log2 w + 1) /\ bv v (Z.log2 w + 1) (y mod 2 ^ (Z.log2 w + 1)) /\ w < 2 ^ (Z.log2 w + 1).
Proof.
  intros Hsh Hwide Hw. pose proof (Z.log2_nonneg w). unfold extractPartialShiftValue. rewrite l_active by lia. eexists. split; [done|]. split.
  - eapply bv_eq; [eapply l_extract; [exact Hsh|lia|unfold wide_amount in *; lia]|lia|]. rewrite Z.pow_0_r, Z.div_1_r. do 2 f_equal. lia.
  - apply (Z.log2_spec w). lia.
Qed.

(** The three functions: a conditional over the results [g] of the constant amounts. *)
Lemma variable_shift_ok sh ws y w bc g n res z : bv sh ws y -> wide_amount w ws -> 0 < w < 2 ^ 32 -> Z.of_nat n <= w ->
  (forall i, 0 <= i < Z.of_nat n -> bv (bc i) w (g i)) -> bv res w z -> (forall i, Z.of_nat n <= i < w -> g i = z) ->
  exists v, (let '(shift_ext, shiftBits) := extractPartialShiftValue sh w in res ← shift_cases shift_ext shiftBits bc n res; Done (unless_overshift sh w res)) = Done v /\
    bv v w (if y <? w then g y else 0).
Proof.
  intros Hsh Hwide Hw Hn Hbc Hres Hg. pose proof (l_range _ _ _ _ Hsh) as [Hws Hy]. destruct (extractPartialShiftValue_ok sh ws y w Hsh Hwide Hw) as (se & -> & Hse & Hlt).
  destruct (shift_cases_ok se _ _ bc g w n res z Hse Hbc Hres) as (v & -> & Hv); [lia|lia|]. cbn [mbind outcome_bind]. eexists. split; [done|].
  eapply bv_eq; [eapply unless_overshift_ok; [exact Hsh|exact Hv|done|lia]|done|]. cbv beta. destruct (Z.ltb_spec y w); [|done]. rewrite Z.mod_small by lia.
  destruct (Z.ltb_spec y (Z.of_nat n)); [done|]. symmetry. apply Hg. lia.
Qed.

Lemma bvVarLeftShift_ok v w x sh ws y : bv v w x -> bv sh ws y -> wide_amount w ws -> w < 2 ^ 32 ->
  exists r, bvVarLeftShift v sh = Done r /\ bv r w (if y <? w then Z.shiftl x y mod 2 ^ w else 0).
Proof.
  intros Hv Hsh Hwide Hw32. pose proof (l_range _ _ _ _ Hv) as [Hw Hx]. unfold bvVarLeftShift. rewrite (l_length _ _ _ _ Hv).
  apply (variable_shift_ok sh ws y w (bvLeftShift v) (fun y => Z.shiftl x y mod 2 ^ w) _ _ 0); try done; try lia; [intros i Hi; apply bvLeftShift_ok; [done|lia]|by apply bvZero_ok].
Qed.

Lemma bvVarRightShift_ok v w x sh ws y : bv v w x -> bv sh ws y -> wide_amount w ws -> w < 2 ^ 32 ->
  exists r, bvVarRightShift v sh = Done r /\ bv r w (Z.shiftr x y).
Proof.
  intros Hv Hsh Hwide Hw32. pose proof (l_range _ _ _ _ Hv) as [Hw Hx]. pose proof (l_range _ _ _ _ Hsh) as [Hws Hy]. unfold bvVarRightShift. rewrite (l_length _ _ _ _ Hv).
  destruct (variable_shift_ok sh ws y w (bvRightShift v) (Z.shiftr x) (Z.to_nat w) (bvZero w) 0) as (r & E & Hr); try done; try lia; [intros i Hi; apply bvRightShift_ok; [done|lia]|by apply bvZero_ok|].
  exists r. split; [exact E|]. eapply bv_eq; [exact Hr|done|]. destruct (Z.ltb_spec y w); [done|]. rewrite Z.shiftr_div_pow2 by lia. pose proof (pow2_mono w y ltac:(lia)). by rewrite Z.div_small by lia.
Qed.

Lemma bvVarArithRightShift_ok v w x sh ws y : bv v w x -> bv sh ws y -> wide_amount w ws -> w < 2 ^ 32 ->
  exists r, bvVarArithRightShift v sh = Done r /\ bv r w (ashr_value w x y).
Proof.
  intros Hv Hsh Hwide Hw32. pose proof (l_range _ _ _ _ Hv) as [Hw Hx]. unfold bvVarArithRightShift. rewrite (l_length _ _ _ _ Hv).
  pose proof (bvBoolExtract_ok v w x (w - 1) Hv ltac:(lia)) as Hsg.
  destruct (variable_shift_ok sh ws y w (fun i => constructAShrByConstant v i (bvBoolExtract v (w - 1))) (ashr_value w x) (Z.to_nat (w - 1)) (constructAShrByConstant v (w - 1) (bvBoolExtract v (w - 1))) (ashr_value w x (w - 1)))
    as (r & E & Hr); try done; try lia.
  - intros i Hi. apply constructAShrByConstant_ok; [done|lia|done].
  - apply constructAShrByConstant_ok; [done|lia|done].
  - intros i Hi. f_equal. lia.
  - exists r. split; [exact E|]. eapply bv_eq; [exact Hr|done|]. unfold ashr_value. by destruct (Z.ltb_spec y w).
Qed.

(** ** Products and quotients by constants *)

Lemma mod_succ_bit v n : 0 <= n -> v mod 2 ^ (n + 1) = v mod 2 ^ n + Z.b2z (Z.testbit v n) * 2 ^ n.
Proof.
  intros Hn. pose proof (pow2_pos n Hn) as Hp. rewrite Z.testbit_spec' by lia. rewrite Z.pow_add_r, Z.pow_1_r by lia. rewrite Z.rem_mul_r by lia. lia.
Qed.

(** What the bits from [n] on contribute. *)
Definition high_part (v : Z) (n : nat) : Z := v - v mod 2 ^ Z.of_nat n.

Lemma high_part_step v n : high_part v n = high_part v (S n) + Z.b2z (Z.testbit v (Z.of_nat n)) * 2 ^ Z.of_nat n.
Proof. unfold high_part. replace (Z.of_nat (S n)) with (Z.of_nat n + 1) by lia. rewrite mod_succ_bit by lia. lia. Qed.

Definition terms_ok (w x add sub : Z) (n : nat) (res : option VCExpr) : Prop :=
  match res with
  | Some v => bv v w (x * (high_part add n - high_part sub n) mod 2 ^ w)
  | None => high_part add n - high_part sub n = 0
  end.

Lemma mul_terms_ok e w x add sub n : forall res, bv e w x -> (forall i, 0 <= i -> Z.testbit add i = false \/ Z.testbit sub i = false) ->
  terms_ok w x add sub n res -> exists res', mul_terms e w add sub n res = Done res' /\ terms_ok w x add sub 0 res'.
Proof.
  induction n as [|n IH]; intros res He Hap Hres; cbn [mul_terms]; [by exists res|]. pose proof (high_part_step add n) as Ha. pose proof (high_part_step sub n) as Hs.
  pose proof (bvLeftShift_ok e w x (Z.of_nat n) He ltac:(lia)) as Hop. rewrite Z.shiftl_mul_pow2 in Hop by lia.
  assert (forall a b, (a mod 2 ^ w + b mod 2 ^ w) mod 2 ^ w = (a + b) mod 2 ^ w) as Hplus by (intros a b; symmetry; apply Zplus_mod).
  assert (forall a b, (a mod 2 ^ w - b mod 2 ^ w) mod 2 ^ w = (a - b) mod 2 ^ w) as Hminus by (intros a b; symmetry; apply Zminus_mod).
  destruct (Z.testbit add (Z.of_nat n)) eqn:Ea, (Z.testbit sub (Z.of_nat n)) eqn:Es; cbn [orb andb negb]; cbn [Z.b2z] in Ha, Hs.
  - destruct (Hap (Z.of_nat n)); [lia|congruence|congruence].
  - apply IH; [done|done|]. unfold terms_ok in *. destruct res as [res|].
    + eapply bv_eq; [eapply l_plus; [exact Hres|exact Hop]|done|]. rewrite Hplus. f_equal. rewrite Ha, Hs. ring.
    + eapply bv_eq; [exact Hop|done|]. f_equal. nia.
  - apply IH; [done|done|]. unfold terms_ok in *. destruct res as [res|].
    + eapply bv_eq; [eapply l_minus; [exact Hres|exact Hop]|done|]. rewrite Hminus. f_equal. rewrite Ha, Hs. ring.
    + eapply bv_eq; [eapply l_uminus; exact Hop|done|]. rewrite <- (Z.sub_0_l (_ mod _)). rewrite Zminus_mod_idemp_r. f_equal. nia.
  - apply IH; [done|done|]. unfold terms_ok in *. destruct res as [res|]; [|lia]. eapply bv_eq; [exact Hres|done|]. do 2 f_equal. lia.
Qed.

Lemma high_part_all v : 0 <= v < 2 ^ 64 -> high_part v 64 = 0.
Proof. intros. unfold high_part. rewrite Z.mod_small; lia. Qed.

Lemma high_part_0 v : high_part v 0 = v.
Proof. unfold high_part. cbn. rewrite Z.mod_1_r. lia. Qed.

Lemma product_of_parts x c w add sub : 0 <= w <= 64 -> u64 (add - sub) = c -> (x * c) mod 2 ^ w = (x * (add mod 2 ^ w - sub mod 2 ^ w)) mod 2 ^ w.
Proof.
  intros Hw <-. pose proof (pow2_pos w ltac:(lia)). unfold u64. rewrite <- Z.mul_mod_idemp_r by lia. rewrite mod_mod_pow2 by lia.
  rewrite Z.mul_mod_idemp_r by lia. symmetry. rewrite <- Z.mul_mod_idemp_r by lia. rewrite <- Zminus_mod. by rewrite Z.mul_mod_idemp_r by lia.
Qed.

(** All 64 bits. *)
Lemma mul_all_ok e w x add sub : bv e w x -> (forall i, 0 <= i -> Z.testbit add i = false \/ Z.testbit sub i = false) -> 0 <= add < 2 ^ 64 -> 0 <= sub < 2 ^ 64 ->
  exists res, mul_terms e w add sub 64 None = Done res /\ bv (match res with Some res => res | None => bvZero w end) w ((x * (add - sub)) mod 2 ^ w).
Proof.
  intros He Hap Ha Hs. pose proof (l_range _ _ _ _ He) as [Hw Hx]. destruct (mul_terms_ok e w x add sub 64 None He Hap) as (res & E & Hres).
  - unfold terms_ok. by rewrite !high_part_all.
  - exists res. split; [exact E|]. unfold terms_ok in Hres. rewrite !high_part_0 in Hres. destruct res as [res|]; [exact Hres|].
    rewrite Hres, Z.mul_0_r, Z.mod_0_l by (pose proof (pow2_pos w); lia). by apply bvZero_ok.
Qed.

Lemma constructMulByConstant_ok e w x c : bv e w x -> w <= 64 -> 0 <= c < 2 ^ 64 ->
  exists v, constructMulByConstant e w c = Done v /\ bv v w ((x * c) mod 2 ^ w).
Proof.
  intros He Hw64 Hc. pose proof (l_range _ _ _ _ He) as [Hw Hx]. destruct (ComputeMultConstants64_ok c Hc) as (add & sub & E & Ha & Hs & Hsum & Hap).
  assert (forall v, 0 <= v mod 2 ^ w < 2 ^ 64) as Hr. { intros v. pose proof (mod_pow2_range v w ltac:(lia)). pose proof (pow2_mono w 64 ltac:(lia)). lia. }
  destruct (mul_all_ok e w x (add mod 2 ^ w) (sub mod 2 ^ w) He) as (res & Eres & Hres); [|apply Hr|apply Hr|].
  { intros i Hi. destruct (Z.ltb_spec i w); [rewrite !Z.mod_pow2_bits_low by lia; by apply Hap|left; by apply Z.mod_pow2_bits_high; lia]. }
  exists (match res with Some res => res | None => bvZero w end). rewrite (product_of_parts x c w add sub) by (done || lia). split; [|exact Hres].
  unfold constructMulByConstant. rewrite E, bind_ret, !bits64_truncateToNBits_spec, !bind_ret, Eres by lia. done.
Qed.

Context (wide_shift : shl_wide 0 32 = Done 0).

Lemma small_amount : wide_amount 32 32 /\ wide_amount 64 32.
Proof. unfold wide_amount. cbn. lia. Qed.

Lemma constructUDivByConstant_ok e n d : bv e 32 n -> 0 < d < 2 ^ 32 -> exists v, constructUDivByConstant e 32 d = Done v /\ bv v 32 (n / d).
Proof.
  intros He Hd. pose proof (l_range _ _ _ _ He) as [_ Hn]. unfold constructUDivByConstant. rewrite Z.eqb_refl. replace (u32 d) with d by (unfold u32; rewrite Z.mod_small; lia).
  destruct (ComputeUDivConstants32_ok d Hd ltac:(done)) as (mprime & sh1 & sh2 & -> & Hm & H1 & H2 & Hdiv). cbn [mbind outcome_bind].
  assert (bv (vc_bvConcatExpr (bvZero 32) e) 64 n) as H64 by (eapply bv_eq; [eapply l_concat; [by apply bvZero_ok|exact He]|lia|lia]).
  destruct (constructMulByConstant_ok _ 64 n mprime H64) as (t64 & -> & Ht64); [lia|lia|]. cbn [mbind outcome_bind].
  assert (bv (vc_bvExtract t64 63 32) 32 (u64 (mprime * n) / 2 ^ 32)) as Ht.
  { eapply bv_eq; [eapply l_extract; [exact Ht64|lia|lia]|lia|]. unfold u64. rewrite (Z.mul_comm mprime). apply Z.mod_small. replace (63 - 32 + 1) with 32 by lia.
    pose proof (mod_pow2_range (n * mprime) 64 ltac:(lia)). split; [apply Z.div_pos; lia|apply Z.div_lt_upper_bound; lia]. }
  destruct (bvVarRightShift_ok (vc_bvMinusExpr 32 e (vc_bvExtract t64 63 32)) 32 (u32 (n - u64 (mprime * n) / 2 ^ 32)) (bvConst32 32 sh1) 32 sh1) as (s1 & -> & Hs1);
    [by apply l_minus|apply bvConst32_ok; lia|apply small_amount|lia|]. cbn [mbind outcome_bind].
  destruct (bvVarRightShift_ok (vc_bvPlusExpr 32 s1 (vc_bvExtract t64 63 32)) 32 (u32 (Z.shiftr (u32 (n - u64 (mprime * n) / 2 ^ 32)) sh1 + u64 (mprime * n) / 2 ^ 32)) (bvConst32 32 sh2) 32 sh2)
    as (s2 & -> & Hs2); [by apply l_plus|apply bvConst32_ok; lia|apply small_amount|lia|]. exists s2. split; [done|]. rewrite <- (Hdiv n Hn). exact Hs2.
Qed.

Lemma low_half v : v mod 2 ^ 64 mod 2 ^ 32 = u32 v.
Proof. by apply mod_mod_pow2. Qed.

Lemma constructSDivByConstant_ok e n d : bv e 32 n -> 0 < d < 2 ^ 32 ->
  exists v, constructSDivByConstant e 32 d = Done v /\ bv v 32 (Z.quot (to_signed 32 n) (to_signed 32 d) mod 2 ^ 32).
Proof.
  intros He Hd. pose proof (l_range _ _ _ _ He) as [_ Hn]. unfold constructSDivByConstant. rewrite Z.eqb_refl. unfold signed at 1. rewrite (Z.mod_small d) by lia.
  pose proof (to_signed_range 32 d ltac:(lia) ltac:(lia)) as Hds. assert (to_signed 32 d <> 0) as Hd0 by (rewrite to_signed_eq0; lia).
  destruct (ComputeSDivConstants32_ok (to_signed 32 d) Hds Hd0) as (mprime & dsign & shpost & -> & Hm & Hsg & Hsh & Hdiv). cbn [mbind outcome_bind].
  assert (bv (vc_bvSignExtend e 64) 64 (to_signed 32 n mod 2 ^ 64)) as H64 by (by eapply l_sext).
  destruct (constructMulByConstant_ok _ 64 _ (u64 mprime) H64) as (t64 & -> & Ht64); [lia|apply u64_range|]. cbn [mbind outcome_bind].
  assert (bv (vc_bvExtract t64 63 32) 32 (u64 (to_signed 32 n * mprime) / 2 ^ 32)) as Ht.
  { eapply bv_eq; [eapply l_extract; [exact Ht64|lia|lia]|lia|]. unfold u64. rewrite <- Zmult_mod. apply Z.mod_small. replace (63 - 32 + 1) with 32 by lia.
    pose proof (mod_pow2_range (to_signed 32 n * mprime) 64 ltac:(lia)). split; [apply Z.div_pos; lia|apply Z.div_lt_upper_bound; lia]. }
  set (mulsh := u64 (to_signed 32 n * mprime) / 2 ^ 32) in *.
  assert (bv (vc_bvPlusExpr 32 e (vc_bvExtract t64 63 32)) 32 (u32 (n + mulsh))) as Hnpm by (by apply l_plus).
  assert (bv (vc_bvSignExtend (vc_bvPlusExpr 32 e (vc_bvExtract t64 63 32)) 64) 64 (u64 (to_signed 32 (u32 (n + mulsh))))) as Hext by (by eapply l_sext).
  assert (u32 shpost = shpost) as Eshp by (unfold u32; rewrite Z.mod_small; lia). rewrite Eshp.
  destruct (bvVarRightShift_ok _ _ _ (bvConst32 32 shpost) 32 shpost Hext) as (s & -> & Hs); [apply bvConst32_ok; lia|apply small_amount|lia|]. cbn [mbind outcome_bind].
  eexists. split; [done|]. specialize (Hdiv n Hn). unfold sdiv_by_constants in Hdiv. fold mulsh in Hdiv. unfold u32 at 2 in Hdiv. fold (u32 (Z.quot (to_signed 32 n) (to_signed 32 d))). unfold u32 at 1. rewrite <- Hdiv.
  assert (bv (bvConst32 32 (u32 dsign)) 32 (u32 dsign)) as Hsign by (apply bvConst32_ok; [lia|apply u32_range|apply u32_range]).
  assert (bv (vc_bvExtract s 31 0) 32 (u32 (Z.shiftr (u64 (to_signed 32 (u32 (n + mulsh)))) shpost))) as Hlow.
  { eapply bv_eq; [eapply l_extract; [exact Hs|lia|lia]|lia|]. by rewrite Z.pow_0_r, Z.div_1_r. }
  assert (bv (vc_iteExpr (bvBoolExtract e 31) (bvMinusOne 32) (bvZero 32)) 32 (if n <? 2 ^ 31 then 0 else 2 ^ 32 - 1)) as Hx.
  { eapply bv_eq; [eapply l_ite; [apply (bvBoolExtract_ok e 32 n 31 He); lia|by apply bvMinusOne_ok|by apply bvZero_ok]|done|].
    destruct (Z.ltb_spec n (2 ^ 31)).
    - replace (Z.testbit n 31) with false; [done|]. symmetry. destruct (Z.eq_dec n 0) as [-> |]; [apply Z.bits_0|]. apply Z.bits_above_log2; [lia|]. apply Z.log2_lt_pow2; lia.
    - replace (Z.testbit n 31) with true; [done|]. symmetry. replace 31 with (Z.log2 n); [apply Z.bit_log2; lia|]. apply Z.log2_unique; [lia|]. cbn [Z.succ]. lia. }
  eapply bv_eq; [eapply l_minus; [eapply l_bvxor; [eapply l_minus; [exact Hlow|exact Hx]|exact Hsign]|exact Hsign]|done|].
  assert (forall a b, (a - u32 b) mod 2 ^ 32 = u32 (a - b)) as Hsub by (intros a b; apply Zminus_mod_idemp_r). rewrite Hsub. f_equal. f_equal. f_equal.
  destruct (n <? 2 ^ 31); [done|]. replace (2 ^ 32 - 1) with (-1 + 1 * 2 ^ 32) by lia.
  rewrite Z.sub_add_distr, <- (Z.mod_add (_ - -1) (-1)) by lia. done.
Qed.

End Sound.

#[local] Existing Instance BM_ret.
#[local] Existing Instance BM_bind.

(** ** Which expressions are translated *)

Section Canonical.
Context {AH : ArrayHeap}.

(** Indices and values are no truth values, and every index of the array exists. *)
Definition canonical_array (a : Array) : Prop := arr_domain a <> 1 /\ arr_range a <> 1 /\ arr_size a <= 2 ^ arr_domain a.

(** What the assertions of the builder call canonical, and a constant divisor is not
    zero. *)
Definition canonical_kind (k : BinaryKind) (w : Z) (r : Expr) : Prop :=
  match k with
  | And | Or | Xor | EqK => True
  | Ne | Ugt | Uge | Sgt | Sge => False
  | UDiv | SDiv | URem => w <> 1 /\ match r with ConstantExpr c => uval c <> 0 | _ => True end
  | Shl | LShr | AShr => w <> 1 /\ w < 2 ^ 32
  | _ => w <> 1
  end.

(** Truth values are not taken apart or put together, and a cast extends. *)
Fixpoint canonical (e : Expr) : Prop :=
  match e with
  | ConstantExpr _ => True
  | NotOptimizedExpr s => canonical s
  | ReadExpr r u i => canonical_array (array_at r) /\ canonical_updates u /\ canonical i
  | SelectExpr c t f => canonical c /\ canonical t /\ canonical f
  | ConcatExpr l r => canonical l /\ canonical r /\ getWidth l <> 1 /\ getWidth r <> 1
  | ExtractExpr s _ _ => canonical s /\ getWidth s <> 1
  | NotExpr s => canonical s
  | CastExpr _ s w => canonical s /\ getWidth s < w
  | BinaryExpr k l r => canonical l /\ canonical r /\ canonical_kind k (getWidth l) r
  end
with canonical_updates (u : UpdateNode) : Prop :=
  match u with
  | UNull => True
  | UNode n i v => canonical_updates n /\ canonical i /\ canonical v
  end.

(** Where the meaning of the operator is that of STP: no division by zero, no
    arithmetic shift beyond the width, and no constant amount that is truncated to
    [unsigned]. *)
Definition fits_kind (k : BinaryKind) (w : Z) (r : Expr) (y : Z) : Prop :=
  match k with
  | UDiv | SDiv | URem | SRem => y <> 0
  | Shl | LShr => match r with ConstantExpr _ => y < 2 ^ 32 | _ => True end
  | AShr => y < w
  | _ => True
  end.

(** And constant arrays are read inside. *)
Fixpoint fits (ρ : env) (e : Expr) : Prop :=
  match e with
  | ConstantExpr _ => True
  | NotOptimizedExpr s => fits ρ s
  | ReadExpr r u i => fits_updates ρ u /\ fits ρ i /\ (isConstantArray (array_at r) = true -> eval ρ i < arr_size (array_at r))
  | SelectExpr c t f => fits ρ c /\ fits ρ t /\ fits ρ f
  | ConcatExpr l r => fits ρ l /\ fits ρ r
  | ExtractExpr s _ _ => fits ρ s
  | NotExpr s => fits ρ s
  | CastExpr _ s _ => fits ρ s
  | BinaryExpr k l r => fits ρ l /\ fits ρ r /\ fits_kind k (getWidth l) r (eval ρ r)
  end
with fits_updates (ρ : env) (u : UpdateNode) : Prop :=
  match u with
  | UNull => True
  | UNode n i v => fits_updates ρ n /\ fits ρ i /\ fits ρ v
  end.

End Canonical.

Section Construct.
Context {VC : STP} {VL : STPLaws VC} {WS : WideShifts} {AP : APIntOps} {APL : APIntLaws} {AH : ArrayHeap}.
Context (UseConstructHash optimizeDivides : bool).
Context (wide_shift : shl_wide 0 32 = Done 0).

(** A truth value when the width is 1, a bit vector otherwise. *)
Definition denotes (σ : string -> Z -> Z) (v : VCExpr) (w x : Z) : Prop :=
  if w =? 1 then is_bool σ v (negb (x =? 0)) else is_bv σ v w x.

Definition typed (v : VCExpr) (w : Z) : Prop := forall σ, exists x, 0 <= x < 2 ^ w /\ denotes σ v w x.

Lemma denotes_bv σ v w x : w <> 1 -> denotes σ v w x <-> is_bv σ v w x.
Proof. intros. unfold denotes. by rewrite (proj2 (Z.eqb_neq w 1)). Qed.

Lemma denotes_bool σ v x : denotes σ v 1 x <-> is_bool σ v (negb (x =? 0)).
Proof. done. Qed.

Lemma typed_bool v : (forall σ, exists b, is_bool σ v b) -> typed v 1.
Proof. intros H σ. destruct (H σ) as [b Hb]. exists (Z.b2z b). split; [destruct b; cbn; lia|]. by destruct b. Qed.

Lemma typed_bv v w : w <> 1 -> (forall σ, exists x, is_bv σ v w x) -> typed v w.
Proof. intros Hw H σ. destruct (H σ) as [x Hx]. exists x. split; [by eapply l_range|by apply denotes_bv]. Qed.

Lemma typed_is_bv v w : w <> 1 -> typed v w -> forall σ, exists x, is_bv σ v w x.
Proof. intros Hw H σ. destruct (H σ) as (x & _ & Hx). exists x. by apply denotes_bv in Hx. Qed.

Lemma typed_is_bool v : typed v 1 -> forall σ, exists b, is_bool σ v b.
Proof. intros H σ. destruct (H σ) as (x & _ & Hx). eexists. exact Hx. Qed.

(** ** Constants *)

Lemma getZExt_ok c bits : wf_apint c -> getBitWidth c <= bits -> bits <= 64 -> ConstantExpr_getZExtValue c bits = Done (uval c).
Proof.
  intros [Hw Hc] Hb H64. unfold ConstantExpr_getZExtValue. rewrite (proj2 (Z.leb_le _ _)) by done. rewrite ap_getZExtValue_spec; [done|].
  pose proof (pow2_mono (getBitWidth c) 64 ltac:(lia)). lia.
Qed.

Lemma constant_words_ok σ n : forall t res k r, wf_apint t -> is_bv σ res k r -> (Z.to_nat (getBitWidth t) <= n)%nat ->
  exists v, constant_words n t res = Done v /\
    if 64 <? getBitWidth t then is_bv σ v (k + (getBitWidth t - 64)) (r + uval t / 2 ^ 64 * 2 ^ k) else v = res.
Proof.
  induction n as [|n IH]; intros t res k r [Hw Ht] Hres Hn; cbn [constant_words]; [lia|].
  destruct (Z.ltb_spec 64 (getBitWidth t)) as [Hlt|]; [|by exists res].
  destruct (ConstantExpr_Extract_sound t 64 (getBitWidth t - 64)) as (Hwf & Ew & Eu); [done|lia|lia|lia|].
  set (t' := ConstantExpr_Extract t 64 (getBitWidth t - 64)) in *.
  assert (uval t' = uval t / 2 ^ 64) as Eu'. { rewrite Eu. apply Z.mod_small. split; [apply Z.div_pos; lia|]. apply Z.div_lt_upper_bound; [lia|]. rewrite <- Z.pow_add_r by lia. replace (64 + (getBitWidth t - 64)) with (getBitWidth t) by lia. lia. }
  destruct (ConstantExpr_Extract_sound t' 0 (Z.min 64 (getBitWidth t'))) as (Hwf2 & Ew2 & Eu2); [done|lia|lia|lia|].
  rewrite Z.pow_0_r, Z.div_1_r in Eu2. rewrite getZExt_ok by (done || lia). rewrite bind_ret.
  pose proof (l_range _ _ _ _ Hres) as [Hk Hr]. pose proof (pow2_pos k ltac:(lia)) as Hpk. destruct Hwf as [Hw' Ht'].
  destruct (Z.min_spec 64 (getBitWidth t')) as [[Hc Em]|[Hc Em]]; rewrite Em in *.
  - destruct (IH t' (vc_bvConcatExpr (bvConst64 64 (uval (ConstantExpr_Extract t' 0 64))) res) (64 + k) (uval t' mod 2 ^ 64 * 2 ^ k + r)) as (v & E & Hv); [done| |lia|].
    { apply l_concat; [|done]. eapply bv_eq; [apply bvConst64_ok; [lia| |]|done|exact Eu2]; rewrite Eu2; apply mod_pow2_range; lia. }
    exists v. split; [exact E|]. rewrite (proj2 (Z.ltb_lt _ _)) in Hv by lia. eapply bv_eq; [exact Hv|lia|]. rewrite <- Eu'.
    pose proof (Z.div_mod (uval t') (2 ^ 64) ltac:(lia)). rewrite Z.pow_add_r by lia. nia.
  - assert (is_bv σ (vc_bvConcatExpr (bvConst64 (getBitWidth t') (uval (ConstantExpr_Extract t' 0 (getBitWidth t')))) res) (getBitWidth t' + k) (uval t' * 2 ^ k + r)) as Hcat.
    { apply l_concat; [|done]. rewrite Z.mod_small in Eu2 by done. pose proof (pow2_mono (getBitWidth t') 64 ltac:(lia)). eapply bv_eq; [apply bvConst64_ok|done|exact Eu2]; rewrite ?Eu2; lia. }
    destruct (IH t' _ _ _ ltac:(done) Hcat) as (v & E & Hv); [lia|]. exists v. split; [exact E|]. rewrite (proj2 (Z.ltb_ge _ _)) in Hv by lia. subst v.
    eapply bv_eq; [exact Hcat|lia|]. rewrite <- Eu'. lia.
Qed.

Lemma constructConstant_ok c : wf_apint c -> exists v, constructConstant c = Done (v, getBitWidth c) /\ forall σ, denotes σ v (getBitWidth c) (uval c).
Proof.
  intros Hc. pose proof Hc as [Hw Hr]. unfold constructConstant. destruct (Z.eqb_spec (getBitWidth c) 1) as [E1|Hn1].
  { eexists. split; [by rewrite bind_ret|]. intros σ. rewrite E1, denotes_bool. rewrite isTrue_spec by done. destruct (uval c =? 0); [apply l_false|apply l_true]. }
  destruct (Z.leb_spec (getBitWidth c) 32).
  { rewrite getZExt_ok by (done || lia). rewrite !bind_ret. eexists. split; [done|]. intros σ. apply denotes_bv; [done|]. pose proof (pow2_mono (getBitWidth c) 32 ltac:(lia)). apply bvConst32_ok; lia. }
  destruct (Z.leb_spec (getBitWidth c) 64).
  { rewrite getZExt_ok by (done || lia). rewrite !bind_ret. eexists. split; [done|]. intros σ. apply denotes_bv; [done|]. pose proof (pow2_mono (getBitWidth c) 64 ltac:(lia)). apply bvConst64_ok; lia. }
  destruct (ConstantExpr_Extract_sound c 0 64) as (Hwf & Ew & Eu); [done|lia|lia|lia|]. rewrite Z.pow_0_r, Z.div_1_r in Eu. rewrite getZExt_ok by (done || lia). rewrite !bind_ret.
  assert (forall σ, is_bv σ (bvConst64 64 (uval (ConstantExpr_Extract c 0 64))) 64 (uval c mod 2 ^ 64)) as H64.
  { intros σ. pose proof (mod_pow2_range (uval c) 64 ltac:(lia)). eapply bv_eq; [apply bvConst64_ok|done|exact Eu]; rewrite ?Eu; lia. }
  destruct (constant_words_ok (fun _ _ => 0) (Z.to_nat (getBitWidth c)) c _ 64 _ Hc (H64 _) ltac:(lia)) as (v & E & _). rewrite E, bind_ret. exists v. split; [done|]. intros σ. apply denotes_bv; [done|].
  destruct (constant_words_ok σ (Z.to_nat (getBitWidth c)) c _ 64 _ Hc (H64 σ) ltac:(lia)) as (v' & E' & Hv). assert (v' = v) as -> by congruence.
  rewrite (proj2 (Z.ltb_lt _ _)) in Hv by lia. eapply bv_eq; [exact Hv|lia|]. pose proof (Z.div_mod (uval c) (2 ^ 64) ltac:(lia)). lia.
Qed.

(** The writes to a constant array, from index [i] on. *)
Lemma write_constants_ok a n : forall i, wf_array a -> canonical_array a -> 0 <= i -> i + Z.of_nat n = arr_size a -> isConstantArray a = true ->
  forall ae, exists v, write_constants a n i ae = Done v /\
    forall σ f, is_array σ ae (arr_domain a) (arr_range a) f -> exists g, is_array σ v (arr_domain a) (arr_range a) g /\
      (forall j, 0 <= j < i -> g j = f j) /\ forall j c, i <= j < arr_size a -> constantValues a !! Z.to_nat j = Some c -> g j = uval c.
Proof.
  induction n as [|n IH]; intros i Hwf Hca Hi Hn Hc ae; cbn [write_constants].
  { exists ae. split; [done|]. intros σ f Hf. exists f. split_and!; [done|done|lia]. }
  destruct Hwf as (Hd & Hr & Hs & Hl & Hv). destruct Hca as (Hd1 & Hr1 & Hsz).
  assert (exists c, constantValues a !! Z.to_nat i = Some c) as [c Ec]. { apply lookup_lt_is_Some. rewrite <- (Nat2Z.id (length _)), Hl by done. lia. }
  assert (ConstantExpr_alloc i (arr_domain a) = MkAPInt (arr_domain a) i) as Ea by (apply ConstantExpr_alloc_spec; lia).
  destruct (constructConstant_ok (MkAPInt (arr_domain a) i)) as (ix & Eix & Hix); [by split; cbn; lia|].
  pose proof (proj1 (Forall_lookup _ _) Hv _ _ Ec) as [Hwc Ewc]. destruct (constructConstant_ok c Hwc) as (cv & Ecv & Hcv).
  rewrite Ea, Eix, bind_ret, Ec. cbn [deref]. rewrite bind_ret, Ecv, bind_ret.
  destruct (IH (i + 1)) with (ae := vc_writeExpr ae ix cv) as (v & E & Hg); [done|done|lia|lia|done|]. exists v. split; [exact E|]. intros σ f Hf.
  assert (is_array σ (vc_writeExpr ae ix cv) (arr_domain a) (arr_range a) (fun j => if i =? j then uval c else f j)) as Hw.
  { apply l_write; [done|by apply (denotes_bv σ ix (arr_domain a) i)|]. rewrite <- Ewc in *. by apply denotes_bv. }
  destruct (Hg σ _ Hw) as (g & Hga & Hlow & Hhigh). exists g. split; [exact Hga|]. split.
  - intros j Hj. rewrite Hlow by lia. by rewrite (proj2 (Z.eqb_neq i j)) by lia.
  - intros j c' Hj Ej. destruct (Z.eq_dec j i) as [-> |Hne]; [|by apply Hhigh; [lia|]]. rewrite Hlow by lia. rewrite Z.eqb_refl. congruence.
Qed.

(** ** What the builder knows *)

Abbreviation dom r := (arr_domain (array_at r)).
Abbreviation rng r := (arr_range (array_at r)).

(** The contents of an array where it may be read. *)
Definition contents (σ : string -> Z -> Z) (v : VCExpr) (r : positive) (value : Z -> Z) : Prop :=
  exists f, is_array σ v (dom r) (rng r) f /\ forall i, 0 <= i < 2 ^ dom r -> (isConstantArray (array_at r) = true -> i < arr_size (array_at r)) -> f i = value i.

Definition array_typed (v : VCExpr) (r : positive) : Prop := forall σ, exists f, is_array σ v (dom r) (rng r) f.

(** The values of STP's variables are those of the symbolic arrays the builder has
    named. *)
Definition agree (σ : string -> Z -> Z) (ρ : env) (b : STPBuilder VC) : Prop :=
  forall r v, array_hash b !! r = Some v -> isConstantArray (array_at r) = false -> contents σ v r (initial_value ρ r).

(** Each array has a number of its own, which its name ends with. *)
Definition numbered (id : positive -> Z) (b : STPBuilder VC) : Prop :=
  (forall r v, array_hash b !! r = Some v -> 0 <= id r < Z.of_nat (size (array_hash b)) /\
     (isConstantArray (array_at r) = false -> v = buildArray (arr_name (array_at r) +:+ pretty (id r)) (dom r) (rng r))) /\
  (forall r r', is_Some (array_hash b !! r) -> is_Some (array_hash b !! r') -> id r = id r' -> r = r').

Record knows (b : STPBuilder VC) : Prop := MkKnows {
  kn_arrays r v : array_hash b !! r = Some v -> wf_array (array_at r) /\ array_typed v r /\ (isConstantArray (array_at r) = true -> forall σ ρ, contents σ v r (initial_value ρ r));
  kn_names : exists id, numbered id b;
  kn_nodes r u v : ((r, u), v) ∈ update_node_hash b -> array_typed v r /\ forall σ ρ, agree σ ρ b -> fits_updates ρ u -> contents σ v r (eval_read ρ r u);
  kn_exprs e v w : (e, (v, w)) ∈ constructed b -> w = getWidth e /\ typed v w /\ forall σ ρ, agree σ ρ b -> fits ρ e -> denotes σ v w (eval ρ e)
}.

Definition grows (b b' : STPBuilder VC) : Prop := forall r v, array_hash b !! r = Some v -> array_hash b' !! r = Some v.

Lemma agree_grows σ ρ b b' : grows b b' -> agree σ ρ b' -> agree σ ρ b.
Proof. intros Hg Ha r v Hv. by apply Ha, Hg. Qed.

(** A step of the builder returns something with [P], of which [D] holds under values
    that agree. *)
Definition yields {A} (m : BM A) (P : A -> Prop) (D : A -> (string -> Z -> Z) -> env -> Prop) : Prop :=
  forall b, knows b -> exists a b', m b = Done (a, b') /\ knows b' /\ grows b b' /\ P a /\ forall σ ρ, agree σ ρ b' -> D a σ ρ.

Lemma yields_ret {A} (a : A) (P : A -> Prop) D : P a -> (forall σ ρ, D a σ ρ) -> yields (mret a) P D.
Proof. intros HP HD b Hb. exists a, b. split_and!; try done. by intros r v. Qed.

Lemma yields_bind {A B} (m : BM A) (f : A -> BM B) P D P' D' : yields m P D -> (forall a, P a -> yields (f a) P' (fun c σ ρ => D a σ ρ -> D' c σ ρ)) -> yields (m ≫= f) P' D'.
Proof.
  intros Hm Hf b Hb. destruct (Hm b Hb) as (a & b1 & E & Hb1 & Hg & HP & HD). destruct (Hf a HP b1 Hb1) as (c & b2 & E2 & Hb2 & Hg2 & HP2 & HD2).
  exists c, b2. split_and!; [|done|by intros r v Hv; apply Hg2, Hg|done|].
  - unfold mbind, BM_bind. by rewrite E, bind_ret.
  - intros σ ρ Ha. apply HD2; [done|]. apply HD. by eapply agree_grows.
Qed.

Lemma yields_outcome {A} (o : outcome A) (P : A -> Prop) D : (exists a, o = Done a /\ P a /\ forall σ ρ, D a σ ρ) -> yields (of_outcome o) P D.
Proof. intros (a & -> & HP & HD) b Hb. exists a, b. split_and!; try done. by intros r v. Qed.

Lemma yields_weaken {A} (m : BM A) (P P' : A -> Prop) (D D' : A -> (string -> Z -> Z) -> env -> Prop) : yields m P D -> (forall a, P a -> P' a) -> (forall a σ ρ, P a -> D a σ ρ -> D' a σ ρ) -> yields m P' D'.
Proof. intros Hm HP HD b Hb. destruct (Hm b Hb) as (a & b' & E & Hb' & Hg & Ha & Hd). exists a, b'. split_and!; auto. Qed.

(** ** Translations of an expression *)

Definition static (e : Expr) (r : VCExpr * Z) : Prop := r.2 = getWidth e /\ typed r.1 (getWidth e).
Definition dynamic (e : Expr) (r : VCExpr * Z) (σ : string -> Z -> Z) (ρ : env) : Prop := fits ρ e -> denotes σ r.1 (getWidth e) (eval ρ e).
Definition constructs (m : BM (VCExpr * Z)) (e : Expr) : Prop := yields m (static e) (dynamic e).

Lemma constructs_bind {B} (m : BM (VCExpr * Z)) e (f : VCExpr * Z -> BM B) P D : constructs m e ->
  (forall v, typed v (getWidth e) -> yields (f (v, getWidth e)) P (fun c σ ρ => (fits ρ e -> denotes σ v (getWidth e) (eval ρ e)) -> D c σ ρ)) -> yields (m ≫= f) P D.
Proof. intros Hm Hf. eapply yields_bind; [exact Hm|]. intros [v w] [Hw Hv]. cbn in Hw, Hv. subst w. by apply Hf. Qed.

Lemma typed_of v w : (forall σ, exists x, denotes σ v w x) -> typed v w.
Proof.
  intros H. destruct (Z.eq_dec w 1) as [-> |Hne].
  - apply typed_bool. intros σ. destruct (H σ) as [x Hx]. eexists. exact Hx.
  - apply typed_bv; [done|]. intros σ. destruct (H σ) as [x Hx]. exists x. by apply denotes_bv in Hx.
Qed.

Lemma ret_constructs e v w D : w = getWidth e -> typed v w -> (forall σ ρ, D σ ρ -> fits ρ e -> denotes σ v w (eval ρ e)) ->
  yields (mret (v, w)) (static e) (fun r σ ρ => D σ ρ -> dynamic e r σ ρ).
Proof. intros -> Hv HD. apply yields_ret; [done|]. intros σ ρ Hd Hf. by apply HD. Qed.

(** The value of an outcome that is the same whatever the values are. *)
Lemma uniform (o : outcome VCExpr) lv w w' F : w <> 1 -> typed lv w -> (forall σ x, is_bv σ lv w x -> exists v, o = Done v /\ is_bv σ v w' (F x)) ->
  exists v, o = Done v /\ forall σ x, is_bv σ lv w x -> is_bv σ v w' (F x).
Proof.
  intros Hw Ht H. destruct (typed_is_bv lv w Hw Ht (fun _ _ => 0)) as [x0 Hx0]. destruct (H _ _ Hx0) as (v & E & _). exists v. split; [done|].
  intros σ x Hx. destruct (H σ x Hx) as (v' & E' & Hv). congruence.
Qed.

Lemma uniform2 (o : outcome VCExpr) lv rv w F : w <> 1 -> typed lv w -> typed rv w -> (forall σ x y, is_bv σ lv w x -> is_bv σ rv w y -> exists v, o = Done v /\ is_bv σ v w (F x y)) ->
  exists v, o = Done v /\ forall σ x y, is_bv σ lv w x -> is_bv σ rv w y -> is_bv σ v w (F x y).
Proof.
  intros Hw Hl Hr H. destruct (typed_is_bv lv w Hw Hl (fun _ _ => 0)) as [x0 Hx0]. destruct (typed_is_bv rv w Hw Hr (fun _ _ => 0)) as [y0 Hy0]. destruct (H _ _ _ Hx0 Hy0) as (v & E & _).
  exists v. split; [done|]. intros σ x y Hx Hy. destruct (H σ x y Hx Hy) as (v' & E' & Hv). congruence.
Qed.

Lemma width_is_bind {B} b (f : () -> BM B) P D : b = true -> yields (f tt) P D -> yields (width_is b ≫= f) P D.
Proof. intros -> H b0 Hb0. destruct (H b0 Hb0) as (a & b' & E & Hr). exists a, b'. split; [|done]. unfold mbind, BM_bind, width_is, of_outcome. by rewrite !bind_ret. Qed.

Lemma outcome_bind_yields {A B} (o : outcome A) a (f : A -> BM B) P D : o = Done a -> yields (f a) P D -> yields (of_outcome o ≫= f) P D.
Proof. intros -> H b0 Hb0. destruct (H b0 Hb0) as (c & b' & E & Hr). exists c, b'. split; [|done]. unfold mbind, BM_bind, of_outcome. by rewrite !bind_ret. Qed.

(** The next step is a translation: name what it gives. *)
Ltac translated v Hv := eapply constructs_bind; [eassumption|]; intros v Hv; cbv beta iota.
Ltac width_checked := apply width_is_bind; [by apply negb_true_iff, Z.eqb_neq|].

(** ** Operators *)

Section Binary.
Context (cons : Expr -> BM (VCExpr * Z)) (l r : Expr).
Context (Hl : constructs (cons l) l) (Hr : constructs (cons r) r) (Hwl : wf l) (Hwr : wf r) (Hw : getWidth l = getWidth r).

Abbreviation w := (getWidth l).
Abbreviation built k := (constructs (constructBinary optimizeDivides cons k l r) (BinaryExpr k l r)).

(** Operators on bit vectors. *)
Lemma arithmetic_ok k op : w <> 1 -> isCmpKind k = false ->
  (forall σ a b x y, is_bv σ a w x -> is_bv σ b w y -> exists z, is_bv σ (op w a b) w z /\ (fits_kind k w r y -> z = eval_binary k w x y)) ->
  constructs ('(lv, _) ← cons l; '(rv, width) ← cons r; _ ← width_is (negb (width =? 1)); mret (op width lv rv, width)) (BinaryExpr k l r).
Proof.
  intros Hw1 Hk Hop. translated lv Hlv. translated rv Hrv. rewrite <- Hw in *. width_checked.
  eapply yields_weaken; [apply (ret_constructs (BinaryExpr k l r) _ w (fun σ ρ => (fits ρ r -> denotes σ rv w (eval ρ r)) /\ (fits ρ l -> denotes σ lv w (eval ρ l))))|done|cbn beta; tauto].
  - cbn [getWidth]. by rewrite Hk.
  - apply typed_bv; [done|]. intros σ. destruct (typed_is_bv _ _ Hw1 Hlv σ) as [x Hx], (typed_is_bv _ _ Hw1 Hrv σ) as [y Hy]. destruct (Hop σ lv rv x y Hx Hy) as (z & Hz & _). by exists z.
  - intros σ ρ [Hdr Hdl] (Hfl & Hfr & Hfk). apply denotes_bv; [done|]. specialize (Hdl Hfl). specialize (Hdr Hfr). apply denotes_bv in Hdl, Hdr; [|done..].
    destruct (Hop σ lv rv _ _ Hdl Hdr) as (z & Hz & Ez). cbn [eval]. by rewrite <- (Ez Hfk).
Qed.

(** Operators on bit vectors and on truth values. *)
Lemma bitwise_ok k op_bool op : isCmpKind k = false -> fits_kind k w r = (fun _ => True) ->
  (forall σ a b x y, 0 <= x < 2 -> 0 <= y < 2 -> is_bool σ a (negb (x =? 0)) -> is_bool σ b (negb (y =? 0)) -> is_bool σ (op_bool a b) (negb (eval_binary k 1 x y =? 0))) ->
  (forall σ a b x y, is_bv σ a w x -> is_bv σ b w y -> is_bv σ (op a b) w (eval_binary k w x y)) ->
  constructs ('(lv, _) ← cons l; '(rv, width) ← cons r; mret (if width =? 1 then op_bool lv rv else op lv rv, width)) (BinaryExpr k l r).
Proof.
  intros Hk Hfk Hbool Hop. translated lv Hlv. translated rv Hrv. rewrite <- Hw in *.
  assert (forall σ x y, 0 <= x < 2 ^ w -> 0 <= y < 2 ^ w -> denotes σ lv w x -> denotes σ rv w y -> denotes σ (if w =? 1 then op_bool lv rv else op lv rv) w (eval_binary k w x y)) as Hd.
  { intros σ x y Hx Hy. unfold denotes. destruct (Z.eqb_spec w 1) as [E|]; [rewrite E in *; by apply Hbool|by apply Hop]. }
  eapply yields_weaken; [apply (ret_constructs (BinaryExpr k l r) _ w (fun σ ρ => (fits ρ r -> denotes σ rv w (eval ρ r)) /\ (fits ρ l -> denotes σ lv w (eval ρ l))))|done|cbn beta; tauto].
  - cbn [getWidth]. by rewrite Hk.
  - apply typed_of. intros σ. destruct (Hlv σ) as (x & Hx & Hdx), (Hrv σ) as (y & Hy & Hdy). exists (eval_binary k w x y). by apply Hd.
  - intros σ ρ [Hdr Hdl] (Hfl & Hfr & _). cbn [eval]. apply Hd; auto using eval_range. rewrite Hw. by apply eval_range.
Qed.

(** Comparisons of bit vectors. *)
Lemma comparison_ok k op c : w <> 1 -> isCmpKind k = true -> (forall x y, eval_binary k w x y = Z.b2z (c x y)) ->
  (forall σ a b x y, is_bv σ a w x -> is_bv σ b w y -> is_bool σ (op a b) (c x y)) ->
  constructs ('(lv, _) ← cons l; '(rv, width) ← cons r; _ ← width_is (negb (width =? 1)); mret (op lv rv, 1)) (BinaryExpr k l r).
Proof.
  intros Hw1 Hk Hev Hop. translated lv Hlv. translated rv Hrv. rewrite <- Hw in *. width_checked.
  eapply yields_weaken; [apply (ret_constructs (BinaryExpr k l r) _ 1 (fun σ ρ => (fits ρ r -> denotes σ rv w (eval ρ r)) /\ (fits ρ l -> denotes σ lv w (eval ρ l))))|done|cbn beta; tauto].
  - cbn [getWidth]. by rewrite Hk.
  - apply typed_bool. intros σ. destruct (typed_is_bv _ _ Hw1 Hlv σ) as [x Hx], (typed_is_bv _ _ Hw1 Hrv σ) as [y Hy]. eexists. by apply Hop.
  - intros σ ρ [Hdr Hdl] (Hfl & Hfr & _). specialize (Hdl Hfl). specialize (Hdr Hfr). apply denotes_bv in Hdl, Hdr; [|done..].
    cbn [eval]. rewrite Hev. apply denotes_bool. replace (negb (Z.b2z (c (eval ρ l) (eval ρ r)) =? 0)) with (c (eval ρ l) (eval ρ r)) by (by destruct (c _ _)). by apply Hop.
Qed.

(** Equality; a truth value that is equal to a constant. *)
Lemma equality_built : built EqK.
Proof.
  cbn [constructBinary]. translated lv Hlv. translated rv Hrv. rewrite <- Hw in *.
  set (v := if w =? 1 then _ else _).
  assert (forall σ x y, 0 <= x < 2 ^ w -> 0 <= y < 2 ^ w -> (forall c, l = ConstantExpr c -> x = uval c) -> denotes σ lv w x -> denotes σ rv w y -> is_bool σ v (x =? y)) as Hd.
  { intros σ x y Hx Hy Hc. unfold v, denotes. destruct (Z.eqb_spec w 1) as [E|]; [rewrite E in *; change (2 ^ 1) with 2 in *|by apply l_eq]. intros Hdx Hdy.
    assert (is_bool σ (vc_iffExpr lv rv) (x =? y)) as Hiff.
    { replace (x =? y) with (eqb (negb (x =? 0)) (negb (y =? 0))); [by apply l_iff|]. destruct (Z.eqb_spec x 0), (Z.eqb_spec y 0), (Z.eqb_spec x y); cbn; lia. }
    destruct l as [c| | | | | | | |]; try exact Hiff. specialize (Hc c eq_refl). rewrite isTrue_spec by done. rewrite <- Hc. clear Hiff.
    destruct (Z.eqb_spec x 0); cbn [negb].
    - replace (x =? y) with (negb (negb (y =? 0))); [by apply l_not|]. destruct (Z.eqb_spec y 0), (Z.eqb_spec x y); cbn; lia.
    - replace (x =? y) with (negb (y =? 0)); [done|]. destruct (Z.eqb_spec y 0), (Z.eqb_spec x y); cbn; lia. }
  eapply yields_weaken; [apply (ret_constructs (BinaryExpr EqK l r) _ 1 (fun σ ρ => (fits ρ r -> denotes σ rv w (eval ρ r)) /\ (fits ρ l -> denotes σ lv w (eval ρ l))))|done|cbn beta; tauto].
  - done.
  - apply typed_bool. intros σ. destruct (Hlv σ) as (x & Hx & Hdx), (Hrv σ) as (y & Hy & Hdy). unfold v, denotes in *.
    destruct (w =? 1); [|eexists; eapply l_eq; eassumption]. destruct l; try (eexists; eapply l_iff; eassumption). destruct (ConstantExpr_isTrue _); eexists; first [exact Hdy|apply l_not; exact Hdy].
  - intros σ ρ [Hdr Hdl] (Hfl & Hfr & _). cbn [eval eval_binary]. apply denotes_bool. pose proof (Hd σ (eval ρ l) (eval ρ r)) as Heq.
    replace (negb (Z.b2z (eval ρ l =? eval ρ r) =? 0)) with (eval ρ l =? eval ρ r) by (by destruct (eval ρ l =? eval ρ r)). apply Heq; [by apply eval_range|rewrite Hw; by apply eval_range|by intros c ->|by apply Hdl|by apply Hdr].
Qed.

(** A result that was computed from the left operand. *)
Lemma left_result k lv rv' (D : (string -> Z -> Z) -> env -> Prop) : w <> 1 -> isCmpKind k = false -> typed lv w -> typed rv' w ->
  (forall σ ρ, D σ ρ -> fits ρ (BinaryExpr k l r) -> is_bv σ lv w (eval ρ l) -> is_bv σ rv' w (eval ρ (BinaryExpr k l r))) ->
  yields (mret (rv', w)) (static (BinaryExpr k l r)) (fun c σ ρ => D σ ρ -> (fits ρ l -> denotes σ lv w (eval ρ l)) -> dynamic (BinaryExpr k l r) c σ ρ).
Proof.
  intros Hw1 Hk Hlv Hrv HD. apply yields_ret; [split; [cbn; by rewrite Hk|]|].
  - cbn. by rewrite Hk.
  - intros σ ρ Hd Hdl Hf. cbn [getWidth]. rewrite Hk. apply denotes_bv; [done|]. apply HD; [done|done|]. destruct Hf as (Hfl & _). by apply denotes_bv; [|apply Hdl].
Qed.

Definition special_ok (k : BinaryKind) (special : VCExpr -> Z -> Expr -> outcome (option VCExpr)) : Prop :=
  forall lv, typed lv w -> exists o, special lv w r = Done o /\
    forall v, o = Some v -> typed v w /\ forall σ ρ x, is_bv σ lv w x -> 0 <= x < 2 ^ w -> is_bv σ v w (eval_binary k w x (eval ρ r)).

Lemma division_ok k special op : w <> 1 -> isCmpKind k = false -> special_ok k special ->
  (forall σ a b x y, is_bv σ a w x -> is_bv σ b w y -> exists z, is_bv σ (op w a b) w z /\ (fits_kind k w r y -> z = eval_binary k w x y)) ->
  constructs ('(lv, width) ← cons l; _ ← width_is (negb (width =? 1)); fast ← of_outcome (special lv width r);
    match fast with Some v => mret (v, width) | None => '(rv, width) ← cons r; mret (op width lv rv, width) end) (BinaryExpr k l r).
Proof.
  intros Hw1 Hk Hsp Hop. translated lv Hlv. width_checked. destruct (Hsp lv Hlv) as (o & Eo & Ho). eapply outcome_bind_yields; [exact Eo|]. destruct o as [v|].
  - destruct (Ho v eq_refl) as [Hv Hd]. eapply yields_weaken; [apply (left_result k lv v (fun _ _ => True)); try done|done|cbn beta; tauto].
    intros σ ρ _ Hf Hx. cbn [eval]. apply Hd; [done|by apply eval_range].
  - translated rv Hrv. rewrite <- Hw in *. eapply yields_weaken; [apply (left_result k lv (op w lv rv) (fun σ ρ => fits ρ r -> denotes σ rv w (eval ρ r))); try done|done|cbn beta; tauto].
    + apply typed_bv; [done|]. intros σ. destruct (typed_is_bv _ _ Hw1 Hlv σ) as [x Hx], (typed_is_bv _ _ Hw1 Hrv σ) as [y Hy]. destruct (Hop σ lv rv x y Hx Hy) as (z & Hz & _). by exists z.
    + intros σ ρ Hdr (Hfl & Hfr & Hfk) Hx. specialize (Hdr Hfr). apply denotes_bv in Hdr; [|done]. destruct (Hop σ lv rv _ _ Hx Hdr) as (z & Hz & Ez). cbn [eval]. by rewrite <- (Ez Hfk).
Qed.

Lemma typed_result lv v F : w <> 1 -> typed lv w -> (forall σ x, is_bv σ lv w x -> is_bv σ v w (F x)) -> typed v w.
Proof. intros Hw1 Hlv H. apply typed_bv; [done|]. intros σ. destruct (typed_is_bv _ _ Hw1 Hlv σ) as [x Hx]. eexists. by apply H. Qed.

(** A special case with the value [F]. *)
Lemma special_case k special lv F : w <> 1 -> typed lv w -> (exists v, special lv w r = Done (Some v) /\ forall σ x, is_bv σ lv w x -> is_bv σ v w (F x)) ->
  (forall ρ x, 0 <= x < 2 ^ w -> F x = eval_binary k w x (eval ρ r)) ->
  exists o, special lv w r = Done o /\ forall v, o = Some v -> typed v w /\ forall σ ρ x, is_bv σ lv w x -> 0 <= x < 2 ^ w -> is_bv σ v w (eval_binary k w x (eval ρ r)).
Proof.
  intros Hw1 Hlv (v & E & Hv) HF. exists (Some v). split; [done|]. intros v' [= <-]. split; [by eapply typed_result|]. intros σ ρ x Hx Hr'. rewrite <- HF by done. by apply Hv.
Qed.

Lemma no_special (k : BinaryKind) special lv : special lv w r = Done None ->
  exists o, special lv w r = Done o /\ forall v, o = Some v -> typed v w /\ forall σ ρ x, is_bv σ lv w x -> 0 <= x < 2 ^ w -> is_bv σ v w (eval_binary k w x (eval ρ r)).
Proof. intros E. exists None. by split. Qed.

End Binary.

(** ** Division by a constant *)

Lemma power_of_two x : 0 <= x < 2 ^ 64 -> bits64_isPowerOfTwo x = true -> exists k, 0 <= k < 64 /\ x = 2 ^ k /\ bits64_indexOfSingleBit x = Done k.
Proof.
  intros Hx. unfold bits64_isPowerOfTwo. destruct (Z.eqb_spec x 0); [done|]. intros H%Z.eqb_eq. apply bits64_single_bit in H as [?|(k & Hk & ->)]; [done| |done].
  exists k. split_and!; try done; try lia. by apply indexOfSingleBit_pow2.
Qed.

Lemma constant_range c : wf_apint c -> getBitWidth c <= 64 -> 0 <= uval c < 2 ^ 64.
Proof. intros [Hw Hc] H. pose proof (pow2_mono (getBitWidth c) 64 ltac:(lia)). lia. Qed.

Section Specials.
Context (l : Expr) (c : APInt) (Hc : wf_apint c) (Hw : getWidth l = getBitWidth c) (Hw1 : getWidth l <> 1) (Hc0 : uval c <> 0).
Abbreviation w := (getWidth l).

Lemma udiv_special_ok : special_ok l (ConstantExpr c) UDiv (udiv_special optimizeDivides).
Proof.
  intros lv Hlv. pose proof Hc as [Hcw Hcr]. assert (forall ρ x, 0 <= x < 2 ^ w -> x / uval c = eval_binary UDiv w x (eval ρ (ConstantExpr c))) as HF.
  { intros ρ x _. cbn [eval eval_binary]. by rewrite (proj2 (Z.eqb_neq _ _)). }
  destruct (Z.leb_spec (getBitWidth c) 64) as [H64|]; [|apply no_special; cbn [udiv_special]; by rewrite (proj2 (Z.leb_gt _ _)) by lia].
  pose proof (constant_range c Hc H64) as Hr. destruct (bits64_isPowerOfTwo (uval c)) eqn:Ep.
  - apply (special_case l _ UDiv _ lv (fun x => x / uval c)); [done|done| |done]. destruct (power_of_two _ Hr Ep) as (k & Hk & Ek & Ei).
    exists (bvRightShift lv k). split; [cbn [udiv_special]; rewrite (proj2 (Z.leb_le _ _)), getZExt_ok, bind_ret, Ep, Ei, bind_ret by (done || lia); done|].
    intros σ x Hx. rewrite Ek, <- Z.shiftr_div_pow2 by lia. apply bvRightShift_ok; [done|lia].
  - destruct (optimizeDivides && (w =? 32)) eqn:Eo.
    + apply (special_case l _ UDiv _ lv (fun x => x / uval c)); [done|done| |done]. apply andb_true_iff in Eo as [Eo E32]. apply Z.eqb_eq in E32.
      assert (u32 (uval c) = uval c) as Eu by (unfold u32; apply Z.mod_small; rewrite <- E32, Hw; lia).
      destruct (uniform (constructUDivByConstant lv 32 (uval c)) lv 32 32 (fun x => x / uval c)) as (v & E & Hv); [lia|by rewrite <- E32|intros σ x Hx; apply constructUDivByConstant_ok; [done|done|rewrite <- E32, Hw; lia]|].
      exists v. rewrite E32. split; [|exact Hv]. cbn [udiv_special]. rewrite (proj2 (Z.leb_le _ _)), getZExt_ok, bind_ret, Ep, Eo, Eu by (done || lia). cbn [andb Z.eqb Pos.eqb]. by rewrite E, bind_ret.
    + apply no_special. cbn [udiv_special]. by rewrite (proj2 (Z.leb_le _ _)), getZExt_ok, bind_ret, Ep, Eo by (done || lia).
Qed.

Lemma sdiv_special_ok : special_ok l (ConstantExpr c) SDiv (sdiv_special optimizeDivides).
Proof.
  intros lv Hlv. pose proof Hc as [Hcw Hcr]. destruct (optimizeDivides && negb (uval c =? 1) && negb (uval c =? 2 ^ getBitWidth c - 1) && (w =? 32)) eqn:Eo; [|apply no_special; cbn [sdiv_special]; by rewrite Eo].
  apply (special_case l _ SDiv _ lv (fun x => Z.quot (to_signed w x) (to_signed w (uval c)) mod 2 ^ w)); [done|done| |intros ρ x _; cbn [eval eval_binary]; by rewrite (proj2 (Z.eqb_neq _ _))].
  pose proof Eo as [_ E32%Z.eqb_eq]%andb_true_iff.
  destruct (uniform (constructSDivByConstant lv 32 (uval c)) lv 32 32 (fun x => Z.quot (to_signed 32 x) (to_signed 32 (uval c)) mod 2 ^ 32)) as (v & E & Hv);
    [lia|by rewrite <- E32|intros σ x Hx; apply constructSDivByConstant_ok; [done|rewrite <- E32, Hw; lia]|].
  exists v. cbn [sdiv_special]. rewrite Eo. rewrite E32. split; [|exact Hv]. rewrite getZExt_ok, bind_ret, E, bind_ret by (done || lia). done.
Qed.

Lemma urem_special_ok : special_ok l (ConstantExpr c) URem (urem_special optimizeDivides).
Proof.
  intros lv Hlv. pose proof Hc as [Hcw Hcr]. assert (forall ρ x, 0 <= x < 2 ^ w -> x mod uval c = eval_binary URem w x (eval ρ (ConstantExpr c))) as HF.
  { intros ρ x _. cbn [eval eval_binary]. by rewrite (proj2 (Z.eqb_neq _ _)). }
  destruct (Z.leb_spec (getBitWidth c) 64) as [H64|]; [|apply no_special; cbn [urem_special]; by rewrite (proj2 (Z.leb_gt _ _)) by lia].
  pose proof (constant_range c Hc H64) as Hr. destruct (bits64_isPowerOfTwo (uval c)) eqn:Ep.
  - apply (special_case l _ URem _ lv (fun x => x mod uval c)); [done|done| |done]. destruct (power_of_two _ Hr Ep) as (k & Hk & Ek & Ei).
    eexists. split; [cbn [urem_special]; rewrite (proj2 (Z.leb_le _ _)), getZExt_ok, bind_ret, Ep, Ei, bind_ret by (done || lia); done|].
    intros σ x Hx. pose proof (l_range _ _ _ _ Hx) as [Hwp _]. rewrite Ek in *. destruct (Z.eqb_spec k 0) as [-> |Hk0]; [rewrite Z.mod_1_r; by apply bvZero_ok|].
    assert (k < w) by (rewrite Hw; apply (Z.pow_lt_mono_r_iff 2); lia).
    eapply bv_eq; [apply l_concat; [apply bvZero_ok; lia|eapply l_extract; [exact Hx|lia|lia]]|lia|]. rewrite Z.pow_0_r, Z.div_1_r, Z.mul_0_l, Z.add_0_l. do 2 f_equal. lia.
  - destruct (optimizeDivides && (w =? 32)) eqn:Eo.
    + apply (special_case l _ URem _ lv (fun x => x mod uval c)); [done|done| |done]. apply andb_true_iff in Eo as [Eo E32]. apply Z.eqb_eq in E32.
      assert (u32 (uval c) = uval c) as Eu by (unfold u32; apply Z.mod_small; rewrite <- E32, Hw; lia). assert (0 < uval c < 2 ^ 32) as Hd by (rewrite <- E32, Hw; lia).
      destruct (uniform (constructUDivByConstant lv 32 (uval c)) lv 32 32 (fun x => x / uval c)) as (q & Eq & Hq); [lia|by rewrite <- E32|intros σ x Hx; by apply constructUDivByConstant_ok|].
      rewrite E32 in Hlv. destruct (uniform (constructMulByConstant q 32 (uval c)) lv 32 32 (fun x => (x / uval c * uval c) mod 2 ^ 32)) as (p & Epr & Hp);
        [lia|done|intros σ x Hx; apply constructMulByConstant_ok; [by apply Hq|lia|done]|].
      exists (vc_bvMinusExpr 32 lv p). rewrite E32. split.
      * cbn [urem_special]. rewrite (proj2 (Z.leb_le _ _)), getZExt_ok, bind_ret, Ep, Eo, Eu by (done || lia). cbn [andb Z.eqb Pos.eqb]. by rewrite Eq, bind_ret, Epr, bind_ret.
      * intros σ x Hx. pose proof (l_range _ _ _ _ Hx) as [_ Hxr]. eapply bv_eq; [apply l_minus; [exact Hx|by apply Hp]|done|]. rewrite Zminus_mod_idemp_r.
        pose proof (Z.div_mod x (uval c) Hc0). pose proof (Z.mod_pos_bound x (uval c) ltac:(lia)). replace (x - x / uval c * uval c) with (x mod uval c) by lia. apply Z.mod_small.
        assert (x mod uval c <= x) by (apply Z.mod_le; lia). lia.
    + apply no_special. cbn [urem_special]. by rewrite (proj2 (Z.leb_le _ _)), getZExt_ok, bind_ret, Ep, Eo by (done || lia).
Qed.

End Specials.

(** ** Products, shifts, and all operators *)

Section Operators.
Context (cons : Expr -> BM (VCExpr * Z)) (l r : Expr).
Context (Hl : constructs (cons l) l) (Hr : constructs (cons r) r) (Hwl : wf l) (Hwr : wf r) (Hw : getWidth l = getWidth r).

Abbreviation w := (getWidth l).
Abbreviation built k := (constructs (constructBinary optimizeDivides cons k l r) (BinaryExpr k l r)).

Lemma mul_ok : w <> 1 -> built Mul.
Proof.
  intros Hw1. cbn [constructBinary]. translated rv Hrv. rewrite <- Hw in *. width_checked.
  assert (yields ('(lv, width) ← cons l; mret (vc_bvMultExpr width lv rv, width)) (static (BinaryExpr Mul l r))
    (fun c σ ρ => (fits ρ r -> denotes σ rv w (eval ρ r)) -> dynamic (BinaryExpr Mul l r) c σ ρ)) as Hgen.
  { translated lv Hlv. eapply yields_weaken; [apply (ret_constructs (BinaryExpr Mul l r) _ w (fun σ ρ => (fits ρ l -> denotes σ lv w (eval ρ l)) /\ (fits ρ r -> denotes σ rv w (eval ρ r))))|done|cbn beta; tauto].
    - done.
    - apply typed_bv; [done|]. intros σ. destruct (typed_is_bv _ _ Hw1 Hlv σ) as [x Hx], (typed_is_bv _ _ Hw1 Hrv σ) as [y Hy]. eexists. by apply l_mult.
    - intros σ ρ [Hdl Hdr] (Hfl & Hfr & _). specialize (Hdl Hfl). specialize (Hdr Hfr). apply denotes_bv; [done|]. apply denotes_bv in Hdl, Hdr; [|done..]. by apply l_mult. }
  destruct l as [c| | | | | | | |] eqn:El; try exact Hgen. destruct (Z.leb_spec (getBitWidth c) 64) as [H64|]; [|exact Hgen]. clear Hgen. cbn [getWidth wf] in *.
  eapply outcome_bind_yields; [apply getZExt_ok; [done|done|lia]|].
  destruct (uniform (constructMulByConstant rv (getBitWidth c) (uval c)) rv (getBitWidth c) (getBitWidth c) (fun y => (y * uval c) mod 2 ^ getBitWidth c)) as (v & E & Hv);
    [done|done|intros σ y Hy; apply constructMulByConstant_ok; [done|done|by apply constant_range]|].
  eapply outcome_bind_yields; [exact E|]. eapply (ret_constructs (BinaryExpr Mul (ConstantExpr c) r) v (getBitWidth c) (fun σ ρ => fits ρ r -> denotes σ rv (getBitWidth c) (eval ρ r))).
  - done.
  - by apply (typed_result (ConstantExpr c) rv v (fun y => (y * uval c) mod 2 ^ getBitWidth c)).
  - intros σ ρ Hdr (_ & Hfr & _). specialize (Hdr Hfr). apply denotes_bv; [done|]. apply denotes_bv in Hdr; [|done]. cbn [eval eval_binary getWidth]. rewrite Z.mul_comm. by apply Hv.
Qed.

Lemma amount_value c : wf_apint c -> uval c < 2 ^ 32 -> u32 (ap_getLimitedValue c (2 ^ 64 - 1)) = uval c.
Proof. intros [_ Hc] H. rewrite ap_getLimitedValue_spec, Z.min_l by lia. unfold u32. apply Z.mod_small. lia. Qed.

Lemma wide_own : 0 < w -> wide_amount w w.
Proof. intros Hp. unfold wide_amount. pose proof (Z.log2_lt_lin w Hp). lia. Qed.

Lemma shift_ok k by_constant by_variable : w <> 1 -> isCmpKind k = false ->
  (forall lv amount, typed lv w -> 0 <= amount -> typed (by_constant w lv amount) w) ->
  (forall σ lv x c, r = ConstantExpr c -> is_bv σ lv w x -> fits_kind k w r (uval c) -> is_bv σ (by_constant w lv (u32 (ap_getLimitedValue c (2 ^ 64 - 1)))) w (eval_binary k w x (uval c))) ->
  (forall σ lv x rv y, is_bv σ lv w x -> is_bv σ rv w y -> exists v, by_variable lv rv = Done v /\ exists z, is_bv σ v w z /\ (fits_kind k w r y -> z = eval_binary k w x y)) ->
  constructs ('(lv, width) ← cons l; _ ← width_is (negb (width =? 1));
    match constant_amount r with
    | Some amount => mret (by_constant width lv amount, width)
    | None => '(amount, _) ← cons r; v ← of_outcome (by_variable lv amount); mret (v, width)
    end) (BinaryExpr k l r).
Proof.
  intros Hw1 Hk Hty Hcon Hvar. translated lv Hlv. width_checked.
  assert (yields ('(amount, _) ← cons r; v ← of_outcome (by_variable lv amount); mret (v, w)) (static (BinaryExpr k l r))
    (fun c σ ρ => (fits ρ l -> denotes σ lv w (eval ρ l)) -> dynamic (BinaryExpr k l r) c σ ρ)) as Hgen.
  { translated rv Hrv. rewrite <- Hw in *.
    destruct (typed_is_bv lv w Hw1 Hlv (fun _ _ => 0)) as [x0 Hx0]. destruct (typed_is_bv rv w Hw1 Hrv (fun _ _ => 0)) as [y0 Hy0]. destruct (Hvar _ _ _ _ _ Hx0 Hy0) as (v & E & _).
    eapply outcome_bind_yields; [exact E|]. eapply yields_weaken; [apply (left_result l r k lv v (fun σ ρ => fits ρ r -> denotes σ rv w (eval ρ r))); try done|done|cbn beta; tauto].
    - apply typed_bv; [done|]. intros σ. destruct (typed_is_bv _ _ Hw1 Hlv σ) as [x Hx], (typed_is_bv _ _ Hw1 Hrv σ) as [y Hy]. destruct (Hvar σ lv x rv y Hx Hy) as (v' & E' & z & Hz & _). exists z. congruence.
    - intros σ ρ Hdr (Hfl & Hfr & Hfk) Hx. specialize (Hdr Hfr). apply denotes_bv in Hdr; [|done]. destruct (Hvar σ lv _ rv _ Hx Hdr) as (v' & E' & z & Hz & Ez). cbn [eval]. rewrite <- (Ez Hfk). congruence. }
  destruct r as [c| | | | | | | |] eqn:Er; try exact Hgen. clear Hgen. cbn [constant_amount].
  eapply yields_weaken; [apply (left_result l (ConstantExpr c) k lv _ (fun _ _ => True)); try done|done|cbn beta; tauto].
  - apply Hty; [done|apply u32_range].
  - intros σ ρ _ (_ & _ & Hfk) Hx. cbn [eval]. by apply Hcon.
Qed.

Lemma shl_over x y : 0 <= x < 2 ^ w -> 0 < w <= y -> Z.shiftl x y mod 2 ^ w = 0.
Proof. intros Hx Hy. rewrite Z.shiftl_mul_pow2 by lia. replace (x * 2 ^ y) with (x * 2 ^ (y - w) * 2 ^ w) by (rewrite <- Z.mul_assoc, <- Z.pow_add_r by lia; do 2 f_equal; lia). apply Z_mod_mult. Qed.

Lemma shl_value x y : 0 <= x < 2 ^ w -> 0 < w -> Z.shiftl x y mod 2 ^ w = eval_binary Shl w x y.
Proof. intros Hx Hp. cbn [eval_binary]. destruct (Z.ltb_spec y w); [done|]. apply shl_over; [done|lia]. Qed.

Lemma ashr_eval x y : y < w -> ashr_value w x y = eval_binary AShr w x y.
Proof. intros Hy. unfold ashr_value. by rewrite (proj2 (Z.ltb_lt y w)). Qed.

Lemma typed_by lv v (F : Z -> Z) : w <> 1 -> typed lv w -> (forall σ x, is_bv σ lv w x -> is_bv σ v w (F x)) -> typed v w.
Proof. intros Hw1 Hlv H. by eapply typed_result. Qed.

Lemma constructBinary_ok k : canonical_kind k w r -> built k.
Proof.
  intros Hk. pose proof (wf_width l Hwl) as Hp. assert (forall c, r = ConstantExpr c -> wf_apint c /\ getWidth l = getBitWidth c) as Hrc by (by intros c ->).
  destruct k; cbn [canonical_kind] in Hk; try done.
  - apply arithmetic_ok; try done. intros σ a b x y Ha Hb. eexists. split; [by apply l_plus|done].
  - apply arithmetic_ok; try done. intros σ a b x y Ha Hb. eexists. split; [by apply l_minus|done].
  - by apply mul_ok.
  - destruct Hk as [Hw1 Hk]. apply division_ok; try done.
    + destruct r as [c| | | | | | | |]; try (intros lv Hlv; by apply no_special). destruct (Hrc c eq_refl). by apply udiv_special_ok.
    + intros σ a b x y Ha Hb. destruct (l_div _ _ _ _ _ _ Ha Hb) as (z & Hz & Ez). exists z. split; [done|]. cbn [fits_kind eval_binary]. intros Hy. rewrite (proj2 (Z.eqb_neq _ _)) by done. auto.
  - destruct Hk as [Hw1 Hk]. apply division_ok; try done.
    + destruct r as [c| | | | | | | |]; try (intros lv Hlv; by apply no_special). destruct (Hrc c eq_refl). by apply sdiv_special_ok.
    + intros σ a b x y Ha Hb. destruct (l_sdiv _ _ _ _ _ _ Ha Hb) as (z & Hz & Ez). exists z. split; [done|]. cbn [fits_kind eval_binary]. intros Hy. rewrite (proj2 (Z.eqb_neq _ _)) by done. auto.
  - destruct Hk as [Hw1 Hk]. apply division_ok; try done.
    + destruct r as [c| | | | | | | |]; try (intros lv Hlv; by apply no_special). destruct (Hrc c eq_refl). by apply urem_special_ok.
    + intros σ a b x y Ha Hb. destruct (l_mod _ _ _ _ _ _ Ha Hb) as (z & Hz & Ez). exists z. split; [done|]. cbn [fits_kind eval_binary]. intros Hy. rewrite (proj2 (Z.eqb_neq _ _)) by done. auto.
  - apply arithmetic_ok; try done. intros σ a b x y Ha Hb. destruct (l_srem _ _ _ _ _ _ Ha Hb) as (z & Hz & Ez). exists z. split; [done|]. cbn [fits_kind eval_binary]. intros Hy. rewrite (proj2 (Z.eqb_neq _ _)) by done. auto.
  - apply bitwise_ok; try done; [|intros; by apply l_bvand]. intros σ a b x y Hx Hy Ha Hb. cbn [eval_binary].
    replace (negb (Z.land x y =? 0)) with (negb (x =? 0) && negb (y =? 0)); [by apply l_and|]. assert (x = 0 \/ x = 1) as [-> | ->] by lia; assert (y = 0 \/ y = 1) as [-> | ->] by lia; done.
  - apply bitwise_ok; try done; [|intros; by apply l_bvor]. intros σ a b x y Hx Hy Ha Hb. cbn [eval_binary].
    replace (negb (Z.lor x y =? 0)) with (negb (x =? 0) || negb (y =? 0)); [by apply l_or|]. assert (x = 0 \/ x = 1) as [-> | ->] by lia; assert (y = 0 \/ y = 1) as [-> | ->] by lia; done.
  - apply bitwise_ok; try done; [|intros; by apply l_bvxor]. intros σ a b x y Hx Hy Ha Hb. cbn [eval_binary].
    replace (negb (Z.lxor x y =? 0)) with (if negb (x =? 0) then negb (negb (y =? 0)) else negb (y =? 0)); [apply l_ite_bool; auto using l_not|]. assert (x = 0 \/ x = 1) as [-> | ->] by lia; assert (y = 0 \/ y = 1) as [-> | ->] by lia; done.
  - destruct Hk as [Hw1 Hw32]. apply (shift_ok Shl (fun _ => bvLeftShift)); try done.
    + intros lv amount Hlv Ha. eapply typed_by; [done|exact Hlv|]. intros σ x Hx. by apply bvLeftShift_ok.
    + intros σ lv x c Er Hx Hf. destruct (Hrc c Er) as [Hcw _]. rewrite Er in Hf. cbn [fits_kind] in Hf. rewrite amount_value by done. pose proof (l_range _ _ _ _ Hx) as [_ Hxr]. rewrite <- shl_value by done. apply bvLeftShift_ok; [done|apply Hcw].
    + intros σ lv x rv y Hx Hy. destruct (bvVarLeftShift_ok σ lv w x rv w y Hx Hy (wide_own Hp) Hw32) as (v & E & Hv). exists v. split; [done|]. by eexists.
  - destruct Hk as [Hw1 Hw32]. apply (shift_ok LShr (fun _ => bvRightShift)); try done.
    + intros lv amount Hlv Ha. eapply typed_by; [done|exact Hlv|]. intros σ x Hx. by apply bvRightShift_ok.
    + intros σ lv x c Er Hx Hf. destruct (Hrc c Er) as [Hcw _]. rewrite Er in Hf. cbn [fits_kind] in Hf. rewrite amount_value by done. apply bvRightShift_ok; [done|apply Hcw].
    + intros σ lv x rv y Hx Hy. destruct (bvVarRightShift_ok σ lv w x rv w y Hx Hy (wide_own Hp) Hw32) as (v & E & Hv). exists v. split; [done|]. by eexists.
  - destruct Hk as [Hw1 Hw32]. apply (shift_ok AShr (fun width left amount => constructAShrByConstant left amount (bvBoolExtract left (width - 1)))); try done.
    + intros lv amount Hlv Ha. eapply typed_by; [done|exact Hlv|]. intros σ x Hx. apply constructAShrByConstant_ok; [done|done|]. apply (bvBoolExtract_ok σ lv w); [done|lia].
    + intros σ lv x c Er Hx Hf. destruct (Hrc c Er) as [Hcw _]. cbn [fits_kind] in Hf. rewrite amount_value by (done || lia). rewrite <- ashr_eval by done.
      apply constructAShrByConstant_ok; [done|apply Hcw|]. apply (bvBoolExtract_ok σ lv w); [done|lia].
    + intros σ lv x rv y Hx Hy. destruct (bvVarArithRightShift_ok σ lv w x rv w y Hx Hy (wide_own Hp) Hw32) as (v & E & Hv). exists v. split; [done|]. eexists. split; [exact Hv|]. apply ashr_eval.
  - by apply equality_built.
  - apply (comparison_ok _ _ _ Hl Hr Hw Ult _ Z.ltb); try done. intros. by eapply l_lt.
  - apply (comparison_ok _ _ _ Hl Hr Hw Ule _ Z.leb); try done. intros. by eapply l_le.
  - apply (comparison_ok _ _ _ Hl Hr Hw Slt _ (fun x y => to_signed w x <? to_signed w y)); try done. intros. by eapply l_slt.
  - apply (comparison_ok _ _ _ Hl Hr Hw Sle _ (fun x y => to_signed w x <=? to_signed w y)); try done. intros. by eapply l_sle.
Qed.

End Operators.

(** ** Arrays and tables *)

Lemma assoc_Some {K V} (same : K -> bool) (l : list (K * V)) v : assoc same l = Some v -> exists k, (k, v) ∈ l /\ same k = true.
Proof.
  unfold assoc. destruct (List.find _ l) as [[k v']|] eqn:E; [|done]. intros [= <-]. apply List.find_some in E as [Hin Hs]. exists k. split; [by apply list_elem_of_In|done].
Qed.

Lemma same_updates_eq k k' : same_updates k k' = true -> k = k'.
Proof. unfold same_updates. intros H%expr_eqb_eq. destruct k, k'. cbn in H. congruence. Qed.

Lemma agree_same σ ρ b b' : array_hash b = array_hash b' -> agree σ ρ b -> agree σ ρ b'.
Proof. intros E Ha r v. rewrite <- E. apply Ha. Qed.

(** Tables may change as long as what they hold is true. *)
Lemma knows_tables b es us : knows b ->
  (forall r u v, ((r, u), v) ∈ us -> array_typed v r /\ forall σ ρ, agree σ ρ b -> fits_updates ρ u -> contents σ v r (eval_read ρ r u)) ->
  (forall e v w, (e, (v, w)) ∈ es -> w = getWidth e /\ typed v w /\ forall σ ρ, agree σ ρ b -> fits ρ e -> denotes σ v w (eval ρ e)) ->
  knows (MkBuilder _ es (array_hash b) us).
Proof. intros [K1 K2 _ _] Hu He. split; try done. Qed.

Lemma memoized_ok e m : constructs m e -> constructs (memoized UseConstructHash e m) e.
Proof.
  intros Hm. unfold memoized. destruct (negb UseConstructHash || is_constant_expr e); [done|]. intros b Hb. unfold mbind, BM_bind, find_constructed. rewrite bind_ret.
  destruct (assoc (expr_eqb e) (constructed b)) as [[v w]|] eqn:Ef.
  - apply assoc_Some in Ef as (e' & Hin & Heq%expr_eqb_eq). subst e'. destruct (kn_exprs b Hb _ _ _ Hin) as (-> & Ht & Hd).
    exists (v, getWidth e), b. split; [done|]. split; [done|]. split; [by intros r u|]. split; [done|]. intros σ ρ Ha Hf. by apply Hd.
  - destruct (Hm b Hb) as ([v w] & b1 & E & Hb1 & Hg & [Hw Ht] & Hd). cbn in Hw, Ht. subst w. rewrite E. unfold mbind, BM_bind, insert_constructed, mret, BM_ret. rewrite !bind_ret.
    do 2 eexists. split; [done|]. split.
    + apply knows_tables; [done|by apply kn_nodes|]. intros e' v' w' [Hin|Hin]%elem_of_cons; [|by apply (kn_exprs b1)].
      injection Hin as -> -> ->. split_and!; [done|done|]. intros σ ρ Ha Hf. by apply (Hd σ ρ Ha).
    + split; [done|]. split; [done|]. intros σ ρ Ha Hf. apply (Hd σ ρ); [by eapply agree_same|done].
Qed.

Lemma getInitialArray_ok r : wf_array (array_at r) -> canonical_array (array_at r) ->
  yields (getInitialArray r) (fun v => array_typed v r) (fun v σ ρ => contents σ v r (initial_value ρ r)).
Proof.
  intros Hwf Hca b Hb. unfold getInitialArray, mbind, BM_bind, lookupArrayExpr. rewrite bind_ret. destruct (array_hash b !! r) as [v|] eqn:El.
  - exists v, b. destruct (kn_arrays b Hb r v El) as (_ & Ht & Hc). split; [done|]. split; [done|]. split; [by intros r' v'|]. split; [done|]. intros σ ρ Ha. destruct (isConstantArray (array_at r)) eqn:Ec; [by apply Hc|by apply (Ha r v)].
  - unfold number_of_arrays. rewrite bind_ret. set (a := array_at r) in *. set (name := arr_name a +:+ pretty (Z.of_nat (size (array_hash b)))).
    pose proof Hwf as (Hd & Hr & Hs & Hlen & _). pose proof (fun σ => l_array σ name (arr_domain a) (arr_range a) ltac:(lia) Hr) as Hvar.
    assert (exists v, (if isConstantArray a then of_outcome (write_constants a (Z.to_nat (arr_size a)) 0 (buildArray name (arr_domain a) (arr_range a))) else mret (buildArray name (arr_domain a) (arr_range a))) b = Done (v, b) /\
      array_typed v r /\ (isConstantArray a = true -> forall σ ρ, contents σ v r (initial_value ρ r)) /\ (isConstantArray a = false -> v = buildArray name (arr_domain a) (arr_range a))) as (v & E & Ht & Hc & Hn).
    { destruct (isConstantArray a) eqn:Ec.
      - destruct (write_constants_ok a (Z.to_nat (arr_size a)) 0 Hwf Hca ltac:(lia) ltac:(lia) Ec (buildArray name (arr_domain a) (arr_range a))) as (v & E & Hv). exists v.
        split; [unfold of_outcome; by rewrite E, bind_ret|]. split_and!; [|intros _ σ ρ|done].
        + intros σ. destruct (Hv σ _ (Hvar σ)) as (g & Hg & _). by exists g.
        + destruct (Hv σ _ (Hvar σ)) as (g & Hg & _ & Hval). exists g. split; [exact Hg|]. intros i Hi Hlt. specialize (Hlt Ec). fold a in Hlt. unfold initial_value. fold a. rewrite Ec, (proj2 (Z.ltb_lt _ _)) by done.
          destruct (lookup_lt_is_Some_2 (constantValues a) (Z.to_nat i)) as [c Ecv]; [specialize (Hlen eq_refl); lia|]. rewrite Ecv. apply (Hval i c); [lia|done].
      - exists (buildArray name (arr_domain a) (arr_range a)). split_and!; try done. intros σ. eexists. apply Hvar. }
    unfold mret, BM_ret in *. fold a name. rewrite E, bind_ret. unfold hashArrayExpr. rewrite bind_ret. set (b' := MkBuilder _ _ _ _).
    assert (grows b b') as Hg. { intros r' v' Hv'. unfold b'. cbn. rewrite lookup_insert_ne by congruence. done. }
    assert (array_hash b' !! r = Some v) as Elr by (unfold b'; cbn; by rewrite lookup_insert_eq).
    exists v, b'. split; [done|]. split; [|split; [done|split; [done|]]].
    + split.
      * intros r' v'. unfold b'. cbn. intros [[<- <-]|[_ Hv']]%lookup_insert_Some; [by split_and!|by apply (kn_arrays b Hb)].
      * destruct (kn_names b Hb) as (id & Hid & Hinj). exists (fun x => if decide (x = r) then Z.of_nat (size (array_hash b)) else id x).
        assert (size (array_hash b') = S (size (array_hash b))) as Esz by (unfold b'; cbn; by rewrite map_size_insert_None). split.
        -- intros r' v'. rewrite Esz. unfold b'. cbn. intros [[<- <-]|[Hne Hv']]%lookup_insert_Some.
           ++ rewrite decide_True by done. split; [lia|]. intros Ec. by apply Hn.
           ++ rewrite decide_False by done. destruct (Hid r' v' Hv') as [H1 H2]. split; [lia|done].
        -- intros r1 r2. unfold b'. cbn. rewrite !lookup_insert_is_Some. intros H1 H2. destruct (decide (r1 = r)) as [-> |Hn1], (decide (r2 = r)) as [-> |Hn2]; try done.
           ++ destruct H2 as [|[_ [v2 Hv2]]]; [done|]. destruct (Hid r2 v2 Hv2). lia.
           ++ destruct H1 as [|[_ [v1 Hv1]]]; [done|]. destruct (Hid r1 v1 Hv1). lia.
           ++ destruct H1 as [|[_ H1]], H2 as [|[_ H2]]; try done. by apply Hinj.
      * intros r' u v' Hin. destruct (kn_nodes b Hb r' u v' Hin) as [Ht' Hd']. split; [done|]. intros σ ρ Ha. apply Hd'. by eapply agree_grows.
      * intros e v' w Hin. destruct (kn_exprs b Hb e v' w Hin) as (Hw' & Ht' & Hd'). split_and!; [done|done|]. intros σ ρ Ha. apply Hd'. by eapply agree_grows.
    + intros σ ρ Ha. destruct (isConstantArray a) eqn:Ec; [by apply Hc|by apply (Ha r v)].
Qed.

(** ** Every expression *)

(** A result from one translated operand. *)
Lemma unary_ok m src e v (F : Z -> Z) : constructs m src -> wf src -> (forall lv, typed lv (getWidth src) -> forall σ x, 0 <= x < 2 ^ getWidth src -> denotes σ lv (getWidth src) x -> denotes σ (v lv (getWidth src)) (getWidth e) (F x)) ->
  (forall ρ, fits ρ e -> fits ρ src /\ eval ρ e = F (eval ρ src)) -> forall k : VCExpr * Z -> BM (VCExpr * Z), (forall lv, k (lv, getWidth src) = mret (v lv (getWidth src), getWidth e)) -> constructs (m ≫= k) e.
Proof.
  intros Hm Hwf Hd Hf k Hk. eapply constructs_bind; [exact Hm|]. intros lv Hlv. rewrite Hk. apply ret_constructs; [done| |].
  - apply typed_of. intros σ. destruct (Hlv σ) as (x & Hx & Hdx). eexists. by apply Hd.
  - intros σ ρ Hdl Hfe. destruct (Hf ρ Hfe) as [Hfs ->]. apply Hd; [done|by apply eval_range|by apply Hdl].
Qed.

Lemma truth_value x : 0 <= x < 2 ^ 1 -> x = 0 \/ x = 1.
Proof. change (2 ^ 1) with 2. lia. Qed.

Abbreviation translate := (construct_in UseConstructHash optimizeDivides).
Abbreviation translate_updates := (getArrayForUpdate UseConstructHash optimizeDivides).

Definition expr_ok (e : Expr) : Prop := wf e -> canonical e -> constructs (translate e) e.
Definition updates_ok (u : UpdateNode) : Prop := forall r, wf_array (array_at r) -> canonical_array (array_at r) -> wf_updates r u -> canonical_updates u ->
  yields (translate_updates r u) (fun v => array_typed v r) (fun v σ ρ => fits_updates ρ u -> contents σ v r (eval_read ρ r u)).

Lemma read_built r u i : updates_ok u -> expr_ok i -> expr_ok (ReadExpr r u i).
Proof.
  intros Hu Hi (Hwa & Hwu & Hwi & Hwidth) (Hca & Hcu & Hci). apply memoized_ok. cbn [constructActual]. pose proof Hca as (Hd1 & Hr1 & _). pose proof Hwa as (Hd & Hr & _).
  eapply yields_bind; [by apply Hu|]. intros a Ha. cbv beta. eapply constructs_bind; [by apply Hi|]. intros iv Hiv. cbv beta iota.
  eapply yields_weaken; [apply (ret_constructs (ReadExpr r u i) _ (rng r) (fun σ ρ => (fits ρ i -> denotes σ iv (getWidth i) (eval ρ i)) /\ (fits_updates ρ u -> contents σ a r (eval_read ρ r u))))|done|cbn beta; tauto].
  - done.
  - apply typed_bv; [done|]. intros σ. destruct (Ha σ) as [f Hf]. rewrite Hwidth in Hiv. destruct (typed_is_bv _ _ Hd1 Hiv σ) as [x Hx]. eexists. eapply l_read; eassumption.
  - intros σ ρ [Hdi Hdu] (Hfu & Hfi & Hbound). cbn [getWidth eval]. apply denotes_bv; [done|]. specialize (Hdi Hfi). rewrite Hwidth in Hdi. apply denotes_bv in Hdi; [|done].
    destruct (Hdu Hfu) as (f & Hf & Hval). rewrite <- Hval; [by eapply l_read|rewrite <- Hwidth; by apply eval_range|done].
Qed.

Lemma select_ok c t f : expr_ok c -> expr_ok t -> expr_ok f -> expr_ok (SelectExpr c t f).
Proof.
  intros Hc Ht Hf (Hwc & Hwt & Hwf & Hcw & Hw) (Hcc & Hct & Hcf). apply memoized_ok. cbn [constructActual].
  eapply constructs_bind; [by apply Hc|]. intros cv Hcv. eapply constructs_bind; [by apply Ht|]. intros tv Htv. eapply constructs_bind; [by apply Hf|]. intros fv Hfv. cbv beta iota. rewrite Hcw in *. rewrite <- Hw in *.
  assert (forall σ c x y, denotes σ cv Bool c -> denotes σ tv (getWidth t) x -> denotes σ fv (getWidth t) y -> denotes σ (vc_iteExpr cv tv fv) (getWidth t) (if c =? 0 then y else x)) as Hd.
  { intros σ b x y Hb. apply denotes_bool in Hb. unfold denotes. destruct (getWidth t =? 1); intros Hx Hy.
    - replace (negb ((if b =? 0 then y else x) =? 0)) with (if negb (b =? 0) then negb (x =? 0) else negb (y =? 0)) by (by destruct (b =? 0)). by apply l_ite_bool.
    - replace (if b =? 0 then y else x) with (if negb (b =? 0) then x else y) by (by destruct (b =? 0)). by apply l_ite. }
  eapply yields_weaken; [apply (ret_constructs (SelectExpr c t f) _ (getWidth t)
    (fun σ ρ => (fits ρ f -> denotes σ fv (getWidth t) (eval ρ f)) /\ (fits ρ t -> denotes σ tv (getWidth t) (eval ρ t)) /\ (fits ρ c -> denotes σ cv Bool (eval ρ c))))|done|cbn beta; tauto].
  - done.
  - apply typed_of. intros σ. destruct (Hcv σ) as (b & _ & Hb), (Htv σ) as (x & _ & Hx), (Hfv σ) as (y & _ & Hy). eexists. by apply Hd.
  - intros σ ρ (Hdf & Hdt & Hdc) (H1 & H2 & H3). cbn [getWidth eval]. apply Hd; auto.
Qed.

Lemma concat_ok l r : expr_ok l -> expr_ok r -> expr_ok (ConcatExpr l r).
Proof.
  intros Hl Hr (Hwl & Hwr) (Hcl & Hcr & Hl1 & Hr1). apply memoized_ok. cbn [constructActual]. pose proof (wf_width l Hwl). pose proof (wf_width r Hwr).
  eapply constructs_bind; [by apply Hr|]. intros rv Hrv. eapply constructs_bind; [by apply Hl|]. intros lv Hlv. cbv beta iota.
  eapply yields_weaken; [apply (ret_constructs (ConcatExpr l r) _ (getWidth l + getWidth r) (fun σ ρ => (fits ρ r -> denotes σ rv (getWidth r) (eval ρ r)) /\ (fits ρ l -> denotes σ lv (getWidth l) (eval ρ l))))|done|cbn beta; tauto].
  - done.
  - apply typed_bv; [lia|]. intros σ. destruct (typed_is_bv _ _ Hl1 Hlv σ) as [x Hx], (typed_is_bv _ _ Hr1 Hrv σ) as [y Hy]. eexists. by apply l_concat.
  - intros σ ρ [Hdr Hdl] [Hfl Hfr]. specialize (Hdl Hfl). specialize (Hdr Hfr). cbn [getWidth eval]. apply denotes_bv; [lia|]. apply denotes_bv in Hdl, Hdr; [|done..]. by apply l_concat.
Qed.

Lemma extract_ok src off n : expr_ok src -> expr_ok (ExtractExpr src off n).
Proof.
  intros Hs (Hwf & Hoff & Hn & Hle) (Hc & Hw1). apply memoized_ok. cbn [constructActual].
  eapply (unary_ok _ src (ExtractExpr src off n) (fun lv _ => if n =? 1 then bvBoolExtract lv off else vc_bvExtract lv (off + n - 1) off) (fun x => (x / 2 ^ off) mod 2 ^ n)); [by apply Hs|done| |by intros ρ Hf|done].
  intros lv _ σ x Hx Hd. apply denotes_bv in Hd; [|done]. cbn [getWidth]. unfold denotes. destruct (Z.eqb_spec n 1) as [-> |Hn1].
  - replace (negb ((x / 2 ^ off) mod 2 ^ 1 =? 0)) with (Z.testbit x off); [by eapply bvBoolExtract_ok; [exact Hd|lia]|].
    change (2 ^ 1) with 2. rewrite <- Z.testbit_spec' by lia. by destruct (Z.testbit x off).
  - eapply bv_eq; [eapply l_extract; [exact Hd|lia|lia]|lia|]. do 2 f_equal. lia.
Qed.

Lemma not_ok src : expr_ok src -> expr_ok (NotExpr src).
Proof.
  intros Hs Hwf Hc. cbn [wf canonical] in *. apply memoized_ok. cbn [constructActual].
  eapply (unary_ok _ src (NotExpr src) (fun lv w => if w =? 1 then vc_notExpr lv else vc_bvNotExpr lv) (fun x => Z.lnot x mod 2 ^ getWidth src)); [by apply Hs|done| |by intros ρ Hf|done].
  intros lv _ σ x Hx Hd. cbn [getWidth]. unfold denotes in *. destruct (Z.eqb_spec (getWidth src) 1) as [E|]; [|by apply l_bvnot]. rewrite E in *.
  apply l_not in Hd. destruct (truth_value x Hx) as [-> | ->]; exact Hd.
Qed.

Definition cast_value (k : CastKind) (n : Z) (lv : VCExpr) (w : Z) : VCExpr :=
  match k with
  | ZExt => if w =? 1 then vc_iteExpr lv (bvOne n) (bvZero n) else vc_bvConcatExpr (bvZero (n - w)) lv
  | SExt => if w =? 1 then vc_iteExpr lv (bvMinusOne n) (bvZero n) else vc_bvSignExtend lv n
  end.

Lemma cast_value_ok k src n lv σ x : 0 < getWidth src < n -> 0 <= x < 2 ^ getWidth src -> denotes σ lv (getWidth src) x -> denotes σ (cast_value k n lv (getWidth src)) n (eval_cast k (getWidth src) n x).
Proof.
  intros Hp Hx Hd. apply denotes_bv; [lia|]. unfold cast_value, denotes in *. pose proof (pow2_ge2 n ltac:(lia)). destruct (Z.eqb_spec (getWidth src) 1) as [E|Hne].
  - rewrite E in *. destruct k; cbn [eval_cast].
    + eapply bv_eq; [apply l_ite; [exact Hd|apply bvOne_ok; lia|apply bvZero_ok; lia]|done|]. destruct (truth_value x Hx) as [-> | ->]; cbn [Z.eqb negb]; symmetry; apply Z.mod_small; lia.
    + eapply bv_eq; [apply l_ite; [exact Hd|apply bvMinusOne_ok; lia|apply bvZero_ok; lia]|done|]. destruct (truth_value x Hx) as [-> | ->]; cbn [Z.eqb negb]; [done|].
      change (to_signed 1 1) with (-1). apply (Z.mod_unique _ _ (-1)); lia.
  - assert (2 ^ getWidth src <= 2 ^ n) by (apply pow2_mono; lia). destruct k; cbn [eval_cast]; [|apply l_sext; [done|lia]].
    eapply bv_eq; [apply l_concat; [apply bvZero_ok; lia|exact Hd]|lia|]. rewrite Z.mod_small by lia. lia.
Qed.

Lemma cast_ok k src n : expr_ok src -> expr_ok (CastExpr k src n).
Proof.
  intros Hs (Hwf & _) (Hc & Hlt). pose proof (wf_width src Hwf) as Hp. apply memoized_ok.
  destruct k; cbn [constructActual].
  - eapply (unary_ok _ src (CastExpr ZExt src n) (cast_value ZExt n) (eval_cast ZExt (getWidth src) n)); [by apply Hs|done|intros; by apply cast_value_ok|by intros ρ Hf|done].
  - eapply (unary_ok _ src (CastExpr SExt src n) (cast_value SExt n) (eval_cast SExt (getWidth src) n)); [by apply Hs|done|intros; by apply cast_value_ok|by intros ρ Hf|done].
Qed.

Lemma binary_ok k l r : expr_ok l -> expr_ok r -> expr_ok (BinaryExpr k l r).
Proof. intros Hl Hr (Hwl & Hwr & Hw) (Hcl & Hcr & Hk). apply memoized_ok. cbn [constructActual]. apply constructBinary_ok; auto. Qed.

Lemma null_updates_ok : updates_ok UNull.
Proof. intros r Hwa Hca _ _. eapply yields_weaken; [by apply getInitialArray_ok|done|]. intros v σ ρ _ H _. exact H. Qed.

Lemma getArrayForUpdate_node r n i v b : translate_updates r (UNode n i v) b =
  match assoc (same_updates (r, UNode n i v)) (update_node_hash b) with
  | Some un_expr => Done (un_expr, b)
  | None => (a ← translate_updates r n; '(iv, _) ← translate i; '(vv, _) ← translate v;
             let un_expr := vc_writeExpr a iv vv in _ ← hashUpdateNodeExpr r (UNode n i v) un_expr; mret un_expr) b
  end.
Proof. cbn. unfold mbind, BM_bind, lookupUpdateNodeExpr. rewrite bind_ret. by destruct (assoc _ _). Qed.

Lemma node_updates_ok n i v : updates_ok n -> expr_ok i -> expr_ok v -> updates_ok (UNode n i v).
Proof.
  intros Hn Hi Hv r Hwa Hca (Hwn & Hwi & Hwv & Hiw & Hvw) (Hcn & Hci & Hcv) b Hb. pose proof Hca as (Hd1 & Hr1 & _). rewrite getArrayForUpdate_node.
  destruct (assoc _ (update_node_hash b)) as [uv|] eqn:Ef.
  { apply assoc_Some in Ef as ([r' u'] & Hin & Heq%same_updates_eq). injection Heq as <- <-. destruct (kn_nodes b Hb _ _ _ Hin) as [Ht Hd]. exists uv, b. split; [done|]. split; [done|]. split; [by intros r' v'|]. split; [done|]. intros σ ρ Ha Hf. by apply Hd. }
  assert (yields (a ← translate_updates r n; '(iv, _) ← translate i; '(vv, _) ← translate v; mret (vc_writeExpr a iv vv)) (fun w => array_typed w r)
    (fun w σ ρ => fits_updates ρ (UNode n i v) -> contents σ w r (eval_read ρ r (UNode n i v)))) as Hy.
  { eapply yields_bind; [by apply Hn|]. intros a Ha. cbv beta. eapply constructs_bind; [by apply Hi|]. intros iv Hiv. eapply constructs_bind; [by apply Hv|]. intros vv Hvv. cbv beta iota. rewrite Hiw, Hvw in *. apply yields_ret.
    - intros σ. destruct (Ha σ) as [f Hf]. destruct (typed_is_bv _ _ Hd1 Hiv σ) as [x Hx], (typed_is_bv _ _ Hr1 Hvv σ) as [y Hy]. eexists. by apply l_write.
    - intros σ ρ Hdv Hdi Hda (Hfn & Hfi & Hfv). specialize (Hdi Hfi). specialize (Hdv Hfv). apply denotes_bv in Hdi, Hdv; [|done..]. destruct (Hda Hfn) as (f & Hf & Hval).
      eexists. split; [by apply l_write|]. intros j Hj Hb'. cbn [eval_read]. destruct (Z.eqb_spec (eval ρ i) j); [done|by apply Hval]. }
  destruct (Hy b Hb) as (w & b' & E & Hb' & Hg & Hw & Hd). exists w, (MkBuilder _ (constructed b') (array_hash b') (((r, UNode n i v), w) :: update_node_hash b')). split.
  - revert E. unfold mbind, BM_bind, mret, BM_ret. destruct (translate_updates r n b) as [[a b1]| | |]; [|done..]. rewrite !bind_ret. destruct (translate i b1) as [[[iv iw] b2]| | |]; [|done..]. rewrite !bind_ret.
    destruct (translate v b2) as [[[vv vw] b3]| | |]; [|done..]. rewrite !bind_ret. intros [= <- <-]. unfold hashUpdateNodeExpr. by rewrite bind_ret.
  - split; [|split; [done|split; [done|]]].
    + apply knows_tables; [done| |by apply kn_exprs]. intros r' u' v' [Hin|Hin]%elem_of_cons; [|by apply (kn_nodes b')]. injection Hin as -> -> ->. split; [done|]. intros σ ρ Ha. by apply Hd.
    + intros σ ρ Ha. apply Hd. by eapply agree_same.
Qed.

Lemma construct_all : (forall e, expr_ok e) /\ forall u, updates_ok u.
Proof.
  apply Expr_UpdateNode_ind.
  - intros c Hwf _. apply memoized_ok. cbn [constructActual]. destruct (constructConstant_ok c Hwf) as (v & E & Hv). apply yields_outcome. eexists. split; [exact E|]. split; [split; [done|]|].
    + intros σ. exists (uval c). split; [apply Hwf|apply Hv].
    + intros σ ρ _. apply Hv.
  - intros s Hs Hwf Hc. apply memoized_ok. cbn [constructActual]. by apply Hs.
  - intros r u Hu i Hi. by apply read_built.
  - intros c Hc t Ht f Hf. by apply select_ok.
  - intros l Hl r Hr. by apply concat_ok.
  - intros s Hs off n. by apply extract_ok.
  - intros s Hs. by apply not_ok.
  - intros k s Hs n. by apply cast_ok.
  - intros k l Hl r Hr. by apply binary_ok.
  - apply null_updates_ok.
  - intros n Hn i Hi v Hv. by apply node_updates_ok.
Qed.

(** The public operation, which empties the table. *)
Lemma construct_ok e : wf e -> canonical e -> forall b, knows b -> exists v b', construct UseConstructHash optimizeDivides e b = Done (v, b') /\ knows b' /\ grows b b' /\ typed v (getWidth e) /\
  constructed b' = [] /\ forall σ ρ, agree σ ρ b' -> fits ρ e -> denotes σ v (getWidth e) (eval ρ e).
Proof.
  intros Hwf Hc b Hb. destruct (proj1 construct_all e Hwf Hc b Hb) as ([v w] & b' & E & Hb' & Hg & [Hw Ht] & Hd). cbn in Hw, Ht. subst w.
  exists v, (MkBuilder _ [] (array_hash b') (update_node_hash b')). unfold construct, mbind, BM_bind. rewrite E, bind_ret. unfold clear_constructed. rewrite bind_ret. split; [done|].
  split; [apply knows_tables; [done|by apply kn_nodes|by intros e' v' w' ?%elem_of_nil]|]. split; [done|]. split; [done|]. split; [done|]. intros σ ρ Ha Hf. apply (Hd σ ρ); [by eapply agree_same|done].
Qed.

Lemma knows_nothing : knows (MkBuilder _ [] ∅ []).
Proof.
  split; cbn; [by intros r v|exists (fun _ => 0); split; [by intros r v|by intros r r' [v Hv]]|by intros r u v ?%elem_of_nil|by intros e v w ?%elem_of_nil].
Qed.

End Construct.
