(* ===== verification/STPSolver.v ===== *)
(** The solver STP (lib/Solver/STPSolver.cpp): a query is translated, asked, and the
    bytes of the objects are read off the counterexample, in this process or in a
    child.

    The library's answers and what becomes of the child are arguments.  Statistics, the
    dump of queries and warnings are left out; where a failure ends the process, so does
    the model.

    What STP promises of its answers, and that the solver keeps the contract of
    counterexamples. *)
From stdpp Require Import base numbers list strings gmap pretty.
From Stdlib Require Import ZArith Lia Ascii.
From S2P Require Import Prelude APInt Bits Expr Semantics ConstantOps ExprCreate CreateSound ExprWeight Visitor FindReads Solver Constraints Evaluator SymbolicObjects InitialValues ConstantDivision STPBuilder STPSound.
Local Open Scope Z_scope.

#[local] Existing Instance BM_ret.
#[local] Existing Instance BM_bind.

Inductive SolverRunStatus : Type :=
| SUCCESS_SOLVABLE | SUCCESS_UNSOLVABLE | FAILURE | TIMEOUT | FORK_FAILED | INTERRUPTED | UNEXPECTED_EXIT_CODE | WAITPID_FAILED.

(** [vc_query] under the assertions made since [vc_push]: 0 when the formula is not
    valid, 1 when it is, 2 on an error, 3 on a timeout; then the counterexample. *)
Class STPQueries (VC : STP) : Type := {
  vc_query : list VCExpr -> VCExpr -> Z;
  vc_getCounterExample : list VCExpr -> VCExpr -> VCExpr -> VCExpr;
  getBVUnsigned : VCExpr -> Z
}.

(** What the system makes of the child that asks. *)
Inductive Fate : Type := ForkFails | WaitFails | Signaled | TimedOut | Finished.

Class Processes (VC : STP) : Type := { fate : list VCExpr -> VCExpr -> Fate }.

Class STPOptions : Type := { IgnoreSolverFailures : bool; UseForkedSTP : bool; STPConstructHash : bool; OptimizeDivides : bool }.

Record STPSolverImpl {VC : STP} : Type := MkSTPSolver { builder : STPBuilder VC; runStatusCode : SolverRunStatus }.
Arguments STPSolverImpl VC : clear implicits.

Section Solver.
Context {VC : STP} {VQ : STPQueries VC} {PR : Processes VC} {SO : STPOptions} {WS : WideShifts}.
Context {AP : APIntOps} {AH : ArrayHeap} {OP : ExprOptions} {VO : VisitorOptions}.

Definition stp_new : STPSolverImpl VC := MkSTPSolver _ (MkBuilder _ [] ∅ []) FAILURE.

(** The element of an object in the counterexample, as a byte. *)
Definition counter_byte (asserted : list VCExpr) (q : VCExpr) (object : positive) (offset : Z) : BM Z :=
  e ← getInitialRead object offset;
  mret (getBVUnsigned (vc_getCounterExample asserted q e) mod 2 ^ 8).

Definition counter_object (asserted : list VCExpr) (q : VCExpr) (object : positive) : BM (list Z) :=
  mapM (counter_byte asserted q object) (seqZ 0 (arr_size (array_at object))).

Definition counter_objects (asserted : list VCExpr) (q : VCExpr) (objects : list positive) : BM (list (list Z)) :=
  mapM (counter_object asserted q) objects.

Definition runAndGetCex (asserted : list VCExpr) (q : VCExpr) (objects : list positive) : BM (SolverRunStatus * option bool * list (list Z)) :=
  let hasSolution := vc_query asserted q =? 0 in
  if negb hasSolution then mret (SUCCESS_UNSOLVABLE, Some false, [])
  else values ← counter_objects asserted q objects; mret (SUCCESS_SOLVABLE, Some true, values).

Definition shared_memory_size : Z := 2 ^ 20.

(** A failure of the system: a warning, and the end of the process unless it is to be
    ignored. *)
Definition solver_failure (code : SolverRunStatus) : outcome (SolverRunStatus * option bool * list (list Z)) :=
  if IgnoreSolverFailures then Done (code, None, []) else AssertFail.

Definition total_size (objects : list positive) : Z := foldr (fun o n => arr_size (array_at o) + n) 0 objects.

(** The bytes that the child stores in the shared memory; its builder is lost. *)
Definition child_values (asserted : list VCExpr) (q : VCExpr) (objects : list positive) (b : STPBuilder VC) : outcome (list (list Z)) :=
  '(values, _) ← counter_objects asserted q objects b;
  if total_size objects <=? shared_memory_size then Done values else Undefined.

Definition runAndGetCexForked (asserted : list VCExpr) (q : VCExpr) (objects : list positive) : BM (SolverRunStatus * option bool * list (list Z)) :=
  fun b =>
  let sum := foldl (fun sum o => u32 (sum + arr_size (array_at o))) 0 objects in
  if shared_memory_size <=? sum then AssertFail
  else
    r ← (match fate asserted q with
         | ForkFails => solver_failure FORK_FAILED
         | WaitFails => solver_failure WAITPID_FAILED
         | Signaled => solver_failure INTERRUPTED
         | TimedOut => Done (TIMEOUT, None, [])
         | Finished =>
             let exitcode := vc_query asserted q in
             if exitcode =? 0 then values ← child_values asserted q objects b; Done (SUCCESS_SOLVABLE, Some true, values)
             else if exitcode =? 1 then Done (SUCCESS_UNSOLVABLE, Some false, [])
             else if exitcode =? 52 then Done (TIMEOUT, None, [])
             else solver_failure UNEXPECTED_EXIT_CODE
         end);
    Done (r, b).

Definition succeeded (code : SolverRunStatus) : bool := match code with SUCCESS_SOLVABLE | SUCCESS_UNSOLVABLE => true | _ => false end.

(** The constraints, in their order, and the expression. *)
Definition translate_query (q : Query) : BM (list VCExpr * VCExpr) :=
  asserted ← mapM (construct STPConstructHash OptimizeDivides) (constraints q);
  stp_e ← construct STPConstructHash OptimizeDivides (q_expr q);
  mret (asserted, stp_e).

Definition stp_computeInitialValues (q : Query) (objects : list positive) (s : STPSolverImpl VC) : outcome (InitialResult * STPSolverImpl VC) :=
  '(r, b) ← ('(asserted, stp_e) ← translate_query q;
             (if UseForkedSTP then runAndGetCexForked else runAndGetCex) asserted stp_e objects) (builder s);
  let '(code, hasSolution, values) := r in
  let success := if UseForkedSTP then succeeded code else true in
  Done (MkInitial success hasSolution values, MkSTPSolver _ b code).

Definition stp_computeTruth (q : Query) (s : STPSolverImpl VC) : outcome (option bool * STPSolverImpl VC) :=
  '(r, s) ← stp_computeInitialValues q [] s;
  if negb (iv_success r) then Done (None, s)
  else hasSolution ← deref (iv_hasSolution r); Done (Some (negb hasSolution), s).

(** The result is an expression; the caller takes it for a constant. *)
Definition stp_computeValue (q : Query) (s : STPSolverImpl VC) : outcome (option Expr * STPSolverImpl VC) :=
  let objects := findSymbolicObjects [q_expr q] in
  '(r, s) ← stp_computeInitialValues (withFalse q) objects s;
  if negb (iv_success r) then Done (None, s)
  else
    hasSolution ← deref (iv_hasSolution r);
    Assert hasSolution ;;
    a ← Assignment_make objects (iv_values r) false;
    e ← Assignment_evaluate a (q_expr q);
    Done (Some e, s).

End Solver.

(** ** Names *)

Definition is_digit (c : ascii) : bool := bool_decide (c ∈ ["0"; "1"; "2"; "3"; "4"; "5"; "6"; "7"; "8"; "9"]%char).

Fixpoint all_digits (s : string) : bool :=
  match s with EmptyString => true | String c s => is_digit c && all_digits s end.

(** Of two names that give the same string when digits are appended, one is the other
    with digits appended. *)
Lemma digits_inj n1 : forall n2 d1 d2, all_digits d1 = true -> all_digits d2 = true -> n1 +:+ d1 = n2 +:+ d2 ->
  exists d, all_digits d = true /\ (n2 = n1 +:+ d /\ d1 = d +:+ d2 \/ n1 = n2 +:+ d /\ d2 = d +:+ d1).
Proof.
  assert (forall a b, all_digits (a +:+ b) = true -> all_digits a = true) as Hpre.
  { induction a as [|c a IH]; [done|]. intros b [Hc Hab]%andb_true_iff. cbn. rewrite Hc. by eapply IH. }
  induction n1 as [|c n1 IH]; intros n2 d1 d2 H1 H2 E.
  - change (d1 = n2 +:+ d2) in E. exists n2. rewrite E in H1. split; [by eapply Hpre|by left].
  - destruct n2 as [|c' n2]; [change (String c n1 +:+ d1 = d2) in E; exists (String c n1); rewrite <- E in H2; split; [by eapply Hpre|by right]|].
    injection E as -> E. destruct (IH n2 d1 d2 H1 H2 E) as (d & Hd & [[-> ->]|[-> ->]]); exists d; (split; [done|]); [by left|by right].
Qed.

Lemma pretty_N_go_digits x : forall s, all_digits s = true -> all_digits (pretty_N_go x s) = true.
Proof.
  induction (N.lt_wf_0 x) as [x _ IH]. intros s Hs. destruct (decide (x = 0)%N) as [-> |Hne]; [by rewrite pretty_N_go_0|].
  rewrite pretty_N_go_step by lia. apply IH; [by apply N.div_lt; lia|]. cbn [all_digits]. rewrite Hs, andb_true_r. unfold pretty_N_char. by repeat case_match.
Qed.

Lemma pretty_digits x : 0 <= x -> all_digits (pretty x) = true.
Proof.
  intros Hx. destruct x as [|p|p]; [done| |lia]. unfold pretty, pretty_Z, pretty, pretty_positive, pretty, pretty_N. case_decide; [done|]. by apply pretty_N_go_digits.
Qed.

Lemma names_inj n1 n2 x y : (forall d, all_digits d = true -> n2 = n1 +:+ d -> d = EmptyString) -> (forall d, all_digits d = true -> n1 = n2 +:+ d -> d = EmptyString) ->
  0 <= x -> 0 <= y -> n1 +:+ pretty x = n2 +:+ pretty y -> x = y.
Proof.
  intros H1 H2 Hx Hy E. apply (inj pretty). destruct (digits_inj n1 n2 (pretty x) (pretty y)) as (d & Hd & [[Hn E']|[Hn E']]); [by apply pretty_digits..|exact E| |].
  - by rewrite (H1 d Hd Hn) in E'.
  - by rewrite (H2 d Hd Hn) in E'.
Qed.

(** ** What a value depends on *)

Section Dependence.
Context {AH : ArrayHeap}.

(** Whether a division by zero happens depends on the values of the subexpressions. *)
Lemma zero_divisions_ext_mut ρ ρ' :
  (forall e, (forall x, x ∈ subs e -> eval ρ x = eval ρ' x) -> weight 0 (zero_divisor ρ) e = weight 0 (zero_divisor ρ') e) /\
  (forall u, (forall x, x ∈ un_subs u -> eval ρ x = eval ρ' x) -> updates_weight 0 (zero_divisor ρ) u = updates_weight 0 (zero_divisor ρ') u).
Proof.
  set (f := zero_divisor ρ). set (g := zero_divisor ρ').
  apply Expr_UpdateNode_ind; cbn [subs un_subs].
  - done.
  - intros s IH H. change (0 + weight 0 f s = 0 + weight 0 g s)%nat. rewrite IH; [done|]. set_solver.
  - intros r u IHu i IHi H. change (0 + updates_weight 0 f u + weight 0 f i = 0 + updates_weight 0 g u + weight 0 g i)%nat. rewrite IHu, IHi; [done|set_solver..].
  - intros c IHc t IHt e IHe H. change (5 * 0 + weight 0 f c + weight 0 f t + weight 0 f e = 5 * 0 + weight 0 g c + weight 0 g t + weight 0 g e)%nat. rewrite IHc, IHt, IHe; [done|set_solver..].
  - intros l IHl r IHr H. change (0 + weight 0 f l + weight 0 f r = 0 + weight 0 g l + weight 0 g r)%nat. rewrite IHl, IHr; [done|set_solver..].
  - intros s IH off w H. change (Nat.max 0 (weight 0 f s) = Nat.max 0 (weight 0 g s)). rewrite IH; [done|]. set_solver.
  - intros s IH H. change (0 + weight 0 f s = 0 + weight 0 g s)%nat. rewrite IH; [done|]. set_solver.
  - intros k s IH w H. change (0 + weight 0 f s = 0 + weight 0 g s)%nat. rewrite IH; [done|]. set_solver.
  - intros k l IHl r IHr H. change (kind_weight k * 0 + f k r + weight 0 f l + weight 0 f r = kind_weight k * 0 + g k r + weight 0 g l + weight 0 g r)%nat. rewrite IHl, IHr by set_solver.
    unfold f, g, zero_divisor. rewrite (H r); [done|]. pose proof (subs_self r). set_solver.
  - done.
  - intros n IHn i IHi v IHv H. change (updates_weight 0 f n + weight 0 f i + weight 0 f v = updates_weight 0 g n + weight 0 g i + weight 0 g v)%nat. rewrite IHn, IHi, IHv; [done|set_solver..].
Qed.

Lemma div_safe_same_contents ρ ρ' e : (forall r, reads_in r (subs e) -> same_contents ρ ρ' r) -> div_safe ρ e -> div_safe ρ' e.
Proof.
  intros Hc. unfold div_safe, zero_divisions. intros H. etrans; [|exact H]. symmetry. apply zero_divisions_ext_mut. intros x Hx. apply eval_same_contents. intros r (Hs & u & i & Hin).
  apply Hc. split; [done|]. exists u, i. revert Hin. by apply (proj1 subs_trans_mut).
Qed.

End Dependence.

(** ** What STP promises *)

(** A formula that is valid holds wherever the assertions do; of one that is not there
    are values that show it, and they are those of the counterexample. *)
Class STPQueriesLaws (VC : STP) (VL : STPLaws VC) (VQ : STPQueries VC) : Prop := {
  query_valid A q σ : vc_query A q = 1 -> Forall (fun a => is_bool σ a true) A -> ~ is_bool σ q false;
  query_invalid A q : Forall (fun a => forall σ, exists b, is_bool σ a b) (q :: A) -> vc_query A q = 0 ->
    exists σ, Forall (fun a => is_bool σ a true) A /\ is_bool σ q false /\
      forall e w x, is_bv σ e w x -> w <= 32 -> getBVUnsigned (vc_getCounterExample A q e) = x
}.

(** ** Queries *)

Section Queries.
Context {AH : ArrayHeap}.

(** Each expression has its meaning where those before it hold. *)
Fixpoint fits_in_order (ρ : env) (es : list Expr) : Prop :=
  match es with
  | [] => True
  | e :: es => fits ρ e /\ (eval ρ e <> 0 -> fits_in_order ρ es)
  end.

Record translatable (q : Query) : Prop := MkTranslatable {
  tq_shaped : shaped q;
  tq_canonical : Forall canonical (constraints q ++ [q_expr q]);
  tq_fits ρ : fits_in_order ρ (constraints q ++ [q_expr q])
}.

(** An object with bytes, indexed with 32 bits. *)
Definition byte_array (a : Array) : Prop := arr_domain a = 32 /\ arr_range a = 8.

(** No symbolic array is named as another with digits appended: the builder appends a
    number to the name of an array for the name of its variable.  What constant arrays
    are called does not matter, as they are written over. *)
Definition names_apart : Prop := forall r r' d,
  wf_array (array_at r) -> isConstantArray (array_at r) = false -> wf_array (array_at r') -> isConstantArray (array_at r') = false ->
  all_digits d = true -> arr_name (array_at r') = arr_name (array_at r) +:+ d -> d = EmptyString.

End Queries.

Section Sound.
Context {VC : STP} {VL : STPLaws VC} {VQ : STPQueries VC} {QL : STPQueriesLaws VC VL VQ} {PR : Processes VC} {SO : STPOptions} {WS : WideShifts}.
Context {AP : APIntOps} {APL : APIntLaws} {AH : ArrayHeap} {OP : ExprOptions} {VO : VisitorOptions}.
Context (wide_shift : shl_wide 0 32 = Done 0).
Context (apart : names_apart).

(** ** Values of STP's variables and environments *)

Lemma symbolic_contents σ ρ r name : wf_array (array_at r) -> isConstantArray (array_at r) = false ->
  (forall i, σ name i mod 2 ^ arr_range (array_at r) = ρ r i mod 2 ^ arr_range (array_at r)) ->
  contents σ (buildArray name (arr_domain (array_at r)) (arr_range (array_at r))) r (initial_value ρ r).
Proof.
  intros (Hd & Hr & _) Hc He. eexists. split; [apply l_array; lia|]. intros i _ _. cbn. unfold initial_value. by rewrite Hc.
Qed.

(** Every values of the variables are those of an environment, *)
Lemma agree_env σ b : knows b -> exists ρ, agree σ ρ b.
Proof.
  intros Hb. destruct (kn_names b Hb) as (id & Hid & _). exists (fun r i => σ (arr_name (array_at r) +:+ pretty (id r)) i).
  intros r v Hv Hc. destruct (Hid r v Hv) as [_ Hn]. rewrite (Hn Hc). apply symbolic_contents; [by eapply kn_arrays|done|done].
Qed.

(** and conversely. *)
Lemma agree_values ρ b : knows b -> exists σ, agree σ ρ b.
Proof.
  intros Hb. destruct (kn_names b Hb) as (id & Hid & Hinj).
  set (named := fun name (x : positive * VCExpr) => negb (isConstantArray (array_at x.1)) && bool_decide (arr_name (array_at x.1) +:+ pretty (id x.1) = name)).
  exists (fun name i => match List.find (named name) (map_to_list (array_hash b)) with Some (r, _) => ρ r i | None => 0 end).
  intros r v Hv Hc. destruct (Hid r v Hv) as [Hr Hn]. rewrite (Hn Hc). apply symbolic_contents; [by eapply kn_arrays|done|]. intros i.
  destruct (List.find _ _) as [[r' v']|] eqn:Ef.
  - apply List.find_some in Ef as [Hin%list_elem_of_In%elem_of_map_to_list [Hc'%negb_true_iff Hnm%bool_decide_eq_true]%andb_true_iff]. cbn in Hc', Hnm.
    destruct (kn_arrays b Hb r' v' Hin) as [Hw' _], (kn_arrays b Hb r v Hv) as [Hw _], (Hid r' v' Hin) as [Hr' _].
    assert (id r' = id r) as Eid by (apply (names_inj (arr_name (array_at r')) (arr_name (array_at r))); [intros d; by apply apart|intros d; by apply apart|lia|lia|exact Hnm]).
    by rewrite (Hinj r' r (mk_is_Some _ _ Hin) (mk_is_Some _ _ Hv) Eid).
  - eapply List.find_none in Ef; [|by apply list_elem_of_In, elem_of_map_to_list]. unfold named in Ef. cbn in Ef. by rewrite Hc, bool_decide_eq_true_2 in Ef.
Qed.

(** ** Translating a query *)

Lemma mapM_yields {A B} (f : A -> BM B) P D l : Forall (fun x => yields (f x) (P x) (D x)) l ->
  yields (mapM f l) (Forall2 P l) (fun ys σ ρ => Forall2 (fun x y => D x y σ ρ) l ys).
Proof.
  induction 1 as [|x l Hx _ IH]; [apply yields_ret; [constructor|by constructor]|]. intros b Hb. destruct (Hx b Hb) as (y & b1 & E1 & Hb1 & Hg1 & HP & HD). destruct (IH b1 Hb1) as (ys & b2 & E2 & Hb2 & Hg2 & HPs & HDs).
  exists (y :: ys), b2. split; [|split; [done|split; [|split; [by constructor|]]]].
  - cbn [mapM]. unfold mbind, BM_bind, mret, BM_ret in *. by rewrite E1, bind_ret, E2, bind_ret.
  - intros r v Hv. by apply Hg2, Hg1.
  - intros σ ρ Ha. constructor; [|by apply HDs]. apply HD. by eapply agree_grows.
Qed.

Abbreviation translates e v := (fun σ ρ => fits ρ e -> denotes σ v (getWidth e) (eval ρ e)).

Lemma construct_yields e : wf e -> canonical e ->
  yields (construct STPConstructHash OptimizeDivides e) (fun v => typed v (getWidth e)) (fun v => translates e v).
Proof.
  intros Hw Hc b Hb. destruct (construct_ok STPConstructHash OptimizeDivides wide_shift e Hw Hc b Hb) as (v & b' & E & Hb' & Hg & Ht & _ & Hd). by exists v, b'.
Qed.

Lemma translate_query_yields q : Forall wf (constraints q ++ [q_expr q]) -> Forall canonical (constraints q ++ [q_expr q]) ->
  yields (translate_query q) (fun r => Forall2 (fun e v => typed v (getWidth e)) (constraints q ++ [q_expr q]) (r.1 ++ [r.2]))
    (fun r σ ρ => Forall2 (fun e v => translates e v σ ρ) (constraints q ++ [q_expr q]) (r.1 ++ [r.2])).
Proof.
  intros [Hw [He _]%Forall_cons]%Forall_app [Hc [Hce _]%Forall_cons]%Forall_app. eapply yields_bind; [apply mapM_yields|].
  - apply Forall_forall. intros c Hin. rewrite Forall_forall in Hw, Hc. apply construct_yields; auto.
  - intros A HA. cbv beta. eapply yields_bind; [by apply construct_yields|]. intros v Hv. apply yields_ret; [apply Forall2_app; [exact HA|by repeat constructor]|].
    intros σ ρ Hdv HdA. apply Forall2_app; [exact HdA|by repeat constructor].
Qed.

(** The formulas are true where the constraints hold, each of them where it has its
    meaning. *)
Lemma formulas_sat σ ρ cs e A v : Forall (fun c => getWidth c = 1) cs -> fits_in_order ρ (cs ++ [e]) -> Forall2 (fun e v => translates e v σ ρ) (cs ++ [e]) (A ++ [v]) ->
  (Forall (fun a => is_bool σ a true) A <-> sat ρ cs) /\ (sat ρ cs -> denotes σ v (getWidth e) (eval ρ e)).
Proof.
  revert A. induction cs as [|c cs IH]; intros A Hw Hf Ht.
  - destruct A as [|a A]; [|inversion Ht as [|? ? ? ? _ Hn]; inversion Hn as [En|]; by destruct A]. apply Forall2_cons in Ht as [Ht _]. split; [|intros _; by apply Ht, Hf].
    split; [intros _ c Hc; by apply elem_of_nil in Hc|by constructor].
  - destruct A as [|a A]; [inversion Ht as [|? ? ? ? _ Hn]; inversion Hn as [En|]; by destruct cs|]. apply Forall2_cons in Ht as [Hc Ht]. destruct Hf as [Hfc Hf]. apply Forall_cons in Hw as [Hw1 Hw].
    specialize (Hc Hfc). rewrite Hw1 in Hc. change (is_bool σ a (negb (eval ρ c =? 0))) in Hc. rewrite Forall_cons.
    assert (sat ρ (c :: cs) <-> eval ρ c <> 0 /\ sat ρ cs) as ->. { change (c :: cs) with ([c] ++ cs). by rewrite sat_app, sat_one. }
    destruct (decide (eval ρ c = 0)) as [E|E].
    + rewrite E in Hc. split; [split|]; [intros [Ha _]; by pose proof (l_bool_unique _ _ _ _ Ha Hc)|by intros [? _]..].
    + rewrite (proj2 (Z.eqb_neq _ _)) in Hc by done. destruct (IH A Hw (Hf E) Ht) as [H1 H2]. rewrite H1. split; [by split; intros [_ ?]|]. intros [_ H]. by apply H2.
Qed.

(** ** Reading the counterexample *)

Context (byte_arrays : forall r, wf_array (array_at r) -> byte_array (array_at r)).

Abbreviation shows A q σ := (forall e w x, is_bv σ e w x -> w <= 32 -> getBVUnsigned (vc_getCounterExample A q e) = x).

Lemma byte_canonical r : wf_array (array_at r) -> canonical_array (array_at r).
Proof. intros Hw. pose proof Hw as (_ & _ & Hs & _). destruct (byte_arrays r Hw) as [Hd Hr]. unfold canonical_array. rewrite Hd, Hr. split_and!; lia. Qed.

Lemma counter_byte_yields A q r i : wf_array (array_at r) -> 0 <= i < arr_size (array_at r) ->
  yields (counter_byte A q r i) (fun x => 0 <= x < 2 ^ 8) (fun x σ ρ => shows A q σ -> x = initial_value ρ r i).
Proof.
  intros Hw Hi. pose proof Hw as (_ & _ & Hs & _). destruct (byte_arrays r Hw) as [Hd Hr].
  eapply yields_bind; [eapply yields_bind; [by apply getInitialArray_ok; [|by apply byte_canonical]|]|].
  - intros v Hv. apply (yields_ret _ (fun _ => True) (fun e σ ρ => contents σ v r (initial_value ρ r) -> is_bv σ e 8 (initial_value ρ r i))); [done|].
    intros σ ρ (f & Hf & Hval). rewrite Hd, Hr in Hf. rewrite <- Hval; [|rewrite Hd; lia|lia]. eapply l_read; [exact Hf|]. apply bvConst32_ok; lia.
  - intros e _. apply yields_ret; [apply mod_pow2_range; lia|]. intros σ ρ Hbv Hshow. cbn beta in Hbv. rewrite (Hshow e 8 (initial_value ρ r i)); [|exact Hbv|lia]. apply Z.mod_small. rewrite <- Hr. by apply initial_value_range.
Qed.

Lemma counter_objects_yields A q objects : objects_ok objects ->
  yields (counter_objects A q objects) (fun values => values_ok objects values) (fun values σ ρ => shows A q σ -> has_values ρ objects values).
Proof.
  intros [_ Ho]. eapply yields_weaken; [apply (mapM_yields _ (fun r bs => Z.of_nat (length bs) = arr_size (array_at r) /\ Forall (fun v => 0 <= v < 2 ^ 8) bs)
    (fun r bs σ ρ => shows A q σ -> forall k v, bs !! k = Some v -> initial_value ρ r (Z.of_nat k) = v mod 2 ^ arr_range (array_at r)))|done|].
  - apply Forall_forall. intros r Hr. rewrite Forall_forall in Ho. specialize (Ho r Hr). pose proof Ho as (_ & _ & Hs & _).
    eapply yields_weaken; [apply (mapM_yields _ (fun _ x => 0 <= x < 2 ^ 8) (fun i x σ ρ => shows A q σ -> x = initial_value ρ r i))|..].
    + apply Forall_forall. intros i Hi%elem_of_seqZ. apply counter_byte_yields; [done|]. lia.
    + intros bs Hbs. split; [apply Forall2_length in Hbs; rewrite length_seqZ in Hbs; lia|]. clear -Hbs. by induction Hbs; constructor.
    + intros bs σ ρ _ Hbs Hshow k v Hk. destruct (Forall2_lookup_r _ _ _ _ _ Hbs Hk) as (i & Hi & Hv). apply lookup_seqZ in Hi as [-> _].
      specialize (Hv Hshow). rewrite Z.add_0_l in Hv. rewrite <- Hv. symmetry. apply Z.mod_small. rewrite Hv. by apply initial_value_range.
  - intros values σ ρ _ Hd Hshow. eapply Forall2_impl; [exact Hd|]. intros r bs Hrb _. by apply Hrb.
Qed.

(** The arrays of a construction do not matter for what the child stores. *)
Lemma sum_small objects : Forall (fun r => 0 <= arr_size (array_at r)) objects -> forall n, 0 <= n -> n + total_size objects < shared_memory_size ->
  foldl (fun sum o => u32 (sum + arr_size (array_at o))) n objects = n + total_size objects /\ 0 <= total_size objects.
Proof.
  unfold shared_memory_size. induction 1 as [|r objects Hr Ho IH]; intros n Hn Hs; cbn [foldl total_size foldr] in *; [lia|]. fold (total_size objects) in *.
  assert (0 <= total_size objects) as H0. { clear -Ho. induction Ho; cbn; [lia|]. fold (total_size l). lia. }
  unfold u32 at 2. rewrite Z.mod_small by lia. destruct (IH (n + arr_size (array_at r))); lia.
Qed.

(** ** The contract *)

(** How a run ends; STP's answer is the answer of one. *)
Definition answered (asserted : list VCExpr) (q : VCExpr) : Prop := vc_query asserted q = 0 \/ vc_query asserted q = 1.

Definition system_answers (asserted : list VCExpr) (q : VCExpr) : Prop := fate asserted q = Finished /\ answered asserted q.

(** What is known once the query is translated. *)
Definition translated (q : Query) (A : list VCExpr) (v : VCExpr) (b : STPBuilder VC) : Prop :=
  knows b /\ Forall2 (fun e v => typed v (getWidth e)) (constraints q ++ [q_expr q]) (A ++ [v]) /\
  forall σ ρ, agree σ ρ b -> Forall2 (fun e v => translates e v σ ρ) (constraints q ++ [q_expr q]) (A ++ [v]).

Lemma translate_query_ok q b : translatable q -> knows b -> exists A v b', translate_query q b = Done ((A, v), b') /\ translated q A v b'.
Proof.
  intros [[Hb [Hwe _]] Hc _] Hk. destruct (translate_query_yields q) with (b := b) as ([A v] & b' & E & Hb' & _ & Ht & Hd); try done.
  - apply Forall_app. split; [|by repeat constructor]. eapply Forall_impl; [exact Hb|]. by intros e [].
  - by exists A, v, b'.
Qed.

Lemma meaning q A v b σ ρ : translatable q -> translated q A v b -> agree σ ρ b ->
  (Forall (fun a => is_bool σ a true) A <-> sat ρ (constraints q)) /\ (sat ρ (constraints q) -> is_bool σ v (negb (eval ρ (q_expr q) =? 0))).
Proof.
  intros [[Hb [_ Hw]] _ Hf] (_ & _ & Ht) Ha. destruct (formulas_sat σ ρ (constraints q) (q_expr q) A v) as [H1 H2]; [|done|by apply Ht|].
  - eapply Forall_impl; [exact Hb|]. by intros c [].
  - split; [exact H1|]. intros Hs. specialize (H2 Hs). by rewrite Hw in H2.
Qed.

Lemma query_1 q A v b : translatable q -> translated q A v b -> vc_query A v = 1 -> valid q.
Proof.
  intros Hq Ht Hv ρ Hs He. destruct (agree_values ρ b) as [σ Ha]; [apply Ht|]. destruct (meaning q A v b σ ρ Hq Ht Ha) as [H1 H2]. apply H1 in Hs as HA. specialize (H2 Hs).
  rewrite He in H2. by apply (query_valid A v σ Hv HA).
Qed.

Lemma query_0 q A v b b' : translatable q -> translated q A v b -> vc_query A v = 0 -> knows b' -> grows b b' ->
  exists σ ρ, agree σ ρ b' /\ shows A v σ /\ counterexample q ρ.
Proof.
  intros Hq Ht Hv Hb' Hg. pose proof Ht as (_ & Hty & _). destruct (query_invalid A v) as (σ & HA & Hf & Hshow); [|done|].
  - pose proof Hq as [[Hb [_ Hw]] _ _]. assert (Forall (fun e => getWidth e = 1) (constraints q ++ [q_expr q])) as Hwid.
    { apply Forall_app. split; [|by repeat constructor]. eapply Forall_impl; [exact Hb|]. by intros c []. }
    assert (Forall (fun a => forall σ, exists b, is_bool σ a b) (A ++ [v])) as [HA [Hv1 _]%Forall_cons]%Forall_app; [|by constructor]. apply Forall_forall. intros a Hin. apply list_elem_of_lookup in Hin as [i Hi].
    destruct (Forall2_lookup_r _ _ _ _ _ Hty Hi) as (e & He & Hte). rewrite Forall_lookup in Hwid. rewrite (Hwid i e He) in Hte. by apply typed_is_bool.
  - destruct (agree_env σ b' Hb') as [ρ Ha]. exists σ, ρ. split; [done|]. split; [done|]. destruct (meaning q A v b σ ρ Hq Ht) as [H1 H2]; [by eapply agree_grows|].
    apply H1 in HA. split; [done|]. specialize (H2 HA). pose proof (l_bool_unique _ _ _ _ H2 Hf) as E. destruct (Z.eqb_spec (eval ρ (q_expr q)) 0); [done|]. by cbn in E.
Qed.

(** The values of a counterexample; the builder may now know more arrays. *)
Lemma values_0 q A v b objects : translatable q -> translated q A v b -> vc_query A v = 0 -> objects_ok objects ->
  exists values b', counter_objects A v objects b = Done (values, b') /\ knows b' /\ solution q objects values.
Proof.
  intros Hq Ht Hv Ho. destruct (counter_objects_yields A v objects Ho b) as (values & b' & E & Hb' & Hg & Hok & Hd); [apply Ht|]. exists values, b'. split; [done|]. split; [done|]. split; [done|].
  destruct (query_0 q A v b b' Hq Ht Hv Hb' Hg) as (σ & ρ & Ha & Hshow & Hc). exists ρ. split; [done|]. by apply (Hd σ ρ Ha).
Qed.

(** What a run may give. *)
Definition run_ok (q : Query) (objects : list positive) (r : SolverRunStatus * option bool * list (list Z)) : Prop :=
  let '(code, hasSolution, values) := r in
  (code = SUCCESS_SOLVABLE /\ hasSolution = Some true /\ solution q objects values) \/
  (code = SUCCESS_UNSOLVABLE /\ hasSolution = Some false /\ valid q) \/
  (succeeded code = false /\ hasSolution = None).

Lemma runAndGetCex_ok q A v b objects : translatable q -> translated q A v b -> answered A v -> objects_ok objects ->
  exists r b', runAndGetCex A v objects b = Done (r, b') /\ knows b' /\ run_ok q objects r /\ succeeded r.1.1 = true.
Proof.
  intros Hq Ht Ha Ho. unfold runAndGetCex. destruct Ha as [E|E]; rewrite E; cbn [Z.eqb negb].
  - destruct (values_0 q A v b objects Hq Ht E Ho) as (values & b' & Ev & Hb' & Hs). exists (SUCCESS_SOLVABLE, Some true, values), b'. unfold mbind, BM_bind. rewrite Ev, bind_ret. split_and!; try done. by left.
  - eexists _, b. split; [done|]. split; [apply Ht|]. split; [|done]. right. left. split_and!; try done. by eapply query_1.
Qed.

(** In this process whatever else STP returns, an error say, counts as unsatisfiable. *)
Lemma runAndGetCex_unanswered A v b objects : vc_query A v <> 0 -> runAndGetCex A v objects b = Done ((SUCCESS_UNSOLVABLE, Some false, []), b).
Proof. intros H. unfold runAndGetCex. by rewrite (proj2 (Z.eqb_neq _ _)). Qed.

Lemma runAndGetCexForked_ok q A v b objects : translatable q -> translated q A v b -> objects_ok objects -> total_size objects < shared_memory_size ->
  IgnoreSolverFailures = true \/ fate A v = TimedOut \/ system_answers A v ->
  exists r, runAndGetCexForked A v objects b = Done (r, b) /\ run_ok q objects r /\ (system_answers A v -> succeeded r.1.1 = true).
Proof.
  intros Hq Ht Ho Hsz Hfail. unfold runAndGetCexForked. destruct (sum_small objects) with (n := 0) as [-> Hn]; [|lia|lia|].
  { destruct Ho as [_ Ho]. eapply Forall_impl; [exact Ho|]. intros r (_ & _ & Hs & _). lia. }
  rewrite Z.add_0_l, (proj2 (Z.leb_gt _ _)) by done.
  assert (forall code, succeeded code = false -> run_ok q objects (code, None, [])) as Hno by (by right; right).
  assert (forall code, succeeded code = false -> ~ system_answers A v -> fate A v <> TimedOut -> exists r, (r ← solver_failure code; Done (r, b)) = Done (r, b) /\ run_ok q objects r /\ (system_answers A v -> succeeded r.1.1 = true)) as Hsf.
  { intros code Hc Hs Ht'. unfold solver_failure. destruct Hfail as [-> |[|]]; [|done..]. eexists. split; [done|]. split; [by apply Hno|done]. }
  unfold system_answers in *. destruct (fate A v) eqn:Ef; try (apply Hsf; [done|by intros []|done]).
  - eexists. split; [done|]. split; [by apply Hno|by intros []].
  - destruct (Z.eqb_spec (vc_query A v) 0) as [E|E0].
    + destruct (values_0 q A v b objects Hq Ht E Ho) as (values & b' & Ev & _ & Hs). unfold child_values. rewrite Ev, bind_ret, (proj2 (Z.leb_le _ _)) by lia. rewrite !bind_ret.
      eexists. split; [done|]. split; [by left|done].
    + destruct (Z.eqb_spec (vc_query A v) 1) as [E|E1].
      * rewrite bind_ret. eexists. split; [done|]. split; [|done]. right. left. split_and!; try done. by eapply query_1.
      * assert (~ (Finished = Finished /\ answered A v)) as Hna by (by intros [_ [?|?]]). destruct (Z.eqb_spec (vc_query A v) 52); [eexists; split; [done|]; split; [by apply Hno|done]|]. by apply Hsf.
Qed.

(** The contract, in this process or in a child. *)
Lemma initial_values_ok q objects s : translatable q -> objects_ok objects -> knows (builder s) ->
  (if UseForkedSTP then total_size objects < shared_memory_size /\ forall A v, IgnoreSolverFailures = true \/ fate A v = TimedOut \/ system_answers A v
   else forall A v, answered A v) ->
  exists r s', stp_computeInitialValues q objects s = Done (r, s') /\ knows (builder s') /\ initial_result_ok q objects r /\
    ((UseForkedSTP = true -> forall A v, system_answers A v) -> iv_success r = true) /\
    (iv_success r = false -> iv_hasSolution r = None) /\ iv_success r = succeeded (runStatusCode s').
Proof.
  intros Hq Ho Hk Hmode. destruct (translate_query_ok q (builder s) Hq Hk) as (A & v & b & E & Ht). unfold stp_computeInitialValues, mbind at 2, BM_bind. rewrite E, bind_ret. cbv beta iota.
  assert (exists r b', (if UseForkedSTP then runAndGetCexForked else runAndGetCex) A v objects b = Done (r, b') /\ knows b' /\ run_ok q objects r /\
    ((UseForkedSTP = true -> forall A v, system_answers A v) -> succeeded r.1.1 = true) /\ (UseForkedSTP = false -> succeeded r.1.1 = true)) as (r & b' & Er & Hb' & Hr & H1 & H2).
  { destruct UseForkedSTP.
    - destruct Hmode as [Hsz Hf]. destruct (runAndGetCexForked_ok q A v b objects Hq Ht Ho Hsz (Hf A v)) as (r & Er & Hr & Hs). exists r, b. split_and!; try done; [apply Ht|]. intros Hall. by apply Hs, Hall.
    - destruct (runAndGetCex_ok q A v b objects Hq Ht (Hmode A v) Ho) as (r & b' & Er & Hb' & Hr & Hs). by exists r, b'. }
  rewrite Er, bind_ret. destruct r as [[code has] values]. cbn in Hr, H1, H2.
  assert ((if UseForkedSTP then succeeded code else true) = succeeded code) as -> by (destruct UseForkedSTP; [done|by rewrite H2]).
  eexists _, _. split; [done|]. split; [done|]. split; [|split; [exact H1|split; [|done]]]; cbn.
  - intros Hs. cbn in Hs. destruct Hr as [(-> & -> & ?)|[(-> & -> & ?)|[? _]]]; [by right|by left|congruence].
  - intros Hs. destruct Hr as [(-> & _)|[(-> & _)|[_ ?]]]; done.
Qed.

Lemma computeTruth_ok q s : translatable q -> knows (builder s) ->
  (if UseForkedSTP then forall A v, IgnoreSolverFailures = true \/ fate A v = TimedOut \/ system_answers A v else forall A v, answered A v) ->
  exists r s', stp_computeTruth q s = Done (r, s') /\ knows (builder s') /\ ((UseForkedSTP = true -> forall A v, system_answers A v) -> r <> None) /\
    forall b, r = Some b -> (b = true <-> valid q).
Proof.
  intros Hq Hk Hmode. destruct (initial_values_ok q [] s Hq) as (r & s' & E & Hk' & Hr & Hs & _); [by split; constructor|done|destruct UseForkedSTP; [done|done]|].
  unfold stp_computeTruth. rewrite E, bind_ret. destruct (iv_success r) eqn:Es; cbn [negb]; [|eexists _, _; split_and!; try done; intros Hall; by specialize (Hs Hall)].
  destruct (Hr Es) as [[-> Hv]|[-> (_ & ρ & [Hsat H0] & _)]]; cbn [deref]; rewrite bind_ret; (eexists _, _; split_and!; [done|done|done|]); intros b [= <-]; [done|]. split; [done|]. intros Hv. by apply Hv in Hsat.
Qed.

Lemma computeValue_ok q s (default_opt : ConstArrayOpt = false) (domain32 : forall r, arr_domain (array_at r) <= 32) :
  guarded q -> translatable (withFalse q) -> knows (builder s) ->
  (if UseForkedSTP then total_size (findSymbolicObjects [q_expr q]) < shared_memory_size /\ forall A v, IgnoreSolverFailures = true \/ fate A v = TimedOut \/ system_answers A v
   else forall A v, answered A v) ->
  exists r s', stp_computeValue q s = Done (r, s') /\ knows (builder s') /\ ((UseForkedSTP = true -> forall A v, system_answers A v) -> r <> None) /\
    forall e, r = Some e -> exists c, e = ConstantExpr c /\ wf_apint c /\ getBitWidth c = getWidth (q_expr q) /\
      exists ρ, sat ρ (constraints q) /\ eval ρ (q_expr q) = uval c.
Proof.
  intros Hg Hq Hk Hmode. set (objects := findSymbolicObjects [q_expr q]). destruct (findSymbolicObjects_ok [q_expr q]) as [Hnd Hf]. fold objects in Hnd, Hf.
  pose proof Hg as [[Hb He [ρ0 Hρ0]] Hc Hd _]. assert (objects_ok objects) as Ho.
  { split; [done|]. apply Forall_forall. intros r Hr. apply Hf in Hr as (e & ->%list_elem_of_singleton & _ & u & i & Hin). by apply (proj1 wf_subs_mut _ He) in Hin as [? _]. }
  destruct (initial_values_ok (withFalse q) objects s Hq Ho Hk Hmode) as (r & s' & E & Hk' & Hr & Hs & _). unfold stp_computeValue. fold objects. rewrite E, bind_ret.
  destruct (iv_success r) eqn:Es; cbn [negb]; [|eexists _, _; split_and!; try done; intros Hall; by specialize (Hs Hall)].
  destruct (Hr Es) as [[_ Hv]|[-> (Hvals & ρ & [Hsat _] & Hhas)]]; [by destruct (Hv ρ0 Hρ0); apply false_expr_ok|]. cbn [deref]. rewrite bind_ret.
  destruct (Assignment_make_ok objects (iv_values r) false) as (a & Ea & Hfree & _); [by rewrite (Forall2_length _ _ _ Hvals)|]. rewrite Ea, bind_ret.
  destruct (guarded_same_bytes q ρ (patch objects a ρ) Hg Hsat) as [_ Hsat']; [by eapply patch_same_bytes|].
  assert (forall r', reads_in r' (subs (q_expr q)) -> same_contents (patch objects a ρ) (env_of a) r') as Hsame.
  { intros r' Hr' k. unfold initial_value, patch. rewrite bool_decide_eq_true_2; [done|]. apply Hf. exists (q_expr q). split; [by apply list_elem_of_singleton|done]. }
  specialize (Hd _ Hsat'). apply Forall_cons in Hd as [Hd _]. apply Forall_cons in Hc as [Hc _].
  assert (div_safe (env_of a) (q_expr q)) as Hd' by (by eapply div_safe_same_contents).
  destruct (Assignment_evaluate_ok default_opt domain32 a (q_expr q)) as (x & Ex & [[[Hw Hww] Ev] Hcr]); [by eapply made_values_ok|split; [done|by eapply div_safe_lit_safe]|].
  rewrite Ex, bind_ret. eexists _, _. split_and!; [done..|]. intros e [= <-].
  assert (isConst x = true) as Hx by (by apply Hcr, known_closed). destruct x as [v| | | | | | | |]; try discriminate Hx. exists v. split_and!; [done..|].
  exists (patch objects a ρ). split; [done|]. rewrite (eval_same_contents _ (env_of a)) by done. symmetry. by apply (Ev (env_of a)), env_of_agrees.
Qed.

End Sound.
