(* ===== verification/Samples.v ===== *)
(** Concrete inputs: heaps of arrays, options and a solver for closed
    expressions, on which the theorems are instantiated. *)
From stdpp Require Import base list numbers strings gmap.
From Stdlib Require Import ZArith Lia String.
From S2P Require Import Prelude APInt Bits Expr Semantics ConstantOps ExprCreate CreateSound OpsSound FindReads Solver IncompleteSolver IndependentSolver.
Local Open Scope Z_scope.

(** [-const-array-opt] is off by default. *)
Definition default_options : ExprOptions := {| ConstArrayOpt := false |}.

Lemma default_off : @ConstArrayOpt default_options = false.
Proof. done. Qed.

Definition byte_const (v : Z) : APInt := MkAPInt 8 v.

Definition table : Array := MkArray "table"%string 4 32 8 [byte_const 7; byte_const 11; byte_const 13; byte_const 17].

(** Array 1 is a symbolic buffer of four bytes, every other one a table. *)
Definition mixed_heap : ArrayHeap := {|
  array_at := fun p => if Pos.eqb p 1 then MkArray "buf"%string 4 32 8 [] else table
|}.

(** Every array is a table: no expression is symbolic. *)
Definition closed_heap : ArrayHeap := {| array_at := fun _ => table |}.

Lemma wf_table : wf_array table.
Proof.
  split_and!; cbn; try lia. repeat (apply Forall_cons; split; [by split; [split; cbn; lia|]|]). done.
Qed.

Lemma wf_mixed p : @wf_array (@array_at mixed_heap p).
Proof. unfold array_at, mixed_heap. destruct (Pos.eqb p 1); [|apply wf_table]. split_and!; cbn; try lia; try done; constructor. Qed.

(** A 32-bit index and byte [i] of the buffer. *)
Definition index32 (i : Z) : Expr := ConstantExpr (MkAPInt 32 i).
Definition buf (i : Z) : Expr := ReadExpr 1 UNull (index32 i).
Definition byte8 (v : Z) : Expr := ConstantExpr (byte_const v).

Lemma wf_index32 i : 0 <= i < 2 ^ 32 -> @wf mixed_heap (index32 i).
Proof. by split. Qed.

Lemma wf_buf i : 0 <= i < 2 ^ 32 -> @wf mixed_heap (buf i).
Proof. intros. split; [apply wf_mixed|]. split; [done|]. split; [by apply wf_index32|done]. Qed.

Lemma wf_byte8 {AH : ArrayHeap} v : 0 <= v < 2 ^ 8 -> wf (byte8 v).
Proof. by split. Qed.

(** ** A solver for closed expressions *)

(** Over [closed_heap] the value of an expression is fixed, so the constraints
    of a satisfiable query say nothing and the expression can be evaluated. *)
Lemma closed_eval ρ ρ' e : @eval closed_heap ρ e = @eval closed_heap ρ' e.
Proof.
  apply (proj1 (@IES.eval_agree_mut closed_heap (MkIES ∅ ∅ []) ρ ρ'
    ltac:(intros a k [H|(d & H & _)]; [by apply elem_of_empty in H|by apply (lookup_empty_Some (M:=gmap positive) a d) in H]))).
  intros x _. destruct x; cbn; done.
Qed.

Definition closed_value (e : Expr) : Z := @eval closed_heap (fun _ _ => 0) e.

Definition closed_solver : SolverImpl unit := {|
  computeValidity q s := Done (Some (if closed_value (q_expr q) =? 0 then VFalse else VTrue), s);
  computeTruth q s := Done (Some (negb (closed_value (q_expr q) =? 0)), s);
  computeValue q s := Done (Some (MkAPInt (@getWidth closed_heap (q_expr q)) (closed_value (q_expr q))), s)
|}.

Lemma closed_valid q : @wf_query closed_heap q ->
  if closed_value (q_expr q) =? 0 then @valid_not closed_heap q else @valid closed_heap q.
Proof.
  intros _. unfold closed_value. destruct (Z.eqb_spec (@eval closed_heap (fun _ _ => 0) (q_expr q)) 0) as [E|E];
    intros ρ _; by rewrite (closed_eval ρ (fun _ _ => 0)).
Qed.

Definition closed_sound : @SoundSolver unit closed_solver closed_heap.
Proof.
  refine (@Build_SoundSolver unit closed_solver closed_heap (fun _ => True) _ _ _).
  - intros q s _ [Hq _]. eexists _, _. split; [done|]. split; [done|]. intros v [= <-].
    pose proof (closed_valid q Hq). by destruct (closed_value (q_expr q) =? 0).
  - intros q s _ [Hq _]. eexists _, _. split; [done|]. split; [done|]. intros b [= <-].
    pose proof (closed_valid q Hq) as H. destruct (closed_value (q_expr q) =? 0); cbn; [|done].
    split; [done|]. intros Hv. exfalso. by eapply (@valid_excl closed_heap).
  - intros q s _ Hq. eexists _, _. split; [done|]. split; [done|]. intros a [= <-].
    pose proof (wq_expr _ Hq) as He. pose proof (wf_width _ He).
    split; [split; cbn; [done|by apply eval_range]|]. split; [done|].
    destruct (wq_sat _ Hq) as [ρ Hρ]. exists ρ. split; [done|]. apply closed_eval.
Defined.

Lemma closed_total : @TotalSolver unit closed_solver.
Proof. split; intros q s r s' [= <- _]; done. Qed.

Lemma closed_domain32 p : arr_domain (@array_at closed_heap p) <= 32.
Proof. done. Qed.

Lemma mixed_domain32 p : arr_domain (@array_at mixed_heap p) <= 32.
Proof. unfold array_at, mixed_heap. by destruct (Pos.eqb p 1). Qed.

(** A query without constraints about a closed, unoptimized comparison. *)
Definition closed_query (k : BinaryKind) (a b : Z) : Query :=
  MkQuery [] (BinaryExpr k (NotOptimizedExpr (byte8 a)) (byte8 b)).

Lemma closed_query_bool k a b : isCmpKind k = true -> 0 <= a < 2 ^ 8 -> 0 <= b < 2 ^ 8 ->
  @bool_query closed_heap (closed_query k a b).
Proof.
  intros Hk Ha Hb. split; [|cbn; by rewrite Hk]. split; cbn; [constructor| |].
  - split_and!; try done; lia.
  - exists (fun _ _ => 0). intros c Hc. by apply elem_of_nil in Hc.
Qed.

(** An incomplete solver for closed expressions: it proves what is true, and
    derives the rest. *)
Definition closed_truth (q : Query) : outcome PartialValidity :=
  Done (if closed_value (q_expr q) =? 0 then MayBeFalse else MustBeTrue).

Definition closed_incomplete : IncompleteSolver := {|
  i_computeTruth := closed_truth;
  i_computeValidity := @IncompleteSolver_computeValidity z_apint closed_heap default_options closed_truth;
  i_computeValue q := Done None
|}.

Lemma closed_truth_ok q : @bool_query closed_heap q ->
  exists pv, closed_truth q = Done pv /\ (pv <> PNone -> @pv_is closed_heap pv q) /\ pv <> MayBeTrue.
Proof.
  intros [Hq _]. pose proof (closed_valid q Hq) as H. eexists; split; [done|].
  destruct (closed_value (q_expr q) =? 0); (split; [intros _|done]); [|done].
  intros Hv. by eapply (@valid_excl closed_heap).
Qed.

Lemma closed_incomplete_sound : @SoundIncomplete closed_incomplete closed_heap.
Proof.
  refine (@Build_SoundIncomplete closed_incomplete closed_heap _ _ _).
  - intros q Hq. by apply closed_truth_ok.
  - intros q Hq. apply (@IncompleteSolver_computeValidity_ok z_apint closed_heap default_options
      z_apint_laws default_off); [done|]. intros. by apply closed_truth_ok.
  - intros q _. eexists; split; [done|]. done.
Qed.

(** A query over the buffer: byte 1 is 3, and is byte 0 less than 5? *)
Definition buf_query : Query :=
  MkQuery [BinaryExpr EqK (byte8 3) (buf 1)] (BinaryExpr Ult (buf 0) (byte8 5)).

Lemma buf_query_bool : @bool_query mixed_heap buf_query.
Proof.
  split; [|done]. split.
  - constructor; [|constructor]. split; [|done]. split_and!; [by apply wf_byte8|by apply wf_buf|done].
  - split_and!; [by apply wf_buf|by apply wf_byte8|done].
  - exists (fun _ k => if k =? 1 then 3 else 0). intros c ->%list_elem_of_singleton. vm_compute. done.
Qed.
