(* ===== verification/ExprProperties.v ===== *)
(** Expressions: the theorems. *)
From stdpp Require Import base list numbers strings gmap.
From Stdlib Require Import ZArith Lia String.
From S2P Require Import Prelude APInt Bits Expr Semantics ConstantOps ExprCreate CreateSound OpsSound SliceSound ReadSound FindReads Samples.
Local Open Scope Z_scope.

Section Properties.
Context {AP : APIntOps} {APL : APIntLaws} {AH : ArrayHeap} {OP : ExprOptions}.
Context (default_opt : ConstArrayOpt = false).

(** C4. [create] of every binary kind is an optimised constructor: whatever it
    folds and rewrites, on well-formed operands of one width it returns a
    well-formed expression of the operator's width whose value is the
    operator applied to the values of the operands.  Excluded are divisions and
    remainders whose right operand is the literal constant zero ([div_by_zero]),
    which a fold would leave to llvm::APInt, where they are not defined; the option
    -const-array-opt is off, as it is by default. *)
Theorem BinaryExpr_create_sound k l r :
  wf l -> wf r -> getWidth l = getWidth r -> div_by_zero k r = false ->
  exists e, BinaryExpr_create k l r = Done e /\ wf e /\
    getWidth e = (if isCmpKind k then Bool else getWidth l) /\
    forall ρ, eval ρ e = eval_binary k (getWidth l) (eval ρ l) (eval ρ r).
Proof. intros. by apply BinaryExpr_create_ok. Qed.

(** C24. Rebuilding a well-formed expression that has kids over well-formed new kids
    of the same widths returns a well-formed expression of its width, with the value
    of the expression whose kids are replaced, provided that the new kids do not make
    it a division or remainder by the literal constant zero ([divisor_ok]): rebuilding
    such a one may fold it, which llvm::APInt does not define.  The option
    -const-array-opt is off, as it is by default. *)
Theorem rebuild_sound e ks :
  wf e -> kids e <> [] -> Forall2 same_sort (kids e) ks -> divisor_ok e ks = true ->
  exists e', rebuild e ks = Done e' /\ wf e' /\ getWidth e' = getWidth e /\
    forall ρ, eval ρ e' = eval ρ (with_kids e ks).
Proof. intros. by apply rebuild_ok. Qed.

(** A read looks through the writes that are certainly elsewhere and folds
    into the value written or the constant stored, and still has the value of
    the read it was asked for. *)
Theorem ReadExpr_create_sound root head index :
  wf (ReadExpr root head index) ->
  exists e, ReadExpr_create (MkUpdateList root head) index = Done e /\ wf e /\
    getWidth e = arr_range (array_at root) /\
    forall ρ, eval ρ e = eval_read ρ root head (eval ρ index).
Proof. intros. by apply ReadExpr_create_ok. Qed.

(** C25. Reading after a write: the value written where the indices agree, the
    old contents elsewhere; for well-formed updates, indices and values of the widths
    of the array, with -const-array-opt off. *)
Theorem read_after_write ul index value j :
  wf_array (array_at (ul_root ul)) ->
  wf_updates (ul_root ul) (ul_head ul) -> wf index -> wf value -> wf j ->
  getWidth index = arr_domain (array_at (ul_root ul)) ->
  getWidth value = arr_range (array_at (ul_root ul)) ->
  getWidth j = arr_domain (array_at (ul_root ul)) ->
  exists ul' e old, UpdateList_extend ul index value = Done ul' /\
    ReadExpr_create ul' j = Done e /\ ReadExpr_create ul j = Done old /\
    forall ρ, eval ρ e = if eval ρ j =? eval ρ index then eval ρ value else eval ρ old.
Proof.
  intros Ha Hu Hi Hv Hj Wi Wv Wj.
  destruct (UpdateList_extend_ok ul index value Hu Hi Hv Wi Wv) as (ul' & Ex & Er & Hu' & Hev).
  destruct ul as [root head], ul' as [root' head']; cbn in *. subst root'.
  destruct (ReadExpr_create_ok default_opt root head' j) as (e & Ee & _ & _ & Ve); [done|].
  destruct (ReadExpr_create_ok default_opt root head j) as (old & Eo & _ & _ & Vo); [done|].
  exists (MkUpdateList root head'), e, old. split; [done|]. split; [done|]. split; [done|].
  intros ρ. rewrite Ve, Vo. cbn. apply Hev.
Qed.

(** C26. [compare] is a total order whose equality is structural equality. *)
Theorem compare_total_order :
  (forall a b, compare a b = Eq <-> a = b) /\
  (forall a b, compare b a = CompOpp (compare a b)) /\
  (forall a b c, compare a b = Lt -> compare b c = Lt -> compare a c = Lt).
Proof.
  split; [apply compare_Eq|]. split; [apply compare_antisym|apply compare_lt_trans].
Qed.

(** [SelectExpr::create] builds the conditional. *)
Theorem SelectExpr_create_sound c t f :
  wf c -> wf t -> wf f -> getWidth c = Bool -> getWidth t = getWidth f ->
  exists e, SelectExpr_create c t f = Done e /\ wf e /\ getWidth e = getWidth t /\
    forall ρ, eval ρ e = if eval ρ c =? 0 then eval ρ f else eval ρ t.
Proof. intros. by apply SelectExpr_create_ok. Qed.

(** [ExtractExpr::create] builds the slice, pushing it through
    concatenations and extensions. *)
Theorem ExtractExpr_create_sound e off w :
  wf e -> 0 <= off -> 0 < w -> off + w <= getWidth e ->
  exists e', ExtractExpr_create e off w = Done e' /\ wf e' /\ getWidth e' = w /\
    forall ρ, eval ρ e' = (eval ρ e / 2 ^ off) mod 2 ^ w.
Proof. intros. by apply ExtractExpr_create_ok. Qed.

(** [ConcatExpr::createN] builds the value with the kids as its digits,
    the first the most significant. *)
Theorem ConcatExpr_createN_sound es :
  es <> [] -> Forall wf es ->
  exists e, ConcatExpr_createN es = Done e /\ wf e /\ getWidth e = concat_width es /\
    forall ρ, eval ρ e = concat_value ρ es.
Proof. intros. by apply ConcatExpr_createN_ok. Qed.

(** [ZExtExpr::create] and [SExtExpr::create] extend, and truncate to a
    smaller width. *)
Theorem CastExpr_create_sound k e w :
  wf e -> 0 < w ->
  exists e', CastExpr_create k e w = Done e' /\ wf e' /\ getWidth e' = w /\
    forall ρ, eval ρ e' = if w <? getWidth e then eval ρ e mod 2 ^ w
                          else eval_cast k (getWidth e) w (eval ρ e).
Proof. intros. by apply CastExpr_create_ok. Qed.

(** Splitting an expression at a bit and concatenating the parts gives
    its value back. *)
Theorem split_concat_roundtrip e k :
  wf e -> 0 < k < getWidth e ->
  exists hi lo e', ExtractExpr_create e k (getWidth e - k) = Done hi /\
    ExtractExpr_create e 0 k = Done lo /\ ConcatExpr_create hi lo = Done e' /\
    wf e' /\ getWidth e' = getWidth e /\ forall ρ, eval ρ e' = eval ρ e.
Proof.
  intros He Hk.
  destruct (ExtractExpr_create_ok e k (getWidth e - k)) as (hi & Eh & Wh & Wwh & Vh); [done|lia..|].
  destruct (ExtractExpr_create_ok e 0 k) as (lo & El & Wl & Wwl & Vl); [done|lia..|].
  destruct (ConcatExpr_create_ok hi lo Wh Wl) as (e' & Ee & We & Wwe & Ve).
  exists hi, lo, e'. do 3 (split; [done|]). split; [done|]. split; [rewrite Wwe; lia|].
  intros ρ. rewrite Ve, Vh, Vl, Wwl. rewrite Z.pow_0_r, Z.div_1_r.
  pose proof (eval_range e ρ He) as Hr. pose proof (pow2_pos k ltac:(lia)).
  rewrite (Z.mod_small (eval ρ e / 2 ^ k)).
  - pose proof (Z.div_mod (eval ρ e) (2 ^ k)). lia.
  - split; [apply Z.div_pos; lia|]. apply Z.div_lt_upper_bound; [lia|].
    rewrite <- Z.pow_add_r by lia. replace (k + (getWidth e - k)) with (getWidth e) by lia. lia.
Qed.

(** The unsigned little-endian number in the first [n] bytes of an array. *)
Fixpoint le_bytes (ρ : env) (array : positive) (n : nat) : Z :=
  match n with
  | O => 0
  | S n => le_bytes ρ array n + initial_value ρ array (Z.of_nat n) * 2 ^ (8 * Z.of_nat n)
  end.

Lemma read_byte_ok array i : wf_array (array_at array) -> arr_domain (array_at array) = 32 ->
  0 <= i < 2 ^ 32 ->
  exists e, ReadExpr_create (MkUpdateList array UNull) (ConstantExpr (ConstantExpr_alloc i Int32)) = Done e /\
    wf e /\ getWidth e = arr_range (array_at array) /\ forall ρ, eval ρ e = initial_value ρ array i.
Proof.
  intros Ha Hd Hi. unfold Int32. rewrite ConstantExpr_alloc_spec by lia.
  apply (ReadExpr_create_ok default_opt array UNull (ConstantExpr (MkAPInt 32 i))).
  split; [done|]. split; [done|]. split; [split; cbn; lia|]. by rewrite Hd.
Qed.

(** The next byte that is read; numerals out of powers and of [Z.of_nat]. *)
Ltac next_byte H :=
  match goal with |- context [ReadExpr_create _ (ConstantExpr (ConstantExpr_alloc ?i _)) ≫= _] =>
    let e := fresh "b" in let E := fresh "E" in let W := fresh "W" in let X := fresh "X" in let V := fresh "V" in
    destruct (H i ltac:(lia)) as (e & E & W & X & V); rewrite E; cbn [mbind outcome_bind]; clear E end.

Ltac numerals :=
  cbn [le_bytes concat_value concat_width foldr];
  repeat match goal with
    | |- context [Z.of_nat ?n] => let v := eval vm_compute in (Z.of_nat n) in change (Z.of_nat n) with v
    | |- context [2 ^ (8 * ?k)] => let v := eval vm_compute in (2 ^ (8 * k)) in change (2 ^ (8 * k)) with v
    end.

(** [createTempRead] reads a value of 8, 16, 32 or 64 bits stored little
    endian at the start of an array of bytes. *)
Theorem createTempRead_little_endian array n :
  (n = 1 \/ n = 2 \/ n = 4 \/ n = 8)%nat -> wf_array (array_at array) ->
  arr_domain (array_at array) = 32 -> arr_range (array_at array) = 8 ->
  exists e, createTempRead array (8 * Z.of_nat n) = Done e /\ wf e /\
    getWidth e = 8 * Z.of_nat n /\ forall ρ, eval ρ e = le_bytes ρ array n.
Proof.
  intros Hn Ha Hd Hr. pose proof (fun i Hi => read_byte_ok array i Ha Hd Hi) as Hrd.
  rewrite Hr in Hrd. unfold createTempRead.
  destruct Hn as [->|[->|[->| ->]]].
  - destruct (Hrd 0 ltac:(lia)) as (e & E & W & X & V). exists e. split; [done|]. split; [done|].
    split; [done|]. intros ρ. rewrite V. numerals. lia.
  - change (exists e, (a ← ReadExpr_create (MkUpdateList array UNull) (ConstantExpr (ConstantExpr_alloc 1 Int32));
      b ← ReadExpr_create (MkUpdateList array UNull) (ConstantExpr (ConstantExpr_alloc 0 Int32));
      ConcatExpr_create a b) = Done e /\ wf e /\ getWidth e = 16 /\ forall ρ, eval ρ e = le_bytes ρ array 2).
    do 2 next_byte Hrd. destruct (ConcatExpr_create_ok b b0) as (e & Ee & We & Wwe & Ve); [done|done|].
    exists e. split; [done|]. split; [done|]. split; [lia|]. intros ρ. rewrite Ve, V, V0, X0. numerals. lia.
  - change (8 * Z.of_nat 4) with 32. cbn [Z.eqb Bool Int8 Int16 Int32 Int64 Pos.eqb].
    do 4 next_byte Hrd. rewrite ConcatExpr_create4_N.
    destruct (ConcatExpr_createN_ok [b; b0; b1; b2]) as (e & Ee & We & Wwe & Ve); [done|by repeat constructor|].
    exists e. split; [done|]. split; [done|]. split; [rewrite Wwe; cbn; lia|]. intros ρ. rewrite Ve. numerals.
    rewrite V, V0, V1, V2, X0, X1, X2. lia.
  - change (8 * Z.of_nat 8) with 64. cbn [Z.eqb Bool Int8 Int16 Int32 Int64 Pos.eqb].
    do 8 next_byte Hrd. rewrite ConcatExpr_create8_N.
    destruct (ConcatExpr_createN_ok [b; b0; b1; b2; b3; b4; b5; b6]) as (e & Ee & We & Wwe & Ve);
      [done|by repeat constructor|].
    exists e. split; [done|]. split; [done|]. split; [rewrite Wwe; cbn; lia|]. intros ρ. rewrite Ve. numerals.
    rewrite V, V0, V1, V2, V3, V4, V5, V6, X0, X1, X2, X3, X4, X5, X6. lia.
Qed.

(** C39. [findReads], asked to visit updates, terminates and returns exactly the reads
    that occur in the expression, those inside update lists included. *)
Theorem findReads_exact e :
  exists rs, findReads e true = Done rs /\ forall x, x ∈ rs <-> x ∈ subs e /\ isReadExpr x = true.
Proof. apply findReads_spec. Qed.

(** Folding a binary operation on constants of one width computes the
    operator, at the width of the result and within its range. *)
Theorem constant_folding_exact k a b :
  wf_apint a -> wf_apint b -> getBitWidth a = getBitWidth b -> (isDivKind k = true -> uval b <> 0) ->
  let c := ConstantExpr_op k a b in
  wf_apint c /\ getBitWidth c = (if isCmpKind k then Bool else getBitWidth a) /\
  uval c = eval_binary k (getBitWidth a) (uval a) (uval b).
Proof. intros. by apply ConstantExpr_op_sound. Qed.

End Properties.

(** ** The theorems on concrete inputs *)

Section Witnesses.
#[local] Existing Instance mixed_heap.
#[local] Existing Instance default_options.

(** [buf[0] + 5 + 3], which folds the constants together. *)
Lemma BinaryExpr_create_sound_witness :
  exists s e, BinaryExpr_create Add (byte8 5) (buf 0) = Done s /\
    BinaryExpr_create Add (byte8 3) s = Done e /\ e = BinaryExpr Add (byte8 8) (buf 0) /\
    forall ρ, eval ρ e = (3 + eval ρ s) mod 2 ^ 8.
Proof.
  exists (BinaryExpr Add (byte8 5) (buf 0)).
  destruct (BinaryExpr_create_sound default_off Add (byte8 3) (BinaryExpr Add (byte8 5) (buf 0)))
    as (e & E & _ & _ & V); [by apply wf_byte8|split_and!; [by apply wf_byte8|by apply wf_buf|done]|done|done|].
  exists e. split; [vm_compute; reflexivity|]. split; [exact E|]. split; [|exact V].
  vm_compute in E. by injection E as <-.
Defined.

Lemma rebuild_sound_witness :
  exists e', rebuild (NotExpr (buf 0)) [byte8 5] = Done e' /\ e' = byte8 250 /\
    forall ρ, eval ρ e' = eval ρ (NotExpr (byte8 5)).
Proof.
  destruct (rebuild_sound default_off (NotExpr (buf 0)) [byte8 5]) as (e' & E & _ & _ & V);
    [by apply wf_buf|done| |done|].
  { apply Forall2_cons_2; [|by apply Forall2_nil_2]. split; [by apply wf_byte8|done]. }
  exists e'. split; [exact E|]. split; [|exact V]. vm_compute in E. by injection E as <-.
Defined.

(** Reading the table at a constant index. *)
Lemma ReadExpr_create_sound_witness :
  exists e, ReadExpr_create (MkUpdateList 2 UNull) (index32 2) = Done e /\ e = byte8 13.
Proof.
  destruct (ReadExpr_create_sound default_off 2 UNull (index32 2)) as (e & E & _); [|].
  { split; [apply wf_mixed|]. split; [done|]. split; [by apply wf_index32|done]. }
  exists e. split; [exact E|]. vm_compute in E. by injection E as <-.
Defined.

Lemma read_after_write_witness :
  exists ul' e old, UpdateList_extend (MkUpdateList 1 UNull) (index32 0) (byte8 42) = Done ul' /\
    ReadExpr_create ul' (index32 0) = Done e /\ ReadExpr_create (MkUpdateList 1 UNull) (index32 0) = Done old /\
    e = byte8 42 /\ old = buf 0.
Proof.
  destruct (read_after_write default_off (MkUpdateList 1 UNull) (index32 0) (byte8 42) (index32 0))
    as (ul' & e & old & E1 & E2 & E3 & _);
    [apply wf_mixed|done|by apply wf_index32|by apply wf_byte8|by apply wf_index32|done|done|done|].
  exists ul', e, old. split; [exact E1|]. split; [exact E2|]. split; [exact E3|].
  vm_compute in E1. injection E1 as <-. vm_compute in E2. vm_compute in E3.
  injection E2 as <-. injection E3 as <-. done.
Defined.

(** Constants come before reads and sums. *)
Lemma compare_total_order_witness :
  compare (byte8 5) (buf 0) = Lt /\ compare (buf 0) (BinaryExpr Add (byte8 5) (buf 0)) = Lt /\
  compare (byte8 5) (BinaryExpr Add (byte8 5) (buf 0)) = Lt.
Proof.
  split; [vm_compute; reflexivity|]. split; [vm_compute; reflexivity|].
  destruct compare_total_order as (_ & _ & T). apply (T _ (buf 0)); vm_compute; reflexivity.
Defined.

Lemma SelectExpr_create_sound_witness :
  exists e, SelectExpr_create (BinaryExpr Ult (buf 0) (buf 1)) (byte8 1) (byte8 2) = Done e /\
    forall ρ, eval ρ e = if eval ρ (BinaryExpr Ult (buf 0) (buf 1)) =? 0 then 2 else 1.
Proof.
  destruct (SelectExpr_create_sound default_off (BinaryExpr Ult (buf 0) (buf 1)) (byte8 1) (byte8 2))
    as (e & E & _ & _ & V);
    [split_and!; [by apply wf_buf|by apply wf_buf|done]|by apply wf_byte8|by apply wf_byte8|done|done|].
  exists e. by split.
Defined.

Lemma ExtractExpr_create_sound_witness :
  exists e, ExtractExpr_create (ConcatExpr (buf 1) (buf 0)) 8 8 = Done e /\ e = buf 1.
Proof.
  destruct (ExtractExpr_create_sound (ConcatExpr (buf 1) (buf 0)) 8 8) as (e & E & _);
    [split; by apply wf_buf|lia|lia|cbn; lia|].
  exists e. split; [exact E|]. vm_compute in E. by injection E as <-.
Defined.

Lemma ConcatExpr_createN_sound_witness :
  exists e, ConcatExpr_createN [byte8 1; byte8 2; byte8 3] = Done e /\
    e = ConstantExpr (MkAPInt 24 (65536 + 512 + 3)).
Proof.
  destruct (ConcatExpr_createN_sound [byte8 1; byte8 2; byte8 3]) as (e & E & _);
    [done|repeat constructor; cbn; lia|].
  exists e. split; [exact E|]. vm_compute in E. by injection E as <-.
Defined.

Lemma CastExpr_create_sound_witness :
  exists e, CastExpr_create SExt (byte8 255) 16 = Done e /\ e = ConstantExpr (MkAPInt 16 65535).
Proof.
  destruct (CastExpr_create_sound SExt (byte8 255) 16) as (e & E & _); [by apply wf_byte8|lia|].
  exists e. split; [exact E|]. vm_compute in E. by injection E as <-.
Defined.

Lemma split_concat_roundtrip_witness :
  exists hi lo e', ExtractExpr_create (buf 0) 3 5 = Done hi /\ ExtractExpr_create (buf 0) 0 3 = Done lo /\
    ConcatExpr_create hi lo = Done e' /\ e' = buf 0.
Proof.
  destruct (split_concat_roundtrip (buf 0) 3) as (hi & lo & e' & E1 & E2 & E3 & _);
    [by apply wf_buf|cbn; lia|].
  exists hi, lo, e'. split; [exact E1|]. split; [exact E2|]. split; [exact E3|].
  vm_compute in E1. injection E1 as <-. vm_compute in E2. injection E2 as <-.
  vm_compute in E3. by injection E3 as <-.
Defined.

Lemma createTempRead_little_endian_witness :
  exists e, createTempRead 2 32 = Done e /\ forall ρ, eval ρ e = 7 + 11 * 2 ^ 8 + 13 * 2 ^ 16 + 17 * 2 ^ 24.
Proof.
  destruct (createTempRead_little_endian default_off 2 4) as (e & E & _ & _ & V);
    [auto|apply wf_mixed|done|done|].
  exists e. split; [exact E|]. intros ρ. rewrite V. vm_compute. reflexivity.
Defined.

Lemma constant_folding_exact_witness :
  ConstantExpr_op SDiv (byte_const 249) (byte_const 2) = byte_const 253 /\
  uval (ConstantExpr_op SDiv (byte_const 249) (byte_const 2)) = eval_binary SDiv 8 249 2.
Proof.
  split; [vm_compute; reflexivity|].
  apply (constant_folding_exact SDiv (byte_const 249) (byte_const 2)); [split; cbn; lia|split; cbn; lia|done|done].
Defined.

End Witnesses.
