(* ===== verification/ConstraintProperties.v ===== *)
(** Constraints and assignments: the theorems. *)
From stdpp Require Import base list numbers strings gmap.
From Stdlib Require Import ZArith Lia String.
From S2P Require Import Prelude APInt Expr Semantics ConstantOps ExprCreate CreateSound OpsSound ReadSound.
From S2P Require Import ExprWeight Visitor Solver Constraints Evaluator Samples.
Local Open Scope Z_scope.

Section Properties.
Context {AP : APIntOps} {APL : APIntLaws} {AH : ArrayHeap} {OP : ExprOptions} {VO : VisitorOptions}.
Context {CO : ConstraintOptions} (default_opt : ConstArrayOpt = false).

(** C20. Simplifying an expression under path constraints ends, although the
    visitor goes on in what it has rebuilt, and keeps the value of the expression
    in every run the constraints allow; the result has the width of the
    expression and no more nodes.  The path must be feasible: in one of its runs
    the expression divides nothing by zero. *)
Theorem simplifyExpr_sound cs e ρ0 :
  Forall boolean cs -> sat ρ0 cs -> wf e -> div_safe ρ0 e ->
  exists r, eventually (fun fuel => simplifyExpr fuel cs e) r /\
    wf r /\ getWidth r = getWidth e /\ (nodes r <= nodes e)%nat /\
    forall ρ, sat ρ cs -> eval ρ r = eval ρ e.
Proof.
  intros Hb Hs He Hd.
  destruct (simplifyExpr_replaces default_opt (fun ρ => sat ρ cs) ρ0 Hs cs e Hb) as (r & Er & [[[? ?] Ev _] L]);
    [done|by split|].
  exists r. split_and!; [done..| |done]. by apply lighter_le in L.
Qed.

(** Adding constraints one after the other. *)
Definition addConstraints (fuel : nat) (es : list Expr) (cs : ConstraintSet) : outcome ConstraintSet :=
  foldl (fun o e => o ≫= addConstraint fuel e) (Done cs) es.

Lemma addConstraints_ok ρ0 es : forall cs, Forall (feasible ρ0) cs -> Forall (feasible ρ0) es ->
  exists cs', eventually (fun fuel => addConstraints fuel es cs) cs' /\ Forall (feasible ρ0) cs' /\
    forall ρ, sat ρ cs' <-> sat ρ cs /\ sat ρ es.
Proof.
  induction es as [|e es IH] using rev_ind; intros cs Hcs Hes.
  { exists cs. split; [apply eventually_Done|]. split; [done|]. intros ρ. split; [|tauto].
    intros H. split; [done|]. intros c Hc. by apply elem_of_nil in Hc. }
  apply Forall_app in Hes as [Hes He]. rewrite Forall_singleton in He.
  destruct (IH cs Hcs Hes) as (cs1 & E1 & F1 & S1).
  destruct (addConstraint_ok default_opt ρ0 e cs1 F1 He) as (cs2 & E2 & F2 & S2).
  exists cs2. split_and!; [|done|].
  - eapply (eventually_ext _ (fun m => addConstraints m es cs ≫= addConstraint m e)).
    { intros m. unfold addConstraints. by rewrite foldl_app. }
    by eapply eventually_bind; [exact E1|].
  - intros ρ. rewrite S2, S1, sat_app, sat_one. tauto.
Qed.

(** C16. Along a feasible path, one with a run that satisfies the constraints and in
    which they divide nothing by zero, the constraint manager never fails and its
    rewriting loses nothing: whatever well-formed boolean constraints are added, each rewriting the
    ones before it, the resulting set has exactly the solutions of all of them
    together. *)
Theorem constraint_manager_exact es ρ0 :
  Forall boolean es -> sat ρ0 es -> Forall (div_safe ρ0) es ->
  exists cs, eventually (fun fuel => addConstraints fuel es []) cs /\ Forall boolean cs /\
    forall ρ, sat ρ cs <-> sat ρ es.
Proof.
  intros Hb Hs Hd.
  destruct (addConstraints_ok ρ0 es []) as (cs & Ec & Hf & Hsat); [constructor| |].
  { rewrite !Forall_forall in *. intros c Hc. split_and!; auto. }
  exists cs. split_and!; [done| |].
  - eapply Forall_impl; [exact Hf|by intros ? []].
  - intros ρ. rewrite Hsat. split; [tauto|]. intros H. split; [|done]. intros c Hc. by apply elem_of_nil in Hc.
Qed.

Context (domain32 : forall r, arr_domain (array_at r) <= 32).

(** C21. Evaluating a well-formed expression under an assignment without free values
    gives a constant of its width, the value of the expression with the assigned bytes
    and zero elsewhere, provided that with these bytes nothing in it is divided by zero
    ([div_safe]), that no constant is directly under a [NotOptimizedExpr] in it
    ([clean]; such a node is kept, and the result is no constant,
    [unoptimized_true_not_satisfied]), that the assignment gives bytes, and to a
    constant array no more than it has ([assignment_ok]), that arrays are indexed with
    at most 32 bits, and that -const-array-opt is off, as it is by default. *)
Theorem assignment_evaluate_exact a e :
  assignment_ok a -> allowFreeValues a = false -> wf e -> div_safe (env_of a) e -> clean e = true ->
  exists v, Assignment_evaluate a e = Done (ConstantExpr v) /\
    getBitWidth v = getWidth e /\ uval v = eval (env_of a) e.
Proof.
  intros Ha Hf He Hd Hc.
  destruct (Assignment_evaluate_ok default_opt domain32 a e Ha) as (r & Er & [[[? Hw] Ev] Hcr]);
    [split; [done|by eapply div_safe_lit_safe]|].
  assert (isConst r = true) as Hr by (apply Hcr, known_closed; done).
  destruct r as [v| | | | | | | |]; try discriminate Hr.
  exists v. split_and!; [done..|]. by apply (Ev (env_of a)), env_of_agrees.
Qed.

(** With free values the bytes that are not assigned stay in the result, which
    has the value of the expression in every environment the assignment
    describes; a divisor that comes out as zero is left as it was. *)
Theorem partial_evaluation_sound a e :
  assignment_ok a -> wf e -> lit_safe e = true ->
  exists r, Assignment_evaluate a e = Done r /\ wf r /\ getWidth r = getWidth e /\
    forall ρ, agrees a ρ -> eval ρ r = eval ρ e.
Proof.
  intros Ha He Hd.
  destruct (Assignment_evaluate_ok default_opt domain32 a e Ha) as (r & Er & [[[? ?] Ev] _]); [by split|].
  by exists r.
Qed.

(** [Assignment::satisfies] decides the constraints: without free values it
    answers yes exactly when the assigned bytes, with zero elsewhere, satisfy
    them. *)
Theorem satisfies_exact a cs :
  assignment_ok a -> allowFreeValues a = false ->
  Forall (fun c => boolean c /\ div_safe (env_of a) c) cs -> Forall (fun c => clean c = true) cs ->
  exists b, satisfies a cs = Done b /\ (b = true <-> sat (env_of a) cs).
Proof.
  intros Ha Hf Hcs Hcl.
  destruct (satisfies_ok default_opt domain32 a cs Ha) as (b & Eb & H1 & H2).
  { eapply Forall_impl; [exact Hcs|]. intros c [? ?]. split; [done|]. by eapply div_safe_lit_safe. }
  exists b. split; [done|]. split; [intros Hb; apply (H1 Hb), env_of_agrees|]. apply H2.
  rewrite Forall_forall in *. intros c Hc. apply known_closed; [done|by apply Hcl|by apply Hcs].
Qed.

(** An assignment turned into constraints and back: they are satisfied by
    exactly the environments that have the bytes of the assignment, the
    assignment itself among them. *)
Theorem assignment_constraints_exact a :
  assignment_ok a -> bound_arrays a ->
  exists cs, createConstraintsFromAssignment a = Done cs /\ sat (env_of a) cs /\
    forall ρ, sat ρ cs <-> forall r bs i v, bindings a !! r = Some bs -> bs !! i = Some v -> byte_is ρ r i v.
Proof.
  intros Ha Hb. destruct (createConstraints_ok default_opt domain32 a Ha Hb) as (cs & Ec & _ & Hs).
  exists cs. split_and!; [done| |done]. apply Hs. intros r bs i v Hbs Hv. unfold byte_is, env_of, byte_of.
  rewrite Hbs. cbn. by rewrite Nat2Z.id, Hv.
Qed.

(** A [NotOptimizedExpr] over a constant is rebuilt by [visitExpr] and never
    removed: the constraint that is true everywhere is reported as not
    satisfied by every assignment. *)
Theorem unoptimized_true_not_satisfied a :
  let c := NotOptimizedExpr (ConstantExpr (MkAPInt 1 1)) in
  satisfies a [c] = Done false /\ forall ρ, sat ρ [c].
Proof.
  intros c. split.
  - unfold satisfies, c. cbn. rewrite orb_false_r. by destruct UseVisitorHash.
  - intros ρ. apply sat_one. done.
Qed.

End Properties.

(** ** The theorems on concrete inputs *)

Section Witnesses.
#[local] Existing Instance mixed_heap.
#[local] Existing Instance default_options.
#[local] Instance default_visitor : VisitorOptions := {| UseVisitorHash := true |}.
#[local] Instance default_rewriting : ConstraintOptions := {| RewriteEqualities := true |}.

(** [buf[0] == 5], and a run in which it holds. *)
Definition buf0_is_5 : Expr := BinaryExpr EqK (byte8 5) (buf 0).
Definition run_5 : env := fun _ i => if i =? 0 then 5 else 9.
Definition buf_sum : Expr := BinaryExpr Add (buf 0) (buf 1).
Definition sum_is_14 : Expr := BinaryExpr EqK (byte8 14) buf_sum.

Lemma boolean_eq v e : 0 <= v < 2 ^ 8 -> wf e -> getWidth e = 8 -> boolean (BinaryExpr EqK (byte8 v) e).
Proof. intros Hv He Hw. split; [|done]. split_and!; [by apply wf_byte8|done|done]. Qed.

Lemma wf_sum : wf buf_sum.
Proof. split_and!; [by apply wf_buf..|done]. Qed.

Lemma simplifyExpr_sound_witness :
  simplifyExpr 10 [buf0_is_5] buf_sum = Done (BinaryExpr Add (byte8 5) (buf 1)) /\
  exists r, eventually (fun fuel => simplifyExpr fuel [buf0_is_5] buf_sum) r /\
    forall ρ, sat ρ [buf0_is_5] -> eval ρ r = eval ρ buf_sum.
Proof.
  split; [vm_compute; reflexivity|].
  destruct (simplifyExpr_sound default_off [buf0_is_5] buf_sum run_5) as (r & Er & _ & _ & _ & Ev);
    [|by apply sat_one|apply wf_sum|done|by exists r].
  apply Forall_singleton, boolean_eq; [done|by apply wf_buf|done].
Defined.

(** The second constraint, [buf[0] + buf[1] == 14], is stored as [buf[1] == 9]. *)
Lemma constraint_manager_exact_witness :
  addConstraints 10 [buf0_is_5; sum_is_14] [] = Done [buf0_is_5; BinaryExpr EqK (byte8 9) (buf 1)] /\
  exists cs, eventually (fun fuel => addConstraints fuel [buf0_is_5; sum_is_14] []) cs /\
    forall ρ, sat ρ cs <-> sat ρ [buf0_is_5; sum_is_14].
Proof.
  split; [vm_compute; reflexivity|].
  destruct (constraint_manager_exact default_off [buf0_is_5; sum_is_14] run_5) as (cs & Ec & _ & Hs).
  - apply Forall_cons. split; [apply boolean_eq; [done|by apply wf_buf|done]|].
    apply Forall_singleton, boolean_eq; [done|apply wf_sum|done].
  - intros c Hc. apply elem_of_cons in Hc as [-> |Hc]; [by vm_compute|].
    apply list_elem_of_singleton in Hc as ->. by vm_compute.
  - apply Forall_cons. split; [done|]. by apply Forall_singleton.
  - by exists cs.
Defined.

(** Bytes for the buffer. *)
Definition bytes (allow : bool) : Assignment := MkAssignment allow {[1%positive := [5; 9; 0; 255]]}.

Lemma bytes_ok allow : assignment_ok (bytes allow).
Proof.
  intros r bs H. cbn in H. apply lookup_singleton_Some in H as [<- <-]. split; [done|].
  repeat (apply Forall_cons; split; [lia|]). done.
Qed.

Lemma bytes_bound allow : bound_arrays (bytes allow).
Proof.
  intros r bs H. cbn in H. apply lookup_singleton_Some in H as [<- <-]. split; [done|]. split; [apply wf_mixed|]. by vm_compute.
Qed.

Lemma assignment_evaluate_exact_witness :
  Assignment_evaluate (bytes false) buf_sum = Done (byte8 14).
Proof.
  destruct (assignment_evaluate_exact default_off mixed_domain32 (bytes false) buf_sum)
    as ([w v] & Ev & Hw & Hv); [apply bytes_ok|done|apply wf_sum|done|done|].
  rewrite Ev. cbn in Hw, Hv. subst. vm_compute. reflexivity.
Defined.

(** Byte 4 of the buffer is not assigned. *)
Lemma partial_evaluation_sound_witness :
  exists r, Assignment_evaluate (bytes true) (BinaryExpr Add (buf 1) (buf 4)) = Done r /\
    r = BinaryExpr Add (byte8 9) (buf 4) /\
    forall ρ, agrees (bytes true) ρ -> eval ρ r = eval ρ (BinaryExpr Add (buf 1) (buf 4)).
Proof.
  destruct (partial_evaluation_sound default_off mixed_domain32 (bytes true) (BinaryExpr Add (buf 1) (buf 4)))
    as (r & Er & _ & _ & Ev); [apply bytes_ok|split_and!; [by apply wf_buf..|done]|done|].
  exists r. split; [exact Er|]. split; [|exact Ev]. vm_compute in Er. by injection Er as <-.
Defined.

Lemma satisfies_exact_witness : satisfies (bytes false) [buf0_is_5; sum_is_14] = Done true.
Proof.
  destruct (satisfies_exact default_off mixed_domain32 (bytes false) [buf0_is_5; sum_is_14]) as (b & -> & Hb).
  - apply bytes_ok.
  - done.
  - apply Forall_cons. split; [split; [apply boolean_eq; [done|by apply wf_buf|done]|done]|].
    apply Forall_singleton. split; [apply boolean_eq; [done|apply wf_sum|done]|done].
  - apply Forall_cons. split; [done|]. by apply Forall_singleton.
  - f_equal. apply Hb. intros c Hc. apply elem_of_cons in Hc as [-> |Hc]; [by vm_compute|].
    apply list_elem_of_singleton in Hc as ->. by vm_compute.
Defined.

Lemma assignment_constraints_exact_witness :
  exists cs, createConstraintsFromAssignment (bytes false) = Done cs /\ sat (env_of (bytes false)) cs /\
    cs = (fun i => BinaryExpr EqK (byte8 (nth i [5; 9; 0; 255] 0)) (buf (Z.of_nat i))) <$> [0; 1; 2; 3]%nat.
Proof.
  destruct (assignment_constraints_exact default_off mixed_domain32 (bytes false)) as (cs & Ec & Hs & _);
    [apply bytes_ok|apply bytes_bound|].
  exists cs. split; [exact Ec|]. split; [exact Hs|]. vm_compute in Ec. by injection Ec as <-.
Defined.

End Witnesses.
