(* ===== verification/CounterexampleProperties.v ===== *)
(** Counterexamples and their cache: the theorems. *)
From stdpp Require Import base list numbers strings gmap.
From Stdlib Require Import ZArith Lia.
From S2P Require Import Prelude APInt Expr Semantics ConstantOps ExprCreate CreateSound OpsSound.
From S2P Require Import ExprWeight Visitor FindReads Solver Evaluator MapOfSets SymbolicObjects InitialValues FiniteSolver.
From S2P Require Import CexCachingSolver IndependentSolver IndependentInitial ValidatingSolver Samples.
Local Open Scope Z_scope.

(** ** Maps of sets *)

Section Maps.
Context {K V : Type} {O : OrderedKey K} {L : OrderedKeyLaws K} (V0 : V).

(** The map after a sequence of insertions. *)
Definition insert_all (ops : list (list K * V)) : Node K V :=
  foldl (fun n o => MapOfSets.insert V0 o.1 o.2 n) (node_new V0) ops.

(** The reference: the value of the last insertion of a set. *)
Fixpoint last_value (ops : list (list K * V)) (set : list K) (v : option V) : option V :=
  match ops with
  | [] => v
  | o :: ops => last_value ops set (if set_eq_dec o.1 set then Some o.2 else v)
  end.

Lemma insert_all_ok ops n : Forall (fun o => is_set o.1) ops -> tree_ok n ->
  tree_ok (foldl (fun n o => MapOfSets.insert V0 o.1 o.2 n) n ops) /\
  forall set, MapOfSets.lookup set (foldl (fun n o => MapOfSets.insert V0 o.1 o.2 n) n ops) =
    last_value ops set (MapOfSets.lookup set n).
Proof.
  intros Hops. revert n. induction Hops as [|o ops Ho Hops IH]; intros n Hn; cbn; [done|].
  destruct (IH (MapOfSets.insert V0 o.1 o.2 n) (tree_ok_insert V0 _ _ _ Ho Hn)) as [A B]. split; [done|].
  intros set. rewrite B, lookup_insert by apply Hn. done.
Qed.

(** C19. After any insertions the tree is the map from sets to their last values:
    [lookup] gives them, [subsets] and [supersets] list them, and [findSubset]
    and [findSuperset] find one that the predicate accepts whenever there is
    one. *)
Theorem map_of_sets_exact ops set (p : V -> outcome bool) :
  Forall (fun o => is_set o.1) ops -> is_set set -> (forall v, exists b, p v = Done b) ->
  let n := insert_all ops in
  let stored s v := last_value ops s None = Some v in
  MapOfSets.lookup set n = last_value ops set None /\
  (forall s v, (s, v) ∈ subsets set n <-> s ⊆ set /\ stored s v) /\
  (forall s v, (s, v) ∈ supersets set n <-> set ⊆ s /\ stored s v) /\
  match findSubset p n set with
  | Done (Some v) => exists s, s ⊆ set /\ stored s v /\ p v = Done true
  | Done None => forall s v, s ⊆ set -> stored s v -> p v = Done false
  | _ => False
  end /\
  match findSuperset p n set with
  | Done (Some v) => exists s, set ⊆ s /\ stored s v /\ p v = Done true
  | Done None => forall s v, set ⊆ s -> stored s v -> p v = Done false
  | _ => False
  end.
Proof.
  intros Hops Hset Hp n stored. destruct (insert_all_ok ops (node_new V0) Hops (tree_ok_new V0)) as [Hn Hl].
  fold n in Hn, Hl |- *.
  assert (forall s, MapOfSets.lookup s n = last_value ops s None) as Hl' by (intros s; by rewrite Hl, lookup_new).
  assert (p_defined p n) as Hd by (intros s v _; apply Hp). unfold stored.
  split; [done|]. split; [intros s v; by rewrite subsets_elem, Hl'|]. split; [intros s v; by rewrite supersets_elem, Hl'|].
  assert (forall s v, last_value ops s None = Some v -> is_set s) as Hs.
  { intros s v Hv. apply (tree_sets _ Hn s v). by rewrite Hl'. }
  split.
  - pose proof (findSubset_ok p n set (tree_wf _ Hn) Hd Hset) as H. destruct (findSubset p n set) as [[v|]| | |]; try done; cbn in H.
    + destruct H as (s & ? & ? & ?). exists s. by rewrite <- Hl'.
    + intros s v Hsub Hv. apply (H s v); [by eapply Hs|done|by rewrite Hl'].
  - pose proof (findSuperset_ok p n set (tree_wf _ Hn) Hd Hset) as H. destruct (findSuperset p n set) as [[v|]| | |]; try done; cbn in H.
    + destruct H as (s & ? & ? & ?). exists s. by rewrite <- Hl'.
    + intros s v Hsub Hv. apply (H s v); [by eapply Hs|done|by rewrite Hl'].
Qed.

End Maps.

Section Properties.
Context {AP : APIntOps} {APL : APIntLaws} {AH : ArrayHeap} {OP : ExprOptions} {VO : VisitorOptions}.

(** The symbolic arrays of expressions are exactly those that a read in them or in
    their updates names, each once. *)
Theorem findSymbolicObjects_exact es : NoDup (findSymbolicObjects es) /\
  forall r, r ∈ findSymbolicObjects es <->
    isSymbolicArray (array_at r) = true /\ exists e u i, e ∈ es /\ ReadExpr r u i ∈ subs e.
Proof.
  destruct (findSymbolicObjects_ok es) as [Hn Hf]. split; [done|]. intros r. rewrite Hf. unfold reads_in. naive_solver.
Qed.

Context (default_opt : ConstArrayOpt = false) (domain32 : forall r, arr_domain (array_at r) <= 32).

(** C17. The counterexample cache over a solver for counterexamples: whatever was
    asked before and whatever the options, every operation returns, keeps what
    is cached right, and answers soundly a query whose path guards divisions
    and reads and has no constant directly under a [NotOptimizedExpr] ([guarded]); no
    assertion fails.  Arrays are indexed with at most 32 bits, and -const-array-opt is
    off, as by default. *)
Theorem cex_caching_refines {XO : CexOptions} {S} {iops : InitialSolver S} {sol : SoundInitialSolver S shaped} :
  (forall s, iv_inv shaped s -> CexCachingSolver.inv (CexCachingSolver.Mk s (node_new None) [])) /\
  forall q s, CexCachingSolver.inv s -> guarded q ->
    (exists r s', Solver.computeValue q s = Done (r, s') /\ CexCachingSolver.inv s' /\
       forall a, r = Some a -> wf_apint a /\ getBitWidth a = getWidth (q_expr q) /\
         exists ρ, sat ρ (constraints q) /\ eval ρ (q_expr q) = uval a) /\
    (getWidth (q_expr q) = Bool ->
       (exists r s', Solver.computeValidity q s = Done (r, s') /\ CexCachingSolver.inv s' /\
          forall v, r = Some v -> validity_is v q) /\
       (exists r s', Solver.computeTruth q s = Done (r, s') /\ CexCachingSolver.inv s' /\
          forall b, r = Some b -> (b = true <-> valid q)) /\
       forall objects, objects_ok objects ->
         exists r s', InitialValues.computeInitialValues q objects s = Done (r, s') /\ CexCachingSolver.inv s' /\
           initial_result_ok q objects r).
Proof.
  split; [intros s Hs; by apply CexCachingSolver.inv_new|]. intros q s Hs Hg.
  split; [by apply CexCachingSolver.cex_computeValue_ok|]. intros Hw.
  split; [by apply CexCachingSolver.cex_computeValidity_ok|].
  split; [by apply CexCachingSolver.cex_computeTruth_ok|].
  intros objects Ho. apply CexCachingSolver.cex_computeInitialValues_ok; auto. by apply guarded_askable.
Qed.

(** An answer is remembered: asked again, the cache gives the same result without
    the solver and stays as it is. *)
Theorem cex_cache_remembers {XO : CexOptions} {S} {iops : InitialSolver S} {sol : SoundInitialSolver S shaped} q
    (s s' : CexCachingSolver.t S) v :
  CexCachingSolver.inv s -> CexCachingSolver.getAssignment q s = Done (Some v, s') ->
  CexCachingSolver.getAssignment q s' = Done (Some v, s').
Proof. apply CexCachingSolver.getAssignment_cached. Qed.

(** C18. Over a solver that keeps the contract of counterexamples, those of independent
    factors are put together to one of the whole query, or one factor has none and the
    query is valid; the array elements of different factors do not overwrite each
    other, and the assertion on the point that was made holds.  This is for distinct
    well-formed objects and for queries that can be split ([splittable]): the
    constraints can be satisfied and where they hold they guard the divisions and the
    reads of the query, and no constant is under a [NotOptimizedExpr] ([guarded]);
    the expression is boolean, is false if it is a constant, and is false in some
    environment at least; and arrays are indexed with at most 32 bits, with
    -const-array-opt off, as it is by default.  Of other queries nothing is shown: the point may not
    evaluate to constants, so that the assertion may fail. *)
Theorem independent_initial_exact {S} {iops : InitialSolver S} {sol : SoundInitialSolver S shaped} q objects s :
  iv_inv shaped s -> IndependentInitial.splittable q -> objects_ok objects ->
  exists r s', IndependentInitial.computeInitialValues q objects s = Done (r, s') /\ iv_inv shaped s' /\
    initial_result_ok q objects r.
Proof. by apply IndependentInitial.independent_computeInitialValues_ok. Qed.

(** C38. The check of [AssignmentValidatingSolver], on boolean constraints and a boolean
    expression without a division by the literal zero, and on bytes for symbolic
    objects.  Values that pass it as a solution are a counterexample, whatever solver
    they come from, for every environment that has them.  Conversely, the answer of a
    solver that keeps the contract of counterexamples passes the check, when the solver
    succeeds, the objects are distinct and well-formed and are all that the query
    reads, and the query is [guarded]: its constraints can be satisfied, they guard its
    divisions and its reads where they hold, and no constant is directly under a
    [NotOptimizedExpr] in it.  Arrays are indexed with at most 32 bits, and
    -const-array-opt is off, as it is by default.  For a query that is not guarded the check may reject
    right values ([unoptimized_true_not_satisfied]). *)
Theorem assignment_validation_exact {S} {iops : InitialSolver S} q objects s r s' :
  Forall literal_bool (constraints q) -> literal_bool (q_expr q) ->
  Forall (fun r => isSymbolicArray (array_at r) = true) objects ->
  Forall (Forall (fun v => 0 <= v < 2 ^ 8)) (iv_values r) ->
  (assignment_validating_computeInitialValues q objects s = Done (r, s') -> iv_hasSolution r = Some true ->
     exists a, Assignment_make objects (iv_values r) true = Done a /\ forall ρ, agrees a ρ -> counterexample q ρ) /\
  (forall sol : SoundInitialSolver S shaped, iv_inv shaped s -> guarded q -> objects_ok objects ->
     covers_query objects q -> InitialValues.computeInitialValues q objects s = Done (r, s') -> iv_success r = true ->
     assignment_validating_computeInitialValues q objects s = Done (r, s')).
Proof.
  intros Hc He Ho Hv. split.
  - intros H Hs. by eapply assignment_validating_certifies.
  - intros sol Hi Hg Hok Hcov H Hs. eapply assignment_validating_passes; try done. apply He.
Qed.

(** [ValidatingSolver] certifies counterexamples: with a sound oracle, values
    that are returned describe counterexamples only, and no solution means that
    the query is valid, whatever the solver under test is. *)
Theorem validating_initial_sound {S O} {iops : InitialSolver S} {oops : SolverImpl O} {osol : SoundSolver O}
    q objects (s : ValidatingSolver.t S O) r s' :
  s_inv (ValidatingSolver.oracle s) -> bool_query q -> ValidatingSolver.indexable objects ->
  (iv_hasSolution r = Some true -> values_ok objects (iv_values r)) ->
  ValidatingSolver.computeInitialValues q objects s = Done (r, s') -> iv_success r = true ->
  s_inv (ValidatingSolver.oracle s') /\
  ((iv_hasSolution r = Some false /\ valid q) \/
   (iv_hasSolution r = Some true /\ forall ρ, has_values ρ objects (iv_values r) -> counterexample q ρ)).
Proof. by apply ValidatingSolver.validating_initial_certified. Qed.

(** With -cex-cache-exp, a query that the cache knows to be false everywhere is
    reported as a failure instead of as not valid. *)
Theorem cex_experimental_fails {XO : CexOptions} {S} {iops : InitialSolver S} q nq key (s : CexCachingSolver.t S) :
  CexCacheExperimental = true -> negateExpr q = Done nq ->
  CexCachingSolver.lookupAssignment nq s = Done (key, Some None) ->
  Solver.computeTruth q s = Done (None, s).
Proof. intros Hx Hn Hl. cbn. unfold CexCachingSolver.computeTruth. by rewrite Hx, Hn; cbn; rewrite Hl. Qed.

(** When the solver below fails without a word on [hasSolution], as the
    counterexample cache does, the facade reads it all the same. *)
Theorem facade_reads_unwritten {XO : CexOptions} {S} {iops : InitialSolver S} q objects (s s' : CexCachingSolver.t S) :
  CexCachingSolver.getAssignment q s = Done (None, s') ->
  getInitialValues (S := CexCachingSolver.t S) q objects s = Undefined.
Proof. intros H. unfold getInitialValues. cbn. unfold CexCachingSolver.computeInitialValues. by rewrite H. Qed.

End Properties.

(** ** The theorems on concrete inputs *)

Section Witnesses.
#[local] Existing Instance small_heap.
#[local] Existing Instance finite_solver.
#[local] Existing Instance finite_initial.
#[local] Existing Instance finite_sound_initial.
#[local] Existing Instance finite_sound.
#[local] Existing Instance default_options.
#[local] Instance hashed_visitor : VisitorOptions := {| UseVisitorHash := true |}.
#[local] Instance default_cex : CexOptions :=
  {| CexCacheTryAll := false; CexCacheSuperSet := false; CexCacheExperimental := false; DebugCexCacheCheckBinding := true |}.

#[local] Instance Z_key : OrderedKey Z := {| key_compare := Z.compare |}.

#[local] Instance Z_key_laws : OrderedKeyLaws Z.
Proof.
  split; cbn; intros; [apply Z.compare_eq_iff|apply Z.compare_antisym|].
  rewrite Z.compare_lt_iff in *. lia.
Qed.

Definition stored_sets : list (list Z * Z) := [([1; 2], 10); ([2], 20); ([1; 2; 3], 30); ([2], 21)].

Lemma sorted_sets : Forall (fun o : list Z * Z => is_set o.1) stored_sets /\ is_set [1; 2].
Proof. split; repeat constructor. Qed.

Lemma map_of_sets_exact_witness :
  MapOfSets.lookup [1; 2] (insert_all 0 stored_sets) = Some 10 /\
  ([2], 21) ∈ subsets [1; 2] (insert_all 0 stored_sets) /\
  supersets [1; 2] (insert_all 0 stored_sets) = [([1; 2], 10); ([1; 2; 3], 30)] /\
  findSubset (fun v => Done (20 <? v)) (insert_all 0 stored_sets) [1; 2] = Done (Some 21).
Proof.
  destruct sorted_sets as [Hops Hset].
  destruct (map_of_sets_exact 0 stored_sets [1; 2] (fun v => Done (20 <? v)) Hops Hset) as (Hl & Hsub & _);
    [intros v; by eexists|].
  split; [etrans; [exact Hl|reflexivity]|]. split; [|split; vm_compute; reflexivity].
  apply Hsub. split; [|reflexivity]. intros x ->%list_elem_of_singleton. apply elem_of_cons. right. by left.
Defined.

(** Elements of the pair, of two bits. *)
Definition pair_elem (k : Z) : Expr := ReadExpr 1 UNull (ConstantExpr (MkAPInt 1 k)).
Definition two_bits (v : Z) : Expr := ConstantExpr (MkAPInt 2 v).

(** The elements add up to 3; is the first less than 2? *)
Definition pair_query : Query :=
  MkQuery [BinaryExpr EqK (two_bits 3) (BinaryExpr Add (pair_elem 0) (pair_elem 1))]
    (BinaryExpr Ult (pair_elem 0) (two_bits 2)).

(** Two factors: the first element is 2, and the second is not 1. *)
Definition split_query : Query :=
  MkQuery [BinaryExpr EqK (two_bits 2) (pair_elem 0)] (BinaryExpr EqK (two_bits 1) (pair_elem 1)).

Lemma wf_pair_elem k : 0 <= k < 2 -> wf (pair_elem k).
Proof. intros Hk. split; [apply small_wf|]. split; [done|]. split; [|done]. split; cbn; [done|lia]. Qed.

Lemma wf_two_bits v : 0 <= v < 4 -> wf (two_bits v).
Proof. intros Hv. split; cbn; [done|lia]. Qed.

Lemma boolean_pair k a b : isCmpKind k = true -> wf a -> wf b -> getWidth a = getWidth b -> boolean (BinaryExpr k a b).
Proof. intros Hk Ha Hb Hw. split; [by split|]. cbn. by rewrite Hk. Qed.

Lemma pair_guarded q : Forall boolean (constraints q) -> boolean (q_expr q) -> (exists ρ, sat ρ (constraints q)) ->
  forallb clean (q_expr q :: constraints q) = true ->
  Forall (fun e => forall ρ, div_safe ρ e) (q_expr q :: constraints q) -> guarded q.
Proof.
  intros Hb [He Hw] Hs Hc Hd. split; [done| | |].
  - apply Forall_forall. intros e Hin%list_elem_of_In. rewrite forallb_forall in Hc. auto.
  - intros ρ _. eapply Forall_impl; [exact Hd|]. auto.
  - intros ρ _. apply Forall_forall. intros e Hin. apply small_in_bounds.
    apply elem_of_cons in Hin as [-> |Hin]; [done|]. rewrite Forall_forall in Hb. by apply Hb.
Qed.

Lemma pair_query_guarded : guarded pair_query /\ boolean (q_expr pair_query).
Proof.
  assert (boolean (q_expr pair_query)) as Hq by (apply boolean_pair; [done|by apply wf_pair_elem|by apply wf_two_bits|done]).
  split; [|done]. apply pair_guarded; [|done| |done|].
  - apply Forall_singleton, boolean_pair; [done|by apply wf_two_bits| |done]. by split_and!; [apply wf_pair_elem..|].
  - exists (small_env 1 2). intros c ->%list_elem_of_singleton. by vm_compute.
  - apply Forall_cons. split; [by intros|]. apply Forall_singleton. by intros.
Qed.

Lemma split_query_guarded : guarded split_query /\ boolean (q_expr split_query).
Proof.
  assert (boolean (q_expr split_query)) as Hq by (apply boolean_pair; [done|by apply wf_two_bits|by apply wf_pair_elem|done]).
  split; [|done]. apply pair_guarded; [|done| |done|].
  - apply Forall_singleton, boolean_pair; [done|by apply wf_two_bits|by apply wf_pair_elem|done].
  - exists (small_env 2 0). intros c ->%list_elem_of_singleton. by vm_compute.
  - apply Forall_cons. split; [by intros|]. apply Forall_singleton. by intros.
Qed.

Lemma pair_objects : objects_ok [1%positive].
Proof. split; [apply NoDup_singleton|]. apply Forall_singleton, small_wf. Qed.

(** The cache starts empty; the validity takes two solver calls, the counterexample
    then comes from the cache. *)
Lemma cex_caching_refines_witness :
  exists r s', Solver.computeValidity pair_query (CexCachingSolver.Mk tt (node_new None) []) = Done (r, s') /\
    r = Some VUnknown /\
    exists i s2, InitialValues.computeInitialValues pair_query [1%positive] s' = Done (i, s2) /\
      iv_values i = [[2; 1]] /\ s2 = s'.
Proof.
  destruct pair_query_guarded as [Hg [_ Hw]].
  destruct (cex_caching_refines default_off small_domain32 (sol := finite_sound_initial)) as [Hnew H].
  destruct (H pair_query _ (Hnew tt I) Hg) as [_ Hb].
  destruct (Hb Hw) as [(r & s' & Ev & Hs' & _) _]. exists r, s'. split; [exact Ev|].
  destruct (H pair_query s' Hs' Hg) as [_ Hb2]. destruct (Hb2 Hw) as (_ & _ & Hi).
  destruct (Hi [1%positive] pair_objects) as (i & s2 & Ei & _ & _).
  vm_compute in Ev. injection Ev as <- <-. split; [done|]. exists i, s2. split; [exact Ei|].
  vm_compute in Ei. by injection Ei as <- <-.
Defined.

Lemma independent_initial_exact_witness :
  exists r s', IndependentInitial.computeInitialValues split_query [1%positive] tt = Done (r, s') /\
    iv_values r = [[2; 0]].
Proof.
  destruct split_query_guarded as [Hg [_ Hw]].
  destruct (independent_initial_exact default_off small_domain32 (sol := finite_sound_initial) split_query [1%positive] tt I)
    as (r & s' & E & _ & _).
  - split; [done|done|done|]. exists (small_env 2 0). by vm_compute.
  - apply pair_objects.
  - exists r, s'. split; [exact E|]. vm_compute in E. by injection E as <- <-.
Defined.

Lemma assignment_validation_exact_witness :
  exists r s', assignment_validating_computeInitialValues pair_query [1%positive] tt = Done (r, s') /\
    iv_values r = [[2; 1]].
Proof.
  destruct pair_query_guarded as [Hg [Hq Hw]].
  set (r := MkInitial true (Some true) [[2; 1]]). exists r, tt. split; [|done].
  destruct (assignment_validation_exact default_off small_domain32 pair_query [1%positive] tt r tt) as [_ H].
  - pose proof (wq_constraints _ (g_query _ Hg)) as Hb. apply Forall_singleton. split; [|done].
    by apply Forall_singleton in Hb.
  - by split.
  - by apply Forall_singleton.
  - apply Forall_singleton, Forall_cons. split; [done|]. by apply Forall_singleton.
  - apply (H finite_sound_initial I Hg pair_objects).
    + intros e x [-> |He]%elem_of_cons (_ & u & i & Hin); [|apply list_elem_of_singleton in He as ->];
        cbn in Hin; rewrite !elem_of_cons, elem_of_nil in Hin; destruct_or?; simplify_eq; set_solver.
    + by vm_compute.
    + done.
Defined.

Lemma validating_initial_sound_witness :
  exists r s', ValidatingSolver.computeInitialValues pair_query [1%positive] (ValidatingSolver.Mk tt tt) = Done (r, s') /\
    (forall ρ, has_values ρ [1%positive] [[2; 1]] -> counterexample pair_query ρ).
Proof.
  destruct pair_query_guarded as [Hg [Hq Hw]]. set (r := MkInitial true (Some true) [[2; 1]]).
  destruct (validating_initial_sound default_off small_domain32 pair_query [1%positive] (ValidatingSolver.Mk tt tt) r
    (ValidatingSolver.Mk tt tt)) as [_ [[H _]|[_ H]]].
  - exact I.
  - split; [apply Hg|done].
  - split; [apply pair_objects|]. by apply Forall_singleton.
  - intros _. apply List.Forall2_cons, List.Forall2_nil. split; [done|].
    apply Forall_cons. split; [done|]. by apply Forall_singleton.
  - by vm_compute.
  - done.
  - discriminate H.
  - exists r, (ValidatingSolver.Mk tt tt). split; [by vm_compute|exact H].
Defined.

End Witnesses.
