(* ===== verification/TreeProperties.v ===== *)
(** The immutable tree as a container: what any sequence of its operations
    gives, with the searches and the iterators. *)
From stdpp Require Import base numbers list.
From Stdlib Require Import ZArith Lia.
From S2P Require Import Prelude MapOfSets ImmutableTree.

Section Properties.
Context {K V : Type} {OK : OrderedKey K} {KV : KeyOfValue K V} {L : OrderedKeyLaws K}.
Abbreviation Tree := (ImmutableTree.node V).

(** The operations that give a new tree; a removed least or greatest value is
    dropped. *)
Inductive tree_op : Type := Insert (v : V) | Replace (v : V) | Remove (k : K) | PopMin | PopMax.

Definition tree_step (o : tree_op) (t : Tree) : outcome Tree :=
  match o with
  | Insert v => Done (ImmutableTree.insert v t)
  | Replace v => Done (ImmutableTree.replace v t)
  | Remove k => ImmutableTree.remove k t
  | PopMin => '(_, t) ← ImmutableTree.popMin t; Done t
  | PopMax => '(_, t) ← ImmutableTree.popMax t; Done t
  end.

Fixpoint tree_run (l : list tree_op) (t : Tree) : outcome Tree :=
  match l with [] => Done t | o :: l => t ← tree_step o t; tree_run l t end.

(** The same operations on ordered lists; an empty list has nothing to pop. *)
Definition list_step (o : tree_op) (l : list V) : option (list V) :=
  match o with
  | Insert v => Some (ImmutableTree.list_insert v l)
  | Replace v => Some (ImmutableTree.list_replace v l)
  | Remove k => Some (ImmutableTree.list_remove k l)
  | PopMin => match l with [] => None | _ :: l => Some l end
  | PopMax => match l with [] => None | _ => Some (removelast l) end
  end.

Fixpoint list_run (os : list tree_op) (l : list V) : option (list V) :=
  match os with [] => Some l | o :: os => match list_step o l with Some l => list_run os l | None => None end end.

(** The values an iterator passes on its way to the end, and to the beginning. *)
Fixpoint forward (n : nat) (e it : ImmutableTree.iterator) : outcome (list V) :=
  match n with
  | O => OutOfFuel
  | S n =>
      if ImmutableTree.iter_eqb it e then Done []
      else v ← ImmutableTree.deref_iter it; it ← ImmutableTree.next it; l ← forward n e it; Done (v :: l)
  end.

Fixpoint backward (n : nat) (b it : ImmutableTree.iterator) : outcome (list V) :=
  match n with
  | O => OutOfFuel
  | S n =>
      if ImmutableTree.iter_eqb it b then Done []
      else it ← ImmutableTree.prev it; v ← ImmutableTree.deref_iter it; l ← backward n b it; Done (v :: l)
  end.

(** Both walks from the place [from] of a tree. *)
Definition walks (from : Tree -> outcome ImmutableTree.iterator) (t : Tree) : outcome (list V * list V) :=
  it ← from t;
  b ← ImmutableTree.begin t;
  e ← ImmutableTree.end_ t;
  let n := S (N.to_nat (ImmutableTree.size t)) in
  f ← forward n e it;
  r ← backward n b it;
  Done (r, f).

Lemma tree_step_ok o t l : ImmutableTree.good t -> list_step o (ImmutableTree.elems t) = Some l ->
  exists t', tree_step o t = Done t' /\ ImmutableTree.good t' /\ ImmutableTree.elems t' = l.
Proof.
  intros Ht. pose proof Ht as [_ Ho]. destruct o as [v|v|k| |]; cbn.
  - intros [= <-]. eexists. split_and!; [done|by apply ImmutableTree.insert_good|by apply ImmutableTree.elems_insert].
  - intros [= <-]. eexists. split_and!; [done|by apply ImmutableTree.replace_good|by apply ImmutableTree.elems_replace].
  - intros [= <-]. destruct (ImmutableTree.remove_good k t Ht) as (t' & -> & ? & ?). by exists t'.
  - intros Hl. destruct (ImmutableTree.popMin_good t Ht) as (v & t' & -> & Hg & E); [by intros -> |].
    rewrite E in Hl. injection Hl as <-. by exists t'.
  - intros Hl. destruct (ImmutableTree.popMax_good t Ht) as (v & t' & -> & Hg & E); [by intros -> |].
    rewrite E in Hl. exists t'. split_and!; [done..|]. destruct (ImmutableTree.elems t' ++ [v]) eqn:El; [done|].
    rewrite <- El, removelast_last in Hl. congruence.
Qed.

Lemma tree_run_ok os t l : ImmutableTree.good t -> list_run os (ImmutableTree.elems t) = Some l ->
  exists t', tree_run os t = Done t' /\ ImmutableTree.good t' /\ ImmutableTree.elems t' = l.
Proof.
  revert t. induction os as [|o os IH]; intros t Ht; cbn; [intros [= <-]; by exists t|].
  destruct (list_step o (ImmutableTree.elems t)) as [l1|] eqn:E; [|done]. intros Hl.
  destruct (tree_step_ok o t l1 Ht E) as (t1 & -> & Ht1 & <-). by apply IH.
Qed.

Section Walks.
Context (t : Tree) (Ht : ImmutableTree.good t).

Lemma forward_ok e n it i : ImmutableTree.at_index t e (length (ImmutableTree.elems t)) -> ImmutableTree.at_index t it i ->
  i <= length (ImmutableTree.elems t) -> length (ImmutableTree.elems t) - i < n ->
  forward n e it = Done (drop i (ImmutableTree.elems t)).
Proof.
  intros He. revert it i. induction n as [|n IH]; intros it i Hi Hle Hn; [lia|]. cbn [forward].
  rewrite (ImmutableTree.iter_eqb_ok t Ht it e i _ Hi He). case_bool_decide as E; [subst i; by rewrite drop_all|].
  rewrite (ImmutableTree.deref_iter_ok t Ht it i Hi). destruct (lookup_lt_is_Some_2 (ImmutableTree.elems t) i) as [v Hv]; [lia|].
  rewrite Hv. cbn [mbind outcome_bind]. destruct (ImmutableTree.next_ok t Ht it i Hi) as (it' & -> & Hi'); [lia|].
  cbn [mbind outcome_bind]. rewrite (IH it' (S i)) by (try done; lia). by rewrite (drop_S _ v i Hv).
Qed.

Lemma backward_ok b n it i : ImmutableTree.at_index t b 0 -> ImmutableTree.at_index t it i -> i <= length (ImmutableTree.elems t) ->
  i < n -> backward n b it = Done (reverse (take i (ImmutableTree.elems t))).
Proof.
  intros Hb. revert it i. induction n as [|n IH]; intros it i Hi Hle Hn; [lia|]. cbn [backward].
  rewrite (ImmutableTree.iter_eqb_ok t Ht it b i _ Hi Hb). case_bool_decide as E; [by subst i|]. destruct i as [|i]; [done|].
  destruct (ImmutableTree.prev_ok t Ht it i Hi) as (it' & -> & Hi'). cbn [mbind outcome_bind].
  rewrite (ImmutableTree.deref_iter_ok t Ht it' i Hi'). destruct (lookup_lt_is_Some_2 (ImmutableTree.elems t) i) as [v Hv]; [lia|].
  rewrite Hv. cbn [mbind outcome_bind]. rewrite (IH it' i) by (try done; lia). cbn [mbind outcome_bind].
  by rewrite (take_S_r _ _ v Hv), reverse_app.
Qed.

Lemma walks_ok from i : (exists it, from t = Done it /\ ImmutableTree.at_index t it i) -> i <= length (ImmutableTree.elems t) ->
  walks from t = Done (reverse (take i (ImmutableTree.elems t)), drop i (ImmutableTree.elems t)).
Proof.
  intros (it & E & Hi) Hle. unfold walks. rewrite E. cbn [mbind outcome_bind].
  destruct (ImmutableTree.begin_ok t Ht) as (b & -> & Hb), (ImmutableTree.end_ok t) as (e & -> & He). cbn [mbind outcome_bind].
  rewrite (forward_ok e _ it i), (backward_ok b _ it i); rewrite ?ImmutableTree.size_elems; try done; lia.
Qed.

End Walks.

Lemma search_tree (k : K) (l : list V) : ImmutableTree.ordered l ->
  length (ImmutableTree.below k l) <= length l /\ length (ImmutableTree.upto k l) <= length l.
Proof. intros _. unfold ImmutableTree.below, ImmutableTree.upto. split; apply List.filter_length_le. Qed.

(** C14. Any sequence of insertions, replacements, removals and pops that starts
    from the empty tree gives a tree with the values that the same operations on
    an ordered list give; its height is at most three times the logarithm of
    its size; lookups find what is in the list, [lookup_previous] the last value
    not above the key, and the iterators of [begin], [end], [lower_bound],
    [upper_bound] and [find] stand at their place of the list, so that walking
    forwards and backwards passes the rest of it in both directions. *)
Theorem immutable_tree_refines (os : list tree_op) (l : list V) : list_run os [] = Some l ->
  exists t, tree_run os ImmutableTree.terminator = Done t /\ ImmutableTree.elems t = l /\
    ImmutableTree.size t = N.of_nat (length l) /\ (2 ^ (ImmutableTree.height t / 3) <= ImmutableTree.size t + 1)%N /\
    (forall k, ImmutableTree.lookup k t = ImmutableTree.list_find k l /\
               ImmutableTree.lookup_previous k t = last (ImmutableTree.upto k l)) /\
    ImmutableTree.min t = (match l with [] => AssertFail | v :: _ => Done v end) /\
    ImmutableTree.max t = (match last l with None => AssertFail | Some v => Done v end) /\
    walks ImmutableTree.begin t = Done ([], l) /\ walks ImmutableTree.end_ t = Done (reverse l, []) /\
    (forall k, let n := length (ImmutableTree.below k l) in
       walks (ImmutableTree.lower_bound k) t = Done (reverse (take n l), drop n l)) /\
    (forall k, let n := length (ImmutableTree.upto k l) in
       walks (ImmutableTree.upper_bound k) t = Done (reverse (take n l), drop n l)) /\
    (forall k, let n := match ImmutableTree.list_find k l with Some _ => length (ImmutableTree.below k l) | None => length l end in
       walks (ImmutableTree.find k) t = Done (reverse (take n l), drop n l)).
Proof.
  intros Hl. destruct (tree_run_ok os ImmutableTree.terminator l ImmutableTree.good_terminator Hl) as (t & Et & Ht & <-).
  pose proof Ht as [Ha Ho]. exists t. split_and!; try done.
  - apply ImmutableTree.size_elems.
  - by apply ImmutableTree.avl_size_bound.
  - intros k. split; [by apply ImmutableTree.lookup_elems|by apply ImmutableTree.lookup_previous_elems].
  - apply ImmutableTree.min_elems.
  - apply ImmutableTree.max_elems.
  - rewrite (walks_ok t Ht _ 0); [done|by apply ImmutableTree.begin_ok|lia].
  - rewrite (walks_ok t Ht _ (length (ImmutableTree.elems t))); [by rewrite firstn_all, drop_all|by apply ImmutableTree.end_ok|lia].
  - intros k n. apply (walks_ok t Ht); [by apply ImmutableTree.lower_bound_ok|by apply (search_tree k)].
  - intros k n. apply (walks_ok t Ht); [by apply ImmutableTree.upper_bound_ok|by apply (search_tree k)].
  - intros k n. apply (walks_ok t Ht); [by apply ImmutableTree.find_ok|]. unfold n. case_match; [by apply (search_tree k)|done].
Qed.

End Properties.

(** ** On concrete inputs *)

Section Witnesses.
#[local] Instance nat_key : OrderedKey nat := {| key_compare := Nat.compare |}.
#[local] Instance nat_key_laws : OrderedKeyLaws nat.
Proof.
  split; cbn; intros; [apply Nat.compare_eq_iff|apply Nat.compare_antisym|]. rewrite Nat.compare_lt_iff in *. lia.
Qed.
#[local] Instance nat_value : KeyOfValue nat nat := fun x => x.

Definition growing : list tree_op := [Insert 5; Insert 1; Insert 9; Replace 5; Insert 4; Remove 1; Insert 7; Insert 8; PopMin; Insert 6].

Lemma immutable_tree_refines_witness :
  list_run growing [] = Some [5; 6; 7; 8; 9] /\
  exists t, tree_run growing ImmutableTree.terminator = Done t /\ walks (ImmutableTree.upper_bound 7) t = Done ([7; 6; 5], [8; 9]).
Proof.
  split; [vm_compute; reflexivity|].
  destruct (immutable_tree_refines growing [5; 6; 7; 8; 9]) as (t & Et & _ & _ & _ & _ & _ & _ & _ & _ & _ & Hu & _); [vm_compute; reflexivity|].
  exists t. split; [done|]. apply (Hu 7).
Defined.
End Witnesses.
