(* ===== verification/ProcessTreeProperties.v ===== *)
(** Histories of the process tree: what the executor and up to three random path
    searchers do to it, against the states that exist and the states each searcher
    was given. *)
From stdpp Require Import base list numbers gmap.
From Stdlib Require Import ZArith Lia.
From S2P Require Import Prelude Bits Searcher PTree PTreeShape RandomPath.
Local Open Scope Z_scope.

Inductive tree_op : Type :=
| OpFork (s s' : positive)
| OpUpdate (k : Z) (added removed : list positive)
| OpTerminate (s : positive).

(** [k] is the number of the searcher: the bit of its mask. *)
Definition run_op {PO : PTreeOptions} (fuel : nat) (op : tree_op) (t : PTree) : outcome PTree :=
  match op with
  | OpFork s s' => PTree.attach (ptreeNode t !! s) s' s t
  | OpUpdate k added removed => RandomPathSearcher.update (2 ^ k) fuel added removed t
  | OpTerminate s => n ← deref (ptreeNode t !! s); PTree.remove fuel n t
  end.

Fixpoint run_ops {PO : PTreeOptions} (fuel : nat) (ops : list tree_op) (t : PTree) : outcome PTree :=
  match ops with
  | [] => Done t
  | op :: ops => t ← run_op fuel op t; run_ops fuel ops t
  end.

(** The states that exist, and those each searcher holds. *)
Record Schedule : Type := MkSchedule { alive : gset positive; held : Z -> list positive }.

Definition effect (op : tree_op) (a : Schedule) : Schedule :=
  match op with
  | OpFork _ s' => MkSchedule ({[ s' ]} ∪ alive a) (held a)
  | OpUpdate k added removed => MkSchedule (alive a) (fun j => if j =? k then without removed (held a k ++ added) else held a j)
  | OpTerminate s => MkSchedule (alive a ∖ {[ s ]}) (held a)
  end.

(** New states are new; a searcher gets states that exist and gives up states it has;
    a state is removed when no searcher holds it and another state exists. *)
Definition allowed (a : Schedule) (op : tree_op) : Prop :=
  match op with
  | OpFork s s' => s ∈ alive a /\ s' ∉ alive a
  | OpUpdate k added removed => 0 <= k /\ (forall s, s ∈ added -> s ∈ alive a) /\ NoDup removed /\ removed ⊆ held a k ++ added
  | OpTerminate s => s ∈ alive a /\ (forall k, 0 <= k -> s ∉ held a k) /\ exists x, x ∈ alive a /\ x <> s
  end.

Fixpoint history (a : Schedule) (ops : list tree_op) : Prop :=
  match ops with
  | [] => True
  | op :: ops => allowed a op /\ history (effect op a) ops
  end.

Definition effects (ops : list tree_op) (a : Schedule) : Schedule := fold_left (fun a op => effect op a) ops a.

Definition start (s : positive) : Schedule := MkSchedule {[ s ]} (fun _ => []).

(** The tree has these leaves, and its tags are what the searchers hold. *)
Record shows (t : PTree) (a : Schedule) : Prop := MkShows {
  sw_tree : tree_ok t;
  sw_alive s : live t s <-> s ∈ alive a;
  sw_held k s : 0 <= k -> s ∈ held a k -> s ∈ alive a;
  sw_owns k : 0 <= k -> owns k t (held a k)
}.

Lemma shows_start s : shows (PTree.new s) (start s).
Proof.
  set (n := fresh (dom (∅ : gmap positive PTreeNode))).
  assert (nodes (PTree.new s) = {[ n := MkNode None null_ptr null_ptr (Some s) ]}) as En by done.
  assert (shapes (PTree.new s) = {[ n := MkShape None None None (Some s) ]}) as Es by (unfold shapes; by rewrite En, map_fmap_singleton).
  assert (forall k kd, nodes (PTree.new s) !! k = Some kd -> k = n /\ kd = MkNode None null_ptr null_ptr (Some s)) as Hn.
  { intros k kd. rewrite En. intros [<- <-]%lookup_singleton_Some. done. }
  split.
  - unfold tree_but. rewrite Es. change (getPointer (root (PTree.new s))) with (Some n). change (ptreeNode (PTree.new s)) with ({[s := n]} : gmap positive positive). split.
    + exists n. eexists. rewrite lookup_singleton_eq. done.
    + intros k kd [<- <-]%lookup_singleton_Some. done.
    + intros k kd c [<- <-]%lookup_singleton_Some. done.
    + intros k kd c [<- <-]%lookup_singleton_Some. done.
    + intros k kd c [<- <-]%lookup_singleton_Some. done.
    + intros k kd p [<- <-]%lookup_singleton_Some. done.
    + intros k kd [<- <-]%lookup_singleton_Some _. cbn. split; [done|by eexists].
    + done.
    + intros k kd x [<- <-]%lookup_singleton_Some. cbn. intros [= <-]. by rewrite lookup_singleton_eq.
    + exists (fun _ => O). intros k kd p [<- <-]%lookup_singleton_Some. done.
  - intros x. cbn [alive start]. rewrite elem_of_singleton. split.
    + intros (k & kd & (-> & ->)%Hn & E). cbn in E. congruence.
    + intros ->. exists n. eexists. rewrite En, lookup_singleton_eq. done.
  - intros k x _ H. by apply elem_of_nil in H.
  - intros k Hk m md (-> & ->)%Hn. unfold ours, leads, tag, node_slot. cbn [state]. rewrite Es, lookup_singleton_eq. cbn. rewrite Z.bits_0.
    split; [done|]. intros H. by apply elem_of_nil in H.
Qed.

Lemma shows_leaf t a s : shows t a -> s ∈ alive a -> exists n nd, nodes t !! n = Some nd /\ state nd = Some s /\ ptreeNode t !! s = Some n.
Proof.
  intros Ha Hs. apply (sw_alive _ _ Ha) in Hs as (n & nd & Hn & Hs). exists n, nd. split_and!; [done..|].
  by apply (leaf_shape t n nd s (sw_tree _ _ Ha) Hn Hs).
Qed.

Lemma shows_op {PO : PTreeOptions} t a op : shows t a -> allowed a op ->
  exists t', eventually (fun fuel => run_op fuel op t) t' /\ shows t' (effect op a).
Proof.
  intros Ha Hop. pose proof (sw_tree _ _ Ha) as Ht. destruct op as [s s'|k added removed|s]; cbn [allowed effect run_op] in *.
  - destruct Hop as [Hs Hs']. destruct (shows_leaf t a s Ha Hs) as (n & nd & Hn & Hsn & ->). assert (~ live t s') as Hl by by rewrite (sw_alive _ _ Ha).
    destruct (attach_eq t n nd s s' Ht Hn Hsn Hl) as (x & y & Hx & Hy & Hxy & E). exists (attached t n nd x y s' s). split; [by apply eventually_now|].
    destruct (attach_ok t n nd x y s' s Ht Hn Hsn Hl Hx Hy Hxy) as (Ht' & _ & _ & _ & Hlive). split; cbn.
    + done.
    + intros z. rewrite Hlive, (sw_alive _ _ Ha). set_solver.
    + intros k z Hk Hz. pose proof (sw_held _ _ Ha k z Hk Hz). set_solver.
    + intros k Hk. apply attach_owns; try done; [|by apply (sw_owns _ _ Ha)]. intros Hi. by apply Hs', (sw_held _ _ Ha k).
  - destruct Hop as (Hk & Hadd & Hnd & Hsub). assert (forall s, s ∈ held a k ++ added -> s ∈ alive a) as Hin.
    { intros s [Hs|Hs]%elem_of_app; [by apply (sw_held _ _ Ha k)|by apply Hadd]. }
    destruct (update_ok k Hk t (held a k) added removed Ht (sw_owns _ _ Ha k Hk)) as (t' & E & Hb & Ho); [|done..|].
    { intros s Hs. apply (sw_alive _ _ Ha). by apply Hin. }
    exists t'. split; [done|]. split; cbn.
    + by eapply same_shape_ok; [apply Hb|].
    + intros s. rewrite <- (sw_alive _ _ Ha). symmetry. apply same_shape_live, Hb.
    + intros j s Hj. destruct (Z.eqb_spec j k) as [-> |]; [|by apply (sw_held _ _ Ha)]. rewrite elem_of_without. intros [_ Hs]. by apply Hin.
    + intros j Hj. destruct (Z.eqb_spec j k) as [-> |]; [done|]. eapply same_but_others; [done|done|]. by apply (sw_owns _ _ Ha).
  - destruct Hop as (Hs & Hheld & x & Hx & Hxs). destruct (shows_leaf t a s Ha Hs) as (n & nd & Hn & Hsn & ->).
    destruct (tree_remove_ok t n nd s Ht Hn Hsn) as (t' & E & Ht' & Hlive & Ho); [exists x; by rewrite (sw_alive _ _ Ha)|].
    exists t'. split; [done|]. split; cbn.
    + done.
    + intros z. rewrite Hlive, (sw_alive _ _ Ha). set_solver.
    + intros k z Hk Hz. pose proof (sw_held _ _ Ha k z Hk Hz). assert (z <> s) by (intros ->; by apply (Hheld k)). set_solver.
    + intros k Hk. apply Ho; [by apply (sw_owns _ _ Ha)|by apply Hheld].
Qed.

Lemma shows_ops {PO : PTreeOptions} ops t a : shows t a -> history a ops ->
  exists t', eventually (fun fuel => run_ops fuel ops t) t' /\ shows t' (effects ops a).
Proof.
  revert t a. induction ops as [|op ops IH]; intros t a Ha Hh; [exists t; split; [by apply eventually_now|done]|].
  destruct Hh as [Hop Hh]. destruct (shows_op t a op Ha Hop) as (t1 & E1 & H1). destruct (IH t1 _ H1 Hh) as (t2 & E2 & H2).
  exists t2. split; [|done]. cbn [run_ops]. eapply (eventually_bind (fun fuel => run_op fuel op t)); [exact E1|exact E2].
Qed.

(** The masks are handed out in order, to three searchers. *)
Lemma getNextId_ok t : 0 <= registeredIds t -> 
  PTree.getNextId t = if registeredIds t <? 3 then Done (2 ^ registeredIds t, MkPTree (registeredIds t + 1) (root t) (nodes t) (ptreeNode t)) else AssertFail.
Proof.
  intros Hr. unfold PTree.getNextId. destruct (Z.ltb_spec (registeredIds t) 3).
  - rewrite (proj2 (Z.leb_le _ _)) by lia. rewrite Z.shiftl_1_l, Z.mod_small; [done|]. split; [by apply Z.pow_nonneg|apply Z.pow_lt_mono_r; lia].
  - by rewrite (proj2 (Z.leb_gt _ _)) by lia.
Qed.


(** Three forks, two searchers, and a state that ends. *)
Definition sample_history : list tree_op :=
  [OpUpdate 0 [1%positive] []; OpFork 1 2; OpFork 2 3; OpUpdate 0 [2%positive; 3%positive] []; OpUpdate 1 [3%positive] [];
   OpUpdate 0 [] [2%positive]; OpTerminate 2; OpFork 3 4; OpUpdate 0 [4%positive] [3%positive]].

#[local] Instance compressing : PTreeOptions := {| CompressProcessTree := true |}.

