(* ===== verification/ExecutorProperties.v ===== *)
(** The executor: forks split the runs of a path, and over a run of the executor the
    paths of its states are a partition of the inputs. *)
From stdpp Require Import base numbers list gmap.
From Stdlib Require Import ZArith Lia.
From S2P Require Import Prelude APInt Bits RNG Expr Semantics ConstantOps ExprCreate ExprWeight Visitor ImmutableTree Memory MemoryManager AddressSpace CopyOnWrite Solver Constraints Evaluator TimingSolver FiniteSolver Samples SeedInfo PTree PTreeShape RandomPath ExecutorState Fork ForkSound ProcessTreeProperties.
Local Open Scope Z_scope.

Section Properties.
Context {AP : APIntOps} {APL : APIntLaws} {AH : ArrayHeap} {OP : ExprOptions} {VO : VisitorOptions} {CO : ConstraintOptions} {TO : TimingOptions}.
Context {PO : PTreeOptions} {EO : ExecutorOptions} (default_opt : ConstArrayOpt = false).
Context {S : Type} {ops : SolverImpl S} {sol : SoundSolver S}.

(** C6. Forking a state that runs on a boolean condition that divides nothing by zero
    on its path, in an executor in good order over a sound solver, without seeds, a
    recorded path or test, implied values or static limits, while the key for copy on
    write does not wrap: with enough fuel [fork] returns and leaves the executor in good order, with its
    paths satisfiable, its address spaces apart, its states the leaves of the process
    tree, and every other state as it was.  When the solver always answers, forking is
    allowed ([permitted]) and there is no -max-depth, the first result has exactly the runs of the path on which the condition
    holds and the second those on which it does not, each with the memory of the
    original; a result is missing only when there are no such runs.  Otherwise one
    side that is possible is followed, or the state comes to an end. *)
Theorem fork_exact (x : Executor S) p e c internal : exec_ok x -> plain_run -> running x p e -> room e -> condition_on (constraints e) c ->
  exists r x', runs (fun fuel => Executor.fork fuel p c internal) x r x' /\ exec_ok x' /\ store x' = store x /\ only p r x x' /\
    forked x p e c x' r /\ (TotalSolver S -> MaxDepth = 0 -> permitted x e = true -> sides x' e c r).
Proof.
  intros Hx Hpl Hrun Hroom Hc. destruct (fork_runs default_opt x p e c internal Hx Hpl Hrun Hroom Hc) as (r & x' & R & Hx' & Es & Ho & Hf).
  exists r, x'. split_and!; try done. intros Ht Hd Hper. destruct Hf as [r Hs|H|H|[H|H]]; [done|congruence..|done|done].
Qed.

(** C5. When the solver always answers and no limit keeps states from forking, the
    paths of an executor are a partition of the inputs: from an executor in good order
    in which one state runs, without constraints and allowed to fork, through any
    history of forks, ends of states and updates of the searcher, every input
    satisfies the constraints of exactly one of the states that run and the paths that
    came to an end.  The executor stays in good order; in particular every path has an
    input.  The conditions ([forking]) are: a solver that is sound and total; no seeds,
    and no recorded path or test that is replayed; none of -max-forks, -max-depth, the
    static limits on the share of forks and -max-memory-inhibit in effect, forking not
    inhibited, and no implied values concretized.  The forks are on boolean conditions that divide nothing by zero on
    the path, in states whose key for copy on write does not wrap.  With a limit, or
    with a query that fails, a fork may drop a side and the inputs on it: what is left
    then is what [forked] in [fork_exact] lists. *)
Theorem paths_partition (x0 x : Executor S) F p e : forking -> exec_ok x0 -> (forall q d, running x0 q d <-> q = p /\ d = e) ->
  constraints e = [] -> forkDisabled e = false -> rtc happens (x0, []) (x, F) ->
  exec_ok x /\ (forall ρ, exists a, on_path x F ρ a /\ forall b, on_path x F ρ b -> b = a) /\
  forall q d, running x q d -> exists ρ, sat ρ (constraints d).
Proof.
  intros Hfk Hx0 Hone Hcs Hfd H. assert (explored x F) as [Hx _ Hp].
  { remember (x0, []) as a eqn:Ea. remember (x, F) as b eqn:Eb. assert (explored a.1 a.2) as Ha.
    { subst a. split; [done| |]; cbn.
      - intros q d [_ ->]%Hone. done.
      - intros ρ. exists (inl p). split; [exists e; split; [by apply Hone|rewrite Hcs; by intros c ?%elem_of_nil]|].
        intros [q|i]; [by intros (d & [-> _]%Hone & _)|]. intros (cs & E & _). done. }
    clear Ea. revert x F Eb. induction H as [a|a [x1 F1] b Hst _ IH]; intros x F ->; [done|]. apply IH; [|done].
    destruct a as [x2 F2]. by eapply happens_explored. }
  split_and!; [done|exact Hp|]. intros q d [Hq _]. by apply (eo_path x Hx q d).
Qed.

End Properties.

(** ** On concrete inputs *)

Section ForkWitness.
#[local] Existing Instance small_heap.
#[local] Existing Instance finite_solver.
#[local] Existing Instance finite_sound.
#[local] Existing Instance default_options.
#[local] Instance hashing : VisitorOptions := {| UseVisitorHash := true |}.
#[local] Instance simplified : TimingOptions := {| simplifyExprs := true |}.
#[local] Instance rewriting : ConstraintOptions := {| RewriteEqualities := true |}.
#[local] Instance whole_tree : PTreeOptions := {| CompressProcessTree := false |}.
#[local] Instance unlimited : ExecutorOptions := {|
  MaxForks := 2 ^ 32 - 1; MaxDepth := 0; MaxMemoryInhibit := true; atMemoryLimit := false; inhibitForking := false; OnlyReplaySeeds := false;
  ivcEnabled := false; replayPath := None; replayKTest := None; static_limit_reached := false |}.

(** An element of two bits, and the question whether it is 3. *)
Definition two_bits : Expr := ReadExpr 1 UNull (ConstantExpr (MkAPInt 1 0)).
Definition is_three : Expr := BinaryExpr EqK (ConstantExpr (MkAPInt 2 3)) two_bits.

Definition first_state : ExecutionState := MkES 1 1 [] 0 AddressSpace.new [] ∅ [] ∅ 1 false false.

Definition zero_rng : RNG := MkRNG (replicate 624 0) 624.

Lemma zero_rng_ok : rng_ok zero_rng.
Proof. split; [done| |done]. change (mt zero_rng) with (replicate 624 0). apply Forall_forall. by intros x [-> _]%elem_of_replicate. Qed.

(** One state, known to the searcher. *)
Definition start_executor : Executor unit :=
  MkExecutor {[ 1%positive := first_state ]} ∅ 0 tt (PTree.new 1) {[ 1%positive ]} [] [] ∅ zero_rng 0 0 2 [] (MkMM [] 0 0 0 1 0).

Lemma start_ok : exec_ok start_executor.
Proof.
  split; cbn -[zero_rng].
  - intros p e [<- <-]%lookup_singleton_Some. split; [constructor|by exists (fun _ _ => 0); intros c ?%elem_of_nil|constructor].
  - unfold memory. cbn. rewrite map_fmap_singleton. apply system_ok_initial.
  - done.
  - apply zero_rng_ok.
  - done.
  - destruct (ProcessTreeProperties.shows_start 1) as [Ht Hl _ _]. split; [|done]. intros p. rewrite Hl. cbn. rewrite elem_of_singleton.
    split; [intros ->; rewrite lookup_singleton_eq; by eexists|intros [e [<- _]%lookup_singleton_Some]; done].
  - intros p. rewrite elem_of_singleton. split; [intros [e [<- _]%lookup_singleton_Some]; by left|].
    intros [-> |H]; [rewrite lookup_singleton_eq; by eexists|by apply elem_of_nil in H].
  - by intros p ?%elem_of_nil.
  - by intros p ?%elem_of_nil.
  - constructor.
  - constructor.
Qed.

Lemma start_running q d : running start_executor q d <-> q = 1%positive /\ d = first_state.
Proof.
  unfold running. cbn. split; [by intros [[<- <-]%lookup_singleton_Some _]|]. intros [-> ->]. split; [by rewrite lookup_singleton_eq|by intros ?%elem_of_nil].
Qed.

Lemma plain : plain_run.
Proof. done. Qed.

Lemma is_three_condition cs : condition_on cs is_three.
Proof. split; [|done]. split; [|done]. split_and!; try done; apply small_wf. Qed.

(** Both sides of the question are there. *)
Lemma fork_exact_witness : exists q q' x' e e', runs (fun fuel => Executor.fork fuel 1 is_three true) start_executor (Some q, Some q') x' /\ q <> q' /\
  running x' q e /\ running x' q' e' /\ sat (fun _ _ => 3) (constraints e) /\ sat (fun _ _ => 2) (constraints e').
Proof.
  destruct (fork_exact default_off start_executor 1 first_state is_three true) as (r & x' & R & _ & _ & Ho & _ & Hs).
  - apply start_ok.
  - apply plain.
  - by apply start_running.
  - done.
  - apply is_three_condition.
  - destruct Hs as [H1 H2]; [apply finite_total|done|by vm_compute|]. destruct r as [[q|] [q'|]]; cbn in H1, H2.
    + destruct H1 as (e & Hq & _ & Hs1), H2 as (e' & Hq' & _ & Hs2). exists q, q', x', e, e'. split; [exact R|].
      split; [intros ->; by apply (on_two _ _ _ _ Ho q')|]. split_and!; [done|done|apply Hs1|apply Hs2]; (split; [by intros c ?%elem_of_nil|by vm_compute]).
    + exfalso. apply (H2 (fun _ _ => 2)); [by intros c ?%elem_of_nil|by vm_compute].
    + exfalso. apply (H1 (fun _ _ => 3)); [by intros c ?%elem_of_nil|by vm_compute].
    + exfalso. apply (H1 (fun _ _ => 3)); [by intros c ?%elem_of_nil|by vm_compute].
Defined.

(** A fork, after which the side with 3 comes to an end. *)
Lemma forked_and_ended : exists x F, rtc happens (start_executor, []) (x, F) /\ length F = 1%nat.
Proof.
  destruct (fork_runs default_off start_executor 1 first_state is_three true) as (r & x1 & R & Hx1 & _ & _ & Hf);
    [apply start_ok|apply plain|by apply start_running|done|apply is_three_condition|].
  destruct Hf as [r [H1 _]|H|H|[H|H]]; [|by vm_compute in H..|by destruct H; apply finite_total|done].
  destruct r as [[q|] o]; cbn in H1; [|exfalso; apply (H1 (fun _ _ => 3)); [by intros c ?%elem_of_nil|by vm_compute]].
  destruct H1 as (e & Hq & _). destruct (terminate_runs default_off x1 q e TExit Hx1 Hq) as (x2 & R2 & Hx2 & _).
  destruct (updateStates_runs default_off x2 Hx2) as (x3 & R3 & _). exists x3, [constraints e]. split; [|done].
  eapply rtc_l; [eapply (hap_fork _ _ 1 first_state is_three true); [by apply start_running|done|apply is_three_condition|exact R]|].
  eapply rtc_l; [eapply (hap_exit _ _ q e TExit); [exact Hq|exact R2]|]. eapply rtc_l; [eapply hap_update; exact R3|]. apply rtc_refl.
Qed.

Lemma paths_partition_witness : exists x F a, rtc happens (start_executor, []) (x, F) /\ length F = 1%nat /\ on_path x F (fun _ _ => 3) a /\
  forall b, on_path x F (fun _ _ => 3) b -> b = a.
Proof.
  destruct forked_and_ended as (x & F & Hst & Hl).
  destruct (paths_partition default_off start_executor x F 1 first_state) as (_ & Hp & _).
  - split; [apply plain|apply finite_total|done..].
  - apply start_ok.
  - apply start_running.
  - done.
  - done.
  - exact Hst.
  - destruct (Hp (fun _ _ => 3)) as (a & Ha & Hu). exists x, F, a. done.
Defined.
End ForkWitness.
