(* ===== verification/MemoryProperties.v ===== *)
(** Object states as arrays of bytes, the bounds of objects, and address spaces
    as maps that forked states do not share. *)
From stdpp Require Import base numbers list strings gmap countable pretty.
From Stdlib Require Import ZArith Lia.
From S2P Require Import Prelude APInt Bits Expr Semantics ConstantOps ExprCreate CreateSound OpsSound ExprWeight Visitor FindReads Solver Constraints IncompleteSolver CachingSolver InitialValues FiniteSolver Memory MemorySound MemoryObjects MapOfSets ImmutableTree AddressSpace CopyOnWrite TimingSolver HostMemory Resolution Resolutions Samples.
Local Open Scope Z_scope.

Section ObjectStates.
Context {AP : APIntOps} {APL : APIntLaws} {AH : ArrayHeap} {OP : ExprOptions} {TC : TargetContext} {MO : MemoryOptions}.
Context {AC : ArrayCache} {ACL : ArrayCacheLaws}.

(** ** Accesses, and what they mean for an array of bytes *)

Inductive Access : Type :=
| Load (offset : Expr) (width : Z)
| Store (offset value : Expr).

(** The expressions that the reads give, and the state that is left. *)
Fixpoint accesses (l : list Access) (s : ObjectState) (id : Z) : outcome (list Expr * ObjectState * Z) :=
  match l with
  | [] => Done ([], s, id)
  | Load offset width :: l =>
      '(e, s, id) ← read s id offset width;
      '(es, s, id) ← accesses l s id;
      Done (e :: es, s, id)
  | Store offset value :: l =>
      s ← write offset value s;
      accesses l s id
  end.

(** A word of [width] bits in the byte order of the target; one bit is the low
    bit of its byte. *)
Definition load_word (f : Z -> Z) (o width : Z) : Z :=
  if width =? Bool then f o mod 2 else word (fun i => f (o + byte_index (width / 8) i)) (Z.to_nat (width / 8)).

Definition store_word (f : Z -> Z) (o n v : Z) : Z -> Z :=
  fun j => if (o <=? j) && (j <? o + n) then v / 2 ^ (8 * byte_index n (j - o)) mod 2 ^ 8 else f j.

Definition access_size (a : Access) : Z :=
  match a with Load _ w => access_bytes w | Store _ v => access_bytes (getWidth v) end.
Definition access_offset (a : Access) : Expr := match a with Load o _ => o | Store o _ => o end.

Fixpoint spec_accesses (ρ : env) (l : list Access) (f : Z -> Z) : list Z * (Z -> Z) :=
  match l with
  | [] => ([], f)
  | Load offset width :: l => let '(vs, g) := spec_accesses ρ l f in (load_word f (offset_of ρ offset) width :: vs, g)
  | Store offset value :: l => spec_accesses ρ l (store_word f (offset_of ρ offset) (access_bytes (getWidth value)) (eval ρ value))
  end.

(** What the caller has to see to: widths of whole bytes or one bit, and an
    offset that is not constant out of bounds. *)
Definition access_ok (size : Z) (a : Access) : Prop :=
  wf (access_offset a) /\ addressable size (access_offset a) (access_size a) /\ access_size a <= size /\
  match a with Load _ w => width_ok w | Store _ v => wf v /\ width_ok (getWidth v) end.

(** The runs in which the access is in bounds. *)
Definition in_bounds (ρ : env) (size : Z) (a : Access) : Prop := offset_of ρ (access_offset a) + access_size a <= size.

Definition load_width (l : list Access) : list Z := omap (fun a => match a with Load _ w => Some w | Store _ _ => None end) l.

Lemma load_ext f g size o w : width_ok w -> 0 <= o -> o + access_bytes w <= size -> (forall j, 0 <= j < size -> f j = g j) -> load_word f o w = load_word g o w.
Proof.
  unfold load_word, access_bytes. intros [-> |[Hw Hm]] Ho Hs H; [rewrite Z.eqb_refl in *; by rewrite H by lia|].
  rewrite (not_Bool _ Hw Hm) in *. apply word_ext. intros i Hi. apply H. pose proof (byte_index_range (w / 8) i). lia.
Qed.

Lemma spec_accesses_ext ρ size l f g : Forall (access_ok size) l -> Forall (in_bounds ρ size) l -> (forall j, 0 <= j < size -> f j = g j) ->
  (spec_accesses ρ l f).1 = (spec_accesses ρ l g).1 /\
  forall j, 0 <= j < size -> (spec_accesses ρ l f).2 j = (spec_accesses ρ l g).2 j.
Proof.
  intros Hl Hb. revert f g. induction l as [|[o w|o v] l IH]; intros f g H; cbn; [done|..];
    apply Forall_cons in Hl as [Ha Hl]; apply Forall_cons in Hb as [Hi Hb]; specialize (IH Hl Hb).
  - destruct (IH f g H) as [E1 E2]. destruct (spec_accesses ρ l f), (spec_accesses ρ l g). cbn in *. split; [|done].
    destruct Ha as (_ & _ & _ & Hw). f_equal; [|done]. eapply load_ext; try done. unfold offset_of. apply Z.mod_pos_bound. lia.
  - apply IH. intros j Hj. unfold store_word. by rewrite H.
Qed.

Context (default_opt : ConstArrayOpt = false).

(** C10. An object state is an array of bytes.  After any sequence of reads and
    writes, of words at constant and symbolic offsets in either byte order,
    every operation has succeeded and left the cache invariants of the code, and
    in every run in which the accesses are in bounds the expressions that the
    reads gave have the values that the same reads of an array of bytes give,
    whatever was cached, flushed to the update list, or turned into a constant
    array on the way.  The accesses ([access_ok]) are well-formed, of one bit or of
    whole bytes, no wider than the object, inside it where their offset is constant,
    and such that no offset of a byte folds to a constant where the offset of the
    access does not.  The option -const-array-opt is off, as by default. *)
Theorem object_state_refines s id l : os_ok s -> Forall (access_ok (os_size s)) l ->
  exists es s' id', accesses l s id = Done (es, s', id') /\ os_ok s' /\ object s' = object s /\ os_size s' = os_size s /\
    getWidth <$> es = load_width l /\ Forall wf es /\
    forall ρ, Forall (in_bounds ρ (os_size s)) l ->
      eval ρ <$> es = (spec_accesses ρ l (byte ρ s)).1 /\
      forall j, 0 <= j < os_size s -> byte ρ s' j = (spec_accesses ρ l (byte ρ s)).2 j.
Proof.
  revert s id. induction l as [|[o w|o v] l IH]; intros s id Hs Hl; cbn [accesses].
  - exists [], s, id. split_and!; try done.
  - apply Forall_cons in Hl as [(Hwf & Ha & Hsz & Hw) Hl]. cbn in Hwf, Ha, Hsz.
    destruct (read_ok default_opt s id o w Hs Hwf Hw Ha Hsz) as (e & s1 & id1 & -> & He & Hwe & Hs1 & Hsame & Hv). cbn [mbind outcome_bind].
    pose proof (same_size _ _ Hsame) as Esz. rewrite <- Esz in Hl. destruct (IH s1 id1 Hs1 Hl) as (es & s2 & id2 & -> & Hs2 & Ho2 & Hz2 & Hw2 & Hwf2 & Hv2).
    cbn [mbind outcome_bind]. exists (e :: es), s2, id2. pose proof (same_object _ _ Hsame). split_and!; try done; try congruence.
    + cbn. by rewrite Hwe, Hw2.
    + by apply Forall_cons.
    + intros ρ Hb. pose proof Hb as [Hi Hb']%Forall_cons. rewrite Esz in Hl, Hv2. destruct (Hv2 ρ Hb') as [E1 E2].
      destruct (spec_accesses_ext ρ (os_size s) l (byte ρ s1) (byte ρ s) Hl Hb') as [X1 X2]; [intros j Hj; by apply (same_byte _ _ Hsame)|].
      cbn. rewrite E1, X1, (Hv ρ Hi). destruct (spec_accesses ρ l (byte ρ s)) as [vs g] eqn:E. cbn in *. split; [done|].
      intros j Hj. by rewrite E2, X2.
  - apply Forall_cons in Hl as [(Hwf & Ha & Hsz & Hv & Hw) Hl]. cbn in Hwf, Ha, Hsz.
    destruct (write_ok default_opt s o v Hs Hwf Hv Hw Ha Hsz) as (s1 & -> & Hs1 & [F1 F2 F3 F4] & Hb1). cbn [mbind outcome_bind].
    rewrite <- F3 in Hl. destruct (IH s1 id Hs1 Hl) as (es & s2 & id2 & -> & Hs2 & Ho2 & Hz2 & Hw2 & Hwf2 & Hv2).
    exists es, s2, id2. split_and!; try done; try congruence. intros ρ [Hi Hb]%Forall_cons. rewrite F3 in Hl, Hv2.
    destruct (Hv2 ρ Hb) as [E1 E2]. cbn.
    assert (forall j, 0 <= j < os_size s -> byte ρ s1 j = store_word (byte ρ s) (offset_of ρ o) (access_bytes (getWidth v)) (eval ρ v) j) as Hst.
    { intros j Hj. unfold store_word. unfold in_bounds in Hi. cbn in Hi. assert (0 <= offset_of ρ o) by (unfold offset_of; apply Z.mod_pos_bound; lia).
      rewrite (Hb1 ρ j) by (try done; lia). destruct (Z.leb_spec (offset_of ρ o) j), (Z.ltb_spec j (offset_of ρ o + access_bytes (getWidth v))); try done.
      cbn [andb]. pose proof (byte_index_range (access_bytes (getWidth v)) (j - offset_of ρ o)).
      rewrite (proj2 (Z.ltb_lt _ _)) by lia. done. }
    destruct (spec_accesses_ext ρ (os_size s) l _ _ Hl Hb Hst) as [X1 X2]. split; [by rewrite E1, X1|]. intros j Hj. by rewrite E2, X2.
Qed.

End ObjectStates.

(** ** Pointers *)

Section Pointers.
Context {AP : APIntOps} {APL : APIntLaws} {AH : ArrayHeap} {OP : ExprOptions} {VO : VisitorOptions} {TO : TimingOptions} {TC : TargetContext}.
Context (default_opt : ConstArrayOpt = false).

(** The conditions on a pointer that the executor puts to the solver mean
    what they should: the access of some bytes is inside the object, and, without a
    size, the pointer points into the object, or at it when it is empty.  No
    wrap-around of the pointer arithmetic makes an access outside look inside. *)
Theorem bounds_checks_exact mo p : object_fits mo -> wf p -> getWidth p = getPointerWidth ->
  builds (getBoundsCheckPointer mo p) Bool (fun ρ => Z.b2z (bool_decide (points_into mo (eval ρ p)))) /\
  forall bytes, 0 < bytes < 2 ^ 32 ->
    builds (getBoundsCheckPointer_bytes mo p bytes) Bool
      (fun ρ => Z.b2z (bool_decide (address mo <= eval ρ p /\ eval ρ p + bytes <= address mo + mo_size mo))).
Proof.
  intros Hm Hp Hw. split; [by apply getBoundsCheckPointer_ok|]. intros bytes Hb. by apply getBoundsCheckPointer_bytes_ok.
Qed.

Context {S : Type} {ops : SolverImpl S} {sol : SoundSolver S} {clock : Clock S}.

(** C13. Resolving an address to one object, with enough fuel for the simplifier:
    an object that is found is one the pointer may point into on the path, and
    when none is found the pointer points into no object on any run of the path,
    although the search asks only about objects near an example and stops at the
    first base the pointer cannot pass; an always answering solver always gives an
    answer.  The conditions are those of [resolvable], as for [resolve_exact]. *)
Theorem resolveOne_exact cs ρ0 p a : resolvable cs ρ0 p a ->
  exists n, forall fuel, (n <= fuel)%nat -> forall s, s_inv s ->
    exists r s', Resolution.resolveOne fuel cs p a s = Done (r, s') /\ s_inv s' /\ (TotalSolver S -> r <> None) /\
      match r with
      | Some (Some x) => x ∈ pairs (objects a) /\ ~ forall ρ, sat ρ cs -> ~ points_into x.1 (eval ρ p)
      | Some None => forall x, x ∈ pairs (objects a) -> forall ρ, sat ρ cs -> ~ points_into x.1 (eval ρ p)
      | None => True
      end.
Proof. intros Hr. by apply (resolveOne_found default_opt cs ρ0). Qed.

(** C12. Resolving an address to a list of objects: no object twice, only objects
    the pointer may point into, and all of these unless the resolution says it is
    incomplete.  It says so only when a query failed, the timeout passed or the
    given number of objects was reached; that number is kept to when it is two or
    more.  The solver is sound, the path has a run on which the pointer divides nothing
    by zero, pointers have 32 to 64 bits, and the objects do not overlap and lie in the
    address range ([resolvable]). *)
Theorem resolve_exact cs ρ0 p a mx : resolvable cs ρ0 p a ->
  exists n, forall fuel, (n <= fuel)%nat -> forall s, s_inv s ->
    exists incomplete rl s', Resolution.resolve fuel cs p [] mx a s = Done (incomplete, rl, s') /\ s_inv s' /\
      NoDup rl /\
      (forall x, x ∈ rl -> x ∈ pairs (objects a) /\ ~ forall ρ, sat ρ cs -> ~ points_into x.1 (eval ρ p)) /\
      (incomplete = false -> forall x, x ∈ pairs (objects a) -> x ∈ rl \/ forall ρ, sat ρ cs -> ~ points_into x.1 (eval ρ p)) /\
      (incomplete = true -> TotalSolver S -> (forall s : S, past_timeout s = false) -> 2 <= mx /\ Z.of_nat (length rl) = mx) /\
      (2 <= mx -> Z.of_nat (length rl) <= mx).
Proof.
  intros Hr. destruct (resolve_found default_opt cs ρ0 p a Hr mx) as [n Hn]. exists n. intros fuel Hf s Hs.
  destruct (Hn fuel Hf s Hs) as (i & rl & s' & E & Hs' & [N M C I L]). exists i, rl, s'. split_and!; try done.
  intros Hi x Hx. by apply C.
Qed.

End Pointers.

Section External.
Context {AP : APIntOps} {APL : APIntLaws} {AH : ArrayHeap} {OP : ExprOptions} {VO : VisitorOptions} {TO : TimingOptions} {TC : TargetContext} {MO : MemoryOptions}.
Context {AC : ArrayCache} {ACL : ArrayCacheLaws} {LD : LongDouble}.

(** A constant written to memory and read back is the constant, for the
    integer widths, whatever follows it in memory; it takes as many bytes as an
    access of its width. *)
Theorem memory_image_roundtrip c : wf_apint c -> memory_width (getBitWidth c) ->
  exists bs, toMemory c = Done bs /\ Z.of_nat (length bs) = access_bytes (getBitWidth c) /\
    forall rest, fromMemory (bs ++ rest) (getBitWidth c) = Done c.
Proof. intros Hc Hw. destruct (image_ok c Hc Hw) as (bs & ? & ? & _ & ?). by exists bs. Qed.

Context (default_opt : ConstArrayOpt = false).
Context {T : Type} {ops : SolverImpl T} {sol : SoundSolver T}.

(** C36. On a path with a solution, under which the cached expressions of an object
    divide nothing by zero, flushing the object for external code returns, over any
    sound solver; it changes none of the contents and keeps the cache invariants, and
    only the concrete store of cached symbolic bytes is set.  If the solver always
    answers ([TotalSolver]), each of them is set to a value its expression can have on
    the path; of a byte whose query fails nothing more is said, as the code warns that
    it "will have random value".  The option -const-array-opt is off, as by default. *)
Theorem flush_to_store_exact cs ρ0 s : Forall boolean cs -> sat ρ0 cs -> os_ok s -> (forall e, e ∈ known_exprs s -> asked ρ0 e) ->
  exists m, forall fuel, (m <= fuel)%nat -> forall id st, s_inv st ->
    exists s' st', flushToConcreteStore fuel cs s id st = Done (s', id, st') /\ s_inv st' /\ os_ok s' /\ same_contents s s' /\
      (forall j, 0 <= j < os_size s -> known_at s j = None -> concreteStore s' !! Z.to_nat j = concreteStore s !! Z.to_nat j) /\
      (TotalSolver T -> forall j e, 0 <= j < os_size s -> known_at s j = Some e ->
         exists v, concreteStore s' !! Z.to_nat j = Some v /\ exists ρ, sat ρ cs /\ eval ρ e = v).
Proof.
  intros Hcs Hρ0 Hs Hk. destruct (flush_ok default_opt cs ρ0 Hcs Hρ0 s Hs Hk) as [m Hm]. exists m. intros fuel Hf id st Hst.
  destruct (Hm fuel Hf id st Hst) as (s' & st' & E & Hst' & Hfl & Hsh). destruct (flushed_ok s s' Hs Hfl). exists s', st'.
  split_and!; try done; [by destruct Hfl|]. intros Tot j e Hj He. destruct (Hsh Tot j e Hj He) as (v & Hv & _ & _ & Hρ). by exists v.
Qed.

(** The documentation says that flushing gives the symbolic bytes of an object
    values from the solver.  An object that was made symbolic is not flushed at
    all: no query is asked, and external code sees zeros, also where the path
    excludes a zero. *)
Theorem symbolic_object_not_flushed fuel cs mo array id st : 0 <= mo_size mo < 2 ^ 32 -> root_ok (Some array) ->
  exists s, ObjectState_new_symbolic mo array = Done s /\ flushToConcreteStore fuel cs s id st = Done (s, id, st) /\
    concreteStore s = replicate (Z.to_nat (mo_size mo)) 0 /\
    forall ρ i, 0 <= i < mo_size mo -> byte ρ s i = initial_value ρ array i.
Proof.
  intros Hsz Ha. destruct (ObjectState_new_symbolic_ok mo array Hsz Ha) as (s & E & Hs & Ho & _ & _ & Hb & Hk & Hst). exists s. split_and!; [done| |done|done].
  apply flush_nothing; [done|]. intros j _. unfold known_at. by rewrite Hk.
Qed.

End External.

(** ** Copy on write *)

(** C11. Forked states share object states until one of them writes, and yet
    every state has a memory of its own: after any history of forks, bindings,
    removals, writes through [getWriteable] and exits, each space shows the memory
    that the same history gives when every fork copies the whole memory, and every
    writer was handed the state that its own memory holds.  In the history the key of
    a space does not wrap at a fork, new object states have no owner, and a write keeps
    the owner ([run], [step]). *)
Theorem copy_on_write_refines tr s : run tr s -> shows_memories s (replay tr) /\ reads_agree tr.
Proof.
  intros H. induction H as [|tr i l s s' H [IH1 IH2] Hst].
  - split; [|done]. intros i. unfold replay, deep_initial. cbn [foldr]. destruct (decide (i = 1%positive)) as [-> |Hne].
    + by rewrite (lookup_singleton_eq 1%positive AddressSpace.new : spaces initial_system !! 1%positive = _).
    + by rewrite (lookup_singleton_ne 1%positive i AddressSpace.new (not_eq_sym Hne) : spaces initial_system !! i = _).
  - pose proof (reachable_ok s (run_reachable tr s H)) as Hs. split; [by apply (step_shows i l s s')|]. split; [|done].
    destruct l as [c|mo o|mo|mo o o'|]; try done. inversion Hst as [| | |? a ? p q a' st' ? ? Ha Hl E Hq Ho Hm|]; subst.
    pose proof (IH1 i) as Hi. rewrite Ha in Hi. destruct (replay tr i) as [m|]; [|done]. exists m. split; [done|]. rewrite <- Hi.
    eapply (view_own i _ s _ a a') in Hst as [Hb _]; [exact Hb|done|done|cbn; by rewrite lookup_insert_eq].
Qed.

(** The invariant that the code documents, [o->copyOnWriteOwner <= cowKey]
    for every bound state, in every reachable system, and what it is for: a state
    that a space owns is bound by no other space. *)
Theorem copy_on_write_owned s i a k x o : reachable s -> spaces s !! i = Some a -> ImmutableTree.lookup k (objects a) = Some x ->
  store s !! x.2 = Some o ->
  copyOnWriteOwner o <= cowKey a /\
  (copyOnWriteOwner o = cowKey a -> forall j b k' y, j <> i -> spaces s !! j = Some b ->
     ImmutableTree.lookup k' (objects b) = Some y -> y.2 <> x.2).
Proof.
  intros Hs%reachable_ok Ha Hx Ho. split.
  - destruct (sys_bound _ Hs i a k x Ha Hx) as (o1 & Ho1 & Hown & _). rewrite Ho in Ho1. injection Ho1 as <-. lia.
  - intros Eo j b k' y Hj Hb Hy. by apply (owned_unshared s i a k x o j b k' y).
Qed.

(** ** On concrete inputs *)

(** A heap in which every pointer encodes the array it points to. *)
Definition encoded_heap : ArrayHeap := {|
  array_at := fun p =>
    match decode p : option (string * Z * list (Z * Z)) with
    | Some (name, size, contents) => MkArray name size Int32 Int8 ((fun c => MkAPInt c.1 c.2) <$> contents)
    | None => MkArray "none"%string 0 Int32 Int8 []
    end
|}.
Definition encoding_cache : ArrayCache := {|
  CreateArray := fun name size contents => encode (name, size, (fun c => (getBitWidth c, uval c)) <$> contents)
|}.

Lemma encoding_laws : @ArrayCacheLaws encoded_heap encoding_cache.
Proof.
  split. intros name size contents. unfold CreateArray, encoding_cache, array_at, encoded_heap. rewrite decode_encode. f_equal.
  rewrite <- list_fmap_compose. rewrite <- (list_fmap_id contents) at 2. apply list_fmap_ext. intros _ [w v] _. done.
Qed.

Definition little_64 : TargetContext := {| isLittleEndian := true; getPointerWidth := 64 |}.
Definition big_64 : TargetContext := {| isLittleEndian := false; getPointerWidth := 64 |}.
Definition lazy_arrays : MemoryOptions := {| UseConstantArrays := true |}.

Section ObjectWitness.
#[local] Existing Instance encoded_heap.
#[local] Existing Instance encoding_cache.
#[local] Existing Instance encoding_laws.
#[local] Existing Instance big_64.
#[local] Existing Instance lazy_arrays.
#[local] Existing Instance default_options.

Definition eight_bytes : MemoryObject := MkMO 1 4096 8 [] false false false false 1.
Definition input : positive := CreateArray "in" 4 [].
Definition input_0 : Expr := ReadExpr input UNull (ConstantExpr (MkAPInt 32 0)).
Definition input_offset : Expr := CastExpr ZExt input_0 32.
Definition input_is_3 : env := fun _ i => if i =? 0 then 3 else 0.

Lemma wf_input : wf_array (array_at input).
Proof. unfold input. rewrite CreateArray_spec. split_and!; cbn; try done; constructor. Qed.

Lemma input_array : array_at input = MkArray "in" 4 Int32 Int8 [].
Proof. apply CreateArray_spec. Qed.

Lemma input_offset_ok : wf input_offset /\ getWidth input_offset = 32.
Proof.
  split; [|done]. unfold input_offset, input_0. cbn [wf wf_updates getWidth]. rewrite input_array. split_and!; try done; cbn; lia.
Qed.

(** A word is written at 2, the input's byte over a byte of it, and the word is
    read, in big-endian order. *)
Definition some_accesses : list Access :=
  [Store (ConstantExpr (MkAPInt 64 2)) (ConstantExpr (MkAPInt 16 0x1234)); Store input_offset (ConstantExpr (MkAPInt 8 0xFF));
   Load (ConstantExpr (MkAPInt 64 2)) 16].

Lemma some_accesses_ok : Forall (access_ok 8) some_accesses.
Proof.
  destruct input_offset_ok as [Ho Hw]. repeat (apply Forall_cons; split); [..|by apply List.Forall_nil].
  - split_and!; first [done|by right|by vm_compute].
  - split_and!; [done| |done|done|by right]. intros i e Hi. change (0 <= i < 1) in Hi. assert (i = 0) as -> by lia. vm_compute. by intros [= <-].
  - split_and!; first [done|by right|by vm_compute].
Qed.

Lemma object_state_refines_witness : exists e s id,
  accesses some_accesses (ObjectState_new eight_bytes 0).1 0 = Done ([e], s, id) /\ getWidth e = 16 /\ eval input_is_3 e = 0x12FF.
Proof.
  destruct (ObjectState_new_ok eight_bytes 0) as (Hs & _); [cbn; lia|].
  destruct (object_state_refines default_off (ObjectState_new eight_bytes 0).1 0 some_accesses Hs some_accesses_ok)
    as (es & s & id & E & _ & _ & _ & Hw & _ & Hv).
  destruct (Hv input_is_3) as [Hes _].
  { repeat (apply Forall_cons; split); [by vm_compute..|by apply List.Forall_nil]. }
  destruct es as [|e [|]]; try discriminate Hw. exists e, s, id. split; [exact E|]. split; [by injection Hw|]. injection Hes as ->. by vm_compute.
Defined.
End ObjectWitness.

Section PointerWitness.
#[local] Existing Instance small_heap.
#[local] Existing Instance finite_solver.
#[local] Existing Instance finite_sound.
#[local] Existing Instance default_options.
#[local] Existing Instance little_64.
#[local] Existing Instance lazy_arrays.
#[local] Instance hashing_visitor : VisitorOptions := {| UseVisitorHash := true |}.
#[local] Instance simplifying : TimingOptions := {| simplifyExprs := true |}.
#[local] Instance no_timeout : Clock unit := {| past_timeout _ := false |}.
#[local] Instance one_array : ArrayCache := {| CreateArray _ _ _ := 2%positive |}.
#[local] Instance padded : LongDouble := {| long_double_bytes c := le_bytes 10 (uval c) ++ replicate 6 0 |}.

(** An element of two bits, and a pointer to one of the four bytes from 4096 on. *)
Definition element : Expr := ReadExpr 1 UNull (ConstantExpr (MkAPInt 1 0)).
Definition pointer : Expr := BinaryExpr Add (ConstantExpr (MkAPInt 64 4096)) (CastExpr ZExt element 64).
Definition element_is (v : Z) : env := fun _ _ => v.

Lemma wf_element : wf element.
Proof. split; [apply small_wf|]. split_and!; done. Qed.

Lemma wf_pointer : wf pointer.
Proof. split_and!; try done; apply wf_element. Qed.

Lemma pointer_value ρ : 4096 <= eval ρ pointer < 4100.
Proof.
  pose proof (eval_range element ρ wf_element) as Hv. change (getWidth element) with 2 in Hv.
  change (eval ρ pointer) with ((4096 + eval ρ element mod 2 ^ 64) mod 2 ^ 64). rewrite !Z.mod_small by (rewrite ?Z.mod_small; lia). lia.
Qed.

(** Two objects of two bytes, next to each other, and one further up. *)
Definition low : MemoryObject := MkMO 1 4096 2 [] false false false false 1.
Definition high : MemoryObject := MkMO 2 4098 2 [] false false false false 1.
Definition far : MemoryObject := MkMO 3 8192 16 [] false false false false 1.
Definition three_objects : AddressSpace :=
  MkAS 1 (ImmutableTree.replace (high, 2%positive) (ImmutableTree.replace (low, 1%positive) (ImmutableTree.replace (far, 3%positive) ImmutableTree.terminator))).

Lemma three_pairs : pairs (objects three_objects) = [(low, 1%positive); (high, 2%positive); (far, 3%positive)].
Proof. by vm_compute. Qed.

Lemma three_resolvable : resolvable [] (element_is 0) pointer three_objects.
Proof.
  assert (forall x, x ∈ pairs (objects three_objects) -> x.1 = low \/ x.1 = high \/ x.1 = far) as Hin.
  { intros x. rewrite three_pairs, !elem_of_cons, elem_of_nil. naive_solver. }
  split.
  - split; [constructor|]. intros c Hc. by apply elem_of_nil in Hc.
  - split; [|done]. split; [apply wf_pointer|done].
  - done.
  - split.
    + repeat apply ImmutableTree.replace_good. apply ImmutableTree.good_terminator.
    + intros x Hx. destruct (Hin x Hx) as [-> |[-> | ->]]; cbn; lia.
    + intros x y Hx Hy. destruct (Hin x Hx) as [-> |[-> | ->]], (Hin y Hy) as [-> |[-> | ->]]; cbn; lia.
  - intros x Hx. destruct (Hin x Hx) as [-> |[-> | ->]]; split; cbn; lia.
Qed.

Lemma bounds_checks_exact_witness : exists e, getBoundsCheckPointer_bytes high pointer 2 = Done e /\
  eval (element_is 2) e = 1 /\ eval (element_is 3) e = 0.
Proof.
  assert (object_fits high) as Hf by (split; cbn; lia).
  destruct (bounds_checks_exact default_off high pointer Hf wf_pointer) as [_ Hb]; [done|]. destruct (Hb 2) as (e & E & _ & _ & Hv); [lia|].
  exists e. split; [exact E|]. rewrite !Hv. by vm_compute.
Defined.

(** The pointer may point into the first object found, and into none above. *)
Lemma resolveOne_exact_witness : exists fuel x, Resolution.resolveOne fuel [] pointer three_objects tt = Done (Some (Some x), tt) /\ x.1 <> far.
Proof.
  destruct (resolveOne_exact default_off [] (element_is 0) pointer three_objects three_resolvable) as [n Hn].
  destruct (Hn n (le_n n) tt I) as (r & [] & E & _ & Ht & Hr). specialize (Ht finite_total). destruct r as [[x|]|]; [|exfalso|done].
  - exists n, x. split; [exact E|]. destruct Hr as [_ Hr]. intros Ef. apply Hr. intros ρ _. rewrite Ef. unfold points_into.
    pose proof (pointer_value ρ). cbn [mo_size address far fst] in *. lia.
  - apply (Hr (low, 1%positive)) with (ρ := element_is 0); [rewrite three_pairs; by left|intros c Hc; by apply elem_of_nil in Hc|by vm_compute; right].
Defined.

(** With a limit of one object the two objects the pointer may point into are
    both returned, as complete. *)
Lemma resolve_exact_witness : exists fuel rl, Resolution.resolve fuel [] pointer [] 1 three_objects tt = Done (false, rl, tt) /\
  (low, 1%positive) ∈ rl /\ (high, 2%positive) ∈ rl.
Proof.
  destruct (resolve_exact default_off [] (element_is 0) pointer three_objects 1 three_resolvable) as [n Hn].
  destruct (Hn n (le_n n) tt I) as (i & rl & [] & E & _ & _ & _ & Hc & Hi & _). exists n, rl.
  destruct i; [by destruct (Hi eq_refl finite_total) as [? _]; [done|lia]|]. split; [exact E|].
  assert (forall ρ : env, sat ρ []) as Hsat by (intros ρ c Hin; by apply elem_of_nil in Hin).
  split.
  - destruct (Hc eq_refl (low, 1%positive)) as [Hin|Hno]; [rewrite three_pairs; by left|exact Hin|].
    exfalso. apply (Hno (element_is 0)); [done|]. right. by vm_compute.
  - destruct (Hc eq_refl (high, 2%positive)) as [Hin|Hno]; [rewrite three_pairs; right; by left|exact Hin|].
    exfalso. apply (Hno (element_is 2)); [done|]. right. by vm_compute.
Defined.

Lemma memory_image_roundtrip_witness : exists bs, toMemory (MkAPInt 32 0x01020304) = Done bs /\ bs = [4; 3; 2; 1] /\
  fromMemory (bs ++ [9]) 32 = Done (MkAPInt 32 0x01020304).
Proof.
  destruct (memory_image_roundtrip (MkAPInt 32 0x01020304)) as (bs & E & _ & Hb); [split; cbn; lia|by right; right; right; left|].
  exists bs. split; [exact E|]. split; [vm_compute in E; by injection E as <-|apply Hb].
Defined.

(** An object whose first byte is the element, widened. *)
Definition wide_element : Expr := CastExpr ZExt element 8.
Definition two_bytes : ObjectState := (ObjectState_new low 0).1.

Lemma two_bytes_ok : os_ok two_bytes.
Proof. apply concrete_ok; try done. cbn. by repeat constructor. Qed.

(** The first byte is set to 3, a value of the element under the constraint that
    it is 3; nothing else changes. *)
Definition element_is_3 : Expr := BinaryExpr EqK (ConstantExpr (MkAPInt 2 3)) element.

Lemma flush_to_store_exact_witness : exists s fuel s', write8 0 wide_element two_bytes = Done s /\
  flushToConcreteStore fuel [element_is_3] s 0 tt = Done (s', 0, tt) /\ concreteStore s' !! 0%nat = Some 3.
Proof.
  assert (byte_expr wide_element) as Hb by (split; [split_and!; [apply wf_element|done..]|done]).
  destruct (write8_ok two_bytes 0 wide_element two_bytes_ok) as (s & E & Hs & _); [done|exact Hb|]. vm_compute in E. injection E as <-.
  eexists. destruct (fun H1 H2 => flush_to_store_exact default_off [element_is_3] (element_is 3) _ H1 H2 Hs) as [m Hm].
  - apply Forall_singleton. split; [|done]. split_and!; [by split|apply wf_element|done].
  - intros c ->%list_elem_of_singleton. by vm_compute.
  - intros e He. vm_compute in He. apply list_elem_of_singleton in He as ->. split; [|by vm_compute]. exact (proj1 Hb).
  - destruct (Hm m (le_n m) 0 tt I) as (s' & [] & E & _ & _ & _ & _ & Hv). exists m, s'. split; [by vm_compute|]. split; [exact E|].
    destruct (Hv finite_total 0 wide_element) as (v & Ev & ρ & Hρ & He); [done|by vm_compute|]. etrans; [exact Ev|]. f_equal. rewrite <- He.
    specialize (Hρ element_is_3 ltac:(by left)). pose proof (eval_range element ρ wf_element) as Hr. change (getWidth element) with 2 in Hr.
    change (eval ρ wide_element) with (eval ρ element mod 2 ^ 8). rewrite Z.mod_small by lia.
    change (eval ρ element_is_3) with (Z.b2z (3 =? eval ρ element)) in Hρ. destruct (Z.eqb_spec 3 (eval ρ element)); [lia|done].
Defined.
End PointerWitness.

Section SymbolicWitness.
#[local] Existing Instance encoded_heap.
#[local] Existing Instance encoding_cache.
#[local] Existing Instance encoding_laws.
#[local] Existing Instance default_options.
#[local] Existing Instance closed_solver.
#[local] Instance plain_visitor : VisitorOptions := {| UseVisitorHash := true |}.
#[local] Instance not_simplifying : TimingOptions := {| simplifyExprs := false |}.
#[local] Instance padded_long_double : LongDouble := {| long_double_bytes c := le_bytes 10 (uval c) ++ replicate 6 0 |}.

Definition four_bytes : MemoryObject := MkMO 1 4096 4 [] false false false false 1.

(** The path says that the first byte is not zero; external code sees a zero. *)
Lemma symbolic_object_not_flushed_witness : exists s,
  ObjectState_new_symbolic four_bytes input = Done s /\
  flushToConcreteStore 5 [BinaryExpr Ult (ConstantExpr (MkAPInt 8 0)) input_0] s 0 tt = Done (s, 0, tt) /\ concreteStore s = [0; 0; 0; 0].
Proof.
  destruct (symbolic_object_not_flushed 5 [BinaryExpr Ult (ConstantExpr (MkAPInt 8 0)) input_0] four_bytes input 0 tt) as (s & E & Ef & Es & _).
  - cbn. lia.
  - unfold root_ok. rewrite input_array. by split_and!.
  - exists s. split; [exact E|]. split; [exact Ef|exact Es].
Defined.
End SymbolicWitness.

(** State 1 binds an object and forks state 2, which sets the first byte. *)
Definition shared_bytes : ObjectState := MkOS 0 low [0; 0] None None None (MkUpdates None UNull) 2 false.
Definition changed_bytes : ObjectState := MkOS 2 low [5; 0] None None None (MkUpdates None UNull) 2 false.

Definition forked_write : list (positive * action) :=
  [(2%positive, Write low (with_owner 2 shared_bytes) changed_bytes); (1%positive, Fork 2); (1%positive, Bind low shared_bytes)].

Lemma forked_write_runs : exists s, run forked_write s /\ exists p, ImmutableTree.lookup 4096 (objects (default AddressSpace.new (spaces s !! 2%positive))) = Some (low, p) /\
  store s !! p = Some changed_bytes.
Proof.
  eexists. split.
  - eapply run_cons; [eapply run_cons; [eapply run_cons; [apply run_nil|]|]|].
    + eapply (step_bind 1 initial_system AddressSpace.new low 1%positive shared_bytes); by vm_compute.
    + eapply step_fork; [by vm_compute|by vm_compute|by vm_compute].
    + eapply (step_write 2 _ _ low 1%positive); [by vm_compute|by vm_compute|by vm_compute|by vm_compute|done|done].
  - exists 2%positive. split; by vm_compute.
Qed.

(** The first state still sees zeros; the second its own write. *)
Lemma copy_on_write_refines_witness : exists s a b, run forked_write s /\ spaces s !! 1%positive = Some a /\ spaces s !! 2%positive = Some b /\
  view (store s) a 4096 = Some (low, shared_bytes) /\ view (store s) b 4096 = Some (low, with_owner 0 changed_bytes).
Proof.
  destruct forked_write_runs as (s & Hrun & _). destruct (copy_on_write_refines forked_write s Hrun) as [Hv _].
  pose proof (Hv 1%positive) as H1. pose proof (Hv 2%positive) as H2.
  destruct (spaces s !! 1%positive) as [a|] eqn:Ha; [|by vm_compute in H1]. destruct (spaces s !! 2%positive) as [b|] eqn:Hb; [|by vm_compute in H2].
  exists s, a, b. split; [exact Hrun|]. split; [done|]. split; [done|]. split; [exact (H1 4096)|exact (H2 4096)].
Defined.

Lemma copy_on_write_owned_witness : exists s b p o, spaces s !! 2%positive = Some b /\ ImmutableTree.lookup 4096 (objects b) = Some (low, p) /\
  store s !! p = Some o /\ copyOnWriteOwner o <= cowKey b.
Proof.
  destruct forked_write_runs as (s & Hrun & p & Hl & Hp). destruct (spaces s !! 2%positive) as [b|] eqn:Hb; [|by vm_compute in Hl].
  exists s, b, p, changed_bytes. split; [done|]. split; [done|]. split; [done|].
  exact (proj1 (copy_on_write_owned s 2 b 4096 (low, p) changed_bytes (run_reachable _ _ Hrun) Hb Hl Hp)).
Defined.
