(* ===== verification/SolverProperties.v ===== *)
(** The solver stack: the theorems. *)
From stdpp Require Import base list numbers strings gmap.
From Stdlib Require Import ZArith Lia String.
From S2P Require Import Prelude APInt Bits Expr Semantics ConstantOps ExprCreate CreateSound OpsSound Visitor FindReads Solver Evaluator SolverRange IncompleteSolver ValueRange CachingSolver InitialValues FastCexSolver FastCexSound IndependentSolver ValidatingSolver Samples.
Local Open Scope Z_scope.

Section Properties.
Context {AP : APIntOps} {APL : APIntLaws} {AH : ArrayHeap} {OP : ExprOptions}.
Context (default_opt : ConstArrayOpt = false).

Section Solvers.
Context {S : Type} {ops : SolverImpl S} {sol : SoundSolver S}.

(** C22. Constraint independence loses nothing: the solver that only sends the
    required constraints to a sound solver gives sound answers to the whole
    query, and answers whenever that one does.  The queries are those of the contract
    of solvers: boolean constraints that can be satisfied and a well-formed expression.
    Arrays are indexed with at most 32 bits, and -const-array-opt is off, as by
    default. *)
Theorem independent_solver_refines :
  (forall r, arr_domain (array_at r) <= 32) ->
  sound_answers (S := @Independent.t S) (fun s => s_inv (Independent.solver s)) /\
  (TotalSolver S -> TotalSolver (@Independent.t S)).
Proof.
  intros Hd. split; [apply (SoundSolver_answers (sol := Independent.sound_of Hd))|apply Independent.independent_total_of].
Qed.

(** C23. Caching partial validities in front of a sound solver gives sound
    answers, on hits, misses and partial hits, keeps the cache truthful, and
    always has an answer when the solver has; on the queries of the contract of
    solvers, whose constraints can be satisfied, with -const-array-opt off. *)
Theorem caching_solver_refines :
  sound_answers (S := CachingSolver.t S) CachingSolver.inv /\
  (TotalSolver S -> TotalSolver (CachingSolver.t S)).
Proof.
  split; [apply (SoundSolver_answers (sol := CachingSolver.sound_of default_opt))|apply CachingSolver.caching_total_of].
Qed.

(** C27. Over a sound solver that always answers ([TotalSolver]; when a query fails
    the code aborts), for a well-formed expression of at most 64 bits (the code asserts
    it of those that are not constant) under boolean constraints that can be satisfied,
    [getRange] terminates and finds the smallest interval that holds all values the
    expression takes under the constraints. *)
Theorem getRange_exact q s :
  TotalSolver S -> wf_query q -> getWidth (q_expr q) <= 64 -> s_inv s ->
  exists mn mx s', getRange q s =
      Done (MkAPInt (getWidth (q_expr q)) mn, MkAPInt (getWidth (q_expr q)) mx, s') /\ s_inv s' /\
    (forall ρ, sat ρ (constraints q) -> mn <= eval ρ (q_expr q) <= mx) /\
    (forall m, (forall ρ, sat ρ (constraints q) -> m <= eval ρ (q_expr q)) -> m <= mn) /\
    (forall m, (forall ρ, sat ρ (constraints q) -> eval ρ (q_expr q) <= m) -> mx <= m).
Proof.
  intros Ht Hq Hw Hs. apply getRange_ok; [done| | |done..]; intros q' s1 r s' _ _ E;
    [by eapply total_truth|by eapply total_validity].
Qed.

(** The [Solver] facade: every question that is answered is answered
    truthfully, constants without asking the solver, and every question is answered when
    the solver always answers. *)
Theorem facade_sound q s : s_inv s -> bool_query q ->
  (exists r s', evaluate q s = Done (r, s') /\ forall v, r = Some v -> validity_is v q) /\
  (exists r s', mustBeTrue q s = Done (r, s') /\ forall b, r = Some b -> (b = true <-> valid q)) /\
  (exists r s', mustBeFalse q s = Done (r, s') /\ forall b, r = Some b -> (b = true <-> valid_not q)) /\
  (exists r s', mayBeTrue q s = Done (r, s') /\ forall b, r = Some b -> (b = false <-> valid_not q)) /\
  (exists r s', mayBeFalse q s = Done (r, s') /\ forall b, r = Some b -> (b = false <-> valid q)) /\
  (exists r s', getValue q s = Done (r, s') /\
     forall a, r = Some a -> exists ρ, sat ρ (constraints q) /\ eval ρ (q_expr q) = uval a) /\
  (TotalSolver S ->
     (forall s', evaluate q s <> Done (None, s')) /\ (forall s', mustBeTrue q s <> Done (None, s')) /\
     (forall s', mustBeFalse q s <> Done (None, s')) /\ (forall s', mayBeTrue q s <> Done (None, s')) /\
     (forall s', mayBeFalse q s <> Done (None, s')) /\ (forall s', getValue q s <> Done (None, s'))).
Proof.
  intros Hs Hq.
  destruct (evaluate_ok q s Hs Hq) as (? & ? & ? & _ & ?). destruct (mustBeTrue_ok q s Hs Hq) as (? & ? & ? & _ & ?).
  destruct (mustBeFalse_ok default_opt q s Hs Hq) as (? & ? & ? & _ & ?).
  destruct (mayBeTrue_ok default_opt q s Hs Hq) as (? & ? & ? & _ & ?).
  destruct (mayBeFalse_ok q s Hs Hq) as (? & ? & ? & _ & ?).
  destruct (getValue_ok q s Hs (proj1 Hq)) as (? & ? & ? & _ & Hv).
  split; [eauto|]. split; [eauto|]. split; [eauto|]. split; [eauto|]. split; [eauto|].
  split; [|apply facade_total]. eexists _, _. split; [done|]. intros a Ha. by apply Hv.
Qed.

(** The default [computeValidity] decides validity with at most two
    truth queries. *)
Theorem default_validity_sound q s : s_inv s -> bool_query q ->
  exists r s', default_computeValidity computeTruth q s = Done (r, s') /\ s_inv s' /\
    forall v, r = Some v -> validity_is v q.
Proof. intros. by apply default_computeValidity_ok. Qed.

(** A sound incomplete solver staged in front of a sound solver gives
    sound answers, and always has an answer when the solver has. *)
Theorem staged_solver_refines {P : IncompleteSolver} {PS : @SoundIncomplete P AH} :
  sound_answers (S := @StagedSolver.t S) (fun s => s_inv (StagedSolver.secondary s)) /\
  (TotalSolver S -> TotalSolver (@StagedSolver.t S)).
Proof.
  split; [apply (SoundSolver_answers (sol := StagedSolver.sound_of default_opt (psound := PS)))|].
  apply StagedSolver.staged_total_of.
Qed.

(** C37. The chain the executor builds, independence over the cache over an
    incomplete solver over the core solver, gives sound answers,
    and always has an answer when the core solver has.  Both solvers below are sound;
    the queries are those of the contract, with boolean constraints that can be
    satisfied; arrays are indexed with at most 32 bits, and -const-array-opt is off. *)
Theorem solver_chain_refines {P : IncompleteSolver} {PS : @SoundIncomplete P AH} :
  (forall r, arr_domain (array_at r) <= 32) ->
  sound_answers (S := @Independent.t (CachingSolver.t (@StagedSolver.t S)))
    (fun s => CachingSolver.inv (sol := StagedSolver.sound_of default_opt (psound := PS)) (Independent.solver s)) /\
  (TotalSolver S -> TotalSolver (@Independent.t (CachingSolver.t (@StagedSolver.t S)))).
Proof.
  intros Hd. split.
  2: { intros Ht. by apply Independent.independent_total_of, CachingSolver.caching_total_of, StagedSolver.staged_total_of. }
  apply (SoundSolver_answers (sol := Independent.sound_of Hd
    (sol := CachingSolver.sound_of default_opt (sol := StagedSolver.sound_of default_opt (psound := PS))))).
Qed.

(** What the cache knows about a query is never refined: inserting a
    result for a query that is already there leaves the cache as it was. *)
Theorem cache_entry_never_refined q pv s s' c neg :
  CachingSolver.canonicalizeQuery (q_expr q) = Done (c, neg) ->
  CachingSolver.cache_find (constraints q, c) (CachingSolver.cache s) <> None ->
  CachingSolver.cacheInsert (S := S) q pv s = Done s' -> s' = s.
Proof. apply CachingSolver.cacheInsert_keeps. Qed.

End Solvers.

(** Validating a sound solver against a sound oracle never fails an
    assertion, gives sound answers, and always has one when both have. *)
Theorem validating_solver_refines {S O} {ops : SolverImpl S} {sol : SoundSolver S}
    {oops : SolverImpl O} {osol : SoundSolver O} :
  sound_answers (S := ValidatingSolver.t S O)
    (fun s => s_inv (ValidatingSolver.solver s) /\ s_inv (ValidatingSolver.oracle s)) /\
  (TotalSolver S -> TotalSolver O -> TotalSolver (ValidatingSolver.t S O)).
Proof.
  split; [apply (SoundSolver_answers (sol := ValidatingSolver.sound_of default_opt))|].
  apply ValidatingSolver.validating_total_of.
Qed.

(** The validity an incomplete solver derives from its truth is what it
    says. *)
Theorem incomplete_validity_sound truth q : bool_query q ->
  (forall q, bool_query q -> exists pv, truth q = Done pv /\ (pv <> PNone -> pv_is pv q) /\ pv <> MayBeTrue) ->
  exists pv, IncompleteSolver_computeValidity truth q = Done pv /\ (pv <> PNone -> pv_is pv q).
Proof. intros. by apply IncompleteSolver_computeValidity_ok. Qed.

(** The constraints left out of a query are independent of it: the loop
    terminates with a part of the constraints, and any solution of that part
    extends to all of them without changing the expression. *)
Theorem independent_constraints_suffice q :
  (forall r, arr_domain (array_at r) <= 32) -> wf_query q ->
  exists elts req, Independent.getIndependentConstraints q = Done (elts, req) /\
    (forall c, c ∈ req -> c ∈ constraints q) /\
    forall ρ, sat ρ req -> exists ρ', sat ρ' (constraints q) /\ eval ρ' (q_expr q) = eval ρ (q_expr q).
Proof. intros. by apply Independent.getIndependentConstraints_ok. Qed.

(** The factors of a query hold its constraints and the negation of its
    expression, share no array element pairwise, and have solutions one by one
    exactly when the query has a counterexample. *)
Theorem factors_exact q :
  (forall r, arr_domain (array_at r) <= 32) -> bool_query q ->
  (forall CE, q_expr q = ConstantExpr CE -> uval CE = 0) ->
  exists es fs, Factors.factor_exprs q = Done es /\
    Factors.getAllIndependentConstraintsSets q = Done fs /\
    Factors.all_exprs fs ≡ₚ es /\ ForallOrdPairs IES.disjoint_sets fs /\
    ((forall f, f ∈ fs -> exists ρ, sat ρ (ies_exprs f)) <->
     exists ρ, sat ρ (constraints q) /\ eval ρ (q_expr q) = 0).
Proof. intros. by apply Factors.getAllIndependentConstraintsSets_ok. Qed.

(** C33. The ranges of the fast counterexample solver.  The loops over the bits
    compute exactly the least and the greatest disjunction and conjunction of
    the words of two ranges.  The range of an expression of words of at most 64
    bits that compares no signed 64-bit words is computed and not empty, for
    well-formed expressions with comparisons of the kinds that the constructors make,
    over arrays of bytes, with right sides of concatenations of at least 8 bits
    ([ranged]); it contains every value of the expression, provided the right sides of
    the concatenations it looks at are single bytes ([precise]). *)
Theorem value_ranges_exact :
  (forall a b c d, 0 <= a <= b -> b < 2 ^ 64 -> 0 <= c <= d -> d < 2 ^ 64 ->
     bounds_of Z.lor a b c d (minOR a b c d) (maxOR a b c d) /\
     bounds_of Z.land a b c d (minAND a b c d) (maxAND a b c d)) /\
  (forall e, wf e -> ranged e = true -> exists v, evalRangeForExpr e = Done v /\
     0 <= m_min v <= m_max v /\ m_max v < 2 ^ getWidth e /\
     (precise e = true -> forall ρ, m_min v <= eval ρ e <= m_max v)).
Proof.
  split; [apply bitwise_bounds|]. intros e We Hr. destruct (evalRange_ok e We Hr) as (v & Ev & [F1 F2] & Hp). by exists v.
Qed.

(** C32. The fast counterexample solver on queries whose form it can
    propagate: whenever it answers, its verdict on the truth of the expression is
    right, its value is taken under the constraints, and its initial values are a
    counterexample; and if a counterexample exists, no assertion fails on the
    way and it never claims that the query is valid.  The form ([propagable]) is asked
    of the constraints and of the expression; the objects are arrays of bytes, arrays
    are indexed with at most 32 bits, and -const-array-opt is off. *)
Theorem fast_cex_solver_sound {VO : VisitorOptions} q objects :
  (forall r, arr_domain (array_at r) <= 32) -> propagable_query q -> Forall byte_array objects ->
  (forall pv, fast_computeTruth q = Done pv -> pv <> PNone -> pv_is pv q) /\
  (forall a, fast_computeValue q = Done (Some a) -> wf_apint a /\ getBitWidth a = getWidth (q_expr q) /\
     exists ρ, sat ρ (constraints q) /\ eval ρ (q_expr q) = uval a) /\
  (forall r, fast_computeInitialValues q objects = Done r -> initial_result_ok q objects r) /\
  (forall ρ, counterexample q ρ ->
     (exists pv, fast_computeTruth q = Done pv /\ pv <> MustBeTrue) /\
     (exists v, fast_computeValue q = Done v) /\
     (exists r, fast_computeInitialValues q objects = Done r /\ iv_hasSolution r <> Some false)).
Proof.
  intros Hd Hq Ho. pose proof Hq as [Hcs He]. destruct (evaluable_literal _ He) as [Hev _].
  destruct (fast_computeTruth_ok default_opt Hd q Hq) as [T1 T2].
  destruct (fast_computeValue_ok default_opt Hd q Hcs Hev) as [V1 V2].
  destruct (fast_computeInitialValues_ok default_opt Hd q objects Hq Ho) as [I1 I2].
  split_and!; [done..|]. intros ρ Hρ. split_and!; [by eapply T2|by eapply (V2 ρ), Hρ|by eapply I2].
Qed.

End Properties.

(** ** The theorems on concrete inputs *)

Section ClosedWitnesses.
#[local] Existing Instance closed_heap.
#[local] Existing Instance default_options.
#[local] Existing Instance closed_solver.
#[local] Existing Instance closed_sound.

Definition lt_query : Query := closed_query Ult 3 5.

Lemma lt_query_bool : bool_query lt_query.
Proof. by apply closed_query_bool. Qed.

Lemma independent_solver_refines_witness :
  exists r s', Solver.computeTruth lt_query (Independent.Mk tt) = Done (r, s') /\ r = Some true.
Proof.
  destruct (proj1 (independent_solver_refines closed_domain32) lt_query (Independent.Mk tt)) as [H _]; [exact I|].
  destruct (H lt_query_bool) as [_ (r & s' & E & _ & _)]. exists r, s'. split; [exact E|].
  vm_compute in E. by injection E as <- _.
Defined.

(** A miss, then a hit. *)
Lemma caching_solver_refines_witness :
  exists s', Solver.computeValidity lt_query (CachingSolver.Mk tt []) = Done (Some VTrue, s') /\
    exists r s'', Solver.computeTruth lt_query s' = Done (r, s'') /\ r = Some true /\ s'' = s'.
Proof.
  assert (CachingSolver.inv (CachingSolver.Mk tt [])) as Hi by (split; [done|intros k pv Hin; by apply elem_of_nil in Hin]).
  destruct (proj1 (caching_solver_refines default_off) lt_query _ Hi) as [H _].
  destruct (H lt_query_bool) as [(r & s' & E & Hi' & _) _].
  destruct (proj1 (caching_solver_refines default_off) lt_query s' Hi') as [H' _].
  destruct (H' lt_query_bool) as [_ (r' & s'' & E' & _ & _)].
  vm_compute in E. injection E as <- <-. vm_compute in E'. injection E' as <- <-.
  eexists. split; [vm_compute; reflexivity|]. eexists _, _. split; [vm_compute; reflexivity|]. done.
Defined.

Lemma staged_solver_refines_witness :
  exists r s', StagedSolver.computeTruth (primary := closed_incomplete) lt_query (StagedSolver.Mk tt) = Done (r, s') /\
    r = Some true.
Proof.
  destruct (proj1 (staged_solver_refines default_off (PS := closed_incomplete_sound)) lt_query (StagedSolver.Mk tt)) as [H _]; [exact I|].
  destruct (H lt_query_bool) as [_ (r & s' & E & _ & _)]. exists r, s'. split; [exact E|].
  vm_compute in E. by injection E as <- _.
Defined.

Lemma solver_chain_refines_witness :
  exists r s', Solver.computeValidity
      (SolverImpl := @Independent.ops_of _ _ _ (@CachingSolver.ops_of _ _ _ _ (@StagedSolver.ops_of _ _ _ closed_incomplete _ _)))
      lt_query (Independent.Mk (CachingSolver.Mk (StagedSolver.Mk tt) [])) = Done (r, s') /\ r = Some VTrue.
Proof.
  destruct (proj1 (solver_chain_refines default_off (PS := closed_incomplete_sound) closed_domain32)
    lt_query (Independent.Mk (CachingSolver.Mk (StagedSolver.Mk tt) []))) as [H _].
  { split; [done|]. intros k pv Hin. by apply elem_of_nil in Hin. }
  destruct (H lt_query_bool) as [(r & s' & E & _ & _) _]. exists r, s'. split; [exact E|].
  vm_compute in E. by injection E as <- _.
Defined.

Lemma validating_solver_refines_witness :
  exists r s', Solver.computeValue lt_query (ValidatingSolver.Mk tt tt) = Done (r, s') /\ r = Some (MkAPInt 1 1).
Proof.
  destruct (proj1 (validating_solver_refines default_off) lt_query (ValidatingSolver.Mk tt tt)) as [_ H]; [exact (conj I I)|].
  destruct (H (proj1 lt_query_bool)) as (r & s' & E & _ & _). exists r, s'. split; [exact E|].
  vm_compute in E. by injection E as <- _.
Defined.

Lemma getRange_exact_witness :
  exists mn mx s', getRange (MkQuery [] (NotOptimizedExpr (byte8 5))) tt = Done (mn, mx, s') /\
    mn = byte_const 5 /\ mx = byte_const 5.
Proof.
  destruct (getRange_exact default_off (MkQuery [] (NotOptimizedExpr (byte8 5))) tt) as (mn & mx & s' & E & _).
  - apply closed_total.
  - split; [constructor|by apply wf_byte8|]. exists (fun _ _ => 0). intros c Hc. by apply elem_of_nil in Hc.
  - done.
  - exact I.
  - eexists _, _, _. split; [exact E|]. vm_compute in E. by injection E as <- <- _.
Defined.

Lemma facade_sound_witness :
  exists r s', mayBeFalse lt_query tt = Done (r, s') /\ r = Some false.
Proof.
  destruct (facade_sound default_off lt_query tt) as (_ & _ & _ & _ & (r & s' & E & _) & _);
    [exact I|apply lt_query_bool|].
  exists r, s'. split; [exact E|]. vm_compute in E. by injection E as <- _.
Defined.

Lemma default_validity_sound_witness :
  exists r s', default_computeValidity computeTruth (closed_query Ult 7 5) tt = Done (r, s') /\ r = Some VFalse.
Proof.
  destruct (default_validity_sound default_off (closed_query Ult 7 5) tt) as (r & s' & E & _);
    [exact I|by apply closed_query_bool|].
  exists r, s'. split; [exact E|]. vm_compute in E. by injection E as <- _.
Defined.

Lemma incomplete_validity_sound_witness :
  exists pv, IncompleteSolver_computeValidity closed_truth (closed_query Ult 7 5) = Done pv /\ pv = MustBeFalse.
Proof.
  destruct (incomplete_validity_sound default_off closed_truth (closed_query Ult 7 5)) as (pv & E & _);
    [by apply closed_query_bool|apply closed_truth_ok|].
  exists pv. split; [exact E|]. vm_compute in E. by injection E as <-.
Defined.

(** A partial entry is not refined by a later, better answer. *)
Lemma cache_entry_never_refined_witness :
  exists n c neg s', CachingSolver.canonicalizeQuery (q_expr lt_query) = Done (c, neg) /\ c = n /\
    CachingSolver.cacheInsert (S := unit) lt_query MustBeTrue (CachingSolver.Mk tt [(([], n), MayBeFalse)]) = Done s' /\
    s' = CachingSolver.Mk tt [(([], n), MayBeFalse)].
Proof.
  destruct (CachingSolver.canonicalizeQuery (q_expr lt_query)) as [[c neg]| | |] eqn:E; [|vm_compute in E; done..].
  exists c, c, neg. pose proof E as E'. vm_compute in E'. injection E' as <- <-.
  eexists. split; [reflexivity|]. split; [reflexivity|].
  split; [vm_compute; reflexivity|].
  eapply (cache_entry_never_refined lt_query MustBeTrue); [exact E|vm_compute; done|vm_compute; reflexivity].
Defined.

End ClosedWitnesses.

Section BufferWitnesses.
#[local] Existing Instance mixed_heap.
#[local] Existing Instance default_options.

(** The constraint on byte 1 is dropped from the query about byte 0. *)
Lemma independent_constraints_suffice_witness :
  exists elts req, Independent.getIndependentConstraints buf_query = Done (elts, req) /\ req = [].
Proof.
  destruct (independent_constraints_suffice buf_query mixed_domain32 (proj1 buf_query_bool)) as (elts & req & E & _).
  exists elts, req. split; [exact E|]. vm_compute in E. by injection E as _ <-.
Defined.

Lemma factors_exact_witness :
  exists fs, Factors.getAllIndependentConstraintsSets buf_query = Done fs /\ List.length fs = 2%nat.
Proof.
  destruct (factors_exact default_off buf_query mixed_domain32 buf_query_bool) as (es & fs & _ & E & _); [done|].
  exists fs. split; [exact E|]. vm_compute in E. by injection E as <-.
Defined.

End BufferWitnesses.

(** ** The fast counterexample solver on concrete queries *)

Section FastCexWitnesses.
#[local] Existing Instance z_apint.
#[local] Existing Instance mixed_heap.
#[local] Existing Instance default_options.
#[local] Instance fast_visitor : VisitorOptions := {| UseVisitorHash := true |}.

Definition byte_eq (v i : Z) : Expr := BinaryExpr EqK (byte8 v) (buf i).
Definition false_bit : Expr := ConstantExpr (MkAPInt 1 0).

Lemma byte_eq_propagable v i : 0 <= v < 2 ^ 8 -> 0 <= i < 4 -> propagable (byte_eq v i).
Proof.
  intros Hv Hi. assert (wf (byte_eq v i)) as Hw by (split; [by apply wf_byte8|]; split; [apply wf_buf; lia|done]).
  split; [by split|]. split; [done|]. cbn. unfold ValueRange_constant. cbn.
  rewrite Z.min_l, (proj2 (Z.ltb_lt i 4)), orb_true_r by lia. done.
Qed.

(** Byte 0 is 5: it is known that it is, and byte 1 may be anything. *)
Definition known_query : Query := MkQuery [byte_eq 5 0] (byte_eq 5 0).
Definition open_query : Query := MkQuery [byte_eq 5 0] (byte_eq 9 1).

Lemma byte_array_1 : byte_array 1.
Proof. split; [done|]. split; [apply wf_mixed|]. by vm_compute. Qed.

Lemma value_ranges_exact_witness :
  bounds_of Z.lor 5 9 2 3 6 11 /\ exists v, evalRangeForExpr (BinaryExpr And (byte8 12) (buf 0)) = Done v /\ v = MkRange 0 12 /\
    forall ρ, m_min v <= eval ρ (BinaryExpr And (byte8 12) (buf 0)) <= m_max v.
Proof.
  split; [exact (proj1 (proj1 value_ranges_exact 5 9 2 3 ltac:(lia) ltac:(lia) ltac:(lia) ltac:(lia)))|].
  destruct (proj2 value_ranges_exact (BinaryExpr And (byte8 12) (buf 0))) as (v & E & _ & _ & H).
  - split; [by apply wf_byte8|]. split; [by apply wf_buf|done].
  - done.
  - exists v. split; [exact E|]. split; [vm_compute in E; by injection E as <-|by apply H].
Defined.

Lemma fast_cex_solver_sound_witness :
  (fast_computeTruth known_query = Done MustBeTrue /\ valid known_query) /\
  (exists r, fast_computeInitialValues open_query [1%positive] = Done r /\ iv_values r = [[5; 4; 127; 127]] /\
     solution open_query [1%positive] (iv_values r)).
Proof.
  pose proof (byte_eq_propagable 5 0 ltac:(lia) ltac:(lia)) as H5. pose proof (byte_eq_propagable 9 1 ltac:(lia) ltac:(lia)) as H9.
  assert (Forall byte_array [1%positive]) as Hb by (apply List.Forall_cons; [apply byte_array_1|apply List.Forall_nil]).
  split.
  - destruct (fast_cex_solver_sound default_off known_query [1%positive] mixed_domain32) as [H _]; [|exact Hb|].
    + split; [apply List.Forall_cons; [exact H5|apply List.Forall_nil]|exact H5].
    + split; [vm_compute; reflexivity|]. apply (H MustBeTrue); [vm_compute; reflexivity|discriminate].
  - destruct (fast_cex_solver_sound default_off open_query [1%positive] mixed_domain32) as (_ & _ & H & _); [|exact Hb|].
    + split; [apply List.Forall_cons; [exact H5|apply List.Forall_nil]|exact H9].
    + eexists. split; [vm_compute; reflexivity|]. split; [reflexivity|].
      edestruct H as [[Hf _]|[_ Hs]]; [vm_compute; reflexivity|reflexivity|discriminate Hf|exact Hs].
Defined.

(** A query that is valid: the conflict between what it denies and what is known
    fails an assertion. *)
Lemma valid_query_asserts : let q := MkQuery [byte_eq 5 0] (BinaryExpr EqK false_bit (byte_eq 6 0)) in
  valid q /\ fast_computeTruth q = AssertFail.
Proof.
  split; [|by vm_compute]. intros ρ Hs. specialize (Hs (byte_eq 5 0) ltac:(by left)).
  set (b := eval ρ (buf 0)). change (Z.b2z (5 =? b) <> 0) in Hs. change (Z.b2z (0 =? Z.b2z (6 =? b)) <> 0).
  destruct (Z.eqb_spec 5 b) as [E|]; [by rewrite <- E|by destruct Hs].
Qed.

(** A range that is empty reaches a concatenation; the constraint has solutions. *)
Lemma empty_range_asserts :
  let c := BinaryExpr Or (BinaryExpr Ult (ConstantExpr (MkAPInt 16 65535)) (ConcatExpr (buf 1) (buf 0))) (byte_eq 5 2) in
  (exists ρ, sat ρ [c]) /\ fast_computeTruth (MkQuery [c] (byte_eq 5 3)) = AssertFail.
Proof.
  split; [|by vm_compute]. exists (fun _ _ => 5). intros c' Hc%list_elem_of_singleton. subst c'. by vm_compute.
Qed.

(** A read behind the end of an array, at an index that is known. *)
Lemma outside_read_undefined : fast_computeTruth (MkQuery [byte_eq 5 4] (byte_eq 5 0)) = Undefined.
Proof. by vm_compute. Qed.

(** A comparison of signed 64-bit words shifts by 64. *)
Lemma signed_word_undefined : let x := CastExpr ZExt (buf 0) 64 in
  evalRangeForExpr (BinaryExpr Slt x x) = Undefined.
Proof. by vm_compute. Qed.

(** The empty range is not neutral for [set_union]: the value that was just
    written is read with a range. *)
Lemma written_value_not_fixed :
  evalRangeForExpr (ReadExpr 1 (UNode UNull (index32 0) (byte8 5)) (index32 0)) = Done (MkRange 1 5).
Proof. by vm_compute. Qed.

End FastCexWitnesses.

(** ** Indices of more than two bytes *)

Section WideIndex.
#[local] Existing Instance z_apint.
#[local] Existing Instance default_options.
#[local] Instance wide_visitor : VisitorOptions := {| UseVisitorHash := true |}.

(** Array 1 has four bytes, which make an index into the others. *)
#[local] Instance wide_heap : ArrayHeap := {|
  array_at := fun p => MkArray "a"%string (if Pos.eqb p 1 then 4 else 65537) 32 8 []
|}.

Definition wide_index : Expr := ConcatExpr (buf 3) (ConcatExpr (buf 2) (ConcatExpr (buf 1) (buf 0))).

(** Element 65536 is 6 after a write of 6 at the wide index: it need not have
    been 6 before. *)
Definition wide_query : Query :=
  MkQuery [BinaryExpr EqK (byte8 6) (ReadExpr 2 (UNode UNull wide_index (byte8 6)) (index32 65536))]
    (BinaryExpr EqK (byte8 6) (ReadExpr 2 UNull (index32 65536))).

(** The range of a concatenation adds eight bits for its right side, however
    wide that is: here it ends at 65535, the write is taken to be elsewhere, and
    the query to be valid. *)
Lemma wide_index_unsound : evalRangeForExpr wide_index = Done (MkRange 0 65535) /\
  fast_computeTruth wide_query = Done MustBeTrue /\ ~ valid wide_query.
Proof.
  split; [by vm_compute|]. split; [by vm_compute|]. intros Hv.
  apply (Hv (fun _ i => if i =? 2 then 1 else 0)); [|by vm_compute].
  intros c Hc%list_elem_of_singleton. subst c. by vm_compute.
Qed.

End WideIndex.
