(* ===== verification/SearcherProperties.v ===== *)
(** Properties of the searchers that keep states in containers and of those
    that wrap other searchers, each with a run it applies to. *)
From stdpp Require Import base list numbers gmap.
From Stdlib Require Import ZArith Lia.
From S2P Require Import Prelude Searcher BasicSearchers MetaSearchers.
Local Open Scope Z_scope.

(** ** The searchers the witnesses run *)

#[export] Instance DFS_any : AnyReady DFSSearcher.t.
Proof. by intros s c _ H. Qed.

#[export] Instance Random_any : AnyReady RandomSearcher.t.
Proof. by intros s c _ H. Qed.

(** The clock advances by one each time it is read. *)
Definition ticking (n : Z) : Oracle := MkOracle 0 Z.of_nat n.

Definition dfs (l : list positive) : DFSSearcher.t := DFSSearcher.Mk l.

(** The list of states is distinct, by evaluation. *)
Ltac eval_NoDup := apply (bool_decide_unpack _); by vm_compute.

(** ** Searchers with one container *)

(** [DFSSearcher]: a permitted update appends the new states and takes the
    removed ones out without disturbing the order, and the state selected next
    is the newest one that is left. *)
Theorem dfs_searcher_exact o current added removed (s : DFSSearcher.t) :
  inv s -> valid_update current added removed s ->
  exists s', update o current added removed s = Done s' /\
    DFSSearcher.states s' = without removed (DFSSearcher.states s ++ added) /\
    forall front c, DFSSearcher.states s' = front ++ [c] -> selectState o s' = Done (c, s').
Proof.
  intros _ (H1 & H2 & H3 & _). exists (DFSSearcher.Mk (without removed (DFSSearcher.states s ++ added))).
  split; [by apply DFSSearcher.dfs_update_exact|]. split; [done|]. intros front c E. cbn in E |- *.
  unfold DFSSearcher.selectState. cbn. by rewrite E, last_snoc.
Qed.

Lemma dfs_searcher_exact_witness :
  exists s', update (ticking 0) (Some 2%positive) [3%positive; 4%positive] [4%positive]
               (dfs [1%positive; 2%positive]) = Done s' /\
    selectState (ticking 0) s' = Done (3%positive, s').
Proof.
  destruct (dfs_searcher_exact (ticking 0) (Some 2%positive) [3%positive; 4%positive] [4%positive]
    (dfs [1%positive; 2%positive])) as (s' & Hu & Hs & Hc).
  - cbn. eval_NoDup.
  - split_and!; cbn; [eval_NoDup|eval_NoDup|set_solver|]. intros c ?; simplify_eq. set_solver.
  - exists s'. split; [exact Hu|]. apply (Hc [1%positive; 2%positive]). exact Hs.
Defined.

(** [BFSSearcher]: after a fork the state that ran goes to the back of the
    queue, in front of the states it forked; a permitted update takes the removed
    states out without disturbing the order, and the oldest state is selected. *)
Theorem bfs_searcher_exact o current added removed (s : BFSSearcher.t) :
  inv s -> valid_update current added removed s ->
  exists s', update o current added removed s = Done s' /\
    BFSSearcher.states s' =
      without removed (BFSSearcher.requeued current added removed (BFSSearcher.states s) ++ added) /\
    forall c rest, BFSSearcher.states s' = c :: rest -> selectState o s' = Done (c, s').
Proof.
  intros _ (H1 & H2 & H3 & H4).
  eexists. split; [by apply BFSSearcher.bfs_update_exact|]. split; [done|].
  intros c rest E. cbn in E |- *. unfold BFSSearcher.selectState. cbn. by rewrite E.
Qed.

Lemma bfs_searcher_exact_witness :
  exists s', update (ticking 0) (Some 1%positive) [3%positive] []
               (BFSSearcher.Mk [1%positive; 2%positive]) = Done s' /\
    BFSSearcher.states s' = [2%positive; 1%positive; 3%positive] /\
    selectState (ticking 0) s' = Done (2%positive, s').
Proof.
  destruct (bfs_searcher_exact (ticking 0) (Some 1%positive) [3%positive] []
    (BFSSearcher.Mk [1%positive; 2%positive])) as (s' & Hu & Hs & Hc).
  - cbn. eval_NoDup.
  - split_and!; cbn; [eval_NoDup|eval_NoDup|set_solver|]. intros c ?; simplify_eq. set_solver.
  - exists s'. split; [exact Hu|]. split; [exact Hs|]. exact (Hc 2%positive _ Hs).
Defined.

(** [RandomSearcher]: whatever number the generator returns the selected
    state is a held one, and each held state is the one selected for some number
    of 32 bits. *)
Theorem random_searcher_complete (s : RandomSearcher.t) c :
  RandomSearcher.states s <> [] ->
  Z.of_nat (length (RandomSearcher.states s)) <= 2 ^ 32 ->
  c ∈ RandomSearcher.states s <->
  exists n time instructions, 0 <= n < 2 ^ 32 /\
    RandomSearcher.selectState (MkOracle n time instructions) s = Done (c, s).
Proof.
  intros Hne Hlen. unfold RandomSearcher.selectState. cbn [o_int32].
  destruct (Z.eqb_spec (Z.of_nat (length (RandomSearcher.states s))) 0) as [E|_].
  { by destruct (RandomSearcher.states s). }
  split.
  - intros (i & Hi)%list_elem_of_lookup. pose proof (lookup_lt_Some _ _ _ Hi) as Hlt.
    exists (Z.of_nat i), (fun _ => 0), 0. split; [lia|].
    assert (u32 (Z.of_nat i) = Z.of_nat i) as -> by (apply Z.mod_small; lia).
    rewrite Z.mod_small by lia. by rewrite Nat2Z.id, Hi.
  - intros (n & _ & _ & _ & H).
    destruct (RandomSearcher.states s !! _) as [x|] eqn:Hx; [|done].
    injection H as ->. by eapply list_elem_of_lookup_2.
Qed.

Lemma random_searcher_complete_witness :
  exists n time instructions, 0 <= n < 2 ^ 32 /\
    RandomSearcher.selectState (MkOracle n time instructions)
      (RandomSearcher.Mk [5%positive; 7%positive]) =
    Done (7%positive, RandomSearcher.Mk [5%positive; 7%positive]).
Proof.
  apply (random_searcher_complete (RandomSearcher.Mk [5%positive; 7%positive]) 7%positive);
    [done|cbn; lia|set_solver].
Defined.

(** ** Searchers that wrap others *)

(** [BatchingSearcher] over any searcher that keeps the contract of
    searchers keeps it: the memoized state is always one that is still held, so
    that a batch never returns a removed state. *)
Theorem batching_searcher_refines {S} `{SearcherLaws S, !AnyReady S} (scale_budget : Z -> Z) :
  @SearcherLaws (BatchingSearcher.t S)
    (BatchingSearcher.ops_of scale_budget) BatchingSearcher.spec_of.
Proof. exact (BatchingSearcher.batching_laws_of scale_budget). Qed.

Lemma batching_searcher_refines_witness :
  exists s', BatchingSearcher.update (ticking 9) (Some 2%positive) [3%positive] [2%positive]
      (BatchingSearcher.Mk (dfs [1%positive; 2%positive]) 0 1000 (Some 2%positive) 0 0) = Done s' /\
    contents (BatchingSearcher.baseSearcher s') ≡ₚ [1%positive; 3%positive].
Proof.
  pose proof (batching_searcher_refines (S := DFSSearcher.t) (fun t => t * 11 / 10)) as L.
  destruct (@update_ok _ _ _ L (ticking 9) (Some 2%positive) [3%positive] [2%positive]
    (BatchingSearcher.Mk (dfs [1%positive; 2%positive]) 0 1000 (Some 2%positive) 0 0))
    as (s' & Hu & _ & Hp).
  - split; [cbn; eval_NoDup|]. cbn. intros c ?; simplify_eq. set_solver.
  - split_and!; cbn; [eval_NoDup|eval_NoDup|set_solver|]. intros c ?; simplify_eq. set_solver.
  - exists s'. split; [exact Hu|]. exact Hp.
Defined.

(** C31. [IterativeDeepeningTimeSearcher] over any searcher that keeps the
    contract keeps it: paused states stay held although the underlying searcher
    does not know them, and they come back before it runs out of states. *)
Theorem deepening_searcher_refines {S} `{SearcherLaws S} :
  @SearcherLaws (IterativeDeepeningTimeSearcher.t S)
    IterativeDeepeningTimeSearcher.ops_of IterativeDeepeningTimeSearcher.spec_of.
Proof. exact IterativeDeepeningTimeSearcher.deepening_laws_of. Qed.

(** State 2 has run too long: it is paused, and state 1 is selected. *)
Lemma deepening_searcher_refines_witness :
  let s := IterativeDeepeningTimeSearcher.Mk (dfs [1%positive; 2%positive]) (-50) 10 ∅ in
  exists s', IterativeDeepeningTimeSearcher.update (ticking 0) (Some 2%positive) [] [] s = Done s' /\
    IterativeDeepeningTimeSearcher.all_states s' ≡ₚ [1%positive; 2%positive].
Proof.
  intros s. pose proof (deepening_searcher_refines (S := DFSSearcher.t)) as L.
  destruct (@update_ok _ _ _ L (ticking 0) (Some 2%positive) [] [] s) as (s' & Hu & _ & Hp).
  - split_and!; [cbn; eval_NoDup|eval_NoDup|done].
  - split_and!; [eval_NoDup|eval_NoDup|set_solver|]. cbn. intros c ?; simplify_eq. set_solver.
  - exists s'. split; [exact Hu|]. exact Hp.
Defined.

(** [InterleavedSearcher] over searchers that keep the contract keeps it:
    they all hold the same states after each update, whichever one was asked for
    a state, and the index stays inside the list. *)
Theorem interleaved_searcher_refines {S} `{SearcherLaws S, !AnyReady S} :
  @SearcherLaws (InterleavedSearcher.t S)
    InterleavedSearcher.ops_of InterleavedSearcher.spec_of.
Proof. exact InterleavedSearcher.interleaved_laws_of. Qed.

Lemma interleaved_searcher_refines_witness :
  let s := InterleavedSearcher.Mk [dfs [1%positive; 2%positive]; dfs [2%positive; 1%positive]] 2 in
  exists s', InterleavedSearcher.update (ticking 0) (Some 1%positive) [3%positive] [1%positive] s
      = Done s' /\
    InterleavedSearcher.held s' ≡ₚ [2%positive; 3%positive].
Proof.
  intros s. pose proof (interleaved_searcher_refines (S := DFSSearcher.t)) as L.
  destruct (@update_ok _ _ _ L (ticking 0) (Some 1%positive) [3%positive] [1%positive] s)
    as (s' & Hu & _ & Hp).
  - split_and!; [done|cbn; lia|cbn; lia|cbn; lia|].
    unfold s. cbn [InterleavedSearcher.searchers]. rewrite !Forall_cons. split_and!; [eval_NoDup|done|eval_NoDup|apply Permutation_swap|done].
  - split_and!; cbn; [eval_NoDup|eval_NoDup|set_solver|]. intros c ?; simplify_eq. set_solver.
  - exists s'. split; [exact Hu|]. exact Hp.
Defined.

(** The instruction counter is 64 bits wide and a batch remembers only its
    low 32: once the program has run [2^32] instructions, a batch that has just
    started is over, whatever its instruction budget. *)
Theorem batching_budget_truncated {S} (o : Oracle) (base : S) budget c start :
  0 < budget < 2 ^ 32 -> 2 ^ 32 <= o_instructions o < 2 ^ 64 ->
  (BatchingSearcher.expired o
    (BatchingSearcher.Mk base 0 budget (Some c) start (u32 (o_instructions o)))).1 = true.
Proof.
  intros Hb Hi. unfold BatchingSearcher.expired. cbn.
  rewrite (proj2 (Z.ltb_lt 0 budget)) by lia. cbn. apply Z.ltb_lt.
  pose proof (Z.div_mod (o_instructions o) (2 ^ 32)) as Hd.
  pose proof (u32_range (o_instructions o)) as Hr.
  assert (1 <= o_instructions o / 2 ^ 32) by (apply Z.div_le_lower_bound; lia).
  unfold u64, u32 in *. rewrite Z.mod_small; lia.
Qed.

(** A batch of a million instructions that has run none of them. *)
Lemma batching_budget_truncated_witness :
  (BatchingSearcher.expired (ticking (2 ^ 32 + 5))
    (BatchingSearcher.Mk (dfs [1%positive]) 0 1000000 (Some 1%positive) 0
       (u32 (2 ^ 32 + 5)))).1 = true.
Proof.
  apply (batching_budget_truncated (ticking (2 ^ 32 + 5)) (dfs [1%positive]) 1000000 1%positive 0);
    cbn; lia.
Defined.
