(* ===== verification/CGSProperties.v ===== *)
(** Properties of concrete-branch guided search and of the handlers that feed
    it, each with a small world it applies to. *)
From stdpp Require Import base list numbers gmap strings.
From Stdlib Require Import ZArith Lia.
From S2P Require Import Prelude APInt Searcher CGSWorld CGSSearcher CGSContract.
From S2P Require Import CGSExecutor CGSTargets CGSRun.
Local Open Scope Z_scope.

(** ** A small program *)

(** Every instruction is a block of its own, in one function.  Instruction 10
    is a br and instruction 11 a second one; instructions 7 and 8 are stores. *)
Definition tiny_llvm : LLVMInfo :=
  {| inst_block := fun i => i; block_function := fun _ => 1%positive;
     isBranchInst := fun i => bool_decide (i = 10%positive \/ i = 11%positive) |}.

Definition tiny_tables : CGSTables :=
  {| ID2BI := {[10 := 10%positive; 11 := 11%positive]}; ID2SI := {[7 := 7%positive; 8 := 8%positive]};
     SI2ID := {[7%positive := 7; 8%positive := 8]}; storesWithSameVar := ∅ |}.

(** One target at a time. *)
Definition tiny_options : CGSOptions := {| TargetBranchNum := 1; maxReachBranchCount := 5 |}.

#[local] Existing Instances tiny_llvm tiny_tables tiny_options.

Definition fresh_state : ExecutionState := MkState 10%positive 10%positive false false false [] ∅.

(** [icmp eq V, C] of instructions 10 and 11, where stores 7 and 8 write [V]. *)
Definition fresh_dep : BDDep := MkBDDep 0 {[7; 8]} ICMP_EQ "" 0 (OtherPred 0) 0 0 ∅.

Definition tiny_world : World :=
  MkWorld {[1%positive := fresh_state; 2%positive := fresh_state; 3%positive := fresh_state]}
    [] [] [] 1 false false false 0 ∅ {[1%positive := {[7%positive; 8%positive]}]}
    {[7 := {[10; 11]}; 8 := {[10; 11]}]} {[10 := fresh_dep; 11 := fresh_dep]}
    {[Some 10%positive := 10; Some 11%positive := 11]} ∅ ∅ [1%positive; 2%positive] [] ∅.

(** The br [i] sees the values 5 and 9, the second one constant. *)
Definition br_event (i : positive) (full : bool) : BrEvent :=
  MkBrEvent i (Some (5, 9)) (false, true) None full.

(** [world_ok] in a form that can be evaluated. *)
Definition world_check (w : World) : Prop :=
  NoDup (held w) /\ Forall (fun s => is_Some (heap w !! s)) (held w) /\
  map_Forall (fun _ e => Forall (fun b => is_Some (BDDeps w !! targetBranchID b)) (branchInfos e))
    (heap w) /\
  Forall (fun bid => is_Some (BDDeps w !! bid)) (TB w ++ PCB w) /\
  newFullyCoveredBranch w = false.

Lemma world_check_ok w : world_check w -> world_ok w.
Proof.
  intros (H1 & H2 & H3 & H4 & H5). split; [done| | | |congruence].
  - by apply Forall_forall.
  - intros s e He. by apply (map_Forall_lookup_1 _ _ s e H3).
  - by apply Forall_forall.
Qed.

#[export] Instance world_check_dec w : Decision (world_check w).
Proof. unfold world_check. apply _. Defined.

Ltac eval_prop := apply (bool_decide_unpack _); by vm_compute.

(** ** The searcher *)

Section Properties.
Context {LI : LLVMInfo} {CT : CGSTables} {CO : CGSOptions}.

(** C1. [CGSSearcher::update] after a step of the selected state: it is defined,
    the two containers together hold the states they held and the new ones
    without the removed ones, none of them twice, and [selectState] and [empty]
    agree with what is held: a state comes from [branch_states] whenever there is
    one.  Before it the containers hold distinct states that exist, waiting for
    branches that are recorded ([world_ok]); the new states exist and are new; and the
    state that ran is the one [selectState] gives, stopped at a store or at a branch
    but not at both, and has the pairs it announced ([update_ready]; for those of a
    state that was removed see [stale_announcement_undefined]). *)
Theorem CGS_update_contract current added removed w :
  world_ok w -> update_ready current w -> NoDup (held w ++ added) ->
  (forall s, s ∈ added -> is_Some (heap w !! s)) ->
  exists w', CGS_update current added removed w = Done w' /\ world_ok w' /\
    held w' ≡ₚ without removed (held w ++ added) /\
    CGS_empty w' = bool_decide (held w' = []) /\
    (held w' <> [] -> exists c, CGS_selectState w' = Done c /\ c ∈ held w' /\
      (branch_states w' <> [] -> c ∈ branch_states w')).
Proof.
  intros Hok Hr Hn Ha. destruct (CGS_update_ok current added removed w Hok Hr Hn Ha)
    as (w' & E & Hok' & Hp). exists w'. split_and!; [done..| |].
  - unfold CGS_empty, held. rewrite <- bool_decide_and. apply bool_decide_ext. by rewrite app_nil.
  - intros Hne. unfold CGS_selectState, held in *. destruct (branch_states w') as [|c l].
    + destruct (states w') as [|c l]; [done|]. exists c. cbn. split_and!; [done|set_solver|done].
    + exists c. cbn. split_and!; [done|set_solver|set_solver].
Qed.

(** C3. From an executor without branches, whatever instructions the states run
    and whenever the searcher is updated: target and waiting branches stay
    distinct, there are never more targets than the option allows, and a fully
    covered branch is neither a target nor waiting. *)
Theorem targets_invariant w w' :
  TB w = [] -> PCB w = [] -> FCB w = [] -> 0 <= TargetBranchNum ->
  targetBranchNum w = TargetBranchNum -> rtc cgs_step w w' -> targets_ok w'.
Proof.
  intros H1 H2 H3 H4 H5 Hs.
  assert (targets_ok w) as Hok by (split; rewrite ?H1, ?H2, ?H3; cbn; [constructor|lia|done|set_solver..]).
  clear -Hok Hs. induction Hs; eauto using cgs_step_ok.
Qed.

(** C2. The main loop never goes wrong: from a world without raised flags, after
    any rounds of select, run and update, as long as a state is held one is
    selected, the handler of whatever instruction it runs returns, and the update
    that reports it returns and holds exactly the states it should, provided the
    state is not removed in the step in which it announced pairs. *)
Theorem search_loop_safe w w' :
  good w -> rtc loop_step w w' -> held w' <> [] ->
  exists c, CGS_selectState w' = Done c /\ c ∈ held w' /\
    forall ev added removed w1,
      executes c added w' w1 -> event_ok c ev w1 -> fair_update added removed w' ->
      exists w2, run_event c ev w1 = Done w2 /\
        ((c ∈ removed -> newBranchNumFromStore w2 = 0) ->
         exists w3, CGS_update (Some c) added removed w2 = Done w3 /\
           held w3 ≡ₚ without removed (held w' ++ added)).
Proof.
  intros Hg Hs Hne. pose proof (loop_good _ _ Hs Hg) as Hg'.
  assert (exists c, CGS_selectState w' = Done c) as [c Hc].
  { unfold CGS_selectState, held in *. destruct (branch_states w'); cbn; [|eauto].
    destruct (states w'); [done|]. cbn. eauto. }
  exists c. split; [done|]. split; [by apply CGS_select_held|]. intros ev added removed w1 He Hev Hf.
  destruct (round_goes_on w' c ev added removed w1) as (w2 & E & Hnext); auto.
  exists w2. split; [done|]. intros Hr. destruct (Hnext Hr) as (w3 & ? & _ & ?). eauto.
Qed.


(** C29. What [isNewStoreValue] answers for a state that exists and a branch whose
    condition is recorded, when what the two caches hold of the branch is what that
    condition says ([cache_ok]; values may be in one of them or in none).  If the branch
    has an entry in the cache of invalid values, as it has once a store announced it,
    the answer is what the condition says of the stored value, found in a cache or
    judged now, and the caches stay right for the next question.  If it has none, the
    value is not judged: the answer is that it is new, the entry that is made holds this
    value as invalid, and the caches are right afterwards exactly if the condition says
    that the value does not cover the branch. *)
Theorem store_verdict_exact s bid sid w e d :
  heap w !! s = Some e -> BDDeps w !! bid = Some d -> cache_ok bid d w ->
  let v := to_signed 32 (default 0 (storeValues e !! sid)) in
  (is_Some (invalidStoreValues w !! bid) ->
     exists w', isNewStoreValue s bid sid w = Done ((judge d v).1, w') /\ cache_ok bid d w') /\
  (invalidStoreValues w !! bid = None ->
     exists w', isNewStoreValue s bid sid w = Done (true, w') /\
       invalidStoreValues w' !! bid = Some {[v]} /\ (cache_ok bid d w' <-> (judge d v).1 = false)).
Proof.
  intros He Hd Hc v. split; intros Hi; [by apply isNewStoreValue_verdict|by apply (isNewStoreValue_first s bid sid w e d)].
Qed.

(** A store of the state that runs leaves what the searcher's update needs:
    as many pairs as it announces, and the state stopped at a store only. *)
Theorem store_prepares_update c ev w e :
  heap w !! c = Some e -> (reachStore e = true -> reachBranch e = false) ->
  newBranchNumFromStore w = 0 -> (forall bid, bid ∈ TB w -> known w bid) ->
  exists w' e', on_store c ev w = Done w' /\ store_ready c w' /\
    heap w' !! c = Some e' /\ (reachStore e' = true -> reachBranch e' = false).
Proof.
  intros He Hf Hn Hk.
  destruct (on_store_announces c ev w e He Hf Hn Hk) as (w' & E & e' & He' & [_ Hb] & Hf').
  exists w', e'. split_and!; [done| |done|done]. intros e2 He2 _. rewrite He' in He2.
  simplify_eq. lia.
Qed.

(** C40. A state that is removed in the step in which it stored leaves its
    announcement behind: when the next state announces [n] pairs of its own and
    has fewer pairs than both together, the searcher iterates outside its vector.  In
    the update that removes the state the targets are not refreshed, and the next state
    stopped at a store, not at a branch, and is not removed itself. *)
Theorem stale_announcement_undefined c added removed w w1 s e n w2 removed2 :
  c ∈ removed -> updateTargetBranch w = false ->
  CGS_update (Some c) added removed w = Done w1 ->
  newBranchNumFromStore w2 = newBranchNumFromStore w1 + n ->
  heap w2 !! s = Some e -> reachStore e = true -> reachBranch e = false -> s ∉ removed2 ->
  Z.of_nat (length (branchInfos e)) < newBranchNumFromStore w + n ->
  CGS_update (Some s) [] removed2 w2 = Undefined.
Proof.
  intros Hc Hu Hw1 Hn He Hs Hb Hr Hlt.
  rewrite (removed_keeps_counter _ _ _ _ _ Hc Hu Hw1) in Hn.
  eapply stale_counter_undefined; [done..|lia].
Qed.

(** Unsigned comparisons are evaluated on the signed readings of the values:
    the answer is that of the comparison exactly when both values, of 32 bits,
    have the same sign bit. *)
Theorem unsigned_compared_signed a b :
  0 <= a < 2 ^ 32 -> 0 <= b < 2 ^ 32 ->
  pred_holds ICMP_ULT (to_signed 32 a) (to_signed 32 b) = (a <? b) <->
  (a <? 2 ^ 31) = (b <? 2 ^ 31).
Proof.
  intros Ha Hb. unfold pred_holds, to_signed.
  destruct (Z.ltb_spec a (2 ^ (32 - 1))), (Z.ltb_spec b (2 ^ (32 - 1))),
    (Z.ltb_spec a (2 ^ 31)), (Z.ltb_spec b (2 ^ 31)), (Z.ltb_spec a b); try lia;
    (split; [try done; intros E; exfalso; revert E|intros _]); try done;
    lazymatch goal with
    | |- (?x <? ?y) = _ => destruct (Z.ltb_spec x y); try done; lia
    | |- (?x <? ?y) = _ -> _ => destruct (Z.ltb_spec x y); try done; lia
    end.
Qed.

End Properties.

(** ** Runs of the small program *)

(** The world a computation ended in. *)
Definition ended (r : outcome World) (w : World) : World :=
  match r with Done w' => w' | _ => w end.

(** State 1 takes one side of the br 10, and then of the br 11. *)
Definition one_target : World :=
  ended (on_concrete_br 1%positive (br_event 10%positive false) tiny_world) tiny_world.
Definition two_targets : World :=
  ended (on_concrete_br 1%positive (br_event 11%positive false) one_target) one_target.
Definition one_covered : World :=
  ended (on_concrete_br 1%positive (br_event 10%positive true) two_targets) two_targets.

Example run_targets :
  (TB one_target, PCB one_target) = ([10], []) /\ (TB two_targets, PCB two_targets) = ([10], [11]) /\
  (TB one_covered, PCB one_covered, FCB one_covered) = ([11], [], [10]).
Proof. by vm_compute. Qed.

(** State 1 forks state 3 while branch 10 becomes a target. *)
Lemma CGS_update_contract_witness :
  exists w', CGS_update (Some 1%positive) [3%positive] [] one_target = Done w' /\
    held w' ≡ₚ [1%positive; 2%positive; 3%positive].
Proof.
  destruct (CGS_update_contract (Some 1%positive) [3%positive] [] one_target)
    as (w' & E & _ & Hp & _).
  - apply world_check_ok. eval_prop.
  - split; [by vm_compute|]. split; intros e He; vm_compute in He; injection He as <-; done.
  - eval_prop.
  - apply Forall_forall. eval_prop.
  - exists w'. split; [exact E|]. rewrite Hp. eval_prop.
Defined.

Lemma tiny_good : good tiny_world.
Proof.
  split; [apply world_check_ok; eval_prop| |done|].
  - intros i bid H. change (BI2ID tiny_world) with ({[Some 10%positive := 10; Some 11%positive := 11]} : gmap (option positive) Z) in H.
    apply lookup_insert_Some in H as [[_ <-]|[_ [_ <-]%lookup_singleton_Some]]; split; eexists; by vm_compute.
  - intros s e _ He. change (heap tiny_world) with
      ({[1%positive := fresh_state; 2%positive := fresh_state; 3%positive := fresh_state]} : gmap positive ExecutionState) in He.
    apply lookup_insert_Some in He as [[_ <-]|[_ He]]; [done|].
    apply lookup_insert_Some in He as [[_ <-]|[_ [_ <-]%lookup_singleton_Some]]; done.
Qed.

(** State 1 forks state 3 as it takes one side of the br 10. *)
Lemma search_loop_safe_witness :
  exists w2, run_event 1%positive (EvBr (br_event 10%positive false)) tiny_world = Done w2 /\
    exists w3, CGS_update (Some 1%positive) [3%positive] [] w2 = Done w3 /\
      held w3 ≡ₚ [1%positive; 2%positive; 3%positive].
Proof.
  destruct (search_loop_safe tiny_world tiny_world tiny_good (rtc_refl _ _)) as (c & Hc & _ & H); [done|].
  vm_compute in Hc. injection Hc as <-.
  destruct (H (EvBr (br_event 10%positive false)) [3%positive] [] tiny_world) as (w2 & E & Hnext).
  - split; [by exists (heap tiny_world)|done|]. intros s e Hs He. vm_compute in He. injection He as <-.
    exists fresh_state. split; [|done]. destruct Hs as [->|Hs]; [by vm_compute|].
    apply list_elem_of_singleton in Hs as ->. by vm_compute.
  - split_and!; [done|done|done|]. intros e He. vm_compute in He. by injection He as <-.
  - split; [eval_prop|set_solver].
  - destruct Hnext as (w3 & E3 & Hp); [set_solver|]. exists w2. split; [exact E|]. exists w3.
    split; [exact E3|]. rewrite Hp. eval_prop.
Defined.

Lemma targets_invariant_witness : targets_ok one_covered.
Proof.
  apply (targets_invariant tiny_world); [done|done|done|cbn; lia|done|].
  eapply rtc_l; [apply (step_br 1%positive (br_event 10%positive false) _ one_target)|].
  { intros bid Hb. vm_compute in Hb. injection Hb as <-. split; [intros H; cbn in H; set_solver|].
    intros d Hd. vm_compute in Hd. by injection Hd as <-. }
  { by vm_compute. }
  eapply rtc_l; [apply (step_br 1%positive (br_event 11%positive false) _ two_targets)|].
  { intros bid Hb. vm_compute in Hb. injection Hb as <-. split; [intros H; cbn in H; set_solver|].
    intros d Hd. vm_compute in Hd. by injection Hd as <-. }
  { by vm_compute. }
  apply rtc_once, (step_br 1%positive (br_event 10%positive true)).
  { intros bid Hb. vm_compute in Hb. injection Hb as <-. split; [done|].
    intros d Hd. vm_compute in Hd. by injection Hd as <-. }
  by vm_compute.
Defined.


(** State 1 stored 5 through store 7. *)
Definition stored_state : ExecutionState := MkState 7%positive 7%positive false true false
  [MkBranchInfo 7 10] {[7 := 5]}.
Definition asked_world : World :=
  set_invalidStoreValues {[10 := {[4]}]}
    (set_heap {[1%positive := stored_state]} (set_TB [10] one_target)).
Definition asked_dep : BDDep := MkBDDep 0 {[7; 8]} ICMP_EQ "" 0 ICMP_EQ 5 9 ∅.

(** The same store before any was announced. *)
Definition first_world : World := set_invalidStoreValues ∅ asked_world.

Lemma store_verdict_exact_witness :
  (exists w', isNewStoreValue 1%positive 10 7 asked_world = Done (false, w') /\
    cache_ok 10 asked_dep w') /\
  exists w', isNewStoreValue 1%positive 10 7 first_world = Done (true, w') /\
    invalidStoreValues w' !! 10 = Some {[5]} /\ cache_ok 10 asked_dep w'.
Proof.
  split.
  - apply (store_verdict_exact 1%positive 10 7 asked_world stored_state asked_dep).
    + by vm_compute.
    + by vm_compute.
    + split; intros v Hv.
      * assert (v = 4) as -> by (apply (elem_of_singleton (C := gset Z) v 4); exact Hv). by vm_compute.
      * exfalso. exact (not_elem_of_empty (C := gset Z) v Hv).
    + eexists. by vm_compute.
  - destruct (store_verdict_exact 1%positive 10 7 first_world stored_state asked_dep) as [_ H].
    + by vm_compute.
    + by vm_compute.
    + split; intros v Hv; exfalso; exact (not_elem_of_empty (C := gset Z) v Hv).
    + destruct (H ltac:(by vm_compute)) as (w' & E & Hi & Hc). exists w'.
      split; [exact E|]. split; [exact Hi|]. apply Hc. by vm_compute.
Defined.

Lemma store_prepares_update_witness :
  exists w' e', on_store 1%positive (MkStoreEvent 7%positive (Some 6)) one_target = Done w' /\
    store_ready 1%positive w' /\ heap w' !! 1%positive = Some e' /\
    (reachStore e' = true -> reachBranch e' = false).
Proof.
  apply (store_prepares_update 1%positive (MkStoreEvent 7%positive (Some 6)) one_target fresh_state).
  - by vm_compute.
  - done.
  - done.
  - apply Forall_forall. unfold known. eval_prop.
Defined.

(** State 1 stores and is removed; state 2 stores. *)
Definition stored_once : World :=
  ended (on_store 1%positive (MkStoreEvent 7%positive (Some 6)) one_target) one_target.
Definition removed_once : World :=
  ended (CGS_update (Some 1%positive) [] [1%positive] stored_once) stored_once.
Definition stored_again : World :=
  ended (on_store 2%positive (MkStoreEvent 8%positive (Some 6)) removed_once) removed_once.

Lemma stale_announcement_undefined_witness :
  CGS_selectState stored_again = Done 2%positive /\
  CGS_update (Some 2%positive) [] [] stored_again = Undefined.
Proof.
  split; [by vm_compute|].
  apply (stale_announcement_undefined 1%positive [] [1%positive] stored_once removed_once
    2%positive (MkState 10%positive 10%positive false true false [MkBranchInfo 8 10] {[8 := 6]})
    1 stored_again []); try (by vm_compute); [set_solver|set_solver].
Defined.

(** [4294967295] is above [1], and [-1] is below it. *)
Lemma unsigned_compared_signed_witness :
  pred_holds ICMP_ULT (to_signed 32 (2 ^ 32 - 1)) (to_signed 32 1) <> (2 ^ 32 - 1 <? 1).
Proof.
  intros H. apply unsigned_compared_signed in H; [by vm_compute in H|lia|lia].
Defined.
