(* ===== verification/MemoryOperationProperties.v ===== *)
(** Loads and stores of the executor, on every run of the path.

    Deterministic allocation: the objects are cut from one region and stay apart. *)
From stdpp Require Import base numbers list gmap sorting.
From Stdlib Require Import ZArith Lia Sorting.Sorted.
From S2P Require Import Prelude APInt Bits RNG Expr Semantics ConstantOps ExprCreate CreateSound OpsSound ExprWeight Visitor Searcher FindReads Solver Constraints Evaluator PTree PTreeShape RandomPath MapOfSets ImmutableTree Memory MemorySound MemoryObjects MemoryManager AddressSpace CopyOnWrite TimingSolver SeedInfo ExecutorState Resolution Fork ExecutorMemory Resolutions ForkSound MemoryAccess MemoryOperation FiniteSolver Samples ProcessTreeProperties ExecutorProperties MemoryProperties.
Local Open Scope Z_scope.

Section Properties.
Context {AP : APIntOps} {APL : APIntLaws} {AH : ArrayHeap} {OP : ExprOptions} {VO : VisitorOptions} {CO : ConstraintOptions} {TO : TimingOptions}.
Context {PO : PTreeOptions} {EO : ExecutorOptions} {TC : TargetContext} {MO : MemoryOptions} {AC : ArrayCache} {ACL : ArrayCacheLaws} {OO : MemoryOperationOptions}.
Context {S : Type} {ops : SolverImpl S} {sol : SoundSolver S} {clock : Clock S}.
Context (default_opt : ConstArrayOpt = false).

(** C7. A load or a store through a symbolic pointer is exact where nothing is
    concretized and no path is dropped ([exact_memory]): the solver is sound and always
    answers, no query times out, there are no seeds, no replay and no limits on forks
    (as in [forking]), pointers have 32 to 64 bits, -simplify-sym-indices is off and
    -max-sym-array-size is 0.  The executor is in good order and the state before the
    access is fit for it ([ready]): it runs and may fork, and has a stack frame for the
    register of a load; its objects do not overlap and
    lie in the address range, and their states are in good order; the pointer is
    well-formed and divides nothing by zero on the path, and no offset of a byte folds to
    a constant unless the offset of the access does ([unfolding]); the access has a
    width of whole bytes, or of one bit, below [2^32 - 7] bits; and the key for copy on
    write has room for one fork per object.  Then, with enough fuel,
    [executeMemoryOperation] returns, on its fast path as well as when it forks a
    state for each object the pointer may point into, and: every run of the path in
    which the access is inside an object that allows it is a run of a state that goes
    on, in which the register has the value of these bytes, or exactly these bytes
    have the value that was stored, and the rest of the memory is as it was; every
    state that goes on is of this kind, so that the runs in which the access is in no
    object have come to an end; and the other states, and what they see of the object
    states they share, are as they were. *)
Theorem memory_operation_exact (x : Executor S) p e op a : ready x p e op a (pairs (objects (addressSpace e))) -> exact_memory ->
  MemoryOperations.op_width op < 2 ^ 32 - 7 ->
  exists x', runs (fun fuel => MemoryOperations.executeMemoryOperation fuel p op a) x tt x' /\ operation_done p x e op a x'.
Proof. intros Hrd Hem Hw. by apply (operation_runs default_opt Hem). Qed.

End Properties.

(** ** On concrete inputs *)

Section Witness.
#[local] Existing Instance encoded_heap.
#[local] Existing Instance encoding_cache.
#[local] Existing Instance encoding_laws.
#[local] Existing Instance ideal_solver.
#[local] Existing Instance ideal_sound.
#[local] Existing Instance default_options.
#[local] Existing Instance little_64.
#[local] Existing Instance lazy_arrays.
#[local] Instance hashing : VisitorOptions := {| UseVisitorHash := true |}.
#[local] Instance simplified : TimingOptions := {| simplifyExprs := true |}.
#[local] Instance rewriting : ConstraintOptions := {| RewriteEqualities := true |}.
#[local] Instance whole_tree : PTreeOptions := {| CompressProcessTree := false |}.
#[local] Instance no_timeout : Clock unit := {| past_timeout _ := false |}.
#[local] Instance unlimited : ExecutorOptions := {|
  MaxForks := 2 ^ 32 - 1; MaxDepth := 0; MaxMemoryInhibit := true; atMemoryLimit := false; inhibitForking := false; OnlyReplaySeeds := false;
  ivcEnabled := false; replayPath := None; replayKTest := None; static_limit_reached := false |}.
#[local] Instance as_they_are : MemoryOperationOptions := {|
  SimplifySymIndices := false; MaxSymArraySize := 0 |}.

(** A pointer to one of the 256 bytes from 4096 on; the four bytes there are 1 to 4,
    in two objects. *)
Definition byte_pointer : Expr := BinaryExpr Add (ConstantExpr (MkAPInt 64 4096)) (CastExpr ZExt input_0 64).
Definition object_state (mo : MemoryObject) (bytes : list Z) : ObjectState := MkOS 0 mo bytes None None None (MkUpdates None UNull) (mo_size mo) false.

Lemma three_bound : exists s, reachable s /\ s = MkSystem
  {[ 1%positive := with_owner 1 (object_state low [1; 2]); 2%positive := with_owner 1 (object_state high [3; 4]); 3%positive := with_owner 1 (object_state far (replicate 16 0)) ]}
  {[ 1%positive := three_objects ]}.
Proof.
  eexists. split.
  - eapply (reachable_step 1 (Bind high (object_state high [3; 4]))); [eapply (reachable_step 1 (Bind low (object_state low [1; 2])));
      [eapply (reachable_step 1 (Bind far (object_state far (replicate 16 0)))); [apply reachable_initial|]|]|].
    + eapply (step_bind 1 initial_system AddressSpace.new far 3%positive); by vm_compute.
    + eapply (step_bind 1 _ _ low 1%positive); by vm_compute.
    + eapply (step_bind 1 _ _ high 2%positive); by vm_compute.
  - by vm_compute.
Qed.

Definition mem_state : ExecutionState := MkES 1 1 [MkFrame 1 [] ∅] 0 three_objects [] ∅ [] ∅ 1 false false.
Definition mem_store : gmap positive ObjectState :=
  {[ 1%positive := with_owner 1 (object_state low [1; 2]); 2%positive := with_owner 1 (object_state high [3; 4]); 3%positive := with_owner 1 (object_state far (replicate 16 0)) ]}.
Definition mem_executor : Executor unit :=
  MkExecutor {[ 1%positive := mem_state ]} mem_store 0 tt (PTree.new 1) {[ 1%positive ]} [] [] ∅ zero_rng 0 0 2 [] (MkMM [] 0 0 0 4 0).

Lemma mem_ok : exec_ok mem_executor.
Proof.
  destruct three_bound as (s & Hs%reachable_ok & ->). split; cbn -[zero_rng].
  - intros p e [<- <-]%lookup_singleton_Some. split; [constructor|by exists (fun _ _ => 0); intros c ?%elem_of_nil|constructor].
  - unfold memory. cbn. rewrite map_fmap_singleton. exact Hs.
  - done.
  - apply zero_rng_ok.
  - done.
  - destruct (ProcessTreeProperties.shows_start 1) as [Ht Hl _ _]. split; [|done]. intros p. rewrite Hl. cbn. rewrite elem_of_singleton.
    split; [intros ->; rewrite lookup_singleton_eq; by eexists|intros [e [<- _]%lookup_singleton_Some]; done].
  - intros p. rewrite elem_of_singleton. split; [intros [e [<- _]%lookup_singleton_Some]; by left|].
    intros [-> |H]; [rewrite lookup_singleton_eq; by eexists|by apply elem_of_nil in H].
  - by intros p ?%elem_of_nil.
  - by intros p ?%elem_of_nil.
  - constructor.
  - constructor.
Qed.

Lemma mem_running q d : running mem_executor q d <-> q = 1%positive /\ d = mem_state.
Proof.
  unfold running. cbn. split; [by intros [[<- <-]%lookup_singleton_Some _]|]. intros [-> ->]. split; [by rewrite lookup_singleton_eq|by intros ?%elem_of_nil].
Qed.

Lemma three_in x : x ∈ pairs (objects three_objects) -> x = (low, 1%positive) \/ x = (high, 2%positive) \/ x = (far, 3%positive).
Proof. rewrite three_pairs, !elem_of_cons, elem_of_nil. naive_solver. Qed.

Lemma mem_healthy : healthy mem_executor mem_state.
Proof.
  pose proof three_resolvable as [_ _ _ Hl Hf]. split; [exact Hl|exact Hf|]. intros mo o Ho. change (view mem_store three_objects (address mo) = Some (mo, o)) in Ho.
  unfold view in Ho. destruct (ImmutableTree.lookup (address mo) (objects three_objects)) as [y|] eqn:El; [|done].
  apply lookup_address in El as [Hy _]; [|apply Hl]. destruct (three_in y Hy) as [-> |[-> | ->]]; vm_compute in Ho; injection Ho as <- <-;
    (split; [|done]); (apply concrete_ok; try done; cbn; repeat constructor; lia).
Qed.

Lemma byte_pointer_unfolding mo : mo = low \/ mo = high \/ mo = far -> unfolding byte_pointer mo 1.
Proof.
  intros Hmo off o Eoff Eo _ i e Hi. assert (i = 0) as -> by lia. revert Eoff Eo.
  destruct Hmo as [-> |[-> | ->]]; (intros Eoff; vm_compute in Eoff; injection Eoff as <-; intros Eo; vm_compute in Eo; injection Eo as <-; intros Ee; vm_compute in Ee; by injection Ee as <-).
Qed.

Lemma mem_ready : ready mem_executor 1 mem_state (MemRead 8 7) byte_pointer (pairs (objects (addressSpace mem_state))).
Proof.
  split; try done.
  - apply mem_ok.
  - by apply mem_running.
  - apply mem_healthy.
  - split; [by right|done].
  - intros y Hy. split; [done|]. apply byte_pointer_unfolding. destruct (three_in y Hy) as [-> |[-> | ->]]; auto.
Qed.

Lemma mem_exact : exact_memory.
Proof. split; try done. split; try done. apply ideal_total. Qed.

(** For the input 3 the state goes on and the register is the byte 4; no state goes on
    for the input 9. *)
Lemma memory_operation_exact_witness : exists x' q e v, runs (fun fuel => MemoryOperations.executeMemoryOperation fuel 1 (MemRead 8 7) byte_pointer) mem_executor tt x' /\
  running x' q e /\ sat input_is_3 (constraints e) /\ (forall sf frames, stack e = sf :: frames -> locals sf !! 7 = Some v) /\ eval input_is_3 v = 4 /\
  forall q' e', running x' q' e' -> ~ sat (fun _ _ => 9) (constraints e').
Proof.
  destruct (memory_operation_exact default_off mem_executor 1 mem_state (MemRead 8 7) byte_pointer mem_ready mem_exact) as (x' & R & [_ _ Hsnd Hcmp]); [done|].
  assert (forall q, derived 1 mem_executor q) as Hder.
  { intros q. destruct (decide (q = 1%positive)) as [-> |Hq]; [by left|]. right. by intros e [-> _]%mem_running. }
  destruct (Hcmp input_is_3 (high, 2%positive) (object_state high [3; 4])) as (q & e & Hq & Hr & Hs).
  - by intros c ?%elem_of_nil.
  - change ((high, 2%positive) ∈ pairs (objects three_objects)). rewrite three_pairs. right. by left.
  - by vm_compute.
  - by vm_compute.
  - done.
  - destruct (Hsnd q e input_is_3 Hq Hr Hs) as (_ & y & Hy & Hin & o & Ho & v & [_ _ Hst _ _ _ _] & _ & Ev). exists x', q, e, v. split; [exact R|]. split_and!.
    + done.
    + done.
    + intros sf frames E. rewrite Hst in E. injection E as <- <-. cbn. by rewrite lookup_insert_eq.
    + rewrite Ev. destruct (three_in y Hy) as [-> |[-> | ->]]; vm_compute in Hin; [by destruct Hin| |by destruct Hin]. vm_compute in Ho. injection Ho as <-. by vm_compute.
    + intros q' e' Hr' Hs'. destruct (Hsnd q' e' _ (Hder q') Hr' Hs') as (_ & z & Hz & Hin9 & _).
      destruct (three_in z Hz) as [-> |[-> | ->]]; vm_compute in Hin9; by destruct Hin9.
Defined.
End Witness.

(** The bytes that an object takes: one at least. *)
Definition extent (mo : MemoryObject) : Z := Z.max (mo_size mo) 1.

(** What LLVM promises: the next multiple of the alignment, and the powers of two. *)
Class MathExtras (SA : SystemAllocator) : Prop := {
  alignTo_spec v a : 0 <= v -> 0 < a -> v + a - 1 < 2 ^ 64 -> v <= alignTo v a < v + a /\ alignTo v a mod a = 0;
  isPowerOf2_spec x : isPowerOf2_64 x = true <-> exists n, 0 <= n /\ x = 2 ^ n
}.

Section Deterministic.
Context {AO : AllocationOptions} {SA : SystemAllocator} {ME : MathExtras SA}.

(** A history: the objects that were ever allocated with their alignments, the oldest
    first, and the manager.  Sizes fit [unsigned]. *)
Inductive manages : list (MemoryObject * Z) -> MemoryManager -> Prop :=
| manages_new m : MemoryManager.new = Done m -> manages [] m
| manages_alloc h m size isLocal isGlobal site alignment mo m' : manages h m -> 0 <= size < 2 ^ 32 -> 0 <= alignment < 2 ^ 32 ->
    MemoryManager.allocate size isLocal isGlobal site alignment m = (Some mo, m') -> manages (h ++ [(mo, alignment)]) m'
| manages_fail h m size isLocal isGlobal site alignment m' : manages h m -> 0 <= size < 2 ^ 32 -> 0 <= alignment < 2 ^ 32 ->
    MemoryManager.allocate size isLocal isGlobal site alignment m = (None, m') -> manages h m'
| manages_free h m mo : manages h m -> manages h (MemoryManager.markFreed mo m).

(** The second comes after the first and its red zone. *)
Definition above (x y : MemoryObject * Z) : Prop := address x.1 + extent x.1 + RedzoneSize <= address y.1.

Record region_ok (h : list (MemoryObject * Z)) (m : MemoryManager) : Prop := MkRegion {
  rg_start : 0 < deterministicSpace m <= nextFreeSlot m;
  rg_space : 0 <= spaceSize m;
  rg_next : nextFreeSlot m <= deterministicSpace m + spaceSize m + RedzoneSize;
  rg_end : deterministicSpace m + spaceSize m + RedzoneSize + 2 ^ 34 <= 2 ^ 64;
  rg_below x : x ∈ h -> address x.1 + extent x.1 + RedzoneSize <= nextFreeSlot m;
  rg_inside x : x ∈ h -> deterministicSpace m <= address x.1 /\ address x.1 + extent x.1 < deterministicSpace m + spaceSize m;
  rg_aligned x : x ∈ h -> address x.1 mod x.2 = 0;
  rg_apart : StronglySorted above h;
  rg_live mo : mo ∈ mm_objects m -> mo ∈ h.*1
}.

Lemma power_pos a : isPowerOf2_64 a = true -> 0 < a.
Proof. intros (n & Hn & ->)%isPowerOf2_spec. by apply Z.pow_pos_nonneg. Qed.

(** Where the next object goes. *)
Lemma deterministic_address_spec size a m : 0 < deterministicSpace m <= nextFreeSlot m -> 0 <= RedzoneSize -> 0 <= spaceSize m ->
  nextFreeSlot m <= deterministicSpace m + spaceSize m + RedzoneSize -> deterministicSpace m + spaceSize m + RedzoneSize + 2 ^ 34 <= 2 ^ 64 ->
  0 <= size < 2 ^ 32 -> 0 < a < 2 ^ 32 -> exists addr, nextFreeSlot m <= addr < nextFreeSlot m + 2 * a /\ addr mod a = 0 /\
    MemoryManager.deterministic_address size a m =
      if addr + Z.max size 1 <? deterministicSpace m + spaceSize m
      then (addr, MkMM (mm_objects m) (deterministicSpace m) (addr + Z.max size 1 + RedzoneSize) (spaceSize m) (counter m) (calls m)) else (0, m).
Proof.
  intros Hs Hz Hsp Hn He Hsize Ha. destruct (alignTo_spec (nextFreeSlot m + a - 1) a) as [H1 H2]; [lia..|].
  exists (alignTo (nextFreeSlot m + a - 1) a). split_and!; [lia|lia|done|]. unfold MemoryManager.deterministic_address, u64.
  rewrite (Z.mod_small (nextFreeSlot m + a - 1)) by lia. rewrite (Z.mod_small (_ + Z.max size 1)), (Z.mod_small (deterministicSpace m + spaceSize m)) by lia.
  destruct (Z.ltb_spec (alignTo (nextFreeSlot m + a - 1) a + Z.max size 1) (deterministicSpace m + spaceSize m)); [|done].
  by rewrite Z.mod_small by lia.
Qed.

Context (deterministic : DeterministicAllocation = true) (redzone : 0 <= RedzoneSize).

(** The object that [allocate] gives, and the manager after it. *)
Lemma allocate_spec size l g site a m mo m' : 0 < deterministicSpace m <= nextFreeSlot m -> 0 <= spaceSize m ->
  nextFreeSlot m <= deterministicSpace m + spaceSize m + RedzoneSize -> deterministicSpace m + spaceSize m + RedzoneSize + 2 ^ 34 <= 2 ^ 64 ->
  0 <= size < 2 ^ 32 -> 0 <= a < 2 ^ 32 -> MemoryManager.allocate size l g site a m = (Some mo, m') ->
  nextFreeSlot m <= address mo /\ mo_size mo = size /\ address mo mod a = 0 /\ address mo + extent mo < deterministicSpace m + spaceSize m /\
  m' = MkMM (mm_objects m ++ [mo]) (deterministicSpace m) (address mo + extent mo + RedzoneSize) (spaceSize m) (counter m + 1) (calls m).
Proof.
  intros Hs Hsp Hn He Hsize Ha. unfold MemoryManager.allocate. destruct (NullOnZeroMalloc && (size =? 0)); [done|].
  destruct (isPowerOf2_64 a) eqn:Epow; [cbn [negb]|done]. assert (0 < a) as Ha' by by apply power_pos.
  rewrite deterministic. destruct (deterministic_address_spec size a m) as (addr & Haddr & Hmod & ->); [done|done|lia..|].
  destruct (Z.ltb_spec (addr + Z.max size 1) (deterministicSpace m + spaceSize m)) as [Hlt|]; [|done].
  destruct (Z.eqb_spec addr 0); [lia|]. intros [= <- <-]. unfold extent, MemoryManager.add_object, u32. cbn. rewrite Z.mod_small by lia. split_and!; try done; lia.
Qed.

Lemma StronglySorted_app_one {A} (R : A -> A -> Prop) l x : StronglySorted R l -> (forall y, y ∈ l -> R y x) -> StronglySorted R (l ++ [x]).
Proof.
  intros Hs Hx. induction Hs as [|y l Hs IH Hy]; cbn; [repeat constructor|]. constructor; [apply IH; intros z Hz; apply Hx; by right|].
  apply Forall_app. split; [done|]. constructor; [apply Hx; by left|constructor].
Qed.

Lemma region_alloc h m size l g site a mo m' : region_ok h m -> 0 <= size < 2 ^ 32 -> 0 <= a < 2 ^ 32 ->
  MemoryManager.allocate size l g site a m = (Some mo, m') -> region_ok (h ++ [(mo, a)]) m'.
Proof.
  intros [R1 R0 R2 R3 R4 R5 R6 R7 R8] Hs Ha E. destruct (allocate_spec size l g site a m mo m' R1 R0 R2 R3 Hs Ha E) as (A1 & A2 & A3 & A4 & ->).
  assert (1 <= extent mo) as Hext by (unfold extent; lia).
  assert (forall x (P : MemoryObject * Z -> Prop), (forall y, y ∈ h -> P y) -> P (mo, a) -> x ∈ h ++ [(mo, a)] -> P x) as Hall.
  { intros x P H1 H2 [Hx| ->%list_elem_of_singleton]%elem_of_app; auto. }
  split; cbn; try lia.
  - intros x. apply (Hall x (fun x => address x.1 + extent x.1 + RedzoneSize <= address mo + extent mo + RedzoneSize)); [|cbn; lia]. intros y Hy. specialize (R4 y Hy). lia.
  - intros x. apply (Hall x (fun x => deterministicSpace m <= address x.1 /\ address x.1 + extent x.1 < deterministicSpace m + spaceSize m)); [done|cbn; lia].
  - intros x. by apply (Hall x (fun x => address x.1 mod x.2 = 0)).
  - apply StronglySorted_app_one; [done|]. intros y Hy. unfold above. cbn. specialize (R4 y Hy). lia.
  - intros o. rewrite fmap_app, !elem_of_app. cbn. intros [Ho|Ho]; [left; by apply R8|by right].
Qed.

(** A failure changes nothing. *)
Lemma region_fail h m size l g site a m' : region_ok h m -> 0 <= size < 2 ^ 32 -> 0 <= a < 2 ^ 32 ->
  MemoryManager.allocate size l g site a m = (None, m') -> m' = m.
Proof.
  intros [R1 R0 R2 R3 _ _ _ _ _] Hs Ha. unfold MemoryManager.allocate. destruct (NullOnZeroMalloc && (size =? 0)); [congruence|].
  destruct (isPowerOf2_64 a) eqn:Epow; cbn [negb]; [|congruence]. assert (0 < a) as Ha' by by apply power_pos.
  rewrite deterministic. destruct (deterministic_address_spec size a m) as (addr & Haddr & _ & ->); [done|done|lia..|].
  destruct (addr + Z.max size 1 <? _); [|rewrite Z.eqb_refl; congruence]. destruct (Z.eqb_spec addr 0); [lia|done].
Qed.

Lemma region_free h m mo : region_ok h m -> region_ok h (MemoryManager.markFreed mo m).
Proof. intros []. split; try done. cbn. intros o [_ Ho]%list_elem_of_filter. auto. Qed.

(** The region has room at the end of the address space. *)
Definition region_fits : Prop :=
  forall m, MemoryManager.new = Done m -> 0 < deterministicSpace m /\ deterministicSpace m + spaceSize m + RedzoneSize + 2 ^ 34 <= 2 ^ 64.

Lemma region_new m : region_fits -> MemoryManager.new = Done m -> region_ok [] m.
Proof.
  intros Hfit E. destruct (Hfit m E) as [H1 H2]. unfold MemoryManager.new in E. rewrite deterministic in E.
  pose proof (u32_range (DeterministicAllocationSize * 1024 * 1024)) as Hu.
  destruct (mmap _ _) as [s|]; [|done]. destruct (_ && _); [done|]. injection E as <-. cbn in *.
  split; cbn; try lia; try (intros x Hx; by apply elem_of_nil in Hx). constructor.
Qed.

Lemma manages_region h m : region_fits -> manages h m -> region_ok h m.
Proof.
  intros Hfit H. induction H as [m E|h m size l g site a mo m' _ IH Hs Ha E|h m size l g site a m' _ IH Hs Ha E|h m mo _ IH].
  - by apply region_new.
  - eapply region_alloc; [exact IH|exact Hs|exact Ha|exact E].
  - by rewrite (region_fail h m size l g site a m' IH Hs Ha E).
  - by apply region_free.
Qed.

Lemma sorted_lookup {A} (R : A -> A -> Prop) l i j x y : StronglySorted R l -> l !! i = Some x -> l !! j = Some y -> (i < j)%nat -> R x y.
Proof.
  intros Hs. revert i j. induction Hs as [|z l Hs IH Hz]; intros i j Hi Hj Hlt; [done|]. destruct j as [|j]; [lia|]. destruct i as [|i]; cbn in *.
  - injection Hi as <-. rewrite Forall_forall in Hz. apply Hz. by eapply list_elem_of_lookup_2.
  - apply (IH i j); [done|done|lia].
Qed.


End Deterministic.

(** ** With the options of the program *)

Definition default_allocation : AllocationOptions := {|
  DeterministicAllocation := true; DeterministicAllocationSize := 100; NullOnZeroMalloc := false; RedzoneSize := 10; DeterministicStartAddress := 0x7ff30000000 |}.

(** The system gives the region where it is wanted. *)
Definition willing_system : SystemAllocator := {|
  sys_alloc _ _ _ := 0; mmap a _ := Some a;
  alignTo v a := u64 (u64 (v + a - 1) / a * a);
  isPowerOf2_64 x := (0 <? x) && (x =? 2 ^ Z.log2 x) |}.

Lemma willing_math : MathExtras willing_system.
Proof.
  split.
  - intros v a Hv Ha Hlt. cbn. unfold u64. rewrite (Z.mod_small (v + a - 1)) by lia.
    pose proof (Z.div_mod (v + a - 1) a ltac:(lia)) as E. pose proof (Z.mod_pos_bound (v + a - 1) a Ha) as B.
    rewrite Z.mod_small by lia. split; [lia|]. by apply Z.mod_mul; lia.
  - intros x. cbn. rewrite andb_true_iff, Z.ltb_lt, Z.eqb_eq. split.
    + intros [Hx E]. exists (Z.log2 x). split; [apply Z.log2_nonneg|done].
    + intros (n & Hn & ->). rewrite Z.log2_pow2 by done. split; [by apply Z.pow_pos_nonneg|done].
Qed.

Section Concrete.
#[local] Existing Instance default_allocation.
#[local] Existing Instance willing_system.
#[local] Existing Instance willing_math.

Lemma default_fits : region_fits.
Proof. intros m E. vm_compute in E. injection E as <-. by vm_compute. Qed.

Definition fresh_manager : MemoryManager := MkMM [] 0x7ff30000000 0x7ff30000000 (100 * 1024 * 1024) 0 0.

(** What an allocation gives, if it gives something. *)
Definition allocated (size : Z) (m : MemoryManager) : option (MemoryObject * MemoryManager) :=
  match MemoryManager.allocate size false false 1 8 m with (Some mo, m) => Some (mo, m) | (None, _) => None end.

Lemma allocated_manages h size m mo m' : manages h m -> 0 <= size < 2 ^ 32 -> allocated size m = Some (mo, m') -> manages (h ++ [(mo, 8)]) m'.
Proof.
  intros Hm Hs E. unfold allocated in E. destruct (MemoryManager.allocate size false false 1 8 m) as [[o|] m1] eqn:Ea; [|done]. injection E as <- <-.
  by eapply (manages_alloc h m size false false 1 8).
Qed.


(** Not so for sizes near 2^64, as of [malloc(-100)]: the end of the object is computed
    modulo 2^64 and seems to be in the region, the next free address goes back, and the
    next object is inside one that is live. *)
Lemma huge_allocation_overlaps : exists x m1 y m2 z m3, allocated 200 fresh_manager = Some (x, m1) /\ allocated (2 ^ 64 - 100) m1 = Some (y, m2) /\
  allocated 8 m2 = Some (z, m3) /\ mo_size y = 2 ^ 32 - 100 /\ address x < address z /\ address z + mo_size z <= address x + mo_size x.
Proof.
  do 6 eexists. split; [vm_compute; reflexivity|]. split; [vm_compute; reflexivity|]. split; [vm_compute; reflexivity|].
  split; [vm_compute; reflexivity|]. split; vm_compute; [reflexivity|discriminate].
Qed.
End Concrete.
