(* ===== verification/STPProperties.v ===== *)
(** The theorems of the core solver: constants for products and quotients, the
    translation of expressions, and the answers of the solver; with terms that are their
    own values, on which they are instantiated. *)
From stdpp Require Import base numbers list strings gmap pretty.
From Stdlib Require Import ZArith Lia.
From S2P Require Import Prelude APInt Bits Expr Semantics ConstantOps ExprCreate CreateSound ExprWeight Visitor FindReads Solver Evaluator SymbolicObjects InitialValues ConstantDivision STPBuilder STPSound STPSolver Samples.
Local Open Scope Z_scope.

#[local] Existing Instance BM_ret.
#[local] Existing Instance BM_bind.

(** ** Terms that are their own values *)

Inductive TermSort : Type := SBool | SBv (w : Z) | SArray (d r : Z).

Notation values := (string -> Z -> Z).

(** A term has a value for each values of the variables; of some truth values it is
    known that they do not depend on them. *)
Record Term : Type := MkTerm { t_sort : TermSort; t_num : values -> Z; t_elements : values -> Z -> Z; t_sure : option bool }.

Definition bool_term (f : values -> bool) (sure : option bool) : Term := MkTerm SBool (fun σ => Z.b2z (f σ)) (fun _ _ => 0) sure.
Definition bv_term (w : Z) (f : values -> Z) : Term := MkTerm (SBv w) (fun σ => f σ mod 2 ^ w) (fun _ _ => 0) None.
Definition truth (t : Term) (σ : values) : bool := negb (t_num t σ =? 0).
Definition width (t : Term) : Z := match t_sort t with SBv w => w | _ => 0 end.

Definition operation (w : Z) (f : Z -> Z -> Z) (a b : Term) : Term := bv_term w (fun σ => f (t_num a σ) (t_num b σ)).
Definition relation (f : Z -> Z -> bool) (a b : Term) : Term := bool_term (fun σ => f (t_num a σ) (t_num b σ)) None.

#[local] Instance term_stp : STP := {|
  VCExpr := Term; VCType := TermSort; vc_boolType := SBool; vc_bvType := SBv;
  vc_arrayType d r := match d, r with SBv d, SBv r => SArray d r | _, _ => SBool end;
  vc_varExpr name s :=
    match s with
    | SBool => bool_term (fun σ => negb (σ name 0 =? 0)) None
    | SBv w => bv_term w (fun σ => σ name 0)
    | SArray d r => MkTerm s (fun _ => 0) (fun σ i => σ name i mod 2 ^ r) None
    end;
  vc_trueExpr := bool_term (fun _ => true) (Some true);
  vc_falseExpr := bool_term (fun _ => false) (Some false);
  vc_notExpr a := bool_term (fun σ => negb (truth a σ)) (negb <$> t_sure a);
  vc_andExpr a b := bool_term (fun σ => truth a σ && truth b σ) None;
  vc_orExpr a b := bool_term (fun σ => truth a σ || truth b σ) None;
  vc_iffExpr a b := bool_term (fun σ => eqb (truth a σ) (truth b σ)) None;
  vc_eqExpr a b := relation Z.eqb a b;
  vc_iteExpr c t f :=
    match t_sort t with
    | SBool => bool_term (fun σ => if truth c σ then truth t σ else truth f σ) None
    | SBv w => bv_term w (fun σ => if truth c σ then t_num t σ else t_num f σ)
    | SArray _ _ => t
    end;
  vc_bvConstExprFromInt w v := bv_term w (fun _ => v);
  vc_bvConstExprFromLL w v := bv_term w (fun _ => v);
  vc_getBVLength := width;
  vc_bvExtract v top bottom := bv_term (top - bottom + 1) (fun σ => t_num v σ / 2 ^ bottom);
  vc_bvConcatExpr a b := operation (width a + width b) (fun x y => x * 2 ^ width b + y) a b;
  vc_bvSignExtend v n := bv_term n (fun σ => to_signed (width v) (t_num v σ));
  vc_bvPlusExpr w := operation w Z.add;
  vc_bvMinusExpr w := operation w Z.sub;
  vc_bvMultExpr w := operation w Z.mul;
  vc_bvDivExpr w := operation w Z.div;
  vc_bvModExpr w := operation w Z.modulo;
  vc_sbvDivExpr w := operation w (fun x y => Z.quot (to_signed w x) (to_signed w y));
  vc_sbvRemExpr w := operation w (fun x y => Z.rem (to_signed w x) (to_signed w y));
  vc_bvUMinusExpr a := bv_term (width a) (fun σ => - t_num a σ);
  vc_bvNotExpr a := bv_term (width a) (fun σ => Z.lnot (t_num a σ));
  vc_bvAndExpr a b := operation (width a) Z.land a b;
  vc_bvOrExpr a b := operation (width a) Z.lor a b;
  vc_bvXorExpr a b := operation (width a) Z.lxor a b;
  vc_bvLtExpr := relation Z.ltb;
  vc_bvLeExpr := relation Z.leb;
  vc_sbvLtExpr a b := relation (fun x y => to_signed (width a) x <? to_signed (width a) y) a b;
  vc_sbvLeExpr a b := relation (fun x y => to_signed (width a) x <=? to_signed (width a) y) a b;
  vc_writeExpr a i v := MkTerm (t_sort a) (fun _ => 0) (fun σ j => if t_num i σ =? j then t_num v σ else t_elements a σ j) None;
  vc_readExpr a i := bv_term (match t_sort a with SArray _ r => r | _ => 0 end) (fun σ => t_elements a σ (t_num i σ));
  getActiveBits w := Z.log2 w + 1
|}.

Definition term_bool (σ : values) (t : Term) (b : bool) : Prop :=
  t_sort t = SBool /\ truth t σ = b /\ forall b', t_sure t = Some b' -> b' = b.

Definition term_bv (σ : values) (t : Term) (w x : Z) : Prop := t_sort t = SBv w /\ 0 < w /\ t_num t σ = x /\ 0 <= x < 2 ^ w.

Definition term_array (σ : values) (t : Term) (d r : Z) (f : Z -> Z) : Prop :=
  t_sort t = SArray d r /\ 0 < r /\ forall i, t_elements t σ i = f i /\ 0 <= f i < 2 ^ r.

Lemma bool_term_ok σ f sure : (forall b, sure = Some b -> b = f σ) -> term_bool σ (bool_term f sure) (f σ).
Proof. intros H. split; [done|]. split; [|done]. unfold truth. cbn. by destruct (f σ). Qed.

Lemma bv_term_ok σ w f : 0 < w -> term_bv σ (bv_term w f) w (f σ mod 2 ^ w).
Proof. intros Hw. split_and!; [done|done|done|apply mod_pow2_range; lia..]. Qed.

Lemma bv_term_is σ w f x : 0 < w -> f σ = x -> 0 <= x < 2 ^ w -> term_bv σ (bv_term w f) w x.
Proof. intros Hw <- Hx. rewrite <- (Z.mod_small (f σ) (2 ^ w)) at 1 by done. by apply bv_term_ok. Qed.

Lemma operation_ok σ w f a b w1 x w2 y : 0 < w -> term_bv σ a w1 x -> term_bv σ b w2 y -> term_bv σ (operation w f a b) w (f x y mod 2 ^ w).
Proof. intros Hw (_ & _ & <- & _) (_ & _ & <- & _). by apply bv_term_ok. Qed.

Lemma relation_ok σ f a b w x w' y : term_bv σ a w x -> term_bv σ b w' y -> term_bool σ (relation f a b) (f x y).
Proof. intros (_ & _ & <- & _) (_ & _ & <- & _). by apply bool_term_ok. Qed.

Lemma small_operation σ w f a b w1 x w2 y : 0 < w -> term_bv σ a w1 x -> term_bv σ b w2 y -> 0 <= f x y < 2 ^ w -> term_bv σ (operation w f a b) w (f x y).
Proof. intros Hw Ha Hb Hf. rewrite <- (Z.mod_small (f x y) (2 ^ w)) by done. by eapply operation_ok. Qed.

Lemma width_of σ t w x : term_bv σ t w x -> width t = w.
Proof. intros (E & _). unfold width. by rewrite E. Qed.

Lemma bitwise_bits f a b w : 0 <= w -> 0 <= a < 2 ^ w -> 0 <= b < 2 ^ w -> 0 <= f a b -> (forall i, 0 <= i -> Z.testbit a i = false -> Z.testbit b i = false -> Z.testbit (f a b) i = false) -> 0 <= f a b < 2 ^ w.
Proof.
  intros Hw Ha Hb H0 Hf. split; [done|]. apply bits_bounded; [done|done|]. intros i Hi. apply Hf; [lia|..].
  - destruct (Z.eq_dec a 0) as [-> |]; [apply Z.bits_0|]. apply Z.bits_above_log2; [lia|]. apply Z.lt_le_trans with w; [apply Z.log2_lt_pow2; lia|done].
  - destruct (Z.eq_dec b 0) as [-> |]; [apply Z.bits_0|]. apply Z.bits_above_log2; [lia|]. apply Z.lt_le_trans with w; [apply Z.log2_lt_pow2; lia|done].
Qed.

#[local] Instance term_laws : STPLaws term_stp.
Proof.
  refine {| is_bool := term_bool; is_bv := term_bv; is_array := term_array |}; cbn [vc_trueExpr vc_falseExpr vc_notExpr vc_andExpr vc_orExpr vc_iffExpr vc_eqExpr vc_iteExpr vc_bvConstExprFromInt
    vc_bvConstExprFromLL vc_getBVLength vc_bvExtract vc_bvConcatExpr vc_bvSignExtend vc_bvPlusExpr vc_bvMinusExpr vc_bvMultExpr vc_bvDivExpr vc_bvModExpr vc_sbvDivExpr vc_sbvRemExpr vc_bvUMinusExpr
    vc_bvNotExpr vc_bvAndExpr vc_bvOrExpr vc_bvXorExpr vc_bvLtExpr vc_bvLeExpr vc_sbvLtExpr vc_sbvLeExpr vc_writeExpr vc_readExpr vc_varExpr vc_arrayType vc_bvType getActiveBits term_stp VCExpr VCType].
  - by intros σ v b b' (_ & <- & _) (_ & <- & _).
  - by intros σ v w x (_ & ? & _ & ?).
  - intros σ. apply (bool_term_ok σ (fun _ => true)). by intros b [= <-].
  - intros σ. apply (bool_term_ok σ (fun _ => false)). by intros b [= <-].
  - intros σ a x (_ & <- & Hs). apply (bool_term_ok σ (fun σ => negb (truth a σ))). intros b (b' & Hb & ->)%fmap_Some. by rewrite (Hs b' Hb).
  - intros σ a b x y (_ & <- & _) (_ & <- & _). by apply (bool_term_ok σ (fun σ => truth a σ && truth b σ)).
  - intros σ a b x y (_ & <- & _) (_ & <- & _). by apply (bool_term_ok σ (fun σ => truth a σ || truth b σ)).
  - intros σ a b x y (_ & <- & _) (_ & <- & _). by apply (bool_term_ok σ (fun σ => eqb (truth a σ) (truth b σ))).
  - intros σ c t f b x y (_ & <- & _) (-> & <- & _) (_ & <- & _). by apply (bool_term_ok σ (fun σ => if truth c σ then truth t σ else truth f σ)).
  - intros σ c t f b w x y (_ & <- & _) (-> & Hw & <- & Hx) (_ & _ & <- & Hy). apply (bv_term_is σ w (fun σ => if truth c σ then t_num t σ else t_num f σ)); [done|by destruct (truth c σ)..].
  - intros. by eapply relation_ok.
  - intros σ w v Hw Hv Hlt. apply (bv_term_is σ w (fun _ => v)); [done|done|lia].
  - intros σ w v Hw Hv. apply (bv_term_ok σ w (fun _ => v)). lia.
  - intros. by eapply width_of.
  - intros σ v w x top bottom (_ & _ & <- & _) Hb Ht. apply (bv_term_ok σ (top - bottom + 1) (fun σ => t_num v σ / 2 ^ bottom)). lia.
  - intros σ a b w x w' y Ha Hb. rewrite (width_of _ _ _ _ Ha), (width_of _ _ _ _ Hb). pose proof Ha as (_ & Hw & _ & Hx). pose proof Hb as (_ & Hw' & _ & Hy).
    apply (small_operation σ (w + w') (fun x y => x * 2 ^ w' + y) a b w x w' y); [lia|done|done|]. rewrite Z.pow_add_r by lia. nia.
  - intros σ v w x n Hv Hn. rewrite (width_of _ _ _ _ Hv). pose proof Hv as (_ & Hw & <- & _). apply (bv_term_ok σ n (fun σ => to_signed w (t_num v σ))). lia.
  - intros σ a b w x y Ha Hb. pose proof Ha as (_ & Hw & _). by eapply operation_ok.
  - intros σ a b w x y Ha Hb. pose proof Ha as (_ & Hw & _). by eapply operation_ok.
  - intros σ a b w x y Ha Hb. pose proof Ha as (_ & Hw & _). by eapply operation_ok.
  - intros σ a b w x y Ha Hb. pose proof Ha as (_ & Hw & _ & Hx). pose proof Hb as (_ & _ & _ & Hy). eexists. split; [by eapply operation_ok|]. intros Hy0. apply Z.mod_small. split; [apply Z.div_pos; lia|].
    apply Z.le_lt_trans with x; [|lia]. apply Z.div_le_upper_bound; nia.
  - intros σ a b w x y Ha Hb. pose proof Ha as (_ & Hw & _ & Hx). pose proof Hb as (_ & _ & _ & Hy). eexists. split; [by eapply operation_ok|]. intros Hy0. apply Z.mod_small.
    pose proof (Z.mod_pos_bound x y ltac:(lia)). lia.
  - intros σ a b w x y Ha Hb. pose proof Ha as (_ & Hw & _). eexists. split; [by eapply operation_ok|done].
  - intros σ a b w x y Ha Hb. pose proof Ha as (_ & Hw & _). eexists. split; [by eapply operation_ok|done].
  - intros σ a w x Ha. rewrite (width_of _ _ _ _ Ha). pose proof Ha as (_ & Hw & <- & _). by apply (bv_term_ok σ w (fun σ => - t_num a σ)).
  - intros σ a w x Ha. rewrite (width_of _ _ _ _ Ha). pose proof Ha as (_ & Hw & <- & _). by apply (bv_term_ok σ w (fun σ => Z.lnot (t_num a σ))).
  - intros σ a b w x y Ha Hb. rewrite (width_of _ _ _ _ Ha). pose proof Ha as (_ & Hw & _ & Hx). pose proof Hb as (_ & _ & _ & Hy). eapply small_operation; [done..|]. apply bitwise_bits; [lia|done|done|apply Z.land_nonneg; lia|].
    intros i Hi H1 H2. by rewrite Z.land_spec, H1.
  - intros σ a b w x y Ha Hb. rewrite (width_of _ _ _ _ Ha). pose proof Ha as (_ & Hw & _ & Hx). pose proof Hb as (_ & _ & _ & Hy). eapply small_operation; [done..|]. apply bitwise_bits; [lia|done|done|apply Z.lor_nonneg; lia|].
    intros i Hi H1 H2. by rewrite Z.lor_spec, H1, H2.
  - intros σ a b w x y Ha Hb. rewrite (width_of _ _ _ _ Ha). pose proof Ha as (_ & Hw & _ & Hx). pose proof Hb as (_ & _ & _ & Hy). eapply small_operation; [done..|]. apply bitwise_bits; [lia|done|done|apply Z.lxor_nonneg; lia|].
    intros i Hi H1 H2. by rewrite Z.lxor_spec, H1, H2.
  - intros. by eapply relation_ok.
  - intros. by eapply relation_ok.
  - intros σ a b w x y Ha Hb. rewrite (width_of _ _ _ _ Ha). eapply (relation_ok σ (fun x y => to_signed w x <? to_signed w y)); eassumption.
  - intros σ a b w x y Ha Hb. rewrite (width_of _ _ _ _ Ha). eapply (relation_ok σ (fun x y => to_signed w x <=? to_signed w y)); eassumption.
  - intros σ name d r Hd Hr. split; [done|]. split; [done|]. intros i. split; [done|]. apply mod_pow2_range. lia.
  - intros σ a i v d r f x y (Ea & Hr & Hf) (_ & _ & <- & _) (_ & _ & <- & Hy). split; [exact Ea|]. split; [done|]. intros j. cbn. by destruct (t_num i σ =? j).
  - intros σ a i d r f x (-> & Hr & Hf) (_ & _ & <- & _). destruct (Hf (t_num i σ)) as [Ef Hr']. rewrite <- Ef in *. by apply (bv_term_is σ r (fun σ => t_elements a σ (t_num i σ))).
  - done.
Defined.

(** Where all variables have one value. *)
Definition constant_values (c : Z) : values := fun _ _ => c.
Definition refutes (A : list Term) (q : Term) (c : Z) : bool := forallb (fun a => truth a (constant_values c)) A && negb (truth q (constant_values c)).
Definition refutation (A : list Term) (q : Term) : option Z := List.find (refutes A q) (seqZ 0 256).

(** A formula that is known to hold is valid; the others are tried. *)
#[local] Instance term_queries : STPQueries term_stp := {|
  vc_query A q :=
    match refutation A q with
    | Some _ => 0
    | None => if bool_decide (t_sure q = Some true) then 1 else 2
    end;
  vc_getCounterExample A q e := let c := default 0 (refutation A q) in bv_term (width e) (fun _ => t_num e (constant_values c));
  getBVUnsigned t := t_num t (constant_values 0)
|}.

Lemma truth_known σ t b : term_bool σ t b -> truth t σ = b.
Proof. by intros (_ & ? & _). Qed.

#[local] Instance term_queries_laws : STPQueriesLaws term_stp term_laws term_queries.
Proof.
  split.
  - intros A q σ Hq HA (_ & _ & Hs). cbn in Hq. destruct (refutation A q); [done|]. case_bool_decide as E; [|done]. by specialize (Hs true E).
  - intros A q [Hq HA]%Forall_cons Ha. cbn in Ha. destruct (refutation A q) as [c|] eqn:Er; [|by case_bool_decide]. exists (constant_values c).
    pose proof (List.find_some _ _ Er) as [_ Hr]. unfold refutes in Hr. apply andb_true_iff in Hr as [Hall Hf%negb_true_iff]. rewrite forallb_forall in Hall. split_and!.
    + apply Forall_forall. intros a Hin. rewrite Forall_forall in HA. destruct (HA a Hin (constant_values c)) as [b Hb]. apply truth_known in Hb as Et.
      rewrite (Hall a) in Et by by apply list_elem_of_In. by rewrite Et.
    + destruct (Hq (constant_values c)) as [b Hb]. apply truth_known in Hb as Et. by rewrite Hf in Et; rewrite Et.
    + intros e w x (Es & Hw & <- & Hx) _. cbn [getBVUnsigned vc_getCounterExample term_queries]. rewrite Er. unfold width. rewrite Es. by apply Z.mod_small.
Qed.

#[local] Instance wide_zero : WideShifts := {| shl_wide x n := Done (u32 (Z.shiftl x n)) |}.
#[local] Existing Instance mixed_heap.
#[local] Existing Instance default_options.

(** ** Products and quotients by constants *)

(** C35. A multiplier is the difference of two words that have no bit in common, so that
    the product is a sum and difference of shifts; an unsigned 32-bit quotient by a
    constant is that of the multiplication and shifts with the constants that are
    computed for it, for every dividend, and so is a signed one, for every divisor that
    is not zero; for a divisor above [2^31] the computation shifts a 32-bit word by 32
    bits, and for a signed divisor 0 it divides by zero. *)
Theorem constant_division_exact {WS : WideShifts} :
  (forall x, 0 <= x < 2 ^ 64 -> exists add sub, ComputeMultConstants64 x = Done (add, sub) /\ 0 <= add < 2 ^ 64 /\ 0 <= sub < 2 ^ 64 /\ Z.land add sub = 0 /\
     forall n, u64 (n * add - n * sub) = u64 (n * x)) /\
  (forall d, 0 < d < 2 ^ 32 -> (2 ^ 31 < d -> shl_wide 0 32 = Done 0) ->
     exists mprime sh1 sh2, ComputeUDivConstants32 d = Done (mprime, sh1, sh2) /\ 0 <= mprime < 2 ^ 32 /\ 0 <= sh1 <= 1 /\ 0 <= sh2 <= 31 /\
       forall n, 0 <= n < 2 ^ 32 -> let t1 := u64 (mprime * n) / 2 ^ 32 in Z.shiftr (u32 (Z.shiftr (u32 (n - t1)) sh1 + t1)) sh2 = n / d) /\
  (forall d, - 2 ^ 31 <= d < 2 ^ 31 -> d <> 0 ->
     exists mprime dsign shpost, ComputeSDivConstants32 d = Done (mprime, dsign, shpost) /\ - 2 ^ 31 <= mprime < 2 ^ 31 /\ (dsign = 0 \/ dsign = -1) /\ 0 <= shpost <= 30 /\
       forall n, 0 <= n < 2 ^ 32 -> sdiv_by_constants (mprime, dsign, shpost) n = u32 (Z.quot (to_signed 32 n) d)) /\
  (forall d, 2 ^ 31 < d < 2 ^ 32 -> shl_wide 0 32 = Undefined -> ComputeUDivConstants32 d = Undefined) /\
  ComputeSDivConstants32 0 = Undefined.
Proof.
  split_and!.
  - intros x Hx. destruct (ComputeMultConstants64_ok x Hx) as (add & sub & E & Ha & Hs & Ex & Hd). exists add, sub. split_and!; try done; try lia.
    + apply Z.bits_inj'. intros i Hi. rewrite Z.land_spec, Z.bits_0. destruct (Hd i Hi) as [-> | ->]; [done|apply andb_false_r].
    + intros n. unfold u64 in *. rewrite <- Z.mul_sub_distr_l, <- Ex. by rewrite Z.mul_mod_idemp_r by lia.
  - exact (ComputeUDivConstants32_ok).
  - exact (ComputeSDivConstants32_ok).
  - intros d Hd Hu. destruct (LOG2_CEIL_spec d ltac:(lia)) as (H1 & H2 & _). unfold ComputeUDivConstants32. cbv zeta.
    assert (LOG2_CEIL d = 32) as -> by (destruct (Z.eq_dec (LOG2_CEIL d) 32); [done|]; pose proof (pow2_mono (LOG2_CEIL d) 31 ltac:(lia)); lia).
    change (exp_base_2 32) with (shl_wide 0 32). by rewrite Hu.
  - done.
Qed.

Lemma constant_division_exact_witness :
  (exists add sub, ComputeMultConstants64 5739 = Done (add, sub) /\ Z.land add sub = 0 /\ u64 (3 * add - 3 * sub) = 17217) /\
  (exists c, ComputeUDivConstants32 7 = Done c /\ udiv_by_constants c 4294967295 = 613566756) /\
  exists c, ComputeSDivConstants32 (-7) = Done c /\ sdiv_by_constants c (u32 (-100)) = 14.
Proof.
  destruct constant_division_exact as (Hm & Hu & Hs & _). split_and!.
  - destruct (Hm 5739 ltac:(lia)) as (add & sub & E & _ & _ & Hl & Hn). exists add, sub. split; [exact E|]. split; [exact Hl|]. exact (Hn 3).
  - destruct (Hu 7 ltac:(lia) ltac:(done)) as (m & s1 & s2 & E & _ & _ & _ & Hn). eexists. split; [exact E|]. etrans; [apply (Hn 4294967295); lia|by vm_compute].
  - destruct (Hs (-7) ltac:(lia) ltac:(lia)) as (m & s1 & s2 & E & _ & _ & _ & Hn). eexists. split; [exact E|]. etrans; [apply Hn; split; [by apply Z.leb_le|by apply Z.ltb_lt]|by vm_compute].
Defined.

(** ** The translation *)

(** C9. The builder, whatever it knows, translates well-formed expressions that keep
    the conventions of its assertions ([canonical]: the kinds that the constructors
    make, truth values not taken apart or put together, casts that extend, no constant
    divisor zero, arrays with an index for each of their bytes), in any order and
    number, and what it returns has their values: for every values of STP's variables
    there is an environment, and for every environment there are values of the
    variables, under which each of the expressions returned has the value of its
    expression, as a truth value when its width is 1 and as a bit vector of its width
    otherwise, unless a division by zero, an arithmetic shift beyond the width, a
    constant amount above 32 bits or a read outside a constant array happens in it.
    Two things are asked: no symbolic array has the name of another with digits
    appended ([names_apart]), because the builder makes names unique by appending a
    number, and [a1] with number 0 is the variable of [a] with number 10
    ([names_collide]); and the shift of a 32-bit word by 32 bits, which C++ leaves
    undefined and the constants for a division need, gives 0 ([shl_wide]). *)
Theorem stp_translation_exact {VC : STP} {VL : STPLaws VC} {WS : WideShifts} {AP : APIntOps} {APL : APIntLaws} {AH : ArrayHeap}
    (UseConstructHash optimizeDivides : bool) (wide_shift : shl_wide 0 32 = Done 0) (names : names_apart) (b : STPBuilder VC) (es : list Expr) :
  knows b -> Forall wf es -> Forall canonical es ->
  exists vs b', mapM (construct UseConstructHash optimizeDivides) es b = Done (vs, b') /\ knows b' /\ grows b b' /\
    Forall2 (fun e v => typed v (getWidth e)) es vs /\
    (forall σ, exists ρ, Forall2 (fun e v => fits ρ e -> denotes σ v (getWidth e) (eval ρ e)) es vs) /\
    (forall ρ, exists σ, Forall2 (fun e v => fits ρ e -> denotes σ v (getWidth e) (eval ρ e)) es vs).
Proof.
  intros Hb Hw Hc. destruct (mapM_yields (construct UseConstructHash optimizeDivides) (fun e v => typed v (getWidth e)) (fun e v σ ρ => fits ρ e -> denotes σ v (getWidth e) (eval ρ e)) es) with (b := b)
    as (vs & b' & E & Hb' & Hg & Ht & Hd); [|done|].
  - apply Forall_forall. intros e He. rewrite Forall_forall in Hw, Hc. intros b0 Hb0.
    destruct (construct_ok UseConstructHash optimizeDivides wide_shift e (Hw e He) (Hc e He) b0 Hb0) as (v & b1 & E & Hb1 & Hg & Ht & _ & Hd). by exists v, b1.
  - exists vs, b'. split_and!; try done.
    + intros σ. destruct (agree_env σ b' Hb') as [ρ Ha]. exists ρ. by apply Hd.
    + intros ρ. destruct (agree_values names ρ b' Hb') as [σ Ha]. exists σ. by apply Hd.
Qed.

(** Only the buffer is symbolic. *)
Lemma mixed_names : @names_apart mixed_heap.
Proof.
  intros r r' d _ Hr _ Hr' _. unfold array_at, mixed_heap in *. destruct (Pos.eqb r 1); [|done]. destruct (Pos.eqb r' 1); [|done].
  intros [= E]. by destruct d.
Qed.

(** An unsigned and a signed quotient of a byte of the buffer by constants, and a read of
    the table at that byte's lowest bits. *)
Definition wide_byte : Expr := CastExpr ZExt (buf 2) 32.
Definition quotients : list Expr :=
  [BinaryExpr UDiv wide_byte (index32 7); BinaryExpr SDiv wide_byte (index32 (2 ^ 32 - 7)); ReadExpr 2 UNull (BinaryExpr And wide_byte (index32 3))].

Lemma denoted_bv {VC : STP} {VL : STPLaws VC} {AH : ArrayHeap} ρ σ v e w x : (fits ρ e -> denotes σ v (getWidth e) (eval ρ e)) ->
  w <> 1 -> getWidth e = w -> eval ρ e = x -> fits ρ e -> is_bv σ v w x.
Proof. intros H Hw <- <- Hf. apply denotes_bv; auto. Qed.

Lemma stp_translation_exact_witness :
  exists q1 q2 q3 b', mapM (construct true true) quotients (MkBuilder term_stp [] ∅ []) = Done ([q1; q2; q3], b') /\
    exists σ, is_bv σ q1 32 14 /\ is_bv σ q2 32 (2 ^ 32 - 14) /\ is_bv σ q3 8 13.
Proof.
  destruct (stp_translation_exact (WS := wide_zero) true true eq_refl mixed_names (MkBuilder term_stp [] ∅ []) quotients knows_nothing) as (vs & b' & E & _ & _ & _ & _ & H).
  - unfold quotients, wide_byte, buf. repeat (apply Forall_cons; split); try apply List.Forall_nil; cbn -[array_at]; split_and!; try apply wf_mixed; done.
  - repeat (apply Forall_cons; split); try apply List.Forall_nil; cbn; split_and!; done.
  - destruct (H (fun _ k => 100 + k)) as [σ (q1 & vs1 & H1 & (q2 & vs2 & H2 & (q3 & vs3 & H3 & ->%Forall2_nil_inv_l & ->)%Forall2_cons_inv_l & ->)%Forall2_cons_inv_l & ->)%Forall2_cons_inv_l].
    exists q1, q2, q3, b'. split; [exact E|]. exists σ. split_and!.
    + apply (denoted_bv (fun _ k => 100 + k) σ q1 _ 32 14 H1); [done|done|by vm_compute|cbn; split_and!; done].
    + apply (denoted_bv (fun _ k => 100 + k) σ q2 _ 32 (2 ^ 32 - 14) H2); [done|done|by vm_compute|cbn; split_and!; done].
    + apply (denoted_bv (fun _ k => 100 + k) σ q3 _ 8 13 H3); [done|done|by vm_compute|cbn; split_and!; done].
Defined.

(** When a name ends in a digit, the number after it may be read as part of another
    name: array [a1] with number 0 and array [a] with number 10 are one variable of STP. *)
Example names_collide : buildArray ("a1" +:+ pretty 0) 32 8 = buildArray ("a" +:+ pretty 10) 32 8.
Proof. reflexivity. Qed.

(** ** The solver *)

(** C8. The solver STP keeps the contract of solvers on boolean queries that the builder
    translates ([translatable]): their expressions keep its conventions ([canonical]),
    and the constraints make each other and the expression meaningful in their order, so
    that no division by zero, shift beyond the width or read outside a constant array is
    reached.  The arrays are arrays of bytes indexed with 32 bits, and no symbolic one
    has the name of another with digits appended ([names_apart]), as the builder appends
    numbers to names; with such names two arrays may be one variable of STP
    ([names_collide]) and nothing is shown.  The objects that are asked for are distinct and smaller together
    than the memory that is shared with a child; a value is asked under constraints that
    can be satisfied and guard divisions and reads ([guarded]); the option
    -const-array-opt is off, as by default; the shift of a 32-bit word by 32 bits gives
    0; STP keeps its laws.  Then, where it answers, that a query has no counterexample means that it is valid, and the
    bytes it gives for the objects are those of a counterexample; its truth is validity;
    its value is a constant of the expression's width that the expression has where the
    constraints hold.  In this process it always answers, and STP is assumed to: any
    other answer counts as unsatisfiable ([runAndGetCex_unanswered]).  In a child it
    answers when the child finishes with an answer of STP; a timeout, and a fork, wait,
    signal or exit code that fails, gives no answer and writes no result (the failures
    under -ignore-solver-failures, without which the process exits).  The builder stays
    right. *)
Theorem stp_solver_sound {VC : STP} {VL : STPLaws VC} {VQ : STPQueries VC} {QL : STPQueriesLaws VC VL VQ} {PR : Processes VC} {SO : STPOptions} {WS : WideShifts}
    {AP : APIntOps} {APL : APIntLaws} {AH : ArrayHeap} {OP : ExprOptions} {VO : VisitorOptions}
    (wide_shift : shl_wide 0 32 = Done 0) (names : names_apart) (bytes : forall r, wf_array (array_at r) -> byte_array (array_at r))
    (default_opt : ConstArrayOpt = false) (domain32 : forall r, arr_domain (array_at r) <= 32)
    (system : if UseForkedSTP then forall A v, IgnoreSolverFailures = true \/ fate A v = TimedOut \/ system_answers A v else forall A v, answered A v) :
  forall s, knows (builder s) ->
  (forall q objects, translatable q -> objects_ok objects -> total_size objects < shared_memory_size ->
     exists r s', stp_computeInitialValues q objects s = Done (r, s') /\ knows (builder s') /\ initial_result_ok q objects r /\
       ((UseForkedSTP = true -> forall A v, system_answers A v) -> iv_success r = true) /\
       (iv_success r = false -> iv_hasSolution r = None) /\ iv_success r = succeeded (runStatusCode s')) /\
  (forall q, translatable q ->
     exists r s', stp_computeTruth q s = Done (r, s') /\ knows (builder s') /\ ((UseForkedSTP = true -> forall A v, system_answers A v) -> r <> None) /\
       forall b, r = Some b -> (b = true <-> valid q)) /\
  (forall q, guarded q -> translatable (withFalse q) -> total_size (findSymbolicObjects [q_expr q]) < shared_memory_size ->
     exists r s', stp_computeValue q s = Done (r, s') /\ knows (builder s') /\ ((UseForkedSTP = true -> forall A v, system_answers A v) -> r <> None) /\
       forall e, r = Some e -> exists c, e = ConstantExpr c /\ wf_apint c /\ getBitWidth c = getWidth (q_expr q) /\
         exists ρ, sat ρ (constraints q) /\ eval ρ (q_expr q) = uval c).
Proof.
  intros s Hs. split_and!.
  - intros q objects Hq Ho Hsz. apply initial_values_ok; try done. by destruct UseForkedSTP.
  - intros q Hq. by apply computeTruth_ok.
  - intros q Hg Hq Hsz. apply computeValue_ok; try done. by destruct UseForkedSTP.
Qed.

(** A child that is stopped when STP does not answer. *)
#[local] Instance term_processes : Processes term_stp := {| fate A q := if vc_query A q =? 2 then TimedOut else Finished |}.
#[local] Instance forked : STPOptions := {| IgnoreSolverFailures := false; UseForkedSTP := true; STPConstructHash := true; OptimizeDivides := true |}.
#[local] Instance hashed_visits : VisitorOptions := {| UseVisitorHash := true |}.

Lemma child_stops A v : IgnoreSolverFailures = true \/ fate A v = TimedOut \/ system_answers A v.
Proof.
  right. unfold system_answers, answered. cbn. destruct (refutation A v); [right; by split; [|left]|]. case_bool_decide; [right; by split; [|right]|by left].
Qed.

(** One byte of the buffer is 100; is another 5?  And what is that byte? *)
Definition pinned (e : Expr) : Query := MkQuery [BinaryExpr EqK (byte8 100) (buf 1)] e.
Definition five : Expr := BinaryExpr EqK (byte8 5) (buf 0).
Definition hundred : Expr := CastExpr ZExt (buf 1) 32.

Lemma mixed_bytes r : wf_array (array_at r) -> byte_array (array_at r).
Proof. intros _. unfold array_at, mixed_heap. by destruct (Pos.eqb r 1). Qed.

Lemma mixed_domain r : arr_domain (array_at r) <= 32.
Proof. unfold array_at, mixed_heap. by destruct (Pos.eqb r 1). Qed.

Lemma pinned_translatable e : wf e -> getWidth e = Bool -> canonical e -> (forall ρ, fits ρ e) -> translatable (pinned e).
Proof.
  intros Hw Hb Hc Hf. split.
  - split; [|by split]. apply Forall_singleton. split; [|done]. cbn -[array_at]. split_and!; try apply wf_mixed; done.
  - repeat (apply Forall_cons; split); done.
  - intros ρ. cbn. split_and!; try done.
Qed.

Lemma pinned_guarded : guarded (pinned hundred).
Proof.
  split.
  - split; [apply Forall_singleton; split; [|done]| |]; [cbn -[array_at]; split_and!; try apply wf_mixed; done..|]. exists (fun _ _ => 100). by intros c ->%list_elem_of_singleton.
  - by repeat constructor.
  - intros ρ _. by repeat constructor.
  - intros ρ _. repeat (apply Forall_cons; split); try done; intros r u i H%list_elem_of_In; cbn in H; destruct_or?; simplify_eq; cbn; lia.
Qed.

Lemma stp_solver_sound_witness :
  (exists r s', stp_computeInitialValues (pinned five) [1%positive] stp_new = Done (r, s') /\ iv_values r = [[100; 100; 100; 100]] /\ solution (pinned five) [1%positive] (iv_values r)) /\
  (exists s', stp_computeTruth (pinned five) stp_new = Done (Some false, s')) /\ ~ valid (pinned five) /\
  exists c s', stp_computeValue (pinned hundred) stp_new = Done (Some (ConstantExpr c), s') /\ uval c = 100 /\ exists ρ, sat ρ (constraints (pinned hundred)) /\ eval ρ hundred = uval c.
Proof.
  destruct (stp_solver_sound (WS := wide_zero) (OP := default_options) (SO := forked) eq_refl mixed_names mixed_bytes eq_refl mixed_domain child_stops stp_new knows_nothing) as (Hi & Ht & Hv).
  assert (wf five /\ canonical five) as [Hwf Hc] by (cbn -[array_at]; split_and!; try apply wf_mixed; done).
  assert (translatable (pinned five)) as Hq by (apply pinned_translatable; try done; intros ρ; cbn; split_and!; done). split_and!.
  - destruct (Hi (pinned five) [1%positive] Hq) as (r & s' & E & _ & Hr & _); [split; [repeat constructor; set_solver|apply Forall_singleton, wf_mixed]|done|].
    exists r, s'. split; [exact E|]. assert (Done r = fst <$> stp_computeInitialValues (pinned five) [1%positive] stp_new) as Er by (by rewrite E). vm_compute in Er. injection Er as ->. split; [done|]. by destruct (Hr eq_refl) as [[? _]|[_ ?]].
  - destruct (Ht (pinned five) Hq) as (r & s' & E & _). exists s'. rewrite E. assert (Done r = fst <$> stp_computeTruth (pinned five) stp_new) as Er by (by rewrite E). vm_compute in Er. by injection Er as ->.
  - destruct (Ht (pinned five) Hq) as (r & s' & E & _ & _ & H). assert (Done r = fst <$> stp_computeTruth (pinned five) stp_new) as Er by (by rewrite E). vm_compute in Er. injection Er as ->. intros Hval. by apply (H false) in Hval.
  - destruct (Hv (pinned hundred) pinned_guarded) as (r & s' & E & _ & _ & H); [by apply pinned_translatable|done|].
    assert (Done r = fst <$> stp_computeValue (pinned hundred) stp_new) as Er by (by rewrite E). vm_compute in Er. injection Er as ->. destruct (H _ eq_refl) as (c & [= <-] & _ & _ & Hex). eexists _, s'. split; [exact E|]. split; [done|exact Hex].
Defined.
